(* ===== verification/_CoqProject ===== *)
-Q . S2P
Prelude.v
TimerSchedule.v
PosixProtocol.v
ProcessTimer.v
Credentials.v
SignalState.v
Signals.v
SignalProofs.v
SignalTheorems.v
RecordLock.v
LockExec.v
Reach.v
SocketGc.v
SocketProtocol.v
SocketRights.v
SocketStream.v
SocketRecord.v
Socket.v
SocketGraph.v
SocketTable.v
SocketOps.v
SocketRelease.v
SocketRecordOps.v
SocketFlow.v
SocketBinding.v
SocketObject.v
SocketConnect.v
SocketReceiveWait.v
SocketRoute.v
SocketTransfer.v
SocketProvider.v
SocketCollect.v
SocketWorker.v
SocketTheorems.v
SocketExample.v
RecordLockWait.v
Service.v
Lifecycle.v
Fork.v
Launch.v
ChildWait.v
Jobs.v
ServiceFrame.v
ProcessTree.v
ServiceProofs.v
ServiceSteps.v
ServiceExample.v
ServiceRuns.v
ServiceTheorems.v
JobTheorems.v
Teardown.v
Text.v
MbootProtocol.v
MbootConnection.v
Consent.v
Fifo.v
Storage.v
Partition.v
StorageReservation.v
PermissionPrompt.v
Pty.v
PtyManager.v
