(* ===== verification/Prelude.v ===== *)
(** * mochiOS services: a verification library

    The repository holds the user-space services of mochiOS, written in Rust:
    the POSIX service ([posix]), the filesystem ([filesystem]), the capability
    and consent service ([capability]), the mBoot control protocol
    ([mboot-protocol]), and the display, input, network, update and session
    services.  This library models the parts whose behaviour is decided by
    the code of the repository itself: owner-side tables, state machines,
    codecs and searches.  Each model is a shallow embedding: a function of the
    source is a Rocq function with the same name, tests and early returns in
    the same order.

    ** Conventions

    - A [Result<A, E>] is [result E A].  A method on [&mut self] is a function
      from the state to the new state and its result ([stM]), so an error
      keeps the mutations made before it, as in Rust.
    - Machine integers are [Z]; every operation that can leave the range of
      its type is written with its check, its saturation or its wrap-around.
      Lengths of objects in memory ([usize]) cannot overflow.
    - [Vec], [VecDeque] and slices are lists; ordered maps and sets are
      stdpp's [gmap] and [gset], or lists where order or duplicates matter.
    - The outcome of an allocation ([try_reserve]) is a boolean argument, so
      the theorems cover both outcomes.
    - Types, constants and decoders of crates outside the repository are
      fields of a class or of a section; what the code relies on is a named
      hypothesis, and each theorem with one has a witness at a concrete
      instance.
    - A loop that is not structural takes fuel; the theorems show that the
      fuel passed by the model is enough, so the functions are total.

    ** Files

    - [Prelude]: results, the state monad, machine widths, byte strings and
      shared list lemmas.  [Text]: byte strings, UTF-8 and number parsing.
      [Reach]: the marking search shared by two graph algorithms.
    - [TimerSchedule] ([posix/src/timer_schedule.rs]): arming and observing
      one-shot and periodic schedules at 128 bits.  [ProcessTimer]
      ([posix/src/process_timer.rs]): the timers of a process over those
      schedules; processes are isolated, a notification completes once, and
      overruns are counted exactly.
    - [PosixProtocol] ([posix/src/lib.rs]): status codes, signals as bits of a
      set, and the constants of the POSIX protocol crate as a class.
    - [Credentials] ([posix/src/lib.rs]): user and group identifiers, groups
      and resource limits of the processes; no request escalates.
    - [SignalState], [Signals] ([posix/src/lib.rs], [fault_signal.rs],
      [signal_origin.rs], [image_state.rs]): the signal state of a process and
      the signal tables of the service; [SignalProofs] holds their invariant
      and the effect of every operation on what is pending, [SignalTheorems]
      the reachable tables and the theorems on generation, delivery,
      completion and acceptance.
    - [RecordLock] ([posix/src/record_lock.rs]): the byte-range lock registry
      refines a map from bytes to owners; [RecordLockWait]
      ([posix/src/record_lock_wait.rs]): blocking requests and an exact
      deadlock test over the waits-for relation; [LockExec]
      ([posix/src/record_lock_exec.rs]): locks a process gives up at exec.
    - The POSIX service itself ([PosixService] of [posix/src/lib.rs]).
      [Service] holds its tables as one record over the components above, the
      backends for native processes and files as classes, and the observation
      of process images ([image_state.rs]); [Lifecycle] exits, orphaning,
      notifications and reaping ([child_notification.rs]); [Fork] admission
      and prepared forks ([fork_state.rs]); [Launch] launched trees and launch
      domains ([process_domain.rs]); [ChildWait] the waits; [Jobs] process
      groups, sessions, terminals and kill.  [ServiceFrame] shows what most
      operations leave alone, [ProcessTree] the invariant of the process tree
      under each change of it, [ServiceProofs] and [ServiceSteps] that every
      operation keeps the invariant of the whole, as a step relation.
      [ServiceTheorems] holds the invariant of reachable states, the exactness
      of waits, of forks and of the walks of the tree; [JobTheorems] whom kill
      and the hangup of orphaned groups reach; [Teardown] that a teardown ends
      while the native system answers.  [ServiceExample] and [ServiceRuns]
      instantiate the parameters and run the service; [ServiceRuns] also shows
      three runs in which the code departs from its intent: a failed
      reclamation that can never be completed, a reaped child that stays among
      the children of the reaper, and a fork into a group of another session.
    - Local sockets ([posix/src/socket*.rs]), served by one worker thread.
      [SocketProtocol] holds what comes from the protocol and kernel crates,
      [SocketRights] the shared references in messages with their counts,
      budgets and closes over an explicit heap ([socket_rights.rs],
      [socket_reference.rs]), [SocketStream] and [SocketRecord] the queues
      ([socket_stream.rs], [socket_record.rs], [socket_record_io.rs]),
      [Socket] the endpoint table with every operation ([socket.rs]).
      [SocketGraph] holds lemmas on peers and accept queues, [SocketTable] the
      invariant of the table with the ownership of references, [SocketOps],
      [SocketRelease] and [SocketRecordOps] that every operation keeps it.
      [SocketFlow] shows that a connected pair is a bounded byte list in each
      direction, and that readiness agrees with what would block.
      [SocketBinding], [SocketConnect], [SocketReceiveWait], [SocketRoute] and
      [SocketTransfer] model bound names, waiting connections, wait jobs, send
      routes and staged transfers of references, and [SocketObject] the
      identifiers of their native objects (the files of those names).
      [SocketGc] ([socket_gc.rs]) is the search for unreachable sockets, which
      is exact, and [SocketCollect] the collection of cycles over it;
      [SocketProvider] the requests on a socket ([socket_provider.rs]).
      [SocketWorker] is the loop with its handlers ([socket_native.rs] and the
      other [_native.rs] files), as a step on the whole state.
      [SocketTheorems] shows that the worker keeps its invariant and never
      panics, that references, files and handles are conserved, that only
      authenticated messages have an effect and that an accept is atomic;
      [SocketExample] runs it on a concrete conversation.
    - [Fifo] ([posix/src/fifo.rs]): a FIFO inode is a byte stream.
    - [Pty] ([posix/src/pty.rs], [posix/src/pty/editing.rs]): the line
      discipline of a pseudo-terminal.  [PtyManager] ([posix/src/pty.rs],
      [posix/src/filesystem_reference.rs]): the tables of terminals and
      provider objects and the provider entry point over it.
    - [MbootProtocol], [MbootConnection] ([mboot-protocol/src/lib.rs]): the
      codec with its round trips, and the connection gate.
    - [Consent] ([capability/src/consent.rs]): consent transactions; every
      approval is justified by the history and is used once.
    - [PermissionPrompt] ([permission-prompt-protocol/src/lib.rs]): the prompt
      codec.
    - [Storage] ([filesystem/src/storage.rs]), [Partition]
      ([filesystem/src/partition.rs]), [StorageReservation]
      ([filesystem/src/storage_reservation.rs]): byte I/O on a partition of a
      sector device, discovery of GPT partitions, exclusive reservations.

    ** Fuel

    The deadlock search and the socket collector run on a work list in which
    every node enters once; the sector transfers advance by at least one byte
    in every turn; the digits of a 64-bit number are at most 20; the word
    erase of a terminal removes at least one byte in every turn.  The fuel is
    the number of nodes, the length of the transfer, 20, and the length of
    the pending line.  The walk of a launched tree visits a process once,
    since the parents have no cycle, and takes the number of processes with a
    parent; the walk of a launch domain pushes every child once and takes the
    number of children; the deferred notifications and the sweep of prepared
    forks take the length of the list.  The search for a free identifier tries one more than
    are in use, as the code does, and a counting argument shows that it finds
    one.

    ** Not modelled

    Of the socket worker: internet sockets, which are tables of their own over
    the network service, the client halves that send its messages, and the
    deadlines of its waits; a collection of cycles is a step that may happen
    between any two messages.
    Of the POSIX service: the message loop and wire decoding, directories and
    files, the alarms and CPU timers of a process, the names of
    semaphores and shared memory.  An admission assumes that no table still
    names the new process identifier as a child; the run on the reaped child
    shows why this is an assumption.
    Services that are mostly message transport, rendering, device access or
    calls of libraries outside the repository are listed in the project
    manifest with the reason. *)

From Stdlib Require Export ZArith Lia.
From stdpp Require Export base tactics decidable option gmap list.

#[global] Open Scope Z_scope.

(** ** Results: Rust's [Result<A, E>] *)

Inductive result (E A : Type) : Type :=
  | Ok (a : A)
  | Err (e : E).
Arguments Ok {E A} a.
Arguments Err {E A} e.

#[global] Instance result_eq_dec {E A} `{EqDecision E, EqDecision A} :
  EqDecision (result E A).
Proof. solve_decision. Defined.

#[global] Instance result_ret {E} : MRet (result E) := λ A a, Ok a.
#[global] Instance result_bind {E} : MBind (result E) := λ A B k c,
  match c with Ok a => k a | Err e => Err e end.
#[global] Instance result_fmap {E} : FMap (result E) := λ A B f c,
  match c with Ok a => Ok (f a) | Err e => Err e end.

(** [o.ok_or(e)] and [r.map_err(f)]. *)
Definition ok_or {E A} (e : E) (o : option A) : result E A :=
  match o with Some a => Ok a | None => Err e end.
Definition map_err {E F A} (f : E → F) (r : result E A) : result F A :=
  match r with Ok a => Ok a | Err e => Err (f e) end.
(** [if !b { return Err(e) }]. *)
Definition ensure {E} (b : bool) (e : E) : result E unit :=
  if b then Ok tt else Err e.

(** ** Stateful, fallible code: a method on [&mut self] returning a
    [Result].  An error keeps the mutations made before it, as in Rust. *)

Definition stM (S E A : Type) : Type := S → S * result E A.

#[global] Instance stM_ret {S E} : MRet (stM S E) := λ A a s, (s, Ok a).
#[global] Instance stM_bind {S E} : MBind (stM S E) := λ A B k c s,
  match c s with
  | (s', Ok a) => k a s'
  | (s', Err e) => (s', Err e)
  end.

Definition st_get {S E} : stM S E S := λ s, (s, Ok s).
Definition st_put {S E} (s : S) : stM S E unit := λ _, (s, Ok tt).
Definition st_lift {S E A} (r : result E A) : stM S E A := λ s, (s, r).
Definition st_fail {S E A} (e : E) : stM S E A := λ s, (s, Err e).

(** ** Machine integers *)

Definition U8_MAX : Z := 2 ^ 8 - 1.
Definition U16_MAX : Z := 2 ^ 16 - 1.
Definition U32_MAX : Z := 2 ^ 32 - 1.
Definition U64_MAX : Z := 2 ^ 64 - 1.
Definition U128_MAX : Z := 2 ^ 128 - 1.
Definition I64_MAX : Z := 2 ^ 63 - 1.
Definition I64_MIN : Z := - 2 ^ 63.

Definition is_u8 (z : Z) : Prop := 0 ≤ z ≤ U8_MAX.
Definition is_u32 (z : Z) : Prop := 0 ≤ z ≤ U32_MAX.
Definition is_u64 (z : Z) : Prop := 0 ≤ z ≤ U64_MAX.
Definition is_u128 (z : Z) : Prop := 0 ≤ z ≤ U128_MAX.
Definition is_i64 (z : Z) : Prop := I64_MIN ≤ z ≤ I64_MAX.

(** [checked_add], [checked_mul], [checked_sub] and [saturating_sub] of an
    unsigned type with the given maximum. *)
Definition checked_add (max a b : Z) : option Z :=
  if a + b <=? max then Some (a + b) else None.
Definition checked_mul (max a b : Z) : option Z :=
  if a * b <=? max then Some (a * b) else None.
Definition checked_sub (a b : Z) : option Z :=
  if b <=? a then Some (a - b) else None.
Definition saturating_sub (a b : Z) : Z := Z.max 0 (a - b).

(** [Option::filter]. *)
Definition option_keep {A} (p : A → bool) (o : option A) : option A :=
  match o with Some a => if p a then Some a else None | None => None end.

(** [slice.len()] as an integer. *)
Definition zlen {A} (l : list A) : Z := Z.of_nat (length l).

(** [iter().position(p)]. *)
Definition iter_position {A} (p : A → bool) (l : list A) : option nat :=
  fst <$> list_find (λ x, p x = true) l.

(** [Vec::swap_remove]: the last element takes the removed one's place. *)
Definition swap_remove {A} (i : nat) (l : list A) : list A :=
  match last l with
  | Some x => take (length l - 1) (<[i := x]> l)
  | None => l
  end.

(** ** Tactics *)

(** [dst[at..at + src.len()].copy_from_slice(src)]. *)
Definition blit {A} (at_ : nat) (src dst : list A) : list A :=
  take at_ dst ++ src ++ drop (at_ + length src) dst.
(** [l[from..from + n]]. *)
Definition slice {A} (from n : nat) (l : list A) : list A := take n (drop from l).

(** [from_le_bytes] and [to_le_bytes] of the unsigned integers. *)
Fixpoint from_le_bytes (l : list Z) : Z :=
  match l with [] => 0 | b :: l => b + 256 * from_le_bytes l end.
Fixpoint to_le_bytes (n : nat) (z : Z) : list Z :=
  match n with O => [] | S n => z mod 256 :: to_le_bytes n (z / 256) end.

(** Case on the boolean tests and matches of hypotheses and goal. *)
Ltac case_ifs :=
  repeat match goal with
  | H : context [if ?b then _ else _] |- _ =>
      lazymatch type of b with bool => destruct b eqn:? end
  | |- context [if ?b then _ else _] =>
      lazymatch type of b with bool => destruct b eqn:? end
  end.

(** Unfold the machine-integer bounds and call [lia]. *)
Ltac width :=
  unfold is_u8, is_u32, is_u64, is_u128, is_i64, U8_MAX, U16_MAX, U32_MAX, U64_MAX,
    U128_MAX, I64_MAX, I64_MIN in *; lia.

Create HintDb mochi.
Create Rewrite HintDb mochi.

(** ** Inverting results *)

Lemma result_bind_Ok {E A B} (e : result E A) (k : A → result E B) b :
  (e ≫= k) = Ok b ↔ ∃ a, e = Ok a ∧ k a = Ok b.
Proof. destruct e; simpl; naive_solver. Qed.
Lemma ensure_Ok {E} b (e : E) u : ensure b e = Ok u ↔ b = true.
Proof. destruct b, u; naive_solver. Qed.
Lemma ok_or_Ok {E A} (e : E) (o : option A) a : ok_or e o = Ok a ↔ o = Some a.
Proof. destruct o; naive_solver. Qed.

(** Invert a chain of binds that returned [Ok]. *)
Ltac inv_result :=
  repeat match goal with
  | H : (_ ≫= _) = Ok _ |- _ => apply result_bind_Ok in H as (? & ? & ?)
  | H : ensure _ _ = Ok _ |- _ => apply ensure_Ok in H
  | H : ok_or _ _ = Ok _ |- _ => apply ok_or_Ok in H
  | H : Ok _ = Ok _ |- _ => injection H as H
  | H : Err _ = Ok _ |- _ => discriminate H
  | x : (_ * _)%type |- _ => destruct x
  | x : unit |- _ => destruct x
  end; simplify_eq/=.

(** ** Lists *)

Lemma zlen_nil {A} : zlen (@nil A) = 0.
Proof. done. Qed.
Lemma zlen_cons {A} (x : A) l : zlen (x :: l) = 1 + zlen l.
Proof. unfold zlen. simpl. lia. Qed.
Lemma zlen_app {A} (l k : list A) : zlen (l ++ k) = zlen l + zlen k.
Proof. unfold zlen. rewrite length_app. lia. Qed.
Lemma zlen_nonneg {A} (l : list A) : 0 ≤ zlen l.
Proof. unfold zlen. lia. Qed.
#[export] Hint Rewrite @zlen_nil @zlen_cons @zlen_app : mochi.
#[export] Hint Resolve zlen_nonneg : mochi.

Lemma iter_position_Some {A} (p : A → bool) l i :
  iter_position p l = Some i →
  ∃ x, l !! i = Some x ∧ p x = true ∧ ∀ j y, l !! j = Some y → (j < i)%nat → p y = false.
Proof.
  unfold iter_position. destruct (list_find _ l) as [[j x]|] eqn:E; [|done]. intros [= <-].
  apply list_find_Some in E as (? & ? & Hm). exists x. split_and!; try done.
  intros k y Hk Hlt. apply not_true_is_false. by eapply Hm.
Qed.
Lemma iter_position_None {A} (p : A → bool) l :
  iter_position p l = None ↔ ∀ x, x ∈ l → p x = false.
Proof.
  unfold iter_position. rewrite fmap_None, list_find_None, Forall_forall.
  by setoid_rewrite not_true_iff_false.
Qed.

Lemma swap_remove_perm {A} (l : list A) i x : l !! i = Some x → x :: swap_remove i l ≡ₚ l.
Proof.
  intros Hi. unfold swap_remove. destruct (last l) as [y|] eqn:E.
  2: { apply last_None in E. by subst. }
  apply last_Some in E as [k ->]. rewrite length_app. simpl. rewrite Nat.add_sub.
  apply lookup_app_Some in Hi as [Hi|[Hge Hi]].
  - pose proof (lookup_lt_Some _ _ _ Hi) as Hlt.
    rewrite insert_app_l, take_app_length' by (rewrite ?length_insert; lia).
    rewrite (Permutation_app_comm k [y]). simpl.
    rewrite <- (take_drop_middle _ _ _ Hi) at 2. rewrite (insert_take_drop _ _ _ Hlt).
    rewrite !Permutation_middle. rewrite (perm_swap x y). by rewrite <- !Permutation_middle.
  - assert (i = length k) as ->.
    { apply list_lookup_singleton_Some in Hi as [? _]. lia. }
    rewrite Nat.sub_diag in Hi. injection Hi as ->.
    rewrite insert_app_r_alt, Nat.sub_diag by lia. simpl. rewrite take_app_length.
    by rewrite Permutation_app_comm.
Qed.

Lemma swap_remove_prefix {A} (l : list A) i j : (j < i < length l)%nat → swap_remove i l !! j = l !! j.
Proof.
  intros [Hj Hi]. unfold swap_remove. destruct (last l) as [y|]; [|done].
  rewrite lookup_take_lt by lia. by rewrite list_lookup_insert_ne by lia.
Qed.

(** ** Slices and buffers *)

Lemma lookup_slice {A} from n (l : list A) k :
  slice from n l !! k = if decide (k < n)%nat then l !! (from + k)%nat else None.
Proof.
  unfold slice. case_decide; [by rewrite lookup_take_lt, lookup_drop by done|].
  by rewrite lookup_take_ge by lia.
Qed.
Lemma length_slice {A} from n (l : list A) : length (slice from n l) = (n `min` (length l - from))%nat.
Proof. unfold slice. by rewrite length_take, length_drop. Qed.

Lemma length_blit {A} i (src dst : list A) : (i + length src ≤ length dst)%nat → length (blit i src dst) = length dst.
Proof. intros H. unfold blit. rewrite !length_app, length_take, length_drop. lia. Qed.
Lemma lookup_blit {A} i (src dst : list A) k :
  (i + length src ≤ length dst)%nat →
  blit i src dst !! k =
  if decide (i ≤ k < i + length src)%nat then src !! (k - i)%nat else dst !! k.
Proof.
  intros H. unfold blit. destruct (decide (k < i)%nat).
  - rewrite lookup_app_l, lookup_take_lt by (rewrite ?length_take; lia). by rewrite decide_False by lia.
  - rewrite lookup_app_r by (rewrite length_take; lia). rewrite length_take, Nat.min_l by lia.
    case_decide.
    + by rewrite lookup_app_l by lia.
    + rewrite lookup_app_r by lia. rewrite lookup_drop. f_equal. lia.
Qed.
(** Writing right after what has been written. *)
Lemma blit_app {A} (front src rest : list A) i :
  i = length front → blit i src (front ++ rest) = (front ++ src) ++ drop (length src) rest.
Proof.
  intros ->. unfold blit. rewrite take_app_length, <- drop_drop, drop_app_length. by rewrite app_assoc.
Qed.
Lemma slice_app {A} (front mid rest : list A) i n :
  i = length front → n = length mid → slice i n (front ++ mid ++ rest) = mid.
Proof. intros -> ->. unfold slice. by rewrite drop_app_length, take_app_length. Qed.

Lemma length_to_le_bytes n z : length (to_le_bytes n z) = n.
Proof. revert z. induction n; intros z; simpl; auto. Qed.
Lemma to_le_bytes_u8 n z : Forall is_u8 (to_le_bytes n z).
Proof.
  revert z. induction n as [|n IH]; intros z; simpl; constructor; [|done].
  pose proof (Z.mod_pos_bound z 256). unfold is_u8, U8_MAX. lia.
Qed.
Lemma from_to_le_bytes n z : 0 ≤ z < 256 ^ Z.of_nat n → from_le_bytes (to_le_bytes n z) = z.
Proof.
  revert z. induction n as [|n IH]; intros z Hz; simpl; [change (256 ^ Z.of_nat 0) with 1 in Hz; lia|].
  rewrite Nat2Z.inj_succ, Z.pow_succ_r in Hz by lia. rewrite IH.
  - pose proof (Z.div_mod z 256). lia.
  - split; [apply Z.div_pos; lia|apply Z.div_lt_upper_bound; lia].
Qed.
Lemma to_from_le_bytes l : Forall is_u8 l → to_le_bytes (length l) (from_le_bytes l) = l.
Proof.
  induction 1 as [|b l Hb _ IH]; simpl; [done|]. unfold is_u8, U8_MAX in Hb.
  rewrite (Z.mul_comm 256), Z.mod_add, Z.mod_small, Z.div_add, Z.div_small, Z.add_0_l by lia.
  by rewrite IH.
Qed.
Lemma from_le_bytes_bound l : Forall is_u8 l → 0 ≤ from_le_bytes l < 256 ^ zlen l.
Proof.
  induction 1 as [|b l Hb _ IH]; [done|]. rewrite zlen_cons, Z.pow_add_r by (unfold zlen; lia).
  simpl. unfold is_u8, U8_MAX in Hb. lia.
Qed.

(** ** Rewriting under a bind *)

#[global] Instance option_mbind_pointwise {A B} :
  Proper (pointwise_relation A eq ==> eq ==> eq) (@mbind option _ A B).
Proof. intros f g Hfg o ? <-. destruct o; simpl; [apply Hfg|done]. Qed.
