(* ===== verification/TimerSchedule.v ===== *)
(** * Timer schedules

    Models [posix/src/timer_schedule.rs]: the arithmetic of one-shot and
    periodic timers on 128-bit clock readings.  Clock readings, deadlines and
    intervals are [Z] values in the [u128] range; [checked_add] and
    [checked_mul] are written out at that width. *)

From S2P Require Import Prelude.

(** [struct Schedule]. *)
Record Schedule := mkSchedule {
  deadline : option Z;
  interval : Z;
  ceiling : Z;
}.

(** [struct Overflow]. *)
Inductive Overflow := overflow.

(** [Schedule::arm]. *)
Definition arm (now initial interval : Z) (absolute : bool) (ceiling : Z)
    : result Overflow Schedule :=
  deadline ←
    (if initial =? 0 then Ok None
     else
       end_ ← (if absolute then Ok initial
               else ok_or overflow (checked_add U128_MAX now initial));
       if end_ >? ceiling then Err overflow else Ok (Some end_));
  Ok (mkSchedule deadline interval ceiling).

(** [Schedule::remaining]. *)
Definition remaining (s : Schedule) (now : Z) : Z :=
  match deadline s with
  | Some end_ => saturating_sub end_ now
  | None => 0
  end.

(** [Schedule::observe]. *)
Definition observe (s : Schedule) (now : Z) : Schedule * Z :=
  match option_keep (λ end_, end_ <=? now) (deadline s) with
  | None => (s, 0)
  | Some end_ =>
      if interval s =? 0 then (mkSchedule None (interval s) (ceiling s), 1)
      else
        let count := (now - end_) / interval s + 1 in
        let next :=
          step ← checked_mul U128_MAX count (interval s);
          checked_add U128_MAX end_ step in
        (mkSchedule (option_keep (λ next, next <=? ceiling s) next)
           (interval s) (ceiling s), count)
  end.

(** A well-formed schedule: [u128] fields and an armed deadline that is
    nonzero and finite for the clock. *)
Definition wf (s : Schedule) : Prop :=
  is_u128 (interval s) ∧ is_u128 (ceiling s) ∧
  ∀ d, deadline s = Some d → 0 < d ≤ ceiling s.

(** The reference expiration count: how many of the instants
    [d, d + i, d + 2 i, ...] lie at or before [now]. *)
Definition expirations (d i now : Z) : Z :=
  if now <? d then 0 else if i =? 0 then 1 else (now - d) / i + 1.

(** The reference next instant of the same sequence, if the clock reaches it. *)
Definition next_instant (d i now ceil : Z) : option Z :=
  if now <? d then Some d
  else if i =? 0 then None
  else option_keep (λ n, n <=? ceil) (Some (d + expirations d i now * i)).

Lemma count_bounds d i now :
  0 < d → d ≤ now → 0 < i →
  let c := (now - d) / i + 1 in
  1 ≤ c ≤ now ∧ d + (c - 1) * i ≤ now < d + c * i.
Proof.
  intros Hd Hn Hi c.
  pose proof (Z.div_mod (now - d) i ltac:(lia)) as Hdm.
  pose proof (Z.mod_pos_bound (now - d) i Hi) as Hm.
  pose proof (Z.div_pos (now - d) i ltac:(lia) Hi) as Hp.
  pose proof (Z.div_le_upper_bound (now - d) i (now - d) Hi ltac:(nia)) as Hu.
  subst c. nia.
Qed.

(** [observe] computes exactly the reference count and the reference next
    instant: the checked arithmetic changes nothing. *)
Lemma observe_spec s now d :
  wf s → is_u128 now → deadline s = Some d →
  observe s now = (mkSchedule (next_instant d (interval s) now (ceiling s))
                     (interval s) (ceiling s), expirations d (interval s) now).
Proof.
  intros (Hi & Hc & Hd) Hn E. pose proof (Hd d E) as Hdb.
  unfold observe, next_instant, expirations. rewrite E. simpl.
  destruct (d <=? now) eqn:E1; destruct (now <? d) eqn:E2; try lia.
  2:{ destruct s; simpl in *; by subst. }
  destruct (interval s =? 0) eqn:E3; [done|].
  destruct (count_bounds d (interval s) now) as [B1 B2]; [lia|lia|width|].
  set (c := (now - d) / interval s + 1) in *.
  unfold checked_mul, checked_add. do 2 f_equal.
  destruct (c * interval s <=? U128_MAX) eqn:E4; simpl.
  - destruct (d + c * interval s <=? U128_MAX) eqn:E5; simpl; [done|].
    destruct (d + c * interval s <=? ceiling s) eqn:E6; [width|done].
  - destruct (d + c * interval s <=? ceiling s) eqn:E6; [width|done].
Qed.

Lemma expirations_nonneg d i now : 0 ≤ i → 0 ≤ expirations d i now.
Proof.
  intros. unfold expirations. case_ifs; try lia.
  pose proof (Z.div_pos (now - d) i). lia.
Qed.

Lemma expirations_shift d i n1 n2 :
  0 < d → d ≤ n1 ≤ n2 → 0 < i →
  let c := expirations d i n1 in
  expirations d i n2 = c + expirations (d + c * i) i n2.
Proof.
  intros Hd Hn Hi. unfold expirations.
  replace (n1 <? d) with false by lia. replace (n2 <? d) with false by lia.
  replace (i =? 0) with false by lia. cbv zeta.
  destruct (count_bounds d i n1) as [_ B1]; [lia..|].
  set (c := (n1 - d) / i + 1) in *.
  destruct (n2 <? d + c * i) eqn:E.
  - destruct (count_bounds d i n2) as [_ B2]; [lia..|]. nia.
  - replace (n2 - d) with (n2 - (d + c * i) + c * i) by lia.
    rewrite Z.div_add by lia. lia.
Qed.

Lemma observe_disarmed s now : deadline s = None → observe s now = (s, 0).
Proof. intros E. unfold observe. by rewrite E. Qed.

Lemma observe_wf s now :
  wf s → is_u128 now → wf (observe s now).1.
Proof.
  intros Hwf Hn. destruct (deadline s) as [d|] eqn:E.
  2:{ by rewrite observe_disarmed. }
  rewrite (observe_spec _ _ d) by done. destruct Hwf as (Hi & Hc & Hd).
  specialize (Hd _ E). split_and!; [done..|]. simpl. intros d'.
  unfold next_instant. case_ifs; try done; [naive_solver|]. simpl. case_ifs; [|done].
  intros [= <-]. pose proof (expirations_nonneg d (interval s) now). width.
Qed.

Lemma arm_wf now initial i absolute ceil s :
  is_u128 now → is_u128 initial → is_u128 i → is_u128 ceil →
  arm now initial i absolute ceil = Ok s → wf s.
Proof.
  intros Hn Hin Hi Hc. unfold arm, checked_add.
  destruct (initial =? 0) eqn:E1; simpl; [intros [= <-]; by split_and!|].
  destruct absolute; simpl.
  - destruct (initial >? ceil) eqn:E2; simpl; [done|]. intros [= <-].
    split_and!; [done|done|]. simpl. intros d [= <-]. width.
  - destruct (now + initial <=? U128_MAX) eqn:E3; simpl; [|done].
    destruct (now + initial >? ceil) eqn:E2; simpl; [done|]. intros [= <-].
    split_and!; [done|done|]. simpl. intros d [= <-]. width.
Qed.

(** ** Properties *)

(** Observing a periodic timer at or after its deadline counts exactly the
    periods that elapsed, without overflow at 128 bits, and moves the
    deadline to the first instant after the observation, or disarms the
    timer when that instant is beyond the clock's limit. *)
Theorem observe_exact s now d :
  wf s → is_u128 now → deadline s = Some d → d ≤ now → 0 < interval s →
  let '(s', count) := observe s now in
  wf s' ∧ 1 ≤ count ≤ U128_MAX ∧
  d + (count - 1) * interval s ≤ now < d + count * interval s ∧
  deadline s' = (if d + count * interval s <=? ceiling s
                 then Some (d + count * interval s) else None).
Proof.
  intros Hwf Hn E Hd Hi. pose proof (observe_wf s now Hwf Hn) as Hwf'.
  rewrite (observe_spec _ _ d) in * by done. simpl in *.
  destruct Hwf as (_ & _ & Hwd). specialize (Hwd _ E).
  split; [done|]. unfold next_instant, expirations.
  replace (now <? d) with false by lia. replace (interval s =? 0) with false by lia.
  destruct (count_bounds d (interval s) now) as [B1 B2]; [lia..|].
  split_and!; [lia|width|lia|lia|done].
Qed.

(** A periodic timer seen three periods late. *)
Definition periodic : Schedule := mkSchedule (Some 10) 5 100.
Lemma periodic_wf : wf periodic.
Proof. unfold wf, periodic; simpl. split_and!; [width..|]. intros d [= <-]. lia. Defined.

Lemma observe_exact_witness :
  observe periodic 23 = (mkSchedule (Some 25) 5 100, 3) ∧
  wf (mkSchedule (Some 25) 5 100) ∧ 10 + (3 - 1) * 5 ≤ 23 < 10 + 3 * 5.
Proof.
  pose proof (observe_exact periodic 23 10 periodic_wf ltac:(width) eq_refl ltac:(lia) ltac:(done)) as H.
  change (observe periodic 23) with (mkSchedule (Some 25) 5 100, 3) in *.
  destruct H as (H1 & _ & H2 & _). by split_and!.
Defined.

(** Observing a timer twice reports in total the expirations that one
    observation at the later instant reports and leaves the same schedule. *)
Lemma observe_compose s now1 now2 :
  wf s → 0 ≤ now1 ≤ now2 → now2 ≤ ceiling s →
  let '(s1, c1) := observe s now1 in
  let '(s2, c2) := observe s1 now2 in
  observe s now2 = (s2, c1 + c2).
Proof.
  intros Hwf Hn Hc. destruct (deadline s) as [d|] eqn:E.
  2:{ by rewrite !observe_disarmed by done. }
  pose proof Hwf as (Hi & Hce & Hd). specialize (Hd _ E).
  assert (is_u128 now1 ∧ is_u128 now2) as [Hu1 Hu2] by (split; width).
  pose proof (observe_wf s now1 Hwf Hu1) as Hwf1.
  rewrite (observe_spec s now1 d), (observe_spec s now2 d) in * by done.
  simpl in Hwf1. set (s1 := mkSchedule _ _ _) in *.
  destruct (now1 <? d) eqn:E1.
  { assert (deadline s1 = Some d) as E' by (subst s1; unfold next_instant; simpl; by rewrite E1).
    rewrite (observe_spec s1 now2 d) by done. subst s1. simpl.
    unfold expirations at 2. by rewrite E1. }
  destruct (interval s =? 0) eqn:E2.
  { assert (deadline s1 = None) as E' by (subst s1; unfold next_instant; simpl; by rewrite E1, E2).
    rewrite observe_disarmed by done. subst s1. unfold next_instant, expirations.
    rewrite E1, E2. by replace (now2 <? d) with false by lia. }
  set (c := expirations d (interval s) now1) in *.
  pose proof (expirations_shift d (interval s) now1 now2 ltac:(lia) ltac:(lia) ltac:(width))
    as Hshift. cbv zeta in Hshift. fold c in Hshift.
  assert (Hnext : next_instant d (interval s) now2 (ceiling s) =
    option_keep (λ n, n <=? ceiling s) (Some (d + expirations d (interval s) now2 * interval s))).
  { unfold next_instant. rewrite E2. by replace (now2 <? d) with false by lia. }
  assert (Hd1 : deadline s1 = if d + c * interval s <=? ceiling s
                              then Some (d + c * interval s) else None).
  { subst s1. unfold next_instant. simpl. by rewrite E1, E2. }
  rewrite Hnext, Hshift. destruct (d + c * interval s <=? ceiling s) eqn:E3.
  - rewrite (observe_spec s1 now2 _ Hwf1 Hu2 Hd1). f_equal. f_equal.
    unfold next_instant at 1. simpl. rewrite E2.
    destruct (now2 <? d + c * interval s) eqn:E4.
    + unfold expirations. rewrite E4. rewrite Z.add_0_r. simpl. by rewrite E3.
    + simpl. by rewrite Z.mul_add_distr_r, Z.add_assoc.
  - rewrite observe_disarmed by done.
    assert (expirations (d + c * interval s) (interval s) now2 = 0) as ->.
    { unfold expirations. by replace (now2 <? d + c * interval s) with true by lia. }
    rewrite Z.add_0_r. simpl. rewrite E3. subst s1. simpl in Hd1. by rewrite Hd1.
Qed.

Lemma observe_compose_witness :
  observe (observe periodic 12).1 23 = (mkSchedule (Some 25) 5 100, 2) ∧
  observe periodic 23 = (mkSchedule (Some 25) 5 100, 1 + 2).
Proof. split; [done|]. by apply (observe_compose periodic 12 23 periodic_wf). Defined.

(** Arming a timer succeeds exactly when it is disarmed or its target
    instant is representable and within the clock's limit, and then the
    deadline is that instant. *)
Lemma arm_spec now initial i absolute ceil s :
  is_u128 now → is_u128 initial → is_u128 i → is_u128 ceil →
  arm now initial i absolute ceil = Ok s ↔
  (interval s = i ∧ ceiling s = ceil ∧
   if initial =? 0 then deadline s = None
   else let target := if absolute then initial else now + initial in
        target ≤ ceil ∧ deadline s = Some target).
Proof.
  intros Hn Hin Hi Hc. unfold arm, checked_add.
  destruct s as [sd si sc]. simpl. destruct (initial =? 0) eqn:E1; simpl.
  { naive_solver. }
  destruct absolute; simpl.
  - destruct (initial >? ceil) eqn:E2; simpl; [split; [done|lia]|].
    split; [intros [= <- <- <-]|intros (-> & -> & ? & ->)]; [|done]. split_and!; [done..|lia|done].
  - destruct (now + initial <=? U128_MAX) eqn:E2; simpl.
    2:{ split; [done|]. width. }
    destruct (now + initial >? ceil) eqn:E3; simpl; [split; [done|lia]|].
    split; [intros [= <- <- <-]|intros (-> & -> & ? & ->)]; [|done]. split_and!; [done..|lia|done].
Qed.

Lemma arm_spec_witness : arm 7 3 5 false 100 = Ok (mkSchedule (Some 10) 5 100).
Proof. apply arm_spec; [width..|]. simpl. by split_and!. Defined.
