(* ===== verification/PosixProtocol.v ===== *)
(** * What the POSIX service takes from its protocol crate

    The constants of the wire protocol are outside the repository: they are
    fields of [PosixProtocol].  [SignalNumbers] states what the service relies
    on: the signal numbers are distinct and are bit positions of a 64-bit
    mask.  The records [Origin], [ChildStatus] and [TimerStatus] are
    transcribed from their uses. *)

From S2P Require Import Prelude.

(** The two status codes that [posix/src/lib.rs] declares itself. *)
Definition STATUS_EINVAL : Z := -22.
Definition STATUS_EOVERFLOW : Z := -75.

(** ** Signal provenance *)

Record ChildStatus := mkChildStatus { event : Z; status : Z }.
Record TimerStatus := mkTimerStatus { timer_id : Z; value_token : Z; overrun_of : Z }.
Record Origin := mkOrigin {
  source : Z;
  origin_real_uid : Z;
  origin_process_id : Z;
  child : ChildStatus;
  timer : option TimerStatus;
}.

Class PosixProtocol := {
  STATUS_EPERM : Z; STATUS_ESRCH : Z; STATUS_EINTR : Z; STATUS_EIO : Z; STATUS_ECHILD : Z;
  STATUS_EAGAIN : Z; STATUS_ENOMEM : Z; STATUS_ENOTTY : Z; STATUS_ENOSYS : Z;
  SIGNAL_MAX : Z;
  SIGNAL_HUP : Z; SIGNAL_KILL : Z; SIGNAL_ALRM : Z; SIGNAL_CHLD : Z; SIGNAL_CONT : Z;
  SIGNAL_STOP : Z; SIGNAL_TSTP : Z; SIGNAL_TTIN : Z; SIGNAL_TTOU : Z; SIGNAL_URG : Z;
  SIGNAL_WINCH : Z;
  SIGNAL_DISPOSITION_DEFAULT : Z; SIGNAL_DISPOSITION_IGNORE : Z; SIGNAL_DISPOSITION_CAUGHT : Z;
  (** [signal_origin]: the sources and events, and [Origin::system()]. *)
  ORIGIN_USER : Z; ORIGIN_CHILD : Z; ORIGIN_TIMER : Z;
  EVENT_EXITED : Z; EVENT_KILLED : Z; EVENT_STOPPED : Z; EVENT_CONTINUED : Z;
  origin_system : Origin;
  SIGNAL_CHILD_OPTION_NOCLDSTOP : Z; SIGNAL_CHILD_OPTION_NOCLDWAIT : Z;
  WAIT_NOHANG : Z; WAIT_UNTRACED : Z; WAIT_CONTINUED : Z; WAIT_NOWAIT : Z; WAIT_SELECT_GROUP : Z;
  WAIT_STATUS_CONTINUED : Z;
  wait_options_valid : Z → bool;
  wait_selects_exit : Z → bool;
}.

(** The job-control signals, which the service treats apart. *)
Definition stop_signals `{PosixProtocol} : list Z := [SIGNAL_STOP; SIGNAL_TSTP; SIGNAL_TTIN; SIGNAL_TTOU].
Definition named_signals `{PosixProtocol} : list Z :=
  [SIGNAL_HUP; SIGNAL_KILL; SIGNAL_ALRM; SIGNAL_CHLD; SIGNAL_CONT; SIGNAL_URG; SIGNAL_WINCH] ++
  stop_signals.

Class SignalNumbers `{PosixProtocol} := {
  signal_max_bits : SIGNAL_MAX ≤ 64;
  named_signals_range : Forall (λ s, 1 ≤ s ≤ SIGNAL_MAX) named_signals;
  named_signals_distinct : NoDup named_signals;
  dispositions_distinct :
    NoDup [SIGNAL_DISPOSITION_DEFAULT; SIGNAL_DISPOSITION_IGNORE; SIGNAL_DISPOSITION_CAUGHT];
}.

(** ** Signal masks *)

(** [1u64 << (signal - 1)]. *)
Definition signal_bit (signal : Z) : Z := Z.shiftl 1 (signal - 1).
(** [flags & mask != 0]. *)
Definition has (flags mask : Z) : bool := negb (Z.land flags mask =? 0).
(** [a & !b] on unsigned values. *)
Definition without (a b : Z) : Z := Z.ldiff a b.

(** [signal] is pending, blocked, ... in [mask]. *)
Definition in_mask (mask signal : Z) : bool := Z.testbit mask (signal - 1).

Lemma has_bit mask signal : 1 ≤ signal → has mask (signal_bit signal) = in_mask mask signal.
Proof.
  intros Hs. unfold has, in_mask, signal_bit. rewrite Z.shiftl_1_l.
  destruct (Z.testbit mask (signal - 1)) eqn:E.
  - apply negb_true_iff, Z.eqb_neq. intros H.
    assert (Z.testbit (Z.land mask (2 ^ (signal - 1))) (signal - 1) = false) as H' by (rewrite H; apply Z.bits_0).
    rewrite Z.land_spec, E, Z.pow2_bits_true in H' by lia. done.
  - apply negb_false_iff, Z.eqb_eq. apply Z.bits_inj_0. intros n.
    rewrite Z.land_spec. destruct (decide (n = signal - 1)) as [->|Hn]; [by rewrite E|].
    rewrite (Z.pow2_bits_false _ n) by lia. apply andb_false_r.
Qed.
Lemma in_signal_bit s t : 1 ≤ s → in_mask (signal_bit s) t = bool_decide (t = s).
Proof.
  intros Hs. unfold in_mask, signal_bit. rewrite Z.shiftl_1_l. case_bool_decide as E.
  - subst. by rewrite Z.pow2_bits_true by lia.
  - by rewrite Z.pow2_bits_false by lia.
Qed.
Lemma in_mask_lor a b s : in_mask (Z.lor a b) s = in_mask a s || in_mask b s.
Proof. apply Z.lor_spec. Qed.
Lemma in_mask_land a b s : in_mask (Z.land a b) s = in_mask a s && in_mask b s.
Proof. apply Z.land_spec. Qed.
Lemma in_mask_without a b s : in_mask (without a b) s = in_mask a s && negb (in_mask b s).
Proof. apply Z.ldiff_spec. Qed.
Lemma in_mask_0 s : in_mask 0 s = false.
Proof. apply Z.bits_0. Qed.
Create Rewrite HintDb signals.
#[export] Hint Rewrite in_mask_lor in_mask_land in_mask_without in_mask_0 : signals.

(** ** An instance: the numbers of Linux *)

Definition linux_protocol : PosixProtocol := {|
  STATUS_EPERM := -1; STATUS_ESRCH := -3; STATUS_EINTR := -4; STATUS_EIO := -5; STATUS_ECHILD := -10;
  STATUS_EAGAIN := -11; STATUS_ENOMEM := -12; STATUS_ENOTTY := -25; STATUS_ENOSYS := -38;
  SIGNAL_MAX := 64;
  SIGNAL_HUP := 1; SIGNAL_KILL := 9; SIGNAL_ALRM := 14; SIGNAL_CHLD := 17; SIGNAL_CONT := 18;
  SIGNAL_STOP := 19; SIGNAL_TSTP := 20; SIGNAL_TTIN := 21; SIGNAL_TTOU := 22; SIGNAL_URG := 23;
  SIGNAL_WINCH := 28;
  SIGNAL_DISPOSITION_DEFAULT := 0; SIGNAL_DISPOSITION_IGNORE := 1; SIGNAL_DISPOSITION_CAUGHT := 2;
  ORIGIN_USER := 1; ORIGIN_CHILD := 2; ORIGIN_TIMER := 3;
  EVENT_EXITED := 1; EVENT_KILLED := 2; EVENT_STOPPED := 5; EVENT_CONTINUED := 6;
  origin_system := mkOrigin 0 0 0 (mkChildStatus 0 0) None;
  SIGNAL_CHILD_OPTION_NOCLDSTOP := 1; SIGNAL_CHILD_OPTION_NOCLDWAIT := 2;
  WAIT_NOHANG := 1; WAIT_UNTRACED := 2; WAIT_CONTINUED := 8; WAIT_NOWAIT := 16; WAIT_SELECT_GROUP := 32;
  WAIT_STATUS_CONTINUED := 65535;
  wait_options_valid := λ o, Z.ldiff o 63 =? 0;
  wait_selects_exit := λ _, true;
|}.
Lemma linux_signals : @SignalNumbers linux_protocol.
Proof.
  split.
  - done.
  - by apply (bool_decide_unpack _); vm_compute.
  - by apply (bool_decide_unpack _); vm_compute.
  - by apply (bool_decide_unpack _); vm_compute.
Qed.
