(* ===== verification/ProcessTimer.v ===== *)
(** * Per-process timers

    Models [posix/src/process_timer.rs]: the registry of POSIX timers of all
    processes, the operations of one owner on its timers, and the overrun
    accounting of their notifications.  Schedules are those of
    [TimerSchedule].  [Clock], [Notification] and [Value] belong to the
    protocol crate and are transcribed from their uses.  The outcome of
    [try_reserve] is the argument [alloc]; a reply closure is a function of
    what it is given. *)

From stdpp Require Import sorting.
From S2P Require Import Prelude PosixProtocol TimerSchedule.

Definition MAX_TIMERS_PER_PROCESS : Z := 128.
(** [i32::MAX as u32]. *)
Definition MAX_OVERRUN : Z := 2 ^ 31 - 1.

Inductive Clock := Realtime | Monotonic | ProcessCpu | ThreadCpu.
Inductive Notification :=
  | NoNotification
  | Default
  | Signal (signal value : Z)
  | Thread (cookie : Z).
Record Value := mkValue { remaining_ns : Z; interval_ns : Z }.
Inductive Target := TargetOwner | TargetThread (thread : Z) | TargetProcess (process : Z).

#[global] Instance Clock_eq_dec : EqDecision Clock.
Proof. solve_decision. Defined.
#[global] Instance Notification_eq_dec : EqDecision Notification.
Proof. solve_decision. Defined.
#[global] Instance Target_eq_dec : EqDecision Target.
Proof. solve_decision. Defined.

Record Samples := mkSamples {
  realtime_ns : Z;
  monotonic_ns : Z;
  process_cpu_ns : Z;
  thread_cpu_ns : Z;
}.
(** [(self.realtime_ns as u128) ^ (1u128 << 127)] for an [i128]. *)
Definition bias_realtime (z : Z) : Z := Z.lxor (z mod 2 ^ 128) (2 ^ 127).
Definition now_of (s : Samples) (basis : Clock) : Z :=
  match basis with
  | Realtime => bias_realtime (realtime_ns s)
  | Monotonic => monotonic_ns s
  | ProcessCpu => process_cpu_ns s
  | ThreadCpu => thread_cpu_ns s
  end.

Record Pending := mkPending {
  p_timer : Z;
  p_notification : Notification;
  p_sequence : Z;
  p_expirations : Z;
}.
Definition pending_overrun (p : Pending) : Z := Z.min (saturating_sub (p_expirations p) 1) MAX_OVERRUN.

Record Timer := mkTimer {
  t_owner : Z;
  t_id : Z;
  t_clock : Clock;
  t_basis : Clock;
  t_target : Target;
  t_notification : Notification;
  t_schedule : Schedule;
  t_pending : option Pending;
  t_last_overrun : Z;
}.
Definition set_pending (t : Timer) (p : option Pending) : Timer :=
  mkTimer (t_owner t) (t_id t) (t_clock t) (t_basis t) (t_target t) (t_notification t)
    (t_schedule t) p (t_last_overrun t).
Definition set_schedule (t : Timer) (s : Schedule) (p : option Pending) : Timer :=
  mkTimer (t_owner t) (t_id t) (t_clock t) (t_basis t) (t_target t) (t_notification t)
    s p (t_last_overrun t).
Definition observable (t : Timer) : bool :=
  negb (bool_decide (t_notification t = NoNotification)) && bool_decide (is_Some (deadline (t_schedule t))).

Record Registry := mkRegistry {
  timers : list Timer;
  next_id : Z;
  next_sequence : Z;
}.
Definition with_timers (r : Registry) (l : list Timer) : Registry :=
  mkRegistry l (next_id r) (next_sequence r).

(** ** The registry of the service *)

Definition registry_new : Registry := mkRegistry [] 1 1.
Definition has_observable (r : Registry) : bool := existsb observable (timers r).
(** The key [(owner, id)] of the observation plan. *)
Definition plan_key_le (a b : Z * Z * Clock) : Prop :=
  a.1.1 < b.1.1 ∨ a.1.1 = b.1.1 ∧ a.1.2 ≤ b.1.2.
#[global] Instance plan_key_le_dec a b : Decision (plan_key_le a b).
Proof. unfold plan_key_le. apply _. Defined.
Definition has_owner (r : Registry) (owner : Z) : bool := existsb (λ t, t_owner t =? owner) (timers r).
Definition retire_owner (owner : Z) (r : Registry) : Registry :=
  with_timers r (filter (λ t, t_owner t ≠ owner) (timers r)).
Definition retire_thread (owner thread : Z) (r : Registry) : Registry :=
  with_timers r (filter (λ t, t_owner t ≠ owner ∨ t_target t ≠ TargetThread thread) (timers r)).
Definition observes_process (r : Registry) (process : Z) : bool :=
  existsb (λ t, bool_decide (t_target t = TargetProcess process)) (timers r).
Definition retire_process_target (process : Z) (r : Registry) : Registry :=
  with_timers r (filter (λ t, t_target t ≠ TargetProcess process) (timers r)).
(** The signal of a notification. *)
Definition signal_of (n : Notification) : option Z :=
  match n with Signal signal _ => Some signal | _ => None end.
Definition pending_signal_mask (r : Registry) (owner : Z) : Z :=
  fold_left (λ mask p, match signal_of (p_notification p) with
                       | Some signal => Z.lor mask (signal_bit signal)
                       | None => mask
                       end)
    (omap t_pending (filter (λ t, t_owner t = owner) (timers r))) 0.
Definition discards (owner mask : Z) (t : Timer) : bool :=
  (t_owner t =? owner) &&
  match t_pending t with
  | Some p => match signal_of (p_notification p) with
              | Some signal => has mask (signal_bit signal)
              | None => false
              end
  | None => false
  end.
Definition discard_signals (owner mask : Z) (r : Registry) : Registry :=
  with_timers r ((λ t, if discards owner mask t then set_pending t None else t) <$> timers r).

Section Owned.
Context {PP : PosixProtocol}.

Definition observation_plan (alloc : bool) (r : Registry) : result Z (list (Z * Z * Clock)) :=
  if negb alloc then Err STATUS_ENOMEM
  else
    Ok (merge_sort plan_key_le
          ((λ t, (t_owner t, t_id t, t_basis t)) <$> filter (λ t, observable t = true) (timers r))).

(** [Pending::signal_origin]. *)
Definition signal_origin (p : Pending) : result Z Origin :=
  match p_notification p with
  | Signal signal value =>
      if (1 <=? signal) && (signal <=? SIGNAL_MAX) then
        Ok (mkOrigin ORIGIN_TIMER (origin_real_uid origin_system) (origin_process_id origin_system)
              (child origin_system)
              (Some (mkTimerStatus (p_timer p) value (pending_overrun p))))
      else Err STATUS_EINVAL
  | _ => Err STATUS_EINVAL
  end.

(** ** The timers of one owner *)

(** [timers.binary_search_by_key(&id, ..)]: the timers are ordered by distinct
    identifiers, so the position is the only one. *)
Definition position_of (r : Registry) (id : Z) : option nat :=
  iter_position (λ t, t_id t =? id) (timers r).
Definition index (owner : Z) (r : Registry) (id : Z) : result Z nat :=
  match position_of r id with
  | None => Err STATUS_EINVAL
  | Some i =>
      match timers r !! i with
      | Some t => if t_owner t =? owner then Ok i else Err STATUS_EINVAL
      | None => Err STATUS_EINVAL
      end
  end.
(** [&self.registry.timers[self.index(id)?]], with its position. *)
Definition timer_at (owner : Z) (r : Registry) (id : Z) : result Z (nat * Timer) :=
  i ← index owner r id;
  t ← ok_or STATUS_EINVAL (timers r !! i);
  Ok (i, t).
Definition put (i : nat) (t : Timer) (r : Registry) : Registry := with_timers r (<[i := t]> (timers r)).

Definition pending_notifications (owner : Z) (r : Registry) : list Pending :=
  omap (λ t, if t_owner t =? owner then t_pending t else None) (timers r).
Definition pending_signals (owner : Z) (r : Registry) (mask : Z) : list Pending :=
  filter (λ p, match signal_of (p_notification p) with
               | Some signal => has mask (signal_bit signal)
               | None => false
               end = true) (pending_notifications owner r).
(** [Iterator::min_by_key]: the first minimum. *)
Definition min_by {A} (ltb : A → A → bool) (l : list A) : option A :=
  match l with
  | [] => None
  | x :: l => Some (fold_left (λ best y, if ltb y best then y else best) l x)
  end.
Definition signal_key_ltb (a b : Z * Pending) : bool :=
  (a.1 <? b.1) || ((a.1 =? b.1) && (p_timer a.2 <? p_timer b.2)).
Definition select_pending_signal (owner : Z) (r : Registry) (mask : Z) : option Pending :=
  snd <$> min_by signal_key_ltb
    (omap (λ p, (λ signal, (signal, p)) <$> signal_of (p_notification p)) (pending_signals owner r mask)).
Definition is_thread (n : Notification) : bool := match n with Thread _ => true | _ => false end.
Definition select_pending_thread (owner : Z) (r : Registry) : option Pending :=
  min_by (λ a b, p_sequence a <? p_sequence b)
    (filter (λ p, is_thread (p_notification p) = true) (pending_notifications owner r)).

Definition selected (owner : Z) (r : Registry) (p : Pending) : result Z (nat * Timer * Pending) :=
  '(i, t) ← timer_at owner r (p_timer p);
  q ← ok_or STATUS_EAGAIN (option_keep (λ q, p_sequence q =? p_sequence p) (t_pending t));
  Ok (i, t, q).
Definition selected_thread_clock (owner : Z) (r : Registry) (p : Pending) : result Z (Clock * Target) :=
  '(_, t, q) ← selected owner r p;
  if is_thread (p_notification q) then Ok (t_basis t, t_target t) else Err STATUS_EINVAL.
Definition selected_signal_basis (owner : Z) (r : Registry) (p : Pending) : result Z Clock :=
  '(_, t, q) ← selected owner r p;
  if bool_decide (is_Some (signal_of (p_notification q))) then Ok (t_basis t) else Err STATUS_EINVAL.
Definition resolve (owner : Z) (r : Registry) (raw : Z) : result Z Z :=
  _ ← index owner r raw; Ok raw.

(** The clock a replacement runs on. *)
Definition replacement_basis (t : Timer) (absolute : bool) : Clock :=
  if bool_decide (t_clock t = Realtime) && negb absolute then Monotonic else t_clock t.
Definition clocks_for (owner : Z) (r : Registry) (id : Z) (replacement : option bool)
    : result Z (option Clock * option Clock) :=
  '(_, t) ← timer_at owner r id;
  let next := option_keep (λ c, negb (bool_decide (c = t_basis t))) (replacement_basis t <$> replacement) in
  Ok (Some (t_basis t), next).
Definition clock_target (owner : Z) (r : Registry) (id : Z) : result Z Target :=
  '(_, t) ← timer_at owner r id; Ok (t_target t).
Definition preview_value (owner : Z) (r : Registry) (id : Z) (s : Samples) : result Z Value :=
  '(_, t) ← timer_at owner r id;
  let now := now_of s (t_basis t) in
  let schedule := (observe (t_schedule t) now).1 in
  Ok (mkValue (remaining schedule now) (interval schedule)).

(** The clocks a timer may be bound to. *)
Definition target_admitted (c : Clock) (t : Target) : bool :=
  match c, t with
  | ThreadCpu, TargetThread n => 1 <=? n
  | ProcessCpu, TargetProcess n => 1 <=? n
  | ProcessCpu, TargetOwner | Realtime, TargetOwner | Monotonic, TargetOwner => true
  | _, _ => false
  end.
(** [Schedule::arm(0, 0, 0, false, u128::MAX).unwrap()]. *)
Definition disarmed : Schedule := mkSchedule None 0 U128_MAX.
Definition owned_count (r : Registry) (owner : Z) : Z := zlen (filter (λ t, t_owner t = owner) (timers r)).
Definition notification_admitted (n : Notification) : bool :=
  match n with
  | Signal signal _ => (1 <=? signal) && (signal <=? SIGNAL_MAX)
  | Thread cookie => negb (cookie =? 0)
  | _ => true
  end.
Definition create_for_target (alloc : bool) (owner : Z) (c : Clock) (n : Notification) (g : Target)
    : stM Registry Z Z := λ r,
  if negb (target_admitted c g) then (r, Err STATUS_EINVAL)
  else if negb (notification_admitted n) then (r, Err STATUS_EINVAL)
  else if owned_count r owner >=? MAX_TIMERS_PER_PROCESS then (r, Err STATUS_EAGAIN)
  else
    match checked_add U64_MAX (next_id r) 1 with
    | None => (r, Err STATUS_EAGAIN)
    | Some next =>
        if negb alloc then (r, Err STATUS_ENOMEM)
        else
          let id := next_id r in
          let n := match n with Default => Signal SIGNAL_ALRM id | n => n end in
          let basis := if bool_decide (c = Realtime) then Monotonic else c in
          (mkRegistry (timers r ++ [mkTimer owner id c basis g n disarmed None 0]) next (next_sequence r),
           Ok id)
    end.
Definition create (alloc : bool) (owner : Z) (c : Clock) (n : Notification) : stM Registry Z Z :=
  create_for_target alloc owner c n TargetOwner.
(** [Creation::drop] of an unpublished timer. *)
Definition drop_creation (id : Z) (r : Registry) : Registry :=
  match position_of r id with
  | Some i => with_timers r (delete i (timers r))
  | None => r
  end.
Definition create_with_reply (alloc : bool) (owner : Z) (c : Clock) (n : Notification) (g : Target)
    (reply : Z → bool) : stM Registry Z bool := λ r,
  match create_for_target alloc owner c n g r with
  | (r, Err e) => (r, Err e)
  | (r, Ok id) => if reply id then (r, Ok true) else (drop_creation id r, Ok false)
  end.

Definition delete_timer (owner id : Z) : stM Registry Z unit := λ r,
  match index owner r id with
  | Err e => (r, Err e)
  | Ok i => (with_timers r (delete i (timers r)), Ok tt)
  end.
Definition clock_of (owner : Z) (r : Registry) (id : Z) : result Z Clock :=
  '(_, t) ← timer_at owner r id; Ok (t_clock t).

Definition set_timer (owner id : Z) (s : Samples) (initial_ns interval_ns : Z) (absolute : bool)
    : stM Registry Z Value := λ r,
  match
    ('(i, t) ← timer_at owner r id;
     let basis := replacement_basis t absolute in
     initial ← (if bool_decide (basis = Realtime) && negb (initial_ns =? 0)
                then ok_or STATUS_EOVERFLOW (checked_add U128_MAX initial_ns (2 ^ 127))
                else Ok initial_ns);
     replacement ← map_err (λ _, STATUS_EOVERFLOW)
       (arm (now_of s basis) initial interval_ns absolute U128_MAX);
     let previous_now := now_of s (t_basis t) in
     let previous := (observe (t_schedule t) previous_now).1 in
     Ok (put i (mkTimer (t_owner t) (t_id t) (t_clock t) basis (t_target t) (t_notification t)
                  replacement None (t_last_overrun t)) r,
         mkValue (remaining previous previous_now) (interval previous)))
  with
  | Ok (r', v) => (r', Ok v)
  | Err e => (r, Err e)
  end.

Definition observe_timer (owner id : Z) (s : Samples) : stM Registry Z (option Pending) := λ r,
  match timer_at owner r id with
  | Err e => (r, Err e)
  | Ok (i, t) =>
      let '(schedule, count) := observe (t_schedule t) (now_of s (t_basis t)) in
      if negb (count =? 0) && negb (bool_decide (t_notification t = NoNotification)) then
        match t_pending t with
        | Some p =>
            let p := mkPending (p_timer p) (p_notification p) (p_sequence p)
                       (Z.min U128_MAX (p_expirations p + count)) in
            (put i (set_schedule t schedule (Some p)) r, Ok (Some p))
        | None =>
            match checked_add U64_MAX (next_sequence r) 1 with
            | None => (r, Err STATUS_EOVERFLOW)
            | Some next =>
                let p := mkPending id (t_notification t) (next_sequence r) count in
                (mkRegistry (<[i := set_schedule t schedule (Some p)]> (timers r)) (next_id r) next,
                 Ok (Some p))
            end
        end
      else (put i (set_schedule t schedule (t_pending t)) r, Ok (t_pending t))
  end.
Definition observe_new_signal (owner id : Z) (s : Samples) : stM Registry Z (option Z) := λ r,
  match timer_at owner r id with
  | Err e => (r, Err e)
  | Ok (_, t) =>
      match observe_timer owner id s r with
      | (r, Err e) => (r, Err e)
      | (r, Ok p) =>
          (r, Ok (if bool_decide (is_Some (t_pending t)) then None
                  else p ← p; signal_of (p_notification p)))
      end
  end.
Definition value (owner id : Z) (s : Samples) : stM Registry Z Value := λ r,
  match observe_timer owner id s r with
  | (r, Err e) => (r, Err e)
  | (r, Ok _) =>
      (r, '(_, t) ← timer_at owner r id;
          Ok (mkValue (remaining (t_schedule t) (now_of s (t_basis t))) (interval (t_schedule t))))
  end.
Definition overrun (owner : Z) (r : Registry) (id : Z) : result Z Z :=
  '(_, t) ← timer_at owner r id; Ok (t_last_overrun t).

Definition finish_with_reply (owner : Z) (p : Pending) (s : Samples) (accepted : bool)
    (reply : Pending → bool) : stM Registry Z (option Pending) := λ r,
  match selected owner r p with
  | Err e => (r, Err e)
  | Ok (i, _, _) =>
      match observe_timer owner (p_timer p) s r with
      | (r, Err e) => (r, Err e)
      | (r, Ok _) =>
          match
            (t ← ok_or STATUS_EAGAIN (timers r !! i);
             q ← ok_or STATUS_EAGAIN (option_keep (λ q, p_sequence q =? p_sequence p) (t_pending t));
             Ok (t, q))
          with
          | Err e => (r, Err e)
          | Ok (t, q) =>
              if negb (reply q) then (r, Ok None)
              else
                (put i (mkTimer (t_owner t) (t_id t) (t_clock t) (t_basis t) (t_target t)
                          (t_notification t) (t_schedule t) None
                          (if accepted then pending_overrun q else t_last_overrun t)) r,
                 Ok (Some q))
          end
      end
  end.
Definition accept_with_reply (owner : Z) (p : Pending) (s : Samples) (reply : Pending → bool)
    : stM Registry Z (option Pending) := finish_with_reply owner p s true reply.
Definition accept (owner : Z) (p : Pending) (s : Samples) : stM Registry Z Pending := λ r,
  match finish_with_reply owner p s true (λ _, true) r with
  | (r, Err e) => (r, Err e)
  | (r, Ok o) => (r, ok_or STATUS_EIO o)
  end.
Definition discard (owner : Z) (p : Pending) (s : Samples) : stM Registry Z unit := λ r,
  match finish_with_reply owner p s false (λ _, true) r with
  | (r, Err e) => (r, Err e)
  | (r, Ok _) => (r, Ok tt)
  end.
End Owned.

(** ** Clock readings *)

Definition samples_ok (s : Samples) : Prop :=
  - 2 ^ 127 ≤ realtime_ns s < 2 ^ 127 ∧ is_u128 (monotonic_ns s) ∧ is_u128 (process_cpu_ns s) ∧
  is_u128 (thread_cpu_ns s).

(** The bias maps signed time to unsigned time in order. *)
Lemma bias_realtime_spec z : - 2 ^ 127 ≤ z < 2 ^ 127 → bias_realtime z = z + 2 ^ 127.
Proof.
  intros Hz. unfold bias_realtime.
  assert (∀ a, 0 ≤ a < 2 ^ 127 → Z.lxor a (2 ^ 127) = a + 2 ^ 127) as Hx.
  { intros a Ha. symmetry. apply Z.add_nocarry_lxor. apply Z.bits_inj_0. intros n.
    rewrite Z.land_spec. destruct (decide (n = 127)) as [->|Hn].
    - destruct (decide (a = 0)) as [->|]; [done|].
      by rewrite (Z.bits_above_log2 a 127) by (try apply Z.log2_lt_pow2; lia).
    - rewrite (Z.pow2_bits_false 127 n) by done. apply andb_false_r. }
  destruct (decide (0 ≤ z)).
  - rewrite Z.mod_small by lia. apply Hx. lia.
  - rewrite <- (Z.mod_unique_pos z (2 ^ 128) (-1) (z + 2 ^ 128)) by lia.
    replace (z + 2 ^ 128) with ((z + 2 ^ 127) + 2 ^ 127) by lia.
    rewrite <- (Hx (z + 2 ^ 127)) by lia. rewrite Z.lxor_assoc, Z.lxor_nilpotent. apply Z.lxor_0_r.
Qed.
Lemma now_of_u128 s basis : samples_ok s → is_u128 (now_of s basis).
Proof.
  intros (H1 & H2 & H3 & H4). destruct basis; simpl; try done. rewrite bias_realtime_spec by done. width.
Qed.

(** ** Invariant *)

Section Invariant.
Context {PP : PosixProtocol} {SN : @SignalNumbers PP}.

Record timer_ok (sequence : Z) (t : Timer) : Prop := mkTimerOk {
  tk_schedule : wf (t_schedule t) ∧ ceiling (t_schedule t) = U128_MAX;
  tk_notification : t_notification t ≠ Default ∧ notification_admitted (t_notification t) = true;
  tk_target : target_admitted (t_clock t) (t_target t) = true;
  tk_basis : t_basis t = t_clock t ∨ t_clock t = Realtime ∧ t_basis t = Monotonic;
  tk_overrun : 0 ≤ t_last_overrun t ≤ MAX_OVERRUN;
  tk_pending : ∀ p, t_pending t = Some p →
    p_timer p = t_id t ∧ p_notification p = t_notification t ∧ t_notification t ≠ NoNotification ∧
    1 ≤ p_sequence p < sequence ∧ 1 ≤ p_expirations p ≤ U128_MAX;
}.

(** The sequence numbers of the pending notifications. *)
Definition sequences (l : list Timer) : list Z := p_sequence <$> omap t_pending l.

Record registry_ok (r : Registry) : Prop := mkRegistryOk {
  rk_sorted : StronglySorted Z.lt (t_id <$> timers r);
  rk_ids : Forall (λ t, 1 ≤ t_id t < next_id r) (timers r);
  rk_next_id : 1 ≤ next_id r ≤ U64_MAX;
  rk_next_sequence : 1 ≤ next_sequence r ≤ U64_MAX;
  rk_quota : ∀ owner, owned_count r owner ≤ MAX_TIMERS_PER_PROCESS;
  rk_timers : Forall (timer_ok (next_sequence r)) (timers r);
  rk_sequences : NoDup (sequences (timers r));
}.

(** The timers of every other process. *)
Definition others (owner : Z) (r : Registry) : list Timer := filter (λ t, t_owner t ≠ owner) (timers r).

Lemma owned_count_owners r r' owner :
  t_owner <$> timers r' = t_owner <$> timers r → owned_count r' owner = owned_count r owner.
Proof.
  unfold owned_count. generalize (timers r') (timers r). intros l' l. revert l'.
  induction l as [|t l IH]; intros [|t' l'] E; try done.
  unfold zlen in *. rewrite !filter_cons. injection E as E1 E2. rewrite E1.
  specialize (IH l' E2). case_decide; simpl; lia.
Qed.
Lemma owned_count_sublist r r' owner :
  sublist (timers r') (timers r) → owned_count r' owner ≤ owned_count r owner.
Proof.
  intros Hs. unfold owned_count, zlen. apply inj_le. apply sublist_length.
  induction Hs as [|t l k Hs IH|t l k Hs IH]; [done| |]; rewrite !filter_cons; case_decide;
    first [done|by apply sublist_skip|by apply sublist_cons].
Qed.

Lemma filter_insert_out {A} (P : A → Prop) `{∀ x, Decision (P x)} (l : list A) i x y :
  l !! i = Some x → ¬ P x → ¬ P y → filter P (<[i := y]> l) = filter P l.
Proof.
  revert i. induction l as [|z l IH]; intros [|i] E Hx Hy; simplify_eq/=.
  - by rewrite !filter_cons_False.
  - rewrite !filter_cons. case_decide; [f_equal|]; eauto.
Qed.
Lemma filter_delete_out {A} (P : A → Prop) `{∀ x, Decision (P x)} (l : list A) i x :
  l !! i = Some x → ¬ P x → filter P (delete i l) = filter P l.
Proof.
  revert i. induction l as [|z l IH]; intros [|i] E Hx; simplify_eq/=.
  - by rewrite filter_cons_False.
  - rewrite !filter_cons. case_decide; [f_equal|]; eauto.
Qed.

Lemma sequences_app l k : sequences (l ++ k) = sequences l ++ sequences k.
Proof. unfold sequences. by rewrite omap_app, fmap_app. Qed.
Lemma sequences_cons t l : sequences (t :: l) = (p_sequence <$> option_list (t_pending t)) ++ sequences l.
Proof. unfold sequences. simpl. by destruct (t_pending t). Qed.
Lemma sequences_middle l i t :
  l !! i = Some t →
  sequences l ≡ₚ (p_sequence <$> option_list (t_pending t)) ++ sequences (take i l ++ drop (S i) l).
Proof.
  intros E. rewrite <- (take_drop_middle l i t E) at 1. rewrite !sequences_app, sequences_cons.
  rewrite !app_assoc. f_equiv. apply Permutation_app_comm.
Qed.
Lemma sequences_below r x : registry_ok r → x ∈ sequences (timers r) → 1 ≤ x < next_sequence r.
Proof.
  intros Hr. unfold sequences. rewrite list_elem_of_fmap. intros (p & -> & (t & Ht & Hp)%list_elem_of_omap).
  pose proof (rk_timers _ Hr) as Hk. rewrite Forall_forall in Hk.
  by destruct (tk_pending _ _ (Hk t Ht) p Hp) as (_ & _ & _ & ? & _).
Qed.

(** *** Changing one timer, dropping timers *)

Lemma timer_ok_mono n m t : timer_ok n t → n ≤ m → timer_ok m t.
Proof. intros [H1 H2 H3 H4 H5 H6] Hle. split; try done. intros p Hp. destruct (H6 p Hp). naive_solver lia. Qed.

Lemma ok_put r i t t' sequence' :
  registry_ok r → timers r !! i = Some t → t_id t' = t_id t → t_owner t' = t_owner t →
  next_sequence r ≤ sequence' ≤ U64_MAX → timer_ok sequence' t' →
  (∀ p', t_pending t' = Some p' →
     (∃ p, t_pending t = Some p ∧ p_sequence p = p_sequence p') ∨ next_sequence r ≤ p_sequence p') →
  registry_ok (mkRegistry (<[i := t']> (timers r)) (next_id r) sequence').
Proof.
  intros Hr Hi Eid Eo Hs Ht Hp. pose proof (lookup_lt_Some _ _ _ Hi) as Hlt.
  assert (∀ A (f : Timer → A), f t' = f t → f <$> <[i := t']> (timers r) = f <$> timers r) as Hf.
  { intros A f E. rewrite list_fmap_insert, E. apply list_insert_id. by rewrite list_lookup_fmap, Hi. }
  pose proof Hr as [H1 H2 H3 H4 H5 H6 H7]. split; simpl.
  - by rewrite Hf.
  - apply Forall_insert; [done|]. rewrite Eid. by eapply Forall_lookup_1 in H2.
  - done.
  - lia.
  - intros owner. rewrite (owned_count_owners r); [done|]. simpl. by apply Hf.
  - apply Forall_insert; [|done]. eapply Forall_impl; [done|]. intros u Hu. eapply timer_ok_mono; [done|lia].
  - rewrite (sequences_middle _ i t) in H7 by done.
    rewrite (sequences_middle _ i t') by by apply list_lookup_insert_eq.
    rewrite take_insert_ge, drop_insert_lt by lia.
    apply NoDup_app in H7 as (_ & Hd & H7). apply NoDup_app. split_and!; [|intros x Hx Hx'|done].
    + destruct (t_pending t'); simpl; [apply NoDup_singleton|constructor].
    + destruct (t_pending t') as [p'|]; simpl in Hx; [|by apply not_elem_of_nil in Hx].
      apply list_elem_of_singleton in Hx as ->. destruct (Hp p' eq_refl) as [(p & Ep & Eq)|Hge].
      * apply (Hd (p_sequence p)); rewrite ?Ep; simpl; [by left|by rewrite Eq].
      * pose proof (sequences_below r (p_sequence p') Hr) as Hb.
        rewrite (sequences_middle _ i t) in Hb by done.
        destruct Hb; [apply elem_of_app; by right|lia].
Qed.

Lemma sublist_omap {A B} (f : A → option B) (l k : list A) : sublist l k → sublist (omap f l) (omap f k).
Proof.
  induction 1 as [|x l k _ IH|x l k _ IH]; simpl; [constructor| |]; destruct (f x); try done; by constructor.
Qed.
Lemma Forall_sublist {A} (P : A → Prop) (l k : list A) : sublist l k → Forall P k → Forall P l.
Proof. induction 1; intros Hk; inversion Hk; subst; [constructor|constructor; auto|auto]. Qed.
Lemma sorted_sublist (l k : list Z) : sublist l k → StronglySorted Z.lt k → StronglySorted Z.lt l.
Proof.
  induction 1 as [|x l k Hs IH|x l k Hs IH]; intros Hk; [done| |]; apply StronglySorted_inv in Hk as [Hk Hx].
  - constructor; [by apply IH|]. by eapply Forall_sublist.
  - by apply IH.
Qed.

Lemma ok_sublist r l : registry_ok r → sublist l (timers r) → registry_ok (with_timers r l).
Proof.
  intros [H1 H2 H3 H4 H5 H6 H7] Hs. split; simpl; try done.
  - eapply sorted_sublist; [|done]. by apply fmap_sublist.
  - by eapply Forall_sublist.
  - intros owner. etrans; [by apply (owned_count_sublist r)|done].
  - by eapply Forall_sublist.
  - eapply sublist_NoDup; [done|]. unfold sequences. by apply fmap_sublist, sublist_omap.
Qed.

(** *** Finding a timer *)

Lemma timer_at_Ok owner r id i t :
  timer_at owner r id = Ok (i, t) → timers r !! i = Some t ∧ t_id t = id ∧ t_owner t = owner.
Proof.
  unfold timer_at, index, position_of.
  destruct (iter_position _ (timers r)) as [j|] eqn:E; [|done].
  apply iter_position_Some in E as (u & Hu & Hid & _). rewrite Hu.
  destruct (t_owner u =? owner) eqn:Eo; simpl; [|done]. rewrite Hu. simpl. intros [= <- <-]. split_and!; [done|lia|lia].
Qed.
Lemma sorted_ids r i j t u :
  StronglySorted Z.lt (t_id <$> timers r) → timers r !! i = Some t → timers r !! j = Some u →
  t_id t = t_id u → i = j.
Proof.
  intros Hs Hi Hj E. assert (NoDup (t_id <$> timers r)) as Hd.
  { clear -Hs. induction Hs as [|x l _ IH Hx]; constructor; [|done].
    intros Hin. rewrite Forall_forall in Hx. specialize (Hx _ Hin). lia. }
  eapply NoDup_lookup; [done| |]; rewrite list_lookup_fmap, ?Hi, ?Hj; simpl; [done|by rewrite E].
Qed.
Lemma position_of_id r i t : registry_ok r → timers r !! i = Some t → position_of r (t_id t) = Some i.
Proof.
  intros Hr Hi. unfold position_of. destruct (iter_position _ (timers r)) as [j|] eqn:E.
  - apply iter_position_Some in E as (u & Hu & Hid & _). f_equal.
    eapply sorted_ids; [apply Hr|done|done|lia].
  - rewrite iter_position_None in E. specialize (E t). rewrite Z.eqb_refl in E.
    discriminate E. by eapply list_elem_of_lookup_2.
Qed.
Lemma timer_at_id owner r i t :
  registry_ok r → timers r !! i = Some t → t_owner t = owner → timer_at owner r (t_id t) = Ok (i, t).
Proof.
  intros Hr Hi Ho. unfold timer_at, index. rewrite (position_of_id r i t) by done. rewrite Hi.
  rewrite Ho, Z.eqb_refl. simpl. by rewrite Hi.
Qed.
Lemma timer_ok_at r i t : registry_ok r → timers r !! i = Some t → timer_ok (next_sequence r) t.
Proof. intros Hr Hi. eapply Forall_lookup_1; [apply Hr|done]. Qed.

(** *** Operations *)

Lemma ok_registry_new : registry_ok registry_new.
Proof. split; simpl; try constructor; try done. Qed.

Lemma ok_filter r (P : Timer → Prop) `{∀ t, Decision (P t)} :
  registry_ok r → registry_ok (with_timers r (filter P (timers r))).
Proof.
  intros Hr. apply ok_sublist; [done|]. induction (timers r) as [|t l IH]; [constructor|].
  rewrite filter_cons. case_decide; [by apply sublist_skip|by apply sublist_cons].
Qed.
Lemma ok_delete r i : registry_ok r → registry_ok (with_timers r (delete i (timers r))).
Proof. intros Hr. apply ok_sublist; [done|]. apply sublist_delete. Qed.

Lemma timer_ok_clear n t : timer_ok n t → timer_ok n (set_pending t None).
Proof. intros [H1 H2 H3 H4 H5 H6]. by split. Qed.
Lemma ok_discard_notification r owner mask : registry_ok r → registry_ok (discard_signals owner mask r).
Proof.
  intros [H1 H2 H3 H4 H5 H6 H7]. unfold discard_signals.
  set (f := λ t, if discards owner mask t then set_pending t None else t).
  assert (∀ A (g : Timer → A), (∀ t, g (set_pending t None) = g t) → g <$> (f <$> timers r) = g <$> timers r) as Hf.
  { intros A g Hg. rewrite <- list_fmap_compose. apply list_fmap_ext. intros _ t _. unfold compose, f.
    destruct (discards owner mask t); auto. }
  split; simpl; try done.
  - by rewrite Hf.
  - apply Forall_fmap. eapply Forall_impl; [exact H2|]. intros t Ht. unfold compose, f.
    destruct (discards owner mask t); exact Ht.
  - intros o. rewrite (owned_count_owners r); [done|]. simpl. by apply Hf.
  - apply Forall_fmap. eapply Forall_impl; [exact H6|]. intros t Ht. unfold compose, f.
    destruct (discards owner mask t); [by apply timer_ok_clear|done].
  - clear -H7. eapply sublist_NoDup; [done|]. unfold sequences. apply fmap_sublist. clear H7.
    induction (timers r) as [|t l IH]; simpl; [done|]. unfold f at 1.
    destruct (discards owner mask t); simpl; destruct (t_pending t);
      first [exact IH|by apply sublist_skip|by apply sublist_cons].
Qed.

Lemma ok_create alloc owner c n g r :
  registry_ok r → registry_ok (create_for_target alloc owner c n g r).1.
Proof.
  intros Hr. unfold create_for_target. destruct (target_admitted c g) eqn:Et; [|done].
  destruct (notification_admitted n) eqn:En; [|done]. cbn [negb].
  destruct (_ >=? _) eqn:Eq; [done|]. destruct (checked_add _ _ _) as [next|] eqn:Ec; [|done].
  destruct alloc; [|done]. cbn [negb fst]. unfold checked_add in Ec.
  destruct (_ <=? _) eqn:Eb in Ec; [|done]. injection Ec as <-.
  destruct Hr as [H1 H2 H3 H4 H5 H6 H7]. split; simpl; try done.
  - rewrite fmap_app. simpl. assert (Forall (λ i, i < next_id r) (t_id <$> timers r)) as Hlt.
    { apply Forall_fmap. eapply Forall_impl; [exact H2|]. intros t Ht. simpl in *. lia. }
    clear -H1 Hlt. induction H1 as [|x l _ IH Hx]; simpl; [repeat constructor|].
    apply Forall_cons in Hlt as [? ?]. constructor; [by apply IH|]. apply Forall_app. split; [done|].
    by repeat constructor.
  - apply Forall_app. split; [eapply Forall_impl; [exact H2|]; simpl; lia|]. repeat constructor; simpl; lia.
  - width.
  - intros o. unfold owned_count in *. simpl. rewrite filter_app. specialize (H5 o).
    rewrite zlen_app, filter_cons. case_decide as Ho; simpl in Ho.
    + subst o. change (filter _ []) with (@nil Timer). unfold zlen in *. simpl. lia.
    + change (filter _ []) with (@nil Timer). unfold zlen in *. simpl. lia.
  - apply Forall_app. split; [done|]. apply Forall_singleton. split; simpl; try done.
    + destruct n; try done. split; [done|]. pose proof named_signals_range as Hn.
      rewrite Forall_forall in Hn. assert (SIGNAL_ALRM ∈ named_signals) as Ha by (unfold named_signals; set_solver).
      specialize (Hn _ Ha). simpl. lia.
    + case_bool_decide; [by right|by left].
  - rewrite sequences_app, sequences_cons. simpl. by rewrite app_nil_r.
Qed.

(** An unpublished creation leaves the timers as they were. *)
Lemma drop_created alloc owner c n g r id :
  registry_ok r → (create_for_target alloc owner c n g r).2 = Ok id →
  id = next_id r ∧
  drop_creation id (create_for_target alloc owner c n g r).1 =
    mkRegistry (timers r) (next_id r + 1) (next_sequence r).
Proof.
  intros Hr. pose proof (ok_create alloc owner c n g r Hr) as Hc. revert Hc.
  unfold create_for_target. destruct (negb (target_admitted c g)); [done|].
  destruct (negb (notification_admitted n)); [done|]. destruct (_ >=? _); [done|].
  destruct (checked_add _ _ _) as [next|] eqn:Ec; [|done]. destruct (negb alloc); [done|].
  cbn [fst snd]. intros Hc [= <-]. unfold checked_add in Ec. destruct (_ <=? _) in Ec; [|done].
  injection Ec as <-. split; [done|].
  set (r' := mkRegistry _ _ _) in *. set (t := mkTimer _ _ _ _ _ _ _ _ _) in *.
  unfold drop_creation. change (next_id r) with (t_id t) at 1.
  rewrite (position_of_id r' (length (timers r)) t); [|done|by apply list_lookup_middle].
  unfold with_timers, r'. simpl. f_equal. rewrite delete_take_drop, take_app_length.
  rewrite drop_ge by (rewrite length_app; simpl; lia). apply app_nil_r.
Qed.

Lemma ok_next_id r n : registry_ok r → next_id r ≤ n ≤ U64_MAX → registry_ok (mkRegistry (timers r) n (next_sequence r)).
Proof.
  intros [H1 H2 H3 H4 H5 H6 H7] Hn. split; simpl; try done.
  - eapply Forall_impl; [exact H2|]. simpl. lia.
  - lia.
Qed.
Lemma create_next_id alloc owner c n g r id :
  (create_for_target alloc owner c n g r).2 = Ok id → next_id r + 1 ≤ U64_MAX.
Proof.
  unfold create_for_target. destruct (negb (target_admitted c g)); [done|].
  destruct (negb (notification_admitted n)); [done|]. destruct (_ >=? _); [done|].
  unfold checked_add. destruct (_ <=? _) eqn:E; [lia|done].
Qed.
Lemma ok_create_with_reply alloc owner c n g reply r :
  registry_ok r → registry_ok (create_with_reply alloc owner c n g reply r).1.
Proof.
  intros Hr. pose proof (ok_create alloc owner c n g r Hr) as Hc.
  pose proof (drop_created alloc owner c n g r) as Hd. pose proof (create_next_id alloc owner c n g r) as Hn.
  unfold create_with_reply. destruct (create_for_target alloc owner c n g r) as [r' [id|e]]; [|done].
  destruct (reply id); [done|]. simpl in *. destruct (Hd id Hr eq_refl) as [_ ->].
  specialize (Hn id eq_refl). apply ok_next_id; [done|lia].
Qed.

(** Observing: the new pending notification. *)
Definition accumulates (r : Registry) (t : Timer) (count : Z) (o : option Pending) (sequence' : Z) : Prop :=
  if (count =? 0) || bool_decide (t_notification t = NoNotification)
  then o = t_pending t ∧ sequence' = next_sequence r
  else
    match t_pending t with
    | Some p =>
        o = Some (mkPending (p_timer p) (p_notification p) (p_sequence p)
                    (Z.min U128_MAX (p_expirations p + count))) ∧
        sequence' = next_sequence r
    | None =>
        o = Some (mkPending (t_id t) (t_notification t) (next_sequence r) count) ∧
        sequence' = next_sequence r + 1 ∧ sequence' ≤ U64_MAX
    end.
Lemma observe_timer_cases owner id s r i t sch count :
  timer_at owner r id = Ok (i, t) → observe (t_schedule t) (now_of s (t_basis t)) = (sch, count) →
  (observe_timer owner id s r = (r, Err STATUS_EOVERFLOW) ∧ U64_MAX < next_sequence r + 1 ∧
   t_pending t = None) ∨
  ∃ o sequence',
    observe_timer owner id s r =
      (mkRegistry (<[i := set_schedule t sch o]> (timers r)) (next_id r) sequence', Ok o) ∧
    accumulates r t count o sequence'.
Proof.
  intros E Eo. unfold observe_timer, accumulates. rewrite E, Eo.
  apply timer_at_Ok in E as (_ & Eid & _).
  destruct (count =? 0); cbn [negb andb orb]; [right; by eexists _, _|].
  case_bool_decide; cbn [negb]; [right; by eexists _, _|].
  destruct (t_pending t) as [p|]; [right; by eexists _, _|].
  unfold checked_add. destruct (_ <=? _) eqn:Ec; [|left; split_and!; [done|lia|done]].
  right. eexists _, _. split; [done|]. subst id. split_and!; [done|done|lia].
Qed.

Lemma observe_count s now sch count :
  wf s → is_u128 now → observe s now = (sch, count) →
  0 ≤ count ≤ U128_MAX ∧ wf sch ∧ ceiling sch = ceiling s ∧ interval sch = interval s.
Proof.
  intros Hwf Hn E. pose proof (observe_wf s now Hwf Hn) as Hw. rewrite E in Hw. simpl in Hw.
  destruct (deadline s) as [d|] eqn:Ed.
  - rewrite (observe_spec s now d) in E by done. injection E as <- <-. split; [|done].
    destruct Hwf as (Hi & Hc & Hd). specialize (Hd _ Ed).
    split; [apply expirations_nonneg; width|]. unfold expirations. case_ifs; try width.
    destruct (count_bounds d (interval s) now) as [B _]; width.
  - rewrite observe_disarmed in E by done. injection E as <- <-. split; [width|done].
Qed.

Lemma observed_ok r t sch count o sequence' :
  registry_ok r → timer_ok (next_sequence r) t → wf sch → ceiling sch = U128_MAX →
  0 ≤ count ≤ U128_MAX → accumulates r t count o sequence' →
  timer_ok sequence' (set_schedule t sch o) ∧ next_sequence r ≤ sequence' ≤ U64_MAX ∧
  (∀ p', o = Some p' →
     (∃ p, t_pending t = Some p ∧ p_sequence p = p_sequence p') ∨ next_sequence r ≤ p_sequence p').
Proof.
  intros Hr [H1 H2 H3 H4 H5 H6] Hw Hcl Hc Ha. pose proof (rk_next_sequence _ Hr) as Hs.
  unfold accumulates in Ha. destruct (_ || _) eqn:E.
  { destruct Ha as [-> ->]. split_and!; [by split|lia|lia|]. intros p' Hp'. left. by exists p'. }
  rewrite orb_false_iff, bool_decide_eq_false in E. destruct E as [E1 E2].
  destruct (t_pending t) as [p|].
  - destruct Ha as [-> ->]. destruct (H6 p eq_refl) as (K1 & K2 & K3 & K4 & K5). split_and!; [|lia|lia|].
    + split; simpl; try done. intros p' [= <-]. simpl. split_and!; try done; lia.
    + intros p' [= <-]. left. by exists p.
  - destruct Ha as (-> & -> & Hle). split_and!; [|lia|lia|].
    + split; simpl; try done. intros p' [= <-]. simpl. split_and!; try done; lia.
    + intros p' [= <-]. by right.
Qed.

Lemma ok_observe owner id s r : registry_ok r → samples_ok s → registry_ok (observe_timer owner id s r).1.
Proof.
  intros Hr Hs. destruct (timer_at owner r id) as [[i t]|e] eqn:E.
  2:{ unfold observe_timer. by rewrite E. }
  pose proof E as (Hi & _ & _)%timer_at_Ok. pose proof (timer_ok_at r i t Hr Hi) as Ht.
  destruct (observe (t_schedule t) (now_of s (t_basis t))) as [sch count] eqn:Eo.
  destruct (tk_schedule _ _ Ht) as [Hw Hcl].
  destruct (observe_count _ _ _ _ Hw (now_of_u128 s (t_basis t) Hs) Eo) as (Hc & Hw' & Hcl' & _).
  destruct (observe_timer_cases owner id s r i t sch count E Eo) as [(-> & _)|(o & sequence' & -> & Ha)]; [done|].
  simpl. destruct (observed_ok r t sch count o sequence' Hr Ht Hw') as (K1 & K2 & K3); [congruence|done|done|].
  by eapply ok_put.
Qed.

Lemma ok_set owner id s initial_ns interval_ns absolute r :
  registry_ok r → samples_ok s → is_u128 initial_ns → is_u128 interval_ns →
  registry_ok (set_timer owner id s initial_ns interval_ns absolute r).1.
Proof.
  intros Hr Hs Hin Hit. unfold set_timer. destruct (timer_at owner r id) as [[i t]|e] eqn:E; [|done].
  cbn [mbind result_bind]. set (basis := replacement_basis t absolute).
  destruct (if bool_decide (basis = Realtime) && _ then _ else _) as [initial|e] eqn:Ei; [|done].
  cbn [mbind result_bind]. destruct (arm _ _ _ _ _) as [sch|] eqn:Ea; [|done].
  assert (is_u128 initial) as Hi.
  { unfold checked_add in Ei. case_ifs; simpl in Ei; simplify_eq/=; width. }
  simpl. pose proof E as (Hl & _ & _)%timer_at_Ok. pose proof (timer_ok_at r i t Hr Hl) as Ht.
  pose proof (rk_next_sequence _ Hr) as Hn. unfold put, with_timers. eapply ok_put; try done; [lia|].
  destruct Ht as [H1 H2 H3 H4 H5 H6]. split; simpl; try done.
  - split; [|unfold arm in Ea; inv_result; done].
    eapply arm_wf; [| | | |exact Ea]; [by apply now_of_u128|done|done|width].
  - unfold basis, replacement_basis. destruct (decide (t_clock t = Realtime)) as [Ec|Ec].
    + rewrite bool_decide_eq_true_2 by done. destruct absolute; [by left|by right].
    + rewrite bool_decide_eq_false_2 by done. by left.
Qed.

(** Completing a notification. *)
Definition finished (t : Timer) (sch : Schedule) (overrun : Z) : Timer :=
  mkTimer (t_owner t) (t_id t) (t_clock t) (t_basis t) (t_target t) (t_notification t) sch None overrun.
Lemma finish_cases owner p s accepted reply r :
  registry_ok r →
  (∃ e, finish_with_reply owner p s accepted reply r = (r, Err e)) ∨
  ∃ i t sch count q0 q,
    timers r !! i = Some t ∧ t_id t = p_timer p ∧ t_owner t = owner ∧
    observe (t_schedule t) (now_of s (t_basis t)) = (sch, count) ∧
    t_pending t = Some q0 ∧ p_sequence q0 = p_sequence p ∧ p_sequence q = p_sequence p ∧
    accumulates r t count (Some q) (next_sequence r) ∧
    finish_with_reply owner p s accepted reply r =
      if reply q
      then (with_timers r (<[i := finished t sch (if accepted then pending_overrun q else t_last_overrun t)]>
                             (timers r)), Ok (Some q))
      else (with_timers r (<[i := set_schedule t sch (Some q)]> (timers r)), Ok None).
Proof.
  intros Hr. unfold finish_with_reply, selected.
  destruct (timer_at owner r (p_timer p)) as [[i t]|e] eqn:E; [|left; by eexists].
  cbn [mbind result_bind]. destruct (t_pending t) as [q0|] eqn:Eq; [|left; by eexists].
  cbn [option_keep ok_or]. destruct (p_sequence q0 =? p_sequence p) eqn:Es; [|left; by eexists].
  cbn [mbind result_bind ok_or]. right. pose proof E as (Hi & Hid & Ho)%timer_at_Ok.
  pose proof (lookup_lt_Some _ _ _ Hi) as Hlt.
  destruct (observe (t_schedule t) (now_of s (t_basis t))) as [sch count] eqn:Eo.
  destruct (observe_timer_cases owner (p_timer p) s r i t sch count E Eo)
    as [(_ & _ & Hn)|(o & sequence' & -> & Ha)]; [congruence|].
  assert (∃ q, o = Some q ∧ p_sequence q = p_sequence q0 ∧ sequence' = next_sequence r) as (q & -> & Hq & ->).
  { unfold accumulates in Ha. rewrite Eq in Ha. destruct (_ || _); destruct Ha as [-> ->]; eexists; split_and!; done. }
  exists i, t, sch, count, q0, q. split_and!; try done; [lia|lia|].
  cbn [timers]. rewrite list_lookup_insert_eq by done. cbn.
  replace (p_sequence q =? p_sequence p) with true by lia. cbn.
  destruct (reply q); [|done]. cbn [negb]. unfold put, with_timers. simpl. by rewrite list_insert_insert_eq.
Qed.

Lemma finished_ok n t sch o :
  timer_ok n t → wf sch → ceiling sch = U128_MAX → 0 ≤ o ≤ MAX_OVERRUN → timer_ok n (finished t sch o).
Proof. intros [H1 H2 H3 H4 H5 H6] Hw Hc Ho. by split. Qed.
Lemma pending_overrun_bound p : 0 ≤ pending_overrun p ≤ MAX_OVERRUN.
Proof. unfold pending_overrun, saturating_sub, MAX_OVERRUN. lia. Qed.
Lemma ok_finish owner p s accepted reply r :
  registry_ok r → samples_ok s → registry_ok (finish_with_reply owner p s accepted reply r).1.
Proof.
  intros Hr Hs. destruct (finish_cases owner p s accepted reply r Hr)
    as [(e & ->)|(i & t & sch & count & q0 & q & Hi & Hid & Ho & Eo & Eq & Es & Es' & Ha & ->)]; [done|].
  pose proof (timer_ok_at r i t Hr Hi) as Ht. destruct (tk_schedule _ _ Ht) as [Hw Hcl].
  destruct (observe_count _ _ _ _ Hw (now_of_u128 s (t_basis t) Hs) Eo) as (Hc & Hw' & Hcl' & _).
  destruct (observed_ok r t sch count (Some q) (next_sequence r) Hr Ht Hw') as (K1 & K2 & K3);
    [congruence|done|done|].
  unfold with_timers. destruct (reply q); simpl; eapply ok_put; try done.
  apply finished_ok; [done|done|congruence|].
  destruct accepted; [apply pending_overrun_bound|apply Ht].
Qed.

(** ** Histories *)

(** The calls of one owner. *)
Inductive TimerCall :=
  | CallCreate (alloc : bool) (c : Clock) (n : Notification) (g : Target) (reply : Z → bool)
  | CallDelete (id : Z)
  | CallSet (id : Z) (s : Samples) (initial_ns interval_ns : Z) (absolute : bool)
  | CallObserve (id : Z) (s : Samples)
  | CallFinish (p : Pending) (s : Samples) (accepted : bool) (reply : Pending → bool).
Definition call_typed (c : TimerCall) : Prop :=
  match c with
  | CallSet _ s a b _ => samples_ok s ∧ is_u128 a ∧ is_u128 b
  | CallObserve _ s | CallFinish _ s _ _ => samples_ok s
  | _ => True
  end.
Definition call (owner : Z) (c : TimerCall) (r : Registry) : Registry * result Z unit :=
  match c with
  | CallCreate alloc c n g reply =>
      let '(r, res) := create_with_reply alloc owner c n g reply r in (r, (λ _, tt) <$> res)
  | CallDelete id => delete_timer owner id r
  | CallSet id s a b absolute => let '(r, res) := set_timer owner id s a b absolute r in (r, (λ _, tt) <$> res)
  | CallObserve id s => let '(r, res) := observe_timer owner id s r in (r, (λ _, tt) <$> res)
  | CallFinish p s accepted reply =>
      let '(r, res) := finish_with_reply owner p s accepted reply r in (r, (λ _, tt) <$> res)
  end.
Inductive timer_step : Registry → Registry → Prop :=
  | step_call owner c r : call_typed c → timer_step r (call owner c r).1
  | step_retire_owner owner r : timer_step r (retire_owner owner r)
  | step_retire_thread owner thread r : timer_step r (retire_thread owner thread r)
  | step_retire_target process r : timer_step r (retire_process_target process r)
  | step_discard owner mask r : timer_step r (discard_signals owner mask r).

Lemma ok_call owner c r : registry_ok r → call_typed c → registry_ok (call owner c r).1.
Proof.
  intros Hr Hc. destruct c as [alloc c n g reply|id|id s a b absolute|id s|p s accepted reply]; simpl in *.
  - pose proof (ok_create_with_reply alloc owner c n g reply r Hr) as H. by destruct (create_with_reply _ _ _ _ _ _ r).
  - unfold delete_timer. destruct (index owner r id); [by apply ok_delete|done].
  - destruct Hc as (Hs & Ha & Hb). pose proof (ok_set owner id s a b absolute r Hr Hs Ha Hb) as H.
    by destruct (set_timer _ _ _ _ _ _ r).
  - pose proof (ok_observe owner id s r Hr Hc) as H. by destruct (observe_timer _ _ _ r).
  - pose proof (ok_finish owner p s accepted reply r Hr Hc) as H. by destruct (finish_with_reply _ _ _ _ _ r).
Qed.
Lemma ok_step r r' : timer_step r r' → registry_ok r → registry_ok r'.
Proof. destruct 1; intros Hr; [by apply ok_call|by apply ok_filter..|by apply ok_discard_notification]. Qed.
Lemma ok_steps r r' : rtc timer_step r r' → registry_ok r → registry_ok r'.
Proof. induction 1; eauto using ok_step. Qed.

(** What a call changes: nothing, one timer of the owner, or the list of its timers. *)
Inductive call_effect (owner : Z) (r : Registry) : Registry → Prop :=
  | effect_none : call_effect owner r r
  | effect_put i t t' sequence' :
      timers r !! i = Some t → t_owner t = owner → t_owner t' = owner → t_id t' = t_id t →
      next_sequence r ≤ sequence' →
      (∀ p', t_pending t' = Some p' →
         (∃ p, t_pending t = Some p ∧ p_sequence p = p_sequence p') ∨ next_sequence r ≤ p_sequence p') →
      call_effect owner r (mkRegistry (<[i := t']> (timers r)) (next_id r) sequence')
  | effect_delete i t :
      timers r !! i = Some t → t_owner t = owner →
      call_effect owner r (with_timers r (delete i (timers r)))
  | effect_create t :
      t_owner t = owner → t_id t = next_id r → t_pending t = None →
      call_effect owner r (mkRegistry (timers r ++ [t]) (next_id r + 1) (next_sequence r))
  | effect_withdraw : call_effect owner r (mkRegistry (timers r) (next_id r + 1) (next_sequence r)).

Lemma create_effect alloc owner c n g reply r :
  registry_ok r →
  call_effect owner r (create_with_reply alloc owner c n g reply r).1 ∧
  (∀ e, (create_with_reply alloc owner c n g reply r).2 = Err e →
        (create_with_reply alloc owner c n g reply r).1 = r).
Proof.
  intros Hr. unfold create_with_reply. pose proof (drop_created alloc owner c n g r) as Hd.
  assert (match create_for_target alloc owner c n g r with
          | (r', Err _) => r' = r
          | (r', Ok _) => ∃ t, t_owner t = owner ∧ t_id t = next_id r ∧ t_pending t = None ∧
              r' = mkRegistry (timers r ++ [t]) (next_id r + 1) (next_sequence r)
          end) as H.
  { unfold create_for_target. destruct (negb (target_admitted c g)); [done|].
    destruct (negb (notification_admitted n)); [done|]. destruct (_ >=? _); [done|].
    unfold checked_add. destruct (_ <=? _); [|done]. destruct (negb alloc); [done|].
    eexists. split_and!; [| | |reflexivity]; done. }
  destruct (create_for_target alloc owner c n g r) as [r' [id|e]].
  - destruct H as (t & H1 & H2 & H3 & ->). destruct (reply id); simpl in *; (split; [|done]).
    + by apply effect_create.
    + destruct (Hd id Hr eq_refl) as [_ ->]. apply effect_withdraw.
  - subst. split; [apply effect_none|done].
Qed.

Lemma call_effects owner c r :
  registry_ok r → call_typed c →
  call_effect owner r (call owner c r).1 ∧ (∀ e, (call owner c r).2 = Err e → (call owner c r).1 = r).
Proof.
  intros Hr Hc. destruct c as [alloc c n g reply|id|id s a b absolute|id s|p s accepted reply]; simpl in *.
  - pose proof (create_effect alloc owner c n g reply r Hr) as [H1 H2].
    destruct (create_with_reply _ _ _ _ _ _ r) as [r' [?|?]]; simpl in *; [done|].
    split; [done|]. intros _ _. by eapply H2.
  - unfold delete_timer, index. destruct (position_of r id) as [i|]; [|split; [apply effect_none|done]].
    destruct (timers r !! i) as [t|] eqn:Ei; [|split; [apply effect_none|done]].
    destruct (t_owner t =? owner) eqn:Eo; [|split; [apply effect_none|done]].
    split; [|done]. eapply effect_delete; [done|lia].
  - unfold set_timer. destruct (timer_at owner r id) as [[i t]|e] eqn:E; [|split; [apply effect_none|done]].
    apply timer_at_Ok in E as (Hi & Hid & Ho). cbn [mbind result_bind].
    destruct (if _ && _ then _ else _) as [initial|e]; [|split; [apply effect_none|done]].
    cbn [mbind result_bind]. destruct (map_err _ _) as [sch|e]; [|split; [apply effect_none|done]].
    simpl. split; [|done]. by eapply effect_put.
  - destruct (timer_at owner r id) as [[i t]|e] eqn:E.
    2:{ unfold observe_timer. rewrite E. split; [apply effect_none|done]. }
    pose proof E as (Hi & Hid & Ho)%timer_at_Ok. pose proof (timer_ok_at r i t Hr Hi) as Ht.
    destruct (observe (t_schedule t) (now_of s (t_basis t))) as [sch count] eqn:Eo.
    destruct (tk_schedule _ _ Ht) as [Hw Hcl].
    destruct (observe_count _ _ _ _ Hw (now_of_u128 s (t_basis t) Hc) Eo) as (Hcn & Hw' & Hcl' & _).
    destruct (observe_timer_cases owner id s r i t sch count E Eo) as [(-> & _)|(o & sequence' & -> & Ha)];
      [split; [apply effect_none|done]|]. simpl. split; [|done].
    destruct (observed_ok r t sch count o sequence' Hr Ht Hw') as (K1 & K2 & K3); [congruence|done|done|].
    eapply effect_put; try done. lia.
  - destruct (finish_cases owner p s accepted reply r Hr)
      as [(e & ->)|(i & t & sch & count & q0 & q & Hi & Hid & Ho & Eo & Eq & Es & Es' & Ha & ->)];
      [split; [apply effect_none|done]|].
    destruct (reply q); simpl; (split; [|done]); unfold with_timers; eapply effect_put; try done.
    intros p' [= <-]. left. exists q0. split; [done|]. congruence.
Qed.

Lemma effect_others owner r r' : call_effect owner r r' → others owner r' = others owner r.
Proof.
  destruct 1 as [|i t t' sequence' Hi Ho Ho' _ _ _|i t Hi Ho|t Ho _ _|]; unfold others; simpl; try done.
  - eapply filter_insert_out; [done|..]; naive_solver.
  - eapply filter_delete_out; [done|]. naive_solver.
  - rewrite filter_app, (filter_cons_False _ t) by naive_solver. apply app_nil_r.
Qed.

(** Identifiers and sequence numbers only come from the counters. *)
Definition fresh_only (r r' : Registry) : Prop :=
  next_id r ≤ next_id r' ∧ next_sequence r ≤ next_sequence r' ∧
  (∀ x, x ∈ t_id <$> timers r' → x ∈ t_id <$> timers r ∨ next_id r ≤ x) ∧
  (∀ x, x ∈ sequences (timers r') → x ∈ sequences (timers r) ∨ next_sequence r ≤ x).
Lemma fresh_sublist r l : sublist l (timers r) → fresh_only r (with_timers r l).
Proof.
  intros Hs. split_and!; simpl; try lia; intros x Hx; left.
  - eapply sublist_subseteq; [|exact Hx]. by apply fmap_sublist.
  - eapply sublist_subseteq; [|exact Hx]. unfold sequences. by apply fmap_sublist, sublist_omap.
Qed.
Lemma fresh_filter r (P : Timer → Prop) `{∀ t, Decision (P t)} :
  fresh_only r (with_timers r (filter P (timers r))).
Proof.
  apply fresh_sublist. induction (timers r) as [|t l IH]; [constructor|].
  rewrite filter_cons. case_decide; [by apply sublist_skip|by apply sublist_cons].
Qed.
Lemma fresh_trans r1 r2 r3 : fresh_only r1 r2 → fresh_only r2 r3 → fresh_only r1 r3.
Proof.
  intros (A1 & A2 & A3 & A4) (B1 & B2 & B3 & B4). split_and!; try lia; intros x Hx.
  - destruct (B3 x Hx) as [H|]; [|right; lia]. destruct (A3 x H); [by left|right; lia].
  - destruct (B4 x Hx) as [H|]; [|right; lia]. destruct (A4 x H); [by left|right; lia].
Qed.
Lemma fresh_put r i t t' sequence' :
  timers r !! i = Some t → t_id t' = t_id t → next_sequence r ≤ sequence' →
  (∀ p', t_pending t' = Some p' →
     (∃ p, t_pending t = Some p ∧ p_sequence p = p_sequence p') ∨ next_sequence r ≤ p_sequence p') →
  fresh_only r (mkRegistry (<[i := t']> (timers r)) (next_id r) sequence').
Proof.
  intros Hi Hid Hs Hp. pose proof (lookup_lt_Some _ _ _ Hi) as Hlt. split_and!; simpl; try lia.
  - intros x Hx. left. rewrite list_fmap_insert, list_insert_id in Hx; [done|].
    by rewrite Hid, list_lookup_fmap, Hi.
  - intros x. rewrite (sequences_middle _ i t') by by apply list_lookup_insert_eq.
    rewrite take_insert_ge, drop_insert_lt by lia. rewrite (sequences_middle _ i t Hi), !elem_of_app.
    intros [Hx|Hx]; [|by left; right]. destruct (t_pending t') as [p'|]; simpl in Hx; [|by apply not_elem_of_nil in Hx].
    apply list_elem_of_singleton in Hx as ->. destruct (Hp p' eq_refl) as [(p & -> & <-)|?]; [|by right].
    left. left. simpl. by left.
Qed.
Lemma fresh_effect owner r r' : call_effect owner r r' → fresh_only r r'.
Proof.
  destruct 1 as [|i t t' sequence' Hi Ho Ho' Hid Hs Hp|i t Hi Ho|t Ho Hid Hn|].
  - split_and!; try lia; by left.
  - by eapply fresh_put.
  - apply fresh_sublist, sublist_delete.
  - split_and!; simpl; try lia; intros x.
    + rewrite fmap_app, elem_of_app. intros [Hx|Hx]; [by left|]. right.
      apply list_elem_of_singleton in Hx. simpl in *. lia.
    + rewrite sequences_app, sequences_cons, Hn. simpl. rewrite app_nil_r. by left.
  - split_and!; simpl; try lia; by left.
Qed.
Lemma fresh_step r r' : timer_step r r' → registry_ok r → fresh_only r r'.
Proof.
  destruct 1 as [owner c r Hc| | | |owner mask r]; intros Hr; [|apply fresh_filter..|].
  - eapply fresh_effect. by apply call_effects.
  - split_and!; simpl; try lia; intros x Hx; left.
    + revert Hx. rewrite <- list_fmap_compose. erewrite list_fmap_ext; [done|].
      intros _ t _. unfold compose. by destruct (discards owner mask t).
    + eapply sublist_subseteq; [|exact Hx]. unfold sequences. apply fmap_sublist. clear.
      induction (timers r) as [|t l IH]; simpl; [done|].
      destruct (discards owner mask t); simpl; destruct (t_pending t);
        first [exact IH|by apply sublist_skip|by apply sublist_cons].
Qed.
Lemma fresh_steps r r' : rtc timer_step r r' → registry_ok r → fresh_only r r'.
Proof.
  induction 1 as [r|r1 r2 r3 H1 _ IH]; intros Hr; [split_and!; try lia; by left|].
  eapply fresh_trans; [by apply fresh_step|]. apply IH. by eapply ok_step.
Qed.

(** A completed notification is no longer pending, and its number is in the past. *)
Lemma completed_gone owner p s accepted reply r r1 q :
  registry_ok r → finish_with_reply owner p s accepted reply r = (r1, Ok (Some q)) →
  ¬ (p_sequence q ∈ sequences (timers r1) ∨ next_sequence r1 ≤ p_sequence q).
Proof.
  intros Hr E. destruct (finish_cases owner p s accepted reply r Hr)
    as [(e & E')|(i & t & sch & count & q0 & q' & Hi & _ & _ & _ & Eq & Es & Es' & _ & E')]; rewrite E in E'; [done|].
  pose proof (lookup_lt_Some _ _ _ Hi) as Hlt.
  destruct (reply q'); [|done]. injection E' as -> ->. pose proof (rk_sequences _ Hr) as Hd.
  rewrite (sequences_middle _ i t Hi), Eq in Hd. simpl in Hd. apply NoDup_cons in Hd as [Hd _].
  intros [Hin|Hle]; simpl in *.
  - rewrite (sequences_middle _ i) in Hin by by apply list_lookup_insert_eq.
    rewrite take_insert_ge, drop_insert_lt in Hin by lia. simpl in Hin. apply Hd. by rewrite Es, <- Es'.
  - destruct (tk_pending _ _ (timer_ok_at r i t Hr Hi) q0 Eq) as (_ & _ & _ & ? & _). lia.
Qed.

(** ** Correctness *)

(** In every reachable timer registry identifiers are strictly increasing,
    quotas hold and pending notifications are well-formed; a call of one
    process leaves the timers of every other process as they were, and a
    call that fails changes nothing. *)
Theorem timers_isolated r owner c :
  rtc timer_step registry_new r → call_typed c →
  registry_ok r ∧ others owner (call owner c r).1 = others owner r ∧
  (∀ e, (call owner c r).2 = Err e → (call owner c r).1 = r).
Proof.
  intros Hs Hc. assert (registry_ok r) as Hr by (eapply ok_steps; [done|apply ok_registry_new]).
  destruct (call_effects owner c r Hr Hc) as [H1 H2].
  split_and!; [done|by apply effect_others|done].
Qed.

(** A notification that was accepted or discarded is never completed again:
    in every later state of the registry, completing it fails and changes
    nothing. *)
Theorem notification_completed_once r r1 r2 owner p s accepted reply q :
  rtc timer_step registry_new r → samples_ok s →
  finish_with_reply owner p s accepted reply r = (r1, Ok (Some q)) → rtc timer_step r1 r2 →
  ∀ owner' p' s' accepted' reply', p_sequence p' = p_sequence q →
    ∃ e, finish_with_reply owner' p' s' accepted' reply' r2 = (r2, Err e).
Proof.
  intros Hs Hsa E H2 owner' p' s' accepted' reply' Ep.
  assert (registry_ok r) as Hr by (eapply ok_steps; [done|apply ok_registry_new]).
  pose proof (ok_finish owner p s accepted reply r Hr Hsa) as Hr1. rewrite E in Hr1. simpl in Hr1.
  assert (registry_ok r2) as Hr2 by by eapply ok_steps.
  destruct (finish_cases owner' p' s' accepted' reply' r2 Hr2)
    as [?|(i & t & sch & count & q0 & q' & Hi & _ & _ & _ & Eq & Es & _)]; [done|exfalso].
  assert (p_sequence q ∈ sequences (timers r2)) as Hin.
  { unfold sequences. apply list_elem_of_fmap. exists q0. split; [congruence|].
    apply list_elem_of_omap. exists t. split; [by eapply list_elem_of_lookup_2|done]. }
  destruct (fresh_steps r1 r2 H2 Hr1) as (_ & _ & _ & Hf). specialize (Hf _ Hin).
  eapply completed_gone; [exact Hr|exact E|exact Hf].
Qed.

(** ** Overrun accounting *)

Fixpoint observe_all (owner id : Z) (ss : list Samples) (r : Registry) : Registry * result Z unit :=
  match ss with
  | [] => (r, Ok tt)
  | s :: ss =>
      match observe_timer owner id s r with
      | (r, Err e) => (r, Err e)
      | (r, Ok _) => observe_all owner id ss r
      end
  end.

(** [r'] is [r] after its timer [t] at [i] has been observed up to the reading [n]. *)
Definition tracks (r : Registry) (i : nat) (t : Timer) (n : Z) (r' : Registry) : Prop :=
  ∃ sch count o,
    registry_ok r' ∧ observe (t_schedule t) n = (sch, count) ∧
    timers r' !! i = Some (set_schedule t sch o) ∧
    match o with
    | None => count = 0 ∧ next_sequence r' = next_sequence r
    | Some p => p_timer p = t_id t ∧ p_expirations p = count ∧ 1 ≤ count
    end.

Lemma tracks_start r i t :
  registry_ok r → timers r !! i = Some t → t_pending t = None → tracks r i t 0 r.
Proof.
  intros Hr Hi Hp. exists (t_schedule t), 0, None.
  destruct (tk_schedule _ _ (timer_ok_at r i t Hr Hi)) as [Hw _]. split_and!; try done.
  - destruct (deadline (t_schedule t)) as [d|] eqn:E; [|by apply observe_disarmed].
    pose proof Hw as (_ & _ & Hd). specialize (Hd d E).
    rewrite (observe_spec _ _ d) by (done || width). unfold next_instant, expirations.
    replace (0 <? d) with true by lia. rewrite <- E. by destruct (t_schedule t).
  - rewrite Hi. f_equal. rewrite <- Hp. by destruct t.
Qed.

Lemma observe_later s n n' sch c sch' c' :
  wf s → ceiling s = U128_MAX → 0 ≤ n ≤ n' → n' ≤ U128_MAX →
  observe s n = (sch, c) → observe sch n' = (sch', c') → observe s n' = (sch', c + c').
Proof.
  intros Hw Hc Hn Hm E E'. pose proof (observe_compose s n n' Hw Hn ltac:(lia)) as H. by rewrite E, E' in H.
Qed.

Lemma tracks_observe r i t n r' s owner :
  registry_ok r → timers r !! i = Some t → t_owner t = owner → t_notification t ≠ NoNotification →
  next_sequence r < U64_MAX → samples_ok s → 0 ≤ n ≤ now_of s (t_basis t) → tracks r i t n r' →
  ∃ r'' o, observe_timer owner (t_id t) s r' = (r'', Ok o) ∧ tracks r i t (now_of s (t_basis t)) r''.
Proof.
  intros Hr Hi Ho Hnn Hseq Hs Hn (sch & count & o & Hr' & Eo & Hi' & Hp).
  pose proof (now_of_u128 s (t_basis t) Hs) as Hu. set (n' := now_of s (t_basis t)) in *.
  destruct (tk_schedule _ _ (timer_ok_at r i t Hr Hi)) as [Hw Hcl].
  destruct (observe sch n') as [sch' c'] eqn:Eo'.
  pose proof (observe_later _ _ _ _ _ _ _ Hw Hcl Hn ltac:(width) Eo Eo') as Et.
  destruct (observe_count _ _ _ _ Hw Hu Et) as (Hb & _).
  pose proof (timer_ok_at r' i _ Hr' Hi') as Ht'. destruct (tk_schedule _ _ Ht') as [Hw' Hcl'].
  destruct (observe_count _ _ _ _ Hw' Hu Eo') as (Hb' & _).
  pose proof (timer_at_id owner r' i _ Hr' Hi' Ho) as Ea.
  pose proof (ok_observe owner (t_id t) s r' Hr' Hs) as Hok.
  destruct (observe_timer_cases owner (t_id t) s r' i _ sch' c' Ea Eo') as [(_ & Hov & Hnone)|(o' & seq & E & Ha)].
  { simpl in Hnone. subst o. destruct Hp as [_ Hp]. lia. }
  rewrite E in *. exists (mkRegistry (<[i := set_schedule (set_schedule t sch o) sch' o']> (timers r')) (next_id r') seq), o'. split; [done|].
  exists sch', (count + c'), o'. split_and!; try done.
  { simpl. rewrite list_lookup_insert_eq by by eapply lookup_lt_Some. by destruct t. }
  unfold accumulates in Ha. simpl in Ha. rewrite (bool_decide_eq_false_2 _ Hnn), orb_false_r in Ha.
  destruct (c' =? 0) eqn:Ec.
  - destruct Ha as [-> ->]. assert (c' = 0) as -> by lia. rewrite Z.add_0_r. by destruct o.
  - destruct o as [p|].
    + destruct Ha as [-> ->]. simpl. destruct Hp as (Hp1 & Hp2 & Hp3). split_and!; [done|lia|lia].
    + destruct Ha as (-> & -> & _). destruct Hp as [-> _]. simpl. split_and!; [done|lia|lia].
Qed.

Lemma tracks_all r i t owner ss n r' :
  registry_ok r → timers r !! i = Some t → t_owner t = owner → t_notification t ≠ NoNotification →
  next_sequence r < U64_MAX → Forall samples_ok ss → 0 ≤ n →
  StronglySorted Z.le (n :: ((λ s, now_of s (t_basis t)) <$> ss)) → tracks r i t n r' →
  ∃ r'', observe_all owner (t_id t) ss r' = (r'', Ok tt) ∧
    tracks r i t (default n (last ((λ s, now_of s (t_basis t)) <$> ss))) r''.
Proof.
  intros Hr Hi Ho Hnn Hseq Hss. revert n r'. induction Hss as [|s ss Hs Hss IH]; intros n r' Hn Hsort Ht.
  { by exists r'. }
  cbn [observe_all].
  apply StronglySorted_inv in Hsort as [Hsort Hle]. simpl in Hle. apply Forall_cons in Hle as [Hle _].
  destruct (tracks_observe r i t n r' s owner Hr Hi Ho Hnn Hseq Hs ltac:(lia) Ht) as (r1 & o & -> & H1).
  destruct (IH (now_of s (t_basis t)) r1) as (r2 & E & H2); [lia|done|done|].
  exists r2. split; [done|]. rewrite fmap_cons, last_cons. by destruct (last _).
Qed.

Lemma accept_pending owner p s r i t :
  registry_ok r → timers r !! i = Some t → t_owner t = owner → t_pending t = Some p →
  ∃ sch count q,
    observe (t_schedule t) (now_of s (t_basis t)) = (sch, count) ∧
    accumulates r t count (Some q) (next_sequence r) ∧
    accept owner p s r =
      (with_timers r (<[i := finished t sch (pending_overrun q)]> (timers r)), Ok q).
Proof.
  intros Hr Hi Ho Hp. destruct (tk_pending _ _ (timer_ok_at r i t Hr Hi) p Hp) as (Hid & _).
  destruct (finish_cases owner p s true (λ _, true) r Hr)
    as [(e & E)|(j & u & sch & count & q0 & q & Hj & Hid' & Ho' & Eo & Eq & Es & Es' & Ha & E)].
  - exfalso. unfold finish_with_reply, selected in E.
    rewrite Hid, (timer_at_id owner r i t Hr Hi Ho) in E. cbn [mbind result_bind] in E. rewrite Hp in E.
    cbn [option_keep ok_or] in E. rewrite Z.eqb_refl in E. cbn [mbind result_bind ok_or] in E.
    destruct (observe (t_schedule t) (now_of s (t_basis t))) as [sch count] eqn:Eo.
    destruct (observe_timer_cases owner (t_id t) s r i t sch count (timer_at_id owner r i t Hr Hi Ho) Eo)
      as [(_ & _ & Hn)|(o & sequence' & E' & Ha)]; [congruence|].
    rewrite E' in E. cbn [timers] in E. rewrite list_lookup_insert_eq in E by by eapply lookup_lt_Some.
    unfold accumulates in Ha. rewrite Hp in Ha. cbn in E.
    assert (∃ q, o = Some q ∧ p_sequence q = p_sequence p) as (q & -> & Eq).
    { destruct (_ || _); destruct Ha as [-> _]; by eexists. }
    cbn in E. rewrite Eq, Z.eqb_refl in E. done.
  - assert (j = i) as -> by (eapply sorted_ids; [apply Hr|done|done|congruence]).
    assert (u = t) as -> by congruence. exists sch, count, q. split_and!; [done|done|].
    unfold accept. rewrite E. done.
Qed.

Lemma timer_at_finished owner r i t sch o :
  registry_ok r → timers r !! i = Some t → t_owner t = owner →
  timer_at owner (with_timers r (<[i := finished t sch o]> (timers r))) (t_id t) = Ok (i, finished t sch o).
Proof.
  intros Hr Hi Ho. pose proof (lookup_lt_Some _ _ _ Hi) as Hlt.
  assert (timers r !! i = Some t → position_of (with_timers r (<[i := finished t sch o]> (timers r))) (t_id t) = Some i) as Hp.
  { intros _. unfold position_of, with_timers. simpl.
    destruct (iter_position _ _) as [j|] eqn:E.
    - apply iter_position_Some in E as (u & Hu & Hid & _). f_equal.
      destruct (decide (i = j)) as [->|Hne]; [done|]. rewrite list_lookup_insert_ne in Hu by done.
      symmetry. eapply sorted_ids; [apply Hr|done|done|lia].
    - rewrite iter_position_None in E. specialize (E (finished t sch o)). simpl in E.
      rewrite Z.eqb_refl in E. discriminate E. apply list_elem_of_lookup. exists i. by apply list_lookup_insert_eq. }
  unfold timer_at, index. rewrite Hp by done. simpl. rewrite list_lookup_insert_eq by done. simpl.
  rewrite Ho, Z.eqb_refl. simpl. by rewrite list_lookup_insert_eq.
Qed.

(** The last of increasing readings. *)
Lemma readings_bounds t ss s :
  Forall samples_ok ss → samples_ok s →
  StronglySorted Z.le (((λ s, now_of s (t_basis t)) <$> ss) ++ [now_of s (t_basis t)]) →
  let f := λ s, now_of s (t_basis t) in
  let n := default 0 (last (f <$> ss)) in
  0 ≤ n ≤ f s ∧ is_u128 (f s) ∧ ∀ s', s' ∈ ss → f s' ≤ n.
Proof.
  intros Hss Hs Hsort f n. pose proof (now_of_u128 s (t_basis t) Hs) as Hu.
  destruct ss as [|u ss _] using rev_ind; [subst n f; simpl in *; split_and!; [done|width|done|set_solver]|].
  subst n. rewrite fmap_app. change (f <$> [u]) with [f u]. rewrite last_snoc. simpl. apply Forall_app in Hss as [Hss [Hsu _]%Forall_cons].
  pose proof (now_of_u128 u (t_basis t) Hsu) as Huu. rewrite fmap_app, <- app_assoc in Hsort.
  apply StronglySorted_app in Hsort as (Hle & _ & Hsort). simpl in Hsort.
  apply StronglySorted_inv in Hsort as [_ [Hlast _]%Forall_cons]. unfold f. split_and!; [width|done|done|].
  intros s' [Hin|Hin]%elem_of_app.
  - apply Hle; [by apply list_elem_of_fmap; exists s'|by left].
  - by apply list_elem_of_singleton in Hin as ->.
Qed.

(** C35: After any observations of an armed timer at non-decreasing instants,
    either none of them reached the deadline and no notification is pending,
    or accepting the pending one reports exactly the expirations since the
    timer was armed, and an overrun one less, capped at its maximum. *)
Theorem overrun_exact owner r i t d ss s :
  rtc timer_step registry_new r → timers r !! i = Some t → t_owner t = owner →
  t_notification t ≠ NoNotification → t_pending t = None → deadline (t_schedule t) = Some d →
  next_sequence r < U64_MAX → Forall samples_ok (ss ++ [s]) →
  StronglySorted Z.le ((λ s, now_of s (t_basis t)) <$> ss ++ [s]) →
  ∃ r' t', observe_all owner (t_id t) ss r = (r', Ok tt) ∧ timers r' !! i = Some t' ∧
    match t_pending t' with
    | None => ∀ s', s' ∈ ss → now_of s' (t_basis t) < d
    | Some p =>
        let total := expirations d (interval (t_schedule t)) (now_of s (t_basis t)) in
        ∃ r'' q, accept owner p s r' = (r'', Ok q) ∧ p_expirations q = total ∧
          overrun owner r'' (t_id t) = Ok (Z.min (total - 1) MAX_OVERRUN)
    end.
Proof.
  intros Hst Hi Ho Hnn Hp Hd Hseq Hss Hsort.
  assert (registry_ok r) as Hr by (eapply ok_steps; [done|apply ok_registry_new]).
  apply Forall_app in Hss as [Hss [Hs _]%Forall_cons]. rewrite fmap_app in Hsort.
  pose proof (readings_bounds t ss s Hss Hs Hsort) as Hbounds.
  apply StronglySorted_app in Hsort as (_ & Hsort & _). set (f := λ s, now_of s (t_basis t)) in *.
  destruct (tracks_all r i t owner ss 0 r Hr Hi Ho Hnn Hseq Hss) as (r' & E & Ht); [done| |by apply tracks_start|].
  { constructor; [done|]. apply Forall_fmap. eapply Forall_impl; [exact Hss|]. intros u Hu.
    pose proof (now_of_u128 u (t_basis t) Hu) as Hb. unfold compose. width. }
  fold f in Ht. set (n := default 0 (last (f <$> ss))) in *.
  destruct (tk_schedule _ _ (timer_ok_at r i t Hr Hi)) as [Hw Hcl].
  destruct Ht as (sch & count & o & Hr' & Eo & Hi' & Ho'). exists r', (set_schedule t sch o). split_and!; [done|done|].
  assert (0 ≤ n ≤ f s ∧ is_u128 (f s) ∧ ∀ s', s' ∈ ss → f s' ≤ n) as (Hn & Hu & Hlast) by apply Hbounds.
  simpl. destruct o as [p|].
  - destruct (accept_pending owner p s r' i _ Hr' Hi' Ho eq_refl) as (sch' & c' & q & Eo' & Ha & Ea). simpl in *.
    fold (f s) in Eo'. pose proof (observe_later _ _ _ _ _ _ _ Hw Hcl Hn ltac:(width) Eo Eo') as Et.
    destruct (observe_count _ _ _ _ Hw Hu Et) as (Hb & _).
    destruct (observe_count _ n _ _ Hw ltac:(width) Eo) as (_ & Hw1 & _).
    destruct (observe_count _ _ _ _ Hw1 Hu Eo') as (Hb' & _). rewrite (observe_spec _ _ d) in Et by done.
    injection Et as _ Et. fold (f s). eexists _, q. split; [done|]. destruct Ho' as (_ & Hc & Hpos).
    assert (p_expirations q = count + c') as Hq.
    { unfold accumulates in Ha. simpl in Ha. rewrite (bool_decide_eq_false_2 _ Hnn), orb_false_r in Ha.
      destruct (c' =? 0) eqn:Ec; destruct Ha as [[= ->] _]; cbn [p_expirations]; lia. }
    rewrite Et. split; [done|]. unfold overrun.
    erewrite (timer_at_finished owner r' i (set_schedule t sch (Some p))); [|done|done|done].
    simpl. unfold pending_overrun, saturating_sub. rewrite Hq. do 2 f_equal. lia.
  - destruct Ho' as [-> _]. intros s' Hs'. specialize (Hlast s' Hs'). fold (f s').
    rewrite (observe_spec _ _ d) in Eo by (done || width). injection Eo as _ Ec.
    unfold expirations in Ec. destruct (n <? d) eqn:El; [lia|exfalso].
    destruct (_ =? 0) eqn:Ei; [done|]. pose proof (Z.div_pos (n - d) (interval (t_schedule t))) as Hdp.
    destruct Hw as (Hiv & _). unfold is_u128 in Hiv. lia.
Qed.
End Invariant.

(** ** A process with one timer *)

#[local] Existing Instance linux_protocol.
#[local] Existing Instance linux_signals.
(** Readings of the monotonic clock. *)
Definition at_ns (n : Z) : Samples := mkSamples 0 n 0 0.
Lemma at_ns_ok n : is_u128 n → samples_ok (at_ns n).
Proof. intros Hn. unfold samples_ok. simpl. split_and!; first [done|width]. Qed.
(** Process 7 creates a timer and arms it for 10, then every 5. *)
Definition example_created : Registry :=
  (call 7 (CallCreate true Monotonic Default TargetOwner (λ _, true)) registry_new).1.
Definition example_armed : Registry := (call 7 (CallSet 1 (at_ns 0) 10 5 false) example_created).1.
Definition example_timer : Timer :=
  mkTimer 7 1 Monotonic Monotonic TargetOwner (Signal 14 1) (mkSchedule (Some 10) 5 U128_MAX) None 0.
Lemma example_armed_reachable : rtc timer_step registry_new example_armed.
Proof.
  eapply rtc_l; [by apply (step_call 7 (CallCreate true Monotonic Default TargetOwner (λ _, true)))|].
  apply rtc_once. apply (step_call 7 (CallSet 1 (at_ns 0) 10 5 false)).
  split_and!; [apply at_ns_ok; width|width|width].
Qed.

Lemma timers_isolated_witness :
  registry_ok example_armed ∧ others 8 (call 8 (CallDelete 1) example_armed).1 = [example_timer].
Proof.
  destruct (timers_isolated example_armed 8 (CallDelete 1) example_armed_reachable I) as (H1 & H2 & _).
  split; [exact H1|]. rewrite H2. vm_compute. reflexivity.
Defined.

Lemma overrun_exact_witness :
  ∃ r' p r'' q, observe_all 7 1 [at_ns 12] example_armed = (r', Ok tt) ∧
    accept 7 p (at_ns 23) r' = (r'', Ok q) ∧ p_expirations q = 3 ∧ overrun 7 r'' 1 = Ok 2.
Proof.
  destruct (overrun_exact 7 example_armed 0 example_timer 10 [at_ns 12] (at_ns 23) example_armed_reachable)
    as (r' & t' & E & Ht & H).
  - vm_compute. reflexivity.
  - reflexivity.
  - discriminate.
  - reflexivity.
  - reflexivity.
  - vm_compute. reflexivity.
  - repeat constructor; simpl; width.
  - repeat constructor; simpl; lia.
  - assert (observe_all 7 1 [at_ns 12] example_armed =
            (mkRegistry [mkTimer 7 1 Monotonic Monotonic TargetOwner (Signal 14 1)
                           (mkSchedule (Some 15) 5 U128_MAX) (Some (mkPending 1 (Signal 14 1) 1 1)) 0] 2 2, Ok tt))
      as E' by (vm_compute; reflexivity).
    change (t_id example_timer) with 1 in *. rewrite E' in E. injection E as <-. injection Ht as <-. cbn in H.
    destruct H as (r'' & q & H1 & H2 & H3). eexists _, _, r'', q. split_and!; [exact E'|exact H1|exact H2|exact H3].
Defined.

Definition example_pending : Pending := mkPending 1 (Signal 14 1) 1 1.
Definition example_expired : Registry := (call 7 (CallObserve 1 (at_ns 12)) example_armed).1.
Lemma example_expired_reachable : rtc timer_step registry_new example_expired.
Proof.
  eapply rtc_r; [apply example_armed_reachable|]. apply (step_call 7 (CallObserve 1 (at_ns 12))).
  apply at_ns_ok. width.
Qed.
Lemma notification_completed_once_witness :
  ∃ r1, finish_with_reply 7 example_pending (at_ns 13) true (λ _, true) example_expired =
          (r1, Ok (Some example_pending)) ∧
    ∃ e, finish_with_reply 7 example_pending (at_ns 14) true (λ _, true) r1 = (r1, Err e).
Proof.
  destruct (finish_with_reply 7 example_pending (at_ns 13) true (λ _, true) example_expired) as [r1 res] eqn:E.
  assert (res = Ok (Some example_pending)) as ->.
  { apply (f_equal snd) in E. etrans; [exact (eq_sym E)|]. vm_compute. reflexivity. }
  exists r1. split; [reflexivity|].
  apply (notification_completed_once example_expired r1 r1 7 example_pending (at_ns 13) true (λ _, true) example_pending
           example_expired_reachable (at_ns_ok 13 ltac:(width)) E (rtc_refl _ r1)).
  reflexivity.
Defined.
