(* ===== verification/Credentials.v ===== *)
(** * Credentials and resource limits of a process

    Models the credential requests of [posix/src/lib.rs] ([set_uid] to
    [set_groups], [set_umask], [session_info], [inspect_process_session]) and
    its resource limits ([resource_limit_payload]).  [Accounts] is the part of
    [PosixService] that they work on.  The payload codecs of the protocol crate
    are fields of [AccountProtocol]; the resource page published to a process
    is an argument. *)

From S2P Require Import Prelude PosixProtocol.

Record ResourceLimit := mkLimit { soft : Z; hard : Z }.
Record ResourceLimitRequest := mkLimitRequest {
  limit_process_id : Z;
  resource : Z;
  limit_flags : Z;
  limit : ResourceLimit;
}.

Class AccountProtocol := {
  CREDENTIAL_ID_UNCHANGED : Z;
  decode_credential_id : list Z → option Z;
  decode_credential_pair : list Z → option (Z * Z);
  decode_umask : list Z → option Z;
  encode_umask : Z → option (list Z);
  (** [SessionInfo { real_uid, effective_uid, real_gid, effective_gid, umask }]. *)
  encode_session_info : Z → Z → Z → Z → Z → option (list Z);
  decode_group_list : list Z → option (list Z);
  encode_group_list : list Z → option (list Z);
  RLIMIT_COUNT : Z; RLIMIT_CPU : Z; RESOURCE_LIMIT_SET : Z;
  limit_default : ResourceLimit;
  decode_resource_limit_request : list Z → option ResourceLimitRequest;
  encode_resource_limit : ResourceLimit → option (list Z);
}.
(** The encoders are given a buffer of their own length; the default limit
    is consistent. *)
Class AccountLaws `{AccountProtocol} := {
  encode_umask_total u : is_Some (encode_umask u);
  encode_limit_total l : is_Some (encode_resource_limit l);
  limit_default_ok : soft limit_default ≤ hard limit_default;
}.

Record Session := mkSession {
  process_id : Z;
  real_uid : Z; effective_uid : Z; saved_uid : Z;
  real_gid : Z; effective_gid : Z; saved_gid : Z;
  umask : Z;
}.
Definition set_uids (s : Session) (r e v : Z) : Session :=
  mkSession (process_id s) r e v (real_gid s) (effective_gid s) (saved_gid s) (umask s).
Definition set_gids (s : Session) (r e v : Z) : Session :=
  mkSession (process_id s) (real_uid s) (effective_uid s) (saved_uid s) r e v (umask s).
Definition with_umask (s : Session) (u : Z) : Session :=
  mkSession (process_id s) (real_uid s) (effective_uid s) (saved_uid s)
    (real_gid s) (effective_gid s) (saved_gid s) u.

Record Accounts := mkAccounts {
  sessions : gmap Z Session;
  supplementary_groups : gmap Z (list Z);
  resource_limits : gmap (Z * Z) ResourceLimit;
  cpu_notifications : gmap Z Z;
}.
Definition put_session (a : Accounts) (p : Z) (s : Session) : Accounts :=
  mkAccounts (<[p := s]> (sessions a)) (supplementary_groups a) (resource_limits a) (cpu_notifications a).
Definition put_groups (a : Accounts) (p : Z) (l : list Z) : Accounts :=
  mkAccounts (sessions a) (<[p := l]> (supplementary_groups a)) (resource_limits a) (cpu_notifications a).
Definition set_limits (a : Accounts) (m : gmap (Z * Z) ResourceLimit) (n : gmap Z Z) : Accounts :=
  mkAccounts (sessions a) (supplementary_groups a) m n.

Section Accounts.
Context {PP : PosixProtocol} {AP : AccountProtocol}.

(** ** Identity *)

Definition session_info (a : Accounts) (p : Z) : result Z (list Z) :=
  s ← ok_or STATUS_ESRCH (sessions a !! p);
  ok_or STATUS_EINVAL
    (encode_session_info (real_uid s) (effective_uid s) (real_gid s) (effective_gid s) (umask s)).
Definition inspect_process_session (a : Accounts) (peer target : Z) : result Z (list Z) :=
  caller ← ok_or STATUS_ESRCH (sessions a !! peer);
  s ← ok_or STATUS_ESRCH (sessions a !! target);
  if negb (peer =? target) && negb (effective_uid caller =? 0) &&
     negb (effective_uid caller =? effective_uid s)
  then Err STATUS_EPERM
  else session_info a target.

Definition set_umask (p : Z) (payload : list Z) : stM Accounts Z (list Z) := λ a,
  match (requested ← ok_or STATUS_EINVAL (decode_umask payload);
         s ← ok_or STATUS_ESRCH (sessions a !! p);
         Ok (requested, s)) with
  | Err e => (a, Err e)
  | Ok (requested, s) =>
      (put_session a p (with_umask s (Z.land requested 511)), ok_or STATUS_EINVAL (encode_umask (umask s)))
  end.

(** The requested identifier and the caller's session. *)
Definition requested_id (a : Accounts) (p : Z) (payload : list Z) : result Z (Z * Session) :=
  requested ← ok_or STATUS_EINVAL (decode_credential_id payload);
  ensure (negb (requested =? CREDENTIAL_ID_UNCHANGED)) STATUS_EINVAL;;
  s ← ok_or STATUS_ESRCH (sessions a !! p);
  Ok (requested, s).

Definition set_uid (p : Z) (payload : list Z) : stM Accounts Z unit := λ a,
  match requested_id a p payload with
  | Err e => (a, Err e)
  | Ok (requested, s) =>
      if effective_uid s =? 0 then (put_session a p (set_uids s requested requested requested), Ok tt)
      else if negb (requested =? real_uid s) && negb (requested =? saved_uid s) then (a, Err (-1))
      else (put_session a p (set_uids s (real_uid s) requested (saved_uid s)), Ok tt)
  end.
Definition set_gid (p : Z) (payload : list Z) : stM Accounts Z unit := λ a,
  match requested_id a p payload with
  | Err e => (a, Err e)
  | Ok (requested, s) =>
      if effective_uid s =? 0 then (put_session a p (set_gids s requested requested requested), Ok tt)
      else if negb (requested =? real_gid s) && negb (requested =? saved_gid s) then (a, Err (-1))
      else (put_session a p (set_gids s (real_gid s) requested (saved_gid s)), Ok tt)
  end.
Definition set_effective_uid (p : Z) (payload : list Z) : stM Accounts Z unit := λ a,
  match requested_id a p payload with
  | Err e => (a, Err e)
  | Ok (requested, s) =>
      if negb (effective_uid s =? 0) && negb (requested =? real_uid s) &&
         negb (requested =? effective_uid s) && negb (requested =? saved_uid s)
      then (a, Err STATUS_EPERM)
      else (put_session a p (set_uids s (real_uid s) requested (saved_uid s)), Ok tt)
  end.
Definition set_effective_gid (p : Z) (payload : list Z) : stM Accounts Z unit := λ a,
  match requested_id a p payload with
  | Err e => (a, Err e)
  | Ok (requested, s) =>
      if negb (effective_uid s =? 0) && negb (requested =? real_gid s) &&
         negb (requested =? effective_gid s) && negb (requested =? saved_gid s)
      then (a, Err STATUS_EPERM)
      else (put_session a p (set_gids s (real_gid s) requested (saved_gid s)), Ok tt)
  end.

(** The new triple of [setreuid] and [setregid], from the old one. *)
Definition real_effective (privileged : bool) (old : Z * Z * Z) (real effective : Z) : result Z (Z * Z * Z) :=
  let '(old_real, old_effective, old_saved) := old in
  let change_real := negb (real =? CREDENTIAL_ID_UNCHANGED) in
  let change_effective := negb (effective =? CREDENTIAL_ID_UNCHANGED) in
  if negb privileged &&
     ((change_real && negb (real =? old_real) && negb (real =? old_effective)) ||
      (change_effective && negb (effective =? old_real) && negb (effective =? old_effective) &&
       negb (effective =? old_saved)))
  then Err STATUS_EPERM
  else
    let new_real := if change_real then real else old_real in
    let new_effective := if change_effective then effective else old_effective in
    let new_saved :=
      if change_real || (change_effective && negb (effective =? old_real)) then new_effective
      else old_saved in
    Ok (new_real, new_effective, new_saved).
Definition set_real_effective_ids (p : Z) (payload : list Z) (user : bool) : stM Accounts Z unit := λ a,
  match
    ('(real, effective) ← ok_or STATUS_EINVAL (decode_credential_pair payload);
     s ← ok_or STATUS_ESRCH (sessions a !! p);
     ids ← real_effective (effective_uid s =? 0)
             (if user then (real_uid s, effective_uid s, saved_uid s)
              else (real_gid s, effective_gid s, saved_gid s)) real effective;
     Ok (s, ids))
  with
  | Err e => (a, Err e)
  | Ok (s, (r, e, v)) => (put_session a p (if user then set_uids s r e v else set_gids s r e v), Ok tt)
  end.
Definition reset_effective_ids (p : Z) : stM Accounts Z unit := λ a,
  match sessions a !! p with
  | None => (a, Err STATUS_ESRCH)
  | Some s =>
      let s := set_uids s (real_uid s) (real_uid s) (saved_uid s) in
      (put_session a p (set_gids s (real_gid s) (real_gid s) (saved_gid s)), Ok tt)
  end.
Definition groups_payload (a : Accounts) (p : Z) : result Z (list Z) :=
  _ ← ok_or STATUS_ESRCH (sessions a !! p);
  groups ← ok_or STATUS_ESRCH (supplementary_groups a !! p);
  ok_or STATUS_EINVAL (encode_group_list groups).
Definition set_groups (p : Z) (payload : list Z) : stM Accounts Z unit := λ a,
  match
    (s ← ok_or STATUS_ESRCH (sessions a !! p);
     ensure (effective_uid s =? 0) STATUS_EPERM;;
     ok_or STATUS_EINVAL (decode_group_list payload))
  with
  | Err e => (a, Err e)
  | Ok groups => (put_groups a p groups, Ok tt)
  end.

Definition signal_permission (caller_id : Z) (caller : Session) (target_id : Z) (target : Session) : bool :=
  (caller_id =? target_id) || (real_uid caller =? real_uid target) || (real_uid caller =? saved_uid target) ||
  (effective_uid caller =? real_uid target) || (effective_uid caller =? saved_uid target).

(** ** Resource limits *)

Definition limit_of (a : Accounts) (key : Z * Z) : ResourceLimit := default limit_default (resource_limits a !! key).
Definition same_credentials (caller target : Session) : bool :=
  (real_uid caller =? real_uid target) && (real_uid caller =? effective_uid target) &&
  (real_uid caller =? saved_uid target) && (real_gid caller =? real_gid target) &&
  (real_gid caller =? effective_gid target) && (real_gid caller =? saved_gid target).
(** [page]: the resource page published to the target, if it has one. *)
Definition resource_limit_payload (page : Z → option (Z → ResourceLimit → result Z unit))
    (caller_id : Z) (payload : list Z) : stM Accounts Z (list Z) := λ a,
  match
    (request ← ok_or STATUS_EINVAL (decode_resource_limit_request payload);
     ensure (negb ((limit_process_id request <? 0) || (RLIMIT_COUNT <=? resource request))) STATUS_EINVAL;;
     let target_id := if limit_process_id request =? 0 then caller_id else limit_process_id request in
     caller ← ok_or STATUS_ESRCH (sessions a !! caller_id);
     target ← ok_or STATUS_ESRCH (sessions a !! target_id);
     ensure (negb (negb (target_id =? caller_id) && negb (effective_uid caller =? 0) &&
                   negb (same_credentials caller target))) STATUS_EPERM;;
     Ok (request, target_id, caller))
  with
  | Err e => (a, Err e)
  | Ok (request, target_id, caller) =>
      let key := (target_id, resource request) in
      let previous := limit_of a key in
      let answer := ok_or STATUS_EINVAL (encode_resource_limit previous) in
      if has (limit_flags request) RESOURCE_LIMIT_SET then
        if soft (limit request) >? hard (limit request) then (a, Err STATUS_EINVAL)
        else if (hard (limit request) >? hard previous) && negb (effective_uid caller =? 0)
        then (a, Err STATUS_EPERM)
        else
          let limits := <[key := limit request]> (resource_limits a) in
          match from_option (λ publish, publish (resource request) (limit request)) (Ok tt) (page target_id) with
          | Err e =>
              (set_limits a (match resource_limits a !! key with
                             | Some old => <[key := old]> limits
                             | None => delete key limits
                             end) (cpu_notifications a), Err e)
          | Ok _ =>
              (set_limits a limits
                 (if resource request =? RLIMIT_CPU then delete target_id (cpu_notifications a)
                  else cpu_notifications a), answer)
          end
      else (a, answer)
  end.

(** ** The requests of a process *)

Inductive AccountRequest :=
  | SetUid (payload : list Z)
  | SetGid (payload : list Z)
  | SetEffectiveUid (payload : list Z)
  | SetEffectiveGid (payload : list Z)
  | SetRealEffective (payload : list Z) (user : bool)
  | ResetEffective
  | SetGroups (payload : list Z)
  | SetUmask (payload : list Z)
  | Limits (page : Z → option (Z → ResourceLimit → result Z unit)) (payload : list Z).
Definition forget {A} (x : Accounts * result Z A) : Accounts * result Z unit := (x.1, (λ _, tt) <$> x.2).
(** The arms of [handle] for these requests. *)
Definition account_request (p : Z) (r : AccountRequest) (a : Accounts) : Accounts * result Z unit :=
  match r with
  | SetUid payload => set_uid p payload a
  | SetGid payload => set_gid p payload a
  | SetEffectiveUid payload => set_effective_uid p payload a
  | SetEffectiveGid payload => set_effective_gid p payload a
  | SetRealEffective payload user => set_real_effective_ids p payload user a
  | ResetEffective => reset_effective_ids p a
  | SetGroups payload => set_groups p payload a
  | SetUmask payload => forget (set_umask p payload a)
  | Limits page payload => forget (resource_limit_payload page p payload a)
  end.
Definition account_step (a a' : Accounts) : Prop := ∃ p r, a' = (account_request p r a).1.

(** ** Privilege *)

Definition uids (s : Session) : gset Z := {[real_uid s; effective_uid s; saved_uid s]}.
Definition gids (s : Session) : gset Z := {[real_gid s; effective_gid s; saved_gid s]}.
(** A session that acquires no identifier. *)
Definition no_more (s s' : Session) : Prop := uids s' ⊆ uids s ∧ gids s' ⊆ gids s.
Lemma no_more_refl s : no_more s s.
Proof. done. Qed.
Lemma no_more_trans s1 s2 s3 : no_more s1 s2 → no_more s2 s3 → no_more s1 s3.
Proof. intros [? ?] [? ?]. split; set_solver. Qed.

(** What a request of [p] does to the tables: it replaces the session of [p],
    or its groups when privileged, or limits. *)
Inductive account_effect (p : Z) (a : Accounts) : Accounts → Prop :=
  | ae_same : account_effect p a a
  | ae_session s s' : sessions a !! p = Some s → process_id s' = process_id s → (effective_uid s ≠ 0 → no_more s s') →
      account_effect p a (put_session a p s')
  | ae_groups s l : sessions a !! p = Some s → effective_uid s = 0 → account_effect p a (put_groups a p l)
  | ae_limits m n : account_effect p a (set_limits a m n).

Ltac id_cases :=
  repeat match goal with
  | H : _ && _ = true |- _ => apply andb_true_iff in H as [? H]
  | H : _ && _ = false |- _ => apply andb_false_iff in H as [H|H]
  | H : _ || _ = false |- _ => apply orb_false_iff in H as [? H]
  | H : negb _ = true |- _ => apply negb_true_iff in H
  | H : negb _ = false |- _ => apply negb_false_iff in H
  | H : (_ =? _) = true |- _ => apply Z.eqb_eq in H
  | H : (_ =? _) = false |- _ => apply Z.eqb_neq in H
  end.
Lemma real_effective_ids privileged old real effective r e v :
  real_effective privileged old real effective = Ok (r, e, v) → privileged = false →
  ({[r; e; v]} : gset Z) ⊆ {[old.1.1; old.1.2; old.2]}.
Proof.
  destruct old as [[o1 o2] o3]. unfold real_effective. intros H ->. simpl in *.
  destruct (real =? _), (effective =? _) eqn:Ee; simpl in *; repeat case_match; simplify_eq/=; id_cases; set_solver.
Qed.
Lemma request_effect p r a : account_effect p a (account_request p r a).1.
Proof.
  destruct r; cbn [account_request forget fst].
  - unfold set_uid. destruct (requested_id a p payload) as [[q s]|] eqn:E; [|constructor].
    unfold requested_id in E. inv_result. destruct (effective_uid s =? 0) eqn:E0.
    + eapply ae_session; [done|done|]. lia.
    + destruct (_ && _) eqn:Ea; [constructor|]. eapply ae_session; [done|done|]. intros _.
      unfold no_more, uids, gids. simpl. id_cases; set_solver.
  - unfold set_gid. destruct (requested_id a p payload) as [[q s]|] eqn:E; [|constructor].
    unfold requested_id in E. inv_result. destruct (effective_uid s =? 0) eqn:E0.
    + eapply ae_session; [done|done|]. lia.
    + destruct (_ && _) eqn:Ea; [constructor|]. eapply ae_session; [done|done|]. intros _.
      unfold no_more, uids, gids. simpl. id_cases; set_solver.
  - unfold set_effective_uid. destruct (requested_id a p payload) as [[q s]|] eqn:E; [|constructor].
    unfold requested_id in E. inv_result. destruct (_ && _) eqn:Ea; [constructor|]. eapply ae_session; [done|done|].
    intros Hu. unfold no_more, uids, gids. simpl. id_cases; [done|set_solver..].
  - unfold set_effective_gid. destruct (requested_id a p payload) as [[q s]|] eqn:E; [|constructor].
    unfold requested_id in E. inv_result. destruct (_ && _) eqn:Ea; [constructor|]. eapply ae_session; [done|done|].
    intros Hu. unfold no_more, uids, gids. simpl. id_cases; [done|set_solver..].
  - unfold set_real_effective_ids. destruct (_ ≫= _) as [[s [[r e] v]]|] eqn:E; [|constructor].
    inv_result. eapply ae_session; [done|by destruct user|]. intros Hu%Z.eqb_neq.
    match goal with H : real_effective _ _ _ _ = _ |- _ => apply real_effective_ids in H; [|done]; rename H into Hr end.
    unfold no_more, uids, gids. destruct user; simpl in *; set_solver.
  - unfold reset_effective_ids. destruct (sessions a !! p) as [s|] eqn:E; [|constructor].
    eapply ae_session; [done|done|]. intros _. unfold no_more, uids, gids. simpl. set_solver.
  - unfold set_groups. destruct (_ ≫= _) eqn:E; [|constructor]. inv_result. eapply ae_groups; [done|lia].
  - unfold set_umask. destruct (_ ≫= _) as [[q s]|] eqn:E; [|constructor]. inv_result.
    eapply ae_session; [done|done|]. intros _. by split.
  - unfold resource_limit_payload. destruct (_ ≫= _) as [[[q t] c]|]; [|constructor].
    repeat case_match; constructor.
Qed.

(** An unprivileged process keeps to its identifiers under one effect. *)
Lemma effect_no_more q a a' p s :
  account_effect q a a' → sessions a !! p = Some s → 0 ∉ uids s →
  ∃ s', sessions a' !! p = Some s' ∧ no_more s s' ∧ supplementary_groups a' !! p = supplementary_groups a !! p.
Proof.
  intros He Hs H0. assert (effective_uid s ≠ 0) as Hu by (unfold uids in H0; set_solver).
  destruct He as [|s1 s2 Hs1 _ Hn|s1 l Hs1 Hr|m n]; simpl; try (by exists s; split_and!; [|apply no_more_refl|]).
  - destruct (decide (q = p)) as [->|Hne].
    + replace s1 with s in * by congruence. exists s2. rewrite lookup_insert_eq. split_and!; [done|by apply Hn|done].
    + exists s. rewrite lookup_insert_ne by done. split_and!; [done|apply no_more_refl|done].
  - destruct (decide (q = p)) as [->|Hne]; [congruence|]. exists s. rewrite lookup_insert_ne by done.
    split_and!; [done|apply no_more_refl|done].
Qed.

(** A request keeps to the caller's session and groups. *)
Lemma effect_confined p a a' q :
  account_effect p a a' → q ≠ p →
  sessions a' !! q = sessions a !! q ∧ supplementary_groups a' !! q = supplementary_groups a !! q.
Proof. intros [] Hne; simpl; rewrite ?lookup_insert_ne by done; done. Qed.
(** C7: However many credential requests a process without privilege makes, and
    whatever the other processes request, it never holds a user or group
    identifier outside its initial real, effective and saved ones, and its
    supplementary groups stay as they were. *)
Theorem no_escalation a a' p s :
  rtc account_step a a' → sessions a !! p = Some s → 0 ∉ uids s →
  ∃ s', sessions a' !! p = Some s' ∧ uids s' ⊆ uids s ∧ gids s' ⊆ gids s ∧
    supplementary_groups a' !! p = supplementary_groups a !! p ∧
    ∀ q r, q ≠ p → sessions (account_request q r a').1 !! p = Some s'.
Proof.
  intros Hst Hs H0. enough (∃ s', sessions a' !! p = Some s' ∧ no_more s s' ∧
    supplementary_groups a' !! p = supplementary_groups a !! p) as (s' & Hs' & [? ?] & ?).
  { exists s'. split_and!; try done. intros q r Hq.
    by destruct (effect_confined q a' _ p (request_effect q r a') (not_eq_sym Hq)) as [-> _]. }
  revert s Hs H0. induction Hst as [a|a a1 a' (q & r & ->) Hst IH]; intros s Hs H0;
    [by exists s; split_and!; [|apply no_more_refl|]|].
  destruct (effect_no_more q a _ p s (request_effect q r a) Hs H0) as (s1 & Hs1 & Hn & Hg).
  destruct (IH s1 Hs1) as (s' & Hs' & Hn' & Hg'); [destruct Hn; set_solver|].
  exists s'. split_and!; [done|by eapply no_more_trans|congruence].
Qed.

Definition limits_ok (a : Accounts) : Prop := ∀ key, soft (limit_of a key) ≤ hard (limit_of a key).
Lemma limit_insert a key l n k :
  limit_of (set_limits a (<[key := l]> (resource_limits a)) n) k = if decide (key = k) then l else limit_of a k.
Proof. unfold limit_of. simpl. rewrite lookup_insert. by case_decide. Qed.
Lemma limits_restored a key l :
  match resource_limits a !! key with
  | Some old => <[key := old]> (<[key := l]> (resource_limits a))
  | None => delete key (<[key := l]> (resource_limits a))
  end = resource_limits a.
Proof.
  destruct (resource_limits a !! key) as [old|] eqn:E.
  - rewrite insert_insert. case_decide; [|done]. by apply insert_id.
  - by apply delete_insert_id.
Qed.
(** The state after a limit request, on every path. *)
Lemma limits_request page p payload a :
  let '(a', res) := resource_limit_payload page p payload a in
  a' = a ∨
  ∃ caller target s key l n, sessions a !! p = Some caller ∧ sessions a !! target = Some s ∧ key.1 = target ∧
    (target = p ∨ effective_uid caller = 0 ∨ same_credentials caller s = true) ∧ soft l ≤ hard l ∧
    (hard l ≤ hard (limit_of a key) ∨ effective_uid caller = 0) ∧
    res = ok_or STATUS_EINVAL (encode_resource_limit (limit_of a key)) ∧
    a' = set_limits a (<[key := l]> (resource_limits a)) n.
Proof.
  unfold resource_limit_payload. destruct (_ ≫= _) as [[[q t] c]|] eqn:E; [|by left].
  inv_result. destruct (has _ _); [|by left]. set (t := if limit_process_id q =? 0 then p else _) in *.
  destruct (soft _ >? _) eqn:Es; [by left|].
  destruct ((hard _ >? _) && negb (effective_uid c =? 0)) eqn:Eh; [by left|].
  destruct (from_option _ _ _) as [u|e].
  - right. eexists c, t, _, (t, resource q), (limit q), _. split_and!; [done|done|done| |lia| |done|done].
    + match goal with H : negb (negb (t =? p) && _ && _) = true |- _ => rename H into Hp end.
      destruct (Z.eqb_spec t p), (Z.eqb_spec (effective_uid c) 0), (same_credentials c _); auto.
    + destruct (Z.eqb_spec (effective_uid c) 0); [by right|]. rewrite andb_true_r in Eh. left. lia.
  - left. rewrite limits_restored. by destruct a.
Qed.

(** A resource-limit request keeps every soft limit within its hard limit,
    changes nothing when it fails, and changes only a limit of the caller,
    of a process with the same credentials or of any process for a
    privileged caller; only a privileged caller raises a hard limit. *)
Theorem limits_enforced {AL : AccountLaws} page p payload a a' res :
  limits_ok a → resource_limit_payload page p payload a = (a', res) →
  limits_ok a' ∧ sessions a' = sessions a ∧ supplementary_groups a' = supplementary_groups a ∧
  (∀ e, res = Err e → a' = a) ∧
  ∀ key, limit_of a' key ≠ limit_of a key →
    ∃ caller s, sessions a !! p = Some caller ∧ sessions a !! key.1 = Some s ∧
      (key.1 = p ∨ effective_uid caller = 0 ∨ same_credentials caller s = true) ∧
      (hard (limit_of a' key) ≤ hard (limit_of a key) ∨ effective_uid caller = 0).
Proof.
  intros Hok E. pose proof (limits_request page p payload a) as H. rewrite E in H.
  destruct H as [->|(caller & target & s & key & l & n & Hc & Hs & Hk & Hp & Hl & Hh & -> & ->)]; [done|].
  split_and!; [|done|done| |].
  - intros k. rewrite limit_insert. case_decide; [done|apply Hok].
  - intros e. destruct (encode_limit_total (limit_of a key)) as [out ->]. done.
  - intros k. rewrite limit_insert. case_decide as Ek; [|done]. subst k target. intros _.
    by exists caller, s.
Qed.
End Accounts.

(** ** An instance *)

(** Identifiers and limits as they stand. *)
#[local] Existing Instance linux_protocol.
Definition example_accounts_protocol : AccountProtocol := {|
  CREDENTIAL_ID_UNCHANGED := 2 ^ 32 - 1;
  decode_credential_id := λ bytes, match bytes with [x] => Some x | _ => None end;
  decode_credential_pair := λ bytes, match bytes with [x; y] => Some (x, y) | _ => None end;
  decode_umask := λ bytes, match bytes with [x] => Some x | _ => None end;
  encode_umask := λ u, Some [u];
  encode_session_info := λ a b c d e, Some [a; b; c; d; e];
  decode_group_list := Some;
  encode_group_list := Some;
  RLIMIT_COUNT := 16; RLIMIT_CPU := 0; RESOURCE_LIMIT_SET := 1;
  limit_default := mkLimit (2 ^ 64 - 1) (2 ^ 64 - 1);
  decode_resource_limit_request := λ bytes,
    match bytes with [p; r; f; s; h] => Some (mkLimitRequest p r f (mkLimit s h)) | _ => None end;
  encode_resource_limit := λ l, Some [soft l; hard l];
|}.
#[local] Existing Instance example_accounts_protocol.
Lemma example_accounts_laws : AccountLaws.
Proof. split; [by eexists|by eexists|done]. Qed.
(** A process that was given the privilege of another user's file. *)
Definition example_session : Session := mkSession 5 1000 33 33 100 100 100 18.
Definition example_accounts : Accounts := mkAccounts {[5 := example_session]} {[5 := [100]]} ∅ ∅.

Lemma no_escalation_witness :
  ∃ s', sessions (account_request 5 (SetUid [0]) (account_request 5 (SetEffectiveUid [1000]) example_accounts).1).1 !! 5 = Some s' ∧
    uids s' ⊆ {[1000; 33; 33]}.
Proof.
  destruct (no_escalation example_accounts
    (account_request 5 (SetUid [0]) (account_request 5 (SetEffectiveUid [1000]) example_accounts).1).1 5 example_session)
    as (s' & H1 & H2 & _).
  - eapply rtc_l; [by eexists 5, (SetEffectiveUid [1000])|]. apply rtc_once. by eexists 5, (SetUid [0]).
  - reflexivity.
  - unfold uids. simpl. set_solver.
  - exists s'. split; [exact H1|exact H2].
Defined.

Lemma limits_enforced_witness :
  ∃ a' res, resource_limit_payload (λ _, None) 5 [0; 3; 1; 10; 20] example_accounts = (a', res) ∧
    limits_ok a' ∧ limit_of a' (5, 3) = mkLimit 10 20.
Proof.
  destruct (resource_limit_payload (λ _, None) 5 [0; 3; 1; 10; 20] example_accounts) as [a' res] eqn:E.
  exists a', res. split; [reflexivity|]. split.
  - apply (limits_enforced (AL := example_accounts_laws) (λ _, None) 5 [0; 3; 1; 10; 20] example_accounts a' res);
      [|exact E]. intros key. unfold limit_of, example_accounts. simpl. rewrite lookup_empty. reflexivity.
  - vm_compute in E. injection E as <- _. reflexivity.
Defined.
