(* ===== verification/SignalState.v ===== *)
(** * The signal and wait state of one process

    Models [ProcessSignalState] and [ProcessWaitState] of [posix/src/lib.rs]:
    the pending, ignored and caught signals of a process, and what its parent
    may learn by waiting, with the signal deliveries that are under way. *)

From S2P Require Import Prelude PosixProtocol.

(** [protocol::SignalDelivery]. *)
Record SignalDelivery := mkDelivery { d_signal : Z; d_token : Z }.
Record SignalDeliveryOwner := mkDeliveryOwner {
  o_signal : Z;
  o_origin : Origin;
  o_thread_id : Z;
}.

(** ** The lowest signal of a set *)

(** [u64::trailing_zeros]. *)
Definition trailing_zeros (mask : Z) : Z :=
  Z.of_nat (default 64%nat (iter_position (λ i, Z.testbit mask (Z.of_nat i)) (seq 0 64))).
(** [mask.trailing_zeros() + 1]. *)
Definition lowest_signal (mask : Z) : Z := trailing_zeros mask + 1.

Lemma u64_bit mask i : is_u64 mask → 64 ≤ i → Z.testbit mask i = false.
Proof.
  intros [H0 H1] Hi. destruct (decide (mask = 0)) as [->|Hne]; [apply Z.bits_0|].
  apply Z.bits_above_log2; [done|]. apply Z.log2_lt_pow2; [lia|]. unfold U64_MAX in H1.
  eapply Z.le_lt_trans; [exact H1|]. pose proof (Z.pow_le_mono_r 2 64 i). lia.
Qed.
(** A set of signals that is not empty has a lowest one. *)
Lemma lowest_spec mask :
  is_u64 mask → mask ≠ 0 →
  1 ≤ lowest_signal mask ≤ 64 ∧ in_mask mask (lowest_signal mask) = true ∧
  ∀ s, 1 ≤ s < lowest_signal mask → in_mask mask s = false.
Proof.
  intros Hu Hne. unfold lowest_signal, trailing_zeros.
  destruct (iter_position _ _) as [i|] eqn:E; simpl.
  - apply iter_position_Some in E as (x & Hx & Hb & Hmin).
    apply lookup_seq in Hx as [-> Hx]. rewrite Nat.add_0_l in Hb.
    unfold in_mask. replace (Z.of_nat i + 1 - 1) with (Z.of_nat i) by lia. split_and!; [lia|lia|done|].
    intros s Hs. specialize (Hmin (Z.to_nat (s - 1)) (Z.to_nat (s - 1))).
    replace (s - 1) with (Z.of_nat (Z.to_nat (s - 1))) by lia. apply Hmin; [|lia].
    apply lookup_seq. lia.
  - exfalso. apply Hne. apply Z.bits_inj_0. intros i. destruct (Z.lt_ge_cases i 0) as [Hi|Hi]; [by apply Z.testbit_neg_r|].
    destruct (Z.lt_ge_cases i 64) as [Hi'|Hi']; [|by apply u64_bit].
    rewrite iter_position_None in E. rewrite <- (E (Z.to_nat i)); [f_equal; lia|]. apply elem_of_seq. lia.
Qed.

Section State.
Context {PP : PosixProtocol}.

(** ** Masks of the service *)

Definition JOB_CONTROL_STOP_SIGNALS : Z :=
  Z.lor (Z.lor (Z.lor (signal_bit SIGNAL_STOP) (signal_bit SIGNAL_TSTP)) (signal_bit SIGNAL_TTIN))
    (signal_bit SIGNAL_TTOU).
Definition MAX_OUTSTANDING_SIGNAL_DELIVERIES : Z := SIGNAL_MAX.
(** [signal_bit(SIGNAL_KILL) | signal_bit(SIGNAL_STOP)]. *)
Definition unblockable : Z := Z.lor (signal_bit SIGNAL_KILL) (signal_bit SIGNAL_STOP).
Definition default_signal_ignores (signal : Z) : bool :=
  (signal =? SIGNAL_URG) || (signal =? SIGNAL_CHLD) || (signal =? SIGNAL_WINCH).
Definition default_signal_terminates (signal : Z) : bool :=
  (1 <=? signal) && (signal <=? SIGNAL_MAX) &&
  negb (bool_decide (signal ∈ [SIGNAL_URG; SIGNAL_CONT; SIGNAL_CHLD; SIGNAL_WINCH; SIGNAL_STOP; SIGNAL_TSTP;
                               SIGNAL_TTIN; SIGNAL_TTOU])).

(** ** Signals *)

Record ProcessSignalState := mkSignalState { pending : Z; ignored : Z; caught : Z }.
Definition signal_state_default : ProcessSignalState := mkSignalState 0 0 0.
Definition set_pending_mask (s : ProcessSignalState) (m : Z) : ProcessSignalState :=
  mkSignalState m (ignored s) (caught s).
Definition disposition (s : ProcessSignalState) (signal : Z) : Z :=
  let bit := signal_bit signal in
  if has (ignored s) bit then SIGNAL_DISPOSITION_IGNORE
  else if has (caught s) bit then SIGNAL_DISPOSITION_CAUGHT
  else SIGNAL_DISPOSITION_DEFAULT.
Definition fork_child (s : ProcessSignalState) : ProcessSignalState := set_pending_mask s 0.
Definition set_disposition (s : ProcessSignalState) (signal kind : Z) : ProcessSignalState :=
  let bit := signal_bit signal in
  let i := without (ignored s) bit in
  let c := without (caught s) bit in
  if kind =? SIGNAL_DISPOSITION_IGNORE then mkSignalState (without (pending s) bit) (Z.lor i bit) c
  else if kind =? SIGNAL_DISPOSITION_CAUGHT then mkSignalState (pending s) i (Z.lor c bit)
  else if default_signal_ignores signal then mkSignalState (without (pending s) bit) i c
  else mkSignalState (pending s) i c.
Definition enqueue (s : ProcessSignalState) (signal : Z) : ProcessSignalState :=
  let bit := signal_bit signal in
  let p :=
    if bit =? signal_bit SIGNAL_CONT then without (pending s) JOB_CONTROL_STOP_SIGNALS
    else if has bit JOB_CONTROL_STOP_SIGNALS then without (pending s) (signal_bit SIGNAL_CONT)
    else pending s in
  set_pending_mask s (if has (ignored s) bit then p else Z.lor p bit).
(** [self.pending & !(blocked & !unblockable)]. *)
Definition deliverable (s : ProcessSignalState) (blocked : Z) : Z :=
  without (pending s) (without blocked unblockable).
Definition next_deliverable (s : ProcessSignalState) (blocked : Z) : Z :=
  if deliverable s blocked =? 0 then 0 else lowest_signal (deliverable s blocked).
Definition dequeue (s : ProcessSignalState) (blocked : Z) : ProcessSignalState * Z :=
  let signal := next_deliverable s blocked in
  (if negb (signal =? 0) then set_pending_mask s (without (pending s) (signal_bit signal)) else s, signal).

(** ** Waiting *)

(** [WaitedChildCpuUsage] and [WaitedChildUsage]. *)
Record WaitedChildCpuUsage := mkCpuUsage { user_ticks : Z; kernel_ticks : Z; ticks_per_second : Z }.
Record WaitedChildUsage := mkUsage { cpu : WaitedChildCpuUsage; peak_resident_bytes : Z }.
Definition usage_default : WaitedChildUsage := mkUsage (mkCpuUsage 0 0 0) 0.
Definition cpu_checked_add (a b : WaitedChildCpuUsage) : result Z WaitedChildCpuUsage :=
  if ((ticks_per_second a =? 0) && (negb (user_ticks a =? 0) || negb (kernel_ticks a =? 0))) ||
     ((ticks_per_second b =? 0) && (negb (user_ticks b =? 0) || negb (kernel_ticks b =? 0)))
  then Err STATUS_EIO
  else
    let rate := Z.max (ticks_per_second a) (ticks_per_second b) in
    if (negb (ticks_per_second a =? 0) && negb (ticks_per_second a =? rate)) ||
       (negb (ticks_per_second b =? 0) && negb (ticks_per_second b =? rate))
    then Err STATUS_EIO
    else
      u ← ok_or STATUS_EOVERFLOW (checked_add U128_MAX (user_ticks a) (user_ticks b));
      k ← ok_or STATUS_EOVERFLOW (checked_add U128_MAX (kernel_ticks a) (kernel_ticks b));
      Ok (mkCpuUsage u k rate).
Definition usage_checked_add (a b : WaitedChildUsage) : result Z WaitedChildUsage :=
  c ← cpu_checked_add (cpu a) (cpu b);
  Ok (mkUsage c (Z.max (peak_resident_bytes a) (peak_resident_bytes b))).

Record ProcessWaitState := mkWaitState {
  waited_usage : WaitedChildUsage;
  fresh_image : bool;
  observed_image_revision : Z;
  is_stopped : bool;
  stop_signal : Z;
  stop_reported : bool;
  continued_pending : bool;
  resume_continued : bool;
  exit_observed : bool;
  exit_notified : bool;
  discard_exit_status : bool;
  deliveries : gmap Z SignalDeliveryOwner;
  termination_signal : option Z;
}.
Definition wait_state_default : ProcessWaitState :=
  mkWaitState usage_default false 0 false 0 false false false false false false ∅ None.
Definition set_usage (w : ProcessWaitState) (u : WaitedChildUsage) : ProcessWaitState :=
  mkWaitState u (fresh_image w) (observed_image_revision w) (is_stopped w) (stop_signal w) (stop_reported w)
    (continued_pending w) (resume_continued w) (exit_observed w) (exit_notified w) (discard_exit_status w)
    (deliveries w) (termination_signal w).
Definition set_image (w : ProcessWaitState) (fresh : bool) (revision : Z) : ProcessWaitState :=
  mkWaitState (waited_usage w) fresh revision (is_stopped w) (stop_signal w) (stop_reported w)
    (continued_pending w) (resume_continued w) (exit_observed w) (exit_notified w) (discard_exit_status w)
    (deliveries w) (termination_signal w).
Definition set_stop (w : ProcessWaitState) (s : bool) (signal : Z) (reported continued : bool) : ProcessWaitState :=
  mkWaitState (waited_usage w) (fresh_image w) (observed_image_revision w) s signal reported
    continued (resume_continued w) (exit_observed w) (exit_notified w) (discard_exit_status w)
    (deliveries w) (termination_signal w).
Definition set_resume (w : ProcessWaitState) (b : bool) : ProcessWaitState :=
  mkWaitState (waited_usage w) (fresh_image w) (observed_image_revision w) (is_stopped w) (stop_signal w)
    (stop_reported w) (continued_pending w) b (exit_observed w) (exit_notified w) (discard_exit_status w)
    (deliveries w) (termination_signal w).
Definition set_exit (w : ProcessWaitState) (observed notified discard : bool) : ProcessWaitState :=
  mkWaitState (waited_usage w) (fresh_image w) (observed_image_revision w) (is_stopped w) (stop_signal w)
    (stop_reported w) (continued_pending w) (resume_continued w) observed notified discard
    (deliveries w) (termination_signal w).
Definition set_deliveries (w : ProcessWaitState) (m : gmap Z SignalDeliveryOwner) : ProcessWaitState :=
  mkWaitState (waited_usage w) (fresh_image w) (observed_image_revision w) (is_stopped w) (stop_signal w)
    (stop_reported w) (continued_pending w) (resume_continued w) (exit_observed w) (exit_notified w)
    (discard_exit_status w) m (termination_signal w).
Definition set_termination (w : ProcessWaitState) (signal : Z) : ProcessWaitState :=
  mkWaitState (waited_usage w) (fresh_image w) (observed_image_revision w) (is_stopped w) (stop_signal w)
    (stop_reported w) (continued_pending w) (resume_continued w) (exit_observed w) (exit_notified w)
    (discard_exit_status w) (deliveries w) (Some signal).

Definition stopped (w : ProcessWaitState) (signal : Z) : ProcessWaitState * bool :=
  if is_stopped w then (w, false) else (set_stop w true signal false false, true).
Definition continued (w : ProcessWaitState) : ProcessWaitState * bool :=
  if negb (is_stopped w) then (w, false) else (set_stop w false (stop_signal w) false true, true).
Definition begin_delivery (w : ProcessWaitState) (d : SignalDelivery) (thread : Z) (o : Origin) : ProcessWaitState :=
  set_deliveries w (<[d_token d := mkDeliveryOwner (d_signal d) o thread]> (deliveries w)).
Definition cancel_stop_deliveries (w : ProcessWaitState) : ProcessWaitState :=
  set_deliveries w
    (filter (λ x, Z.land (signal_bit (o_signal x.2)) JOB_CONTROL_STOP_SIGNALS = 0) (deliveries w)).
Definition consume_delivery (w : ProcessWaitState) (d : SignalDelivery) : ProcessWaitState * bool :=
  if negb (bool_decide (o_signal <$> deliveries w !! d_token d = Some (d_signal d))) then (w, false)
  else (set_deliveries w (delete (d_token d) (deliveries w)), true).
Definition take_status (w : ProcessWaitState) (options : Z) : ProcessWaitState * option Z :=
  if has options WAIT_UNTRACED && is_stopped w && negb (stop_reported w) then
    (if has options WAIT_NOWAIT then w
     else set_stop w (is_stopped w) (stop_signal w) true (continued_pending w),
     Some (Z.lor (Z.shiftl (stop_signal w) 8) 127))
  else if has options WAIT_CONTINUED && continued_pending w then
    (if has options WAIT_NOWAIT then w
     else set_stop w (is_stopped w) (stop_signal w) (stop_reported w) false,
     Some WAIT_STATUS_CONTINUED)
  else (w, None).
End State.
