(* ===== verification/Signals.v ===== *)
(** * The signal tables of the POSIX service

    Models generation, blocking, delivery and acceptance of signals in
    [posix/src/lib.rs], [posix/src/fault_signal.rs],
    [posix/src/signal_origin.rs], [posix/src/signal_dequeue.rs] and
    [posix/src/image_state.rs].  [SignalTable] is the part of [PosixService]
    that they work on, with the process timers of [ProcessTimer]; sessions and
    parents are read only and are arguments.  The payload codecs are fields of
    [SignalCodec], and [SignalCodecLaws] states the ranges their decoders
    check. *)

From stdpp Require Import fin_maps.
From S2P Require Import Prelude PosixProtocol TimerSchedule ProcessTimer SignalState.

Record ThreadStatus := mkThreadStatus {
  ts_process_id : Z;
  ts_thread_id : Z;
  ts_state : Z;
  ts_reserved : Z;
}.

Class SignalCodec := {
  SIGNAL_MASK_QUERY : Z; SIGNAL_MASK_SET : Z; SIGNAL_MASK_BLOCK : Z; SIGNAL_MASK_UNBLOCK : Z;
  SIGNAL_MASK_INITIALIZE : Z;
  (** operation and mask *)
  decode_signal_mask_request : list Z → option (Z * Z);
  encode_signal_mask : Z → option (list Z);
  (** selector and signal *)
  decode_signal_send_request : list Z → option (Z * Z);
  decode_signal_delivery : list Z → option SignalDelivery;
  encode_signal_delivery : SignalDelivery → option (list Z);
  (** signal, kind and child options *)
  decode_signal_disposition : list Z → option (Z * Z * Z);
  encode_signal_disposition : Z → Z → Z → option (list Z);
  decode_signal_child_options : list Z → option Z;
  SIGNAL_DISPOSITION_SET : Z;
  SIGNAL_BUS : Z; SIGNAL_SEGV : Z; ORIGIN_FAULT : Z;
  encode_fault_delivery : SignalDelivery → Z → option (list Z);
  encode_origin : Origin → option (list Z);
  OP_SIGNAL_THREAD_MASK : Z; OP_SIGNAL_THREAD_DEQUEUE : Z; OP_SIGNAL_THREAD_PENDING : Z;
  OP_SIGNAL_THREAD_RAISE : Z; OP_SIGNAL_THREAD_FAULT : Z; OP_SIGNAL_DELIVERY_ORIGIN : Z;
  OP_SIGNAL_THREAD_EPOCH : Z; OP_SIGNAL_IMAGE_STARTED : Z;
  (** of the native interface *)
  HANDLE_RIGHT_WAIT : Z; HANDLE_RIGHT_SIGNAL : Z;
  THREAD_STATE_READY : Z; THREAD_STATE_TERMINATED : Z;
  is_not_found : Z → bool;
}.
Class SignalCodecLaws {PP : PosixProtocol} {SC : SignalCodec} := {
  decode_mask_u64 payload op mask : decode_signal_mask_request payload = Some (op, mask) → is_u64 mask;
  decode_send_range payload selector signal :
    decode_signal_send_request payload = Some (selector, signal) → 0 ≤ signal ≤ SIGNAL_MAX;
  decode_disposition_range payload signal kind options :
    decode_signal_disposition payload = Some (signal, kind, options) →
    1 ≤ signal ≤ SIGNAL_MAX ∧
    (kind = SIGNAL_DISPOSITION_DEFAULT ∨ kind = SIGNAL_DISPOSITION_IGNORE ∨ kind = SIGNAL_DISPOSITION_CAUGHT);
  fault_signals_range : 1 ≤ SIGNAL_BUS ≤ SIGNAL_MAX ∧ 1 ≤ SIGNAL_SEGV ≤ SIGNAL_MAX;
  fault_signals_not_stop : (SIGNAL_BUS ∉ stop_signals) ∧ (SIGNAL_SEGV ∉ stop_signals);
  encode_signal_delivery_total d : is_Some (encode_signal_delivery d);
  decode_encode_delivery d bytes :
    0 ≤ d_signal d ≤ 64 → is_u64 (d_token d) → encode_signal_delivery d = Some bytes → decode_signal_delivery bytes = Some d;
}.

(** No status of the protocol: it marks an indexing that panics. *)
Definition PANIC : Z := 2 ^ 31.

Section Signals.
Context {PP : PosixProtocol} {SC : SignalCodec}.

Record SignalTable := mkSignals {
  signals : gmap Z ProcessSignalState;
  signal_masks : gmap (Z * Z) Z;
  signal_delivery_epochs : gmap (Z * Z) Z;
  thread_pending_signals : gmap (Z * Z) Z;
  (** by process, thread (0 for the process) and signal *)
  signal_origins : gmap (Z * Z * Z) Origin;
  thread_signal_notifications : gset (Z * Z);
  signal_child_options : gmap Z Z;
  process_wait_states : gmap Z ProcessWaitState;
  next_signal_delivery_token : Z;
  signal_notifications : gset Z;
  process_resume_notifications : gset Z;
  process_timers : Registry;
}.
Definition signals_new : SignalTable := mkSignals ∅ ∅ ∅ ∅ ∅ ∅ ∅ ∅ 1 ∅ ∅ registry_new.

Definition set_signals (t : SignalTable) x : SignalTable :=
  mkSignals x (signal_masks t) (signal_delivery_epochs t) (thread_pending_signals t) (signal_origins t)
    (thread_signal_notifications t) (signal_child_options t) (process_wait_states t)
    (next_signal_delivery_token t) (signal_notifications t) (process_resume_notifications t) (process_timers t).
Definition set_masks (t : SignalTable) x y : SignalTable :=
  mkSignals (signals t) x y (thread_pending_signals t) (signal_origins t)
    (thread_signal_notifications t) (signal_child_options t) (process_wait_states t)
    (next_signal_delivery_token t) (signal_notifications t) (process_resume_notifications t) (process_timers t).
Definition set_thread_pending (t : SignalTable) x : SignalTable :=
  mkSignals (signals t) (signal_masks t) (signal_delivery_epochs t) x (signal_origins t)
    (thread_signal_notifications t) (signal_child_options t) (process_wait_states t)
    (next_signal_delivery_token t) (signal_notifications t) (process_resume_notifications t) (process_timers t).
Definition set_origins (t : SignalTable) x : SignalTable :=
  mkSignals (signals t) (signal_masks t) (signal_delivery_epochs t) (thread_pending_signals t) x
    (thread_signal_notifications t) (signal_child_options t) (process_wait_states t)
    (next_signal_delivery_token t) (signal_notifications t) (process_resume_notifications t) (process_timers t).
Definition set_thread_notifications (t : SignalTable) x : SignalTable :=
  mkSignals (signals t) (signal_masks t) (signal_delivery_epochs t) (thread_pending_signals t) (signal_origins t)
    x (signal_child_options t) (process_wait_states t)
    (next_signal_delivery_token t) (signal_notifications t) (process_resume_notifications t) (process_timers t).
Definition set_child_options (t : SignalTable) x : SignalTable :=
  mkSignals (signals t) (signal_masks t) (signal_delivery_epochs t) (thread_pending_signals t) (signal_origins t)
    (thread_signal_notifications t) x (process_wait_states t)
    (next_signal_delivery_token t) (signal_notifications t) (process_resume_notifications t) (process_timers t).
Definition set_waits (t : SignalTable) x : SignalTable :=
  mkSignals (signals t) (signal_masks t) (signal_delivery_epochs t) (thread_pending_signals t) (signal_origins t)
    (thread_signal_notifications t) (signal_child_options t) x
    (next_signal_delivery_token t) (signal_notifications t) (process_resume_notifications t) (process_timers t).
Definition set_next_token (t : SignalTable) x : SignalTable :=
  mkSignals (signals t) (signal_masks t) (signal_delivery_epochs t) (thread_pending_signals t) (signal_origins t)
    (thread_signal_notifications t) (signal_child_options t) (process_wait_states t)
    x (signal_notifications t) (process_resume_notifications t) (process_timers t).
Definition set_notifications (t : SignalTable) x : SignalTable :=
  mkSignals (signals t) (signal_masks t) (signal_delivery_epochs t) (thread_pending_signals t) (signal_origins t)
    (thread_signal_notifications t) (signal_child_options t) (process_wait_states t)
    (next_signal_delivery_token t) x (process_resume_notifications t) (process_timers t).
Definition set_resumes (t : SignalTable) x : SignalTable :=
  mkSignals (signals t) (signal_masks t) (signal_delivery_epochs t) (thread_pending_signals t) (signal_origins t)
    (thread_signal_notifications t) (signal_child_options t) (process_wait_states t)
    (next_signal_delivery_token t) (signal_notifications t) x (process_timers t).
Definition set_timers (t : SignalTable) x : SignalTable :=
  mkSignals (signals t) (signal_masks t) (signal_delivery_epochs t) (thread_pending_signals t) (signal_origins t)
    (thread_signal_notifications t) (signal_child_options t) (process_wait_states t)
    (next_signal_delivery_token t) (signal_notifications t) (process_resume_notifications t) x.
Definition put_wait (t : SignalTable) (p : Z) (w : ProcessWaitState) : SignalTable :=
  set_waits t (<[p := w]> (process_wait_states t)).
Definition put_signals (t : SignalTable) (p : Z) (s : ProcessSignalState) : SignalTable :=
  set_signals t (<[p := s]> (signals t)).
(** [get_mut(&p)] followed by an assignment, where the process is there. *)
Definition alter_wait (t : SignalTable) (p : Z) (f : ProcessWaitState → ProcessWaitState) : SignalTable :=
  set_waits t (alter f p (process_wait_states t)).

(** ** Generation *)

Definition acknowledge_signal_notification (t : SignalTable) (p : Z) : SignalTable :=
  set_notifications t (signal_notifications t ∖ {[p]}).
Definition acknowledge_thread_signal_notification (t : SignalTable) (k : Z * Z) : SignalTable :=
  set_thread_notifications t (thread_signal_notifications t ∖ {[k]}).
Definition cancel_unconfirmed_resume (t : SignalTable) (p : Z) : SignalTable :=
  alter_wait (set_resumes t (process_resume_notifications t ∖ {[p]})) p (λ w, set_resume w false).

(** The threads of [p] lose the signals of [mask]. *)
Definition clear_threads (p mask : Z) (m : gmap (Z * Z) Z) : gmap (Z * Z) Z :=
  map_imap (λ k v, Some (if k.1 =? p then without v mask else v)) m.
Definition cancelled_by (signal : Z) : Z :=
  if signal =? SIGNAL_CONT then JOB_CONTROL_STOP_SIGNALS
  else if has (signal_bit signal) JOB_CONTROL_STOP_SIGNALS then signal_bit SIGNAL_CONT
  else 0.
Definition prepare_signal_generation (p signal : Z) : stM SignalTable Z unit := λ t,
  let cancelled := cancelled_by signal in
  match signals t !! p with
  | None => (t, Err STATUS_ESRCH)
  | Some s =>
      let t := put_signals t p (set_pending_mask s (without (pending s) cancelled)) in
      let t := set_timers t (discard_signals p cancelled (process_timers t)) in
      let t := set_thread_pending t (clear_threads p cancelled (thread_pending_signals t)) in
      let t := set_origins t
                 (filter (λ x, x.1.1.1 ≠ p ∨ Z.land (signal_bit x.1.2) cancelled = 0) (signal_origins t)) in
      match
        (if signal =? SIGNAL_CONT then
           match process_wait_states t !! p with
           | None => (t, Err STATUS_ESRCH)
           | Some w =>
               let w := cancel_stop_deliveries w in
               (put_wait t p (set_resume w (resume_continued w || is_stopped w)), Ok tt)
           end
         else if signal =? SIGNAL_KILL then
           match process_wait_states t !! p with
           | None => (t, Err STATUS_ESRCH)
           | Some w => (put_wait t p (cancel_stop_deliveries w), Ok tt)
           end
         else (t, Ok tt))
      with
      | (t, Err e) => (t, Err e)
      | (t, Ok _) =>
          (if (signal =? SIGNAL_KILL) || (signal =? SIGNAL_CONT)
           then set_resumes t ({[p]} ∪ process_resume_notifications t) else t, Ok tt)
      end
  end.

Definition enqueue_signal_with_origin (p signal : Z) (origin : Origin) : stM SignalTable Z unit := λ t,
  match prepare_signal_generation p signal t with
  | (t, Err e) => (t, Err e)
  | (t, Ok _) =>
      match signals t !! p with
      | None => (t, Err STATUS_ESRCH)
      | Some s =>
          let s' := enqueue s signal in
          let t := put_signals t p s' in
          (if has (pending s') (signal_bit signal) then
             let t := if has (pending s) (signal_bit signal) then t
                      else set_origins t (<[(p, 0, signal) := origin]> (signal_origins t)) in
             set_notifications t ({[p]} ∪ signal_notifications t)
           else if (pending s' =? 0) && (pending_signal_mask (process_timers t) p =? 0)
           then set_notifications t (signal_notifications t ∖ {[p]})
           else t, Ok tt)
      end
  end.
Definition enqueue_signal (p signal : Z) : stM SignalTable Z unit :=
  enqueue_signal_with_origin p signal origin_system.

(** ** Dispositions *)

Definition discards_child_status (t : SignalTable) (parent : Z) : bool :=
  match signals t !! parent with
  | Some s => disposition s SIGNAL_CHLD =? SIGNAL_DISPOSITION_IGNORE
  | None => false
  end || has (default 0 (signal_child_options t !! parent)) SIGNAL_CHILD_OPTION_NOCLDWAIT.
Definition discard_observed_child_status (parents : gmap Z Z) (parent : Z) (t : SignalTable) : SignalTable :=
  set_waits t
    (map_imap (λ child w,
       Some (if bool_decide (parents !! child = Some parent) && exit_observed w
             then set_exit w (exit_observed w) (exit_notified w) true else w)) (process_wait_states t)).
Definition pending_signals_payload (t : SignalTable) (p : Z) : result Z (list Z) :=
  s ← ok_or STATUS_ESRCH (signals t !! p);
  ok_or STATUS_EINVAL (encode_signal_mask (Z.lor (pending s) (pending_signal_mask (process_timers t) p))).
Definition set_signal_child_options (registered : bool) (parents : gmap Z Z) (p : Z) (payload : list Z)
    : stM SignalTable Z unit := λ t,
  if negb registered then (t, Err STATUS_ESRCH)
  else
    match decode_signal_child_options payload with
    | None => (t, Err STATUS_EINVAL)
    | Some options =>
        let t := set_child_options t (<[p := options]> (signal_child_options t)) in
        (if has options SIGNAL_CHILD_OPTION_NOCLDWAIT then discard_observed_child_status parents p t else t, Ok tt)
    end.
Definition discards_pending (signal kind : Z) : bool :=
  (kind =? SIGNAL_DISPOSITION_IGNORE) ||
  ((kind =? SIGNAL_DISPOSITION_DEFAULT) && default_signal_ignores signal).
(** Pending occurrences of [signal] go, wherever they are held. *)
Definition discard_occurrences (p signal : Z) (t : SignalTable) : SignalTable :=
  let t := set_timers t (discard_signals p (signal_bit signal) (process_timers t)) in
  let t := set_origins t (filter (λ x, x.1.1.1 ≠ p ∨ x.1.2 ≠ signal) (signal_origins t)) in
  let threads := clear_threads p (signal_bit signal) (thread_pending_signals t) in
  set_thread_notifications (set_thread_pending t threads)
    (filter (λ k, k.1 ≠ p ∨ threads !! k ≠ Some 0) (thread_signal_notifications t)).
Definition signal_disposition_payload (parents : gmap Z Z) (p flags : Z) (payload : list Z)
    : stM SignalTable Z (list Z) := λ t,
  let setting := flags =? SIGNAL_DISPOSITION_SET in
  match
    ('(signal, kind, options) ← ok_or STATUS_EINVAL (decode_signal_disposition payload);
     ensure (negb ((negb setting && (negb (kind =? 0) || negb (options =? 0))) ||
                   (setting && ((signal =? SIGNAL_KILL) || (signal =? SIGNAL_STOP))))) STATUS_EINVAL;;
     s ← ok_or STATUS_ESRCH (signals t !! p);
     output ← ok_or STATUS_EINVAL
                (encode_signal_disposition signal (disposition s signal)
                   (if signal =? SIGNAL_CHLD then default 0 (signal_child_options t !! p) else 0));
     Ok (signal, kind, options, s, output))
  with
  | Err e => (t, Err e)
  | Ok (signal, kind, options, s, output) =>
      let t :=
        if setting then
          let s := set_disposition s signal kind in
          let t := put_signals t p s in
          let t := if discards_pending signal kind then discard_occurrences p signal t else t in
          let t := if (pending s =? 0) && (pending_signal_mask (process_timers t) p =? 0)
                   then set_notifications t (signal_notifications t ∖ {[p]}) else t in
          if signal =? SIGNAL_CHLD then set_child_options t (<[p := options]> (signal_child_options t)) else t
        else t in
      (if setting && (signal =? SIGNAL_CHLD) && discards_child_status t p
       then discard_observed_child_status parents p t else t, Ok output)
  end.
Definition signal_image_started_payload (t : SignalTable) (p : Z) : result Z (list Z) :=
  s ← ok_or STATUS_ESRCH (signals t !! p);
  ok_or STATUS_EINVAL (encode_signal_mask (ignored s)).

(** ** Threads *)

(** [ExecutionIdentity]. *)
Record Identity := mkIdentity { i_process_id : Z; i_thread_id : Z }.
Definition key_of (i : Identity) : Z * Z := (i_process_id i, i_thread_id i).
Definition thread_pending (t : SignalTable) (k : Z * Z) : Z := default 0 (thread_pending_signals t !! k).

(** The complement of a 64-bit set. *)
Definition not64 (a : Z) : Z := without U64_MAX a.
Definition updated_mask (op : Z) (previous : option Z) (requested : Z) : option Z :=
  let current := default 0 previous in
  if op =? SIGNAL_MASK_QUERY then Some current
  else if op =? SIGNAL_MASK_SET then Some requested
  else if op =? SIGNAL_MASK_BLOCK then Some (Z.lor current requested)
  else if op =? SIGNAL_MASK_UNBLOCK then Some (without current requested)
  else if op =? SIGNAL_MASK_INITIALIZE then Some (default requested previous)
  else None.
Definition thread_signal_mask_payload (registered : bool) (i : Identity) (payload : list Z)
    : stM SignalTable Z (list Z) := λ t,
  let key := key_of i in
  match
    (ensure registered STATUS_ESRCH;;
     '(op, mask) ← ok_or STATUS_EINVAL (decode_signal_mask_request payload);
     let requested := without mask unblockable in
     let previous := signal_masks t !! key in
     updated ← ok_or STATUS_EINVAL (updated_mask op previous requested);
     output ← ok_or STATUS_EINVAL
                (encode_signal_mask (if op =? SIGNAL_MASK_INITIALIZE then updated else default 0 previous));
     Ok (op, previous, updated, output))
  with
  | Err e => (t, Err e)
  | Ok (op, previous, updated, output) =>
      if negb (op =? SIGNAL_MASK_QUERY) then
        let t := set_masks t (<[key := updated]> (signal_masks t))
                   (match signal_delivery_epochs t !! key with
                    | Some _ => signal_delivery_epochs t
                    | None => <[key := 0]> (signal_delivery_epochs t)
                    end) in
        let newly := match previous with None => not64 updated | Some current => without current updated end in
        match signals t !! i_process_id i with
        | None => (t, Err PANIC)
        | Some s =>
            let t := if has newly (Z.lor (pending s) (pending_signal_mask (process_timers t) (i_process_id i)))
                     then set_notifications t ({[i_process_id i]} ∪ signal_notifications t) else t in
            (if has newly (thread_pending t key)
             then set_thread_notifications t ({[key]} ∪ thread_signal_notifications t) else t, Ok output)
        end
      else (t, Ok output)
  end.

Definition thread_raise_signal_payload (real_uid : option Z) (i : Identity) (payload : list Z)
    : stM SignalTable Z (list Z) := λ t,
  let key := key_of i in
  match
    ('(selector, signal) ← ok_or STATUS_EINVAL (decode_signal_send_request payload);
     ensure (selector =? 0) STATUS_EINVAL;;
     blocked ← ok_or STATUS_ESRCH (signal_masks t !! key);
     Ok (signal, blocked))
  with
  | Err e => (t, Err e)
  | Ok (signal, blocked) =>
      if signal =? 0 then (t, Ok [])
      else
        match prepare_signal_generation (i_process_id i) signal t with
        | (t, Err e) => (t, Err e)
        | (t, Ok _) =>
            match signals t !! i_process_id i with
            | None => (t, Err PANIC)
            | Some s =>
                if negb (disposition s signal =? SIGNAL_DISPOSITION_IGNORE) then
                  (** [entry(key).or_default()] *)
                  let p := thread_pending t key in
                  let t := set_thread_pending t (<[key := p]> (thread_pending_signals t)) in
                  match (if has p (signal_bit signal) then Ok t
                         else match real_uid with
                              | None => Err STATUS_ESRCH
                              | Some uid =>
                                  Ok (set_origins t (<[(i_process_id i, i_thread_id i, signal) :=
                                        mkOrigin ORIGIN_USER uid (i_process_id i) (child origin_system)
                                          (timer origin_system)]> (signal_origins t)))
                              end) with
                  | Err e => (t, Err e)
                  | Ok t =>
                      let t := set_thread_pending t
                                 (<[key := Z.lor p (signal_bit signal)]> (thread_pending_signals t)) in
                      (if negb (has blocked (signal_bit signal))
                       then set_thread_notifications t ({[key]} ∪ thread_signal_notifications t) else t, Ok [])
                  end
                else (t, Ok [])
            end
        end
  end.
Definition send_thread_signal (real_uid : option Z) (peer : Z) (i : Identity) (target : ThreadStatus)
    (rights : Z) (payload : list Z) : stM SignalTable Z unit := λ t,
  let required := Z.lor HANDLE_RIGHT_WAIT HANDLE_RIGHT_SIGNAL in
  if negb (Z.land rights required =? required) || negb (i_process_id i =? peer) || (i_process_id i =? 0) ||
     (i_thread_id i =? 0) || negb (ts_process_id target =? i_process_id i)
  then (t, Err STATUS_EPERM)
  else if (ts_thread_id target =? 0) || negb (ts_reserved target =? 0) ||
          negb ((THREAD_STATE_READY <=? ts_state target) && (ts_state target <=? THREAD_STATE_TERMINATED))
  then (t, Err STATUS_EINVAL)
  else if ts_state target =? THREAD_STATE_TERMINATED then (t, Err STATUS_ESRCH)
  else
    match thread_raise_signal_payload real_uid (mkIdentity (ts_process_id target) (ts_thread_id target)) payload t with
    | (t, Err e) => (t, Err e)
    | (t, Ok _) => (t, Ok tt)
    end.

(** ** Delivery *)

Definition allocate_token (next : Z) : Z * result Z Z :=
  let token := Z.max next 1 in
  match checked_add U64_MAX token 1 with
  | Some next => (next, Ok token)
  | None => (next, Err STATUS_EOVERFLOW)
  end.
Definition begin_signal_delivery (i : Identity) (signal : Z) (origin : Origin)
    : stM SignalTable Z SignalDelivery := λ t,
  let key := key_of i in
  match process_wait_states t !! i_process_id i with
  | None => (t, Err STATUS_ESRCH)
  | Some w =>
      if MAX_OUTSTANDING_SIGNAL_DELIVERIES <=? Z.of_nat (size (deliveries w)) then (t, Err STATUS_EAGAIN)
      else
        let epoch := default 0 (signal_delivery_epochs t !! key) in
        let t := set_masks t (signal_masks t) (<[key := epoch]> (signal_delivery_epochs t)) in
        match checked_add U64_MAX epoch 1 with
        | None => (t, Err STATUS_EOVERFLOW)
        | Some next_epoch =>
            match allocate_token (next_signal_delivery_token t) with
            | (next, Err e) => (set_next_token t next, Err e)
            | (next, Ok token) =>
                let d := mkDelivery signal token in
                let t := set_next_token t next in
                let t := put_wait t (i_process_id i) (begin_delivery w d (i_thread_id i) origin) in
                (set_masks t (signal_masks t) (<[key := next_epoch]> (signal_delivery_epochs t)), Ok d)
            end
        end
  end.
Definition thread_fault_signal_payload (i : Identity) (payload : list Z) : stM SignalTable Z (list Z) := λ t,
  match
    ('(selector, signal) ← ok_or STATUS_EINVAL (decode_signal_send_request payload);
     ensure ((selector =? 0) && ((signal =? SIGNAL_BUS) || (signal =? SIGNAL_SEGV))) STATUS_EINVAL;;
     blocked ← ok_or STATUS_ESRCH (signal_masks t !! key_of i);
     s ← ok_or STATUS_ESRCH (signals t !! i_process_id i);
     Ok (signal, blocked, s))
  with
  | Err e => (t, Err e)
  | Ok (signal, blocked, s) =>
      let kind := if negb (has blocked (signal_bit signal)) && (disposition s signal =? SIGNAL_DISPOSITION_CAUGHT)
                  then SIGNAL_DISPOSITION_CAUGHT else SIGNAL_DISPOSITION_DEFAULT in
      match begin_signal_delivery i signal
              (mkOrigin ORIGIN_FAULT 0 0 (child origin_system) (timer origin_system)) t with
      | (t, Err e) => (t, Err e)
      | (t, Ok d) => (t, ok_or STATUS_EINVAL (encode_fault_delivery d kind))
      end
  end.
Definition signal_delivery_origin_payload (t : SignalTable) (i : Identity) (payload : list Z) : result Z (list Z) :=
  d ← ok_or STATUS_EINVAL (decode_signal_delivery payload);
  ensure (negb (d_token d =? 0)) STATUS_EINVAL;;
  o ← ok_or STATUS_EAGAIN
        (option_keep (λ o, (o_thread_id o =? i_thread_id i) && (o_signal o =? d_signal d))
           (process_wait_states t !! i_process_id i ≫= λ w, deliveries w !! d_token d));
  ok_or STATUS_EINVAL (encode_origin (o_origin o)).

(** The signal to deliver to a thread, and whether it is the thread's own. *)
Definition select_signal (t : SignalTable) (i : Identity) (blocked : Z) : result Z (Z * bool) :=
  let own := without (thread_pending t (key_of i)) blocked in
  if negb (own =? 0) then Ok (lowest_signal own, true)
  else
    s ← ok_or STATUS_ESRCH (signals t !! i_process_id i);
    Ok (next_deliverable s blocked, false).
(** The pending occurrence that was selected goes. *)
Definition take_pending (i : Identity) (blocked signal : Z) (own : bool) : stM SignalTable Z unit := λ t,
  if own then
    (set_thread_pending t
       (<[key_of i := without (thread_pending t (key_of i)) (signal_bit signal)]> (thread_pending_signals t)), Ok tt)
  else
    match signals t !! i_process_id i with
    | None => (t, Err STATUS_ESRCH)
    | Some s => (put_signals t (i_process_id i) (dequeue s blocked).1, Ok tt)
    end.
Definition dequeue_signal_with_mask (i : Identity) (blocked : Z) : stM SignalTable Z (list Z) := λ t,
  let answer (d : SignalDelivery) := ok_or STATUS_EINVAL (encode_signal_delivery d) in
  match select_signal t i blocked with
  | Err e => (t, Err e)
  | Ok (signal, own) =>
      if negb (signal =? 0) then
        let origin_key := (i_process_id i, if own then i_thread_id i else 0, signal) in
        match signal_origins t !! origin_key with
        | None => (t, Err STATUS_EIO)
        | Some origin =>
            match begin_signal_delivery i signal origin t with
            | (t, Err e) => (t, Err e)
            | (t, Ok d) =>
                let t := set_origins t (delete origin_key (signal_origins t)) in
                match take_pending i blocked signal own t with
                | (t, Err e) => (t, Err e)
                | (t, Ok _) => (t, answer (mkDelivery signal (d_token d)))
                end
            end
        end
      else (t, answer (mkDelivery signal 0))
  end.
Definition thread_signal_delivery_payload (i : Identity) (opcode : Z) (payload : list Z)
    : stM SignalTable Z (list Z) := λ t,
  match (ensure (bool_decide (payload = [])) STATUS_EINVAL;; ok_or STATUS_ESRCH (signal_masks t !! key_of i)) with
  | Err e => (t, Err e)
  | Ok blocked =>
      if opcode =? OP_SIGNAL_THREAD_DEQUEUE then dequeue_signal_with_mask i blocked t
      else
        (t, s ← ok_or STATUS_ESRCH (signals t !! i_process_id i);
            let p := Z.lor (Z.lor (pending s) (thread_pending t (key_of i)))
                       (pending_signal_mask (process_timers t) (i_process_id i)) in
            ok_or STATUS_EINVAL (encode_signal_mask (Z.land p blocked)))
  end.
(** [registered] and [real_uid]: the session of the sender's process. *)
Definition handle_thread_signal_request (registered : bool) (real_uid : option Z) (peer : Z) (i : Identity)
    (opcode flags : Z) (payload : list Z) : stM SignalTable Z (list Z) := λ t,
  if negb (bool_decide (opcode ∈ [OP_SIGNAL_THREAD_MASK; OP_SIGNAL_THREAD_DEQUEUE; OP_SIGNAL_THREAD_PENDING;
                                  OP_SIGNAL_THREAD_RAISE; OP_SIGNAL_THREAD_FAULT; OP_SIGNAL_DELIVERY_ORIGIN;
                                  OP_SIGNAL_THREAD_EPOCH; OP_SIGNAL_IMAGE_STARTED]))
  then (t, Err STATUS_ENOSYS)
  else if negb (flags =? 0) then (t, Err STATUS_EINVAL)
  else if negb (i_process_id i =? peer) || (i_process_id i =? 0) || (i_thread_id i =? 0) then (t, Err STATUS_EPERM)
  else if opcode =? OP_SIGNAL_THREAD_MASK then thread_signal_mask_payload registered i payload t
  else if opcode =? OP_SIGNAL_THREAD_RAISE then thread_raise_signal_payload real_uid i payload t
  else if opcode =? OP_SIGNAL_THREAD_FAULT then thread_fault_signal_payload i payload t
  else if opcode =? OP_SIGNAL_DELIVERY_ORIGIN then (t, signal_delivery_origin_payload t i payload)
  else if opcode =? OP_SIGNAL_THREAD_EPOCH then
    (t, if bool_decide (payload = []) then
          epoch ← ok_or STATUS_ESRCH (signal_delivery_epochs t !! key_of i);
          ok_or STATUS_EINVAL (encode_signal_mask epoch)
        else Err STATUS_EINVAL)
  else if opcode =? OP_SIGNAL_IMAGE_STARTED then
    (t, if bool_decide (payload = []) then signal_image_started_payload t (i_process_id i) else Err STATUS_EINVAL)
  else thread_signal_delivery_payload i opcode payload t.

Definition complete_signal_delivery (registered : bool) (p : Z) (payload : list Z) : stM SignalTable Z unit := λ t,
  match
    (d ← ok_or STATUS_EINVAL (decode_signal_delivery payload);
     ensure (negb ((d_signal d =? 0) || (d_token d =? 0))) STATUS_EINVAL;;
     ensure registered STATUS_ESRCH;;
     w ← ok_or STATUS_ESRCH (process_wait_states t !! p);
     Ok (d, w))
  with
  | Err e => (t, Err e)
  | Ok (d, w) =>
      let '(w, consumed) := consume_delivery w d in
      (put_wait t p w, if consumed then Ok tt else Err STATUS_EAGAIN)
  end.

(** ** Synchronous acceptance *)

Definition validate_wait_delivery_epoch (t : SignalTable) (peer : Z) (i : Identity) (expected : Z) : result Z unit :=
  ensure (negb (negb (i_process_id i =? peer) || (i_process_id i =? 0) || (i_thread_id i =? 0))) STATUS_EPERM;;
  epoch ← ok_or STATUS_ESRCH (signal_delivery_epochs t !! key_of i);
  blocked ← ok_or STATUS_ESRCH (signal_masks t !! key_of i);
  s ← ok_or STATUS_ESRCH (signals t !! i_process_id i);
  let p := Z.lor (Z.lor (pending s) (thread_pending t (key_of i)))
             (without (pending_signal_mask (process_timers t) (i_process_id i)) (ignored s)) in
  ensure (negb (negb (epoch =? expected) || negb (without p blocked =? 0))) STATUS_EINTR.

(** [signal_wait::Accepted]. *)
Record Accepted := mkAccepted { a_signal : Z; a_origin : Origin }.
Definition try_wait_signal_info_with_reply (peer : Z) (i : Identity) (requested expected_epoch : Z)
    (reply : Accepted → bool) : stM SignalTable Z (option Accepted) := λ t,
  let key := key_of i in
  match validate_wait_delivery_epoch t peer i expected_epoch with
  | Err e => (t, Err e)
  | Ok _ =>
      match signal_masks t !! key, signals t !! i_process_id i with
      | Some blocked, Some s =>
          let requested := without requested unblockable in
          if negb (without requested blocked =? 0) then (t, Err STATUS_EINVAL)
          else
            let own := Z.land (thread_pending t key) requested in
            let selected := Z.land (pending s) requested in
            if negb (own =? 0) then
              let signal := lowest_signal own in
              match signal_origins t !! (i_process_id i, i_thread_id i, signal) with
              | None => (t, Err STATUS_EIO)
              | Some origin =>
                  let accepted := mkAccepted signal origin in
                  if negb (reply accepted) then (t, Ok None)
                  else
                    let t := set_thread_pending t
                               (<[key := without (thread_pending t key) (signal_bit signal)]>
                                  (thread_pending_signals t)) in
                    (set_origins t (delete (i_process_id i, i_thread_id i, signal) (signal_origins t)),
                     Ok (Some accepted))
              end
            else if selected =? 0 then (t, Err STATUS_EAGAIN)
            else
              let signal := lowest_signal selected in
              match signal_origins t !! (i_process_id i, 0, signal) with
              | None => (t, Err STATUS_EIO)
              | Some origin =>
                  let accepted := mkAccepted signal origin in
                  if negb (reply accepted) then (t, Ok None)
                  else
                    let t := put_signals t (i_process_id i)
                               (set_pending_mask s (without (pending s) (signal_bit signal))) in
                    (set_origins t (delete (i_process_id i, 0, signal) (signal_origins t)), Ok (Some accepted))
              end
      | _, _ => (t, Err PANIC)
      end
  end.
Definition try_wait_signal_info (peer : Z) (i : Identity) (requested expected_epoch : Z)
    : stM SignalTable Z Accepted := λ t,
  match try_wait_signal_info_with_reply peer i requested expected_epoch (λ _, true) t with
  | (t, Err e) => (t, Err e)
  | (t, Ok None) => (t, Err STATUS_EIO)
  | (t, Ok (Some accepted)) => (t, Ok accepted)
  end.
Definition before_deadline (deadline : option Z) (now : Z) : bool :=
  match deadline with None => true | Some d => now <? d end.
Inductive SignalWaitCompletion := WaitPending | WaitReplied | WaitUndelivered.
Definition poll_wait_signal_info_with_reply (peer : Z) (i : Identity) (requested expected_epoch : Z)
    (deadline : option Z) (now : Z) (reply : Accepted → bool) : stM SignalTable Z SignalWaitCompletion := λ t,
  match try_wait_signal_info_with_reply peer i requested expected_epoch reply t with
  | (t, Err e) => (t, if (e =? STATUS_EAGAIN) && before_deadline deadline now then Ok WaitPending else Err e)
  | (t, Ok (Some _)) => (t, Ok WaitReplied)
  | (t, Ok None) => (t, Ok WaitUndelivered)
  end.
Definition poll_wait_signal_info (peer : Z) (i : Identity) (requested expected_epoch : Z)
    (deadline : option Z) (now : Z) : stM SignalTable Z (option Accepted) := λ t,
  match try_wait_signal_info peer i requested expected_epoch t with
  | (t, Err e) => (t, if (e =? STATUS_EAGAIN) && before_deadline deadline now then Ok None else Err e)
  | (t, Ok accepted) => (t, Ok (Some accepted))
  end.

(** ** The life of a thread and of a process *)

Definition remove_empty_signal_notification (t : SignalTable) (p : Z) : SignalTable :=
  if match signals t !! p with None => true | Some s => pending s =? 0 end &&
     (pending_signal_mask (process_timers t) p =? 0)
  then set_notifications t (signal_notifications t ∖ {[p]}) else t.
Definition thread_terminated (i : Identity) (status : result Z ThreadStatus) : result Z bool :=
  match status with
  | Err e => if is_not_found e then Ok true else Err e
  | Ok st =>
      ensure (negb (negb (ts_process_id st =? i_process_id i) || negb (ts_thread_id st =? i_thread_id i))) STATUS_EPERM;;
      ensure (negb (negb (ts_reserved st =? 0) ||
                    negb ((THREAD_STATE_READY <=? ts_state st) && (ts_state st <=? THREAD_STATE_TERMINATED))))
        STATUS_EINVAL;;
      Ok (ts_state st =? THREAD_STATE_TERMINATED)
  end.
(** What is kept for a thread goes with it. *)
Definition forget_thread (i : Identity) (t : SignalTable) : SignalTable :=
  let p := i_process_id i in
  let key := key_of i in
  let t := set_timers t (retire_thread p (i_thread_id i) (process_timers t)) in
  let t := remove_empty_signal_notification t p in
  let t := set_masks t (delete key (signal_masks t)) (delete key (signal_delivery_epochs t)) in
  let t := set_thread_pending t (delete key (thread_pending_signals t)) in
  let t := set_origins t (filter (λ x, x.1.1 ≠ key) (signal_origins t)) in
  let t := set_thread_notifications t (thread_signal_notifications t ∖ {[key]}) in
  let t := alter_wait t p (λ w,
             set_deliveries w (filter (λ x, o_thread_id x.2 ≠ i_thread_id i) (deliveries w))) in
  match signals t !! p with
  | Some s =>
      if negb (pending s =? 0) || negb (pending_signal_mask (process_timers t) p =? 0)
      then set_notifications t ({[p]} ∪ signal_notifications t) else t
  | None => t
  end.
Definition retire_signal_thread (i : Identity) (status : result Z ThreadStatus) : stM SignalTable Z bool := λ t,
  if (i_process_id i =? 0) || (i_thread_id i =? 0) then (t, Err STATUS_EPERM)
  else
    match thread_terminated i status with
    | Err e => (t, Err e)
    | Ok terminated => (if terminated then forget_thread i t else t, Ok terminated)
    end.
(** A new image keeps what is ignored, pending and blocked. *)
Definition reset_image_signals (t : SignalTable) (p : Z) : SignalTable :=
  let t := set_timers t (retire_owner p (process_timers t)) in
  let t := set_signals t (alter (λ s, mkSignalState (pending s) (ignored s) 0) p (signals t)) in
  let t := set_child_options t (alter (λ _, 0) p (signal_child_options t)) in
  alter_wait t p (λ w, set_deliveries w ∅).
(** The signal state of a process that is bound, forked or reaped. *)
Definition install_process (p : Z) (s : ProcessSignalState) (options : Z) (t : SignalTable) : SignalTable :=
  let t := put_signals t p s in
  let t := set_child_options t (<[p := options]> (signal_child_options t)) in
  put_wait t p wait_state_default.
Definition forget_process (p : Z) (t : SignalTable) : SignalTable :=
  let t := set_signals t (delete p (signals t)) in
  let t := set_masks t (filter (λ x, x.1.1 ≠ p) (signal_masks t)) (filter (λ x, x.1.1 ≠ p) (signal_delivery_epochs t)) in
  let t := set_thread_pending t (filter (λ x, x.1.1 ≠ p) (thread_pending_signals t)) in
  let t := set_origins t (filter (λ x, x.1.1.1 ≠ p) (signal_origins t)) in
  let t := set_thread_notifications t (filter (λ k, k.1 ≠ p) (thread_signal_notifications t)) in
  let t := set_child_options t (delete p (signal_child_options t)) in
  let t := set_waits t (delete p (process_wait_states t)) in
  let t := set_notifications t (signal_notifications t ∖ {[p]}) in
  let t := set_resumes t (process_resume_notifications t ∖ {[p]}) in
  set_timers t (retire_owner p (process_timers t)).
End Signals.
