(* ===== verification/SignalProofs.v ===== *)
(** * Invariants of the signal tables

    Shows that every operation of [Signals] keeps the tables of pending
    signals, origins, dispositions, masks and deliveries consistent, and what
    generation, delivery and acceptance of a signal do exactly. *)

From stdpp Require Import fin_maps.
From S2P Require Import Prelude PosixProtocol TimerSchedule ProcessTimer SignalState Signals.

Section SignalProofs.
Context {PP : PosixProtocol} {SC : SignalCodec}.

(** ** What is pending where *)

(** The signals pending for a process ([thread] 0) or one of its threads. *)
Definition pending_of (t : SignalTable) (p thread : Z) : Z :=
  if thread =? 0 then default 0 (pending <$> signals t !! p) else thread_pending t (p, thread).
Definition pend (t : SignalTable) (p thread signal : Z) : bool := in_mask (pending_of t p thread) signal.
Definition ignored_of (t : SignalTable) (p : Z) : Z := default 0 (ignored <$> signals t !! p).
Definition caught_of (t : SignalTable) (p : Z) : Z := default 0 (caught <$> signals t !! p).
Definition deliveries_of (t : SignalTable) (p : Z) : gmap Z SignalDeliveryOwner :=
  default ∅ (deliveries <$> process_wait_states t !! p).
Definition is_stop (signal : Z) : bool := bool_decide (signal ∈ stop_signals).

Context {SN : @SignalNumbers PP}.

Lemma named_range s : s ∈ named_signals → 1 ≤ s ≤ 64.
Proof.
  intros Hs. pose proof (proj1 (Forall_forall _ _) named_signals_range s Hs) as H. simpl in H.
  pose proof signal_max_bits. lia.
Qed.
Lemma stop_named s : s ∈ stop_signals → s ∈ named_signals.
Proof. intros Hs. unfold named_signals. apply elem_of_app. by right. Qed.
Lemma cont_not_stop : is_stop SIGNAL_CONT = false.
Proof.
  apply bool_decide_eq_false_2. intros Hin. pose proof named_signals_distinct as Hd.
  unfold named_signals in Hd. apply NoDup_app in Hd as (_ & Hd & _). apply (Hd SIGNAL_CONT); [set_solver|done].
Qed.
Lemma kill_not_stop : is_stop SIGNAL_KILL = false.
Proof.
  apply bool_decide_eq_false_2. intros Hin. pose proof named_signals_distinct as Hd.
  unfold named_signals in Hd. apply NoDup_app in Hd as (_ & Hd & _). apply (Hd SIGNAL_KILL); [set_solver|done].
Qed.
Lemma kill_not_cont : SIGNAL_KILL ≠ SIGNAL_CONT.
Proof.
  pose proof named_signals_distinct as Hd. unfold named_signals in Hd. apply NoDup_app in Hd as (Hd & _).
  intros E. rewrite !NoDup_cons in Hd. destruct Hd as (_ & Hk & _). apply Hk. rewrite E. set_solver.
Qed.
Lemma in_stop_mask s : in_mask JOB_CONTROL_STOP_SIGNALS s = is_stop s.
Proof.
  assert (∀ x, x ∈ stop_signals → 1 ≤ x) as Hr by (intros x Hx%stop_named%named_range; lia).
  unfold stop_signals in Hr. unfold JOB_CONTROL_STOP_SIGNALS.
  rewrite !in_mask_lor, !in_signal_bit by (apply Hr; set_solver).
  apply eq_true_iff_eq. unfold is_stop. rewrite !orb_true_iff, !bool_decide_eq_true. unfold stop_signals. set_solver.
Qed.
Lemma has_comm a b : has a b = has b a.
Proof. unfold has. by rewrite Z.land_comm. Qed.
Lemma has_stop s : 1 ≤ s → has (signal_bit s) JOB_CONTROL_STOP_SIGNALS = is_stop s.
Proof. intros Hs. rewrite has_comm, has_bit by done. apply in_stop_mask. Qed.
Lemma in_cancelled s x :
  1 ≤ s → in_mask (cancelled_by s) x =
  if s =? SIGNAL_CONT then is_stop x else is_stop s && (x =? SIGNAL_CONT).
Proof.
  intros Hs. unfold cancelled_by. destruct (s =? SIGNAL_CONT); [apply in_stop_mask|].
  rewrite has_stop by done. destruct (is_stop s); simpl; [|apply in_mask_0].
  rewrite in_signal_bit by (pose proof (named_range SIGNAL_CONT ltac:(unfold named_signals; set_solver)); lia).
  case_bool_decide; lia.
Qed.
Lemma in_unblockable s : in_mask unblockable s = (s =? SIGNAL_KILL) || (s =? SIGNAL_STOP).
Proof.
  unfold unblockable. rewrite in_mask_lor, !in_signal_bit.
  - apply eq_true_iff_eq. rewrite !orb_true_iff, !bool_decide_eq_true, !Z.eqb_eq. done.
  - pose proof (named_range SIGNAL_STOP ltac:(unfold named_signals, stop_signals; set_solver)). lia.
  - pose proof (named_range SIGNAL_KILL ltac:(unfold named_signals; set_solver)). lia.
Qed.
Lemma land_bit_zero s m : 1 ≤ s → Z.land (signal_bit s) m = 0 ↔ in_mask m s = false.
Proof.
  intros Hs. rewrite Z.land_comm, <- (has_bit m s) by done. unfold has.
  rewrite negb_false_iff, Z.eqb_eq. done.
Qed.
Lemma in_mask_range m s : is_u64 m → in_mask m s = true → 1 ≤ s ≤ 64.
Proof.
  intros Hm Hs. unfold in_mask in Hs. destruct (Z.lt_ge_cases (s - 1) 0) as [Hn|Hn].
  { rewrite Z.testbit_neg_r in Hs by done. done. }
  destruct (Z.lt_ge_cases (s - 1) 64) as [Hn'|Hn']; [lia|]. by rewrite u64_bit in Hs.
Qed.

(** 64-bit sets are closed under what the service does with them. *)
Lemma u64_subset m m' : is_u64 m → (∀ s, in_mask m' s = true → in_mask m s = true) → is_u64 m'.
Proof.
  intros Hm Hs. assert (∀ i, 64 ≤ i → Z.testbit m' i = false) as Hb.
  { intros i Hi. destruct (Z.testbit m' i) eqn:E; [|done].
    specialize (Hs (i + 1)). unfold in_mask in Hs. replace (i + 1 - 1) with i in Hs by lia.
    rewrite (u64_bit m i Hm Hi) in Hs. symmetry. by apply Hs. }
  assert (0 ≤ m') as H0. { apply Z.bits_iff_nonneg_ex. exists 64. intros i Hi. apply Hb. lia. }
  split; [done|]. unfold U64_MAX. destruct (decide (m' = 0)) as [->|Hne]; [lia|].
  apply Z.lt_le_pred. apply Z.log2_lt_pow2; [lia|]. destruct (Z.lt_ge_cases (Z.log2 m') 64) as [?|Hl]; [done|].
  pose proof (Z.bit_log2 m' ltac:(lia)). rewrite Hb in *; [done|lia].
Qed.
Lemma u64_without a b : is_u64 a → is_u64 (without a b).
Proof. intros Ha. eapply u64_subset; [done|]. intros s. rewrite in_mask_without. by destruct (in_mask a s). Qed.
Lemma u64_land a b : is_u64 a → is_u64 (Z.land a b).
Proof. intros Ha. eapply u64_subset; [done|]. intros s. rewrite in_mask_land. by destruct (in_mask a s). Qed.
Lemma u64_all s : 1 ≤ s ≤ 64 → in_mask U64_MAX s = true.
Proof.
  intros Hs. unfold in_mask. change U64_MAX with (Z.ones 64). apply Z.ones_spec_low. lia.
Qed.
Lemma u64_bound m : (∀ s, in_mask m s = true → 1 ≤ s ≤ 64) → is_u64 m.
Proof. intros Hm. apply (u64_subset U64_MAX); [done|]. intros s Hs. by apply u64_all, Hm. Qed.
Lemma u64_lor a b : is_u64 a → is_u64 b → is_u64 (Z.lor a b).
Proof.
  intros Ha Hb. apply u64_bound. intros s. rewrite in_mask_lor, orb_true_iff.
  intros [H|H]; [exact (in_mask_range a s Ha H)|exact (in_mask_range b s Hb H)].
Qed.
Lemma u64_signal_bit s : 1 ≤ s ≤ 64 → is_u64 (signal_bit s).
Proof. intros Hs. apply u64_bound. intros x. rewrite in_signal_bit, bool_decide_eq_true by lia. by intros ->. Qed.
Lemma u64_zero : is_u64 0.
Proof. done. Qed.
Lemma mask_zero m : (∀ s, in_mask m s = false) → m = 0.
Proof.
  intros Hm. apply Z.bits_inj_0. intros i. specialize (Hm (i + 1)). unfold in_mask in Hm.
  by replace (i + 1 - 1) with i in Hm by lia.
Qed.

(** ** Invariant *)

Record signals_ok (t : SignalTable) : Prop := mkSignalsOk {
  so_pending : ∀ p th, is_u64 (pending_of t p th);
  so_dispositions : ∀ p, is_u64 (ignored_of t p) ∧ is_u64 (caught_of t p);
  (** nothing is both ignored and caught; kill and stop are neither *)
  so_ignored_caught : ∀ p s, in_mask (ignored_of t p) s = true →
    in_mask (caught_of t p) s = false ∧ in_mask unblockable s = false;
  so_caught : ∀ p s, in_mask (caught_of t p) s = true → in_mask unblockable s = false;
  so_no_zero : ∀ p, thread_pending_signals t !! (p, 0) = None;
  so_owner : ∀ k, is_Some (thread_pending_signals t !! k) → is_Some (signals t !! k.1);
  (** an origin is recorded exactly for what is pending *)
  so_origin : ∀ p th s, is_Some (signal_origins t !! (p, th, s)) ↔ pend t p th s = true;
  so_ignored : ∀ p th s, pend t p th s = true → in_mask (ignored_of t p) s = false;
  (** a pending continuation excludes stops, pending or under delivery *)
  so_job : ∀ p th th' s, pend t p th SIGNAL_CONT = true → is_stop s = true → pend t p th' s = false;
  so_job_delivery : ∀ p th k o, pend t p th SIGNAL_CONT = true → deliveries_of t p !! k = Some o →
    is_stop (o_signal o) = false;
  so_masks : ∀ k m, signal_masks t !! k = Some m →
    is_u64 m ∧ k.2 ≠ 0 ∧ ∀ s, in_mask m s = true → in_mask unblockable s = false;
  so_waits : ∀ p, is_Some (signals t !! p) ↔ is_Some (process_wait_states t !! p);
  so_options : ∀ p, is_Some (signals t !! p) → is_Some (signal_child_options t !! p);
  so_tokens : ∀ p k o, deliveries_of t p !! k = Some o → 1 ≤ k < next_signal_delivery_token t ∧ 1 ≤ o_signal o ≤ 64;
  so_token_owner : ∀ p q k, is_Some (deliveries_of t p !! k) → is_Some (deliveries_of t q !! k) → p = q;
  so_next : 1 ≤ next_signal_delivery_token t;
}.
Lemma ok_signals_new : signals_ok signals_new.
Proof.
  split; unfold pending_of, ignored_of, caught_of, deliveries_of, pend, pending_of, thread_pending; simpl;
    intros; rewrite ?lookup_empty in *; simpl in *; rewrite ?lookup_empty, ?in_mask_0 in *; try done;
    try (by match goal with H : is_Some None |- _ => destruct H end);
    repeat case_match; rewrite ?in_mask_0 in *; try done; split; try done; by intros [].
Qed.
Lemma pend_owner t p th s : signals_ok t → pend t p th s = true → is_Some (signals t !! p).
Proof.
  intros Hok. unfold pend, pending_of, thread_pending. destruct (th =? 0).
  - destruct (signals t !! p); [by eexists|]. simpl. by rewrite in_mask_0.
  - destruct (thread_pending_signals t !! (p, th)) eqn:E; simpl; [|by rewrite in_mask_0].
    intros _. by apply (so_owner _ Hok (p, th)).
Qed.

(** A table in which signals, deliveries and masks only go away. *)
Record shrinks (t t' : SignalTable) : Prop := mkShrinks {
  sh_pending : ∀ p th s, pend t' p th s = true → pend t p th s = true;
  sh_origins : ∀ p th s, is_Some (signal_origins t' !! (p, th, s)) ↔ pend t' p th s = true;
  sh_ignored : ∀ p, ignored_of t' p = ignored_of t p;
  sh_caught : ∀ p s, in_mask (caught_of t' p) s = true → in_mask (caught_of t p) s = true;
  sh_threads : ∀ k, is_Some (thread_pending_signals t' !! k) →
    is_Some (thread_pending_signals t !! k) ∨ k.2 ≠ 0 ∧ is_Some (signals t !! k.1);
  sh_signals : ∀ p, is_Some (signals t' !! p) ↔ is_Some (signals t !! p);
  sh_masks : ∀ k m, signal_masks t' !! k = Some m → signal_masks t !! k = Some m;
  sh_waits : ∀ p, is_Some (process_wait_states t' !! p) ↔ is_Some (process_wait_states t !! p);
  sh_options : ∀ p, is_Some (signal_child_options t !! p) → is_Some (signal_child_options t' !! p);
  sh_deliveries : ∀ p k o, deliveries_of t' p !! k = Some o → deliveries_of t p !! k = Some o;
  sh_next : next_signal_delivery_token t' = next_signal_delivery_token t;
}.
Lemma ok_shrinks t t' : signals_ok t → shrinks t t' → signals_ok t'.
Proof.
  intros [H1 H2 H3 H3' H4 H5 H6 H7 H8 H9 H10 H11 H12 H13 H14 H15] [S1 S2 S3 S4 S5 S6 S7 S8 S9 S10 S11].
  split; try setoid_rewrite S3; try setoid_rewrite S11; try done.
  - intros p th. eapply u64_subset; [apply (H1 p th)|]. apply S1.
  - intros p. destruct (H2 p). split; [done|]. eapply u64_subset; [done|]. apply S4.
  - intros p s Hs. destruct (H3 p s Hs) as [Hc ?]. split; [|done]. apply not_true_is_false.
    intros Hn%S4. congruence.
  - intros p s Hs%S4. by eapply H3'.
  - intros p. apply eq_None_not_Some. intros [Hs|[? _]]%S5; [|done]. rewrite H4 in Hs. by destruct Hs.
  - intros k [Hk|[_ Hk]]%S5; apply S6; [by apply H5|done].
  - intros p th s Hs%S1. by eapply H7.
  - intros p th th' s Hc%S1 Hs. apply not_true_is_false. intros Hn%S1. erewrite H8 in Hn; done.
  - intros p th k o Hc%S1 Ho%S10. by eapply H9.
  - intros k m Hm%S7. by apply H10.
  - intros p. by rewrite S6, S8.
  - intros p Hp%S6. by apply S9, H12.
  - intros p k o Ho%S10. by eapply H13.
  - intros p q k [o Ho%S10] [o' Ho'%S10]. eapply H14; by eexists.
Qed.
Lemma shrinks_refl t : signals_ok t → shrinks t t.
Proof. intros Hok. split; try done; [apply (so_origin _ Hok)|]. intros k. by left. Qed.

(** *** Generation *)

Lemma clear_threads_lookup p mask m k :
  clear_threads p mask m !! k = (λ v, if k.1 =? p then without v mask else v) <$> m !! k.
Proof. unfold clear_threads. rewrite map_lookup_imap. by destruct (m !! k). Qed.
Lemma without_0 m : without 0 m = 0.
Proof. apply Z.ldiff_0_l. Qed.
Lemma in_without_zero (b : bool) m mask s :
  in_mask (default 0 ((λ v, if b then without v mask else v) <$> m)) s =
  in_mask (default 0 m) s && negb (b && in_mask mask s).
Proof.
  destruct m as [v|]; simpl; [|by rewrite in_mask_0]. destruct b; simpl; [by rewrite in_mask_without|by rewrite andb_true_r].
Qed.
(** The state of [p] replaced by [s'], its threads and origins cleared of [mask]. *)
Definition cleared (p mask : Z) (s' : ProcessSignalState) (f : (Z * Z * Z) * Origin → Prop)
    `{!∀ x, Decision (f x)} (t : SignalTable) : SignalTable :=
  set_origins (set_thread_pending (put_signals t p s') (clear_threads p mask (thread_pending_signals t)))
    (filter f (signal_origins t)).
Lemma cleared_pend p mask s s' f `{!∀ x, Decision (f x)} t q th x :
  signals t !! p = Some s → (∀ x, in_mask (pending s') x = in_mask (pending s) x && negb (in_mask mask x)) →
  pend (cleared p mask s' f t) q th x = pend t q th x && negb ((q =? p) && in_mask mask x).
Proof.
  intros Hs Hp. unfold pend, pending_of, thread_pending, cleared. simpl. destruct (th =? 0).
  - rewrite lookup_insert. case_decide as E.
    + subst q. rewrite Hs, Z.eqb_refl. simpl. by rewrite Hp.
    + replace (q =? p) with false by lia. simpl. by rewrite andb_true_r.
  - rewrite clear_threads_lookup. simpl. apply in_without_zero.
Qed.
Lemma cleared_origins p mask s s' f `{!∀ x, Decision (f x)} t q th x :
  signals_ok t → signals t !! p = Some s →
  (∀ x, in_mask (pending s') x = in_mask (pending s) x && negb (in_mask mask x)) →
  (∀ q th x o, 1 ≤ x ≤ 64 → f ((q, th, x), o) ↔ negb ((q =? p) && in_mask mask x) = true) →
  is_Some (signal_origins (cleared p mask s' f t) !! (q, th, x)) ↔ pend (cleared p mask s' f t) q th x = true.
Proof.
  intros Hok Hs Hp Hf. erewrite cleared_pend by done. simpl. rewrite andb_true_iff, <- (so_origin _ Hok). split.
  - intros [o [Ho Hfo]%map_lookup_filter_Some]. split; [by eexists|].
    assert (pend t q th x = true) as Hx by (apply (so_origin _ Hok); by eexists).
    apply (Hf q th x o); [|done]. eapply in_mask_range; [apply (so_pending _ Hok q th)|done].
  - intros [[o Ho] Hfo]. exists o. apply map_lookup_filter_Some. split; [done|].
    assert (pend t q th x = true) as Hx by (apply (so_origin _ Hok); by eexists).
    apply Hf; [|done]. eapply in_mask_range; [apply (so_pending _ Hok q th)|done].
Qed.
Lemma cleared_shrinks p mask s s' f `{!∀ x, Decision (f x)} t :
  signals_ok t → signals t !! p = Some s →
  (∀ x, in_mask (pending s') x = in_mask (pending s) x && negb (in_mask mask x)) →
  ignored s' = ignored s → caught s' = caught s →
  (∀ q th x o, 1 ≤ x ≤ 64 → f ((q, th, x), o) ↔ negb ((q =? p) && in_mask mask x) = true) →
  shrinks t (cleared p mask s' f t).
Proof.
  intros Hok Hs Hp Hi Hc Hf. split; try done.
  - intros q th x. erewrite cleared_pend by done. by intros [? _]%andb_true_iff.
  - intros q th x. by eapply cleared_origins.
  - intros q. unfold ignored_of, cleared. simpl. rewrite lookup_insert. case_decide; [subst; by rewrite Hs; simpl; rewrite Hi|done].
  - intros q x. unfold caught_of, cleared. simpl. rewrite lookup_insert. case_decide; [subst; by rewrite Hs; simpl; rewrite Hc|done].
  - intros k. simpl. rewrite clear_threads_lookup. intros [v Hv]. left. apply fmap_Some in Hv as (v0 & -> & _). by eexists.
  - intros q. simpl. rewrite lookup_insert. case_decide; [subst; rewrite Hs; split; by eexists|done].
Qed.

(** Wait states, notifications, timers and resumptions may change freely,
    as long as deliveries only go away. *)
Lemma shrinks_frame t1 t2 t3 :
  shrinks t1 t2 → signals t3 = signals t2 → thread_pending_signals t3 = thread_pending_signals t2 →
  signal_origins t3 = signal_origins t2 → signal_masks t3 = signal_masks t2 →
  (∀ p, is_Some (signal_child_options t2 !! p) → is_Some (signal_child_options t3 !! p)) →
  (∀ p, is_Some (process_wait_states t3 !! p) ↔ is_Some (process_wait_states t2 !! p)) →
  (∀ p k o, deliveries_of t3 p !! k = Some o → deliveries_of t2 p !! k = Some o) →
  next_signal_delivery_token t3 = next_signal_delivery_token t2 → shrinks t1 t3.
Proof.
  intros [S1 S2 S3 S4 S5 S6 S7 S8 S9 S10 S11] E1 E2 E3 E4 Eo Ew Ed En.
  assert (∀ p th s, pend t3 p th s = pend t2 p th s) as Hp.
  { intros p th s. unfold pend, pending_of, thread_pending. by rewrite E1, E2. }
  split; unfold ignored_of, caught_of; rewrite ?E1, ?E2, ?E3, ?E4, ?En; try done.
  - intros p th s. rewrite Hp. apply S1.
  - intros p th s. rewrite Hp. apply S2.
  - intros p. by rewrite Ew.
  - intros p Hs. by apply Eo, S9.
  - intros p k o Ho. by apply S10, Ed.
Qed.
Lemma deliveries_put t p w w0 q :
  process_wait_states t !! p = Some w0 →
  deliveries_of (put_wait t p w) q = if q =? p then deliveries w else deliveries_of t q.
Proof.
  intros Hw. unfold deliveries_of. simpl. rewrite lookup_insert. case_decide.
  - subst. by rewrite Z.eqb_refl.
  - by replace (q =? p) with false by lia.
Qed.
Lemma waits_put t p w w0 q :
  process_wait_states t !! p = Some w0 →
  is_Some (process_wait_states (put_wait t p w) !! q) ↔ is_Some (process_wait_states t !! q).
Proof. intros Hw. simpl. rewrite lookup_insert. case_decide; [subst; rewrite Hw; split; by eexists|done]. Qed.
Lemma cancel_stops_deliveries w k o :
  deliveries (cancel_stop_deliveries w) !! k = Some o →
  deliveries w !! k = Some o ∧ (1 ≤ o_signal o → is_stop (o_signal o) = false).
Proof.
  simpl. intros [Ho Hf]%map_lookup_filter_Some. simpl in Hf. split; [done|]. intros Hr.
  apply land_bit_zero in Hf; [|done]. by rewrite in_stop_mask in Hf.
Qed.
(** What generation of [signal] for [p] leaves of the table. *)
Record prepared (p signal : Z) (t t' : SignalTable) : Prop := mkPrepared {
  pr_shrinks : shrinks t t';
  pr_pend : ∀ q th x, pend t' q th x = pend t q th x && negb ((q =? p) && in_mask (cancelled_by signal) x);
  pr_stops : signal = SIGNAL_CONT → ∀ k o, deliveries_of t' p !! k = Some o → is_stop (o_signal o) = false;
  pr_origins : ∀ k o, signal_origins t' !! k = Some o → signal_origins t !! k = Some o;
  pr_masks : signal_masks t' = signal_masks t ∧ signal_delivery_epochs t' = signal_delivery_epochs t;
  pr_others : ∀ q, q ≠ p → signals t' !! q = signals t !! q ∧ process_wait_states t' !! q = process_wait_states t !! q;
  pr_notified : signal_notifications t' = signal_notifications t ∧
    thread_signal_notifications t' = thread_signal_notifications t;
}.
Definition keeps_origin (p mask : Z) (x : (Z * Z * Z) * Origin) : Prop :=
  x.1.1.1 ≠ p ∨ Z.land (signal_bit x.1.2) mask = 0.
#[local] Instance keeps_origin_dec p mask x : Decision (keeps_origin p mask x).
Proof. unfold keeps_origin. apply _. Defined.
(** The table after the cancellations, with the wait state [w] of [p]. *)
Definition generating (p signal : Z) (s : ProcessSignalState) (w : ProcessWaitState) (rs : gset Z)
    (t : SignalTable) : SignalTable :=
  let c := cancelled_by signal in
  set_resumes
    (put_wait (set_timers (cleared p c (set_pending_mask s (without (pending s) c)) (keeps_origin p c) t)
                 (discard_signals p c (process_timers t))) p w) rs.
Lemma generating_prepared p signal t s w w' rs :
  signals_ok t → signals t !! p = Some s → process_wait_states t !! p = Some w →
  (∀ k o, deliveries w' !! k = Some o → deliveries w !! k = Some o) →
  (signal = SIGNAL_CONT → ∀ k o, deliveries w' !! k = Some o → is_stop (o_signal o) = false) →
  prepared p signal t (generating p signal s w' rs t).
Proof.
  intros Hok Hs Hw Hsub Hst. set (c := cancelled_by signal).
  set (s' := set_pending_mask s (without (pending s) c)).
  assert (∀ x, in_mask (pending s') x = in_mask (pending s) x && negb (in_mask c x)) as Hp'
    by (intros x; apply in_mask_without).
  assert (∀ q, deliveries_of (generating p signal s w' rs t) q = if q =? p then deliveries w' else deliveries_of t q)
    as Hd by (intros q; by apply (deliveries_put t p w' w)).
  split; try done.
  - apply (shrinks_frame _ (cleared p c s' (keeps_origin p c) t)); try done.
    + eapply cleared_shrinks; [done|done|done|done|done|]. intros q th x o Hx. unfold keeps_origin. simpl.
      rewrite land_bit_zero by lia. rewrite negb_true_iff, andb_false_iff, Z.eqb_neq. done.
    + intros q. by apply (waits_put t p w' w).
    + intros q k o. rewrite Hd. destruct (q =? p) eqn:E; [|done]. apply Z.eqb_eq in E as ->.
      intros Ho%Hsub. change (deliveries_of t p !! k = Some o). unfold deliveries_of. by rewrite Hw.
  - intros q th x. by apply (cleared_pend p c s s' (keeps_origin p c) t q th x).
  - intros E k o. rewrite Hd, Z.eqb_refl. by apply Hst.
  - intros k o Ho. simpl in Ho. by apply map_lookup_filter_Some in Ho as [? _].
  - intros q Hq. simpl. by rewrite !lookup_insert_ne.
Qed.
Lemma prepare_spec p signal t :
  signals_ok t → 1 ≤ signal ≤ 64 → is_Some (signals t !! p) →
  ∃ t', prepare_signal_generation p signal t = (t', Ok tt) ∧ prepared p signal t t' ∧ is_Some (signals t' !! p).
Proof.
  intros Hok Hr [s Hs]. destruct (proj1 (so_waits _ Hok p) ltac:(by eexists)) as [w Hw].
  enough (∃ w' rs, prepare_signal_generation p signal t = (generating p signal s w' rs t, Ok tt) ∧
    (∀ k o, deliveries w' !! k = Some o → deliveries w !! k = Some o) ∧
    (signal = SIGNAL_CONT → ∀ k o, deliveries w' !! k = Some o → is_stop (o_signal o) = false))
    as (w' & rs & E & Hsub & Hst).
  { eexists. split; [exact E|]. split; [by eapply generating_prepared|]. simpl. rewrite lookup_insert_eq. by eexists. }
  assert (∀ k o, deliveries w !! k = Some o → 1 ≤ o_signal o) as Htok.
  { intros k o Ho. apply (so_tokens _ Hok p k o). unfold deliveries_of. by rewrite Hw. }
  unfold prepare_signal_generation. rewrite Hs.
  assert (∀ x, process_wait_states x = process_wait_states t → process_wait_states x !! p = Some w) as Hwx
    by (intros x ->; done).
  destruct (signal =? SIGNAL_CONT) eqn:Ec; [|destruct (signal =? SIGNAL_KILL) eqn:Ek].
  - rewrite Hwx, orb_true_r by done. eexists _, _. split; [done|].
    split; intros; by apply cancel_stops_deliveries in H as [??] || (apply cancel_stops_deliveries in H0 as [? H1]; eauto).
  - rewrite Hwx by done. eexists _, _. split; [done|]. split; [|lia]. intros k o Ho.
    by apply cancel_stops_deliveries in Ho as [? _].
  - exists w, (process_resume_notifications t). split; [|split; [done|lia]]. simpl. unfold generating, put_wait. simpl.
    f_equal. rewrite insert_id by done. done.
Qed.

(** One more pending signal. *)
Record grows (p th signal : Z) (t t' : SignalTable) : Prop := mkGrows {
  gr_pend : ∀ q th' x, pend t' q th' x = pend t q th' x || ((q =? p) && (th' =? th) && (x =? signal));
  gr_origins : ∀ q th' x, is_Some (signal_origins t' !! (q, th', x)) ↔ pend t' q th' x = true;
  gr_ignored : ∀ q, ignored_of t' q = ignored_of t q ∧ caught_of t' q = caught_of t q;
  gr_threads : ∀ k, is_Some (thread_pending_signals t' !! k) →
    is_Some (thread_pending_signals t !! k) ∨ k = (p, th) ∧ th ≠ 0;
  gr_signals : ∀ q, is_Some (signals t' !! q) ↔ is_Some (signals t !! q);
  gr_rest : signal_masks t' = signal_masks t ∧ process_wait_states t' = process_wait_states t ∧
    signal_child_options t' = signal_child_options t ∧ next_signal_delivery_token t' = next_signal_delivery_token t;
}.
Lemma ok_grows p th signal t t' :
  signals_ok t → grows p th signal t t' → 1 ≤ signal ≤ 64 → is_Some (signals t !! p) →
  in_mask (ignored_of t p) signal = false →
  (signal = SIGNAL_CONT → (∀ th' s, is_stop s = true → pend t p th' s = false) ∧
     ∀ k o, deliveries_of t p !! k = Some o → is_stop (o_signal o) = false) →
  (is_stop signal = true → ∀ th', pend t p th' SIGNAL_CONT = false) →
  signals_ok t'.
Proof.
  intros [H1 H2 H3 H3' H4 H5 H6 H7 H8 H9 H10 H11 H12 H13 H14 H15] [G1 G2 G3 G4 G5 (G6 & G7 & G8 & G9)] Hr Hp Hi Hc Hst.
  assert (∀ q, ignored_of t' q = ignored_of t q) as Gi by (intros q; apply G3).
  assert (∀ q, caught_of t' q = caught_of t q) as Gc by (intros q; apply G3).
  assert (∀ q, deliveries_of t' q = deliveries_of t q) as Gd by (intros q; unfold deliveries_of; by rewrite G7).
  assert (∀ q th' x, pend t' q th' x = true → pend t q th' x = true ∨ q = p ∧ th' = th ∧ x = signal) as Hcase.
  { intros q th' x. rewrite G1, orb_true_iff, !andb_true_iff, !Z.eqb_eq. naive_solver. }
  split; try setoid_rewrite Gi; try setoid_rewrite Gc; try setoid_rewrite Gd; rewrite ?G6, ?G7, ?G8, ?G9; try done.
  - intros q th'. apply u64_bound. intros x [Hx|(_ & _ & ->)]%Hcase; [|done]. by eapply in_mask_range.
  - intros q. apply eq_None_not_Some. intros [Hs|[[= _ E] ?]]%G4; [|done]. rewrite H4 in Hs. by destruct Hs.
  - intros k [Hk|[-> _]]%G4; apply G5; [by apply H5|done].
  - intros q th' x [Hx|(-> & -> & ->)]%Hcase; [by eapply H7|done].
  - intros q th1 th2 x [Hx|(-> & -> & Ex)]%Hcase Hs; apply not_true_is_false; intros [Hy|(Eq & Et & Ey)]%Hcase.
    + erewrite H8 in Hy; done.
    + subst. by rewrite (Hst Hs) in Hx.
    + destruct (Hc (eq_sym Ex)) as [Hc' _]. by rewrite Hc' in Hy.
    + subst x. rewrite <- Ex, cont_not_stop in Hs. done.
  - intros q th' k o [Hx|(-> & -> & Ex)]%Hcase Ho; [by eapply H9|]. by eapply Hc.
  - intros q. rewrite G5. apply H11.
  - intros q. rewrite G5. apply H12.
Qed.
(** The cancellations make room for the signal. *)
Lemma prepared_room p signal t t' :
  signals_ok t → prepared p signal t t' → 1 ≤ signal ≤ 64 →
  (signal = SIGNAL_CONT → (∀ th' s, is_stop s = true → pend t' p th' s = false) ∧
     ∀ k o, deliveries_of t' p !! k = Some o → is_stop (o_signal o) = false) ∧
  (is_stop signal = true → ∀ th', pend t' p th' SIGNAL_CONT = false).
Proof.
  intros Hok [P1 P2 P3 P4 P5 P6 P7] Hr. split.
  - intros ->. split; [|by apply P3]. intros th' s Hs. rewrite P2, Z.eqb_refl, in_cancelled, Z.eqb_refl, Hs by lia.
    apply andb_false_r.
  - intros Hs th'. rewrite P2, Z.eqb_refl, in_cancelled, Hs, Z.eqb_refl by lia. destruct (signal =? SIGNAL_CONT) eqn:E.
    + apply Z.eqb_eq in E. subst. by rewrite cont_not_stop in Hs.
    + apply andb_false_r.
Qed.
Lemma signal_bit_inj a b : 1 ≤ a → 1 ≤ b → signal_bit a = signal_bit b → a = b.
Proof.
  intros Ha Hb E. pose proof (in_signal_bit a b Ha) as H1. rewrite E, in_signal_bit in H1 by done.
  rewrite (bool_decide_eq_true_2 (b = b)) in H1 by done. symmetry in H1. by apply bool_decide_eq_true in H1.
Qed.
Lemma enqueue_pending s signal :
  1 ≤ signal ≤ 64 → (∀ x, in_mask (cancelled_by signal) x = true → in_mask (pending s) x = false) →
  ∀ x, in_mask (pending (enqueue s signal)) x =
    in_mask (pending s) x || (negb (in_mask (ignored s) signal) && (x =? signal)).
Proof.
  intros Hr Hc x. unfold enqueue. simpl. rewrite has_bit by lia.
  assert (∀ m, in_mask (without (pending s) m) x = in_mask (pending s) x ∨ ∃ y, in_mask m y = true ∧ in_mask (cancelled_by signal) y = false) as Hw.
  { intros m. rewrite in_mask_without. destruct (in_mask m x) eqn:E; [|left; apply andb_true_r].
    destruct (in_mask (cancelled_by signal) x) eqn:Ec; [left; by rewrite (Hc x Ec)|right; by exists x]. }
  assert (∀ p, in_mask p x = in_mask (pending s) x →
    in_mask (if in_mask (ignored s) signal then p else Z.lor p (signal_bit signal)) x =
    in_mask (pending s) x || negb (in_mask (ignored s) signal) && (x =? signal)) as Hfin.
  { intros p Hp. destruct (in_mask (ignored s) signal); simpl; [by rewrite orb_false_r|].
    rewrite in_mask_lor, Hp, in_signal_bit by lia. f_equal. by case_bool_decide; lia. }
  apply Hfin.
  destruct (signal_bit signal =? signal_bit SIGNAL_CONT) eqn:E.
  - assert (signal = SIGNAL_CONT) as ->.
    { apply Z.eqb_eq in E. apply signal_bit_inj; [lia| |done].
      pose proof (named_range SIGNAL_CONT ltac:(unfold named_signals; set_solver)). lia. }
    destruct (Hw JOB_CONTROL_STOP_SIGNALS) as [?|(y & Hy & Hn)]; [done|].
    rewrite in_cancelled, Z.eqb_refl in Hn by lia. rewrite in_stop_mask in Hy. congruence.
  - rewrite has_stop by lia. destruct (is_stop signal) eqn:Es; [|done].
    destruct (Hw (signal_bit SIGNAL_CONT)) as [?|(y & Hy & Hn)]; [done|].
    pose proof (named_range SIGNAL_CONT ltac:(unfold named_signals; set_solver)).
    rewrite in_signal_bit in Hy by lia. apply bool_decide_eq_true in Hy as ->.
    rewrite in_cancelled, Es, Z.eqb_refl in Hn by lia. destruct (signal =? SIGNAL_CONT) eqn:Ec; [|done].
    apply Z.eqb_eq in Ec as ->. by rewrite cont_not_stop in Es.
Qed.
Lemma pend_process t p s x : signals t !! p = Some s → pend t p 0 x = in_mask (pending s) x.
Proof. intros Hs. unfold pend, pending_of. simpl. by rewrite Hs. Qed.
(** The state of [p] replaced by one with the same dispositions. *)
Lemma pend_put t p s' q th x :
  pend (put_signals t p s') q th x =
  if (q =? p) && (th =? 0) then in_mask (pending s') x else pend t q th x.
Proof.
  unfold pend, pending_of, thread_pending. simpl. destruct (th =? 0); [|by rewrite andb_false_r].
  rewrite lookup_insert, andb_true_r. case_decide; [subst; by rewrite Z.eqb_refl|].
  by replace (q =? p) with false by lia.
Qed.
Lemma dispositions_put t p s s' q :
  signals t !! p = Some s → ignored s' = ignored s → caught s' = caught s →
  ignored_of (put_signals t p s') q = ignored_of t q ∧ caught_of (put_signals t p s') q = caught_of t q.
Proof.
  intros Hs Hi Hc. unfold ignored_of, caught_of. simpl. rewrite lookup_insert. case_decide; [|done].
  subst. by rewrite Hs; simpl; rewrite Hi, Hc.
Qed.
Lemma signals_put t p s s' q :
  signals t !! p = Some s → is_Some (signals (put_signals t p s') !! q) ↔ is_Some (signals t !! q).
Proof. intros Hs. simpl. rewrite lookup_insert. case_decide; [subst; rewrite Hs; split; by eexists|done]. Qed.

(** What generation of [signal] for the process [p] does. *)
Record enqueued (p signal : Z) (origin : Origin) (t t' : SignalTable) : Prop := mkEnqueued {
  en_ok : signals_ok t';
  en_pend : ∀ q th x, pend t' q th x =
    (pend t q th x && negb ((q =? p) && in_mask (cancelled_by signal) x)) ||
    ((q =? p) && (th =? 0) && (x =? signal) && negb (in_mask (ignored_of t p) signal));
  en_dispositions : ∀ q, ignored_of t' q = ignored_of t q ∧ caught_of t' q = caught_of t q;
  en_origin : ∀ k o, signal_origins t' !! k = Some o → signal_origins t !! k = Some o ∨
    k = (p, 0, signal) ∧ o = origin ∧ pend t p 0 signal = false;
  en_notified : pend t' p 0 signal = true → p ∈ signal_notifications t';
  en_others : ∀ q, q ≠ p → signals t' !! q = signals t !! q ∧ process_wait_states t' !! q = process_wait_states t !! q;
  en_domain : ∀ q, is_Some (signals t' !! q) ↔ is_Some (signals t !! q);
  en_masks : signal_masks t' = signal_masks t;
}.
Lemma enqueue_grows p signal origin t s :
  signals_ok t → 1 ≤ signal ≤ 64 → signals t !! p = Some s →
  (∀ x, in_mask (cancelled_by signal) x = true → in_mask (pending s) x = false) →
  in_mask (ignored s) signal = false →
  grows p 0 signal t
    (let t := put_signals t p (enqueue s signal) in
     if has (pending s) (signal_bit signal) then t
     else set_origins t (<[(p, 0, signal) := origin]> (signal_origins t))).
Proof.
  intros Hok Hr Hs Hc Hi. pose proof (enqueue_pending s signal Hr Hc) as He. rewrite Hi in He. simpl in He.
  rewrite has_bit by lia.
  assert (∀ q th x, pend (put_signals t p (enqueue s signal)) q th x =
    pend t q th x || ((q =? p) && (th =? 0) && (x =? signal))) as Hp.
  { intros q th x. rewrite pend_put. destruct (q =? p) eqn:Eq, (th =? 0) eqn:Et; simpl; rewrite ?orb_false_r; try done.
    apply Z.eqb_eq in Eq, Et. subst. by rewrite He, (pend_process _ _ _ _ Hs). }
  cbv zeta. destruct (in_mask (pending s) signal) eqn:E.
  - split; [apply Hp| | | | |done].
    + intros q th x. simpl. rewrite Hp, orb_true_iff, !andb_true_iff, !Z.eqb_eq, (so_origin _ Hok). split; [by left|].
      intros [?|((-> & ->) & ->)]; [done|]. by rewrite (pend_process _ _ _ _ Hs).
    + intros q. by eapply dispositions_put.
    + intros k. by left.
    + intros q. by eapply signals_put.
  - split; [apply Hp| | | | |done].
    + intros q th x. change (pend _ q th x) with (pend (put_signals t p (enqueue s signal)) q th x).
      rewrite Hp, orb_true_iff, !andb_true_iff, !Z.eqb_eq, <- (so_origin _ Hok). simpl. rewrite lookup_insert.
      case_decide as Ek; [injection Ek as <- <- <-; split; [by right|by eexists]|]. split; [by left|].
      intros [?|((-> & ->) & ->)]; [done|by destruct Ek].
    + intros q. by apply (dispositions_put t p s (enqueue s signal)).
    + intros k. by left.
    + intros q. by apply (signals_put t p s (enqueue s signal)).
Qed.
(** The invariant does not look at notifications, epochs and timers. *)
Lemma ok_same t t' :
  signals_ok t → signals t' = signals t → thread_pending_signals t' = thread_pending_signals t →
  signal_origins t' = signal_origins t → signal_masks t' = signal_masks t →
  (∀ p, is_Some (signal_child_options t !! p) → is_Some (signal_child_options t' !! p)) →
  (∀ p, is_Some (process_wait_states t' !! p) ↔ is_Some (process_wait_states t !! p)) →
  (∀ p k o, deliveries_of t' p !! k = Some o → deliveries_of t p !! k = Some o) →
  next_signal_delivery_token t' = next_signal_delivery_token t → signals_ok t'.
Proof. intros Hok E1 E2 E3 E4 E5 E6 E7 E8. eapply ok_shrinks; [done|]. apply (shrinks_frame t t); try done. by apply shrinks_refl. Qed.
Lemma prepared_ignored p signal t t' q : prepared p signal t t' → ignored_of t' q = ignored_of t q.
Proof. intros Hp. apply (sh_ignored _ _ (pr_shrinks _ _ _ _ Hp)). Qed.
Lemma prepared_clear p signal t t' th x :
  prepared p signal t t' → in_mask (cancelled_by signal) x = true → pend t' p th x = false.
Proof. intros Hp Hx. by rewrite (pr_pend _ _ _ _ Hp), Z.eqb_refl, Hx, andb_false_r. Qed.
Lemma prepared_own p signal t t' th :
  prepared p signal t t' → 1 ≤ signal → pend t' p th signal = pend t p th signal.
Proof.
  intros Hp Hr. rewrite (pr_pend _ _ _ _ Hp), Z.eqb_refl, in_cancelled by done. destruct (signal =? SIGNAL_CONT) eqn:Ec.
  - apply Z.eqb_eq in Ec as ->. by rewrite cont_not_stop, andb_true_r.
  - by rewrite !andb_false_r, andb_true_r.
Qed.
(** Generation seen as the cancellations followed by [t1] to [t']. *)
Lemma enqueued_intro p signal origin t t1 t' :
  prepared p signal t t1 → 1 ≤ signal → signals_ok t' →
  (∀ q th x, pend t' q th x =
     pend t1 q th x || ((q =? p) && (th =? 0) && (x =? signal) && negb (in_mask (ignored_of t p) signal))) →
  (∀ q, ignored_of t' q = ignored_of t1 q ∧ caught_of t' q = caught_of t1 q) →
  (∀ q, caught_of t1 q = caught_of t q) →
  (∀ k o, signal_origins t' !! k = Some o → signal_origins t1 !! k = Some o ∨
    k = (p, 0, signal) ∧ o = origin ∧ pend t1 p 0 signal = false) →
  (pend t' p 0 signal = true → p ∈ signal_notifications t') →
  (∀ q, q ≠ p → signals t' !! q = signals t1 !! q) → process_wait_states t' = process_wait_states t1 →
  (∀ q, is_Some (signals t' !! q) ↔ is_Some (signals t1 !! q)) → signal_masks t' = signal_masks t1 →
  enqueued p signal origin t t'.
Proof.
  intros Hp Hr Hok H1 H2 H2' H3 H4 H5 H6 H7 H8. pose proof (prepared_own p signal t t1 0 Hp Hr) as Hown.
  destruct Hp as [P1 P2 P3 P4 P5 P6 P7]. split; try done.
  - intros q th x. by rewrite H1, P2.
  - intros q. destruct (H2 q) as [-> ->]. split; [apply (sh_ignored _ _ P1)|apply H2'].
  - intros k o [Ho|(-> & -> & Hn)]%H3; [left; by apply P4|right]. by rewrite <- Hown.
  - intros q Hq. rewrite H5, H6 by done. by apply P6.
  - intros q. rewrite H7. apply (sh_signals _ _ P1).
  - rewrite H8. apply P5.
Qed.
Lemma enqueue_caught p signal t t1 q : prepare_signal_generation p signal t = (t1, Ok tt) → caught_of t1 q = caught_of t q.
Proof.
  unfold prepare_signal_generation. destruct (signals t !! p) as [s|] eqn:Hs; [|done]. intros E.
  assert (signals t1 = <[p := set_pending_mask s (without (pending s) (cancelled_by signal))]> (signals t)) as E1.
  { repeat case_match; simplify_eq/=; done. }
  unfold caught_of. rewrite E1, lookup_insert. case_decide; [subst; by rewrite Hs|done].
Qed.
(** An ignored signal only cancels. *)
Lemma enqueue_ignored p signal origin t t1 s n :
  signals_ok t1 → prepared p signal t t1 → (∀ q, caught_of t1 q = caught_of t q) → signals t1 !! p = Some s →
  1 ≤ signal ≤ 64 → in_mask (ignored s) signal = true →
  (∀ x, in_mask (cancelled_by signal) x = true → in_mask (pending s) x = false) →
  enqueued p signal origin t (set_notifications (put_signals t1 p (enqueue s signal)) n).
Proof.
  intros Hok Hp Hcau Hs Hr Hig Hc. pose proof (enqueue_pending s signal Hr Hc) as He. rewrite Hig in He. simpl in He.
  assert (ignored_of t1 p = ignored s) as Hi1 by (unfold ignored_of; by rewrite Hs).
  assert (ignored_of t p = ignored s) as Hi by (by rewrite <- (prepared_ignored p signal t t1)).
  assert (∀ q th x, pend (put_signals t1 p (enqueue s signal)) q th x = pend t1 q th x) as Hpp.
  { intros q th x. rewrite pend_put. destruct (q =? p) eqn:Eq, (th =? 0) eqn:Et; simpl; try done.
    apply Z.eqb_eq in Eq, Et. subst. by rewrite He, orb_false_r, (pend_process _ _ _ _ Hs). }
  pose proof (λ q, dispositions_put t1 p s (enqueue s signal) q Hs eq_refl eq_refl) as Hd.
  pose proof (λ q, signals_put t1 p s (enqueue s signal) q Hs) as Hdom.
  set (t2 := put_signals t1 p (enqueue s signal)) in *.
  apply (enqueued_intro p signal origin t t1); try done; [lia| | | | |].
  - apply (ok_shrinks t1); [done|]. split; try done.
    + intros q th x. change (pend (set_notifications t2 n) q th x) with (pend t2 q th x). by rewrite Hpp.
    + intros q th x. change (pend (set_notifications t2 n) q th x) with (pend t2 q th x). rewrite Hpp.
      apply (so_origin _ Hok).
    + intros q. apply Hd.
    + intros q x. change (caught_of (set_notifications t2 n) q) with (caught_of t2 q). by rewrite (proj2 (Hd q)).
    + intros k. by left.
  - intros q th x. change (pend (set_notifications t2 n) q th x) with (pend t2 q th x).
    by rewrite Hpp, Hi, Hig, andb_false_r, orb_false_r.
  - by left.
  - intros Hpd. change (pend t2 p 0 signal = true) in Hpd. rewrite Hpp in Hpd.
    apply (so_ignored _ Hok) in Hpd. congruence.
  - intros q Hq. simpl. by rewrite lookup_insert_ne.
Qed.
(** Any other one is pending afterwards, with the origin of its first occurrence. *)
Lemma enqueue_new p signal origin t t1 s :
  signals_ok t → signals_ok t1 → prepared p signal t t1 → (∀ q, caught_of t1 q = caught_of t q) →
  signals t1 !! p = Some s → 1 ≤ signal ≤ 64 → in_mask (ignored s) signal = false →
  (∀ x, in_mask (cancelled_by signal) x = true → in_mask (pending s) x = false) →
  let t2 := if has (pending s) (signal_bit signal) then put_signals t1 p (enqueue s signal)
            else set_origins (put_signals t1 p (enqueue s signal))
                   (<[(p, 0, signal) := origin]> (signal_origins (put_signals t1 p (enqueue s signal)))) in
  enqueued p signal origin t (set_notifications t2 ({[p]} ∪ signal_notifications t2)).
Proof.
  intros Hok0 Hok Hp Hcau Hs Hr Hig Hc. assert (ignored_of t1 p = ignored s) as Hi1 by (unfold ignored_of; by rewrite Hs).
  assert (ignored_of t p = ignored s) as Hi by (by rewrite <- (prepared_ignored p signal t t1)).
  destruct (prepared_room p signal t t1 Hok0 Hp Hr) as [R1 R2].
  pose proof (enqueue_grows p signal origin t1 s Hok Hr Hs Hc Hig) as Hg. cbv zeta in Hg |- *.
  set (t2 := if has (pending s) (signal_bit signal) then _ else _) in *.
  assert (signals_ok t2) as Hok2 by (eapply ok_grows; [done|done|done|by eexists|congruence|done|done]).
  destruct Hg as [G1 G2 G3 G4 G5 (G6 & G7 & G8 & G9)].
  apply (enqueued_intro p signal origin t t1); try done; [lia| | | | |].
  - by apply (ok_same t2).
  - intros q th x. change (pend (set_notifications t2 _) q th x) with (pend t2 q th x).
    by rewrite G1, Hi, Hig, andb_true_r.
  - intros k o Ho. change (signal_origins t2 !! k = Some o) in Ho. subst t2.
    rewrite has_bit in Ho by lia. destruct (in_mask (pending s) signal) eqn:Es1; [by left|].
    simpl in Ho. rewrite lookup_insert in Ho. case_decide as Ek; [|by left]. right. simplify_eq.
    by rewrite (pend_process _ _ _ _ Hs).
  - intros _. simpl. set_solver.
  - intros q Hq. subst t2. destruct (has _ _); simpl; by rewrite lookup_insert_ne.
Qed.
Lemma enqueue_spec p signal origin t :
  signals_ok t → 1 ≤ signal ≤ 64 → is_Some (signals t !! p) →
  ∃ t', enqueue_signal_with_origin p signal origin t = (t', Ok tt) ∧ enqueued p signal origin t t'.
Proof.
  intros Hok Hr Hs. destruct (prepare_spec p signal t Hok Hr Hs) as (t1 & E & Hp & [s1 Hs1]).
  pose proof (ok_shrinks _ _ Hok (pr_shrinks _ _ _ _ Hp)) as Hok1. pose proof (λ q, enqueue_caught p signal t t1 q E) as Hcau.
  unfold enqueue_signal_with_origin. rewrite E, Hs1.
  assert (∀ x, in_mask (cancelled_by signal) x = true → in_mask (pending s1) x = false) as Hc.
  { intros x Hx. rewrite <- (pend_process t1 p s1 x Hs1). by eapply prepared_clear. }
  pose proof (enqueue_pending s1 signal Hr Hc) as He. eexists. split; [reflexivity|].
  rewrite (has_bit (pending (enqueue _ _))), He, Z.eqb_refl, andb_true_r by lia.
  destruct (in_mask (ignored s1) signal) eqn:Eg.
  - assert (in_mask (pending s1) signal = false) as ->.
    { destruct (in_mask (pending s1) signal) eqn:En; [|done]. rewrite <- (pend_process t1 p s1 signal Hs1) in En.
      apply (so_ignored _ Hok1) in En. unfold ignored_of in En. rewrite Hs1 in En. simpl in En. congruence. }
    cbn [negb andb orb]. pose proof (λ n, enqueue_ignored p signal origin t t1 s1 n Hok1 Hp Hcau Hs1 Hr Eg Hc) as Hn.
    destruct (_ && _); [apply Hn|exact (Hn (signal_notifications t1))].
  - rewrite orb_true_r. by apply enqueue_new.
Qed.

(** *** Dispositions *)

(** [signal] of [p] is ignored, caught or neither, and is dropped if [drop]. *)
Record redisposed (p signal : Z) (ignore catch drop : bool) (t t' : SignalTable) : Prop := mkRedisposed {
  rd_pend : ∀ q th x, pend t' q th x = pend t q th x && negb (drop && (q =? p) && (x =? signal));
  rd_origins : ∀ q th x, is_Some (signal_origins t' !! (q, th, x)) ↔ pend t' q th x = true;
  rd_ignored : ∀ q x, in_mask (ignored_of t' q) x =
    if (q =? p) && (x =? signal) then ignore else in_mask (ignored_of t q) x;
  rd_caught : ∀ q x, in_mask (caught_of t' q) x =
    if (q =? p) && (x =? signal) then catch else in_mask (caught_of t q) x;
  rd_threads : ∀ k, is_Some (thread_pending_signals t' !! k) → is_Some (thread_pending_signals t !! k);
  rd_signals : ∀ q, is_Some (signals t' !! q) ↔ is_Some (signals t !! q);
  rd_rest : signal_masks t' = signal_masks t ∧ process_wait_states t' = process_wait_states t ∧
    signal_child_options t' = signal_child_options t ∧ next_signal_delivery_token t' = next_signal_delivery_token t;
}.
Lemma ok_redisposed p signal ignore catch drop t t' :
  signals_ok t → redisposed p signal ignore catch drop t t' → 1 ≤ signal ≤ 64 → in_mask unblockable signal = false →
  (ignore = true → drop = true ∧ catch = false) → signals_ok t'.
Proof.
  intros [H1 H2 H3 H3' H4 H5 H6 H7 H8 H9 H10 H11 H12 H13 H14 H15] [R1 R2 R3 R4 R5 R6 (R7 & R8 & R9 & R10)] Hr Hu Hd.
  assert (∀ q th x, pend t' q th x = true → pend t q th x = true) as Hsub
    by (intros q th x; rewrite R1; by intros [? _]%andb_true_iff).
  assert (∀ q, deliveries_of t' q = deliveries_of t q) as Gd by (intros q; unfold deliveries_of; by rewrite R8).
  assert (∀ q x, (q =? p) && (x =? signal) = true → 1 ≤ x ≤ 64) as Hx by (intros q x; rewrite andb_true_iff; lia).
  split; try setoid_rewrite Gd; rewrite ?R7, ?R8, ?R9, ?R10; try done.
  - intros q th. eapply u64_subset; [apply (H1 q th)|]. apply Hsub.
  - intros q. destruct (H2 q) as [Ha Hb]. split; apply u64_bound; intros x; [rewrite R3|rewrite R4];
      destruct (_ && _) eqn:E; intros Hx'; eauto using in_mask_range.
  - intros q x. rewrite R3, R4. destruct ((q =? p) && (x =? signal)) eqn:E; [|apply H3].
    intros [_ ->]%Hd. split; [done|]. apply andb_true_iff in E as [_ ->%Z.eqb_eq]. done.
  - intros q x. rewrite R4. destruct ((q =? p) && (x =? signal)) eqn:E; [|apply H3'].
    intros _. apply andb_true_iff in E as [_ ->%Z.eqb_eq]. done.
  - intros q. apply eq_None_not_Some. intros Hs%R5. rewrite H4 in Hs. by destruct Hs.
  - intros k Hk%R5. apply R6. by apply H5.
  - intros q th x. rewrite R1, R3. destruct ((q =? p) && (x =? signal)) eqn:E.
    + intros [_ Hn]%andb_true_iff. destruct ignore; [|done]. destruct (Hd eq_refl) as [-> _].
      rewrite <- andb_assoc, E in Hn. done.
    + intros [Hp _]%andb_true_iff. by eapply H7.
  - intros q th th' x Hc%Hsub Hs. apply not_true_is_false. intros Hn%Hsub. erewrite H8 in Hn; done.
  - intros q th k o Hc%Hsub Ho. by eapply H9.
  - intros q. rewrite R6. apply H11.
  - intros q Hq%R6. by apply H12.
Qed.

Lemma set_disposition_masks s signal kind x :
  1 ≤ signal →
  in_mask (ignored (set_disposition s signal kind)) x =
    (if x =? signal then kind =? SIGNAL_DISPOSITION_IGNORE else in_mask (ignored s) x) ∧
  in_mask (caught (set_disposition s signal kind)) x =
    (if x =? signal then negb (kind =? SIGNAL_DISPOSITION_IGNORE) && (kind =? SIGNAL_DISPOSITION_CAUGHT)
     else in_mask (caught s) x).
Proof.
  intros Hr. assert (bool_decide (x = signal) = (x =? signal)) as Eb by (case_bool_decide; lia). unfold set_disposition.
  destruct (kind =? SIGNAL_DISPOSITION_IGNORE), (kind =? SIGNAL_DISPOSITION_CAUGHT), (default_signal_ignores signal); simpl;
    rewrite ?in_mask_lor, ?in_mask_without, ?in_signal_bit, ?Eb by done;
    destruct (x =? signal); rewrite ?andb_false_r, ?andb_true_r, ?orb_false_r, ?orb_true_r; done.
Qed.
Lemma set_disposition_pending s signal kind x :
  1 ≤ signal → kind = SIGNAL_DISPOSITION_DEFAULT ∨ kind = SIGNAL_DISPOSITION_IGNORE ∨ kind = SIGNAL_DISPOSITION_CAUGHT →
  in_mask (pending (set_disposition s signal kind)) x =
  in_mask (pending s) x && negb (discards_pending signal kind && (x =? signal)).
Proof.
  intros Hr Hk. assert (bool_decide (x = signal) = (x =? signal)) as Eb by (case_bool_decide; lia).
  pose proof dispositions_distinct as Hd. rewrite !NoDup_cons in Hd. destruct Hd as (D1 & D2 & _).
  unfold set_disposition, discards_pending.
  destruct (kind =? SIGNAL_DISPOSITION_IGNORE) eqn:Ei; simpl.
  { by rewrite in_mask_without, in_signal_bit, Eb by done. }
  destruct (kind =? SIGNAL_DISPOSITION_CAUGHT) eqn:Ec; simpl.
  { assert ((kind =? SIGNAL_DISPOSITION_DEFAULT) = false) as -> by (apply Z.eqb_neq; apply Z.eqb_eq in Ec; set_solver).
    simpl. by rewrite andb_true_r. }
  assert ((kind =? SIGNAL_DISPOSITION_DEFAULT) = true) as -> by lia. simpl.
  destruct (default_signal_ignores signal); simpl; [|by rewrite andb_true_r].
  by rewrite in_mask_without, in_signal_bit, Eb by done.
Qed.

Definition other_signal (p signal : Z) (x : (Z * Z * Z) * Origin) : Prop := x.1.1.1 ≠ p ∨ x.1.2 ≠ signal.
#[local] Instance other_signal_dec p signal x : Decision (other_signal p signal x).
Proof. unfold other_signal. apply _. Defined.
Lemma disposition_redisposed p signal kind t s :
  signals_ok t → signals t !! p = Some s → 1 ≤ signal ≤ 64 →
  kind = SIGNAL_DISPOSITION_DEFAULT ∨ kind = SIGNAL_DISPOSITION_IGNORE ∨ kind = SIGNAL_DISPOSITION_CAUGHT →
  redisposed p signal (kind =? SIGNAL_DISPOSITION_IGNORE)
    (negb (kind =? SIGNAL_DISPOSITION_IGNORE) && (kind =? SIGNAL_DISPOSITION_CAUGHT)) (discards_pending signal kind) t
    (if discards_pending signal kind then discard_occurrences p signal (put_signals t p (set_disposition s signal kind))
     else put_signals t p (set_disposition s signal kind)).
Proof.
  intros Hok Hs Hr Hk. set (s' := set_disposition s signal kind).
  pose proof (set_disposition_pending s signal kind) as Hp. pose proof (set_disposition_masks s signal kind) as Hm. fold s' in Hp, Hm.
  assert (∀ t' q x, signals t' = <[p := s']> (signals t) →
    in_mask (ignored_of t' q) x = (if (q =? p) && (x =? signal) then kind =? SIGNAL_DISPOSITION_IGNORE
                                   else in_mask (ignored_of t q) x) ∧
    in_mask (caught_of t' q) x = (if (q =? p) && (x =? signal)
      then negb (kind =? SIGNAL_DISPOSITION_IGNORE) && (kind =? SIGNAL_DISPOSITION_CAUGHT)
      else in_mask (caught_of t q) x)) as Hdisp.
  { intros t' q x E. unfold ignored_of, caught_of. rewrite E, lookup_insert. case_decide as Eq.
    - subst q. rewrite Hs, Z.eqb_refl. simpl. apply Hm. lia.
    - by replace (q =? p) with false by lia. }
  assert (∀ q, is_Some (<[p := s']> (signals t) !! q) ↔ is_Some (signals t !! q)) as Hdom
    by (intros q; by apply (signals_put t p s s')).
  destruct (discards_pending signal kind) eqn:Ed.
  - assert (∀ x, in_mask (pending s') x = in_mask (pending s) x && negb (in_mask (signal_bit signal) x)) as Hp'.
    { intros x. rewrite Hp by (done || lia). rewrite in_signal_bit by lia. simpl. do 2 f_equal. case_bool_decide; lia. }
    assert (∀ q th x, pend (cleared p (signal_bit signal) s' (other_signal p signal) t) q th x =
      pend t q th x && negb ((q =? p) && (x =? signal))) as Hpend.
    { intros q th x. erewrite cleared_pend by done. rewrite in_signal_bit by lia. do 3 f_equal. case_bool_decide; lia. }
    split; try done; try (intros q x; by apply Hdisp).
    + intros q th x. apply (cleared_origins p (signal_bit signal) s s' (other_signal p signal) t q th x Hok Hs Hp').
      intros q' th' x' o _. unfold other_signal. simpl. rewrite in_signal_bit by lia.
      rewrite negb_true_iff, andb_false_iff, Z.eqb_neq, bool_decide_eq_false. done.
    + intros k. simpl. rewrite clear_threads_lookup. intros [v Hv]. apply fmap_Some in Hv as (v0 & -> & _). by eexists.
  - assert (∀ q th x, pend (put_signals t p s') q th x = pend t q th x) as Hpend.
    { intros q th x. rewrite pend_put. destruct (q =? p) eqn:Eq, (th =? 0) eqn:Et; simpl; try done.
      apply Z.eqb_eq in Eq, Et. subst q th. rewrite Hp by (done || lia). simpl. by rewrite andb_true_r, (pend_process _ _ _ _ Hs). }
    split; try done; try (intros q x; by apply Hdisp).
    + intros q th x. rewrite Hpend. simpl. by rewrite andb_true_r.
    + intros q th x. rewrite Hpend. apply (so_origin _ Hok).
Qed.
Context {SL : SignalCodecLaws}.

Lemma ok_discard_observed parents parent t :
  signals_ok t → signals_ok (discard_observed_child_status parents parent t).
Proof.
  intros Hok. apply (ok_same t); try done.
  - intros q. simpl. rewrite map_lookup_imap. destruct (process_wait_states t !! q); simpl; split; intros []; by eexists || done.
  - intros q k o. unfold deliveries_of. simpl. rewrite map_lookup_imap. destruct (process_wait_states t !! q) as [w|]; simpl; [|done].
    by destruct (_ && _).
Qed.
Lemma ok_child_options registered parents p payload t :
  signals_ok t → signals_ok (set_signal_child_options registered parents p payload t).1.
Proof.
  intros Hok. unfold set_signal_child_options. destruct (negb registered); [done|].
  destruct (decode_signal_child_options payload) as [options|]; [|done]. simpl.
  assert (signals_ok (set_child_options t (<[p := options]> (signal_child_options t)))) as Hok'.
  { apply (ok_same t); try done. intros q Hq. simpl. rewrite lookup_insert. by case_decide. }
  destruct (has _ _); [by apply ok_discard_observed|done].
Qed.
(** A disposition is changed only for a signal that is neither kill nor stop. *)
Lemma ok_disposition parents p flags payload t :
  signals_ok t → signals_ok (signal_disposition_payload parents p flags payload t).1.
Proof.
  intros Hok. unfold signal_disposition_payload.
  destruct (ok_or STATUS_EINVAL (decode_signal_disposition payload) ≫= _) as [[[[[signal kind] options] s] output]|e] eqn:E; [|done]. inv_result.
  rename select (negb _ = true) into Hg. destruct (flags =? SIGNAL_DISPOSITION_SET); simpl; [|done]. simpl in Hg.
  destruct (decode_disposition_range payload signal kind options ltac:(done)) as [Hr Hk].
  pose proof signal_max_bits as Hmax.
  assert (in_mask unblockable signal = false) as Hu.
  { rewrite in_unblockable. by apply negb_true_iff in Hg. }
  pose proof (disposition_redisposed p signal kind t s Hok ltac:(done) ltac:(lia) Hk) as Hrd.
  set (t1 := if discards_pending signal kind then _ else _) in *.
  assert (signals_ok t1) as Hok1.
  { eapply ok_redisposed; [done|done|lia|done|]. intros Hi. unfold discards_pending. by rewrite Hi. }
  assert (∀ n c, (∀ q, is_Some (signal_child_options t1 !! q) → is_Some (c !! q)) →
    signals_ok (set_child_options (set_notifications t1 n) c)) as Hok2 by (intros n c Hc; by apply (ok_same t1)).
  set (t2 := if _ && _ then _ else t1).
  assert (∃ n, t2 = set_notifications t1 n) as [n E2].
  { subst t2. destruct ((pending _ =? 0) && _); [by eexists|]. exists (signal_notifications t1). by destruct t1. }
  rewrite E2. destruct (signal =? SIGNAL_CHLD); simpl.
  - assert (signals_ok (set_child_options (set_notifications t1 n) (<[p:=options]> (signal_child_options t1)))) as Hok3.
    { apply Hok2. intros q Hq. rewrite lookup_insert. by case_decide. }
    destruct (discards_child_status _ p); [by apply ok_discard_observed|done].
  - by apply (ok_same t1).
Qed.

(** *** Threads *)

Lemma ok_set_masks t m e :
  signals_ok t →
  (∀ k x, m !! k = Some x → is_u64 x ∧ k.2 ≠ 0 ∧ ∀ s, in_mask x s = true → in_mask unblockable s = false) →
  signals_ok (set_masks t m e).
Proof. intros [] Hm. by split. Qed.
Lemma updated_mask_ok op previous requested updated :
  updated_mask op previous (without requested unblockable) = Some updated → is_u64 requested →
  (∀ x, previous = Some x → is_u64 x ∧ ∀ s, in_mask x s = true → in_mask unblockable s = false) →
  is_u64 updated ∧ ∀ s, in_mask updated s = true → in_mask unblockable s = false.
Proof.
  intros E Hr Hp.
  assert (is_u64 (without requested unblockable) ∧
    ∀ s, in_mask (without requested unblockable) s = true → in_mask unblockable s = false) as [Hq1 Hq2].
  { split; [by apply u64_without|]. intros s. rewrite in_mask_without. by destruct (in_mask unblockable s), (in_mask requested s). }
  assert (is_u64 (default 0 previous) ∧ ∀ s, in_mask (default 0 previous) s = true → in_mask unblockable s = false) as [Hd1 Hd2].
  { destruct previous as [x|]; simpl; [by apply Hp|]. split; [done|]. intros s. by rewrite in_mask_0. }
  unfold updated_mask in E. repeat case_match; simplify_eq/=; try done; split.
  - by apply u64_lor.
  - intros s. rewrite in_mask_lor, orb_true_iff. intros [?|?]; auto.
  - by apply u64_without.
  - intros s. rewrite in_mask_without. intros [? _]%andb_true_iff. auto.
  - destruct previous as [x|]; simpl; [by apply Hp|done].
  - destruct previous as [x|]; simpl; [by apply Hp|done].
Qed.
Lemma ok_thread_mask registered i payload t :
  signals_ok t → i_thread_id i ≠ 0 → signals_ok (thread_signal_mask_payload registered i payload t).1.
Proof.
  intros Hok Hth. unfold thread_signal_mask_payload.
  destruct (ensure registered STATUS_ESRCH ≫= _) as [[[[op previous] updated] output]|e] eqn:E; [|done]. inv_result.
  destruct (op =? SIGNAL_MASK_QUERY); [done|]. cbn [negb]. cbv zeta.
  rename select (updated_mask _ _ _ = _) into Hu. rename select (decode_signal_mask_request _ = _) into Hdec.
  apply updated_mask_ok in Hu; [|by eapply decode_mask_u64|intros x Hx; by apply (so_masks _ Hok) in Hx as (? & _ & ?)].
  set (t1 := set_masks t _ _). assert (signals_ok t1) as Hok1.
  { apply ok_set_masks; [done|]. intros k x. rewrite lookup_insert. case_decide as Ek; [|apply (so_masks _ Hok)].
    intros [= ->]. subst k. destruct Hu. split_and!; done. }
  destruct (signals t !! i_process_id i); simpl; [|exact Hok1].
  repeat match goal with |- context [if ?b then _ else _] => destruct b end; by apply (ok_same t1).
Qed.

(** One more signal pending for a thread. *)
Definition thread_added (p th signal : Z) (origin : Origin) (t : SignalTable) : SignalTable :=
  let m := thread_pending t (p, th) in
  set_thread_pending
    (if has m (signal_bit signal) then t
     else set_origins t (<[(p, th, signal) := origin]> (signal_origins t)))
    (<[(p, th) := Z.lor m (signal_bit signal)]> (thread_pending_signals t)).
Lemma thread_grows p th signal origin t :
  signals_ok t → 1 ≤ signal ≤ 64 → th ≠ 0 → grows p th signal t (thread_added p th signal origin t).
Proof.
  intros Hok Hr Hth.
  assert (∀ q th' x, pend (thread_added p th signal origin t) q th' x =
    pend t q th' x || ((q =? p) && (th' =? th) && (x =? signal))) as Hp.
  { intros q th' x. unfold pend, pending_of, thread_added, thread_pending. destruct (th' =? 0) eqn:Et.
    - replace (th' =? th) with false by lia. rewrite andb_false_r, orb_false_r. by destruct (has _ _).
    - simpl. rewrite lookup_insert. case_decide as Ek.
      + injection Ek as <- <-. rewrite !Z.eqb_refl. simpl. rewrite in_mask_lor, in_signal_bit by lia. f_equal. case_bool_decide; lia.
      + replace ((q =? p) && (th' =? th)) with false; [simpl; by rewrite orb_false_r|].
        symmetry. apply andb_false_iff. destruct (decide (q = p)) as [->|]; [right|left; lia].
        apply Z.eqb_neq. by intros ->. }
  split; [exact Hp| | | | |]; try (unfold thread_added; cbv zeta; by destruct (has _ _)).
  - intros q th' x. rewrite Hp, orb_true_iff, !andb_true_iff, !Z.eqb_eq, <- (so_origin _ Hok). unfold thread_added.
    rewrite has_bit by lia. destruct (in_mask _ signal) eqn:E; simpl.
    + split; [by left|]. intros [?|((-> & ->) & ->)]; [done|]. apply (so_origin _ Hok). unfold pend, pending_of.
      by replace (th =? 0) with false by lia.
    + rewrite lookup_insert. case_decide as Ek; [injection Ek as <- <- <-; split; [by right|by eexists]|].
      split; [by left|]. intros [?|((-> & ->) & ->)]; [done|by destruct Ek].
  - intros k. simpl. rewrite lookup_insert. case_decide as Ek; [right; by subst|by left].
Qed.
Lemma disposition_ignore s signal :
  1 ≤ signal → (disposition s signal =? SIGNAL_DISPOSITION_IGNORE) = in_mask (ignored s) signal.
Proof.
  intros Hr. unfold disposition. rewrite has_bit by done. destruct (in_mask (ignored s) signal); [apply Z.eqb_refl|].
  apply Z.eqb_neq. pose proof dispositions_distinct as Hd. rewrite !NoDup_cons in Hd.
  destruct (has _ _); intros E; rewrite E in Hd; set_solver.
Qed.
Lemma prepare_gone p signal t : signals t !! p = None → prepare_signal_generation p signal t = (t, Err STATUS_ESRCH).
Proof. intros E. unfold prepare_signal_generation. by rewrite E. Qed.
(** A signal raised for a thread: pending for it unless it is ignored. *)
Lemma raise_spec uid i payload signal blocked t :
  signals_ok t → i_thread_id i ≠ 0 → is_Some (signals t !! i_process_id i) → 1 ≤ signal ≤ 64 →
  decode_signal_send_request payload = Some (0, signal) → signal_masks t !! key_of i = Some blocked →
  ∃ t1 n, prepared (i_process_id i) signal t t1 ∧
    thread_raise_signal_payload (Some uid) i payload t =
    (if in_mask (ignored_of t (i_process_id i)) signal then t1
     else set_thread_notifications
            (thread_added (i_process_id i) (i_thread_id i) signal
               (mkOrigin ORIGIN_USER uid (i_process_id i) (child origin_system) (timer origin_system)) t1) n, Ok []) ∧
    (in_mask blocked signal = false → in_mask (ignored_of t (i_process_id i)) signal = false → key_of i ∈ n).
Proof.
  intros Hok Hth Hs Hr Hd Hm. destruct (prepare_spec _ signal t Hok Hr Hs) as (t1 & E & Hp & [s1 Hs1]).
  unfold thread_raise_signal_payload. rewrite Hd. simpl. rewrite Hm. simpl. replace (signal =? 0) with false by lia.
  rewrite E, Hs1, disposition_ignore by lia. rewrite <- (prepared_ignored _ signal t t1) by done.
  assert (ignored_of t1 (i_process_id i) = ignored s1) as -> by (unfold ignored_of; by rewrite Hs1).
  destruct (in_mask (ignored s1) signal); cbn [negb].
  { exists t1, ∅. done. }
  exists t1, (if negb (has blocked (signal_bit signal)) then {[key_of i]} ∪ thread_signal_notifications t1
              else thread_signal_notifications t1).
  split; [done|]. rewrite (has_bit blocked) by lia. split; [|intros -> _; set_solver].
  unfold thread_added. change (i_process_id i, i_thread_id i) with (key_of i).
  destruct (has (thread_pending t1 (key_of i)) _); simpl; rewrite insert_insert_eq; by destruct (in_mask blocked signal).
Qed.
Lemma ok_thread_added p th signal origin t t1 n :
  signals_ok t → prepared p signal t t1 → 1 ≤ signal ≤ 64 → th ≠ 0 → is_Some (signals t !! p) →
  in_mask (ignored_of t p) signal = false →
  signals_ok (set_thread_notifications (thread_added p th signal origin t1) n).
Proof.
  intros Hok Hp Hr Hth Hs Hi. pose proof (ok_shrinks _ _ Hok (pr_shrinks _ _ _ _ Hp)) as Hok1.
  destruct (prepared_room p signal t t1 Hok Hp Hr) as [R1 R2].
  apply (ok_same (thread_added p th signal origin t1)); try done.
  eapply ok_grows; [done|by apply thread_grows|done| |by rewrite (prepared_ignored p signal t t1)|done|done].
  by apply (sh_signals _ _ (pr_shrinks _ _ _ _ Hp)).
Qed.
Lemma ok_touch i t :
  signals_ok t → i_thread_id i ≠ 0 → is_Some (signals t !! i_process_id i) →
  signals_ok (set_thread_pending t (<[key_of i := thread_pending t (key_of i)]> (thread_pending_signals t))).
Proof.
  intros Hok Hth Hs. assert (∀ q th x, pend (set_thread_pending t (<[key_of i := thread_pending t (key_of i)]>
    (thread_pending_signals t))) q th x = pend t q th x) as Hp.
  { intros q th x. unfold pend, pending_of. destruct (th =? 0); [done|]. unfold thread_pending. simpl.
    rewrite lookup_insert. case_decide as Ek; [by rewrite Ek|done]. }
  apply (ok_shrinks t); [done|]. split; try done.
  - intros q th x. by rewrite Hp.
  - intros q th x. rewrite Hp. apply (so_origin _ Hok).
  - intros k. simpl. rewrite lookup_insert. case_decide as Ek; [right; by subst|by left].
Qed.
Lemma ok_thread_raise real_uid i payload t :
  signals_ok t → i_thread_id i ≠ 0 → signals_ok (thread_raise_signal_payload real_uid i payload t).1.
Proof.
  intros Hok Hth. destruct (decode_signal_send_request payload) as [[selector signal]|] eqn:Hd;
    [|unfold thread_raise_signal_payload; by rewrite Hd].
  destruct (decide (selector = 0)) as [->|Hsel].
  2:{ unfold thread_raise_signal_payload. rewrite Hd. simpl. by replace (selector =? 0) with false by lia. }
  destruct (signal_masks t !! key_of i) as [blocked|] eqn:Hm;
    [|unfold thread_raise_signal_payload; rewrite Hd; simpl; by rewrite Hm].
  pose proof (decode_send_range _ _ _ Hd). pose proof signal_max_bits. destruct (decide (signal = 0)) as [->|Hne].
  { unfold thread_raise_signal_payload. rewrite Hd. simpl. by rewrite Hm. }
  destruct (signals t !! i_process_id i) as [s|] eqn:Hs.
  2:{ unfold thread_raise_signal_payload. rewrite Hd. simpl. rewrite Hm. simpl. replace (signal =? 0) with false by lia.
      by rewrite prepare_gone. }
  destruct real_uid as [uid|].
  - destruct (raise_spec uid i payload signal blocked t Hok Hth ltac:(by eexists) ltac:(lia) Hd Hm) as (t1 & n & Hp & E & _).
    rewrite E. simpl. destruct (in_mask (ignored_of t (i_process_id i)) signal) eqn:Ei.
    + apply (ok_shrinks _ _ Hok (pr_shrinks _ _ _ _ Hp)).
    + eapply ok_thread_added; [done|done|lia|done|by eexists|done].
  - destruct (prepare_spec _ signal t Hok ltac:(lia) ltac:(by eexists)) as (t1 & E & Hp & [s1 Hs1]).
    pose proof (ok_shrinks _ _ Hok (pr_shrinks _ _ _ _ Hp)) as Hok1.
    unfold thread_raise_signal_payload. rewrite Hd. simpl. rewrite Hm. simpl. replace (signal =? 0) with false by lia.
    rewrite E, Hs1, disposition_ignore by lia. destruct (in_mask (ignored s1) signal) eqn:Ei; [done|]. cbn [negb].
    assert (in_mask (ignored_of t (i_process_id i)) signal = false) as Hi.
    { rewrite <- (prepared_ignored _ signal t t1) by done. unfold ignored_of. by rewrite Hs1. }
    destruct (has (thread_pending t1 (key_of i)) _) eqn:Eh; [|simpl; by apply ok_touch].
    pose proof (λ n, ok_thread_added (i_process_id i) (i_thread_id i) signal origin_system t t1 n Hok Hp ltac:(lia) Hth ltac:(by eexists) Hi) as Hf.
    unfold thread_added in Hf. change (i_process_id i, i_thread_id i) with (key_of i) in Hf. rewrite Eh in Hf.
    simpl. rewrite insert_insert_eq. destruct (negb _); [apply Hf|exact (Hf (thread_signal_notifications t1))].
Qed.

(** *** Delivery *)

(** A delivery of [signal] to the thread [i] is under way with the token [k]. *)
Record begun (i : Identity) (signal : Z) (origin : Origin) (k : Z) (t t' : SignalTable) : Prop := mkBegun {
  be_token : k = next_signal_delivery_token t ∧ next_signal_delivery_token t' = k + 1 ∧ k < U64_MAX;
  be_deliveries : ∀ q, deliveries_of t' q =
    if q =? i_process_id i then <[k := mkDeliveryOwner signal origin (i_thread_id i)]> (deliveries_of t q)
    else deliveries_of t q;
  be_waits : ∀ q, is_Some (process_wait_states t' !! q) ↔ is_Some (process_wait_states t !! q);
  be_epoch : ∃ e, signal_delivery_epochs t' = <[key_of i := e + 1]> (signal_delivery_epochs t) ∧
    e = default 0 (signal_delivery_epochs t !! key_of i) ∧ e < U64_MAX;
  be_rest : signals t' = signals t ∧ thread_pending_signals t' = thread_pending_signals t ∧
    signal_origins t' = signal_origins t ∧ signal_masks t' = signal_masks t ∧
    signal_child_options t' = signal_child_options t ∧ process_timers t' = process_timers t;
}.
(** Only the epochs of the table may differ. *)
Definition same_but_epochs (t t' : SignalTable) : Prop := ∃ e, t' = set_masks t (signal_masks t) e.
Lemma begin_delivery_spec i signal origin t :
  signals_ok t →
  match begin_signal_delivery i signal origin t with
  | (t', Err e) => same_but_epochs t t' ∧
      (e = STATUS_ESRCH ∧ process_wait_states t !! i_process_id i = None ∨
       e = STATUS_EAGAIN ∧ MAX_OUTSTANDING_SIGNAL_DELIVERIES ≤ Z.of_nat (size (deliveries_of t (i_process_id i))) ∨
       e = STATUS_EOVERFLOW ∧ (U64_MAX ≤ default 0 (signal_delivery_epochs t !! key_of i) ∨
                               U64_MAX ≤ next_signal_delivery_token t))
  | (t', Ok d) => d_signal d = signal ∧ begun i signal origin (d_token d) t t'
  end.
Proof.
  intros Hok. pose proof (so_next _ Hok) as Hn. unfold begin_signal_delivery.
  assert (same_but_epochs t t) as Hsame by (exists (signal_delivery_epochs t); by destruct t).
  destruct (process_wait_states t !! i_process_id i) as [w|] eqn:Hw; [|split; [done|by left]].
  assert (deliveries_of t (i_process_id i) = deliveries w) as Hdw by (unfold deliveries_of; by rewrite Hw).
  destruct (_ <=? _) eqn:Em; [split; [done|right; left; rewrite Hdw; lia]|].
  unfold checked_add at 1. destruct (default 0 _ + 1 <=? U64_MAX) eqn:Ee.
  2:{ split; [by eexists|]. do 2 right. split; [done|left; lia]. }
  unfold allocate_token, checked_add. simpl. rewrite Z.max_l by done.
  destruct (next_signal_delivery_token t + 1 <=? U64_MAX) eqn:Et.
  2:{ split; [by eexists|]. do 2 right. split; [done|right; lia]. }
  split; [done|]. split; simpl; try done.
  - lia.
  - intros q. unfold deliveries_of. simpl. rewrite lookup_insert. case_decide as Eq; [subst; by rewrite Z.eqb_refl, Hw|].
    by replace (q =? i_process_id i) with false by lia.
  - intros q. rewrite lookup_insert. case_decide; [subst; rewrite Hw; split; by eexists|done].
  - eexists. split; [by rewrite insert_insert_eq|]. split; [done|lia].
Qed.
Lemma ok_same_but_epochs t t' : signals_ok t → same_but_epochs t t' → signals_ok t'.
Proof. intros Hok [e ->]. by apply (ok_same t). Qed.
Lemma begun_pend i signal origin k t t' q th x : begun i signal origin k t t' → pend t' q th x = pend t q th x.
Proof. intros [_ _ _ _ (E1 & E2 & _)]. unfold pend, pending_of, thread_pending. by rewrite E1, E2. Qed.
Lemma begun_case i signal origin k t t' q k' o :
  begun i signal origin k t t' → deliveries_of t' q !! k' = Some o →
  deliveries_of t q !! k' = Some o ∧ k' ≠ k ∨
  q = i_process_id i ∧ k' = k ∧ o = mkDeliveryOwner signal origin (i_thread_id i) ∨
  deliveries_of t q !! k' = Some o ∧ q ≠ i_process_id i.
Proof.
  intros Hb. rewrite (be_deliveries _ _ _ _ _ _ Hb). destruct (q =? i_process_id i) eqn:E.
  - rewrite lookup_insert. case_decide; [intros [= <-]; right; left; split_and!; [lia|done|done]|by left].
  - intros Ho. right. right. split; [done|lia].
Qed.
Lemma ok_begun i signal origin k t t' :
  signals_ok t → begun i signal origin k t t' → 1 ≤ signal ≤ 64 →
  (is_stop signal = true → ∀ th, pend t (i_process_id i) th SIGNAL_CONT = false) → signals_ok t'.
Proof.
  intros Hok Hb Hr Hst. pose proof Hb as [(Bk & Bn & _) Bd Bw _ (E1 & E2 & E3 & E4 & E5 & E6)].
  pose proof (λ q th x, begun_pend i signal origin k t t' q th x Hb) as Hp.
  destruct Hok as [H1 H2 H3 H3' H4 H5 H6 H7 H8 H9 H10 H11 H12 H13 H14 H15].
  split; unfold pending_of, thread_pending, ignored_of, caught_of; rewrite ?E1, ?E2, ?E4, ?E5; try done.
  - intros p th s. rewrite E3, Hp. apply H6.
  - intros p th s. rewrite Hp. apply H7.
  - intros p th th' s. rewrite !Hp. apply H8.
  - intros p th k' o. rewrite Hp. intros Hc [[Ho _]|[(-> & _ & ->)|[Ho _]]]%(begun_case _ _ _ _ _ _ _ _ _ Hb); [by eapply H9| |by eapply H9].
    simpl. destruct (is_stop signal) eqn:Es; [|done]. by rewrite Hst in Hc.
  - intros q. by rewrite Bw.
  - intros p k' o [[Ho _]|[(-> & -> & ->)|[Ho _]]]%(begun_case _ _ _ _ _ _ _ _ _ Hb);
      [apply H13 in Ho; lia|simpl; lia|apply H13 in Ho; lia].
  - intros p q k' [o Ho] [o' Ho']. rewrite Bd in Ho, Ho'.
    assert (∀ q' o, deliveries_of t q' !! k = Some o → False) as Hfresh by (intros q' x Hx; apply H13 in Hx; lia).
    destruct (p =? i_process_id i) eqn:Ep, (q =? i_process_id i) eqn:Eq; try lia.
    + rewrite lookup_insert in Ho. case_decide; [subst k'; by apply Hfresh in Ho'|]. by eapply H14.
    + rewrite lookup_insert in Ho'. case_decide; [subst k'; by apply Hfresh in Ho|]. by eapply H14.
    + by eapply H14.
  - lia.
Qed.

(** One pending occurrence is gone, with its origin. *)
Record taken (p th signal : Z) (t t' : SignalTable) : Prop := mkTaken {
  tk_pend : ∀ q th' x, pend t' q th' x = pend t q th' x && negb ((q =? p) && (th' =? th) && (x =? signal));
  tk_shrinks : signals_ok t → shrinks t t';
  tk_deliveries : process_wait_states t' = process_wait_states t ∧
    next_signal_delivery_token t' = next_signal_delivery_token t ∧ signal_masks t' = signal_masks t ∧
    signal_delivery_epochs t' = signal_delivery_epochs t;
  tk_origins : signal_origins t' = delete (p, th, signal) (signal_origins t);
}.
Lemma taken_origins p th signal t t' :
  (∀ q th' x, pend t' q th' x = pend t q th' x && negb ((q =? p) && (th' =? th) && (x =? signal))) →
  signal_origins t' = delete (p, th, signal) (signal_origins t) → signals_ok t →
  ∀ q th' x, is_Some (signal_origins t' !! (q, th', x)) ↔ pend t' q th' x = true.
Proof.
  intros Hp Ho Hok q th' x. rewrite Hp, Ho, andb_true_iff, <- (so_origin _ Hok), lookup_delete.
  case_decide as Ek; [injection Ek as <- <- <-; rewrite !Z.eqb_refl; split; [by intros []|by intros [_ ?]]|].
  rewrite negb_true_iff. split; [|by intros [? _]]. intros ?. split; [done|].
  apply not_true_is_false. rewrite !andb_true_iff, !Z.eqb_eq. intros ((-> & ->) & ->). by destruct Ek.
Qed.
Definition take_thread (p th signal : Z) (t : SignalTable) : SignalTable :=
  set_origins (set_thread_pending t
      (<[(p, th) := without (thread_pending t (p, th)) (signal_bit signal)]> (thread_pending_signals t)))
    (delete (p, th, signal) (signal_origins t)).
Definition take_process (p : Z) (s : ProcessSignalState) (signal : Z) (t : SignalTable) : SignalTable :=
  set_origins (put_signals t p (set_pending_mask s (without (pending s) (signal_bit signal))))
    (delete (p, 0, signal) (signal_origins t)).
Lemma take_thread_taken p th signal t :
  th ≠ 0 → 1 ≤ signal ≤ 64 → is_Some (signals t !! p) → taken p th signal t (take_thread p th signal t).
Proof.
  intros Hth Hr Hs.
  assert (∀ q th' x, pend (take_thread p th signal t) q th' x =
    pend t q th' x && negb ((q =? p) && (th' =? th) && (x =? signal))) as Hp.
  { intros q th' x. unfold pend, pending_of, take_thread, thread_pending. simpl. destruct (th' =? 0) eqn:Et.
    - replace (th' =? th) with false by lia. by rewrite andb_false_r, andb_true_r.
    - rewrite lookup_insert. case_decide as Ek.
      + injection Ek as <- <-. rewrite !Z.eqb_refl. simpl. rewrite in_mask_without, in_signal_bit by lia.
        do 2 f_equal. case_bool_decide; lia.
      + replace ((q =? p) && (th' =? th)) with false; [by rewrite andb_true_r|].
        symmetry. apply andb_false_iff. destruct (decide (q = p)) as [->|]; [right|left; lia].
        apply Z.eqb_neq. by intros ->. }
  split; [exact Hp| |done|done]. intros Hok. split; try done.
  - intros q th' x. rewrite Hp. by intros [? _]%andb_true_iff.
  - by eapply taken_origins.
  - intros k. simpl. rewrite lookup_insert. case_decide as Ek; [right; by subst|by left].
Qed.
Lemma take_process_taken p s signal t :
  1 ≤ signal ≤ 64 → signals t !! p = Some s → taken p 0 signal t (take_process p s signal t).
Proof.
  intros Hr Hs. set (s' := set_pending_mask s (without (pending s) (signal_bit signal))).
  assert (∀ q th' x, pend (take_process p s signal t) q th' x =
    pend t q th' x && negb ((q =? p) && (th' =? 0) && (x =? signal))) as Hp.
  { intros q th' x. change (pend (take_process p s signal t) q th' x) with (pend (put_signals t p s') q th' x).
    rewrite pend_put. destruct (q =? p) eqn:Eq, (th' =? 0) eqn:Et; simpl; rewrite ?andb_true_r; try done.
    apply Z.eqb_eq in Eq, Et. subst. rewrite in_mask_without, in_signal_bit, (pend_process _ _ _ _ Hs) by lia.
    do 2 f_equal. case_bool_decide; lia. }
  split; [exact Hp| |done|done]. intros Hok. split; try done.
  - intros q th' x. rewrite Hp. by intros [? _]%andb_true_iff.
  - by eapply taken_origins.
  - intros q. by apply (dispositions_put t p s s').
  - intros q x. change (caught_of (take_process p s signal t) q) with (caught_of (put_signals t p s') q).
    by rewrite (proj2 (dispositions_put t p s s' q Hs eq_refl eq_refl)).
  - intros k. by left.
  - intros q. by apply (signals_put t p s s').
Qed.
Lemma ok_taken p th signal t t' : signals_ok t → taken p th signal t t' → signals_ok t'.
Proof. intros Hok Ht. eapply ok_shrinks; [done|]. by apply (tk_shrinks _ _ _ _ _ Ht). Qed.

(** [signal] is the next one of the set [f] for the thread: its own signals
    come before those of the process ([th] is 0), lower ones before higher. *)
Record next_signal (t : SignalTable) (i : Identity) (f : Z → bool) (th signal : Z) : Prop := mkNext {
  nx_thread : th = i_thread_id i ∨ th = 0 ∧ ∀ x, pend t (i_process_id i) (i_thread_id i) x && f x = false;
  nx_pending : pend t (i_process_id i) th signal = true ∧ f signal = true;
  nx_lowest : ∀ x, x < signal → pend t (i_process_id i) th x && f x = false;
}.
Lemma lowest_of m f g :
  is_u64 m → m ≠ 0 → (∀ x, in_mask m x = f x && g x) →
  1 ≤ lowest_signal m ≤ 64 ∧ (f (lowest_signal m) = true ∧ g (lowest_signal m) = true) ∧
  ∀ x, x < lowest_signal m → f x && g x = false.
Proof.
  intros Hm Hne Hf. destruct (lowest_spec m Hm Hne) as (Hr & Hin & Hmin). split; [done|]. split.
  - by rewrite Hf, andb_true_iff in Hin.
  - intros x Hx. rewrite <- Hf. destruct (in_mask m x) eqn:E; [|done].
    pose proof (in_mask_range m x Hm E). rewrite Hmin in E by lia. done.
Qed.
Definition nothing_pending (t : SignalTable) (i : Identity) (f : Z → bool) : Prop :=
  ∀ th x, th = i_thread_id i ∨ th = 0 → pend t (i_process_id i) th x && f x = false.
Lemma pend_thread t i x : i_thread_id i ≠ 0 → pend t (i_process_id i) (i_thread_id i) x = in_mask (thread_pending t (key_of i)) x.
Proof. intros Hth. unfold pend, pending_of. by replace (i_thread_id i =? 0) with false by lia. Qed.
Lemma thread_pending_u64 t i : signals_ok t → i_thread_id i ≠ 0 → is_u64 (thread_pending t (key_of i)).
Proof.
  intros Hok Hth. pose proof (so_pending _ Hok (i_process_id i) (i_thread_id i)) as H. unfold pending_of in H.
  by replace (i_thread_id i =? 0) with false in H by lia.
Qed.
Lemma process_pending_u64 t p s : signals_ok t → signals t !! p = Some s → is_u64 (pending s).
Proof. intros Hok Hs. pose proof (so_pending _ Hok p 0) as H. unfold pending_of in H. simpl in H. by rewrite Hs in H. Qed.
(** Of the sets [a] of the thread and [b] of the process, the lowest signal of
    the first that is not empty is the next one. *)
Lemma next_of_masks t i s f a b :
  signals_ok t → i_thread_id i ≠ 0 → signals t !! i_process_id i = Some s →
  (∀ x, in_mask a x = in_mask (thread_pending t (key_of i)) x && f x) →
  (∀ x, in_mask b x = in_mask (pending s) x && f x) →
  (a ≠ 0 → 1 ≤ lowest_signal a ≤ 64 ∧ next_signal t i f (i_thread_id i) (lowest_signal a)) ∧
  (a = 0 → b ≠ 0 → 1 ≤ lowest_signal b ≤ 64 ∧ next_signal t i f 0 (lowest_signal b)) ∧
  (a = 0 → b = 0 → nothing_pending t i f).
Proof.
  intros Hok Hth Hs Ha Hb.
  assert (is_u64 a) as Hua.
  { eapply u64_subset; [by apply (thread_pending_u64 t i)|]. intros x. rewrite Ha. by intros [? _]%andb_true_iff. }
  assert (is_u64 b) as Hub.
  { eapply u64_subset; [by apply (process_pending_u64 t (i_process_id i) s)|]. intros x. rewrite Hb. by intros [? _]%andb_true_iff. }
  assert (∀ x, in_mask a x = pend t (i_process_id i) (i_thread_id i) x && f x) as Ha' by (intros x; by rewrite pend_thread).
  assert (∀ x, in_mask b x = pend t (i_process_id i) 0 x && f x) as Hb' by (intros x; by rewrite (pend_process _ _ _ _ Hs)).
  split_and!.
  - intros Hne. destruct (lowest_of a _ f Hua Hne Ha') as (Hr & Hp & Hl). split; [done|]. split; [by left|done|done].
  - intros -> Hne. destruct (lowest_of b _ f Hub Hne Hb') as (Hr & Hp & Hl). split; [done|]. split; [|done|done].
    right. split; [done|]. intros x. by rewrite <- Ha', in_mask_0.
  - intros -> -> th x [->| ->]; [by rewrite <- Ha', in_mask_0|by rewrite <- Hb', in_mask_0].
Qed.
Lemma select_spec t i blocked :
  signals_ok t → i_thread_id i ≠ 0 → is_Some (signals t !! i_process_id i) →
  (∀ s, in_mask blocked s = true → in_mask unblockable s = false) →
  let f x := negb (in_mask blocked x) in
  select_signal t i blocked = Ok (0, false) ∧ nothing_pending t i f ∨
  ∃ signal own, select_signal t i blocked = Ok (signal, own) ∧ 1 ≤ signal ≤ 64 ∧
    next_signal t i f (if own : bool then i_thread_id i else 0) signal.
Proof.
  intros Hok Hth [s Hs] Hbl f.
  destruct (next_of_masks t i s f (without (thread_pending t (key_of i)) blocked) (deliverable s blocked) Hok Hth Hs)
    as (N1 & N2 & N3).
  { intros x. apply in_mask_without. }
  { intros x. unfold deliverable. rewrite !in_mask_without. f_equal. unfold f. f_equal.
    destruct (in_mask blocked x) eqn:E; [by rewrite Hbl|done]. }
  unfold select_signal. destruct (without (thread_pending t (key_of i)) blocked =? 0) eqn:Ea; cbn [negb].
  - apply Z.eqb_eq in Ea. rewrite Hs. simpl. unfold next_deliverable. destruct (deliverable s blocked =? 0) eqn:Eb.
    + left. split; [done|]. apply Z.eqb_eq in Eb. by apply N3.
    + right. apply Z.eqb_neq in Eb. eexists _, false. split; [done|]. by apply N2.
  - right. apply Z.eqb_neq in Ea. eexists _, true. split; [done|]. by apply N1.
Qed.
(** A signal goes from pending to under delivery. *)
Record delivered (i : Identity) (th signal token : Z) (t t' : SignalTable) : Prop := mkDelivered {
  dl_ok : signals_ok t';
  dl_pend : ∀ q th' x, pend t' q th' x =
    pend t q th' x && negb ((q =? i_process_id i) && (th' =? th) && (x =? signal));
  dl_token : token = next_signal_delivery_token t ∧ next_signal_delivery_token t' = token + 1 ∧ token < U64_MAX;
  dl_deliveries : ∀ q, deliveries_of t' q =
    if q =? i_process_id i then
      <[token := mkDeliveryOwner signal (default origin_system (signal_origins t !! (i_process_id i, th, signal)))
                   (i_thread_id i)]> (deliveries_of t q)
    else deliveries_of t q;
  dl_epoch : signal_delivery_epochs t' !! key_of i = Some (default 0 (signal_delivery_epochs t !! key_of i) + 1);
}.
Lemma take_pending_taken i blocked signal own t s :
  signals_ok t → i_thread_id i ≠ 0 → signals t !! i_process_id i = Some s → 1 ≤ signal ≤ 64 →
  select_signal t i blocked = Ok (signal, own) →
  ∃ t', take_pending i blocked signal own
          (set_origins t (delete (i_process_id i, if own then i_thread_id i else 0, signal) (signal_origins t))) = (t', Ok tt) ∧
    taken (i_process_id i) (if own then i_thread_id i else 0) signal t t'.
Proof.
  intros Hok Hth Hs Hr Hsel. unfold take_pending. destruct own; simpl.
  - eexists. split; [done|]. by apply (take_thread_taken (i_process_id i) (i_thread_id i) signal t Hth Hr ltac:(by eexists)).
  - rewrite Hs. eexists. split; [done|]. unfold dequeue. unfold select_signal in Hsel.
    destruct (negb _) in Hsel; [done|]. rewrite Hs in Hsel. simpl in Hsel. injection Hsel as ->.
    replace (signal =? 0) with false by lia. simpl. by apply (take_process_taken (i_process_id i) s signal t).
Qed.
Lemma begun_select i signal origin k t t' blocked :
  begun i signal origin k t t' → select_signal t' i blocked = select_signal t i blocked.
Proof. intros [_ _ _ _ (E1 & E2 & _)]. unfold select_signal, thread_pending. by rewrite E1, E2. Qed.
Lemma next_no_cont t i f th signal :
  signals_ok t → next_signal t i f th signal → is_stop signal = true →
  ∀ th', pend t (i_process_id i) th' SIGNAL_CONT = false.
Proof.
  intros Hok [_ [Hp _] _] Hs th'. apply not_true_is_false. intros Hc. by rewrite (so_job _ Hok _ _ th _ Hc Hs) in Hp.
Qed.
Lemma begun_taken i th signal origin k t t1 t2 :
  signals_ok t → signal_origins t !! (i_process_id i, th, signal) = Some origin → 1 ≤ signal ≤ 64 →
  (is_stop signal = true → ∀ th', pend t (i_process_id i) th' SIGNAL_CONT = false) →
  begun i signal origin k t t1 → taken (i_process_id i) th signal t1 t2 → delivered i th signal k t t2.
Proof.
  intros Hok Ho Hr Hst Hb Ht. pose proof (ok_begun _ _ _ _ _ _ Hok Hb Hr Hst) as Hok1.
  pose proof (ok_taken _ _ _ _ _ Hok1 Ht) as Hok2. destruct Ht as [Tp _ (Tw & Tn & _ & Te) _]. split; [done| | | |].
  - intros q th' x. by rewrite Tp, (begun_pend _ _ _ _ _ _ _ _ _ Hb).
  - rewrite Tn. apply Hb.
  - intros q. assert (deliveries_of t2 q = deliveries_of t1 q) as -> by (unfold deliveries_of; by rewrite Tw).
    rewrite Ho. apply Hb.
  - rewrite Te. destruct (be_epoch _ _ _ _ _ _ Hb) as (e & -> & -> & _). apply lookup_insert_eq.
Qed.
Lemma dequeue_spec i blocked t :
  signals_ok t → i_thread_id i ≠ 0 → is_Some (signals t !! i_process_id i) →
  (∀ s, in_mask blocked s = true → in_mask unblockable s = false) →
  let f x := negb (in_mask blocked x) in
  match dequeue_signal_with_mask i blocked t with
  | (t', Err e) => same_but_epochs t t' ∧ ¬ nothing_pending t i f ∧
      (e = STATUS_EAGAIN ∧ MAX_OUTSTANDING_SIGNAL_DELIVERIES ≤ Z.of_nat (size (deliveries_of t (i_process_id i))) ∨
       e = STATUS_EOVERFLOW ∧ (U64_MAX ≤ default 0 (signal_delivery_epochs t !! key_of i) ∨
                               U64_MAX ≤ next_signal_delivery_token t))
  | (t', Ok answer) =>
      nothing_pending t i f ∧ t' = t ∧ encode_signal_delivery (mkDelivery 0 0) = Some answer ∨
      ∃ th signal token, next_signal t i f th signal ∧ delivered i th signal token t t' ∧
        encode_signal_delivery (mkDelivery signal token) = Some answer
  end.
Proof.
  intros Hok Hth Hs Hbl f. pose proof Hs as [s Hs']. unfold dequeue_signal_with_mask.
  destruct (select_spec t i blocked Hok Hth Hs Hbl) as [[E Hn]|(signal & own & E & Hr & Hnx)]; rewrite E.
  { simpl. destruct (encode_signal_delivery_total (mkDelivery 0 0)) as [a Ha]. rewrite Ha. simpl. by left. }
  replace (signal =? 0) with false by lia. cbn [negb]. set (th := if own then i_thread_id i else 0) in *.
  destruct (proj2 (so_origin _ Hok _ _ _) (proj1 (nx_pending _ _ _ _ _ Hnx))) as [origin Ho]. rewrite Ho.
  pose proof (begin_delivery_spec i signal origin t Hok) as Hb.
  destruct (begin_signal_delivery i signal origin t) as [t1 [d|e]].
  - destruct Hb as [Hd Hb]. pose proof (next_no_cont _ _ _ _ _ Hok Hnx) as Hst.
    pose proof (ok_begun _ _ _ _ _ _ Hok Hb Hr Hst) as Hok1.
    destruct (take_pending_taken i blocked signal own t1 s Hok1 Hth) as (t2 & E2 & Ht); [|done| |].
    { by rewrite (proj1 (be_rest _ _ _ _ _ _ Hb)). }
    { by rewrite (begun_select _ _ _ _ _ _ _ Hb). }
    fold th in E2, Ht. rewrite E2. destruct (encode_signal_delivery_total (mkDelivery signal (d_token d))) as [a Ha].
    rewrite Ha. simpl. right. exists th, signal, (d_token d). split_and!; [done|by eapply begun_taken|done].
  - destruct Hb as [Hsame He]. split; [done|]. split.
    { intros Hn. destruct Hnx as [Ht [Hp Hf] _]. specialize (Hn th signal). unfold f in Hn. cbv beta in Hn. rewrite Hp, Hf in Hn. subst th.
      destruct own; [discriminate (Hn (or_introl eq_refl))|discriminate (Hn (or_intror eq_refl))]. }
    destruct He as [[_ Hw]|He]; [|done]. destruct (proj1 (so_waits _ Hok _) Hs). congruence.
Qed.

(** *** Acceptance *)

Lemma validate_ok t peer i expected u :
  validate_wait_delivery_epoch t peer i expected = Ok u →
  i_process_id i = peer ∧ i_thread_id i ≠ 0 ∧ signal_delivery_epochs t !! key_of i = Some expected ∧
  ∃ blocked s, signal_masks t !! key_of i = Some blocked ∧ signals t !! i_process_id i = Some s ∧
    ∀ x, in_mask (pending s) x || in_mask (thread_pending t (key_of i)) x = true → in_mask blocked x = true.
Proof.
  intros E. unfold validate_wait_delivery_epoch in E. inv_result.
  rename select (negb (negb (i_process_id i =? peer) || _ || _) = true) into Hg.
  rename select (negb (negb (_ =? expected) || _) = true) into Hq.
  rewrite negb_true_iff, !orb_false_iff, negb_false_iff in Hg. rewrite negb_true_iff, orb_false_iff, !negb_false_iff in Hq.
  destruct Hg as ((Hg1 & Hg2) & Hg3), Hq as [Hq1 Hq2]. split_and!; [lia|lia|by apply Z.eqb_eq in Hq1 as <-|].
  eexists _, _. split_and!; [done|done|]. intros x Hx. apply Z.eqb_eq in Hq2.
  match type of Hq2 with without ?m ?b = 0 => pose proof (in_mask_without m b x) as Hw end.
  rewrite Hq2, in_mask_0, !in_mask_lor, Hx in Hw. simpl in Hw. by apply negb_sym in Hw.
Qed.
(** What waiting for the signals [f] of a thread answers. *)
Definition wait_outcome (peer : Z) (i : Identity) (requested expected : Z) (reply : Accepted → bool)
    (t : SignalTable) (r : SignalTable * result Z (option Accepted)) : Prop :=
  let f x := in_mask requested x && negb (in_mask unblockable x) in
  match r with
  | (t', Err e) => t' = t ∧
      (validate_wait_delivery_epoch t peer i expected = Err e ∨
       e = STATUS_EINVAL ∧ (∃ x, f x = true ∧ in_mask (default 0 (signal_masks t !! key_of i)) x = false) ∨
       e = STATUS_EAGAIN ∧ nothing_pending t i f)
  | (t', Ok None) => t' = t ∧ ∃ th a, next_signal t i f th (a_signal a) ∧ reply a = false
  | (t', Ok (Some a)) => ∃ th, next_signal t i f th (a_signal a) ∧
      signal_origins t !! (i_process_id i, th, a_signal a) = Some (a_origin a) ∧ reply a = true ∧
      taken (i_process_id i) th (a_signal a) t t'
  end.
Lemma try_wait_spec peer i requested expected reply t :
  signals_ok t → is_u64 requested →
  wait_outcome peer i requested expected reply t (try_wait_signal_info_with_reply peer i requested expected reply t).
Proof.
  intros Hok Hreq. unfold wait_outcome, try_wait_signal_info_with_reply. set (f x := in_mask requested x && negb (in_mask unblockable x)).
  destruct (validate_wait_delivery_epoch t peer i expected) as [u|e] eqn:Hv; [|split; [done|by left]].
  apply validate_ok in Hv as (_ & Hth & _ & blocked & s & Hm & Hs & _). rewrite Hm, Hs. set (r := without requested unblockable).
  assert (∀ x, in_mask r x = f x) as Hf by (intros x; apply in_mask_without).
  destruct (without r blocked =? 0) eqn:Er; cbn [negb].
  2:{ apply Z.eqb_neq in Er. split; [done|]. right. left. split; [done|].
      destruct (lowest_spec (without r blocked)) as (_ & Hx & _); [by apply u64_without, u64_without|done|].
      rewrite in_mask_without, andb_true_iff, negb_true_iff, Hf in Hx. eexists. exact Hx. }
  destruct (next_of_masks t i s f (Z.land (thread_pending t (key_of i)) r) (Z.land (pending s) r) Hok Hth Hs) as (N1 & N2 & N3);
    [intros x; by rewrite in_mask_land, Hf|intros x; by rewrite in_mask_land, Hf|].
  destruct (Z.land (thread_pending t (key_of i)) r =? 0) eqn:Ea; cbn [negb].
  - apply Z.eqb_eq in Ea. destruct (Z.land (pending s) r =? 0) eqn:Eb.
    { apply Z.eqb_eq in Eb. split; [done|]. do 2 right. split; [done|]. by apply N3. }
    apply Z.eqb_neq in Eb. destruct (N2 Ea Eb) as [Hr Hnx].
    destruct (proj2 (so_origin _ Hok _ _ _) (proj1 (nx_pending _ _ _ _ _ Hnx))) as [origin Ho]. rewrite Ho.
    destruct (reply _) eqn:Ep; cbn [negb]; [|split; [done|]; eexists 0, (mkAccepted _ _); split; [exact Hnx|exact Ep]].
    exists 0. split_and!; [done|done|done|]. by apply (take_process_taken (i_process_id i) s).
  - apply Z.eqb_neq in Ea. destruct (N1 Ea) as [Hr Hnx].
    destruct (proj2 (so_origin _ Hok _ _ _) (proj1 (nx_pending _ _ _ _ _ Hnx))) as [origin Ho]. rewrite Ho.
    destruct (reply _) eqn:Ep; cbn [negb]; [|split; [done|]; eexists (i_thread_id i), (mkAccepted _ _); split; [exact Hnx|exact Ep]].
    exists (i_thread_id i). split_and!; [done|done|done|]. by apply (take_thread_taken (i_process_id i) (i_thread_id i)).
Qed.
Lemma ok_try_wait peer i requested expected reply t :
  signals_ok t → is_u64 requested → signals_ok (try_wait_signal_info_with_reply peer i requested expected reply t).1.
Proof.
  intros Hok Hr. pose proof (try_wait_spec peer i requested expected reply t Hok Hr) as Hw. unfold wait_outcome in Hw.
  destruct (try_wait_signal_info_with_reply _ _ _ _ _ _) as [t' [[a|]|e]]; simpl.
  - destruct Hw as (th & _ & _ & _ & Ht). by eapply ok_taken.
  - by destruct Hw as [-> _].
  - by destruct Hw as [-> _].
Qed.

(** *** The remaining operations *)

Lemma ok_fault i payload t : signals_ok t → signals_ok (thread_fault_signal_payload i payload t).1.
Proof.
  intros Hok. unfold thread_fault_signal_payload.
  destruct (ok_or STATUS_EINVAL (decode_signal_send_request payload) ≫= _) as [[[signal blocked] s]|e] eqn:E; [|done]. inv_result.
  set (o := mkOrigin ORIGIN_FAULT _ _ _ _). pose proof (begin_delivery_spec i signal o t Hok) as Hb.
  destruct (begin_signal_delivery i signal o t) as [t1 [d|e]]; simpl; [|destruct Hb as [Hb _]; by eapply ok_same_but_epochs].
  rename select ((_ =? 0) && _ = true) into Hg. apply andb_true_iff in Hg as [_ Hg].
  pose proof signal_max_bits. destruct fault_signals_range as [R1 R2], fault_signals_not_stop as [S1 S2].
  assert (1 ≤ signal ≤ 64 ∧ is_stop signal = false) as [Hr Hst].
  { unfold is_stop. apply orb_true_iff in Hg as [->%Z.eqb_eq| ->%Z.eqb_eq]; split; (lia || by apply bool_decide_eq_false_2). }
  eapply ok_begun; [done|apply Hb|done|]. by rewrite Hst.
Qed.
Lemma dequeue_gone i blocked t :
  signals_ok t → signals t !! i_process_id i = None → dequeue_signal_with_mask i blocked t = (t, Err STATUS_ESRCH).
Proof.
  intros Hok Hs. unfold dequeue_signal_with_mask, select_signal, thread_pending.
  destruct (thread_pending_signals t !! key_of i) as [m|] eqn:E; [|cbn [default from_option id]; by rewrite without_0, Hs].
  destruct (so_owner _ Hok (key_of i)) as [s Hs']; [by eexists|]. simpl in Hs'. congruence.
Qed.
Lemma ok_delivery_payload i opcode payload t :
  signals_ok t → i_thread_id i ≠ 0 → signals_ok (thread_signal_delivery_payload i opcode payload t).1.
Proof.
  intros Hok Hth. unfold thread_signal_delivery_payload.
  destruct (ensure _ _ ≫= _) as [blocked|e] eqn:E; [|done]. inv_result. destruct (opcode =? _); [|done].
  rename select (signal_masks t !! _ = _) into Hm. apply (so_masks _ Hok) in Hm as (_ & _ & Hm).
  destruct (signals t !! i_process_id i) as [s|] eqn:Hs; [|by rewrite dequeue_gone].
  pose proof (dequeue_spec i blocked t Hok Hth ltac:(by eexists) Hm) as Hd. cbv zeta in Hd.
  destruct (dequeue_signal_with_mask i blocked t) as [t' [a|e]]; simpl.
  - destruct Hd as [(_ & -> & _)|(th & signal & token & _ & Hd & _)]; [done|apply Hd].
  - destruct Hd as [Hd _]. by eapply ok_same_but_epochs.
Qed.
Lemma ok_thread_request registered real_uid peer i opcode flags payload t :
  signals_ok t → signals_ok (handle_thread_signal_request registered real_uid peer i opcode flags payload t).1.
Proof.
  intros Hok. unfold handle_thread_signal_request. destruct (negb (bool_decide _)); [done|].
  destruct (negb (flags =? 0)); [done|]. destruct (_ || (i_thread_id i =? 0)) eqn:E; [done|].
  apply orb_false_iff in E as [_ Hth]. apply Z.eqb_neq in Hth.
  repeat match goal with |- context [if ?o =? ?c then _ else _] => destruct (o =? c) end; try done.
  - by apply ok_thread_mask.
  - by apply ok_thread_raise.
  - by apply ok_fault.
  - by apply ok_delivery_payload.
Qed.
Lemma ok_send_thread real_uid peer i target rights payload t :
  signals_ok t → signals_ok (send_thread_signal real_uid peer i target rights payload t).1.
Proof.
  intros Hok. unfold send_thread_signal. destruct (_ || negb (ts_process_id target =? _)); [done|].
  destruct ((ts_thread_id target =? 0) || _ || _) eqn:E; [done|]. destruct (ts_state target =? _); [done|].
  assert (ts_thread_id target ≠ 0) as Hth by (destruct (ts_thread_id target =? 0) eqn:E0; [done|lia]).
  pose proof (ok_thread_raise real_uid (mkIdentity (ts_process_id target) (ts_thread_id target)) payload t Hok Hth).
  by destruct (thread_raise_signal_payload _ _ _ _) as [t' []].
Qed.
(** A wait state changed without new deliveries. *)
Lemma ok_put_wait t p w w' :
  signals_ok t → process_wait_states t !! p = Some w →
  (∀ k o, deliveries w' !! k = Some o → deliveries w !! k = Some o) → signals_ok (put_wait t p w').
Proof.
  intros Hok Hw Hd. apply (ok_same t); try done.
  - intros q. by apply (waits_put t p w' w).
  - intros q k o. rewrite (deliveries_put t p w' w) by done. destruct (q =? p) eqn:E; [|done].
    apply Z.eqb_eq in E as ->. intros Ho%Hd. unfold deliveries_of. by rewrite Hw.
Qed.
Lemma put_alter t p f w : process_wait_states t !! p = Some w → alter_wait t p f = put_wait t p (f w).
Proof.
  intros Hw. unfold alter_wait, put_wait. f_equal. apply map_eq. intros q. rewrite lookup_alter, lookup_insert.
  case_decide; [subst; by rewrite Hw|done].
Qed.
Lemma ok_alter_wait t p f :
  signals_ok t → (∀ w k o, deliveries (f w) !! k = Some o → deliveries w !! k = Some o) → signals_ok (alter_wait t p f).
Proof.
  intros Hok Hd. destruct (process_wait_states t !! p) as [w|] eqn:Hw.
  - rewrite (put_alter t p f w) by done. by apply (ok_put_wait t p w); auto.
  - replace (alter_wait t p f) with t; [done|]. unfold alter_wait. rewrite alter_id; [by destruct t|]. congruence.
Qed.
Lemma ok_complete registered p payload t : signals_ok t → signals_ok (complete_signal_delivery registered p payload t).1.
Proof.
  intros Hok. unfold complete_signal_delivery. destruct (ok_or _ _ ≫= _) as [[d w]|e] eqn:E; [|done]. inv_result.
  unfold consume_delivery. destruct (negb (bool_decide (_ = Some (d_signal d)))); simpl; eapply ok_put_wait; try done.
  intros k o. simpl. rewrite lookup_delete. by case_decide.
Qed.
Lemma ok_cancel_resume p t : signals_ok t → signals_ok (cancel_unconfirmed_resume t p).
Proof. intros Hok. apply ok_alter_wait; [by apply (ok_same t)|done]. Qed.

(** A thread goes. *)
Lemma ok_forget_thread i t : signals_ok t → i_thread_id i ≠ 0 → signals_ok (forget_thread i t).
Proof.
  intros Hok Hth. set (key := key_of i).
  set (t1 := set_origins (set_thread_pending (set_masks t (delete key (signal_masks t)) (delete key (signal_delivery_epochs t)))
               (delete key (thread_pending_signals t))) (filter (λ x, x.1.1 ≠ key) (signal_origins t))).
  assert (∀ q th x, pend t1 q th x = pend t q th x && negb ((q =? i_process_id i) && (th =? i_thread_id i))) as Hp.
  { intros q th x. unfold pend, pending_of. destruct (th =? 0) eqn:Et.
    - replace (th =? i_thread_id i) with false by lia. by rewrite andb_false_r, andb_true_r.
    - unfold thread_pending. simpl. rewrite lookup_delete. case_decide as Ek.
      + injection Ek as <- <-. rewrite !Z.eqb_refl, andb_false_r. simpl. by rewrite in_mask_0.
      + replace ((q =? i_process_id i) && (th =? i_thread_id i)) with false; [by rewrite andb_true_r|].
        symmetry. apply not_true_is_false. rewrite andb_true_iff, !Z.eqb_eq. intros [-> ->]. by destruct Ek. }
  assert (signals_ok t1) as Hok1.
  { apply (ok_shrinks t); [done|]. split; try done.
    - intros q th x. rewrite Hp. by intros [? _]%andb_true_iff.
    - intros q th x. rewrite Hp, andb_true_iff, <- (so_origin _ Hok), negb_true_iff. simpl. split.
      + intros [o [Ho Hk]%map_lookup_filter_Some]. split; [by eexists|]. apply not_true_is_false.
        rewrite andb_true_iff, !Z.eqb_eq. intros [-> ->]. by destruct Hk.
      + intros [[o Ho] Hk]. exists o. apply map_lookup_filter_Some. split; [done|]. simpl. intros [= -> ->].
        by rewrite !Z.eqb_refl in Hk.
    - intros k. simpl. rewrite lookup_delete. case_decide; [by intros []|by left].
    - intros k m. simpl. rewrite lookup_delete. by case_decide. }
  assert (∀ n ts tn, signals_ok (alter_wait (set_thread_notifications (set_notifications (set_timers t1 ts) n) tn) (i_process_id i)
    (λ w, set_deliveries w (filter (λ x, o_thread_id x.2 ≠ i_thread_id i) (deliveries w))))) as Hok2.
  { intros n ts tn. apply ok_alter_wait; [by apply (ok_same t1)|]. intros w k o. simpl.
    by intros [? _]%map_lookup_filter_Some. }
  unfold forget_thread, remove_empty_signal_notification. fold key.
  destruct (_ && _); [specialize (Hok2 (signal_notifications t ∖ {[i_process_id i]}))|specialize (Hok2 (signal_notifications t))];
    specialize (Hok2 (retire_thread (i_process_id i) (i_thread_id i) (process_timers t)) (thread_signal_notifications t ∖ {[key]}));
    cbv zeta; destruct (signals _ !! _); try exact Hok2; destruct (_ || _); try exact Hok2; (eapply ok_same; [exact Hok2|done..]).
Qed.
Lemma ok_retire_thread i status t : signals_ok t → signals_ok (retire_signal_thread i status t).1.
Proof.
  intros Hok. unfold retire_signal_thread. destruct (_ || _) eqn:E; [done|]. apply orb_false_iff in E as [_ E].
  destruct (thread_terminated i status) as [[]|]; try done. apply ok_forget_thread; [done|lia].
Qed.
Lemma ok_reset_image p t : signals_ok t → signals_ok (reset_image_signals t p).
Proof.
  intros Hok. unfold reset_image_signals. cbv zeta. apply ok_alter_wait; [|intros w k o; simpl; by rewrite lookup_empty].
  set (sg := signals (set_signals t (alter (λ s, mkSignalState (pending s) (ignored s) 0) p (signals t)))).
  change (alter (λ s, mkSignalState (pending s) (ignored s) 0) p (signals (set_timers t (retire_owner p (process_timers t))))) with sg.
  assert (∀ q, default 0 (pending <$> sg !! q) = default 0 (pending <$> signals t !! q) ∧
    default 0 (ignored <$> sg !! q) = default 0 (ignored <$> signals t !! q) ∧
    (∀ x, in_mask (default 0 (caught <$> sg !! q)) x = true → in_mask (default 0 (caught <$> signals t !! q)) x = true) ∧
    (is_Some (sg !! q) ↔ is_Some (signals t !! q))) as Hsg.
  { intros q. unfold sg. simpl. rewrite lookup_alter. case_decide as Eq; [subst q|by split_and!].
    destruct (signals t !! p) as [s|]; simpl; split_and!; try done. intros x. by rewrite in_mask_0. }
  apply (ok_shrinks t); [done|]. split; try done.
  - intros q th x. unfold pend, pending_of. destruct (th =? 0); [simpl; by rewrite (proj1 (Hsg q))|done].
  - intros q th x. rewrite (so_origin _ Hok q th x). unfold pend, pending_of.
    destruct (th =? 0); [simpl; by rewrite (proj1 (Hsg q))|done].
  - intros q. apply Hsg.
  - intros q. apply Hsg.
  - intros k. by left.
  - intros q. apply Hsg.
  - intros q. simpl. rewrite lookup_alter. case_decide; [subst|done]. by intros [o ->].
Qed.
(** A process that has no state yet gets one with nothing pending. *)
Lemma ok_install p s options t :
  signals_ok t → signals t !! p = None → pending s = 0 → is_u64 (ignored s) → is_u64 (caught s) →
  (∀ x, in_mask (ignored s) x = true → in_mask (caught s) x = false ∧ in_mask unblockable x = false) →
  (∀ x, in_mask (caught s) x = true → in_mask unblockable x = false) →
  signals_ok (install_process p s options t).
Proof.
  intros Hok Hn Hp Hi Hc Hic Hcu. set (t' := install_process p s options t).
  assert (process_wait_states t !! p = None) as Hw.
  { destruct (process_wait_states t !! p) eqn:E; [|done]. destruct (proj2 (so_waits _ Hok p)); [by eexists|congruence]. }
  assert (∀ q, deliveries_of t' q = deliveries_of t q) as Hd.
  { intros q. unfold deliveries_of. simpl. rewrite lookup_insert. case_decide; [subst; by rewrite Hw|done]. }
  assert (∀ q th x, pend t' q th x = pend t q th x) as Hpe.
  { intros q th x. unfold pend, pending_of. destruct (th =? 0); [|done]. simpl. rewrite lookup_insert.
    case_decide; [subst; rewrite Hn; simpl; by rewrite Hp|done]. }
  assert (∀ q, q ≠ p → signals t' !! q = signals t !! q) as Hne by (intros q Hq; simpl; by rewrite lookup_insert_ne).
  assert (signals t' !! p = Some s) as Heq by (simpl; apply lookup_insert_eq).
  assert (∀ q th x, pend t q th x = true → q ≠ p) as Hpp by (intros q th x Hx ->; apply pend_owner in Hx as []; [congruence|done]).
  assert (∀ (P : Z → Z → Prop), (∀ q, P (ignored_of t q) (caught_of t q)) → P (ignored s) (caught s) →
    ∀ q, P (ignored_of t' q) (caught_of t' q)) as Hdisp.
  { intros P H1 H2 q. unfold ignored_of, caught_of. destruct (decide (q = p)) as [->|Hq]; [by rewrite Heq|].
    rewrite Hne by done. apply H1. }
  destruct Hok as [H1 H2 H3 H3' H4 H5 H6 H7 H8 H9 H10 H11 H12 H13 H14 H15].
  split; try setoid_rewrite Hd; try setoid_rewrite Hpe; try done.
  - intros q th. apply u64_bound. intros x Hx. apply (in_mask_range (pending_of t q th)); [done|]. change (pend t q th x = true). by rewrite <- Hpe.
  - by apply (Hdisp (λ a b, is_u64 a ∧ is_u64 b)).
  - by apply (Hdisp (λ a b, ∀ x, in_mask a x = true → in_mask b x = false ∧ in_mask unblockable x = false)).
  - by apply (Hdisp (λ a b, ∀ x, in_mask b x = true → in_mask unblockable x = false)).
  - intros k Hk. simpl. rewrite lookup_insert. case_decide; [by eexists|]. by apply H5.
  - intros q th x Hx. unfold ignored_of. rewrite Hne by eauto. by eapply H7.
  - intros q. simpl. rewrite !lookup_insert. case_decide; [split; by eexists|apply H11].
  - intros q. simpl. rewrite !lookup_insert. case_decide; [by eexists|apply H12].
Qed.
(** Nothing of a reaped process is left. *)
Lemma ok_forget p t : signals_ok t → signals_ok (forget_process p t).
Proof.
  intros Hok. set (t' := forget_process p t).
  assert (∀ q, q ≠ p → signals t' !! q = signals t !! q) as Hne by (intros q Hq; simpl; by rewrite lookup_delete_ne).
  assert (signals t' !! p = None) as Heq by (simpl; apply lookup_delete_eq).
  assert (∀ q th x, pend t' q th x = pend t q th x && negb (q =? p)) as Hpe.
  { intros q th x. unfold pend, pending_of. destruct (decide (q = p)) as [->|Hq].
    - rewrite Z.eqb_refl, andb_false_r. destruct (th =? 0); [rewrite Heq|unfold thread_pending; simpl;
        rewrite map_lookup_filter; destruct (thread_pending_signals t !! (p, th)) eqn:E]; simpl; try apply in_mask_0.
      rewrite option_guard_False by (simpl; tauto). apply in_mask_0.
    - replace (q =? p) with false by lia. rewrite andb_true_r. destruct (th =? 0); [by rewrite Hne|]. unfold thread_pending. simpl.
      rewrite map_lookup_filter. destruct (thread_pending_signals t !! (q, th)); simpl; [|done]. by rewrite option_guard_True. }
  assert (∀ q th x, pend t' q th x = true → pend t q th x = true ∧ q ≠ p) as Hsub.
  { intros q th x. rewrite Hpe, andb_true_iff. intros [? ?]. split; [done|]. lia. }
  assert (∀ q k o, deliveries_of t' q !! k = Some o → deliveries_of t q !! k = Some o) as Hd.
  { intros q k o. unfold deliveries_of. simpl. rewrite lookup_delete. case_decide; [simpl; by rewrite lookup_empty|done]. }
  assert (∀ (P : Z → Z → Prop), (∀ q, P (ignored_of t q) (caught_of t q)) → P 0 0 →
    ∀ q, P (ignored_of t' q) (caught_of t' q)) as Hdisp.
  { intros P H1 H2 q. unfold ignored_of, caught_of. destruct (decide (q = p)) as [->|Hq]; [by rewrite Heq|].
    rewrite Hne by done. apply H1. }
  destruct Hok as [H1 H2 H3 H3' H4 H5 H6 H7 H8 H9 H10 H11 H12 H13 H14 H15]. split; try done.
  - intros q th. apply (u64_subset (pending_of t q th)); [done|]. intros x Hx. by apply Hsub.
  - by apply (Hdisp (λ a b, is_u64 a ∧ is_u64 b)).
  - apply (Hdisp (λ a b, ∀ x, in_mask a x = true → in_mask b x = false ∧ in_mask unblockable x = false)); [done|].
    intros x. by rewrite in_mask_0.
  - apply (Hdisp (λ a b, ∀ x, in_mask b x = true → in_mask unblockable x = false)); [done|]. intros x. by rewrite in_mask_0.
  - intros q. simpl. by rewrite map_lookup_filter, H4.
  - intros k [v [Hv Hk]%map_lookup_filter_Some]. simpl in Hk. rewrite Hne by done. apply H5. by eexists.
  - intros q th x. rewrite Hpe, andb_true_iff, negb_true_iff, Z.eqb_neq, <- H6. simpl. split.
    + intros [o [Ho Hk]%map_lookup_filter_Some]. split; [by eexists|done].
    + intros [[o Ho] Hk]. exists o. by apply map_lookup_filter_Some.
  - intros q th x [Hx Hq]%Hsub. unfold ignored_of. rewrite Hne by done. by eapply H7.
  - intros q th th' x [Hc _]%Hsub Hs. apply not_true_is_false. intros [Hn _]%Hsub. erewrite H8 in Hn; done.
  - intros q th k o [Hc _]%Hsub Ho%Hd. by eapply H9.
  - intros k m. simpl. intros [Hm _]%map_lookup_filter_Some. by apply H10.
  - intros q. simpl. rewrite !lookup_delete. case_decide; [split; by intros []|apply H11].
  - intros q. simpl. rewrite !lookup_delete. case_decide; [by intros []|apply H12].
  - intros q k o Ho%Hd. by eapply H13.
  - intros q q' k [o Ho%Hd] [o' Ho'%Hd]. eapply H14; by eexists.
Qed.
End SignalProofs.
