(* ===== verification/SignalTheorems.v ===== *)
(** * Correctness of the signal tables

    Every table the service reaches is consistent; generation, delivery and
    acceptance of a signal move exactly one occurrence. *)

From stdpp Require Import fin_maps.
From S2P Require Import Prelude PosixProtocol TimerSchedule ProcessTimer SignalState Signals SignalProofs.

Section Theorems.
Context {PP : PosixProtocol} {SC : SignalCodec} {SN : @SignalNumbers PP} {SL : SignalCodecLaws}.

(** What the service does to its signal tables. *)
Inductive signal_step (t : SignalTable) : SignalTable → Prop :=
  | step_generate p signal origin : 1 ≤ signal ≤ SIGNAL_MAX →
      signal_step t (enqueue_signal_with_origin p signal origin t).1
  | step_disposition parents p flags payload : signal_step t (signal_disposition_payload parents p flags payload t).1
  | step_child_options registered parents p payload :
      signal_step t (set_signal_child_options registered parents p payload t).1
  | step_thread registered real_uid peer i opcode flags payload :
      signal_step t (handle_thread_signal_request registered real_uid peer i opcode flags payload t).1
  | step_send_thread real_uid peer i target rights payload :
      signal_step t (send_thread_signal real_uid peer i target rights payload t).1
  | step_complete registered p payload : signal_step t (complete_signal_delivery registered p payload t).1
  | step_wait peer i requested expected reply : is_u64 requested →
      signal_step t (try_wait_signal_info_with_reply peer i requested expected reply t).1
  | step_acknowledge p : signal_step t (acknowledge_signal_notification t p)
  | step_acknowledge_thread k : signal_step t (acknowledge_thread_signal_notification t k)
  | step_cancel_resume p : signal_step t (cancel_unconfirmed_resume t p)
  | step_retire i status : signal_step t (retire_signal_thread i status t).1
  | step_image p : signal_step t (reset_image_signals t p)
  | step_bind p : signals t !! p = None → signal_step t (install_process p signal_state_default 0 t)
  | step_fork p parent s options : signals t !! p = None → signals t !! parent = Some s →
      signal_step t (install_process p (fork_child s) options t)
  | step_reap p : signal_step t (forget_process p t).
Definition signal_reachable (t : SignalTable) : Prop := rtc signal_step signals_new t.

Lemma ok_enqueue p signal origin t :
  signals_ok t → 1 ≤ signal ≤ SIGNAL_MAX → signals_ok (enqueue_signal_with_origin p signal origin t).1.
Proof.
  intros Hok Hr. pose proof signal_max_bits. destruct (signals t !! p) as [s|] eqn:Hs.
  - destruct (enqueue_spec p signal origin t Hok ltac:(lia) ltac:(by eexists)) as (t' & -> & He). apply He.
  - unfold enqueue_signal_with_origin. by rewrite prepare_gone.
Qed.
Lemma ok_bind p t : signals_ok t → signals t !! p = None → signals_ok (install_process p signal_state_default 0 t).
Proof. intros Hok Hp. apply ok_install; try done; intros x; simpl; by rewrite in_mask_0. Qed.
Lemma ok_fork p parent s options t :
  signals_ok t → signals t !! p = None → signals t !! parent = Some s →
  signals_ok (install_process p (fork_child s) options t).
Proof.
  intros Hok Hp Hs. destruct (so_dispositions _ Hok parent) as [Hi Hc].
  pose proof (so_ignored_caught _ Hok parent) as Hic. pose proof (so_caught _ Hok parent) as Hcu.
  unfold ignored_of, caught_of in *. rewrite Hs in *. by apply ok_install.
Qed.
Lemma signal_step_ok t t' : signals_ok t → signal_step t t' → signals_ok t'.
Proof.
  intros Hok []; eauto using ok_enqueue, ok_disposition, ok_child_options, ok_thread_request, ok_send_thread, ok_complete,
    ok_try_wait, ok_cancel_resume, ok_retire_thread, ok_reset_image, ok_bind, ok_fork, ok_forget; by apply (ok_same t).
Qed.
Lemma signals_reachable_ok t : signal_reachable t → signals_ok t.
Proof.
  unfold signal_reachable. intros Hr. assert (signals_ok signals_new) as Hok by apply ok_signals_new.
  induction Hr as [|t1 t2 t3 Hs _ IH]; [done|]. apply IH. by eapply signal_step_ok.
Qed.

(** C6: In every reachable signal table the pending, ignored, caught and blocked
    sets are 64-bit sets, kill and stop are never ignored, caught or
    blocked, an origin is recorded exactly for every pending signal of a
    process or thread, nothing pending is ignored, a pending continuation
    excludes pending stops and stops under delivery, and delivery tokens are
    below the next token and belong to one process. *)
Theorem signals_invariant t : signal_reachable t → signals_ok t.
Proof. apply signals_reachable_ok. Qed.

(** Generating a signal for a process of a reachable table succeeds; a
    continuation removes exactly the pending stops of the process and its
    threads and a stop the pending continuation, the signal is pending
    afterwards unless it is ignored, the origin of an occurrence that was
    already pending is kept, the process is notified of it, and no other
    process is touched. *)
Theorem generation_exact t p signal origin :
  signal_reachable t → 1 ≤ signal ≤ SIGNAL_MAX → is_Some (signals t !! p) →
  ∃ t', enqueue_signal_with_origin p signal origin t = (t', Ok tt) ∧ enqueued p signal origin t t'.
Proof. intros Hr Hs Hp. pose proof signal_max_bits. apply enqueue_spec; [by apply signals_reachable_ok|lia|done]. Qed.


(** Consuming a delivery that is under way. *)
Lemma completion_spec p payload d t o :
  decode_signal_delivery payload = Some d → 1 ≤ d_signal d → 1 ≤ d_token d →
  deliveries_of t p !! d_token d = Some o → o_signal o = d_signal d →
  ∃ t', complete_signal_delivery true p payload t = (t', Ok tt) ∧
    (∀ q, deliveries_of t' q = if q =? p then delete (d_token d) (deliveries_of t q) else deliveries_of t q) ∧
    (∀ q th x, pend t' q th x = pend t q th x) ∧ (complete_signal_delivery true p payload t').2 = Err STATUS_EAGAIN.
Proof.
  intros Hd Hs Hk Ho Eo. unfold deliveries_of in Ho. destruct (process_wait_states t !! p) as [w|] eqn:Hw; [|done]. simpl in Ho.
  assert (∀ t w, process_wait_states t !! p = Some w → complete_signal_delivery true p payload t =
    (put_wait t p (consume_delivery w d).1, if (consume_delivery w d).2 then Ok tt else Err STATUS_EAGAIN)) as Hc.
  { intros u v Hv. unfold complete_signal_delivery. rewrite Hd. simpl. replace (d_signal d =? 0) with false by lia.
    replace (d_token d =? 0) with false by lia. simpl. rewrite Hv. simpl. by destruct (consume_delivery v d). }
  assert (consume_delivery w d = (set_deliveries w (delete (d_token d) (deliveries w)), true)) as Hcw.
  { unfold consume_delivery. rewrite Ho. simpl. rewrite bool_decide_eq_true_2 by (by rewrite Eo). done. }
  eexists. rewrite (Hc t w Hw), Hcw. split; [done|]. split_and!; [|done|].
  - intros q. rewrite (deliveries_put t p _ w q Hw). destruct (q =? p) eqn:Eq; [|done].
    apply Z.eqb_eq in Eq as ->. unfold deliveries_of. by rewrite Hw.
  - erewrite Hc by (simpl; apply lookup_insert_eq). unfold consume_delivery. simpl. by rewrite lookup_delete_eq.
Qed.

(** C10: A signal that a thread dequeues can be completed with the token of the
    reply, exactly once: the first completion succeeds, a second one fails,
    the deliveries under way are then what they were before, and exactly one
    pending occurrence, the next one of the thread, is gone. *)
Theorem delivery_completed_once t i blocked t1 answer :
  signal_reachable t → signal_masks t !! key_of i = Some blocked → is_Some (signals t !! i_process_id i) →
  dequeue_signal_with_mask i blocked t = (t1, Ok answer) → ¬ nothing_pending t i (λ x, negb (in_mask blocked x)) →
  ∃ th signal t2, next_signal t i (λ x, negb (in_mask blocked x)) th signal ∧
    complete_signal_delivery true (i_process_id i) answer t1 = (t2, Ok tt) ∧
    (complete_signal_delivery true (i_process_id i) answer t2).2 = Err STATUS_EAGAIN ∧
    (∀ q, deliveries_of t2 q = deliveries_of t q) ∧
    ∀ q th' x, pend t2 q th' x = pend t q th' x && negb ((q =? i_process_id i) && (th' =? th) && (x =? signal)).
Proof.
  intros Hr Hm Hs E Hn. pose proof (signals_reachable_ok t Hr) as Hok. pose proof (so_masks _ Hok _ _ Hm) as (_ & Hth & Hb).
  pose proof (dequeue_spec i blocked t Hok Hth Hs Hb) as Hd. cbv zeta in Hd. rewrite E in Hd.
  destruct Hd as [[? _]|(th & signal & token & Hx & [Dok Dp (Dt & Dn & Du) Dd _] & Ha)]; [done|].
  pose proof (so_next _ Hok). assert (1 ≤ signal ≤ 64) as Hsr.
  { eapply in_mask_range; [apply (so_pending _ Hok (i_process_id i) th)|apply Hx]. }
  destruct (completion_spec (i_process_id i) answer (mkDelivery signal token) t1
    (mkDeliveryOwner signal (default origin_system (signal_origins t !! (i_process_id i, th, signal))) (i_thread_id i)))
    as (t2 & E2 & Hd2 & Hp2 & Hl); simpl; [apply decode_encode_delivery; simpl; [lia|split; lia|done]|lia|lia| |done|].
  { by rewrite Dd, Z.eqb_refl, lookup_insert_eq. }
  exists th, signal, t2. split_and!; [done|done|done| |].
  - intros q. rewrite Hd2. simpl. rewrite Dd. destruct (q =? i_process_id i); [|done]. apply delete_insert_id.
    destruct (deliveries_of t q !! token) eqn:Eq; [|done]. apply (so_tokens _ Hok) in Eq. lia.
  - intros q th' x. by rewrite Hp2, Dp.
Qed.

(** A thread that waits for signals in a reachable table accepts the lowest
    requested signal of its own, or of the process when it has none, with
    the origin it was generated with, and exactly that occurrence is gone;
    when the reply is not delivered, nothing is requested that is blocked,
    or nothing requested is pending, the table is unchanged and the error
    says why. *)
Theorem acceptance_exact t peer i requested expected reply :
  signal_reachable t → is_u64 requested →
  wait_outcome peer i requested expected reply t (try_wait_signal_info_with_reply peer i requested expected reply t).
Proof. intros Hr. apply try_wait_spec. by apply signals_reachable_ok. Qed.
End Theorems.

(** ** An instance *)

#[local] Existing Instance linux_protocol.
#[local] Existing Instance linux_signals.
(** Payloads as lists of fields. *)
Definition example_codec : SignalCodec := {|
  SIGNAL_MASK_QUERY := 0; SIGNAL_MASK_SET := 1; SIGNAL_MASK_BLOCK := 2; SIGNAL_MASK_UNBLOCK := 3;
  SIGNAL_MASK_INITIALIZE := 4;
  decode_signal_mask_request := λ bytes,
    match bytes with [op; m] => if (0 <=? m) && (m <=? U64_MAX) then Some (op, m) else None | _ => None end;
  encode_signal_mask := λ m, Some [m];
  decode_signal_send_request := λ bytes,
    match bytes with [sel; s] => if (0 <=? s) && (s <=? SIGNAL_MAX) then Some (sel, s) else None | _ => None end;
  decode_signal_delivery := λ bytes, match bytes with [s; k] => Some (mkDelivery s k) | _ => None end;
  encode_signal_delivery := λ d, Some [d_signal d; d_token d];
  decode_signal_disposition := λ bytes,
    match bytes with
    | [s; k; o] => if (1 <=? s) && (s <=? SIGNAL_MAX) &&
        bool_decide (k ∈ [SIGNAL_DISPOSITION_DEFAULT; SIGNAL_DISPOSITION_IGNORE; SIGNAL_DISPOSITION_CAUGHT])
        then Some (s, k, o) else None
    | _ => None
    end;
  encode_signal_disposition := λ s k o, Some [s; k; o];
  decode_signal_child_options := λ bytes, match bytes with [o] => Some o | _ => None end;
  SIGNAL_DISPOSITION_SET := 1; SIGNAL_BUS := 7; SIGNAL_SEGV := 11; ORIGIN_FAULT := 9;
  encode_fault_delivery := λ d k, Some [d_signal d; d_token d; k];
  encode_origin := λ o, Some [source o];
  OP_SIGNAL_THREAD_MASK := 1; OP_SIGNAL_THREAD_DEQUEUE := 2; OP_SIGNAL_THREAD_PENDING := 3;
  OP_SIGNAL_THREAD_RAISE := 4; OP_SIGNAL_THREAD_FAULT := 5; OP_SIGNAL_DELIVERY_ORIGIN := 6;
  OP_SIGNAL_THREAD_EPOCH := 7; OP_SIGNAL_IMAGE_STARTED := 8;
  HANDLE_RIGHT_WAIT := 1; HANDLE_RIGHT_SIGNAL := 2; THREAD_STATE_READY := 0; THREAD_STATE_TERMINATED := 4;
  is_not_found := λ e, e =? 2;
|}.
#[local] Existing Instance example_codec.
Lemma example_codec_laws : SignalCodecLaws.
Proof.
  split.
  - intros payload op mask. simpl. intros E. repeat case_match; simplify_eq. split; lia.
  - intros payload sel signal. simpl. intros E. repeat case_match; simplify_eq. lia.
  - intros payload signal kind options. simpl. intros E. repeat case_match; simplify_eq.
    rename select (_ && _ && _ = true) into Hg. rewrite !andb_true_iff, bool_decide_eq_true in Hg.
    destruct Hg as [? Hk]. split; [simpl; lia|]. set_solver.
  - done.
  - split; vm_compute; intros H; repeat (apply elem_of_cons in H as [H|H]; [done|]); by apply elem_of_nil in H.
  - intros d. by eexists.
  - intros [s k] bytes _ _ [= <-]. done.
Qed.
#[local] Existing Instance example_codec_laws.

Definition example_thread : Identity := mkIdentity 7 3.
(** Thread 3 of process 7 blocks signal 12, is sent 10, and the process 12 and 15. *)
Definition example_steps : list (SignalTable → SignalTable) :=
  [install_process 7 signal_state_default 0;
   λ t, (handle_thread_signal_request true (Some 1000) 7 example_thread 1 0 [4; signal_bit 12] t).1;
   λ t, (handle_thread_signal_request true (Some 1000) 7 example_thread 4 0 [0; 10] t).1;
   λ t, (enqueue_signal_with_origin 7 12 origin_system t).1;
   λ t, (enqueue_signal_with_origin 7 15 origin_system t).1].
Definition example_table : SignalTable := foldl (λ t f, f t) signals_new example_steps.
Lemma example_table_reachable : signal_reachable example_table.
Proof.
  unfold signal_reachable, example_table, example_steps. cbn [foldl].
  eapply rtc_l; [apply (step_bind _ 7); reflexivity|].
  eapply rtc_l; [apply step_thread|]. eapply rtc_l; [apply step_thread|].
  eapply rtc_l; [apply (step_generate _ 7 12); simpl; lia|]. apply rtc_once. apply (step_generate _ 7 15). simpl. lia.
Qed.
Lemma example_table_computed :
  signal_masks example_table !! key_of example_thread = Some (signal_bit 12) ∧
  is_Some (signals example_table !! 7) ∧ pend example_table 7 3 10 = true ∧ pend example_table 7 0 12 = true.
Proof. split_and!; vm_compute; [reflexivity|by eexists|reflexivity|reflexivity]. Qed.

Lemma signals_invariant_witness : signals_ok example_table.
Proof. apply signals_invariant. apply example_table_reachable. Defined.
Lemma generation_exact_witness :
  ∃ t', enqueue_signal_with_origin 7 SIGNAL_CONT origin_system example_table = (t', Ok tt) ∧
    enqueued 7 SIGNAL_CONT origin_system example_table t'.
Proof.
  apply (generation_exact example_table 7 SIGNAL_CONT origin_system).
  - apply example_table_reachable.
  - simpl. lia.
  - apply example_table_computed.
Defined.
Definition example_dequeued : SignalTable := (dequeue_signal_with_mask example_thread (signal_bit 12) example_table).1.
(** The thread's own signal comes first, though 12 is pending and blocked. *)
Lemma example_dequeue : dequeue_signal_with_mask example_thread (signal_bit 12) example_table = (example_dequeued, Ok [10; 1]).
Proof.
  assert ((dequeue_signal_with_mask example_thread (signal_bit 12) example_table).2 = Ok [10; 1]) as H
    by (vm_compute; reflexivity).
  rewrite <- H. apply surjective_pairing.
Qed.
Lemma example_not_idle : ¬ nothing_pending example_table example_thread (λ x, negb (in_mask (signal_bit 12) x)).
Proof.
  intros Hn. specialize (Hn 3 10 (or_introl eq_refl)).
  change (pend example_table 7 3 10 && negb (in_mask (signal_bit 12) 10) = false) in Hn.
  rewrite (proj1 (proj2 (proj2 example_table_computed))) in Hn. vm_compute in Hn. discriminate.
Qed.
Lemma delivery_completed_once_witness :
  ∃ t2, complete_signal_delivery true 7 [10; 1] example_dequeued = (t2, Ok tt) ∧
    (complete_signal_delivery true 7 [10; 1] t2).2 = Err STATUS_EAGAIN.
Proof.
  destruct (delivery_completed_once example_table example_thread (signal_bit 12) example_dequeued [10; 1]
    example_table_reachable (proj1 example_table_computed) (proj1 (proj2 example_table_computed)) example_dequeue
    example_not_idle) as (th & signal & t2 & _ & H1 & H2 & _).
  exists t2. split; [exact H1|exact H2].
Defined.
Lemma acceptance_exact_witness :
  wait_outcome 7 example_thread (signal_bit 12) 0 (λ _, true) example_table
    (try_wait_signal_info_with_reply 7 example_thread (signal_bit 12) 0 (λ _, true) example_table).
Proof. apply acceptance_exact; [apply example_table_reachable|split; vm_compute; discriminate]. Defined.
