(* ===== verification/RecordLock.v ===== *)
(** * Record locks

    Models [posix/src/record_lock.rs]: process-owned advisory byte-range
    locks.  The registry is the vector [entries] of the source, a list of
    [Lock]s; the operations build the replacement vector exactly as the loops
    of the source do (carve, push, sort, coalesce, check the quotas).

    [Kind] is the lock kind of the wire protocol crate, which is not part of
    this repository: the code only compares kinds and tests for
    [Kind::Write], so the model takes any type with those.  The outcome of
    [try_reserve] is the argument [alloc]. *)

From Stdlib Require Import Sorted Permutation.
From S2P Require Import Prelude PosixProtocol.

(** What the registry uses of [protocol::record_lock::Kind]. *)
Class LockKind := {
  Kind : Type;
  kind_eq_dec :: EqDecision Kind;
  Write : Kind;
}.

Definition MAX_LOCKS : Z := 4096.
Definition MAX_LOCKS_PER_PROCESS : Z := 128.
(** [END = i64::MAX as u64 + 1]. *)
Definition END : Z := I64_MAX + 1.

Record FileKey := mkFileKey { device : Z; inode : Z }.
#[global] Instance FileKey_eq_dec : EqDecision FileKey.
Proof. solve_decision. Defined.

Record Range := mkRange { start : Z; end_ : Z }.
#[global] Instance Range_eq_dec : EqDecision Range.
Proof. solve_decision. Defined.

Section RecordLock.
Context {LK : LockKind}.

Record Conflict := mkConflict {
  conflict_owner : Z;
  conflict_kind : Kind;
  conflict_range : Range;
}.

Inductive Error :=
  | InvalidRange
  | Overflow
  | WouldBlock (c : Conflict)
  | NoLocks.

Record Lock := mkLock {
  file : FileKey;
  owner : Z;
  kind : Kind;
  range : Range;
}.
#[global] Instance Lock_eq_dec : EqDecision Lock.
Proof. solve_decision. Defined.

(** [Range::normalize]: the [i128] sums cannot overflow on [i64] inputs. *)
Definition normalize (base offset length : Z) : result Error Range :=
  if base <? 0 then Err InvalidRange
  else
    let anchor := base + offset in
    if anchor <? 0 then Err InvalidRange
    else if anchor >? I64_MAX then Err Overflow
    else
      let '(s, e) :=
        if length <? 0 then (anchor + length, anchor)
        else if length =? 0 then (anchor, END)
        else (anchor, anchor + length) in
      if (s <? 0) || (e <=? s) then Err InvalidRange
      else if e >? END then Err Overflow
      else Ok (mkRange s e).

(** [Range::offset_length]. *)
Definition offset_length (r : Range) : Z * Z :=
  (start r, if end_ r =? END then 0 else end_ r - start r).

(** [Range::overlaps]. *)
Definition overlaps (r other : Range) : bool :=
  (start r <? end_ other) && (start other <? end_ r).

(** [Registry::has_owner], [has_file], [owns_file]. *)
Definition has_owner (entries : list Lock) (o : Z) : bool :=
  existsb (λ lock, owner lock =? o) entries.
Definition has_file (entries : list Lock) (f : FileKey) : bool :=
  existsb (λ lock, bool_decide (file lock = f)) entries.
Definition owns_file (entries : list Lock) (o : Z) (f : FileKey) : bool :=
  existsb (λ lock, (owner lock =? o) && bool_decide (file lock = f)) entries.

(** [Registry::release_file] and [retire_owner]. *)
Definition release_file (entries : list Lock) (o : Z) (f : FileKey) : list Lock :=
  List.filter (λ lock, negb (owner lock =? o) || negb (bool_decide (file lock = f))) entries.
Definition retire_owner (entries : list Lock) (o : Z) : list Lock :=
  List.filter (λ lock, negb (owner lock =? o)) entries.

(** [Registry::blockers]. *)
Definition blocks (o : Z) (f : FileKey) (k : Kind) (r : Range) (lock : Lock) : bool :=
  bool_decide (file lock = f) && negb (owner lock =? o) &&
  overlaps r (range lock) &&
  (bool_decide (k = Write) || bool_decide (kind lock = Write)).
Definition blockers (entries : list Lock) (o : Z) (f : FileKey) (k : Kind) (r : Range)
    : list Lock :=
  List.filter (blocks o f k r) entries.

(** [Iterator::min_by_key] with the key [(start, owner)]: the first minimum. *)
Definition conflict_key_ltb (a b : Lock) : bool :=
  (start (range a) <? start (range b)) ||
  ((start (range a) =? start (range b)) && (owner a <? owner b)).
Definition min_by_conflict_key (l : list Lock) : option Lock :=
  match l with
  | [] => None
  | x :: l => Some (fold_left (λ best y, if conflict_key_ltb y best then y else best) l x)
  end.

(** [Registry::conflict]. *)
Definition conflict (entries : list Lock) (o : Z) (f : FileKey) (k : Kind) (r : Range)
    : option Conflict :=
  match min_by_conflict_key (blockers entries o f k r) with
  | Some lock => Some (mkConflict (owner lock) (kind lock) (range lock))
  | None => None
  end.

Definition with_range (lock : Lock) (r : Range) : Lock :=
  mkLock (file lock) (owner lock) (kind lock) r.

(** The test that selects the entries [replace] and [replacement] cut. *)
Definition touched (o : Z) (f : FileKey) (r : Range) (lock : Lock) : bool :=
  (owner lock =? o) && bool_decide (file lock = f) && overlaps (range lock) r.

(** The pieces of one entry that [replacement] pushes. *)
Definition carve (o : Z) (f : FileKey) (r : Range) (lock : Lock) : list Lock :=
  if negb (touched o f r lock) then [lock]
  else
    (if start (range lock) <? start r
     then [with_range lock (mkRange (start (range lock)) (start r))] else []) ++
    (if end_ r <? end_ (range lock)
     then [with_range lock (mkRange (end_ r) (end_ (range lock)))] else []).

(** The sort key [(file, owner, range.start)], compared as Rust compares
    tuples and derived [Ord] structs. *)
Definition lex (c1 c2 : comparison) : comparison :=
  match c1 with Eq => c2 | _ => c1 end.
Definition key_compare (a b : Lock) : comparison :=
  lex (device (file a) ?= device (file b))
    (lex (inode (file a) ?= inode (file b))
      (lex (owner a ?= owner b) (start (range a) ?= start (range b)))).
Definition key_leb (a b : Lock) : bool :=
  match key_compare a b with Gt => false | _ => true end.

(** [sort_unstable_by_key].  Where the keys are distinct, as they are on
    every vector the registry sorts, every sort gives the same list. *)
Fixpoint insert_by_key (x : Lock) (l : list Lock) : list Lock :=
  match l with
  | [] => [x]
  | y :: l => if key_leb x y then x :: y :: l else y :: insert_by_key x l
  end.
Fixpoint sort_by_key (l : list Lock) : list Lock :=
  match l with
  | [] => []
  | x :: l => insert_by_key x (sort_by_key l)
  end.

(** The compaction loop: [acc] is [next[..used]], last element first. *)
Definition merges (last lock : Lock) : bool :=
  bool_decide (file last = file lock) && (owner last =? owner lock) &&
  bool_decide (kind last = kind lock) && (start (range lock) <=? end_ (range last)).
Definition coalesce_step (acc : list Lock) (lock : Lock) : list Lock :=
  match acc with
  | last :: rest =>
      if merges last lock
      then with_range last (mkRange (start (range last))
             (Z.max (end_ (range last)) (end_ (range lock)))) :: rest
      else lock :: acc
  | [] => [lock]
  end.
Definition coalesce (l : list Lock) : list Lock := reverse (fold_left coalesce_step l []).

Definition count_owner (o : Z) (l : list Lock) : Z :=
  zlen (List.filter (λ lock, owner lock =? o) l).

(** [Registry::replacement]. *)
Definition replacement (alloc : bool) (entries : list Lock) (o : Z) (f : FileKey)
    (r : Range) (k : option Kind) : result Error (list Lock) :=
  match k ≫= (λ k, conflict entries o f k r) with
  | Some c => Err (WouldBlock c)
  | None =>
      if negb alloc then Err NoLocks
      else
        let next := flat_map (carve o f r) entries ++
                    match k with Some k => [mkLock f o k r] | None => [] end in
        let next := coalesce (sort_by_key next) in
        if (zlen next >? MAX_LOCKS) || (count_owner o next >? MAX_LOCKS_PER_PROCESS)
        then Err NoLocks
        else Ok next
  end.

(** Whether an unlock cuts a hole in the middle of an entry. *)
Definition splits (entries : list Lock) (o : Z) (f : FileKey) (r : Range) : bool :=
  existsb (λ lock, (owner lock =? o) && bool_decide (file lock = f) &&
                   (start (range lock) <? start r) && (end_ r <? end_ (range lock))) entries.

(** The [retain_mut] closure of the in-place release: the entry to keep. *)
Definition trim (o : Z) (f : FileKey) (r : Range) (lock : Lock) : option Lock :=
  if negb (touched o f r lock) then Some lock
  else if start (range lock) <? start r
  then Some (with_range lock (mkRange (start (range lock)) (start r)))
  else if end_ r <? end_ (range lock)
  then Some (with_range lock (mkRange (end_ r) (end_ (range lock))))
  else None.

(** [Registry::replace]: the new entries, or the error with the entries kept. *)
Definition replace (alloc : bool) (entries : list Lock) (o : Z) (f : FileKey)
    (r : Range) (k : option Kind) : list Lock * result Error unit :=
  match k with
  | None =>
      if negb (splits entries o f r) then (omap (trim o f r) entries, Ok tt)
      else
        match replacement alloc entries o f r k with
        | Ok next => (next, Ok tt)
        | Err e => (entries, Err e)
        end
  | Some _ =>
      match replacement alloc entries o f r k with
      | Ok next => (next, Ok tt)
      | Err e => (entries, Err e)
      end
  end.

(** [Registry::prepare_set] and [commit_set]. *)
Definition prepare_set (alloc : bool) (entries : list Lock) (o : Z) (f : FileKey)
    (k : Kind) (r : Range) : result Error (list Lock) :=
  replacement alloc entries o f r (Some k).
Definition commit_set (entries prepared : list Lock) : list Lock := prepared.

(** [lock_status]. *)
Definition lock_status (e : Error) : Z :=
  match e with
  | InvalidRange => STATUS_EINVAL
  | Overflow => STATUS_EOVERFLOW
  | WouldBlock _ => -11
  | NoLocks => -37
  end.

(** ** One process's view: [OwnedLocks] *)

(** [protocol::record_lock]: the operations, origins and replies the service
    distinguishes. *)
Inductive Operation :=
  | Query (k : Kind)
  | SetLock (k : Kind)
  | Unlock
  | ReleaseFile.
Inductive Origin := Start | Current | End.
#[global] Instance Origin_eq_dec : EqDecision Origin.
Proof. solve_decision. Defined.
Record Request := mkRequest {
  operation : Operation;
  origin : Origin;
  req_start : Z;
  req_length : Z;
}.
Inductive Reply :=
  | Done
  | Unlocked
  | ReplyConflict (owner : Z) (kind : Kind) (start length : Z).

(** [struct OwnedLocks]: [publication] is the shared policy page's lock hint,
    when the process has such a page. *)
Record OwnedLocks := mkOwnedLocks {
  ol_owner : Z;
  registry : list Lock;
  publication : option bool;
}.

(** [OwnedLocks::publish]. *)
Definition publish (l : OwnedLocks) : OwnedLocks :=
  mkOwnedLocks (ol_owner l) (registry l)
    (match publication l with
     | Some _ => Some (has_owner (registry l) (ol_owner l))
     | None => None
     end).

Definition with_registry (l : OwnedLocks) (entries : list Lock) : OwnedLocks :=
  mkOwnedLocks (ol_owner l) entries (publication l).

(** [OwnedLocks::conflict], [set], [unlock] and [release_file]. *)
Definition owned_conflict (l : OwnedLocks) (f : FileKey) (k : Kind) (r : Range) :=
  conflict (registry l) (ol_owner l) f k r.
Definition owned_set (alloc : bool) (l : OwnedLocks) (f : FileKey) (k : Kind) (r : Range)
    : OwnedLocks * result Error unit :=
  let '(entries, res) := replace alloc (registry l) (ol_owner l) f r (Some k) in
  (publish (with_registry l entries), res).
Definition owned_unlock (alloc : bool) (l : OwnedLocks) (f : FileKey) (r : Range)
    : OwnedLocks * result Error unit :=
  let '(entries, res) := replace alloc (registry l) (ol_owner l) f r None in
  (publish (with_registry l entries), res).
Definition owned_release_file (l : OwnedLocks) (f : FileKey) : OwnedLocks :=
  publish (with_registry l (release_file (registry l) (ol_owner l) f)).

(** [OwnedLocks::apply]. *)
Definition apply (alloc : bool) (l : OwnedLocks) (f : FileKey) (req : Request)
    (current_position file_size : Z) : OwnedLocks * result Z Reply :=
  match operation req with
  | ReleaseFile =>
      if negb (bool_decide (origin req = Start)) || negb (req_start req =? 0) ||
         negb (req_length req =? 0)
      then (l, Err STATUS_EINVAL)
      else (owned_release_file l f, Ok Done)
  | op =>
      let base := match origin req with
                  | Start => 0
                  | Current => current_position
                  | End => file_size
                  end in
      match map_err lock_status (normalize base (req_start req) (req_length req)) with
      | Err e => (l, Err e)
      | Ok r =>
          match op with
          | Query k =>
              (l, Ok (match owned_conflict l f k r with
                      | Some c =>
                          let '(s, n) := offset_length (conflict_range c) in
                          ReplyConflict (conflict_owner c) (conflict_kind c) s n
                      | None => Unlocked
                      end))
          | SetLock k =>
              let '(l, res) := owned_set alloc l f k r in
              (l, map_err lock_status ((λ _, Done) <$> res))
          | _ =>
              let '(l, res) := owned_unlock alloc l f r in
              (l, map_err lock_status ((λ _, Done) <$> res))
          end
      end
  end.

(** ** Abstract view: which bytes a process holds, and how *)

Definition in_range (b : Z) (r : Range) : Prop := start r ≤ b < end_ r.

(** [holds l o f b k]: process [o] holds byte [b] of file [f] with kind [k]. *)
Definition holds (l : list Lock) (o : Z) (f : FileKey) (b : Z) (k : Kind) : Prop :=
  ∃ lock, lock ∈ l ∧ owner lock = o ∧ file lock = f ∧ kind lock = k ∧ in_range b (range lock).

Lemma holds_cons x l o f b k :
  holds (x :: l) o f b k ↔
  (owner x = o ∧ file x = f ∧ kind x = k ∧ in_range b (range x)) ∨ holds l o f b k.
Proof. unfold holds. setoid_rewrite elem_of_cons. naive_solver. Qed.
Lemma holds_nil o f b k : holds [] o f b k ↔ False.
Proof. unfold holds. setoid_rewrite elem_of_nil. naive_solver. Qed.
Lemma holds_app l1 l2 o f b k :
  holds (l1 ++ l2) o f b k ↔ holds l1 o f b k ∨ holds l2 o f b k.
Proof. unfold holds. setoid_rewrite elem_of_app. naive_solver. Qed.
Lemma holds_perm l1 l2 o f b k :
  l1 ≡ₚ l2 → holds l1 o f b k ↔ holds l2 o f b k.
Proof. intros E. unfold holds. by setoid_rewrite E. Qed.

Lemma overlaps_spec r1 r2 : overlaps r1 r2 = true ↔ start r1 < end_ r2 ∧ start r2 < end_ r1.
Proof. unfold overlaps. lia. Qed.

Lemma touched_spec o f r x :
  touched o f r x = true ↔ owner x = o ∧ file x = f ∧ overlaps (range x) r = true.
Proof.
  unfold touched. rewrite !andb_true_iff, Z.eqb_eq, bool_decide_eq_true. tauto.
Qed.

(** *** Carving *)

Lemma carve_holds o f r x o' f' b k :
  holds (carve o f r x) o' f' b k ↔
  owner x = o' ∧ file x = f' ∧ kind x = k ∧ in_range b (range x) ∧
  ¬ (o' = o ∧ f' = f ∧ in_range b r).
Proof.
  unfold carve. destruct (touched o f r x) eqn:E; simpl.
  - apply touched_spec in E as (<- & <- & E). apply overlaps_spec in E.
    rewrite holds_app. destruct (start (range x) <? start r) eqn:E1;
      destruct (end_ r <? end_ (range x)) eqn:E2; rewrite ?holds_cons, !holds_nil;
      unfold in_range; simpl; clear -E E1 E2;
      (destruct (decide (owner x = o' ∧ file x = f' ∧ kind x = k)) as [(<- & <- & <-)|];
        [|tauto]);
      (split; [intros; destruct_or?; destruct_and?; try done;
               split_and!; try done; try lia; intros (_ & _ & ?); lia|]);
      intros (_ & _ & _ & Hb & Hn);
      (assert (b < start r ∨ end_ r ≤ b) as [Hc|Hc]
        by (destruct (decide (start r ≤ b < end_ r)); [tauto|lia]));
      first [lia | left; left; split_and!; done || lia | left; split_and!; done || lia
            | right; left; split_and!; done || lia].
  - rewrite holds_cons, holds_nil. apply not_true_iff_false in E.
    rewrite touched_spec, overlaps_spec in E. unfold in_range. split; [|tauto].
    intros [(<- & <- & <- & ?)|[]]. split_and!; try done; try lia.
    intros (? & ? & ?). apply E. split_and!; [done..|lia|lia].
Qed.

Lemma flat_map_carve_holds o f r l o' f' b k :
  holds (flat_map (carve o f r) l) o' f' b k ↔
  holds l o' f' b k ∧ ¬ (o' = o ∧ f' = f ∧ in_range b r).
Proof.
  induction l as [|x l IH]; simpl.
  - rewrite holds_nil. tauto.
  - rewrite holds_app, carve_holds, IH, holds_cons. tauto.
Qed.

(** *** Sorting *)

Lemma key_compare_spec a b :
  CompareSpec
    (device (file a) = device (file b) ∧ inode (file a) = inode (file b) ∧
     owner a = owner b ∧ start (range a) = start (range b))
    (device (file a) < device (file b) ∨ device (file a) = device (file b) ∧
      (inode (file a) < inode (file b) ∨ inode (file a) = inode (file b) ∧
        (owner a < owner b ∨ owner a = owner b ∧ start (range a) < start (range b))))
    (device (file b) < device (file a) ∨ device (file a) = device (file b) ∧
      (inode (file b) < inode (file a) ∨ inode (file a) = inode (file b) ∧
        (owner b < owner a ∨ owner a = owner b ∧ start (range b) < start (range a))))
    (key_compare a b).
Proof.
  unfold key_compare, lex.
  destruct (Z.compare_spec (device (file a)) (device (file b))); [|constructor; lia..].
  destruct (Z.compare_spec (inode (file a)) (inode (file b))); [|constructor; lia..].
  destruct (Z.compare_spec (owner a) (owner b)); [|constructor; lia..].
  destruct (Z.compare_spec (start (range a)) (start (range b))); constructor; lia.
Qed.

Lemma file_eq a b :
  device (file a) = device (file b) → inode (file a) = inode (file b) → file a = file b.
Proof. destruct (file a), (file b); simpl; congruence. Qed.

(** [group_lt]: the order of the [(file, owner)] part of the key. *)
Definition group_lt (a b : Lock) : Prop :=
  device (file a) < device (file b) ∨ device (file a) = device (file b) ∧
  (inode (file a) < inode (file b) ∨ inode (file a) = inode (file b) ∧ owner a < owner b).
Definition same_group (a b : Lock) : Prop := file a = file b ∧ owner a = owner b.

Definition key_le (a b : Lock) : Prop :=
  group_lt a b ∨ same_group a b ∧ start (range a) ≤ start (range b).

Lemma key_leb_spec a b : key_leb a b = true ↔ key_le a b.
Proof.
  unfold key_leb, key_le, group_lt, same_group.
  destruct (key_compare_spec a b) as [H|H|H]; split; try done.
  - intros _. right. split; [split|]; [apply file_eq; lia|lia..].
  - intros _. destruct H as [?|(?&[?|(?&[?|(?&?)])])]; [left; lia..|].
    right. split; [split|]; [apply file_eq; lia|lia..].
  - intros [?|[[E ?] ?]]; [lia|]. rewrite E in H. lia.
Qed.

Lemma key_le_total a b : key_leb a b = false → key_le b a.
Proof.
  intros E. unfold key_leb in E.
  destruct (key_compare_spec a b) as [H|H|H]; try done.
  unfold key_le, group_lt, same_group.
  destruct H as [?|(?&[?|(?&[?|(?&?)])])]; [left; lia..|].
  right. split; [split|]; [apply file_eq; lia|lia..].
Qed.

Lemma key_le_trans a b c : key_le a b → key_le b c → key_le a c.
Proof.
  unfold key_le, group_lt, same_group.
  intros [?|[[E1 ?] ?]] [?|[[E2 ?] ?]].
  - left; lia.
  - left. rewrite <- E2. lia.
  - left. rewrite E1. lia.
  - right. split; [split; [congruence|lia]|lia].
Qed.

Lemma insert_by_key_perm x l : insert_by_key x l ≡ₚ x :: l.
Proof.
  induction l as [|y l IH]; simpl; [done|].
  destruct (key_leb x y); [done|]. rewrite IH. apply perm_swap.
Qed.
Lemma sort_by_key_perm l : sort_by_key l ≡ₚ l.
Proof.
  induction l as [|x l IH]; simpl; [done|]. by rewrite insert_by_key_perm, IH.
Qed.

Lemma insert_by_key_sorted x l :
  StronglySorted key_le l → StronglySorted key_le (insert_by_key x l).
Proof.
  induction 1 as [|y l Hs IH Hall]; simpl; [by repeat constructor|].
  destruct (key_leb x y) eqn:E.
  - apply key_leb_spec in E. constructor; [by constructor|].
    constructor; [done|]. eapply Forall_impl; [exact Hall|]. intros z Hz. by apply (key_le_trans _ y).
  - constructor; [done|]. rewrite insert_by_key_perm. constructor; [|done].
    by apply key_le_total.
Qed.
Lemma sort_by_key_sorted l : StronglySorted key_le (sort_by_key l).
Proof.
  induction l as [|x l IH]; simpl; [constructor|]. by apply insert_by_key_sorted.
Qed.

(** *** Coalescing *)

Definition valid_range (r : Range) : Prop := 0 ≤ start r < end_ r ∧ end_ r ≤ END.
Definition valid (x : Lock) : Prop := valid_range (range x).

(** Ordered and disjoint; ordered, disjoint and not mergeable. *)
Definition presep (a b : Lock) : Prop :=
  group_lt a b ∨ same_group a b ∧ end_ (range a) ≤ start (range b).
Definition sep (a b : Lock) : Prop :=
  group_lt a b ∨ same_group a b ∧
  (end_ (range a) < start (range b) ∨
   end_ (range a) = start (range b) ∧ kind a ≠ kind b).

Lemma merges_spec a b :
  merges a b = true ↔
  same_group a b ∧ kind a = kind b ∧ start (range b) ≤ end_ (range a).
Proof.
  unfold merges, same_group.
  rewrite !andb_true_iff, !bool_decide_eq_true, Z.eqb_eq, Z.leb_le. tauto.
Qed.

Lemma group_lt_trans a b c : group_lt a b → group_lt b c → group_lt a c.
Proof. unfold group_lt. lia. Qed.
Lemma group_lt_same_l a b c : same_group a b → group_lt b c → group_lt a c.
Proof. unfold group_lt, same_group. intros [-> ->]. done. Qed.
Lemma group_lt_same_r a b c : group_lt a b → same_group b c → group_lt a c.
Proof. unfold group_lt, same_group. intros ? [<- <-]. done. Qed.
Lemma same_group_trans a b c : same_group a b → same_group b c → same_group a c.
Proof. unfold same_group. intuition congruence. Qed.
Lemma group_lt_irrefl a b : same_group a b → group_lt a b → False.
Proof. unfold group_lt, same_group. intros [-> ->]. lia. Qed.
Lemma group_lt_asym a b : group_lt a b → group_lt b a → False.
Proof. unfold group_lt. lia. Qed.

Lemma presep_key_le a b : valid a → presep a b → key_le a b.
Proof. intros [? ?] [?|[? ?]]; [by left|right]. split; [done|lia]. Qed.
Lemma sep_presep a b : sep a b → presep a b.
Proof. intros [?|[? ?]]; [by left|right]. split; [done|lia]. Qed.

Lemma sep_presep_trans a b c : valid b → sep a b → presep b c → sep a c.
Proof.
  intros [Hv _] [H1|[H1 H2]] [H3|[H3 H4]].
  - left. by eapply group_lt_trans.
  - left. by eapply group_lt_same_r.
  - left. by eapply group_lt_same_l.
  - right. split; [by eapply same_group_trans|]. lia.
Qed.

Lemma presep_not_merges a b : presep a b → merges a b = false → sep a b.
Proof.
  intros [H|[H1 H2]] Hm; [by left|]. right. split; [done|].
  apply not_true_iff_false in Hm. rewrite merges_spec in Hm.
  destruct (decide (end_ (range a) = start (range b))); [|lia].
  right. split; [done|]. intros ?. apply Hm. split_and!; [done..|lia].
Qed.

(** The state of the compaction loop: [acc] compacted, [rest] to come. *)
Record loop_inv (acc rest : list Lock) : Prop := mkLoopInv {
  li_sorted : StronglySorted (flip sep) acc;
  li_valid : Forall valid acc;
  li_rest : StronglySorted presep rest;
  li_rest_valid : Forall valid rest;
  li_cross : ∀ a r, a ∈ acc → r ∈ rest → presep a r;
}.

Definition merged (last lock : Lock) : Lock :=
  with_range last (mkRange (start (range last)) (Z.max (end_ (range last)) (end_ (range lock)))).

Lemma coalesce_step_inv acc x rest :
  loop_inv acc (x :: rest) → loop_inv (coalesce_step acc x) rest.
Proof.
  intros [Hs Hv Hr Hrv Hc].
  apply StronglySorted_inv in Hr as [Hr Hx]. rewrite Forall_forall in Hx.
  inversion Hrv as [|? ? Hxv Hrv']; subst. destruct acc as [|last acc]; simpl.
  { split; [| |done|done|].
    - constructor; constructor.
    - constructor; [done|constructor].
    - intros a r ->%list_elem_of_singleton. apply Hx. }
  pose proof (Hc last x ltac:(left) ltac:(left)) as Hlx.
  apply StronglySorted_inv in Hs as Hs'. destruct Hs' as [Hs' Hla].
  rewrite Forall_forall in Hla. inversion Hv as [|? ? Hlv Hv']; subst.
  destruct (merges last x) eqn:Em.
  - apply merges_spec in Em as (Hg & Hk & Hle). destruct Hxv as [Hxv1 Hxv2].
    destruct Hlv as [Hlv1 Hlv2].
    split; try done.
    + constructor; [done|]. apply Forall_forall. intros a Ha.
      destruct (Hla a Ha) as [?|[? ?]]; [by left|by right].
    + constructor; [|done]. split; simpl; lia.
    + intros a r [->|Ha]%elem_of_cons Hin; [|apply Hc; [by right|by right]].
      destruct (Hc last r ltac:(left) ltac:(by right)) as [?|[? ?]]; [by left|].
      destruct (Hx r Hin) as [?|[? ?]].
      * left. exact (group_lt_same_l last x r Hg ltac:(done)).
      * right. split; [done|]. simpl. lia.
  - split; try done.
    + constructor; [done|]. apply Forall_forall. intros a [->|Ha]%elem_of_cons.
      * by apply presep_not_merges.
      * eapply sep_presep_trans; [exact Hlv|by apply Hla|done].
    + by constructor.
    + intros a r [->|Ha]%elem_of_cons Hin; [by apply Hx|]. apply Hc; [done|by right].
Qed.

Lemma coalesce_step_holds acc x rest o f b k :
  loop_inv acc (x :: rest) →
  holds (coalesce_step acc x) o f b k ↔ holds acc o f b k ∨ holds [x] o f b k.
Proof.
  intros Hi. destruct acc as [|last acc]; simpl; [rewrite !holds_cons, holds_nil; tauto|].
  destruct (merges last x) eqn:Em.
  2:{ rewrite !holds_cons, holds_nil. tauto. }
  apply merges_spec in Em as ([Hf Ho] & Hk & Hle).
  pose proof (li_cross _ _ Hi last x ltac:(left) ltac:(left)) as Hp.
  pose proof (li_valid _ _ Hi) as Hv. inversion Hv as [|? ? [Hv1 _] _]; subst.
  pose proof (li_rest_valid _ _ Hi) as Hr. inversion Hr as [|? ? [Hr1 _] _]; subst.
  assert (start (range last) ≤ start (range x)).
  { destruct Hp as [Hp|[_ ?]]; [|lia]. exfalso. by eapply group_lt_irrefl. }
  rewrite !holds_cons, holds_nil. simpl. rewrite <- Hf, <- Ho, <- Hk. unfold in_range. simpl.
  assert (start (range last) ≤ b < Z.max (end_ (range last)) (end_ (range x)) ↔
          start (range last) ≤ b < end_ (range last) ∨ start (range x) ≤ b < end_ (range x))
    as -> by lia.
  tauto.
Qed.

Lemma coalesce_step_count acc x o :
  count_owner o (coalesce_step acc x) ≤ count_owner o acc + count_owner o [x].
Proof.
  unfold count_owner. destruct acc as [|last acc]; simpl; [case_ifs; autorewrite with mochi; lia|].
  destruct (merges last x) eqn:Em; simpl; case_ifs; autorewrite with mochi; lia.
Qed.

Lemma coalesce_fold acc rest o f b k :
  loop_inv acc rest →
  let out := fold_left coalesce_step rest acc in
  loop_inv out [] ∧
  (holds out o f b k ↔ holds acc o f b k ∨ holds rest o f b k) ∧
  count_owner o out ≤ count_owner o acc + count_owner o rest.
Proof.
  revert acc. induction rest as [|x rest IH]; intros acc Hi; simpl.
  - split_and!; [done| |].
    + rewrite holds_nil. tauto.
    + unfold count_owner. simpl. rewrite zlen_nil. lia.
  - destruct (IH (coalesce_step acc x)) as (H1 & H2 & H3); [by apply coalesce_step_inv|].
    split_and!; [done| |].
    + rewrite H2, (coalesce_step_holds acc x rest) by done.
      rewrite !(holds_cons x), holds_nil. tauto.
    + pose proof (coalesce_step_count acc x o). unfold count_owner in *. simpl in *.
      destruct (owner x =? o); autorewrite with mochi in *; lia.
Qed.

Lemma StronglySorted_reverse {A} (R : A → A → Prop) l :
  StronglySorted R l → StronglySorted (flip R) (reverse l).
Proof.
  induction 1 as [|x l Hs IH Hall]; [constructor|].
  rewrite Forall_forall in Hall. rewrite reverse_cons.
  assert (∀ l', StronglySorted (flip R) l' → (∀ y, y ∈ l' → R x y) →
    StronglySorted (flip R) (l' ++ [x])) as Happ.
  { induction 1 as [|y l' Hs' IH' Hall']; intros Hx; simpl; [by repeat constructor|].
    constructor.
    - apply IH'. intros z Hz. apply Hx. by right.
    - apply Forall_app. split; [done|]. constructor; [|constructor]. apply Hx. by left. }
  apply Happ; [done|]. intros y Hy. apply Hall. by apply elem_of_reverse.
Qed.

(** *** The vector before compaction: carved pieces and the new lock *)

Definition apart (a b : Lock) : Prop :=
  ¬ same_group a b ∨ end_ (range a) ≤ start (range b) ∨ end_ (range b) ≤ start (range a).

Lemma StronglySorted_perm {A} (R : A → A → Prop) `{!Symmetric R} l l' :
  l ≡ₚ l' → StronglySorted R l → StronglySorted R l'.
Proof.
  induction 1 as [|x l l' Hp IH|x y l|]; intros Hs; auto.
  - apply StronglySorted_inv in Hs as [Hs Hx]. constructor; [auto|]. by rewrite <- Hp.
  - apply StronglySorted_inv in Hs as [Hs Hx]. apply StronglySorted_inv in Hs as [Hs Hy].
    inversion Hx; subst. constructor; [by constructor|]. constructor; [by symmetry|done].
Qed.

Lemma StronglySorted_app_iff {A} (R : A → A → Prop) l1 l2 :
  StronglySorted R (l1 ++ l2) ↔
  StronglySorted R l1 ∧ StronglySorted R l2 ∧ ∀ x y, x ∈ l1 → y ∈ l2 → R x y.
Proof.
  induction l1 as [|a l1 IH]; simpl.
  - split; [intros; split_and!; [constructor|done|set_solver]|tauto].
  - split.
    + intros [Hs Ha]%StronglySorted_inv. apply IH in Hs as (H1 & H2 & H3).
      apply Forall_app in Ha as [Ha1 Ha2]. rewrite Forall_forall in Ha2.
      split_and!; [by constructor|done|]. intros x y [->|?]%elem_of_cons; auto.
    + intros ([Hs Ha]%StronglySorted_inv & H2 & H3). constructor.
      * apply IH. split_and!; [done..|]. intros. apply H3; [by right|done].
      * apply Forall_app. split; [done|]. apply Forall_forall. intros. apply H3; [by left|done].
Qed.

Lemma StronglySorted_pairs {A} (R S T : A → A → Prop) (P : A → Prop) l :
  (∀ a b, P a → P b → R a b → S a b → T a b) →
  Forall P l → StronglySorted R l → StronglySorted S l → StronglySorted T l.
Proof.
  intros H HP HR. revert HP. induction HR as [|x l HR IH Hx]; intros HP HS; [constructor|].
  apply StronglySorted_inv in HS as [HS HSx]. inversion HP; subst. constructor; [by apply IH|].
  rewrite Forall_forall in *. intros y Hy. apply H; auto.
Qed.

#[local] Instance apart_sym : Symmetric apart.
Proof. unfold apart, same_group. intros a b [H|H]; [left; intros [? ?]; by apply H|right; lia]. Qed.

Lemma carve_piece o f r x p :
  p ∈ carve o f r x →
  file p = file x ∧ owner p = owner x ∧ kind p = kind x ∧
  start (range x) ≤ start (range p) ∧ end_ (range p) ≤ end_ (range x) ∧
  (valid x → valid p) ∧
  (owner x = o → file x = f → end_ (range p) ≤ start r ∨ end_ r ≤ start (range p)).
Proof.
  unfold carve, valid, valid_range. destruct (touched o f r x) eqn:E; simpl.
  - apply touched_spec in E as (_ & _ & E). apply overlaps_spec in E.
    destruct (start (range x) <? start r) eqn:E1; destruct (end_ r <? end_ (range x)) eqn:E2;
      simpl; intros Hp; repeat (apply elem_of_cons in Hp as [->|Hp]); try set_solver;
      simpl; split_and!; try done; try lia.
  - intros ->%list_elem_of_singleton. split_and!; try done.
    intros Ho Hf. apply not_true_iff_false in E. rewrite touched_spec, overlaps_spec in E.
    destruct (decide (start (range x) < end_ r ∧ start r < end_ (range x))); [tauto|lia].
Qed.

Lemma carve_apart o f r x :
  start r ≤ end_ r → StronglySorted apart (carve o f r x).
Proof.
  intros Hr. unfold carve. case_ifs; simpl; by repeat constructor.
Qed.

Lemma flat_map_carve_elem o f r l p :
  p ∈ flat_map (carve o f r) l → ∃ x, x ∈ l ∧ p ∈ carve o f r x.
Proof.
  induction l as [|y l IH]; simpl; [set_solver|].
  intros [?|?]%elem_of_app; [set_solver|]. destruct IH as (x & ? & ?); set_solver.
Qed.

Lemma sep_apart_pieces a b p q :
  sep a b →
  file p = file a → owner p = owner a → end_ (range p) ≤ end_ (range a) →
  file q = file b → owner q = owner b → start (range b) ≤ start (range q) →
  apart p q.
Proof.
  intros [H|[H1 H2]] Ef Eo Ee Fq Fo Fs; [left|right; left; lia].
  intros [? ?]. apply (group_lt_irrefl a b); [|done]. split; congruence.
Qed.

Lemma flat_map_carve_apart o f r l :
  start r ≤ end_ r → StronglySorted sep l → StronglySorted apart (flat_map (carve o f r) l).
Proof.
  intros Hr. induction 1 as [|x l Hs IH Hx]; simpl; [constructor|].
  rewrite Forall_forall in Hx. apply StronglySorted_app_iff.
  split_and!; [by apply carve_apart|done|]. intros p q Hp (y & Hy & Hq)%flat_map_carve_elem.
  apply carve_piece in Hp as (?&?&_&?&?&_). apply carve_piece in Hq as (?&?&_&?&?&_).
  by eapply (sep_apart_pieces x y); auto.
Qed.

Definition new_lock (o : Z) (f : FileKey) (r : Range) (k : option Kind) : list Lock :=
  match k with Some k => [mkLock f o k r] | None => [] end.

Lemma uncompacted_inv o f r k l :
  Forall valid l → StronglySorted sep l → valid_range r →
  loop_inv [] (sort_by_key (flat_map (carve o f r) l ++ new_lock o f r k)).
Proof.
  intros Hv Hs Hr. set (next := _ ++ _).
  assert (Hval : Forall valid next).
  { apply Forall_app. split.
    - apply Forall_forall. intros p (x & Hx & Hp)%flat_map_carve_elem.
      apply carve_piece in Hp as (_&_&_&_&_&Hp&_). apply Hp. by eapply Forall_forall.
    - destruct k; repeat constructor; apply Hr. }
  assert (Hap : StronglySorted apart next).
  { apply StronglySorted_app_iff. split_and!.
    - apply flat_map_carve_apart; [|done]. destruct Hr. lia.
    - destruct k; simpl; repeat constructor.
    - intros p q (x & Hx & Hp)%flat_map_carve_elem Hq. destruct k; [|set_solver].
      apply list_elem_of_singleton in Hq as ->.
      apply carve_piece in Hp as (Hf & Ho & _ & _ & _ & _ & Hp).
      destruct (decide (owner x = o ∧ file x = f)) as [[? ?]|N].
      + right. simpl. auto.
      + left. intros [? ?]. simpl in *. apply N. split; congruence. }
  split; [constructor|constructor| |by rewrite sort_by_key_perm|set_solver].
  eapply (StronglySorted_pairs key_le apart _ valid).
  - intros a b [Ha _] [Hb _] [?|[? ?]] [N|?]; [by left..|done|right]. split; [done|lia].
  - by rewrite sort_by_key_perm.
  - apply sort_by_key_sorted.
  - apply (StronglySorted_perm _ next); [by rewrite sort_by_key_perm|done].
Qed.

(** *** Registry invariant *)

(** No byte of a file is held by one process while another holds it for
    writing. *)
Definition exclusive (l : list Lock) : Prop :=
  ∀ o1 o2 f b k1 k2, o1 ≠ o2 → holds l o1 f b k1 → holds l o2 f b k2 → k1 ≠ Write ∧ k2 ≠ Write.

Record registry_ok (l : list Lock) : Prop := mkRegistryOk {
  ok_valid : Forall valid l;
  ok_sep : StronglySorted sep l;
  ok_exclusive : exclusive l;
  ok_total : zlen l ≤ MAX_LOCKS;
  ok_quota : ∀ o, count_owner o l ≤ MAX_LOCKS_PER_PROCESS;
}.

#[global] Instance count_owner_perm o : Proper (Permutation ==> eq) (count_owner o).
Proof.
  unfold count_owner. induction 1 as [|x l l' Hp IH|x y l|]; simpl; try done.
  - destruct (owner x =? o); autorewrite with mochi; lia.
  - destruct (owner x =? o), (owner y =? o); autorewrite with mochi; lia.
  - lia.
Qed.

Lemma coalesce_ok o f b k l :
  loop_inv [] l →
  Forall valid (coalesce l) ∧ StronglySorted sep (coalesce l) ∧
  (holds (coalesce l) o f b k ↔ holds l o f b k) ∧
  count_owner o (coalesce l) ≤ count_owner o l.
Proof.
  intros Hi. destruct (coalesce_fold [] l o f b k Hi) as (H1 & H2 & H3). unfold coalesce.
  split_and!.
  - rewrite reverse_Permutation. apply (li_valid _ _ H1).
  - change sep with (flip (flip sep)). apply StronglySorted_reverse, (li_sorted _ _ H1).
  - rewrite (holds_perm _ _ _ _ _ _ (reverse_Permutation _)), H2, holds_nil. tauto.
  - rewrite reverse_Permutation. unfold count_owner at 2 in H3. simpl in H3.
    rewrite zlen_nil in H3. lia.
Qed.

(** *** Conflicts *)

Lemma min_by_conflict_key_none l : min_by_conflict_key l = None ↔ l = [].
Proof. by destruct l. Qed.

Lemma min_by_conflict_key_some l x :
  min_by_conflict_key l = Some x →
  x ∈ l ∧ ∀ y, y ∈ l → conflict_key_ltb y x = false.
Proof.
  destruct l as [|a l]; [done|]. simpl. intros [= <-].
  revert a. induction l as [|c l IH]; intros a; simpl.
  - split; [by left|]. intros y ->%list_elem_of_singleton. unfold conflict_key_ltb. lia.
  - destruct (conflict_key_ltb c a) eqn:E.
    + destruct (IH c) as [H1 H2]. split; [set_solver|].
      intros y [->|Hy]%elem_of_cons; [|auto].
      specialize (H2 c ltac:(by left)). unfold conflict_key_ltb in *. lia.
    + destruct (IH a) as [H1 H2]. split; [set_solver|].
      intros y [->|[->|Hy]%elem_of_cons]%elem_of_cons; [apply H2; by left| |apply H2; by right].
      specialize (H2 a ltac:(by left)). unfold conflict_key_ltb in *. lia.
Qed.

Lemma blockers_elem l o f k r x :
  x ∈ blockers l o f k r ↔
  x ∈ l ∧ file x = f ∧ owner x ≠ o ∧ overlaps r (range x) = true ∧ (k = Write ∨ kind x = Write).
Proof.
  unfold blockers, blocks. rewrite list_elem_of_In, filter_In, <- list_elem_of_In.
  rewrite !andb_true_iff, orb_true_iff, negb_true_iff, Z.eqb_neq, !bool_decide_eq_true. tauto.
Qed.

Lemma conflict_none l o f k r :
  Forall valid l → valid_range r →
  conflict l o f k r = None ↔
  ∀ b o' k', in_range b r → o' ≠ o → holds l o' f b k' → k ≠ Write ∧ k' ≠ Write.
Proof.
  intros Hv [Hr _]. unfold conflict.
  assert (conflict l o f k r = None ↔ blockers l o f k r = []) as Hn.
  { rewrite <- min_by_conflict_key_none. unfold conflict. by destruct (min_by_conflict_key _). }
  unfold conflict in Hn. rewrite Hn. split.
  - intros Hb b o' k' Hin Ho (x & Hx & <- & Hf & <- & Hbx).
    assert (x ∉ blockers l o f k r) as N by (rewrite Hb; set_solver).
    rewrite blockers_elem, overlaps_spec in N. unfold in_range in *.
    split; intros ?; apply N; split_and!; auto; lia.
  - intros H. destruct (blockers l o f k r) as [|x xs] eqn:E; [done|exfalso].
    assert (x ∈ blockers l o f k r) as Hx by (rewrite E; by left).
    rewrite blockers_elem, overlaps_spec in Hx. destruct Hx as (Hx & Hf & Ho & Hov & Hw).
    rewrite Forall_forall in Hv. destruct (Hv x Hx) as [Hvx _].
    destruct (H (Z.max (start r) (start (range x))) (owner x) (kind x)); [unfold in_range; lia|done| |].
    + exists x. unfold in_range. split_and!; try done; lia.
    + naive_solver.
Qed.

(** *** Successful replacements *)

Definition compacted (o : Z) (f : FileKey) (r : Range) (k : option Kind) (l : list Lock) :=
  coalesce (sort_by_key (flat_map (carve o f r) l ++ new_lock o f r k)).

Lemma replacement_ok alloc l o f r k next :
  replacement alloc l o f r k = Ok next ↔
  alloc = true ∧ (∀ k', k = Some k' → conflict l o f k' r = None) ∧
  next = compacted o f r k l ∧ zlen next ≤ MAX_LOCKS ∧
  count_owner o next ≤ MAX_LOCKS_PER_PROCESS.
Proof.
  unfold replacement. fold (new_lock o f r k). fold (compacted o f r k l).
  destruct (k ≫= (λ k0, conflict l o f k0 r)) as [c|] eqn:Ec.
  { split; [done|]. intros (_ & Hc & _). destruct k; simpl in Ec; [|done].
    specialize (Hc _ eq_refl). congruence. }
  destruct alloc; simpl; [|naive_solver].
  destruct (_ || _) eqn:E.
  - split; [done|]. intros (_ & _ & -> & ? & ?). lia.
  - split.
    + intros [= <-]. split_and!; [done| |done|lia|lia]. by intros k' ->.
    + by intros (_ & _ & -> & _).
Qed.

Lemma compacted_holds l o f r k o' f' b k' :
  Forall valid l → StronglySorted sep l → valid_range r →
  holds (compacted o f r k l) o' f' b k' ↔
  (o' = o ∧ f' = f ∧ in_range b r ∧ k = Some k') ∨
  (¬ (o' = o ∧ f' = f ∧ in_range b r) ∧ holds l o' f' b k').
Proof.
  intros Hv Hs Hr. pose proof (uncompacted_inv o f r k l Hv Hs Hr) as Hi.
  destruct (coalesce_ok o' f' b k' _ Hi) as (_ & _ & H & _).
  unfold compacted. rewrite H.
  rewrite (holds_perm _ _ _ _ _ _ (sort_by_key_perm _)), holds_app, flat_map_carve_holds.
  unfold new_lock. destruct k as [k|]; rewrite ?holds_cons, ?holds_nil; simpl; naive_solver.
Qed.

Lemma count_owner_app o l1 l2 : count_owner o (l1 ++ l2) = count_owner o l1 + count_owner o l2.
Proof. unfold count_owner. by rewrite List.filter_app, zlen_app. Qed.

(** Cutting and compacting never give another process more entries. *)
Lemma compacted_count_other l o f r k o' :
  Forall valid l → StronglySorted sep l → valid_range r → o' ≠ o →
  count_owner o' (compacted o f r k l) ≤ count_owner o' l.
Proof.
  intros Hv Hs Hr Ho. pose proof (uncompacted_inv o f r k l Hv Hs Hr) as Hi.
  destruct (coalesce_ok o' f 0 Write _ Hi) as (_ & _ & _ & H).
  fold (compacted o f r k l) in H.
  rewrite (count_owner_perm o' _ _ (sort_by_key_perm _)), count_owner_app in H.
  assert (count_owner o' (new_lock o f r k) = 0) as E.
  { unfold count_owner. destruct k; simpl; [|done].
    by replace (o =? o') with false by lia. }
  assert (count_owner o' (flat_map (carve o f r) l) = count_owner o' l) as E'; [|lia].
  clear -Ho. induction l as [|x l IH]; simpl; [done|].
  rewrite count_owner_app, IH. change (x :: l) with ([x] ++ l). rewrite count_owner_app.
  f_equal. unfold carve. destruct (touched o f r x) eqn:T; [|done].
  apply touched_spec in T as (T & _). simpl.
  unfold count_owner. case_ifs; simpl; rewrite ?T; by replace (o =? o') with false by lia.
Qed.

(** *** Canonical form: the held bytes determine the entries *)

Lemma holds_ge y l x b k :
  StronglySorted sep (y :: l) → Forall valid (y :: l) →
  holds (y :: l) (owner x) (file x) b k →
  group_lt y x ∨ same_group y x ∧ start (range y) ≤ b.
Proof.
  intros [_ Hs]%StronglySorted_inv Hv (z & Hz & Ho & Hf & _ & Hb).
  rewrite Forall_forall in Hs, Hv. destruct (Hv y ltac:(by left)) as [Hvy _].
  unfold in_range in Hb. apply elem_of_cons in Hz as [->|Hz].
  - right. split; [by split|]. lia.
  - destruct (Hs z Hz) as [H|[H H']].
    + left. eapply group_lt_same_r; [exact H|]. by split.
    + right. split; [eapply same_group_trans; [exact H|]; by split|]. lia.
Qed.

Lemma holds_head y l b k :
  StronglySorted sep (y :: l) → in_range b (range y) →
  holds (y :: l) (owner y) (file y) b k → kind y = k.
Proof.
  intros [_ Hs]%StronglySorted_inv Hb (z & Hz & Ho & Hf & <- & Hbz).
  rewrite Forall_forall in Hs. unfold in_range in *. apply elem_of_cons in Hz as [->|Hz]; [done|].
  destruct (Hs z Hz) as [H|[H H']]; [|lia]. exfalso. eapply (group_lt_irrefl y z); [by split|done].
Qed.

Lemma holds_end x l :
  StronglySorted sep (x :: l) → valid x →
  ¬ holds (x :: l) (owner x) (file x) (end_ (range x)) (kind x).
Proof.
  intros [_ Hs]%StronglySorted_inv [Hv _] (z & Hz & Ho & Hf & Hk & Hb).
  rewrite Forall_forall in Hs. unfold in_range in *. apply elem_of_cons in Hz as [->|Hz]; [lia|].
  destruct (Hs z Hz) as [H|[H [?|[? ?]]]]; [|lia|congruence].
  eapply (group_lt_irrefl x z); [by split|done].
Qed.

Lemma holds_tail x l o f b k :
  StronglySorted sep (x :: l) →
  holds l o f b k ↔
  holds (x :: l) o f b k ∧ ¬ (o = owner x ∧ f = file x ∧ in_range b (range x)).
Proof.
  intros [_ Hs]%StronglySorted_inv. rewrite Forall_forall in Hs. rewrite holds_cons. split.
  - intros H. split; [by right|]. intros (-> & -> & Hb). destruct H as (z & Hz & Ho & Hf & _ & Hbz).
    unfold in_range in *. destruct (Hs z Hz) as [H|[H H']]; [|lia].
    eapply (group_lt_irrefl x z); [by split|done].
  - intros [[(<- & <- & <- & ?)|?] N]; [exfalso; by apply N|done].
Qed.

Lemma canonical_end x y l1 l2 :
  StronglySorted sep (x :: l1) → valid x → same_group x y → kind x = kind y →
  start (range x) = start (range y) →
  (∀ b, holds (y :: l2) (owner y) (file y) b (kind y) →
        holds (x :: l1) (owner y) (file y) b (kind y)) →
  end_ (range y) ≤ end_ (range x).
Proof.
  intros Hs Hv [Hf Ho] Hk Hst H. apply Z.nlt_ge. intros Hlt.
  apply (holds_end x l1 Hs Hv). rewrite Hf, Ho, Hk. apply H. destruct Hv as [Hv _].
  apply holds_cons. left. split_and!; try done; unfold in_range; lia.
Qed.

Lemma canonical l1 l2 :
  Forall valid l1 → StronglySorted sep l1 → Forall valid l2 → StronglySorted sep l2 →
  (∀ o f b k, holds l1 o f b k ↔ holds l2 o f b k) → l1 = l2.
Proof.
  revert l2. induction l1 as [|x l1 IH]; intros [|y l2] Hv1 Hs1 Hv2 Hs2 Heq; [done|..].
  - inversion Hv2 as [|? ? [Hy _] _]; subst.
    destruct (proj2 (Heq (owner y) (file y) (start (range y)) (kind y))) as (? & ?%elem_of_nil & _);
      [|done]. apply holds_cons. left. split_and!; try done; unfold in_range; lia.
  - inversion Hv1 as [|? ? [Hx _] _]; subst.
    destruct (proj1 (Heq (owner x) (file x) (start (range x)) (kind x))) as (? & ?%elem_of_nil & _);
      [|done]. apply holds_cons. left. split_and!; try done; unfold in_range; lia.
  - pose proof Hv1 as Hv1'. pose proof Hv2 as Hv2'.
    inversion Hv1' as [|? ? Hx Hv1t]; subst. inversion Hv2' as [|? ? Hy Hv2t]; subst.
    assert (Hself : ∀ z l, valid z → holds (z :: l) (owner z) (file z) (start (range z)) (kind z)).
    { intros z l [Hz _]. apply holds_cons. left. unfold in_range. split_and!; done || lia. }
    pose proof (holds_ge y l2 x _ _ Hs2 Hv2 (proj1 (Heq _ _ _ _) (Hself x l1 Hx))) as HA.
    pose proof (holds_ge x l1 y _ _ Hs1 Hv1 (proj2 (Heq _ _ _ _) (Hself y l2 Hy))) as HB.
    assert (same_group x y ∧ start (range x) = start (range y)) as [[Hf Ho] Hst].
    { destruct HA as [HA|[HA ?]], HB as [HB|[HB ?]].
      - destruct (group_lt_asym x y HB HA).
      - destruct (group_lt_irrefl y x); [|done]. by destruct HB.
      - destruct (group_lt_irrefl x y); [|done]. by destruct HA.
      - split; [done|lia]. }
    assert (kind y = kind x) as Hk.
    { apply (holds_head y l2 (start (range x))); [done|destruct Hy; unfold in_range; lia|].
      rewrite <- Hf, <- Ho. by apply Heq, Hself. }
    assert (end_ (range x) = end_ (range y)) as He.
    { apply Z.le_antisymm.
      - apply (canonical_end y x l2 l1); try done. intros b. apply Heq.
      - apply (canonical_end x y l1 l2); try done. intros b. apply Heq. }
    assert (x = y) as ->.
    { destruct x as [? ? ? [? ?]], y as [? ? ? [? ?]]; simpl in *; by subst. }
    f_equal. apply IH; try done; [by apply StronglySorted_inv in Hs1 as [? _]
      |by apply StronglySorted_inv in Hs2 as [? _]|].
    intros o f b k. rewrite (holds_tail y l1), (holds_tail y l2), Heq by done. done.
Qed.

(** ** Properties of the registry *)

(** [l'] is [l] after process [o] set the bytes [r] of file [f] to [k]. *)
Definition updated (l l' : list Lock) (o : Z) (f : FileKey) (r : Range) (k : option Kind) : Prop :=
  ∀ o' f' b k',
    holds l' o' f' b k' ↔
    (if bool_decide (o' = o ∧ f' = f ∧ start r ≤ b < end_ r)
     then k = Some k' else holds l o' f' b k').

Lemma replacement_updated alloc l o f r k next :
  registry_ok l → valid_range r → replacement alloc l o f r k = Ok next → updated l next o f r k.
Proof.
  intros Hok Hr (_ & _ & -> & _)%replacement_ok o' f' b k'.
  rewrite compacted_holds by (done || apply Hok). unfold in_range.
  case_bool_decide; naive_solver.
Qed.

Lemma replacement_preserves alloc l o f r k next :
  registry_ok l → valid_range r → replacement alloc l o f r k = Ok next → registry_ok next.
Proof.
  intros [Hv Hs Hx Ht Hq] Hr (_ & Hc & -> & Ht' & Hq')%replacement_ok.
  pose proof (uncompacted_inv o f r k l Hv Hs Hr) as Hi.
  destruct (coalesce_ok o f 0 Write _ Hi) as (H1 & H2 & _ & _).
  split; [done|done| |done|].
  - intros o1 o2 f' b k1 k2 Hne. rewrite !compacted_holds by done.
    intros [(-> & -> & Hb & ->)|[N1 H3]] [(-> & ? & Hb2 & ?)|[N2 H4]]; try done; subst.
    + eapply (proj1 (conflict_none l o f k1 r Hv Hr) (Hc _ eq_refl)); eauto.
    + apply and_comm.
      eapply (proj1 (conflict_none l o f k2 r Hv Hr) (Hc _ eq_refl)); eauto.
    + by eapply (Hx o1 o2).
  - intros o'. destruct (decide (o' = o)) as [->|]; [done|].
    etrans; [by apply compacted_count_other|apply Hq].
Qed.

(** *** The in-place release *)

Lemma carve_trim o f r x :
  negb (splits [x] o f r) → valid x → carve o f r x = option_list (trim o f r x).
Proof.
  unfold splits, carve, trim. simpl. intros Hs [Hv _].
  destruct (touched o f r x) eqn:T; [|done]. simpl.
  apply touched_spec in T as (<- & <- & _). rewrite Z.eqb_refl, bool_decide_eq_true_2 in Hs by done.
  simpl in Hs. case_ifs; try done.
Qed.

Lemma splits_cons x l o f r : splits (x :: l) o f r = splits [x] o f r || splits l o f r.
Proof. unfold splits. simpl. by rewrite orb_false_r. Qed.

Lemma flat_map_carve_trim o f r l :
  splits l o f r = false → Forall valid l → flat_map (carve o f r) l = omap (trim o f r) l.
Proof.
  induction l as [|x l IH]; intros Hs Hv; [done|].
  rewrite splits_cons in Hs. simpl. apply orb_false_iff in Hs as [Hs1 Hs2].
  inversion Hv; subst. rewrite carve_trim by (done || by rewrite Hs1). rewrite IH by done.
  by destruct (trim o f r x).
Qed.

Lemma trim_piece o f r x p :
  trim o f r x = Some p →
  file p = file x ∧ owner p = owner x ∧ kind p = kind x ∧
  start (range x) ≤ start (range p) ∧ end_ (range p) ≤ end_ (range x) ∧ (valid x → valid p).
Proof.
  unfold trim, valid, valid_range. destruct (touched o f r x) eqn:T; simpl.
  - apply touched_spec in T as (_ & _ & T). apply overlaps_spec in T.
    case_ifs; intros [= <-]; simpl; split_and!; try done; lia.
  - intros [= <-]. split_and!; done.
Qed.

Lemma sep_shrink a b p q :
  sep a b → file p = file a → owner p = owner a → kind p = kind a →
  end_ (range p) ≤ end_ (range a) →
  file q = file b → owner q = owner b → kind q = kind b →
  start (range b) ≤ start (range q) → sep p q.
Proof.
  intros [H|[[G1 G2] H]] Ef Eo Ek Ee Fq Fo Fk Fs.
  - left. unfold group_lt in *. rewrite Ef, Eo, Fq, Fo. done.
  - right. split; [split; congruence|]. rewrite Ek, Fk.
    destruct (decide (end_ (range p) < start (range q))); [by left|]. right.
    destruct H as [H|[H1 H2]]; [lia|]. split; [lia|done].
Qed.

Lemma omap_trim_ok o f r l :
  Forall valid l → StronglySorted sep l →
  Forall valid (omap (trim o f r) l) ∧ StronglySorted sep (omap (trim o f r) l).
Proof.
  intros Hv Hs. induction Hs as [|x l Hs IH Hx]; simpl; [by repeat constructor|].
  inversion Hv as [|? ? Hvx Hvl]; subst. destruct (IH Hvl) as [H1 H2].
  destruct (trim o f r x) as [p|] eqn:T; [|done].
  apply trim_piece in T as (Ef & Eo & Ek & Es & Ee & Ev).
  split; [constructor; auto|]. constructor; [done|].
  rewrite Forall_forall in Hx. apply Forall_forall. intros q Hq.
  apply list_elem_of_omap in Hq as (y & Hy & T').
  apply trim_piece in T' as (? & ? & ? & ? & ? & _).
  by eapply (sep_shrink x y); auto.
Qed.

Lemma count_owner_omap_trim o f r l o' : count_owner o' (omap (trim o f r) l) ≤ count_owner o' l.
Proof.
  unfold count_owner. induction l as [|x l IH]; csimpl; [lia|].
  destruct (trim o f r x) as [p|] eqn:T.
  - apply trim_piece in T as (_ & Eo & _). csimpl. rewrite Eo.
    case_ifs; autorewrite with mochi; lia.
  - case_ifs; autorewrite with mochi; lia.
Qed.

Lemma zlen_omap_trim o f r l : zlen (omap (trim o f r) l) ≤ zlen l.
Proof.
  induction l as [|x l IH]; csimpl; [lia|]. destruct (trim o f r x); autorewrite with mochi; lia.
Qed.

Lemma omap_trim_compacted o f r l :
  Forall valid l → StronglySorted sep l → valid_range r → splits l o f r = false →
  compacted o f r None l = omap (trim o f r) l.
Proof.
  intros Hv Hs Hr Hsp. destruct (omap_trim_ok o f r l Hv Hs) as [H1 H2].
  pose proof (uncompacted_inv o f r None l Hv Hs Hr) as Hi.
  destruct (coalesce_ok o f 0 Write _ Hi) as (H3 & H4 & _ & _).
  apply canonical; try done. intros o' f' b k.
  rewrite compacted_holds, <- flat_map_carve_trim, flat_map_carve_holds by done. naive_solver.
Qed.

Lemma trim_replacement l o f r :
  registry_ok l → valid_range r → splits l o f r = false →
  replacement true l o f r None = Ok (omap (trim o f r) l).
Proof.
  intros Hok Hr Hsp. apply replacement_ok.
  rewrite <- (omap_trim_compacted o f r l) by (done || apply Hok).
  split_and!; try done; rewrite omap_trim_compacted by (done || apply Hok).
  - etrans; [apply zlen_omap_trim|apply Hok].
  - etrans; [apply count_owner_omap_trim|apply Hok].
Qed.

Lemma replace_ok alloc l o f r k l' :
  registry_ok l → valid_range r → replace alloc l o f r k = (l', Ok tt) →
  ∃ alloc', replacement alloc' l o f r k = Ok l'.
Proof.
  intros Hok Hr. unfold replace.
  destruct k as [k|].
  { destruct (replacement alloc l o f r (Some k)) eqn:E; intros [= <-]. by exists alloc. }
  destruct (splits l o f r) eqn:Hsp; simpl.
  - destruct (replacement alloc l o f r None) eqn:E; intros [= <-]. by exists alloc.
  - intros [= <-]. exists true. by apply trim_replacement.
Qed.

Lemma replace_err alloc l o f r k l' e :
  replace alloc l o f r k = (l', Err e) →
  l' = l ∧
  match e with
  | WouldBlock c => ∃ k', k = Some k' ∧ conflict l o f k' r = Some c
  | NoLocks => k = None → splits l o f r = true
  | _ => False
  end.
Proof.
  unfold replace. intros E.
  assert (l' = l ∧ replacement alloc l o f r k = Err e ∧ (k = None → splits l o f r = true))
    as (-> & E' & Hsp).
  { destruct k as [k|]; [|destruct (splits l o f r) eqn:Hsp; simpl in E; [|done]];
      (destruct (replacement alloc l o f r _) eqn:E'; simplify_eq);
      by split_and!. }
  split; [done|]. unfold replacement in E'.
  destruct (k ≫= _) as [c|] eqn:Ec; [injection E' as <-|].
  - destruct k as [k|]; [|done]. by exists k.
  - destruct alloc; simpl in E'; [|by simplify_eq].
    destruct (_ || _) in E'; by simplify_eq.
Qed.

Lemma replace_updated alloc l o f r k l' :
  registry_ok l → valid_range r → replace alloc l o f r k = (l', Ok tt) →
  registry_ok l' ∧ updated l l' o f r k.
Proof.
  intros Hok Hr (alloc' & E)%replace_ok; [|done..].
  split; [by eapply replacement_preserves|by eapply replacement_updated].
Qed.

(** C33: The release that trims entries in place without allocating gives the
    same registry as the general rebuild, whenever no entry is split. *)
Theorem unlock_in_place_equiv l o f r :
  registry_ok l → valid_range r → splits l o f r = false →
  replace false l o f r None = (omap (trim o f r) l, Ok tt) ∧
  replacement true l o f r None = Ok (omap (trim o f r) l).
Proof.
  intros Hok Hr Hsp. split; [|by apply trim_replacement]. unfold replace. by rewrite Hsp.
Qed.

(** C1: Setting or releasing a byte range keeps the registry well-formed
    (sorted, disjoint, no writer sharing a byte, quotas) and changes exactly
    the caller's bytes of that file, byte by byte; on an error the registry
    is unchanged and the error is the first conflicting lock, or a lack of
    room, which a release meets only when it splits a lock. *)
Theorem replace_correct alloc l o f r k :
  registry_ok l → valid_range r →
  let '(l', res) := replace alloc l o f r k in
  registry_ok l' ∧
  match res with
  | Ok _ => updated l l' o f r k
  | Err (WouldBlock c) =>
      l' = l ∧ ∃ k', k = Some k' ∧ conflict l o f k' r = Some c
  | Err NoLocks =>
      l' = l ∧ (k = None → splits l o f r = true)
  | Err _ => False
  end.
Proof.
  intros Hok Hr. destruct (replace alloc l o f r k) as [l' [[]|e]] eqn:E.
  - by eapply replace_updated.
  - apply replace_err in E as [-> E]. by destruct e.
Qed.

(** A reported conflict is a lock of another process that overlaps the
    range on some byte and excludes the requested kind, and no byte before
    its start is held in conflict by any other process. *)
Theorem conflict_first l o f k r c :
  registry_ok l → valid_range r → conflict l o f k r = Some c →
  (∃ b, in_range b r ∧ in_range b (conflict_range c) ∧
        holds l (conflict_owner c) f b (conflict_kind c)) ∧
  conflict_owner c ≠ o ∧ (k = Write ∨ conflict_kind c = Write) ∧
  ∀ b o' k', in_range b r → o' ≠ o → holds l o' f b k' → k = Write ∨ k' = Write →
    start (conflict_range c) ≤ b.
Proof.
  intros Hok [Hr _] E. unfold conflict in E.
  destruct (min_by_conflict_key (blockers l o f k r)) as [x|] eqn:Em; [|done].
  injection E as <-. simpl. apply min_by_conflict_key_some in Em as [Hx Hmin].
  rewrite blockers_elem, overlaps_spec in Hx. destruct Hx as (Hx & Hf & Ho & Hov & Hw).
  pose proof (ok_valid _ Hok) as Hv. rewrite Forall_forall in Hv. destruct (Hv x Hx) as [Hvx _].
  split_and!; try done.
  - exists (Z.max (start r) (start (range x))). unfold in_range.
    split_and!; try lia. exists x. unfold in_range. split_and!; try done; lia.
  - intros b o' k' Hb Ho' (y & Hy & <- & Hfy & <- & Hby) Hw'.
    assert (y ∈ blockers l o f k r) as Hby'.
    { apply blockers_elem. rewrite overlaps_spec. unfold in_range in *. split_and!; try done; lia. }
    specialize (Hmin y Hby'). unfold conflict_key_ltb, in_range in *. lia.
Qed.

Lemma normalize_valid base off len r :
  is_i64 base → is_i64 off → is_i64 len → normalize base off len = Ok r → valid_range r.
Proof.
  intros Hb Ho Hl. unfold normalize, valid_range, END. case_ifs; intros [= <-]; simpl; width.
Qed.

(** Normalising a request relative to a base gives exactly the bytes the
    request names between zero and the largest offset, or the invalid-range
    error when base, start or negative extent is before zero, or the
    overflow error when the start or the last byte is beyond the largest
    offset. *)
Theorem normalize_spec base off len :
  is_i64 base → is_i64 off → is_i64 len →
  let a := base + off in
  match normalize base off len with
  | Ok r =>
      0 ≤ base ∧ 0 ≤ a ≤ I64_MAX ∧ valid_range r ∧
      ∀ b, in_range b r ↔
        0 ≤ b ≤ I64_MAX ∧
        (if len <? 0 then a + len ≤ b < a else if len =? 0 then a ≤ b else a ≤ b < a + len)
  | Err InvalidRange => base < 0 ∨ a < 0 ∨ len < 0 ∧ a + len < 0
  | Err Overflow => a > I64_MAX ∨ len > 0 ∧ a + len - 1 > I64_MAX
  | Err _ => False
  end.
Proof.
  intros Hb Ho Hl a. unfold normalize. fold a.
  destruct (base <? 0) eqn:E1; [lia|]. destruct (a <? 0) eqn:E2; [lia|].
  destruct (a >? I64_MAX) eqn:E3; [lia|].
  destruct (len <? 0) eqn:E4; [|destruct (len =? 0) eqn:E5];
    unfold END, valid_range, in_range; case_ifs; simpl; unfold END;
    split_and?; try lia; try width; intros; width.
Qed.

Lemma normalize_range r :
  valid_range r → normalize 0 (offset_length r).1 (offset_length r).2 = Ok r.
Proof.
  intros [H1 H2]. unfold normalize, offset_length, END in *. destruct r as [s e]. simpl in *.
  destruct (e =? I64_MAX + 1) eqn:E; simpl;
    repeat match goal with |- context [if ?b then _ else _] =>
      first [replace b with false by width | replace b with true by width] end;
    repeat f_equal; lia.
Qed.

(** *** Release and retirement *)

Lemma release_file_holds l o f o' f' b k :
  holds (release_file l o f) o' f' b k ↔ holds l o' f' b k ∧ ¬ (o' = o ∧ f' = f).
Proof.
  unfold release_file, holds. setoid_rewrite list_elem_of_In. setoid_rewrite filter_In.
  setoid_rewrite orb_true_iff. setoid_rewrite negb_true_iff. setoid_rewrite Z.eqb_neq.
  setoid_rewrite bool_decide_eq_false. split.
  - intros (x & [Hx Hn] & <- & <- & Hk). split; [by exists x|]. tauto.
  - intros [(x & Hx & <- & <- & Hk) Hn]. exists x. split; [|done]. split; [done|].
    destruct (decide (owner x = o)); [right|left]; naive_solver.
Qed.

Lemma filter_ok p l :
  registry_ok l → registry_ok (List.filter p l).
Proof.
  intros [Hv Hs Hx Ht Hq].
  assert (∀ o f b k, holds (List.filter p l) o f b k → holds l o f b k) as Hsub.
  { intros o f b k (x & Hin & H). apply list_elem_of_In, filter_In in Hin as [Hin _].
    exists x. by rewrite list_elem_of_In. }
  split.
  - apply Forall_forall. intros x Hin. apply list_elem_of_In, filter_In in Hin as [Hin _].
    rewrite Forall_forall in Hv. apply Hv. by apply list_elem_of_In.
  - clear -Hs. induction Hs as [|x l Hs IH Hx]; simpl; [constructor|].
    destruct (p x); [|done]. constructor; [done|]. rewrite Forall_forall in *. intros y Hy.
    apply Hx. apply list_elem_of_In, filter_In in Hy as [Hy _]. by apply list_elem_of_In.
  - intros o1 o2 f b k1 k2 Hne H1 H2. eapply Hx; eauto.
  - etrans; [|exact Ht]. unfold zlen. pose proof (filter_length_le p l). lia.
  - intros o. etrans; [|apply (Hq o)]. unfold count_owner, zlen.
    clear. induction l as [|x l IH]; simpl; [lia|].
    destruct (p x); simpl; destruct (owner x =? o); simpl; lia.
Qed.

Lemma registry_ok_nil : registry_ok [].
Proof.
  split; try by constructor.
  - intros o1 o2 f b k1 k2 _ H _. by rewrite holds_nil in H.
  - unfold zlen, MAX_LOCKS. simpl. lia.
  - intros o. unfold count_owner, zlen, MAX_LOCKS_PER_PROCESS. simpl. lia.
Qed.

Definition hint_ok (l : OwnedLocks) : Prop :=
  match publication l with
  | Some h => h = has_owner (registry l) (ol_owner l)
  | None => True
  end.

(** What each operation on a process's locks guarantees of the outcome: the
    registry and the hint stay consistent, and [done_] holds of a success. *)
Definition owned_post (l : OwnedLocks) {A} (done_ : A → list Lock → Prop)
    (out : OwnedLocks * result Z A) : Prop :=
  registry_ok (registry out.1) ∧ hint_ok out.1 ∧ ol_owner out.1 = ol_owner l ∧
  (publication out.1 = None ↔ publication l = None) ∧
  match out.2 with
  | Err _ => registry out.1 = registry l
  | Ok a => done_ a (registry out.1)
  end.

Lemma publish_ok l e :
  hint_ok (publish (with_registry l e)) ∧
  (publication (publish (with_registry l e)) = None ↔ publication l = None).
Proof. unfold hint_ok, publish, with_registry. simpl. by destruct (publication l). Qed.

Lemma owned_replace_post alloc l f r k {A} (a : A) (done_ : A → list Lock → Prop) :
  registry_ok (registry l) → valid_range r →
  (∀ e, updated (registry l) e (ol_owner l) f r k → done_ a e) →
  owned_post l done_
    (let '(e, res) := replace alloc (registry l) (ol_owner l) f r k in
     (publish (with_registry l e), map_err lock_status ((λ _, a) <$> res))).
Proof.
  intros Hok Hr Hd. destruct (replace _ _ _ _ _ _) as [e [[]|err]] eqn:E;
    destruct (publish_ok l e) as [H1 H2].
  - apply replace_updated in E as [E1 E2]; [|done..]. split_and!; try done. by apply Hd.
  - apply replace_err in E as [-> _]. by split_and!.
Qed.

(** The absolute range a request names. *)
Definition request_range (req : Request) (pos size : Z) : result Error Range :=
  normalize (match origin req with Start => 0 | Current => pos | End => size end)
    (req_start req) (req_length req).

(** What a successful request did: a query reports the first conflicting
    lock, and the other operations change exactly the caller's bytes. *)
Definition applied (l : OwnedLocks) (f : FileKey) (req : Request) (pos size : Z)
    (reply : Reply) (entries : list Lock) : Prop :=
  match operation req with
  | Query k =>
      entries = registry l ∧ ∃ r, request_range req pos size = Ok r ∧
      match conflict (registry l) (ol_owner l) f k r with
      | None => reply = Unlocked
      | Some c => ∃ s n, reply = ReplyConflict (conflict_owner c) (conflict_kind c) s n ∧
                         normalize 0 s n = Ok (conflict_range c)
      end
  | SetLock k =>
      reply = Done ∧ ∃ r, request_range req pos size = Ok r ∧
      updated (registry l) entries (ol_owner l) f r (Some k)
  | Unlock =>
      reply = Done ∧ ∃ r, request_range req pos size = Ok r ∧
      updated (registry l) entries (ol_owner l) f r None
  | ReleaseFile =>
      reply = Done ∧ ∀ o' f' b k',
        holds entries o' f' b k' ↔ holds (registry l) o' f' b k' ∧ ¬ (o' = ol_owner l ∧ f' = f)
  end.

Lemma conflict_valid l o f k r c :
  Forall valid l → conflict l o f k r = Some c → valid_range (conflict_range c).
Proof.
  intros Hv E. unfold conflict in E.
  destruct (min_by_conflict_key (blockers l o f k r)) as [x|] eqn:Em; [|done]. injection E as <-.
  apply min_by_conflict_key_some in Em as [Hx _]. rewrite blockers_elem in Hx.
  rewrite Forall_forall in Hv. apply Hv, Hx.
Qed.

(** A lock request of a process keeps the registry and the published hint
    consistent; a query reports the first conflicting lock and changes
    nothing, a set or an unlock changes exactly the requested bytes, a file
    release exactly that process's bytes of that file, and an error changes
    no lock. *)
Theorem apply_correct alloc l f req pos size :
  registry_ok (registry l) → hint_ok l →
  is_i64 (req_start req) → is_i64 (req_length req) → is_i64 pos → is_i64 size →
  owned_post l (applied l f req pos size) (apply alloc l f req pos size).
Proof.
  intros Hok Hh Hs Hl Hp Hz. unfold apply, applied, request_range.
  set (base := match origin req with Start => 0 | Current => pos | End => size end).
  assert (is_i64 base) as Hb by (subst base; destruct (origin req); [width|done|done]).
  pose proof (normalize_valid base (req_start req) (req_length req)) as Hn.
  destruct (operation req) as [k|k| |].
  4:{ destruct (_ || _); [by split_and!|]. unfold owned_release_file.
      destruct (publish_ok l (release_file (registry l) (ol_owner l) f)) as [H1 H2].
      split_and!; try done; [by apply filter_ok|]. simpl.
      split; [done|]. intros. apply release_file_holds. }
  all: destruct (normalize base (req_start req) (req_length req)) as [r|e]; simpl;
    [|unfold owned_post; simpl; by split_and!].
  all: specialize (Hn r Hb Hs Hl eq_refl).
  - split_and!; try done. split; [done|]. exists r. split; [done|]. unfold owned_conflict.
    destruct (conflict _ _ _ _ _) as [c|] eqn:Ec; [|done].
    apply conflict_valid, normalize_range in Ec; [|apply Hok].
    exists (offset_length (conflict_range c)).1, (offset_length (conflict_range c)).2.
    done.
  - unfold owned_set. pose proof (owned_replace_post alloc l f r (Some k) Done) as H.
    destruct (replace alloc (registry l) (ol_owner l) f r (Some k)) as [e res].
    apply H; [done..|]. intros e' He. split; [done|]. by exists r.
  - unfold owned_unlock. pose proof (owned_replace_post alloc l f r None Done) as H.
    destruct (replace alloc (registry l) (ol_owner l) f r None) as [e res].
    apply H; [done..|]. intros e' He. split; [done|]. by exists r.
Qed.
End RecordLock.

(** ** Examples *)

(** Two kinds, [true] for writing. *)
Definition two_kinds : LockKind := {| Kind := bool; Write := true |}.

Section Examples.
#[local] Existing Instance two_kinds.
Definition write_kind : Kind := true.
Definition read_kind : Kind := false.

Definition example_file : FileKey := mkFileKey 1 7.
(** Process 1 writes bytes 0 to 9, process 2 reads bytes 20 to 29. *)
Definition example_locks : list Lock :=
  [mkLock example_file 1 write_kind (mkRange 0 10); mkLock example_file 2 read_kind (mkRange 20 30)].

Lemma example_range a b : 0 ≤ a < b → b ≤ 1000 → valid_range (mkRange a b).
Proof. unfold valid_range, END; simpl. width. Qed.

Lemma example_ok : registry_ok example_locks.
Proof.
  apply (replacement_preserves true [mkLock example_file 1 write_kind (mkRange 0 10)] 2 example_file
    (mkRange 20 30) (Some read_kind)); [|by apply example_range|by vm_compute].
  apply (replacement_preserves true [] 1 example_file (mkRange 0 10) (Some write_kind));
    [apply registry_ok_nil|by apply example_range|by vm_compute].
Qed.

Lemma unlock_in_place_equiv_witness :
  replace false example_locks 1 example_file (mkRange 5 15) None =
    ([mkLock example_file 1 write_kind (mkRange 0 5); mkLock example_file 2 read_kind (mkRange 20 30)], Ok tt).
Proof.
  apply (unlock_in_place_equiv example_locks 1 example_file (mkRange 5 15));
    [apply example_ok|by apply example_range|done].
Defined.

Lemma replace_correct_witness :
  ∃ l', replace true example_locks 1 example_file (mkRange 5 20) (Some read_kind) = (l', Ok tt) ∧
        registry_ok l' ∧ holds l' 1 example_file 19 read_kind.
Proof.
  pose proof (replace_correct true example_locks 1 example_file (mkRange 5 20) (Some read_kind)
    example_ok ltac:(by apply example_range)) as H.
  destruct (replace _ _ _ _ _ _) as [l' [[]|e]] eqn:E; [|vm_compute in E; done].
  exists l'. split_and!; [done|apply H|]. destruct H as [_ H]. apply H. by vm_compute.
Defined.

Lemma conflict_first_witness :
  conflict example_locks 3 example_file write_kind (mkRange 5 25) = Some (mkConflict 1 write_kind (mkRange 0 10)) ∧
  ∀ b o k, 5 ≤ b < 25 → o ≠ 3 → holds example_locks o example_file b k → 0 ≤ b.
Proof.
  assert (conflict example_locks 3 example_file write_kind (mkRange 5 25) =
    Some (mkConflict 1 write_kind (mkRange 0 10))) as E by by vm_compute.
  split; [done|]. intros b o k Hb Ho Hh.
  by apply (conflict_first example_locks 3 example_file write_kind (mkRange 5 25) _ example_ok
    ltac:(by apply example_range) E) in Hh; [|done|done|left].
Defined.

Lemma normalize_spec_witness :
  normalize 100 20 (-30) = Ok (mkRange 90 120) ∧
  ∀ b, in_range b (mkRange 90 120) → 0 ≤ b ≤ I64_MAX ∧ 100 + 20 + -30 ≤ b < 100 + 20.
Proof.
  split; [done|]. pose proof (normalize_spec 100 20 (-30)) as H. simpl in H.
  apply H; width.
Defined.

Lemma apply_correct_witness :
  let l := mkOwnedLocks 3 example_locks (Some false) in
  let req := mkRequest (SetLock write_kind) Current 0 5 in
  let '(l', res) := apply true l example_file req 30 100 in
  res = Ok Done ∧ registry_ok (registry l') ∧ publication l' = Some true ∧
  holds (registry l') 3 example_file 34 write_kind.
Proof.
  intros l req.
  pose proof (apply_correct true l example_file req 30 100 example_ok eq_refl
    ltac:(vm_compute; done) ltac:(vm_compute; done) ltac:(vm_compute; done) ltac:(vm_compute; done)) as H.
  destruct (apply true l example_file req 30 100) as [l' res] eqn:E.
  vm_compute in E. injection E as <- <-. destruct H as (H1 & _ & _ & _ & H2).
  split_and!; [done|done|done|]. destruct H2 as (_ & r & Hr & Hu). vm_compute in Hr.
  injection Hr as <-. apply Hu. by vm_compute.
Defined.
End Examples.
