(* ===== verification/LockExec.v ===== *)
(** * Record locks across program replacement

    Models [posix/src/record_lock_exec.rs]: a process prepares the files whose
    locks its next image gives up, and the locks go when a newer image of the
    process is observed.  Admission of the caller ([PosixService::record_locks])
    is an argument; allocation outcomes are boolean arguments. *)

From S2P Require Import Prelude RecordLock.

Section LockExec.
Context {LK : LockKind} (STATUS_ESRCH STATUS_EAGAIN STATUS_EOVERFLOW : Z).

Definition MAX_PREPARATIONS : Z := 1024.
Definition token_from_raw (value : Z) : option Z := if value =? 0 then None else Some value.

Record Preparation := mkPreparation {
  p_owner : Z;
  p_revision : Z;
  p_token : Z;
  p_files : list FileKey;
}.
Record Preparations := mkPreparations { p_entries : list Preparation; p_next_token : Z }.
Definition preparations_new : Preparations := mkPreparations [] 1.
Definition with_entries (p : Preparations) (l : list Preparation) : Preparations :=
  mkPreparations l (p_next_token p).

Definition execs_retire_owner (p : Preparations) (o : Z) : Preparations :=
  with_entries p (filter (λ e, p_owner e ≠ o) (p_entries p)).
Definition execs_has_owner (p : Preparations) (o : Z) : bool :=
  existsb (λ e, p_owner e =? o) (p_entries p).

Definition committed (o revision : Z) (e : Preparation) : bool := (p_owner e =? o) && (p_revision e <? revision).
(** [retain], with the release of the files of each entry that goes. *)
Fixpoint commit_entries (o revision : Z) (l : list Preparation) (locks : list Lock) : list Preparation * list Lock :=
  match l with
  | [] => ([], locks)
  | e :: l =>
      if committed o revision e
      then commit_entries o revision l (foldl (λ locks f, release_file locks o f) locks (p_files e))
      else let '(kept, locks) := commit_entries o revision l locks in (e :: kept, locks)
  end.
Definition commit_observed (o revision : Z) (p : Preparations) (locks : list Lock) : Preparations * list Lock :=
  let '(kept, locks) := commit_entries o revision (p_entries p) locks in (with_entries p kept, locks).

(** The files of [files] on which the owner has a lock, each once, that are not
    in [seen]. *)
Definition select_file (locks : list Lock) (o : Z) (seen acc : list FileKey) (f : FileKey) : list FileKey :=
  if owns_file locks o f && negb (bool_decide (f ∈ seen)) && negb (bool_decide (f ∈ acc)) then acc ++ [f] else acc.
Definition select_files (locks : list Lock) (o : Z) (seen files : list FileKey) : list FileKey :=
  foldl (select_file locks o seen) [] files.

Definition prepare_record_lock_exec (alloc_files alloc_entry : bool) (admitted : bool) (locks : list Lock) (o revision : Z)
    (files : list FileKey) : stM Preparations Z (option Z) := λ p,
  if negb admitted then (p, Err STATUS_ESRCH)
  else if execs_has_owner p o then (p, Err STATUS_EAGAIN)
  else
    let selected := select_files locks o [] files in
    if bool_decide (selected = []) then (p, Ok None)
    else if negb alloc_files then (p, Err (-37))
    else if MAX_PREPARATIONS <=? zlen (p_entries p) then (p, Err STATUS_EAGAIN)
    else
      match checked_add U64_MAX (p_next_token p) 1 with
      | None => (p, Err STATUS_EOVERFLOW)
      | Some next =>
          if negb alloc_entry then (p, Err (-37))
          else (mkPreparations (p_entries p ++ [mkPreparation o revision (p_next_token p) selected]) next,
                Ok (Some (p_next_token p)))
      end.

Definition is_entry (o t : Z) (e : Preparation) : bool := (p_owner e =? o) && (p_token e =? t).
Definition with_files (e : Preparation) (files : list FileKey) : Preparation :=
  mkPreparation (p_owner e) (p_revision e) (p_token e) files.
(** The additions are bounded one by one, so that the result is within the
    quota or the call fails. *)
Definition extend_record_lock_exec (alloc : bool) (admitted : bool) (locks : list Lock) (o t : Z) (files : list FileKey)
    : stM Preparations Z unit := λ p,
  if negb admitted then (p, Err STATUS_ESRCH)
  else
    match iter_position (is_entry o t) (p_entries p) with
    | None => (p, Err STATUS_ESRCH)
    | Some i =>
        match p_entries p !! i with
        | None => (p, Err STATUS_ESRCH)
        | Some e =>
            let added := select_files locks o (p_files e) files in
            if negb (bool_decide (added = [])) &&
               ((MAX_LOCKS_PER_PROCESS <? zlen (p_files e) + zlen added) || negb alloc) then (p, Err (-37))
            else (with_entries p (<[i := with_files e (p_files e ++ added)]> (p_entries p)), Ok tt)
        end
    end.
Definition cancel_record_lock_exec (admitted : bool) (o t : Z) : stM Preparations Z unit := λ p,
  if negb admitted then (p, Err STATUS_ESRCH)
  else
    match iter_position (is_entry o t) (p_entries p) with
    | None => (p, Err STATUS_ESRCH)
    | Some i => (with_entries p (swap_remove i (p_entries p)), Ok tt)
    end.

(** ** The effect of a commit *)

Definition gives_up (o revision : Z) (l : list Preparation) (f : FileKey) : Prop :=
  ∃ e, e ∈ l ∧ committed o revision e = true ∧ f ∈ p_files e.
Lemma gives_up_cons o revision e l f :
  gives_up o revision (e :: l) f ↔ committed o revision e = true ∧ f ∈ p_files e ∨ gives_up o revision l f.
Proof. unfold gives_up. setoid_rewrite elem_of_cons. split; [intros (x & [->|Hx] & ?)|intros [?|(x & ? & ?)]]; eauto 6. Qed.
Lemma release_files_holds l o files o' f b k :
  holds (foldl (λ locks f, release_file locks o f) l files) o' f b k ↔ holds l o' f b k ∧ ¬ (o' = o ∧ f ∈ files).
Proof.
  revert l. induction files as [|g files IH]; intros l; simpl; [set_solver|].
  rewrite IH, release_file_holds, elem_of_cons. naive_solver.
Qed.
Lemma commit_entries_spec o revision l locks :
  (commit_entries o revision l locks).1 = filter (λ e, committed o revision e = false) l ∧
  ∀ o' f b k, holds (commit_entries o revision l locks).2 o' f b k ↔
    holds locks o' f b k ∧ ¬ (o' = o ∧ gives_up o revision l f).
Proof.
  revert locks. induction l as [|e l IH]; intros locks; simpl.
  { split; [done|]. intros. unfold gives_up. set_solver. }
  rewrite filter_cons. destruct (committed o revision e) eqn:E.
  - destruct (IH (foldl (λ locks f, release_file locks o f) locks (p_files e))) as [I1 I2].
    rewrite decide_False by done. split; [done|]. intros o' f b k. rewrite I2, release_files_holds, gives_up_cons, E.
    intuition.
  - destruct (IH locks) as [I1 I2]. rewrite decide_True by done.
    destruct (commit_entries o revision l locks) as [kept locks']. simpl in *. split; [by rewrite I1|].
    intros o' f b k. rewrite I2, gives_up_cons, E. intuition done.
Qed.
Lemma commit_entries_none o revision l locks :
  Forall (λ e, committed o revision e = false) l → commit_entries o revision l locks = (l, locks).
Proof.
  induction l as [|e l IH]; simpl; [done|]. intros [He Hl]%Forall_cons. by rewrite He, IH.
Qed.

(** When a new image of a process is observed, exactly the preparations of
    that process for that revision are consumed, the process loses its locks
    on exactly the files they name and no byte of any other lock changes;
    observing the same image again changes nothing. *)
Theorem exec_commit_exact o revision p locks :
  let '(p', locks') := commit_observed o revision p locks in
  p_entries p' = filter (λ e, committed o revision e = false) (p_entries p) ∧
  (∀ o' f b k, holds locks' o' f b k ↔ holds locks o' f b k ∧ ¬ (o' = o ∧ gives_up o revision (p_entries p) f)) ∧
  commit_observed o revision p' locks' = (p', locks').
Proof.
  unfold commit_observed. pose proof (commit_entries_spec o revision (p_entries p) locks) as [H1 H2].
  destruct (commit_entries o revision (p_entries p) locks) as [kept locks'] eqn:E. simpl in *. split_and!; [done|done|].
  rewrite commit_entries_none; [done|]. rewrite H1. apply Forall_forall. intros e. rewrite list_elem_of_filter. naive_solver.
Qed.

(** ** Invariant *)

Record execs_ok (p : Preparations) : Prop := mkExecsOk {
  eo_owner : NoDup (p_owner <$> p_entries p);
  eo_token : NoDup (p_token <$> p_entries p);
  eo_fresh : ∀ e, e ∈ p_entries p → 0 < p_token e < p_next_token p;
  eo_next : 0 < p_next_token p ≤ U64_MAX;
  eo_total : zlen (p_entries p) ≤ MAX_PREPARATIONS;
  eo_files : ∀ e, e ∈ p_entries p → NoDup (p_files e) ∧ p_files e ≠ [];
}.
Lemma ok_preparations_new : execs_ok preparations_new.
Proof. split; simpl; try constructor; try set_solver; done. Qed.
Lemma execs_part_ok p l k : execs_ok p → l ++ k ≡ₚ p_entries p → execs_ok (with_entries p l).
Proof.
  intros [H1 H2 H3 H4 H5 H6] Hl. assert (∀ e, e ∈ l → e ∈ p_entries p) as Hs.
  { intros e He. rewrite <- Hl. apply elem_of_app. by left. }
  rewrite <- Hl in H1, H2. rewrite fmap_app in H1, H2. apply NoDup_app in H1 as [H1 _], H2 as [H2 _].
  split; simpl; [done|done|by eauto|done| |by eauto].
  apply Permutation_length in Hl. rewrite length_app in Hl. unfold zlen in *. lia.
Qed.
Lemma execs_filter_ok p (P : Preparation → Prop) `{!∀ x, Decision (P x)} : execs_ok p → execs_ok (with_entries p (filter P (p_entries p))).
Proof.
  intros Hok. apply (execs_part_ok p _ (filter (λ x, ¬ P x) (p_entries p)) Hok). clear Hok.
  induction (p_entries p) as [|e l IH]; [done|]. rewrite !filter_cons. repeat case_decide; try tauto; simpl.
  - by rewrite IH.
  - rewrite <- Permutation_middle. by rewrite IH.
Qed.
Lemma execs_retire_ok p o : execs_ok p → execs_ok (execs_retire_owner p o).
Proof. apply execs_filter_ok. Qed.
Lemma execs_commit_ok o revision p locks : execs_ok p → execs_ok (commit_observed o revision p locks).1.
Proof.
  intros Hok. unfold commit_observed. pose proof (commit_entries_spec o revision (p_entries p) locks) as [H1 _].
  destruct (commit_entries _ _ _ _) as [kept locks']. simpl in *. subst kept. by apply execs_filter_ok.
Qed.
Lemma select_nodup locks o seen files :
  NoDup (select_files locks o seen files) ∧ ∀ f, f ∈ select_files locks o seen files → (f ∉ seen) ∧ owns_file locks o f = true.
Proof.
  unfold select_files. assert (∀ acc, NoDup acc → (∀ f, f ∈ acc → (f ∉ seen) ∧ owns_file locks o f = true) →
    NoDup (foldl (select_file locks o seen) acc files) ∧
    ∀ f, f ∈ foldl (select_file locks o seen) acc files → (f ∉ seen) ∧ owns_file locks o f = true) as H.
  { induction files as [|g files IH]; intros acc Ha Hs; simpl; [done|]. apply IH; unfold select_file;
      destruct (_ && _) eqn:E; try done; rewrite !andb_true_iff, !negb_true_iff, !bool_decide_eq_false in E; destruct E as [[Eo Es] Ea].
    - apply NoDup_app. split_and!; [done|set_solver|apply NoDup_singleton].
    - intros f. rewrite elem_of_app, list_elem_of_singleton. intros [?| ->]; auto. }
  apply H; [constructor|set_solver].
Qed.
Lemma execs_prepare_ok a1 a2 adm locks o revision files p :
  execs_ok p → execs_ok (prepare_record_lock_exec a1 a2 adm locks o revision files p).1.
Proof.
  intros Hok. unfold prepare_record_lock_exec. destruct (negb adm); [done|]. destruct (execs_has_owner p o) eqn:Eo; [done|].
  case_bool_decide as Es; [done|]. destruct (negb a1); [done|]. destruct (_ <=? _) eqn:El; [done|].
  unfold checked_add. destruct (_ <=? U64_MAX) eqn:En; [|done]. destruct (negb a2); [done|]. simpl.
  assert (∀ e, e ∈ p_entries p → p_owner e ≠ o) as Ho.
  { intros e He Ee. unfold execs_has_owner in Eo. apply not_true_iff_false in Eo. apply Eo. apply existsb_exists.
    exists e. split; [by apply list_elem_of_In|]. by apply Z.eqb_eq. }
  destruct Hok as [H1 H2 H3 H4 H5 H6]. split; simpl.
  - rewrite fmap_app. apply NoDup_app. split_and!; [done| |apply NoDup_singleton]. intros x Hx.
    apply list_elem_of_fmap in Hx as (e & -> & He). simpl. rewrite list_elem_of_singleton. auto.
  - rewrite fmap_app. apply NoDup_app. split_and!; [done| |apply NoDup_singleton]. intros x Hx.
    apply list_elem_of_fmap in Hx as (e & -> & He). simpl. rewrite list_elem_of_singleton. specialize (H3 e He). lia.
  - intros e. rewrite elem_of_app, list_elem_of_singleton. intros [He| ->]; [specialize (H3 e He); lia|simpl; lia].
  - lia.
  - rewrite zlen_app. unfold zlen at 2. simpl. unfold zlen, MAX_PREPARATIONS in *. lia.
  - intros e. rewrite elem_of_app, list_elem_of_singleton. intros [He| ->]; [by apply H6|]. split; [|done].
    apply (select_nodup locks o [] files).
Qed.
Lemma execs_extend_ok a adm locks o t files p : execs_ok p → execs_ok (extend_record_lock_exec a adm locks o t files p).1.
Proof.
  intros Hok. unfold extend_record_lock_exec. destruct (negb adm); [done|]. destruct (iter_position _ _) as [i|]; [|done].
  destruct (p_entries p !! i) as [e|] eqn:Ei; [|done]. destruct (_ && _); [done|]. simpl.
  pose proof (list_elem_of_lookup_2 _ _ _ Ei) as He.
  assert (∀ (f : Preparation → Z), f (with_files e (p_files e ++ select_files locks o (p_files e) files)) = f e →
    f <$> <[i := with_files e (p_files e ++ select_files locks o (p_files e) files)]> (p_entries p) = f <$> p_entries p) as Hf.
  { intros f E. rewrite list_fmap_insert, E. apply list_insert_id. by rewrite list_lookup_fmap, Ei. }
  assert (∀ x, x ∈ <[i := with_files e (p_files e ++ select_files locks o (p_files e) files)]> (p_entries p) →
    x ∈ p_entries p ∨ x = with_files e (p_files e ++ select_files locks o (p_files e) files)) as Hx.
  { intros x [j Hj]%list_elem_of_lookup. rewrite list_lookup_insert_Some in Hj.
    destruct Hj as [(_ & <- & _)|[_ Hj]]; [by right|left; by eapply list_elem_of_lookup_2]. }
  destruct Hok as [H1 H2 H3 H4 H5 H6]. split; simpl; rewrite ?Hf by done; try done.
  - intros x [?| ->]%Hx; [by apply H3|]. by apply (H3 e).
  - unfold zlen in *. by rewrite length_insert.
  - intros x [?| ->]%Hx; [by apply H6|]. simpl. destruct (H6 e He) as [Hn Hne]. destruct (select_nodup locks o (p_files e) files) as [Hs1 Hs2].
    split; [|destruct (p_files e); [done|done]]. apply NoDup_app. split_and!; [done| |done]. intros f Hfe Hfs. by apply Hs2 in Hfs as [? _].
Qed.
Lemma execs_cancel_ok adm o t p : execs_ok p → execs_ok (cancel_record_lock_exec adm o t p).1.
Proof.
  intros Hok. unfold cancel_record_lock_exec. destruct (negb adm); [done|].
  destruct (iter_position _ _) as [i|] eqn:E; [|done]. apply iter_position_Some in E as (x & Hx & _). simpl.
  apply (execs_part_ok p _ [x] Hok). rewrite Permutation_app_comm. simpl. by apply swap_remove_perm.
Qed.
End LockExec.
