(* ===== verification/Reach.v ===== *)
(** * Marking graph searches

    The deadlock test of [posix/src/record_lock_wait.rs] and the collector of
    [posix/src/socket_gc.rs] both search a graph with a vector of flags and a
    list of nodes still to process: a node whose flag is clear is flagged and
    pushed at the end of the list.  This file holds that step and what both
    searches rely on: the flagged nodes are the reachable ones once the list
    is empty, and every step pays for itself in unflagged nodes. *)

From S2P Require Import Prelude.

(** [if !seen[t] { seen[t] = true; work.push(t) }] for each target. *)
Fixpoint mark (seen : list bool) (work : list nat) (targets : list nat)
    : list bool * list nat :=
  match targets with
  | [] => (seen, work)
  | t :: ts =>
      match seen !! t with
      | Some false => mark (<[t := true]> seen) (work ++ [t]) ts
      | _ => mark seen work ts
      end
  end.

Definition flagged (seen : list bool) (i : nat) : Prop := seen !! i = Some true.
#[global] Instance flagged_dec seen i : Decision (flagged seen i).
Proof. unfold flagged. apply _. Defined.

(** Number of clear flags. *)
Definition unseen (seen : list bool) : nat := length (List.filter negb seen).

Lemma unseen_insert seen t :
  seen !! t = Some false → unseen seen = S (unseen (<[t := true]> seen)).
Proof.
  unfold unseen. revert t. induction seen as [|b seen IH]; intros [|t]; simpl; try done.
  - by intros [= ->].
  - intros H. destruct b; simpl; rewrite (IH t H); done.
Qed.

Lemma mark_app seen work ts1 ts2 :
  mark seen work (ts1 ++ ts2) =
  let '(seen', work') := mark seen work ts1 in mark seen' work' ts2.
Proof.
  revert seen work. induction ts1 as [|t ts IH]; intros seen work; simpl; [done|].
  destruct (seen !! t) as [[]|]; apply IH.
Qed.

Lemma mark_spec seen work ts :
  let '(seen', work') := mark seen work ts in
  length seen' = length seen ∧
  (∀ i, flagged seen' i ↔ flagged seen i ∨ i ∈ ts ∧ i < length seen)%nat ∧
  ∃ new, work' = work ++ new ∧
    (∀ i, i ∈ new ↔ i ∈ ts ∧ seen !! i = Some false) ∧
    unseen seen = (unseen seen' + length new)%nat.
Proof.
  revert seen work. induction ts as [|t ts IH]; intros seen work; simpl.
  { split_and!; [done|set_solver|]. exists []. rewrite app_nil_r. split_and!; [done|set_solver|].
    simpl. lia. }
  destruct (seen !! t) as [[]|] eqn:Et.
  - specialize (IH seen work). destruct (mark seen work ts) as [seen' work'].
    destruct IH as (H1 & H2 & new & -> & H3 & H4). split_and!; [done| |].
    + intros i. rewrite H2. set_solver.
    + exists new. split_and!; [done| |done]. intros i. rewrite H3, elem_of_cons. naive_solver.
  - specialize (IH (<[t := true]> seen) (work ++ [t])).
    destruct (mark _ _ ts) as [seen' work']. rewrite length_insert in IH.
    pose proof (lookup_lt_Some _ _ _ Et) as Hlt.
    destruct IH as (H1 & H2 & new & -> & H3 & H4).
    assert (Hins : ∀ i, (<[t := true]> seen) !! i = if decide (i = t) then Some true else seen !! i).
    { intros i. case_decide as D; [subst; by apply list_lookup_insert_eq|].
      by apply list_lookup_insert_ne. }
    split_and!; [done| |].
    + intros i. rewrite H2. unfold flagged. rewrite Hins, elem_of_cons. case_decide; naive_solver.
    + exists (t :: new). split_and!.
      * by rewrite <- app_assoc.
      * intros i. rewrite !elem_of_cons, H3, Hins. case_decide; naive_solver.
      * rewrite (unseen_insert _ _ Et), H4. simpl. lia.
  - specialize (IH seen work). destruct (mark seen work ts) as [seen' work'].
    destruct IH as (H1 & H2 & new & -> & H3 & H4). split_and!; [done| |].
    + intros i. rewrite H2, elem_of_cons. apply lookup_ge_None in Et. naive_solver lia.
    + exists new. split_and!; [done| |done]. intros i. rewrite H3, elem_of_cons. naive_solver.
Qed.

Lemma mark_pushed sn work ts sn' work' j :
  mark sn work ts = (sn', work') →
  (j ∈ work → j ∈ work') ∧ (flagged sn' j → ¬ flagged sn j → j ∈ work').
Proof.
  intros E. pose proof (mark_spec sn work ts) as H. rewrite E in H.
  destruct H as (_ & H1 & new & -> & H2 & _). split; [set_solver|].
  intros Hf Hn. apply elem_of_app. right. apply H2. apply H1 in Hf as [?|[? Hl]]; [done|].
  split; [done|]. apply lookup_lt_is_Some in Hl as [[] ?]; done.
Qed.

Lemma mark_prefix sn a w ts :
  mark sn (a ++ w) ts = let '(s', w') := mark sn w ts in (s', a ++ w').
Proof.
  revert sn w. induction ts as [|t ts IH]; intros sn w; simpl; [done|].
  destruct (sn !! t) as [[]|]; [apply IH| |apply IH]. by rewrite <- app_assoc, IH.
Qed.

Section Search.
(** A finite graph on indices and the set of roots of the search. *)
Context (succ : nat → list nat) (root : nat → Prop).

Inductive reachable : nat → Prop :=
  | reach_root i : root i → reachable i
  | reach_step i j : reachable i → j ∈ succ i → reachable j.

(** [seen] are the flags and [work] the flagged nodes not yet processed. *)
Record search_inv (n : nat) (seen : list bool) (work : list nat) : Prop := mkSearchInv {
  si_length : length seen = n;
  si_sound : ∀ i, flagged seen i → reachable i;
  si_root : ∀ i, root i → flagged seen i;
  si_closed : ∀ i, flagged seen i → i ∈ work ∨ ∀ j, j ∈ succ i → flagged seen j;
  si_work : ∀ i, i ∈ work → flagged seen i;
}.

(** Processing node [i]: flag its successors, push the new ones. *)
Lemma search_step n seen work rest i :
  (∀ j, j ∈ succ i → (j < n)%nat) →
  search_inv n seen work → (∀ j, j ∈ work ↔ j = i ∨ j ∈ rest) →
  let '(seen', rest') := mark seen rest (succ i) in
  search_inv n seen' rest' ∧
  (unseen seen' + length rest' = unseen seen + length rest)%nat.
Proof.
  intros Hr [Hl Hs Hro Hc Hw] Hwork. pose proof (mark_spec seen rest (succ i)) as Hm.
  destruct (mark seen rest (succ i)) as [seen' rest'].
  destruct Hm as (H1 & H2 & new & -> & H3 & H4). rewrite length_app.
  assert (flagged seen i) as Hi by (apply Hw, Hwork; by left).
  split; [|lia]. split; [lia|..].
  - intros j. rewrite H2. intros [?|[? _]]; [auto|]. eapply reach_step; eauto.
  - intros j Hj. rewrite H2. auto.
  - intros j. rewrite H2, elem_of_app, H3. intros Hj.
    destruct (decide (flagged seen j)) as [Hf|Hf].
    + destruct (decide (j = i)) as [->|Hne].
      * right. intros k Hk. rewrite H2. right. split; [done|]. rewrite Hl. auto.
      * destruct (Hc j Hf) as [?%Hwork|Hsucc]; [naive_solver|].
        right. intros k Hk. rewrite H2. auto.
    + left. right. destruct Hj as [?|[? Hlt]]; [done|]. split; [done|].
      apply lookup_lt_is_Some in Hlt as [[] ?]; done.
  - intros j. rewrite elem_of_app, H3, H2. intros [?|[? ?]].
    + left. apply Hw, Hwork. by right.
    + right. split; [done|]. by eapply lookup_lt_Some.
Qed.

Lemma search_done n seen :
  search_inv n seen [] → ∀ i, flagged seen i ↔ reachable i.
Proof.
  intros [_ Hs Hr Hc _] i. split; [auto|]. induction 1 as [i Hi|i j _ IH Hj]; [auto|].
  destruct (Hc i IH) as [?%elem_of_nil|?]; auto. done.
Qed.
End Search.
