(* ===== verification/SocketGc.v ===== *)
(** * Socket reference-cycle collector

    Models [posix/src/socket_gc.rs]: given the endpoint descriptions with
    their native reference counts and one edge per queued reference, find the
    descriptions that only queued references of other such descriptions keep
    alive.  The outcomes of the four [try_reserve_exact] calls are the
    argument [alloc]. *)

From S2P Require Import Prelude Reach.

(** [crate::socket::MAX_ENDPOINTS]. *)
Definition MAX_ENDPOINTS : Z := 1024.

Record Node := mkNode { id : Z; references : Z }.

(** [nodes.iter().position(|node| node.id == target)]. *)
Definition position (nodes : list Node) (target : Z) : option nat :=
  fst <$> list_find (λ node, id node = target) nodes.

(** The first loop: every identifier nonzero and not seen before. *)
Fixpoint check_ids (before nodes : list Node) : result Z unit :=
  match nodes with
  | [] => Ok tt
  | node :: rest =>
      if (id node =? 0) || existsb (λ old, id old =? id node) before then Err (-22)
      else check_ids (before ++ [node]) rest
  end.

(** The second loop: count the edges into every node. *)
Fixpoint count_incoming (nodes : list Node) (edges : list (Z * Z)) (incoming : list Z)
    : result Z (list Z) :=
  match edges with
  | [] => Ok incoming
  | (source, target) :: rest =>
      if negb (existsb (λ node, id node =? source) nodes) then Err (-22)
      else
        index ← ok_or (-22) (position nodes target);
        old ← ok_or (-22) (incoming !! index);
        count ← ok_or (-75) (checked_add U64_MAX old 1);
        count_incoming nodes rest (<[index := count]> incoming)
  end.

(** The third loop: nodes with other references are roots. *)
Fixpoint find_roots (index : nat) (nodes : list Node) (incoming : list Z)
    (reachable : list bool) (work : list nat) : result Z (list bool * list nat) :=
  match nodes, incoming with
  | node :: nodes, count :: incoming =>
      if references node <? count then Err (-11)
      else if references node >? count
      then find_roots (S index) nodes incoming (<[index := true]> reachable) (work ++ [index])
      else find_roots (S index) nodes incoming reachable work
  | _, _ => Ok (reachable, work)
  end.

(** The inner loop of the traversal over the edges leaving [source_id]. *)
Fixpoint visit_edges (nodes : list Node) (source_id : Z) (edges : list (Z * Z))
    (reachable : list bool) (work : list nat) : result Z (list bool * list nat) :=
  match edges with
  | [] => Ok (reachable, work)
  | (source, target) :: rest =>
      if source =? source_id then
        target ← ok_or (-22) (position nodes target);
        let '(reachable, work) := mark reachable work [target] in
        visit_edges nodes source_id rest reachable work
      else visit_edges nodes source_id rest reachable work
  end.

(** [while let Some(index) = work.pop()].  [None] is running out of fuel. *)
Fixpoint traverse (fuel : nat) (nodes : list Node) (edges : list (Z * Z))
    (reachable : list bool) (work : list nat) : option (result Z (list bool)) :=
  match last work with
  | None => Some (Ok reachable)
  | Some index =>
      match fuel with
      | O => None
      | S fuel =>
          match nodes !! index with
          | None => Some (Err (-22))
          | Some node =>
              match visit_edges nodes (id node) edges reachable (removelast work) with
              | Err e => Some (Err e)
              | Ok (reachable, work) => traverse fuel nodes edges reachable work
              end
          end
      end
  end.

(** The last loop. *)
Definition garbage (nodes : list Node) (reachable : list bool) : list Z :=
  map (λ '(node, _), id node) (List.filter (λ '(_, r), negb r) (combine nodes reachable)).

(** [unreachable]. *)
Definition unreachable (alloc : nat → bool) (nodes : list Node) (edges : list (Z * Z))
    : option (result Z (list Z)) :=
  if zlen nodes >? MAX_ENDPOINTS then Some (Err (-22))
  else match check_ids [] nodes with
  | Err e => Some (Err e)
  | Ok _ =>
      if negb (alloc 0%nat) then Some (Err (-12))
      else match count_incoming nodes edges (replicate (length nodes) 0) with
      | Err e => Some (Err e)
      | Ok incoming =>
          if negb (alloc 1%nat) || negb (alloc 2%nat) then Some (Err (-12))
          else match find_roots 0 nodes incoming (replicate (length nodes) false) [] with
          | Err e => Some (Err e)
          | Ok (reachable, work) =>
              match traverse (length nodes) nodes edges reachable work with
              | None => None
              | Some (Err e) => Some (Err e)
              | Some (Ok reachable) =>
                  if negb (alloc 3%nat) then Some (Err (-12))
                  else Some (Ok (garbage nodes reachable))
              end
          end
      end
  end.

Example gc_example :
  unreachable (λ _, true)
    [mkNode 1 2; mkNode 2 1; mkNode 3 1; mkNode 4 1] [(1, 2); (3, 4); (4, 3)]
  = Some (Ok [3; 4]).
Proof. reflexivity. Qed.

(** ** Specification *)

(** Queued references to a node. *)
Definition indegree (edges : list (Z * Z)) (t : Z) : Z :=
  zlen (List.filter (λ '(_, target), target =? t) edges).

(** A node is live when something other than a queue refers to it, or when a
    queue of a live node does. *)
Inductive live (nodes : list Node) (edges : list (Z * Z)) : Z → Prop :=
  | live_root node :
      node ∈ nodes → indegree edges (id node) < references node → live nodes edges (id node)
  | live_edge s t : live nodes edges s → (s, t) ∈ edges → live nodes edges t.

(** ** Lemmas *)

Lemma check_ids_ok before nodes :
  NoDup (id <$> before) → check_ids before nodes = Ok tt →
  NoDup (id <$> before ++ nodes) ∧ ∀ n, n ∈ nodes → id n ≠ 0.
Proof.
  revert before. induction nodes as [|n nodes IH]; intros before Hd; simpl.
  - rewrite app_nil_r. intros _. split; [done|]. intros n ?%elem_of_nil. done.
  - destruct (_ || _) eqn:E; [done|]. apply orb_false_iff in E as [E1 E2]. intros H.
    rewrite cons_middle, app_assoc. destruct (IH (before ++ [n])) as [H1 H2]; [|done|].
    + rewrite fmap_app. apply NoDup_app. split_and!; [done| |apply NoDup_singleton].
      intros x Hx Hx'. apply list_elem_of_singleton in Hx' as ->.
      apply list_elem_of_fmap in Hx as (o & Ho & Hin%list_elem_of_In).
      apply not_true_iff_false in E2. apply E2, existsb_exists. exists o. by rewrite Ho, Z.eqb_refl.
    + split; [done|]. intros m [->|?]%elem_of_cons; [lia|auto].
Qed.

Lemma position_some nodes t i :
  position nodes t = Some i → ∃ n, nodes !! i = Some n ∧ id n = t.
Proof.
  unfold position. destruct (list_find _ nodes) as [[j n]|] eqn:E; [|done].
  intros [= <-]. apply list_find_Some in E as (? & ? & _). eauto.
Qed.

Lemma position_lookup nodes i n :
  NoDup (id <$> nodes) → nodes !! i = Some n → position nodes (id n) = Some i.
Proof.
  intros Hd Hi. unfold position. destruct (list_find _ nodes) as [[j m]|] eqn:E.
  - apply list_find_Some in E as (Hj & Hid & _). simpl. f_equal.
    apply (NoDup_lookup (id <$> nodes) j i (id n) Hd); rewrite list_lookup_fmap;
      [rewrite Hj|rewrite Hi]; simpl; congruence.
  - apply list_find_None in E. rewrite Forall_forall in E. exfalso.
    eapply E; [|reflexivity]. by eapply list_elem_of_lookup_2.
Qed.

Lemma indegree_cons s t edges x :
  indegree ((s, t) :: edges) x = (if t =? x then 1 else 0) + indegree edges x.
Proof. unfold indegree. simpl. destruct (t =? x); autorewrite with mochi; lia. Qed.

Definition endpoints_ok (nodes : list Node) (edges : list (Z * Z)) : Prop :=
  ∀ s t, (s, t) ∈ edges →
    (∃ n, n ∈ nodes ∧ id n = s) ∧ ∃ i, position nodes t = Some i.

Lemma count_incoming_ok nodes edges incoming inc :
  NoDup (id <$> nodes) → length incoming = length nodes →
  count_incoming nodes edges incoming = Ok inc →
  endpoints_ok nodes edges ∧ length inc = length nodes ∧
  ∀ i n c, nodes !! i = Some n → incoming !! i = Some c →
    inc !! i = Some (c + indegree edges (id n)).
Proof.
  intros Hd. revert incoming. induction edges as [|[s t] edges IH]; intros incoming Hl; simpl.
  - intros [= <-]. split_and!; [intros s t; set_solver|done|]. intros i n c _ ->.
    unfold indegree. simpl. rewrite zlen_nil. f_equal. lia.
  - destruct (existsb _ nodes) eqn:Es; simpl; [|done].
    destruct (position nodes t) as [p|] eqn:Ep; simpl; [|done].
    destruct (incoming !! p) as [old|] eqn:Eo; simpl; [|done].
    unfold checked_add. destruct (old + 1 <=? U64_MAX) eqn:Eu; simpl; [|done]. intros H.
    apply IH in H as (H1 & H2 & H3); [|by rewrite length_insert].
    split_and!; [|done|].
    + intros s' t' [[= -> ->]|?]%elem_of_cons; [|auto]. split; [|eauto].
      apply existsb_exists in Es as (n & Hn & E). exists n. rewrite list_elem_of_In. split; [done|lia].
    + intros i n c Hi Hc. rewrite indegree_cons.
      destruct (position_some _ _ _ Ep) as (m & Hm & Hid).
      destruct (decide (i = p)) as [->|Hne].
      * rewrite Hm in Hi. injection Hi as ->. rewrite Eo in Hc. injection Hc as ->.
        rewrite (H3 p n (c + 1) Hm).
        -- rewrite Hid, Z.eqb_refl. f_equal. lia.
        -- apply list_lookup_insert_eq. by eapply lookup_lt_Some.
      * rewrite (H3 i n c Hi) by by rewrite list_lookup_insert_ne.
        assert (t ≠ id n) as Hne'.
        { intros ->. rewrite (position_lookup nodes i n Hd Hi) in Ep. congruence. }
        by replace (t =? id n) with false by lia.
Qed.

Lemma find_roots_ok index nodes inc pre work r w :
  length inc = length nodes → length pre = index →
  find_roots index nodes inc (pre ++ replicate (length nodes) false) work = Ok (r, w) →
  ∃ flags new,
    r = pre ++ flags ∧ w = work ++ new ∧ length flags = length nodes ∧
    (∀ i n c, nodes !! i = Some n → inc !! i = Some c →
       c ≤ references n ∧ flags !! i = Some (references n >? c)) ∧
    (∀ j, j ∈ new ↔ ∃ i, j = (index + i)%nat ∧ flags !! i = Some true) ∧
    (unseen flags + length new = length nodes)%nat.
Proof.
  revert index inc pre work. induction nodes as [|n nodes IH]; intros index [|c inc] pre work Hl Hp;
    simpl in *; try done.
  { intros [= <- <-]. exists [], []. rewrite !app_nil_r. split_and!; try done. set_solver. }
  destruct (references n <? c) eqn:E1; [done|].
  destruct (references n >? c) eqn:E2.
  - replace (<[index := true]> (pre ++ false :: replicate (length nodes) false))
      with ((pre ++ [true]) ++ replicate (length nodes) false)
      by (subst index; rewrite <- (Nat.add_0_r (length pre)), insert_app_r, <- app_assoc; done).
    intros H. apply IH in H as (fl & new & -> & -> & H1 & H2 & H3 & H4);
      [|lia|rewrite length_app; simpl; lia].
    exists (true :: fl), (index :: new). rewrite <- !app_assoc. split_and!; try done.
    + simpl. lia.
    + intros [|i] m c'; simpl; [|apply H2]. intros [= <-] [= <-]. split; [lia|by rewrite E2].
    + intros j. rewrite elem_of_cons, H3. split.
      * intros [->|(i & -> & ?)]; [exists O; split; [lia|done]|exists (S i); split; [lia|done]].
      * intros ([|i] & -> & ?); [left; lia|right; exists i; split; [lia|done]].
    + unfold unseen in *. simpl. lia.
  - replace (pre ++ false :: replicate (length nodes) false)
      with ((pre ++ [false]) ++ replicate (length nodes) false) by by rewrite <- app_assoc.
    intros H. apply IH in H as (fl & new & -> & -> & H1 & H2 & H3 & H4);
      [|lia|rewrite length_app; simpl; lia].
    exists (false :: fl), new. rewrite <- !app_assoc. split_and!; try done.
    + simpl. lia.
    + intros [|i] m c'; simpl; [|apply H2]. intros [= <-] [= <-]. split; [lia|by rewrite E2].
    + intros j. rewrite H3. split.
      * intros (i & -> & ?). exists (S i); split; [lia|done].
      * intros ([|i] & -> & ?); [done|exists i; split; [lia|done]].
    + unfold unseen in *. simpl. lia.
Qed.

(** The graph the traversal searches. *)
Definition out_edges (edges : list (Z * Z)) (s : Z) : list Z :=
  map snd (List.filter (λ '(source, _), source =? s) edges).
Definition succ (nodes : list Node) (edges : list (Z * Z)) (i : nat) : list nat :=
  match nodes !! i with
  | Some n => omap (position nodes) (out_edges edges (id n))
  | None => []
  end.
Definition is_root (nodes : list Node) (edges : list (Z * Z)) (i : nat) : Prop :=
  ∃ n, nodes !! i = Some n ∧ indegree edges (id n) < references n.

Lemma visit_edges_mark nodes s edges reach work :
  (∀ a t, (a, t) ∈ edges → ∃ i, position nodes t = Some i) →
  visit_edges nodes s edges reach work =
  Ok (mark reach work (omap (position nodes) (out_edges edges s))).
Proof.
  unfold out_edges. revert reach work.
  induction edges as [|[a t] edges IH]; intros reach work He; simpl; [done|].
  assert (Hrest : ∀ a' t', (a', t') ∈ edges → ∃ i, position nodes t' = Some i).
  { intros. eapply He. by right. }
  destruct (a =? s) eqn:E; simpl; [|by apply IH].
  destruct (He a t) as [i Hi]; [by left|]. rewrite Hi. simpl.
  destruct (reach !! i) as [[]|]; by rewrite IH.
Qed.

Lemma elem_of_succ nodes edges i j :
  j ∈ succ nodes edges i ↔
  ∃ n t, nodes !! i = Some n ∧ (id n, t) ∈ edges ∧ position nodes t = Some j.
Proof.
  unfold succ, out_edges. destruct (nodes !! i) as [n|]; [|set_solver].
  rewrite list_elem_of_omap. setoid_rewrite list_elem_of_In. setoid_rewrite in_map_iff.
  setoid_rewrite filter_In. split.
  - intros (t & ([s t'] & <- & Hin & E) & Hp). exists n, t'. split; [done|].
    by replace (id n) with s by lia.
  - intros (m & t & [= <-] & Hin & Hp). exists t. split; [|done]. exists (id n, t).
    by rewrite Z.eqb_refl.
Qed.

Lemma traverse_ok nodes edges fuel reach work :
  endpoints_ok nodes edges →
  search_inv (succ nodes edges) (is_root nodes edges) (length nodes) reach work →
  (unseen reach + length work ≤ fuel)%nat →
  ∃ reach', traverse fuel nodes edges reach work = Some (Ok reach') ∧
    search_inv (succ nodes edges) (is_root nodes edges) (length nodes) reach' [].
Proof.
  intros He. revert reach work. induction fuel as [|fuel IH]; intros reach work Hi Hf; simpl.
  - destruct work as [|x work]; simpl in *; [eauto|lia].
  - destruct (last work) as [i|] eqn:El.
    2:{ apply last_None in El as ->. eauto. }
    apply last_Some in El as [w ->]. rewrite removelast_last.
    assert (flagged reach i) as Hfl by (eapply si_work; [done|]; set_solver).
    apply lookup_lt_Some in Hfl. rewrite (si_length _ _ _ _ _ Hi) in Hfl.
    apply lookup_lt_is_Some in Hfl as [n Hn]. rewrite Hn.
    rewrite visit_edges_mark by (intros a t Hat; by apply He in Hat as [_ ?]).
    assert (succ nodes edges i = omap (position nodes) (out_edges edges (id n))) as Es
      by (unfold succ; by rewrite Hn). rewrite <- Es.
    pose proof (search_step (succ nodes edges) (is_root nodes edges) (length nodes)
      reach (w ++ [i]) w i) as Hs.
    destruct (mark reach w (succ nodes edges i)) as [reach' work'].
    destruct Hs as [H1 H2]; [|done| |].
    { intros j (_ & t & _ & _ & (m & Hm & _)%position_some)%elem_of_succ.
      by eapply lookup_lt_Some. }
    { intros j. rewrite elem_of_app, list_elem_of_singleton. tauto. }
    apply IH; [done|]. rewrite length_app in Hf. simpl in Hf. lia.
Qed.

Lemma reachable_live nodes edges i n :
  NoDup (id <$> nodes) → endpoints_ok nodes edges → nodes !! i = Some n →
  reachable (succ nodes edges) (is_root nodes edges) i ↔ live nodes edges (id n).
Proof.
  intros Hd He Hn. split.
  - intros H. revert n Hn. induction H as [i (n & Hn & Hr)|i j _ IH Hj]; intros m Hm.
    + rewrite Hn in Hm. injection Hm as <-. constructor; [by eapply list_elem_of_lookup_2|done].
    + apply elem_of_succ in Hj as (n & t & Hn & Hin & Hp). apply position_some in Hp as (m' & Hm' & <-).
      rewrite Hm in Hm'. injection Hm' as <-. eapply live_edge; [by apply IH|done].
  - intros H. remember (id n) as x eqn:Ex. revert i n Hn Ex.
    induction H as [m Hin Hr|s t Hs IH Hin]; intros i n Hn Ex.
    + apply reach_root. apply list_elem_of_lookup_1 in Hin as [j Hj].
      pose proof (position_lookup _ _ _ Hd Hj) as P1. rewrite Ex, (position_lookup _ _ _ Hd Hn) in P1.
      injection P1 as ->. by exists m.
    + subst t. destruct (He _ _ Hin) as [(m & Hm & <-) _].
      apply list_elem_of_lookup_1 in Hm as [j Hj]. eapply reach_step; [by apply (IH j m)|].
      apply elem_of_succ. exists m, (id n). by rewrite (position_lookup _ _ _ Hd Hn).
Qed.

Lemma elem_of_garbage nodes reach x :
  length reach = length nodes →
  x ∈ garbage nodes reach ↔ ∃ i n, nodes !! i = Some n ∧ id n = x ∧ ¬ flagged reach i.
Proof.
  unfold garbage, flagged. revert reach.
  induction nodes as [|n nodes IH]; intros [|b reach] Hl; simpl in *; try done.
  { split; [set_solver|]. by intros (i & n & ? & _). }
  assert ((∃ i m, (n :: nodes) !! i = Some m ∧ id m = x ∧ (b :: reach) !! i ≠ Some true) ↔
          (id n = x ∧ b = false) ∨
          ∃ i m, nodes !! i = Some m ∧ id m = x ∧ reach !! i ≠ Some true) as ->.
  { split.
    - intros ([|i] & m & H1 & H2 & H3); simpl in *; [left|right; eauto].
      injection H1 as ->. destruct b; naive_solver.
    - intros [[<- ->]|(i & m & H1 & H2 & H3)]; [by exists O, n|by exists (S i), m]. }
  destruct b; simpl; rewrite <- IH by lia; [naive_solver|]. rewrite elem_of_cons. naive_solver.
Qed.

(** The state in which the traversal starts. *)
Lemma roots_inv nodes edges inc fl work :
  NoDup (id <$> nodes) →
  count_incoming nodes edges (replicate (length nodes) 0) = Ok inc →
  find_roots 0 nodes inc (replicate (length nodes) false) [] = Ok (fl, work) →
  endpoints_ok nodes edges ∧
  search_inv (succ nodes edges) (is_root nodes edges) (length nodes) fl work ∧
  (unseen fl + length work = length nodes)%nat ∧
  ∀ n, n ∈ nodes → indegree edges (id n) ≤ references n.
Proof.
  intros Hd E2 E3.
  apply count_incoming_ok in E2 as (He & Hl & Hc); [|done|apply length_replicate].
  apply (find_roots_ok 0 nodes inc []) in E3
    as (fl' & new & -> & -> & H1 & H2 & H3 & H4); [|done..]. simpl.
  assert (Hfl : ∀ i n, nodes !! i = Some n →
    indegree edges (id n) ≤ references n ∧ fl' !! i = Some (references n >? indegree edges (id n))).
  { intros i n Hn. assert (replicate (length nodes) 0 !! i = Some 0) as Hz
      by (apply lookup_replicate_2; by eapply lookup_lt_Some).
    specialize (Hc i n 0 Hn Hz). rewrite Z.add_0_l in Hc. eauto. }
  split_and!; try done; [|by intros n [i Hn]%list_elem_of_lookup_1; eapply Hfl].
  split; [done|..].
  - intros i Hfi. apply reach_root. unfold flagged in Hfi.
    pose proof (lookup_lt_Some _ _ _ Hfi) as Hlt. rewrite H1 in Hlt.
    apply lookup_lt_is_Some in Hlt as [n Hn]. destruct (Hfl i n Hn) as [_ Hv].
    rewrite Hfi in Hv. injection Hv as Hv. exists n. split; [done|lia].
  - intros i (n & Hn & Hr). destruct (Hfl i n Hn) as [_ Hv]. unfold flagged. rewrite Hv.
    f_equal. lia.
  - intros i Hfi. left. apply H3. by exists i.
  - by intros i (j & -> & ?)%H3.
Qed.

(** The steps of [unreachable], given the first three loops' results. *)
Lemma unreachable_cases alloc nodes edges :
  (∃ e, unreachable alloc nodes edges = Some (Err e)) ∨
  ∃ reach, unreachable alloc nodes edges = Some (Ok (garbage nodes reach)) ∧
    NoDup (id <$> nodes) ∧ endpoints_ok nodes edges ∧
    search_inv (succ nodes edges) (is_root nodes edges) (length nodes) reach [] ∧
    ∀ n, n ∈ nodes → indegree edges (id n) ≤ references n.
Proof.
  unfold unreachable. destruct (_ >? _); [eauto|].
  destruct (check_ids [] nodes) as [[]|] eqn:E1; [|eauto].
  apply check_ids_ok in E1 as [Hd _]; [|constructor]. simpl in Hd.
  destruct (alloc 0%nat); simpl; [|eauto].
  destruct (count_incoming _ _ _) as [inc|] eqn:E2; [|eauto].
  destruct (_ || _); [eauto|].
  destruct (find_roots _ _ _ _ _) as [[fl work]|] eqn:E3; [|eauto].
  destruct (roots_inv _ _ _ _ _ Hd E2 E3) as (He & Hi & Hm & Hr).
  destruct (traverse_ok nodes edges (length nodes) fl work He Hi) as (reach & -> & Hi'); [lia|].
  destruct (alloc 3%nat); simpl; [|eauto]. right. exists reach. by split_and!.
Qed.

Lemma unreachable_ok alloc nodes edges g :
  unreachable alloc nodes edges = Some (Ok g) →
  NoDup (id <$> nodes) ∧ endpoints_ok nodes edges ∧
  (∀ n, n ∈ nodes → indegree edges (id n) ≤ references n) ∧
  ∀ x, x ∈ g ↔ (∃ n, n ∈ nodes ∧ id n = x) ∧ ¬ live nodes edges x.
Proof.
  intros E. destruct (unreachable_cases alloc nodes edges)
    as [[e E']|(reach & E' & Hd & He & Hi & Hr)]; [congruence|].
  rewrite E in E'. injection E' as ->. split_and!; try done.
  intros x. rewrite elem_of_garbage by apply Hi. split.
  - intros (i & n & Hn & <- & Hnf). split; [exists n; split; [by eapply list_elem_of_lookup_2|done]|].
    by rewrite <- (reachable_live nodes edges i n), <- (search_done _ _ _ _ Hi).
  - intros [(n & [i Hn]%list_elem_of_lookup_1 & <-) Hnl]. exists i, n. split_and!; try done.
    by rewrite (search_done _ _ _ _ Hi), (reachable_live nodes edges i n).
Qed.

(** *** Consistent observations succeed *)

Lemma check_ids_succeeds before nodes :
  NoDup (id <$> before ++ nodes) → (∀ n, n ∈ nodes → id n ≠ 0) → check_ids before nodes = Ok tt.
Proof.
  revert before. induction nodes as [|n nodes IH]; intros before Hd H0; simpl; [done|].
  assert (n ∈ n :: nodes) as Hn by by left. specialize (H0 n Hn) as H0n.
  replace (id n =? 0) with false by lia. simpl.
  destruct (existsb _ before) eqn:E.
  - apply existsb_exists in E as (o & Ho & E). rewrite fmap_app in Hd.
    apply NoDup_app in Hd as (_ & Hd & _). exfalso. apply (Hd (id o)).
    + apply list_elem_of_fmap. exists o. by rewrite list_elem_of_In.
    + apply Z.eqb_eq in E. rewrite E. by left.
  - apply IH; [by rewrite <- app_assoc|]. intros m Hm. apply H0. by right.
Qed.

Lemma count_incoming_succeeds nodes edges incoming :
  length incoming = length nodes → endpoints_ok nodes edges →
  (∀ i n c, nodes !! i = Some n → incoming !! i = Some c → c + indegree edges (id n) ≤ U64_MAX) →
  ∃ inc, count_incoming nodes edges incoming = Ok inc.
Proof.
  revert incoming. induction edges as [|[s t] edges IH]; intros incoming Hl He Hc; simpl; [eauto|].
  destruct (He s t) as [(n & Hn & Hid) [p Hp]]; [by left|].
  assert (existsb (λ node, id node =? s) nodes = true) as ->.
  { apply existsb_exists. exists n. split; [by apply list_elem_of_In|lia]. }
  rewrite Hp. simpl. destruct (position_some _ _ _ Hp) as (m & Hm & Ht).
  assert (p < length incoming)%nat as Hlt by (rewrite Hl; by eapply lookup_lt_Some).
  apply lookup_lt_is_Some in Hlt as [old Ho]. rewrite Ho. simpl. unfold checked_add.
  assert (Hdeg : ∀ x, 0 ≤ indegree edges x) by (intros; apply zlen_nonneg).
  pose proof (Hc p m old Hm Ho) as Hb. rewrite indegree_cons, Ht, Z.eqb_refl in Hb.
  specialize (Hdeg t) as ?. replace (old + 1 <=? U64_MAX) with true by lia. simpl.
  apply IH; [by rewrite length_insert|intros a b ?; apply He; by right|].
  intros i k c Hk Hi. destruct (decide (i = p)) as [->|Hne].
  - rewrite list_lookup_insert_eq in Hi by by eapply lookup_lt_Some. injection Hi as <-.
    rewrite Hm in Hk. injection Hk as <-. rewrite Ht. lia.
  - rewrite list_lookup_insert_ne in Hi by done. pose proof (Hc i k c Hk Hi) as Hb'.
    rewrite indegree_cons in Hb'. destruct (t =? id k); lia.
Qed.

Lemma find_roots_succeeds index nodes inc reach work :
  (∀ i n c, nodes !! i = Some n → inc !! i = Some c → c ≤ references n) →
  ∃ out, find_roots index nodes inc reach work = Ok out.
Proof.
  revert index inc reach work. induction nodes as [|n nodes IH];
    intros index [|c inc] reach work H; simpl; [eauto..|].
  specialize (H 0%nat n c eq_refl eq_refl) as H0.
  replace (references n <? c) with false by lia.
  destruct (references n >? c); apply IH; intros i; apply (H (S i)).
Qed.

(** ** Properties *)

(** The socket collector always terminates, and when it answers, a socket
    is in the answer exactly when it is a node and is not live, where a node
    is live if it has a reference that is not a queued edge or is the target
    of an edge from a live node. *)
Theorem unreachable_exact alloc nodes edges :
  match unreachable alloc nodes edges with
  | Some (Ok g) => ∀ x, x ∈ g ↔ (∃ n, n ∈ nodes ∧ id n = x) ∧ ¬ live nodes edges x
  | Some (Err _) => True
  | None => False
  end.
Proof.
  destruct (unreachable alloc nodes edges) as [[g|e]|] eqn:E; [|done|].
  - by apply unreachable_ok in E as (_ & _ & _ & ?).
  - destruct (unreachable_cases alloc nodes edges) as [[e E']|(r & E' & _)]; congruence.
Qed.

(** Every socket the collector reports is referenced by queued edges alone,
    and only by edges from sockets that are reported too. *)
Theorem garbage_self_contained alloc nodes edges g n :
  unreachable alloc nodes edges = Some (Ok g) → n ∈ nodes → id n ∈ g →
  references n = indegree edges (id n) ∧ ∀ s, (s, id n) ∈ edges → s ∈ g.
Proof.
  intros (Hd & He & Hr & Hg)%unreachable_ok Hn Hx. apply Hg in Hx as [_ Hnl]. split.
  - specialize (Hr n Hn). destruct (decide (indegree edges (id n) < references n)); [|lia].
    exfalso. apply Hnl. by constructor.
  - intros s Hs. apply Hg. split; [by apply (He s (id n))|]. intros Hl. apply Hnl.
    by eapply live_edge.
Qed.

(** On a graph of at most the maximum number of endpoints with distinct
    nonzero identifiers, whose edges join its nodes and whose reference
    counts cover the edges, the collector gives an answer. *)
Theorem unreachable_succeeds nodes edges :
  zlen nodes ≤ MAX_ENDPOINTS → NoDup (id <$> nodes) →
  (∀ n, n ∈ nodes → id n ≠ 0 ∧ indegree edges (id n) ≤ references n ≤ U64_MAX) →
  (∀ s t, (s, t) ∈ edges → s ∈ (id <$> nodes) ∧ t ∈ (id <$> nodes)) →
  ∃ g, unreachable (λ _, true) nodes edges = Some (Ok g).
Proof.
  intros Hl Hd Hn Hin.
  assert (endpoints_ok nodes edges) as He.
  { intros s t [(n & -> & ?)%list_elem_of_fmap (m & -> & [i Hm]%list_elem_of_lookup_1)%list_elem_of_fmap]%Hin.
    split; [eauto|]. exists i. by apply position_lookup. }
  destruct (count_incoming_succeeds nodes edges (replicate (length nodes) 0)) as [inc Ei];
    [apply length_replicate|done| |].
  { intros i n c Hi [-> _]%lookup_replicate. apply list_elem_of_lookup_2 in Hi.
    apply Hn in Hi. lia. }
  destruct (count_incoming_ok _ _ _ _ Hd (length_replicate _ _) Ei) as (_ & Hli & Hci).
  destruct (find_roots_succeeds 0 nodes inc (replicate (length nodes) false) []) as [[fl w] Ef].
  { intros i n c Hi Hc. assert (i < length nodes)%nat as Hlt by by eapply lookup_lt_Some.
    rewrite (Hci i n 0 Hi) in Hc by (by apply lookup_replicate_2). injection Hc as <-.
    apply list_elem_of_lookup_2 in Hi. apply Hn in Hi. lia. }
  destruct (roots_inv _ _ _ _ _ Hd Ei Ef) as (_ & Hi & Hm & _).
  destruct (traverse_ok nodes edges (length nodes) fl w He Hi) as (reach & Et & _); [lia|].
  exists (garbage nodes reach). unfold unreachable.
  replace (zlen nodes >? MAX_ENDPOINTS) with false by lia.
  rewrite check_ids_succeeds; [|done|intros n ?; by apply Hn]. simpl.
  rewrite Ei, Ef, Et. done.
Qed.

(** ** Examples *)

(** Two sockets in flight only through each other, one held by a process. *)
Definition example_nodes : list Node := [mkNode 1 1; mkNode 2 1; mkNode 3 1].
Definition example_edges : list (Z * Z) := [(1, 2); (2, 1)].

Lemma garbage_self_contained_witness :
  unreachable (λ _, true) example_nodes example_edges = Some (Ok [1; 2]) ∧
  indegree example_edges 1 = 1 ∧ ∀ s, (s, 1) ∈ example_edges → s ∈ [1; 2].
Proof.
  split; [by vm_compute|].
  destruct (garbage_self_contained (λ _, true) example_nodes example_edges [1; 2] (mkNode 1 1))
    as [H1 H2]; [by vm_compute|by left|by left|]. done.
Defined.

Lemma unreachable_succeeds_witness :
  ∃ g, unreachable (λ _, true) example_nodes example_edges = Some (Ok g).
Proof.
  apply (unreachable_succeeds example_nodes example_edges).
  - done.
  - by apply (bool_decide_eq_true_1 _).
  - intros n Hn. repeat (apply elem_of_cons in Hn as [->|Hn]; [split; [done|by vm_compute]|]).
    by apply elem_of_nil in Hn.
  - intros s t Hst. repeat (apply elem_of_cons in Hst as [[= -> ->]|Hst]; [set_solver|]).
    by apply elem_of_nil in Hst.
Defined.
