(* ===== verification/SocketProtocol.v ===== *)
(** * What the socket worker takes from its protocol and kernel crates

    The wire types of [mochios_posix_protocol::socket] and
    [mochios_posix_protocol::socket_record] and the limits of the kernel ABI
    are outside the repository.  Numbers and codecs are fields of
    [SocketProtocol]; the enumerations have the constructors that the sources
    name and one more for the others. *)

From S2P Require Import Prelude.

(** [socket::Kind], [socket::Domain] and [socket::Create]. *)
Inductive Kind := Stream | Datagram | SequencedPacket | Kind_other (code : Z).
Inductive Domain := Unix | Domain_other (code : Z).
#[global] Instance Kind_eq_dec : EqDecision Kind.
Proof. solve_decision. Defined.
#[global] Instance Domain_eq_dec : EqDecision Domain.
Proof. solve_decision. Defined.

Record Create := mkCreate { domain : Domain; create_kind : Kind; protocol : Z; create_options : Z }.

(** [socket::Address]. *)
Inductive Address :=
  | UnixUnnamed
  | UnixPath (name : list Z)
  | UnixAbstract (name : list Z)
  | Address_other (code : Z).
#[global] Instance Address_eq_dec : EqDecision Address.
Proof. solve_decision. Defined.

(** [socket_record::Operation], [Request] and [Reply]. *)
Inductive Operation := Send | SendRoute | SendTo | Receive | WaitSend.
#[global] Instance Operation_eq_dec : EqDecision Operation.
Proof. solve_decision. Defined.

Record Request := mkRequest {
  operation : Operation; request_offset : Z; request_length : Z; request_peek : bool }.
Record Reply := mkReply { reply_copied : Z; reply_length : Z; reply_source : option Address }.

(** [InheritedFdMetadata]: the fields that the sources read. *)
Record InheritedFdMetadata := mkMetadata {
  metadata_kind : Z; descriptor_flags : Z; open_flags : Z }.

Class SocketProtocol := {
  NONBLOCKING : Z;
  MAX_UNIX_NAME_BYTES : Z;
  MAX_TRANSFERRED_DESCRIPTORS : Z;
  MAX_RECORD_SIZE : Z;
  MAX_REPLY_LEN : Z;
  HANDLE_RIGHT_TRANSFER : Z;
  HANDLE_RIGHT_ALL : Z;
  IPC_MAX_OBJECT_HANDLES : Z;
  (** [mnu_abi::provider::MAX_DATA_LEN]. *)
  MAX_DATA_LEN : Z;
  inherited_fd_kind_requires_handle : Z → option bool;
  (** [Address::encode] and [Address::decode]. *)
  address_encode : Address → option (list Z);
  address_decode : list Z → option Address;
  (** [Request::validate]. *)
  request_valid : Request → bool;
  (** [Reply::encode]: the response buffer after it and the encoded length. *)
  reply_encode : Reply → Request → list Z → list Z * option Z;
  (** [socket_transfer::begin]. *)
  transfer_begin : Z → Z → bool;
}.

(** The crates document that an address decodes to what was encoded. *)
Class SocketCodecLaws `{SocketProtocol} := {
  address_roundtrip a bytes : address_encode a = Some bytes → address_decode bytes = Some a;
  unnamed_encodes : is_Some (address_encode UnixUnnamed);
}.
