(* ===== verification/SocketRights.v ===== *)
(** * Owned ancillary references

    Models [posix/src/socket_reference.rs] and [posix/src/socket_rights.rs]:
    references to native objects that travel in socket messages.  A [Lease]
    is a pointer to a counted cell; the cells, the budgets and the calls of
    the [close] functions are the [Heap], so that sharing between a queue and
    a snapshot of it is the sharing of a cell.  What Rust drops implicitly is
    written out as a call of a [drop_] definition.  The outcomes of the
    fallible allocations are boolean arguments.

    [holds adopted h loose bundles] is the ownership invariant: the leases
    in [loose] and in [bundles] are all the owners there are.  It is framed:
    every operation is specified for arbitrary other owners. *)

From S2P Require Import Prelude SocketProtocol.

(** ** Shared cells *)

Record LeaseData := mkLeaseData {
  lease_handle : Z; lease_rights : Z; lease_metadata : InheritedFdMetadata;
  (** Which [close] function the lease carries. *)
  lease_close : Z }.
Record Inner := mkInner { owners : Z; value : LeaseData }.
Record Accounting := mkAccounting { limit : Z; used : Z }.

Record Heap := mkHeap {
  cells : gmap Z Inner;
  next_cell : Z;
  accounts : gmap Z Accounting;
  (** The calls of [close] functions, with their argument, oldest first. *)
  closed : list (Z * Z);
}.

Definition set_cells (f : gmap Z Inner → gmap Z Inner) (h : Heap) : Heap :=
  mkHeap (f (cells h)) (next_cell h) (accounts h) (closed h).
Definition set_accounts (f : gmap Z Accounting → gmap Z Accounting) (h : Heap) : Heap :=
  mkHeap (cells h) (next_cell h) (f (accounts h)) (closed h).

(** [Drop for LeaseData]. *)
Definition drop_data (d : LeaseData) (h : Heap) : Heap :=
  if lease_handle d =? 0 then h
  else mkHeap (cells h) (next_cell h) (accounts h) (closed h ++ [(lease_close d, lease_handle d)]).

(** [Shared::try_new]: failure drops the value. *)
Definition try_new (alloc : bool) (d : LeaseData) : stM Heap Z Z := λ h,
  if alloc then
    (mkHeap (<[next_cell h := mkInner 1 d]> (cells h)) (next_cell h + 1) (accounts h) (closed h),
     Ok (next_cell h))
  else (drop_data d h, Err (-12)).

(** [Shared::retain]: another owner of the same cell. *)
Definition retain (p : Z) : stM Heap Z Z := λ h,
  match cells h !! p with
  | None => (h, Err (-75))
  | Some c =>
      match checked_add U64_MAX (owners c) 1 with
      | None => (h, Err (-75))
      | Some n => (set_cells <[p := mkInner n (value c)]> h, Ok p)
      end
  end.

(** [Drop for Shared]. *)
Definition drop_lease (p : Z) (h : Heap) : Heap :=
  match cells h !! p with
  | None => h
  | Some c =>
      if owners c =? 1 then drop_data (value c) (set_cells (delete p) h)
      else set_cells <[p := mkInner (owners c - 1) (value c)]> h
  end.
Fixpoint drop_leases (ps : list Z) (h : Heap) : Heap :=
  match ps with [] => h | p :: ps => drop_leases ps (drop_lease p h) end.

Section rights.
Context {SP : SocketProtocol}.

(** [Lease::adopt]: the reference is consumed on success and on error. *)
Definition adopt (alloc : bool) (handle rights : Z) (metadata : InheritedFdMetadata) (close : Z)
    : stM Heap Z Z := λ h,
  let data := mkLeaseData handle rights metadata close in
  if (handle =? 0) || (Z.land rights HANDLE_RIGHT_TRANSFER =? 0)
     || negb (Z.ldiff rights HANDLE_RIGHT_ALL =? 0) then (drop_data data h, Err (-13))
  else if negb (descriptor_flags metadata =? 0) || (Z.land (open_flags metadata) 3 =? 3)
     || negb (bool_decide (inherited_fd_kind_requires_handle (metadata_kind metadata) = Some true))
  then (drop_data data h, Err (-22))
  else try_new alloc data h.

(** [Lease::is_exclusive] and [Lease::handle]. *)
Definition is_exclusive (h : Heap) (p : Z) : bool :=
  match cells h !! p with Some c => owners c =? 1 | None => false end.
Definition handle_of (h : Heap) (p : Z) : option Z :=
  (λ c, lease_handle (value c)) <$> cells h !! p.

(** ** Budgets *)

Record Charge := mkCharge { charge_budget : Z; charge_count : Z }.

Definition wrapping_sub (a b : Z) : Z := (a - b) mod 2 ^ 64.

(** [Budget::reserve].  The compare-and-exchange loop runs on one worker and
    ends at its first successful exchange. *)
Definition reserve (budget count : Z) : stM Heap Z Charge := λ h,
  match accounts h !! budget with
  | None => (h, Err (-105))
  | Some a =>
      match option_keep (λ next, next <=? limit a) (checked_add U64_MAX (used a) count) with
      | None => (h, Err (-105))
      | Some next =>
          (set_accounts <[budget := mkAccounting (limit a) next]> h, Ok (mkCharge budget count))
      end
  end.

(** [used.fetch_sub(count)]. *)
Definition fetch_sub (budget count : Z) (h : Heap) : Heap :=
  match accounts h !! budget with
  | None => h
  | Some a =>
      set_accounts <[budget := mkAccounting (limit a) (wrapping_sub (used a) count)]> h
  end.
(** [Drop for Charge]. *)
Definition drop_charge (c : Charge) (h : Heap) : Heap := fetch_sub (charge_budget c) (charge_count c) h.

(** ** Bundles *)

Record Bundle := mkBundle { leases : list Z; charge : Charge }.

Definition bundle_len (b : Bundle) : Z := zlen (leases b).
Definition bundle_is_empty (b : Bundle) : bool := zlen (leases b) =? 0.

(** Dropping a bundle drops its leases, then its charge. *)
Definition drop_bundle (b : Bundle) (h : Heap) : Heap := drop_charge (charge b) (drop_leases (leases b) h).
Definition drop_option (o : option Bundle) (h : Heap) : Heap :=
  match o with Some b => drop_bundle b h | None => h end.
Fixpoint drop_bundles (bs : list Bundle) (h : Heap) : Heap :=
  match bs with [] => h | b :: bs => drop_bundles bs (drop_bundle b h) end.

(** The loop of [snapshot]: a failure drops what was retained before it. *)
Fixpoint retain_all (done ps : list Z) : stM Heap Z (list Z) := λ h,
  match ps with
  | [] => (h, Ok done)
  | p :: ps =>
      match retain p h with
      | (h, Ok q) => retain_all (done ++ [q]) ps h
      | (h, Err e) => (drop_leases done h, Err e)
      end
  end.

(** [Bundle::snapshot]. *)
Definition snapshot (alloc : bool) (b : Bundle) (maximum : Z) : stM Heap Z Bundle := λ h,
  let count := Z.min maximum (bundle_len b) in
  match reserve (charge_budget (charge b)) count h with
  | (h, Err e) => (h, Err e)
  | (h, Ok charge) =>
      if negb alloc then (drop_charge charge h, Err (-12))
      else match retain_all [] (take (Z.to_nat count) (leases b)) h with
      | (h, Err e) => (drop_charge charge h, Err e)
      | (h, Ok leases) => (h, Ok (mkBundle leases charge))
      end
  end.

(** [release_charge]. *)
Definition release_charge (count : Z) (b : Bundle) (h : Heap) : Bundle * Heap :=
  (mkBundle (leases b) (mkCharge (charge_budget (charge b)) (wrapping_sub (charge_count (charge b)) count)),
   fetch_sub (charge_budget (charge b)) count h).

(** [Bundle::truncate]. *)
Definition truncate (maximum : Z) (b : Bundle) (h : Heap) : Bundle * Heap :=
  let keep := Z.min maximum (bundle_len b) in
  let removed := bundle_len b - keep in
  let h := drop_leases (drop (Z.to_nat keep) (leases b)) h in
  release_charge removed (mkBundle (take (Z.to_nat keep) (leases b)) (charge b)) h.

(** [Bundle::discard_delivered_prefix]. *)
Definition discard_delivered_prefix (count : Z) (b : Bundle) (h : Heap) : Bundle * Heap * result Z unit :=
  if count >? bundle_len b then (b, h, Err (-22))
  else
    let h := drop_leases (take (Z.to_nat count) (leases b)) h in
    let '(b, h) := release_charge count (mkBundle (drop (Z.to_nat count) (leases b)) (charge b)) h in
    (b, h, Ok tt).

(** ** Staging *)

Record Pending := mkPending { expected : Z; pending_bundle : Bundle }.

(** [Pending::new]. *)
Definition pending_new (alloc : bool) (count budget : Z) : stM Heap Z Pending := λ h,
  if count >? MAX_TRANSFERRED_DESCRIPTORS then (h, Err (-22))
  else match reserve budget count h with
  | (h, Err e) => (h, Err e)
  | (h, Ok charge) =>
      if alloc then (h, Ok (mkPending count (mkBundle [] charge)))
      else (drop_charge charge h, Err (-12))
  end.

Definition received (p : Pending) : Z := bundle_len (pending_bundle p).
Definition is_complete (p : Pending) : bool := received p =? expected p.

(** [Pending::append]: an error closes the leases it was given. *)
Definition append (offset : Z) (new : list Z) (p : Pending) (h : Heap) : Pending * Heap * result Z unit :=
  if negb (offset =? received p) || (zlen new =? 0) || (zlen new >? IPC_MAX_OBJECT_HANDLES - 1)
     || (zlen new >? expected p - received p)
  then (p, drop_leases new h, Err (-22))
  else
    (mkPending (expected p)
       (mkBundle (leases (pending_bundle p) ++ new) (charge (pending_bundle p))), h, Ok tt).

(** [Pending::finish]: [inr] gives the transaction back. *)
Definition finish (p : Pending) : Bundle + Pending :=
  if negb (received p =? expected p) then inr p else inl (pending_bundle p).

End rights.

(** ** Ownership *)

Definition zcount (p : Z) (l : list Z) : Z := zlen (filter (p =.) l).
(** Every owner there is. *)
Definition all_leases (loose : list Z) (bs : list Bundle) : list Z := loose ++ (bs ≫= leases).
(** What the bundles charge to a budget. *)
Fixpoint charged_to (budget : Z) (bs : list Bundle) : Z :=
  match bs with
  | [] => 0
  | b :: bs =>
      (if charge_budget (charge b) =? budget then charge_count (charge b) else 0)
      + charged_to budget bs
  end.
(** The references that are open, with the function that will close them. *)
Definition open_handles (h : Heap) : list (Z * Z) :=
  (map_to_list ((λ c, (lease_close (value c), lease_handle (value c))) <$> cells h)).*2.

Record holds (adopted : list (Z * Z)) (h : Heap) (loose : list Z) (bs : list Bundle) : Prop := {
  hd_owners p :
    match cells h !! p with
    | Some c => owners c = zcount p (all_leases loose bs) ∧ 1 ≤ owners c ≤ U64_MAX
    | None => p ∉ all_leases loose bs
    end;
  hd_fresh p : is_Some (cells h !! p) → p < next_cell h;
  hd_handle p c : cells h !! p = Some c → lease_handle (value c) ≠ 0;
  hd_used b a : accounts h !! b = Some a →
    used a = charged_to b bs ∧ used a ≤ limit a ∧ used a ≤ U64_MAX;
  hd_charge b : b ∈ bs →
    is_Some (accounts h !! charge_budget (charge b)) ∧ zlen (leases b) ≤ charge_count (charge b);
  hd_closed : adopted ≡ₚ closed h ++ open_handles h;
}.

Lemma zcount_app p l k : zcount p (l ++ k) = zcount p l + zcount p k.
Proof. unfold zcount. rewrite filter_app. apply zlen_app. Qed.
Lemma zcount_cons p q l : zcount p (q :: l) = (if decide (p = q) then 1 else 0) + zcount p l.
Proof. unfold zcount. rewrite filter_cons. case_decide; autorewrite with mochi; lia. Qed.
Lemma zcount_nonneg p l : 0 ≤ zcount p l.
Proof. apply zlen_nonneg. Qed.
Lemma zcount_elem p l : p ∈ l ↔ 1 ≤ zcount p l.
Proof.
  induction l as [|q l IH]; [split; [by intros ?%elem_of_nil|done]|].
  rewrite elem_of_cons, zcount_cons, IH. pose proof (zcount_nonneg p l).
  case_decide; naive_solver lia.
Qed.
#[global] Instance zcount_perm p : Proper ((≡ₚ) ==> eq) (zcount p).
Proof. intros l k H. unfold zcount, zlen. by rewrite H. Qed.
#[global] Instance all_leases_perm : Proper ((≡ₚ) ==> (≡ₚ) ==> (≡ₚ)) all_leases.
Proof. intros l l' Hl bs bs' Hbs. unfold all_leases. by rewrite Hl, Hbs. Qed.
#[global] Instance charged_to_perm b : Proper ((≡ₚ) ==> eq) (charged_to b).
Proof. intros l k H. induction H; simpl; lia. Qed.

#[global] Instance holds_perm A h : Proper ((≡ₚ) ==> (≡ₚ) ==> iff) (holds A h).
Proof.
  assert (∀ l l' bs bs', l ≡ₚ l' → bs ≡ₚ bs' → holds A h l bs → holds A h l' bs') as H.
  { intros l l' bs bs' Hl Hb [H1 H2 H3 H4 H5 H6]. split; try done.
    - intros p. specialize (H1 p). destruct (cells h !! p); by rewrite Hl, Hb in H1.
    - intros b a Ha. rewrite <- Hb. by apply H4.
    - intros b Hin. rewrite <- Hb in Hin. by apply H5. }
  intros l l' Hl bs bs' Hb. split; apply H; done.
Qed.

Lemma holds_same A h loose bs bs' : holds A h loose bs → bs' ≡ₚ bs → holds A h loose bs'.
Proof. intros H Hp. by rewrite Hp. Qed.
(** The same owners in another order. *)
Ltac owned_by H := apply (holds_same _ _ _ _ _ H); cbn [option_list option_rect from_option]; solve_Permutation.

(** *** Leases *)

Lemma open_handles_delete h p c :
  cells h !! p = Some c →
  open_handles h ≡ₚ (lease_close (value c), lease_handle (value c)) :: open_handles (set_cells (delete p) h).
Proof.
  intros Hp. unfold open_handles, set_cells. simpl. rewrite fmap_delete.
  rewrite <- (map_to_list_delete _ p (lease_close (value c), lease_handle (value c))); [done|].
  by rewrite lookup_fmap, Hp.
Qed.
Lemma open_handles_owners h p c n :
  cells h !! p = Some c → open_handles (set_cells <[p := mkInner n (value c)]> h) = open_handles h.
Proof.
  intros Hp. unfold open_handles, set_cells. simpl. rewrite fmap_insert. simpl.
  rewrite insert_id; [done|]. by rewrite lookup_fmap, Hp.
Qed.

Lemma drop_lease_holds A h p loose bs :
  holds A h (p :: loose) bs → holds A (drop_lease p h) loose bs.
Proof.
  intros [H1 H2 H3 H4 H5 H6]. unfold drop_lease. pose proof (H1 p) as Hp.
  destruct (cells h !! p) as [c|] eqn:E.
  2:{ exfalso. apply Hp. by left. }
  destruct Hp as [Hc Hr]. unfold all_leases in Hc. simpl in Hc. rewrite zcount_cons in Hc.
  rewrite decide_True in Hc by done. fold (all_leases loose bs) in Hc.
  assert (∀ q, q ≠ p → zcount q (all_leases (p :: loose) bs) = zcount q (all_leases loose bs)) as Hq.
  { intros q Hq. unfold all_leases. simpl. rewrite zcount_cons, decide_False by done. lia. }
  destruct (owners c =? 1) eqn:E1.
  - unfold drop_data. rewrite (proj2 (Z.eqb_neq _ _) (H3 p c E)). split; simpl; try done.
    + intros q. destruct (decide (q = p)) as [->|Hne].
      * rewrite lookup_delete_eq. rewrite zcount_elem. lia.
      * rewrite lookup_delete_ne by done. specialize (H1 q). rewrite Hq in H1 by done.
        destruct (cells h !! q); [done|]. rewrite zcount_elem in *. rewrite <- Hq by done. done.
    + intros q [? Hl]. apply lookup_delete_Some in Hl as [_ Hl]. apply H2. eauto.
    + intros q d Hl. apply lookup_delete_Some in Hl as [_ Hl]. by eapply H3.
    + rewrite H6, (open_handles_delete h p c E). unfold open_handles. simpl.
      by rewrite <- app_assoc.
  - split; simpl; try done.
    + intros q. destruct (decide (q = p)) as [->|Hne].
      * rewrite lookup_insert_eq. simpl. lia.
      * rewrite lookup_insert_ne by done. specialize (H1 q). rewrite Hq in H1 by done.
        destruct (cells h !! q); [done|]. rewrite zcount_elem in *. rewrite <- Hq by done. done.
    + intros q Hl. destruct (decide (q = p)) as [->|Hne]; [apply H2; eauto|].
      rewrite lookup_insert_ne in Hl by done. by apply H2.
    + intros q d Hl. destruct (decide (q = p)) as [->|Hne].
      * rewrite lookup_insert_eq in Hl. injection Hl as <-. simpl. by apply (H3 p).
      * rewrite lookup_insert_ne in Hl by done. by eapply H3.
    + rewrite H6. fold (set_cells <[p:=mkInner (owners c - 1) (value c)]> h).
      by rewrite open_handles_owners.
Qed.

Lemma drop_leases_holds A h ps loose bs :
  holds A h (ps ++ loose) bs → holds A (drop_leases ps h) loose bs.
Proof.
  revert h. induction ps as [|p ps IH]; intros h Hh; simpl; [done|].
  apply IH. by apply drop_lease_holds.
Qed.

(** A lease moves between the loose ones and a bundle with room for it. *)
Lemma holds_move A h ls ms c loose bs :
  zlen (ms ++ ls) ≤ charge_count c →
  holds A h (ls ++ loose) (mkBundle ms c :: bs) ↔ holds A h loose (mkBundle (ms ++ ls) c :: bs).
Proof.
  intros Hlen.
  assert (all_leases (ls ++ loose) (mkBundle ms c :: bs) ≡ₚ
          all_leases loose (mkBundle (ms ++ ls) c :: bs)) as Hp.
  { unfold all_leases. simpl. solve_Permutation. }
  assert (zlen ms ≤ charge_count c) as Hms.
  { rewrite zlen_app in Hlen. pose proof (zlen_nonneg ls). lia. }
  split; intros [H1 H2 H3 H4 H5 H6]; split; try done.
  - intros p. specialize (H1 p). destruct (cells h !! p); by rewrite Hp in H1.
  - intros b [->|Hb]%elem_of_cons; [|apply H5; by right]. simpl. split; [|done].
    by apply (H5 (mkBundle ms c)); left.
  - intros p. specialize (H1 p). destruct (cells h !! p); by rewrite <- Hp in H1.
  - intros b [->|Hb]%elem_of_cons; [|apply H5; by right]. simpl. split; [|done].
    by apply (H5 (mkBundle (ms ++ ls) c)); left.
Qed.

Lemma retain_holds A h p loose bs :
  holds A h loose bs → p ∈ all_leases loose bs →
  match retain p h with
  | (h', Ok q) => q = p ∧ holds A h' (p :: loose) bs
  | (h', Err e) => h' = h ∧ e = -75
  end.
Proof.
  intros [H1 H2 H3 H4 H5 H6] Hin. unfold retain. pose proof (H1 p) as Hp.
  destruct (cells h !! p) as [c|] eqn:E; [|done]. destruct Hp as [Hc Hr].
  unfold checked_add. destruct (owners c + 1 <=? U64_MAX) eqn:Eu; [|done]. split; [done|].
  split; simpl; try done.
  - intros q. unfold all_leases. simpl. rewrite zcount_cons. destruct (decide (q = p)) as [->|Hne].
    + rewrite lookup_insert_eq. simpl. unfold all_leases in Hc. lia.
    + rewrite lookup_insert_ne by done. specialize (H1 q).
      destruct (cells h !! q); [done|]. unfold all_leases in H1. rewrite elem_of_cons. tauto.
  - intros q Hl. destruct (decide (q = p)) as [->|Hne]; [apply H2; eauto|].
    rewrite lookup_insert_ne in Hl by done. by apply H2.
  - intros q d Hl. destruct (decide (q = p)) as [->|Hne].
    + rewrite lookup_insert_eq in Hl. injection Hl as <-. simpl. by apply (H3 p).
    + rewrite lookup_insert_ne in Hl by done. by eapply H3.
  - rewrite H6. fold (set_cells <[p:=mkInner (owners c + 1) (value c)]> h).
    by rewrite open_handles_owners.
Qed.

Lemma retain_all_holds A h done ps loose bs :
  holds A h (done ++ loose) bs → (∀ p, p ∈ ps → p ∈ all_leases loose bs) →
  match retain_all done ps h with
  | (h', Ok qs) => qs = done ++ ps ∧ holds A h' (done ++ ps ++ loose) bs
  | (h', Err e) => holds A h' loose bs
  end.
Proof.
  revert h done. induction ps as [|p ps IH]; intros h done Hh Hin; simpl.
  { by rewrite app_nil_r. }
  pose proof (retain_holds A h p (done ++ loose) bs Hh) as Hr.
  destruct (retain p h) as [h' [q|e]].
  - destruct Hr as [-> Hr].
    { unfold all_leases. rewrite <- app_assoc. apply elem_of_app. right. apply Hin. by left. }
    specialize (IH h' (done ++ [p])). rewrite <- !app_assoc in IH. simpl in IH. apply IH.
    + by rewrite (Permutation_middle done loose p) in Hr.
    + intros r Hr'. apply Hin. by right.
  - destruct Hr as [-> _].
    { unfold all_leases. rewrite <- app_assoc. apply elem_of_app. right. apply Hin. by left. }
    by apply drop_leases_holds.
Qed.

(** *** Charges *)

Lemma charged_to_bound A h loose b bs :
  holds A h loose (b :: bs) → 0 ≤ charge_count (charge b) ≤ U64_MAX ∧
  ∀ budget, 0 ≤ charged_to budget bs.
Proof.
  intros [_ _ _ H4 H5 _].
  assert (∀ budget l, (∀ x, x ∈ l → x ∈ b :: bs) → 0 ≤ charged_to budget l) as Hnn.
  { intros budget. induction l as [|x l IH]; simpl; intros Hl; [done|].
    destruct (H5 x) as [_ Hx]; [apply Hl; by left|]. pose proof (zlen_nonneg (leases x)).
    assert (0 ≤ charged_to budget l) by (apply IH; intros; apply Hl; by right). case_ifs; lia. }
  destruct (H5 b) as [[a Ha] Hl]; [by left|]. destruct (H4 _ _ Ha) as (Hu & _ & Hm). simpl in Hu.
  rewrite Z.eqb_refl in Hu. pose proof (zlen_nonneg (leases b)).
  assert (∀ budget, 0 ≤ charged_to budget bs) as Hbs by (intros; apply Hnn; intros; by right).
  pose proof (Hbs (charge_budget (charge b))). split; [lia|done].
Qed.

Lemma fetch_sub_holds A h loose ls c k bs :
  holds A h loose (mkBundle ls c :: bs) → 0 ≤ k → zlen ls ≤ charge_count c - k →
  holds A (fetch_sub (charge_budget c) k h) loose
    (mkBundle ls (mkCharge (charge_budget c) (wrapping_sub (charge_count c) k)) :: bs) ∧
  wrapping_sub (charge_count c) k = charge_count c - k.
Proof.
  intros Hh Hk Hl. pose proof (charged_to_bound _ _ _ _ _ Hh) as [Hb Hnn]. simpl in Hb.
  pose proof (zlen_nonneg ls).
  assert (wrapping_sub (charge_count c) k = charge_count c - k) as Hw.
  { unfold wrapping_sub. apply Z.mod_small. unfold U64_MAX in Hb. lia. }
  split; [|done]. destruct Hh as [H1 H2 H3 H4 H5 H6].
  destruct (H5 (mkBundle ls c)) as [[a Ha] _]; [by left|]. simpl in Ha.
  unfold fetch_sub. rewrite Ha. destruct (H4 _ _ Ha) as (Hu & Hlim & Hm). simpl in Hu.
  rewrite Z.eqb_refl in Hu. specialize (Hnn (charge_budget c)).
  assert (wrapping_sub (used a) k = used a - k) as Hw'.
  { unfold wrapping_sub. apply Z.mod_small. unfold U64_MAX in Hm. lia. }
  split; simpl; try done.
  - intros b a'. destruct (decide (b = charge_budget c)) as [->|Hne].
    + rewrite lookup_insert_eq. intros [= <-]. simpl. rewrite Z.eqb_refl, Hw, Hw'. lia.
    + rewrite lookup_insert_ne by done. intros Hb'. destruct (H4 _ _ Hb') as [Hu' ?].
      split; [|done]. simpl in Hu'. replace (charge_budget c =? b) with false in * by lia. done.
  - intros b [->|Hin]%elem_of_cons; simpl.
    + rewrite lookup_insert_eq. split; [eauto|lia].
    + destruct (H5 b) as [Hs ?]; [by right|]. split; [|done].
      destruct (decide (charge_budget (charge b) = charge_budget c)) as [->|Hne];
        [rewrite lookup_insert_eq; eauto|by rewrite lookup_insert_ne].
Qed.

Lemma drop_charge_holds A h loose c bs :
  holds A h loose (mkBundle [] c :: bs) → holds A (drop_charge c h) loose bs.
Proof.
  intros Hh. pose proof (charged_to_bound _ _ _ _ _ Hh) as [Hb _]. simpl in Hb.
  unfold drop_charge.
  destruct (fetch_sub_holds A h loose [] c (charge_count c) bs Hh) as [[H1 H2 H3 H4 H5 H6] Hw];
    [lia|rewrite zlen_nil; lia|].
  split; try done.
  - intros b a Ha. specialize (H4 b a Ha). simpl in H4. rewrite Hw in H4.
    destruct (_ =? b); lia.
  - intros b Hb'. apply H5. by right.
Qed.

Lemma drop_bundle_holds A h loose b bs :
  holds A h loose (b :: bs) → holds A (drop_bundle b h) loose bs.
Proof.
  intros Hh. unfold drop_bundle. destruct b as [ls c]. simpl. apply drop_charge_holds.
  apply drop_leases_holds. destruct (hd_charge _ _ _ _ Hh (mkBundle ls c)) as [_ Hl]; [by left|].
  by apply (holds_move A h ls [] c).
Qed.
Lemma drop_bundles_holds A h loose ds bs :
  holds A h loose (ds ++ bs) → holds A (drop_bundles ds h) loose bs.
Proof.
  revert h. induction ds as [|d ds IH]; intros h Hh; simpl; [done|].
  apply IH. by apply drop_bundle_holds.
Qed.
Lemma drop_option_holds A h loose o bs :
  holds A h loose (option_list o ++ bs) → holds A (drop_option o h) loose bs.
Proof. destruct o; simpl; [apply drop_bundle_holds|done]. Qed.

Lemma reserve_holds A h budget count loose bs :
  holds A h loose bs → 0 ≤ count →
  match reserve budget count h with
  | (h', Ok c) => c = mkCharge budget count ∧ holds A h' loose (mkBundle [] c :: bs)
  | (h', Err e) => h' = h ∧ e = -105
  end.
Proof.
  intros [H1 H2 H3 H4 H5 H6] Hc. unfold reserve.
  destruct (accounts h !! budget) as [a|] eqn:Ea; [|done].
  unfold checked_add. destruct (used a + count <=? U64_MAX) eqn:Eu; simpl; [|done].
  destruct (used a + count <=? limit a) eqn:El; [|done]. split; [done|].
  destruct (H4 _ _ Ea) as (Hu & Hlim & Hm). split; simpl; try done.
  - intros b a'. destruct (decide (b = budget)) as [->|Hne].
    + rewrite lookup_insert_eq, Z.eqb_refl. intros [= <-]. simpl. lia.
    + rewrite lookup_insert_ne by done. intros Hb'. destruct (H4 _ _ Hb') as [Hu' ?].
      replace (budget =? b) with false by lia. done.
  - intros b [->|Hin]%elem_of_cons; simpl.
    + rewrite lookup_insert_eq. split; [eauto|rewrite zlen_nil; lia].
    + destruct (H5 b Hin) as [Hs ?]. split; [|done].
      destruct (decide (charge_budget (charge b) = budget)) as [->|Hne];
        [rewrite lookup_insert_eq; eauto|by rewrite lookup_insert_ne].
Qed.

(** *** Bundles *)

(** A bundle outside staging pays for each of its leases. *)
Definition whole (b : Bundle) : Prop := charge_count (charge b) = zlen (leases b).

Lemma zlen_take {A} n (l : list A) : 0 ≤ n → zlen (take (Z.to_nat n) l) = Z.min n (zlen l).
Proof. unfold zlen. rewrite length_take. lia. Qed.
Lemma zlen_drop {A} n (l : list A) : 0 ≤ n → zlen (drop (Z.to_nat n) l) = Z.max 0 (zlen l - n).
Proof. unfold zlen. rewrite length_drop. lia. Qed.

Lemma snapshot_holds A alloc b maximum h loose bs :
  holds A h loose bs → b ∈ bs → 0 ≤ maximum →
  match snapshot alloc b maximum h with
  | (h', Ok b') =>
      leases b' = take (Z.to_nat maximum) (leases b) ∧ whole b' ∧ holds A h' loose (b' :: bs)
  | (h', Err e) => holds A h' loose bs
  end.
Proof.
  intros Hh Hin Hm. unfold snapshot. set (count := Z.min maximum (bundle_len b)).
  assert (0 ≤ count) as Hc by (unfold count, bundle_len; pose proof (zlen_nonneg (leases b)); lia).
  pose proof (reserve_holds A h (charge_budget (charge b)) count loose bs Hh Hc) as Hr.
  destruct (reserve _ _ h) as [h1 [c|e]]; [|by destruct Hr as [-> _]].
  destruct Hr as [-> Hr]. destruct alloc; simpl; [|by apply drop_charge_holds].
  set (c := mkCharge (charge_budget (charge b)) count) in *.
  pose proof (retain_all_holds A h1 [] (take (Z.to_nat count) (leases b)) loose
    (mkBundle [] c :: bs)) as Ha.
  destruct (retain_all _ _ h1) as [h2 [ls|e]].
  - destruct Ha as [-> Ha]; [done| |].
    { intros p Hp. apply elem_of_app. right. simpl. apply list_elem_of_bind. exists b.
      split; [|done]. by eapply subseteq_take. }
    simpl. split_and!; [|unfold whole, c; simpl; rewrite zlen_take; unfold count, bundle_len in *; lia|].
    { unfold count, bundle_len, zlen. rewrite Z2Nat.inj_min, Nat2Z.id.
      destruct (decide (Z.to_nat maximum ≤ length (leases b))%nat); [by rewrite Nat.min_l|].
      rewrite Nat.min_r, !take_ge by lia. done. }
    apply (holds_move A h2 _ [] c); [|done].
    change (zlen (take (Z.to_nat count) (leases b)) ≤ count). rewrite zlen_take by lia. lia.
  - apply drop_charge_holds. apply Ha; [done|]. intros p Hp. apply elem_of_app. right. simpl.
    apply list_elem_of_bind. exists b. split; [|done]. by eapply subseteq_take.
Qed.

Lemma truncate_holds A maximum b h loose bs :
  holds A h loose (b :: bs) → whole b → 0 ≤ maximum →
  let '(b', h') := truncate maximum b h in
  leases b' = take (Z.to_nat maximum) (leases b) ∧ whole b' ∧ holds A h' loose (b' :: bs).
Proof.
  intros Hh Hw Hm. destruct b as [ls c]. unfold truncate, release_charge, bundle_len, whole in *.
  simpl in *. pose proof (zlen_nonneg ls).
  set (keep := Z.min maximum (zlen ls)). assert (0 ≤ keep ≤ zlen ls) as Hk by (unfold keep; lia).
  assert (take (Z.to_nat keep) ls = take (Z.to_nat maximum) ls) as Et.
  { unfold keep, zlen. rewrite Z2Nat.inj_min, Nat2Z.id.
    destruct (decide (Z.to_nat maximum ≤ length ls)%nat); [by rewrite Nat.min_l|].
    rewrite Nat.min_r, !take_ge by lia. done. }
  rewrite <- (take_drop (Z.to_nat keep) ls) in Hh.
  apply holds_move in Hh; [|rewrite take_drop; lia]. apply drop_leases_holds in Hh.
  destruct (fetch_sub_holds _ _ _ _ _ (zlen ls - keep) _ Hh) as [Hf Hs];
    [lia|rewrite zlen_take by lia; lia|].
  rewrite Et in *. split_and!; [done| |done]. rewrite Hs, <- Et, zlen_take by lia. lia.
Qed.

Lemma discard_delivered_prefix_holds A count b h loose bs :
  holds A h loose (b :: bs) → whole b → 0 ≤ count →
  match discard_delivered_prefix count b h with
  | (b', h', Ok _) =>
      count ≤ zlen (leases b) ∧ leases b' = drop (Z.to_nat count) (leases b) ∧ whole b' ∧
      holds A h' loose (b' :: bs)
  | (b', h', Err e) => b' = b ∧ h' = h ∧ e = -22 ∧ zlen (leases b) < count
  end.
Proof.
  intros Hh Hw Hc. unfold discard_delivered_prefix, bundle_len.
  destruct (count >? zlen (leases b)) eqn:E; [split_and!; try done; lia|].
  destruct b as [ls c]. unfold release_charge, whole in *. simpl in *. split; [lia|].
  pose proof (zlen_nonneg ls).
  rewrite <- (take_drop (Z.to_nat count) ls) in Hh.
  rewrite <- (app_nil_l (_ ++ _)) in Hh. apply holds_move in Hh; [|simpl; rewrite take_drop; lia].
  rewrite <- app_assoc in Hh. apply drop_leases_holds in Hh.
  apply holds_move in Hh; [|simpl; rewrite zlen_drop; lia]. simpl in Hh.
  destruct (fetch_sub_holds _ _ _ _ _ count _ Hh) as [Hf Hs]; [done|rewrite zlen_drop; lia|].
  split_and!; [done| |done]. rewrite Hs, zlen_drop by lia. lia.
Qed.

Section rights_lemmas.
Context {SP : SocketProtocol}.

Lemma adopt_holds A alloc handle rights metadata close h loose bs :
  holds A h loose bs →
  let A' := if handle =? 0 then A else (close, handle) :: A in
  match adopt alloc handle rights metadata close h with
  | (h', Ok p) => holds A' h' (p :: loose) bs
  | (h', Err e) => holds A' h' loose bs
  end.
Proof.
  intros Hh. simpl. set (d := mkLeaseData handle rights metadata close).
  assert (holds (if handle =? 0 then A else (close, handle) :: A) (drop_data d h) loose bs) as Hd.
  { unfold drop_data. simpl. destruct (handle =? 0); [done|].
    destruct Hh as [H1 H2 H3 H4 H5 H6]. split; simpl; try done.
    rewrite H6. unfold open_handles. simpl. solve_Permutation. }
  unfold adopt. fold d. destruct (_ || _) eqn:E1; [done|].
  destruct (_ || negb (bool_decide _)); [done|]. destruct alloc; simpl; [|done].
  apply orb_false_iff in E1 as [E1 _]. apply orb_false_iff in E1 as [E1 _]. rewrite E1.
  destruct Hh as [H1 H2 H3 H4 H5 H6].
  assert (cells h !! next_cell h = None) as Hn.
  { apply eq_None_not_Some. intros Hs%H2. lia. }
  split; simpl; try done.
  - intros q. unfold all_leases. simpl. rewrite zcount_cons.
    destruct (decide (q = next_cell h)) as [->|Hne].
    + rewrite lookup_insert_eq. simpl. specialize (H1 (next_cell h)). rewrite Hn in H1.
      unfold all_leases in H1. rewrite zcount_elem in H1.
      pose proof (zcount_nonneg (next_cell h) (loose ++ (bs ≫= leases))). unfold U64_MAX. lia.
    + rewrite lookup_insert_ne by done. specialize (H1 q).
      destruct (cells h !! q); [done|]. unfold all_leases in H1. rewrite elem_of_cons. tauto.
  - intros q Hl. destruct (decide (q = next_cell h)) as [->|Hne]; [lia|].
    rewrite lookup_insert_ne in Hl by done. apply H2 in Hl. lia.
  - intros q c Hl. destruct (decide (q = next_cell h)) as [->|Hne].
    + rewrite lookup_insert_eq in Hl. injection Hl as <-. simpl. lia.
    + rewrite lookup_insert_ne in Hl by done. by eapply H3.
  - unfold open_handles in *. simpl. rewrite fmap_insert, map_to_list_insert.
    2:{ by rewrite lookup_fmap, Hn. }
    simpl. rewrite H6. solve_Permutation.
Qed.

Lemma pending_new_holds A alloc count budget h loose bs :
  holds A h loose bs → 0 ≤ count →
  match pending_new alloc count budget h with
  | (h', Ok p) =>
      p = mkPending count (mkBundle [] (mkCharge budget count)) ∧ count ≤ MAX_TRANSFERRED_DESCRIPTORS ∧
      holds A h' loose (pending_bundle p :: bs)
  | (h', Err e) => holds A h' loose bs
  end.
Proof.
  intros Hh Hc. unfold pending_new. destruct (_ >? _) eqn:E; [done|].
  pose proof (reserve_holds A h budget count loose bs Hh Hc) as Hr.
  destruct (reserve _ _ h) as [h1 [c|e]]; [|by destruct Hr as [-> _]].
  destruct Hr as [-> Hr]. destruct alloc; [|by apply drop_charge_holds]. split_and!; try done. lia.
Qed.

(** The leases of a staging transaction never exceed what it reserved. *)
Definition staged (p : Pending) : Prop :=
  charge_count (charge (pending_bundle p)) = expected p ∧ received p ≤ expected p.

Lemma append_holds A offset new p h loose bs :
  holds A h (new ++ loose) (pending_bundle p :: bs) → staged p →
  match append offset new p h with
  | (p', h', Ok _) =>
      leases (pending_bundle p') = leases (pending_bundle p) ++ new ∧ expected p' = expected p ∧
      staged p' ∧ offset = received p ∧ h' = h ∧ holds A h' loose (pending_bundle p' :: bs)
  | (p', h', Err e) => p' = p ∧ e = -22 ∧ holds A h' loose (pending_bundle p :: bs)
  end.
Proof.
  intros Hh [Hs1 Hs2]. unfold append. destruct (_ || _) eqn:E.
  { split_and!; try done. by apply drop_leases_holds. }
  rewrite !orb_false_iff in E. destruct E as [[[E1 E2] E3] E4]. simpl.
  assert (zlen (leases (pending_bundle p) ++ new) ≤ expected p) as Hlen.
  { rewrite zlen_app. unfold received, bundle_len in *. lia. }
  split_and!; try done.
  - lia.
  - destruct p as [ex [ls c]]. simpl in *. apply holds_move; [lia|done].
Qed.

Lemma finish_whole p b : staged p → finish p = inl b → b = pending_bundle p ∧ whole b.
Proof.
  intros [Hs1 Hs2]. unfold finish, received, bundle_len. destruct (_ =? _) eqn:E; simpl; [|done].
  intros [= <-]. split; [done|]. unfold whole. lia.
Qed.
Lemma finish_complete p : is_complete p = true → finish p = inl (pending_bundle p).
Proof. unfold is_complete, finish. by intros ->. Qed.
End rights_lemmas.
