(* ===== verification/SocketStream.v ===== *)
(** * Byte streams with ancillary markers

    Models [posix/src/socket_stream.rs]: the receive queue of a byte-stream
    socket.  A marker holds the references sent with a span of bytes; a read
    that takes the first byte of a span takes its references and does not
    cross the span's end.  [items] is the queue as its readers see it: every
    byte, and on the first byte of a span the references and the span's
    length.  The operations are shown to append to and drop from that list. *)

From S2P Require Import Prelude SocketProtocol SocketRights.

(** [crate::socket::RECEIVE_CAPACITY]. *)
Definition RECEIVE_CAPACITY : Z := 64 * 1024.
Definition MAX_MARKERS : Z := 256.

Record Marker := mkMarker { start : Z; end_ : Z; marker_rights : Bundle }.
Record StreamQueue := mkQueue { bytes : list Z; markers : list Marker }.

Definition stream_new : StreamQueue := mkQueue [] [].
Definition stream_len (q : StreamQueue) : Z := zlen (bytes q).
Definition stream_is_empty (q : StreamQueue) : bool := zlen (bytes q) =? 0.
Definition can_attach_rights (q : StreamQueue) : bool := zlen (markers q) <? MAX_MARKERS.
Definition stream_leases (q : StreamQueue) : list Z :=
  markers q ≫= λ marker, leases (marker_rights marker).
Definition stream_bundles (q : StreamQueue) : list Bundle := marker_rights <$> markers q.

(** [StreamQueue::clear]. *)
Definition stream_clear (q : StreamQueue) (h : Heap) : StreamQueue * Heap :=
  (mkQueue [] [], drop_bundles (stream_bundles q) h).

(** [StreamQueue::write]. *)
Definition stream_write (alloc : bool) (input : list Z) (q : StreamQueue) : StreamQueue * result Z Z :=
  if zlen input >? saturating_sub RECEIVE_CAPACITY (stream_len q) then (q, Err (-11))
  else if negb alloc then (q, Err (-12))
  else (mkQueue (bytes q ++ input) (markers q), Ok (zlen input)).

(** [StreamQueue::write_with_rights]: an error returns the bundle; a write
    without bytes or without references drops it. *)
Definition write_with_rights (alloc : bool) (input : list Z) (rights : Bundle) (q : StreamQueue) (h : Heap)
    : StreamQueue * Heap * result (Z * Bundle) Z :=
  if (zlen input =? 0) || bundle_is_empty rights then
    match stream_write alloc input q with
    | (q, Ok count) => (q, drop_bundle rights h, Ok count)
    | (q, Err e) => (q, h, Err (e, rights))
    end
  else if (zlen input >? saturating_sub RECEIVE_CAPACITY (stream_len q))
          || (zlen (markers q) =? MAX_MARKERS) then (q, h, Err (-11, rights))
  else if negb alloc then (q, h, Err (-12, rights))
  else
    let start := stream_len q in
    (mkQueue (bytes q ++ input) (markers q ++ [mkMarker start (start + zlen input) rights]), h,
     Ok (zlen input)).

(** [StreamQueue::read_length]. *)
Definition read_length (maximum : Z) (q : StreamQueue) : Z :=
  let count := Z.min maximum (stream_len q) in
  match markers q with
  | marker :: _ => if start marker <? count then Z.min count (end_ marker) else count
  | [] => count
  end.

(** [StreamQueue::read_rights]. *)
Definition read_rights (maximum : Z) (q : StreamQueue) : option Bundle :=
  marker_rights <$> option_keep (λ marker, start marker <? read_length maximum q) (head (markers q)).

(** [StreamQueue::peek]: the output buffer after it, and the count. *)
Definition stream_peek (offset : Z) (output : list Z) (q : StreamQueue) : list Z * Z :=
  let count := Z.min (zlen output) (saturating_sub (stream_len q) offset) in
  let count :=
    match list_find (λ marker, end_ marker > offset) (markers q) with
    | Some (_, marker) =>
        if start marker <? Z.min U64_MAX (offset + count) then Z.min count (end_ marker - offset)
        else count
    | None => count
    end in
  (blit 0 (slice (Z.to_nat offset) (Z.to_nat count) (bytes q)) output, count).

(** [marker.start -= count; marker.end -= count]. *)
Definition shift (count : Z) (m : Marker) : Marker :=
  mkMarker (start m - count) (end_ m - count) (marker_rights m).
(** [StreamQueue::read_owned]. *)
Definition read_owned (output : list Z) (q : StreamQueue) : StreamQueue * list Z * (Z * option Bundle) :=
  let count := read_length (zlen output) q in
  let output := blit 0 (take (Z.to_nat count) (bytes q)) output in
  let '(rights, rest) :=
    match markers q with
    | marker :: rest =>
        if start marker <? count then (Some (marker_rights marker), rest) else (None, markers q)
    | [] => (None, [])
    end in
  (mkQueue (drop (Z.to_nat count) (bytes q)) (shift count <$> rest), output, (count, rights)).

(** [StreamQueue::read] drops the references it takes. *)
Definition stream_read (output : list Z) (q : StreamQueue) (h : Heap)
    : StreamQueue * Heap * list Z * Z :=
  let '(q, output, (count, rights)) := read_owned output q in
  (q, drop_option rights h, output, count).

(** ** Well-formed queues *)

Fixpoint markers_ok (low high : Z) (ms : list Marker) : Prop :=
  match ms with
  | [] => True
  | m :: ms =>
      low ≤ start m < end_ m ∧ end_ m ≤ high ∧
      whole (marker_rights m) ∧ leases (marker_rights m) ≠ [] ∧ markers_ok (end_ m) high ms
  end.
Record stream_ok (q : StreamQueue) : Prop := {
  so_markers : markers_ok 0 (stream_len q) (markers q);
  so_count : zlen (markers q) ≤ MAX_MARKERS;
  so_bytes : stream_len q ≤ RECEIVE_CAPACITY;
}.

(** ** The queue as its readers see it *)

Definition tag (i : Z) (ms : list Marker) : option (Bundle * Z) :=
  (λ p, (marker_rights (snd p), end_ (snd p) - start (snd p))) <$> list_find (λ m, start m = i) ms.
Definition items (q : StreamQueue) : list (Z * option (Bundle * Z)) :=
  imap (λ i b, (b, tag (Z.of_nat i) (markers q))) (bytes q).
(** What a write adds. *)
Definition sent_items (input : list Z) (rights : option Bundle) : list (Z * option (Bundle * Z)) :=
  imap (λ i b, (b, match i, rights with O, Some r => Some (r, zlen input) | _, _ => None end)) input.

(** How far a read of at most [n] items goes: to the end of the first span
    it enters. *)
Fixpoint span (n : nat) (l : list (Z * option (Bundle * Z))) : nat :=
  match n, l with
  | O, _ | _, [] => O
  | S _, (_, Some (_, k)) :: _ => (n `min` Z.to_nat k)%nat
  | S n, (_, None) :: l => S (span n l)
  end.
(** The references that it takes. *)
Fixpoint taken (l : list (Z * option (Bundle * Z))) : option Bundle :=
  match l with
  | [] => None
  | (_, Some (r, _)) :: _ => Some r
  | (_, None) :: l => taken l
  end.

(** ** Lemmas *)

Definition items_from (k : Z) (ms : list Marker) (bs : list Z) : list (Z * option (Bundle * Z)) :=
  imap (λ i b, (b, tag (k + Z.of_nat i) ms)) bs.

#[local] Arguments items_from : simpl never.
#[local] Arguments tag : simpl never.

Lemma items_items_from q : items q = items_from 0 (markers q) (bytes q).
Proof. done. Qed.
Lemma items_from_cons k ms b bs : items_from k ms (b :: bs) = (b, tag k ms) :: items_from (k + 1) ms bs.
Proof.
  unfold items_from. rewrite imap_cons. f_equal; [by rewrite Z.add_0_r|].
  apply imap_ext. intros i x _. simpl. do 2 f_equal. lia.
Qed.
Lemma items_from_drop k ms bs n :
  drop n (items_from k ms bs) = items_from (k + Z.of_nat n) ms (drop n bs).
Proof.
  revert k bs. induction n as [|n IH]; intros k bs; [by rewrite !drop_0, Z.add_0_r|].
  destruct bs as [|b bs]; [done|]. rewrite items_from_cons. simpl. rewrite IH.
  by replace (k + 1 + Z.of_nat n) with (k + Z.pos (Pos.of_succ_nat n)) by lia.
Qed.
Lemma items_fst k ms bs : (items_from k ms bs).*1 = bs.
Proof.
  revert k. induction bs as [|b bs IH]; intros k; [done|]. rewrite items_from_cons.
  csimpl. by rewrite IH.
Qed.
Lemma items_from_app k ms bs cs :
  items_from k ms (bs ++ cs) = items_from k ms bs ++ items_from (k + zlen bs) ms cs.
Proof.
  revert k. induction bs as [|b bs IH]; intros k; [by rewrite zlen_nil, Z.add_0_r|].
  rewrite <- app_comm_cons, !items_from_cons, IH, zlen_cons, <- app_comm_cons.
  by replace (k + (1 + zlen bs)) with (k + 1 + zlen bs) by lia.
Qed.

Lemma tag_cons i m ms :
  tag i (m :: ms) =
  if decide (start m = i) then Some (marker_rights m, end_ m - start m) else tag i ms.
Proof.
  unfold tag. simpl. case_decide; [done|].
  destruct (list_find _ ms) as [[j x]|]; done.
Qed.
Lemma tag_below low high ms i : markers_ok low high ms → i < low → tag i ms = None.
Proof.
  revert low. induction ms as [|m ms IH]; intros low; [done|]. simpl.
  intros (? & ? & _ & _ & Hm) Hi. rewrite tag_cons, decide_False by lia. eapply IH; [done|lia].
Qed.
Lemma tag_above low high ms i : markers_ok low high ms → high ≤ i → tag i ms = None.
Proof.
  revert low. induction ms as [|m ms IH]; intros low; [done|]. simpl.
  intros (? & ? & _ & _ & Hm) Hi. rewrite tag_cons, decide_False by lia. by eapply IH.
Qed.
Lemma markers_ok_weaken low low' high high' ms :
  markers_ok low high ms → low' ≤ low → high ≤ high' → markers_ok low' high' ms.
Proof.
  revert low low'. induction ms as [|m ms IH]; intros low low'; [done|]. simpl.
  intros (? & ? & ? & ? & Hm) Hl Hh. split_and!; try done; try lia. by eapply IH.
Qed.
Lemma markers_ok_app low high ms m :
  markers_ok low high ms → low ≤ high → high ≤ start m < end_ m →
  whole (marker_rights m) → leases (marker_rights m) ≠ [] →
  markers_ok low (end_ m) (ms ++ [m]).
Proof.
  revert low. induction ms as [|x ms IH]; intros low; simpl.
  - intros _ ? ? ? ?. split_and!; try done; lia.
  - intros (? & ? & ? & ? & Hm) Hlh Hst Hw Hne. split_and!; try done; try lia. apply IH; try done; lia.
Qed.

(** The specification's span is what the code computes from the first marker. *)
Definition first_end (k count : Z) (ms : list Marker) : Z :=
  match ms with
  | m :: _ => if start m <? k + count then Z.min count (end_ m - k) else count
  | [] => count
  end.

Lemma tag_none_head k high m ms : markers_ok k high (m :: ms) → start m ≠ k → tag k (m :: ms) = None.
Proof.
  simpl. intros (? & ? & _ & _ & Hm) Hne. rewrite tag_cons, decide_False by done.
  eapply tag_below; [done|lia].
Qed.

Lemma span_items k ms bs n :
  markers_ok k (k + zlen bs) ms →
  Z.of_nat (span n (items_from k ms bs)) = first_end k (Z.min (Z.of_nat n) (zlen bs)) ms.
Proof.
  revert k n. induction bs as [|b bs IH]; intros k n Hok.
  { rewrite zlen_nil, Z.add_0_r in Hok. destruct n, ms as [|m ms]; try done; simpl in *;
      unfold zlen; simpl; try (replace (start m <? k + 0) with false by lia); lia. }
  rewrite items_from_cons. destruct n as [|n].
  { change (Z.of_nat 0) with 0. rewrite Z.min_l by apply zlen_nonneg.
    destruct ms as [|m ms]; [done|]. simpl in *.
    replace (start m <? k + 0) with false by lia. done. }
  rewrite zlen_cons in *. pose proof (zlen_nonneg bs). destruct ms as [|m ms].
  { change (tag k []) with (@None (Bundle * Z)). cbn [span].
    rewrite Nat2Z.inj_succ, IH by done. simpl. lia. }
  destruct (decide (start m = k)) as [E|E].
  - rewrite tag_cons, decide_True by done. destruct Hok as (? & ? & _). cbn [span]. unfold first_end.
    rewrite (proj2 (Z.ltb_lt _ _)) by lia. lia.
  - rewrite (tag_none_head k (k + (1 + zlen bs))) by done.
    assert (markers_ok (k + 1) (k + 1 + zlen bs) (m :: ms)) as Hok'.
    { simpl in *. destruct Hok as (? & ? & ? & ? & Hm). split_and!; try done; try lia.
      by replace (k + 1 + zlen bs) with (k + (1 + zlen bs)) by lia. }
    cbn [span]. rewrite Nat2Z.inj_succ, IH by done. unfold first_end.
    replace (k + 1 + Z.min (Z.of_nat n) (zlen bs))
      with (k + Z.min (Z.of_nat (S n)) (1 + zlen bs)) by lia.
    destruct (start m <? _); lia.
Qed.

Lemma taken_items k ms bs n :
  markers_ok k (k + zlen bs) ms →
  taken (take n (items_from k ms bs)) =
  match ms with
  | m :: _ => if start m <? k + Z.min (Z.of_nat n) (zlen bs) then Some (marker_rights m) else None
  | [] => None
  end.
Proof.
  revert k n. induction bs as [|b bs IH]; intros k n Hok.
  { change (items_from k ms []) with (@nil (Z * option (Bundle * Z))). rewrite take_nil.
    rewrite zlen_nil, Z.add_0_r in Hok. destruct ms as [|m ms]; [done|]. simpl in Hok. rewrite zlen_nil.
    rewrite (proj2 (Z.ltb_ge _ _)) by lia. done. }
  rewrite items_from_cons. destruct n as [|n].
  { simpl. destruct ms as [|m ms]; [done|]. simpl in Hok. pose proof (zlen_nonneg (b :: bs)).
    rewrite (proj2 (Z.ltb_ge _ _)) by lia. done. }
  rewrite zlen_cons in *. pose proof (zlen_nonneg bs). cbn [take taken]. destruct ms as [|m ms].
  { change (tag k []) with (@None (Bundle * Z)). by rewrite IH. }
  destruct (decide (start m = k)) as [E|E].
  - rewrite tag_cons, decide_True by done.
    rewrite (proj2 (Z.ltb_lt _ _)) by (destruct Hok as (? & ? & _); lia). done.
  - rewrite (tag_none_head k (k + (1 + zlen bs))) by done. rewrite IH.
    + replace (k + 1 + Z.min (Z.of_nat n) (zlen bs))
        with (k + Z.min (Z.of_nat (S n)) (1 + zlen bs)) by lia. done.
    + simpl in *. destruct Hok as (? & ? & ? & ? & Hm). split_and!; try done; try lia.
      by replace (k + 1 + zlen bs) with (k + (1 + zlen bs)) by lia.
Qed.

Lemma tag_shift i c (ms : list Marker) : tag i (shift c <$> ms) = tag (c + i) ms.
Proof.
  induction ms as [|m ms IH]; [done|]. csimpl. rewrite !tag_cons, IH. simpl.
  do 2 case_decide; try lia; [|done]. do 2 f_equal. lia.
Qed.
Lemma markers_ok_shift c low high ms :
  markers_ok low high ms → markers_ok (low - c) (high - c) (shift c <$> ms).
Proof.
  revert low. induction ms as [|m ms IH]; intros low; [done|]. simpl.
  intros (? & ? & ? & ? & Hm). split_and!; try done; try lia. by apply IH.
Qed.
Lemma bundles_shift c (ms : list Marker) : marker_rights <$> (shift c <$> ms) = marker_rights <$> ms.
Proof. by rewrite <- list_fmap_compose. Qed.

(** What a read leaves of the markers. *)
Definition unread (count : Z) (ms : list Marker) : list Marker :=
  match ms with m :: rest => if start m <? count then rest else ms | [] => [] end.
Lemma unread_ok count high ms :
  markers_ok 0 high ms → count ≤ first_end 0 count ms → count ≤ high →
  markers_ok count high (unread count ms).
Proof.
  destruct ms as [|m ms]; [done|]. simpl. intros (? & ? & ? & ? & Hm) Hc Hh.
  rewrite ?Z.add_0_l in Hc. destruct (start m <? count) eqn:E.
  - eapply markers_ok_weaken; [done| |lia]. lia.
  - simpl. split_and!; try done; lia.
Qed.
Lemma unread_tag count high ms i :
  markers_ok 0 high ms → 0 ≤ i → tag (count + i) (unread count ms) = tag (count + i) ms.
Proof.
  destruct ms as [|m ms]; [done|]. simpl. intros _ Hi. destruct (start m <? count) eqn:E; [|done].
  by rewrite tag_cons, decide_False by lia.
Qed.

Lemma read_length_span maximum q :
  stream_ok q → 0 ≤ maximum → read_length maximum q = Z.of_nat (span (Z.to_nat maximum) (items q)).
Proof.
  intros Hq Hm. rewrite items_items_from, span_items by apply Hq.
  unfold read_length, first_end, stream_len. rewrite Z2Nat.id by done.
  destruct (markers q) as [|m ms]; [done|]. by rewrite Z.add_0_l, Z.sub_0_r.
Qed.
Lemma read_length_bounds maximum q :
  stream_ok q → 0 ≤ maximum → 0 ≤ read_length maximum q ≤ Z.min maximum (stream_len q).
Proof.
  intros [Hq _ _] Hm. unfold read_length. pose proof (zlen_nonneg (bytes q)). unfold stream_len in *.
  destruct (markers q) as [|m ms]; [lia|]. simpl in Hq. case_ifs; lia.
Qed.
(** A read of a prefix that does not cross a span takes all of it. *)
Lemma read_length_fixed maximum q :
  stream_ok q → 0 ≤ maximum →
  first_end 0 (read_length maximum q) (markers q) = read_length maximum q.
Proof.
  intros [Hq _ _] Hm. unfold read_length, first_end. destruct (markers q) as [|m ms]; [done|].
  rewrite Z.add_0_l, Z.sub_0_r. simpl in Hq. case_ifs; lia.
Qed.
Lemma taken_read maximum q :
  stream_ok q → 0 ≤ maximum →
  taken (take (Z.to_nat (read_length maximum q)) (items q)) =
  match markers q with
  | m :: _ => if start m <? read_length maximum q then Some (marker_rights m) else None
  | [] => None
  end.
Proof.
  intros Hq Hm. pose proof (read_length_bounds maximum q Hq Hm) as Hb.
  rewrite items_items_from, taken_items by apply Hq.
  rewrite Z2Nat.id, Z.add_0_l, Z.min_l by (unfold stream_len in *; lia). done.
Qed.

(** A read takes a prefix of the items, up to the end of the first span it
    enters, and the references of that span. *)
Lemma read_owned_spec output q :
  stream_ok q →
  let '(q', output', (count, rights)) := read_owned output q in
  let c := span (length output) (items q) in
  count = Z.of_nat c ∧ output' = blit 0 (take c (items q)).*1 output ∧
  rights = taken (take c (items q)) ∧ items q' = drop c (items q) ∧ stream_ok q' ∧
  stream_bundles q = option_list rights ++ stream_bundles q' ∧ 0 ≤ count ≤ zlen output.
Proof.
  intros Hq. pose proof (read_length_span (zlen output) q Hq (zlen_nonneg _)) as Hs.
  unfold zlen in Hs at 2. rewrite Nat2Z.id in Hs.
  pose proof (read_length_bounds (zlen output) q Hq (zlen_nonneg _)) as Hb.
  pose proof (read_length_fixed (zlen output) q Hq (zlen_nonneg _)) as Hf.
  pose proof (taken_read (zlen output) q Hq (zlen_nonneg _)) as Ht.
  unfold read_owned. set (count := read_length (zlen output) q) in *.
  set (c := span (length output) (items q)) in *.
  rewrite Hs, Nat2Z.id in Ht |- *. rewrite <- Hs in *.
  assert (∀ r, stream_ok (mkQueue (drop c (bytes q)) (shift count <$> unread count (markers q))) ∧
    items (mkQueue (drop c (bytes q)) (shift count <$> unread count (markers q))) = drop c (items q)
    ∧ (r = taken (take c (items q)) →
       stream_bundles q = option_list r ++ (marker_rights <$> unread count (markers q)))) as Hrest.
  { intros r. destruct Hq as [Hm Hl Hr]. split_and!; [split|..]; unfold stream_len in *; simpl.
    - replace (zlen (drop c (bytes q))) with (zlen (bytes q) - count)
        by (unfold zlen in *; rewrite length_drop; lia).
      replace 0 with (count - count) by lia. apply markers_ok_shift, unread_ok; [done|lia|lia].
    - unfold zlen in *. rewrite length_fmap. destruct (markers q); simpl in *; [done|].
      case_ifs; simpl in *; lia.
    - unfold zlen in *. rewrite length_drop. lia.
    - rewrite !items_items_from, items_from_drop. simpl. unfold items_from. apply imap_ext.
      intros i x _. simpl. f_equal. rewrite tag_shift, (unread_tag _ _ _ _ Hm) by lia.
      f_equal. lia.
    - intros ->. rewrite Ht. unfold stream_bundles. destruct (markers q) as [|m ms]; [done|].
      simpl. by destruct (start m <? count). }
  assert (take c (bytes q) = (take c (items q)).*1) as Hfst.
  { rewrite fmap_take, items_items_from. by rewrite items_fst. }
  rewrite <- Hfst.
  destruct (markers q) as [|m ms] eqn:Em; simpl in *.
  - destruct (Hrest None) as (H1 & H2 & H3). split_and!; try done; try lia.
    rewrite H3 by done. by unfold stream_bundles.
  - destruct (start m <? count) eqn:E; simpl in *.
    + destruct (Hrest (Some (marker_rights m))) as (H1 & H2 & H3). split_and!; try done; try lia.
      rewrite H3 by done. unfold stream_bundles. cbn [markers]. by rewrite bundles_shift.
    + destruct (Hrest None) as (H1 & H2 & H3). split_and!; try done; try lia.
      rewrite H3 by done. symmetry. apply (bundles_shift count (m :: ms)).
Qed.

Lemma read_rights_taken maximum q :
  stream_ok q → 0 ≤ maximum →
  read_rights maximum q = taken (take (span (Z.to_nat maximum) (items q)) (items q)).
Proof.
  intros Hq Hm. pose proof (taken_read maximum q Hq Hm) as Ht.
  pose proof (read_length_span maximum q Hq Hm) as Hs. rewrite Hs, Nat2Z.id in Ht. rewrite Ht, <- Hs.
  unfold read_rights. destruct (markers q) as [|m ms]; [done|]. cbn [head option_keep].
  by destruct (start m <? read_length maximum q).
Qed.

(** The bundle a read would take is one of the queue's. *)
Lemma read_rights_in maximum q b : read_rights maximum q = Some b → b ∈ stream_bundles q.
Proof.
  unfold read_rights, stream_bundles. destruct (markers q) as [|m ms]; [done|]. simpl.
  destruct (_ <? _); [|done]. intros [= <-]. by left.
Qed.

Lemma items_extend ms k bs m high :
  markers_ok k high ms → high ≤ start m → k + zlen bs ≤ start m →
  items_from k (ms ++ [m]) bs = items_from k ms bs.
Proof.
  intros Hok Hh Hl. unfold items_from. apply imap_ext. intros i x Hi. simpl. f_equal.
  apply lookup_lt_Some in Hi. unfold zlen in Hl.
  assert (k + Z.of_nat i ≠ start m) as Hne by lia. clear -Hne. induction ms as [|y ms IH]; simpl.
  - by rewrite tag_cons, decide_False by done.
  - rewrite !tag_cons. case_decide; [done|]. apply IH.
Qed.
Lemma items_beyond low high ms k bs :
  markers_ok low high ms → high ≤ k → items_from k ms bs = sent_items bs None.
Proof.
  intros Hok Hk. unfold items_from, sent_items. apply imap_ext. intros i x Hi. f_equal.
  rewrite (tag_above _ _ _ _ Hok) by lia. by destruct i.
Qed.

(** A write appends its bytes, with the references on the first one. *)
Lemma stream_write_spec alloc input q :
  stream_ok q →
  match stream_write alloc input q with
  | (q', Ok count) =>
      alloc = true ∧ count = zlen input ∧ stream_len q + zlen input ≤ RECEIVE_CAPACITY ∧
      items q' = items q ++ sent_items input None ∧ stream_ok q' ∧
      stream_bundles q' = stream_bundles q
  | (q', Err e) =>
      q' = q ∧ (e = -11 ∧ RECEIVE_CAPACITY < stream_len q + zlen input ∨ e = -12 ∧ alloc = false)
  end.
Proof.
  intros [Hm Hl Hr]. unfold stream_write, saturating_sub. pose proof (zlen_nonneg input).
  destruct (_ >? _) eqn:E; [split; [done|left; lia]|].
  destruct alloc; simpl; [|by split; [|right]].
  assert (stream_len q + zlen input ≤ RECEIVE_CAPACITY) as Hc by lia.
  split_and!; try done.
  - rewrite !items_items_from. simpl. rewrite items_from_app. f_equal.
    apply (items_beyond 0 (stream_len q)); [done|]. unfold stream_len. lia.
  - split; simpl; try done; unfold stream_len in *; simpl; rewrite zlen_app; [|lia].
    eapply markers_ok_weaken; [done|lia|lia].
Qed.

Lemma sent_items_tagged input rights k ms high m :
  markers_ok 0 high ms → high ≤ k → m = mkMarker k (k + zlen input) rights →
  items_from k (ms ++ [m]) input = sent_items input (Some rights).
Proof.
  intros Hok Hk ->. unfold items_from, sent_items. apply imap_ext. intros i x Hi. f_equal.
  assert (∀ j, high ≤ j → tag j (ms ++ [mkMarker k (k + zlen input) rights]) =
    tag j [mkMarker k (k + zlen input) rights]) as Htag.
  { intros j Hj. clear Hi. revert Hok. generalize 0. induction ms as [|y ms IH]; intros low; [done|].
    simpl. intros (? & ? & _ & _ & Hm). rewrite tag_cons, decide_False by lia. by eapply IH. }
  rewrite Htag by lia. rewrite tag_cons. simpl. case_decide as Ei.
  - assert (i = 0%nat) as -> by lia. do 2 f_equal. lia.
  - destruct i; [lia|done].
Qed.

(** What a write with references does to the queue, and when. *)
Lemma write_with_rights_items alloc input rights q h :
  stream_ok q → whole rights →
  match write_with_rights alloc input rights q h with
  | (q', _, Ok count) =>
      alloc = true ∧ count = zlen input ∧ stream_ok q' ∧
      items q' = items q ++ sent_items input (if bundle_is_empty rights then None else Some rights)
  | (q', h', Err (e, rights')) => q' = q ∧ h' = h ∧ rights' = rights ∧
      (e = -12 ∧ alloc = false ∨
       e = -11 ∧ (RECEIVE_CAPACITY < stream_len q + zlen input ∨ bundle_is_empty rights = false ∧ MAX_MARKERS ≤ zlen (markers q)))
  end.
Proof.
  intros Hq Hw. unfold write_with_rights.
  destruct ((zlen input =? 0) || bundle_is_empty rights) eqn:E0.
  - pose proof (stream_write_spec alloc input q Hq) as Hs.
    destruct (stream_write alloc input q) as [q' [count|e]].
    + destruct Hs as (-> & -> & _ & Hi & Hok & Hb). split_and!; try done.
      rewrite Hi. f_equal. destruct (bundle_is_empty rights); [done|].
      destruct input as [|x input]; [done|].
      rewrite zlen_cons in E0. pose proof (zlen_nonneg input). simpl in E0. lia.
    + destruct Hs as [-> He]. split_and!; try done. naive_solver.
  - apply orb_false_iff in E0 as [E0 Ee]. rewrite Ee. pose proof (zlen_nonneg input). destruct Hq as [Hm Hl Hr].
    unfold saturating_sub. destruct (_ || _) eqn:E1.
    { split_and!; try done. right. split; [done|]. apply orb_true_iff in E1 as [E1|E1]; [left; lia|right; split; [done|lia]]. }
    destruct alloc; simpl; [|split_and!; try done; by left].
    apply orb_false_iff in E1 as [E1 E2]. unfold stream_len in *.
    split_and!; try done.
    + split; simpl; unfold stream_len; simpl; rewrite ?zlen_app; [| |lia].
      * apply (markers_ok_app 0 (zlen (bytes q)) (markers q)
          (mkMarker (zlen (bytes q)) (zlen (bytes q) + zlen input) rights)); simpl; try done; try lia.
        { pose proof (zlen_nonneg (bytes q)). lia. }
        unfold bundle_is_empty in Ee. intros Hn. rewrite Hn in Ee. done.
      * rewrite zlen_cons, zlen_nil. unfold MAX_MARKERS in *. lia.
    + rewrite !items_items_from. simpl. rewrite items_from_app. f_equal.
      * eapply items_extend; [done|done|]. simpl. lia.
      * eapply sent_items_tagged; [done|done|]. done.
Qed.

Lemma write_with_rights_spec A alloc input rights q h loose bs :
  stream_ok q → whole rights → holds A h loose (rights :: stream_bundles q ++ bs) →
  match write_with_rights alloc input rights q h with
  | (q', h', Ok count) =>
      count = zlen input ∧ stream_ok q' ∧ holds A h' loose (stream_bundles q' ++ bs) ∧
      items q' = items q ++ sent_items input (if bundle_is_empty rights then None else Some rights)
  | (q', h', Err (e, rights')) => q' = q ∧ h' = h ∧ rights' = rights ∧ (e = -11 ∨ e = -12)
  end.
Proof.
  intros Hq Hw Hh. pose proof (write_with_rights_items alloc input rights q h Hq Hw) as Hi.
  destruct (write_with_rights _ _ _ _ _) as [[q' h'] [count|[e rights']]] eqn:E; [|naive_solver].
  destruct Hi as (_ & Hc & Hok & Hit). split_and!; try done. clear Hc Hok Hit. revert E. unfold write_with_rights.
  destruct ((zlen input =? 0) || bundle_is_empty rights).
  - pose proof (stream_write_spec alloc input q Hq) as Hs. destruct (stream_write alloc input q) as [q1 [n|e]]; [|done].
    destruct Hs as (_ & _ & _ & _ & _ & Hb). intros [= <- <- _]. rewrite Hb. by apply drop_bundle_holds.
  - destruct (_ || _); [done|]. destruct (negb alloc); [done|]. intros [= <- <- _].
    assert (stream_bundles (mkQueue (bytes q ++ input)
      (markers q ++ [mkMarker (stream_len q) (stream_len q + zlen input) rights])) ++ bs ≡ₚ
      rights :: stream_bundles q ++ bs) as ->; [|done].
    unfold stream_bundles. cbn [markers]. rewrite fmap_app. csimpl. solve_Permutation.
Qed.

(** At the head of the queue a peek sees what a read would take. *)
Lemma stream_peek_head output q :
  stream_ok q →
  stream_peek 0 output q =
  (blit 0 (take (Z.to_nat (read_length (zlen output) q)) (bytes q)) output, read_length (zlen output) q).
Proof.
  intros [Hm _ Hr]. unfold stream_peek, read_length. pose proof (zlen_nonneg (bytes q)).
  assert (saturating_sub (stream_len q) 0 = stream_len q) as -> by (unfold saturating_sub, stream_len; lia).
  assert (stream_len q ≤ U64_MAX) by (unfold RECEIVE_CAPACITY, U64_MAX in *; lia).
  pose proof (zlen_nonneg output). unfold slice. rewrite drop_0.
  destruct (markers q) as [|m ms]; [done|]. simpl in Hm.
  cbn [list_find]. rewrite decide_True by lia.
  rewrite Z.add_0_l, Z.sub_0_r, Z.min_r by lia. done.
Qed.

Lemma stream_clear_spec A q h loose bs :
  holds A h loose (stream_bundles q ++ bs) →
  holds A (snd (stream_clear q h)) loose bs ∧ stream_ok (fst (stream_clear q h)) ∧
  items (fst (stream_clear q h)) = [].
Proof.
  intros Hh. simpl. split_and!; [by apply drop_bundles_holds| |done].
  split; by vm_compute.
Qed.
Lemma stream_new_ok : stream_ok stream_new.
Proof. split; by vm_compute. Qed.

Lemma stream_leases_bundles q : stream_leases q = stream_bundles q ≫= leases.
Proof.
  unfold stream_leases, stream_bundles. induction (markers q) as [|m ms IH]; [done|].
  csimpl. by rewrite IH.
Qed.

(** The bundles in a well-formed queue pay for their leases. *)
Lemma stream_whole q b : stream_ok q → b ∈ stream_bundles q → whole b.
Proof.
  intros [Hm _ _] Hb. revert Hm. generalize 0, (stream_len q). unfold stream_bundles in Hb.
  induction (markers q) as [|m ms IH]; intros low high; [by apply elem_of_nil in Hb|]. simpl.
  apply elem_of_cons in Hb as [->|Hb]; [tauto|]. intros (_ & _ & _ & _ & Hm). by eapply IH.
Qed.
