(* ===== verification/SocketRecord.v ===== *)
(** * Queues of datagrams and sequenced packets

    Models [posix/src/socket_record.rs] and the transfer over a shared buffer
    of [posix/src/socket_record_io.rs]: bounded queues of whole records, each
    with its sender's address, its sender's identity and the references sent
    with it.  Storage is charged per record; a transfer through a delegated
    buffer commits exactly one record or changes nothing. *)

From S2P Require Import Prelude SocketProtocol SocketRights SocketStream.

Definition MIN_RECEIVE_CAPACITY : Z := 256.
Definition MAX_QUEUED_RECORDS : Z := 256.
Definition I32_MAX : Z := 2 ^ 31 - 1.

(** [usize::clamp]. *)
Definition clamp (x low high : Z) : Z := Z.min (Z.max x low) high.

(** [SourceAddress]: the bytes and the length together are the encoded
    address. *)
Record SourceAddress := mkSource { encoded : list Z }.

Record Packet := mkPacket {
  source : SourceAddress; sender : option Z; payload : list Z; rights : option Bundle }.

Definition packet_charge (r : Packet) : Z := Z.max (zlen (payload r)) 1.

Record ReceivedRecord := mkReceived {
  end_of_record : bool; copied : Z; length_of : Z; received_source : SourceAddress }.

(** [ReceivedRecord::truncated]. *)
Definition truncated (r : ReceivedRecord) : bool := copied r <? length_of r.

Record RecordQueue := mkRecords { records : list Packet; charged : Z; capacity : Z }.

Definition records_new : RecordQueue := mkRecords [] 0 RECEIVE_CAPACITY.
Definition is_readable (q : RecordQueue) : bool := negb (zlen (records q) =? 0).

(** [RecordQueue::set_capacity]. *)
Definition set_capacity (requested : Z) (q : RecordQueue) : RecordQueue * result Z unit :=
  if requested >? I32_MAX then (q, Err (-22))
  else
    (mkRecords (records q) (charged q) (clamp requested MIN_RECEIVE_CAPACITY RECEIVE_CAPACITY), Ok tt).

(** [front_rights] and [ancillary_leases]. *)
Definition front_rights (q : RecordQueue) : option Bundle := head (records q) ≫= rights.
Definition record_bundles (q : RecordQueue) : list Bundle := omap rights (records q).
Definition record_leases (q : RecordQueue) : list Z := record_bundles q ≫= leases.

(** Dropping packets drops their references. *)
Fixpoint drop_packets (rs : list Packet) (h : Heap) : Heap :=
  match rs with [] => h | r :: rs => drop_packets rs (drop_option (rights r) h) end.

(** [RecordQueue::clear]. *)
Definition records_clear (q : RecordQueue) (h : Heap) : RecordQueue * Heap :=
  (mkRecords [] 0 (capacity q), drop_packets (records q) h).

(** [RecordQueue::commit_record]. *)
Definition commit_record (src : SourceAddress) (data : list Z) (from : option Z) (bundle : option Bundle)
    (q : RecordQueue) : RecordQueue * Z :=
  (mkRecords (records q ++ [mkPacket src from data bundle]) (charged q + Z.max (zlen data) 1) (capacity q),
   zlen data).

(** [RecordQueue::retain_sender]: the discarded records are dropped in order
    and their charge is given back. *)
Fixpoint retain_loop (from : Z) (rs : list Packet) (charge : Z) (h : Heap) : list Packet * Z * Heap :=
  match rs with
  | [] => ([], charge, h)
  | r :: rs =>
      if bool_decide (sender r = Some from) then
        let '(rs, charge, h) := retain_loop from rs charge h in (r :: rs, charge, h)
      else retain_loop from rs (charge - packet_charge r) (drop_option (rights r) h)
  end.
Definition retain_sender (from : Z) (q : RecordQueue) (h : Heap) : RecordQueue * Heap :=
  let '(rs, charge, h) := retain_loop from (records q) (charged q) h in
  (mkRecords rs charge (capacity q), h).

(** [RecordQueue::receive]: the output buffer after it and the outcome. *)
Definition receive (output : list Z) (peek : bool) (q : RecordQueue) (h : Heap)
    : RecordQueue * Heap * list Z * result Z ReceivedRecord :=
  match records q with
  | [] => (q, h, output, Err (-11))
  | r :: rest =>
      let count := Z.min (zlen output) (zlen (payload r)) in
      let output := blit 0 (take (Z.to_nat count) (payload r)) output in
      let received := mkReceived true count (zlen (payload r)) (source r) in
      if peek then (q, h, output, Ok received)
      else (mkRecords rest (charged q - packet_charge r) (capacity q), drop_option (rights r) h, output,
            Ok received)
  end.

(** [RecordQueue::receive_owned]. *)
Definition receive_owned (output : list Z) (q : RecordQueue)
    : RecordQueue * list Z * result Z (ReceivedRecord * option Bundle) :=
  match records q with
  | [] => (q, output, Err (-11))
  | r :: rest =>
      let count := Z.min (zlen output) (zlen (payload r)) in
      let output := blit 0 (take (Z.to_nat count) (payload r)) output in
      (mkRecords rest (charged q - packet_charge r) (capacity q), output,
       Ok (mkReceived true count (zlen (payload r)) (source r), rights r))
  end.

(** [RecordBuffer]: positioned access to delegated memory. *)
Class RecordBuffer (B : Type) := {
  extent : B → result Z Z;
  (** [read(offset, output)]: the bytes read, as many as asked for. *)
  buffer_read : Z → Z → B → B * result Z (list Z);
  buffer_write : Z → list Z → B → B * result Z unit;
}.

Section record.
Context {SP : SocketProtocol}.

(** [SourceAddress::new]. *)
Definition source_new (a : Address) : result Z SourceAddress :=
  match a with
  | UnixUnnamed | UnixPath _ | UnixAbstract _ => mkSource <$> ok_or (-22) (address_encode a)
  | _ => Err (-97)
  end.

(** [RecordQueue::can_push]. *)
Definition can_push (length send_capacity : Z) (q : RecordQueue) : result Z bool :=
  let charge := Z.max length 1 in
  if (length >? MAX_RECORD_SIZE) || (charge >? Z.min (capacity q) send_capacity) then Err (-90)
  else Ok ((zlen (records q) <? MAX_QUEUED_RECORDS)
           && (charge <=? saturating_sub (capacity q) (charged q))).

(** [RecordQueue::prepare_record]: the copied payload. *)
Definition prepare_record (alloc : bool) (data : list Z) (send_capacity : Z) (q : RecordQueue)
    : result Z (list Z) :=
  room ← can_push (zlen data) send_capacity q;
  _ ← ensure room (-11);
  _ ← ensure alloc (-12);
  Ok data.

(** [RecordQueue::push_from]; [push] is the case without a sender. *)
Definition push_from (alloc : bool) (src : SourceAddress) (data : list Z) (send_capacity : Z)
    (from : option Z) (q : RecordQueue) : RecordQueue * result Z Z :=
  match prepare_record alloc data send_capacity q with
  | Err e => (q, Err e)
  | Ok data => let '(q, n) := commit_record src data from None q in (q, Ok n)
  end.

(** [RecordQueue::push_with_rights]. *)
Definition push_with_rights (alloc : bool) (src : SourceAddress) (data : list Z) (send_capacity : Z)
    (from : option Z) (bundle : Bundle) (q : RecordQueue) : RecordQueue * result (Z * Bundle) Z :=
  match prepare_record alloc data send_capacity q with
  | Err e => (q, Err (e, bundle))
  | Ok data => let '(q, n) := commit_record src data from (Some bundle) q in (q, Ok n)
  end.

Context {B : Type} {RB : RecordBuffer B}.

(** [transfer_from]: [responses] is the caller's response buffer.  [alloc]
    are the outcomes of the allocation of the data and of the record. *)
Definition transfer_from (alloc : bool * bool) (request : Request) (src : SourceAddress)
    (send_capacity : Z) (response : list Z) (from : option Z)
    (q : RecordQueue) (h : Heap) (b : B)
    : RecordQueue * Heap * B * list Z * result Z Z :=
  let fail e := (q, h, b, response, Err e) in
  if negb (request_valid request) then fail (-22)
  else if zlen response <? MAX_REPLY_LEN then fail (-22)
  else match checked_add U64_MAX (request_offset request) (request_length request) with
  | None => fail (-22)
  | Some end_ =>
  match extent b with
  | Err e => fail e
  | Ok size =>
  if end_ >? size then fail (-22)
  else
  let length := request_length request in
  let sends := match operation request with Send | SendRoute => true | _ => false end in
  match (if sends then can_push length send_capacity q else Ok true) with
  | Err e => fail e
  | Ok false => fail (-11)
  | Ok true =>
  if negb alloc.1 then fail (-12)
  else match operation request with
  | WaitSend => fail (-22)
  | SendTo => fail (-97)
  | Send | SendRoute =>
      match buffer_read (request_offset request) length b with
      | (b, Err e) => (q, h, b, response, Err e)
      | (b, Ok data) =>
          match reply_encode (mkReply length length None) request response with
          | (response, None) => (q, h, b, response, Err (-5))
          | (response, Some count) =>
              match push_from alloc.2 src data send_capacity from q with
              | (q, Err e) => (q, h, b, response, Err e)
              | (q, Ok _) => (q, h, b, response, Ok count)
              end
          end
      end
  | Receive =>
      match receive (replicate (Z.to_nat length) 0) true q h with
      | (_, _, _, Err e) => fail e
      | (_, _, data, Ok record) =>
          match address_decode (encoded (received_source record)) with
          | None => fail (-5)
          | Some from =>
              match reply_encode (mkReply (copied record) (length_of record) (Some from)) request response with
              | (response, None) => (q, h, b, response, Err (-5))
              | (response, Some count) =>
                  match buffer_write (request_offset request) (take (Z.to_nat (copied record)) data) b with
                  | (b, Err e) => (q, h, b, response, Err e)
                  | (b, Ok _) =>
                      if request_peek request then (q, h, b, response, Ok count)
                      else match receive [] false q h with
                      | (q, h, _, Err e) => (q, h, b, response, Err e)
                      | (q, h, _, Ok _) => (q, h, b, response, Ok count)
                      end
                  end
              end
          end
      end
  end
  end
  end
  end.
End record.

(** ** Well-formed queues *)

Fixpoint total_charge (rs : list Packet) : Z :=
  match rs with [] => 0 | r :: rs => packet_charge r + total_charge rs end.

Record records_ok (q : RecordQueue) : Prop := {
  ro_charged : charged q = total_charge (records q);
  ro_count : zlen (records q) ≤ MAX_QUEUED_RECORDS;
  ro_bytes : charged q ≤ RECEIVE_CAPACITY;
  ro_capacity : MIN_RECEIVE_CAPACITY ≤ capacity q ≤ RECEIVE_CAPACITY;
  ro_whole r b : r ∈ records q → rights r = Some b → whole b;
}.

Lemma packet_charge_pos r : 1 ≤ packet_charge r.
Proof. unfold packet_charge. lia. Qed.
Lemma total_charge_app rs rs' : total_charge (rs ++ rs') = total_charge rs + total_charge rs'.
Proof. induction rs as [|r rs IH]; simpl; lia. Qed.
Lemma total_charge_nonneg rs : 0 ≤ total_charge rs.
Proof. induction rs as [|r rs IH]; simpl; [done|]. pose proof (packet_charge_pos r). lia. Qed.

Lemma records_new_ok : records_ok records_new.
Proof.
  split; try (by vm_compute).
  intros r b ?%elem_of_nil. done.
Qed.

Lemma set_capacity_ok requested q :
  records_ok q →
  match set_capacity requested q with
  | (q', Ok _) => records_ok q' ∧ records q' = records q ∧ requested ≤ I32_MAX
  | (q', Err e) => q' = q ∧ e = -22 ∧ I32_MAX < requested
  end.
Proof.
  intros [H1 H2 H3 H4 H5]. unfold set_capacity. destruct (_ >? _) eqn:E; [split_and!; try done; lia|].
  split_and!; [|done|lia]. split; try done. simpl. unfold clamp, MIN_RECEIVE_CAPACITY, RECEIVE_CAPACITY. lia.
Qed.

Lemma drop_packets_bundles rs h : drop_packets rs h = drop_bundles (omap rights rs) h.
Proof.
  revert h. induction rs as [|r rs IH]; intros h; [done|]. csimpl. rewrite IH.
  by destruct (rights r).
Qed.

Lemma records_clear_spec A q h loose bs :
  records_ok q → holds A h loose (record_bundles q ++ bs) →
  holds A (snd (records_clear q h)) loose bs ∧ records_ok (fst (records_clear q h)) ∧
  records (fst (records_clear q h)) = [].
Proof.
  intros [H1 H2 H3 H4 H5] Hh. simpl. rewrite drop_packets_bundles. split_and!; [by apply drop_bundles_holds| |done].
  split; simpl; try done. intros r b ?%elem_of_nil. done.
Qed.

Lemma omap_rights_cons r rs : omap rights (r :: rs) = option_list (rights r) ++ omap rights rs.
Proof. csimpl. by destruct (rights r). Qed.

Lemma retain_loop_spec A from rs charge h loose bs :
  holds A h loose (omap rights rs ++ bs) →
  let '(rs', charge', h') := retain_loop from rs charge h in
  rs' = filter (λ r, sender r = Some from) rs ∧
  charge' - total_charge rs' = charge - total_charge rs ∧
  holds A h' loose (omap rights rs' ++ bs).
Proof.
  revert charge h bs. induction rs as [|r rs IH]; intros charge h bs Hh; simpl.
  { split_and!; [done|lia|done]. }
  rewrite filter_cons. case_bool_decide as E.
  - rewrite decide_True by done. specialize (IH charge h (option_list (rights r) ++ bs)).
    destruct (retain_loop from rs charge h) as [[rs' charge'] h'].
    destruct IH as (-> & Hc & Hh').
    { by rewrite omap_rights_cons, <- app_assoc, Permutation_app_swap_app in Hh. }
    split_and!; [done|simpl; lia|].
    by rewrite omap_rights_cons, <- app_assoc, Permutation_app_swap_app.
  - rewrite decide_False by done.
    specialize (IH (charge - packet_charge r) (drop_option (rights r) h) bs).
    destruct (retain_loop from rs _ _) as [[rs' charge'] h'].
    destruct IH as (-> & Hc & Hh'); [|split_and!; try done; lia].
    rewrite omap_rights_cons, <- app_assoc in Hh. by apply drop_option_holds.
Qed.

Lemma total_charge_filter (P : Packet → Prop) `{!∀ r, Decision (P r)} rs :
  total_charge (filter P rs) ≤ total_charge rs.
Proof.
  induction rs as [|r rs IH]; [done|]. rewrite filter_cons. pose proof (packet_charge_pos r).
  case_decide; simpl; lia.
Qed.

(** Selecting a peer keeps exactly its records, in order. *)
Lemma retain_sender_spec A from q h loose bs :
  records_ok q → holds A h loose (record_bundles q ++ bs) →
  let '(q', h') := retain_sender from q h in
  records q' = filter (λ r, sender r = Some from) (records q) ∧ records_ok q' ∧
  capacity q' = capacity q ∧ holds A h' loose (record_bundles q' ++ bs).
Proof.
  intros [H1 H2 H3 H4 H5] Hh. unfold retain_sender, record_bundles in *.
  pose proof (retain_loop_spec A from (records q) (charged q) h loose bs Hh) as Hr.
  destruct (retain_loop _ _ _ _) as [[rs' charge'] h']. destruct Hr as (-> & Hc & Hh').
  split_and!; try done. split; simpl; try done.
  - lia.
  - unfold zlen in *. pose proof (length_filter (λ r, sender r = Some from) (records q)). lia.
  - pose proof (total_charge_filter (λ r, sender r = Some from) (records q)). lia.
  - intros r b [_ Hr]%list_elem_of_filter. by apply H5.
Qed.

Lemma receive_spec A output peek q h loose bs :
  records_ok q → holds A h loose (record_bundles q ++ bs) →
  match receive output peek q h with
  | (q', h', output', Ok got) =>
      ∃ r rest, records q = r :: rest ∧ (peek = true ∧ q' = q ∧ h' = h ∨ peek = false ∧ records q' = rest) ∧
        records_ok q' ∧ capacity q' = capacity q ∧ holds A h' loose (record_bundles q' ++ bs) ∧
        got = mkReceived true (Z.min (zlen output) (zlen (payload r))) (zlen (payload r)) (source r) ∧
        output' = blit 0 (take (Z.to_nat (copied got)) (payload r)) output
  | (q', h', output', Err e) => q' = q ∧ h' = h ∧ output' = output ∧ records q = [] ∧ e = -11
  end.
Proof.
  intros Hok Hh. unfold receive. destruct (records q) as [|r rest] eqn:E; [done|].
  destruct peek; exists r, rest; split_and!; try done; try (by left); try (by right).
  - destruct Hok as [H1 H2 H3 H4 H5]. pose proof (packet_charge_pos r). split; simpl; try done.
    + rewrite E in H1. simpl in H1. lia.
    + rewrite E, zlen_cons in H2. lia.
    + lia.
    + intros r' b Hr. apply H5. rewrite E. by right.
  - unfold record_bundles in *. rewrite E, omap_rights_cons, <- app_assoc in Hh.
    by apply drop_option_holds.
Qed.

Lemma receive_owned_spec A output q h loose bs :
  records_ok q → holds A h loose (record_bundles q ++ bs) →
  match receive_owned output q with
  | (q', output', Ok (got, bundle)) =>
      ∃ r rest, records q = r :: rest ∧ records q' = rest ∧ bundle = rights r ∧
        records_ok q' ∧ capacity q' = capacity q ∧
        holds A h loose (option_list bundle ++ record_bundles q' ++ bs) ∧
        (∀ b, bundle = Some b → whole b) ∧
        got = mkReceived true (Z.min (zlen output) (zlen (payload r))) (zlen (payload r)) (source r)
  | (q', output', Err e) => q' = q ∧ records q = [] ∧ e = -11
  end.
Proof.
  intros Hok Hh. unfold receive_owned. destruct (records q) as [|r rest] eqn:E; [done|].
  destruct Hok as [H1 H2 H3 H4 H5]. rewrite E in *. simpl in *. pose proof (packet_charge_pos r).
  rewrite zlen_cons in H2. exists r, rest. split_and!; try done.
  - split; simpl; try done; try lia. intros r' b Hr. apply H5. by right.
  - unfold record_bundles in *. by rewrite E, omap_rights_cons, <- app_assoc in Hh.
  - intros b. apply H5. by left.
Qed.

Lemma front_rights_in q b : front_rights q = Some b → b ∈ record_bundles q.
Proof.
  unfold front_rights, record_bundles. destruct (records q) as [|r rest]; [done|]. csimpl.
  intros ->. by left.
Qed.
Lemma record_whole q b : records_ok q → b ∈ record_bundles q → whole b.
Proof. intros Hq (r & Hr & Hb)%list_elem_of_omap. by eapply ro_whole. Qed.

Section record_lemmas.
Context {SP : SocketProtocol}.

(** Whether a record is accepted now, later, or never. *)
Definition has_room (length : Z) (q : RecordQueue) : bool :=
  (zlen (records q) <? MAX_QUEUED_RECORDS) && (Z.max length 1 <=? capacity q - charged q).
Definition too_big (length send_capacity : Z) (q : RecordQueue) : bool :=
  (MAX_RECORD_SIZE <? length) || (Z.min (capacity q) send_capacity <? Z.max length 1).

Lemma can_push_spec length send_capacity q :
  can_push length send_capacity q =
  if too_big length send_capacity q then Err (-90) else Ok (has_room length q).
Proof.
  unfold can_push, too_big, has_room, saturating_sub. rewrite !Z.gtb_ltb.
  destruct (_ || _); [done|]. do 2 f_equal. lia.
Qed.

Lemma commit_record_ok src data from bundle q :
  records_ok q → has_room (zlen data) q = true → (∀ b, bundle = Some b → whole b) →
  records_ok (fst (commit_record src data from bundle q)).
Proof.
  intros [H1 H2 H3 H4 H5] [R1 R2]%andb_true_iff Hw. split; simpl; try done.
  - rewrite total_charge_app. simpl. unfold packet_charge. simpl. lia.
  - rewrite zlen_app, zlen_cons, zlen_nil. unfold MAX_QUEUED_RECORDS in *. lia.
  - lia.
  - intros r b [Hr|Hr%list_elem_of_singleton]%elem_of_app; [by apply H5|]. subst r. apply Hw.
Qed.

(** A push appends the whole record, or changes nothing. *)
Lemma push_with_rights_spec A alloc src data send_capacity from bundle q h loose bs :
  records_ok q → whole bundle → holds A h loose (bundle :: record_bundles q ++ bs) →
  match push_with_rights alloc src data send_capacity from bundle q with
  | (q', Ok n) =>
      n = zlen data ∧ records q' = records q ++ [mkPacket src from data (Some bundle)] ∧
      records_ok q' ∧ capacity q' = capacity q ∧ holds A h loose (record_bundles q' ++ bs)
  | (q', Err (e, bundle')) =>
      q' = q ∧ bundle' = bundle ∧
      prepare_record alloc data send_capacity q = Err e
  end.
Proof.
  intros Hq Hw Hh. unfold push_with_rights. destruct (prepare_record _ _ _ _) as [d|e] eqn:E; [|done].
  unfold prepare_record in E. rewrite can_push_spec in E.
  destruct (too_big _ _ _); [done|]. simpl in E. inv_result.
  destruct (has_room (zlen d) q) eqn:Er; simpl in *; inv_result.
  split_and!; try done.
  - apply (commit_record_ok src d from (Some bundle)); try done. by intros b [= <-].
  - assert (record_bundles (fst (commit_record src d from (Some bundle) q)) ++ bs ≡ₚ
      bundle :: record_bundles q ++ bs) as ->; [|done].
    unfold record_bundles. simpl. rewrite omap_app. csimpl. solve_Permutation.
Qed.

Lemma push_from_spec alloc src data send_capacity from q :
  records_ok q →
  match push_from alloc src data send_capacity from q with
  | (q', Ok n) =>
      n = zlen data ∧ records q' = records q ++ [mkPacket src from data None] ∧
      records_ok q' ∧ capacity q' = capacity q ∧ record_bundles q' = record_bundles q
  | (q', Err e) => q' = q ∧ prepare_record alloc data send_capacity q = Err e
  end.
Proof.
  intros Hq. unfold push_from. destruct (prepare_record _ _ _ _) as [d|e] eqn:E; [|done].
  unfold prepare_record in E. rewrite can_push_spec in E.
  destruct (too_big _ _ _); [done|]. simpl in E. inv_result.
  destruct (has_room (zlen d) q) eqn:Er; simpl in *; inv_result.
  split_and!; try done; [by apply (commit_record_ok src d from None)|].
  unfold record_bundles. simpl. rewrite omap_app. csimpl. by rewrite app_nil_r.
Qed.
End record_lemmas.

Lemma take_blit_head {A} n (s d : list A) : n = length s → take n (blit 0 s d) = s.
Proof. intros ->. unfold blit. rewrite take_0. simpl. by rewrite take_app_length. Qed.

Section transfer_lemmas.
Context {SP : SocketProtocol} {B : Type} {RB : RecordBuffer B}.

(** What a successful transfer did to the queue and to the buffer. *)
Definition transferred (request : Request) (src : SourceAddress) (from : option Z)
    (q q' : RecordQueue) (h h' : Heap) (b b' : B) : Prop :=
  match operation request with
  | Send | SendRoute =>
      h' = h ∧ ∃ data, buffer_read (request_offset request) (request_length request) b = (b', Ok data) ∧
        records q' = records q ++ [mkPacket src from data None]
  | Receive =>
      ∃ r rest, records q = r :: rest ∧
        buffer_write (request_offset request)
          (take (Z.to_nat (Z.min (request_length request) (zlen (payload r)))) (payload r)) b = (b', Ok tt) ∧
        if request_peek request then q' = q ∧ h' = h
        else records q' = rest ∧ h' = drop_option (rights r) h
  | _ => False
  end.

Lemma receive_prefix length r rest charge cap h :
  0 ≤ length →
  receive (replicate (Z.to_nat length) 0) true (mkRecords (r :: rest) charge cap) h =
  (mkRecords (r :: rest) charge cap, h,
   blit 0 (take (Z.to_nat (Z.min length (zlen (payload r)))) (payload r)) (replicate (Z.to_nat length) 0),
   Ok (mkReceived true (Z.min length (zlen (payload r))) (zlen (payload r)) (source r))).
Proof.
  intros Hl. unfold receive. simpl. unfold zlen at 1 3. rewrite length_replicate, Z2Nat.id by done. done.
Qed.

Lemma transfer_from_spec A alloc request src send_capacity response from q h b loose bs :
  records_ok q → 0 ≤ request_length request → holds A h loose (record_bundles q ++ bs) →
  match transfer_from alloc request src send_capacity response from q h b with
  | (q', h', b', _, Ok _) =>
      transferred request src from q q' h h' b b' ∧ records_ok q' ∧ capacity q' = capacity q ∧
      holds A h' loose (record_bundles q' ++ bs)
  | (q', h', _, _, Err _) => q' = q ∧ h' = h
  end.
Proof.
  intros Hq Hlen Hh. unfold transfer_from, transferred.
  destruct (request_valid request); simpl; [|done]. destruct (_ <? _); [done|].
  destruct (checked_add _ _ _) as [end_|]; [|done]. destruct (extent b) as [size|]; [|done].
  destruct (end_ >? size); [done|].
  destruct (match operation request with Send | SendRoute => true | _ => false end) eqn:Es.
  - destruct (can_push _ _ q) as [[]|]; [|done..]. destruct alloc as [[] a2]; simpl; [|done].
    assert (∀ P : Prop, (operation request = Send ∨ operation request = SendRoute → P) → P) as Hop.
    { intros P HP. apply HP. destruct (operation request); try done; tauto. }
    destruct (operation request); try done.
    all: destruct (buffer_read _ _ b) as [b1 [data|e]] eqn:Eb; [|done].
    all: destruct (reply_encode _ _ _) as [resp [count|]]; [|done].
    all: pose proof (push_from_spec a2 src data send_capacity from q Hq) as Hp.
    all: destruct (push_from a2 src data send_capacity from q) as [q' [n|e]];
      [|by destruct Hp as [-> _]].
    all: destruct Hp as (-> & Hr & Hok & Hc & Hb); rewrite Hb; split_and!; eauto.
  - destruct alloc as [[] a2]; simpl; [|done]. destruct (operation request); try done.
    destruct q as [[|r rest] charge cap] eqn:Eq; [done|]. rewrite <- Eq.
    assert (records q = r :: rest) as Hr by by rewrite Eq.
    rewrite Eq, receive_prefix by done. cbv beta iota zeta.
    cbn [copied length_of received_source]. destruct (address_decode _); [|done].
    destruct (reply_encode _ _ _) as [resp [count|]]; [|done].
    rewrite take_blit_head by (rewrite length_take; unfold zlen; lia).
    destruct (buffer_write _ _ b) as [b1 [[]|e]] eqn:Eb; [|done]. rewrite <- Eq in *.
    destruct (request_peek request).
    + split_and!; try done. exists r, rest. by rewrite Hr.
    + pose proof (receive_spec A [] false q h loose bs Hq Hh) as Hs.
      destruct (receive [] false q h) as [[[q' h'] out] [got|e]] eqn:Er.
      * destruct Hs as (r' & rest' & Hr' & Hcase & Hok & Hc & Hh' & _).
        rewrite Hr in Hr'. injection Hr' as <- <-.
        destruct Hcase as [[? _]|[_ Hrest]]; [done|]. split_and!; try done.
        exists r, rest. split_and!; try done. unfold receive in Er. rewrite Hr in Er. by injection Er as _ <- _ _.
      * destruct Hs as (_ & _ & _ & Hn & _). congruence.
Qed.
End transfer_lemmas.
