(* ===== verification/Socket.v ===== *)
(** * UNIX socket descriptions

    Models [posix/src/socket.rs]: the table of socket descriptions with their
    queues, listeners and accept transactions.  [World] is the table together
    with the heap of references its queues own.  The outcome of a fallible
    allocation is a boolean argument; the native buffer that records are
    copied through is an instance of [RecordBuffer].  The cycle collection of
    the table is in [SocketCollect]. *)

From S2P Require Import Prelude SocketProtocol SocketRights SocketStream SocketRecord.

Definition SEND_CAPACITY : Z := 64 * 1024.
Definition MIN_SEND_CAPACITY : Z := 256.
(** [MAX_ENDPOINTS]. *)
Definition MAX_SOCKETS : Z := 1024.
Definition MAX_BACKLOG : Z := 128.
Definition MAX_DESCRIPTION_ID : Z := Z.shiftl 1 59 - 1.

Inductive Shutdown := ShutdownRead | ShutdownWrite | ShutdownBoth.

Record Readiness := mkReadiness {
  readable : bool; writable : bool; read_closed : bool; write_closed : bool; write_error : bool }.

Record Listener := mkListener { backlog : Z; pending : list Z }.

(** The bytes and the length together are the name. *)
Record SocketName := mkName { name_bytes : list Z }.

Record Endpoint := mkEndpoint {
  ep_id : Z;
  ep_kind : Kind;
  ep_peer : option Z;
  ep_credentials : Z * Z;
  ep_incoming : StreamQueue;
  ep_records : option RecordQueue;
  ep_receive_capacity : Z;
  ep_send_capacity : Z;
  ep_receive_timeout : Z;
  ep_send_timeout : Z;
  ep_error : Z;
  ep_read_shutdown : bool;
  ep_write_shutdown : bool;
  ep_options : Z;
  ep_listener : option Listener;
  ep_pending_listener : option Z;
  ep_accept_retry : option Z;
  ep_local_name : option SocketName;
  ep_peer_name : option SocketName;
}.

Definition set_id (v : Z) (e : Endpoint) : Endpoint := mkEndpoint v (ep_kind e) (ep_peer e)
  (ep_credentials e) (ep_incoming e) (ep_records e) (ep_receive_capacity e) (ep_send_capacity e)
  (ep_receive_timeout e) (ep_send_timeout e) (ep_error e) (ep_read_shutdown e) (ep_write_shutdown
  e) (ep_options e) (ep_listener e) (ep_pending_listener e) (ep_accept_retry e) (ep_local_name e)
  (ep_peer_name e).
Definition set_peer (v : option Z) (e : Endpoint) : Endpoint := mkEndpoint (ep_id e) (ep_kind e) v
  (ep_credentials e) (ep_incoming e) (ep_records e) (ep_receive_capacity e) (ep_send_capacity e)
  (ep_receive_timeout e) (ep_send_timeout e) (ep_error e) (ep_read_shutdown e) (ep_write_shutdown
  e) (ep_options e) (ep_listener e) (ep_pending_listener e) (ep_accept_retry e) (ep_local_name e)
  (ep_peer_name e).
Definition set_credentials (v : Z * Z) (e : Endpoint) : Endpoint := mkEndpoint (ep_id e) (ep_kind
  e) (ep_peer e) v (ep_incoming e) (ep_records e) (ep_receive_capacity e) (ep_send_capacity e)
  (ep_receive_timeout e) (ep_send_timeout e) (ep_error e) (ep_read_shutdown e) (ep_write_shutdown
  e) (ep_options e) (ep_listener e) (ep_pending_listener e) (ep_accept_retry e) (ep_local_name e)
  (ep_peer_name e).
Definition set_incoming (v : StreamQueue) (e : Endpoint) : Endpoint := mkEndpoint (ep_id e)
  (ep_kind e) (ep_peer e) (ep_credentials e) v (ep_records e) (ep_receive_capacity e)
  (ep_send_capacity e) (ep_receive_timeout e) (ep_send_timeout e) (ep_error e) (ep_read_shutdown
  e) (ep_write_shutdown e) (ep_options e) (ep_listener e) (ep_pending_listener e) (ep_accept_retry
  e) (ep_local_name e) (ep_peer_name e).
Definition set_records (v : option RecordQueue) (e : Endpoint) : Endpoint := mkEndpoint (ep_id e)
  (ep_kind e) (ep_peer e) (ep_credentials e) (ep_incoming e) v (ep_receive_capacity e)
  (ep_send_capacity e) (ep_receive_timeout e) (ep_send_timeout e) (ep_error e) (ep_read_shutdown
  e) (ep_write_shutdown e) (ep_options e) (ep_listener e) (ep_pending_listener e) (ep_accept_retry
  e) (ep_local_name e) (ep_peer_name e).
Definition set_receive_capacity (v : Z) (e : Endpoint) : Endpoint := mkEndpoint (ep_id e) (ep_kind
  e) (ep_peer e) (ep_credentials e) (ep_incoming e) (ep_records e) v (ep_send_capacity e)
  (ep_receive_timeout e) (ep_send_timeout e) (ep_error e) (ep_read_shutdown e) (ep_write_shutdown
  e) (ep_options e) (ep_listener e) (ep_pending_listener e) (ep_accept_retry e) (ep_local_name e)
  (ep_peer_name e).
Definition set_send_capacity (v : Z) (e : Endpoint) : Endpoint := mkEndpoint (ep_id e) (ep_kind e)
  (ep_peer e) (ep_credentials e) (ep_incoming e) (ep_records e) (ep_receive_capacity e) v
  (ep_receive_timeout e) (ep_send_timeout e) (ep_error e) (ep_read_shutdown e) (ep_write_shutdown
  e) (ep_options e) (ep_listener e) (ep_pending_listener e) (ep_accept_retry e) (ep_local_name e)
  (ep_peer_name e).
Definition set_receive_timeout (v : Z) (e : Endpoint) : Endpoint := mkEndpoint (ep_id e) (ep_kind
  e) (ep_peer e) (ep_credentials e) (ep_incoming e) (ep_records e) (ep_receive_capacity e)
  (ep_send_capacity e) v (ep_send_timeout e) (ep_error e) (ep_read_shutdown e) (ep_write_shutdown
  e) (ep_options e) (ep_listener e) (ep_pending_listener e) (ep_accept_retry e) (ep_local_name e)
  (ep_peer_name e).
Definition set_send_timeout (v : Z) (e : Endpoint) : Endpoint := mkEndpoint (ep_id e) (ep_kind e)
  (ep_peer e) (ep_credentials e) (ep_incoming e) (ep_records e) (ep_receive_capacity e)
  (ep_send_capacity e) (ep_receive_timeout e) v (ep_error e) (ep_read_shutdown e)
  (ep_write_shutdown e) (ep_options e) (ep_listener e) (ep_pending_listener e) (ep_accept_retry e)
  (ep_local_name e) (ep_peer_name e).
Definition set_error (v : Z) (e : Endpoint) : Endpoint := mkEndpoint (ep_id e) (ep_kind e)
  (ep_peer e) (ep_credentials e) (ep_incoming e) (ep_records e) (ep_receive_capacity e)
  (ep_send_capacity e) (ep_receive_timeout e) (ep_send_timeout e) v (ep_read_shutdown e)
  (ep_write_shutdown e) (ep_options e) (ep_listener e) (ep_pending_listener e) (ep_accept_retry e)
  (ep_local_name e) (ep_peer_name e).
Definition set_read_shutdown (v : bool) (e : Endpoint) : Endpoint := mkEndpoint (ep_id e) (ep_kind
  e) (ep_peer e) (ep_credentials e) (ep_incoming e) (ep_records e) (ep_receive_capacity e)
  (ep_send_capacity e) (ep_receive_timeout e) (ep_send_timeout e) (ep_error e) v
  (ep_write_shutdown e) (ep_options e) (ep_listener e) (ep_pending_listener e) (ep_accept_retry e)
  (ep_local_name e) (ep_peer_name e).
Definition set_write_shutdown (v : bool) (e : Endpoint) : Endpoint := mkEndpoint (ep_id e)
  (ep_kind e) (ep_peer e) (ep_credentials e) (ep_incoming e) (ep_records e) (ep_receive_capacity
  e) (ep_send_capacity e) (ep_receive_timeout e) (ep_send_timeout e) (ep_error e)
  (ep_read_shutdown e) v (ep_options e) (ep_listener e) (ep_pending_listener e) (ep_accept_retry
  e) (ep_local_name e) (ep_peer_name e).
Definition set_options (v : Z) (e : Endpoint) : Endpoint := mkEndpoint (ep_id e) (ep_kind e)
  (ep_peer e) (ep_credentials e) (ep_incoming e) (ep_records e) (ep_receive_capacity e)
  (ep_send_capacity e) (ep_receive_timeout e) (ep_send_timeout e) (ep_error e) (ep_read_shutdown
  e) (ep_write_shutdown e) v (ep_listener e) (ep_pending_listener e) (ep_accept_retry e)
  (ep_local_name e) (ep_peer_name e).
Definition set_listener (v : option Listener) (e : Endpoint) : Endpoint := mkEndpoint (ep_id e)
  (ep_kind e) (ep_peer e) (ep_credentials e) (ep_incoming e) (ep_records e) (ep_receive_capacity
  e) (ep_send_capacity e) (ep_receive_timeout e) (ep_send_timeout e) (ep_error e)
  (ep_read_shutdown e) (ep_write_shutdown e) (ep_options e) v (ep_pending_listener e)
  (ep_accept_retry e) (ep_local_name e) (ep_peer_name e).
Definition set_pending_listener (v : option Z) (e : Endpoint) : Endpoint := mkEndpoint (ep_id e)
  (ep_kind e) (ep_peer e) (ep_credentials e) (ep_incoming e) (ep_records e) (ep_receive_capacity
  e) (ep_send_capacity e) (ep_receive_timeout e) (ep_send_timeout e) (ep_error e)
  (ep_read_shutdown e) (ep_write_shutdown e) (ep_options e) (ep_listener e) v (ep_accept_retry e)
  (ep_local_name e) (ep_peer_name e).
Definition set_accept_retry (v : option Z) (e : Endpoint) : Endpoint := mkEndpoint (ep_id e)
  (ep_kind e) (ep_peer e) (ep_credentials e) (ep_incoming e) (ep_records e) (ep_receive_capacity
  e) (ep_send_capacity e) (ep_receive_timeout e) (ep_send_timeout e) (ep_error e)
  (ep_read_shutdown e) (ep_write_shutdown e) (ep_options e) (ep_listener e) (ep_pending_listener
  e) v (ep_local_name e) (ep_peer_name e).
Definition set_local_name (v : option SocketName) (e : Endpoint) : Endpoint := mkEndpoint (ep_id
  e) (ep_kind e) (ep_peer e) (ep_credentials e) (ep_incoming e) (ep_records e)
  (ep_receive_capacity e) (ep_send_capacity e) (ep_receive_timeout e) (ep_send_timeout e)
  (ep_error e) (ep_read_shutdown e) (ep_write_shutdown e) (ep_options e) (ep_listener e)
  (ep_pending_listener e) (ep_accept_retry e) v (ep_peer_name e).
Definition set_peer_name (v : option SocketName) (e : Endpoint) : Endpoint := mkEndpoint (ep_id e)
  (ep_kind e) (ep_peer e) (ep_credentials e) (ep_incoming e) (ep_records e) (ep_receive_capacity
  e) (ep_send_capacity e) (ep_receive_timeout e) (ep_send_timeout e) (ep_error e)
  (ep_read_shutdown e) (ep_write_shutdown e) (ep_options e) (ep_listener e) (ep_pending_listener
  e) (ep_accept_retry e) (ep_local_name e) v.

(** [FileStatus]: the fields that [Streams::status] sets. *)
Record FileStatus := mkFileStatus {
  device : Z; inode : Z; mode : Z; link_count : Z; status_uid : Z; status_gid : Z; block_size : Z }.

Record AcceptTicket := mkTicket { ticket_listener : Z; ticket_endpoint : Z; ticket_retry : Z }.

Record Streams := mkStreams { next : Z; entries : list Endpoint }.
Record World := mkWorld { heap : Heap; streams : Streams }.

(** [Streams::new]. *)
Definition streams_new : Streams := mkStreams 1 [].

(** [entries.iter().find(|entry| entry.id == id)]. *)
Fixpoint find_endpoint (id : Z) (es : list Endpoint) : option Endpoint :=
  match es with
  | [] => None
  | e :: es => if ep_id e =? id then Some e else find_endpoint id es
  end.
(** A change of the entry that [find] gives. *)
Fixpoint alter_endpoint (id : Z) (f : Endpoint → Endpoint) (es : list Endpoint) : list Endpoint :=
  match es with
  | [] => []
  | e :: es => if ep_id e =? id then f e :: es else e :: alter_endpoint id f es
  end.

Definition endpoint (st : Streams) (id : Z) : result Z Endpoint := ok_or (-9) (find_endpoint id (entries st)).
Definition update (id : Z) (f : Endpoint → Endpoint) (st : Streams) : Streams :=
  mkStreams (next st) (alter_endpoint id f (entries st)).
Definition update_world (id : Z) (f : Endpoint → Endpoint) (w : World) : World :=
  mkWorld (heap w) (update id f (streams w)).

(** A fresh, unconnected description. *)
Definition fresh_endpoint (id : Z) (kind : Kind) (peer : option Z) (credentials : Z * Z) (options : Z)
    : Endpoint :=
  mkEndpoint id kind peer credentials stream_new
    (if bool_decide (kind = Stream) then None else Some records_new)
    RECEIVE_CAPACITY SEND_CAPACITY 0 0 0 false false options None None None None None.

Section socket.
Context {SP : SocketProtocol}.

(** [SocketName::new] and [SocketName::address]. *)
Definition name_new (path : list Z) : result Z SocketName :=
  if (zlen path =? 0) || (zlen path >? MAX_UNIX_NAME_BYTES) || bool_decide (0 ∈ path) then Err (-22)
  else Ok (mkName path).
Definition name_address (o : option SocketName) : Address :=
  match o with Some n => UnixPath (name_bytes n) | None => UnixUnnamed end.

(** [Streams::validate_create]. *)
Definition validate_create (request : Create) : result Z unit :=
  _ ← ensure (Z.ldiff (create_options request) NONBLOCKING =? 0) (-22);
  _ ← ensure (bool_decide (domain request = Unix) &&
              match create_kind request with Stream | Datagram | SequencedPacket => true | _ => false end)
        (-95);
  ensure (protocol request =? 0) (-93).

(** [Streams::create]. *)
Definition create (alloc : bool) (request : Create) (credentials : Z * Z) : stM Streams Z Z := λ st,
  match validate_create request with
  | Err e => (st, Err e)
  | Ok _ =>
      if (zlen (entries st) =? MAX_SOCKETS) || (next st >? MAX_DESCRIPTION_ID) then (st, Err (-23))
      else if negb alloc then (st, Err (-12))
      else
        let id := next st in
        (mkStreams (id + 1)
           (entries st ++ [fresh_endpoint id (create_kind request) None credentials (create_options request)]),
         Ok id)
  end.

(** [Streams::create_pair]. *)
Definition create_pair (alloc : bool) (request : Create) (credentials : Z * Z) : stM Streams Z (Z * Z) := λ st,
  match validate_create request with
  | Err e => (st, Err e)
  | Ok _ =>
      if zlen (entries st) >? MAX_SOCKETS - 2 then (st, Err (-23))
      else match option_keep (λ id, id <=? MAX_DESCRIPTION_ID) (checked_add U64_MAX (next st) 1) with
      | None => (st, Err (-23))
      | Some second =>
          if negb alloc then (st, Err (-12))
          else
            let first := next st in
            let fresh id peer :=
              fresh_endpoint id (create_kind request) (Some peer) credentials (create_options request) in
            (mkStreams (second + 1) (entries st ++ [fresh first second; fresh second first]),
             Ok (first, second))
      end
  end.

(** ** Queries and options *)

(** [Streams::status]: the fields it sets; the others keep their defaults.
    49536 is octal 140600. *)
Definition status (st : Streams) (id : Z) : result Z FileStatus :=
  entry ← endpoint st id;
  Ok (mkFileStatus 0x534f (ep_id entry) 49536 0 (fst (ep_credentials entry))
        (snd (ep_credentials entry)) MAX_DATA_LEN).

Definition credentials (st : Streams) (id : Z) : result Z (Z * Z) := ep_credentials <$> endpoint st id.
Definition address (st : Streams) (id : Z) : result Z Address :=
  (λ e, name_address (ep_local_name e)) <$> endpoint st id.
Definition peer_address (st : Streams) (id : Z) : result Z Address :=
  entry ← endpoint st id;
  _ ← ok_or (-107) (ep_peer entry);
  Ok (name_address (ep_peer_name entry)).
Definition affected (st : Streams) (id : Z) : result Z (Z * Z) :=
  entry ← endpoint st id; Ok (id, default id (ep_peer entry)).
Definition options (st : Streams) (id : Z) : result Z Z := ep_options <$> endpoint st id.
Definition pending_error (st : Streams) (id : Z) : result Z Z := ep_error <$> endpoint st id.
Definition receive_capacity (st : Streams) (id : Z) : result Z Z := ep_receive_capacity <$> endpoint st id.
Definition send_capacity (st : Streams) (id : Z) : result Z Z := ep_send_capacity <$> endpoint st id.
Definition receive_timeout (st : Streams) (id : Z) : result Z Z := ep_receive_timeout <$> endpoint st id.
Definition send_timeout (st : Streams) (id : Z) : result Z Z := ep_send_timeout <$> endpoint st id.
Definition kind (st : Streams) (id : Z) : result Z Kind := ep_kind <$> endpoint st id.
Definition listening_backlog (st : Streams) (id : Z) : result Z (option Z) :=
  (λ e, backlog <$> ep_listener e) <$> endpoint st id.

(** [take_error]. *)
Definition take_error (id : Z) : stM Streams Z Z := λ st,
  match endpoint st id with
  | Err e => (st, Err e)
  | Ok entry => (update id (set_error 0) st, Ok (ep_error entry))
  end.

(** [set_receive_capacity]. *)
Definition set_receive_capacity_of (id requested : Z) : stM Streams Z unit := λ st,
  match endpoint st id with
  | Err e => (st, Err e)
  | Ok entry =>
      if requested >? I32_MAX then (st, Err (-22))
      else
        let entry' := set_receive_capacity (clamp requested MIN_RECEIVE_CAPACITY RECEIVE_CAPACITY) entry in
        match ep_records entry with
        | None => (update id (λ _, entry') st, Ok tt)
        | Some records =>
            match set_capacity requested records with
            | (records, r) => (update id (λ _, set_records (Some records) entry') st, r)
            end
        end
  end.

(** [set_options]. *)
Definition set_options_of (id options : Z) : stM Streams Z unit := λ st,
  match endpoint st id with
  | Err e => (st, Err e)
  | Ok _ =>
      if negb (Z.ldiff options NONBLOCKING =? 0) then (st, Err (-22))
      else (update id (set_options options) st, Ok tt)
  end.

(** [set_receive_timeout] and [set_send_timeout]. *)
Definition set_receive_timeout_of (id nanoseconds : Z) : stM Streams Z unit := λ st,
  match endpoint st id with
  | Err e => (st, Err e)
  | Ok _ =>
      if negb (nanoseconds mod 1000 =? 0) then (st, Err (-22))
      else (update id (set_receive_timeout nanoseconds) st, Ok tt)
  end.
Definition set_send_timeout_of (id nanoseconds : Z) : stM Streams Z unit := λ st,
  match endpoint st id with
  | Err e => (st, Err e)
  | Ok _ =>
      if negb (nanoseconds mod 1000 =? 0) then (st, Err (-22))
      else (update id (set_send_timeout nanoseconds) st, Ok tt)
  end.

(** [set_send_capacity]. *)
Definition set_send_capacity_of (id requested : Z) : stM Streams Z unit := λ st,
  match endpoint st id with
  | Err e => (st, Err e)
  | Ok _ =>
      if requested >? I32_MAX then (st, Err (-22))
      else (update id (set_send_capacity (clamp requested MIN_SEND_CAPACITY SEND_CAPACITY)) st, Ok tt)
  end.

(** ** Readiness *)

(** [Option::is_none_or] and [Option::is_some_and]. *)
Definition is_none_or {A} (f : A → bool) (o : option A) : bool :=
  match o with Some a => f a | None => true end.
Definition is_some_and {A} (f : A → bool) (o : option A) : bool :=
  match o with Some a => f a | None => false end.

(** [Streams::readiness]. *)
Definition readiness (st : Streams) (id : Z) : result Z Readiness :=
  entry ← endpoint st id;
  let accepting l := mkReadiness (negb (zlen (pending l) =? 0)) false false false false in
  let unconnected := mkReadiness true true true true false in
  let peer := ep_peer entry ≫= λ peer, find_endpoint peer (entries st) in
  match ep_records entry with
  | Some records =>
      let sequenced := bool_decide (ep_kind entry = SequencedPacket) in
      match (if sequenced then ep_listener entry else None) with
      | Some l => Ok (accepting l)
      | None =>
          if sequenced && bool_decide (ep_peer entry = None) then Ok unconnected
          else
            let write_error :=
              bool_decide (is_Some (ep_peer entry)) &&
              is_none_or (λ peer, ep_read_shutdown peer ||
                is_some_and (λ sender, negb (sender =? id)) (ep_peer peer)) peer in
            Ok (mkReadiness
              (is_readable records || ep_read_shutdown entry ||
               (sequenced && (is_none_or ep_write_shutdown peer || negb (ep_error entry =? 0))))
              (negb (ep_write_shutdown entry) && negb write_error &&
               is_none_or (λ peer, is_some_and (λ queue,
                 match can_push 0 (ep_send_capacity entry) queue with Ok b => b | Err _ => false end)
                 (ep_records peer)) peer)
              (ep_read_shutdown entry || (sequenced && is_none_or ep_write_shutdown peer))
              (ep_write_shutdown entry || write_error)
              write_error)
      end
  | None =>
      match ep_listener entry with
      | Some l => Ok (accepting l)
      | None =>
          if bool_decide (ep_peer entry = None) then Ok unconnected
          else
            let read_closed := ep_read_shutdown entry || is_none_or ep_write_shutdown peer in
            let write_error := is_none_or ep_read_shutdown peer in
            let write_closed := ep_write_shutdown entry || write_error in
            Ok (mkReadiness
              (negb (stream_is_empty (ep_incoming entry)) || read_closed)
              (negb write_closed &&
               is_some_and (λ peer, stream_len (ep_incoming peer) <?
                 Z.min (ep_receive_capacity peer) (ep_send_capacity entry)) peer)
              read_closed write_closed write_error)
      end
  end.

(** ** Byte streams *)

(** [Streams::write]. *)
Definition write (alloc : bool) (id : Z) (input : list Z) : stM Streams Z Z := λ st,
  match endpoint st id with
  | Err e => (st, Err e)
  | Ok entry =>
      if bool_decide (is_Some (ep_records entry)) then (st, Err (-95))
      else if ep_write_shutdown entry then (st, Err (-32))
      else match ep_peer entry with
      | None => (st, Err (-107))
      | Some peer =>
          match endpoint st peer with
          | Err _ => (st, Err (-32))
          | Ok receiver =>
              if ep_read_shutdown receiver then (st, Err (-32))
              else if zlen input =? 0 then (st, Ok 0)
              else
                let count := Z.min (zlen input)
                  (saturating_sub (Z.min (ep_receive_capacity receiver) (ep_send_capacity entry))
                     (stream_len (ep_incoming receiver))) in
                if count =? 0 then (st, Err (-11))
                else match stream_write alloc (take (Z.to_nat count) input) (ep_incoming receiver) with
                | (q, r) => (update peer (set_incoming q) st, r)
                end
          end
      end
  end.

(** [Streams::stream_send_length]. *)
Definition stream_send_length (st : Streams) (id length : Z) (with_rights : bool) : result Z Z :=
  source ← endpoint st id;
  _ ← ensure (negb (bool_decide (is_Some (ep_records source)))) (-95);
  _ ← ensure (negb (ep_write_shutdown source)) (-32);
  peer ← ok_or (-107) (ep_peer source);
  receiver ← map_err (λ _, -32) (endpoint st peer);
  _ ← ensure (negb (ep_read_shutdown receiver)) (-32);
  if length =? 0 then Ok 0
  else
    let count := Z.min length
      (saturating_sub (Z.min (ep_receive_capacity receiver) (ep_send_capacity source))
         (stream_len (ep_incoming receiver))) in
    if (count =? 0) || (with_rights && negb (can_attach_rights (ep_incoming receiver))) then Err (-11)
    else Ok count.

(** [Streams::commit_stream_with_rights]. *)
Definition commit_stream_with_rights (alloc : bool) (id : Z) (input : list Z) (rights : Bundle) (w : World)
    : World * result (Z * Bundle) (Z * (Z * Z)) :=
  match stream_send_length (streams w) id (zlen input) (negb (bundle_is_empty rights)) with
  | Err e => (w, Err (e, rights))
  | Ok count =>
      let peer :=
        if count =? 0 then id
        else match endpoint (streams w) id with
             | Ok e => default id (ep_peer e)
             | Err _ => id
             end in
      match endpoint (streams w) peer with
      | Err e => (w, Err (e, rights))
      | Ok receiver =>
          match write_with_rights alloc (take (Z.to_nat count) input) rights (ep_incoming receiver) (heap w) with
          | (q, h, r) =>
              (mkWorld h (update peer (set_incoming q) (streams w)),
               match r with Ok count => Ok (count, (id, peer)) | Err e => Err e end)
          end
      end
  end.

(** [Streams::stream_read_count]. *)
Definition stream_read_count (id length offset : Z) : stM Streams Z Z := λ st,
  match readiness st id with
  | Err e => (st, Err e)
  | Ok ready =>
      match endpoint st id with
      | Err e => (st, Err e)
      | Ok entry =>
          if bool_decide (is_Some (ep_records entry)) then (st, Err (-95))
          else if (length =? 0) || ep_read_shutdown entry then (st, Ok 0)
          else if bool_decide (ep_peer entry = None) then (st, Err (-107))
          else
            let count := Z.min length (saturating_sub (stream_len (ep_incoming entry)) offset) in
            if stream_is_empty (ep_incoming entry) && negb (ep_error entry =? 0) then
              (update id (set_error 0) st, Err (- ep_error entry))
            else if (count =? 0) && negb (read_closed ready) then (st, Err (-11))
            else (st, Ok count)
      end
  end.

(** [Streams::receive], with the output buffer after it. *)
Definition receive_stream (id : Z) (output : list Z) (peek_offset : option Z) (w : World)
    : World * list Z * result Z Z :=
  let offset := default 0 peek_offset in
  match stream_read_count id (zlen output) offset (streams w) with
  | (st, Err e) => (mkWorld (heap w) st, output, Err e)
  | (st, Ok count) =>
      match endpoint st id with
      | Err e => (mkWorld (heap w) st, output, Err e)
      | Ok entry =>
          let window := take (Z.to_nat count) output in
          let rest := drop (Z.to_nat count) output in
          match peek_offset with
          | Some offset =>
              let '(data, n) := stream_peek offset window (ep_incoming entry) in
              (mkWorld (heap w) st, data ++ rest, Ok n)
          | None =>
              let '(q, h, data, n) := stream_read window (ep_incoming entry) (heap w) in
              (mkWorld h (update id (set_incoming q) st), data ++ rest, Ok n)
          end
      end
  end.
(** [Streams::read] and [Streams::peek]. *)
Definition read (id : Z) (output : list Z) (w : World) := receive_stream id output None w.
Definition peek (id offset : Z) (output : list Z) (w : World) := receive_stream id output (Some offset) w.

(** [Streams::read_stream_with_rights]. *)
Definition read_stream_with_rights (id : Z) (output : list Z) (w : World)
    : World * list Z * result Z (Z * option Bundle) :=
  match stream_read_count id (zlen output) 0 (streams w) with
  | (st, Err e) => (mkWorld (heap w) st, output, Err e)
  | (st, Ok count) =>
      match endpoint st id with
      | Err e => (mkWorld (heap w) st, output, Err e)
      | Ok entry =>
          let '(q, data, r) := read_owned (take (Z.to_nat count) output) (ep_incoming entry) in
          (mkWorld (heap w) (update id (set_incoming q) st), data ++ drop (Z.to_nat count) output, Ok r)
      end
  end.

(** [Streams::receive_wait_ready]. *)
Definition receive_wait_ready (st : Streams) (id minimum : Z) : result Z bool :=
  if minimum =? 0 then Err (-22)
  else
    entry ← endpoint st id;
    match ep_records entry with
    | Some records =>
        let sequenced := bool_decide (ep_kind entry = SequencedPacket) in
        if sequenced && bool_decide (ep_peer entry = None) then Err (-107)
        else if is_readable records || ep_read_shutdown entry || negb (ep_error entry =? 0) then Ok true
        else if sequenced then read_closed <$> readiness st id else Ok false
    | None =>
        if bool_decide (ep_peer entry = None) then Err (-107)
        else if (minimum <=? stream_len (ep_incoming entry)) || negb (ep_error entry =? 0) then Ok true
        else read_closed <$> readiness st id
    end.

(** [Streams::shutdown]. *)
Definition shutdown (id : Z) (how : Shutdown) : stM World Z unit := λ w,
  match endpoint (streams w) id with
  | Err e => (w, Err e)
  | Ok entry =>
      match ep_peer entry with
      | None => (w, Err (-107))
      | Some _ =>
          let '(entry, h) :=
            match how with
            | ShutdownRead | ShutdownBoth =>
                let entry := set_read_shutdown true entry in
                let '(q, h) := stream_clear (ep_incoming entry) (heap w) in
                let entry := set_incoming q entry in
                match ep_records entry with
                | Some records =>
                    let '(records, h) := records_clear records h in (set_records (Some records) entry, h)
                | None => (entry, h)
                end
            | ShutdownWrite => (entry, heap w)
            end in
          let entry :=
            match how with
            | ShutdownWrite | ShutdownBoth => set_write_shutdown true entry
            | ShutdownRead => entry
            end in
          (mkWorld h (update id (λ _, entry) (streams w)), Ok tt)
      end
  end.

(** ** Listening and connecting *)

(** [Streams::listen]. *)
Definition listen (alloc : bool) (id requested : Z) : stM Streams Z unit := λ st,
  match endpoint st id with
  | Err e => (st, Err e)
  | Ok entry =>
      if bool_decide (ep_kind entry = Datagram) then (st, Err (-95))
      else if bool_decide (is_Some (ep_peer entry)) then (st, Err (-22))
      else if negb alloc then (st, Err (-12))
      else
        let limit := clamp requested 1 MAX_BACKLOG in
        let waiting := match ep_listener entry with Some l => pending l | None => [] end in
        (update id (set_listener (Some (mkListener limit waiting))) st, Ok tt)
  end.

(** [Streams::check_connect]. *)
Definition check_connect (st : Streams) (client : Z) : result Z unit :=
  source ← endpoint st client;
  _ ← ensure (negb (bool_decide (ep_kind source = Datagram))) (-95);
  _ ← ensure (bool_decide (ep_peer source = None)) (-106);
  ensure (bool_decide (ep_listener source = None)) (-22).

(** [Streams::connect_internal]. *)
Definition connect_internal (alloc : bool) (client listener : Z) (client_name listener_name : option SocketName)
    : stM Streams Z Z := λ st,
  let checked :=
    _ ← check_connect st client;
    _ ← ensure (negb (client =? listener)) (-22);
    target ← endpoint st listener;
    k ← kind st client;
    _ ← ensure (bool_decide (k = ep_kind target)) (-91);
    queue ← ok_or (-111) (ep_listener target);
    _ ← ensure (zlen (pending queue) <? backlog queue) (-11);
    _ ← ensure (negb ((zlen (entries st) =? MAX_SOCKETS) || (next st >? MAX_DESCRIPTION_ID))) (-23);
    _ ← ensure alloc (-12);
    Ok (target, queue) in
  match checked with
  | Err e => (st, Err e)
  | Ok (target, queue) =>
      let id := next st in
      let st := update listener (set_listener (Some (mkListener (backlog queue) (pending queue ++ [id])))) st in
      let accepted :=
        mkEndpoint id (ep_kind target) (Some client) (ep_credentials target) stream_new
          (if bool_decide (ep_kind target = SequencedPacket) then Some records_new else None)
          (ep_receive_capacity target) (ep_send_capacity target)
          (ep_receive_timeout target) (ep_send_timeout target)
          0 false false 0 None (Some listener) None listener_name client_name in
      let st := mkStreams (id + 1) (entries st ++ [accepted]) in
      (update client (λ e, set_peer_name listener_name (set_local_name client_name (set_peer (Some id) e))) st,
       Ok id)
  end.

(** [Streams::connect] and [Streams::connect_named]. *)
Definition connect (alloc : bool) (client listener : Z) : stM Streams Z Z :=
  connect_internal alloc client listener None None.
Definition optional_name (path : option (list Z)) : result Z (option SocketName) :=
  match path with Some p => Some <$> name_new p | None => Ok None end.
Definition connect_named (alloc : bool) (client listener : Z) (client_path : option (list Z))
    (listener_path : list Z) : stM Streams Z Z := λ st,
  match (n ← optional_name client_path; m ← name_new listener_path; Ok (n, m)) with
  | Err e => (st, Err e)
  | Ok (client_name, listener_name) =>
      connect_internal alloc client listener client_name (Some listener_name) st
  end.

(** [Streams::begin_accept]. *)
Definition begin_accept (listener : Z) : stM Streams Z AcceptTicket := λ st,
  let checked :=
    entry ← endpoint st listener;
    l ← ok_or (-22) (ep_listener entry);
    waiting ← ok_or (-11) (head (pending l));
    queued ← endpoint st waiting;
    _ ← ensure (bool_decide (ep_pending_listener queued = Some listener)) (-5);
    _ ← ensure (bool_decide (ep_accept_retry queued = None)) (-16);
    _ ← ensure (negb (next st >? MAX_DESCRIPTION_ID)) (-23);
    Ok waiting in
  match checked with
  | Err e => (st, Err e)
  | Ok waiting =>
      let retry := next st in
      let st := mkStreams (retry + 1) (entries st) in
      (update waiting (set_accept_retry (Some retry)) st, Ok (mkTicket listener waiting retry))
  end.

(** [Streams::validate_accept]. *)
Definition validate_accept (st : Streams) (t : AcceptTicket) : result Z unit :=
  queued ← endpoint st (ticket_endpoint t);
  entry ← endpoint st (ticket_listener t);
  queue ← ok_or (-22) (ep_listener entry);
  ensure (bool_decide (head (pending queue) = Some (ticket_endpoint t)) &&
          bool_decide (ep_pending_listener queued = Some (ticket_listener t)) &&
          bool_decide (ep_accept_retry queued = Some (ticket_retry t))) (-22).

Definition set_pending (f : list Z → list Z) (e : Endpoint) : Endpoint :=
  match ep_listener e with
  | Some l => set_listener (Some (mkListener (backlog l) (f (pending l)))) e
  | None => e
  end.

(** [Streams::commit_accept]. *)
Definition commit_accept (t : AcceptTicket) (credentials : Z * Z) (options : Z) : stM Streams Z Z := λ st,
  if negb (Z.ldiff options NONBLOCKING =? 0) then (st, Err (-22))
  else match validate_accept st t with
  | Err e => (st, Err e)
  | Ok _ =>
      let st := update (ticket_listener t) (set_pending (drop 1)) st in
      (update (ticket_endpoint t) (λ e,
         set_options options (set_credentials credentials (set_accept_retry None (set_pending_listener None e)))) st,
       Ok (ticket_endpoint t))
  end.

(** [Streams::abort_accept]. *)
Definition abort_accept (t : AcceptTicket) : stM Streams Z Z := λ st,
  match (_ ← validate_accept st t; endpoint st (ticket_endpoint t)) with
  | Err e => (st, Err e)
  | Ok queued =>
      let peer := ep_peer queued in
      let st := update (ticket_endpoint t) (λ e, set_accept_retry None (set_id (ticket_retry t) e)) st in
      let st := update (ticket_listener t) (set_pending (λ l, ticket_retry t :: drop 1 l)) st in
      let st :=
        match peer with
        | Some peer => update peer (set_peer (Some (ticket_retry t))) st
        | None => st
        end in
      (st, Ok (ticket_retry t))
  end.

(** ** Release *)

(** [Streams::notify_peer_release]. *)
Definition notify_peer_release (removed : Endpoint) (unaccepted : bool) (st : Streams) : Streams :=
  if unaccepted || negb (stream_is_empty (ep_incoming removed)) ||
     (bool_decide (ep_kind removed = SequencedPacket) && is_some_and is_readable (ep_records removed)) then
    match ep_peer removed with
    | None => st
    | Some id =>
        update id (λ peer,
          if bool_decide (ep_peer peer = Some (ep_id removed)) && (ep_error peer =? 0)
          then set_error 104 peer else peer) st
    end
  else st.

(** The references in the queues of a description; dropping the description
    drops them. *)
Definition endpoint_bundles (e : Endpoint) : list Bundle :=
  stream_bundles (ep_incoming e) ++ match ep_records e with Some q => record_bundles q | None => [] end.
Definition drop_endpoint (e : Endpoint) (h : Heap) : Heap := drop_bundles (endpoint_bundles e) h.

(** [entries.iter().position(..)] and [entries.swap_remove(index)]. *)
Definition remove_endpoint (id : Z) (st : Streams) : option (Endpoint * Streams) :=
  index ← iter_position (λ e, ep_id e =? id) (entries st);
  removed ← entries st !! index;
  Some (removed, mkStreams (next st) (swap_remove index (entries st))).

(** The loop over the connections nobody accepted. *)
Fixpoint release_pending (ids : list Z) (w : World) : World :=
  match ids with
  | [] => w
  | id :: ids =>
      match remove_endpoint id (streams w) with
      | None => release_pending ids w
      | Some (queued, st) =>
          release_pending ids (mkWorld (drop_endpoint queued (heap w)) (notify_peer_release queued true st))
      end
  end.

(** [Streams::release].  The removed description is dropped at the end. *)
Definition release (id : Z) : stM World Z unit := λ w,
  match remove_endpoint id (streams w) with
  | None => (w, Err (-9))
  | Some (removed, st) =>
      let w := mkWorld (heap w) (notify_peer_release removed false st) in
      let w :=
        match ep_listener removed with
        | Some l => release_pending (pending l) w
        | None => w
        end in
      let w :=
        match ep_pending_listener removed with
        | Some listener => update_world listener (set_pending (filter (λ p, p ≠ id))) w
        | None => w
        end in
      (mkWorld (drop_endpoint removed (heap w)) (streams w), Ok tt)
  end.

(** [Streams::release_observers]. *)
Definition release_observers (st : Streams) (id : Z) : result Z (list Z) :=
  entry ← endpoint st id;
  let queued :=
    match ep_listener entry with
    | Some l => omap (λ p, find_endpoint p (entries st) ≫= ep_peer) (pending l)
    | None => []
    end in
  Ok (id :: option_list (ep_peer entry) ++ queued).

(** ** Records *)

(** [Streams::record_read_terminal]. *)
Definition record_read_terminal (id : Z) : stM Streams Z bool := λ st,
  match endpoint st id with
  | Err e => (st, Err e)
  | Ok entry =>
      if ep_read_shutdown entry then (st, Ok true)
      else if negb (bool_decide (ep_kind entry = SequencedPacket)) then (st, Ok false)
      else if bool_decide (ep_peer entry = None) then (st, Err (-107))
      else if is_some_and is_readable (ep_records entry) then (st, Ok false)
      else if negb (ep_error entry =? 0) then (update id (set_error 0) st, Err (- ep_error entry))
      else (st, read_closed <$> readiness st id)
  end.

(** The error of a peer that is gone. *)
Definition broken (k : Kind) : Z := if bool_decide (k = SequencedPacket) then -32 else -111.

(** [Streams::record_destination]. *)
Definition record_destination (st : Streams) (id : Z) : result Z Z :=
  entry ← endpoint st id;
  _ ← ensure (bool_decide (is_Some (ep_records entry))) (-95);
  _ ← ensure (negb (ep_write_shutdown entry)) (-32);
  peer ← ok_or (if bool_decide (ep_kind entry = SequencedPacket) then -107 else -89) (ep_peer entry);
  target ← map_err (λ _, broken (ep_kind entry)) (endpoint st peer);
  _ ← ensure (negb (ep_read_shutdown target)) (broken (ep_kind entry));
  _ ← ensure (negb (is_some_and (λ sender, negb (sender =? id)) (ep_peer target))) (-1);
  Ok peer.

(** [Streams::record_send_ready]. *)
Definition record_send_ready (st : Streams) (id length : Z) : result Z bool :=
  entry ← endpoint st id;
  _ ← ensure (bool_decide (is_Some (ep_records entry))) (-95);
  _ ← ensure (negb (length >? MAX_RECORD_SIZE)) (-90);
  if ep_write_shutdown entry || bool_decide (ep_peer entry = None) then Ok true
  else match ep_peer entry ≫= λ peer, find_endpoint peer (entries st) with
  | None => Ok true
  | Some peer =>
      if ep_read_shutdown peer || is_some_and (λ sender, negb (sender =? id)) (ep_peer peer) then Ok true
      else
        queue ← ok_or (-91) (ep_records peer);
        can_push length (ep_send_capacity entry) queue
  end.

(** [Streams::ancillary_send_ready]. *)
Definition ancillary_send_ready (st : Streams) (id length : Z) : result Z bool :=
  k ← kind st id;
  if negb (bool_decide (k = Stream)) then record_send_ready st id length
  else match stream_send_length st id length true with
  | Ok _ => Ok true
  | Err e => if e =? -11 then Ok false else Err e
  end.

(** [Streams::record_send_to_ready]. *)
Definition record_send_to_ready (st : Streams) (source destination length : Z) : result Z bool :=
  entry ← endpoint st source;
  _ ← ensure (negb (bool_decide (ep_kind entry = Stream))) (-91);
  _ ← ensure (negb (bool_decide (ep_kind entry = SequencedPacket) &&
                    negb (bool_decide (ep_peer entry = Some destination)))) (-106);
  _ ← ensure (negb (ep_write_shutdown entry)) (-32);
  target ← map_err (λ _, broken (ep_kind entry)) (endpoint st destination);
  _ ← ensure (bool_decide (ep_kind target = ep_kind entry)) (-91);
  _ ← ensure (negb (ep_read_shutdown target)) (broken (ep_kind entry));
  _ ← ensure (negb (is_some_and (λ sender, negb (sender =? source)) (ep_peer target))) (-1);
  queue ← ok_or (-91) (ep_records target);
  can_push length (ep_send_capacity entry) queue.

(** [Streams::commit_record_to_with_rights]. *)
Definition commit_record_to_with_rights (alloc : bool) (id destination : Z) (src : SourceAddress)
    (data : list Z) (rights : Bundle) (w : World) : World * result (Z * Bundle) (Z * (Z * Z)) :=
  match record_send_to_ready (streams w) id destination (zlen data) with
  | Err e => (w, Err (e, rights))
  | Ok false => (w, Err (-11, rights))
  | Ok true =>
      match endpoint (streams w) id with
      | Err e => (w, Err (e, rights))
      | Ok entry =>
          match endpoint (streams w) destination with
          | Err e => (w, Err (e, rights))
          | Ok target =>
              match ep_records target with
              | None => (w, Err (-91, rights))
              | Some queue =>
                  match push_with_rights alloc src data (ep_send_capacity entry) (Some id) rights queue with
                  | (queue, r) =>
                      (update_world destination (set_records (Some queue)) w,
                       match r with Ok n => Ok (n, (id, destination)) | Err e => Err e end)
                  end
              end
          end
      end
  end.

(** [Streams::commit_record_with_rights]. *)
Definition commit_record_with_rights (alloc : bool) (id : Z) (data : list Z) (rights : Bundle) (w : World)
    : World * result (Z * Bundle) (Z * (Z * Z)) :=
  let prepared :=
    destination ← record_destination (streams w) id;
    a ← address (streams w) id;
    source ← source_new a;
    Ok (destination, source) in
  match prepared with
  | Err e => (w, Err (e, rights))
  | Ok (destination, source) => commit_record_to_with_rights alloc id destination source data rights w
  end.

(** [Streams::connect_datagram_named]. *)
Definition connect_datagram_named (client target : Z) (client_path : option (list Z)) (target_path : list Z)
    : stM World Z unit := λ w,
  let st := streams w in
  let checked :=
    local_name ← optional_name client_path;
    peer_name ← name_new target_path;
    source ← endpoint st client;
    _ ← ensure (bool_decide (ep_kind source = Datagram)) (-91);
    destination ← map_err (λ _, -111) (endpoint st target);
    _ ← ensure (bool_decide (ep_kind destination = Datagram)) (-91);
    _ ← ensure (negb (ep_read_shutdown destination)) (-111);
    _ ← ensure (negb (is_some_and (λ peer, negb (peer =? client)) (ep_peer destination))) (-1);
    Ok (local_name, peer_name, source) in
  match checked with
  | Err e => (w, Err e)
  | Ok (local_name, peer_name, source) =>
      let source := set_peer_name (Some peer_name) (set_local_name local_name (set_peer (Some target) source)) in
      match ep_records source with
      | None => (update_world client (λ _, source) w, Err (-91))
      | Some records =>
          let '(records, h) := retain_sender target records (heap w) in
          (mkWorld h (update client (λ _, set_records (Some records) source) st), Ok tt)
      end
  end.

(** [Streams::disconnect_datagram]. *)
Definition disconnect_datagram (id : Z) : stM World Z unit := λ w,
  match endpoint (streams w) id with
  | Err e => (w, Err e)
  | Ok entry =>
      if negb (bool_decide (ep_kind entry = Datagram)) then (w, Err (-95))
      else match ep_records entry with
      | None => (w, Err (-95))
      | Some records =>
          let '(records, h) :=
            if bool_decide (is_Some (ep_peer entry)) then records_clear records (heap w) else (records, heap w) in
          (mkWorld h (update id (λ e,
             set_peer_name None (set_records (Some records) (set_peer None e))) (streams w)), Ok tt)
      end
  end.

(** [Streams::record_observers]. *)
Definition record_observers (st : Streams) (destination : Z) : list Z :=
  ep_id <$> filter (λ e, is_Some (ep_records e) ∧ ep_peer e = Some destination) (entries st).

(** [Streams::has_ancillary_records]. *)
Definition has_ancillary_records (st : Streams) : bool :=
  existsb (λ e, negb (zlen (stream_leases (ep_incoming e)) =? 0) ||
    is_some_and (λ q, negb (zlen (record_leases q) =? 0)) (ep_records e)) (entries st).

(** [Streams::snapshot_queued_rights]. *)
Definition snapshot_queued_rights (alloc : bool) (id length maximum : Z) : stM World Z (option Bundle) := λ w,
  match endpoint (streams w) id with
  | Err e => (w, Err e)
  | Ok entry =>
      let rights :=
        match ep_records entry with
        | Some records => front_rights records
        | None => read_rights length (ep_incoming entry)
        end in
      match rights with
      | None => (w, Ok None)
      | Some b =>
          match snapshot alloc b maximum (heap w) with
          | (h, r) => (mkWorld h (streams w), Some <$> r)
          end
      end
  end.

(** ** Transfers through a buffer *)

Context {B : Type} {RB : RecordBuffer B}.

(** A transfer into or out of the record queue of one description. *)
Definition transfer_queue (alloc : bool * bool) (destination : Z) (request : Request) (src : SourceAddress)
    (capacity : Z) (response : list Z) (from : option Z) (w : World) (b : B)
    : World * B * list Z * result Z Z :=
  match endpoint (streams w) destination with
  | Err e => (w, b, response, Err e)
  | Ok target =>
      match ep_records target with
      | None => (w, b, response, Err (-91))
      | Some queue =>
          match transfer_from alloc request src capacity response from queue (heap w) b with
          | (queue, h, b, response, r) =>
              (mkWorld h (update destination (set_records (Some queue)) (streams w)), b, response, r)
          end
      end
  end.

(** The reply of a read that met the end of the stream of records. *)
Definition terminal_reply (request : Request) (response : list Z) (b : B) : list Z * result Z Z :=
  if negb (request_valid request) then (response, Err (-22))
  else match checked_add U64_MAX (request_offset request) (request_length request) with
  | None => (response, Err (-22))
  | Some end_ =>
      match extent b with
      | Err e => (response, Err e)
      | Ok size =>
          if end_ >? size then (response, Err (-22))
          else match reply_encode (mkReply 0 0 (Some UnixUnnamed)) request response with
          | (response, o) => (response, ok_or (-22) o)
          end
      end
  end.

(** [Streams::transfer_record]. *)
Definition transfer_record (alloc : bool * bool) (id : Z) (request : Request) (response : list Z)
    (w : World) (b : B) : World * B * list Z * result Z Z :=
  let st := streams w in
  let checked :=
    entry ← endpoint st id;
    _ ← ensure (match operation request with WaitSend | SendRoute => false | _ => true end) (-22);
    _ ← ensure (bool_decide (is_Some (ep_records entry))) (-95);
    a ← address st id;
    source ← source_new a;
    Ok (ep_send_capacity entry, source) in
  match checked with
  | Err e => (w, b, response, Err e)
  | Ok (capacity, source) =>
      if bool_decide (operation request = Send) then
        match record_destination st id with
        | Err e => (w, b, response, Err e)
        | Ok destination => transfer_queue alloc destination request source capacity response (Some id) w b
        end
      else match record_read_terminal id st with
      | (st, Err e) => (mkWorld (heap w) st, b, response, Err e)
      | (st, Ok true) =>
          let '(response, r) := terminal_reply request response b in
          (mkWorld (heap w) st, b, response, r)
      | (st, Ok false) =>
          transfer_queue alloc id request source capacity response (Some id) (mkWorld (heap w) st) b
      end
  end.

(** [Streams::transfer_record_to]. *)
Definition transfer_record_to (alloc : bool * bool) (id destination : Z) (request : Request)
    (src : SourceAddress) (response : list Z) (w : World) (b : B) : World * B * list Z * result Z Z :=
  if negb (bool_decide (operation request = SendRoute)) then (w, b, response, Err (-22))
  else match record_send_to_ready (streams w) id destination (request_length request) with
  | Err e => (w, b, response, Err e)
  | Ok false => (w, b, response, Err (-11))
  | Ok true =>
      match send_capacity (streams w) id with
      | Err e => (w, b, response, Err e)
      | Ok capacity => transfer_queue alloc destination request src capacity response (Some id) w b
      end
  end.

(** *** Receiving with references

    [publish] is the caller's callback, on the caller's state [X]. *)

Context {X : Type} (publish : ReceivedRecord → Z → X → X * result Z unit).

Definition bundle_count (o : option Bundle) : Z := match o with Some b => bundle_len b | None => 0 end.

(** The snapshot of a peek: [None] when the call is not a peek. *)
Definition peek_snapshot (alloc : bool) (peek_maximum : option Z) (rights : option Bundle)
    : stM Heap Z (option (option Bundle)) := λ h,
  match peek_maximum, rights with
  | None, _ => (h, Ok None)
  | Some _, None => (h, Ok (Some None))
  | Some maximum, Some b =>
      match snapshot alloc b maximum h with (h, r) => (h, (λ b, Some (Some b)) <$> r) end
  end.

(** [Streams::receive_stream_rights_using].  [alloc] are the outcomes of the
    allocation of the data and of the snapshot. *)
Definition receive_stream_rights_using (alloc : bool * bool) (id offset length : Z)
    (peek_maximum : option Z) (w : World) (b : B) (x : X)
    : World * B * X * result Z (ReceivedRecord * option Bundle) :=
  if length >? MAX_RECORD_SIZE then (w, b, x, Err (-22))
  else match (end_ ← ok_or (-22) (checked_add U64_MAX offset length);
              size ← extent b; ensure (negb (end_ >? size)) (-22)) with
  | Err e => (w, b, x, Err e)
  | Ok _ =>
  match stream_read_count id (if length =? 0 then 1 else length) 0 (streams w) with
  | (st, Err e) => (mkWorld (heap w) st, b, x, Err e)
  | (st, Ok count) =>
  let w := mkWorld (heap w) st in
  let count := if length =? 0 then 0 else count in
  match endpoint st id with
  | Err e => (w, b, x, Err e)
  | Ok entry =>
  let queue := ep_incoming entry in
  let count := read_length count queue in
  let rights := bundle_count (read_rights count queue) in
  if negb alloc.1 then (w, b, x, Err (-12))
  else
  let '(data, _) := stream_peek 0 (replicate (Z.to_nat count) 0) queue in
  match buffer_write offset data b with
  | (b, Err e) => (w, b, x, Err e)
  | (b, Ok _) =>
  match source_new UnixUnnamed with
  | Err e => (w, b, x, Err e)
  | Ok source =>
  let record := mkReceived false count count source in
  match peek_snapshot alloc.2 peek_maximum (read_rights count queue) (heap w) with
  | (h, Err e) => (mkWorld h st, b, x, Err e)
  | (h, Ok snap) =>
  match publish record rights x with
  | (x, Err e) =>
      (mkWorld (match snap with Some o => drop_option o h | None => h end) st, b, x, Err e)
  | (x, Ok _) =>
  match snap with
  | Some snap => (mkWorld h st, b, x, Ok (record, snap))
  | None =>
      let '(queue, _, (_, rights)) := read_owned data queue in
      (mkWorld h (update id (set_incoming queue) st), b, x, Ok (record, rights))
  end end end end end end end end.

(** [Streams::receive_record_rights_using]. *)
Definition receive_record_rights_using (alloc : bool * bool) (id offset length : Z)
    (peek_maximum : option Z) (w : World) (b : B) (x : X)
    : World * B * X * result Z (ReceivedRecord * option Bundle) :=
  if length >? MAX_RECORD_SIZE then (w, b, x, Err (-22))
  else match (end_ ← ok_or (-22) (checked_add U64_MAX offset length);
              entry ← endpoint (streams w) id;
              _ ← ensure (bool_decide (is_Some (ep_records entry))) (-95);
              size ← extent b; ensure (negb (end_ >? size)) (-22)) with
  | Err e => (w, b, x, Err e)
  | Ok _ =>
  match record_read_terminal id (streams w) with
  | (st, Err e) => (mkWorld (heap w) st, b, x, Err e)
  | (st, Ok true) =>
      match source_new UnixUnnamed with
      | Err e => (mkWorld (heap w) st, b, x, Err e)
      | Ok source =>
          let record := mkReceived false 0 0 source in
          match publish record 0 x with
          | (x, Err e) => (mkWorld (heap w) st, b, x, Err e)
          | (x, Ok _) => (mkWorld (heap w) st, b, x, Ok (record, None))
          end
      end
  | (st, Ok false) =>
  let w := mkWorld (heap w) st in
  match (entry ← endpoint st id; ok_or (-95) (ep_records entry)) with
  | Err e => (w, b, x, Err e)
  | Ok queue =>
  if negb alloc.1 then (w, b, x, Err (-12))
  else match receive (replicate (Z.to_nat length) 0) true queue (heap w) with
  | (_, _, _, Err e) => (w, b, x, Err e)
  | (_, _, data, Ok record) =>
  let rights := bundle_count (front_rights queue) in
  match buffer_write offset (take (Z.to_nat (copied record)) data) b with
  | (b, Err e) => (w, b, x, Err e)
  | (b, Ok _) =>
  match peek_snapshot alloc.2 peek_maximum (front_rights queue) (heap w) with
  | (h, Err e) => (mkWorld h st, b, x, Err e)
  | (h, Ok snap) =>
  match publish record rights x with
  | (x, Err e) =>
      (mkWorld (match snap with Some o => drop_option o h | None => h end) st, b, x, Err e)
  | (x, Ok _) =>
  match snap with
  | Some snap => (mkWorld h st, b, x, Ok (record, snap))
  | None =>
      match receive_owned [] queue with
      | (queue, _, Err e) => (mkWorld h (update id (set_records (Some queue)) st), b, x, Err e)
      | (queue, _, Ok (_, rights)) =>
          (mkWorld h (update id (set_records (Some queue)) st), b, x, Ok (record, rights))
      end
  end end end end end end end end.

End socket.
