(* ===== verification/SocketGraph.v ===== *)
(** * The connection graph of the socket table

    A [Link] is the part of a socket description that refers to other
    descriptions: its peer, the connections waiting at a listener, the
    listener a waiting connection is queued at, and the identifier reserved
    for an accept that may have to be retried.  [graph_ok] is the invariant
    of a table of links; each lemma below is the effect of one operation of
    [posix/src/socket.rs] on it. *)

From S2P Require Import Prelude SocketProtocol SocketRights SocketStream SocketRecord Socket.

Record Link := mkLink {
  l_kind : Kind; l_peer : option Z; l_listener : option Listener; l_queued : option Z; l_retry : option Z }.

Record graph_ok (n : Z) (g : gmap Z Link) : Prop := {
  gk_range i l : g !! i = Some l → 1 ≤ i < n;
  gk_retry i l r : g !! i = Some l → l_retry l = Some r →
    1 ≤ r < n ∧ g !! r = None ∧ is_Some (l_queued l) ∧
    ∀ j l', g !! j = Some l' → l_retry l' = Some r → j = i;
  gk_peer i l p : g !! i = Some l → l_peer l = Some p →
    1 ≤ p < n ∧ (∀ j l', g !! j = Some l' → l_retry l' ≠ Some p) ∧
    ∀ l', g !! p = Some l' → l_kind l' = l_kind l ∧ (l_kind l ≠ Datagram → p ≠ i ∧ l_peer l' = Some i);
  gk_listener i l s : g !! i = Some l → l_listener l = Some s →
    l_peer l = None ∧ l_queued l = None ∧ l_kind l ≠ Datagram ∧
    1 ≤ backlog s ≤ MAX_BACKLOG ∧ zlen (pending s) ≤ MAX_BACKLOG ∧ NoDup (pending s) ∧
    ∀ p, p ∈ pending s → ∃ l', g !! p = Some l' ∧ l_queued l' = Some i;
  gk_queued i l j : g !! i = Some l → l_queued l = Some j →
    is_Some (l_peer l) ∧ ∃ l' s, g !! j = Some l' ∧ l_listener l' = Some s ∧ i ∈ pending s ∧ l_kind l' = l_kind l;
}.


Definition with_peer (p : option Z) (l : Link) : Link :=
  mkLink (l_kind l) p (l_listener l) (l_queued l) (l_retry l).
Definition with_listener (s : option Listener) (l : Link) : Link :=
  mkLink (l_kind l) (l_peer l) s (l_queued l) (l_retry l).
Definition with_retry (r : option Z) (l : Link) : Link :=
  mkLink (l_kind l) (l_peer l) (l_listener l) (l_queued l) r.
Definition with_queued (j : option Z) (l : Link) : Link :=
  mkLink (l_kind l) (l_peer l) (l_listener l) j (l_retry l).

(** Case on the lookups in updated tables. *)
Ltac inv_insert :=
  repeat match goal with
  | H : <[_ := _]> _ !! _ = Some _ |- _ =>
      apply lookup_insert_Some in H as [[? ?]|[? H]]; subst; simpl in *
  end; simplify_eq/=.

Lemma graph_ok_empty : graph_ok 1 ∅.
Proof. split; intros i l; by rewrite lookup_empty. Qed.

Section graph.
Context (n : Z) (g : gmap Z Link) (Hg : graph_ok n g).

Lemma fresh_none i : n ≤ i → g !! i = None.
Proof. intros Hi. apply eq_None_not_Some. intros [l Hl%(gk_range _ _ Hg)]. lia. Qed.

(** Nobody is connected to a description that is not connected itself, unless
    it is a datagram socket. *)
Lemma no_peer i l j l' :
  g !! i = Some l → l_peer l = None → l_kind l ≠ Datagram →
  g !! j = Some l' → l_peer l' ≠ Some i.
Proof.
  intros Hi Hp Hk Hj Hpj. destruct (gk_peer _ _ Hg j l' i Hj Hpj) as (_ & _ & H).
  destruct (H l Hi) as [Hkk Hb]. rewrite Hkk in Hk. destruct (Hb Hk). congruence.
Qed.

(** [create]. *)
Lemma graph_create k : 1 ≤ n → graph_ok (n + 1) (<[n := mkLink k None None None None]> g).
Proof.
  intros Hn. pose proof (fresh_none n ltac:(lia)) as Hnone. destruct Hg as [H1 H2 H3 H4 H5]. split.
  - intros i l Hl. inv_insert; [lia|]. apply H1 in Hl. lia.
  - intros i l r Hl Hr. inv_insert. destruct (H2 i l r Hl Hr) as (? & ? & ? & Hu).
    split_and!; try done; try lia; [by rewrite lookup_insert_ne by lia|].
    intros j l' Hj Hr'. inv_insert. by eapply Hu.
  - intros i l p Hl Hp. inv_insert. destruct (H3 i l p Hl Hp) as (? & Hx & Hy). split_and!; try lia.
    + intros j l' Hj. inv_insert; [done|]. by eapply Hx.
    + intros l' Hl'. inv_insert; [lia|]. by apply Hy.
  - intros i l s Hl Hs. inv_insert. destruct (H4 i l s Hl Hs) as (? & ? & ? & ? & ? & ? & Hp).
    split_and!; try done; try lia. intros p Hin. destruct (Hp p Hin) as (l' & Hl' & ?).
    exists l'. split; [|done]. rewrite lookup_insert_ne; [done|]. intros <-. congruence.
  - intros i l j Hl Hj. inv_insert. destruct (H5 i l j Hl Hj) as (? & l' & s & Hl' & ? & ? & ?).
    split; [done|]. exists l', s. split_and!; try done. rewrite lookup_insert_ne; [done|].
    intros <-. congruence.
Qed.


(** What a change that keeps the peers and the reserved identifiers has to
    preserve. *)
Definition listener_ok (g : gmap Z Link) : Prop := ∀ i l s,
  g !! i = Some l → l_listener l = Some s →
  l_peer l = None ∧ l_queued l = None ∧ l_kind l ≠ Datagram ∧
  1 ≤ backlog s ≤ MAX_BACKLOG ∧ zlen (pending s) ≤ MAX_BACKLOG ∧ NoDup (pending s) ∧
  ∀ p, p ∈ pending s → ∃ l', g !! p = Some l' ∧ l_queued l' = Some i.
Definition queued_ok (g : gmap Z Link) : Prop := ∀ i l j,
  g !! i = Some l → l_queued l = Some j →
  is_Some (l_peer l) ∧ ∃ l' s, g !! j = Some l' ∧ l_listener l' = Some s ∧ i ∈ pending s ∧ l_kind l' = l_kind l.

Definition same_peers (l l0 : Link) : Prop :=
  l_kind l = l_kind l0 ∧ l_peer l = l_peer l0 ∧ l_retry l = l_retry l0 ∧
  (is_Some (l_retry l0) → is_Some (l_queued l)).

Lemma graph_requeue g' :
  (∀ j lj, g' !! j = Some lj → ∃ l0, g !! j = Some l0 ∧ same_peers lj l0) →
  listener_ok g' → queued_ok g' → graph_ok n g'.
Proof.
  intros Hback H4' H5'. destruct Hg as [H1 H2 H3 _ _]. split; try done.
  - intros j lj (l0 & Hl0 & _)%Hback. by apply H1 in Hl0.
  - intros j lj r Hj Hr. destruct (Hback j lj Hj) as (l0 & Hl0 & _ & _ & Er & Hq). rewrite Er in Hr.
    destruct (H2 j l0 r Hl0 Hr) as (? & ? & Hs & Hu). split_and!; try done; try lia.
    + apply eq_None_not_Some. intros [lr (l2 & ? & _)%Hback]. congruence.
    + apply Hq. eauto.
    + intros k lk (l2 & Hl2 & _ & _ & E2 & _)%Hback Hrk. rewrite E2 in Hrk. by eapply Hu.
  - intros j lj p Hj Hp. destruct (Hback j lj Hj) as (l0 & Hl0 & Ek & Ep & _). rewrite Ep in Hp.
    destruct (H3 j l0 p Hl0 Hp) as (? & Hx & Hy). split_and!; try lia.
    + intros k lk (l2 & Hl2 & _ & _ & E2 & _)%Hback. rewrite E2. by eapply Hx.
    + intros lp (l2 & Hl2 & Ek2 & Ep2 & _)%Hback. rewrite Ek, Ek2, Ep2. by apply Hy.
Qed.

Lemma same_peers_refl i l : g !! i = Some l → same_peers l l.
Proof. intros Hi. split_and!; try done. intros [r Hr]. by destruct (gk_retry _ _ Hg i l r Hi Hr) as (_ & _ & ? & _). Qed.
Lemma not_queued i l : g !! i = Some l → l_peer l = None → l_queued l = None.
Proof.
  intros Hi Hp. destruct (l_queued l) as [j|] eqn:E; [|done].
  destruct (gk_queued _ _ Hg i l j Hi E) as [[p ?] _]. congruence.
Qed.

(** [listen]: the listener appears or changes its limit. *)
Lemma graph_listen i l b :
  g !! i = Some l → l_peer l = None → l_kind l ≠ Datagram → 1 ≤ b ≤ MAX_BACKLOG →
  graph_ok n (<[i := with_listener (Some (mkListener b
    (match l_listener l with Some s => pending s | None => [] end))) l]> g).
Proof.
  intros Hi Hp Hk Hb. set (w := match l_listener l with Some s => pending s | None => [] end).
  pose proof (not_queued i l Hi Hp) as Hq. set (g' := <[i := _]> g).
  assert (g' !! i = Some (with_listener (Some (mkListener b w)) l)) as Ei by apply lookup_insert_eq.
  assert (∀ j, j ≠ i → g' !! j = g !! j) as Ej by (intros; unfold g'; by rewrite lookup_insert_ne).
  clearbody g'.
  assert (∀ p x, (∃ l0, g !! p = Some l0 ∧ l_queued l0 = Some x) →
    ∃ lp, g' !! p = Some lp ∧ l_queued lp = Some x) as Hpend.
  { intros p x (l0 & Hl0 & Hx). rewrite Ej; [eauto|congruence]. }
  apply graph_requeue.
  - intros j lj Hj. destruct (decide (j = i)) as [->|Hji].
    + rewrite Ei in Hj. injection Hj as <-. exists l. split; [done|].
      destruct (same_peers_refl i l Hi) as (_ & _ & _ & ?). by split_and!.
    + rewrite Ej in Hj by done. exists lj. split; [done|]. by apply (same_peers_refl j).
  - intros j lj s Hj Hs. destruct (decide (j = i)) as [->|Hji].
    + rewrite Ei in Hj. injection Hj as <-. injection Hs as <-. unfold w. simpl.
      destruct (l_listener l) as [s0|] eqn:Es.
      * destruct (gk_listener _ _ Hg i l s0 Hi Es) as (? & ? & ? & ? & ? & ? & Hpn).
        split_and!; try done; try lia. intros p Hin. by apply Hpend, Hpn.
      * split_and!; try done; try lia; [constructor|]. by intros p ?%elem_of_nil.
    + rewrite Ej in Hj by done. destruct (gk_listener _ _ Hg j lj s Hj Hs) as (? & ? & ? & ? & ? & ? & Hpn).
      split_and!; try done; try lia. intros p Hin. by apply Hpend, Hpn.
  - intros j lj k Hj Hjk. assert (j ≠ i) as Hji by (intros ->; rewrite Ei in Hj; injection Hj as <-; simpl in *; congruence).
    rewrite Ej in Hj by done. destruct (gk_queued _ _ Hg j lj k Hj Hjk) as (? & lk & s & Hlk & Hs & Hin & Hkx).
    split; [done|]. destruct (decide (k = i)) as [->|Hne]; [|rewrite Ej by done; eauto 10].
    rewrite Hi in Hlk. injection Hlk as <-. eexists _, (mkListener b w). split_and!; try done.
    unfold w. simpl. by rewrite Hs.
Qed.

(** A connection joins the queue of a listener. *)
Lemma graph_enqueue i li t lt s :
  g !! i = Some li → g !! t = Some lt → l_listener lt = Some s →
  is_Some (l_peer li) → l_queued li = None → l_kind li = l_kind lt → zlen (pending s) < backlog s →
  graph_ok n (<[t := with_listener (Some (mkListener (backlog s) (pending s ++ [i]))) lt]>
    (<[i := with_queued (Some t) li]> g)).
Proof.
  intros Hi Ht Hs [pi Hpi] Hqi Hk Hroom.
  pose proof (gk_listener _ _ Hg t lt s Ht Hs) as (Htp & Htq & Htk & Hb & Hlen & Hnd & Hpn).
  assert (i ≠ t) as Hit by (intros ->; congruence).
  assert (i ∉ pending s) as Hnin by (intros (l' & ? & ?)%Hpn; congruence).
  set (g' := <[t := _]> _).
  assert (g' !! t = Some (with_listener (Some (mkListener (backlog s) (pending s ++ [i]))) lt)) as Et
    by apply lookup_insert_eq.
  assert (g' !! i = Some (with_queued (Some t) li)) as Ei
    by (unfold g'; by rewrite lookup_insert_ne, lookup_insert_eq).
  assert (∀ j, j ≠ i → j ≠ t → g' !! j = g !! j) as Ej
    by (intros; unfold g'; by rewrite !lookup_insert_ne).
  clearbody g'. pose proof (gk_listener _ _ Hg) as H4. pose proof (gk_queued _ _ Hg) as H5.
  assert (∀ p x, (∃ l0, g !! p = Some l0 ∧ l_queued l0 = Some x) →
    ∃ lp, g' !! p = Some lp ∧ l_queued lp = Some x) as Hpend.
  { intros p x (l0 & Hl0 & Hx). rewrite Ej; [eauto|congruence|congruence]. }
  apply graph_requeue.
  - intros j lj Hj. destruct (decide (j = i)) as [->|Hji]; [|destruct (decide (j = t)) as [->|Hjt]].
    + rewrite Ei in Hj. injection Hj as <-. exists li. by split_and!.
    + rewrite Et in Hj. injection Hj as <-. exists lt. split; [done|].
      destruct (same_peers_refl t lt Ht) as (_ & _ & _ & ?). by split_and!.
    + rewrite Ej in Hj by done. exists lj. split; [done|]. by apply (same_peers_refl j).
  - intros j lj s' Hj Hs'. destruct (decide (j = t)) as [->|Hjt].
    + rewrite Et in Hj. injection Hj as <-. injection Hs' as <-. simpl. split_and!; try done; try lia.
      * rewrite zlen_app, zlen_cons, zlen_nil. lia.
      * apply NoDup_app. split_and!; [done| |apply NoDup_singleton].
        by intros x Hx ->%list_elem_of_singleton.
      * intros p [Hin|Hin%list_elem_of_singleton]%elem_of_app; [by apply Hpend, Hpn|]. subst p. eauto.
    + assert (j ≠ i) as Hji.
      { intros ->. rewrite Ei in Hj. injection Hj as <-. simpl in Hs'.
        destruct (H4 i li s' Hi Hs') as [? _]. congruence. }
      rewrite Ej in Hj by done. destruct (H4 j lj s' Hj Hs') as (? & ? & ? & ? & ? & ? & Hpj).
      split_and!; try done; try lia. intros p Hin. by apply Hpend, Hpj.
  - intros j lj k Hj Hjk. destruct (decide (j = i)) as [->|Hji].
    + rewrite Ei in Hj. injection Hj as <-. injection Hjk as <-. split; [simpl; eauto|].
      eexists _, _. split_and!; [done|done| |simpl; congruence]. simpl. apply elem_of_app. right. by left.
    + assert (j ≠ t) as Hjt by (intros ->; rewrite Et in Hj; injection Hj as <-; simpl in Hjk; congruence).
      rewrite Ej in Hj by done. destruct (H5 j lj k Hj Hjk) as (? & lk & s' & Hlk & Hs' & Hin & Hkx).
      split; [done|]. destruct (decide (k = t)) as [->|Hkt].
      * rewrite Ht in Hlk. injection Hlk as <-. rewrite Hs in Hs'. injection Hs' as <-.
        eexists _, _. split_and!; [done|done| |done]. simpl. apply elem_of_app. by left.
      * exists lk, s'. rewrite Ej; [done| |done]. intros ->. rewrite Hi in Hlk. injection Hlk as <-.
        destruct (H4 i li s' Hi Hs') as [? _]. congruence.
Qed.

(** A connection leaves the queue of its listener. *)
Lemma graph_dequeue i li t lt s :
  g !! i = Some li → g !! t = Some lt → l_listener lt = Some s → i ∈ pending s → l_retry li = None →
  graph_ok n (<[t := with_listener (Some (mkListener (backlog s) (filter (λ p, p ≠ i) (pending s)))) lt]>
    (<[i := with_queued None li]> g)).
Proof.
  intros Hi Ht Hs Hin Hr.
  pose proof (gk_listener _ _ Hg t lt s Ht Hs) as (Htp & Htq & Htk & Hb & Hlen & Hnd & Hpn).
  assert (l_queued li = Some t) as Hqi.
  { destruct (Hpn i Hin) as (l' & ? & ?). congruence. }
  assert (i ≠ t) as Hit by (intros ->; congruence).
  set (s' := mkListener _ _). set (g' := <[t := _]> _).
  assert (g' !! t = Some (with_listener (Some s') lt)) as Et by apply lookup_insert_eq.
  assert (g' !! i = Some (with_queued None li)) as Ei
    by (unfold g'; by rewrite lookup_insert_ne, lookup_insert_eq).
  assert (∀ j, j ≠ i → j ≠ t → g' !! j = g !! j) as Ej
    by (intros; unfold g'; by rewrite !lookup_insert_ne).
  clearbody g'. pose proof (gk_listener _ _ Hg) as H4. pose proof (gk_queued _ _ Hg) as H5.
  assert (∀ p x, (∃ l0, g !! p = Some l0 ∧ l_queued l0 = Some x) → p ≠ i →
    ∃ lp, g' !! p = Some lp ∧ l_queued lp = Some x) as Hpend.
  { intros p x (l0 & Hl0 & Hx) Hpi. rewrite Ej; [eauto|done|congruence]. }
  apply graph_requeue.
  - intros j lj Hj. destruct (decide (j = i)) as [->|Hji]; [|destruct (decide (j = t)) as [->|Hjt]].
    + rewrite Ei in Hj. injection Hj as <-. exists li. split; [done|].
      unfold same_peers. simpl. rewrite Hr. split_and!; try done.
    + rewrite Et in Hj. injection Hj as <-. exists lt. split; [done|].
      destruct (same_peers_refl t lt Ht) as (_ & _ & _ & ?). by split_and!.
    + rewrite Ej in Hj by done. exists lj. split; [done|]. by apply (same_peers_refl j).
  - intros j lj sj Hj Hsj. destruct (decide (j = t)) as [->|Hjt].
    + rewrite Et in Hj. injection Hj as <-. injection Hsj as <-. simpl. split_and!; try done; try lia.
      * pose proof (length_filter (λ p, p ≠ i) (pending s)). unfold zlen in *. lia.
      * by apply NoDup_filter.
      * intros p [Hpi Hp]%list_elem_of_filter. apply Hpend; [by apply Hpn|done].
    + assert (j ≠ i) as Hji.
      { intros ->. rewrite Ei in Hj. injection Hj as <-. simpl in Hsj.
        destruct (H4 i li sj Hi Hsj) as (_ & ? & _). congruence. }
      rewrite Ej in Hj by done. destruct (H4 j lj sj Hj Hsj) as (? & ? & ? & ? & ? & ? & Hpj).
      split_and!; try done; try lia. intros p Hp. apply Hpend; [by apply Hpj|].
      intros ->. destruct (Hpj i Hp) as (l' & ? & ?). congruence.
  - intros j lj k Hj Hjk.
    assert (j ≠ i) as Hji by (intros ->; rewrite Ei in Hj; injection Hj as <-; done).
    assert (j ≠ t) as Hjt by (intros ->; rewrite Et in Hj; injection Hj as <-; simpl in Hjk; congruence).
    rewrite Ej in Hj by done. destruct (H5 j lj k Hj Hjk) as (? & lk & sk & Hlk & Hsk & Hk & Hkx).
    split; [done|]. destruct (decide (k = t)) as [->|Hkt].
    + rewrite Ht in Hlk. injection Hlk as <-. rewrite Hs in Hsk. injection Hsk as <-.
      exists (with_listener (Some s') lt), s'. split_and!; try done. simpl. by apply list_elem_of_filter.
    + exists lk, sk. rewrite Ej; [done| |done]. intros ->. rewrite Hi in Hlk. injection Hlk as <-.
      destruct (H4 i li sk Hi Hsk) as (_ & ? & _). congruence.
Qed.

(** The dual: a change of peers and reserved identifiers that keeps the
    queues. *)
Definition retry_ok (n : Z) (g : gmap Z Link) : Prop := ∀ i l r,
  g !! i = Some l → l_retry l = Some r →
  1 ≤ r < n ∧ g !! r = None ∧ is_Some (l_queued l) ∧ ∀ j l', g !! j = Some l' → l_retry l' = Some r → j = i.
Definition peer_ok (n : Z) (g : gmap Z Link) : Prop := ∀ i l p,
  g !! i = Some l → l_peer l = Some p →
  1 ≤ p < n ∧ (∀ j l', g !! j = Some l' → l_retry l' ≠ Some p) ∧
  ∀ l', g !! p = Some l' → l_kind l' = l_kind l ∧ (l_kind l ≠ Datagram → p ≠ i ∧ l_peer l' = Some i).

Definition same_queues (l l0 : Link) : Prop :=
  l_kind l = l_kind l0 ∧ l_listener l = l_listener l0 ∧ l_queued l = l_queued l0 ∧
  (is_Some (l_listener l0) → l_peer l = None) ∧ (is_Some (l_queued l0) → is_Some (l_peer l)).

Lemma same_queues_refl i l : g !! i = Some l → same_queues l l.
Proof.
  intros Hi. split_and!; try done.
  - intros [s Hs]. by destruct (gk_listener _ _ Hg i l s Hi Hs).
  - intros [j Hj]. by destruct (gk_queued _ _ Hg i l j Hi Hj).
Qed.

Lemma graph_repeer n' g' :
  n ≤ n' →
  (∀ j lj, g' !! j = Some lj → ∃ l0, g !! j = Some l0 ∧ same_queues lj l0) →
  (∀ j l0, g !! j = Some l0 → is_Some (g' !! j)) →
  retry_ok n' g' → peer_ok n' g' → graph_ok n' g'.
Proof.
  intros Hn Hback Hdom Hr' Hp'.
  assert (∀ j l0, g !! j = Some l0 → ∃ lj, g' !! j = Some lj ∧ same_queues lj l0) as Hforth.
  { intros j l0 Hj. destruct (Hdom j l0 Hj) as [lj Hlj]. exists lj. split; [done|].
    destruct (Hback j lj Hlj) as (l1 & ? & ?). by simplify_eq. }
  split; try done.
  - intros j lj (l0 & Hl0 & _)%Hback. apply (gk_range _ _ Hg) in Hl0. lia.
  - intros j lj s Hj Hs. destruct (Hback j lj Hj) as (l0 & Hl0 & Ek & El & Eq & Hpn & _). rewrite El in Hs.
    destruct (gk_listener _ _ Hg j l0 s Hl0 Hs) as (? & ? & ? & ? & ? & ? & Hw). rewrite Ek, Eq.
    split_and!; try done; try lia; [apply Hpn; eauto|]. intros p Hin. destruct (Hw p Hin) as (l2 & Hl2 & E2).
    destruct (Hforth p l2 Hl2) as (l3 & ? & _ & _ & E3 & _). exists l3. split; [done|congruence].
  - intros j lj k Hj Hjk. destruct (Hback j lj Hj) as (l0 & Hl0 & Ek & El & Eq & _ & Hps). rewrite Eq in Hjk.
    destruct (gk_queued _ _ Hg j l0 k Hl0 Hjk) as (? & lk & s & Hlk & Hs & Hin & Hkx). rewrite Ek.
    split; [apply Hps; eauto|].
    destruct (Hforth k lk Hlk) as (l3 & ? & E3 & E4 & _). exists l3, s. split_and!; try done; congruence.
Qed.

(** A change of one link that keeps its queues. *)
Lemma graph_repeer_one n' i l l' :
  n ≤ n' → g !! i = Some l → same_queues l' l →
  retry_ok n' (<[i := l']> g) → peer_ok n' (<[i := l']> g) → graph_ok n' (<[i := l']> g).
Proof.
  intros Hn Hi Hs Hr Hp. apply graph_repeer; try done.
  - intros j lj [[<- <-]|[_ Hj]]%lookup_insert_Some; [eauto|]. exists lj. split; [done|]. by apply (same_queues_refl j).
  - intros j l0 Hj. destruct (decide (i = j)) as [->|Hne]; [rewrite lookup_insert_eq|rewrite lookup_insert_ne by done]; eauto.
Qed.

(** Reserving the identifier for a retry, and giving it up. *)
Lemma graph_reserve i li :
  1 ≤ n → g !! i = Some li → is_Some (l_queued li) → graph_ok (n + 1) (<[i := with_retry (Some n) li]> g).
Proof.
  intros Hn Hi Hq. pose proof (fresh_none n ltac:(lia)) as Hnone. pose proof Hg as [_ H2 H3 _ _].
  assert (∀ j lj r, <[i := with_retry (Some n) li]> g !! j = Some lj → l_retry lj = Some r →
    (j = i ∧ r = n) ∨ r < n ∧ g !! j = Some lj) as Hback.
  { intros j lj r Hj Hr. inv_insert; [by left|]. right. split; [|done]. destruct (H2 j lj r Hj Hr). lia. }
  apply graph_repeer_one with li; [lia|done|exact (same_queues_refl i li Hi)| |].
  - intros j lj r Hj Hr. destruct (Hback j lj r Hj Hr) as [[-> ->]|[Hrn Hj0]].
    + rewrite lookup_insert_eq in Hj. injection Hj as <-. split_and!; try done; try lia.
      * rewrite lookup_insert_ne; [done|]. congruence.
      * intros k lk Hk Hrk. destruct (Hback k lk n Hk Hrk) as [[-> _]|[? _]]; [done|lia].
    + destruct (H2 j lj r Hj0 Hr) as (? & ? & ? & Hu). split_and!; try done; try lia.
      * rewrite lookup_insert_ne; [done|]. congruence.
      * intros k lk Hk Hrk. destruct (Hback k lk r Hk Hrk) as [[_ ->]|[_ Hk0]]; [lia|]. by eapply Hu.
  - intros j lj p Hj Hp.
    assert (∃ l0, g !! j = Some l0 ∧ l_peer l0 = Some p ∧ l_kind lj = l_kind l0) as (l0 & Hl0 & Hp0 & Ek)
      by (inv_insert; eauto).
    destruct (H3 j l0 p Hl0 Hp0) as (? & Hx & Hy). rewrite Ek. split_and!; try lia.
    + intros k lk Hk Hrk. destruct (Hback k lk p Hk Hrk) as [[_ ->]|[_ Hk0]]; [lia|]. by eapply Hx.
    + intros lp Hlp. apply lookup_insert_Some in Hlp as [[<- <-]|[_ Hlp]]; simpl; by apply Hy.
Qed.

Lemma graph_unreserve i li : g !! i = Some li → graph_ok n (<[i := with_retry None li]> g).
Proof.
  intros Hi. pose proof Hg as [_ H2 H3 _ _].
  assert (∀ j lj r, <[i := with_retry None li]> g !! j = Some lj → l_retry lj = Some r → g !! j = Some lj) as Hback
    by (intros j lj r Hj Hr; by inv_insert).
  apply graph_repeer_one with li; [lia|done|exact (same_queues_refl i li Hi)| |].
  - intros j lj r Hj Hr. destruct (H2 j lj r (Hback _ _ _ Hj Hr) Hr) as (? & ? & ? & Hu).
    split_and!; try done; try lia.
    + rewrite lookup_insert_ne; [done|]. congruence.
    + intros k lk Hk Hrk. eapply Hu; [by eapply Hback|done].
  - intros j lj p Hj Hp.
    assert (∃ l0, g !! j = Some l0 ∧ l_peer l0 = Some p ∧ l_kind lj = l_kind l0) as (l0 & Hl0 & Hp0 & Ek)
      by (inv_insert; eauto).
    destruct (H3 j l0 p Hl0 Hp0) as (? & Hx & Hy). rewrite Ek. split_and!; try lia.
    + intros k lk Hk Hrk. eapply Hx; [by eapply Hback|done].
    + intros lp Hlp. apply lookup_insert_Some in Hlp as [[<- <-]|[_ Hlp]]; simpl; by apply Hy.
Qed.

(** Two descriptions that are not connected become each other's peer. *)
Lemma graph_join i li j lj :
  g !! i = Some li → g !! j = Some lj → i ≠ j → l_kind li = l_kind lj →
  l_peer li = None → l_peer lj = None → l_listener li = None → l_listener lj = None →
  graph_ok n (<[i := with_peer (Some j) li]> (<[j := with_peer (Some i) lj]> g)).
Proof.
  intros Hi Hj Hij Hk Hpi Hpj Hli Hlj. pose proof Hg as [H1 H2 H3 _ _].
  set (g' := <[i := _]> _).
  assert (g' !! i = Some (with_peer (Some j) li)) as Ei by apply lookup_insert_eq.
  assert (g' !! j = Some (with_peer (Some i) lj)) as Ej
    by (unfold g'; by rewrite lookup_insert_ne, lookup_insert_eq).
  assert (∀ x, x ≠ i → x ≠ j → g' !! x = g !! x) as Ex by (intros; unfold g'; by rewrite !lookup_insert_ne).
  clearbody g'.
  assert (∀ x lx, g' !! x = Some lx → ∃ l0, g !! x = Some l0 ∧ l_retry lx = l_retry l0 ∧ l_queued lx = l_queued l0 ∧
    same_queues lx l0 ∧ (x = i ∨ x = j ∨ lx = l0)) as Hback.
  { intros x lx Hx. destruct (decide (x = i)) as [->|Hxi]; [|destruct (decide (x = j)) as [->|Hxj]].
    - rewrite Ei in Hx. injection Hx as <-. exists li. split_and!; try done; [|by left].
      unfold same_queues. simpl. rewrite Hli. split_and!; eauto. by intros [? ?].
    - rewrite Ej in Hx. injection Hx as <-. exists lj. split_and!; try done; [|by right; left].
      unfold same_queues. simpl. rewrite Hlj. split_and!; eauto. by intros [? ?].
    - rewrite Ex in Hx by done. exists lx. split_and!; try done; [by apply (same_queues_refl x)|by right; right]. }
  assert (∀ p, is_Some (g !! p) → ∀ k lk, g' !! k = Some lk → l_retry lk ≠ Some p) as Hnr.
  { intros p [lp Hp] k lk (l0 & Hl0 & Er & _)%Hback Hr. rewrite Er in Hr.
    destruct (H2 k l0 p Hl0 Hr) as (_ & ? & _). congruence. }
  apply graph_repeer; try done.
  - intros x lx (l0 & ? & _ & _ & ? & _)%Hback. eauto.
  - intros x l0 Hx. destruct (decide (x = i)) as [->|Hxi]; [rewrite Ei; eauto|].
    destruct (decide (x = j)) as [->|Hxj]; [rewrite Ej; eauto|]. rewrite Ex by done. eauto.
  - intros x lx r Hx Hr. destruct (Hback x lx Hx) as (l0 & Hl0 & Er & Eq & _). rewrite Er in Hr.
    destruct (H2 x l0 r Hl0 Hr) as (? & ? & ? & Hu). rewrite Eq. split_and!; try done; try lia.
    + rewrite Ex; [done|congruence|congruence].
    + intros k lk (l2 & Hl2 & E2 & _)%Hback Hrk. rewrite E2 in Hrk. by eapply Hu.
  - intros x lx p Hx Hp. destruct (Hback x lx Hx) as (l0 & Hl0 & _ & _ & _ & [->|[->|<-]]).
    + rewrite Ei in Hx. injection Hx as <-. injection Hp as <-. apply H1 in Hj as ?.
      split_and!; try lia; [by apply Hnr; eauto|]. intros lp. rewrite Ej. intros [= <-]. by split.
    + rewrite Ej in Hx. injection Hx as <-. injection Hp as <-. apply H1 in Hi as ?.
      split_and!; try lia; [by apply Hnr; eauto|]. intros lp. rewrite Ei. intros [= <-]. by split.
    + destruct (H3 x lx p Hl0 Hp) as (? & Hx' & Hy). split_and!; try lia.
      * intros k lk (l2 & Hl2 & E2 & _)%Hback. rewrite E2. by eapply Hx'.
      * intros lp Hlp. destruct (Hback p lp Hlp) as (l2 & Hl2 & _ & _ & [Ek _] & Hcase).
        destruct (Hy l2 Hl2) as [Hk2 Hb2]. rewrite Ek. split; [done|]. intros Hkd.
        destruct (Hb2 Hkd) as [? Hp2]. split; [done|].
        destruct Hcase as [->|[->|<-]]; [congruence|congruence|done].
Qed.

(** A datagram socket selects a peer, or none. *)
Lemma graph_datagram i li o :
  g !! i = Some li → l_kind li = Datagram →
  (∀ t, o = Some t → ∃ lt, g !! t = Some lt ∧ l_kind lt = Datagram) →
  graph_ok n (<[i := with_peer o li]> g).
Proof.
  intros Hi Hk Ho. pose proof Hg as [H1 H2 H3 H4 H5].
  assert (l_queued li = None) as Hqi.
  { destruct (l_queued li) as [t|] eqn:E; [|done].
    destruct (H5 i li t Hi E) as (_ & lt & s & Ht & Hs & _ & Hkt).
    destruct (H4 t lt s Ht Hs) as (_ & _ & ? & _). congruence. }
  assert (l_listener li = None) as Hli.
  { destruct (l_listener li) as [s|] eqn:E; [|done]. by destruct (H4 i li s Hi E) as (_ & _ & ? & _). }
  assert (∀ j lj, <[i := with_peer o li]> g !! j = Some lj → ∃ l0, g !! j = Some l0 ∧ l_retry lj = l_retry l0 ∧
    l_queued lj = l_queued l0 ∧ l_kind lj = l_kind l0 ∧ (l_kind l0 ≠ Datagram → lj = l0)) as Hback.
  { intros j lj Hj. inv_insert; [|by eauto 10]. eexists. split_and!; try done. }
  apply graph_repeer_one with li; [lia|done| | |].
  - unfold same_queues. simpl. rewrite Hqi, Hli. split_and!; try done; by intros [? ?].
  - intros j lj r Hj Hr. destruct (Hback j lj Hj) as (l0 & Hl0 & Er & Eq & _). rewrite Er in Hr.
    destruct (H2 j l0 r Hl0 Hr) as (? & ? & ? & Hu). rewrite Eq. split_and!; try done; try lia.
    + rewrite lookup_insert_ne; [done|]. congruence.
    + intros k lk (l2 & Hl2 & E2 & _)%Hback Hrk. rewrite E2 in Hrk. by eapply Hu.
  - intros j lj p Hj Hp. destruct (Hback j lj Hj) as (l0 & Hl0 & _ & _ & Ek & _). rewrite Ek.
    apply lookup_insert_Some in Hj as [[<- <-]|[Hne Hj]].
    + simpl in Hp. destruct (Ho p Hp) as (lt & Ht & Hkt). rewrite Hi in Hl0. injection Hl0 as <-. apply H1 in Ht as ?.
      split_and!; try lia.
      * intros k lk (l2 & Hl2 & E2 & _)%Hback Hr. rewrite E2 in Hr. destruct (H2 k l2 p Hl2 Hr) as (_ & ? & _). congruence.
      * intros lp (l2 & Hl2 & _ & _ & Ek2 & _)%Hback. split; [congruence|done].
    + rewrite Hj in Hl0. injection Hl0 as <-. destruct (H3 j lj p Hj Hp) as (? & Hx & Hy). split_and!; try lia.
      * intros k lk (l2 & Hl2 & E2 & _)%Hback. rewrite E2. by eapply Hx.
      * intros lp (l2 & Hl2 & _ & _ & Ek2 & Esame)%Hback. destruct (Hy l2 Hl2) as [Hk2 Hb2]. rewrite Ek2.
        split; [done|]. intros Hkd. rewrite (Esame ltac:(congruence)). by apply Hb2.
Qed.

(** Renaming identifiers everywhere. *)
Definition rename_listener (ρ : Z → Z) (s : Listener) : Listener := mkListener (backlog s) (ρ <$> pending s).
Definition rename (ρ : Z → Z) (l : Link) : Link :=
  mkLink (l_kind l) (ρ <$> l_peer l) (rename_listener ρ <$> l_listener l) (ρ <$> l_queued l) (ρ <$> l_retry l).

Lemma graph_rename ρ g' :
  (∀ x, ρ (ρ x) = x) → (∀ x, 1 ≤ x < n → 1 ≤ ρ x < n) → (∀ x, g' !! x = rename ρ <$> g !! ρ x) →
  graph_ok n g'.
Proof.
  intros Hρ Hr Hg'. pose proof Hg as [H1 H2 H3 H4 H5].
  assert (∀ x y, ρ x = ρ y → x = y) as Hinj by (intros x y E; rewrite <- (Hρ x), <- (Hρ y); congruence).
  assert (∀ i l, g' !! i = Some l → ∃ l0, g !! ρ i = Some l0 ∧ l = rename ρ l0) as Hback.
  { intros i l. rewrite Hg'. intros (l0 & ? & ?)%fmap_Some. eauto. }
  assert (∀ i l0, g !! i = Some l0 → g' !! ρ i = Some (rename ρ l0)) as Hforth.
  { intros i l0 Hl0. by rewrite Hg', Hρ, Hl0. }
  assert (∀ (o : option Z) x, (ρ <$> o) = Some x → o = Some (ρ x)) as Hopt.
  { intros o x (y & -> & ->)%fmap_Some. by rewrite Hρ. }
  split.
  - intros i l (l0 & Hl0 & _)%Hback. apply H1, Hr in Hl0. by rewrite Hρ in Hl0.
  - intros i l r (l0 & Hl0 & ->)%Hback Hri%Hopt. destruct (H2 _ _ _ Hl0 Hri) as (Hrr & Hn & [q Hq] & Hu).
    apply Hr in Hrr. rewrite Hρ in Hrr. split_and!; try lia.
    + by rewrite Hg', Hn.
    + simpl. rewrite Hq. simpl. eauto.
    + intros j l' (l1 & Hl1 & ->)%Hback Hrj%Hopt. by apply Hinj, (Hu _ _ Hl1 Hrj).
  - intros i l p (l0 & Hl0 & ->)%Hback Hp%Hopt. destruct (H3 _ _ _ Hl0 Hp) as (Hrr & Hx & Hy).
    apply Hr in Hrr. rewrite Hρ in Hrr. split_and!; try lia.
    + intros j l' (l1 & Hl1 & ->)%Hback Hrj%Hopt. by eapply Hx.
    + intros l' (l1 & Hl1 & ->)%Hback. destruct (Hy l1 Hl1) as [? Hb]. split; [done|].
      intros Hk. destruct (Hb Hk) as [? Hp1]. split; [congruence|]. simpl. rewrite Hp1. simpl. by rewrite Hρ.
  - intros i l s (l0 & Hl0 & ->)%Hback (s0 & Hs0 & ->)%fmap_Some. simpl.
    destruct (H4 _ _ _ Hl0 Hs0) as (-> & -> & ? & ? & Hlen & ? & Hpn). split_and!; try done; try lia.
    + unfold zlen in *. by rewrite length_fmap.
    + apply NoDup_fmap_2; [intros x y; apply Hinj|done].
    + intros p (y & -> & Hy)%list_elem_of_fmap. destruct (Hpn y Hy) as (l1 & Hl1 & E1).
      exists (rename ρ l1). split; [by apply Hforth|]. simpl. rewrite E1. simpl. by rewrite Hρ.
  - intros i l j (l0 & Hl0 & ->)%Hback Hj%Hopt. destruct (H5 _ _ _ Hl0 Hj) as ([p Hp] & l1 & s1 & Hl1 & Hs1 & Hin & ?).
    split; [simpl; rewrite Hp; simpl; eauto|]. apply Hforth in Hl1. rewrite Hρ in Hl1.
    exists (rename ρ l1), (rename_listener ρ s1). split_and!; try done; [simpl; by rewrite Hs1|].
    simpl. apply list_elem_of_fmap. exists (ρ i). by rewrite Hρ.
Qed.

(** Removing descriptions, together with the connections queued at removed
    listeners. *)
Definition prune_link (D : list Z) (l : Link) : Link :=
  with_listener ((λ s, mkListener (backlog s) (filter (λ p, p ∉ D) (pending s))) <$> l_listener l) l.

Lemma graph_prune D g' :
  (∀ i l j, g !! i = Some l → l_queued l = Some j → j ∈ D → i ∈ D) →
  (∀ x, g' !! x = if decide (x ∈ D) then None else prune_link D <$> g !! x) →
  graph_ok n g'.
Proof.
  intros HD Hg'. pose proof Hg as [H1 H2 H3 H4 H5].
  assert (∀ i l, g' !! i = Some l → ∃ l0, (i ∉ D) ∧ g !! i = Some l0 ∧ l = prune_link D l0) as Hback.
  { intros i l. rewrite Hg'. case_decide; [done|]. intros (l0 & ? & ?)%fmap_Some. eauto. }
  assert (∀ i l0, g !! i = Some l0 → i ∉ D → g' !! i = Some (prune_link D l0)) as Hforth.
  { intros i l0 Hl0 Hi. by rewrite Hg', decide_False, Hl0. }
  split.
  - intros i l (l0 & _ & Hl0 & _)%Hback. by apply H1 in Hl0.
  - intros i l r (l0 & Hi & Hl0 & ->)%Hback Hri. destruct (H2 _ _ _ Hl0 Hri) as (? & Hn & ? & Hu).
    split_and!; try done; try lia.
    + rewrite Hg', Hn. by case_decide.
    + intros j l' (l1 & _ & Hl1 & ->)%Hback Hrj. by eapply Hu.
  - intros i l p (l0 & Hi & Hl0 & ->)%Hback Hp. destruct (H3 _ _ _ Hl0 Hp) as (? & Hx & Hy).
    split_and!; try lia.
    + intros j l' (l1 & _ & Hl1 & ->)%Hback. exact (Hx _ _ Hl1).
    + intros l' (l1 & _ & Hl1 & ->)%Hback. exact (Hy _ Hl1).
  - intros i l s (l0 & Hi & Hl0 & ->)%Hback (s0 & Hs0 & ->)%fmap_Some. simpl.
    destruct (H4 _ _ _ Hl0 Hs0) as (? & ? & ? & ? & Hlen & ? & Hpn). split_and!; try done; try lia.
    + pose proof (length_filter (λ p, p ∉ D) (pending s0)). unfold zlen in *. lia.
    + by apply NoDup_filter.
    + intros p [Hp Hin]%list_elem_of_filter. destruct (Hpn p Hin) as (l1 & Hl1 & E1).
      exists (prune_link D l1). split; [by apply Hforth|done].
  - intros i l j (l0 & Hi & Hl0 & ->)%Hback Hj. destruct (H5 _ _ _ Hl0 Hj) as (? & l1 & s1 & Hl1 & Hs1 & Hin & ?).
    split; [done|]. exists (prune_link D l1), (mkListener (backlog s1) (filter (λ p, p ∉ D) (pending s1))).
    split_and!; try done; [|simpl; by rewrite Hs1|simpl; by apply list_elem_of_filter].
    apply Hforth; [done|]. intros HjD. by apply Hi, (HD i l0 j).
Qed.
End graph.

Section accept.
Context (n : Z) (g : gmap Z Link) (Hg : graph_ok n g).

(** [abort_accept]: the queued connection gets its reserved identifier. *)
Definition swap (i r x : Z) : Z := if decide (x = i) then r else if decide (x = r) then i else x.
Lemma swap_swap i r x : swap i r (swap i r x) = x.
Proof. unfold swap. repeat case_decide; congruence. Qed.
Lemma swap_other i r x : x ≠ i → x ≠ r → swap i r x = x.
Proof. intros. unfold swap. by rewrite !decide_False. Qed.
Lemma swap_left i r : swap i r i = r.
Proof. unfold swap. by rewrite decide_True. Qed.
Lemma swap_map i r (l : list Z) : i ∉ l → r ∉ l → (swap i r <$> l) = l.
Proof.
  intros Hi Hr. induction l as [|x l IH]; [done|]. rewrite not_elem_of_cons in *. csimpl.
  rewrite swap_other by naive_solver. f_equal. apply IH; tauto.
Qed.

Section abort.
Context (i r t : Z) (lq lt : Link) (s : Listener).
Hypotheses (Hi : g !! i = Some lq) (Ht : g !! t = Some lt) (Hs : l_listener lt = Some s).
Hypotheses (Hhead : head (pending s) = Some i) (Hr : l_retry lq = Some r).

Lemma abort_facts :
  l_queued lq = Some t ∧ l_kind lq ≠ Datagram ∧ l_listener lq = None ∧ i ≠ t ∧ g !! r = None ∧ i ≠ r ∧ t ≠ r ∧
  pending s = i :: drop 1 (pending s) ∧ (i ∉ drop 1 (pending s)) ∧ r ∉ pending s.
Proof.
  pose proof (gk_listener _ _ Hg t lt s Ht Hs) as (_ & Htq & Hk & _ & _ & Hnd & Hpn).
  assert (pending s = i :: drop 1 (pending s)) as Ep.
  { destruct (pending s) as [|x l]; [done|]. injection Hhead as ->. simpl. by rewrite drop_0. }
  assert (l_queued lq = Some t) as Hq.
  { destruct (Hpn i) as (l' & ? & ?); [rewrite Ep; by left|]. congruence. }
  destruct (gk_queued _ _ Hg i lq t Hi Hq) as (_ & l' & s' & Hl' & _ & _ & Hkk).
  destruct (gk_retry _ _ Hg i lq r Hi Hr) as (_ & Hn & _).
  split_and!; try done; try congruence.
  - destruct (l_listener lq) as [s0|] eqn:E; [|done]. destruct (gk_listener _ _ Hg i lq s0 Hi E) as (_ & ? & _). congruence.
  - rewrite Ep in Hnd. by apply NoDup_cons in Hnd as [? _].
  - intros (? & ? & _)%Hpn. congruence.
Qed.

(** Renaming changes no other description but the listener and the peer. *)
Lemma abort_other x l :
  g !! x = Some l → x ≠ i → x ≠ t →
  rename (swap i r) l = (if decide (l_peer lq = Some x) then with_peer (Some r) l else l).
Proof.
  intros Hx Hxi Hxt. destruct abort_facts as (Hq & Hk & Hlq & Hit & Hrn & Hir & Htr & Ep & Hnin & Hrp).
  assert ((rename_listener (swap i r) <$> l_listener l) = l_listener l) as El.
  { destruct (l_listener l) as [s0|] eqn:E; [|done]. simpl. f_equal.
    destruct (gk_listener _ _ Hg x l s0 Hx E) as (_ & _ & _ & _ & _ & _ & Hpn).
    unfold rename_listener. rewrite swap_map; [by destruct s0| |].
    - intros (l' & ? & ?)%Hpn. congruence.
    - intros (l' & ? & ?)%Hpn. congruence. }
  assert ((swap i r <$> l_queued l) = l_queued l) as Eq.
  { destruct (l_queued l) as [j|] eqn:E; [|done]. simpl. f_equal.
    destruct (gk_queued _ _ Hg x l j Hx E) as (_ & lj & sj & Hlj & Hsj & _). apply swap_other; congruence. }
  assert ((swap i r <$> l_retry l) = l_retry l) as Er.
  { destruct (l_retry l) as [j|] eqn:E; [|done]. simpl. f_equal.
    destruct (gk_retry _ _ Hg x l j Hx E) as (_ & ? & _ & Hu). apply swap_other; [congruence|].
    intros ->. by apply Hxi; symmetry; apply (Hu i lq). }
  unfold rename. rewrite El, Eq, Er. case_decide as Hd.
  - destruct (gk_peer _ _ Hg i lq x Hi Hd) as (_ & _ & Hb). destruct (Hb l Hx) as [_ Hb'].
    destruct (Hb' Hk) as [_ ->]. simpl. by rewrite swap_left.
  - destruct (l_peer l) as [p|] eqn:E; simpl; [|by rewrite <- E; destruct l].
    rewrite swap_other; [by rewrite <- E; destruct l| |].
    + intros ->. destruct (gk_peer _ _ Hg x l i Hx E) as (_ & _ & Hb). destruct (Hb lq Hi) as [Hkk Hb'].
      rewrite Hkk in Hk. by destruct (Hb' Hk) as [_ ?].
    + intros ->. destruct (gk_peer _ _ Hg x l r Hx E) as (_ & Hb & _). by apply (Hb i lq).
Qed.

Lemma graph_abort g' :
  g' !! i = None → g' !! r = Some (with_retry None lq) →
  g' !! t = Some (with_listener (Some (mkListener (backlog s) (r :: drop 1 (pending s)))) lt) →
  (∀ x, x ≠ i → x ≠ r → x ≠ t →
    g' !! x = (λ l, if decide (l_peer lq = Some x) then with_peer (Some r) l else l) <$> g !! x) →
  graph_ok n g'.
Proof.
  intros Ei Er Et Ex. destruct abort_facts as (Hq & Hk & Hlq & Hit & Hrn & Hir & Htr & Ep & Hnin & Hrp).
  destruct (gk_retry _ _ Hg i lq r Hi Hr) as (Hrr & _). pose proof (gk_range _ _ Hg i lq Hi) as Hri.
  assert (g !! t = Some lt ∧ l_peer lt = None ∧ l_queued lt = None ∧ l_retry lt = None) as (_ & Htp & Htq & Htre).
  { destruct (gk_listener _ _ Hg t lt s Ht Hs) as (? & ? & _). split_and!; try done.
    destruct (l_retry lt) as [j|] eqn:E; [|done]. destruct (gk_retry _ _ Hg t lt j Ht E) as (_ & _ & [? ?] & _). congruence. }
  pose proof (graph_unreserve _ _ Hg i lq Hi) as Hg1.
  eapply (graph_rename _ _ Hg1 (swap i r)).
  - apply swap_swap.
  - intros x Hx. unfold swap. repeat case_decide; lia.
  - intros x. destruct (decide (x = i)) as [->|Hxi]; [|destruct (decide (x = r)) as [->|Hxr];
      [|destruct (decide (x = t)) as [->|Hxt]]].
    + rewrite Ei, swap_left, lookup_insert_ne, Hrn; done.
    + assert (swap i r r = i) as -> by (unfold swap; rewrite decide_False, decide_True by done; done).
      rewrite Er, lookup_insert_eq. simpl. f_equal. unfold rename. simpl. rewrite Hlq, Hq.
      destruct (gk_queued _ _ Hg i lq t Hi Hq) as [[p Hp] _]. rewrite Hp. simpl.
      rewrite !swap_other; [unfold with_retry; by rewrite Hlq, Hq, Hp|done|done| |].
      * intros ->. destruct (gk_peer _ _ Hg i lq i Hi Hp) as (_ & _ & Hb). by destruct (proj2 (Hb lq Hi) Hk).
      * intros ->. destruct (gk_peer _ _ Hg i lq r Hi Hp) as (_ & Hb & _). by apply (Hb i lq).
    + rewrite swap_other by done. rewrite Et, lookup_insert_ne, Ht by done. simpl. f_equal.
      unfold rename, with_listener. rewrite Hs, Htp, Htq, Htre. simpl. unfold rename_listener.
      rewrite Ep. csimpl. rewrite swap_left, swap_map; [done|done|].
      rewrite Ep, not_elem_of_cons in Hrp. tauto.
    + rewrite swap_other by done. rewrite Ex, lookup_insert_ne by done.
      destruct (g !! x) as [l|] eqn:El; [|done]. simpl. f_equal. symmetry. by apply abort_other.
Qed.
End abort.
End accept.
