(* ===== verification/SocketTable.v ===== *)
(** * The invariant of the socket table

    [streams_ok] says what every table of socket descriptions satisfies:
    identifiers are distinct and never reused, connected descriptions refer
    to each other, listeners and the connections in their queues agree, and
    every queue is within its bounds.  What concerns more than one
    description is stated on [graph], the map from identifiers to the fields
    that refer to other descriptions, so that operations on queues and
    options preserve it trivially.  [world_ok] adds the ownership of the
    queued references, for arbitrary other owners. *)

From S2P Require Import Prelude SocketProtocol SocketRights SocketStream SocketRecord Socket SocketGraph.

(** ** Finding descriptions *)

Definition link (e : Endpoint) : Link :=
  mkLink (ep_kind e) (ep_peer e) (ep_listener e) (ep_pending_listener e) (ep_accept_retry e).

Fixpoint graph (es : list Endpoint) : gmap Z Link :=
  match es with [] => ∅ | e :: es => <[ep_id e := link e]> (graph es) end.

Definition ids (es : list Endpoint) : list Z := ep_id <$> es.

Lemma graph_lookup es i : graph es !! i = link <$> find_endpoint i es.
Proof.
  induction es as [|e es IH]; simpl; [by rewrite lookup_empty|].
  destruct (ep_id e =? i) eqn:E.
  - apply Z.eqb_eq in E as ->. by rewrite lookup_insert_eq.
  - rewrite lookup_insert_ne by lia. done.
Qed.
Lemma find_endpoint_id i es e : find_endpoint i es = Some e → ep_id e = i ∧ e ∈ es.
Proof.
  induction es as [|x es IH]; simpl; [done|]. destruct (ep_id x =? i) eqn:E.
  - intros [= <-]. split; [lia|by left].
  - intros [? ?]%IH. split; [done|by right].
Qed.
Lemma find_endpoint_In i es e :
  NoDup (ids es) → e ∈ es → ep_id e = i → find_endpoint i es = Some e.
Proof.
  induction es as [|x es IH]; simpl; intros Hd Hin Hi; [by apply elem_of_nil in Hin|].
  apply NoDup_cons in Hd as [Hx Hd]. apply elem_of_cons in Hin as [->|Hin].
  - by replace (ep_id x =? i) with true by lia.
  - destruct (ep_id x =? i) eqn:E; [|by apply IH]. exfalso. apply Hx.
    apply list_elem_of_fmap. exists e. split; [lia|done].
Qed.
Lemma find_endpoint_None i es : find_endpoint i es = None ↔ i ∉ ids es.
Proof.
  induction es as [|x es IH]; simpl; [set_solver|]. destruct (ep_id x =? i) eqn:E.
  - split; [done|]. intros H. exfalso. apply H, elem_of_cons. left. lia.
  - rewrite IH. unfold ids. csimpl. rewrite not_elem_of_cons. split; [|tauto].
    intros H. split; [lia|done].
Qed.
Lemma endpoint_Ok st i e : endpoint st i = Ok e ↔ find_endpoint i (entries st) = Some e.
Proof. unfold endpoint. apply ok_or_Ok. Qed.

(** Every change of one description leaves the same others. *)
Lemma alter_endpoint_split i es e :
  find_endpoint i es = Some e →
  ∃ rest, es ≡ₚ e :: rest ∧ ∀ f, alter_endpoint i f es ≡ₚ f e :: rest.
Proof.
  induction es as [|x es IH]; simpl; [done|]. destruct (ep_id x =? i).
  - intros [= <-]. by exists es.
  - intros (rest & H1 & H2)%IH. exists (x :: rest). split; [rewrite H1; apply perm_swap|].
    intros f. rewrite H2. apply perm_swap.
Qed.
Lemma alter_endpoint_None i es f : find_endpoint i es = None → alter_endpoint i f es = es.
Proof.
  induction es as [|x es IH]; simpl; [done|]. destruct (ep_id x =? i); [done|].
  intros H. by rewrite IH.
Qed.
Lemma ids_alter i f es : (∀ e, find_endpoint i es = Some e → ep_id (f e) = ep_id e) →
  ids (alter_endpoint i f es) = ids es.
Proof.
  induction es as [|x es IH]; simpl; [done|]. intros H. destruct (ep_id x =? i).
  - unfold ids. csimpl. by rewrite H.
  - unfold ids in *. csimpl. by rewrite IH.
Qed.
Lemma length_alter i f es : length (alter_endpoint i f es) = length es.
Proof. induction es as [|x es IH]; simpl; [done|]. destruct (ep_id x =? i); simpl; lia. Qed.
Lemma find_alter_eq i f es :
  (∀ e, find_endpoint i es = Some e → ep_id (f e) = ep_id e) →
  find_endpoint i (alter_endpoint i f es) = f <$> find_endpoint i es.
Proof.
  induction es as [|x es IH]; simpl; [done|]. intros H. destruct (ep_id x =? i) eqn:E; simpl.
  - rewrite H by done. by rewrite E.
  - rewrite E. by apply IH.
Qed.
Lemma find_alter_ne i j f es :
  (∀ e, find_endpoint i es = Some e → ep_id (f e) = ep_id e) → i ≠ j →
  find_endpoint j (alter_endpoint i f es) = find_endpoint j es.
Proof.
  induction es as [|x es IH]; simpl; [done|]. intros H Hij. destruct (ep_id x =? i) eqn:E; simpl.
  - rewrite H by done. by replace (ep_id x =? j) with false by lia.
  - destruct (ep_id x =? j); [done|]. by apply IH.
Qed.
Lemma find_app i es es' :
  find_endpoint i (es ++ es') =
  match find_endpoint i es with Some e => Some e | None => find_endpoint i es' end.
Proof. induction es as [|x es IH]; simpl; [done|]. by destruct (ep_id x =? i). Qed.
Lemma elem_of_alter i f es x :
  x ∈ alter_endpoint i f es → x ∈ es ∨ ∃ e, find_endpoint i es = Some e ∧ x = f e.
Proof.
  induction es as [|y es IH]; simpl; [by intros ?%elem_of_nil|].
  destruct (ep_id y =? i); intros [->|H]%elem_of_cons; eauto using list_elem_of_here, list_elem_of_further.
  destruct (IH H); eauto using list_elem_of_further.
Qed.

(** ** The invariant *)

Section table.
Context {SP : SocketProtocol}.

Record endpoint_ok (e : Endpoint) : Prop := {
  eo_kind : ep_kind e = Stream ∨ ep_kind e = Datagram ∨ ep_kind e = SequencedPacket;
  eo_records : is_Some (ep_records e) ↔ ep_kind e ≠ Stream;
  eo_stream : stream_ok (ep_incoming e);
  eo_packets q : ep_records e = Some q → records_ok q;
  eo_receive : MIN_RECEIVE_CAPACITY ≤ ep_receive_capacity e ≤ RECEIVE_CAPACITY;
  eo_send : MIN_SEND_CAPACITY ≤ ep_send_capacity e ≤ SEND_CAPACITY;
  eo_error : ep_error e = 0 ∨ ep_error e = 104;
  eo_options : Z.ldiff (ep_options e) NONBLOCKING = 0;
  eo_timeouts : ep_receive_timeout e mod 1000 = 0 ∧ ep_send_timeout e mod 1000 = 0;
}.

Record streams_ok (st : Streams) : Prop := {
  sk_distinct : NoDup (ids (entries st));
  sk_count : zlen (entries st) ≤ MAX_SOCKETS;
  sk_next : 1 ≤ next st ≤ MAX_DESCRIPTION_ID + 1;
  sk_local e : e ∈ entries st → endpoint_ok e;
  sk_graph : graph_ok (next st) (graph (entries st));
}.

Definition bundles (st : Streams) : list Bundle := entries st ≫= endpoint_bundles.

(** The references in the queues of the table, and [others]. *)
Record world_ok (A : list (Z * Z)) (others : list Bundle) (w : World) : Prop := {
  wk_streams : streams_ok (streams w);
  wk_holds : holds A (heap w) [] (bundles (streams w) ++ others);
}.

(** ** Changing one description *)

Lemma graph_alter i f es :
  (∀ e, find_endpoint i es = Some e → ep_id (f e) = ep_id e ∧ link (f e) = link e) →
  graph (alter_endpoint i f es) = graph es.
Proof.
  intros H. apply map_eq. intros j. rewrite !graph_lookup. destruct (decide (i = j)) as [<-|Hne].
  - rewrite find_alter_eq by (intros; by apply H).
    destruct (find_endpoint i es) as [e|] eqn:E; [|done]. simpl. f_equal. by apply H.
  - by rewrite find_alter_ne by (done || (intros; by apply H)).
Qed.

(** A change that keeps the description's links. *)
Lemma update_ok st i f e :
  streams_ok st → find_endpoint i (entries st) = Some e →
  endpoint_ok (f e) → ep_id (f e) = ep_id e → link (f e) = link e → streams_ok (update i f st).
Proof.
  intros [H1 H2 H3 H4 H5] He Hf Hid Hl.
  assert (∀ e', find_endpoint i (entries st) = Some e' → ep_id (f e') = ep_id e' ∧ link (f e') = link e') as Hq
    by (intros ? [= <-]%(eq_trans (eq_sym He)); done).
  split; simpl.
  - rewrite ids_alter; [done|]. intros. by apply Hq.
  - unfold zlen. by rewrite length_alter.
  - done.
  - intros x [Hx|(e' & He' & ->)]%elem_of_alter; [by apply H4|]. rewrite He in He'. by injection He' as <-.
  - by rewrite graph_alter.
Qed.
Lemma find_ok st i e : streams_ok st → find_endpoint i (entries st) = Some e → endpoint_ok e.
Proof. intros Hst [_ Hin]%find_endpoint_id. by apply (sk_local _ Hst). Qed.

(** The references before and after a change of one description. *)
Lemma bundles_split st i e :
  find_endpoint i (entries st) = Some e →
  ∃ rest, bundles st ≡ₚ endpoint_bundles e ++ rest ∧
    ∀ f, bundles (update i f st) ≡ₚ endpoint_bundles (f e) ++ rest.
Proof.
  intros (rest & H1 & H2)%alter_endpoint_split. exists (rest ≫= endpoint_bundles).
  split; [|intros f]; unfold bundles, update; simpl; [rewrite H1|rewrite H2]; done.
Qed.

(** A change of one description that moves references between its queues,
    the heap and the other owners. *)
Lemma update_world_ok A others others' w h i f e :
  world_ok A others w → find_endpoint i (entries (streams w)) = Some e →
  endpoint_ok (f e) → ep_id (f e) = ep_id e → link (f e) = link e →
  (∀ rest, holds A (heap w) [] (endpoint_bundles e ++ rest ++ others) →
     holds A h [] (endpoint_bundles (f e) ++ rest ++ others')) →
  world_ok A others' (mkWorld h (update i f (streams w))).
Proof.
  intros [Hs Hh] He Hf Hid Hl Hstep. split; simpl; [by eapply update_ok|].
  destruct (bundles_split _ _ _ He) as (rest & H1 & H2). rewrite H2, <- app_assoc.
  apply Hstep. by rewrite H1, <- app_assoc in Hh.
Qed.

(** A change that does not concern references. *)
Lemma update_quiet_ok A others w i f e :
  world_ok A others w → find_endpoint i (entries (streams w)) = Some e →
  endpoint_ok (f e) → ep_id (f e) = ep_id e → link (f e) = link e →
  endpoint_bundles (f e) = endpoint_bundles e →
  world_ok A others (update_world i f w).
Proof. intros Hw He Hf Hid Hl Hb. eapply update_world_ok; try done. intros rest. by rewrite Hb. Qed.

(** ** Changing the links *)

Lemma graph_update i f e es :
  find_endpoint i es = Some e → ep_id (f e) = ep_id e →
  graph (alter_endpoint i f es) = <[i := link (f e)]> (graph es).
Proof.
  intros He Hid.
  assert (∀ e', find_endpoint i es = Some e' → ep_id (f e') = ep_id e') as Hq
    by (intros ? [= <-]%(eq_trans (eq_sym He)); done).
  apply map_eq. intros j. rewrite graph_lookup. destruct (decide (i = j)) as [<-|Hne].
  - by rewrite find_alter_eq, He, lookup_insert_eq.
  - by rewrite find_alter_ne, lookup_insert_ne, graph_lookup.
Qed.
Lemma update_link_ok st i f e n :
  streams_ok st → find_endpoint i (entries st) = Some e →
  endpoint_ok (f e) → ep_id (f e) = ep_id e →
  1 ≤ n ≤ MAX_DESCRIPTION_ID + 1 → graph_ok n (<[i := link (f e)]> (graph (entries st))) →
  streams_ok (mkStreams n (alter_endpoint i f (entries st))).
Proof.
  intros [H1 H2 H3 H4 H5] He Hf Hid Hn Hg. split; simpl; try done.
  - rewrite ids_alter; [done|]. by intros ? [= <-]%(eq_trans (eq_sym He)).
  - unfold zlen. by rewrite length_alter.
  - intros x [Hx|(e' & He' & ->)]%elem_of_alter; [by apply H4|]. rewrite He in He'. by injection He' as <-.
  - by rewrite (graph_update i f e).
Qed.

Lemma graph_app es e :
  ep_id e ∉ ids es → graph (es ++ [e]) = <[ep_id e := link e]> (graph es).
Proof.
  intros Hn. apply map_eq. intros j. rewrite graph_lookup, find_app. simpl.
  destruct (decide (ep_id e = j)) as [<-|Hne].
  - apply find_endpoint_None in Hn. by rewrite Hn, Z.eqb_refl, lookup_insert_eq.
  - rewrite lookup_insert_ne, graph_lookup by done. replace (ep_id e =? j) with false by lia.
    by destruct (find_endpoint j es).
Qed.

(** Identifiers that were not given out yet are free. *)
Lemma fresh_id st i : streams_ok st → next st ≤ i → i ∉ ids (entries st).
Proof.
  intros Hst Hi Hin. apply list_elem_of_fmap in Hin as (e & -> & Hin).
  pose proof (find_endpoint_In _ _ _ (sk_distinct _ Hst) Hin eq_refl) as Hf.
  destruct (gk_range _ _ (sk_graph _ Hst) (ep_id e) (link e)); [|lia].
  by rewrite graph_lookup, Hf.
Qed.

Lemma app_ok st e n :
  streams_ok st → endpoint_ok e → ep_id e = next st → zlen (entries st) < MAX_SOCKETS →
  1 ≤ n ≤ MAX_DESCRIPTION_ID + 1 →
  graph_ok n (<[ep_id e := link e]> (graph (entries st))) →
  streams_ok (mkStreams n (entries st ++ [e])).
Proof.
  intros Hst He Hid Hc Hn Hg. pose proof (fresh_id st (ep_id e) Hst) as Hf.
  destruct Hst as [H1 H2 H3 H4 H5]. split; simpl; try done.
  - unfold ids. rewrite fmap_app. apply NoDup_app. split_and!; [done| |apply NoDup_singleton].
    intros x Hx Hx'. apply list_elem_of_singleton in Hx' as ->. apply Hf; [lia|done].
  - rewrite zlen_app, zlen_cons, zlen_nil. unfold MAX_SOCKETS in *. lia.
  - intros x [Hx|Hx%list_elem_of_singleton]%elem_of_app; [by apply H4|by subst].
  - rewrite graph_app; [done|]. apply Hf. lia.
Qed.

(** ** Fresh descriptions *)

Lemma fresh_endpoint_ok i k peer creds opts :
  k = Stream ∨ k = Datagram ∨ k = SequencedPacket → Z.ldiff opts NONBLOCKING = 0 →
  endpoint_ok (fresh_endpoint i k peer creds opts).
Proof.
  intros Hk Ho. split; simpl; try done; try (by left); try apply stream_new_ok.
  - case_bool_decide; naive_solver.
  - case_bool_decide; [done|]. intros q [= <-]. apply records_new_ok.
Qed.
Lemma fresh_endpoint_bundles i k peer creds opts :
  endpoint_bundles (fresh_endpoint i k peer creds opts) = [].
Proof. unfold endpoint_bundles. simpl. by case_bool_decide. Qed.

Lemma validate_create_Ok request :
  validate_create request = Ok tt →
  Z.ldiff (create_options request) NONBLOCKING = 0 ∧ domain request = Unix ∧ protocol request = 0 ∧
  (create_kind request = Stream ∨ create_kind request = Datagram ∨ create_kind request = SequencedPacket).
Proof.
  unfold validate_create. intros H. inv_result.
  repeat match goal with H : _ && _ = true |- _ => apply andb_true_iff in H as [? ?] end.
  split_and!; try lia; [by eapply bool_decide_eq_true_1|]. destruct (create_kind request); tauto || done.
Qed.
End table.
