(* ===== verification/SocketOps.v ===== *)
(** * The operations of the socket table preserve its invariant

    One lemma per operation of [posix/src/socket.rs]: from a well-formed
    table each ends in a well-formed one, on every path, and the references
    in the queues are neither lost nor duplicated.  Operations that do not
    touch references are specified by [quietly]; the others by [world_ok],
    with the references they take from or give to their caller as other
    owners. *)

From S2P Require Import Prelude SocketProtocol SocketRights SocketStream SocketRecord.
From S2P Require Import Socket SocketGraph SocketTable.

Lemma map_err_Ok {E F A} (f : E → F) (r : result E A) a : map_err f r = Ok a ↔ r = Ok a.
Proof. destruct r; naive_solver. Qed.

(** Invert the checks of an operation that succeeded. *)
Ltac inv_socket :=
  inv_result;
  repeat match goal with
  | H : map_err _ _ = Ok _ |- _ => apply map_err_Ok in H
  | H : endpoint _ _ = Ok _ |- _ => apply endpoint_Ok in H
  | H : negb _ = true |- _ => apply negb_true_iff in H
  | H : bool_decide _ = true |- _ => apply bool_decide_eq_true_1 in H
  | H : bool_decide _ = false |- _ => apply bool_decide_eq_false_1 in H
  | H : _ && _ = true |- _ => apply andb_true_iff in H as [? ?]
  | H : _ || _ = false |- _ => apply orb_false_iff in H as [? ?]
  | H : ¬ is_Some _ |- _ => apply eq_None_not_Some in H
  end.

Section ops.
Context {SP : SocketProtocol}.

(** The table stays well-formed and its queues keep their references. *)
Definition quietly (st st' : Streams) : Prop := streams_ok st' ∧ bundles st' ≡ₚ bundles st.

Lemma quietly_refl st : streams_ok st → quietly st st.
Proof. by split. Qed.
Lemma quietly_trans st1 st2 st3 : quietly st1 st2 → quietly st2 st3 → quietly st1 st3.
Proof. intros [_ H1] [H2 H3]. split; [done|by rewrite H3]. Qed.
Lemma quietly_world A others w st : world_ok A others w → quietly (streams w) st → world_ok A others (mkWorld (heap w) st).
Proof. intros [H1 H2] [H3 H4]. split; simpl; [done|by rewrite H4]. Qed.

Lemma update_quietly st i f e :
  streams_ok st → find_endpoint i (entries st) = Some e →
  endpoint_ok (f e) → ep_id (f e) = ep_id e → link (f e) = link e →
  endpoint_bundles (f e) = endpoint_bundles e → quietly st (update i f st).
Proof.
  intros Hst He Hf Hid Hl Hb. split; [by eapply update_ok|].
  destruct (bundles_split _ _ _ He) as (rest & H1 & H2). by rewrite H2, Hb, H1.
Qed.

Lemma update_id st i f e : find_endpoint i (entries st) = Some e → f e = e → update i f st = st.
Proof.
  intros He Hf. destruct st as [nx es]. unfold update. simpl in *. f_equal. revert He.
  induction es as [|x es IH]; simpl; [done|]. destruct (ep_id x =? i).
  - intros [= ->]. by rewrite Hf.
  - intros H. by rewrite IH.
Qed.

(** Solve [endpoint_ok] after setting fields. *)
Ltac set_ok H := destruct H; constructor; simpl; eauto.

Lemma create_quietly alloc request creds st :
  streams_ok st →
  match create alloc request creds st with
  | (st', Ok id) => quietly st st' ∧ id = next st ∧ validate_create request = Ok tt ∧
      entries st' = entries st ++ [fresh_endpoint id (create_kind request) None creds (create_options request)]
  | (st', Err _) => st' = st
  end.
Proof.
  intros Hst. unfold create. destruct (validate_create request) as [[]|] eqn:Ev; [|done].
  destruct (_ || _) eqn:E; [done|]. destruct alloc; simpl; [|done]. split_and!; try done.
  apply orb_false_iff in E as [E1 E2]. apply validate_create_Ok in Ev as (Ho & _ & _ & Hk).
  pose proof (sk_count _ Hst). pose proof (sk_next _ Hst).
  split.
  - apply app_ok; try done; [by apply fresh_endpoint_ok|unfold MAX_SOCKETS in *; lia|lia|].
    apply (graph_create _ _ (sk_graph _ Hst)). lia.
  - unfold bundles. simpl. rewrite bind_app. simpl. by rewrite fresh_endpoint_bundles, !app_nil_r.
Qed.

Lemma create_pair_quietly alloc request creds st :
  streams_ok st →
  match create_pair alloc request creds st with
  | (st', Ok (i, j)) => quietly st st' ∧ i = next st ∧ j = i + 1 ∧ validate_create request = Ok tt ∧
      entries st' = entries st ++
        [fresh_endpoint i (create_kind request) (Some j) creds (create_options request);
         fresh_endpoint j (create_kind request) (Some i) creds (create_options request)]
  | (st', Err _) => st' = st
  end.
Proof.
  intros Hst. unfold create_pair. destruct (validate_create request) as [[]|] eqn:Ev; [|done].
  destruct (_ >? _) eqn:E1; [done|].
  destruct (option_keep _ _) as [second|] eqn:E2; [|done]. destruct alloc; simpl; [|done].
  unfold checked_add in E2. destruct (_ <=? U64_MAX); simpl in E2; [|done].
  destruct (_ <=? MAX_DESCRIPTION_ID) eqn:E3; [|done]. injection E2 as <-. split_and!; try done.
  apply validate_create_Ok in Ev as (Ho & _ & _ & Hk). pose proof (sk_next _ Hst).
  set (e1 := fresh_endpoint (next st) _ _ _ _). set (e2 := fresh_endpoint (next st + 1) _ _ _ _).
  split; [|by unfold bundles; simpl; rewrite bind_app; simpl;
    unfold e1, e2; rewrite !fresh_endpoint_bundles, !app_nil_r].
  set (f1 := fresh_endpoint (next st) (create_kind request) None creds (create_options request)).
  set (f2 := fresh_endpoint (next st + 1) (create_kind request) None creds (create_options request)).
  assert (next st ∉ ids (entries st)) as Hn1 by (apply fresh_id; [done|lia]).
  assert (next st + 1 ∉ ids (entries st)) as Hn2 by (apply fresh_id; [done|lia]).
  assert (graph (entries st ++ [e1; e2]) =
    <[next st := link e1]> (<[next st + 1 := link e2]> (graph (entries st)))) as Hgr.
  { change [e1; e2] with ([e1] ++ [e2]). rewrite app_assoc, graph_app, graph_app by
      (simpl; rewrite ?fmap_app; unfold ids in *; rewrite ?fmap_app; set_solver by lia).
    simpl. by rewrite insert_insert_ne by lia. }
  destruct Hst as [H1 H2 H3 H4 H5]. split; simpl; try lia.
  - unfold ids. rewrite fmap_app. apply NoDup_app. split_and!; [done| |].
    + intros x Hx Hx'. simpl in Hx'. set_solver.
    + simpl. apply NoDup_cons. split; [|apply NoDup_singleton]. rewrite list_elem_of_singleton. lia.
  - rewrite zlen_app. change (zlen [e1; e2]) with 2. lia.
  - intros x [Hx|Hx]%elem_of_app; [by apply H4|]. simpl in Hx.
    apply elem_of_cons in Hx as [Hx|Hx%list_elem_of_singleton]; subst x; by apply fresh_endpoint_ok.
  - rewrite Hgr.
    pose proof (graph_create _ _ H5 (create_kind request) ltac:(lia)) as G1.
    pose proof (graph_create _ _ G1 (create_kind request) ltac:(lia)) as G2.
    replace (next st + 1 + 1) with (next st + 2) in * by lia.
    pose proof (graph_join _ _ G2 (next st) (link f1) (next st + 1) (link f2)) as G3.
    rewrite lookup_insert_ne, lookup_insert_eq, lookup_insert_eq in G3 by lia.
    replace (<[next st:=link e1]> (<[next st + 1:=link e2]> (graph (entries st))))
      with (<[next st:=with_peer (Some (next st + 1)) (link f1)]> (<[next st + 1:=with_peer (Some (next st)) (link f2)]>
        (<[next st + 1:=mkLink (create_kind request) None None None None]>
          (<[next st:=mkLink (create_kind request) None None None None]> (graph (entries st)))))).
    { apply G3; try done. lia. }
    rewrite insert_insert_eq, (insert_insert_ne _ (next st + 1) (next st)) by lia. by rewrite insert_insert_eq.
Qed.

(** ** Options *)

Lemma clamp_range x low high : low ≤ high → low ≤ clamp x low high ≤ high.
Proof. unfold clamp. lia. Qed.

Lemma take_error_quietly id st : streams_ok st → quietly st (fst (take_error id st)).
Proof.
  intros Hst. unfold take_error. destruct (endpoint st id) as [e|] eqn:E; [|by apply quietly_refl].
  apply endpoint_Ok in E. pose proof (find_ok _ _ _ Hst E) as He.
  eapply update_quietly; try done. set_ok He.
Qed.

Lemma set_receive_capacity_quietly id requested st :
  streams_ok st → quietly st (fst (set_receive_capacity_of id requested st)).
Proof.
  intros Hst. unfold set_receive_capacity_of. destruct (endpoint st id) as [e|] eqn:E; [|by apply quietly_refl].
  apply endpoint_Ok in E. pose proof (find_ok _ _ _ Hst E) as He.
  destruct (requested >? I32_MAX); [by apply quietly_refl|].
  assert (MIN_RECEIVE_CAPACITY ≤ clamp requested MIN_RECEIVE_CAPACITY RECEIVE_CAPACITY ≤ RECEIVE_CAPACITY) as Hc
    by (apply clamp_range; unfold MIN_RECEIVE_CAPACITY, RECEIVE_CAPACITY; lia).
  destruct (ep_records e) as [q|] eqn:Eq.
  - pose proof (set_capacity_ok requested q (eo_packets _ He q Eq)) as Hq.
    assert (records (fst (set_capacity requested q)) = records q) as Hr
      by (unfold set_capacity; by destruct (_ >? _)).
    destruct (set_capacity requested q) as [q' r]. simpl in *.
    eapply update_quietly; try done.
    + destruct He as [? Hrec ? ? ? ? ? ? ?]. rewrite Eq in Hrec. constructor; simpl; eauto.
      * rewrite <- Hrec. split; eauto.
      * intros q0 [= <-]. destruct r; [by apply Hq|]. destruct Hq as [-> _]. eauto.
    + unfold endpoint_bundles. simpl. rewrite Eq. unfold record_bundles. by rewrite Hr.
  - simpl. eapply update_quietly; try done. set_ok He.
Qed.

Lemma set_options_quietly id opts st : streams_ok st → quietly st (fst (set_options_of id opts st)).
Proof.
  intros Hst. unfold set_options_of. destruct (endpoint st id) as [e|] eqn:E; [|by apply quietly_refl].
  apply endpoint_Ok in E. pose proof (find_ok _ _ _ Hst E) as He.
  destruct (_ =? 0) eqn:Eo; simpl; [|by apply quietly_refl]. eapply update_quietly; try done. set_ok He. lia.
Qed.
Lemma set_receive_timeout_quietly id ns st : streams_ok st → quietly st (fst (set_receive_timeout_of id ns st)).
Proof.
  intros Hst. unfold set_receive_timeout_of. destruct (endpoint st id) as [e|] eqn:E; [|by apply quietly_refl].
  apply endpoint_Ok in E. pose proof (find_ok _ _ _ Hst E) as He.
  destruct (_ =? 0) eqn:Eo; simpl; [|by apply quietly_refl]. eapply update_quietly; try done. set_ok He.
  destruct eo_timeouts. split; [lia|done].
Qed.
Lemma set_send_timeout_quietly id ns st : streams_ok st → quietly st (fst (set_send_timeout_of id ns st)).
Proof.
  intros Hst. unfold set_send_timeout_of. destruct (endpoint st id) as [e|] eqn:E; [|by apply quietly_refl].
  apply endpoint_Ok in E. pose proof (find_ok _ _ _ Hst E) as He.
  destruct (_ =? 0) eqn:Eo; simpl; [|by apply quietly_refl]. eapply update_quietly; try done. set_ok He.
  destruct eo_timeouts. split; [done|lia].
Qed.
Lemma set_send_capacity_quietly id requested st :
  streams_ok st → quietly st (fst (set_send_capacity_of id requested st)).
Proof.
  intros Hst. unfold set_send_capacity_of. destruct (endpoint st id) as [e|] eqn:E; [|by apply quietly_refl].
  apply endpoint_Ok in E. pose proof (find_ok _ _ _ Hst E) as He.
  destruct (_ >? _); simpl; [by apply quietly_refl|]. eapply update_quietly; try done. set_ok He.
  apply clamp_range. unfold MIN_SEND_CAPACITY, SEND_CAPACITY. lia.
Qed.

(** ** Byte streams *)

(** How much a stream accepts now. *)
Definition stream_room (sender receiver : Endpoint) : Z :=
  saturating_sub (Z.min (ep_receive_capacity receiver) (ep_send_capacity sender)) (stream_len (ep_incoming receiver)).

(** [write] appends the accepted prefix to the peer's queue, or changes
    nothing. *)
Lemma write_spec alloc id input st :
  streams_ok st →
  match write alloc id input st with
  | (st', Ok n) => quietly st st' ∧
      (n = 0 ∧ st' = st ∧ input = [] ∨
       ∃ e peer r q, find_endpoint id (entries st) = Some e ∧ ep_peer e = Some peer ∧
         find_endpoint peer (entries st) = Some r ∧ st' = update peer (set_incoming q) st ∧
         n = Z.min (zlen input) (stream_room e r) ∧ 0 < n ∧ stream_ok q ∧
         items q = items (ep_incoming r) ++ sent_items (take (Z.to_nat n) input) None)
  | (st', Err _) => st' = st
  end.
Proof.
  intros Hst. unfold write. destruct (endpoint st id) as [e|] eqn:E; [|done].
  apply endpoint_Ok in E. case_bool_decide; [done|]. destruct (ep_write_shutdown e); [done|].
  destruct (ep_peer e) as [peer|] eqn:Ep; [|done]. destruct (endpoint st peer) as [r|] eqn:Er; [|done].
  apply endpoint_Ok in Er. pose proof (find_ok _ _ _ Hst Er) as Hr. destruct (ep_read_shutdown r); [done|].
  destruct (zlen input =? 0) eqn:E0.
  { split; [by apply quietly_refl|]. left. split_and!; try done. destruct input; [done|].
    rewrite zlen_cons in E0. pose proof (zlen_nonneg input). lia. }
  fold (stream_room e r). set (count := Z.min (zlen input) (stream_room e r)).
  destruct (count =? 0) eqn:E1; [done|].
  pose proof (stream_write_spec alloc (take (Z.to_nat count) input) (ep_incoming r) (eo_stream _ Hr)) as Hw.
  assert (0 ≤ count ≤ zlen input) as Hc by (unfold count, stream_room, saturating_sub; pose proof (zlen_nonneg input); lia).
  destruct (stream_write _ _ _) as [q [n|err]].
  - destruct Hw as (_ & -> & _ & Hi & Hq & Hb). rewrite zlen_take, Z.min_l by lia. split.
    + eapply update_quietly; try done; [by set_ok Hr|]. unfold endpoint_bundles. simpl. by rewrite Hb.
    + right. exists e, peer, r, q. split_and!; try done. lia.
  - destruct Hw as [-> _]. eapply update_id; [done|]. by destruct r.
Qed.

Lemma stream_send_length_Ok st id length rights n :
  stream_send_length st id length rights = Ok n → 0 ≤ length →
  (∃ e peer r, find_endpoint id (entries st) = Some e ∧ ep_records e = None ∧ ep_peer e = Some peer ∧
    find_endpoint peer (entries st) = Some r ∧ ep_read_shutdown r = false ∧ 0 ≤ n ≤ length ∧
    (length = 0 ∧ n = 0 ∨ 0 < n ∧ n = Z.min length (stream_room e r) ∧
      (rights = true → zlen (markers (ep_incoming r)) < MAX_MARKERS))).
Proof.
  unfold stream_send_length. intros H Hl. inv_socket.
  match goal with He : find_endpoint id _ = Some ?e, Hr : find_endpoint ?p _ = Some ?r |- _ =>
    lazymatch r with e => fail | _ => exists e, p, r; fold (stream_room e r) in * end end.
  assert (0 ≤ stream_room x x3) by (unfold stream_room, saturating_sub; lia).
  assert (0 ≤ n ≤ length ∧ (length = 0 ∧ n = 0 ∨ 0 < n ∧ n = Z.min length (stream_room x x3) ∧
    (rights = true → zlen (markers (ep_incoming x3)) < MAX_MARKERS))) as [? ?]; [|split_and!; done || lia].
  destruct (length =? 0) eqn:E0; inv_result; [lia|].
  destruct (_ || _) eqn:E1; inv_result. apply orb_false_iff in E1 as [E1 E2].
  split; [lia|]. right. split_and!; try lia. intros ->. simpl in E2. unfold can_attach_rights in E2. lia.
Qed.
Lemma stream_read_count_quietly id length offset st :
  streams_ok st →
  let '(st', r) := stream_read_count id length offset st in
  quietly st st' ∧ (∀ n, r = Ok n → st' = st).
Proof.
  intros Hst. unfold stream_read_count. pose proof (quietly_refl st Hst) as Hq.
  destruct (readiness st id) as [ready|]; [|by split].
  destruct (endpoint st id) as [e|] eqn:E; [|by split]. apply endpoint_Ok in E.
  pose proof (find_ok _ _ _ Hst E) as He. case_bool_decide; [by split|].
  destruct (_ || _); [by split|]. case_bool_decide; [by split|].
  destruct (_ && _); [|by case_ifs; split]. split; [|done].
  eapply update_quietly; try done. set_ok He.
Qed.

(** The queue of one description, apart from everything else. *)
Lemma set_incoming_ok A others others' w h id e q :
  world_ok A others w → find_endpoint id (entries (streams w)) = Some e → stream_ok q →
  (∀ rest, holds A (heap w) [] (stream_bundles (ep_incoming e) ++ rest ++ others) →
     holds A h [] (stream_bundles q ++ rest ++ others')) →
  world_ok A others' (mkWorld h (update id (set_incoming q) (streams w))).
Proof.
  intros Hw He Hq Hstep. pose proof (find_ok _ _ _ (wk_streams _ _ _ Hw) He) as Hok.
  eapply update_world_ok; try done; [by set_ok Hok|]. intros rest. unfold endpoint_bundles. simpl.
  rewrite <- !app_assoc. intros Hh. rewrite !(app_assoc _ rest). apply Hstep. by rewrite <- app_assoc.
Qed.
Lemma set_records_ok A others others' w h id e q q' :
  world_ok A others w → find_endpoint id (entries (streams w)) = Some e → ep_records e = Some q → records_ok q' →
  (∀ rest, holds A (heap w) [] (record_bundles q ++ rest ++ others) →
     holds A h [] (record_bundles q' ++ rest ++ others')) →
  world_ok A others' (mkWorld h (update id (set_records (Some q')) (streams w))).
Proof.
  intros Hw He Eq Hq Hstep. pose proof (find_ok _ _ _ (wk_streams _ _ _ Hw) He) as Hok.
  eapply update_world_ok; try done.
  - destruct Hok as [? Hrec ? ? ? ? ? ? ?]. rewrite Eq in Hrec. constructor; simpl; eauto.
    + rewrite <- Hrec. split; eauto.
    + by intros q0 [= <-].
  - intros rest. unfold endpoint_bundles. simpl. rewrite Eq.
    rewrite <- !app_assoc, (Permutation_app_swap_app (stream_bundles _)). intros Hh.
    rewrite (Permutation_app_swap_app (stream_bundles _)).
    specialize (Hstep (stream_bundles (ep_incoming e) ++ rest)). rewrite <- !app_assoc in Hstep. by apply Hstep.
Qed.

(** What the world owns, seen from one queue. *)
Lemma world_stream A others w id e :
  world_ok A others w → find_endpoint id (entries (streams w)) = Some e →
  ∃ rest, holds A (heap w) [] (stream_bundles (ep_incoming e) ++ rest ++ others).
Proof.
  intros [_ Hh] (rest & H1 & _)%bundles_split. unfold endpoint_bundles in H1.
  exists (match ep_records e with Some q => record_bundles q | None => [] end ++ rest).
  rewrite H1 in Hh. owned_by Hh.
Qed.
Lemma world_records A others w id e q :
  world_ok A others w → find_endpoint id (entries (streams w)) = Some e → ep_records e = Some q →
  ∃ rest, holds A (heap w) [] (record_bundles q ++ rest ++ others).
Proof.
  intros [_ Hh] (rest & H1 & _)%bundles_split Eq. unfold endpoint_bundles in H1. rewrite Eq in H1.
  exists (stream_bundles (ep_incoming e) ++ rest). rewrite H1 in Hh. owned_by Hh.
Qed.

(** *** Sending and receiving bytes *)

Lemma commit_stream_ok A others alloc id input rights w :
  world_ok A (rights :: others) w → whole rights →
  match commit_stream_with_rights alloc id input rights w with
  | (w', Ok (n, _)) => world_ok A others w'
  | (w', Err (_, rights')) => w' = w ∧ rights' = rights
  end.
Proof.
  intros Hw Hwh. unfold commit_stream_with_rights.
  destruct (stream_send_length _ _ _ _) as [count|] eqn:El; [|done].
  set (peer := if count =? 0 then id else _).
  destruct (endpoint (streams w) peer) as [r|] eqn:Er; [|done]. apply endpoint_Ok in Er.
  pose proof (find_ok _ _ _ (wk_streams _ _ _ Hw) Er) as Hr.
  set (data := take (Z.to_nat count) input).
  destruct (write_with_rights alloc data rights (ep_incoming r) (heap w)) as [[q h] res] eqn:Ew.
  assert (∀ bs, holds A (heap w) [] (stream_bundles (ep_incoming r) ++ bs ++ rights :: others) →
    match res with
    | Ok _ => stream_ok q ∧ holds A h [] (stream_bundles q ++ bs ++ others)
    | Err (_, rights') => q = ep_incoming r ∧ h = heap w ∧ rights' = rights
    end) as Hspec.
  { intros bs Hh. pose proof (write_with_rights_spec A alloc data rights (ep_incoming r) (heap w) [] (bs ++ others)
      (eo_stream _ Hr) Hwh ltac:(owned_by Hh)) as Hs. rewrite Ew in Hs. destruct res as [n|[e rights']]; naive_solver. }
  destruct res as [n|[e rights']].
  - eapply (set_incoming_ok A (rights :: others)); [done|done| |intros bs Hh; by apply Hspec].
    destruct (world_stream _ _ _ _ _ Hw Er) as [rest Hh]. by eapply Hspec.
  - destruct (world_stream _ _ _ _ _ Hw Er) as [rest Hh]. destruct (Hspec rest Hh) as (-> & -> & ->).
    split; [|done]. destruct w as [h st]. simpl in *. f_equal. eapply update_id; [done|]. by destruct r.
Qed.

Lemma read_owned_holds A output q h bs q' output' n r :
  stream_ok q → read_owned output q = (q', output', (n, r)) →
  holds A h [] (stream_bundles q ++ bs) →
  stream_ok q' ∧ holds A h [] (option_list r ++ stream_bundles q' ++ bs) ∧ (∀ b, r = Some b → whole b).
Proof.
  intros Hq E Hh. pose proof (read_owned_spec output q Hq) as Hs. rewrite E in Hs.
  destruct Hs as (_ & _ & _ & _ & Hok & Hb & _). split_and!; [done|by rewrite Hb, <- app_assoc in Hh|].
  intros b ->. apply (stream_whole q); [done|]. rewrite Hb. simpl. by left.
Qed.

Lemma receive_stream_ok A others id output offset w :
  world_ok A others w → world_ok A others (fst (fst (receive_stream id output offset w))).
Proof.
  intros Hw. unfold receive_stream.
  pose proof (stream_read_count_quietly id (zlen output) (default 0 offset) _ (wk_streams _ _ _ Hw)) as Hc.
  destruct (stream_read_count _ _ _ _) as [st [count|]]; destruct Hc as [Hq Hst]; [|by apply quietly_world].
  rewrite (Hst count eq_refl) in *. clear Hst Hq.
  assert (mkWorld (heap w) (streams w) = w) as Ew by by destruct w. rewrite Ew.
  destruct (endpoint (streams w) id) as [e|] eqn:E; [|done]. apply endpoint_Ok in E.
  pose proof (find_ok _ _ _ (wk_streams _ _ _ Hw) E) as He.
  destruct offset as [off|]; [by destruct (stream_peek _ _ _)|]. unfold stream_read.
  destruct (read_owned _ _) as [[q data] [n r]] eqn:Er. simpl.
  apply (set_incoming_ok A others _ _ _ _ e); try done.
  - destruct (world_stream _ _ _ _ _ Hw E) as [rest Hh].
    by apply (read_owned_holds _ _ _ _ _ _ _ _ _ (eo_stream _ He) Er) in Hh as [? _].
  - intros rest Hh. apply (read_owned_holds _ _ _ _ _ _ _ _ _ (eo_stream _ He) Er) in Hh as (_ & Hh & _).
    by apply drop_option_holds.
Qed.

Lemma read_stream_with_rights_ok A others id output w :
  world_ok A others w →
  match read_stream_with_rights id output w with
  | (w', _, Ok (_, r)) => world_ok A (option_list r ++ others) w' ∧ ∀ b, r = Some b → whole b
  | (w', _, Err _) => world_ok A others w'
  end.
Proof.
  intros Hw. unfold read_stream_with_rights.
  pose proof (stream_read_count_quietly id (zlen output) 0 _ (wk_streams _ _ _ Hw)) as Hc.
  destruct (stream_read_count _ _ _ _) as [st [count|]]; destruct Hc as [Hq Hst]; [|by apply quietly_world].
  rewrite (Hst count eq_refl) in *. clear Hst Hq.
  assert (mkWorld (heap w) (streams w) = w) as Ew by by destruct w.
  destruct (endpoint (streams w) id) as [e|] eqn:E; [|by rewrite Ew]. apply endpoint_Ok in E.
  pose proof (find_ok _ _ _ (wk_streams _ _ _ Hw) E) as He.
  destruct (read_owned _ _) as [[q data] [n r]] eqn:Er.
  destruct (world_stream _ _ _ _ _ Hw E) as [rest Hh].
  apply (read_owned_holds _ _ _ _ _ _ _ _ _ (eo_stream _ He) Er) in Hh as (Hq & _ & Hwh). split; [|done].
  apply (set_incoming_ok A others _ _ _ _ e); try done.
  intros rest' Hh'. apply (read_owned_holds _ _ _ _ _ _ _ _ _ (eo_stream _ He) Er) in Hh' as (_ & Hh' & _).
  owned_by Hh'.
Qed.

Lemma shutdown_ok A others id how w : world_ok A others w → world_ok A others (fst (shutdown id how w)).
Proof.
  intros Hw. unfold shutdown. destruct (endpoint (streams w) id) as [e|] eqn:E; [|done]. apply endpoint_Ok in E.
  pose proof (find_ok _ _ _ (wk_streams _ _ _ Hw) E) as He. destruct (ep_peer e) as [p|] eqn:Ep; [|done].
  set (cleared := match ep_records e with Some q => Some (fst (records_clear q (heap w))) | None => None end).
  set (h' := drop_bundles (match ep_records e with Some q => record_bundles q | None => [] end)
    (drop_bundles (stream_bundles (ep_incoming e)) (heap w))).
  assert (∀ rest, holds A (heap w) [] (endpoint_bundles e ++ rest ++ others) → holds A h' [] (rest ++ others)) as Hd.
  { intros rest Hh. unfold endpoint_bundles in Hh. rewrite <- app_assoc in Hh. by apply drop_bundles_holds, drop_bundles_holds. }
  assert (is_Some cleared ↔ ep_kind e ≠ Stream) as Hrec.
  { rewrite <- (eo_records _ He). unfold cleared. destruct (ep_records e); split; eauto. }
  assert (∀ q, cleared = Some q → records_ok q) as Hcl.
  { unfold cleared. destruct (ep_records e) as [q0|] eqn:Eq; [|done]. intros q [= <-].
    destruct (eo_packets _ He q0 Eq) as [? ? ? ? ?]. split; simpl; try done. by intros r b ?%elem_of_nil. }
  assert (stream_ok (mkQueue [] [])) as Hs by apply stream_new_ok.
  assert (∀ ro wo, endpoint_ok (set_write_shutdown wo (set_records cleared (set_incoming (mkQueue [] []) (set_read_shutdown ro e))))) as Hok.
  { intros ro wo. destruct He. constructor; simpl; eauto. }
  destruct how; simpl.
  - destruct (ep_records e) as [q|] eqn:Eq; simpl; (eapply (update_world_ok A others); [done|done| |done|done|];
      [specialize (Hok true (ep_write_shutdown e)); unfold cleared in Hok; destruct e; simpl in *; subst; exact Hok|]).
    + intros rest Hh. unfold endpoint_bundles. simpl. rewrite drop_packets_bundles. by apply Hd.
    + intros rest Hh. unfold endpoint_bundles. simpl. rewrite Eq. by apply Hd.
  - eapply (update_world_ok A others); try done. by set_ok He.
  - destruct (ep_records e) as [q|] eqn:Eq; simpl; (eapply (update_world_ok A others); [done|done| |done|done|];
      [specialize (Hok true true); unfold cleared in Hok; destruct e; simpl in *; subst; exact Hok|]).
    + intros rest Hh. unfold endpoint_bundles. simpl. rewrite drop_packets_bundles. by apply Hd.
    + intros rest Hh. unfold endpoint_bundles. simpl. rewrite Eq. by apply Hd.
Qed.
(** ** Listening, connecting and accepting *)

(** A change of the links of a table that keeps its descriptions. *)
Lemma update_link_quietly st i f e n :
  streams_ok st → find_endpoint i (entries st) = Some e →
  endpoint_ok (f e) → ep_id (f e) = ep_id e → endpoint_bundles (f e) = endpoint_bundles e →
  1 ≤ n ≤ MAX_DESCRIPTION_ID + 1 → graph_ok n (<[i := link (f e)]> (graph (entries st))) →
  quietly st (mkStreams n (alter_endpoint i f (entries st))).
Proof.
  intros Hst He Hf Hid Hb Hn Hg. split; [by eapply update_link_ok|].
  destruct (bundles_split _ _ _ He) as (rest & H1 & H2). specialize (H2 f). unfold update, bundles in *. simpl in *.
  by rewrite H2, Hb, H1.
Qed.

Lemma listen_quietly alloc id requested st : streams_ok st → quietly st (fst (listen alloc id requested st)).
Proof.
  intros Hst. unfold listen. pose proof (quietly_refl st Hst) as Hq.
  destruct (endpoint st id) as [e|] eqn:E; [|done]. apply endpoint_Ok in E.
  pose proof (find_ok _ _ _ Hst E) as He. case_bool_decide as Hk; [done|]. case_bool_decide as Hp; [done|].
  destruct alloc; simpl; [|done]. apply eq_None_not_Some in Hp.
  eapply update_link_quietly; try done; [by set_ok He|apply Hst|].
  apply (graph_listen _ _ (sk_graph _ Hst) id (link e)); try done.
  - by rewrite graph_lookup, E.
  - apply clamp_range. unfold MAX_BACKLOG. lia.
Qed.

Lemma begin_accept_spec listener st :
  streams_ok st →
  match begin_accept listener st with
  | (st', Ok t) => quietly st st' ∧ next st' = next st + 1 ∧ ticket_listener t = listener ∧
      ticket_retry t = next st ∧ validate_accept st' t = Ok tt
  | (st', Err _) => st' = st
  end.
Proof.
  intros Hst. unfold begin_accept. destruct (endpoint st listener ≫= _) as [waiting|] eqn:E; [|done].
  inv_socket. simpl. rename x into e, x0 into l. pose proof (sk_next _ Hst).
  match goal with H : find_endpoint waiting _ = Some ?q |- _ => rename q into qd; rename H into Hq end.
  match goal with H : find_endpoint listener _ = Some _ |- _ => rename H into Hl end.
  match goal with H : ep_pending_listener _ = _ |- _ => rename H into Hpl end.
  assert (waiting ≠ listener) as Hne.
  { intros ->. rewrite Hl in Hq. injection Hq as <-.
    destruct (gk_listener _ _ (sk_graph _ Hst) listener (link e) l) as (_ & ? & _); [by rewrite graph_lookup, Hl|done|].
    simpl in *. congruence. }
  split_and!; try done.
  - pose proof (find_ok _ _ _ Hst Hq) as Hqd.
    eapply (update_link_quietly st); try done; [by set_ok Hqd|simpl; lia|].
    apply (graph_reserve _ _ (sk_graph _ Hst) waiting (link qd)); [lia|by rewrite graph_lookup, Hq|].
    simpl. rewrite Hpl. eauto.
  - unfold validate_accept, endpoint. simpl.
    rewrite find_alter_eq, Hq by done. simpl. rewrite find_alter_ne, Hl by done. simpl.
    match goal with H : ep_listener e = Some l |- _ => rewrite H end. simpl.
    repeat (rewrite bool_decide_true; [|done]). done.
Qed.
(** Two changes at once. *)
Lemma update2_quietly st i t f h ei et :
  streams_ok st → i ≠ t → find_endpoint i (entries st) = Some ei → find_endpoint t (entries st) = Some et →
  endpoint_ok (f et) → ep_id (f et) = ep_id et → endpoint_bundles (f et) = endpoint_bundles et →
  endpoint_ok (h ei) → ep_id (h ei) = ep_id ei → endpoint_bundles (h ei) = endpoint_bundles ei →
  graph_ok (next st) (<[t := link (f et)]> (<[i := link (h ei)]> (graph (entries st)))) →
  quietly st (update i h (update t f st)).
Proof.
  intros Hst Hne Hi Ht Hf Hfid Hfb Hh Hhid Hhb Hg.
  assert (∀ e', find_endpoint t (entries st) = Some e' → ep_id (f e') = ep_id e') as Hq
    by (intros ? [= <-]%(eq_trans (eq_sym Ht)); done).
  assert (find_endpoint i (entries (update t f st)) = Some ei) as Hi' by (simpl; by rewrite find_alter_ne).
  split.
  - destruct Hst as [H1 H2 H3 H4 H5]. split; simpl; try done.
    + rewrite !ids_alter; [done|done|]. intros e'. simpl in Hi'. rewrite Hi'. by intros [= <-].
    + unfold zlen. by rewrite !length_alter.
    + intros x [[Hx|(e' & He' & ->)]%elem_of_alter|(e' & He' & ->)]%elem_of_alter; [by apply H4| |].
      * rewrite Ht in He'. by injection He' as <-.
      * simpl in Hi'. rewrite Hi' in He'. by injection He' as <-.
    + simpl in Hi'. rewrite (graph_update i h ei), (graph_update t f et) by done.
      by rewrite insert_insert_ne.
  - destruct (bundles_split _ _ _ Ht) as (rest & H1 & H2).
    destruct (bundles_split _ _ _ Hi') as (rest' & H1' & H2').
    by rewrite H2', Hhb, <- H1', H2, Hfb, H1.
Qed.

Lemma validate_accept_Ok st t :
  validate_accept st t = Ok tt →
  ∃ q l s, find_endpoint (ticket_endpoint t) (entries st) = Some q ∧
    find_endpoint (ticket_listener t) (entries st) = Some l ∧ ep_listener l = Some s ∧
    head (pending s) = Some (ticket_endpoint t) ∧ ep_pending_listener q = Some (ticket_listener t) ∧
    ep_accept_retry q = Some (ticket_retry t).
Proof. unfold validate_accept. intros H. inv_socket. eauto 10. Qed.

Lemma head_filter (i : Z) l : NoDup l → head l = Some i → filter (λ p, p ≠ i) l = drop 1 l.
Proof.
  destruct l as [|x l]; [done|]. intros [Hx Hd]%NoDup_cons [= ->]. rewrite filter_cons_False by naive_solver.
  simpl. rewrite drop_0. clear Hd. induction l as [|y l IH]; [done|].
  rewrite not_elem_of_cons in Hx. rewrite filter_cons_True by naive_solver. f_equal. apply IH. tauto.
Qed.

Lemma head_elem (i : Z) l : head l = Some i → i ∈ l.
Proof. destruct l; [done|]. intros [= ->]. by left. Qed.

(** The listener and the connection of a valid ticket are two descriptions. *)
Lemma ticket_distinct st t q l s :
  streams_ok st → find_endpoint (ticket_endpoint t) (entries st) = Some q →
  find_endpoint (ticket_listener t) (entries st) = Some l → ep_listener l = Some s →
  ep_pending_listener q = Some (ticket_listener t) → ticket_endpoint t ≠ ticket_listener t.
Proof.
  intros Hst Hq Hl Hs Hp E. rewrite E, Hl in Hq. injection Hq as <-.
  destruct (gk_listener _ _ (sk_graph _ Hst) (ticket_listener t) (link l) s) as (_ & Hn & _);
    [by rewrite graph_lookup, Hl|done|]. simpl in Hn. congruence.
Qed.

Lemma commit_accept_spec t creds opts st :
  streams_ok st →
  match commit_accept t creds opts st with
  | (st', Ok i) => quietly st st' ∧ i = ticket_endpoint t ∧ validate_accept st t = Ok tt
  | (st', Err _) => st' = st
  end.
Proof.
  intros Hst. unfold commit_accept. destruct (Z.ldiff opts NONBLOCKING =? 0) eqn:Eo; simpl; [|done].
  destruct (validate_accept st t) as [[]|] eqn:Ev; [|done]. split_and!; try done.
  apply validate_accept_Ok in Ev as (q & l & s & Hq & Hl & Hs & Hh & Hp & Hr).
  pose proof (ticket_distinct _ _ _ _ _ Hst Hq Hl Hs Hp) as Hne.
  pose proof (find_ok _ _ _ Hst Hq) as Hqo. pose proof (find_ok _ _ _ Hst Hl) as Hlo.
  assert (graph (entries st) !! ticket_endpoint t = Some (link q)) as Gq by by rewrite graph_lookup, Hq.
  assert (graph (entries st) !! ticket_listener t = Some (link l)) as Gl by by rewrite graph_lookup, Hl.
  pose proof (gk_listener _ _ (sk_graph _ Hst) _ _ s Gl Hs) as (_ & _ & _ & _ & _ & Hnd & _).
  eapply (update2_quietly st); try done; unfold set_pending; rewrite ?Hs.
  - by set_ok Hlo.
  - done.
  - done.
  - set_ok Hqo. lia.
  - pose proof (graph_unreserve _ _ (sk_graph _ Hst) _ _ Gq) as G1.
    pose proof (graph_dequeue _ _ G1 (ticket_endpoint t) (with_retry None (link q)) (ticket_listener t) (link l) s) as G2.
    rewrite lookup_insert_eq, lookup_insert_ne, (head_filter _ _ Hnd Hh), insert_insert_eq in G2 by done.
    apply G2; try done. by apply head_elem.
Qed.
Lemma alter_app i f es es' e :
  find_endpoint i es = Some e → alter_endpoint i f (es ++ es') = alter_endpoint i f es ++ es'.
Proof.
  induction es as [|x es IH]; simpl; [done|]. destruct (ep_id x =? i); [done|]. intros H. by rewrite IH.
Qed.

(** The connection graph after a connection has been queued. *)
Lemma graph_connect n g c lc t lt s :
  graph_ok n g → 1 ≤ n → g !! c = Some lc → g !! t = Some lt → c ≠ t →
  l_peer lc = None → l_listener lc = None → l_listener lt = Some s → l_kind lc = l_kind lt →
  zlen (pending s) < backlog s →
  graph_ok (n + 1) (<[n := mkLink (l_kind lt) (Some c) None (Some t) None]>
    (<[t := with_listener (Some (mkListener (backlog s) (pending s ++ [n]))) lt]>
      (<[c := with_peer (Some n) lc]> g))).
Proof.
  intros Hg Hn Hc Ht Hct Hcp Hcl Hts Hk Hroom.
  assert (c ≠ n) as Hcn by (intros ->; by rewrite (fresh_none n g Hg) in Hc).
  assert (t ≠ n) as Htn by (intros ->; by rewrite (fresh_none n g Hg) in Ht).
  pose proof (graph_create n g Hg (l_kind lt) Hn) as G1.
  pose proof (graph_join _ _ G1 c lc n (mkLink (l_kind lt) None None None None)) as G2.
  rewrite lookup_insert_ne, lookup_insert_eq in G2 by done.
  specialize (G2 Hc eq_refl Hcn Hk Hcp eq_refl Hcl eq_refl).
  pose proof (graph_enqueue _ _ G2 n (mkLink (l_kind lt) (Some c) None None None) t lt s) as G3.
  rewrite lookup_insert_ne, lookup_insert_eq, !lookup_insert_ne in G3 by done.
  specialize (G3 eq_refl Ht Hts ltac:(eauto) eq_refl eq_refl Hroom).
  match type of G3 with graph_ok _ ?X => match goal with |- graph_ok _ ?Y => replace Y with X; [done|] end end.
  apply map_eq. intros x. destruct (decide (x = n)) as [->|Hxn]; [|destruct (decide (x = t)) as [->|Hxt];
    [|destruct (decide (x = c)) as [->|Hxc]]].
  - by rewrite lookup_insert_ne, !lookup_insert_eq.
  - by rewrite lookup_insert_eq, lookup_insert_ne, lookup_insert_eq.
  - by rewrite !lookup_insert_ne, !lookup_insert_eq, ?lookup_insert_ne, ?lookup_insert_eq by done.
  - by rewrite !lookup_insert_ne by done.
Qed.

(** The endpoint that [connect_internal] queues, and the table after it. *)
Definition queued_endpoint (id client listener : Z) (cn ln : option SocketName) (l : Endpoint) : Endpoint :=
  mkEndpoint id (ep_kind l) (Some client) (ep_credentials l) stream_new
    (if bool_decide (ep_kind l = SequencedPacket) then Some records_new else None)
    (ep_receive_capacity l) (ep_send_capacity l) (ep_receive_timeout l) (ep_send_timeout l)
    0 false false 0 None (Some listener) None ln cn.
Definition connected_client (id : Z) (cn ln : option SocketName) (c : Endpoint) : Endpoint :=
  set_peer_name ln (set_local_name cn (set_peer (Some id) c)).
Definition connected (client listener : Z) (cn ln : option SocketName) (l : Endpoint) (s : Listener) (st : Streams) : Streams :=
  mkStreams (next st + 1)
    (alter_endpoint client (connected_client (next st) cn ln)
       (alter_endpoint listener (set_listener (Some (mkListener (backlog s) (pending s ++ [next st])))) (entries st))
     ++ [queued_endpoint (next st) client listener cn ln l]).

Record connectable (client listener : Z) (st : Streams) (c l : Endpoint) (s : Listener) : Prop := {
  cb_client : find_endpoint client (entries st) = Some c;
  cb_listener : find_endpoint listener (entries st) = Some l;
  cb_backlog : ep_listener l = Some s;
  cb_distinct : client ≠ listener;
  cb_unconnected : ep_peer c = None ∧ ep_listener c = None;
  cb_kind : ep_kind c = ep_kind l ∧ ep_kind c ≠ Datagram;
  cb_room : zlen (pending s) < backlog s;
  cb_table : zlen (entries st) ≠ MAX_SOCKETS ∧ next st ≤ MAX_DESCRIPTION_ID;
}.

Lemma connect_internal_connected alloc client listener cn ln st st' i :
  connect_internal alloc client listener cn ln st = (st', Ok i) →
  i = next st ∧ ∃ c l s, connectable client listener st c l s ∧ st' = connected client listener cn ln l s st.
Proof.
  unfold connect_internal. destruct (check_connect st client ≫= _) as [[l s]|] eqn:E; [|done]. intros [= <- <-].
  unfold check_connect, kind, fmap, result_fmap in E. inv_socket.
  destruct (endpoint st client) as [c|] eqn:Ec; [|done]. inv_socket.
  match goal with H : find_endpoint client _ = Some ?x, Ec : find_endpoint client _ = Some c |- _ =>
    lazymatch x with c => fail | _ => rewrite Ec in H; injection H as <- end end.
  split; [done|]. exists c, l, s.
  assert (find_endpoint client (alter_endpoint listener
    (set_listener (Some (mkListener (backlog s) (pending s ++ [next st])))) (entries st)) = Some c) as Hc1
    by (rewrite find_alter_ne by (done || lia); done).
  split; [split; try done; try lia|].
  unfold connected, update. simpl. f_equal. by erewrite alter_app.
Qed.

Section connected.
Context (client listener : Z) (cn ln : option SocketName) (st : Streams) (c l : Endpoint) (s : Listener).
Context (Hst : streams_ok st) (Hcb : connectable client listener st c l s).

Let f1 := set_listener (Some (mkListener (backlog s) (pending s ++ [next st]))).
Let f3 := connected_client (next st) cn ln.
Let others := alter_endpoint client f3 (alter_endpoint listener f1 (entries st)).
Let acc := queued_endpoint (next st) client listener cn ln l.

Lemma connected_middle : find_endpoint client (alter_endpoint listener f1 (entries st)) = Some c.
Proof. destruct Hcb. rewrite find_alter_ne by (done || congruence). done. Qed.
Lemma connected_ids : ids others = ids (entries st).
Proof. unfold others. rewrite !ids_alter; [done|by intros|by intros]. Qed.
Lemma connected_fresh : next st ∉ ids (entries st).
Proof. destruct (cb_table _ _ _ _ _ _ Hcb). by apply fresh_id. Qed.
Lemma queued_endpoint_ok : endpoint_ok acc.
Proof.
  destruct (cb_kind _ _ _ _ _ _ Hcb) as [Ek Hkd]. rewrite Ek in Hkd.
  destruct (find_ok _ _ _ Hst (cb_listener _ _ _ _ _ _ Hcb)) as [Hk ? ? ? ? ? ? ? ?].
  constructor; simpl; eauto using stream_new_ok; try (by left).
  - case_bool_decide as Hb; [split; [rewrite Hb; done|eauto]|].
    split; [by intros [? ?]|]. intros ?. by destruct Hk as [|[|]].
  - case_bool_decide; [|done]. intros q [= <-]. apply records_new_ok.
Qed.

Lemma connected_find :
  find_endpoint (next st) (entries (connected client listener cn ln l s st)) = Some acc ∧
  find_endpoint client (entries (connected client listener cn ln l s st)) = Some (f3 c) ∧
  find_endpoint listener (entries (connected client listener cn ln l s st)) = Some (f1 l).
Proof.
  pose proof connected_fresh as Hf. pose proof connected_ids as Hids. pose proof connected_middle as Hc1. destruct Hcb.
  unfold connected. simpl. fold f1 f3. split_and!.
  - rewrite find_app, (proj2 (find_endpoint_None _ _)) by (by fold others; rewrite Hids). simpl. by rewrite Z.eqb_refl.
  - by rewrite find_app, find_alter_eq, Hc1 by done.
  - rewrite find_app, find_alter_ne, find_alter_eq, cb_listener0 by done. done.
Qed.

Lemma connected_quietly : quietly st (connected client listener cn ln l s st).
Proof.
  pose proof connected_fresh as Hfr. pose proof connected_ids as Hids. pose proof connected_middle as Hc1.
  pose proof queued_endpoint_ok as Hacc. pose proof (sk_next _ Hst) as Hn.
  destruct Hcb as [Ec Hl Hs Hne (Hcp & Hcl) (Hk & Hkd) Hroom (Hcnt & Hnx)].
  pose proof (find_ok _ _ _ Hst Ec) as Hco. pose proof (find_ok _ _ _ Hst Hl) as Hlo.
  assert (graph others = <[listener := link (f1 l)]> (<[client := link (f3 c)]> (graph (entries st)))) as Hgr.
  { unfold others. rewrite (graph_update client f3 c), (graph_update listener f1 l) by done. by rewrite insert_insert_ne. }
  split.
  - destruct Hst as [H1 H2 H3 H4 H5]. unfold connected. fold f1 f3 others acc. split; simpl; try lia.
    + unfold ids in *. rewrite fmap_app, Hids. apply NoDup_app. split_and!; [done| |apply NoDup_singleton].
      by intros x Hx ->%list_elem_of_singleton.
    + unfold zlen, others in *. rewrite length_app, !length_alter. simpl. unfold MAX_SOCKETS in *. lia.
    + intros x [[[Hx|(e' & He' & ->)]%elem_of_alter|(e' & He' & ->)]%elem_of_alter|Hx%list_elem_of_singleton]%elem_of_app.
      * by apply H4.
      * rewrite Hl in He'. injection He' as <-. by set_ok Hlo.
      * rewrite Hc1 in He'. injection He' as <-. by set_ok Hco.
      * by subst.
    + rewrite graph_app, Hgr by by rewrite Hids. unfold acc, f1, f3. cbn [ep_id link].
      apply (graph_connect (next st) (graph (entries st)) client (link c) listener (link l) s); simpl; try done; try lia.
      * by rewrite graph_lookup, Ec.
      * by rewrite graph_lookup, Hl.
  - unfold bundles, connected. simpl. rewrite bind_app.
    destruct (bundles_split st listener l Hl) as (rest & B1 & B2). specialize (B2 f1).
    destruct (bundles_split (update listener f1 st) client c Hc1) as (rest' & B3 & B4). specialize (B4 f3).
    unfold bundles, update in *. simpl in *. fold f1 f3. rewrite B4. change (endpoint_bundles (f3 c)) with (endpoint_bundles c).
    rewrite <- B3, B2. change (endpoint_bundles (f1 l)) with (endpoint_bundles l). rewrite <- B1.
    unfold endpoint_bundles, queued_endpoint. simpl. case_bool_decide; simpl; by rewrite app_nil_r.
Qed.
End connected.

Lemma connect_internal_spec alloc client listener cn ln st :
  streams_ok st →
  match connect_internal alloc client listener cn ln st with
  | (st', Ok i) => quietly st st' ∧ i = next st ∧ next st' = i + 1 ∧
      ∃ c l s, connectable client listener st c l s ∧
        find_endpoint i (entries st') = Some (queued_endpoint i client listener cn ln l) ∧
        find_endpoint client (entries st') = Some (connected_client i cn ln c) ∧
        find_endpoint listener (entries st') = Some (set_listener (Some (mkListener (backlog s) (pending s ++ [i]))) l)
  | (st', Err _) => st' = st
  end.
Proof.
  intros Hst. destruct (connect_internal alloc client listener cn ln st) as [st' [i|e]] eqn:E.
  - apply connect_internal_connected in E as (-> & c & l & s & Hcb & ->).
    destruct (connected_find client listener cn ln st c l s Hst Hcb) as (? & ? & ?).
    split_and!; [by eapply connected_quietly|done|done|]. by exists c, l, s.
  - revert E. unfold connect_internal. destruct (check_connect st client ≫= _) as [[l s]|]; [done|]. by intros [= <- _].
Qed.
(** A description that changes its identifier. *)
Lemma find_rename i r f es e j :
  NoDup (ids es) → find_endpoint i es = Some e → ep_id (f e) = r → r ∉ ids es →
  find_endpoint j (alter_endpoint i f es) =
  if decide (j = r) then Some (f e) else if decide (j = i) then None else find_endpoint j es.
Proof.
  intros Hd He Hr Hn. unfold ids in *. induction es as [|x es IH]; csimpl in *; [done|].
  apply NoDup_cons in Hd as [Hx Hd]. apply not_elem_of_cons in Hn as [Hrx Hn].
  destruct (ep_id x =? i) eqn:E.
  - injection He as ->. simpl. rewrite Hr. repeat case_decide.
    + by replace (r =? j) with true by lia.
    + replace (r =? j) with false by lia. apply find_endpoint_None. unfold ids.
      replace j with (ep_id e) by lia. done.
    + replace (r =? j) with false by lia. by replace (ep_id e =? j) with false by lia.
  - simpl. destruct (ep_id x =? j) eqn:Ej; [|by apply IH]. rewrite !decide_False by lia. done.
Qed.
Lemma ids_rename i r f es e :
  find_endpoint i es = Some e → ep_id (f e) = r → ids (alter_endpoint i f es) ⊆ r :: ids es ∧
  (NoDup (ids es) → r ∉ ids es → NoDup (ids (alter_endpoint i f es))).
Proof.
  unfold ids. induction es as [|x es IH]; csimpl; [done|]. destruct (ep_id x =? i).
  - intros [= ->] Hr. csimpl. rewrite Hr. split; [set_solver|].
    intros [? ?]%NoDup_cons [? ?]%not_elem_of_cons. by apply NoDup_cons.
  - intros He Hr. destruct (IH He Hr) as [H1 H2]. csimpl. split; [set_solver|].
    intros [Hx Hd]%NoDup_cons [? Hn]%not_elem_of_cons. apply NoDup_cons. split; [|by apply H2].
    intros Hin. apply H1 in Hin. apply elem_of_cons in Hin as [Hin|Hin]; [by symmetry in Hin|done].
Qed.

Lemma find_update_ne j i f st : (∀ e, ep_id (f e) = ep_id e) → i ≠ j →
  find_endpoint j (entries (update i f st)) = find_endpoint j (entries st).
Proof. intros Hf Hne. apply find_alter_ne; [by intros|done]. Qed.
Lemma find_update_eq i f st : (∀ e, ep_id (f e) = ep_id e) →
  find_endpoint i (entries (update i f st)) = f <$> find_endpoint i (entries st).
Proof. intros Hf. apply find_alter_eq. by intros. Qed.
Lemma bundles_update i f st :
  (∀ e, endpoint_bundles (f e) = endpoint_bundles e) → bundles (update i f st) ≡ₚ bundles st.
Proof.
  intros Hf. destruct (find_endpoint i (entries st)) as [e|] eqn:E.
  - destruct (bundles_split _ _ _ E) as (rest & H1 & H2). by rewrite H2, Hf, H1.
  - unfold update, bundles. simpl. by rewrite alter_endpoint_None.
Qed.
Lemma set_pending_bundles f e : endpoint_bundles (set_pending f e) = endpoint_bundles e.
Proof. unfold set_pending. by destruct (ep_listener e). Qed.
Lemma set_pending_id f e : ep_id (set_pending f e) = ep_id e.
Proof. unfold set_pending. by destruct (ep_listener e). Qed.
Lemma set_pending_ok f e : endpoint_ok e → endpoint_ok (set_pending f e).
Proof. intros He. unfold set_pending. destruct (ep_listener e); [by set_ok He|done]. Qed.

(** An accept in progress: the queued connection, the listener and the peer
    of the connection are different descriptions. *)
Record ticketed (t : AcceptTicket) (st : Streams) (q l : Endpoint) (s : Listener) (p : Z) : Prop := {
  tf_queued : find_endpoint (ticket_endpoint t) (entries st) = Some q;
  tf_listener : find_endpoint (ticket_listener t) (entries st) = Some l;
  tf_backlog : ep_listener l = Some s;
  tf_head : head (pending s) = Some (ticket_endpoint t);
  tf_pending : ep_pending_listener q = Some (ticket_listener t);
  tf_retry : ep_accept_retry q = Some (ticket_retry t);
  tf_peer : ep_peer q = Some p;
  tf_fresh : ticket_retry t ∉ ids (entries st);
  tf_others : p ≠ ticket_endpoint t ∧ p ≠ ticket_retry t ∧ p ≠ ticket_listener t;
  tf_ticket : ticket_endpoint t ≠ ticket_retry t ∧ ticket_listener t ≠ ticket_retry t ∧ ticket_endpoint t ≠ ticket_listener t;
}.

Lemma ticket_facts t st : streams_ok st → validate_accept st t = Ok tt → ∃ q l s p, ticketed t st q l s p.
Proof.
  intros Hst (q & l & s & Hq & Hl & Hs & Hh & Hp & Hr)%validate_accept_Ok.
  pose proof (ticket_distinct _ _ _ _ _ Hst Hq Hl Hs Hp) as Hne. pose proof (sk_graph _ Hst) as Hg.
  assert (graph (entries st) !! ticket_endpoint t = Some (link q)) as Gq by by rewrite graph_lookup, Hq.
  assert (graph (entries st) !! ticket_listener t = Some (link l)) as Gl by by rewrite graph_lookup, Hl.
  destruct (abort_facts _ _ Hg _ (ticket_retry t) _ (link q) (link l) s Gq Gl Hs Hh Hr)
    as (_ & Hk & Hlq & _ & Hrn & Hir & Htr & _ & _ & _).
  destruct (gk_queued _ _ Hg _ (link q) _ Gq Hp) as [[p Hpq] _]. simpl in Hpq.
  destruct (gk_peer _ _ Hg _ (link q) p Gq Hpq) as (_ & Hpr & Hpb).
  exists q, l, s, p. split; try done.
  - apply find_endpoint_None. rewrite graph_lookup in Hrn. by apply fmap_None in Hrn.
  - split_and!; [intros ->; by destruct (proj2 (Hpb _ Gq) Hk)|intros ->; by apply (Hpr _ (link q) Gq)|].
    intros ->. destruct (proj2 (Hpb _ Gl) Hk) as [_ Hpl].
    destruct (gk_listener _ _ Hg _ (link l) s Gl Hs) as [? _]. congruence.
Qed.

(** The table after an accept was put back. *)
Definition put_back (t : AcceptTicket) (p : Z) (st : Streams) : Streams :=
  update p (set_peer (Some (ticket_retry t)))
    (update (ticket_listener t) (set_pending (λ l, ticket_retry t :: drop 1 l))
      (update (ticket_endpoint t) (λ e, set_accept_retry None (set_id (ticket_retry t) e)) st)).

Lemma put_back_find t st q l s p j :
  streams_ok st → ticketed t st q l s p →
  find_endpoint j (entries (put_back t p st)) =
    if decide (j = p) then set_peer (Some (ticket_retry t)) <$> find_endpoint p (entries st)
    else if decide (j = ticket_listener t) then Some (set_pending (λ l, ticket_retry t :: drop 1 l) l)
    else if decide (j = ticket_retry t) then Some (set_accept_retry None (set_id (ticket_retry t) q))
    else if decide (j = ticket_endpoint t) then None else find_endpoint j (entries st).
Proof.
  intros Hst [Hq Hl Hs Hh Hp Hr Hpq Hf (? & ? & ?) (? & ? & ?)]. unfold put_back.
  set (f1 := λ e : Endpoint, set_accept_retry None (set_id (ticket_retry t) e)).
  assert (∀ j, find_endpoint j (entries (update (ticket_endpoint t) f1 st)) =
    if decide (j = ticket_retry t) then Some (f1 q)
    else if decide (j = ticket_endpoint t) then None else find_endpoint j (entries st)) as F1.
  { intros k. apply find_rename; try done. apply Hst. }
  destruct (decide (j = p)) as [->|Hjp].
  - rewrite find_update_eq, find_update_ne, F1, !decide_False by (done || apply set_pending_id). done.
  - rewrite find_update_ne by done. destruct (decide (j = ticket_listener t)) as [->|Hjt].
    + rewrite find_update_eq by apply set_pending_id. rewrite F1, !decide_False, Hl by done. done.
    + by rewrite find_update_ne, F1 by (done || apply set_pending_id).
Qed.

Lemma put_back_local t st q l s p x :
  streams_ok st → ticketed t st q l s p → x ∈ entries (put_back t p st) → endpoint_ok x.
Proof.
  intros Hst [Hq _ _ _ _ _ _ _ _ _] Hx. unfold put_back in Hx. simpl in Hx.
  set (st1 := update (ticket_endpoint t) (λ e, set_accept_retry None (set_id (ticket_retry t) e)) st) in *.
  assert (∀ y, y ∈ entries st1 → endpoint_ok y) as Hok1.
  { intros y [Hy|(e' & He' & ->)]%elem_of_alter; [by apply Hst|].
    rewrite Hq in He'. injection He' as <-. pose proof (find_ok _ _ _ Hst Hq) as Hok. by set_ok Hok. }
  apply elem_of_alter in Hx as [[Hx|(e' & He' & ->)]%elem_of_alter|(e' & He' & ->)]; [by apply Hok1| |].
  - apply find_endpoint_id in He' as [_ He']. by apply set_pending_ok, Hok1.
  - apply find_endpoint_id in He' as [_ [He'|(e2 & He2 & ->)]%elem_of_alter].
    + pose proof (Hok1 _ He') as Hok. by set_ok Hok.
    + apply find_endpoint_id in He2 as [_ He2].
      pose proof (set_pending_ok (λ l, ticket_retry t :: drop 1 l) _ (Hok1 _ He2)) as Hok. by set_ok Hok.
Qed.

Lemma put_back_quietly t st q l s p : streams_ok st → ticketed t st q l s p → quietly st (put_back t p st).
Proof.
  intros Hst Hf. pose proof (λ j, put_back_find _ _ _ _ _ _ j Hst Hf) as F. pose proof (λ x, put_back_local _ _ _ _ _ _ x Hst Hf) as Hlc.
  destruct Hf as [Hq Hl Hs Hh Hp Hr Hpq Hf (? & ? & ?) (? & ? & ?)].
  set (f1 := λ e : Endpoint, set_accept_retry None (set_id (ticket_retry t) e)) in *.
  pose proof (ids_rename (ticket_endpoint t) (ticket_retry t) f1 (entries st) q Hq eq_refl) as [Hsub Hnd].
  split; [split; try apply Hst|].
  - unfold put_back, update at 1. cbn [entries]. rewrite ids_alter by by intros. unfold update at 1. cbn [entries].
    rewrite ids_alter by (intros; apply set_pending_id). apply Hnd; [apply Hst|done].
  - unfold zlen, put_back. simpl. rewrite !length_alter. apply Hst.
  - exact Hlc.
  - apply (graph_abort _ _ (sk_graph _ Hst) (ticket_endpoint t) (ticket_retry t) (ticket_listener t) (link q) (link l) s); try done.
    + by rewrite graph_lookup, Hq.
    + by rewrite graph_lookup, Hl.
    + rewrite graph_lookup, F, !decide_False by done. by rewrite decide_True.
    + rewrite graph_lookup, F, !decide_False by done. by rewrite decide_True.
    + rewrite graph_lookup, F, decide_False, decide_True by done. unfold set_pending. by rewrite Hs.
    + intros x Hxi Hxr Hxt. rewrite !graph_lookup, F. simpl. rewrite Hpq. destruct (decide (x = p)) as [->|Hxp].
      * destruct (find_endpoint p (entries st)); simpl; [|done]. by rewrite decide_True.
      * rewrite !decide_False by done. destruct (find_endpoint x (entries st)); simpl; [|done].
        by rewrite decide_False by congruence.
  - unfold put_back. rewrite bundles_update by done. rewrite bundles_update by apply set_pending_bundles.
    by rewrite bundles_update.
Qed.

(** [abort_accept] renames the connection, keeps it first in the queue and
    keeps its data; the identity of the failed object is free. *)
Lemma abort_accept_spec t st :
  streams_ok st →
  match abort_accept t st with
  | (st', Ok r) => quietly st st' ∧ r = ticket_retry t ∧ validate_accept st t = Ok tt ∧ next st' = next st ∧
      (ticket_endpoint t ∉ ids (entries st')) ∧
      ∃ q l s p, ticketed t st q l s p ∧ st' = put_back t p st
  | (st', Err _) => st' = st
  end.
Proof.
  intros Hst. unfold abort_accept. destruct (validate_accept st t) as [[]|] eqn:Ev; [|done].
  destruct (ticket_facts _ _ Hst Ev) as (q & l & s & p & Hf). pose proof Hf as [Hq _ _ _ _ _ Hpq _ (? & ? & ?) (? & ? & ?)].
  unfold mbind, result_bind, endpoint. rewrite Hq. simpl. rewrite Hpq. fold (put_back t p st).
  split_and!; try done; [by eapply put_back_quietly| |by exists q, l, s, p].
  apply find_endpoint_None. rewrite (put_back_find _ _ _ _ _ _ _ Hst Hf), !decide_False by done. by rewrite decide_True.
Qed.
End ops.
