(* ===== verification/SocketRelease.v ===== *)
(** * Releasing a socket description

    [Streams::release] removes a description, the connections nobody
    accepted at it, and its place in the queue of a listener; it drops the
    references in the removed queues and tells the peers.  In between the
    table is not well-formed; [partial_ok] is what holds there. *)

From S2P Require Import Prelude SocketProtocol SocketRights SocketStream SocketRecord.
From S2P Require Import Socket SocketGraph SocketTable SocketOps.

Lemma remove_endpoint_None st id : remove_endpoint id st = None ↔ find_endpoint id (entries st) = None.
Proof.
  unfold remove_endpoint. rewrite find_endpoint_None. unfold ids.
  destruct (iter_position _ _) as [k|] eqn:E; simpl.
  - apply iter_position_Some in E as (x & Hx & Hp & _). rewrite Hx. simpl. split; [done|].
    intros Hn. exfalso. apply Hn, list_elem_of_fmap. exists x. split; [lia|by eapply list_elem_of_lookup_2].
  - split; [|done]. intros _ (x & Hx & Hin)%list_elem_of_fmap.
    pose proof (proj1 (iter_position_None _ _) E x Hin). simpl in *. lia.
Qed.
Lemma remove_endpoint_Some st id e st' :
  remove_endpoint id st = Some (e, st') →
  ep_id e = id ∧ entries st ≡ₚ e :: entries st' ∧ next st' = next st.
Proof.
  unfold remove_endpoint. destruct (iter_position _ _) as [k|] eqn:E; [|done]. simpl.
  apply iter_position_Some in E as (x & Hx & Hp & _). rewrite Hx. simpl. intros [= <- <-].
  split_and!; [lia| |done]. simpl. symmetry. by apply swap_remove_perm.
Qed.

(** With distinct identifiers the order of the descriptions is irrelevant. *)
Lemma find_endpoint_perm i es es' : NoDup (ids es) → es ≡ₚ es' → find_endpoint i es = find_endpoint i es'.
Proof.
  intros Hd Hp. assert (NoDup (ids es')) as Hd' by (unfold ids in *; by rewrite <- Hp).
  destruct (find_endpoint i es') as [e|] eqn:E.
  - apply find_endpoint_id in E as [Hi Hin]. apply find_endpoint_In; [done| |done]. by rewrite Hp.
  - apply find_endpoint_None in E. apply find_endpoint_None. unfold ids in *. by rewrite Hp.
Qed.

Section release.
Context {SP : SocketProtocol}.

Record partial_ok (A : list (Z * Z)) (others : list Bundle) (g : gmap Z Link) (D : list Z) (n : Z) (w : World) : Prop := {
  po_distinct : NoDup (ids (entries (streams w)));
  po_count : zlen (entries (streams w)) ≤ MAX_SOCKETS;
  po_next : next (streams w) = n;
  po_local e : e ∈ entries (streams w) → endpoint_ok e;
  po_graph x : graph (entries (streams w)) !! x = if decide (x ∈ D) then None else g !! x;
  po_holds : holds A (heap w) [] (bundles (streams w) ++ others);
}.

Lemma partial_start A others w :
  world_ok A others w → partial_ok A others (graph (entries (streams w))) [] (next (streams w)) w.
Proof.
  intros [[H1 H2 H3 H4 H5] H6]. split; try done.
Qed.

Lemma partial_remove A others g D n w id e st :
  partial_ok A others g D n w → remove_endpoint id (streams w) = Some (e, st) →
  partial_ok A (endpoint_bundles e ++ others) g (id :: D) n (mkWorld (heap w) st) ∧ endpoint_ok e ∧
  find_endpoint id (entries (streams w)) = Some e.
Proof.
  intros [H1 H2 H3 H4 H5 H6] (Hid & Hp & Hn)%remove_endpoint_Some.
  assert (NoDup (ids (e :: entries st))) as Hd by (unfold ids in *; by rewrite <- Hp).
  pose proof Hd as [Hni Hd']%NoDup_cons. subst id. split_and!.
  - split; simpl; try done.
    + unfold zlen in *. rewrite Hp in H2. simpl in H2. lia.
    + congruence.
    + intros x Hx. apply H4. rewrite Hp. by right.
    + intros x. specialize (H5 x). rewrite graph_lookup in *. rewrite (find_endpoint_perm _ _ _ H1 Hp) in H5.
      simpl in H5. destruct (decide (x ∈ ep_id e :: D)) as [Hx|Hx].
      * apply elem_of_cons in Hx as [->|Hx]; [by rewrite (proj2 (find_endpoint_None _ _) Hni)|].
        rewrite decide_True in H5 by done. destruct (ep_id e =? x) eqn:E; [done|]. done.
      * apply not_elem_of_cons in Hx as [Hx HxD]. rewrite decide_False in H5 by done.
        by replace (ep_id e =? x) with false in H5 by lia.
    + assert (bundles (streams w) ≡ₚ endpoint_bundles e ++ bundles st) as Hb by (unfold bundles; by rewrite Hp).
      rewrite Hb in H6. owned_by H6.
  - apply H4. rewrite Hp. by left.
  - rewrite (find_endpoint_perm _ _ _ H1 Hp). simpl. by rewrite Z.eqb_refl.
Qed.

Lemma partial_absent A others g D n w id :
  partial_ok A others g D n w → remove_endpoint id (streams w) = None → partial_ok A others g (id :: D) n w.
Proof.
  intros [H1 H2 H3 H4 H5 H6] Hr%remove_endpoint_None. split; try done.
  intros x. destruct (decide (x ∈ id :: D)) as [Hx|Hx].
  - apply elem_of_cons in Hx as [->|Hx]; [by rewrite graph_lookup, Hr|]. rewrite H5. by rewrite decide_True.
  - apply not_elem_of_cons in Hx as [_ Hx]. rewrite H5. by rewrite decide_False.
Qed.

Lemma partial_drop A others g D n w ds :
  partial_ok A (ds ++ others) g D n w → partial_ok A others g D n (mkWorld (drop_bundles ds (heap w)) (streams w)).
Proof.
  intros [H1 H2 H3 H4 H5 H6]. split; simpl; try done. apply drop_bundles_holds. owned_by H6.
Qed.

Lemma partial_notify A others g D n w removed unaccepted :
  partial_ok A others g D n w →
  partial_ok A others g D n (mkWorld (heap w) (notify_peer_release removed unaccepted (streams w))).
Proof.
  intros Hw. assert (mkWorld (heap w) (streams w) = w) as Ew by by destruct w.
  unfold notify_peer_release. destruct (_ || _); [|by rewrite Ew]. destruct (ep_peer removed) as [p|]; [|by rewrite Ew].
  set (f := λ peer, _). assert (∀ e, ep_id (f e) = ep_id e ∧ link (f e) = link e ∧ endpoint_bundles (f e) = endpoint_bundles e) as Hf.
  { intros e. unfold f. by destruct (_ && _). }
  destruct Hw as [H1 H2 H3 H4 H5 H6]. split; simpl; try done.
  - rewrite ids_alter; [done|]. intros. by apply Hf.
  - unfold zlen. by rewrite length_alter.
  - intros x [Hx|(e & He & ->)]%elem_of_alter; [by apply H4|]. apply find_endpoint_id in He as [_ He].
    unfold f. destruct (_ && _); [|by apply H4]. destruct (H4 e He). constructor; simpl; eauto.
  - intros x. rewrite graph_alter; [done|]. intros. split; by apply Hf.
  - rewrite bundles_update; [done|]. intros. by apply Hf.
Qed.

(** The loop over the connections nobody accepted. *)
Lemma release_pending_ok A others g D n todo w :
  partial_ok A others g D n w → partial_ok A others g (reverse todo ++ D) n (release_pending todo w).
Proof.
  revert D w. induction todo as [|i todo IH]; intros D w Hw; simpl; [done|].
  rewrite reverse_cons, <- app_assoc. simpl. destruct (remove_endpoint i (streams w)) as [[e st]|] eqn:E.
  - apply (partial_remove _ _ _ _ _ _ _ _ _ Hw) in E as (Hp & _ & _).
    apply IH. apply (partial_notify _ _ _ _ _ (mkWorld (drop_endpoint e (heap w)) st)).
    apply (partial_drop _ _ _ _ _ (mkWorld (heap w) st) (endpoint_bundles e)). done.
  - apply IH. by apply partial_absent.
Qed.

(** What a release removes: the description and the connections queued at
    it. *)
Definition released (id : Z) (e : Endpoint) : list Z :=
  id :: match ep_listener e with Some l => pending l | None => [] end.

Lemma filter_all {A} (P : A → Prop) `{!∀ x, Decision (P x)} (l : list A) : (∀ x, x ∈ l → P x) → filter P l = l.
Proof.
  induction l as [|x l IH]; intros Hl; [done|]. rewrite filter_cons_True; [|apply Hl; by left].
  f_equal. apply IH. intros y Hy. apply Hl. by right.
Qed.

Section pruned.
Context (n : Z) (g : gmap Z Link) (Hg : graph_ok n g) (id : Z) (e : Endpoint) (He : g !! id = Some (link e)).

Lemma released_closed i l j : g !! i = Some l → l_queued l = Some j → j ∈ released id e → i ∈ released id e.
Proof.
  intros Hi Hj Hin. destruct (gk_queued _ _ Hg i l j Hi Hj) as (_ & lj & s & Hlj & Hs & Hp & _).
  unfold released in *. apply elem_of_cons in Hin as [->|Hin].
  - rewrite He in Hlj. injection Hlj as <-. simpl in Hs. rewrite Hs. by right.
  - destruct (ep_listener e) as [s'|] eqn:Es; [|by apply elem_of_nil in Hin].
    destruct (gk_listener _ _ Hg id (link e) s' He Es) as (_ & _ & _ & _ & _ & _ & Hpn).
    destruct (Hpn j Hin) as (l' & Hl' & Hq). rewrite Hl' in Hlj. injection Hlj as ->.
    destruct (gk_listener _ _ Hg j lj s Hl' Hs) as (_ & ? & _). congruence.
Qed.
(** Only the listener a description was queued at had it in its queue. *)
Lemma prune_other x l :
  g !! x = Some l → x ≠ id → ep_pending_listener e ≠ Some x → prune_link (released id e) l = l.
Proof.
  intros Hx Hne Hq. unfold prune_link, with_listener. destruct (l_listener l) as [s|] eqn:Es; simpl; [|destruct l; simpl in *; by subst].
  destruct (gk_listener _ _ Hg x l s Hx Es) as (_ & _ & _ & _ & _ & _ & Hpn).
  rewrite filter_all; [destruct l; simpl in *; subst; by destruct s|].
  intros p Hp Hin. destruct (Hpn p Hp) as (lp & Hlp & Hqp). unfold released in Hin.
  apply elem_of_cons in Hin as [->|Hin]; [rewrite He in Hlp; injection Hlp as <-; done|].
  destruct (ep_listener e) as [s'|] eqn:Es'; [|by apply elem_of_nil in Hin].
  destruct (gk_listener _ _ Hg id (link e) s' He Es') as (_ & _ & _ & _ & _ & _ & Hpn').
  destruct (Hpn' p Hin) as (l' & Hl' & Hq'). congruence.
Qed.
End pruned.

(** A well-formed table results when the remaining queues were pruned. *)
Lemma partial_finish A others g D n w D' :
  partial_ok A others g D n w → graph_ok n g → 1 ≤ n ≤ MAX_DESCRIPTION_ID + 1 →
  (∀ x, x ∈ D ↔ x ∈ D') →
  (∀ i l j, g !! i = Some l → l_queued l = Some j → j ∈ D' → i ∈ D') →
  (∀ x l, x ∉ D' → g !! x = Some l → prune_link D' l = l) → world_ok A others w.
Proof.
  intros [H1 H2 H3 H4 H5 H6] Hg Hn HD Hcl Hpr. split; [|done]. split; try done; [by rewrite H3|].
  rewrite H3. apply (graph_prune n g Hg D'); [done|]. intros x. rewrite H5.
  destruct (decide (x ∈ D')) as [Hx|Hx].
  - rewrite decide_True; [done|]. by apply HD.
  - rewrite decide_False; [|by rewrite HD]. destruct (g !! x) as [l|] eqn:E; [|done]. simpl. by rewrite (Hpr x).
Qed.

(** A queued description leaves the queue of its listener. *)
Lemma partial_forget A others g id n w e t :
  partial_ok A others g [id] n w → graph_ok n g → 1 ≤ n ≤ MAX_DESCRIPTION_ID + 1 →
  g !! id = Some (link e) → ep_listener e = None → ep_pending_listener e = Some t →
  world_ok A others (update_world t (set_pending (filter (λ p, p ≠ id))) w).
Proof.
  intros Hp Hg Hn Ge El Eq. assert (released id e = [id]) as Er by (unfold released; by rewrite El).
  destruct (gk_queued _ _ Hg id (link e) t Ge Eq) as (_ & lt & s & Hlt & Hs & Hin & _).
  assert (t ≠ id) as Hti.
  { intros ->. rewrite Ge in Hlt. injection Hlt as <-. simpl in Hs. congruence. }
  destruct Hp as [H1 H2 H3 H4 H5 H6]. simpl in *. split; simpl.
  * pose proof (H5 t) as Ht. rewrite decide_False in Ht by (rewrite list_elem_of_singleton; done).
    rewrite graph_lookup, Hlt in Ht. apply fmap_Some in Ht as (et & Het & ->).
    split; simpl; try done.
    -- rewrite ids_alter; [done|]. intros. apply set_pending_id.
    -- unfold zlen. by rewrite length_alter.
    -- by rewrite H3.
    -- intros x [Hx|(e' & He' & ->)]%elem_of_alter; [by apply H4|].
       apply find_endpoint_id in He' as [_ He']. by apply set_pending_ok, H4.
    -- rewrite H3. apply (graph_prune n g Hg [id]); [intros i l' j; rewrite <- Er; by apply (released_closed _ _ Hg)|].
       intros x. rewrite (graph_update t _ et _ Het) by apply set_pending_id.
       destruct (decide (t = x)) as [<-|Hxt].
       ++ rewrite lookup_insert_eq, decide_False by (rewrite list_elem_of_singleton; done). rewrite Hlt. simpl. f_equal.
          unfold set_pending, prune_link. simpl in Hs. simpl. rewrite Hs. simpl. unfold link, with_listener. simpl.
          do 3 f_equal. apply list_filter_iff. intros p. by rewrite list_elem_of_singleton.
       ++ rewrite lookup_insert_ne by done. rewrite H5. case_decide as Hx; [done|].
          destruct (g !! x) as [l'|] eqn:Ex; [|done]. simpl. f_equal. symmetry. rewrite <- Er.
          rewrite list_elem_of_singleton in Hx. apply (prune_other _ _ Hg id e Ge x); try done. congruence.
  * rewrite bundles_update by apply set_pending_bundles. done.
Qed.

Lemma release_ok A others id w : world_ok A others w → world_ok A others (fst (release id w)).
Proof.
  intros Hw. unfold release. destruct (remove_endpoint id (streams w)) as [[e st]|] eqn:E; [|done].
  pose proof (sk_graph _ (wk_streams _ _ _ Hw)) as Hg. pose proof (sk_next _ (wk_streams _ _ _ Hw)) as Hn.
  apply (partial_remove _ _ _ _ _ _ _ _ _ (partial_start _ _ _ Hw)) in E as (Hp & He & Hf).
  set (g := graph (entries (streams w))) in *. set (n := next (streams w)) in *.
  assert (g !! id = Some (link e)) as Ge by (unfold g; by rewrite graph_lookup, Hf).
  apply (partial_notify _ _ _ _ _ _ e false) in Hp. simpl in Hp.
  set (w1 := mkWorld (heap w) (notify_peer_release e false st)) in *.
  destruct (ep_listener e) as [l|] eqn:El.
  - destruct (gk_listener _ _ Hg id (link e) l Ge El) as (_ & Hq & _). simpl in Hq. rewrite Hq. simpl.
    apply (release_pending_ok _ _ _ _ _ (pending l)) in Hp.
    apply (partial_finish A others g (reverse (pending l) ++ [id]) n _ (released id e)); try done.
    + by apply (partial_drop _ _ _ _ _ (release_pending (pending l) w1)).
    + intros x. unfold released. rewrite El. set_solver.
    + intros i l' j. by apply (released_closed _ _ Hg).
    + intros x l' Hx Hl'. unfold released in Hx. apply not_elem_of_cons in Hx as [Hx _].
      apply (prune_other _ _ Hg id e Ge x); try done. congruence.
  - assert (released id e = [id]) as Er by (unfold released; by rewrite El).
    apply (partial_drop _ _ _ _ _ _ (endpoint_bundles e)) in Hp. fold (drop_endpoint e (heap w1)) in Hp.
    destruct (ep_pending_listener e) as [t|] eqn:Eq; simpl.
    + (* queued: the listener forgets it *)
      by apply (partial_forget _ _ g id n (mkWorld (drop_endpoint e (heap w1)) (streams w1)) e).
    + apply (partial_finish A others g [id] n _ [id]); try done.
      * intros i l' j. rewrite <- Er. by apply (released_closed _ _ Hg).
      * intros x l' Hx Hl'. rewrite <- Er. rewrite list_elem_of_singleton in Hx.
        apply (prune_other _ _ Hg id e Ge x); try done. congruence.
Qed.
End release.
