(* ===== verification/SocketRecordOps.v ===== *)
(** * Record operations of the socket table

    The operations of [posix/src/socket.rs] on record queues preserve the
    table's invariant: sending and transferring records, connecting and
    disconnecting datagram sockets, and the receives whose outcome is
    published by a callback before anything is removed. *)

From S2P Require Import Prelude SocketProtocol SocketRights SocketStream SocketRecord.
From S2P Require Import Socket SocketGraph SocketTable SocketOps.

Section record_ops.
Context {SP : SocketProtocol}.

Lemma socket_world_eta w : mkWorld (heap w) (streams w) = w.
Proof. by destruct w. Qed.

Lemma record_read_terminal_quietly id st :
  streams_ok st →
  let '(st', r) := record_read_terminal id st in quietly st st' ∧ (∀ b, r = Ok b → st' = st).
Proof.
  intros Hst. unfold record_read_terminal. pose proof (quietly_refl st Hst) as Hq.
  destruct (endpoint st id) as [e|] eqn:E; [|by split]. apply endpoint_Ok in E.
  pose proof (find_ok _ _ _ Hst E) as He.
  case_ifs; try by split. split; [|done].
  eapply update_quietly; try done. destruct He. constructor; simpl; eauto.
Qed.

(** ** Sending *)

(** A record reaches the destination with its references, or nothing
    happens and the references are returned. *)
Lemma commit_record_to_ok A others alloc id destination src data rights w :
  world_ok A (rights :: others) w → whole rights →
  match commit_record_to_with_rights alloc id destination src data rights w with
  | (w', Ok (n, route)) => world_ok A others w' ∧ n = zlen data ∧ route = (id, destination) ∧
      ∃ e q q', find_endpoint destination (entries (streams w)) = Some e ∧ ep_records e = Some q ∧
        w' = update_world destination (set_records (Some q')) w ∧
        records q' = records q ++ [mkPacket src (Some id) data (Some rights)]
  | (w', Err (_, rights')) => w' = w ∧ rights' = rights
  end.
Proof.
  intros Hw Hwh. unfold commit_record_to_with_rights.
  destruct (record_send_to_ready _ _ _ _) as [[]|]; [|done|done].
  destruct (endpoint _ id) as [entry|]; [|done]. destruct (endpoint _ destination) as [target|] eqn:E; [|done].
  apply endpoint_Ok in E. destruct (ep_records target) as [q|] eqn:Eq; [|done].
  pose proof (find_ok _ _ _ (wk_streams _ _ _ Hw) E) as Ht.
  pose proof (push_with_rights_spec A alloc src data (ep_send_capacity entry) (Some id) rights q (heap w) []) as Hs.
  destruct (world_records _ _ _ _ _ _ Hw E Eq) as [rest Hh].
  pose proof (Hs (rest ++ others) (eo_packets _ Ht q Eq) Hwh ltac:(owned_by Hh)) as Hr.
  destruct (push_with_rights _ _ _ _ _ _ q) as [q' [n|[e rights']]].
  - destruct Hr as (-> & Hrec & Hq & _ & _). split_and!; try done.
    + apply (set_records_ok A (rights :: others) _ _ _ _ target q); try done. intros rest' Hh'.
      by apply (Hs (rest' ++ others) (eo_packets _ Ht q Eq) Hwh ltac:(owned_by Hh')).
    + by exists target, q, q'.
  - destruct Hr as (-> & -> & _). split; [|done]. destruct w as [h st]. unfold update_world. simpl. f_equal.
    eapply update_id; [done|]. destruct target. simpl in *. by subst.
Qed.

Lemma commit_record_ok' A others alloc id data rights w :
  world_ok A (rights :: others) w → whole rights →
  match commit_record_with_rights alloc id data rights w with
  | (w', Ok _) => world_ok A others w'
  | (w', Err (_, rights')) => w' = w ∧ rights' = rights
  end.
Proof.
  intros Hw Hwh. unfold commit_record_with_rights.
  match goal with |- context [match ?c with Ok _ => _ | Err _ => _ end] => destruct c as [[destination src]|] end; [|done].
  pose proof (commit_record_to_ok A others alloc id destination src data rights w Hw Hwh) as H.
  destruct (commit_record_to_with_rights _ _ _ _ _ _ _) as [w' [[n route]|[e rights']]]; [by destruct H|done].
Qed.

(** ** Connecting datagram sockets *)

Lemma update_link_world A others w h i f e :
  world_ok A others w → find_endpoint i (entries (streams w)) = Some e →
  endpoint_ok (f e) → ep_id (f e) = ep_id e →
  graph_ok (next (streams w)) (<[i := link (f e)]> (graph (entries (streams w)))) →
  (∀ rest, holds A (heap w) [] (endpoint_bundles e ++ rest ++ others) →
     holds A h [] (endpoint_bundles (f e) ++ rest ++ others)) →
  world_ok A others (mkWorld h (update i f (streams w))).
Proof.
  intros [Hs Hh] He Hf Hid Hl Hstep. split; simpl.
  - apply (update_link_ok _ _ _ e); try done. apply (sk_next _ Hs).
  - destruct (bundles_split _ _ _ He) as (rest & H1 & H2). rewrite H2, <- app_assoc.
    apply Hstep. by rewrite H1, <- app_assoc in Hh.
Qed.

Lemma connect_datagram_ok A others client target client_path target_path w :
  world_ok A others w →
  match connect_datagram_named client target client_path target_path w with
  | (w', Ok _) => world_ok A others w' ∧
      ∃ e q e' q', find_endpoint client (entries (streams w)) = Some e ∧ ep_records e = Some q ∧
        find_endpoint client (entries (streams w')) = Some e' ∧ ep_peer e' = Some target ∧
        ep_records e' = Some q' ∧ records q' = filter (λ r, sender r = Some target) (records q)
  | (w', Err _) => w' = w
  end.
Proof.
  intros Hw. unfold connect_datagram_named.
  match goal with |- context [match ?c with Ok _ => _ | Err _ => _ end] => destruct c as [[[ln pn] src]|] eqn:Ec end; [|done].
  assert (find_endpoint client (entries (streams w)) = Some src ∧ ep_kind src = Datagram ∧
    ∃ d, find_endpoint target (entries (streams w)) = Some d ∧ ep_kind d = Datagram) as (E & Ek & d & Ed & Ekd).
  { inv_socket. naive_solver. }
  clear Ec. pose proof (find_ok _ _ _ (wk_streams _ _ _ Hw) E) as He.
  cbn [ep_records set_peer_name set_local_name set_peer].
  destruct (ep_records src) as [q|] eqn:Eq.
  2: { destruct (eo_records _ He) as [_ Hr]. rewrite Eq in Hr. destruct Hr as [? ?]; [congruence|done]. }
  destruct (world_records _ _ _ _ _ _ Hw E Eq) as [rest0 Hh0].
  pose proof (λ bs, retain_sender_spec A target q (heap w) [] bs (eo_packets _ He q Eq)) as Hs.
  destruct (retain_sender target q (heap w)) as [q' h].
  destruct (Hs _ Hh0) as (Hrec & Hq' & _ & _). set (f := λ _ : Endpoint, _). split.
  - apply (update_link_world A others w h client f src); try done.
    + destruct He as [? Hr ? ? ? ? ? ? ?]. rewrite Eq in Hr. constructor; simpl; eauto; [|by intros ? [= <-]].
      rewrite <- Hr. split; eauto.
    + apply (graph_datagram _ _ (sk_graph _ (wk_streams _ _ _ Hw)) client (link src) (Some target)); [by rewrite graph_lookup, E|done|].
      intros t [= <-]. exists (link d). by rewrite graph_lookup, Ed.
    + intros rest Hh. unfold endpoint_bundles in *. simpl. rewrite Eq in Hh.
      assert (holds A (heap w) [] (record_bundles q ++ (stream_bundles (ep_incoming src) ++ rest ++ others))) as Hh' by owned_by Hh.
      destruct (Hs _ Hh') as (_ & _ & _ & Hh2). owned_by Hh2.
  - exists src, q, (f src), q'. split_and!; try done. simpl.
    by rewrite find_alter_eq, E by (by intros ? [= <-]%(eq_trans (eq_sym E))).
Qed.
Lemma disconnect_datagram_ok A others id w :
  world_ok A others w → world_ok A others (fst (disconnect_datagram id w)).
Proof.
  intros Hw. unfold disconnect_datagram. destruct (endpoint _ id) as [e|] eqn:E; [|done]. apply endpoint_Ok in E.
  pose proof (find_ok _ _ _ (wk_streams _ _ _ Hw) E) as He.
  destruct (negb _) eqn:Ek; [done|]. inv_socket. apply negb_false_iff, bool_decide_eq_true_1 in Ek.
  destruct (ep_records e) as [q|] eqn:Eq; [|done].
  pose proof (eo_packets _ He q Eq) as Hq.
  assert (∀ q', records_ok q' → endpoint_ok (set_peer_name None (set_records (Some q') (set_peer None e)))) as Hok.
  { intros q' Hq'. destruct He as [? Hr ? ? ? ? ? ? ?]. rewrite Eq in Hr. constructor; simpl; eauto; [|by intros ? [= <-]].
    rewrite <- Hr. split; eauto. }
  assert (graph_ok (next (streams w)) (<[id := with_peer None (link e)]> (graph (entries (streams w))))) as Hg.
  { apply (graph_datagram _ _ (sk_graph _ (wk_streams _ _ _ Hw)) id (link e) None); [by rewrite graph_lookup, E|done|done]. }
  case_bool_decide; simpl; (eapply (update_link_world A others w _ id _ e); try done; [apply Hok|]); try done.
  - destruct Hq as [? ? ? ? ?]. split; simpl; try done. by intros r b ?%elem_of_nil.
  - intros rest Hh. unfold endpoint_bundles in *. simpl. rewrite Eq in Hh.
    rewrite drop_packets_bundles. apply drop_bundles_holds. fold (record_bundles q). owned_by Hh.
  - intros rest Hh. unfold endpoint_bundles in *. simpl. by rewrite Eq in Hh.
Qed.

(** ** Snapshots of queued references *)

Lemma snapshot_world A others alloc maximum b w :
  world_ok A others w → b ∈ bundles (streams w) → 0 ≤ maximum →
  match snapshot alloc b maximum (heap w) with
  | (h, Ok b') => world_ok A (b' :: others) (mkWorld h (streams w)) ∧ whole b' ∧
      leases b' = take (Z.to_nat maximum) (leases b)
  | (h, Err _) => world_ok A others (mkWorld h (streams w))
  end.
Proof.
  intros [Hs Hh] Hin Hm.
  pose proof (snapshot_holds A alloc b maximum (heap w) [] _ Hh ltac:(apply elem_of_app; by left) Hm) as H.
  destruct (snapshot _ _ _ _) as [h [b'|]]; [|by split].
  destruct H as (Hl & Hwh & H). split_and!; try done. split; [done|]. simpl. owned_by H.
Qed.
Lemma bundles_in st id e b : find_endpoint id (entries st) = Some e → b ∈ endpoint_bundles e → b ∈ bundles st.
Proof. intros [_ Hin]%find_endpoint_id Hb. unfold bundles. apply list_elem_of_bind. eauto. Qed.
Lemma queued_stream_in e n b : read_rights n (ep_incoming e) = Some b → b ∈ endpoint_bundles e.
Proof. intros H%read_rights_in. unfold endpoint_bundles. apply elem_of_app. by left. Qed.
Lemma queued_record_in e q b : ep_records e = Some q → front_rights q = Some b → b ∈ endpoint_bundles e.
Proof. intros Hq H%front_rights_in. unfold endpoint_bundles. rewrite Hq. apply elem_of_app. by right. Qed.

Lemma snapshot_queued_ok A others alloc id length maximum w :
  world_ok A others w → 0 ≤ maximum →
  match snapshot_queued_rights alloc id length maximum w with
  | (w', Ok o) => world_ok A (option_list o ++ others) w' ∧ ∀ b, o = Some b → whole b
  | (w', Err _) => world_ok A others w'
  end.
Proof.
  intros Hw Hm. unfold snapshot_queued_rights. destruct (endpoint _ id) as [e|] eqn:E; [|done]. apply endpoint_Ok in E.
  set (rights := match ep_records e with Some _ => _ | None => _ end).
  assert (∀ b, rights = Some b → b ∈ bundles (streams w)) as Hin.
  { intros b. unfold rights. destruct (ep_records e) as [q|] eqn:Eq; intros Hb; apply (bundles_in _ id e); try done;
      eauto using queued_record_in, queued_stream_in. }
  destruct rights as [b|]; [|by split].
  pose proof (snapshot_world A others alloc maximum b w Hw (Hin b eq_refl) Hm) as H.
  destruct (snapshot _ _ _ _) as [h [b'|]]; simpl; [|done]. destruct H as (? & ? & _). split; [done|]. by intros ? [= <-].
Qed.

(** ** Transfers through a buffer *)

Context {B : Type} {RB : RecordBuffer B}.

Lemma transfer_queue_ok A others alloc destination request src capacity response from w b :
  world_ok A others w → 0 ≤ request_length request →
  match transfer_queue alloc destination request src capacity response from w b with
  | (w', b', _, Ok _) => world_ok A others w' ∧
      ∃ e q q', find_endpoint destination (entries (streams w)) = Some e ∧ ep_records e = Some q ∧
        w' = mkWorld (heap w') (update destination (set_records (Some q')) (streams w)) ∧
        transferred request src from q q' (heap w) (heap w') b b'
  | (w', _, _, Err _) => w' = w
  end.
Proof.
  intros Hw Hl. unfold transfer_queue. destruct (endpoint _ destination) as [e|] eqn:E; [|done]. apply endpoint_Ok in E.
  pose proof (find_ok _ _ _ (wk_streams _ _ _ Hw) E) as He. destruct (ep_records e) as [q|] eqn:Eq; [|done].
  pose proof (λ bs, transfer_from_spec A alloc request src capacity response from q (heap w) b [] bs (eo_packets _ He q Eq) Hl) as Hs.
  destruct (world_records _ _ _ _ _ _ Hw E Eq) as [rest0 Hh0].
  destruct (transfer_from _ _ _ _ _ _ _ _ _) as [[[[q' h'] b'] response'] [n|]].
  - destruct (Hs _ Hh0) as (Ht & Hq' & _ & _). split; [|by exists e, q, q'].
    apply (set_records_ok A others _ _ _ _ e q); try done. intros rest Hh. by apply Hs.
  - destruct (Hs _ Hh0) as [-> ->]. destruct w as [h st]. simpl. f_equal. eapply update_id; [done|].
    destruct e. simpl in *. by subst.
Qed.

Lemma transfer_record_ok A others alloc id request response w b :
  world_ok A others w → 0 ≤ request_length request →
  world_ok A others (fst (fst (fst (transfer_record alloc id request response w b)))).
Proof.
  intros Hw Hl. unfold transfer_record.
  match goal with |- context [match ?c with Ok _ => _ | Err _ => _ end] => destruct c as [[capacity src]|] end; [|done].
  assert (∀ d w', world_ok A others w' →
    world_ok A others (fst (fst (fst (transfer_queue alloc d request src capacity response (Some id) w' b))))) as Hq.
  { intros d w' Hw'. pose proof (transfer_queue_ok A others alloc d request src capacity response (Some id) w' b Hw' Hl) as H.
    destruct (transfer_queue _ _ _ _ _ _ _ _ _) as [[[w2 b2] r2] [n|]]; simpl; [by destruct H|by subst]. }
  case_bool_decide; [destruct (record_destination _ _); [by apply Hq|done]|].
  pose proof (record_read_terminal_quietly id (streams w) (wk_streams _ _ _ Hw)) as Ht.
  destruct (record_read_terminal id (streams w)) as [st [[]|]]; destruct Ht as [Ht _];
    apply (quietly_world A others w st Hw) in Ht; [by destruct (terminal_reply _ _ _)|by apply Hq|done].
Qed.

(** A routed send appends one record to its destination or changes
    nothing. *)
Lemma transfer_record_to_ok A others alloc id destination request src response w b :
  world_ok A others w → 0 ≤ request_length request →
  match transfer_record_to alloc id destination request src response w b with
  | (w', b', _, Ok _) => world_ok A others w' ∧
      ∃ e q q' data, find_endpoint destination (entries (streams w)) = Some e ∧ ep_records e = Some q ∧
        w' = mkWorld (heap w) (update destination (set_records (Some q')) (streams w)) ∧
        buffer_read (request_offset request) (request_length request) b = (b', Ok data) ∧
        records q' = records q ++ [mkPacket src (Some id) data None]
  | (w', _, _, Err _) => w' = w
  end.
Proof.
  intros Hw Hl. unfold transfer_record_to. destruct (negb _) eqn:Eo; [done|].
  apply negb_false_iff, bool_decide_eq_true_1 in Eo.
  destruct (record_send_to_ready _ _ _ _) as [[]|]; [|done|done]. destruct (send_capacity _ _) as [capacity|]; [|done].
  pose proof (transfer_queue_ok A others alloc destination request src capacity response (Some id) w b Hw Hl) as H.
  destruct (transfer_queue _ _ _ _ _ _ _ _ _) as [[[w2 b2] r2] [n|]]; [|done].
  destruct H as (H & e & q & q' & He & Hq & Ew & Ht). unfold transferred in Ht. rewrite Eo in Ht.
  destruct Ht as (Hh & data & Hb & Hr). rewrite Hh in Ew. split; [done|]. by exists e, q, q', data.
Qed.
(** ** Receives whose outcome is published *)

(** Data is shown to the caller before it is removed; both agree. *)
Lemma blit_all {T} (s d : list T) : length s = length d → blit 0 s d = s.
Proof. intros E. unfold blit. rewrite take_0. simpl. rewrite drop_ge, app_nil_r; [done|lia]. Qed.
Lemma read_length_idem maximum q :
  stream_ok q → 0 ≤ maximum → read_length (read_length maximum q) q = read_length maximum q.
Proof.
  intros Hq Hm. pose proof (read_length_bounds maximum q Hq Hm).
  pose proof (read_length_fixed maximum q Hq Hm) as Hf.
  unfold read_length at 1. rewrite Z.min_l by lia. unfold first_end in Hf.
  destruct (markers q) as [|m ms]; [done|]. by rewrite Z.add_0_l, Z.sub_0_r in Hf.
Qed.
Lemma peek_then_read maximum q c :
  stream_ok q → 0 ≤ maximum → c = read_length maximum q →
  let data := take (Z.to_nat c) (bytes q) in
  stream_peek 0 (replicate (Z.to_nat c) 0) q = (data, c) ∧
  ∃ q', read_owned data q = (q', data, (c, read_rights c q)) ∧ stream_ok q' ∧
    items q' = drop (Z.to_nat c) (items q) ∧ (take (Z.to_nat c) (items q)).*1 = data ∧
    read_rights c q = taken (take (Z.to_nat c) (items q)) ∧
    stream_bundles q = option_list (read_rights c q) ++ stream_bundles q'.
Proof.
  intros Hq Hm -> data. set (c := read_length maximum q) in *.
  pose proof (read_length_bounds maximum q Hq Hm) as Hb. fold c in Hb.
  pose proof (read_length_idem maximum q Hq Hm) as Hi. fold c in Hi.
  assert (zlen data = c) as Hl by (unfold data; rewrite zlen_take; unfold stream_len in *; lia).
  assert (length data = Z.to_nat c) as Hl' by (unfold zlen in Hl; lia).
  assert ((take (Z.to_nat c) (items q)).*1 = data) as Hfst.
  { rewrite fmap_take, items_items_from, items_fst. done. }
  pose proof (read_rights_taken c q Hq ltac:(lia)) as Ht.
  pose proof (read_length_span c q Hq ltac:(lia)) as Hsp. rewrite Hi in Hsp.
  replace (span (Z.to_nat c) (items q)) with (Z.to_nat c) in Ht by lia.
  split.
  - rewrite stream_peek_head by done. unfold zlen at 1 2. rewrite length_replicate, Z2Nat.id, Hi by lia.
    fold data. by rewrite blit_all by (rewrite length_replicate; lia).
  - pose proof (read_owned_spec data q Hq) as Hs. destruct (read_owned data q) as [[q' out] [n r]].
    rewrite Hl' in Hs. replace (span (Z.to_nat c) (items q)) with (Z.to_nat c) in Hs by lia.
    destruct Hs as (-> & -> & -> & Hit & Hok & Hbs & _). exists q'. rewrite Ht.
    split_and!; try done. rewrite Hfst, blit_all by done. by rewrite Z2Nat.id by lia.
Qed.

(** A read that fails takes nothing: at most the pending error of the
    socket is consumed. *)
Definition took_nothing (id : Z) (st st' : Streams) : Prop :=
  st' = st ∨ st' = update id (set_error 0) st.

Lemma stream_read_count_nothing id length offset st :
  took_nothing id st (fst (stream_read_count id length offset st)).
Proof.
  unfold stream_read_count, took_nothing. destruct (readiness _ _); [|by left]. destruct (endpoint _ _); [|by left].
  case_ifs; simpl; auto.
Qed.
Lemma stream_read_count_nonneg id length offset st st' n :
  stream_read_count id length offset st = (st', Ok n) → 0 ≤ length → 0 ≤ n.
Proof.
  unfold stream_read_count, saturating_sub. destruct (readiness _ _); [|done]. destruct (endpoint _ _); [|done].
  case_ifs; intros [= _ <-]; lia.
Qed.
Lemma record_read_terminal_nothing id st : took_nothing id st (fst (record_read_terminal id st)).
Proof.
  unfold record_read_terminal, took_nothing. destruct (endpoint _ _); [|by left]. case_ifs; simpl; auto.
Qed.

Context {X : Type} (publish : ReceivedRecord → Z → X → X * result Z unit).

Lemma peek_snapshot_ok A others alloc peek_maximum rights w :
  world_ok A others w → (∀ b, rights = Some b → b ∈ bundles (streams w)) → (∀ m, peek_maximum = Some m → 0 ≤ m) →
  match peek_snapshot alloc peek_maximum rights (heap w) with
  | (h, Ok None) => h = heap w ∧ peek_maximum = None
  | (h, Ok (Some o)) => world_ok A (option_list o ++ others) (mkWorld h (streams w)) ∧
      (∀ b, o = Some b → whole b) ∧
      ∃ m, peek_maximum = Some m ∧ (leases <$> o) = (λ b, take (Z.to_nat m) (leases b)) <$> rights
  | (h, Err _) => world_ok A others (mkWorld h (streams w))
  end.
Proof.
  intros Hw Hin Hm. unfold peek_snapshot. destruct peek_maximum as [m|]; [|done]. destruct rights as [b|].
  - pose proof (snapshot_world A others alloc m b w Hw (Hin b eq_refl) (Hm m eq_refl)) as H.
    destruct (snapshot _ _ _ _) as [h [b'|]]; simpl; [|done]. destruct H as (? & ? & Hl).
    split_and!; [done|by intros ? [= <-]|]. exists m. by rewrite Hl.
  - rewrite socket_world_eta. split_and!; [done|done|]. by exists m.
Qed.

Lemma drop_option_world A others h st o :
  world_ok A (option_list o ++ others) (mkWorld h st) → world_ok A others (mkWorld (drop_option o h) st).
Proof.
  intros [Hs Hh]. simpl in *. split; [done|]. simpl. apply drop_option_holds. owned_by Hh.
Qed.

(** What a successful receive of a byte stream did. *)
Definition stream_received (id offset : Z) (peek_maximum : option Z) (w w' : World) (b b' : B) (x x' : X)
    (record : ReceivedRecord) (r : option Bundle) : Prop :=
  ∃ e c, find_endpoint id (entries (streams w)) = Some e ∧
    copied record = Z.of_nat c ∧
    buffer_write offset (take c (items (ep_incoming e))).*1 b = (b', Ok tt) ∧
    publish record (bundle_count (taken (take c (items (ep_incoming e))))) x = (x', Ok tt) ∧
    match peek_maximum with
    | Some m => streams w' = streams w ∧
        (leases <$> r) = (λ b, take (Z.to_nat m) (leases b)) <$> taken (take c (items (ep_incoming e)))
    | None => r = taken (take c (items (ep_incoming e))) ∧
        ∃ q, streams w' = update id (set_incoming q) (streams w) ∧ items q = drop c (items (ep_incoming e))
    end.

Lemma receive_stream_rights_ok A others alloc id offset length peek_maximum w b x :
  world_ok A others w → 0 ≤ length → (∀ m, peek_maximum = Some m → 0 ≤ m) →
  match receive_stream_rights_using publish alloc id offset length peek_maximum w b x with
  | (w', b', x', Ok (record, r)) => world_ok A (option_list r ++ others) w' ∧ (∀ b, r = Some b → whole b) ∧
      stream_received id offset peek_maximum w w' b b' x x' record r
  | (w', _, _, Err _) => world_ok A others w' ∧ took_nothing id (streams w) (streams w')
  end.
Proof.
  intros Hw Hl Hm. unfold receive_stream_rights_using. destruct (_ >? _); [by split; [|left]|].
  match goal with |- context [match ?c with Ok _ => _ | Err _ => _ end] => destruct c end; [|by split; [|left]].
  pose proof (stream_read_count_quietly id (if length =? 0 then 1 else length) 0 _ (wk_streams _ _ _ Hw)) as Hc.
  pose proof (stream_read_count_nothing id (if length =? 0 then 1 else length) 0 (streams w)) as Hn.
  destruct (stream_read_count _ _ _ _) as [st [n|]] eqn:Ec; destruct Hc as [Hq Hst]; simpl in Hn;
    [|split; [by apply quietly_world|done]].
  assert (0 ≤ n) as Hn0 by (eapply stream_read_count_nonneg; [done|case_ifs; lia]).
  pose proof (Hst n eq_refl) as ->. clear Hst Hq Hn Ec. rewrite !socket_world_eta.
  set (count := if length =? 0 then 0 else n). assert (0 ≤ count) as Hc0 by (unfold count; case_ifs; lia).
  destruct (endpoint (streams w) id) as [e|] eqn:E; [|by split; [|left]]. apply endpoint_Ok in E.
  pose proof (find_ok _ _ _ (wk_streams _ _ _ Hw) E) as He. pose proof (eo_stream _ He) as Hqok.
  set (c := read_length count (ep_incoming e)).
  destruct (peek_then_read count (ep_incoming e) c Hqok Hc0 eq_refl) as (Hp & q' & Hro & Hq' & Hit & Hfst & Htk & Hbs).
  pose proof (read_length_bounds count _ Hqok Hc0) as Hb. fold c in Hb.
  destruct alloc as [a1 a2]. cbn [fst snd]. destruct a1; cbn [negb]; [|by split; [|left]]. rewrite Hp.
  destruct (buffer_write _ _ b) as [b' [[]|]] eqn:Ebw; [|by split; [|left]].
  destruct (source_new UnixUnnamed) as [src|]; [|by split; [|left]].
  assert (∀ r, read_rights c (ep_incoming e) = Some r → r ∈ bundles (streams w)) as Hin.
  { intros r Hr. eapply bundles_in; [done|]. by eapply queued_stream_in. }
  pose proof (peek_snapshot_ok A others a2 peek_maximum _ w Hw Hin Hm) as Hps.
  destruct (peek_snapshot _ _ _ _) as [h [snap|]]; [|by split; [|left]].
  destruct (publish _ _ x) as [x' [[]|]] eqn:Ep.
  2: { split; [|by left]. destruct snap as [o|]; [|destruct Hps as [-> _]; by rewrite socket_world_eta].
       by apply drop_option_world, Hps. }
  destruct snap as [o|].
  - destruct Hps as (Hw' & Hwh & m & -> & Hlo). split_and!; try done.
    exists e, (Z.to_nat c). simpl. rewrite Hfst, <- Htk. split_and!; try done. lia.
  - destruct Hps as [-> ->]. rewrite Hro. split_and!.
    + apply (set_incoming_ok A others _ _ _ _ e); try done. intros rest Hh. rewrite Hbs in Hh. owned_by Hh.
    + intros r Hr. apply (stream_whole (ep_incoming e)); [done|]. by eapply read_rights_in.
    + exists e, (Z.to_nat c). simpl. rewrite Hfst, <- Htk. split_and!; try done; [lia|]. by exists q'.
Qed.
(** What a successful receive of a record did: the end of the records was
    published, or the first record was. *)
Definition record_received (id offset length : Z) (peek_maximum : option Z) (w w' : World) (b b' : B) (x x' : X)
    (record : ReceivedRecord) (r : option Bundle) : Prop :=
  (end_of_record record = false ∧ r = None ∧ w' = w ∧ b' = b ∧ publish record 0 x = (x', Ok tt)) ∨
  ∃ e q p rest, find_endpoint id (entries (streams w)) = Some e ∧ ep_records e = Some q ∧
    records q = p :: rest ∧
    record = mkReceived true (Z.min length (zlen (payload p))) (zlen (payload p)) (source p) ∧
    buffer_write offset (take (Z.to_nat length) (payload p)) b = (b', Ok tt) ∧
    publish record (bundle_count (rights p)) x = (x', Ok tt) ∧
    match peek_maximum with
    | Some m => streams w' = streams w ∧ (leases <$> r) = (λ b, take (Z.to_nat m) (leases b)) <$> rights p
    | None => r = rights p ∧
        ∃ q', streams w' = update id (set_records (Some q')) (streams w) ∧ records q' = rest
    end.

Lemma receive_peeked length q h :
  0 ≤ length →
  match receive (replicate (Z.to_nat length) 0) true q h with
  | (_, _, data, Ok got) => ∃ p rest, records q = p :: rest ∧
      got = mkReceived true (Z.min length (zlen (payload p))) (zlen (payload p)) (source p) ∧
      take (Z.to_nat (copied got)) data = take (Z.to_nat length) (payload p)
  | (_, _, _, Err _) => records q = []
  end.
Proof.
  intros Hl. destruct q as [[|p rest] charge cap]; [done|]. rewrite receive_prefix by done. cbn [copied].
  exists p, rest. split_and!; try done. pose proof (zlen_nonneg (payload p)).
  rewrite take_blit_head by (rewrite length_take; unfold zlen in *; lia).
  unfold zlen. destruct (decide (length ≤ Z.of_nat (List.length (payload p)))).
  - by rewrite Z.min_l by done.
  - rewrite Z.min_r, Nat2Z.id by lia. rewrite !take_ge; [done|lia|lia].
Qed.

Lemma receive_record_rights_ok A others alloc id offset length peek_maximum w b x :
  world_ok A others w → 0 ≤ length → (∀ m, peek_maximum = Some m → 0 ≤ m) →
  match receive_record_rights_using publish alloc id offset length peek_maximum w b x with
  | (w', b', x', Ok (record, r)) => world_ok A (option_list r ++ others) w' ∧ (∀ b, r = Some b → whole b) ∧
      record_received id offset length peek_maximum w w' b b' x x' record r
  | (w', _, _, Err _) => world_ok A others w' ∧ took_nothing id (streams w) (streams w')
  end.
Proof.
  intros Hw Hl Hm. unfold receive_record_rights_using. destruct (_ >? _); [by split; [|left]|].
  match goal with |- context [match ?c with Ok _ => _ | Err _ => _ end] => destruct c end; [|by split; [|left]].
  pose proof (record_read_terminal_quietly id _ (wk_streams _ _ _ Hw)) as Hc.
  pose proof (record_read_terminal_nothing id (streams w)) as Hn.
  destruct (record_read_terminal _ _) as [st [t|]]; destruct Hc as [Hq Hst]; simpl in Hn;
    [|split; [by apply quietly_world|done]].
  pose proof (Hst t eq_refl) as ->. clear Hst Hq Hn. rewrite !socket_world_eta. destruct t.
  { destruct (source_new UnixUnnamed) as [src|]; [|by split; [|left]].
    destruct (publish _ _ x) as [x' [[]|]] eqn:Ep; [|by split; [|left]]. split_and!; try done. left. done. }
  match goal with |- context [match ?c with Ok _ => _ | Err _ => _ end] => destruct c as [q|] eqn:Eq end; [|by split; [|left]].
  assert (∃ e, find_endpoint id (entries (streams w)) = Some e ∧ ep_records e = Some q) as (e & E & Eqe).
  { inv_socket. eauto. }
  pose proof (find_ok _ _ _ (wk_streams _ _ _ Hw) E) as He. pose proof (eo_packets _ He q Eqe) as Hqok.
  destruct alloc as [a1 a2]. cbn [fst snd]. destruct a1; cbn [negb]; [|by split; [|left]].
  pose proof (receive_peeked length q (heap w) Hl) as Hr.
  destruct (receive _ _ _ _) as [[[q0 h0] data] [record|]]; [|by split; [|left]].
  destruct Hr as (p & rest & Erec & Egot & ->).
  destruct (buffer_write _ _ b) as [b' [[]|]] eqn:Ebw; [|by split; [|left]].
  assert (front_rights q = rights p) as Efr by (unfold front_rights; by rewrite Erec). rewrite Efr.
  assert (∀ r, rights p = Some r → r ∈ bundles (streams w)) as Hin.
  { intros r Hr. eapply bundles_in; [done|]. eapply queued_record_in; [done|]. by rewrite Efr. }
  pose proof (peek_snapshot_ok A others a2 peek_maximum _ w Hw Hin Hm) as Hps.
  destruct (peek_snapshot _ _ _ _) as [h [snap|]]; [|by split; [|left]].
  destruct (publish _ _ x) as [x' [[]|]] eqn:Ep.
  2: { split; [|by left]. destruct snap as [o|]; [|destruct Hps as [-> _]; by rewrite socket_world_eta].
       by apply drop_option_world, Hps. }
  destruct snap as [o|].
  - destruct Hps as (Hw' & Hwh & m & -> & Hlo). split_and!; try done. right. exists e, q, p, rest. by split_and!.
  - destruct Hps as [-> ->].
    destruct (world_records _ _ _ _ _ _ Hw E Eqe) as [rest0 Hh0].
    pose proof (λ bs, receive_owned_spec A [] q (heap w) [] bs Hqok) as Hs.
    destruct (receive_owned [] q) as [[q' out] [[got bundle]|]].
    2: { destruct (Hs _ Hh0) as (_ & Hno & _). congruence. }
    destruct (Hs _ Hh0) as (p' & rest' & E1 & E2 & -> & Hq' & _ & _ & Hwh & _).
    assert (p' = p ∧ rest' = rest) as [-> ->] by (split; congruence). split_and!; try done.
    + apply (set_records_ok A others _ _ _ _ e q); try done. intros bs Hh.
      destruct (Hs _ Hh) as (p2 & rest2 & E3 & _ & Eb & _ & _ & Hh' & _). rewrite Eb in Hh'.
      assert (p2 = p) as -> by congruence. owned_by Hh'.
    + right. exists e, q, p, rest. split_and!; try done. by exists q'.
Qed.
End record_ops.
