(* ===== verification/SocketFlow.v ===== *)
(** * Local stream sockets as a bounded queue

    What [write], [commit_stream_with_rights] and [read_stream_with_rights] of
    [posix/src/socket.rs] do between two connected stream sockets, as a
    specification over one list: the bytes in transit, each with the
    references sent with it.  [stream_refines] shows that the socket table
    implements it for every sequence of operations. *)

From S2P Require Import Prelude SocketProtocol SocketRights SocketStream SocketRecord.
From S2P Require Import Socket SocketGraph SocketTable SocketOps.

(** ** The specification *)

(** A byte, and the references attached to it with the length of the span
    they were sent with. *)
Definition Transit : Type := list (Z * option (Bundle * Z)).

Inductive Flow :=
  | Flow_write (alloc : bool) (data : list Z)
  | Flow_send (alloc : bool) (data : list Z) (rights : Bundle)
  | Flow_read (count : nat).
Inductive Flow_result :=
  | Accepted (r : result Z Z)
  | Delivered (data : list Z) (rights : option Bundle)
  | Refused (e : Z).

(** Only bytes carry references, and at most [MAX_MARKERS] of them. *)
Definition spans (l : Transit) : Z := zlen (omap snd l).

(** A prefix is accepted, as long as what the room allows.  [plain] is a
    write without ancillary data, which allocates nothing when it is empty. *)
Definition accept_bytes (capacity : Z) (alloc plain : bool) (data : list Z) (rights : option Bundle) (l : Transit)
    : Transit * Flow_result :=
  let n := Z.min (zlen data) (capacity - zlen l) in
  if zlen data =? 0 then (l, Accepted (if alloc || plain then Ok 0 else Err (-12)))
  else if (n <=? 0) || (bool_decide (is_Some rights) && (MAX_MARKERS <=? spans l)) then (l, Accepted (Err (-11)))
  else if negb alloc then (l, Accepted (Err (-12)))
  else (l ++ sent_items (take (Z.to_nat n) data) rights, Accepted (Ok n)).

Definition conduit (capacity : Z) (op : Flow) (l : Transit) : Transit * Flow_result :=
  match op with
  | Flow_write alloc data => accept_bytes capacity alloc true data None l
  | Flow_send alloc data rights =>
      accept_bytes capacity alloc false data (if bundle_is_empty rights then None else Some rights) l
  | Flow_read O => (l, Delivered [] None)
  | Flow_read count =>
      match l with
      | [] => (l, Refused (-11))
      | _ => let c := span count l in (drop c l, Delivered (take c l).*1 (taken (take c l)))
      end
  end.
Fixpoint run_conduit (capacity : Z) (ops : list Flow) (l : Transit) : Transit * list Flow_result :=
  match ops with
  | [] => (l, [])
  | op :: ops =>
      let '(l, r) := conduit capacity op l in
      let '(l, rs) := run_conduit capacity ops l in (l, r :: rs)
  end.

(** ** The implementation *)

Section flow.
Context {SP : SocketProtocol}.

(** [a] writes, [b] reads. *)
Definition flow (a b : Z) (op : Flow) (w : World) : World * Flow_result :=
  match op with
  | Flow_write alloc data =>
      match write alloc a data (streams w) with (st, r) => (mkWorld (heap w) st, Accepted r) end
  | Flow_send alloc data rights =>
      match commit_stream_with_rights alloc a data rights w with
      | (w, Ok (n, _)) => (w, Accepted (Ok n))
      | (w, Err (e, _)) => (w, Accepted (Err e))
      end
  | Flow_read count =>
      match read_stream_with_rights b (replicate count 0) w with
      | (w, data, Ok (n, rights)) => (w, Delivered (take (Z.to_nat n) data) rights)
      | (w, _, Err e) => (w, Refused e)
      end
  end.
Fixpoint run_flow (a b : Z) (ops : list Flow) (w : World) : World * list Flow_result :=
  match ops with
  | [] => (w, [])
  | op :: ops =>
      let '(w, r) := flow a b op w in
      let '(w, rs) := run_flow a b ops w in (w, r :: rs)
  end.

(** The sockets are connected and open, and [l] is on its way from [a] to
    [b]. *)
Record carries (a b capacity : Z) (l : Transit) (w : World) : Prop := {
  ca_table : streams_ok (streams w);
  ca_ends : ∃ s r, find_endpoint a (entries (streams w)) = Some s ∧ find_endpoint b (entries (streams w)) = Some r ∧
    ep_kind s = Stream ∧ ep_kind r = Stream ∧ ep_peer s = Some b ∧ ep_peer r = Some a ∧ a ≠ b ∧
    ep_listener s = None ∧ ep_listener r = None ∧
    ep_write_shutdown s = false ∧ ep_read_shutdown r = false ∧ ep_error r = 0 ∧
    capacity = Z.min (ep_receive_capacity r) (ep_send_capacity s) ∧ items (ep_incoming r) = l;
}.

Lemma items_length q : zlen (items q) = stream_len q.
Proof. unfold items, stream_len, zlen. by rewrite length_imap. Qed.

Lemma items_from_skip k m ms bs : start m < k → items_from k (m :: ms) bs = items_from k ms bs.
Proof.
  intros H. unfold items_from. apply imap_ext. intros i x _. simpl. f_equal. by rewrite tag_cons, decide_False by lia.
Qed.
Lemma items_spans_from k ms bs :
  markers_ok k (k + zlen bs) ms →
  omap snd (items_from k ms bs) = (λ m, (marker_rights m, end_ m - start m)) <$> ms.
Proof.
  revert k ms. induction bs as [|b bs IH]; intros k ms Hok.
  { destruct ms as [|m ms]; [done|]. simpl in Hok. rewrite zlen_nil in Hok. lia. }
  rewrite items_from_cons. rewrite zlen_cons in Hok. destruct ms as [|m ms].
  { cbn [omap list_omap]. change (tag k []) with (@None (Bundle * Z)). simpl. apply (IH (k + 1) []). done. }
  simpl in Hok. destruct Hok as (Hs & He & Hw & Hne & Hms). rewrite tag_cons. case_decide as E.
  - cbn [omap list_omap snd]. rewrite items_from_skip by lia. rewrite IH by (eapply markers_ok_weaken; [exact Hms|lia|lia]). done.
  - rewrite (tag_below (end_ m) (k + (1 + zlen bs))) by (done || lia). cbn [omap list_omap snd]. apply IH. simpl.
    split_and!; try done; [lia|lia|lia|]. by replace (k + 1 + zlen bs) with (k + (1 + zlen bs)) by lia.
Qed.
Lemma items_spans q : stream_ok q → spans (items q) = zlen (markers q).
Proof.
  intros [Hm _ _]. unfold spans. rewrite items_items_from, items_spans_from by done. unfold zlen. by rewrite length_fmap.
Qed.

(** The receiver's queue is replaced. *)
Lemma carries_update a b capacity l w h q :
  carries a b capacity l w → stream_ok q →
  carries a b capacity (items q) (mkWorld h (update b (set_incoming q) (streams w))).
Proof.
  intros [Hst (s & r & Ha & Hb & Hks & Hkr & Hps & Hpr & Hne & Hls & Hlr & Hws & Hrs & He & Hc & Hl)] Hq.
  pose proof (find_ok _ _ _ Hst Hb) as Hr. split; simpl.
  - eapply update_ok; [done|done| |done|done]. destruct Hr. constructor; simpl; eauto.
  - exists s, (set_incoming q r). unfold update. simpl. rewrite find_alter_ne, find_alter_eq, Hb by done.
    split_and!; done.
Qed.
Lemma carries_heap a b capacity l w h : carries a b capacity l w → carries a b capacity l (mkWorld h (streams w)).
Proof. by intros []. Qed.

(** One operation of the implementation is one of the specification. *)
Definition refined (a b capacity : Z) (op : Flow) (l : Transit) (w : World) : Prop :=
  let '(w', r) := flow a b op w in
  let '(l', r') := conduit capacity op l in r = r' ∧ carries a b capacity l' w'.

Lemma capacity_bound a b capacity l w : carries a b capacity l w → 0 < capacity ≤ RECEIVE_CAPACITY.
Proof.
  intros [Hst (s & r & Ha & Hb & _ & _ & _ & _ & _ & _ & _ & _ & _ & _ & -> & _)].
  pose proof (eo_send _ (find_ok _ _ _ Hst Ha)). pose proof (eo_receive _ (find_ok _ _ _ Hst Hb)).
  unfold MIN_RECEIVE_CAPACITY, MIN_SEND_CAPACITY, SEND_CAPACITY, RECEIVE_CAPACITY in *. lia.
Qed.
Lemma no_records st i e : streams_ok st → find_endpoint i (entries st) = Some e → ep_kind e = Stream → ep_records e = None.
Proof.
  intros Hst He Hk. destruct (ep_records e) eqn:E; [|done]. exfalso.
  apply (proj1 (eo_records _ (find_ok _ _ _ Hst He))); [by rewrite E; eexists|done].
Qed.

Lemma write_refines a b capacity l alloc data w : carries a b capacity l w → refined a b capacity (Flow_write alloc data) l w.
Proof.
  intros Hc. pose proof (capacity_bound _ _ _ _ _ Hc) as Hcap.
  pose proof Hc as [Hst (s & r & Ha & Hb & Hks & Hkr & Hps & Hpr & Hne & Hls & Hlr & Hws & Hrs & He & Ec & Hl)].
  pose proof (find_ok _ _ _ Hst Hb) as Hr. pose proof (no_records _ _ _ Hst Ha Hks) as Hrec.
  unfold refined. cbn [flow conduit]. unfold accept_bytes, write, endpoint. rewrite Ha. simpl.
  rewrite Hrec, Hws, Hps. simpl. rewrite Hb. simpl. rewrite Hrs. rewrite <- Ec. subst l. rewrite items_length.
  pose proof (carries_heap _ _ _ _ _ (heap w) Hc) as Hc'.
  rewrite orb_true_r. destruct (zlen data =? 0) eqn:E0; [done|]. rewrite orb_false_r.
  unfold saturating_sub. pose proof (zlen_nonneg data). pose proof (zlen_nonneg (bytes (ep_incoming r))). unfold stream_len in *.
  destruct (_ <=? 0) eqn:E1.
  { replace (_ =? 0) with true by lia. done. }
  set (n := Z.min (zlen data) (capacity - zlen (bytes (ep_incoming r)))) in *.
  replace (Z.min (zlen data) _) with n by (unfold n; lia). replace (n =? 0) with false by lia.
  pose proof (stream_write_spec alloc (take (Z.to_nat n) data) (ep_incoming r) (eo_stream _ Hr)) as Hs.
  rewrite zlen_take, Z.min_l in Hs by lia. unfold stream_len in Hs.
  destruct (stream_write _ _ _) as [q [m|e]].
  - destruct Hs as (-> & -> & _ & Hi & Hq & _). simpl. split; [done|]. rewrite <- Hi. by eapply carries_update.
  - destruct Hs as [-> [[_ Hs]|[-> ->]]]; [lia|]. simpl. split; [done|].
    erewrite update_id; [done|done|]. by destruct r.
Qed.

Lemma send_length a b capacity l (data : list Z) rights w s r :
  carries a b capacity l w → find_endpoint a (entries (streams w)) = Some s → find_endpoint b (entries (streams w)) = Some r →
  stream_send_length (streams w) a (zlen data) rights =
  if zlen data =? 0 then Ok 0
  else if (Z.min (zlen data) (capacity - stream_len (ep_incoming r)) <=? 0)
          || (rights && (MAX_MARKERS <=? spans l)) then Err (-11)
  else Ok (Z.min (zlen data) (capacity - stream_len (ep_incoming r))).
Proof.
  intros [Hst (s' & r' & Ha & Hb & Hks & Hkr & Hps & Hpr & Hne & Hls & Hlr & Hws & Hrs & He & Ec & Hl)] Ha' Hb'.
  rewrite Ha in Ha'. injection Ha' as <-. rewrite Hb in Hb'. injection Hb' as <-.
  unfold stream_send_length, endpoint. rewrite Ha. simpl. rewrite (no_records _ _ _ Hst Ha Hks), Hws. simpl.
  rewrite Hps. simpl. rewrite Hb. simpl. rewrite Hrs. simpl. rewrite <- Ec.
  destruct (zlen data =? 0) eqn:E0; [done|]. pose proof (zlen_nonneg data). pose proof (zlen_nonneg (bytes (ep_incoming r'))).
  subst l. rewrite items_spans by apply (find_ok _ _ _ Hst Hb).
  unfold can_attach_rights, saturating_sub, stream_len in *.
  replace (negb (zlen (markers (ep_incoming r')) <? MAX_MARKERS)) with (MAX_MARKERS <=? zlen (markers (ep_incoming r'))) by lia.
  destruct (Z.min (zlen data) (capacity - zlen (bytes (ep_incoming r'))) <=? 0) eqn:E1; simpl.
  - by replace (_ =? 0) with true by lia.
  - replace (_ =? 0) with false by lia. simpl. destruct (_ && _); [done|]. f_equal. lia.
Qed.

Lemma empty_send_refines a b capacity l alloc rights w :
  carries a b capacity l w → refined a b capacity (Flow_send alloc [] rights) l w.
Proof.
  intros Hc. pose proof Hc as [Hst (s & r & Ha & Hb & _)].
  unfold refined. cbn [flow conduit]. unfold commit_stream_with_rights, accept_bytes.
  rewrite (send_length _ _ _ _ [] _ _ _ _ Hc Ha Hb). simpl. unfold endpoint. rewrite Ha. simpl.
  unfold write_with_rights, stream_write. simpl. rewrite orb_false_r.
  replace (zlen [] >? _) with false by (unfold saturating_sub; rewrite zlen_nil; lia).
  rewrite app_nil_r. destruct alloc; simpl.
  - split; [by rewrite zlen_nil|]. erewrite update_id; [by apply carries_heap|done|]. by destruct s as [? ? ? ? []].
  - split; [done|]. erewrite update_id; [by apply carries_heap|done|]. by destruct s.
Qed.

Lemma send_refines a b capacity l alloc data rights w :
  carries a b capacity l w → whole rights → refined a b capacity (Flow_send alloc data rights) l w.
Proof.
  intros Hc Hw. destruct (decide (data = [])) as [->|Hd]; [by apply empty_send_refines|].
  assert ((zlen data =? 0) = false) as E0 by (destruct data; [done|]; rewrite zlen_cons; pose proof (zlen_nonneg data); lia).
  pose proof (capacity_bound _ _ _ _ _ Hc) as Hcap.
  pose proof Hc as [Hst (s & r & Ha & Hb & _ & _ & Hps & _ & _ & _ & _ & _ & _ & _ & _ & Hl)].
  unfold refined. cbn [flow conduit]. unfold commit_stream_with_rights, accept_bytes.
  assert (zlen l = stream_len (ep_incoming r)) as Hlen by (rewrite <- Hl; apply items_length).
  rewrite (send_length _ _ _ _ _ _ _ _ _ Hc Ha Hb), E0, Hlen.
  set (n := Z.min (zlen data) (capacity - stream_len (ep_incoming r))).
  assert (bool_decide (is_Some (if bundle_is_empty rights then None else Some rights)) = negb (bundle_is_empty rights)) as ->
    by by destruct (bundle_is_empty rights).
  destruct ((n <=? 0) || _) eqn:E1; [done|]. apply orb_false_iff in E1 as [E1 E2].
  replace (n =? 0) with false by lia. unfold endpoint. rewrite Ha. simpl. rewrite Hps. simpl. rewrite Hb. simpl.
  pose proof (write_with_rights_items alloc (take (Z.to_nat n) data) rights (ep_incoming r) (heap w)
    (eo_stream _ (find_ok _ _ _ Hst Hb)) Hw) as Hs.
  rewrite zlen_take, Z.min_l in Hs by lia.
  destruct (write_with_rights _ _ _ _ _) as [[q h] [m|[e rights']]].
  - destruct Hs as (-> & -> & Hq & Hi). simpl. split; [done|]. rewrite <- Hl, <- Hi. by eapply carries_update.
  - destruct Hs as (-> & -> & -> & [[-> ->]|[-> Hf]]); simpl.
    + split; [done|]. erewrite update_id; [by apply carries_heap|done|]. by destruct r.
    + exfalso. rewrite <- Hl, items_spans in E2 by apply (find_ok _ _ _ Hst Hb).
      destruct Hf as [Hf|[Hf1 Hf2]]; [lia|]. rewrite Hf1 in E2. simpl in E2. lia.
Qed.

Lemma open_read a b capacity l w r n :
  carries a b capacity l w → find_endpoint b (entries (streams w)) = Some r → 0 < n →
  stream_read_count b n 0 (streams w) =
  (streams w, if stream_len (ep_incoming r) =? 0 then Err (-11) else Ok (Z.min n (stream_len (ep_incoming r)))).
Proof.
  intros [Hst (s & r' & Ha & Hb & Hks & Hkr & Hps & Hpr & Hne & Hls & Hlr & Hws & Hrs & He & Ec & Hl)] Hb' Hn.
  rewrite Hb in Hb'. injection Hb' as <-. pose proof (no_records _ _ _ Hst Hb Hkr) as Hrec.
  unfold stream_read_count, readiness, endpoint. rewrite Hb. simpl. rewrite Hrec, Hlr, Hpr. simpl. rewrite Ha. simpl.
  rewrite Hrs, Hws, He. simpl. replace (n =? 0) with false by lia. simpl. rewrite andb_false_r.
  unfold saturating_sub. rewrite Z.sub_0_r. pose proof (zlen_nonneg (bytes (ep_incoming r'))). unfold stream_len in *.
  rewrite Z.max_r by lia. destruct (zlen (bytes (ep_incoming r')) =? 0) eqn:E.
  - by replace (Z.min _ _ =? 0) with true by lia.
  - by replace (Z.min _ _ =? 0) with false by lia.
Qed.

Lemma owned_part (m count : nat) q rest :
  stream_ok q → (m ≤ count)%nat →
  let c := span m (items q) in
  ∃ q' data, read_owned (take m (replicate count 0)) q = (q', data, (Z.of_nat c, taken (take c (items q)))) ∧
    stream_ok q' ∧ items q' = drop c (items q) ∧ take c (data ++ rest) = (take c (items q)).*1.
Proof.
  intros Hq Hm. pose proof (read_owned_spec (take m (replicate count 0)) _ Hq) as Hs.
  destruct (read_owned _ _) as [[q' data] [n rights]]. rewrite length_take, length_replicate, Nat.min_l in Hs by done.
  destruct Hs as (-> & -> & -> & Hi & Hok & _ & _). exists q'. eexists. split_and!; try done.
  pose proof (read_length_span (Z.of_nat m) q Hq ltac:(lia)) as Hr. rewrite Nat2Z.id in Hr.
  pose proof (read_length_bounds (Z.of_nat m) q Hq ltac:(lia)) as Hb. rewrite Hr, <- items_length in Hb. unfold zlen in Hb.
  unfold blit. rewrite take_0. simpl. rewrite <- app_assoc. rewrite take_app_length'; [done|].
  rewrite length_fmap, length_take. lia.
Qed.

Lemma span_min n q : stream_ok q → span (n `min` length (items q)) (items q) = span n (items q).
Proof.
  intros Hq. apply Nat2Z.inj.
  pose proof (read_length_span (Z.of_nat n) q Hq ltac:(lia)) as H1. rewrite Nat2Z.id in H1.
  pose proof (read_length_span (Z.of_nat (n `min` length (items q))) q Hq ltac:(lia)) as H2. rewrite Nat2Z.id in H2.
  rewrite <- H1, <- H2. unfold read_length. pose proof (items_length q) as Hl. unfold zlen in Hl.
  replace (Z.min (Z.of_nat (n `min` length (items q))) (stream_len q)) with (Z.min (Z.of_nat n) (stream_len q)) by lia. done.
Qed.

Lemma read_refines a b capacity l count w : carries a b capacity l w → refined a b capacity (Flow_read count) l w.
Proof.
  intros Hc. pose proof Hc as [Hst (s & r & Ha & Hb & Hks & Hkr & Hps & Hpr & Hne & Hls & Hlr & Hws & Hrs & He & Ec & Hl)].
  pose proof (eo_stream _ (find_ok _ _ _ Hst Hb)) as Hq. pose proof (no_records _ _ _ Hst Hb Hkr) as Hrec.
  unfold refined. cbn [flow]. unfold read_stream_with_rights.
  replace (zlen (replicate count 0)) with (Z.of_nat count) by (unfold zlen; by rewrite length_replicate).
  destruct count as [|k].
  - unfold stream_read_count, readiness, endpoint. rewrite Hb. simpl. rewrite Hrec, Hlr, Hpr. simpl. rewrite Hb. simpl.
    destruct (owned_part 0 0 _ [] Hq (le_n _)) as (q' & data & Er & Hok & Hi & Hd). simpl in Er, Hi, Hd. rewrite Er. simpl.
    split; [done|]. rewrite <- Hl. rewrite drop_0 in Hi. rewrite <- Hi. by eapply carries_update.
  - rewrite (open_read _ _ _ _ _ _ _ Hc Hb) by lia. rewrite <- (items_length (ep_incoming r)), Hl. cbn [conduit].
    destruct l as [|x l'] eqn:El; [simpl; split; [done|]; by apply carries_heap|].
    assert ((zlen l =? 0) = false) as E0 by (rewrite El, zlen_cons; pose proof (zlen_nonneg l'); lia).
    rewrite <- El in *. clear El x l'. rewrite E0. unfold endpoint. rewrite Hb. cbn [ok_or].
    replace (Z.to_nat (Z.min (Z.of_nat (S k)) (zlen l))) with (S k `min` length l)%nat by (unfold zlen; lia).
    destruct (owned_part (S k `min` length l) (S k) _ (drop (S k `min` length l) (replicate (S k) 0)) Hq ltac:(lia))
      as (q' & data & Er & Hok & Hi & Hd).
    rewrite <- Hl in *. rewrite span_min in Er, Hi, Hd by done. rewrite Er. rewrite Nat2Z.id.
    split; [by rewrite Hd|]. rewrite <- Hi. by eapply carries_update.
Qed.

(** A connected pair of stream sockets behaves as the bounded queue, for
    every sequence of writes, sends with references and reads. *)
Lemma flow_refines a b capacity ops l w :
  carries a b capacity l w → (∀ alloc data rights, Flow_send alloc data rights ∈ ops → whole rights) →
  let '(w', rs) := run_flow a b ops w in
  let '(l', rs') := run_conduit capacity ops l in rs = rs' ∧ carries a b capacity l' w'.
Proof.
  revert l w. induction ops as [|op ops IH]; intros l w Hc Hw; [done|]. simpl.
  assert (refined a b capacity op l w) as Hr.
  { destruct op as [alloc data|alloc data rights|count];
      [by apply write_refines|apply send_refines; [done|]; eapply Hw; by left|by apply read_refines]. }
  unfold refined in Hr. destruct (flow a b op w) as [w1 r], (conduit capacity op l) as [l1 r1]. destruct Hr as [-> Hc1].
  specialize (IH l1 w1 Hc1 ltac:(intros; eapply Hw; by right)).
  destruct (run_flow a b ops w1) as [w2 rs], (run_conduit capacity ops l1) as [l2 rs']. destruct IH as [-> ?]. done.
Qed.

(** ** Order *)

(** The bytes an operation put in, and took out. *)
Definition entered (op : Flow) (r : Flow_result) : list Z :=
  match op, r with
  | Flow_write _ data, Accepted (Ok n) | Flow_send _ data _, Accepted (Ok n) => take (Z.to_nat n) data
  | _, _ => []
  end.
Definition received_bytes (r : Flow_result) : list Z := match r with Delivered data _ => data | _ => [] end.

Lemma sent_bytes data rights : (sent_items data rights).*1 = data.
Proof.
  assert (∀ g : nat → option (Bundle * Z), (imap (λ i b, (b, g i)) data).*1 = data) as H; [|apply H].
  induction data as [|x data IH]; intros g; [done|]. rewrite imap_cons. csimpl. f_equal. apply (IH (g ∘ S)).
Qed.

Lemma conduit_step capacity op l :
  let '(l', r) := conduit capacity op l in l.*1 ++ entered op r = received_bytes r ++ l'.*1.
Proof.
  assert (∀ alloc plain data rights, match accept_bytes capacity alloc plain data rights l with
    | (l', Accepted (Ok n)) => l.*1 ++ take (Z.to_nat n) data = l'.*1 | (l', Accepted (Err _)) => l' = l | _ => False end) as Ha.
  { intros alloc plain data rights. unfold accept_bytes. destruct (zlen data =? 0).
    - destruct (alloc || plain); [|done]. by rewrite take_0, app_nil_r.
    - case_ifs; try done. by rewrite fmap_app, sent_bytes. }
  destruct op as [alloc data|alloc data rights|[|count]]; simpl.
  - specialize (Ha alloc true data None). destruct (accept_bytes _ _ _ _ _ _) as [l' [[n|]| |]]; simpl; try done. by subst; rewrite app_nil_r.
  - specialize (Ha alloc false data (if bundle_is_empty rights then None else Some rights)).
    destruct (accept_bytes _ _ _ _ _ _) as [l' [[n|]| |]]; simpl; try done. by subst; rewrite app_nil_r.
  - by rewrite app_nil_r.
  - destruct l as [|x l]; [done|]. cbn [entered received_bytes]. by rewrite app_nil_r, <- fmap_app, take_drop.
Qed.
Lemma conduit_fifo capacity ops l :
  let '(l', rs) := run_conduit capacity ops l in
  l.*1 ++ mjoin (zip_with entered ops rs) = mjoin (received_bytes <$> rs) ++ l'.*1.
Proof.
  revert l. induction ops as [|op ops IH]; intros l; simpl; [by rewrite app_nil_r|].
  pose proof (conduit_step capacity op l) as Hs. destruct (conduit capacity op l) as [l1 r].
  specialize (IH l1). destruct (run_conduit capacity ops l1) as [l2 rs]. simpl.
  by rewrite app_assoc, Hs, <- app_assoc, IH, app_assoc.
Qed.

(** C8: Writes, sends with references and reads on a connected pair of stream
    sockets behave as operations on one bounded list of bytes, each with the
    reference sent at it: every result is the one of that list, the pair
    keeps carrying it, and the bytes received followed by those still on
    their way are the bytes that were on their way followed by those
    accepted, in order. *)
Theorem stream_refines a b capacity ops l w :
  carries a b capacity l w → (∀ alloc data rights, Flow_send alloc data rights ∈ ops → whole rights) →
  let '(w', rs) := run_flow a b ops w in
  let '(l', rs') := run_conduit capacity ops l in
  rs = rs' ∧ carries a b capacity l' w' ∧
  l.*1 ++ mjoin (zip_with entered ops rs) = mjoin (received_bytes <$> rs) ++ l'.*1.
Proof.
  intros Hc Hw. pose proof (flow_refines a b capacity ops l w Hc Hw) as Hr. pose proof (conduit_fifo capacity ops l) as Hf.
  destruct (run_flow a b ops w) as [w' rs], (run_conduit capacity ops l) as [l' rs']. destruct Hr as [-> Hr]. done.
Qed.

(** ** Polling *)

Definition would_block {A} (r : result Z A) : Prop := r = Err (-11).

Lemma poll_stream_read st id e ready n :
  streams_ok st → find_endpoint id (entries st) = Some e → readiness st id = Ok ready →
  ep_kind e = Stream → ep_listener e = None → 0 < n →
  would_block (snd (stream_read_count id n 0 st)) ↔ readable ready = false ∧ ep_error e = 0.
Proof.
  intros Hst He Hr Hk Hl Hn. pose proof (no_records _ _ _ Hst He Hk) as Hrec. pose proof (find_ok _ _ _ Hst He) as Hok.
  unfold would_block, stream_read_count. rewrite Hr. revert Hr. unfold readiness, endpoint. rewrite He. simpl.
  rewrite Hrec, Hl. simpl. replace (n =? 0) with false by lia. simpl. unfold saturating_sub. rewrite Z.sub_0_r.
  unfold stream_is_empty, stream_len. pose proof (zlen_nonneg (bytes (ep_incoming e))). rewrite Z.max_r by lia.
  case_bool_decide as Hp; intros [= <-]; simpl.
  { destruct (ep_read_shutdown e); simpl; naive_solver. }
  destruct (ep_read_shutdown e); simpl; [rewrite orb_true_r; naive_solver|].
  destruct (zlen (bytes (ep_incoming e)) =? 0) eqn:E0; simpl.
  - destruct (ep_error e =? 0) eqn:Ee; simpl.
    + replace (Z.min n _ =? 0) with true by lia. simpl. destruct (is_none_or _ _); simpl; [naive_solver|]. split; [|done]. intros _. split; [done|lia].
    + destruct (eo_error _ Hok) as [Hz|Hz]; [lia|]. rewrite Hz. split; [done|intros [_ ?]; lia].
  - replace (Z.min n _ =? 0) with false by lia. simpl. naive_solver.
Qed.

Lemma poll_stream_write st id e ready data :
  streams_ok st → find_endpoint id (entries st) = Some e → readiness st id = Ok ready →
  ep_kind e = Stream → ep_listener e = None → data ≠ [] →
  would_block (snd (write true id data st)) ↔ writable ready = false ∧ write_closed ready = false.
Proof.
  intros Hst He Hr Hk Hl Hd. pose proof (no_records _ _ _ Hst He Hk) as Hrec.
  unfold would_block, write. revert Hr. unfold readiness, endpoint. rewrite He. simpl. rewrite Hrec, Hl. simpl.
  assert ((zlen data =? 0) = false) as E0 by (destruct data; [done|]; rewrite zlen_cons; pose proof (zlen_nonneg data); lia).
  case_bool_decide as Hp; intros [= <-]; simpl.
  { rewrite Hp. destruct (ep_write_shutdown e); simpl; naive_solver. }
  destruct (ep_write_shutdown e); simpl; [naive_solver|]. destruct (ep_peer e) as [peer|]; [simpl|done].
  destruct (find_endpoint peer (entries st)) as [r|] eqn:Er; simpl; [|naive_solver].
  destruct (ep_read_shutdown r); simpl; [naive_solver|]. rewrite E0.
  pose proof (find_ok _ _ _ Hst Er) as Hok. pose proof (find_ok _ _ _ Hst He) as Hok'. pose proof (zlen_nonneg data).
  pose proof (eo_receive _ Hok). pose proof (eo_send _ Hok'). pose proof (zlen_nonneg (bytes (ep_incoming r))).
  unfold saturating_sub, stream_len, MIN_RECEIVE_CAPACITY, MIN_SEND_CAPACITY in *.
  destruct (zlen (bytes (ep_incoming r)) <? _) eqn:El.
  - replace (Z.min (zlen data) _ =? 0) with false by lia. unfold stream_write, saturating_sub, stream_len.
    rewrite zlen_take by lia. replace (_ >? _) with false by lia. simpl. naive_solver.
  - by replace (Z.min (zlen data) _ =? 0) with true by lia.
Qed.
Lemma poll_accept st id e l ready :
  streams_ok st → find_endpoint id (entries st) = Some e → readiness st id = Ok ready → ep_listener e = Some l →
  would_block (snd (begin_accept id st)) ↔ readable ready = false.
Proof.
  intros Hst He Hr Hl. unfold would_block, begin_accept. revert Hr. unfold readiness, endpoint. rewrite He. simpl.
  assert (ep_records e = None ∨ ep_kind e = SequencedPacket) as Hk.
  { destruct (ep_records e) eqn:Er; [right|by left].
    pose proof (gk_listener _ _ (sk_graph _ Hst) id (link e) l) as Hg. rewrite graph_lookup, He in Hg.
    destruct (Hg eq_refl Hl) as (_ & _ & Hd & _). simpl in Hd.
    pose proof (find_ok _ _ _ Hst He) as Hok. destruct (eo_kind _ Hok) as [Ek|[Ek|Ek]]; [|done|done].
    exfalso. apply (proj1 (eo_records _ Hok)); [by rewrite Er; eexists|done]. }
  assert (∀ r : result Z Readiness, r = Ok ready → r = Ok (mkReadiness (negb (zlen (pending l) =? 0)) false false false false) →
    readable ready = negb (zlen (pending l) =? 0)) as Hacc by naive_solver.
  intros Hr. rewrite (Hacc _ Hr) by (destruct Hk as [->| ->]; [|destruct (ep_records e)]; by rewrite Hl).
  rewrite Hl. simpl. destruct (pending l) as [|p ps] eqn:Ep; [done|]. rewrite zlen_cons. pose proof (zlen_nonneg ps).
  replace (1 + zlen ps =? 0) with false by lia. simpl. split; [|done].
  destruct (find_endpoint p (entries st)) as [q|]; [|done]. simpl. unfold ensure.
  repeat case_bool_decide; try done; simpl; by destruct (_ >? _).
Qed.

Lemma poll_record_send st id e q ready :
  0 ≤ MAX_RECORD_SIZE → streams_ok st → find_endpoint id (entries st) = Some e → readiness st id = Ok ready →
  ep_records e = Some q → ep_listener e = None →
  record_send_ready st id 0 = Ok (writable ready || write_closed ready).
Proof.
  intros Hm Hst He Hr Hq Hl. pose proof (find_ok _ _ _ Hst He) as Hok.
  unfold record_send_ready. revert Hr. unfold readiness, endpoint. rewrite He. simpl. rewrite Hq, Hl. simpl.
  replace (0 >? MAX_RECORD_SIZE) with false by lia. simpl.
  assert ((if bool_decide (ep_kind e = SequencedPacket) then @None Listener else None) = None) as -> by by case_bool_decide.
  destruct (ep_peer e) as [p|] eqn:Ep; simpl.
  - rewrite andb_false_r.
    intros [= <-]. simpl. rewrite orb_false_r. destruct (ep_write_shutdown e); simpl; [done|].
    destruct (find_endpoint p (entries st)) as [t|] eqn:Et; simpl; [|done].
    destruct (ep_read_shutdown t || _); simpl; [done|].
    assert (∃ qt, ep_records t = Some qt) as [qt Eqt].
    { pose proof (gk_peer _ _ (sk_graph _ Hst) id (link e) p) as Hg. rewrite graph_lookup, He in Hg.
      destruct (Hg eq_refl Ep) as (_ & _ & Hk). specialize (Hk (link t)). rewrite graph_lookup, Et in Hk.
      destruct (Hk eq_refl) as [Ek _]. simpl in Ek. apply (proj2 (eo_records _ (find_ok _ _ _ Hst Et))). rewrite Ek.
      apply (proj1 (eo_records _ Hok)). by eexists. }
    rewrite Eqt. simpl. rewrite orb_false_r.
    pose proof (ro_capacity _ (eo_packets _ (find_ok _ _ _ Hst Et) _ Eqt)). pose proof (eo_send _ Hok).
    unfold can_push, MIN_RECEIVE_CAPACITY, MIN_SEND_CAPACITY in *.
    replace (0 >? MAX_RECORD_SIZE) with false by lia. by replace (Z.max 0 1 >? _) with false by lia.
  - destruct (bool_decide (ep_kind e = _)); simpl; intros [= <-]; simpl; [by rewrite orb_true_r|].
    by destruct (ep_write_shutdown e).
Qed.
Lemma poll_record_receive st id e q ready output :
  streams_ok st → find_endpoint id (entries st) = Some e → readiness st id = Ok ready →
  ep_records e = Some q → ep_listener e = None → (ep_kind e = SequencedPacket → is_Some (ep_peer e)) →
  (snd (record_read_terminal id st) = Ok false ∧ would_block (snd (receive_owned output q))) ↔ readable ready = false.
Proof.
  intros Hst He Hr Hq Hl Hp.
  assert (would_block (snd (receive_owned output q)) ↔ is_readable q = false) as ->.
  { unfold would_block, receive_owned, is_readable. destruct (records q) as [|r rs]; [done|]. rewrite zlen_cons.
    pose proof (zlen_nonneg rs). replace (1 + zlen rs =? 0) with false by lia. done. }
  unfold record_read_terminal. rewrite Hr. revert Hr. unfold readiness, endpoint. rewrite He. simpl. rewrite Hq, Hl. simpl.
  assert ((if bool_decide (ep_kind e = SequencedPacket) then @None Listener else None) = None) as -> by by case_bool_decide.
  case_bool_decide as Hk; simpl.
  - destruct (Hp Hk) as [p Ep]. rewrite Ep. simpl. intros [= <-]. simpl.
    destruct (ep_read_shutdown e); simpl; [rewrite orb_true_r; naive_solver|]. rewrite orb_false_r.
    destruct (is_readable q); simpl; [naive_solver|]. destruct (ep_error e =? 0); simpl; [|rewrite orb_true_r; naive_solver].
    rewrite orb_false_r. destruct (is_none_or _ _); naive_solver.
  - intros [= <-]. simpl. destruct (ep_read_shutdown e); simpl; [rewrite orb_true_r; naive_solver|].
    rewrite !orb_false_r. naive_solver.
Qed.

End flow.
