(* ===== verification/SocketBinding.v ===== *)
(** * Pathname bindings of sockets

    Models [posix/src/socket_binding.rs]: which socket description is bound
    to which inode, and the lookups that retain an inode while a connection
    waits.  Handles are of an abstract type [H] with a default that stands
    for none; the delegated filesystem is the class [Filesystem] over an
    abstract state, as the trait of the source.

    [Ledger] counts what a filesystem hands out and takes back.  Every
    operation is proved to keep the ledger balanced: what was opened is what
    was closed and what the caller still retains. *)

From S2P Require Import Prelude SocketProtocol SocketRights SocketStream SocketRecord.
From S2P Require Import Socket SocketGraph SocketTable SocketOps SocketRecordOps.

Class NodeProtocol := {
  HANDLE_RIGHT_DUPLICATE : Z;
  NODE_TYPE_SOCKET : Z;
}.
(** [filesystem::NodeStatus]: the fields that the sources read. *)
Record NodeStatus := mkStatus { node_kind : Z; node_id : Z; link_count : Z; device : Z }.

Record OpenedObject (H : Type) := mkOpened { opened_handle : H; opened_rights : Z }.
Arguments mkOpened {H}.
Arguments opened_handle {H}.
Arguments opened_rights {H}.

(** The trait [Filesystem]. *)
Class Filesystem (H Y : Type) := {
  create_socket : list Z → Y → Y * result Z (OpenedObject H * NodeStatus);
  open_socket : list Z → Y → Y * result Z (OpenedObject H * NodeStatus);
  close_file : H → Y → Y;
}.

(** [H::default()]: no handle. *)
Class DefaultHandle (H : Type) := no_handle : H.

Record SavedName := mkSaved { saved_array : list Z; saved_length : Z }.

Record BindingRecord (H : Type) := mkBinding {
  bound_socket : Z; bound_file : H; identity : Z * Z; bound_name : SavedName }.
Record ConnectTarget (H : Type) := mkTarget {
  target_file : H; target_identity : Z * Z; target_client : Z; target_listener : Z;
  client_name : option SavedName; listener_name : SavedName }.
Record DatagramTarget (H : Type) := mkDatagram {
  datagram_file : H; datagram_client : Z; datagram_socket : Z; datagram_source : SourceAddress }.
Arguments mkBinding {H}.
Arguments bound_socket {H}.
Arguments bound_file {H}.
Arguments identity {H}.
Arguments bound_name {H}.
Arguments mkTarget {H}.
Arguments target_file {H}.
Arguments target_identity {H}.
Arguments target_client {H}.
Arguments target_listener {H}.
Arguments client_name {H}.
Arguments listener_name {H}.
Arguments mkDatagram {H}.
Arguments datagram_file {H}.
Arguments datagram_client {H}.
Arguments datagram_socket {H}.
Arguments datagram_source {H}.

(** [Bindings::release_with]; [close] is the caller's callback. *)
Definition release_binding {H Y} (close : H → Y → Y) (socket : Z) (bs : list (BindingRecord H)) (y : Y)
    : list (BindingRecord H) * Y :=
  match iter_position (λ r, bound_socket r =? socket) bs with
  | None => (bs, y)
  | Some index =>
      match bs !! index with
      | None => (bs, y)
      | Some r => (swap_remove index bs, close (bound_file r) y)
      end
  end.

Section binding.
Context {SP : SocketProtocol} {NP : NodeProtocol}.
Context {H : Type} `{!EqDecision H} `{!DefaultHandle H} {Y : Type} `{!Filesystem H Y}.

Definition NODE_RIGHTS : Z := Z.lor HANDLE_RIGHT_DUPLICATE HANDLE_RIGHT_TRANSFER.

(** [SavedName::new] and [SavedName::as_bytes]. *)
Definition saved_new (name : list Z) : SavedName :=
  mkSaved (blit 0 name (replicate (Z.to_nat MAX_UNIX_NAME_BYTES) 0)) (zlen name).
Definition saved_bytes (n : SavedName) : list Z := take (Z.to_nat (saved_length n)) (saved_array n).

Definition valid_path (path : list Z) : bool :=
  negb ((zlen path =? 0) || (zlen path >? MAX_UNIX_NAME_BYTES) || existsb (λ b, b =? 0) path).

(** [Bindings::address] and [Bindings::retained_file]. *)
Definition find_binding (socket : Z) (bs : list (BindingRecord H)) : option (BindingRecord H) :=
  snd <$> list_find (λ r, bound_socket r = socket) bs.
Definition bound_address (bs : list (BindingRecord H)) (socket : Z) : option (list Z) :=
  (λ r, saved_bytes (bound_name r)) <$> find_binding socket bs.
Definition retained_file (bs : list (BindingRecord H)) (socket : Z) : option H := bound_file <$> find_binding socket bs.

Definition is_handle (h : H) : bool := negb (bool_decide (h = no_handle)).
(** Closing what a lookup returned, when it returned something. *)
Definition close_opened (file : OpenedObject H) (y : Y) : Y :=
  if is_handle (opened_handle file) then close_file (opened_handle file) y else y.

(** [Bindings::bind_path]. *)
Definition bind_path (alloc : bool) (st : Streams) (socket : Z) (path : list Z) (bs : list (BindingRecord H)) (y : Y)
    : list (BindingRecord H) * Y * result Z unit :=
  match (_ ← options st socket;
         _ ← ensure (negb (existsb (λ r, bound_socket r =? socket) bs)) (-22);
         _ ← ensure (valid_path path) (-22);
         ensure alloc (-12)) with
  | Err e => (bs, y, Err e)
  | Ok _ =>
      match create_socket path y with
      | (y, Err e) => (bs, y, Err (if e =? -17 then -98 else e))
      | (y, Ok (file, status)) =>
          if negb (is_handle (opened_handle file) && (opened_rights file =? NODE_RIGHTS)
                   && (node_kind status =? NODE_TYPE_SOCKET) && negb (node_id status =? 0)
                   && (link_count status =? 1))
          then (bs, close_opened file y, Err (-5))
          else
            let ident := (device status, node_id status) in
            if existsb (λ r, bool_decide (identity r = ident)) bs
            then (bs, close_file (opened_handle file) y, Err (-5))
            else (bs ++ [mkBinding socket (opened_handle file) ident (saved_new path)], y, Ok tt)
      end
  end.

(** The checks that the lookups share: what was opened is a bound socket. *)
Definition opened_binding (bs : list (BindingRecord H)) (file : OpenedObject H) (status : NodeStatus)
    : result Z (BindingRecord H) :=
  _ ← ensure (is_handle (opened_handle file) && (opened_rights file =? NODE_RIGHTS)
              && negb (node_id status =? 0)) (-5);
  _ ← ensure (node_kind status =? NODE_TYPE_SOCKET) (-111);
  ok_or (-111) (snd <$> list_find (λ r, identity r = (device status, node_id status)) bs).

(** The error of a lookup. *)
Definition open_error (e : Z) : Z := if e =? -88 then -111 else e.

(** [streams.listening_backlog(id).ok().flatten().is_some()]. *)
Definition is_listening (st : Streams) (id : Z) : bool :=
  match listening_backlog st id with Ok (Some _) => true | _ => false end.

(** [Bindings::prepare_connect]. *)
Definition prepare_connect (st : Streams) (client : Z) (path : list Z) (bs : list (BindingRecord H)) (y : Y)
    : Y * result Z (ConnectTarget H) :=
  match (_ ← check_connect st client; ensure (valid_path path) (-22)) with
  | Err e => (y, Err e)
  | Ok _ =>
      match open_socket path y with
      | (y, Err e) => (y, Err (open_error e))
      | (y, Ok (file, status)) =>
          match (listener ← opened_binding bs file status;
                 _ ← ensure (is_listening st (bound_socket listener)) (-111);
                 Ok (mkTarget (opened_handle file) (device status, node_id status) client (bound_socket listener)
                       (saved_new <$> bound_address bs client) (saved_new (saved_bytes (bound_name listener))))) with
          | Err e => (close_opened file y, Err e)
          | Ok target => (y, Ok target)
          end
      end
  end.

(** [Bindings::try_connect]. *)
Definition try_connect (alloc : bool) (bs : list (BindingRecord H)) (target : ConnectTarget H) : stM Streams Z (Z * Z) := λ st,
  match check_connect st (target_client target) with
  | Err e => (st, Err e)
  | Ok _ =>
      if negb (existsb (λ r, (bound_socket r =? target_listener target)
                             && bool_decide (identity r = target_identity target)) bs)
         || negb (is_listening st (target_listener target)) then (st, Err (-111))
      else
        match connect_named alloc (target_client target) (target_listener target)
                (saved_bytes <$> client_name target) (saved_bytes (listener_name target)) st with
        | (st, r) => (st, (λ accepted, (target_listener target, accepted)) <$> r)
        end
  end.

(** [Bindings::connect_path]. *)
Definition connect_path (alloc : bool) (client : Z) (path : list Z) (bs : list (BindingRecord H)) (st : Streams) (y : Y)
    : Streams * Y * result Z (Z * Z) :=
  match prepare_connect st client path bs y with
  | (y, Err e) => (st, y, Err e)
  | (y, Ok target) =>
      match try_connect alloc bs target st with
      | (st, r) => (st, close_file (target_file target) y, r)
      end
  end.

(** [Bindings::connect_datagram_path]. *)
Definition connect_datagram_path (client : Z) (path : list Z) (bs : list (BindingRecord H)) (w : World) (y : Y)
    : World * Y * result Z Z :=
  match (k ← kind (streams w) client; _ ← ensure (bool_decide (k = Datagram)) (-91);
         ensure (valid_path path) (-22)) with
  | Err e => (w, y, Err e)
  | Ok _ =>
      match open_socket path y with
      | (y, Err e) => (w, y, Err (open_error e))
      | (y, Ok (file, status)) =>
          match opened_binding bs file status with
          | Err e => (w, close_opened file y, Err e)
          | Ok target =>
              match connect_datagram_named client (bound_socket target) (bound_address bs client)
                      (saved_bytes (bound_name target)) w with
              | (w, r) => (w, close_opened file y, (λ _, bound_socket target) <$> r)
              end
          end
      end
  end.

(** [Bindings::prepare_datagram_target]. *)
Definition prepare_datagram_target (st : Streams) (client : Z) (path : list Z) (bs : list (BindingRecord H)) (y : Y)
    : Y * result Z (DatagramTarget H) :=
  match (k ← kind st client; _ ← ensure (bool_decide (k = Datagram)) (-91);
         _ ← ensure (valid_path path) (-22);
         source_new (match bound_address bs client with Some n => UnixPath n | None => UnixUnnamed end)) with
  | Err e => (y, Err e)
  | Ok source =>
      match open_socket path y with
      | (y, Err e) => (y, Err (open_error e))
      | (y, Ok (file, status)) =>
          match (target ← opened_binding bs file status;
                 k ← map_err (λ _, -111) (kind st (bound_socket target));
                 _ ← ensure (bool_decide (k = Datagram)) (-91);
                 Ok (mkDatagram (opened_handle file) client (bound_socket target) source)) with
          | Err e => (close_opened file y, Err e)
          | Ok target => (y, Ok target)
          end
      end
  end.
End binding.

(** ** What a filesystem handed out *)

Record Ledger (H Y : Type) := mkLedger { backend : Y; opened_files : list H; closed_files : list H }.
Arguments mkLedger {H Y}.
Arguments backend {H Y}.
Arguments opened_files {H Y}.
Arguments closed_files {H Y}.

Section ledger.
Context {H : Type} `{!EqDecision H} `{!DefaultHandle H} {Y : Type} `{!Filesystem H Y}.

Definition note_opened (r : result Z (OpenedObject H * NodeStatus)) (opened : list H) : list H :=
  match r with
  | Ok (file, _) => if is_handle (opened_handle file) then opened ++ [opened_handle file] else opened
  | Err _ => opened
  end.

(** Any filesystem, with a record of its handles. *)
#[export] Instance ledger : Filesystem H (Ledger H Y) := {|
  create_socket path y :=
    let '(b, r) := create_socket path (backend y) in (mkLedger b (note_opened r (opened_files y)) (closed_files y), r);
  open_socket path y :=
    let '(b, r) := open_socket path (backend y) in (mkLedger b (note_opened r (opened_files y)) (closed_files y), r);
  close_file h y := mkLedger (close_file h (backend y)) (opened_files y) (closed_files y ++ [h]);
|}.

(** Every handle is closed, once, or among [held]. *)
Definition balanced (held : list H) (y : Ledger H Y) : Prop := opened_files y ≡ₚ closed_files y ++ held.

#[export] Instance balanced_perm : Proper ((≡ₚ) ==> eq ==> iff) balanced.
Proof. intros l l' Hl y ? <-. unfold balanced. by rewrite Hl. Qed.

Definition opened_list (file : OpenedObject H) : list H :=
  if is_handle (opened_handle file) then [opened_handle file] else [].

Lemma close_balanced h held (y : Ledger H Y) : balanced (h :: held) y → balanced held (close_file h y).
Proof. unfold balanced. simpl. intros ->. solve_Permutation. Qed.
Lemma close_opened_balanced file held (y : Ledger H Y) :
  balanced (opened_list file ++ held) y → balanced held (close_opened file y).
Proof. unfold close_opened, opened_list. destruct (is_handle _); [apply close_balanced|done]. Qed.
Lemma note_balanced held (y : Ledger H Y) b r :
  balanced held y →
  balanced (match r with Ok (file, _) => opened_list file | Err _ => [] end ++ held)
    (mkLedger b (note_opened r (opened_files y)) (closed_files y)).
Proof.
  unfold balanced, note_opened, opened_list. simpl. intros Hb. destruct r as [[file st]|]; simpl; [|done].
  destruct (is_handle _); simpl; [|done]. rewrite Hb. solve_Permutation.
Qed.
Lemma open_balanced path held (y : Ledger H Y) :
  balanced held y →
  let '(y', r) := open_socket path y in
  balanced (match r with Ok (file, _) => opened_list file | Err _ => [] end ++ held) y'.
Proof. intros Hb. simpl. destruct (open_socket path (backend y)) as [b r]. by apply note_balanced. Qed.
Lemma create_balanced path held (y : Ledger H Y) :
  balanced held y →
  let '(y', r) := create_socket path y in
  balanced (match r with Ok (file, _) => opened_list file | Err _ => [] end ++ held) y'.
Proof. intros Hb. simpl. destruct (create_socket path (backend y)) as [b r]. by apply note_balanced. Qed.
End ledger.
#[global] Arguments create_socket : simpl never.
#[global] Arguments open_socket : simpl never.
#[global] Arguments close_file : simpl never.

(** ** The bindings *)

Lemma existsb_false {A} (p : A → bool) l : existsb p l = false ↔ ∀ x, x ∈ l → p x = false.
Proof.
  induction l as [|y l IH]; simpl; [split; [by intros _ x ?%elem_of_nil|done]|].
  rewrite orb_false_iff, IH. setoid_rewrite elem_of_cons. naive_solver.
Qed.

Section binding_lemmas.
Context {SP : SocketProtocol} {NP : NodeProtocol}.
Context {H : Type} `{!EqDecision H} `{!DefaultHandle H} {Y : Type} `{!Filesystem H Y}.

Definition files (bs : list (BindingRecord H)) : list H := bound_file <$> bs.

(** One description per inode and one inode per description. *)
Record bindings_ok (bs : list (BindingRecord H)) : Prop := {
  bo_sockets : NoDup (bound_socket <$> bs);
  bo_identities : NoDup (identity <$> bs);
  bo_files r : r ∈ bs → bound_file r ≠ no_handle;
  bo_names r : r ∈ bs → ∃ path, valid_path path = true ∧ bound_name r = saved_new path;
}.

Lemma saved_roundtrip name : valid_path name = true → saved_bytes (saved_new name) = name.
Proof.
  intros _. unfold saved_bytes, saved_new. simpl. unfold zlen. rewrite Nat2Z.id. by apply take_blit_head.
Qed.

Lemma find_binding_Some socket (bs : list (BindingRecord H)) r :
  NoDup (bound_socket <$> bs) → r ∈ bs → bound_socket r = socket → find_binding socket bs = Some r.
Proof.
  intros Hd Hin Hs. unfold find_binding. apply list_elem_of_lookup in Hin as [i Hi].
  destruct (list_find _ bs) as [[j r']|] eqn:E; simpl.
  - apply list_find_Some in E as (Hj & Hs' & _). f_equal. assert (j = i) as ->; [|congruence].
    eapply (NoDup_lookup (bound_socket <$> bs) j i socket); [done| |]; rewrite list_lookup_fmap.
    + by rewrite Hj; simpl; rewrite Hs'.
    + by rewrite Hi; simpl; rewrite Hs.
  - apply list_find_None in E. rewrite Forall_forall in E. exfalso. apply (E r); [|done].
    by eapply list_elem_of_lookup_2.
Qed.

Lemma bind_path_spec alloc st socket path bs (y : Ledger H Y) held :
  bindings_ok bs → balanced (files bs ++ held) y →
  match bind_path alloc st socket path bs y with
  | (bs', y', Ok _) => bindings_ok bs' ∧ balanced (files bs' ++ held) y' ∧
      bound_address bs' socket = Some path ∧ is_Some (find_endpoint socket (entries st)) ∧
      ∃ r, bs' = bs ++ [r] ∧ bound_socket r = socket
  | (bs', y', Err _) => bs' = bs ∧ balanced (files bs ++ held) y'
  end.
Proof.
  intros Hbs Hb. unfold bind_path.
  match goal with |- context [match ?c with Ok _ => _ | Err _ => _ end] => destruct c as [[]|] eqn:Ec end; [|by split].
  unfold options, fmap, result_fmap in Ec. destruct (endpoint st socket) as [e|] eqn:Ee; [|done]. inv_socket.
  pose proof (create_balanced path _ y Hb) as Hc. destruct (create_socket path y) as [y1 [[file status]|]]; [|by split].
  match goal with |- context [if negb ?c then _ else _] => destruct c eqn:Ev end; simpl.
  2: { split; [done|]. by apply close_opened_balanced. }
  inv_socket. assert (opened_list file = [opened_handle file]) as Ef.
  { unfold opened_list. by match goal with Hx : is_handle _ = true |- _ => rewrite Hx end. }
  rewrite Ef in Hc. set (ident := (device status, node_id status)).
  destruct (existsb _ bs) eqn:Ei in |- *; [split; [done|]; by apply close_balanced|].
  set (r := mkBinding socket (opened_handle file) ident (saved_new path)).
  assert (bindings_ok (bs ++ [r])) as Hok.
  { destruct Hbs as [B1 B2 B3 B4]. split.
    - rewrite fmap_app. apply NoDup_app. split_and!; [done| |apply NoDup_singleton].
      intros x Hx Hx'. apply list_elem_of_fmap in Hx as (r' & -> & Hr'). apply list_elem_of_singleton in Hx'. simpl in Hx'.
      match goal with Hn : existsb (λ r, bound_socket r =? socket) bs = false |- _ =>
        rewrite existsb_false in Hn; specialize (Hn r' Hr'); simpl in Hn; lia end.
    - rewrite fmap_app. apply NoDup_app. split_and!; [done| |apply NoDup_singleton].
      intros x Hx Hx'. apply list_elem_of_fmap in Hx as (r' & -> & Hr'). apply list_elem_of_singleton in Hx'. simpl in Hx'.
      rewrite existsb_false in Ei. specialize (Ei r' Hr'). by apply bool_decide_eq_false_1 in Ei.
    - intros r' [Hr'|Hr'%list_elem_of_singleton]%elem_of_app; [by apply B3|]. subst r'. simpl.
      unfold is_handle in *. inv_socket. done.
    - intros r' [Hr'|Hr'%list_elem_of_singleton]%elem_of_app; [by apply B4|]. subst r'. simpl. eauto. }
  split_and!; try done.
  - unfold files in *. rewrite fmap_app. csimpl. rewrite <- app_assoc. simpl.
    unfold balanced in *. rewrite Hc. solve_Permutation.
  - unfold bound_address. rewrite (find_binding_Some socket _ r); [|apply Hok|set_solver|done]. simpl.
    by rewrite saved_roundtrip.
  - by exists r.
Qed.
Lemma release_binding_spec socket bs (y : Ledger H Y) held :
  bindings_ok bs → balanced (files bs ++ held) y →
  let '(bs', y') := release_binding close_file socket bs y in
  bindings_ok bs' ∧ balanced (files bs' ++ held) y' ∧ find_binding socket bs' = None ∧ bs' ⊆+ bs.
Proof.
  intros Hbs Hb. unfold release_binding. destruct (iter_position _ bs) as [k|] eqn:E.
  - apply iter_position_Some in E as (r & Hr & Hp & _). rewrite Hr. pose proof (swap_remove_perm bs k r Hr) as Hs.
    remember (swap_remove k bs) as rest eqn:Erest. clear Erest Hr.
    destruct Hbs as [B1 B2 B3 B4]. rewrite <- Hs in B1, B2. csimpl in B1. csimpl in B2.
    apply NoDup_cons in B1 as [Hn B1]. apply NoDup_cons in B2 as [_ B2].
    assert (∀ r', r' ∈ rest → r' ∈ bs) as Hin by (intros r' ?; rewrite <- Hs; by right).
    split_and!.
    + split; eauto.
    + apply close_balanced. unfold balanced, files in *. rewrite Hb, <- Hs. csimpl. solve_Permutation.
    + unfold find_binding. destruct (list_find _ _) as [[j r']|] eqn:E'; [|done].
      apply list_find_Some in E' as (Hj & Hs' & _). exfalso. apply Hn. apply list_elem_of_fmap. exists r'.
      split; [lia|by eapply list_elem_of_lookup_2].
    + rewrite <- Hs. by apply submseteq_cons.
  - split_and!; try done. unfold find_binding. destruct (list_find _ bs) as [[j r']|] eqn:E'; [|done].
    apply list_find_Some in E' as (Hj & Hs' & _).
    pose proof (proj1 (iter_position_None _ _) E r' ltac:(by eapply list_elem_of_lookup_2)). simpl in *. lia.
Qed.

(** A lookup retains the inode of a socket that is bound to it. *)
Lemma opened_binding_Ok bs file status r :
  opened_binding bs file status = Ok r →
  r ∈ bs ∧ identity r = (device status, node_id status) ∧ opened_list file = [opened_handle file] ∧
  opened_handle file ≠ no_handle.
Proof.
  unfold opened_binding. destruct (list_find _ bs) as [[j r']|] eqn:E; simpl; intros Hr; inv_socket.
  apply list_find_Some in E as (Hj & Hi & _). unfold opened_list, is_handle in *.
  repeat match goal with Hx : negb _ = true |- _ => rewrite Hx end. inv_socket.
  split_and!; try done. by eapply list_elem_of_lookup_2.
Qed.

(** What a retained target refers to. *)
Definition target_of (bs : list (BindingRecord H)) (st : Streams) (client : Z) (t : ConnectTarget H) : Prop :=
  target_client t = client ∧ check_connect st client = Ok tt ∧ is_listening st (target_listener t) = true ∧
  ∃ r, r ∈ bs ∧ bound_socket r = target_listener t ∧ identity r = target_identity t.

Lemma prepare_connect_spec st client path bs (y : Ledger H Y) held :
  balanced held y →
  match prepare_connect st client path bs y with
  | (y', Ok t) => balanced (target_file t :: held) y' ∧ target_of bs st client t
  | (y', Err _) => balanced held y'
  end.
Proof.
  intros Hb. unfold prepare_connect.
  match goal with |- context [match ?c with Ok _ => _ | Err _ => _ end] => destruct c as [[]|] eqn:Ec end; [|done].
  pose proof (open_balanced path _ y Hb) as Hc. destruct (open_socket path y) as [y1 [[file status]|]]; [|done].
  match goal with |- context [match ?c with Ok _ => _ | Err _ => _ end] => destruct c as [t|] eqn:Et end;
    [|by apply close_opened_balanced].
  destruct (opened_binding bs file status) as [r|] eqn:Er; [|done].
  apply opened_binding_Ok in Er as (Hin & Hid & Ho & _). rewrite Ho in Hc. inv_socket. simpl.
  split; [done|]. split_and!; try done. by eauto.
Qed.

Lemma prepare_datagram_spec st client path bs (y : Ledger H Y) held :
  balanced held y →
  match prepare_datagram_target st client path bs y with
  | (y', Ok t) => balanced (datagram_file t :: held) y' ∧ datagram_client t = client ∧
      ∃ r, r ∈ bs ∧ bound_socket r = datagram_socket t
  | (y', Err _) => balanced held y'
  end.
Proof.
  intros Hb. unfold prepare_datagram_target.
  match goal with |- context [match ?c with Ok _ => _ | Err _ => _ end] => destruct c as [src|] eqn:Ec end; [|done].
  pose proof (open_balanced path _ y Hb) as Hc. destruct (open_socket path y) as [y1 [[file status]|]]; [|done].
  match goal with |- context [match ?c with Ok _ => _ | Err _ => _ end] => destruct c as [t|] eqn:Et end;
    [|by apply close_opened_balanced].
  destruct (opened_binding bs file status) as [r|] eqn:Er; [|done].
  apply opened_binding_Ok in Er as (Hin & Hid & Ho & _). rewrite Ho in Hc. clear Ec. inv_socket. simpl.
  split_and!; try done. by eauto.
Qed.

(** A retained target connects to the description that was resolved, or to
    none: a description that was bound to the same inode later is not it. *)
Lemma try_connect_spec alloc (bs : list (BindingRecord H)) t st :
  streams_ok st →
  match try_connect alloc bs t st with
  | (st', Ok (listener, accepted)) => quietly st st' ∧ listener = target_listener t ∧ accepted = next st ∧
      (∃ r, r ∈ bs ∧ bound_socket r = listener ∧ identity r = target_identity t) ∧
      ∃ c l s a, find_endpoint (target_client t) (entries st) = Some c ∧ ep_peer c = None ∧
        find_endpoint listener (entries st) = Some l ∧ ep_listener l = Some s ∧ zlen (pending s) < backlog s ∧
        find_endpoint accepted (entries st') = Some a ∧ ep_peer a = Some (target_client t) ∧
        ep_pending_listener a = Some listener
  | (st', Err _) => st' = st
  end.
Proof.
  intros Hst. unfold try_connect. destruct (check_connect _ _) as [[]|]; [|done].
  destruct (_ || _) eqn:E; [done|]. apply orb_false_iff in E as [E1 E2]. unfold connect_named.
  destruct (_ ≫= _) as [[cn ln]|]; [|done].
  pose proof (connect_internal_spec alloc (target_client t) (target_listener t) cn (Some ln) st Hst) as Hs.
  destruct (connect_internal _ _ _ _ _ _) as [st' [i|]]; simpl; [|done].
  destruct Hs as (Hq & -> & _ & c & l & s & [? ? ? ? [? _] _ ? _] & ? & _ & _).
  split_and!; try done; [|by exists c, l, s; eexists].
  apply negb_false_iff, existsb_exists in E1 as (r & Hr & Hm). inv_socket.
  exists r. split_and!; [by apply list_elem_of_In|lia|done].
Qed.

Lemma connect_path_spec alloc client path bs st (y : Ledger H Y) held :
  streams_ok st → balanced held y →
  let '(st', y', r) := connect_path alloc client path bs st y in
  quietly st st' ∧ balanced held y' ∧ (∀ e, r = Err e → st' = st).
Proof.
  intros Hst Hb. unfold connect_path. pose proof (prepare_connect_spec st client path bs y held Hb) as Hp.
  destruct (prepare_connect _ _ _ _ _) as [y1 [t|]]; [|split_and!; try done; by apply quietly_refl].
  destruct Hp as [Hp _]. pose proof (try_connect_spec alloc bs t st Hst) as Ht.
  destruct (try_connect _ _ _ _) as [st' [[l a]|]].
  - split_and!; [apply Ht|by apply close_balanced|done].
  - subst st'. split_and!; [by apply quietly_refl|by apply close_balanced|done].
Qed.

Lemma connect_datagram_path_spec A others client path bs w (y : Ledger H Y) held :
  world_ok A others w → balanced held y →
  let '(w', y', r) := connect_datagram_path client path bs w y in
  world_ok A others w' ∧ balanced held y' ∧ (∀ e, r = Err e → w' = w).
Proof.
  intros Hw Hb. unfold connect_datagram_path.
  match goal with |- context [match ?c with Ok _ => _ | Err _ => _ end] => destruct c end; [|done].
  pose proof (open_balanced path _ y Hb) as Hc. destruct (open_socket path y) as [y1 [[file status]|]]; [|done].
  apply close_opened_balanced in Hc. destruct (opened_binding bs file status) as [r|]; [|done].
  pose proof (connect_datagram_ok A others client (bound_socket r) (bound_address bs client) (saved_bytes (bound_name r)) w Hw) as Hd.
  destruct (connect_datagram_named _ _ _ _ _) as [w' [[]|]]; [split_and!; try done; apply Hd|by subst].
Qed.
End binding_lemmas.
