(* ===== verification/SocketObject.v ===== *)
(** * Native objects of the socket worker

    One Provider endpoint serves local sockets, internet sockets and several
    kinds of jobs.  Which of them an object identifier denotes is its tag:
    [object_id] and [job_id] of [posix/src/socket_connect.rs],
    [socket_receive_wait.rs], [socket_route.rs] and [socket_transfer.rs],
    [is_inet] of [inet_socket.rs], [is_stream] and [is_job] of
    [inet_stream_socket.rs].  All but the first share one decoding; the
    identifiers of local sockets have no tag.

    The message header of Provider requests is the kernel's: its codec is a
    field of [Provider]. *)

From S2P Require Import Prelude SocketProtocol SocketRights SocketStream SocketRecord Socket.

Definition JOB_OBJECT_TAG : Z := Z.shiftl 1 62.
Definition WAIT_TAG : Z := Z.shiftl 1 61.
Definition ROUTE_TAG : Z := Z.shiftl 1 60.
Definition TRANSFER_TAG : Z := Z.shiftl 1 59.
(** [inet_socket::TAG], [inet_stream_socket::DESCRIPTION_TAG] and [JOB_TAG]. *)
Definition UDP_TAG : Z := Z.shiftl 3 59.
Definition TCP_TAG : Z := Z.shiftl 5 59.
Definition TCP_JOB_TAG : Z := Z.shiftl 6 59.

(** [object_id] with the tag of its file. *)
Definition tagged_object (tag id : Z) : result Z Z :=
  if (id =? 0) || (id >? MAX_DESCRIPTION_ID) then Err (-9) else Ok (Z.lor tag id).
(** [job_id] of waits, routes and transfers. *)
Definition tagged_id (tag object : Z) : result Z Z :=
  let id := Z.land object MAX_DESCRIPTION_ID in
  if negb (Z.ldiff object MAX_DESCRIPTION_ID =? tag) || (id =? 0) then Err (-9) else Ok id.
(** [job_id] of connections. *)
Definition connect_job_id (object : Z) : result Z Z :=
  if (Z.land object JOB_OBJECT_TAG =? 0)
     || negb (Z.ldiff object (Z.lor JOB_OBJECT_TAG MAX_DESCRIPTION_ID) =? 0) then Err (-9)
  else let job := Z.land object MAX_DESCRIPTION_ID in
       if job =? 0 then Err (-9) else Ok job.
(** [job_id(object).is_ok()], [is_route], [is_inet], [is_stream] and
    [is_job]. *)
Definition is_tagged (tag object : Z) : bool := match tagged_id tag object with Ok _ => true | Err _ => false end.

(** [provider::RequestHeader] and [provider::ResponseHeader]. *)
Record ProviderRequest := mkProviderRequest {
  pr_opcode : Z; pr_object : Z; pr_basis : Z; pr_length : Z }.
Record ProviderResponse := mkProviderResponse {
  ps_opcode : Z; ps_object : Z; ps_status : Z; ps_value : Z; ps_length : Z }.
Class Provider := {
  provider_decode : list Z → option (ProviderRequest * list Z);
  (** [ResponseHeader::encode(data, response)]: the buffer after it and the
      encoded length. *)
  provider_encode : ProviderResponse → list Z → list Z → list Z * option Z;
  RESPONSE_HEADER_LEN : Z;
  IPC_DELIVERY_NATIVE_OBJECT : Z;
  PROVIDER_RELEASE : Z; PROVIDER_CONTROL : Z; PROVIDER_MEMORY_OBJECT : Z; PROVIDER_READ : Z; PROVIDER_READ_AT : Z;
  PROVIDER_WRITE : Z; PROVIDER_SEEK : Z; PROVIDER_WRITE_AT : Z; PROVIDER_READ_WITH_POSITION : Z;
  CONTROL_CONNECT_RESULT : Z; CONTROL_CONNECT_EXPIRE : Z;
}.

(** ** The tags do not overlap *)

Lemma description_mask : MAX_DESCRIPTION_ID = Z.ones 59.
Proof. done. Qed.

Lemma description_max : MAX_DESCRIPTION_ID = 2 ^ 59 - 1.
Proof. done. Qed.

(** A tag above the identifiers. *)
Definition high (tag : Z) : Prop := ∃ k, 0 < k ∧ tag = k * 2 ^ 59.

Lemma high_lor tag id : high tag → 0 ≤ id ≤ MAX_DESCRIPTION_ID → Z.lor tag id = tag + id.
Proof.
  intros (k & Hk & ->) Hid. rewrite <- Z.lxor_lor, Z.add_nocarry_lxor; try done.
  all: apply Z.bits_inj'; intros i Hi; rewrite Z.land_spec, Z.bits_0.
  all: destruct (Z.lt_ge_cases i 59); [rewrite Z.mul_pow2_bits_low by done; done|].
  all: assert (Z.testbit id i = false) as ->; [|by rewrite andb_false_r].
  all: destruct (decide (id = 0)) as [->|]; [apply Z.bits_0|].
  all: apply Z.bits_above_log2; [lia|]; apply Z.log2_lt_pow2; [lia|].
  all: apply Z.lt_le_trans with (2 ^ 59); [rewrite description_max in *; lia|]; apply Z.pow_le_mono_r; lia.
Qed.
Lemma high_parts k id :
  0 < k → 0 ≤ id ≤ MAX_DESCRIPTION_ID →
  Z.land (k * 2 ^ 59 + id) MAX_DESCRIPTION_ID = id ∧ Z.ldiff (k * 2 ^ 59 + id) MAX_DESCRIPTION_ID = k * 2 ^ 59.
Proof.
  intros Hk Hid. assert (0 ≤ id < 2 ^ 59) by (rewrite description_max in *; lia). rewrite description_mask. split.
  - rewrite Z.land_ones by done. rewrite Z.add_comm, Z.mod_add by done. by apply Z.mod_small.
  - rewrite Z.ldiff_ones_r by done. rewrite Z.shiftr_div_pow2, Z.shiftl_mul_pow2 by done.
    by rewrite Z.div_add_l, Z.div_small, Z.add_0_r by done.
Qed.
Lemma split_object o : 0 ≤ o →
  o = Z.ldiff o MAX_DESCRIPTION_ID + Z.land o MAX_DESCRIPTION_ID ∧ 0 ≤ Z.land o MAX_DESCRIPTION_ID ≤ MAX_DESCRIPTION_ID ∧
  Z.ldiff o MAX_DESCRIPTION_ID = o / 2 ^ 59 * 2 ^ 59.
Proof.
  intros Ho. rewrite description_mask, Z.land_ones, Z.ldiff_ones_r, Z.shiftr_div_pow2, Z.shiftl_mul_pow2 by done.
  pose proof (Z.div_mod o (2 ^ 59)). pose proof (Z.mod_pos_bound o (2 ^ 59)).
  change (Z.ones 59) with (2 ^ 59 - 1). lia.
Qed.

Lemma tagged_Ok tag id o :
  high tag → 0 ≤ id → tagged_object tag id = Ok o → o = tag + id ∧ 1 ≤ id ≤ MAX_DESCRIPTION_ID.
Proof.
  intros Ht Hid. unfold tagged_object. destruct (_ || _) eqn:E; [done|]. intros [= <-].
  apply orb_false_iff in E as [E1 E2]. rewrite high_lor by (done || lia). lia.
Qed.
Lemma tagged_id_spec tag k id :
  high tag → 0 < k → 1 ≤ id ≤ MAX_DESCRIPTION_ID →
  tagged_id tag (k * 2 ^ 59 + id) = if k * 2 ^ 59 =? tag then Ok id else Err (-9).
Proof.
  intros Ht Hk Hid. unfold tagged_id. destruct (high_parts k id Hk ltac:(lia)) as [-> ->].
  replace (id =? 0) with false by lia. rewrite orb_false_r. by destruct (_ =? tag).
Qed.
Lemma tagged_id_inv tag o id :
  high tag → 0 ≤ o → tagged_id tag o = Ok id → o = tag + id ∧ 1 ≤ id ≤ MAX_DESCRIPTION_ID.
Proof.
  intros Ht Ho. unfold tagged_id. destruct (split_object o Ho) as (H1 & H2 & _).
  destruct (_ || _) eqn:E; [done|]. intros [= <-]. apply orb_false_iff in E as [E1 E2]. apply negb_false_iff in E1. lia.
Qed.
(** The decoding of connections is the same function of its tag. *)
Lemma connect_job_tagged o : 0 ≤ o < 2 ^ 64 → connect_job_id o = tagged_id JOB_OBJECT_TAG o.
Proof.
  intros Ho. unfold connect_job_id, tagged_id.
  assert (((Z.land o JOB_OBJECT_TAG =? 0) || negb (Z.ldiff o (Z.lor JOB_OBJECT_TAG MAX_DESCRIPTION_ID) =? 0)) =
    negb (Z.ldiff o MAX_DESCRIPTION_ID =? JOB_OBJECT_TAG)) as ->; [|by destruct (_ =? JOB_OBJECT_TAG)].
  assert (Z.ldiff o (Z.lor JOB_OBJECT_TAG MAX_DESCRIPTION_ID) = Z.ldiff (Z.ldiff o MAX_DESCRIPTION_ID) JOB_OBJECT_TAG) as ->.
  { apply Z.bits_inj'. intros i Hi. rewrite !Z.ldiff_spec, Z.lor_spec, negb_orb.
    destruct (Z.testbit o i), (Z.testbit JOB_OBJECT_TAG i), (Z.testbit MAX_DESCRIPTION_ID i); done. }
  assert (Z.land o JOB_OBJECT_TAG = Z.land (Z.ldiff o MAX_DESCRIPTION_ID) JOB_OBJECT_TAG) as ->.
  { assert (Z.land JOB_OBJECT_TAG MAX_DESCRIPTION_ID = 0) as Hz by done.
    apply Z.bits_inj'. intros i Hi. rewrite !Z.land_spec, Z.ldiff_spec.
    assert (Z.testbit JOB_OBJECT_TAG i && Z.testbit MAX_DESCRIPTION_ID i = false) as Hb by (by rewrite <- Z.land_spec, Hz, Z.bits_0).
    destruct (Z.testbit o i), (Z.testbit JOB_OBJECT_TAG i), (Z.testbit MAX_DESCRIPTION_ID i); done. }
  set (x := Z.ldiff o MAX_DESCRIPTION_ID). apply eq_true_iff_eq. rewrite orb_true_iff, !negb_true_iff, Z.eqb_eq, !Z.eqb_neq.
  split.
  - intros [Hx|Hx] ->; [done|by apply Hx].
  - intros Hx. destruct (Z.eq_dec (Z.land x JOB_OBJECT_TAG) 0) as [|Hn]; [by left|right]. intros Hd. apply Hx.
    assert (Z.lor (Z.land x JOB_OBJECT_TAG) (Z.ldiff x JOB_OBJECT_TAG) = x) as Hs.
    { apply Z.bits_inj'. intros i Hi. rewrite Z.lor_spec, Z.land_spec, Z.ldiff_spec.
      by destruct (Z.testbit x i), (Z.testbit JOB_OBJECT_TAG i). }
    rewrite Hd, Z.lor_0_r in Hs. rewrite <- Hs.
    apply Z.bits_inj'. intros i Hi. rewrite Z.land_spec.
    unfold JOB_OBJECT_TAG in *. rewrite Z.shiftl_1_l in *. rewrite Z.pow2_bits_eqb by done.
    destruct (62 =? i) eqn:Ei; [|by rewrite andb_false_r]. rewrite andb_true_r. apply Z.eqb_eq in Ei as <-.
    destruct (Z.testbit x 62) eqn:Eb; [done|]. exfalso. apply Hn. apply Z.bits_inj'. intros j Hj.
    rewrite Z.land_spec, Z.bits_0, Z.pow2_bits_eqb by done. destruct (62 =? j) eqn:Ej; [|by rewrite andb_false_r].
    apply Z.eqb_eq in Ej as <-. by rewrite Eb.
Qed.

(** ** The namespaces *)

Inductive Object_kind :=
  | Connection_job | Wait_job | Route_job | Transfer_job | Udp_socket | Tcp_socket | Tcp_job.
#[global] Instance Object_kind_eq_dec : EqDecision Object_kind.
Proof. solve_decision. Defined.

Definition tag_of (k : Object_kind) : Z :=
  match k with
  | Connection_job => JOB_OBJECT_TAG | Wait_job => WAIT_TAG
  | Route_job => ROUTE_TAG | Transfer_job => TRANSFER_TAG
  | Udp_socket => UDP_TAG | Tcp_socket => TCP_TAG | Tcp_job => TCP_JOB_TAG
  end.
(** The object of a job, and the job of an object. *)
Definition object_of (k : Object_kind) (id : Z) : result Z Z := tagged_object (tag_of k) id.
Definition job_of (k : Object_kind) (o : Z) : result Z Z :=
  if decide (k = Connection_job) then connect_job_id o else tagged_id (tag_of k) o.

Lemma tag_high k : high (tag_of k).
Proof.
  destruct k; [exists 8|exists 4|exists 2|exists 1|exists 3|exists 5|exists 6]; done.
Qed.
Lemma job_of_tagged k o : 0 ≤ o < 2 ^ 64 → job_of k o = tagged_id (tag_of k) o.
Proof. intros Ho. unfold job_of. case_decide; [subst; by apply connect_job_tagged|done]. Qed.

Lemma object_decodes k k' id o :
  0 ≤ id → object_of k id = Ok o →
  job_of k' o = (if decide (k = k') then Ok id else Err (-9)) ∧ MAX_DESCRIPTION_ID < o < 2 ^ 63.
Proof.
  intros Hid Ho. unfold object_of in Ho. apply tagged_Ok in Ho as [-> Hr]; [|apply tag_high|done].
  assert (0 < tag_of k ≤ 2 ^ 62 ∧ 2 ^ 59 ≤ tag_of k) as Hb by by destruct k.
  assert (MAX_DESCRIPTION_ID < tag_of k + id < 2 ^ 63) by (rewrite description_max in *; lia).
  split; [|lia]. rewrite job_of_tagged by lia. destruct (tag_high k) as (m & Hm & Em). rewrite Em at 1.
  rewrite tagged_id_spec by (apply tag_high || lia). rewrite <- Em.
  case_decide; [subst; by rewrite Z.eqb_refl|]. by destruct k, k'.
Qed.
Lemma job_of_inv k o id : 0 ≤ o < 2 ^ 64 → job_of k o = Ok id → object_of k id = Ok o.
Proof.
  intros Ho. rewrite job_of_tagged by done. intros [-> Hid]%tagged_id_inv; [|apply tag_high|lia].
  unfold object_of, tagged_object. replace (id =? 0) with false by lia. replace (id >? MAX_DESCRIPTION_ID) with false by lia.
  simpl. by rewrite high_lor by (apply tag_high || lia).
Qed.

(** C30: The identifiers of connection, wait, route and transfer objects decode
    to the job they were made for and to no job of another kind, lie above
    every socket description, and are made for no other job. *)
Theorem object_namespaces k id o :
  0 ≤ id → 0 ≤ o < 2 ^ 64 →
  (object_of k id = Ok o ↔ job_of k o = Ok id) ∧
  (object_of k id = Ok o → MAX_DESCRIPTION_ID < o ∧ ∀ k', k' ≠ k → job_of k' o = Err (-9)).
Proof.
  intros Hid Ho. split; [split|].
  - intros H. destruct (object_decodes k k id o Hid H) as [-> _]. by rewrite decide_True.
  - by apply job_of_inv.
  - intros H. split; [by destruct (object_decodes k k id o Hid H) as [_ [? _]]|].
    intros k' Hk. destruct (object_decodes k k' id o Hid H) as [-> _]. by rewrite decide_False.
Qed.
Lemma object_namespaces_witness :
  object_of Route_job 7 = Ok (2 ^ 60 + 7) ∧ job_of Transfer_job (2 ^ 60 + 7) = Err (-9).
Proof.
  split; [reflexivity|].
  apply (proj2 (object_namespaces Route_job 7 (2 ^ 60 + 7) ltac:(lia) ltac:(lia)) eq_refl); discriminate.
Defined.
