(* ===== verification/SocketConnect.v ===== *)
(** * Connection jobs

    Models [posix/src/socket_connect.rs]: a connection that meets a full
    backlog waits as a job that retains its authorised target.  [pump] gives
    every waiting job one attempt, in order.  The callbacks of [pump] are the
    filesystem's [close] and a list of the completions. *)

From S2P Require Import Prelude SocketProtocol SocketRights SocketStream SocketRecord.
From S2P Require Import Socket SocketGraph SocketTable SocketOps SocketBinding SocketObject.

Definition Connection : Type := result Z (Z * Z).
Inductive Started := Connected (listener accepted : Z) | Waiting (job : Z).

Record ConnectJob (H : Type) := mkJob {
  cj_id : Z; cj_client : Z; cj_target : option (ConnectTarget H); cj_result : option Connection }.
Arguments mkJob {H}.
Arguments cj_id {H}.
Arguments cj_client {H}.
Arguments cj_target {H}.
Arguments cj_result {H}.
Record Connections (H : Type) := mkConnections { cn_next : Z; cn_jobs : list (ConnectJob H) }.
Arguments mkConnections {H}.
Arguments cn_next {H}.
Arguments cn_jobs {H}.

Section connect.
Context {SP : SocketProtocol} {NP : NodeProtocol} {PV : Provider}.
Context {H : Type} `{!EqDecision H} `{!DefaultHandle H} {Y : Type} `{!Filesystem H Y}.

Definition connections_new : Connections H := mkConnections 1 [].

(** [Connections::is_pending]. *)
Definition is_pending (c : Connections H) (client : Z) : bool :=
  existsb (λ j, (cj_client j =? client) && bool_decide (is_Some (cj_target j))) (cn_jobs c).

(** [Connections::start].  [alloc] are the outcomes of the reservation of the
    job and of the accepted description. *)
Definition start_connect (alloc : bool * bool) (bs : list (BindingRecord H)) (client : Z) (path : list Z)
    (nonblocking : bool) (c : Connections H) (st : Streams) (y : Y) : Connections H * Streams * Y * result Z Started :=
  match (_ ← check_connect st client;
         _ ← ensure (negb (is_pending c client)) (-114);
         ensure (nonblocking || alloc.1) (-12)) with
  | Err e => (c, st, y, Err e)
  | Ok _ =>
      match prepare_connect st client path bs y with
      | (y, Err e) => (c, st, y, Err e)
      | (y, Ok target) =>
          match try_connect alloc.2 bs target st with
          | (st, Ok (listener, accepted)) =>
              (c, st, close_file (target_file target) y, Ok (Connected listener accepted))
          | (st, Err e) =>
              if (e =? -11) && negb nonblocking then
                if (zlen (cn_jobs c) =? MAX_SOCKETS) || (cn_next c >? MAX_DESCRIPTION_ID)
                then (c, st, close_file (target_file target) y, Err (-23))
                else (mkConnections (cn_next c + 1)
                        (cn_jobs c ++ [mkJob (cn_next c) client (Some target) None]),
                      st, y, Ok (Waiting (cn_next c)))
              else (c, st, close_file (target_file target) y, Err e)
          end
      end
  end.

(** [Connections::pump]: the jobs and completions after it.  [alloc] is the
    outcome of the allocation in each job's attempt. *)
Fixpoint pump_jobs (alloc : Z → bool) (bs : list (BindingRecord H)) (jobs : list (ConnectJob H)) (st : Streams) (y : Y)
    : list (ConnectJob H) * Streams * Y * list (Z * Z * Connection) :=
  match jobs with
  | [] => ([], st, y, [])
  | j :: jobs =>
      match cj_target j with
      | None =>
          let '(jobs, st, y, done) := pump_jobs alloc bs jobs st y in (j :: jobs, st, y, done)
      | Some target =>
          let '(st, r) := try_connect (alloc (cj_id j)) bs target st in
          if bool_decide (r = Err (-11)) then
            let '(jobs, st, y, done) := pump_jobs alloc bs jobs st y in (j :: jobs, st, y, done)
          else
            let y := close_file (target_file target) y in
            let '(jobs, st, y, done) := pump_jobs alloc bs jobs st y in
            (mkJob (cj_id j) (cj_client j) None (Some r) :: jobs, st, y, (cj_id j, cj_client j, r) :: done)
      end
  end.
Definition pump (alloc : Z → bool) (bs : list (BindingRecord H)) (c : Connections H) (st : Streams) (y : Y)
    : Connections H * Streams * Y * list (Z * Z * Connection) :=
  let '(jobs, st, y, done) := pump_jobs alloc bs (cn_jobs c) st y in (mkConnections (cn_next c) jobs, st, y, done).

Definition find_job (id : Z) (c : Connections H) : option (ConnectJob H) :=
  snd <$> list_find (λ j, cj_id j = id) (cn_jobs c).
(** [Connections::status] and [Connections::client]. *)
Definition job_status (c : Connections H) (id : Z) : result Z (option Connection) := cj_result <$> ok_or (-9) (find_job id c).
Definition job_client (c : Connections H) (id : Z) : result Z Z := cj_client <$> ok_or (-9) (find_job id c).

Fixpoint alter_job (id : Z) (f : ConnectJob H → ConnectJob H) (jobs : list (ConnectJob H)) : list (ConnectJob H) :=
  match jobs with
  | [] => []
  | j :: jobs => if cj_id j =? id then f j :: jobs else j :: alter_job id f jobs
  end.
Definition close_target (o : option (ConnectTarget H)) (y : Y) : Y :=
  match o with Some t => close_file (target_file t) y | None => y end.

(** [Connections::expire]. *)
Definition expire (id : Z) (c : Connections H) (y : Y) : Connections H * Y * result Z unit :=
  match find_job id c with
  | None => (c, y, Err (-9))
  | Some j =>
      match cj_result j with
      | Some r => (c, y, (λ _, tt) <$> r)
      | None =>
          (mkConnections (cn_next c)
             (alter_job id (λ j, mkJob (cj_id j) (cj_client j) None (Some (Err (-110)))) (cn_jobs c)),
           close_target (cj_target j) y, Err (-110))
      end
  end.

(** [Connections::release]. *)
Definition release_job (id : Z) (c : Connections H) (y : Y) : Connections H * Y * result Z unit :=
  match iter_position (λ j, cj_id j =? id) (cn_jobs c) with
  | None => (c, y, Err (-9))
  | Some index =>
      match cn_jobs c !! index with
      | None => (c, y, Err (-9))
      | Some j => (mkConnections (cn_next c) (delete index (cn_jobs c)), close_target (cj_target j) y, Ok tt)
      end
  end.

(** The outcome of a query on a job, before it is encoded. *)
Definition connect_query (h : ProviderRequest) (payload : list Z) (flags attachments : Z) (c : Connections H) (y : Y)
    : Connections H * Y * result Z unit :=
  if negb (flags =? IPC_DELIVERY_NATIVE_OBJECT) then (c, y, Err (-13))
  else if negb (attachments =? 0) then (c, y, Err (-22))
  else if (pr_opcode h =? PROVIDER_CONTROL)
          && ((pr_basis h =? CONTROL_CONNECT_RESULT) || (pr_basis h =? CONTROL_CONNECT_EXPIRE)) then
    if negb (pr_length h =? 0) || negb (zlen payload =? 0) then (c, y, Err (-22))
    else if pr_basis h =? CONTROL_CONNECT_EXPIRE then
      match connect_job_id (pr_object h) with
      | Err e => (c, y, Err e)
      | Ok id => expire id c y
      end
    else (c, y, id ← connect_job_id (pr_object h);
                r ← job_status c id;
                _ ← default (Err (-11)) r; Ok tt)
  else (c, y, Err (-95)).

(** [Connections::handle_provider_request]. *)
Definition connect_request (request : list Z) (flags attachments : Z) (response : list Z) (c : Connections H) (y : Y)
    : Connections H * Y * list Z * result Z (option Z) :=
  match provider_decode request with
  | None => (c, y, response, Err (-22))
  | Some (h, payload) =>
      if (flags =? IPC_DELIVERY_NATIVE_OBJECT) && (attachments =? 0) && (pr_opcode h =? PROVIDER_RELEASE) then
        match connect_job_id (pr_object h) with
        | Err e => (c, y, response, Err e)
        | Ok id =>
            match release_job id c y with
            | (c, y, Err e) => (c, y, response, Err e)
            | (c, y, Ok _) => (c, y, response, Ok None)
            end
        end
      else if zlen response <? RESPONSE_HEADER_LEN then (c, y, response, Err (-22))
      else
        let '(c, y, r) := connect_query h payload flags attachments c y in
        let status := match r with Ok _ => 0 | Err e => e end in
        let '(response, o) := provider_encode (mkProviderResponse (pr_opcode h) (pr_object h) status 0 0) [] response in
        (c, y, response, Some <$> ok_or (-5) o)
  end.
End connect.

(** ** Attempts that must wait *)

Section connect_lemmas.
Context {SP : SocketProtocol} {NP : NodeProtocol} {PV : Provider}.
Context {H : Type} `{!EqDecision H} `{!DefaultHandle H} {Y : Type} `{!Filesystem H Y}.

Lemma ensure_Err {E} b (e e' : E) : ensure b e = Err e' ↔ b = false ∧ e' = e.
Proof. unfold ensure. destruct b; naive_solver. Qed.
Lemma result_bind_Err {E A B} (c : result E A) (k : A → result E B) e :
  (c ≫= k) = Err e ↔ c = Err e ∨ ∃ a, c = Ok a ∧ k a = Err e.
Proof. destruct c; simpl; naive_solver. Qed.

(** The backlog of the retained listener is full. *)
Definition backlogged (bs : list (BindingRecord H)) (t : ConnectTarget H) (st : Streams) : Prop :=
  (∃ cn ln, optional_name (saved_bytes <$> client_name t) = Ok cn ∧ name_new (saved_bytes (listener_name t)) = Ok ln) ∧
  existsb (λ r, (bound_socket r =? target_listener t) && bool_decide (identity r = target_identity t)) bs = true ∧
  target_client t ≠ target_listener t ∧
  ∃ c l s, find_endpoint (target_client t) (entries st) = Some c ∧ find_endpoint (target_listener t) (entries st) = Some l ∧
    ep_kind c ≠ Datagram ∧ ep_peer c = None ∧ ep_listener c = None ∧ ep_kind c = ep_kind l ∧
    ep_listener l = Some s ∧ backlog s ≤ zlen (pending s).

Lemma check_connect_Ok st client :
  check_connect st client = Ok tt ↔
  ∃ c, find_endpoint client (entries st) = Some c ∧ ep_kind c ≠ Datagram ∧ ep_peer c = None ∧ ep_listener c = None.
Proof.
  unfold check_connect. split.
  - intros E. inv_socket. by eauto.
  - intros (c & Hc & Hk & Hp & Hl). unfold endpoint. rewrite Hc. simpl.
    rewrite (bool_decide_eq_false_2 _ Hk), Hp, Hl. done.
Qed.

Lemma backlogged_wait bs t st : backlogged bs t st → ∀ alloc, try_connect alloc bs t st = (st, Err (-11)).
Proof.
  intros ((cn & ln & Hcn & Hln) & Hb & Hne & c & l & s & Hc & Hl & Hk & Hp & Hnl & Ek & Hs & Hfull) alloc.
  assert (check_connect st (target_client t) = Ok tt) as Hck by (apply check_connect_Ok; eauto).
  unfold try_connect. rewrite Hck, Hb. unfold is_listening, listening_backlog, endpoint. rewrite Hl. simpl. rewrite Hs. simpl.
  unfold connect_named. rewrite Hcn, Hln. simpl. unfold connect_internal. rewrite Hck. simpl.
  replace (target_client t =? target_listener t) with false by lia. simpl. unfold kind, endpoint. rewrite Hc, Hl. simpl.
  rewrite bool_decide_true by done. simpl. rewrite Hs. simpl. replace (zlen (pending s) <? backlog s) with false by lia. done.
Qed.

Lemma name_new_Err path e : name_new path = Err e → e = -22.
Proof. unfold name_new. destruct (_ || _); [by intros [= <-]|done]. Qed.
Lemma wait_backlogged alloc bs t st st' :
  try_connect alloc bs t st = (st', Err (-11)) → st' = st ∧ backlogged bs t st.
Proof.
  unfold try_connect. destruct (check_connect st (target_client t)) as [[]|e] eqn:Ec.
  2: { intros [= <- ->]. exfalso. unfold check_connect, endpoint in Ec. rewrite !result_bind_Err in Ec.
       setoid_rewrite result_bind_Err in Ec. setoid_rewrite result_bind_Err in Ec. setoid_rewrite ensure_Err in Ec.
       destruct (find_endpoint _ _); naive_solver. }
  apply check_connect_Ok in Ec as (c & Hc & Hk & Hp & Hnl).
  destruct (_ || _) eqn:E; [done|]. apply orb_false_iff in E as [E1 E2]. apply negb_false_iff in E1, E2.
  unfold connect_named. destruct (_ ≫= _) as [[cn ln]|e] eqn:En.
  2: { simpl. intros [= <- ->]. exfalso. apply result_bind_Err in En as [En|(x & _ & En)].
       - unfold optional_name in En. destruct (saved_bytes <$> _); [|done]. unfold fmap, result_fmap in En.
         destruct (name_new _) eqn:E'; [done|]. apply name_new_Err in E'. congruence.
       - apply result_bind_Err in En as [En|(? & _ & En)]; [|done]. apply name_new_Err in En. congruence. }
  apply result_bind_Ok in En as (cn' & Hcn & En). apply result_bind_Ok in En as (ln' & Hln & [= -> ->]).
  intros Eci. unfold connect_internal in Eci.
  assert (check_connect st (target_client t) = Ok tt) as Hck by (apply check_connect_Ok; eauto).
  rewrite Hck in Eci. simpl in Eci. unfold kind, endpoint in Eci. rewrite Hc in Eci.
  destruct (target_client t =? target_listener t) eqn:Ene; [by simplify_eq/=|]. simpl in Eci.
  unfold is_listening, listening_backlog, endpoint in E2.
  destruct (find_endpoint (target_listener t) (entries st)) as [l|] eqn:El; [|done]. simpl in *.
  destruct (ep_listener l) as [s|] eqn:Es; [|done]. simpl in *.
  case_bool_decide as Ek; simpl in Eci; [|by simplify_eq/=].
  destruct (zlen (pending s) <? backlog s) eqn:Ef; simpl in Eci.
  - exfalso. destruct (_ || _) in Eci; simpl in Eci; [by simplify_eq/=|]. destruct alloc; by simplify_eq/=.
  - injection Eci as <-. split; [done|]. split; [by eauto|]. split_and!; try done; [lia|].
    exists c, l, s. split_and!; try done. lia.
Qed.

(** A connection changes its two ends and adds the third description. *)
Lemma connect_internal_frame alloc client listener cn ln st st' i j :
  connect_internal alloc client listener cn ln st = (st', Ok i) →
  j ≠ client → j ≠ listener → j ≠ i → find_endpoint j (entries st') = find_endpoint j (entries st).
Proof.
  unfold connect_internal. destruct (_ ≫= _) as [[l s]|]; [|done]. intros [= <- <-] H1 H2 H3.
  rewrite find_update_ne by done. simpl. rewrite find_app. simpl. replace (next st =? j) with false by lia.
  rewrite find_alter_ne by done. by destruct (find_endpoint j _).
Qed.

(** Another connection leaves every other waiting one waiting. *)
Lemma backlogged_stable alloc bs t t' st st' r :
  streams_ok st → backlogged bs t st → target_client t' ≠ target_client t →
  try_connect alloc bs t' st = (st', r) → backlogged bs t st'.
Proof.
  intros Hst Hbl Hcc E. unfold try_connect in E.
  destruct (check_connect st (target_client t')) as [[]|] eqn:Eck; [|by injection E as <- _].
  destruct (_ || _); [by injection E as <- _|]. unfold connect_named in E.
  destruct (_ ≫= _) as [[cn ln]|] in E; [|by injection E as <- _].
  pose proof (connect_internal_spec alloc (target_client t') (target_listener t') cn (Some ln) st Hst) as Hs.
  destruct (connect_internal _ _ _ _ _ _) as [st2 [i|]] eqn:Eci; injection E as <- _; [|by subst].
  destruct Hs as (_ & Hi & _ & c' & l' & s' & [Hc' Hl' Hs' _ _ _ _ _] & _ & _ & Fl).
  pose proof (λ j, connect_internal_frame _ _ _ _ _ _ _ _ j Eci) as Hfr.
  destruct Hbl as (Hn & Hb & Hne & c & l & s & Hc & Hl & Hk & Hp & Hnl & Ek & Hs & Hfull).
  apply check_connect_Ok in Eck as (c2 & Hc2 & _ & _ & Hnl2). rewrite Hc' in Hc2. injection Hc2 as <-.
  assert (∀ x e, find_endpoint x (entries st) = Some e → x ≠ i) as Hfresh.
  { intros x e Hx ->. apply (fresh_id st (next st) Hst); [lia|]. rewrite Hi in Hx. apply find_endpoint_id in Hx as [<- Hx].
    apply list_elem_of_fmap. eauto. }
  split; [done|]. split_and!; try done.
  assert (find_endpoint (target_client t) (entries st2) = Some c) as Hc2.
  { rewrite Hfr; try done; [|by eapply Hfresh]. intros Et. rewrite <- Et in Hl'. congruence. }
  destruct (decide (target_listener t = target_listener t')) as [Et|Et].
  - rewrite <- Et in *. rewrite Hl in Hl'. injection Hl' as <-. rewrite Hs in Hs'. injection Hs' as <-.
    eexists c, _, _. split_and!; try done. simpl. rewrite zlen_app. pose proof (zlen_nonneg [i]). lia.
  - exists c, l, s. split_and!; try done. rewrite Hfr; try done; [|by eapply Hfresh].
    intros Et'. rewrite <- Et' in Hc'. rewrite Hl in Hc'. congruence.
Qed.

(** ** The jobs *)

Definition target_files (jobs : list (ConnectJob H)) : list H := omap (λ j, target_file <$> cj_target j) jobs.
Definition waiting_clients (jobs : list (ConnectJob H)) : list Z :=
  omap (λ j, match cj_target j with Some _ => Some (cj_client j) | None => None end) jobs.

(** A job waits for its target, or has a result. *)
Definition job_ok (j : ConnectJob H) : Prop :=
  match cj_target j with
  | Some t => cj_result j = None ∧ target_client t = cj_client j
  | None => ∃ r, cj_result j = Some r ∧ r ≠ Err (-11)
  end.
Record connections_ok (c : Connections H) : Prop := {
  cn_ids : NoDup (cj_id <$> cn_jobs c);
  cn_range j : j ∈ cn_jobs c → 1 ≤ cj_id j < cn_next c;
  cn_bound : 1 ≤ cn_next c ≤ MAX_DESCRIPTION_ID + 1;
  cn_count : zlen (cn_jobs c) ≤ MAX_SOCKETS;
  cn_each j : j ∈ cn_jobs c → job_ok j;
  cn_clients : NoDup (waiting_clients (cn_jobs c));
}.

(** What one round does to a job: nothing, or it is completed. *)
Definition pumped (j j' : ConnectJob H) : Prop :=
  j' = j ∨ is_Some (cj_target j) ∧ ∃ r, j' = mkJob (cj_id j) (cj_client j) None (Some r) ∧ r ≠ Err (-11).
(** The completions of a round. *)
Definition completion (j j' : ConnectJob H) : option (Z * Z * Connection) :=
  match cj_target j, cj_target j', cj_result j' with
  | Some _, None, Some r => Some (cj_id j, cj_client j, r)
  | _, _, _ => None
  end.

Lemma waiting_in jobs j t : j ∈ jobs → cj_target j = Some t → cj_client j ∈ waiting_clients jobs.
Proof. intros Hj Ht. apply list_elem_of_omap. exists j. by rewrite Ht. Qed.

Lemma pump_jobs_stable {Y' : Type} `{!Filesystem H Y'} alloc bs jobs st (y : Y') t :
  streams_ok st → backlogged bs t st → (∀ j, j ∈ jobs → job_ok j) → target_client t ∉ waiting_clients jobs →
  let '(_, st', _, _) := pump_jobs alloc bs jobs st y in backlogged bs t st'.
Proof.
  revert st y. induction jobs as [|j jobs IH]; intros st y Hst Hb Hok Hnot; simpl; [done|].
  assert (∀ j', j' ∈ jobs → job_ok j') as Hok' by (intros j' ?; apply Hok; by right).
  pose proof (Hok j ltac:(by left)) as Hj. unfold job_ok in Hj. unfold waiting_clients in Hnot. csimpl in Hnot.
  destruct (cj_target j) as [t'|] eqn:Et.
  - apply not_elem_of_cons in Hnot as [Hne Hnot].
    pose proof (try_connect_spec (alloc (cj_id j)) bs t' st Hst) as Hs.
    destruct (try_connect (alloc (cj_id j)) bs t' st) as [st1 r] eqn:E.
    assert (streams_ok st1) as Hst1 by (destruct r as [[? ?]|]; [by apply Hs|by subst]).
    assert (backlogged bs t st1) as Hb1 by
      (apply (backlogged_stable (alloc (cj_id j)) bs t t' st st1 r); try done; destruct Hj as [_ ->]; done).
    case_bool_decide.
    + specialize (IH st1 y Hst1 Hb1 Hok' Hnot). by destruct (pump_jobs _ _ _ _ _) as [[[? ?] ?] ?].
    + specialize (IH st1 (close_file (target_file t') y) Hst1 Hb1 Hok' Hnot).
      by destruct (pump_jobs _ _ _ _ _) as [[[? ?] ?] ?].
  - specialize (IH st y Hst Hb Hok' Hnot). by destruct (pump_jobs _ _ _ _ _) as [[[? ?] ?] ?].
Qed.

Lemma pump_jobs_spec alloc bs jobs st (y : Ledger H Y) held :
  streams_ok st → (∀ j, j ∈ jobs → job_ok j) → NoDup (waiting_clients jobs) →
  balanced (target_files jobs ++ held) y →
  let '(jobs', st', y', done) := pump_jobs alloc bs jobs st y in
  quietly st st' ∧ balanced (target_files jobs' ++ held) y' ∧ Forall2 pumped jobs jobs' ∧
  done = omap (λ p, completion (fst p) (snd p)) (zip jobs jobs') ∧
  ∀ j t, j ∈ jobs' → cj_target j = Some t → backlogged bs t st'.
Proof.
  revert st y held. induction jobs as [|j jobs IH]; intros st y held Hst Hok Hnd Hb; simpl.
  { split; [by apply quietly_refl|]. split_and!; [done|constructor|done|by intros j t ?%elem_of_nil]. }
  assert (∀ j', j' ∈ jobs → job_ok j') as Hok' by (intros j' ?; apply Hok; by right).
  pose proof (Hok j ltac:(by left)) as Hj. unfold job_ok in Hj.
  unfold waiting_clients in Hnd. unfold target_files in Hb. csimpl in Hnd. csimpl in Hb.
  destruct (cj_target j) as [t|] eqn:Et; csimpl in Hb.
  - apply NoDup_cons in Hnd as [Hni Hnd].
    pose proof (try_connect_spec (alloc (cj_id j)) bs t st Hst) as Hs.
    destruct (try_connect (alloc (cj_id j)) bs t st) as [st1 r] eqn:E.
    assert (quietly st st1) as Hq1 by (destruct r as [[? ?]|]; [by apply Hs|subst; by apply quietly_refl]).
    case_bool_decide as Er.
    + subst r. apply wait_backlogged in E as [-> Hbl].
      pose proof (pump_jobs_stable alloc bs jobs st y t Hst Hbl Hok' ltac:(by destruct Hj as [_ ->])) as Hsta.
      specialize (IH st y (target_file t :: held) Hst Hok' Hnd). rewrite <- Permutation_middle in IH. specialize (IH Hb).
      destruct (pump_jobs alloc bs jobs st y) as [[[jobs' st'] y'] dn].
      destruct IH as (I1 & I2 & I3 & I4 & I5). split_and!; try done.
      * rewrite <- Permutation_middle in I2. unfold target_files. csimpl. by rewrite Et.
      * constructor; [by left|done].
      * csimpl. unfold completion at 1. simpl. by rewrite Et.
      * intros j' t' [->|Hj']%elem_of_cons Ht'; [by rewrite Et in Ht'; injection Ht' as <-|by eapply I5].
    + specialize (IH st1 (close_file (target_file t) y) held (proj1 Hq1) Hok' Hnd (close_balanced _ _ _ Hb)).
      destruct (pump_jobs alloc bs jobs st1 _) as [[[jobs' st'] y'] dn].
      destruct IH as (I1 & I2 & I3 & I4 & I5). split_and!; try done.
      * by eapply quietly_trans.
      * constructor; [right; rewrite Et; by eauto|done].
      * csimpl. unfold completion at 1. simpl. by rewrite Et, I4.
      * intros j' t' [->|Hj']%elem_of_cons Ht'; [done|by eapply I5].
  - specialize (IH st y held Hst Hok' Hnd Hb). destruct (pump_jobs alloc bs jobs st y) as [[[jobs' st'] y'] dn].
    destruct IH as (I1 & I2 & I3 & I4 & I5). split_and!; try done.
    + unfold target_files. csimpl. by rewrite Et.
    + constructor; [by left|done].
    + csimpl. unfold completion at 1. simpl. by rewrite Et.
    + intros j' t' [->|Hj']%elem_of_cons Ht'; [congruence|by eapply I5].
Qed.
(** *** A round *)

Lemma pumped_ids jobs jobs' : Forall2 pumped jobs jobs' → cj_id <$> jobs' = cj_id <$> jobs.
Proof. induction 1 as [|j j' jobs jobs' [->|(_ & r & -> & _)] _ IH]; csimpl; congruence. Qed.
Lemma pumped_clients jobs jobs' : Forall2 pumped jobs jobs' → sublist (waiting_clients jobs') (waiting_clients jobs).
Proof.
  unfold waiting_clients. induction 1 as [|j j' jobs jobs' [->|([t Ht] & r & -> & _)] _ IH]; csimpl; [done| |].
  - destruct (cj_target j); [by apply sublist_skip|done].
  - rewrite Ht. by apply sublist_cons.
Qed.
Lemma pumped_each jobs jobs' :
  Forall2 pumped jobs jobs' → (∀ j, j ∈ jobs → job_ok j) → ∀ j, j ∈ jobs' → job_ok j.
Proof.
  induction 1 as [|j j' jobs jobs' Hp _ IH]; intros Hok x Hx; [by apply elem_of_nil in Hx|].
  apply elem_of_cons in Hx as [->|Hx]; [|apply IH; [intros ? ?; apply Hok; by right|done]].
  destruct Hp as [->|(_ & r & -> & Hr)]; [apply Hok; by left|]. exists r. done.
Qed.
Lemma jobs_ok_same c jobs :
  connections_ok c → cj_id <$> jobs = cj_id <$> cn_jobs c → sublist (waiting_clients jobs) (waiting_clients (cn_jobs c)) →
  (∀ j, j ∈ jobs → job_ok j) → connections_ok (mkConnections (cn_next c) jobs).
Proof.
  intros [C1 C2 C3 C4 C5 C6] Eids Hsub Hok. split; simpl; try done.
  - by rewrite Eids.
  - intros j Hj. apply (list_elem_of_fmap_2 cj_id) in Hj. rewrite Eids in Hj.
    apply list_elem_of_fmap in Hj as (j' & -> & Hj'). by apply C2.
  - unfold zlen in *. by rewrite <- (length_fmap cj_id jobs), Eids, length_fmap.
  - by eapply sublist_NoDup.
Qed.

Lemma pump_ok alloc bs c st (y : Ledger H Y) held :
  connections_ok c → streams_ok st → balanced (target_files (cn_jobs c) ++ held) y →
  let '(c', st', y', _) := pump alloc bs c st y in
  connections_ok c' ∧ quietly st st' ∧ balanced (target_files (cn_jobs c') ++ held) y'.
Proof.
  intros Hc Hst Hb. unfold pump.
  pose proof (pump_jobs_spec alloc bs (cn_jobs c) st y held Hst (cn_each _ Hc) (cn_clients _ Hc) Hb) as Hp.
  destruct (pump_jobs _ _ _ _ _) as [[[jobs' st'] y'] dn]. destruct Hp as (P1 & P2 & P3 & _ & _).
  split_and!; try done. apply jobs_ok_same; [done|by apply pumped_ids|by apply pumped_clients|].
  eapply pumped_each; [done|]. apply Hc.
Qed.

(** *** Starting, expiring and releasing *)

Lemma next_job_fresh c : connections_ok c → cn_next c ∉ cj_id <$> cn_jobs c.
Proof. intros Hc (j & Ej & Hj)%list_elem_of_fmap. apply (cn_range _ Hc) in Hj. lia. Qed.

Lemma push_job_ok c t :
  connections_ok c → is_pending c (target_client t) = false →
  zlen (cn_jobs c) ≠ MAX_SOCKETS → cn_next c ≤ MAX_DESCRIPTION_ID →
  connections_ok (mkConnections (cn_next c + 1) (cn_jobs c ++ [mkJob (cn_next c) (target_client t) (Some t) None])).
Proof.
  intros Hc Hpend E1 E2. pose proof (next_job_fresh c Hc) as Hfresh. pose proof Hc as [C1 C2 C3 C4 C5 C6].
  split; simpl; try lia.
  - rewrite fmap_app. apply NoDup_app. split_and!; [done| |apply NoDup_singleton].
    intros x Hx Hx'. apply list_elem_of_singleton in Hx'. simpl in Hx'. by subst.
  - intros j [Hj|Hj%list_elem_of_singleton]%elem_of_app; [apply C2 in Hj; lia|subst j; simpl; lia].
  - rewrite zlen_app, zlen_cons, zlen_nil. unfold MAX_SOCKETS in *. lia.
  - intros j [Hj|Hj%list_elem_of_singleton]%elem_of_app; [by apply C5|]. by subst j.
  - unfold waiting_clients. rewrite omap_app. apply NoDup_app. split_and!; [done| |apply NoDup_singleton].
    intros x (j & Hj & Hx)%list_elem_of_omap Hx'. csimpl in Hx'. apply list_elem_of_singleton in Hx' as ->.
    destruct (cj_target j) eqn:Etj; [|done]. injection Hx as Hx.
    unfold is_pending in Hpend. rewrite existsb_false in Hpend. specialize (Hpend j Hj).
    by rewrite Hx, Z.eqb_refl, Etj in Hpend.
Qed.

Lemma start_connect_ok alloc bs client path nonblocking c st (y : Ledger H Y) held :
  connections_ok c → streams_ok st → balanced (target_files (cn_jobs c) ++ held) y →
  let '(c', st', y', r) := start_connect alloc bs client path nonblocking c st y in
  connections_ok c' ∧ quietly st st' ∧ balanced (target_files (cn_jobs c') ++ held) y' ∧
  (∀ id, r = Ok (Waiting id) → st' = st ∧ ∃ t, find_job id c' = Some (mkJob id client (Some t) None) ∧ backlogged bs t st').
Proof.
  intros Hc Hst Hb. unfold start_connect. pose proof (quietly_refl st Hst) as Hq.
  match goal with |- context [match ?x with Ok _ => _ | Err _ => _ end] => destruct x as [[]|] eqn:Ec end; [|done].
  pose proof (prepare_connect_spec st client path bs y _ Hb) as Hp.
  destruct (prepare_connect _ _ _ _ _) as [y1 [t|]]; [|done].
  destruct Hp as (Hp & Ht & _). pose proof (close_balanced _ _ _ Hp) as Hcl.
  pose proof (try_connect_spec alloc.2 bs t st Hst) as Hs.
  destruct (try_connect alloc.2 bs t st) as [st1 [[l a]|e]] eqn:E; [split_and!; try done; apply Hs|]. subst st1.
  destruct ((e =? -11) && negb nonblocking) eqn:Ee; [|done]. apply andb_true_iff in Ee as [->%Z.eqb_eq _].
  apply wait_backlogged in E as [_ Hbl].
  destruct ((zlen (cn_jobs c) =? MAX_SOCKETS) || (cn_next c >? MAX_DESCRIPTION_ID)) eqn:Em; [done|]. apply orb_false_iff in Em as [E1 E2].
  inv_socket.
  pose proof (next_job_fresh c Hc) as Hfresh.
  pose proof (push_job_ok c t Hc ltac:(done) ltac:(lia) ltac:(lia)) as Hok.
  split_and!; try done.
  - unfold target_files in *. simpl. rewrite omap_app. csimpl. rewrite <- app_assoc. simpl. by rewrite <- Permutation_middle.
  - intros id [= <-]. split; [done|]. exists t. split; [|done]. unfold find_job. simpl.
    destruct (list_find _ _) as [[k j]|] eqn:Ef.
    + apply list_find_Some in Ef as (Hk & Hid & _). simpl. f_equal.
      apply lookup_app_Some in Hk as [Hk|[_ Hk]].
      * exfalso. apply Hfresh. apply list_elem_of_fmap. exists j. split; [done|by eapply list_elem_of_lookup_2].
      * apply list_lookup_singleton_Some in Hk as [_ <-]. done.
    + apply list_find_None in Ef. rewrite Forall_forall in Ef. exfalso.
      eapply (Ef (mkJob (cn_next c) (target_client t) (Some t) None)); [set_solver|done].
Qed.
(** One job of the list and the others. *)
Lemma alter_job_split id (jobs : list (ConnectJob H)) j :
  snd <$> list_find (λ j, cj_id j = id) jobs = Some j →
  ∃ before after, jobs = before ++ j :: after ∧ cj_id j = id ∧ ∀ f, alter_job id f jobs = before ++ f j :: after.
Proof.
  induction jobs as [|x jobs IH]; simpl; [done|]. case_decide as Hx.
  - intros [= <-]. exists [], jobs. split_and!; try done. intros f. by rewrite Hx, Z.eqb_refl.
  - intros Hf. destruct IH as (before & after & -> & Hid & Hfs).
    { destruct (list_find _ jobs) as [[? ?]|]; [|done]. by injection Hf as ->. }
    exists (x :: before), after. split_and!; try done. intros f. replace (cj_id x =? id) with false by lia. by rewrite Hfs.
Qed.
Lemma target_files_split (before after : list (ConnectJob H)) j :
  target_files (before ++ j :: after) ≡ₚ option_list (target_file <$> cj_target j) ++ target_files (before ++ after).
Proof.
  unfold target_files. rewrite !omap_app. csimpl. destruct (target_file <$> cj_target j); csimpl; [|done].
  by rewrite Permutation_middle.
Qed.
Lemma close_target_balanced o held (y : Ledger H Y) :
  balanced (option_list (target_file <$> o) ++ held) y → balanced held (close_target o y).
Proof. destruct o; simpl; [apply close_balanced|done]. Qed.

(** A result that was published stays; otherwise the job times out and its
    target is closed. *)
Lemma expire_ok id c (y : Ledger H Y) held :
  connections_ok c → balanced (target_files (cn_jobs c) ++ held) y →
  let '(c', y', r) := expire id c y in
  connections_ok c' ∧ balanced (target_files (cn_jobs c') ++ held) y' ∧
  match find_job id c with
  | None => r = Err (-9) ∧ c' = c
  | Some j =>
      match cj_result j with
      | Some old => c' = c ∧ r = ((λ _, tt) <$> old)
      | None => r = Err (-110) ∧ job_status c' id = Ok (Some (Err (-110)))
      end
  end.
Proof.
  intros Hc Hb. unfold expire. destruct (find_job id c) as [j|] eqn:Ej; [|done].
  destruct (cj_result j) as [old|] eqn:Er; [done|].
  unfold find_job in Ej. apply alter_job_split in Ej as (before & after & Ejobs & Hid & Hfs).
  set (f := λ j, mkJob (cj_id j) (cj_client j) None (Some (Err (-110)))) in *.
  specialize (Hfs f). rewrite Hfs. split_and!; try done.
  - apply jobs_ok_same; [done|rewrite Ejobs, !fmap_app; done| |].
    + rewrite Ejobs. unfold waiting_clients. rewrite !omap_app. apply sublist_app; [done|]. csimpl.
      destruct (cj_target j); [by apply sublist_cons|done].
    + intros x [Hx|[->|Hx]%elem_of_cons]%elem_of_app.
      * apply (cn_each _ Hc). rewrite Ejobs. apply elem_of_app. by left.
      * by exists (Err (-110)).
      * apply (cn_each _ Hc). rewrite Ejobs. apply elem_of_app. right. by right.
  - simpl. apply close_target_balanced. rewrite Ejobs in Hb. rewrite target_files_split in Hb |- *. simpl.
    by rewrite <- app_assoc in Hb.
  - unfold job_status, find_job. simpl. pose proof (cn_ids _ Hc) as Hnd. rewrite Ejobs, fmap_app in Hnd. csimpl in Hnd.
    assert (Forall (λ j, cj_id j ≠ id) before) as Hbf.
    { apply Forall_forall. intros x Hx Ex. apply NoDup_app in Hnd as (_ & Hd & _). apply (Hd (cj_id x)).
      - apply list_elem_of_fmap. eauto.
      - rewrite Ex, Hid. by left. }
    assert (list_find (λ j, cj_id j = id) (before ++ f j :: after) = Some (length before, f j)) as ->; [|done].
    apply list_find_Some. split_and!; [by rewrite list_lookup_middle|done|].
    intros k x Hk Hlt. rewrite lookup_app_l in Hk by done. by eapply Forall_lookup_1 in Hbf.
Qed.

Lemma release_job_ok id c (y : Ledger H Y) held :
  connections_ok c → balanced (target_files (cn_jobs c) ++ held) y →
  let '(c', y', r) := release_job id c y in
  connections_ok c' ∧ balanced (target_files (cn_jobs c') ++ held) y' ∧ find_job id c' = None.
Proof.
  intros Hc Hb. unfold release_job. destruct (iter_position _ _) as [k|] eqn:E.
  - apply iter_position_Some in E as (j & Hj & Hid & _). rewrite Hj.
    pose proof (take_drop_middle _ _ _ Hj) as Ejobs. rewrite delete_take_drop.
    set (before := take k (cn_jobs c)) in *. set (after := drop (S k) (cn_jobs c)) in *.
    pose proof Hc as [C1 C2 C3 C4 C5 C6]. rewrite <- Ejobs in C1, C2, C4, C5, C6, Hb. clearbody before after.
    assert (sublist (before ++ after) (before ++ j :: after)) as Hsub by (apply sublist_app; [done|by apply sublist_cons]).
    split_and!; simpl.
    + split; simpl; try done.
      * eapply sublist_NoDup; [exact C1|by apply fmap_sublist].
      * intros x Hx. apply C2. set_solver.
      * apply sublist_length in Hsub. unfold zlen in *. lia.
      * intros x Hx. apply C5. set_solver.
      * eapply sublist_NoDup; [exact C6|]. unfold waiting_clients. rewrite !omap_app. apply sublist_app; [done|]. csimpl.
        destruct (cj_target j); [by apply sublist_cons|done].
    + apply close_target_balanced. rewrite target_files_split in Hb. by rewrite <- app_assoc in Hb.
    + unfold find_job. simpl. destruct (list_find _ _) as [[i x]|] eqn:Ef; [|done]. exfalso.
      apply list_find_Some in Ef as (Hx & Ex & _). rewrite fmap_app in C1. csimpl in C1.
      rewrite <- Permutation_middle in C1. apply NoDup_cons in C1 as [Hn _]. apply Hn. rewrite <- fmap_app.
      apply list_elem_of_fmap. exists x. split; [lia|by eapply list_elem_of_lookup_2].
  - split_and!; try done. unfold find_job. destruct (list_find _ _) as [[i x]|] eqn:Ef; [|done]. exfalso.
    apply list_find_Some in Ef as (Hx & Ex & _).
    pose proof (proj1 (iter_position_None _ _) E x ltac:(by eapply list_elem_of_lookup_2)). simpl in *. lia.
Qed.

(** Requests from the kernel keep the jobs well-formed. *)
Lemma connect_request_ok request flags attachments response c (y : Ledger H Y) held :
  connections_ok c → balanced (target_files (cn_jobs c) ++ held) y →
  let '(c', y', _, _) := connect_request request flags attachments response c y in
  connections_ok c' ∧ balanced (target_files (cn_jobs c') ++ held) y'.
Proof.
  intros Hc Hb. unfold connect_request. destruct (provider_decode request) as [[h payload]|]; [|done].
  destruct (_ && _); [|destruct (_ <? _); [done|]].
  - destruct (connect_job_id _) as [id|]; [|done]. pose proof (release_job_ok id c y held Hc Hb) as Hr.
    destruct (release_job id c y) as [[c' y'] [[]|]]; by destruct Hr as (? & ? & _).
  - assert (let '(c', y', _) := connect_query h payload flags attachments c y in
      connections_ok c' ∧ balanced (target_files (cn_jobs c') ++ held) y') as Hq.
    { unfold connect_query. case_ifs; try done. destruct (connect_job_id _) as [id|]; [|done].
      pose proof (expire_ok id c y held Hc Hb) as He. destruct (expire id c y) as [[c' y'] r]. by destruct He as (? & ? & _). }
    destruct (connect_query _ _ _ _ _ _) as [[c' y'] r]. by destruct (provider_encode _ _ _).
Qed.
(** *** Order *)

(** While a listener is full nobody connects to it. *)
Lemma pump_jobs_full {Y' : Type} `{!Filesystem H Y'} alloc bs jobs st (y : Y') t :
  streams_ok st → backlogged bs t st → (∀ j, j ∈ jobs → job_ok j) → target_client t ∉ waiting_clients jobs →
  let '(jobs', _, _, _) := pump_jobs alloc bs jobs st y in
  ∀ k j j' t' p, jobs !! k = Some j → jobs' !! k = Some j' → cj_target j = Some t' →
    target_listener t' = target_listener t → cj_result j' ≠ Some (Ok p).
Proof.
  revert st y. induction jobs as [|j jobs IH]; intros st y Hst Hb Hok Hnot; simpl; [by intros []|].
  assert (∀ j', j' ∈ jobs → job_ok j') as Hok' by (intros j' ?; apply Hok; by right).
  pose proof (Hok j ltac:(by left)) as Hj. unfold job_ok in Hj. unfold waiting_clients in Hnot. csimpl in Hnot.
  destruct (cj_target j) as [t0|] eqn:Et.
  - apply not_elem_of_cons in Hnot as [Hne Hnot].
    pose proof (try_connect_spec (alloc (cj_id j)) bs t0 st Hst) as Hs.
    destruct (try_connect (alloc (cj_id j)) bs t0 st) as [st1 r] eqn:E.
    assert (streams_ok st1) as Hst1 by (destruct r as [[? ?]|]; [by apply Hs|by subst]).
    assert (backlogged bs t st1) as Hb1 by
      (apply (backlogged_stable (alloc (cj_id j)) bs t t0 st st1 r); try done; destruct Hj as [_ ->]; done).
    assert (target_listener t0 = target_listener t → ∀ p, r ≠ Ok p) as Hno.
    { intros El [l a] ->. destruct Hs as (_ & -> & _ & _ & c' & l' & s' & a' & _ & _ & Hl' & Hs' & Hroom & _).
      destruct Hb as (_ & _ & _ & c & l & s & _ & Hl & _ & _ & _ & _ & Hs & Hfull). rewrite El, Hl in Hl'.
      injection Hl' as <-. rewrite Hs in Hs'. injection Hs' as <-. lia. }
    case_bool_decide as Er.
    + specialize (IH st1 y Hst1 Hb1 Hok' Hnot). destruct (pump_jobs _ _ _ _ _) as [[[jobs' ?] ?] ?].
      intros [|k] x x' t' p Hx Hx' Ht' El; simpl in Hx, Hx'; [|by eapply IH].
      injection Hx as <-. injection Hx' as <-. destruct Hj as [-> _]. done.
    + specialize (IH st1 (close_file (target_file t0) y) Hst1 Hb1 Hok' Hnot).
      destruct (pump_jobs _ _ _ _ _) as [[[jobs' ?] ?] ?].
      intros [|k] x x' t' p Hx Hx' Ht' El; simpl in Hx, Hx'; [|by eapply IH].
      injection Hx as <-. injection Hx' as <-. rewrite Et in Ht'. injection Ht' as <-. simpl.
      intros [= ->]. by eapply Hno.
  - specialize (IH st y Hst Hb Hok' Hnot). destruct (pump_jobs _ _ _ _ _) as [[[jobs' ?] ?] ?].
    intros [|k] x x' t' p Hx Hx' Ht' El; simpl in Hx, Hx'; [|by eapply IH].
    injection Hx as <-. congruence.
Qed.

Lemma pump_jobs_fifo {Y' : Type} `{!Filesystem H Y'} alloc bs jobs st (y : Y') :
  streams_ok st → (∀ j, j ∈ jobs → job_ok j) → NoDup (waiting_clients jobs) →
  let '(jobs', _, _, _) := pump_jobs alloc bs jobs st y in
  ∀ i k ji ji' jk jk' ti tk p, (i < k)%nat →
    jobs !! i = Some ji → jobs' !! i = Some ji' → jobs !! k = Some jk → jobs' !! k = Some jk' →
    cj_target ji' = Some ti → cj_target jk = Some tk → target_listener tk = target_listener ti →
    cj_result jk' ≠ Some (Ok p).
Proof.
  revert st y. induction jobs as [|j jobs IH]; intros st y Hst Hok Hnd; simpl; [by intros []|].
  assert (∀ j', j' ∈ jobs → job_ok j') as Hok' by (intros j' ?; apply Hok; by right).
  pose proof (Hok j ltac:(by left)) as Hj. unfold job_ok in Hj. unfold waiting_clients in Hnd. csimpl in Hnd.
  destruct (cj_target j) as [t0|] eqn:Et.
  - apply NoDup_cons in Hnd as [Hni Hnd]. pose proof (try_connect_spec (alloc (cj_id j)) bs t0 st Hst) as Hs.
    destruct (try_connect (alloc (cj_id j)) bs t0 st) as [st1 r] eqn:E.
    assert (streams_ok st1) as Hst1 by (destruct r as [[? ?]|]; [by apply Hs|by subst]).
    case_bool_decide as Er.
    + subst r. apply wait_backlogged in E as [-> Hbl].
      pose proof (pump_jobs_full alloc bs jobs st y t0 Hst Hbl Hok' ltac:(by destruct Hj as [_ ->])) as Hfull.
      specialize (IH st y Hst Hok' Hnd). destruct (pump_jobs _ _ _ _ _) as [[[jobs' ?] ?] ?].
      intros [|i] [|k] ji ji' jk jk' ti tk p Hlt Hji Hji' Hjk Hjk' Hti Htk El; simpl in *; try lia; [|eapply (IH i k); eauto; lia].
      injection Hji' as <-. rewrite Et in Hti. injection Hti as <-. by eapply Hfull.
    + specialize (IH st1 (close_file (target_file t0) y) Hst1 Hok' Hnd). destruct (pump_jobs _ _ _ _ _) as [[[jobs' ?] ?] ?].
      intros [|i] [|k] ji ji' jk jk' ti tk p Hlt Hji Hji' Hjk Hjk' Hti Htk El; simpl in *; try lia; [|eapply (IH i k); eauto; lia].
      injection Hji' as <-. done.
  - specialize (IH st y Hst Hok' Hnd). destruct (pump_jobs _ _ _ _ _) as [[[jobs' ?] ?] ?].
    intros [|i] [|k] ji ji' jk jk' ti tk p Hlt Hji Hji' Hjk Hjk' Hti Htk El; simpl in *; try lia; [|eapply (IH i k); eauto; lia].
    injection Hji' as <-. congruence.
Qed.
(** C21: A retry of the waiting connections completes each job at most once and
    reports it, keeps the open files exact, leaves waiting only jobs whose
    listener is still bound and has a full queue, and serves the jobs of one
    listener in their order. *)
Theorem connections_served alloc bs c st (y : Ledger H Y) held :
  connections_ok c → streams_ok st → balanced (target_files (cn_jobs c) ++ held) y →
  let '(c', st', y', done) := pump alloc bs c st y in
  connections_ok c' ∧ quietly st st' ∧ balanced (target_files (cn_jobs c') ++ held) y' ∧
  Forall2 pumped (cn_jobs c) (cn_jobs c') ∧
  done = omap (λ p, completion (fst p) (snd p)) (zip (cn_jobs c) (cn_jobs c')) ∧
  (∀ j t, j ∈ cn_jobs c' → cj_target j = Some t → backlogged bs t st') ∧
  (∀ i k ji ji' jk jk' ti tk p, (i < k)%nat →
    cn_jobs c !! i = Some ji → cn_jobs c' !! i = Some ji' → cn_jobs c !! k = Some jk → cn_jobs c' !! k = Some jk' →
    cj_target ji' = Some ti → cj_target jk = Some tk → target_listener tk = target_listener ti →
    cj_result jk' ≠ Some (Ok p)).
Proof.
  intros Hc Hst Hy. pose proof (pump_ok alloc bs c st y held Hc Hst Hy) as Hp. unfold pump in *.
  pose proof (pump_jobs_spec alloc bs (cn_jobs c) st y held Hst (cn_each _ Hc) (cn_clients _ Hc) Hy) as Hs.
  pose proof (pump_jobs_fifo alloc bs (cn_jobs c) st y Hst (cn_each _ Hc) (cn_clients _ Hc)) as Hf.
  destruct (pump_jobs _ _ _ _ _) as [[[jobs st'] y'] done]. destruct Hp as (? & ? & ?), Hs as (_ & _ & ? & ? & ?).
  simpl. split_and!; done.
Qed.
End connect_lemmas.
