(* ===== verification/SocketReceiveWait.v ===== *)
(** * One-shot socket notifications

    Models [posix/src/socket_receive_wait.rs]: a job that becomes ready when
    its socket can be read, or can accept a record, and stays ready.  Each
    job owns the source handle it was started with; [Account] counts the
    handles that jobs adopted and gave back. *)

From S2P Require Import Prelude SocketProtocol SocketRights SocketStream SocketRecord.
From S2P Require Import Socket SocketTable SocketObject.

(** ** Adopted handles *)

Record Account (H : Type) := mkAccount { adopted_handles : list H; returned_handles : list H }.
Arguments mkAccount {H}.
Arguments adopted_handles {H}.
Arguments returned_handles {H}.
Definition adopt_handle {H} (h : H) (a : Account H) : Account H :=
  mkAccount (adopted_handles a ++ [h]) (returned_handles a).
(** The native close callback. *)
Definition return_handle {H} (h : H) (a : Account H) : Account H :=
  mkAccount (adopted_handles a) (returned_handles a ++ [h]).
Definition settled {H} (held : list H) (a : Account H) : Prop := adopted_handles a ≡ₚ returned_handles a ++ held.

#[export] Instance settled_perm {H} : Proper ((≡ₚ) ==> eq ==> iff) (@settled H).
Proof. intros l l' Hl a ? <-. unfold settled. by rewrite Hl. Qed.
Lemma adopt_handle_settled {H} (h : H) held a : settled held a → settled (h :: held) (adopt_handle h a).
Proof. unfold settled. simpl. intros ->. solve_Permutation. Qed.
Lemma return_settled {H} (h : H) held a : settled (h :: held) a → settled held (return_handle h a).
Proof. unfold settled. simpl. intros ->. solve_Permutation. Qed.

(** ** The jobs *)

Inductive Condition := ReceiveCondition (minimum : Z) | SendRecord (length : Z).
Record WaitJob (H : Type) := mkWait {
  wj_id : Z; wj_socket : Z; wj_source : H; wj_condition : Condition; wj_ready : bool }.
Arguments mkWait {H}.
Arguments wj_id {H}.
Arguments wj_socket {H}.
Arguments wj_source {H}.
Arguments wj_condition {H}.
Arguments wj_ready {H}.
Record ReceiveWaits (H : Type) := mkWaits { rw_next : Z; rw_jobs : list (WaitJob H) }.
Arguments mkWaits {H}.
Arguments rw_next {H}.
Arguments rw_jobs {H}.

Section waits.
Context {SP : SocketProtocol} {PV : Provider} {H Y : Type}.

Definition waits_new : ReceiveWaits H := mkWaits 1 [].

(** [Condition::ready]. *)
Definition condition_ready (c : Condition) (st : Streams) (socket : Z) : result Z bool :=
  match c with
  | ReceiveCondition minimum => receive_wait_ready st socket minimum
  | SendRecord length => ancillary_send_ready st socket length
  end.

(** [ReceiveWaits::start_condition]; [start] and [start_send] choose the
    condition. *)
Definition start_condition (alloc : bool) (st : Streams) (socket : Z) (c : Condition) (source : H)
    : stM (ReceiveWaits H) Z Z := λ s,
  match (ready ← condition_ready c st socket;
         _ ← ensure (negb ((zlen (rw_jobs s) =? MAX_SOCKETS) || (rw_next s >? MAX_DESCRIPTION_ID))) (-23);
         _ ← ensure alloc (-12); Ok ready) with
  | Err e => (s, Err e)
  | Ok ready =>
      (mkWaits (rw_next s + 1) (rw_jobs s ++ [mkWait (rw_next s) socket source c ready]), Ok (rw_next s))
  end.

(** [ReceiveWaits::ready]. *)
Definition wait_ready (s : ReceiveWaits H) (id : Z) : result Z bool :=
  wj_ready <$> ok_or (-9) (snd <$> list_find (λ j, wj_id j = id) (rw_jobs s)).

(** [ReceiveWaits::pump]: the jobs and the identifiers that were signalled. *)
Definition pump_wait (st : Streams) (j : WaitJob H) : WaitJob H :=
  mkWait (wj_id j) (wj_socket j) (wj_source j) (wj_condition j)
    (wj_ready j || match condition_ready (wj_condition j) st (wj_socket j) with Ok b => b | Err _ => true end).
Definition pump_waits (st : Streams) (s : ReceiveWaits H) : ReceiveWaits H * list Z :=
  let jobs := pump_wait st <$> rw_jobs s in
  (mkWaits (rw_next s) jobs, wj_id <$> filter (λ j, wj_ready j = true) jobs).

(** [ReceiveWaits::release]. *)
Definition release_wait (close : H → Y → Y) (id : Z) (s : ReceiveWaits H) (y : Y)
    : ReceiveWaits H * Y * result Z unit :=
  match iter_position (λ j, wj_id j =? id) (rw_jobs s) with
  | None => (s, y, Err (-9))
  | Some index =>
      match rw_jobs s !! index with
      | None => (s, y, Err (-9))
      | Some j => (mkWaits (rw_next s) (swap_remove index (rw_jobs s)), close (wj_source j) y, Ok tt)
      end
  end.

(** [ReceiveWaits::handle_provider_request]. *)
Definition wait_request (close : H → Y → Y) (request : list Z) (flags attachments : Z) (s : ReceiveWaits H) (y : Y)
    : ReceiveWaits H * Y * result Z (option Z) :=
  match provider_decode request with
  | None => (s, y, Err (-22))
  | Some (h, _) =>
      if negb (flags =? IPC_DELIVERY_NATIVE_OBJECT) then (s, y, Err (-13))
      else if negb (attachments =? 0) then (s, y, Err (-22))
      else if negb (pr_opcode h =? PROVIDER_RELEASE) then (s, y, Err (-95))
      else match tagged_id WAIT_TAG (pr_object h) with
      | Err e => (s, y, Err e)
      | Ok id =>
          match release_wait close id s y with
          | (s, y, Err e) => (s, y, Err e)
          | (s, y, Ok _) => (s, y, Ok None)
          end
      end
  end.

(** ** Lemmas *)

Definition sources (s : ReceiveWaits H) : list H := wj_source <$> rw_jobs s.

Record waits_ok (s : ReceiveWaits H) : Prop := {
  rw_ids : NoDup (wj_id <$> rw_jobs s);
  rw_range j : j ∈ rw_jobs s → 1 ≤ wj_id j < rw_next s;
  rw_bound : 1 ≤ rw_next s ≤ MAX_DESCRIPTION_ID + 1;
  rw_count : zlen (rw_jobs s) ≤ MAX_SOCKETS;
}.

(** A job is created with the readiness of the moment. *)
Lemma start_condition_ok alloc st socket c source s :
  waits_ok s →
  match start_condition alloc st socket c source s with
  | (s', Ok id) => waits_ok s' ∧ sources s' = sources s ++ [source] ∧ id = rw_next s ∧
      ∃ b, condition_ready c st socket = Ok b ∧ rw_jobs s' = rw_jobs s ++ [mkWait id socket source c b]
  | (s', Err _) => s' = s
  end.
Proof.
  intros [W1 W2 W3 W4]. unfold start_condition. destruct (condition_ready c st socket) as [b|]; simpl; [|done].
  destruct (_ || _) eqn:E; simpl; [done|]. apply orb_false_iff in E as [E1 E2]. destruct alloc; simpl; [|done].
  split_and!; [|unfold sources; simpl; by rewrite fmap_app|done|by exists b]. split; simpl; try lia.
  - rewrite fmap_app. apply NoDup_app. split_and!; [done| |apply NoDup_singleton].
    intros x (j & -> & Hj)%list_elem_of_fmap Hx. apply list_elem_of_singleton in Hx. simpl in Hx. apply W2 in Hj. lia.
  - intros j [Hj|Hj%list_elem_of_singleton]%elem_of_app; [apply W2 in Hj; lia|subst j; simpl; lia].
  - rewrite zlen_app, zlen_cons, zlen_nil. unfold MAX_SOCKETS in *. lia.
Qed.

Lemma pump_waits_ok st s :
  waits_ok s → waits_ok (fst (pump_waits st s)) ∧ sources (fst (pump_waits st s)) = sources s.
Proof.
  intros [W1 W2 W3 W4]. unfold pump_waits, sources. simpl. rewrite <- list_fmap_compose. split; [|done].
  split; simpl; try done.
  - by rewrite <- list_fmap_compose.
  - intros j (j' & -> & Hj)%list_elem_of_fmap. by apply W2 in Hj.
  - unfold zlen in *. by rewrite length_fmap.
Qed.

Lemma release_wait_perm id s k j :
  iter_position (λ j, wj_id j =? id) (rw_jobs s) = Some k → rw_jobs s !! k = Some j →
  waits_ok s → waits_ok (mkWaits (rw_next s) (swap_remove k (rw_jobs s))) ∧
  sources s ≡ₚ wj_source j :: sources (mkWaits (rw_next s) (swap_remove k (rw_jobs s))) ∧ wj_id j = id.
Proof.
  intros E Hj [W1 W2 W3 W4]. apply iter_position_Some in E as (j' & Hj' & Hid & _). rewrite Hj in Hj'. injection Hj' as <-.
  pose proof (swap_remove_perm _ _ _ Hj) as Hp. unfold sources. simpl.
  remember (swap_remove k (rw_jobs s)) as rest eqn:Er. clear Er.
  rewrite <- Hp in W1. csimpl in W1. apply NoDup_cons in W1 as [_ W1]. split_and!; [|rewrite <- Hp; done|lia].
  split; simpl; try done.
  - intros x Hx. apply W2. rewrite <- Hp. by right.
  - unfold zlen in *. rewrite <- Hp in W4. simpl in W4. lia.
Qed.
End waits.

Lemma release_wait_ok {H} id (s : ReceiveWaits H) a held :
  waits_ok s → settled (sources s ++ held) a →
  let '(s', a', _) := release_wait return_handle id s a in waits_ok s' ∧ settled (sources s' ++ held) a'.
Proof.
  intros Hs Ha. unfold release_wait. destruct (iter_position _ _) as [k|] eqn:E; [|done].
  destruct (rw_jobs s !! k) as [j|] eqn:Ej; [|done]. destruct (release_wait_perm _ _ _ _ E Ej Hs) as (Hok & Hp & _).
  split; [done|]. apply return_settled. by rewrite Hp in Ha.
Qed.
