(* ===== verification/SocketRoute.v ===== *)
(** * Routes of sendto

    Models [posix/src/socket_route.rs]: a route retains the source handle and
    the resolved target of one sendto, and commits at most one record. *)

From S2P Require Import Prelude SocketProtocol SocketRights SocketStream SocketRecord.
From S2P Require Import Socket SocketGraph SocketTable SocketOps SocketRecordOps SocketBinding SocketObject.

Record Route (H : Type) := mkRoute {
  rt_id : Z; rt_source : H; rt_target : DatagramTarget H; rt_length : Z; rt_complete : bool }.
Arguments mkRoute {H}.
Arguments rt_id {H}.
Arguments rt_source {H}.
Arguments rt_target {H}.
Arguments rt_length {H}.
Arguments rt_complete {H}.
Record Routes (H : Type) := mkRoutes { rs_next : Z; rs_entries : list (Route H) }.
Arguments mkRoutes {H}.
Arguments rs_next {H}.
Arguments rs_entries {H}.

Section route.
Context {SP : SocketProtocol} {H Y : Type} {B : Type} {RB : RecordBuffer B}.

Definition routes_new : Routes H := mkRoutes 1 [].

(** [Routes::start]: an error returns the target. *)
Definition start_route_of (alloc : bool) (st : Streams) (target : DatagramTarget H) (length : Z) (source : H)
    : stM (Routes H) (Z * DatagramTarget H) Z := λ rs,
  match (_ ← ensure (negb (length >? MAX_RECORD_SIZE)) (-90);
         _ ← record_send_to_ready st (datagram_client target) (datagram_socket target) length;
         _ ← ensure (negb ((zlen (rs_entries rs) =? MAX_SOCKETS) || (rs_next rs >? MAX_DESCRIPTION_ID))) (-23);
         ensure alloc (-12)) with
  | Err e => (rs, Err (e, target))
  | Ok _ =>
      (mkRoutes (rs_next rs + 1) (rs_entries rs ++ [mkRoute (rs_next rs) source target length false]),
       Ok (rs_next rs))
  end.

Fixpoint find_route (id : Z) (l : list (Route H)) : option (Route H) :=
  match l with [] => None | r :: l => if rt_id r =? id then Some r else find_route id l end.
Fixpoint complete_route (id : Z) (l : list (Route H)) : list (Route H) :=
  match l with
  | [] => []
  | r :: l =>
      if rt_id r =? id then mkRoute (rt_id r) (rt_source r) (rt_target r) (rt_length r) true :: l
      else r :: complete_route id l
  end.
Definition set_complete (id : Z) (rs : Routes H) : Routes H := mkRoutes (rs_next rs) (complete_route id (rs_entries rs)).

(** [Routes::transfer]. *)
Definition route_transfer (alloc : bool * bool) (id : Z) (request : Request) (response : list Z)
    (rs : Routes H) (w : World) (b : B) : Routes H * World * B * list Z * result Z (Z * (Z * Z)) :=
  match (route ← ok_or (-9) (find_route id (rs_entries rs));
         _ ← ensure (request_valid request) (-22);
         _ ← ensure (negb (negb (bool_decide (operation request = SendRoute))
                           || negb (request_length request =? rt_length route))) (-22);
         _ ← ensure (negb (rt_complete route)) (-114);
         Ok route) with
  | Err e => (rs, w, b, response, Err e)
  | Ok route =>
      let t := rt_target route in
      match transfer_record_to alloc (datagram_client t) (datagram_socket t) request (datagram_source t) response w b with
      | (w, b, response, Err e) => (rs, w, b, response, Err e)
      | (w, b, response, Ok count) =>
          (set_complete id rs, w, b, response, Ok (count, (datagram_client t, datagram_socket t)))
      end
  end.

(** [Routes::source]. *)
Definition route_source (rs : Routes H) (id length : Z) : result Z Z :=
  route ← ok_or (-9) (find_route id (rs_entries rs));
  _ ← ensure (negb (rt_complete route)) (-114);
  _ ← ensure (rt_length route =? length) (-22);
  Ok (datagram_client (rt_target route)).

(** [Routes::ready]. *)
Definition route_ready (rs : Routes H) (st : Streams) (id length : Z) : result Z bool :=
  _ ← route_source rs id length;
  route ← ok_or (-9) (find_route id (rs_entries rs));
  record_send_to_ready st (datagram_client (rt_target route)) (datagram_socket (rt_target route)) length.

(** [Routes::transfer_rights]. *)
Definition transfer_rights (alloc : bool) (id : Z) (payload : list Z) (rights : Bundle) (rs : Routes H) (w : World)
    : Routes H * World * result (Z * Bundle) (Z * (Z * Z)) :=
  match route_source rs id (zlen payload) with
  | Err e => (rs, w, Err (e, rights))
  | Ok _ =>
      match find_route id (rs_entries rs) with
      | None => (rs, w, Err (-9, rights))
      | Some route =>
          let t := rt_target route in
          match commit_record_to_with_rights alloc (datagram_client t) (datagram_socket t) (datagram_source t) payload rights w with
          | (w, Ok r) => (set_complete id rs, w, Ok r)
          | (w, Err e) => (rs, w, Err e)
          end
      end
  end.

(** [Routes::pump]: the identifiers with the readiness that is signalled. *)
Definition pump_routes (rs : Routes H) (st : Streams) : list (Z * bool) :=
  (λ r, (rt_id r, rt_complete r ||
    match record_send_to_ready st (datagram_client (rt_target r)) (datagram_socket (rt_target r)) (rt_length r) with
    | Ok b => b | Err _ => true end)) <$> rs_entries rs.

(** [Routes::release]. *)
Definition release_route (source_close target_close : H → Y → Y) (id : Z) (rs : Routes H) (y : Y)
    : Routes H * Y * result Z unit :=
  match iter_position (λ r, rt_id r =? id) (rs_entries rs) with
  | None => (rs, y, Err (-9))
  | Some index =>
      match rs_entries rs !! index with
      | None => (rs, y, Err (-9))
      | Some r =>
          (mkRoutes (rs_next rs) (swap_remove index (rs_entries rs)),
           target_close (datagram_file (rt_target r)) (source_close (rt_source r) y), Ok tt)
      end
  end.

(** ** Lemmas *)

Record routes_ok (rs : Routes H) : Prop := {
  rs_ids : NoDup (rt_id <$> rs_entries rs);
  rs_range r : r ∈ rs_entries rs → 1 ≤ rt_id r < rs_next rs;
  rs_bound : 1 ≤ rs_next rs ≤ MAX_DESCRIPTION_ID + 1;
  rs_count : zlen (rs_entries rs) ≤ MAX_SOCKETS;
}.
Definition route_sources (rs : Routes H) : list H := rt_source <$> rs_entries rs.
Definition route_files (rs : Routes H) : list H := (λ r, datagram_file (rt_target r)) <$> rs_entries rs.

Lemma start_route_ok alloc st target length source rs :
  routes_ok rs →
  match start_route_of alloc st target length source rs with
  | (rs', Ok id) => routes_ok rs' ∧ route_sources rs' = route_sources rs ++ [source] ∧
      route_files rs' = route_files rs ++ [datagram_file target] ∧ id = rs_next rs
  | (rs', Err (_, target')) => rs' = rs ∧ target' = target
  end.
Proof.
  intros [W1 W2 W3 W4]. unfold start_route_of.
  match goal with |- context [match ?x with Ok _ => _ | Err _ => _ end] => destruct x as [[]|] eqn:E end; [|done].
  inv_socket. unfold route_sources, route_files. simpl. split_and!; [|by rewrite fmap_app|by rewrite fmap_app|done].
  split; simpl; try lia.
  - rewrite fmap_app. apply NoDup_app. split_and!; [done| |apply NoDup_singleton].
    intros x (j & -> & Hj)%list_elem_of_fmap Hx. apply list_elem_of_singleton in Hx. simpl in Hx. apply W2 in Hj. lia.
  - intros j [Hj|Hj%list_elem_of_singleton]%elem_of_app; [apply W2 in Hj; lia|subst j; simpl; lia].
  - rewrite zlen_app, zlen_cons, zlen_nil. unfold MAX_SOCKETS in *. lia.
Qed.

Lemma complete_route_same id l :
  rt_id <$> complete_route id l = rt_id <$> l ∧ rt_source <$> complete_route id l = rt_source <$> l ∧
  (λ r, datagram_file (rt_target r)) <$> complete_route id l = (λ r, datagram_file (rt_target r)) <$> l.
Proof.
  induction l as [|r l (I1 & I2 & I3)]; [done|]. simpl. destruct (rt_id r =? id); [done|]. csimpl. by rewrite I1, I2, I3.
Qed.
Lemma set_complete_ok id rs :
  routes_ok rs → routes_ok (set_complete id rs) ∧ route_sources (set_complete id rs) = route_sources rs ∧
  route_files (set_complete id rs) = route_files rs.
Proof.
  intros [W1 W2 W3 W4]. destruct (complete_route_same id (rs_entries rs)) as (E1 & E2 & E3).
  split_and!; [|done|done]. split; simpl; try done.
  - by rewrite E1.
  - intros r Hr. apply (list_elem_of_fmap_2 rt_id) in Hr. rewrite E1 in Hr.
    apply list_elem_of_fmap in Hr as (r' & -> & Hr'). by apply W2.
  - unfold zlen in *. by rewrite <- (length_fmap rt_id), E1, length_fmap.
Qed.
Lemma find_completed id l r :
  find_route id l = Some r → find_route id (complete_route id l) = Some (mkRoute (rt_id r) (rt_source r) (rt_target r) (rt_length r) true).
Proof.
  induction l as [|x l IH]; simpl; [done|]. destruct (rt_id x =? id) eqn:E; simpl; rewrite E; [by intros [= <-]|done].
Qed.

(** A routed send that succeeded closes the route for good. *)
Lemma route_transfer_ok A others alloc id request response rs w b :
  routes_ok rs → world_ok A others w → 0 ≤ request_length request →
  match route_transfer alloc id request response rs w b with
  | (rs', w', _, _, Ok _) => rs' = set_complete id rs ∧ world_ok A others w' ∧
      ∃ r, find_route id (rs_entries rs) = Some r ∧ rt_complete r = false
  | (rs', w', _, _, Err _) => rs' = rs ∧ w' = w
  end.
Proof.
  intros Hrs Hw Hl. unfold route_transfer.
  match goal with |- context [match ?x with Ok _ => _ | Err _ => _ end] => destruct x as [route|] eqn:E end; [|done].
  inv_socket.
  match goal with |- context [transfer_record_to ?a ?i ?d ?q ?s ?p ?w ?b] =>
    pose proof (transfer_record_to_ok A others a i d q s p w b Hw Hl) as Ht;
    destruct (transfer_record_to a i d q s p w b) as [[[w' b'] response'] [n|]] end; [|done].
  split_and!; [done|apply Ht|by eauto].
Qed.

Lemma transfer_rights_ok A others alloc id payload rights rs w :
  routes_ok rs → world_ok A (rights :: others) w → whole rights →
  match transfer_rights alloc id payload rights rs w with
  | (rs', w', Ok _) => rs' = set_complete id rs ∧ world_ok A others w' ∧
      ∃ r, find_route id (rs_entries rs) = Some r ∧ rt_complete r = false
  | (rs', w', Err (_, rights')) => rs' = rs ∧ w' = w ∧ rights' = rights
  end.
Proof.
  intros Hrs Hw Hwh. unfold transfer_rights. destruct (route_source _ _ _) eqn:E; [|done].
  unfold route_source in E. inv_socket. match goal with Hf : find_route id _ = Some _ |- _ => rewrite Hf end.
  match goal with |- context [commit_record_to_with_rights ?a ?i ?d ?s ?p ?r ?w] =>
    pose proof (commit_record_to_ok A others a i d s p r w Hw Hwh) as Hc;
    destruct (commit_record_to_with_rights a i d s p r w) as [w' [[n route]|[e rights']]] end.
  - split_and!; [done|apply Hc|by eauto].
  - by destruct Hc as [-> ->].
Qed.

Lemma release_route_perm id rs k r :
  iter_position (λ r, rt_id r =? id) (rs_entries rs) = Some k → rs_entries rs !! k = Some r →
  routes_ok rs → routes_ok (mkRoutes (rs_next rs) (swap_remove k (rs_entries rs))) ∧
  route_sources rs ≡ₚ rt_source r :: route_sources (mkRoutes (rs_next rs) (swap_remove k (rs_entries rs))) ∧
  route_files rs ≡ₚ datagram_file (rt_target r) :: route_files (mkRoutes (rs_next rs) (swap_remove k (rs_entries rs))).
Proof.
  intros E Hj [W1 W2 W3 W4]. pose proof (swap_remove_perm _ _ _ Hj) as Hp. unfold route_sources, route_files. simpl.
  remember (swap_remove k (rs_entries rs)) as rest eqn:Er. clear Er E Hj.
  rewrite <- Hp in W1. csimpl in W1. apply NoDup_cons in W1 as [_ W1]. split_and!; [|by rewrite <- Hp|by rewrite <- Hp].
  split; simpl; try done.
  - intros x Hx. apply W2. rewrite <- Hp. by right.
  - unfold zlen in *. rewrite <- Hp in W4. simpl in W4. lia.
Qed.
End route.
