(* ===== verification/SocketTransfer.v ===== *)
(** * Transfers of references

    Models [posix/src/socket_transfer.rs].  A stage collects references in
    batches and commits them with data as one send; or it holds references
    that were received until they are delivered.  A stage owns its source
    handle and its references; dropping it closes both.  The functions run on
    the [World] of the socket table, whose heap holds the leases; the calls of
    [close] functions on source handles are in the same log as those on
    leases. *)

From S2P Require Import Prelude SocketProtocol SocketRights SocketStream SocketRecord.
From S2P Require Import Socket SocketGraph SocketTable SocketOps SocketRecordOps SocketBinding SocketObject SocketRoute.

Record ReceiptInfo := mkInfo { info_record : ReceivedRecord; total_rights : Z; available_rights : Z }.

Inductive StageState :=
  | Collecting (p : Pending)
  | ReadyStage (b : Bundle)
  | CompleteStage
  | ReceivedStage (rights : option Bundle) (info : ReceiptInfo) (delivered : Z).

Record Stage := mkStage {
  sg_id : Z; sg_socket : Z; sg_source : Z; sg_length : Z; sg_state : StageState; sg_close : Z; sg_route : option Z }.
Record Transfers := mkTransfers { tr_next : Z; stages : list Stage; budget : Z }.

Definition set_state (s : StageState) (x : Stage) : Stage :=
  mkStage (sg_id x) (sg_socket x) (sg_source x) (sg_length x) s (sg_close x) (sg_route x).
Definition set_route (r : option Z) (x : Stage) : Stage :=
  mkStage (sg_id x) (sg_socket x) (sg_source x) (sg_length x) (sg_state x) (sg_close x) r.

Fixpoint find_stage (id : Z) (l : list Stage) : option Stage :=
  match l with [] => None | x :: l => if sg_id x =? id then Some x else find_stage id l end.
Fixpoint alter_stage (id : Z) (f : Stage → Stage) (l : list Stage) : list Stage :=
  match l with
  | [] => []
  | x :: l => if sg_id x =? id then f x :: l else x :: alter_stage id f l
  end.
Definition update_stage (id : Z) (f : Stage → Stage) (t : Transfers) : Transfers :=
  mkTransfers (tr_next t) (alter_stage id f (stages t)) (budget t).
Definition push_stage (x : Stage) (t : Transfers) : Transfers :=
  mkTransfers (tr_next t) (stages t ++ [x]) (budget t).

(** A call of a [close] function. *)
Definition log_close (close handle : Z) (h : Heap) : Heap :=
  mkHeap (cells h) (next_cell h) (accounts h) (closed h ++ [(close, handle)]).

(** The references of a stage; [Drop for Stage] closes the source, then the
    fields are dropped. *)
Definition state_bundles (s : StageState) : list Bundle :=
  match s with
  | Collecting p => [pending_bundle p]
  | ReadyStage b => [b]
  | CompleteStage => []
  | ReceivedStage rights _ _ => option_list rights
  end.
Definition drop_stage (x : Stage) (h : Heap) : Heap :=
  drop_bundles (state_bundles (sg_state x)) (log_close (sg_close x) (sg_source x) h).

Definition set_heap (h : Heap) (w : World) : World := mkWorld h (streams w).

Section transfer.
Context {SP : SocketProtocol} {H : Type} {B : Type} {RB : RecordBuffer B}.

(** [Transfers::new], with the account of its budget. *)
Definition transfers_new (key reference_limit : Z) (h : Heap) : Transfers * Heap :=
  (mkTransfers 1 [] key, set_accounts <[key := mkAccounting reference_limit 0]> h).

(** [State::received]. *)
Definition state_received (s : StageState) : result Z Z :=
  match s with
  | Collecting p => Ok (received p)
  | ReadyStage b => Ok (bundle_len b)
  | CompleteStage => Err (-114)
  | ReceivedStage _ _ _ => Err (-95)
  end.

(** [Transfers::start].  [alloc] are the outcomes of the allocation of the
    pending references and of the stage. *)
Definition start_transfer (alloc : bool * bool) (socket source length count close : Z) (t : Transfers) (w : World)
    : Transfers * World * result Z Z :=
  match (_ ← ensure (transfer_begin length count) (-22);
         _ ← ensure (negb (source =? 0)) (-9);
         k ← kind (streams w) socket;
         _ ← ensure (negb (negb (bool_decide (k = Stream)) && (length >? MAX_RECORD_SIZE))) (-90);
         ensure (negb ((zlen (stages t) =? MAX_SOCKETS) || (tr_next t >? MAX_DESCRIPTION_ID))) (-23)) with
  | Err e => (t, w, Err e)
  | Ok _ =>
      match pending_new alloc.1 count (budget t) (heap w) with
      | (h, Err e) => (t, set_heap h w, Err e)
      | (h, Ok pending) =>
          if negb alloc.2 then (t, set_heap (drop_bundle (pending_bundle pending) h) w, Err (-12))
          else
            let id := tr_next t in
            (mkTransfers (id + 1) (stages t ++ [mkStage id socket source length (Collecting pending) close None]) (budget t),
             set_heap h w, Ok id)
      end
  end.

(** [self.entries.last_mut().unwrap().route = Some(route)]. *)
Definition route_last (route : Z) (l : list Stage) : list Stage :=
  match last l with
  | Some x => take (length l - 1) l ++ [set_route (Some route) x]
  | None => l
  end.
(** [Transfers::start_route]. *)
Definition start_routed (alloc : bool * bool) (rs : Routes H) (route source length count close : Z)
    (t : Transfers) (w : World) : Transfers * World * result Z Z :=
  match route_source rs route length with
  | Err e => (t, w, Err e)
  | Ok socket =>
      match start_transfer alloc socket source length count close t w with
      | (t, w, Err e) => (t, w, Err e)
      | (t, w, Ok id) => (mkTransfers (tr_next t) (route_last route (stages t)) (budget t), w, Ok id)
      end
  end.

(** [Transfers::append]: on every error the leases are dropped. *)
Definition append_transfer (id offset : Z) (new : list Z) (t : Transfers) (w : World)
    : Transfers * World * result Z Z :=
  let rejected e := (t, set_heap (drop_leases new (heap w)) w, Err e) in
  match find_stage id (stages t) with
  | None => rejected (-9)
  | Some x =>
      match sg_state x with
      | Collecting p =>
          match append offset new p (heap w) with
          | (p, h, Err e) => (update_stage id (set_state (Collecting p)) t, set_heap h w, Err e)
          | (p, h, Ok _) => (update_stage id (set_state (Collecting p)) t, set_heap h w, Ok (received p))
          end
      | ReadyStage _ => rejected (-22)
      | CompleteStage => rejected (-114)
      | ReceivedStage _ _ _ => rejected (-95)
      end
  end.

(** [Transfers::progress]. *)
Definition progress (t : Transfers) (id : Z) : result Z (Z * Z * Z) :=
  x ← ok_or (-9) (find_stage id (stages t));
  n ← state_received (sg_state x);
  Ok (sg_socket x, sg_length x, n).

(** The checks of [commit_using] before anything is read: whether the socket
    is a byte stream, and how much is sent. *)
Definition commit_checks (rs : option (Routes H)) (st : Streams) (x : Stage) (offset : Z) (b : B)
    : result Z (bool * Z) :=
  _ ← match sg_state x with
      | CompleteStage => Err (-114)
      | ReceivedStage _ _ _ => Err (-95)
      | Collecting p => ensure (is_complete p) (-22)
      | ReadyStage _ => Ok tt
      end;
  k ← kind st (sg_socket x);
  end_ ← ok_or (-22) (checked_add U64_MAX offset (sg_length x));
  size ← extent b;
  _ ← ensure (negb (end_ >? size)) (-22);
  if bool_decide (k = Stream) then
    _ ← ensure (bool_decide (sg_route x = None)) (-95);
    n ← state_received (sg_state x);
    length ← stream_send_length st (sg_socket x) (sg_length x) (negb (n =? 0));
    Ok (true, length)
  else
    ready ← match sg_route x with
            | Some route => rs ← ok_or (-95) rs; route_ready rs st route (sg_length x)
            | None => record_send_ready st (sg_socket x) (sg_length x)
            end;
    _ ← ensure ready (-11);
    Ok (false, sg_length x).

(** What is sent: the finished references. *)
Definition take_bundle (s : StageState) : result Z Bundle :=
  match s with
  | ReadyStage b => Ok b
  | Collecting p => match finish p with inl b => Ok b | inr _ => Err (-22) end
  | CompleteStage => Err (-114)
  | ReceivedStage _ _ _ => Err (-95)
  end.

(** [Transfers::commit_using].  [alloc] are the outcomes of the allocation of
    the bytes and of the queue. *)
Definition commit_using (alloc : bool * bool) (id offset : Z) (t : Transfers) (rs : option (Routes H)) (w : World) (b : B)
    : Transfers * option (Routes H) * World * B * result Z (Z * (Z * Z)) :=
  match find_stage id (stages t) with
  | None => (t, rs, w, b, Err (-9))
  | Some x =>
      match commit_checks rs (streams w) x offset b with
      | Err e => (t, rs, w, b, Err e)
      | Ok (stream, length) =>
          if negb alloc.1 then (t, rs, w, b, Err (-12))
          else match buffer_read offset length b with
          | (b, Err e) => (t, rs, w, b, Err e)
          | (b, Ok bytes) =>
              match take_bundle (sg_state x) with
              | Err e => (t, rs, w, b, Err e)
              | Ok bundle =>
                  let '(rs, w, r) :=
                    match sg_route x, rs with
                    | Some route, Some rs =>
                        let '(rs, w, r) := transfer_rights alloc.2 route bytes bundle rs w in (Some rs, w, r)
                    | Some _, None => (None, w, Err (-95, bundle))
                    | None, _ =>
                        let '(w, r) :=
                          if stream then commit_stream_with_rights alloc.2 (sg_socket x) bytes bundle w
                          else commit_record_with_rights alloc.2 (sg_socket x) bytes bundle w in
                        (rs, w, r)
                    end in
                  match r with
                  | Ok r => (update_stage id (set_state CompleteStage) t, rs, w, b, Ok r)
                  | Err (e, bundle) => (update_stage id (set_state (ReadyStage bundle)) t, rs, w, b, Err e)
                  end
              end
          end
      end
  end.

(** [Transfers::release]. *)
Definition release_transfer (id : Z) (t : Transfers) (w : World) : Transfers * World * result Z unit :=
  match iter_position (λ x, sg_id x =? id) (stages t) with
  | None => (t, w, Err (-9))
  | Some index =>
      match stages t !! index with
      | None => (t, w, Err (-9))
      | Some x =>
          (mkTransfers (tr_next t) (swap_remove index (stages t)) (budget t), set_heap (drop_stage x (heap w)) w, Ok tt)
      end
  end.
(** ** Adopting a batch

    The [Append] request of [posix/src/socket_transfer_native.rs]. *)

(** One attachment of a message: what the kernel says of it, the metadata
    that the request gives, and the object it denotes when it is one of this
    Provider. *)
Record Attachment := mkAttachment {
  at_handle : Z; at_rights : Z; at_metadata : option InheritedFdMetadata; at_object : option Z }.

(** The loop that adopts: the heap, the handles whose ownership was consumed,
    and the leases.  An error drops the leases of the earlier ones. *)
Fixpoint adopt_batch (alloc : Z → bool) (close : Z) (done : list Z) (items : list Attachment) (h : Heap)
    : Heap * list Z * result Z (list Z) :=
  match items with
  | [] => (h, [], Ok done)
  | it :: items =>
      if is_some_and (λ object, object >? MAX_DESCRIPTION_ID) (at_object it) then (drop_leases done h, [], Err (-22))
      else match at_metadata it with
      | None => (drop_leases done h, [at_handle it], Err (-22))
      | Some metadata =>
          match adopt (alloc (at_handle it)) (at_handle it) (at_rights it) metadata close h with
          | (h, Err e) => (drop_leases done h, [at_handle it], Err e)
          | (h, Ok p) =>
              let '(h, consumed, r) := adopt_batch alloc close (done ++ [p]) items h in
              (h, at_handle it :: consumed, r)
          end
      end
  end.

(** The request, with the handles it consumed. *)
Definition append_request (alloc : bool) (allocs : Z → bool) (close id offset : Z) (items : list Attachment)
    (t : Transfers) (w : World) : Transfers * World * list Z * result Z Z :=
  match progress t id with
  | Err e => (t, w, [], Err e)
  | Ok _ =>
      if negb alloc then (t, w, [], Err (-12))
      else match adopt_batch allocs close [] items (heap w) with
      | (h, consumed, Err e) => (t, set_heap h w, consumed, Err e)
      | (h, consumed, Ok leases) =>
          let '(t, w, r) := append_transfer id offset leases t (set_heap h w) in (t, w, consumed, r)
      end
  end.

(** ** Receiving *)

Context {X : Type}.
(** The caller's publication of a receipt. *)
Context (publish : option Z → ReceiptInfo → X → X * result Z unit).

(** What the closure of [receive_using] captures by reference. *)
Record Publication := mkPublication {
  pb_transfers : Transfers; pb_receipt : option Z; pb_total : Z; pb_state : X }.

(** The closure: it reserves the identifier of a receipt, and publishes. *)
Definition publish_receipt (alloc : bool) (maximum : Z) (record : ReceivedRecord) (total : Z) (p : Publication)
    : Publication * result Z unit :=
  let t := pb_transfers p in
  let available := Z.min maximum total in
  let reserved :=
    if available =? 0 then Ok (t, pb_receipt p)
    else if (zlen (stages t) =? MAX_SOCKETS) || (tr_next t >? MAX_DESCRIPTION_ID) then Err (-23)
    else if negb alloc then Err (-12)
    else Ok (mkTransfers (tr_next t + 1) (stages t) (budget t), Some (tr_next t)) in
  match reserved with
  | Err e => (mkPublication t (pb_receipt p) total (pb_state p), Err e)
  | Ok (t, receipt) =>
      match publish receipt (mkInfo record total available) (pb_state p) with
      | (x, r) => (mkPublication t receipt total x, r)
      end
  end.

(** [Bundle::truncate] on what was received. *)
Definition truncate_option (maximum : Z) (o : option Bundle) (h : Heap) : option Bundle * Heap :=
  match o with
  | Some b => let '(b, h) := truncate maximum b h in (Some b, h)
  | None => (None, h)
  end.

(** [Transfers::receive_using].  [alloc] are the outcomes of the allocations
    of the data, of a snapshot and of the stage. *)
Definition receive_using (alloc : bool * bool * bool) (peek : bool) (socket source offset length maximum close : Z)
    (t : Transfers) (w : World) (b : B) (x : X)
    : Transfers * World * B * X * result Z (ReceiptInfo * option Z) :=
  match (_ ← ensure (negb (source =? 0)) (-9);
         _ ← ensure (negb (maximum >? MAX_TRANSFERRED_DESCRIPTORS)) (-22);
         kind (streams w) socket) with
  | Err e => (t, w, b, x, Err e)
  | Ok k =>
      let p := mkPublication t None 0 x in
      let callback := publish_receipt alloc.2 maximum in
      let limit := if peek then Some maximum else None in
      let '(w, b, p, r) :=
        if bool_decide (k = Stream) then receive_stream_rights_using callback alloc.1 socket offset length limit w b p
        else receive_record_rights_using callback alloc.1 socket offset length limit w b p in
      match r with
      | Err e => (pb_transfers p, w, b, pb_state p, Err e)
      | Ok (record, rights) =>
          let info := mkInfo record (pb_total p) (Z.min maximum (pb_total p)) in
          let '(rights, h) := truncate_option maximum rights (heap w) in
          match pb_receipt p with
          | Some id =>
              (push_stage (mkStage id socket source length (ReceivedStage rights info 0) close None) (pb_transfers p),
               set_heap h w, b, pb_state p, Ok (info, Some id))
          | None => (pb_transfers p, set_heap (drop_option rights h) w, b, pb_state p, Ok (info, None))
          end
      end
  end.

(** [Transfers::deliver]; [reply] is given the leases. *)
Definition deliver (reply : list Z → X → X * result Z unit) (id offset maximum : Z)
    (t : Transfers) (w : World) (x : X) : Transfers * World * X * result Z Z :=
  if (maximum =? 0) || (maximum >? IPC_MAX_OBJECT_HANDLES) then (t, w, x, Err (-22))
  else match find_stage id (stages t) with
  | None => (t, w, x, Err (-9))
  | Some s =>
      match sg_state s with
      | ReceivedStage rights info delivered =>
          if negb (offset =? delivered) then (t, w, x, Err (-22))
          else if delivered =? available_rights info then (t, w, x, Err (-61))
          else match rights with
          | None => (t, w, x, Err (-5))
          | Some bundle =>
              let count := Z.min maximum (bundle_len bundle) in
              match reply (take (Z.to_nat count) (leases bundle)) x with
              | (x, Err e) => (t, w, x, Err e)
              | (x, Ok _) =>
                  match discard_delivered_prefix count bundle (heap w) with
                  | (bundle, h, Err e) =>
                      (update_stage id (set_state (ReceivedStage (Some bundle) info delivered)) t, set_heap h w, x, Err e)
                  | (bundle, h, Ok _) =>
                      (update_stage id (set_state (ReceivedStage (Some bundle) info (delivered + count))) t,
                       set_heap h w, x, Ok count)
                  end
              end
          end
      | _ => (t, w, x, Err (-95))
      end
  end.

(** [Transfers::reserved_references]. *)
Definition reserved_references (t : Transfers) (h : Heap) : Z :=
  match accounts h !! budget t with Some a => used a | None => 0 end.
End transfer.

(** ** Ownership *)

Section transfer_lemmas.
Context {SP : SocketProtocol} {H : Type} {B : Type} {RB : RecordBuffer B}.

Definition state_ok (s : StageState) : Prop :=
  match s with
  | Collecting p => staged p
  | ReadyStage b => whole b
  | CompleteStage => True
  | ReceivedStage rights info delivered =>
      0 ≤ delivered ≤ available_rights info ∧ 0 < available_rights info ≤ total_rights info ∧
      match rights with
      | Some b => whole b ∧ bundle_len b = available_rights info - delivered
      | None => False
      end
  end.

Record transfers_ok (t : Transfers) : Prop := {
  to_ids : NoDup (sg_id <$> stages t);
  to_range x : x ∈ stages t → 1 ≤ sg_id x < tr_next t;
  to_next : 1 ≤ tr_next t ≤ MAX_DESCRIPTION_ID + 1;
  to_count : zlen (stages t) ≤ MAX_SOCKETS;
  to_state x : x ∈ stages t → state_ok (sg_state x) ∧ sg_source x ≠ 0;
}.

Definition stage_bundles (l : list Stage) : list Bundle := l ≫= λ x, state_bundles (sg_state x).
Definition stage_sources (l : list Stage) : list (Z * Z) := (λ x, (sg_close x, sg_source x)) <$> l.

(** [A] are the references that the worker adopted: as leases, or as the
    sources of stages. *)
Record transfer_ok (A : list (Z * Z)) (others : list Bundle) (t : Transfers) (w : World) : Prop := {
  tk_transfers : transfers_ok t;
  tk_world : ∃ A0, A ≡ₚ A0 ++ stage_sources (stages t) ∧ world_ok A0 (stage_bundles (stages t) ++ others) w;
}.

Lemma holds_adopted A A' h loose bs : A ≡ₚ A' → holds A h loose bs → holds A' h loose bs.
Proof. intros Hp [H1 H2 H3 H4 H5 H6]. split; try done. by rewrite <- Hp. Qed.
Lemma log_close_holds A h loose bs close handle :
  holds A h loose bs → holds ((close, handle) :: A) (log_close close handle h) loose bs.
Proof.
  intros [H1 H2 H3 H4 H5 H6]. split; simpl; try done. rewrite H6. unfold open_handles. simpl. solve_Permutation.
Qed.
Lemma set_heap_ok A A' others others' w h :
  world_ok A others w → (∀ bs, holds A (heap w) [] (bs ++ others) → holds A' h [] (bs ++ others')) →
  world_ok A' others' (set_heap h w).
Proof. intros [Hs Hh] Hstep. split; [done|]. simpl. by apply Hstep. Qed.

(** *** One stage and the others *)

Lemma find_stage_Some id l x :
  find_stage id l = Some x →
  sg_id x = id ∧ ∃ before after, l = before ++ x :: after ∧ ∀ f, alter_stage id f l = before ++ f x :: after.
Proof.
  induction l as [|y l IH]; simpl; [done|]. destruct (sg_id y =? id) eqn:E.
  - intros [= <-]. split; [lia|]. by exists [], l.
  - intros (Hid & before & after & -> & Hf)%IH. split; [done|]. exists (y :: before), after. split; [done|].
    intros f. by rewrite Hf.
Qed.
Lemma update_stage_ok t id x f :
  transfers_ok t → find_stage id (stages t) = Some x → sg_id (f x) = sg_id x →
  state_ok (sg_state (f x)) → sg_source (f x) = sg_source x → transfers_ok (update_stage id f t).
Proof.
  intros [T1 T2 T3 T4 T5] (_ & before & after & E & Hf)%find_stage_Some Hid Hst Hsrc. specialize (Hf f).
  assert (∀ y, y ∈ before ++ f x :: after → y = f x ∨ y ∈ stages t) as Hin by (rewrite E; set_solver).
  assert (x ∈ stages t) as Hx by (rewrite E; set_solver).
  unfold update_stage. rewrite Hf. split; simpl; try done.
  - rewrite E, fmap_app in T1. rewrite fmap_app. csimpl. csimpl in T1. by rewrite Hid.
  - intros y [->|Hy]%Hin; [rewrite Hid; by apply T2|by apply T2].
  - rewrite E in T4. unfold zlen in *. rewrite length_app in *. simpl in *. lia.
  - intros y [->|Hy]%Hin; [|by apply T5]. split; [done|]. rewrite Hsrc. by apply T5.
Qed.
(** The references and sources around one stage. *)
Lemma stages_split id l x :
  find_stage id l = Some x →
  ∃ rest, stage_bundles l ≡ₚ state_bundles (sg_state x) ++ rest ∧
    ∀ s, stage_bundles (alter_stage id (set_state s) l) ≡ₚ state_bundles s ++ rest ∧
         stage_sources (alter_stage id (set_state s) l) = stage_sources l.
Proof.
  intros (_ & before & after & -> & Hf)%find_stage_Some. exists (stage_bundles before ++ stage_bundles after).
  unfold stage_bundles, stage_sources. split; [rewrite bind_app; simpl; solve_Permutation|]. intros s.
  rewrite Hf. split; [rewrite bind_app; simpl; solve_Permutation|]. by rewrite !fmap_app.
Qed.

(** A change of one stage's state with the heap. *)
Lemma update_transfer_ok A others t w w' id x s :
  transfer_ok A others t w → find_stage id (stages t) = Some x → state_ok s →
  (∀ A0 rest, world_ok A0 (state_bundles (sg_state x) ++ rest) w → world_ok A0 (state_bundles s ++ rest) w') →
  transfer_ok A others (update_stage id (set_state s) t) w'.
Proof.
  intros [Ht (A0 & HA & Hw)] Hx Hs Hstep. split; [by apply (update_stage_ok t id x)|].
  destruct (stages_split _ _ _ Hx) as (rest & Hb & Hf). destruct (Hf s) as [Hb' Hs']. exists A0. simpl. split; [by rewrite Hs'|].
  destruct Hw as [Hst Hh]. specialize (Hstep A0 (rest ++ others)).
  destruct Hstep as [Hst' Hh']; [split; [done|]; rewrite Hb in Hh; owned_by Hh|].
  split; [done|]. rewrite Hb'. owned_by Hh'.
Qed.

Lemma stage_sources_app l k : stage_sources (l ++ k) = stage_sources l ++ stage_sources k.
Proof. apply fmap_app. Qed.
Lemma stage_bundles_app l k : stage_bundles (l ++ k) = stage_bundles l ++ stage_bundles k.
Proof. apply bind_app. Qed.

(** A new stage. *)
Lemma push_ok t x n :
  transfers_ok t → sg_id x = tr_next t → n = tr_next t + 1 → zlen (stages t) ≠ MAX_SOCKETS → tr_next t ≤ MAX_DESCRIPTION_ID →
  state_ok (sg_state x) → sg_source x ≠ 0 → transfers_ok (mkTransfers n (stages t ++ [x]) (budget t)).
Proof.
  intros [T1 T2 T3 T4 T5] Hid -> Hc Hm Hs Hsrc. split; simpl; try lia.
  - rewrite fmap_app. apply NoDup_app. split_and!; [done| |apply NoDup_singleton].
    intros y (z & -> & Hz)%list_elem_of_fmap Hy. apply list_elem_of_singleton in Hy. apply T2 in Hz. lia.
  - intros y [Hy|Hy%list_elem_of_singleton]%elem_of_app; [apply T2 in Hy; lia|subst y; lia].
  - rewrite zlen_app, zlen_cons, zlen_nil. unfold MAX_SOCKETS in *. lia.
  - intros y [Hy|Hy%list_elem_of_singleton]%elem_of_app; [by apply T5|by subst y].
Qed.
Lemma push_transfer_ok A others t w w' x n :
  transfer_ok A others t w → transfers_ok (mkTransfers n (stages t ++ [x]) (budget t)) →
  (∀ A0 rest, world_ok A0 rest w → world_ok A0 (state_bundles (sg_state x) ++ rest) w') →
  transfer_ok ((sg_close x, sg_source x) :: A) others (mkTransfers n (stages t ++ [x]) (budget t)) w'.
Proof.
  intros [Ht (A0 & HA & Hw)] Hok Hstep. split; [done|]. exists A0. simpl. unfold stage_sources, stage_bundles in *.
  rewrite fmap_app, bind_app. csimpl. rewrite app_nil_r. split; [rewrite HA; solve_Permutation|].
  apply Hstep in Hw. destruct Hw as [Hst Hh]. split; [done|]. owned_by Hh.
Qed.
(** ** The operations *)

Lemma heap_transfer_ok A others t w h :
  transfer_ok A others t w → (∀ A0 bs, holds A0 (heap w) [] bs → holds A0 h [] bs) →
  transfer_ok A others t (set_heap h w).
Proof.
  intros [Ht (A0 & HA & Hw)] Hstep. split; [done|]. exists A0. split; [done|].
  eapply (set_heap_ok A0 A0); [done|]. intros bs. apply Hstep.
Qed.

Lemma start_transfer_ok A others alloc socket source length count close t w :
  transfer_ok A others t w → 0 ≤ count →
  match start_transfer alloc socket source length count close t w with
  | (t', w', Ok id) => transfer_ok ((close, source) :: A) others t' w' ∧ id = tr_next t ∧
      ∃ p, stages t' = stages t ++ [mkStage id socket source length (Collecting p) close None] ∧
        expected p = count ∧ received p = 0
  | (t', w', Err _) => t' = t ∧ transfer_ok A others t w'
  end.
Proof.
  intros Ht Hc. unfold start_transfer.
  match goal with |- context [match ?x with Ok _ => _ | Err _ => _ end] => destruct x as [[]|] eqn:E end; [|done].
  assert (source ≠ 0 ∧ zlen (stages t) ≠ MAX_SOCKETS ∧ tr_next t ≤ MAX_DESCRIPTION_ID) as (Hs & Hz & Hn).
  { unfold kind, fmap, result_fmap in E. destruct (endpoint _ _); [|by inv_socket]. inv_socket. lia. }
  pose proof (λ A0 bs, pending_new_holds A0 alloc.1 count (budget t) (heap w) [] bs) as Hp.
  destruct (pending_new _ _ _ _) as [h [p|]].
  - assert (p = mkPending count (mkBundle [] (mkCharge (budget t) count))) as Ep.
    { destruct Ht as [_ (A0 & _ & [_ Hh])]. by apply (Hp _ _ Hh Hc). }
    assert (∀ A0 bs, holds A0 (heap w) [] bs → holds A0 h [] (pending_bundle p :: bs)) as Hp'
      by (intros A0 bs Hh; by apply (Hp _ _ Hh Hc)).
    destruct alloc.2; simpl.
    + split_and!; [|done|by exists p; rewrite Ep].
      apply (push_transfer_ok A others t w _ (mkStage (tr_next t) socket source length (Collecting p) close None)); [done| |].
      * apply (push_ok t (mkStage (tr_next t) socket source length (Collecting p) close None) (tr_next t + 1)); try done; [apply Ht|].
        subst p. simpl. split; [done|]. done.
      * intros A0 rest Hw. apply (set_heap_ok A0 A0 rest _ w); [done|]. intros bs Hh. apply Hp' in Hh. simpl. owned_by Hh.
    + split; [done|]. apply heap_transfer_ok; [done|]. intros A0 bs Hh. apply Hp' in Hh. by apply drop_bundle_holds.
  - split; [done|]. apply heap_transfer_ok; [done|]. intros A0 bs Hh. by apply (Hp _ _ Hh Hc).
Qed.

Lemma route_last_snoc route l x : route_last route (l ++ [x]) = l ++ [set_route (Some route) x].
Proof. unfold route_last. rewrite last_snoc, length_app. simpl. rewrite Nat.add_sub, take_app_length. done. Qed.
Lemma start_routed_ok A others alloc (rs : Routes H) route source length count close t w :
  transfer_ok A others t w → 0 ≤ count →
  match start_routed alloc rs route source length count close t w with
  | (t', w', Ok id) => transfer_ok ((close, source) :: A) others t' w'
  | (t', w', Err _) => t' = t ∧ transfer_ok A others t w'
  end.
Proof.
  intros Ht Hc. unfold start_routed. destruct (route_source _ _ _) as [socket|]; [|done].
  pose proof (start_transfer_ok A others alloc socket source length count close t w Ht Hc) as Hs.
  destruct (start_transfer _ _ _ _ _ _ _ _) as [[t' w'] [id|]]; [|done]. destruct Hs as (Hs & -> & p & Est & _).
  rewrite Est, route_last_snoc. set (x := mkStage _ _ _ _ _ _ _) in *. destruct Hs as [[T1 T2 T3 T4 T5] (A0 & HA & Hw)].
  rewrite Est in T1, T2, T4, T5, HA, Hw. rewrite fmap_app in T1. rewrite stage_sources_app in HA. rewrite stage_bundles_app in Hw.
  split; [split; simpl|exists A0; simpl; by rewrite stage_sources_app, stage_bundles_app]; try done.
  - by rewrite fmap_app.
  - intros y [Hy|Hy%list_elem_of_singleton]%elem_of_app; [apply T2; set_solver|]. subst y. apply (T2 x). set_solver.
  - unfold zlen in *. rewrite length_app in *. done.
  - intros y [Hy|Hy%list_elem_of_singleton]%elem_of_app; [apply T5; set_solver|]. subst y. apply (T5 x). set_solver.
Qed.

(** Committing: the references are queued with the data exactly when the
    send succeeds, and then the stage is complete; on every error they are
    still in the stage and nothing was sent. *)
Lemma take_bundle_Ok s b :
  state_ok s → take_bundle s = Ok b → state_bundles s = [b] ∧ whole b.
Proof.
  intros Hs. destruct s as [p|b'| |rights info delivered]; simpl in *; try done.
  - destruct (finish p) as [b'|] eqn:E; [|done]. intros [= <-]. apply finish_whole in E as [-> ?]; [|done]. done.
  - by intros [= <-].
Qed.

Lemma commit_using_ok A others alloc id offset t (rs : option (Routes H)) w (b : B) :
  transfer_ok A others t w → (∀ r, rs = Some r → routes_ok r) →
  match commit_using alloc id offset t rs w b with
  | (t', rs', w', _, Ok _) => transfer_ok A others t' w' ∧
      (∃ x bundle, find_stage id (stages t) = Some x ∧ take_bundle (sg_state x) = Ok bundle) ∧
      t' = update_stage id (set_state CompleteStage) t ∧
      (rs' = rs ∨ ∃ r route, rs = Some r ∧ rs' = Some (set_complete route r))
  | (t', rs', w', _, Err _) => transfer_ok A others t' w' ∧ w' = w ∧ rs' = rs ∧
      (t' = t ∨ ∃ x bundle, find_stage id (stages t) = Some x ∧ take_bundle (sg_state x) = Ok bundle ∧
         t' = update_stage id (set_state (ReadyStage bundle)) t)
  end.
Proof.
  intros Ht Hrs. unfold commit_using. destruct (find_stage id (stages t)) as [x|] eqn:Ex; [|by split_and!; [| | |left]].
  destruct (commit_checks _ _ _ _ _) as [[stream length]|]; [|by split_and!; [| | |left]].
  destruct (negb alloc.1); [by split_and!; [| | |left]|].
  destruct (buffer_read _ _ b) as [b' [bytes|]]; [|by split_and!; [| | |left]].
  destruct (take_bundle (sg_state x)) as [bundle|] eqn:Et; [|by split_and!; [| | |left]].
  assert (x ∈ stages t) as Hin.
  { apply find_stage_Some in Ex as (_ & before & after & -> & _). set_solver. }
  destruct (take_bundle_Ok _ _ (proj1 (to_state _ (tk_transfers _ _ _ _ Ht) x Hin)) Et) as [Eb Hwh].
  assert (∀ w', (∀ A0 rest, world_ok A0 (bundle :: rest) w → world_ok A0 rest w') →
    transfer_ok A others (update_stage id (set_state CompleteStage) t) w') as Hsent.
  { intros w' Hw'. apply (update_transfer_ok A others t w w' id x); try done. intros A0 rest. rewrite Eb. apply Hw'. }
  assert (transfer_ok A others (update_stage id (set_state (ReadyStage bundle)) t) w) as Hkept.
  { apply (update_transfer_ok A others t w w id x); try done. intros A0 rest. by rewrite Eb. }
  assert (∃ A0 rest, world_ok A0 (bundle :: rest) w) as (A0 & rest & Hw).
  { destruct Ht as [_ (A0 & _ & [Hst Hh])]. destruct (stages_split _ _ _ Ex) as (rest & Hb & _). rewrite Eb in Hb.
    exists A0, (rest ++ others). split; [done|]. rewrite Hb in Hh. owned_by Hh. }
  clear Ht. destruct (sg_route x) as [route|].
  - destruct rs as [r|]; [|split_and!; eauto 10].
    pose proof (λ A0 rest Hw, transfer_rights_ok A0 rest alloc.2 route bytes bundle r w (Hrs r eq_refl) Hw Hwh) as Hs.
    destruct (transfer_rights _ _ _ _ _ _) as [[r' w'] [res|[e bundle']]].
    + split_and!; [|by eauto|done|].
      * apply Hsent. intros A1 rest1 Hw1. by destruct (Hs _ _ Hw1) as (_ & ? & _).
      * right. exists r, route. split; [done|]. destruct (Hs _ _ Hw) as (E' & _). by rewrite E'.
    + destruct (Hs _ _ Hw) as (-> & -> & ->). split_and!; eauto 10.
  - assert (∀ A0 rest, world_ok A0 (bundle :: rest) w →
      match (if stream then commit_stream_with_rights alloc.2 (sg_socket x) bytes bundle w
             else commit_record_with_rights alloc.2 (sg_socket x) bytes bundle w) with
      | (w', Ok _) => world_ok A0 rest w'
      | (w', Err (_, bundle')) => w' = w ∧ bundle' = bundle
      end) as Hs.
    { intros A1 rest1 Hw1. destruct stream; [|by apply commit_record_ok'].
      pose proof (commit_stream_ok A1 rest1 alloc.2 (sg_socket x) bytes bundle w Hw1 Hwh) as Hc.
      by destruct (commit_stream_with_rights _ _ _ _ _) as [w' [[n ids]|[e bundle']]]. }
    destruct (if stream then _ else _) as [w' [res|[e bundle']]].
    + split_and!; [apply Hsent; exact Hs|by eauto|done|by left].
    + destruct (Hs _ _ Hw) as (-> & ->). split_and!; eauto 10.
Qed.
(** Dropping a stage closes its source and its references. *)
Lemma drop_stage_holds A h x bs :
  holds A h [] (state_bundles (sg_state x) ++ bs) → holds ((sg_close x, sg_source x) :: A) (drop_stage x h) [] bs.
Proof. intros Hh. unfold drop_stage. apply drop_bundles_holds. by apply log_close_holds. Qed.

Lemma release_transfer_ok A others id t w :
  transfer_ok A others t w →
  let '(t', w', r) := release_transfer id t w in
  transfer_ok A others t' w' ∧ find_stage id (stages t') = None.
Proof.
  intros [Ht (A0 & HA & Hw)]. unfold release_transfer. destruct (iter_position _ _) as [k|] eqn:E.
  - apply iter_position_Some in E as (x & Hx & Hid & _). rewrite Hx. pose proof (swap_remove_perm _ _ _ Hx) as Hp.
    remember (swap_remove k (stages t)) as rest eqn:Er. clear Er. destruct Ht as [T1 T2 T3 T4 T5].
    rewrite <- Hp in T1. csimpl in T1. apply NoDup_cons in T1 as [Hn T1].
    assert (∀ y, y ∈ rest → y ∈ stages t) as Hin by (intros y ?; rewrite <- Hp; by right).
    assert (stage_sources (stages t) ≡ₚ (sg_close x, sg_source x) :: stage_sources rest) as Hss
      by (unfold stage_sources; by rewrite <- Hp).
    assert (stage_bundles (stages t) ≡ₚ state_bundles (sg_state x) ++ stage_bundles rest) as Hsb
      by (unfold stage_bundles; by rewrite <- Hp).
    split; [split|].
    + split; simpl; eauto. unfold zlen in *. rewrite <- Hp in T4. simpl in T4. lia.
    + exists ((sg_close x, sg_source x) :: A0). simpl. split; [rewrite HA, Hss; solve_Permutation|].
      eapply (set_heap_ok A0); [done|]. intros bs Hh. apply drop_stage_holds. rewrite Hsb in Hh. owned_by Hh.
    + simpl. destruct (find_stage id rest) as [y|] eqn:Ey; [|done]. apply find_stage_Some in Ey as (Hy & before & after & Er & _).
      exfalso. apply Hn. apply list_elem_of_fmap. exists y. split; [lia|]. rewrite Er. set_solver.
  - split; [by split; eauto|]. destruct (find_stage id (stages t)) as [y|] eqn:Ey; [|done].
    apply find_stage_Some in Ey as (Hy & before & after & Er & _).
    pose proof (proj1 (iter_position_None _ _) E y ltac:(rewrite Er; set_solver)). simpl in *. lia.
Qed.

(** *** Receiving *)

Context {X : Type} (publish : option Z → ReceiptInfo → X → X * result Z unit).

(** The publication a receive starts from, and what one call makes of it. *)
Lemma publish_receipt_spec alloc maximum record total t x :
  transfers_ok t → 0 ≤ maximum → 0 ≤ total →
  match publish_receipt publish alloc maximum record total (mkPublication t None 0 x) with
  | (p, r) => transfers_ok (pb_transfers p) ∧ stages (pb_transfers p) = stages t ∧ budget (pb_transfers p) = budget t ∧
      (∀ u, r = Ok u → pb_total p = total ∧
        (Z.min maximum total = 0 ∧ pb_receipt p = None ∨
         0 < Z.min maximum total ∧ pb_receipt p = Some (tr_next t) ∧ tr_next (pb_transfers p) = tr_next t + 1 ∧
         zlen (stages t) ≠ MAX_SOCKETS ∧ tr_next t ≤ MAX_DESCRIPTION_ID))
  end.
Proof.
  intros Ht Hm Hn. unfold publish_receipt. simpl. destruct (Z.min maximum total =? 0) eqn:E0.
  - destruct (publish _ _ _) as [x' r]. simpl. split_and!; try done. intros u _. split; [done|]. left. split; [lia|done].
  - destruct (_ || _) eqn:E1; [done|]. apply orb_false_iff in E1 as [E1 E2]. destruct alloc; simpl; [|done].
    destruct (publish _ _ _) as [x' r]. simpl. split_and!; try done.
    + destruct Ht as [T1 T2 T3 T4 T5]. split; simpl; try done; [|lia]. intros y Hy. apply T2 in Hy. lia.
    + intros u _. split; [done|]. right. split_and!; try done; lia.
Qed.

(** The table publishes at most once. *)
Lemma receive_stream_published {Y} (pub : ReceivedRecord → Z → Y → Y * result Z unit) alloc id offset length limit w (b : B) y :
  let '(_, _, y', _) := receive_stream_rights_using pub alloc id offset length limit w b y in
  y' = y ∨ ∃ record o, y' = fst (pub record (bundle_count o) y).
Proof.
  unfold receive_stream_rights_using. destruct (_ >? _); [by left|]. destruct (_ ≫= _); [|by left].
  destruct (stream_read_count _ _ _ _) as [st [n|]]; [|by left]. destruct (endpoint _ _) as [e|]; [|by left].
  destruct alloc as [a1 a2]. cbn [fst snd]. destruct a1; cbn [negb]; [|by left].
  destruct (stream_peek _ _ _) as [data n']. destruct (buffer_write _ _ _) as [b' [[]|]]; [|by left].
  destruct (source_new _) as [src|]; [|by left]. destruct (peek_snapshot _ _ _ _) as [h [snap|]]; [|by left].
  destruct (pub _ _ y) as [y' [[]|]] eqn:Ep; [|right; eexists _, _; by rewrite Ep].
  destruct snap; [right; eexists _, _; by rewrite Ep|]. destruct (read_owned _ _) as [[q out] [c r]].
  right. eexists _, _. by rewrite Ep.
Qed.
Lemma receive_record_published {Y} (pub : ReceivedRecord → Z → Y → Y * result Z unit) alloc id offset length limit w (b : B) y :
  let '(_, _, y', _) := receive_record_rights_using pub alloc id offset length limit w b y in
  y' = y ∨ ∃ record o, y' = fst (pub record (bundle_count o) y).
Proof.
  unfold receive_record_rights_using. destruct (_ >? _); [by left|]. destruct (_ ≫= _); [|by left].
  destruct (record_read_terminal _ _) as [st [[]|]]; [| |by left].
  { destruct (source_new _) as [src|]; [|by left].
    destruct (pub _ _ y) as [y' [[]|]] eqn:Ep; right; exists (mkReceived false 0 0 src), None; cbn [bundle_count]; by rewrite Ep. }
  destruct (_ ≫= _) as [q|]; [|by left]. destruct alloc as [a1 a2]. cbn [fst snd]. destruct a1; cbn [negb]; [|by left].
  destruct (receive _ _ _ _) as [[[q0 h0] data] [record|]]; [|by left].
  destruct (buffer_write _ _ _) as [b' [[]|]]; [|by left]. destruct (peek_snapshot _ _ _ _) as [h [snap|]]; [|by left].
  destruct (pub _ _ y) as [y' [[]|]] eqn:Ep; [|right; eexists _, _; by rewrite Ep].
  destruct snap; [right; eexists _, _; by rewrite Ep|].
  destruct (receive_owned _ _) as [[q' out] [[? ?]|]]; right; eexists _, _; by rewrite Ep.
Qed.
(** What both receives have in common, for any publication. *)
Lemma receive_any_ok {Y} (pub : ReceivedRecord → Z → Y → Y * result Z unit) A others (stream : bool) alloc id offset length limit
    w (b : B) y :
  world_ok A others w → 0 ≤ length → (∀ m, limit = Some m → 0 ≤ m) →
  match (if stream then receive_stream_rights_using pub alloc id offset length limit w b y
         else receive_record_rights_using pub alloc id offset length limit w b y) with
  | (w', _, y', Ok (record, r)) => world_ok A (option_list r ++ others) w' ∧ (∀ b, r = Some b → whole b) ∧
      ∃ o, pub record (bundle_count o) y = (y', Ok tt) ∧
        bundle_count r = (match limit with Some m => Z.min m (bundle_count o) | None => bundle_count o end)
  | (w', _, y', Err _) => world_ok A others w' ∧ (y' = y ∨ ∃ record o, y' = fst (pub record (bundle_count o) y))
  end.
Proof.
  intros Hw Hl Hm.
  assert (∀ (r o : option Bundle) m, 0 ≤ m → (leases <$> r) = (λ b, take (Z.to_nat m) (leases b)) <$> o →
    bundle_count r = Z.min m (bundle_count o)) as Hcount.
  { intros r o m Hm0 E. destruct r as [br|], o as [bo|]; simpl in E; try done; simpl; [|lia].
    injection E as E. unfold bundle_len. by rewrite E, zlen_take. }
  destruct stream.
  - pose proof (receive_stream_rights_ok pub A others alloc id offset length limit w b y Hw Hl Hm) as Hs.
    pose proof (receive_stream_published pub alloc id offset length limit w b y) as Hp.
    destruct (receive_stream_rights_using _ _ _ _ _ _ _ _ _) as [[[w' b'] y'] [[record r]|]]; [|by destruct Hs].
    destruct Hs as (H1 & H2 & e & c & _ & _ & _ & Hpub & Hr). split_and!; try done. eexists. split; [done|].
    destruct limit as [m|]; [destruct Hr as [_ Hr]; apply Hcount; [by apply Hm|done]|]. by destruct Hr as [-> _].
  - pose proof (receive_record_rights_ok pub A others alloc id offset length limit w b y Hw Hl Hm) as Hs.
    pose proof (receive_record_published pub alloc id offset length limit w b y) as Hp.
    destruct (receive_record_rights_using _ _ _ _ _ _ _ _ _) as [[[w' b'] y'] [[record r]|]]; [|by destruct Hs].
    destruct Hs as (H1 & H2 & [(_ & -> & _ & _ & Hpub)|(e & q & p & rest & _ & _ & _ & _ & _ & Hpub & Hr)]); split_and!; try done.
    + exists None. split; [done|]. simpl. destruct limit as [m|]; [|done]. specialize (Hm m eq_refl). lia.
    + eexists. split; [done|].
      destruct limit as [m|]; [destruct Hr as [_ Hr]; apply Hcount; [by apply Hm|done]|]. by destruct Hr as [-> _].
Qed.

Lemma bundle_count_nonneg o : 0 ≤ bundle_count o.
Proof. destruct o; simpl; [apply zlen_nonneg|done]. Qed.

Lemma truncate_option_ok A maximum o others w :
  world_ok A (option_list o ++ others) w → (∀ b, o = Some b → whole b) → 0 ≤ maximum →
  let '(o', h') := truncate_option maximum o (heap w) in
  world_ok A (option_list o' ++ others) (set_heap h' w) ∧ (∀ b, o' = Some b → whole b) ∧
  bundle_count o' = Z.min maximum (bundle_count o) ∧ (is_Some o' ↔ is_Some o).
Proof.
  intros Hw Hwh Hm. destruct o as [b|]; cbn [truncate_option]; [|simpl; rewrite Z.min_r by lia; by destruct w].
  pose proof (λ bs, truncate_holds A maximum b (heap w) [] bs) as Ht.
  destruct Hw as [Hst Hh]. destruct (truncate maximum b (heap w)) as [b' h'].
  destruct (Ht (bundles (streams w) ++ others) ltac:(owned_by Hh) (Hwh b eq_refl) Hm) as (Hl & Hw' & Hh').
  split_and!; [split; [done|cbn [heap set_heap]; owned_by Hh']|by intros ? [= <-]|simpl; unfold bundle_len; by rewrite Hl, zlen_take|done].
Qed.

Lemma receive_using_ok A others alloc peek socket source offset length maximum close t w (b : B) x :
  transfer_ok A others t w → 0 ≤ length → 0 ≤ maximum →
  match receive_using publish alloc peek socket source offset length maximum close t w b x with
  | (t', w', _, _, Ok (info, Some id)) => transfer_ok ((close, source) :: A) others t' w' ∧ id = tr_next t ∧
      available_rights info = Z.min maximum (total_rights info) ∧ 0 < available_rights info
  | (t', w', _, _, Ok (info, None)) => transfer_ok A others t' w' ∧ available_rights info = 0
  | (t', w', _, _, Err _) => transfer_ok A others t' w'
  end.
Proof.
  intros [Ht (A0 & HA & Hw)] Hl Hm. unfold receive_using.
  match goal with |- context [match ?x with Ok _ => _ | Err _ => _ end] => destruct x as [k|] eqn:E end; [|by split; eauto].
  assert (source ≠ 0) as Hsrc by (inv_socket; lia). clear E.
  set (limit := if peek then Some maximum else None).
  pose proof (receive_any_ok (publish_receipt publish alloc.2 maximum) A0 _ (bool_decide (k = Stream)) alloc.1 socket offset length
    limit w b (mkPublication t None 0 x) Hw Hl) as Hr.
  assert (∀ m, limit = Some m → 0 ≤ m) as Hlim by (unfold limit; destruct peek; by intros ? [= <-]).
  specialize (Hr Hlim).
  destruct (if bool_decide _ then _ else _) as [[[w' b'] p] [[record r]|]].
  - destruct Hr as (Hw' & Hwh & o & Hpub & Hcount).
    pose proof (publish_receipt_spec alloc.2 maximum record (bundle_count o) t x Ht Hm (bundle_count_nonneg o)) as Hp.
    rewrite Hpub in Hp. destruct Hp as (Ht' & Est & Ebud & Hp). destruct (Hp tt eq_refl) as [Etot Hcase].
    pose proof (truncate_option_ok A0 maximum r _ w' Hw' Hwh Hm) as Htr.
    destruct (truncate_option maximum r (heap w')) as [r' h']. destruct Htr as (Hw2 & Hwh2 & Hc2 & Hs2).
    assert (bundle_count r' = Z.min maximum (bundle_count o)) as Hcr
      by (rewrite Hc2, Hcount; unfold limit; destruct peek; lia).
    destruct Hcase as [[Hz ->]|(Hz & -> & Hnx & Hne & Hmx)].
    + split; [|simpl; lia]. split; [done|]. rewrite Est. exists A0. split; [done|].
      destruct Hw2 as [Hs Hh]. split; [done|]. simpl in *. apply drop_option_holds. owned_by Hh.
    + simpl. rewrite Etot. split_and!; try done.
      destruct r' as [b2|]; [|simpl in Hcr; lia]. unfold push_stage. rewrite Est, Ebud, Hnx.
      set (stage := mkStage _ _ _ _ _ _ _).
      split; [apply (push_ok t stage); try done|].
      * simpl. pose proof (bundle_count_nonneg o). split_and!; try lia; [by apply Hwh2|]. simpl in Hcr. lia.
      * exists A0. simpl. rewrite stage_sources_app, stage_bundles_app. split; [rewrite HA; simpl; solve_Permutation|].
        destruct Hw2 as [Hs Hh]. split; [done|]. simpl in *. owned_by Hh.
  - destruct Hr as [Hw' Hpub].
    assert (transfers_ok (pb_transfers p) ∧ stages (pb_transfers p) = stages t) as [Ht' Est].
    { destruct Hpub as [->|(record & o & ->)]; [done|].
      pose proof (publish_receipt_spec alloc.2 maximum record (bundle_count o) t x Ht Hm (bundle_count_nonneg o)) as Hp.
      destruct (publish_receipt _ _ _ _ _ _) as [p' r']. by destruct Hp as (? & ? & _). }
    split; [done|]. rewrite Est. eauto.
Qed.
(** *** Delivering *)

Lemma deliver_ok A others reply id offset maximum t w (x : X) :
  transfer_ok A others t w → 0 ≤ maximum →
  match deliver reply id offset maximum t w x with
  | (t', w', x', Ok n) => transfer_ok A others t' w' ∧
      ∃ s b info d b', find_stage id (stages t) = Some s ∧ sg_state s = ReceivedStage (Some b) info d ∧ offset = d ∧
        n = Z.min maximum (bundle_len b) ∧ 0 < n ∧ reply (take (Z.to_nat n) (leases b)) x = (x', Ok tt) ∧
        t' = update_stage id (set_state (ReceivedStage (Some b') info (d + n))) t ∧
        leases b' = drop (Z.to_nat n) (leases b)
  | (t', w', _, Err _) => t' = t ∧ w' = w
  end.
Proof.
  intros Ht Hm. unfold deliver. destruct (_ || _) eqn:E; [done|]. apply orb_false_iff in E as [E _].
  destruct (find_stage id (stages t)) as [s|] eqn:Es; [|done].
  assert (s ∈ stages t) as Hin by (apply find_stage_Some in Es as (_ & before & after & -> & _); set_solver).
  pose proof (proj1 (to_state _ (tk_transfers _ _ _ _ Ht) s Hin)) as Hok.
  destruct (sg_state s) as [| | |rights info d] eqn:Est; try done. simpl in Hok. destruct Hok as (Hd & Ha & Hr).
  destruct (offset =? d) eqn:Eo; simpl; [|done]. destruct (d =? available_rights info) eqn:Ed; [done|].
  destruct rights as [b|]; [|done]. destruct Hr as [Hwh Hlen].
  set (n := Z.min maximum (bundle_len b)). destruct (reply _ x) as [x' [[]|]] eqn:Er; [|done].
  assert (0 ≤ n) as Hn by lia.
  pose proof (λ A0 bs Hh, discard_delivered_prefix_holds A0 n b (heap w) [] bs Hh Hwh Hn) as Hdisc.
  assert (∃ A0 bs, holds A0 (heap w) [] (b :: bs)) as (A1 & bs1 & Hh1).
  { destruct Ht as [_ (A0 & _ & [_ Hh])]. destruct (stages_split _ _ _ Es) as (rest & Hb & _).
    rewrite Est in Hb. simpl in Hb. exists A0, (bundles (streams w) ++ rest ++ others). rewrite Hb in Hh. owned_by Hh. }
  destruct (discard_delivered_prefix n b (heap w)) as [[b' h'] [[]|e]].
  - destruct (Hdisc _ _ Hh1) as (_ & Hl' & Hwh' & _). split.
    + apply (update_transfer_ok A others t w _ id s); try done.
      * simpl. split_and!; try lia; [done|]. unfold bundle_len in *. rewrite Hl', zlen_drop by done. lia.
      * intros A0 rest Hw. rewrite Est in Hw. simpl in *. apply (set_heap_ok A0 A0 (b :: rest)); [done|].
        intros bs Hh. destruct (Hdisc A0 (bs ++ rest) ltac:(owned_by Hh)) as (_ & _ & _ & Hh'). owned_by Hh'.
    + exists s, b, info, d, b'. split_and!; try done; lia.
  - destruct (Hdisc _ _ Hh1) as (_ & _ & _ & Hlt). unfold n, bundle_len in Hlt. lia.
Qed.

(** *** Appending *)

Definition world_loose (A : list (Z * Z)) (loose : list Z) (others : list Bundle) (w : World) : Prop :=
  streams_ok (streams w) ∧ holds A (heap w) loose (bundles (streams w) ++ others).

Lemma append_transfer_ok A A0 others id offset new t w :
  transfers_ok t → A ≡ₚ A0 ++ stage_sources (stages t) → world_loose A0 new (stage_bundles (stages t) ++ others) w →
  match append_transfer id offset new t w with
  | (t', w', Ok n) => transfer_ok A others t' w' ∧
      ∃ x p p', find_stage id (stages t) = Some x ∧ sg_state x = Collecting p ∧ offset = received p ∧
        t' = update_stage id (set_state (Collecting p')) t ∧ expected p' = expected p ∧
        leases (pending_bundle p') = leases (pending_bundle p) ++ new ∧ n = received p'
  | (t', w', Err _) => transfer_ok A others t' w' ∧ t' = t
  end.
Proof.
  intros Ht HA [Hst Hh]. unfold append_transfer.
  assert (transfer_ok A others t (set_heap (drop_leases new (heap w)) w)) as Hrej.
  { split; [done|]. exists A0. split; [done|]. split; [done|]. simpl. apply drop_leases_holds. by rewrite app_nil_r. }
  destruct (find_stage id (stages t)) as [x|] eqn:Ex; [|done].
  assert (x ∈ stages t) as Hin by (apply find_stage_Some in Ex as (_ & before & after & -> & _); set_solver).
  pose proof (proj1 (to_state _ Ht x Hin)) as Hok.
  destruct (sg_state x) as [p| | |] eqn:Es; [|done|done|done]. simpl in Hok.
  destruct (stages_split _ _ _ Ex) as (rest & Hb & Hf). rewrite Es in Hb. simpl in Hb. rewrite Hb in Hh.
  pose proof (append_holds A0 offset new p (heap w) [] (bundles (streams w) ++ rest ++ others)) as Ha.
  rewrite app_nil_r in Ha. specialize (Ha ltac:(owned_by Hh) Hok).
  destruct (append offset new p (heap w)) as [[p' h'] [[]|e]].
  - destruct Ha as (Hl & He & Hs' & Ho & -> & Hh'). destruct (Hf (Collecting p')) as [Hb' Hs2]. split.
    + split; [by apply (update_stage_ok t id x)|]. exists A0. simpl. rewrite Hs2. split; [done|]. split; [done|].
      simpl. rewrite Hb'. simpl. owned_by Hh'.
    + by exists x, p, p'.
  - destruct Ha as (-> & _ & Hh'). assert (update_stage id (set_state (Collecting p)) t = t) as ->.
    { destruct (find_stage_Some _ _ _ Ex) as (_ & before & after & E & Hf'). unfold update_stage. rewrite Hf'.
      destruct t, x. simpl in *. by subst. }
    split; [|done]. split; [done|]. exists A0. split; [done|]. split; [done|]. simpl. rewrite Hb. owned_by Hh'.
Qed.

Definition adopted_by (close : Z) (handles : list Z) : list (Z * Z) := (λ h, (close, h)) <$> handles.

Lemma adopt_batch_holds A alloc close dn items h bs :
  holds A h dn bs → (∀ it, it ∈ items → at_handle it ≠ 0 ∧ is_Some (at_metadata it)) →
  match adopt_batch alloc close dn items h with
  | (h', consumed, Ok ls) => holds (adopted_by close consumed ++ A) h' ls bs ∧ consumed = at_handle <$> items
  | (h', consumed, Err _) => holds (adopted_by close consumed ++ A) h' [] bs
  end.
Proof.
  revert A dn h. induction items as [|it items IH]; intros A dn h Hh Hit; simpl; [done|].
  destruct (is_some_and _ _); [simpl; apply drop_leases_holds; by rewrite app_nil_r|].
  destruct (Hit it ltac:(by left)) as [Hnz [m Hm]]. rewrite Hm.
  pose proof (adopt_holds A (alloc (at_handle it)) (at_handle it) (at_rights it) m close h dn bs Hh) as Ha.
  simpl in Ha. replace (at_handle it =? 0) with false in Ha by lia.
  destruct (adopt _ _ _ _ _ h) as [h1 [p|e]].
  - specialize (IH ((close, at_handle it) :: A) (dn ++ [p]) h1).
    specialize (IH ltac:(by rewrite (Permutation_app_comm dn [p])) ltac:(intros; apply Hit; by right)).
    assert (∀ c, adopted_by close c ++ (close, at_handle it) :: A ≡ₚ adopted_by close (at_handle it :: c) ++ A) as Hp
      by (intros c; unfold adopted_by; csimpl; by rewrite <- Permutation_middle).
    destruct (adopt_batch _ _ _ _ _) as [[h' consumed] [ls|e]].
    + destruct IH as [IH ->]. split; [|done]. by apply (holds_adopted _ _ _ _ _ (Hp _)).
    + by apply (holds_adopted _ _ _ _ _ (Hp _)).
  - simpl. apply drop_leases_holds. by rewrite app_nil_r.
Qed.

(** A batch is adopted as a whole: its references are in the stage, or all
    that were consumed are closed. *)
Lemma append_request_ok A others alloc allocs close id offset items t w :
  transfer_ok A others t w → (∀ it, it ∈ items → at_handle it ≠ 0 ∧ is_Some (at_metadata it)) →
  let '(t', w', consumed, r) := append_request alloc allocs close id offset items t w in
  transfer_ok (adopted_by close consumed ++ A) others t' w' ∧
  match r with Ok _ => consumed = at_handle <$> items | Err _ => t' = t end.
Proof.
  intros Ht Hit. unfold append_request. destruct (progress t id) as [?|]; [|done]. destruct alloc; simpl; [|done].
  destruct Ht as [Ht (A0 & HA & [Hst Hh])].
  pose proof (adopt_batch_holds A0 allocs close [] items (heap w) _ Hh Hit) as Hb.
  destruct (adopt_batch _ _ _ _ _) as [[h consumed] [ls|e]].
  - destruct Hb as [Hb Ec].
    pose proof (append_transfer_ok (adopted_by close consumed ++ A) (adopted_by close consumed ++ A0) others id offset ls t (set_heap h w) Ht) as Ha.
    destruct (append_transfer _ _ _ _ _) as [[t' w'] [n|e]];
      (destruct Ha as [Ha Ha']; [rewrite HA; solve_Permutation|by split|]; split; done).
  - split; [|done]. split; [done|]. exists (adopted_by close consumed ++ A0). split; [rewrite HA; solve_Permutation|]. by split.
Qed.
(** ** A commit is one send *)

(** [data] with the references of [rights] is the last thing in the queue of
    [target]. *)
Definition sent_to (st st' : Streams) (target : Z) (data : list Z) (rights : Bundle) : Prop :=
  ∃ e, find_endpoint target (entries st) = Some e ∧
    ((∃ q, st' = update target (set_incoming q) st ∧
        items q = items (ep_incoming e) ++ sent_items data (if bundle_is_empty rights then None else Some rights)) ∨
     (∃ q q' src from, ep_records e = Some q ∧ st' = update target (set_records (Some q')) st ∧
        records q' = records q ++ [mkPacket src from data (Some rights)])).

Lemma commit_stream_sent alloc id input rights w w' n i j :
  streams_ok (streams w) → whole rights →
  commit_stream_with_rights alloc id input rights w = (w', Ok (n, (i, j))) →
  sent_to (streams w) (streams w') j (take (Z.to_nat n) input) rights.
Proof.
  intros Hst Hwh. unfold commit_stream_with_rights. destruct (stream_send_length _ _ _ _) as [count|] eqn:El; [|done].
  apply stream_send_length_Ok in El as (_ & _ & _ & _ & _ & _ & _ & _ & Hc & _); [|apply zlen_nonneg].
  set (peer := if count =? 0 then id else _). destruct (endpoint (streams w) peer) as [r|] eqn:Er; [|done].
  apply endpoint_Ok in Er.
  pose proof (write_with_rights_items alloc (take (Z.to_nat count) input) rights (ep_incoming r) (heap w)
    (eo_stream _ (find_ok _ _ _ Hst Er)) Hwh) as Hs.
  destruct (write_with_rights _ _ _ _ _) as [[q h] [m|[e rights']]]; [|done]. destruct Hs as (_ & -> & _ & Hi).
  intros [= <- <- <- <-]. rewrite zlen_take, Z.min_l by lia. exists r. split; [done|]. left. by exists q.
Qed.

Lemma commit_record_to_sent A others alloc id destination src data rights w w' n i j :
  world_ok A (rights :: others) w → whole rights →
  commit_record_to_with_rights alloc id destination src data rights w = (w', Ok (n, (i, j))) →
  sent_to (streams w) (streams w') j (take (Z.to_nat n) data) rights.
Proof.
  intros Hw Hwh E. pose proof (commit_record_to_ok A others alloc id destination src data rights w Hw Hwh) as Hc.
  rewrite E in Hc. destruct Hc as (_ & -> & [= -> ->] & e & q & q' & He & Hq & -> & Hr).
  exists e. split; [done|]. right. exists q, q', src, (Some id). split_and!; try done.
  rewrite Hr. unfold zlen. by rewrite Nat2Z.id, take_ge.
Qed.
Lemma find_stage_alter id l x f :
  find_stage id l = Some x → sg_id (f x) = sg_id x → find_stage id (alter_stage id f l) = Some (f x).
Proof.
  induction l as [|y l IH]; simpl; [done|]. destruct (sg_id y =? id) eqn:E; simpl.
  - intros [= ->] ->. by rewrite E.
  - rewrite E. apply IH.
Qed.

Lemma commit_bundle A others t w id x bundle :
  transfer_ok A others t w → find_stage id (stages t) = Some x → take_bundle (sg_state x) = Ok bundle →
  whole bundle ∧ ∃ A0 rest, world_ok A0 (bundle :: rest) w.
Proof.
  intros Ht Ex Et. assert (x ∈ stages t) as Hin.
  { apply find_stage_Some in Ex as (_ & before & after & -> & _). set_solver. }
  destruct (take_bundle_Ok _ _ (proj1 (to_state _ (tk_transfers _ _ _ _ Ht) x Hin)) Et) as [Eb Hwh]. split; [done|].
  destruct Ht as [_ (A0 & _ & [Hst Hh])]. destruct (stages_split _ _ _ Ex) as (rest & Hb & _). rewrite Eb in Hb.
  exists A0, (rest ++ others). split; [done|]. rewrite Hb in Hh. owned_by Hh.
Qed.

Lemma commit_sent A others alloc id offset t (rs : option (Routes H)) w (b : B) t' rs' w' b' n i j :
  transfer_ok A others t w → commit_using alloc id offset t rs w b = (t', rs', w', b', Ok (n, (i, j))) →
  ∃ x bundle length bytes, find_stage id (stages t) = Some x ∧ take_bundle (sg_state x) = Ok bundle ∧
    buffer_read offset length b = (b', Ok bytes) ∧ sent_to (streams w) (streams w') j (take (Z.to_nat n) bytes) bundle.
Proof.
  intros Ht. unfold commit_using. destruct (find_stage id (stages t)) as [x|] eqn:Ex; [|done].
  destruct (commit_checks _ _ _ _ _) as [[stream length]|]; [|done]. destruct (negb alloc.1); [done|].
  destruct (buffer_read _ _ b) as [b1 [bytes|]] eqn:Eb; [|done].
  destruct (take_bundle (sg_state x)) as [bundle|] eqn:Et; [|done].
  destruct (commit_bundle _ _ _ _ _ _ _ Ht Ex Et) as (Hwh & A0 & rest & Hw). intros E.
  exists x, bundle, length, bytes. split; [done|]. split; [done|]. revert E.
  destruct (sg_route x) as [route|]; [destruct rs as [r|]; [|done]|].
  - unfold transfer_rights. destruct (route_source _ _ _); [|done]. destruct (find_route _ _) as [ro|]; [|done].
    destruct (commit_record_to_with_rights _ _ _ _ _ _ _) as [w1 [[m [i1 j1]]|[e bd]]] eqn:Ec; [|done].
    intros [= <- <- <- <- <- <- <-]. split; [done|]. by eapply commit_record_to_sent.
  - destruct stream.
    + destruct (commit_stream_with_rights _ _ _ _ _) as [w1 [[m [i1 j1]]|[e bd]]] eqn:Ec; [|done].
      intros [= <- <- <- <- <- <- <-]. split; [done|]. eapply commit_stream_sent; [apply Hw|done|done].
    + unfold commit_record_with_rights.
      match goal with |- context [match ?c with Ok _ => _ | Err _ => _ end] => destruct c as [[destination src]|] end; [|done].
      destruct (commit_record_to_with_rights _ _ _ _ _ _ _) as [w1 [[m [i1 j1]]|[e bd]]] eqn:Ec; [|done].
      intros [= <- <- <- <- <- <- <-]. split; [done|]. by eapply commit_record_to_sent.
Qed.

(** Tagged objects are refused: those of transient jobs, and as well those of
    internet sockets, which are descriptions of the service. *)
Lemma tagged_descriptor_refused k n o alloc close done handle handle_rights metadata items h :
  object_of k n = Ok o → 0 ≤ n →
  adopt_batch alloc close done (mkAttachment handle handle_rights metadata (Some o) :: items) h = (drop_leases done h, [], Err (-22)).
Proof.
  intros Ho Hn. simpl. assert (MAX_DESCRIPTION_ID < o) as Hlt.
  { unfold object_of, tagged_object in Ho. destruct (_ || _) eqn:E; [done|]. injection Ho as <-.
    rewrite high_lor by (apply tag_high || lia). destruct (tag_high k) as (m & ? & ->). rewrite description_max in *. lia. }
  by replace (o >? MAX_DESCRIPTION_ID) with true by lia.
Qed.
End transfer_lemmas.
