(* ===== verification/SocketProvider.v ===== *)
(** * Provider requests on sockets

    Models [posix/src/socket_provider.rs]: the requests that the kernel
    forwards for a socket handle, dispatched to the operations of the table.
    The control numbers, the codes of kinds and the codecs that belong to the
    protocol crates are fields of [SocketControls]. *)

From S2P Require Import Prelude SocketProtocol SocketRights SocketStream SocketRecord.
From S2P Require Import Socket SocketGraph SocketTable SocketOps SocketRelease SocketRecordOps SocketObject.

Class SocketControls := {
  HANDLE_SIGNAL_READABLE : Z; HANDLE_SIGNAL_WRITABLE : Z; HANDLE_SIGNAL_PEER_CLOSED : Z;
  CONTROL_GET_SEND_TIMEOUT : Z; CONTROL_SET_SEND_TIMEOUT : Z;
  CONTROL_GET_RECEIVE_TIMEOUT : Z; CONTROL_SET_RECEIVE_TIMEOUT : Z;
  CONTROL_GET_SEND_CAPACITY : Z; CONTROL_SET_SEND_CAPACITY : Z;
  CONTROL_GET_RECEIVE_CAPACITY : Z; CONTROL_SET_RECEIVE_CAPACITY : Z;
  CONTROL_TAKE_ERROR : Z; CONTROL_KIND : Z; CONTROL_ACCEPTING : Z;
  CONTROL_LOCAL_ADDRESS : Z; CONTROL_PEER_ADDRESS : Z; CONTROL_STAT : Z;
  CONTROL_GET_OPTIONS : Z; CONTROL_SET_OPTIONS : Z; CONTROL_DISCONNECT : Z; CONTROL_SHUTDOWN : Z; CONTROL_READINESS : Z;
  SHUTDOWN_READ : Z; SHUTDOWN_WRITE : Z; SHUTDOWN_BOTH : Z;
  READY_READ : Z; READY_WRITE : Z; READ_CLOSED : Z; WRITE_CLOSED : Z; WRITE_ERROR : Z; ERROR_PENDING : Z;
  ADDRESS_HEADER_LEN : Z; FILE_STATUS_LEN : Z;
  (** [kind as u32]. *)
  kind_code : Kind → Z;
  (** [Address::encode] into a buffer and [encode_file_status]: the buffer
      after it, and the length when it succeeded. *)
  address_encode_into : Address → list Z → list Z * option Z;
  encode_file_status : FileStatus → list Z → list Z * option unit;
}.

Section provider.
Context {SP : SocketProtocol} {PV : Provider} {SC : SocketControls}.

Definition flag (b : bool) (bit : Z) : Z := if b then bit else 0.

(** [native_signals]. *)
Definition native_signals (ready : Readiness) : Z :=
  Z.lor (Z.lor (flag (readable ready) HANDLE_SIGNAL_READABLE)
               (flag (writable ready || write_closed ready) HANDLE_SIGNAL_WRITABLE))
        (flag (write_error ready || (read_closed ready && write_closed ready)) HANDLE_SIGNAL_PEER_CLOSED).

(** The bits of [CONTROL_READINESS]. *)
Definition ready_bits (ready : Readiness) (pending_error : Z) : Z :=
  Z.lor (Z.lor (Z.lor (Z.lor (Z.lor (flag (readable ready) READY_READ) (flag (writable ready) READY_WRITE))
    (flag (read_closed ready) READ_CLOSED)) (flag (write_closed ready) WRITE_CLOSED))
    (flag (write_error ready) WRITE_ERROR)) (flag (negb (pending_error =? 0)) ERROR_PENDING).

(** A query that answers an integer of [n] bytes. *)
Definition answer (n : nat) (r : result Z Z) (data : list Z) : list Z * result Z (Z * Z) :=
  match r with
  | Ok v => (blit 0 (to_le_bytes n v) data, Ok (Z.of_nat n, Z.of_nat n))
  | Err e => (data, Err e)
  end.
(** A request that changes the table and answers nothing. *)
Definition changed {S} (f : Z → stM S Z unit) (id : Z) (data : list Z) (s : S) : S * list Z * result Z (Z * Z) :=
  match f id s with (s, r) => (s, data, (λ _, (0, 0)) <$> r) end.
Definition on_streams (w : World) (x : Streams * list Z * result Z (Z * Z)) : World * list Z * result Z (Z * Z) :=
  let '(st, data, r) := x in (mkWorld (heap w) st, data, r).

Definition known_controls : list Z :=
  [CONTROL_GET_OPTIONS; CONTROL_KIND; CONTROL_ACCEPTING; CONTROL_TAKE_ERROR; CONTROL_GET_RECEIVE_CAPACITY;
   CONTROL_SET_RECEIVE_CAPACITY; CONTROL_GET_SEND_CAPACITY; CONTROL_SET_SEND_CAPACITY; CONTROL_GET_RECEIVE_TIMEOUT;
   CONTROL_SET_RECEIVE_TIMEOUT; CONTROL_GET_SEND_TIMEOUT; CONTROL_SET_SEND_TIMEOUT; CONTROL_SET_OPTIONS;
   CONTROL_SHUTDOWN; CONTROL_DISCONNECT; CONTROL_READINESS; CONTROL_STAT; CONTROL_LOCAL_ADDRESS; CONTROL_PEER_ADDRESS].

(** The arms of [OP_CONTROL]: the table, the data and the outcome.  [None] is
    the panic of a slice beyond the buffer. *)
Definition control (h : ProviderRequest) (payload data : list Z) (w : World) : option (World * list Z * result Z (Z * Z)) :=
  let st := streams w in
  let id := pr_object h in
  let asks c n := (pr_basis h =? c) && (zlen payload =? 0) && (pr_length h =? n) in
  let sets c n := (pr_basis h =? c) && (zlen payload =? n) && (pr_length h =? 0) in
  let value := from_le_bytes payload in
  let query n r := let '(data, r) := answer n r data in Some (w, data, r) in
  if asks CONTROL_GET_SEND_TIMEOUT 8 then query 8%nat (send_timeout st id)
  else if sets CONTROL_SET_SEND_TIMEOUT 8 then Some $ on_streams w (changed (λ id, set_send_timeout_of id value) id data st)
  else if asks CONTROL_GET_RECEIVE_TIMEOUT 8 then query 8%nat (receive_timeout st id)
  else if sets CONTROL_SET_RECEIVE_TIMEOUT 8 then Some $ on_streams w (changed (λ id, set_receive_timeout_of id value) id data st)
  else if asks CONTROL_GET_SEND_CAPACITY 4 then query 4%nat (send_capacity st id)
  else if sets CONTROL_SET_SEND_CAPACITY 4 then Some $ on_streams w (changed (λ id, set_send_capacity_of id value) id data st)
  else if asks CONTROL_GET_RECEIVE_CAPACITY 4 then query 4%nat (receive_capacity st id)
  else if sets CONTROL_SET_RECEIVE_CAPACITY 4 then Some $ on_streams w (changed (λ id, set_receive_capacity_of id value) id data st)
  else if asks CONTROL_TAKE_ERROR 4 then
    match take_error id st with
    | (st, r) => let '(data, r) := answer 4 r data in Some (mkWorld (heap w) st, data, r)
    end
  else if asks CONTROL_KIND 4 || asks CONTROL_ACCEPTING 4 then
    query 4%nat (if pr_basis h =? CONTROL_KIND then kind_code <$> kind st id
                 else (λ o, if bool_decide (is_Some o) then 1 else 0) <$> listening_backlog st id)
  else if ((pr_basis h =? CONTROL_LOCAL_ADDRESS) || (pr_basis h =? CONTROL_PEER_ADDRESS))
          && (zlen payload =? 0) && (ADDRESS_HEADER_LEN <=? pr_length h) then
    match (if pr_basis h =? CONTROL_PEER_ADDRESS then peer_address st id else address st id) with
    | Err e => Some (w, data, Err e)
    | Ok a =>
        if pr_length h >? zlen data then None
        else
          let '(out, o) := address_encode_into a (take (Z.to_nat (pr_length h)) data) in
          Some (w, blit 0 out data, (λ n, (n, n)) <$> ok_or (-22) o)
    end
  else if asks CONTROL_STAT FILE_STATUS_LEN then
    match status st id with
    | Err e => Some (w, data, Err e)
    | Ok s => let '(data, o) := encode_file_status s data in Some (w, data, (λ _, (FILE_STATUS_LEN, FILE_STATUS_LEN)) <$> ok_or (-5) o)
    end
  else if asks CONTROL_GET_OPTIONS 4 then query 4%nat (options st id)
  else if sets CONTROL_SET_OPTIONS 4 then Some $ on_streams w (changed (λ id, set_options_of id value) id data st)
  else if (pr_basis h =? CONTROL_DISCONNECT) && (zlen payload =? 0) && (pr_length h =? 0) then Some $ changed disconnect_datagram id data w
  else if sets CONTROL_SHUTDOWN 4 then
    match (if value =? SHUTDOWN_READ then Some ShutdownRead else if value =? SHUTDOWN_WRITE then Some ShutdownWrite
           else if value =? SHUTDOWN_BOTH then Some ShutdownBoth else None) with
    | None => Some (w, data, Err (-22))
    | Some how => Some $ changed (λ id, shutdown id how) id data w
    end
  else if asks CONTROL_READINESS 4 then
    query 4%nat (ready ← readiness st id; e ← pending_error st id; Ok (ready_bits ready e))
  else Some (w, data, Err (if existsb (Z.eqb (pr_basis h)) known_controls then -22 else -95)).

(** The requests whose replies carry data. *)
Definition carries_data (h : ProviderRequest) : bool :=
  (pr_opcode h =? PROVIDER_READ) || (pr_opcode h =? PROVIDER_READ_AT) || (pr_opcode h =? PROVIDER_CONTROL).

(** The dispatch of an authenticated request without attachments. *)
Definition provider_result (alloc : bool) (h : ProviderRequest) (payload : list Z) (w : World)
    : option (World * list Z * result Z (Z * Z)) :=
  let id := pr_object h in
  let data := replicate (Z.to_nat MAX_DATA_LEN) 0 in
  let fits := pr_length h <=? MAX_DATA_LEN in
  let reads (x : World * list Z * result Z Z) :=
    let '(w, out, r) := x in (w, blit 0 out data, (λ n, (n, n)) <$> r) in
  if pr_opcode h =? PROVIDER_MEMORY_OBJECT then Some (w, data, (λ _, (0, 0)) <$> options (streams w) id)
  else if pr_opcode h =? PROVIDER_READ then
    if fits then Some (reads (read id (take (Z.to_nat (pr_length h)) data) w)) else None
  else if pr_opcode h =? PROVIDER_READ_AT then
    if fits then Some (reads (peek id (pr_basis h) (take (Z.to_nat (pr_length h)) data) w)) else None
  else if pr_opcode h =? PROVIDER_WRITE then
    match write alloc id payload (streams w) with
    | (st, r) => Some (mkWorld (heap w) st, data, (λ n, (n, 0)) <$> r)
    end
  else if pr_opcode h =? PROVIDER_CONTROL then control h payload data w
  else if (pr_opcode h =? PROVIDER_SEEK) || (pr_opcode h =? PROVIDER_WRITE_AT)
          || (pr_opcode h =? PROVIDER_READ_WITH_POSITION) then
    Some (w, data, match options (streams w) id with Ok _ => Err (-29) | Err e => Err e end)
  else Some (w, data, Err (-95)).

(** [handle_provider_request]: the table and the response buffer after it. *)
Definition socket_request (alloc : bool) (request : list Z) (flags attachments : Z) (response : list Z) (w : World)
    : option (World * list Z * result Z (option Z)) :=
  match provider_decode request with
  | None => Some (w, response, Err (-22))
  | Some (h, payload) =>
      let authenticated := flags =? IPC_DELIVERY_NATIVE_OBJECT in
      let proper := authenticated && (attachments =? 0) in
      if proper && (pr_opcode h =? PROVIDER_RELEASE) then
        match release (pr_object h) w with (w, r) => Some (w, response, (λ _, None) <$> r) end
      else
        let maximum_data :=
          if proper && carries_data h
          then pr_length h else 0 in
        if zlen response <? RESPONSE_HEADER_LEN + maximum_data then Some (w, response, Err (-22))
        else
          match (if negb authenticated then Some (w, replicate (Z.to_nat MAX_DATA_LEN) 0, Err (-13))
                 else if negb (attachments =? 0) then Some (w, replicate (Z.to_nat MAX_DATA_LEN) 0, Err (-22))
                 else provider_result alloc h payload w) with
          | None => None
          | Some (w, data, r) =>
              let '(status, value, count) := match r with Ok (v, c) => (0, v, c) | Err e => (e, 0, 0) end in
              let '(response, o) :=
                provider_encode (mkProviderResponse (pr_opcode h) (pr_object h) status value count)
                  (take (Z.to_nat count) data) response in
              Some (w, response, Some <$> ok_or (-5) o)
          end
  end.
(** ** Lemmas *)

(** A request that is answered in a well-formed table. *)
Definition answered (A : list (Z * Z)) (others : list Bundle) (o : option (World * list Z * result Z (Z * Z))) : Prop :=
  ∃ w data r, o = Some (w, data, r) ∧ world_ok A others w.

Lemma answered_same A others w data r : world_ok A others w → answered A others (Some (w, data, r)).
Proof. intros Hw. by exists w, data, r. Qed.
Lemma answered_query A others w n r data :
  world_ok A others w → answered A others (let '(data, r) := answer n r data in Some (w, data, r)).
Proof. intros Hw. destruct (answer n r data). by apply answered_same. Qed.
Lemma answered_streams A others w (f : Z → stM Streams Z unit) id data :
  world_ok A others w → quietly (streams w) (fst (f id (streams w))) →
  answered A others (Some (on_streams w (changed f id data (streams w)))).
Proof.
  intros Hw Hq. unfold changed. destruct (f id (streams w)) as [st r]. simpl. apply answered_same. by apply quietly_world.
Qed.
Lemma answered_world A others w (f : Z → stM World Z unit) id data :
  world_ok A others (fst (f id w)) → answered A others (Some (changed f id data w)).
Proof. intros Hw. unfold changed. destruct (f id w) as [w' r]. by apply answered_same. Qed.

Lemma control_ok A others h payload data w :
  world_ok A others w → pr_length h ≤ zlen data → answered A others (control h payload data w).
Proof.
  intros Hw Hlen. pose proof (wk_streams _ _ _ Hw) as Hst. unfold control.
  repeat match goal with
  | |- answered _ _ (if ?b then _ else _) => destruct b; [|]
  | |- answered _ _ (let '(_, _) := answer _ _ _ in _) => by apply answered_query
  end;
  try (apply answered_streams; [done|]); try (apply answered_world); try by apply answered_same.
  - by apply set_send_timeout_quietly.
  - by apply set_receive_timeout_quietly.
  - by apply set_send_capacity_quietly.
  - by apply set_receive_capacity_quietly.
  - pose proof (take_error_quietly (pr_object h) _ Hst) as Ht. destruct (take_error _ _) as [st r].
    apply answered_query. by apply quietly_world.
  - destruct (if _ =? _ then peer_address _ _ else _) as [a|]; [|by apply answered_same].
    replace (pr_length h >? zlen data) with false by lia. destruct (address_encode_into _ _). by apply answered_same.
  - destruct (status _ _) as [s|]; [|by apply answered_same]. destruct (encode_file_status _ _). by apply answered_same.
  - by apply set_options_quietly.
  - by apply disconnect_datagram_ok.
  - destruct (if _ =? SHUTDOWN_READ then _ else _) as [how|]; [|by apply answered_same].
    apply answered_world. by apply shutdown_ok.
Qed.

Lemma provider_result_ok A others alloc h payload w :
  world_ok A others w → 0 ≤ MAX_DATA_LEN → (carries_data h = true → pr_length h ≤ MAX_DATA_LEN) →
  answered A others (provider_result alloc h payload w).
Proof.
  intros Hw H0 Hlen. pose proof (wk_streams _ _ _ Hw) as Hst. unfold provider_result, carries_data in *.
  destruct (_ =? PROVIDER_MEMORY_OBJECT); [by apply answered_same|].
  destruct (_ =? PROVIDER_READ).
  { replace (pr_length h <=? MAX_DATA_LEN) with true by (specialize (Hlen eq_refl); lia). unfold read. match goal with |- context [receive_stream ?i ?o ?p w] =>
      pose proof (receive_stream_ok A others i o p w Hw) as Hr; destruct (receive_stream i o p w) as [[w' out] r] end.
    by apply answered_same. }
  destruct (_ =? PROVIDER_READ_AT).
  { replace (pr_length h <=? MAX_DATA_LEN) with true by (specialize (Hlen eq_refl); lia). unfold peek. match goal with |- context [receive_stream ?i ?o ?p w] =>
      pose proof (receive_stream_ok A others i o p w Hw) as Hr; destruct (receive_stream i o p w) as [[w' out] r] end.
    by apply answered_same. }
  destruct (_ =? PROVIDER_WRITE).
  { pose proof (write_spec alloc (pr_object h) payload _ Hst) as Hs. destruct (write _ _ _ _) as [st r].
    apply answered_same. apply quietly_world; [done|]. destruct r; [by destruct Hs|subst; by apply quietly_refl]. }
  destruct (_ =? PROVIDER_CONTROL).
  { apply control_ok; [done|]. unfold zlen. rewrite length_replicate. specialize (Hlen eq_refl). lia. }
  clear Hlen; destruct (_ || _); by apply answered_same.
Qed.

(** Requests are answered, in a well-formed table; nothing happens on
    messages that the kernel does not vouch for. *)
Lemma socket_request_ok A others alloc request flags attachments response w :
  world_ok A others w → 0 ≤ MAX_DATA_LEN → zlen response ≤ RESPONSE_HEADER_LEN + MAX_DATA_LEN →
  ∃ w' response' r, socket_request alloc request flags attachments response w = Some (w', response', r) ∧
    world_ok A others w' ∧ (flags ≠ IPC_DELIVERY_NATIVE_OBJECT ∨ attachments ≠ 0 → w' = w).
Proof.
  intros Hw H0 Hdec. unfold socket_request. destruct (provider_decode request) as [[h payload]|]; [|by eauto 10].
  set (proper := (flags =? IPC_DELIVERY_NATIVE_OBJECT) && (attachments =? 0)).
  destruct (proper && (pr_opcode h =? PROVIDER_RELEASE)) eqn:Er.
  { pose proof (release_ok A others (pr_object h) w Hw) as Hr. destruct (release (pr_object h) w) as [w' r].
    eexists _, _, _. split_and!; [done|done|]. apply andb_true_iff in Er as [Er _]. unfold proper in Er. lia. }
  destruct (zlen response <? _) eqn:El; [by eauto 10|].
  set (res := if negb (flags =? IPC_DELIVERY_NATIVE_OBJECT) then _ else _).
  assert (∃ w' data r, res = Some (w', data, r) ∧ world_ok A others w' ∧
    (flags ≠ IPC_DELIVERY_NATIVE_OBJECT ∨ attachments ≠ 0 → w' = w)) as (w' & data & r & -> & Hw' & Hsame).
  { unfold res. destruct (flags =? IPC_DELIVERY_NATIVE_OBJECT) eqn:Ef; simpl; [|by eauto 10].
    destruct (attachments =? 0) eqn:Ea; simpl; [|by eauto 10].
    destruct (provider_result_ok A others alloc h payload w Hw H0) as (w' & data & r & E & Hw').
    { intros Hc. rewrite Hc in El. simpl in El. lia. }
    exists w', data, r. split_and!; try done. lia. }
  destruct (match r with Ok _ => _ | Err _ => _ end) as [[status value] count].
  destruct (provider_encode _ _ _) as [response' o]. by eauto 10.
Qed.
End provider.
