(* ===== verification/SocketCollect.v ===== *)
(** * Collecting cycles of queued sockets

    Models [Streams::collect_record_cycles] of [posix/src/socket.rs]: the
    references in the queues become the edges of a graph, the collector of
    [socket_gc.rs] finds the descriptions that only such references keep
    alive, and their queues are emptied.  [identify] and [reference_count]
    are the kernel's answers; the outcomes of the fallible allocations are
    [alloc]. *)

From S2P Require Import Prelude SocketGc SocketProtocol SocketRights SocketStream SocketRecord.
From S2P Require Import Socket SocketGraph SocketTable SocketOps SocketRelease SocketRecordOps.

Section collect.
Context {SP : SocketProtocol}.
Context (identify : Z → result Z (option Z)) (reference_count : Z → result Z Z).

(** The references in the queues of a description. *)
Definition queued_leases (e : Endpoint) : list Z :=
  stream_leases (ep_incoming e) ++ match ep_records e with Some q => record_leases q | None => [] end.

(** The inner loop: the targets of the references that only a queue owns. *)
Fixpoint lease_targets (alloc : Z → bool) (h : Heap) (ps : list Z) : result Z (list Z) :=
  match ps with
  | [] => Ok []
  | p :: ps =>
      if negb (is_exclusive h p) then lease_targets alloc h ps
      else
        o ← identify (default 0 (handle_of h p));
        _ ← ensure (alloc p || bool_decide (o = None)) (-12);
        ts ← lease_targets alloc h ps;
        Ok (option_list o ++ ts)
  end.
(** The first loop. *)
Fixpoint queue_edges (alloc : Z → bool) (h : Heap) (es : list Endpoint) : result Z (list (Z * Z)) :=
  match es with
  | [] => Ok []
  | e :: es =>
      ts ← lease_targets alloc h (queued_leases e);
      edges ← queue_edges alloc h es;
      Ok (((λ t, (ep_id e, t)) <$> ts) ++ edges)
  end.

(** Whether a description is at either end of an edge. *)
Definition touched (edges : list (Z * Z)) (i : Z) : bool := existsb (λ '(s, t), (s =? i) || (t =? i)) edges.
(** The second loop. *)
Fixpoint graph_nodes (edges : list (Z * Z)) (es : list Endpoint) : result Z (list Node) :=
  match es with
  | [] => Ok []
  | e :: es =>
      if touched edges (ep_id e) then
        n ← reference_count (ep_id e);
        nodes ← graph_nodes edges es;
        Ok (mkNode (ep_id e) n :: nodes)
      else graph_nodes edges es
  end.

(** [entry.incoming.clear()] and [queue.clear()]. *)
Definition clear_queues (e : Endpoint) (h : Heap) : Endpoint * Heap :=
  let '(q, h) := stream_clear (ep_incoming e) h in
  match ep_records e with
  | Some r => let '(r, h) := records_clear r h in (set_records (Some r) (set_incoming q e), h)
  | None => (set_incoming q e, h)
  end.
(** The last loop. *)
Fixpoint discard (g : list Z) : stM World Z unit := λ w,
  match g with
  | [] => (w, Ok tt)
  | i :: g =>
      match endpoint (streams w) i with
      | Err e => (w, Err e)
      | Ok entry =>
          let '(entry, h) := clear_queues entry (heap w) in
          discard g (mkWorld h (update i (λ _, entry) (streams w)))
      end
  end.

(** [Streams::collect_record_cycles].  [None] would be a traversal that does
    not end. *)
Definition collect (alloc : Z → bool) (alloc_nodes : bool) (allocs : nat → bool) (w : World)
    : option (World * result Z (list Z)) :=
  match queue_edges alloc (heap w) (entries (streams w)) with
  | Err e => Some (w, Err e)
  | Ok edges =>
      if bool_decide (edges = []) then Some (w, Ok [])
      else if negb alloc_nodes then Some (w, Err (-12))
      else match graph_nodes edges (entries (streams w)) with
      | Err e => Some (w, Err e)
      | Ok nodes =>
          match unreachable allocs nodes edges with
          | None => None
          | Some (Err e) => Some (w, Err e)
          | Some (Ok g) =>
              match discard g w with
              | (w, Err e) => Some (w, Err e)
              | (w, Ok _) => Some (w, Ok g)
              end
          end
      end
  end.
End collect.

(** ** Lemmas *)

(** What a collection leaves of a description. *)
Definition emptied (e : Endpoint) : Endpoint :=
  set_records ((λ q, mkRecords [] 0 (capacity q)) <$> ep_records e) (set_incoming (mkQueue [] []) e).

Section collect_lemmas.
Context {SP : SocketProtocol}.
Context (identify : Z → result Z (option Z)) (reference_count : Z → result Z Z).

Lemma clear_queues_spec e h : fst (clear_queues e h) = emptied e ∧
  ∀ A rest, holds A h [] (endpoint_bundles e ++ rest) → holds A (snd (clear_queues e h)) [] rest.
Proof.
  unfold clear_queues, emptied. simpl. destruct (ep_records e) as [q|] eqn:E; simpl.
  - split; [done|]. intros A rest Hh. unfold endpoint_bundles in Hh. rewrite E, <- app_assoc in Hh.
    rewrite drop_packets_bundles. apply drop_bundles_holds. by apply drop_bundles_holds.
  - split; [by destruct e; simpl in *; subst|]. intros A rest Hh. unfold endpoint_bundles in Hh. rewrite E, app_nil_r in Hh.
    by apply drop_bundles_holds.
Qed.
Lemma emptied_ok e : endpoint_ok e → endpoint_ok (emptied e).
Proof.
  intros [? Hr ? Hp ? ? ? ? ?]. constructor; simpl; eauto.
  - rewrite <- Hr. destruct (ep_records e); simpl; split; eauto.
  - apply stream_new_ok.
  - intros q. destruct (ep_records e) as [q0|]; [|done]. intros [= <-]. destruct (Hp q0 eq_refl).
    split; simpl; try done. by intros r b ?%elem_of_nil.
Qed.
Lemma emptied_bundles e : endpoint_bundles (emptied e) = [].
Proof. unfold endpoint_bundles, emptied. simpl. by destruct (ep_records e). Qed.

Lemma discard_ok A others g w :
  world_ok A others w → (∀ i, i ∈ g → is_Some (find_endpoint i (entries (streams w)))) →
  match discard g w with
  | (w', Ok _) => world_ok A others w' ∧
      ∀ i, find_endpoint i (entries (streams w')) =
        (if decide (i ∈ g) then emptied <$> find_endpoint i (entries (streams w)) else find_endpoint i (entries (streams w)))
  | (_, Err _) => False
  end.
Proof.
  revert w. induction g as [|i g IH]; intros w Hw Hg; simpl; [done|].
  destruct (Hg i ltac:(by left)) as [e He]. unfold endpoint. rewrite He. simpl.
  destruct (clear_queues_spec e (heap w)) as [Hc Hh]. destruct (clear_queues e (heap w)) as [e' h]. simpl in Hc, Hh. subst e'.
  set (w1 := mkWorld h (update i (λ _, emptied e) (streams w))).
  assert (∀ j, find_endpoint j (entries (streams w1)) =
    if decide (j = i) then Some (emptied e) else find_endpoint j (entries (streams w))) as Hf.
  { intros j. unfold w1. simpl. assert (∀ e', find_endpoint i (entries (streams w)) = Some e' → ep_id (emptied e) = ep_id e') as Hid
      by (intros e'; rewrite He; by intros [= <-]). case_decide as Hj.
    - subst j. by rewrite find_alter_eq, He.
    - by rewrite find_alter_ne. }
  assert (world_ok A others w1) as Hw1.
  { pose proof (find_ok _ _ _ (wk_streams _ _ _ Hw) He) as Hok.
    apply (update_world_ok A others others w h i (λ _, emptied e) e); try done; [by apply emptied_ok|].
    intros rest Hr. rewrite emptied_bundles. by apply Hh. }
  specialize (IH w1 Hw1). destruct (discard g w1) as [w' [[]|]].
  - destruct IH as [IH1 IH2]; [|split; [done|]].
    + intros j Hj. rewrite Hf. case_decide; [eauto|]. apply Hg. by right.
    + intros j. rewrite IH2, !Hf. destruct (decide (j = i)) as [->|Hne].
      * rewrite (decide_True (P := i ∈ i :: g)) by by left. rewrite He. simpl. case_decide; [|done]. simpl. f_equal.
        unfold emptied. destruct e as [? ? ? ? ? rs]. simpl. by destruct rs.
      * destruct (decide (j ∈ g)) as [Hj|Hj].
        -- by rewrite decide_True by by right.
        -- rewrite decide_False; [done|]. by intros [?|?]%elem_of_cons.
  - apply IH. intros j Hj. rewrite Hf. case_decide; [eauto|]. apply Hg. by right.
Qed.

Lemma graph_nodes_spec edges es nodes :
  graph_nodes reference_count edges es = Ok nodes →
  (∀ n, n ∈ nodes → reference_count (id n) = Ok (references n) ∧ touched edges (id n) = true) ∧
  ∀ i, i ∈ id <$> nodes ↔ i ∈ ids es ∧ touched edges i = true.
Proof.
  revert nodes. induction es as [|e es IH]; intros nodes; simpl.
  { intros [= <-]. split; [by intros n ?%elem_of_nil|]. intros i. simpl. unfold ids. set_solver. }
  destruct (touched edges (ep_id e)) eqn:Et.
  - intros Hn. inv_result. match goal with Hg : graph_nodes _ _ _ = Ok _ |- _ => destruct (IH _ Hg) as [I1 I2] end. split.
    + intros n [->|Hn]%elem_of_cons; [done|by apply I1].
    + intros i. unfold ids in *. csimpl. rewrite !elem_of_cons, I2. naive_solver.
  - intros Hn. destruct (IH _ Hn) as [I1 I2]. split; [done|]. intros i. rewrite I2. unfold ids. csimpl.
    rewrite elem_of_cons. split; [naive_solver|]. intros [[->|?] ?]; [congruence|done].
Qed.

Lemma queue_edges_sources alloc h es edges s t :
  queue_edges identify alloc h es = Ok edges → (s, t) ∈ edges → s ∈ ids es.
Proof.
  revert edges. induction es as [|e es IH]; intros edges; simpl; [by intros [= <-] ?%elem_of_nil|].
  intros Hq Hin. inv_result. unfold ids. csimpl. apply elem_of_app in Hin as [Hin|Hin].
  - apply list_elem_of_fmap in Hin as (? & [= -> ->] & _). by left.
  - right. by eapply IH.
Qed.

(** ** Properties *)

(** The description keeps its queues, apart from those that were collected. *)
Definition collected (g : list Z) (st st' : Streams) : Prop :=
  ∀ i, find_endpoint i (entries st') =
    (if decide (i ∈ g) then emptied <$> find_endpoint i (entries st) else find_endpoint i (entries st)).

Lemma collect_spec A others alloc alloc_nodes allocs w :
  world_ok A others w →
  match collect identify reference_count alloc alloc_nodes allocs w with
  | Some (w', Ok g) => world_ok A others w' ∧ collected g (streams w) (streams w') ∧
      ∃ edges nodes, queue_edges identify alloc (heap w) (entries (streams w)) = Ok edges ∧
        (∀ n, n ∈ nodes → reference_count (id n) = Ok (references n)) ∧
        (∀ i, i ∈ id <$> nodes ↔ i ∈ ids (entries (streams w)) ∧ touched edges i = true) ∧
        ∀ x, x ∈ g ↔ x ∈ id <$> nodes ∧ ¬ live nodes edges x
  | Some (w', Err _) => w' = w
  | None => False
  end.
Proof.
  intros Hw. unfold collect. destruct (queue_edges _ _ _ _) as [edges|] eqn:Eq; [|done].
  case_bool_decide as Ee.
  { split_and!; [done|done|]. exists [], []. rewrite Ee. split_and!; try done; [by intros n ?%elem_of_nil| |].
    - intros i. simpl. unfold ids. set_solver.
    - intros x. simpl. set_solver. }
  destruct alloc_nodes; simpl; [|done]. destruct (graph_nodes _ _ _) as [nodes|] eqn:En; [|done].
  apply graph_nodes_spec in En as [Hrefs Hids].
  destruct (unreachable allocs nodes edges) as [[g|]|] eqn:Eu; [|done|].
  2: { destruct (unreachable_cases allocs nodes edges) as [[e E']|(r & E' & _)]; congruence. }
  apply unreachable_ok in Eu as (_ & _ & _ & Hg).
  assert (∀ i, i ∈ g ↔ i ∈ id <$> nodes ∧ ¬ live nodes edges i) as Hg'.
  { intros i. rewrite Hg. split; intros [Hn Hl]; (split; [|done]).
    - destruct Hn as (n & Hn & <-). apply list_elem_of_fmap. eauto.
    - apply list_elem_of_fmap in Hn as (n & -> & Hn). eauto. }
  pose proof (discard_ok A others g w Hw) as Hd. destruct (discard g w) as [w' [[]|]].
  - destruct Hd as [Hd1 Hd2].
    { intros i [Hi _]%Hg'. apply Hids in Hi as [Hi _]. destruct (find_endpoint i _) eqn:Ef; [by eauto|].
      by apply find_endpoint_None in Ef. }
    split_and!; [done|done|]. exists edges, nodes. split_and!; try done. intros n Hn. by apply Hrefs.
  - exfalso. apply Hd. intros i [Hi _]%Hg'. apply Hids in Hi as [Hi _]. destruct (find_endpoint i _) eqn:Ef; [by eauto|].
    by apply find_endpoint_None in Ef.
Qed.

(** Kernel answers that are complete and consistent with the queues give a
    collection. *)
Lemma lease_targets_total h ps :
  (∀ k, ∃ o, identify k = Ok o) → ∃ ts, lease_targets identify (λ _, true) h ps = Ok ts.
Proof.
  intros Hid. induction ps as [|p ps [ts IH]]; simpl; [eauto|]. destruct (negb _); [eauto|].
  destruct (Hid (default 0 (handle_of h p))) as [o ->]. simpl. rewrite IH. simpl. eauto.
Qed.
Lemma queue_edges_total h es :
  (∀ k, ∃ o, identify k = Ok o) → ∃ edges, queue_edges identify (λ _, true) h es = Ok edges.
Proof.
  intros Hid. induction es as [|e es [edges IH]]; simpl; [eauto|].
  destruct (lease_targets_total h (queued_leases e) Hid) as [ts ->]. simpl. rewrite IH. simpl. eauto.
Qed.
Lemma graph_nodes_total edges es :
  (∀ i, i ∈ ids es → ∃ n, reference_count i = Ok n) → ∃ nodes, graph_nodes reference_count edges es = Ok nodes ∧
    sublist (id <$> nodes) (ids es).
Proof.
  intros Hrc. induction es as [|e es IH]; simpl; [by exists []|].
  destruct IH as (nodes & IH & Hs); [intros i Hi; apply Hrc; by right|].
  destruct (touched _ _); [|exists nodes; split; [done|by apply sublist_cons]].
  destruct (Hrc (ep_id e)) as [n ->]; [by left|]. simpl. rewrite IH. simpl. eexists. split; [done|].
  by apply sublist_skip.
Qed.

Lemma touched_edge edges i : touched edges i = true ↔ ∃ s t, (s, t) ∈ edges ∧ (s = i ∨ t = i).
Proof.
  unfold touched. rewrite existsb_exists. split.
  - intros ([s t] & Hin & Hp). apply list_elem_of_In in Hin. exists s, t. split; [done|]. lia.
  - intros (s & t & Hin & Hp). exists (s, t). split; [by apply list_elem_of_In|]. lia.
Qed.

Lemma collect_answers A others w :
  world_ok A others w → (∀ k, ∃ o, identify k = Ok o) →
  (∀ edges, queue_edges identify (λ _, true) (heap w) (entries (streams w)) = Ok edges →
     (∀ s t, (s, t) ∈ edges → t ∈ ids (entries (streams w))) ∧
     ∀ i, i ∈ ids (entries (streams w)) → ∃ n, reference_count i = Ok n ∧ indegree edges i ≤ n ≤ U64_MAX) →
  ∃ w' g, collect identify reference_count (λ _, true) true (λ _, true) w = Some (w', Ok g).
Proof.
  intros Hw Hid Hcons. unfold collect. destruct (queue_edges_total (heap w) (entries (streams w)) Hid) as [edges Eq].
  rewrite Eq. destruct (Hcons edges Eq) as [Htgt Hrc]. case_bool_decide; [by eauto|]. simpl.
  destruct (graph_nodes_total edges (entries (streams w))) as (nodes & En & Hsub).
  { intros i Hi. destruct (Hrc i Hi) as (n & ? & _). eauto. }
  rewrite En. pose proof (graph_nodes_spec _ _ _ En) as [Hrefs Hids].
  pose proof (wk_streams _ _ _ Hw) as Hst.
  assert (∀ n, n ∈ nodes → id n ∈ ids (entries (streams w))) as Hin.
  { intros n Hn. apply Hids. apply list_elem_of_fmap. eauto. }
  destruct (unreachable_succeeds nodes edges) as [g Eg].
  - apply sublist_length in Hsub. unfold ids in Hsub. rewrite !length_fmap in Hsub. pose proof (sk_count _ Hst) as Hc.
    unfold zlen in *. change MAX_ENDPOINTS with MAX_SOCKETS. lia.
  - eapply sublist_NoDup; [apply (sk_distinct _ Hst)|done].
  - intros n Hn. specialize (Hin n Hn). split.
    + destruct (find_endpoint (id n) (entries (streams w))) as [e|] eqn:Ef; [|by apply find_endpoint_None in Ef].
      destruct (gk_range _ _ (sk_graph _ Hst) (id n) (link e)) as [? _]; [by rewrite graph_lookup, Ef|lia].
    + destruct (Hrc _ Hin) as (m & Hm & ?). destruct (Hrefs n Hn) as [Hr _]. rewrite Hm in Hr. by injection Hr as <-.
  - intros s t Hst'. assert (s ∈ ids (entries (streams w))) as Hs by by eapply queue_edges_sources.
    split; apply Hids; (split; [eauto|]); apply touched_edge; eauto.
  - rewrite Eg. pose proof (collect_spec A others (λ _, true) true (λ _, true) w Hw) as Hs. unfold collect in Hs.
    rewrite Eq, bool_decide_false in Hs by done. simpl in Hs. rewrite En, Eg in Hs.
    destruct (discard g w) as [w' [[]|e]] eqn:Ed; [by eauto|]. exfalso. 
    pose proof (discard_ok A others g w Hw) as Hd. rewrite Ed in Hd. apply Hd.
    intros i Hi. apply unreachable_ok in Eg as (_ & _ & _ & Hg). apply Hg in Hi as [(n & Hn & <-) _].
    destruct (find_endpoint (id n) _) eqn:Ef; [by eauto|]. apply find_endpoint_None in Ef. by apply Hin in Hn.
Qed.
(** C20: A collection of socket cycles always returns; when it succeeds it
    empties the queues of exactly the sockets of the queue graph that are
    not live, where a socket with a reference outside the queues is live and
    liveness follows queued references, and changes no other socket; when it
    fails it changes nothing. *)
Theorem cycles_collected A others alloc alloc_nodes allocs w :
  world_ok A others w →
  match collect identify reference_count alloc alloc_nodes allocs w with
  | Some (w', Ok g) => world_ok A others w' ∧ collected g (streams w) (streams w') ∧
      ∃ edges nodes, queue_edges identify alloc (heap w) (entries (streams w)) = Ok edges ∧
        (∀ n, n ∈ nodes → reference_count (id n) = Ok (references n)) ∧
        (∀ i, i ∈ id <$> nodes ↔ i ∈ ids (entries (streams w)) ∧ touched edges i = true) ∧
        (∀ x, x ∈ g ↔ x ∈ id <$> nodes ∧ ¬ live nodes edges x) ∧
        (∀ i n, reference_count i = Ok n → indegree edges i < n → i ∉ g)
  | Some (w', Err _) => w' = w
  | None => False
  end.
Proof.
  intros Hw. pose proof (collect_spec A others alloc alloc_nodes allocs w Hw) as Hc.
  destruct (collect _ _ _ _ _ _) as [[w' [g|e]]|] eqn:E; [|done|done].
  destruct Hc as (Hw' & Hcol & edges & nodes & He & Hn & Hi & Hg). split_and!; [done|done|].
  exists edges, nodes. split_and!; try done. intros i n Hr Hlt [Hin Hl]%Hg.
  apply list_elem_of_fmap in Hin as (m & -> & Hm). apply Hl. constructor; [done|].
  specialize (Hn m Hm). rewrite Hr in Hn. by injection Hn as <-.
Qed.
(** C38: While one socket of the queue graph cannot be counted, such as a
    connection that waits to be accepted and has no native object, the
    collection fails and collects nothing. *)
Theorem collection_stalled alloc alloc_nodes allocs w edges i :
  queue_edges identify alloc (heap w) (entries (streams w)) = Ok edges →
  i ∈ ids (entries (streams w)) → touched edges i = true → (∀ n, reference_count i ≠ Ok n) →
  ∃ e, collect identify reference_count alloc alloc_nodes allocs w = Some (w, Err e).
Proof.
  intros Hq Hi Ht Hr. unfold collect. rewrite Hq. destruct (bool_decide (edges = [])) eqn:E.
  { apply bool_decide_eq_true in E as ->. done. }
  destruct (negb alloc_nodes); [by eauto|].
  destruct (graph_nodes reference_count edges (entries (streams w))) as [nodes|] eqn:En; [|by eauto].
  exfalso. destruct (graph_nodes_spec _ _ _ En) as [Hn Hids]. pose proof (proj2 (Hids i) (conj Hi Ht)) as Hin.
  apply list_elem_of_fmap in Hin as (m & -> & Hm). by destruct (Hr (references m)); apply Hn.
Qed.
End collect_lemmas.
