(* ===== verification/SocketWorker.v ===== *)
(** * The socket worker

    Models the loop of [posix/src/socket_native.rs] and the request handlers
    it calls: [socket_accept_native.rs], [socket_connect_native.rs],
    [socket_path_native.rs] ([control]), [socket_receive_wait_native.rs],
    [socket_record_native.rs], [socket_route_native.rs] and
    [socket_transfer_native.rs].  One thread owns the socket table, the
    bindings, the connection jobs, the wait jobs, the routes and the
    transfers, and serves one message after the other; [Worker] is that state
    and [step] one turn of the loop.

    What the kernel decides is an argument: the delivery of a message (its
    flags, the process that owns the sending endpoint, the attached handles
    and what they identify), whether a native object could be created and
    whether a reply could be sent.  Decoded requests are arguments where the
    protocol crate decodes them.  Internet sockets are served by other tables,
    which this state does not contain: their messages leave it alone.

    [wr_sources] and [wr_adopted] are accounts of the handles that requests
    handed over: [wr_sources] of wait jobs and routes, [wr_adopted] of
    transfers, as the pairs the heap's log records.  [wr_files] is the
    filesystem the handlers open names in. *)

From S2P Require Import Prelude SocketProtocol SocketRights SocketStream SocketRecord.
From S2P Require Import Socket SocketGraph SocketTable SocketOps SocketRelease SocketRecordOps SocketBinding SocketObject.
From S2P Require Import SocketConnect SocketReceiveWait SocketRoute SocketTransfer SocketProvider SocketCollect.

(** An attached handle: what [identify_provider_object] answers for it is
    part of it. *)
Record Item := mkItem { it_handle : Z; it_reserved : Z; it_rights : Z; it_object : result Z Z }.
(** [IpcObjectHandles] of a received message, with
    [endpoint_owner_process(sender)]. *)
Record Delivery := mkDelivery { dl_flags : Z; dl_owner : option Z; dl_items : list Item }.

(** Constants of the kernel and protocol crates the handlers use. *)
Class WorkerProtocol := {
  IPC_DELIVERY_ENDPOINT_HANDLE : Z;
  HANDLE_RIGHT_READ : Z; HANDLE_RIGHT_WRITE : Z; HANDLE_RIGHT_MAP : Z; HANDLE_RIGHT_CONTROL : Z;
  accept_listener_rights : Z; connect_socket_rights : Z;
  socket_rights : Request → Z; buffer_rights : Request → Z;
  CONTROL_BIND : Z; CONTROL_LISTEN : Z;
  MAX_ADDRESS_LEN : Z;
}.

Record Worker (Y : Type) := mkWorker {
  wr_world : World; wr_transfers : Transfers; wr_routes : Routes Z; wr_bindings : list (BindingRecord Z);
  wr_connections : Connections Z; wr_waits : ReceiveWaits Z; wr_files : Y; wr_sources : Account Z;
  wr_adopted : list (Z * Z) }.
Arguments mkWorker {_} _ _ _ _ _ _ _ _ _.
Arguments wr_world {_} _.
Arguments wr_transfers {_} _.
Arguments wr_routes {_} _.
Arguments wr_bindings {_} _.
Arguments wr_connections {_} _.
Arguments wr_waits {_} _.
Arguments wr_files {_} _.
Arguments wr_sources {_} _.
Arguments wr_adopted {_} _.

Section setters.
Context {Y : Type}.
Implicit Type k : Worker Y.
Definition put_world (v : World) k : Worker Y := mkWorker v (wr_transfers k) (wr_routes k) (wr_bindings k)
  (wr_connections k) (wr_waits k) (wr_files k) (wr_sources k) (wr_adopted k).
Definition put_streams (v : Streams) k : Worker Y := put_world (mkWorld (heap (wr_world k)) v) k.
Definition put_transfers (v : Transfers) k : Worker Y := mkWorker (wr_world k) v (wr_routes k) (wr_bindings k)
  (wr_connections k) (wr_waits k) (wr_files k) (wr_sources k) (wr_adopted k).
Definition put_routes (v : Routes Z) k : Worker Y := mkWorker (wr_world k) (wr_transfers k) v (wr_bindings k)
  (wr_connections k) (wr_waits k) (wr_files k) (wr_sources k) (wr_adopted k).
Definition put_bindings (v : list (BindingRecord Z)) k : Worker Y := mkWorker (wr_world k) (wr_transfers k) (wr_routes k) v
  (wr_connections k) (wr_waits k) (wr_files k) (wr_sources k) (wr_adopted k).
Definition put_connections (v : Connections Z) k : Worker Y := mkWorker (wr_world k) (wr_transfers k) (wr_routes k)
  (wr_bindings k) v (wr_waits k) (wr_files k) (wr_sources k) (wr_adopted k).
Definition put_waits (v : ReceiveWaits Z) k : Worker Y := mkWorker (wr_world k) (wr_transfers k) (wr_routes k)
  (wr_bindings k) (wr_connections k) v (wr_files k) (wr_sources k) (wr_adopted k).
Definition put_files (v : Y) k : Worker Y := mkWorker (wr_world k) (wr_transfers k) (wr_routes k) (wr_bindings k)
  (wr_connections k) (wr_waits k) v (wr_sources k) (wr_adopted k).
Definition put_sources (v : Account Z) k : Worker Y := mkWorker (wr_world k) (wr_transfers k) (wr_routes k)
  (wr_bindings k) (wr_connections k) (wr_waits k) (wr_files k) v (wr_adopted k).
Definition put_adopted (v : list (Z * Z)) k : Worker Y := mkWorker (wr_world k) (wr_transfers k) (wr_routes k)
  (wr_bindings k) (wr_connections k) (wr_waits k) (wr_files k) (wr_sources k) v.
Definition wr_streams k : Streams := streams (wr_world k).
End setters.

#[export] Instance worker_handle : DefaultHandle Z := 0.

(** [platform::handle::close] as the transfers record it. *)
Definition CLOSE : Z := 0.

Section worker.
Context {SP : SocketProtocol} {NP : NodeProtocol} {PV : Provider} {SC : SocketControls} {WP : WorkerProtocol}.
Context {Y : Type} `{!Filesystem Z Y} {B : Type} {RB : RecordBuffer B}.
(** The process of the POSIX service itself. *)
Context (service_process : Z).
Implicit Type k : Worker Y.

Definition worker_new (y : Y) : Worker Y :=
  let '(t, h) := transfers_new 0 1024 (mkHeap ∅ 1 ∅ []) in
  mkWorker (mkWorld h streams_new) t routes_new [] connections_new waits_new y (mkAccount [] []) [].

(** A handler's outcome: the state and the socket descriptions to signal, or
    the error it replies. *)
Definition Outcome : Type := Worker Y * result Z (list Z).

(** ** Authority *)

(** The message was sent by the service through an endpoint handle. *)
Definition from_service (d : Delivery) : result Z unit :=
  ensure ((dl_flags d =? IPC_DELIVERY_ENDPOINT_HANDLE) && bool_decide (dl_owner d = Some service_process)) (-13).
(** The only attached handle, whose rights satisfy [p]. *)
Definition sole_item (p : Z → bool) (d : Delivery) : result Z Item :=
  match dl_items d with
  | [it] =>
      _ ← ensure (negb (it_handle it =? 0) && (it_reserved it =? 0) && p (it_rights it)) (-13);
      Ok it
  | _ => Err (-22)
  end.
Definition includes (required rights : Z) : bool := Z.land rights required =? required.

(** ** Signals *)

Definition SIGNALS : Z :=
  Z.lor (Z.lor HANDLE_SIGNAL_READABLE HANDLE_SIGNAL_WRITABLE) HANDLE_SIGNAL_PEER_CLOSED.
(** [signal]: the calls of [signal_provider_object(id, set, clear)]. *)
Definition signal (st : Streams) (c : Connections Z) (ids : list Z) : list (Z * Z * Z) :=
  (ids ≫= λ id, id :: record_observers st id) ≫= λ id,
    match readiness st id with
    | Ok ready =>
        let set := if is_pending c id then 0 else native_signals ready in [(id, set, Z.ldiff SIGNALS set)]
    | Err _ => []
    end.

(** ** Creating sockets *)

Fixpoint release_each (ids : list Z) (w : World) : World :=
  match ids with
  | [] => w
  | id :: ids => release_each ids (fst (release id w))
  end.

(** The creation of local sockets in [run]: [creds] are the credentials of
    the process the service names; [created] is whether every native object
    could be created. *)
Definition create_dispatch (d : Delivery) (pair : bool) (request : Create) (creds : result Z (Z * Z))
    (alloc : bool) (created : result Z unit) k : Outcome :=
  match (_ ← ensure (dl_flags d =? IPC_DELIVERY_ENDPOINT_HANDLE) (-22);
         _ ← ensure (bool_decide (dl_owner d = Some service_process)) (-13);
         _ ← ensure (zlen (dl_items d) =? 0) (-13);
         creds) with
  | Err e => (k, Err e)
  | Ok creds =>
      let '(st, r) :=
        if pair then
          match create_pair alloc request creds (wr_streams k) with (st, r) => (st, (λ '(i, j), [i; j]) <$> r) end
        else match create alloc request creds (wr_streams k) with (st, r) => (st, (λ i, [i]) <$> r) end in
      match r with
      | Err e => (put_streams st k, Err e)
      | Ok ids =>
          match created with
          | Err e => (put_world (release_each ids (mkWorld (heap (wr_world k)) st)) k, Err e)
          | Ok _ => (put_streams st k, Ok ids)
          end
      end
  end.

(** ** [socket_accept_native::dispatch] *)

(** An error before the reply was sent puts the connection back. *)
Definition undo_accept (t : AcceptTicket) (st : Streams) : Streams :=
  match options st (ticket_endpoint t) with Ok _ => fst (abort_accept t st) | Err _ => st end.

Definition accept_streams (listener opts : Z) (creds : Z * Z) (created : result Z unit) (sent : bool) (st : Streams)
    : Streams * result Z (list Z) :=
  match begin_accept listener st with
  | (st, Err e) => (st, Err e)
  | (st, Ok ticket) =>
      let id := ticket_endpoint ticket in
      match (a ← peer_address st id;
             _ ← ok_or (-5) (snd (address_encode_into a (replicate (Z.to_nat MAX_ADDRESS_LEN) 0)));
             created) with
      | Err e => (undo_accept ticket st, Err e)
      | Ok _ =>
          if negb sent then
            match abort_accept ticket st with
            | (st, Err e) => (undo_accept ticket st, Err e)
            | (st, Ok _) => (undo_accept ticket st, Err (-5))
            end
          else match commit_accept ticket creds opts st with
          | (st, Err e) => (st, Err e)
          | (st, Ok _) => (st, Ok [listener; id])
          end
      end
  end.

Definition accept_dispatch (d : Delivery) (opts : Z) (creds : result Z (Z * Z)) (created : result Z unit) (sent : bool) k
    : Outcome :=
  match (_ ← from_service d;
         it ← sole_item (includes accept_listener_rights) d;
         creds ← creds;
         listener ← it_object it;
         Ok (creds, listener)) with
  | Err e => (k, Err e)
  | Ok (creds, listener) =>
      if is_tagged TCP_TAG listener then (k, Ok [])
      else match accept_streams listener opts creds created sent (wr_streams k) with
      | (st, r) => (put_streams st k, r)
      end
  end.

(** ** [socket_connect_native::dispatch] *)

(** The connection of a stream or record sequence: a job that waits is
    published as a native object, and given up when that fails. *)
Definition connect_started (client : Z) (path : list Z) (alloc : bool * bool) (created : result Z unit) (sent : bool) k
    : Outcome :=
  match options (wr_streams k) client with
  | Err e => (k, Err e)
  | Ok opts =>
      let nonblocking := negb (Z.land opts NONBLOCKING =? 0) in
      let '(c, st, y, r) :=
        start_connect alloc (wr_bindings k) client path nonblocking (wr_connections k) (wr_streams k) (wr_files k) in
      let k := put_files y (put_streams st (put_connections c k)) in
      let given_up job k :=
        let '(c, y, _) := release_job job (wr_connections k) (wr_files k) in put_files y (put_connections c k) in
      match r with
      | Err e => (k, Err e)
      | Ok (Connected listener accepted) => (k, Ok [client; listener; accepted])
      | Ok (Waiting job) =>
          match (_ ← tagged_object JOB_OBJECT_TAG job; created) with
          | Err e => (given_up job k, Err e)
          | Ok _ => if sent then (k, Ok [client; 0; 0]) else (given_up job k, Err (-5))
          end
      end
  end.

(** [snapshot] is whether the caller's directories could be retained. *)
Definition connect_dispatch (d : Delivery) (address : Address) (snapshot : result Z unit) (alloc : bool * bool)
    (created : result Z unit) (sent : bool) k : Outcome :=
  match (_ ← from_service d;
         it ← sole_item (includes connect_socket_rights) d;
         it_object it) with
  | Err e => (k, Err e)
  | Ok client =>
      if is_tagged TCP_TAG client || is_tagged UDP_TAG client then (k, Ok [])
      else match address with
      | UnixPath path =>
          match kind (wr_streams k) client with
          | Err e => (k, Err e)
          | Ok Datagram =>
              match (ids ← affected (wr_streams k) client; _ ← snapshot; Ok (snd ids)) with
              | Err e => (k, Err e)
              | Ok old_peer =>
                  let '(w, y, r) := connect_datagram_path client path (wr_bindings k) (wr_world k) (wr_files k) in
                  (put_files y (put_world w k), (λ target, [client; target; old_peer]) <$> r)
              end
          | Ok _ =>
              match (_ ← options (wr_streams k) client; snapshot) with
              | Err e => (k, Err e)
              | Ok _ => connect_started client path alloc created sent k
              end
          end
      | _ => (k, Err (-95))
      end
  end.

(** ** [socket_path_native::control] *)

(** The closure of [control].  [request] is the header of an authenticated
    control request; [address] is the decoded payload of a bind. *)
Definition path_result (request : ProviderRequest) (payload : list Z) (address : option Address)
    (snapshot : result Z unit) (alloc : bool) k : Worker Y * result Z (list Z) :=
  let id := pr_object request in
  if pr_basis request =? CONTROL_BIND then
    if negb (pr_length request =? 0) then (k, Err (-22))
    else match address with
    | None => (k, Err (-22))
    | Some (UnixPath path) =>
        match snapshot with
        | Err e => (k, Err e)
        | Ok _ =>
            let '(bs, y, r) := bind_path alloc (wr_streams k) id path (wr_bindings k) (wr_files k) in
            (put_files y (put_bindings bs k), (λ _, []) <$> r)
        end
    | Some _ => (k, Err (-95))
    end
  else if pr_basis request =? CONTROL_LISTEN then
    if negb (pr_length request =? 0) || negb (zlen payload =? 4)
       || bool_decide (retained_file (wr_bindings k) id = None) then (k, Err (-22))
    else match listen alloc id (from_le_bytes payload) (wr_streams k) with
    | (st, r) => (put_streams st k, (λ _, []) <$> r)
    end
  else (k, _ ← ensure (zlen payload =? 0) (-22);
           path ← ok_or (-9) (bound_address (wr_bindings k) id);
           let capacity := Z.min (pr_length request) MAX_ADDRESS_LEN in
           let '(data, o) := address_encode_into (UnixPath path) (replicate (Z.to_nat capacity) 0) in
           n ← ok_or (-22) o;
           Ok (take (Z.to_nat n) data)).
(** An error of the closure is the status of the reply; an error of [control]
    is that there is none. *)
Definition path_control (request : ProviderRequest) (payload : list Z) (address : option Address)
    (snapshot : result Z unit) (alloc : bool) (response : list Z) k : Worker Y * result Z Z :=
  if zlen response <? RESPONSE_HEADER_LEN + pr_length request then (k, Err (-22))
  else
    let '(k, r) := path_result request payload address snapshot alloc k in
    let '(status, data) := match r with Ok data => (0, data) | Err e => (e, []) end in
    (k, ok_or (-5) (snd (provider_encode
          (mkProviderResponse (pr_opcode request) (pr_object request) status (zlen data) (zlen data)) data response))).

(** ** Wait jobs *)

(** The registration of a wait for [socket], whose handle is [source]. *)
Definition wait_started (socket source : Z) (c : Condition) (alloc : bool) (created : result Z unit) (sent : bool) k
    : Outcome :=
  match start_condition alloc (wr_streams k) socket c source (wr_waits k) with
  | (_, Err e) => (k, Err e)
  | (waits, Ok job) =>
      let k := put_sources (adopt_handle source (wr_sources k)) (put_waits waits k) in
      let given_up k :=
        let '(waits, a, _) := release_wait return_handle job (wr_waits k) (wr_sources k) in
        put_sources a (put_waits waits k) in
      match (_ ← tagged_object WAIT_TAG job; created) with
      | Err e => (given_up k, Err e)
      | Ok _ =>
          let k := put_waits (fst (pump_waits (wr_streams k) (wr_waits k))) k in
          if sent then (k, Ok []) else (given_up k, Err (-5))
      end
  end.

(** [socket_receive_wait_native::dispatch]. *)
Definition wait_dispatch (d : Delivery) (minimum : Z) (alloc : bool) (created : result Z unit) (sent : bool) k : Outcome :=
  match (_ ← from_service d;
         it ← sole_item (Z.eqb HANDLE_RIGHT_READ) d;
         socket ← it_object it; Ok (it, socket)) with
  | Err e => (k, Err e)
  | Ok (it, socket) => wait_started socket (it_handle it) (ReceiveCondition minimum) alloc created sent k
  end.

(** [socket_record_native::register_send]. *)
Definition send_wait_dispatch (d : Delivery) (request : Request) (alloc : bool) (created : result Z unit) (sent : bool) k
    : Outcome :=
  match (_ ← ensure (dl_flags d =? IPC_DELIVERY_ENDPOINT_HANDLE) (-13);
         it ← sole_item (Z.eqb (socket_rights request)) d;
         socket ← it_object it; Ok (it, socket)) with
  | Err e => (k, Err e)
  | Ok (it, socket) => wait_started socket (it_handle it) (SendRecord (request_length request)) alloc created sent k
  end.

(** ** [socket_route_native::prepare] *)

Definition route_dispatch (d : Delivery) (length : Z) (address : Address) (snapshot : result Z unit) (alloc : bool)
    (created : result Z unit) (sent : bool) k : Outcome :=
  match (_ ← ensure (dl_flags d =? IPC_DELIVERY_ENDPOINT_HANDLE) (-13);
         it ← sole_item (Z.eqb HANDLE_RIGHT_WRITE) d;
         path ← match address with UnixPath path => Ok path | _ => Err (-95) end;
         source ← it_object it;
         _ ← snapshot;
         Ok (it_handle it, source, path)) with
  | Err e => (k, Err e)
  | Ok (handle, source, path) =>
      match prepare_datagram_target (wr_streams k) source path (wr_bindings k) (wr_files k) with
      | (y, Err e) => (put_files y k, Err e)
      | (y, Ok target) =>
          match start_route_of alloc (wr_streams k) target length handle (wr_routes k) with
          | (_, Err (e, target)) => (put_files (close_file (datagram_file target) y) k, Err e)
          | (rs, Ok job) =>
              let k := put_sources (adopt_handle handle (wr_sources k)) (put_files y (put_routes rs k)) in
              let rolled_back k :=
                let '(rs, (a, y), _) :=
                  release_route (λ h '(a, y), (return_handle h a, y)) (λ h '(a, y), (a, close_file h y))
                    job (wr_routes k) (wr_sources k, wr_files k) in
                put_sources a (put_files y (put_routes rs k)) in
              match (_ ← tagged_object ROUTE_TAG job; created) with
              | Err e => (rolled_back k, Err e)
              | Ok _ => if sent then (k, Ok []) else (rolled_back k, Err (-5))
              end
          end
      end
  end.

(** ** [socket_record_native::dispatch] *)

(** [socket_record_io::authorize]. *)
Definition authorize (request : Request) (d : Delivery) : result Z (Item * Item) :=
  _ ← ensure (request_valid request) (-22);
  _ ← ensure (negb (bool_decide (operation request = WaitSend))) (-22);
  _ ← ensure (dl_flags d =? IPC_DELIVERY_ENDPOINT_HANDLE) (-13);
  match dl_items d with
  | [socket; buffer] =>
      _ ← ensure (negb ((it_handle socket =? 0) || (it_handle buffer =? 0)
                        || negb (it_rights socket =? socket_rights request)
                        || negb (it_rights buffer =? buffer_rights request))) (-13);
      Ok (socket, buffer)
  | _ => Err (-22)
  end.

(** [alloc] are the outcomes of its allocations, [b] the memory the second
    handle denotes. *)
Definition record_dispatch (d : Delivery) (request : Request) (alloc : bool * bool) (created : result Z unit) (sent : bool)
    (b : B) k : Outcome :=
  if bool_decide (operation request = WaitSend) then send_wait_dispatch d request alloc.1 created sent k
  else
    match (_ ← ensure (zlen (dl_items d) =? 2) (-22);
           _ ← ensure (forallb (λ it, it_reserved it =? 0) (dl_items d)) (-22);
           '(socket, _) ← authorize request d;
           it_object socket) with
    | Err e => (k, Err e)
    | Ok id =>
        let response := replicate (Z.to_nat MAX_REPLY_LEN) 0 in
        if is_tagged UDP_TAG id then (k, Ok [])
        else if bool_decide (operation request = SendTo) then (k, Err (-97))
        else if bool_decide (operation request = SendRoute) then
          match tagged_id ROUTE_TAG id with
          | Err e => (k, Err e)
          | Ok route =>
              let '(rs, w, _, _, r) := route_transfer alloc route request response (wr_routes k) (wr_world k) b in
              (put_world w (put_routes rs k), (λ '(_, (i, j)), [i; j]) <$> r)
          end
        else match affected (wr_streams k) id with
        | Err e => (k, Err e)
        | Ok (i, j) =>
            let '(w, _, _, r) := transfer_record alloc id request response (wr_world k) b in
            (put_world w k, (λ _, [i; j]) <$> r)
        end
    end.

(** ** [socket_transfer_native::dispatch] *)

Inductive TransferRequest :=
  | Begin_request (length descriptors : Z)
  | Append_request (offset files : Z) (metadata : list (option InheritedFdMetadata))
  | Commit_request (offset : Z)
  | Receive_request (peek : bool) (offset length maximum_rights : Z)
  | Deliver_request (offset maximum : Z).

(** The attached handles are valid and distinct. *)
Fixpoint attached_ok (seen : list Z) (items : list Item) : bool :=
  match items with
  | [] => true
  | it :: items =>
      negb ((it_handle it =? 0) || negb (it_reserved it =? 0) || existsb (Z.eqb (it_handle it)) seen)
      && attached_ok (it_handle it :: seen) items
  end.

Definition begin_transfer (it : Item) (length descriptors : Z) (alloc : bool * bool) (created : result Z unit) (sent : bool) k
    : Outcome :=
  match it_object it with
  | Err e => (k, Err e)
  | Ok socket =>
      let '(t, w, r) :=
        match tagged_id ROUTE_TAG socket with
        | Ok route =>
            start_routed alloc (wr_routes k) route (it_handle it) length descriptors CLOSE (wr_transfers k) (wr_world k)
        | Err _ =>
            start_transfer alloc socket (it_handle it) length descriptors CLOSE (wr_transfers k) (wr_world k)
        end in
      let k := put_world w (put_transfers t k) in
      match r with
      | Err e => (k, Err e)
      | Ok id =>
          let k := put_adopted ((CLOSE, it_handle it) :: wr_adopted k) k in
          let given_up k :=
            let '(t, w, _) := release_transfer id (wr_transfers k) (wr_world k) in put_world w (put_transfers t k) in
          match (_ ← tagged_object TRANSFER_TAG id; created) with
          | Err e => (given_up k, Err e)
          | Ok _ => (if sent then k else given_up k, Ok [])
          end
      end
  end.

(** The handles after the first one, with the metadata of the request. *)
Definition to_attach (metadata : list (option InheritedFdMetadata)) (i : nat) (it : Item) : Attachment :=
  mkAttachment (it_handle it) (it_rights it) (mjoin (metadata !! i)) (match it_object it with Ok o => Some o | Err _ => None end).

Definition append_dispatch (it : Item) (items : list Item) (offset : Z) (metadata : list (option InheritedFdMetadata))
    (alloc : bool) (allocs : Z → bool) k : Outcome :=
  match (object ← it_object it; tagged_id TRANSFER_TAG object) with
  | Err e => (k, Err e)
  | Ok id =>
      let '(t, w, consumed, r) :=
        append_request alloc allocs CLOSE id offset (imap (to_attach metadata) items) (wr_transfers k) (wr_world k) in
      (put_adopted (adopted_by CLOSE consumed ++ wr_adopted k) (put_world w (put_transfers t k)), (λ _, []) <$> r)
  end.

Definition commit_dispatch (it : Item) (offset : Z) (alloc : bool * bool) (b : B) k : Outcome :=
  match (object ← it_object it; tagged_id TRANSFER_TAG object) with
  | Err e => (k, Err e)
  | Ok id =>
      let '(t, rs, w, _, r) :=
        commit_using alloc id offset (wr_transfers k) (Some (wr_routes k)) (wr_world k) b in
      (put_routes (default (wr_routes k) rs) (put_world w (put_transfers t k)), (λ '(_, (i, j)), [i; j]) <$> r)
  end.

(** The publication of a receipt: its address decodes, its native object is
    created when it has one, and the reply is encoded and sent. *)
Definition publish_reply (created sent : result Z unit) (id : option Z) (info : ReceiptInfo) (x : unit)
    : unit * result Z unit :=
  (x, _ ← ok_or (-5) (address_decode (encoded (received_source (info_record info))));
      _ ← match id with Some id => _ ← tagged_object TRANSFER_TAG id; created | None => Ok tt end;
      sent).

Definition receive_dispatch (it : Item) (peek : bool) (offset length maximum : Z) (alloc : bool * bool * bool)
    (created sent : result Z unit) (b : B) k : Outcome :=
  match (socket ← it_object it; ids ← affected (wr_streams k) socket; Ok (socket, ids)) with
  | Err e => (k, Err e)
  | Ok (socket, (i, j)) =>
      let '(t, w, _, _, r) :=
        receive_using (publish_reply created sent) alloc peek socket (it_handle it) offset length maximum CLOSE
          (wr_transfers k) (wr_world k) b tt in
      let k := put_world w (put_transfers t k) in
      match r with
      | Err e => (k, Err e)
      | Ok (_, receipt) =>
          (match receipt with Some _ => put_adopted ((CLOSE, it_handle it) :: wr_adopted k) k | None => k end,
           Ok (if peek then [] else [i; j]))
      end
  end.

Definition deliver_dispatch (it : Item) (offset maximum : Z) (sent : result Z unit) k : Outcome :=
  match (object ← it_object it; tagged_id TRANSFER_TAG object) with
  | Err e => (k, Err e)
  | Ok id =>
      let '(t, w, _, r) := deliver (λ _ x, (x, sent)) id offset maximum (wr_transfers k) (wr_world k) tt in
      (put_world w (put_transfers t k), (λ _, []) <$> r)
  end.

Definition transfer_dispatch (d : Delivery) (request : TransferRequest) (alloc : bool * bool * bool) (allocs : Z → bool)
    (created sent : result Z unit) (b : B) k : Outcome :=
  let done := match sent with Ok _ => true | Err _ => false end in
  match (_ ← ensure (dl_flags d =? IPC_DELIVERY_ENDPOINT_HANDLE) (-13);
         _ ← ensure (negb ((zlen (dl_items d) =? 0) || (zlen (dl_items d) >? IPC_MAX_OBJECT_HANDLES))) (-22);
         ensure (attached_ok [] (dl_items d)) (-22)) with
  | Err e => (k, Err e)
  | Ok _ =>
      match request, dl_items d with
      | Begin_request length descriptors, [it] =>
          if it_rights it =? HANDLE_RIGHT_WRITE then begin_transfer it length descriptors alloc.1 created done k
          else (k, Err (-13))
      | Append_request offset files metadata, it :: items =>
          if (zlen items =? files) && (it_rights it =? HANDLE_RIGHT_CONTROL)
          then append_dispatch it items offset metadata alloc.2 allocs k
          else (k, Err (-13))
      | Commit_request offset, [it; buffer] =>
          if (it_rights it =? HANDLE_RIGHT_CONTROL) && (it_rights buffer =? Z.lor HANDLE_RIGHT_READ HANDLE_RIGHT_MAP)
          then commit_dispatch it offset alloc.1 b k
          else (k, Err (-13))
      | Receive_request peek offset length maximum, [it; buffer] =>
          if (it_rights it =? HANDLE_RIGHT_READ) && (it_rights buffer =? Z.lor HANDLE_RIGHT_WRITE HANDLE_RIGHT_MAP)
          then receive_dispatch it peek offset length maximum alloc created sent b k
          else (k, Err (-13))
      | Deliver_request offset maximum, [it] =>
          if it_rights it =? HANDLE_RIGHT_CONTROL then deliver_dispatch it offset maximum sent k else (k, Err (-13))
      | _, _ => (k, Err (-13))
      end
  end.

(** ** Requests on native objects *)

(** [socket_transfer_native::provider_request] and
    [socket_route_native::provider_request]: only the final release changes
    anything. *)
Definition transfer_provider (h : ProviderRequest) (proper : bool) k : Worker Y :=
  if proper && (pr_opcode h =? PROVIDER_RELEASE) then
    match tagged_id TRANSFER_TAG (pr_object h) with
    | Ok id => let '(t, w, _) := release_transfer id (wr_transfers k) (wr_world k) in put_world w (put_transfers t k)
    | Err _ => k
    end
  else k.
Definition route_provider (h : ProviderRequest) (proper : bool) k : Worker Y :=
  if proper && (pr_opcode h =? PROVIDER_RELEASE) then
    match tagged_id ROUTE_TAG (pr_object h) with
    | Ok id =>
        let '(rs, (a, y), _) :=
          release_route (λ h '(a, y), (return_handle h a, y)) (λ h '(a, y), (a, close_file h y))
            id (wr_routes k) (wr_sources k, wr_files k) in
        put_sources a (put_files y (put_routes rs k))
    | Err _ => k
    end
  else k.

(** The pumps at the end of a turn. *)
Definition pump_connections (allocs : Z → bool) k : Worker Y * list (Z * Z * Z) :=
  let '(c, st, y, done) := pump allocs (wr_bindings k) (wr_connections k) (wr_streams k) (wr_files k) in
  let ids := done ≫= λ '(_, client, r), client :: match r with Ok (listener, _) => [listener] | Err _ => [] end in
  (put_files y (put_streams st (put_connections c k)), signal st c ids).
Definition pump_receivers k : Worker Y := put_waits (fst (pump_waits (wr_streams k) (wr_waits k))) k.
Definition pump_all (allocs : Z → bool) (x : Worker Y * list (Z * Z * Z)) : Worker Y * list (Z * Z * Z) :=
  let '(k, out) := x in
  let '(k, out') := pump_connections allocs k in
  (pump_receivers k, out ++ out').

(** The requests that reach a local socket, and the end of the turn. *)
Definition socket_provider (request : list Z) (flags attachments : Z) (response : list Z) (alloc : bool) (allocs : Z → bool)
    (observers : list Z) k : option (Worker Y * list (Z * Z * Z)) :=
  let ids :=
    match provider_decode request with
    | Some (h, _) => match affected (wr_streams k) (pr_object h) with Ok (i, j) => [i; j] | Err _ => [] end
    | None => []
    end in
  match socket_request alloc request flags attachments response (wr_world k) with
  | None => None
  | Some (w, _, _) =>
      let k := put_world w k in
      Some (pump_all allocs (k, signal (wr_streams k) (wr_connections k) (ids ++ observers)))
  end.

(** The last branch of [run]: a Provider request is dispatched on the tag of
    its object.  [response] is the worker's reply buffer. *)
Definition provider_dispatch (request : list Z) (flags attachments : Z) (response : list Z) (address : option Address)
    (snapshot : result Z unit) (alloc : bool) (allocs : Z → bool) k : option (Worker Y * list (Z * Z * Z)) :=
  let proper := (flags =? IPC_DELIVERY_NATIVE_OBJECT) && (attachments =? 0) in
  match provider_decode request with
  | None => socket_provider request flags attachments response alloc allocs [] k
  | Some (h, payload) =>
      let object := pr_object h in
      let releasing := proper && (pr_opcode h =? PROVIDER_RELEASE) in
      let observers :=
        if releasing then match release_observers (wr_streams k) object with Ok l => l | Err _ => [] end else [] in
      if is_tagged TCP_TAG object || is_tagged TCP_JOB_TAG object || is_tagged UDP_TAG object then Some (k, [])
      else if is_tagged TRANSFER_TAG object then Some (transfer_provider h proper k, [])
      else if is_tagged ROUTE_TAG object then Some (route_provider h proper k, [])
      else if is_tagged WAIT_TAG object then
        let '(waits, a, _) := wait_request return_handle request flags attachments (wr_waits k) (wr_sources k) in
        Some (put_sources a (put_waits waits k), [])
      else if negb (Z.land object JOB_OBJECT_TAG =? 0) then
        let client := match (id ← connect_job_id object; job_client (wr_connections k) id) with Ok i => [i] | Err _ => [] end in
        let '(c, y, _, r) := connect_request request flags attachments response (wr_connections k) (wr_files k) in
        let k := put_files y (put_connections c k) in
        let out := match r with Ok None => signal (wr_streams k) c client | _ => [] end in
        let '(k, out') := pump_connections allocs k in
        Some (k, out ++ out')
      else if proper && is_pending (wr_connections k) object && (pr_opcode h =? PROVIDER_CONTROL)
              && (pr_basis h =? CONTROL_READINESS) && (zlen payload =? 0) && (pr_length h =? 4) then Some (k, [])
      else if proper && (pr_opcode h =? PROVIDER_CONTROL)
              && ((pr_basis h =? CONTROL_BIND) || (pr_basis h =? CONTROL_LISTEN)
                  || ((pr_basis h =? CONTROL_LOCAL_ADDRESS)
                      && bool_decide (is_Some (bound_address (wr_bindings k) object)))) then
        let '(k, r) := path_control h payload address snapshot alloc response k in
        let out :=
          if match r with Ok _ => pr_basis h =? CONTROL_LISTEN | Err _ => false end then
            match affected (wr_streams k) object with
            | Ok (i, j) => signal (wr_streams k) (wr_connections k) [i; j]
            | Err _ => []
            end
          else [] in
        let '(k, out') := pump_connections allocs k in
        Some (k, out ++ out')
      else
        let k :=
          if releasing then
            let '(bs, y) := release_binding close_file object (wr_bindings k) (wr_files k) in
            put_files y (put_bindings bs k)
          else k in
        socket_provider request flags attachments response alloc allocs observers k
  end.

(** [socket_gc_native::collect] at the head of a turn.  [identify] and
    [reference_count] are what the kernel answers. *)
Definition collect_cycles (identify : Z → result Z (option Z)) (reference_count : Z → result Z Z) (alloc : Z → bool)
    (alloc_nodes : bool) (allocs : nat → bool) k : option (Worker Y * list (Z * Z * Z)) :=
  if negb (has_ancillary_records (wr_streams k)) then Some (k, [])
  else match collect identify reference_count alloc alloc_nodes allocs (wr_world k) with
  | None => None
  | Some (w, r) =>
      let k := put_world w k in
      let out := match r with Ok ids => signal (wr_streams k) (wr_connections k) ids | Err _ => [] end in
      Some (pump_receivers k, out)
  end.

(** ** A turn of the loop *)

(** What the allocator and the kernel answer during a turn. *)
Record Turn := mkTurn {
  tn_alloc : bool * bool * bool; tn_each : Z → bool; tn_created : result Z unit; tn_sent : result Z unit;
  tn_snapshot : result Z unit; tn_response : list Z }.

Inductive Call :=
  | Create_call (d : Delivery) (both : bool) (request : Create) (creds : result Z (Z * Z))
  | Accept_call (d : Delivery) (opts : Z) (creds : result Z (Z * Z))
  | Connect_call (d : Delivery) (a : Address)
  | Wait_call (d : Delivery) (minimum : Z)
  | Route_call (d : Delivery) (length : Z) (a : Address)
  | Record_call (d : Delivery) (request : Request) (b : B)
  | Transfer_call (d : Delivery) (request : TransferRequest) (b : B)
  | Provider_call (request : list Z) (flags attachments : Z) (a : option Address)
  | Collect_call (identify : Z → result Z (option Z)) (reference_count : Z → result Z Z)
      (alloc_nodes : bool) (allocs : nat → bool).

(** The end of a turn whose handler returned. *)
Definition finish_turn (n : Turn) (o : Outcome) : Worker Y * list (Z * Z * Z) :=
  let '(k, r) := o in
  let out := match r with Ok ids => signal (wr_streams k) (wr_connections k) ids | Err _ => [] end in
  pump_all (tn_each n) (k, out).

(** A message is received and served, or cycles are collected; the readiness
    of sockets that it publishes is the second component, without the
    notifications of jobs and routes.  [None] is a panic. *)
Definition step (n : Turn) (c : Call) k : option (Worker Y * list (Z * Z * Z)) :=
  let sent := match tn_sent n with Ok _ => true | Err _ => false end in
  match c with
  | Create_call d both request creds =>
      Some (finish_turn n (create_dispatch d both request creds (tn_alloc n).1.1 (tn_created n) k))
  | Accept_call d opts creds => Some (finish_turn n (accept_dispatch d opts creds (tn_created n) sent k))
  | Connect_call d a => Some (finish_turn n (connect_dispatch d a (tn_snapshot n) (tn_alloc n).1 (tn_created n) sent k))
  | Wait_call d minimum => Some (finish_turn n (wait_dispatch d minimum (tn_alloc n).1.1 (tn_created n) sent k))
  | Route_call d length a =>
      Some (finish_turn n (route_dispatch d length a (tn_snapshot n) (tn_alloc n).1.1 (tn_created n) sent k))
  | Record_call d request b => Some (finish_turn n (record_dispatch d request (tn_alloc n).1 (tn_created n) sent b k))
  | Transfer_call d request b =>
      Some (finish_turn n (transfer_dispatch d request (tn_alloc n) (tn_each n) (tn_created n) (tn_sent n) b k))
  | Provider_call request flags attachments a =>
      provider_dispatch request flags attachments (tn_response n) a (tn_snapshot n) (tn_alloc n).1.1 (tn_each n) k
  | Collect_call identify reference_count alloc_nodes allocs =>
      collect_cycles identify reference_count (tn_each n) alloc_nodes allocs k
  end.

Fixpoint run_turns (l : list (Turn * Call)) k : option (Worker Y * list (Z * Z * Z)) :=
  match l with
  | [] => Some (k, [])
  | (n, c) :: l =>
      match step n c k with
      | None => None
      | Some (k, out) =>
          match run_turns l k with
          | None => None
          | Some (k, out') => Some (k, out ++ out')
          end
      end
  end.
End worker.
