(* ===== verification/SocketTheorems.v ===== *)
(** * Correctness of the socket worker

    The invariant of the worker's state, that every turn of its loop
    preserves it without a panic, and what it says about the references and
    handles the worker owns. *)

From S2P Require Import Prelude SocketGc SocketProtocol SocketRights SocketStream SocketRecord.
From S2P Require Import Socket SocketGraph SocketTable SocketOps SocketRelease SocketRecordOps SocketBinding SocketObject.
From S2P Require Import SocketConnect SocketReceiveWait SocketRoute SocketTransfer SocketProvider SocketCollect SocketWorker.

Section worker_proofs.
Context {SP : SocketProtocol} {NP : NodeProtocol} {PV : Provider} {SC : SocketControls} {WP : WorkerProtocol}.
Context {Y : Type} `{!Filesystem Z Y} {B : Type} {RB : RecordBuffer B}.
Context (service_process : Z).
Implicit Type k : Worker (Ledger Z Y).

(** The files, and the source handles, that some part of the worker owns. *)
Definition owned_files k : list Z :=
  files (wr_bindings k) ++ target_files (cn_jobs (wr_connections k)) ++ route_files (wr_routes k).
Definition owned_sources k : list Z := sources (wr_waits k) ++ route_sources (wr_routes k).

Record worker_ok k : Prop := {
  wo_transfer : transfer_ok (wr_adopted k) [] (wr_transfers k) (wr_world k);
  wo_bindings : bindings_ok (wr_bindings k);
  wo_connections : connections_ok (wr_connections k);
  wo_waits : waits_ok (wr_waits k);
  wo_routes : routes_ok (wr_routes k);
  wo_files : balanced (owned_files k) (wr_files k);
  wo_sources : settled (owned_sources k) (wr_sources k);
}.

(** ** Changing one part *)

Lemma transfer_world A others t w w' :
  transfer_ok A others t w → (∀ A o, world_ok A o w → world_ok A o w') → transfer_ok A others t w'.
Proof. intros [Ht (A0 & HA & Hw)] H. split; [done|]. exists A0. eauto. Qed.

Lemma worker_world k w :
  worker_ok k → (∀ A o, world_ok A o (wr_world k) → world_ok A o w) → worker_ok (put_world w k).
Proof. intros [] H. split; try done. by eapply transfer_world. Qed.
Lemma worker_streams k st : worker_ok k → quietly (wr_streams k) st → worker_ok (put_streams st k).
Proof. intros Hk Hq. apply worker_world; [done|]. intros A o Hw. by apply quietly_world. Qed.
Lemma streams_of k : worker_ok k → streams_ok (wr_streams k).
Proof. intros []. destruct wo_transfer0 as [_ (A0 & _ & [Hs _])]. done. Qed.

Lemma balanced_as l l' (y : Ledger Z Y) : balanced l y → l' ≡ₚ l → balanced l' y.
Proof. intros H E. by rewrite E. Qed.
Lemma settled_as l l' (a : Account Z) : settled l a → l' ≡ₚ l → settled l' a.
Proof. intros H E. by rewrite E. Qed.

(** A table together with the files or handles it owns. *)
Definition files_but_jobs k : list Z := files (wr_bindings k) ++ route_files (wr_routes k).
Definition files_but_bindings k : list Z := target_files (cn_jobs (wr_connections k)) ++ route_files (wr_routes k).
Definition files_but_routes k : list Z := files (wr_bindings k) ++ target_files (cn_jobs (wr_connections k)).

Lemma jobs_files k : worker_ok k → balanced (target_files (cn_jobs (wr_connections k)) ++ files_but_jobs k) (wr_files k).
Proof. intros []. eapply balanced_as; [done|]. unfold owned_files, files_but_jobs. solve_Permutation. Qed.
Lemma bindings_files k : worker_ok k → balanced (files (wr_bindings k) ++ files_but_bindings k) (wr_files k).
Proof. intros []. eapply balanced_as; [done|]. unfold owned_files, files_but_bindings. solve_Permutation. Qed.
Lemma routes_files k : worker_ok k → balanced (route_files (wr_routes k) ++ files_but_routes k) (wr_files k).
Proof. intros []. eapply balanced_as; [done|]. unfold owned_files, files_but_routes. solve_Permutation. Qed.

Lemma worker_connections k c y :
  worker_ok k → connections_ok c → balanced (target_files (cn_jobs c) ++ files_but_jobs k) y →
  worker_ok (put_files y (put_connections c k)).
Proof.
  intros [] Hc Hy. split; try done. eapply balanced_as; [done|].
  unfold owned_files, files_but_jobs. simpl. solve_Permutation.
Qed.
Lemma worker_bindings k bs y :
  worker_ok k → bindings_ok bs → balanced (files bs ++ files_but_bindings k) y →
  worker_ok (put_files y (put_bindings bs k)).
Proof. by intros [] Hc Hy. Qed.
Lemma worker_waits k s a :
  worker_ok k → waits_ok s → settled (sources s ++ route_sources (wr_routes k)) a →
  worker_ok (put_sources a (put_waits s k)).
Proof. by intros [] Hc Hy. Qed.
Lemma worker_routes k rs a y :
  worker_ok k → routes_ok rs → settled (route_sources rs ++ sources (wr_waits k)) a →
  balanced (route_files rs ++ files_but_routes k) y → worker_ok (put_sources a (put_files y (put_routes rs k))).
Proof.
  intros [] Hr Ha Hy. split; try done.
  - eapply balanced_as; [done|]. unfold owned_files, files_but_routes. simpl. solve_Permutation.
  - eapply settled_as; [done|]. unfold owned_sources. simpl. solve_Permutation.
Qed.
Lemma worker_same_routes k rs :
  worker_ok k → routes_ok rs → route_sources rs = route_sources (wr_routes k) →
  route_files rs = route_files (wr_routes k) → worker_ok (put_routes rs k).
Proof.
  intros [] Hr Hs Hf. split; try done; [unfold owned_files|unfold owned_sources]; simpl; rewrite ?Hs, ?Hf; done.
Qed.
Lemma worker_transfers k t w A :
  worker_ok k → transfer_ok A [] t w → worker_ok (put_adopted A (put_world w (put_transfers t k))).
Proof. by intros [] Ht. Qed.
Lemma worker_same_transfers k t w :
  worker_ok k → transfer_ok (wr_adopted k) [] t w → worker_ok (put_world w (put_transfers t k)).
Proof. by intros [] Ht. Qed.

(** ** The pumps *)

Lemma pump_connections_ok allocs k : worker_ok k → worker_ok (fst (pump_connections allocs k)).
Proof.
  intros Hk. unfold pump_connections.
  pose proof (pump_ok allocs (wr_bindings k) (wr_connections k) (wr_streams k) (wr_files k) _
    (wo_connections _ Hk) (streams_of _ Hk) (jobs_files _ Hk)) as Hp.
  destruct (pump _ _ _ _ _) as [[[c st] y] done]. destruct Hp as (Hc & Hq & Hy). simpl.
  apply (worker_connections (put_streams st k)); [|done|done]. by apply worker_streams.
Qed.
Lemma pump_receivers_ok k : worker_ok k → worker_ok (pump_receivers k).
Proof.
  intros Hk. unfold pump_receivers.
  destruct (pump_waits_ok (wr_streams k) (wr_waits k) (wo_waits _ Hk)) as [Hw Hs].
  destruct Hk. split; try done. unfold owned_sources. cbn [wr_waits wr_routes wr_sources put_waits]. by rewrite Hs.
Qed.
Lemma pump_all_ok allocs x : worker_ok (fst x) → worker_ok (fst (pump_all allocs x)).
Proof.
  destruct x as [k out]. simpl. intros Hk. pose proof (pump_connections_ok allocs k Hk) as Hp.
  unfold pump_all. destruct (pump_connections allocs k) as [k' out']. by apply pump_receivers_ok.
Qed.
Lemma finish_turn_ok n (o : Outcome (Y := Ledger Z Y)) : worker_ok (fst o) → worker_ok (fst (finish_turn n o)).
Proof. destruct o as [k r]. intros Hk. apply (pump_all_ok (tn_each n) (k, _) Hk). Qed.
(** ** The handlers *)

Lemma release_each_ok ids A others w : world_ok A others w → world_ok A others (release_each ids w).
Proof. revert w. induction ids as [|i ids IH]; intros w Hw; [done|]. apply IH. by apply release_ok. Qed.

Lemma create_dispatch_ok d both request creds alloc created k :
  worker_ok k → worker_ok (fst (create_dispatch service_process d both request creds alloc created k)).
Proof.
  intros Hk. unfold create_dispatch. pose proof (streams_of _ Hk) as Hst.
  match goal with |- context [match ?x with Ok _ => _ | Err _ => _ end] => destruct x as [cr|] end; [|done].
  set (res := if both then _ else _). assert (quietly (wr_streams k) (fst res)) as Hq.
  { unfold res. destruct both.
    - pose proof (create_pair_quietly alloc request cr _ Hst) as H.
      destruct (create_pair _ _ _ _) as [st [[i j]|e]]; simpl; [apply H|subst; by apply quietly_refl].
    - pose proof (create_quietly alloc request cr _ Hst) as H.
      destruct (create _ _ _ _) as [st [i|e]]; simpl; [apply H|subst; by apply quietly_refl]. }
  destruct res as [st [ids|e]]; simpl in Hq |- *; [|by apply worker_streams].
  destruct created; [by apply worker_streams|]. apply worker_world; [done|].
  intros A o Hw. apply release_each_ok. by apply quietly_world.
Qed.

Lemma undo_accept_quietly t st : streams_ok st → quietly st (undo_accept t st).
Proof.
  intros Hst. unfold undo_accept. destruct (options _ _); [|by apply quietly_refl].
  pose proof (abort_accept_spec t st Hst) as H. destruct (abort_accept t st) as [st' [r|e]]; simpl; [apply H|].
  subst. by apply quietly_refl.
Qed.

Lemma accept_streams_quietly listener opts creds created sent st :
  streams_ok st → quietly st (fst (accept_streams listener opts creds created sent st)).
Proof.
  intros Hst. unfold accept_streams. pose proof (begin_accept_spec listener st Hst) as Hb.
  destruct (begin_accept listener st) as [st1 [t|e]]; [|by subst; apply quietly_refl].
  destruct Hb as [Hq _]. pose proof (proj1 Hq) as Hst1. eapply quietly_trans; [exact Hq|].
  match goal with |- context [match ?x with Ok _ => _ | Err _ => _ end] => destruct x as [u|] end;
    [|by apply undo_accept_quietly].
  destruct sent; simpl.
  - pose proof (commit_accept_spec t creds opts st1 Hst1) as Hc.
    destruct (commit_accept t creds opts st1) as [st2 [i|e]]; simpl; [apply Hc|subst; by apply quietly_refl].
  - pose proof (abort_accept_spec t st1 Hst1) as Ha. destruct (abort_accept t st1) as [st2 [i|e]]; simpl.
    + destruct Ha as [Ha _]. eapply quietly_trans; [exact Ha|]. apply undo_accept_quietly, Ha.
    + subst. by apply undo_accept_quietly.
Qed.

Lemma accept_dispatch_ok d opts creds created sent k :
  worker_ok k → worker_ok (fst (accept_dispatch service_process d opts creds created sent k)).
Proof.
  intros Hk. unfold accept_dispatch.
  match goal with |- context [match ?x with Ok _ => _ | Err _ => _ end] => destruct x as [[cr listener]|] end; [|done].
  destruct (is_tagged _ _); [done|].
  pose proof (accept_streams_quietly listener opts cr created sent _ (streams_of _ Hk)) as Hq.
  destruct (accept_streams _ _ _ _ _ _) as [st r]. by apply worker_streams.
Qed.

Lemma connect_started_ok client path alloc created sent k :
  worker_ok k → worker_ok (fst (connect_started client path alloc created sent k)).
Proof.
  intros Hk. unfold connect_started. destruct (options _ _) as [opts|]; [|done].
  pose proof (start_connect_ok alloc (wr_bindings k) client path (negb (Z.land opts NONBLOCKING =? 0)) (wr_connections k)
    (wr_streams k) (wr_files k) _ (wo_connections _ Hk) (streams_of _ Hk) (jobs_files _ Hk)) as Hs.
  destruct (start_connect _ _ _ _ _ _ _ _) as [[[c st] y] r]. destruct Hs as (Hc & Hq & Hy & _).
  assert (worker_ok (put_files y (put_streams st (put_connections c k)))) as Hk1
    by (apply (worker_connections (put_streams st k)); [by apply worker_streams|done|done]).
  revert Hk1. generalize (put_files y (put_streams st (put_connections c k))) as k1. intros k1 Hk1.
  assert (∀ job, worker_ok (let '(c, y, _) := release_job job (wr_connections k1) (wr_files k1) in
    put_files y (put_connections c k1))) as Hrel.
  { intros job. pose proof (release_job_ok job _ _ _ (wo_connections _ Hk1) (jobs_files _ Hk1)) as Hr.
    destruct (release_job _ _ _) as [[c' y'] r']. destruct Hr as (Hc' & Hy' & _). by apply worker_connections. }
  destruct r as [[listener accepted|job]|e]; [done| |done].
  destruct (tagged_object _ _ ≫= _); [|apply Hrel]. destruct sent; [done|apply Hrel].
Qed.

Lemma connect_dispatch_ok d a snapshot alloc created sent k :
  worker_ok k → worker_ok (fst (connect_dispatch service_process d a snapshot alloc created sent k)).
Proof.
  intros Hk. unfold connect_dispatch.
  match goal with |- context [match ?x with Ok _ => _ | Err _ => _ end] => destruct x as [client|] end; [|done].
  destruct (_ || _); [done|]. destruct a as [|path| |]; try done.
  assert (worker_ok (fst match (_ ← options (wr_streams k) client; snapshot) with
    | Err e => (k, Err e) | Ok _ => connect_started client path alloc created sent k end)) as Hs.
  { destruct (options _ _ ≫= _); [by apply connect_started_ok|done]. }
  destruct (kind _ _) as [[]|]; try done. clear Hs.
  match goal with |- context [match ?x with Ok _ => _ | Err _ => _ end] => destruct x as [old|] end; [|done].
  pose proof Hk as [[Ht (A0 & HA & Hw)] ? ? ? ? ? ?].
  pose proof (connect_datagram_path_spec A0 _ client path (wr_bindings k) (wr_world k) (wr_files k) _ Hw (wo_files _ Hk)) as Hc.
  destruct (connect_datagram_path _ _ _ _ _) as [[w y] r]. destruct Hc as (Hw' & Hy & _). split; try done.
  split; [done|]. by exists A0.
Qed.
Lemma path_result_ok request payload a snapshot alloc k :
  worker_ok k → worker_ok (fst (path_result request payload a snapshot alloc k)).
Proof.
  intros Hk. unfold path_result. destruct (_ =? CONTROL_BIND).
  - destruct (negb _); [done|]. destruct a as [[|path| |]|]; try done. destruct snapshot; [|done].
    pose proof (bind_path_spec alloc (wr_streams k) (pr_object request) path (wr_bindings k) (wr_files k) _
      (wo_bindings _ Hk) (bindings_files _ Hk)) as Hb.
    destruct (bind_path _ _ _ _ _ _) as [[bs y] [u|e]]; simpl.
    + destruct Hb as (Hb & Hy & _). by apply worker_bindings.
    + destruct Hb as [-> Hy]. apply worker_bindings; [done|apply Hk|done].
  - destruct (_ =? CONTROL_LISTEN); [|done]. destruct (_ || _); [done|].
    pose proof (listen_quietly alloc (pr_object request) (from_le_bytes payload) _ (streams_of _ Hk)) as Hq.
    destruct (listen _ _ _ _) as [st r]. by apply worker_streams.
Qed.
Lemma path_control_ok request payload a snapshot alloc response k :
  worker_ok k → worker_ok (fst (path_control request payload a snapshot alloc response k)).
Proof.
  intros Hk. unfold path_control. destruct (_ <? _); [done|].
  apply (path_result_ok request payload a snapshot alloc) in Hk. destruct (path_result _ _ _ _ _ _) as [k' r].
  by destruct (match r with Ok data => _ | Err e => _ end).
Qed.

Lemma wait_started_ok socket source c alloc created sent k :
  worker_ok k → worker_ok (fst (wait_started socket source c alloc created sent k)).
Proof.
  intros Hk. unfold wait_started.
  pose proof (start_condition_ok alloc (wr_streams k) socket c source (wr_waits k) (wo_waits _ Hk)) as Hs.
  destruct (start_condition _ _ _ _ _ _) as [waits [job|e]]; [|done]. destruct Hs as (Hw & Hsrc & _ & _).
  assert (worker_ok (put_sources (adopt_handle source (wr_sources k)) (put_waits waits k))) as Hk1.
  { apply worker_waits; [done|done|]. rewrite Hsrc. eapply settled_as; [apply adopt_handle_settled, (wo_sources _ Hk)|].
    unfold owned_sources. solve_Permutation. }
  revert Hk1. generalize (put_sources (adopt_handle source (wr_sources k)) (put_waits waits k)) as k1. intros k1 Hk1.
  assert (∀ k2, worker_ok k2 → worker_ok (let '(waits, a, _) := release_wait return_handle job (wr_waits k2) (wr_sources k2) in
    put_sources a (put_waits waits k2))) as Hrel.
  { intros k2 Hk2. pose proof (release_wait_ok job _ _ _ (wo_waits _ Hk2) (wo_sources _ Hk2)) as Hr.
    destruct (release_wait _ _ _ _) as [[s a] r]. destruct Hr as [Hs Ha]. by apply worker_waits. }
  destruct (tagged_object _ _ ≫= _); [|by apply Hrel].
  pose proof (pump_receivers_ok _ Hk1) as Hk2. destruct sent; [done|]. apply (Hrel _ Hk2).
Qed.

Lemma release_route_worker job k :
  worker_ok k →
  worker_ok (let '(rs, (a, y), _) :=
    release_route (λ h '(a, y), (return_handle h a, y)) (λ h '(a, y), (a, close_file h y))
      job (wr_routes k) (wr_sources k, wr_files k) in
    put_sources a (put_files y (put_routes rs k))).
Proof.
  intros Hk. unfold release_route. destruct (iter_position _ _) as [i|] eqn:E; [|by destruct Hk].
  destruct (rs_entries (wr_routes k) !! i) as [r|] eqn:Er; [|by destruct Hk].
  destruct (release_route_perm _ _ _ _ E Er (wo_routes _ Hk)) as (Hr & Hs & Hf).
  apply worker_routes; [done|done| |].
  - apply return_settled. eapply settled_as; [apply (wo_sources _ Hk)|]. unfold owned_sources. rewrite Hs. solve_Permutation.
  - apply close_balanced. eapply balanced_as; [apply (routes_files _ Hk)|]. rewrite Hf. solve_Permutation.
Qed.

Lemma route_dispatch_ok d length a snapshot alloc created sent k :
  worker_ok k → worker_ok (fst (route_dispatch d length a snapshot alloc created sent k)).
Proof.
  intros Hk. unfold route_dispatch.
  match goal with |- context [match ?x with Ok _ => _ | Err _ => _ end] => destruct x as [[[handle source] path]|] end; [|done].
  pose proof (prepare_datagram_spec (wr_streams k) source path (wr_bindings k) (wr_files k) _ (wo_files _ Hk)) as Hp.
  destruct (prepare_datagram_target _ _ _ _ _) as [y [target|e]]; [|destruct Hk; by split].
  destruct Hp as (Hy & _ & _).
  pose proof (start_route_ok alloc (wr_streams k) target length handle (wr_routes k) (wo_routes _ Hk)) as Hs.
  destruct (start_route_of _ _ _ _ _ _) as [rs [job|[e t]]].
  - destruct Hs as (Hr & Hsrc & Hf & _).
    assert (worker_ok (put_sources (adopt_handle handle (wr_sources k)) (put_files y (put_routes rs k)))) as Hk1.
    { apply worker_routes; [done|done| |].
      - eapply settled_as; [apply adopt_handle_settled, (wo_sources _ Hk)|]. rewrite Hsrc. unfold owned_sources. solve_Permutation.
      - eapply balanced_as; [exact Hy|]. rewrite Hf. unfold owned_files, files_but_routes. solve_Permutation. }
    destruct (tagged_object _ _ ≫= _); [|by apply release_route_worker].
    destruct sent; [done|by apply release_route_worker].
  - destruct Hs as [_ ->]. apply close_balanced in Hy. destruct Hk. by split.
Qed.

Lemma record_dispatch_ok d request alloc created sent b k :
  worker_ok k → 0 ≤ request_length request →
  worker_ok (fst (record_dispatch d request alloc created sent b k)).
Proof.
  intros Hk Hl. unfold record_dispatch. case_bool_decide.
  { unfold send_wait_dispatch.
    match goal with |- context [match ?x with Ok _ => _ | Err _ => _ end] => destruct x as [[it socket]|] end; [|done].
    by apply wait_started_ok. }
  match goal with |- context [match ?x with Ok _ => _ | Err _ => _ end] => destruct x as [id|] end; [|done].
  destruct (is_tagged _ _); [done|]. case_bool_decide; [done|]. case_bool_decide.
  - destruct (tagged_id _ _) as [route|]; [|done].
    pose proof (λ A o Hw, route_transfer_ok A o alloc route request (replicate (Z.to_nat MAX_REPLY_LEN) 0) (wr_routes k)
      (wr_world k) b (wo_routes _ Hk) Hw Hl) as Hr.
    destruct (route_transfer _ _ _ _ _ _ _) as [[[[rs w] b'] r'] r].
    assert (worker_ok (put_routes rs k)) as Hk1.
    { pose proof Hk as [[Ht (A0 & HA & Hw)] ? ? ? Hro ? ?]. specialize (Hr _ _ Hw). destruct r.
      - destruct Hr as (-> & _). destruct (set_complete_ok route _ Hro) as (? & ? & ?). by apply worker_same_routes.
      - destruct Hr as [-> _]. by destruct Hk. }
    apply (worker_world (put_routes rs k)); [done|]. intros A o Hw. specialize (Hr A o Hw).
    destruct r; [by destruct Hr as (_ & ? & _)|by destruct Hr as [_ ->]].
  - destruct (affected _ _) as [[i j]|]; [|done].
    pose proof (λ A o Hw, transfer_record_ok A o alloc id request (replicate (Z.to_nat MAX_REPLY_LEN) 0) (wr_world k) b Hw Hl) as Hr.
    destruct (transfer_record _ _ _ _ _ _) as [[[w b'] r'] r]. by apply worker_world.
Qed.
(** Requests as the protocol crate decodes them: lengths and counts are
    unsigned, and an append carries the metadata of each handle. *)
Definition request_ok (r : TransferRequest) : Prop :=
  match r with
  | Begin_request _ descriptors => 0 ≤ descriptors
  | Append_request _ files metadata => ∀ i, Z.of_nat i < files → ∃ m, metadata !! i = Some (Some m)
  | Commit_request _ => True
  | Receive_request _ _ length maximum => 0 ≤ length ∧ 0 ≤ maximum
  | Deliver_request _ maximum => 0 ≤ maximum
  end.

Lemma attached_nonzero seen items it : attached_ok seen items = true → it ∈ items → it_handle it ≠ 0.
Proof.
  revert seen. induction items as [|x items IH]; intros seen H Hin; [by apply elem_of_nil in Hin|].
  simpl in H. apply andb_true_iff in H as [Hx H]. apply elem_of_cons in Hin as [->|Hin]; [|by eapply IH].
  rewrite negb_true_iff, !orb_false_iff in Hx. lia.
Qed.

Lemma begin_transfer_ok it length descriptors alloc created sent k :
  worker_ok k → 0 ≤ descriptors → worker_ok (fst (begin_transfer it length descriptors alloc created sent k)).
Proof.
  intros Hk Hd. unfold begin_transfer. destruct (it_object it) as [socket|]; [|done].
  set (res := match tagged_id ROUTE_TAG socket with Ok _ => _ | Err _ => _ end).
  assert (match res with
    | (t', w', Ok id) => transfer_ok ((CLOSE, it_handle it) :: wr_adopted k) [] t' w'
    | (t', w', Err _) => t' = wr_transfers k ∧ transfer_ok (wr_adopted k) [] (wr_transfers k) w' end) as Hr.
  { unfold res. destruct (tagged_id _ _) as [route|].
    - apply (start_routed_ok _ _ _ _ _ _ _ _ _ _ _ (wo_transfer _ Hk) Hd).
    - pose proof (start_transfer_ok _ _ alloc socket (it_handle it) length descriptors CLOSE _ _ (wo_transfer _ Hk) Hd) as Hs.
      destruct (start_transfer _ _ _ _ _ _ _ _) as [[t w] [id|err]]; [apply Hs|done]. }
  destruct res as [[t w] [id|e]]; cbv zeta; [|destruct Hr as [-> Hr]; by apply worker_same_transfers].
  change (wr_adopted (put_world w (put_transfers t k))) with (wr_adopted k).
  assert (worker_ok (put_adopted ((CLOSE, it_handle it) :: wr_adopted k) (put_world w (put_transfers t k)))) as Hk1
    by by apply worker_transfers.
  revert Hk1.
  generalize (put_adopted ((CLOSE, it_handle it) :: wr_adopted k) (put_world w (put_transfers t k))) as k1. intros k1 Hk1.
  assert (worker_ok (let '(t, w, _) := release_transfer id (wr_transfers k1) (wr_world k1) in put_world w (put_transfers t k1)))
    as Hrel.
  { pose proof (release_transfer_ok _ _ id _ _ (wo_transfer _ Hk1)) as H. destruct (release_transfer _ _ _) as [[t' w'] r].
    apply worker_same_transfers; [done|apply H]. }
  destruct (tagged_object _ _ ≫= _); [|exact Hrel]. by destruct sent.
Qed.

Lemma append_dispatch_ok it items offset metadata alloc allocs k :
  worker_ok k → (∀ x, x ∈ items → it_handle x ≠ 0) →
  (∀ i, Z.of_nat i < zlen items → ∃ m, metadata !! i = Some (Some m)) →
  worker_ok (fst (append_dispatch it items offset metadata alloc allocs k)).
Proof.
  intros Hk Hh Hm. unfold append_dispatch. destruct (it_object it ≫= _) as [id|]; [|done].
  pose proof (append_request_ok _ _ alloc allocs CLOSE id offset (imap (to_attach metadata) items) _ _ (wo_transfer _ Hk)) as Ha.
  destruct (append_request _ _ _ _ _ _ _ _) as [[[t w] consumed] r]. apply worker_transfers; [done|].
  apply Ha. intros x Hx. apply elem_of_lookup_imap in Hx as (i & y & -> & Hy). simpl. split.
  - apply Hh. by eapply list_elem_of_lookup_2.
  - destruct (Hm i) as [m E]; [apply lookup_lt_Some in Hy; unfold zlen; lia|]. rewrite E. by eexists.
Qed.

Lemma commit_dispatch_ok it offset alloc b k : worker_ok k → worker_ok (fst (commit_dispatch it offset alloc b k)).
Proof.
  intros Hk. unfold commit_dispatch. destruct (it_object it ≫= _) as [id|]; [|done].
  pose proof (commit_using_ok _ _ alloc id offset _ (Some (wr_routes k)) _ b (wo_transfer _ Hk)) as Hc.
  destruct (commit_using _ _ _ _ _ _ _) as [[[[t rs] w] b'] r]. simpl.
  assert (transfer_ok (wr_adopted k) [] t w ∧ (rs = Some (wr_routes k) ∨ ∃ route, rs = Some (set_complete route (wr_routes k))))
    as [Ht Hrs].
  { assert (∀ r0, Some (wr_routes k) = Some r0 → routes_ok r0) as Hro by (intros r0 [= <-]; apply Hk). specialize (Hc Hro).
    destruct r; [destruct Hc as (Hc & _ & _ & Hr)|destruct Hc as (Hc & _ & Hr & _)]; (split; [done|]); [|by left].
    destruct Hr as [->|(r0 & route & [= <-] & ->)]; eauto. }
  assert (worker_ok (put_world w (put_transfers t k))) as Hk1 by by apply worker_same_transfers.
  destruct Hrs as [->|[route ->]]; simpl; [by destruct Hk1|].
  destruct (set_complete_ok route _ (wo_routes _ Hk)) as (? & ? & ?). by apply worker_same_routes.
Qed.

Lemma receive_dispatch_ok it peek offset length maximum alloc created sent b k :
  worker_ok k → 0 ≤ length → 0 ≤ maximum →
  worker_ok (fst (receive_dispatch it peek offset length maximum alloc created sent b k)).
Proof.
  intros Hk Hl Hm. unfold receive_dispatch.
  match goal with |- context [match ?x with Ok _ => _ | Err _ => _ end] => destruct x as [[socket [i j]]|] end; [|done].
  pose proof (receive_using_ok (publish_reply created sent) _ _ alloc peek socket (it_handle it) offset length maximum CLOSE
    _ _ b tt (wo_transfer _ Hk) Hl Hm) as Hr.
  destruct (receive_using _ _ _ _ _ _ _ _ _ _ _ _ _) as [[[[t w] b'] x] [[info [id|]]|e]]; simpl.
  - apply worker_transfers; [done|apply Hr].
  - apply worker_same_transfers; [done|apply Hr].
  - by apply worker_same_transfers.
Qed.

Lemma deliver_dispatch_ok it offset maximum sent k :
  worker_ok k → 0 ≤ maximum → worker_ok (fst (deliver_dispatch it offset maximum sent k)).
Proof.
  intros Hk Hm. unfold deliver_dispatch. destruct (it_object it ≫= _) as [id|]; [|done].
  pose proof (deliver_ok _ _ (λ _ x, (x, sent)) id offset maximum _ _ tt (wo_transfer _ Hk) Hm) as Hd.
  destruct (deliver _ _ _ _ _ _ _) as [[[t w] x] [n|e]]; simpl.
  - apply worker_same_transfers; [done|apply Hd].
  - destruct Hd as [-> ->]. apply worker_same_transfers; [done|apply Hk].
Qed.

Lemma transfer_dispatch_ok d request alloc allocs created sent b k :
  worker_ok k → request_ok request → worker_ok (fst (transfer_dispatch d request alloc allocs created sent b k)).
Proof.
  intros Hk Hr. unfold transfer_dispatch.
  match goal with |- context [match ?x with Ok _ => _ | Err _ => _ end] => destruct x as [u|] eqn:E end; [|done].
  assert (attached_ok [] (dl_items d) = true) as Hat by by inv_result. clear E.
  destruct request as [length descriptors|offset files metadata|offset|pk offset length maximum|offset maximum], (dl_items d) as [|it items];
    try done.
  - destruct items; [|done]. destruct (it_rights it =? _); [|done]. by apply begin_transfer_ok.
  - destruct (_ && _) eqn:Ef; [|done]. apply append_dispatch_ok; [done| |].
    + intros x Hx. eapply attached_nonzero; [exact Hat|]. set_solver.
    + intros i Hi. apply Hr. lia.
  - destruct items as [|? []]; try done. destruct (_ && _); [|done]. by apply commit_dispatch_ok.
  - destruct items as [|? []]; try done. destruct (_ && _); [|done]. destruct Hr. by apply receive_dispatch_ok.
  - destruct items; [|done]. destruct (_ =? _); [|done]. by apply deliver_dispatch_ok.
Qed.
(** ** Requests on native objects *)

Lemma wait_request_ok request flags attachments (s : ReceiveWaits Z) a held :
  waits_ok s → settled (sources s ++ held) a →
  let '(s', a', _) := wait_request return_handle request flags attachments s a in waits_ok s' ∧ settled (sources s' ++ held) a'.
Proof.
  intros Hs Ha. unfold wait_request. destruct (provider_decode request) as [[h payload]|]; [|done].
  destruct (negb _); [done|]. destruct (negb _); [done|]. destruct (negb _); [done|].
  destruct (tagged_id _ _) as [id|]; [|done]. pose proof (release_wait_ok id s a held Hs Ha) as Hr.
  destruct (release_wait _ _ _ _) as [[s' a'] [u|e]]; done.
Qed.

Lemma socket_provider_ok request flags attachments response alloc allocs observers k :
  worker_ok k → 0 ≤ MAX_DATA_LEN → zlen response ≤ RESPONSE_HEADER_LEN + MAX_DATA_LEN →
  ∃ k' out, socket_provider request flags attachments response alloc allocs observers k = Some (k', out) ∧ worker_ok k'.
Proof.
  intros Hk H0 Hl. unfold socket_provider.
  pose proof Hk as [[_ (A0 & _ & Hw0)] _ _ _ _ _ _].
  destruct (socket_request_ok A0 _ alloc request flags attachments response _ Hw0 H0 Hl) as (w & response' & r & E & _).
  rewrite E. set (x := (put_world w k, _)).
  assert (worker_ok (fst x)) as Hx.
  { apply worker_world; [done|]. intros A o Hw.
    destruct (socket_request_ok A o alloc request flags attachments response _ Hw H0 Hl) as (w2 & ? & ? & E2 & Hw2 & _).
    rewrite E in E2. by injection E2 as <- _ _. }
  apply (pump_all_ok allocs) in Hx. destruct (pump_all allocs x) as [k' out]. eauto.
Qed.

Lemma pumped_out allocs k (out : list (Z * Z * Z)) :
  worker_ok k → ∃ k' out', (let '(k, out') := pump_connections allocs k in Some (k, out ++ out')) = Some (k', out') ∧ worker_ok k'.
Proof.
  intros Hk. pose proof (pump_connections_ok allocs k Hk) as Hp. destruct (pump_connections allocs k) as [k' out']. eauto.
Qed.

Lemma provider_dispatch_ok request flags attachments response a snapshot alloc allocs k :
  worker_ok k → 0 ≤ MAX_DATA_LEN → zlen response ≤ RESPONSE_HEADER_LEN + MAX_DATA_LEN →
  ∃ k' out, provider_dispatch request flags attachments response a snapshot alloc allocs k = Some (k', out) ∧ worker_ok k'.
Proof.
  intros Hk H0 Hl. unfold provider_dispatch. destruct (provider_decode request) as [[h payload]|] eqn:Ed;
    [|by apply socket_provider_ok].
  set (proper := (flags =? IPC_DELIVERY_NATIVE_OBJECT) && (attachments =? 0)). clearbody proper.
  destruct (_ || _); [by eauto|]. destruct (is_tagged TRANSFER_TAG _).
  { eexists _, _. split; [done|]. unfold transfer_provider. destruct (_ && _); [|done]. destruct (tagged_id _ _) as [id|]; [|done].
    pose proof (release_transfer_ok _ _ id _ _ (wo_transfer _ Hk)) as H. destruct (release_transfer _ _ _) as [[t w] r].
    apply worker_same_transfers; [done|apply H]. }
  destruct (is_tagged ROUTE_TAG _).
  { eexists _, _. split; [done|]. unfold route_provider. destruct (_ && _); [|done]. destruct (tagged_id _ _) as [id|]; [|done].
    by apply release_route_worker. }
  destruct (is_tagged WAIT_TAG _).
  { pose proof (wait_request_ok request flags attachments _ _ _ (wo_waits _ Hk) (wo_sources _ Hk)) as Hw.
    destruct (wait_request _ _ _ _ _ _) as [[waits acc] r]. destruct Hw. eexists _, _. split; [done|]. by apply worker_waits. }
  destruct (negb _).
  { pose proof (connect_request_ok request flags attachments response _ _ _ (wo_connections _ Hk) (jobs_files _ Hk)) as Hc.
    destruct (connect_request _ _ _ _ _ _) as [[[c y] resp] r]. destruct Hc as [Hc Hy].
    apply pumped_out. by apply worker_connections. }
  destruct (_ && (_ =? 4)); [by eauto|]. destruct (_ && (_ || _)).
  { pose proof (path_control_ok h payload a snapshot alloc response k Hk) as Hp. destruct (path_control _ _ _ _ _ _ _) as [k1 r].
    by apply pumped_out. }
  apply socket_provider_ok; [|done|done]. destruct (proper && _); [|done].
  pose proof (release_binding_spec (pr_object h) _ _ _ (wo_bindings _ Hk) (bindings_files _ Hk)) as Hb.
  destruct (release_binding _ _ _ _) as [bs y]. destruct Hb as (Hb & Hy & _). by apply worker_bindings.
Qed.
Lemma collect_cycles_ok identify reference_count alloc alloc_nodes allocs k :
  worker_ok k →
  ∃ k' out, collect_cycles identify reference_count alloc alloc_nodes allocs k = Some (k', out) ∧ worker_ok k'.
Proof.
  intros Hk. unfold collect_cycles. destruct (negb _); [by eauto|].
  pose proof (λ A o Hw, collect_spec identify reference_count A o alloc alloc_nodes allocs (wr_world k) Hw) as Hc.
  pose proof Hk as [[_ (A0 & _ & Hw0)] _ _ _ _ _ _]. pose proof (Hc _ _ Hw0) as H.
  destruct (collect _ _ _ _ _ _) as [[w r]|]; [clear H|done]. eexists _, _. split; [done|].
  apply pump_receivers_ok, worker_world; [done|]. intros A o Hw. specialize (Hc A o Hw).
  destruct r; [apply Hc|by subst].
Qed.

(** ** Turns *)

(** What holds of every message: the decoded lengths are unsigned, and the
    reply buffer has the size the worker allocated. *)
Definition call_ok (n : Turn) (c : Call (B := B)) : Prop :=
  match c with
  | Record_call _ request _ => 0 ≤ request_length request
  | Transfer_call _ request _ => request_ok request
  | Provider_call _ _ _ _ => zlen (tn_response n) ≤ RESPONSE_HEADER_LEN + MAX_DATA_LEN
  | _ => True
  end.

Lemma step_ok n c k :
  0 ≤ MAX_DATA_LEN → worker_ok k → call_ok n c → ∃ k' out, step service_process n c k = Some (k', out) ∧ worker_ok k'.
Proof.
  intros H0 Hk Hc.
  assert (∀ o : Outcome (Y := Ledger Z Y), worker_ok (fst o) → ∃ k' out, Some (finish_turn n o) = Some (k', out) ∧ worker_ok k') as Hf.
  { intros o Ho. apply (finish_turn_ok n) in Ho. destruct (finish_turn n o) as [k' out]. eauto. }
  destruct c; simpl in Hc |- *.
  - by apply Hf, create_dispatch_ok.
  - by apply Hf, accept_dispatch_ok.
  - by apply Hf, connect_dispatch_ok.
  - apply Hf. unfold wait_dispatch.
    match goal with |- context [match ?x with Ok _ => _ | Err _ => _ end] => destruct x as [[it socket]|] end; [|done].
    by apply wait_started_ok.
  - by apply Hf, route_dispatch_ok.
  - by apply Hf, record_dispatch_ok.
  - by apply Hf, transfer_dispatch_ok.
  - by apply provider_dispatch_ok.
  - by apply collect_cycles_ok.
Qed.

Ltac empty_table :=
  split; simpl; try (apply NoDup_nil_2); try (intros; set_solver); rewrite ?description_max; unfold zlen, MAX_SOCKETS; simpl; lia.

Lemma world_new_ok budget n :
  0 ≤ n → world_ok [] [] (mkWorld (set_accounts <[budget := mkAccounting n 0]> (mkHeap ∅ 1 ∅ [])) streams_new).
Proof.
  intros Hn. split; simpl.
  - split; simpl; try (apply NoDup_nil_2); try (intros; set_solver).
    1-2: rewrite ?description_max; unfold zlen, MAX_SOCKETS; simpl; lia.
    apply graph_ok_empty.
  - split; simpl; try (intros; set_solver).
    + intros p. rewrite lookup_empty. apply not_elem_of_nil.
    + intros p [c Hc]. simplify_map_eq.
    + intros b a. destruct (decide (b = budget)) as [->|]; intros; simplify_map_eq. unfold U64_MAX. lia.
Qed.

Lemma worker_new_ok (y : Ledger Z Y) : balanced [] y → worker_ok (worker_new y).
Proof.
  intros Hy. split; try done; simpl.
  - split; [empty_table|exists []; split; [done|]]. by apply world_new_ok.
  - empty_table.
  - empty_table.
  - empty_table.
  - empty_table.
  - by apply perm_nil.
Qed.

Lemma run_ok l k :
  0 ≤ MAX_DATA_LEN → worker_ok k → Forall (λ '(n, c), call_ok n c) l →
  ∃ k' out, run_turns service_process l k = Some (k', out) ∧ worker_ok k'.
Proof.
  intros H0. revert k. induction l as [|[n c] l IH]; intros k Hk Hl; [by eauto|]. inversion Hl as [|? ? Hc Hl']; subst.
  simpl. destruct (step_ok n c k H0 Hk Hc) as (k1 & out1 & -> & Hk1).
  destruct (IH k1 Hk1 Hl') as (k2 & out2 & -> & Hk2). eauto.
Qed.
(** ** What the invariant says of references and handles *)

(** The references of the socket queues and of the transfers. *)
Definition worker_bundles k : list Bundle := bundles (wr_streams k) ++ stage_bundles (stages (wr_transfers k)).

(** Every reference ever handed over is closed, or is one shared lease, or is
    the source of a transfer: once, in exactly one of them.  A lease exists
    as long as a queue or a transfer holds it, and its count is exact, and so
    is the use of every budget. *)
Definition references_exact k : Prop :=
  let h := heap (wr_world k) in
  wr_adopted k ≡ₚ closed h ++ open_handles h ++ stage_sources (stages (wr_transfers k)) ∧
  (∀ p, p ∈ all_leases [] (worker_bundles k) ↔ is_Some (cells h !! p)) ∧
  (∀ p c, cells h !! p = Some c → owners c = zcount p (all_leases [] (worker_bundles k))) ∧
  (∀ b a, accounts h !! b = Some a → used a = charged_to b (worker_bundles k) ∧ used a ≤ limit a).

(** Files and source handles are owned by one binding, job or route, or are
    closed. *)
Definition handles_exact k : Prop :=
  opened_files (wr_files k) ≡ₚ closed_files (wr_files k) ++ owned_files k ∧
  adopted_handles (wr_sources k) ≡ₚ returned_handles (wr_sources k) ++ owned_sources k.

Lemma worker_references k : worker_ok k → references_exact k ∧ handles_exact k.
Proof.
  intros []. split; [|done]. destruct wo_transfer0 as [_ (A0 & HA & [_ Hh])]. rewrite app_nil_r in Hh.
  destruct Hh. split_and!.
  - rewrite HA, hd_closed. by rewrite <- app_assoc.
  - intros p. specialize (hd_owners p). destruct (cells _ !! p) as [c|].
    + split; [by eexists|]. intros _. apply zcount_elem. unfold worker_bundles, wr_streams. destruct hd_owners as [<- ?]. lia.
    + split; [done|by intros []].
  - intros p c Hc. specialize (hd_owners p). rewrite Hc in hd_owners. apply hd_owners.
  - intros b a Ha. destruct (hd_used _ _ Ha) as (? & ? & ?). done.
Qed.
(** ** Authority *)

(** The kernel vouches for the message: it came from the service, or through
    an endpoint handle, or on behalf of a native object. *)
Definition vouched (c : Call (B := B)) : Prop :=
  match c with
  | Create_call d _ _ _ | Accept_call d _ _ | Connect_call d _ | Wait_call d _ =>
      dl_flags d = IPC_DELIVERY_ENDPOINT_HANDLE ∧ dl_owner d = Some service_process
  | Route_call d _ _ | Record_call d _ _ | Transfer_call d _ _ => dl_flags d = IPC_DELIVERY_ENDPOINT_HANDLE
  | Provider_call _ flags attachments _ => flags = IPC_DELIVERY_NATIVE_OBJECT ∧ attachments = 0
  | Collect_call _ _ _ _ => True
  end.

(** Nothing but the retries at the end of a turn happened. *)
Definition only_pumped (allocs : Z → bool) k k' : Prop :=
  k' = k ∨ k' = fst (pump_connections allocs k) ∨ k' = pump_receivers (fst (pump_connections allocs k)).

Lemma finish_inert n (o : Outcome) k k' out :
  fst o = k → Some (finish_turn n o) = Some (k', out) → only_pumped (tn_each n) k k'.
Proof.
  destruct o as [k0 r]. cbn [fst]. intros <-. unfold finish_turn, pump_all, only_pumped.
  destruct (pump_connections (tn_each n) k0) as [k1 out1]. intros [= <- _]. auto.
Qed.

Lemma from_service_Err d :
  ¬ (dl_flags d = IPC_DELIVERY_ENDPOINT_HANDLE ∧ dl_owner d = Some service_process) → from_service service_process d = Err (-13).
Proof.
  intros H. unfold from_service. destruct (_ && _) eqn:E; [|done]. apply andb_true_iff in E as [E1 E2].
  apply bool_decide_eq_true in E2. destruct H. split; [lia|done].
Qed.

Lemma record_dispatch_unvouched d request alloc created sent b k :
  dl_flags d ≠ IPC_DELIVERY_ENDPOINT_HANDLE → fst (record_dispatch d request alloc created sent b k) = k.
Proof.
  intros H. assert ((dl_flags d =? IPC_DELIVERY_ENDPOINT_HANDLE) = false) as E by lia.
  unfold record_dispatch, send_wait_dispatch, authorize. rewrite E. case_bool_decide; [done|].
  destruct (ensure (zlen _ =? 2) _); [|done]. simpl. destruct (ensure (forallb _ _) _); [|done]. simpl.
  by repeat destruct (ensure _ _).
Qed.

Lemma connect_request_unvouched request flags attachments response (c : Connections Z) (y : Ledger Z Y) :
  ¬ (flags = IPC_DELIVERY_NATIVE_OBJECT ∧ attachments = 0) →
  let '(c', y', _, _) := connect_request request flags attachments response c y in c' = c ∧ y' = y.
Proof.
  intros Hn. unfold connect_request. destruct (provider_decode request) as [[h payload]|]; [|done].
  replace (_ && _ && _) with false by lia. destruct (_ <? _); [done|].
  assert (fst (connect_query h payload flags attachments c y) = (c, y)) as E.
  { unfold connect_query. destruct (negb (flags =? _)) eqn:Ef; [done|]. by destruct (negb (attachments =? 0)) eqn:Ea; [|lia]. }
  destruct (connect_query _ _ _ _ _ _) as [[c' y'] r]. simplify_eq/=. by destruct (provider_encode _ _ _).
Qed.

Lemma provider_dispatch_unvouched request flags attachments response a snapshot alloc allocs k k' out :
  0 ≤ MAX_DATA_LEN → zlen response ≤ RESPONSE_HEADER_LEN + MAX_DATA_LEN → worker_ok k →
  ¬ (flags = IPC_DELIVERY_NATIVE_OBJECT ∧ attachments = 0) →
  provider_dispatch request flags attachments response a snapshot alloc allocs k = Some (k', out) → only_pumped allocs k k'.
Proof.
  intros H0 Hl Hk Hn.
  assert (∀ obs, socket_provider request flags attachments response alloc allocs obs k = Some (k', out) → only_pumped allocs k k') as Hs.
  { intros obs. unfold socket_provider. destruct Hk as [[_ (A0 & _ & Hw)] _ _ _ _ _ _].
    destruct (socket_request_ok A0 _ alloc request flags attachments response _ Hw H0 Hl) as (w & ? & ? & -> & _ & ->); [|lia].
    replace (put_world (wr_world k) k) with k by by destruct k.
    unfold pump_all. destruct (pump_connections allocs k) as [k1 out1] eqn:E. intros [= <- _]. right. right. by rewrite E. }
  assert ((flags =? IPC_DELIVERY_NATIVE_OBJECT) && (attachments =? 0) = false) as Hp by lia.
  unfold provider_dispatch. rewrite Hp. destruct (provider_decode request) as [[h payload]|] eqn:Ed; [|apply Hs].
  unfold transfer_provider, route_provider, wait_request. rewrite Ed. simpl.
  destruct (_ || _); [intros [= <- _]; by left|]. destruct (is_tagged _ _); [intros [= <- _]; by left|].
  destruct (is_tagged _ _); [intros [= <- _]; by left|]. destruct (is_tagged _ _).
  { assert (flags ≠ IPC_DELIVERY_NATIVE_OBJECT ∨ attachments ≠ 0) as [E|E] by lia.
    - replace (flags =? _) with false by lia. intros [= <- _]. left. by destruct k.
    - destruct (negb _); [|replace (attachments =? 0) with false by lia]; intros [= <- _]; left; by destruct k. }
  destruct (negb _); [|apply Hs].
  pose proof (connect_request_unvouched request flags attachments response (wr_connections k) (wr_files k) Hn) as Hc.
  destruct (connect_request _ _ _ _ _ _) as [[[c y] resp] r]. destruct Hc as [-> ->].
  replace (put_files (wr_files k) (put_connections (wr_connections k) k)) with k by by destruct k.
  destruct (pump_connections allocs k) as [k1 out1] eqn:E. intros [= <- _]. right. left. by rewrite E.
Qed.

(** A message the kernel does not vouch for changes nothing. *)
Lemma unvouched_inert n c k k' out :
  0 ≤ MAX_DATA_LEN → worker_ok k → call_ok n c → ¬ vouched c →
  step service_process n c k = Some (k', out) → only_pumped (tn_each n) k k'.
Proof.
  intros H0 Hk Hc Hv. destruct c; simpl in *; try done.
  - apply finish_inert. unfold create_dispatch.
    match goal with |- context [match ?x with Ok _ => _ | Err _ => _ end] => destruct x as [cr|] eqn:E end; [|done].
    inv_result. destruct Hv. split; [lia|by eapply bool_decide_eq_true].
  - apply finish_inert. unfold accept_dispatch. by rewrite (from_service_Err _ Hv).
  - apply finish_inert. unfold connect_dispatch. by rewrite (from_service_Err _ Hv).
  - apply finish_inert. unfold wait_dispatch. by rewrite (from_service_Err _ Hv).
  - apply finish_inert. unfold route_dispatch. by replace (dl_flags d =? _) with false by lia.
  - by apply finish_inert, record_dispatch_unvouched.
  - apply finish_inert. unfold transfer_dispatch. by replace (dl_flags d =? _) with false by lia.
  - by apply provider_dispatch_unvouched.
Qed.
(** ** Accepting a connection *)

(** The accepted connection, and the listener without it. *)
Definition accepted_as (opts : Z) (creds : Z * Z) (q : Endpoint) : Endpoint :=
  set_options opts (set_credentials creds (set_accept_retry None (set_pending_listener None q))).
Definition queued_as (id : Z) (q : Endpoint) : Endpoint := set_accept_retry None (set_id id q).
Definition with_pending (f : list Z → list Z) (s : Listener) (l : Endpoint) : Endpoint :=
  set_listener (Some (mkListener (backlog s) (f (pending s)))) l.

Section accept.
Context (listener i : Z) (st : Streams) (l q : Endpoint) (s : Listener).
Context (Hst : streams_ok st) (Hl : find_endpoint listener (entries st) = Some l) (Hs : ep_listener l = Some s).
Context (Hh : head (pending s) = Some i) (Hq : find_endpoint i (entries st) = Some q).
Context (Hretry : ep_accept_retry q = None) (Hnext : next st ≤ MAX_DESCRIPTION_ID).

Let reserved : Streams := update i (set_accept_retry (Some (next st))) (mkStreams (next st + 1) (entries st)).

Lemma begin_accept_reserves : begin_accept listener st = (reserved, Ok (mkTicket listener i (next st))).
Proof.
  unfold begin_accept, endpoint. rewrite Hl. simpl. rewrite Hs. simpl. rewrite Hh. simpl. rewrite Hq. simpl.
  destruct (gk_listener _ _ (sk_graph _ Hst) listener (link l) s) as (_ & _ & _ & _ & _ & _ & Hp); [by rewrite graph_lookup, Hl|done|].
  destruct (Hp i) as (l' & Hg & Hpl); [by apply head_elem|]. rewrite graph_lookup, Hq in Hg. injection Hg as <-. simpl in Hpl.
  rewrite Hpl, Hretry. rewrite !bool_decide_eq_true_2 by done. simpl. by replace (next st >? _) with false by lia.
Qed.

Lemma reserved_find : i ≠ listener ∧ find_endpoint i (entries reserved) = Some (set_accept_retry (Some (next st)) q) ∧
  find_endpoint listener (entries reserved) = Some l.
Proof.
  assert (i ≠ listener) as Hne.
  { intros ->. rewrite Hl in Hq. injection Hq as <-.
    destruct (gk_listener _ _ (sk_graph _ Hst) listener (link l) s) as (_ & Hn & _ & _ & _ & _ & Hp); [by rewrite graph_lookup, Hl|done|].
    destruct (Hp listener) as (l' & Hg & Hpl); [by apply head_elem|]. rewrite graph_lookup, Hl in Hg. injection Hg as <-. congruence. }
  unfold reserved. simpl. by rewrite find_alter_eq, Hq, find_alter_ne by done.
Qed.
(** Where an abandoned accept leaves the connection. *)
Lemma accept_put_back st2 r :
  abort_accept (mkTicket listener i (next st)) reserved = (st2, r) →
  r = Ok (next st) ∧ quietly st st2 ∧ (i ∉ ids (entries st2)) ∧
  find_endpoint (next st) (entries st2) = Some (queued_as (next st) q) ∧
  find_endpoint listener (entries st2) = Some (with_pending (λ l, next st :: drop 1 l) s l).
Proof.
  intros E. pose proof (begin_accept_spec listener st Hst) as Hb. rewrite begin_accept_reserves in Hb.
  destruct Hb as (Hqt & _ & _ & _ & Hv). pose proof (proj1 Hqt) as Hst1.
  destruct reserved_find as (Hne & Fi & Fl).
  pose proof (abort_accept_spec (mkTicket listener i (next st)) reserved Hst1) as Ha. rewrite E in Ha.
  destruct r as [r|e].
  - destruct Ha as (Hqt2 & -> & _ & _ & Hi & q1 & l1 & s1 & p & Hf & ->). simpl in *.
    pose proof (λ j, put_back_find _ _ _ _ _ _ j Hst1 Hf) as F. pose proof Hf as [F1 F2 F3 _ _ _ _ _ (? & ? & ?) (? & ? & ?)]. simpl in *.
    rewrite Fi in F1. injection F1 as <-. rewrite Fl in F2. injection F2 as <-. rewrite Hs in F3. injection F3 as <-.
    split_and!; [done|by eapply quietly_trans|done| |].
    + rewrite F, !decide_False, decide_True by done. done.
    + rewrite F, decide_False, decide_True by done. unfold set_pending, with_pending. by rewrite Hs.
  - exfalso. revert E. unfold abort_accept. rewrite Hv.
    unfold endpoint, mbind, result_bind. cbn [ticket_endpoint]. rewrite Fi. cbn [ok_or]. by destruct (ep_peer _).
Qed.

Lemma undo_undone : undo_accept (mkTicket listener i (next st)) reserved = fst (abort_accept (mkTicket listener i (next st)) reserved).
Proof. destruct reserved_find as (_ & Fi & _). unfold undo_accept, options, endpoint. cbn [ticket_endpoint]. by rewrite Fi. Qed.
(** Whether the peer's address fits the reply. *)
Definition address_fits : bool :=
  bool_decide (is_Some (snd (address_encode_into (name_address (ep_peer_name q)) (replicate (Z.to_nat MAX_ADDRESS_LEN) 0)))).

Lemma accept_outcome opts creds created sent :
  Z.ldiff opts NONBLOCKING = 0 →
  let '(st', r) := accept_streams listener opts creds created sent st in
  quietly st st' ∧
  if address_fits && (match created with Ok _ => sent | Err _ => false end) then
    r = Ok [listener; i] ∧ find_endpoint i (entries st') = Some (accepted_as opts creds q) ∧
    find_endpoint listener (entries st') = Some (with_pending (drop 1) s l)
  else
    (∃ e, r = Err e) ∧ find_endpoint i (entries st') = None ∧
    find_endpoint (next st) (entries st') = Some (queued_as (next st) q) ∧
    find_endpoint listener (entries st') = Some (with_pending (λ l, next st :: drop 1 l) s l).
Proof.
  intros Ho. pose proof (accept_streams_quietly listener opts creds created sent st Hst) as Hqt. revert Hqt.
  unfold accept_streams. rewrite begin_accept_reserves. cbn [ticket_endpoint].
  destruct reserved_find as (Hne & Fi & Fl).
  destruct (abort_accept (mkTicket listener i (next st)) reserved) as [st2 r2] eqn:Ea.
  pose proof (accept_put_back _ _ Ea) as (-> & _ & Hi & F1 & F2). apply find_endpoint_None in Hi.
  assert (undo_accept (mkTicket listener i (next st)) st2 = st2) as Hu by (unfold undo_accept, options, endpoint; simpl; by rewrite Hi).
  rewrite undo_undone, Ea. simpl.
  assert (∃ p, ep_peer q = Some p) as [p Hp].
  { destruct (gk_listener _ _ (sk_graph _ Hst) listener (link l) s) as (_ & _ & _ & _ & _ & _ & Hp); [by rewrite graph_lookup, Hl|done|].
    destruct (Hp i) as (l' & Hg & Hpl); [by apply head_elem|].
    destruct (gk_queued _ _ (sk_graph _ Hst) _ _ _ Hg Hpl) as [[p Hpe] _]. rewrite graph_lookup, Hq in Hg. injection Hg as <-. by exists p. }
  unfold peer_address, endpoint. rewrite Fi. cbn [ok_or]. unfold mbind, result_bind. cbn [ep_peer set_accept_retry ep_peer_name]. rewrite Hp. cbn [ok_or]. unfold address_fits.
  destruct (snd (address_encode_into _ _)) as [n|]; cbn; [|by eauto 10].
  destruct created as [[]|e]; cbn; [|by eauto 10]. destruct sent; cbn; [|rewrite Hu; by eauto 10].
  pose proof (begin_accept_spec listener st Hst) as Hb. rewrite begin_accept_reserves in Hb. destruct Hb as (_ & _ & _ & _ & Hv).
  unfold commit_accept. rewrite Ho. cbn [negb Z.eqb]. rewrite Hv. cbn [ticket_listener ticket_endpoint fst].
  intros Hqt. split_and!; [done|done| |].
  - rewrite find_update_eq, find_update_ne, Fi by (done || apply set_pending_id). done.
  - rewrite find_update_ne, find_update_eq, Fl by (done || apply set_pending_id). simpl. unfold set_pending. by rewrite Hs.
Qed.
End accept.
(** ** Theorems *)

(** C4: Whatever messages the socket worker serves, with any outcome of
    allocations, native calls and replies, it does not panic and its state
    stays well-formed: the endpoint table with its peers and accept queues,
    the stream and record queues within their capacities, the bindings,
    connection jobs, wait jobs, routes and transfers, and the ownership of
    references, files and handles. *)
Theorem sockets_invariant l (y : Ledger Z Y) :
  0 ≤ MAX_DATA_LEN → balanced [] y → Forall (λ '(n, c), call_ok n c) l →
  ∃ k out, run_turns service_process l (worker_new y) = Some (k, out) ∧ worker_ok k.
Proof. intros H0 Hy Hl. apply run_ok; [done|by apply worker_new_ok|done]. Qed.

Lemma drained k :
  references_exact k → worker_bundles k = [] → stages (wr_transfers k) = [] → wr_adopted k ≡ₚ closed (heap (wr_world k)).
Proof.
  intros (HA & Hc & _) Hb Hs. rewrite HA, Hs. simpl. rewrite Hb in Hc.
  assert (cells (heap (wr_world k)) = ∅) as He.
  { apply map_empty. intros p. apply eq_None_not_Some. rewrite <- Hc. by apply not_elem_of_nil. }
  unfold open_handles. rewrite He, fmap_empty, map_to_list_empty. simpl. by rewrite app_nil_r.
Qed.

(** C3: After any messages to the socket worker, every reference that a transfer
    handed over is closed once, or is one shared lease, or is the source of
    a pending transfer, in exactly one of these; a lease exists exactly
    while a queue or a transfer holds it, with an exact count; the use of
    every budget is what the bundles charge and within its limit; files and
    source handles are owned once or closed; and once no queue and no
    transfer is left, everything handed over has been closed. *)
Theorem references_conserved l (y : Ledger Z Y) k out :
  0 ≤ MAX_DATA_LEN → balanced [] y → Forall (λ '(n, c), call_ok n c) l →
  run_turns service_process l (worker_new y) = Some (k, out) →
  references_exact k ∧ handles_exact k ∧
  (worker_bundles k = [] → stages (wr_transfers k) = [] → wr_adopted k ≡ₚ closed (heap (wr_world k))).
Proof.
  intros H0 Hy Hl Hr. destruct (run_ok l (worker_new y) H0 (worker_new_ok y Hy) Hl) as (k' & out' & E & Hk).
  rewrite Hr in E. injection E as <- _. destruct (worker_references k Hk) as [Hx Hh]. split_and!; [done|done|by apply drained].
Qed.

(** C11: A message that was not sent by the service through an endpoint handle,
    or through an endpoint handle for routes, records and transfers, or by
    the kernel for a native object without attachments, changes nothing in a
    reachable socket worker but the retries at the end of every turn. *)
Theorem messages_authenticated l (y : Ledger Z Y) k out n c :
  0 ≤ MAX_DATA_LEN → balanced [] y → Forall (λ '(n, c), call_ok n c) l →
  run_turns service_process l (worker_new y) = Some (k, out) → call_ok n c → ¬ vouched c →
  ∃ k' out', step service_process n c k = Some (k', out') ∧ only_pumped (tn_each n) k k'.
Proof.
  intros H0 Hy Hl Hr Hc Hv. destruct (run_ok l (worker_new y) H0 (worker_new_ok y Hy) Hl) as (k0 & out0 & E & Hk).
  rewrite Hr in E. injection E as <- _. destruct (step_ok n c k H0 Hk Hc) as (k' & out' & E' & _).
  exists k', out'. split; [done|]. by eapply unvouched_inert.
Qed.

(** The capacity that a socket's queue enforces. *)
Definition enforced_capacity (e : Endpoint) : Z :=
  match ep_records e with Some q => capacity q | None => ep_receive_capacity e end.

(** C40: A record socket accepted from a listener reports the receive capacity
    of the listener, and its queue enforces the full default capacity. *)
Theorem accepted_capacity_ignored alloc client listener cn ln st st' i l :
  streams_ok st → connect_internal alloc client listener cn ln st = (st', Ok i) →
  find_endpoint listener (entries st) = Some l → ep_kind l = SequencedPacket →
  ∃ a, find_endpoint i (entries st') = Some a ∧ ep_receive_capacity a = ep_receive_capacity l ∧
    enforced_capacity a = RECEIVE_CAPACITY.
Proof.
  intros Hst E Hl Hk. pose proof (connect_internal_spec alloc client listener cn ln st Hst) as Hs. rewrite E in Hs.
  destruct Hs as (_ & _ & _ & c & l' & s & Hcb & Ha & _).
  eexists. split; [exact Ha|].
  destruct Hcb as [_ Hl' _ _ _ _ _ _]. rewrite Hl in Hl'. injection Hl' as <-. split; [done|].
  unfold enforced_capacity, queued_endpoint. simpl. by rewrite Hk.
Qed.
(** C17: Accepting the first waiting connection either hands out the endpoint
    that waited, with the options and credentials asked for and the
    connection removed from the queue, or fails and leaves the connection at
    the head of the queue under a new identifier; the address, the native
    object and the reply decide which. *)
Theorem accept_atomic listener i st l q s opts creds created sent :
  streams_ok st → find_endpoint listener (entries st) = Some l → ep_listener l = Some s →
  head (pending s) = Some i → find_endpoint i (entries st) = Some q → ep_accept_retry q = None →
  next st ≤ MAX_DESCRIPTION_ID → Z.ldiff opts NONBLOCKING = 0 →
  let '(st', r) := accept_streams listener opts creds created sent st in
  quietly st st' ∧
  if address_fits q && (match created with Ok _ => sent | Err _ => false end) then
    r = Ok [listener; i] ∧ find_endpoint i (entries st') = Some (accepted_as opts creds q) ∧
    find_endpoint listener (entries st') = Some (with_pending (drop 1) s l)
  else
    (∃ e, r = Err e) ∧ find_endpoint i (entries st') = None ∧
    find_endpoint (next st) (entries st') = Some (queued_as (next st) q) ∧
    find_endpoint listener (entries st') = Some (with_pending (λ l, next st :: drop 1 l) s l).
Proof. intros. by apply accept_outcome. Qed.
End worker_proofs.
