(* ===== verification/SocketExample.v ===== *)
(** * The socket worker on concrete messages

    Instances of the protocol and kernel interfaces, small enough to compute
    with, and a conversation: two connected sockets are created, a reference
    is sent from one to the other with two bytes, received and delivered, and
    everything is released.  The theorems about the worker are applied to
    it. *)

From S2P Require Import Prelude SocketGc SocketProtocol SocketRights SocketStream SocketRecord.
From S2P Require Import Socket SocketGraph SocketTable SocketOps SocketRecordOps SocketBinding SocketObject.
From S2P Require Import SocketConnect SocketReceiveWait SocketRoute SocketTransfer SocketProvider SocketCollect.
From S2P Require Import SocketFlow SocketWorker SocketTheorems.

(** ** Interfaces *)

Definition encode_address (a : Address) : list Z :=
  match a with
  | UnixUnnamed => [0] | UnixPath name => 1 :: name | UnixAbstract name => 2 :: name | Address_other code => [3; code]
  end.
Definition decode_address (l : list Z) : option Address :=
  match l with
  | [0] => Some UnixUnnamed | 1 :: name => Some (UnixPath name) | 2 :: name => Some (UnixAbstract name)
  | [3; code] => Some (Address_other code) | _ => None
  end.

#[export] Instance example_protocol : SocketProtocol := {|
  NONBLOCKING := 2048; MAX_UNIX_NAME_BYTES := 108; MAX_TRANSFERRED_DESCRIPTORS := 253; MAX_RECORD_SIZE := 65536;
  MAX_REPLY_LEN := 16; HANDLE_RIGHT_TRANSFER := 4; HANDLE_RIGHT_ALL := 255; IPC_MAX_OBJECT_HANDLES := 8;
  MAX_DATA_LEN := 16;
  inherited_fd_kind_requires_handle _ := Some true;
  address_encode a := Some (encode_address a);
  address_decode := decode_address;
  request_valid _ := true;
  reply_encode _ _ buffer := (buffer, Some 12);
  transfer_begin length count := (0 <=? length) && (0 <? count) && (count <=? 253);
|}.
#[export] Instance example_codec : SocketCodecLaws.
Proof.
  split; [|by eexists]. intros a bytes [= <-]. by destruct a as [|[]|[]|].
Qed.
#[export] Instance example_nodes : NodeProtocol := {| HANDLE_RIGHT_DUPLICATE := 8; NODE_TYPE_SOCKET := 6 |}.

(** A request is its header followed by its payload. *)
#[export] Instance example_provider : Provider := {|
  provider_decode l :=
    match l with
    | opcode :: object :: basis :: length :: payload => Some (mkProviderRequest opcode object basis length, payload)
    | _ => None
    end;
  provider_encode r data buffer :=
    (blit 0 ([ps_opcode r; ps_object r; ps_status r; ps_value r; ps_length r] ++ data) buffer, Some (5 + zlen data));
  RESPONSE_HEADER_LEN := 5; IPC_DELIVERY_NATIVE_OBJECT := 2;
  PROVIDER_RELEASE := 1; PROVIDER_CONTROL := 2; PROVIDER_MEMORY_OBJECT := 3; PROVIDER_READ := 4; PROVIDER_READ_AT := 5;
  PROVIDER_WRITE := 6; PROVIDER_SEEK := 7; PROVIDER_WRITE_AT := 8; PROVIDER_READ_WITH_POSITION := 9;
  CONTROL_CONNECT_RESULT := 30; CONTROL_CONNECT_EXPIRE := 31;
|}.
#[export] Instance example_controls : SocketControls := {|
  HANDLE_SIGNAL_READABLE := 1; HANDLE_SIGNAL_WRITABLE := 2; HANDLE_SIGNAL_PEER_CLOSED := 4;
  CONTROL_GET_SEND_TIMEOUT := 1; CONTROL_SET_SEND_TIMEOUT := 2;
  CONTROL_GET_RECEIVE_TIMEOUT := 3; CONTROL_SET_RECEIVE_TIMEOUT := 4;
  CONTROL_GET_SEND_CAPACITY := 5; CONTROL_SET_SEND_CAPACITY := 6;
  CONTROL_GET_RECEIVE_CAPACITY := 7; CONTROL_SET_RECEIVE_CAPACITY := 8;
  CONTROL_TAKE_ERROR := 9; CONTROL_KIND := 10; CONTROL_ACCEPTING := 11;
  CONTROL_LOCAL_ADDRESS := 12; CONTROL_PEER_ADDRESS := 13; CONTROL_STAT := 14;
  CONTROL_GET_OPTIONS := 15; CONTROL_SET_OPTIONS := 16; CONTROL_DISCONNECT := 17; CONTROL_SHUTDOWN := 18; CONTROL_READINESS := 19;
  SHUTDOWN_READ := 0; SHUTDOWN_WRITE := 1; SHUTDOWN_BOTH := 2;
  READY_READ := 1; READY_WRITE := 2; READ_CLOSED := 4; WRITE_CLOSED := 8; WRITE_ERROR := 16; ERROR_PENDING := 32;
  ADDRESS_HEADER_LEN := 1; FILE_STATUS_LEN := 2;
  kind_code k := match k with Stream => 1 | Datagram => 2 | SequencedPacket => 5 | Kind_other c => c end;
  address_encode_into a buffer :=
    let bytes := encode_address a in if zlen bytes <=? zlen buffer then (blit 0 bytes buffer, Some (zlen bytes)) else (buffer, None);
  encode_file_status _ buffer := (buffer, Some tt);
|}.
#[export] Instance example_worker : WorkerProtocol := {|
  IPC_DELIVERY_ENDPOINT_HANDLE := 1;
  HANDLE_RIGHT_READ := 16; HANDLE_RIGHT_WRITE := 32; HANDLE_RIGHT_MAP := 64; HANDLE_RIGHT_CONTROL := 128;
  accept_listener_rights := 16; connect_socket_rights := 32;
  socket_rights _ := 32; buffer_rights _ := 80;
  CONTROL_BIND := 20; CONTROL_LISTEN := 21; MAX_ADDRESS_LEN := 16;
|}.

(** Socket nodes by name: every open gives the next handle. *)
Record Nodes := mkNodes { node_handle : Z; node_names : list (list Z * Z) }.
Definition node_of (name : list Z) (y : Nodes) : option Z := snd <$> head (filter (λ p, p.1 = name) (node_names y)).
#[export] Instance example_files : Filesystem Z Nodes := {|
  create_socket name y :=
    match node_of name y with
    | Some _ => (y, Err (-17))
    | None =>
        let id := zlen (node_names y) + 1 in
        (mkNodes (node_handle y + 1) (node_names y ++ [(name, id)]),
         Ok (mkOpened (node_handle y) NODE_RIGHTS, mkStatus NODE_TYPE_SOCKET id 1 1))
    end;
  open_socket name y :=
    match node_of name y with
    | None => (y, Err (-2))
    | Some id => (mkNodes (node_handle y + 1) (node_names y), Ok (mkOpened (node_handle y) NODE_RIGHTS, mkStatus NODE_TYPE_SOCKET id 1 1))
    end;
  close_file _ y := y;
|}.
#[export] Instance example_buffer : RecordBuffer (list Z) := {|
  extent b := Ok (zlen b);
  buffer_read offset length b := (b, Ok (slice (Z.to_nat offset) (Z.to_nat length) b));
  buffer_write offset data b := (blit (Z.to_nat offset) data b, Ok tt);
|}.

(** ** A conversation *)

Definition no_files : Ledger Z Nodes := mkLedger (mkNodes 100 []) [] [].
Definition SERVICE : Z := 7.

(** Every allocation, creation and reply succeeds. *)
Definition quiet_turn : Turn := mkTurn (true, true, true) (λ _, true) (Ok tt) (Ok tt) (Ok tt) (replicate 21 0).
Definition sent_with (items : list Item) : Delivery := mkDelivery IPC_DELIVERY_ENDPOINT_HANDLE (Some SERVICE) items.
Definition example_call : Type := Turn * Call (B := list Z).
Definition turn (c : Call (B := list Z)) : example_call := (quiet_turn, c).

Definition pair_up (k : Kind) : example_call :=
  turn (Create_call (sent_with []) true (mkCreate Unix k 0 0) (Ok (1000, 1000))).
Definition transfer_on (items : list Item) (r : TransferRequest) (b : list Z) : example_call :=
  turn (Transfer_call (sent_with items) r b).
Definition release_object (object : Z) : example_call :=
  turn (Provider_call [PROVIDER_RELEASE; object; 0; 0] IPC_DELIVERY_NATIVE_OBJECT 0 None).
Definition write_object (object : Z) (data : list Z) : example_call :=
  turn (Provider_call ([PROVIDER_WRITE; object; 0; 0] ++ data) IPC_DELIVERY_NATIVE_OBJECT 0 None).

(** Handle 51 is sent over sockets 1 and 2 with the bytes 10 and 20. *)
Definition sending : list example_call := [
  pair_up Stream;
  transfer_on [mkItem 50 0 32 (Ok 1)] (Begin_request 2 1) [];
  transfer_on [mkItem 60 0 128 (Ok (TRANSFER_TAG + 1)); mkItem 51 0 4 (Ok 9)]
    (Append_request 0 1 [Some (mkMetadata 1 0 0)]) [];
  transfer_on [mkItem 61 0 128 (Ok (TRANSFER_TAG + 1)); mkItem 62 0 80 (Ok 0)] (Commit_request 0) [10; 20]].
Definition receiving : list example_call := [
  transfer_on [mkItem 63 0 16 (Ok 2); mkItem 64 0 96 (Ok 0)] (Receive_request false 0 16 8) (replicate 16 0);
  transfer_on [mkItem 65 0 128 (Ok (TRANSFER_TAG + 2))] (Deliver_request 0 8) []].
Definition releasing_all : list example_call :=
  [release_object (TRANSFER_TAG + 1); release_object (TRANSFER_TAG + 2); release_object 1; release_object 2].
Definition conversation : list example_call := sending ++ receiving ++ releasing_all.

(** The worker after some messages, and the signals it raised. *)
Definition after (l : list example_call) : Worker (Ledger Z Nodes) :=
  match run_turns SERVICE l (worker_new no_files) with Some (k, _) => k | None => worker_new no_files end.
Definition raised (l : list example_call) : list (Z * Z * Z) :=
  match run_turns SERVICE l (worker_new no_files) with Some (_, out) => out | None => [] end.
Definition calls_ok (l : list example_call) : Prop := Forall (λ '(n, c), call_ok n c) l.

Lemma no_files_balanced : balanced [] no_files.
Proof. exact (perm_nil Z). Qed.
Lemma after_ok l :
  calls_ok l → run_turns SERVICE l (worker_new no_files) = Some (after l, raised l) ∧ worker_ok (after l).
Proof.
  intros H. destruct (run_ok SERVICE l (worker_new no_files)) as (k & out & E & Hk); [by simpl|apply worker_new_ok, no_files_balanced|done|].
  unfold after, raised. by rewrite E.
Qed.
Lemma after_streams l : calls_ok l → streams_ok (wr_streams (after l)).
Proof. intros H. by apply streams_of, after_ok. Qed.
Lemma after_world l :
  calls_ok l → ∃ A, world_ok A (stage_bundles (stages (wr_transfers (after l))) ++ []) (wr_world (after l)).
Proof. intros [_ []]%after_ok. destruct wo_transfer as [_ (A & _ & Hw)]. by exists A. Qed.

Ltac calls_are_ok :=
  repeat (apply Forall_cons_2; [simpl; first [done | lia | (split; lia) | by intros []; [eexists|lia] | by intros [|[]] ?; [eexists|lia..] ]|]);
  apply Forall_nil_2.
Lemma conversation_ok : calls_ok conversation.
Proof. calls_are_ok. Qed.

(** ** The theorems on it *)

Lemma sockets_invariant_witness :
  (∃ k out, run_turns SERVICE conversation (worker_new no_files) = Some (k, out) ∧ worker_ok k) ∧
  raised conversation = [(1, 2, 5); (2, 2, 5); (1, 2, 5); (2, 3, 4); (2, 2, 5); (1, 2, 5); (2, 7, 0); (2, 7, 0)].
Proof.
  split; [|vm_compute; reflexivity].
  apply (sockets_invariant SERVICE conversation no_files); [by simpl|exact no_files_balanced|exact conversation_ok].
Defined.

Lemma references_conserved_witness :
  references_exact (after conversation) ∧ handles_exact (after conversation) ∧
  wr_adopted (after conversation) ≡ₚ closed (heap (wr_world (after conversation))) ∧
  wr_adopted (after conversation) = [(0, 63); (0, 51); (0, 50)].
Proof.
  destruct (references_conserved SERVICE conversation no_files (after conversation) (raised conversation))
    as (H1 & H2 & H3); [by simpl|exact no_files_balanced|exact conversation_ok|apply after_ok, conversation_ok|].
  split; [done|split; [done|split; [|vm_compute; reflexivity]]]. apply H3; vm_compute; reflexivity.
Defined.

(** Another process asks for the reference. *)
Definition forged : example_call :=
  (quiet_turn, Transfer_call (mkDelivery IPC_DELIVERY_NATIVE_OBJECT (Some 9) [mkItem 63 0 16 (Ok 2); mkItem 64 0 96 (Ok 0)])
                 (Receive_request false 0 16 8) (replicate 16 0)).
Lemma sending_ok : calls_ok sending.
Proof. calls_are_ok. Qed.
Lemma messages_authenticated_witness :
  ∃ k' out', step SERVICE (fst forged) (snd forged) (after sending) = Some (k', out') ∧
    only_pumped (tn_each (fst forged)) (after sending) k'.
Proof.
  apply (messages_authenticated SERVICE sending no_files (after sending) (raised sending));
    [by simpl|exact no_files_balanced|exact sending_ok|apply after_ok, sending_ok|by split|by intros H].
Defined.

(** ** A listener *)

Definition control_object (object basis : Z) (data : list Z) (a : option Address) : example_call :=
  turn (Provider_call ([PROVIDER_CONTROL; object; basis; 0] ++ data) IPC_DELIVERY_NATIVE_OBJECT 0 a).
Definition create_one (k : Kind) : example_call :=
  turn (Create_call (sent_with []) false (mkCreate Unix k 0 0) (Ok (1000, 1000))).
Definition connect_to (client : Z) (path : list Z) : example_call :=
  turn (Connect_call (sent_with [mkItem 70 0 32 (Ok client)]) (UnixPath path)).

(** Socket 1 listens under the name 47 for one connection; socket 2
    connects as socket 3 and socket 4 waits. *)
Definition listening (k : Kind) : list example_call := [
  create_one k; control_object 1 CONTROL_BIND [] (Some (UnixPath [47])); control_object 1 CONTROL_LISTEN [1; 0; 0; 0] None;
  create_one k; connect_to 2 [47]].
Definition crowding : list example_call := listening Stream ++ [create_one Stream; connect_to 4 [47]].
Lemma listening_ok k : calls_ok (listening k).
Proof. calls_are_ok. Qed.
Lemma crowding_ok : calls_ok crowding.
Proof. calls_are_ok. Qed.

(** The table at that point. *)
Definition listening_streams : Streams := Eval vm_compute in wr_streams (after (listening Stream)).
Lemma listening_streams_ok : streams_ok listening_streams.
Proof.
  assert (listening_streams = wr_streams (after (listening Stream))) as -> by (vm_compute; reflexivity).
  apply after_streams, listening_ok.
Qed.
Definition endpoint_at (i : nat) (st : Streams) : Endpoint :=
  default (fresh_endpoint 0 Stream None (0, 0) 0) (entries st !! i).

(** Process 7 accepts socket 3. *)
Lemma accept_atomic_witness :
  let '(st', r) := accept_streams 1 NONBLOCKING (7, 7) (Ok tt) true listening_streams in
  quietly listening_streams st' ∧ r = Ok [1; 3] ∧
  find_endpoint 3 (entries st') = Some (accepted_as NONBLOCKING (7, 7) (endpoint_at 2 listening_streams)).
Proof.
  pose proof (accept_atomic 1 3 listening_streams (endpoint_at 0 listening_streams) (endpoint_at 2 listening_streams)
    (mkListener 1 [3]) NONBLOCKING (7, 7) (Ok tt) true listening_streams_ok eq_refl eq_refl eq_refl eq_refl eq_refl) as H.
  destruct (accept_streams 1 NONBLOCKING (7, 7) (Ok tt) true listening_streams) as [st' r].
  destruct H as (H & Hr & H' & _); [by vm_compute|reflexivity|]. done.
Defined.


(** A record sequence socket that reports 4096 bytes accepts 65536. *)
Definition small_listener : list example_call := [
  create_one SequencedPacket; control_object 1 CONTROL_BIND [] (Some (UnixPath [47]));
  control_object 1 CONTROL_SET_RECEIVE_CAPACITY [0; 16; 0; 0] None;
  control_object 1 CONTROL_LISTEN [1; 0; 0; 0] None; create_one SequencedPacket].
Lemma small_listener_ok : calls_ok small_listener.
Proof. calls_are_ok. Qed.
Definition small_streams : Streams := Eval vm_compute in wr_streams (after small_listener).
Lemma small_streams_ok : streams_ok small_streams.
Proof.
  assert (small_streams = wr_streams (after small_listener)) as -> by (vm_compute; reflexivity).
  apply after_streams, small_listener_ok.
Qed.
Lemma accepted_capacity_ignored_witness :
  ∃ a, find_endpoint 3 (entries (fst (connect_internal true 2 1 None None small_streams))) = Some a ∧
    ep_receive_capacity a = 4096 ∧ enforced_capacity a = 65536.
Proof.
  destruct (accepted_capacity_ignored true 2 1 None None small_streams
    (fst (connect_internal true 2 1 None None small_streams)) 3 (endpoint_at 0 small_streams)
    small_streams_ok eq_refl eq_refl eq_refl) as (a & Ha & H1 & H2).
  exists a. split; [done|]. rewrite H1, H2. split; reflexivity.
Defined.

(** ** Two connected sockets *)

Definition paired_streams : Streams := Eval vm_compute in wr_streams (after [pair_up Stream]).
Lemma pair_ok k : calls_ok [pair_up k].
Proof. calls_are_ok. Qed.
Lemma paired_streams_ok : streams_ok paired_streams.
Proof.
  assert (paired_streams = wr_streams (after [pair_up Stream])) as -> by (vm_compute; reflexivity).
  apply after_streams, pair_ok.
Qed.
Definition paired_world : World := mkWorld (mkHeap ∅ 1 ∅ []) paired_streams.
Definition one_right : Bundle := mkBundle [1] (mkCharge 0 1).
(** A read returns at most one reference: it ends before the next one. *)
Definition exchange : list Flow :=
  [Flow_write true [10]; Flow_send true [20; 30] one_right; Flow_send true [40] one_right; Flow_read 8; Flow_read 8; Flow_read 8].
Definition exchanged : list Flow_result :=
  [Accepted (Ok 1); Accepted (Ok 2); Accepted (Ok 1); Delivered [10; 20; 30] (Some one_right); Delivered [40] (Some one_right);
   Refused (-11)].

Lemma paired_carries : carries 1 2 65536 [] paired_world.
Proof.
  split; [exact paired_streams_ok|].
  exists (endpoint_at 0 paired_streams), (endpoint_at 1 paired_streams). split_and!; try reflexivity. discriminate.
Qed.
Lemma stream_refines_witness :
  let '(w', rs) := run_flow 1 2 exchange paired_world in
  rs = exchanged ∧
  carries 1 2 65536 [] w'.
Proof.
  pose proof (stream_refines 1 2 65536 exchange [] paired_world paired_carries) as H.
  destruct (run_flow 1 2 exchange paired_world) as [w' rs].
  assert (run_conduit 65536 exchange [] = ([], exchanged)) as Hc by (vm_compute; reflexivity).
  rewrite Hc in H. destruct H as (H1 & H2 & _); [|done].
  intros alloc data rights Hin. unfold exchange in Hin.
  repeat (apply elem_of_cons in Hin as [Hin|Hin]; [try discriminate Hin; injection Hin as -> -> ->; reflexivity|]).
  by apply elem_of_nil in Hin.
Defined.

(** ** A connection that waited *)

Definition crowded : Worker (Ledger Z Nodes) := Eval vm_compute in after crowding.
Lemma crowded_ok : worker_ok crowded.
Proof.
  assert (crowded = after crowding) as -> by (vm_compute; reflexivity). apply after_ok, crowding_ok.
Qed.
(** Socket 3 is accepted, and socket 4 connects as socket 6: the acceptance reserved 5. *)
Definition uncrowded : Streams := Eval vm_compute in fst (accept_streams 1 0 (7, 7) (Ok tt) true (wr_streams crowded)).
Lemma uncrowded_ok : streams_ok uncrowded.
Proof.
  pose proof (accept_outcome 1 3 (wr_streams crowded) (endpoint_at 0 (wr_streams crowded)) (endpoint_at 2 (wr_streams crowded))
    (mkListener 1 [3]) (streams_of _ crowded_ok) eq_refl eq_refl eq_refl eq_refl eq_refl) as H.
  specialize (H ltac:(by vm_compute) 0 (7, 7) (Ok tt) true eq_refl).
  assert (fst (accept_streams 1 0 (7, 7) (Ok tt) true (wr_streams crowded)) = uncrowded) as E by (vm_compute; reflexivity).
  destruct (accept_streams 1 0 (7, 7) (Ok tt) true (wr_streams crowded)) as [st r]. simpl in E. subst st.
  by destruct H as [[] _].
Qed.
Lemma connections_served_witness :
  let '(c', st', y', finished) := pump (λ _, true) (wr_bindings crowded) (wr_connections crowded) uncrowded (wr_files crowded) in
  finished = [(1, 4, Ok (1, 6))] ∧ connections_ok c' ∧ quietly uncrowded st'.
Proof.
  destruct (pump (λ _, true) (wr_bindings crowded) (wr_connections crowded) uncrowded (wr_files crowded))
    as [[[c' st'] y'] finished] eqn:E.
  pose proof (connections_served (λ _, true) (wr_bindings crowded) (wr_connections crowded) uncrowded (wr_files crowded)
    (bound_file <$> wr_bindings crowded) (wo_connections _ crowded_ok) uncrowded_ok) as H.
  rewrite E in H. destruct H as (H1 & H2 & _).
  - pose proof (wo_files _ crowded_ok) as Hf. unfold balanced in *. rewrite Hf. apply Permutation_app_head.
    apply (Permutation_swap 102 100 []).
  - split; [|done]. vm_compute in E. injection E as _ _ _ <-.
    reflexivity.
Defined.

(** ** A cycle *)

(** Handle 51 refers to socket 2, in whose queue it is; there is no other
    reference to socket 2. *)
Definition sent_world : World := Eval vm_compute in wr_world (after sending).
Definition identify_51 (h : Z) : result Z (option Z) := Ok (if h =? 51 then Some 2 else None).
Definition counted (i : Z) : result Z Z := if i =? 3 then Err (-11) else Ok 1.
Lemma sent_world_ok : ∃ A, world_ok A [] sent_world.
Proof.
  assert (sent_world = wr_world (after sending)) as -> by (vm_compute; reflexivity).
  destruct (after_world sending sending_ok) as [A H]. exists A. by vm_compute in H |- *.
Qed.
Lemma cycles_collected_witness :
  match collect identify_51 counted (λ _, true) true (λ _, true) sent_world with
  | Some (w', Ok g) => g = [2] ∧ collected [2] (streams sent_world) (streams w') ∧ closed (heap w') = [(0, 51)]
  | _ => False
  end.
Proof.
  destruct sent_world_ok as [A HA].
  pose proof (cycles_collected identify_51 counted A [] (λ _, true) true (λ _, true) sent_world HA) as H.
  destruct (collect identify_51 counted (λ _, true) true (λ _, true) sent_world) as [[w' r]|] eqn:E; [|done].
  vm_compute in E. injection E as <- <-. destruct H as (_ & H & _). split; [done|split; [done|reflexivity]].
Defined.

(** Socket 3 waits to be accepted and has no native object. *)
Definition stalling : list example_call := listening Stream ++ [
  transfer_on [mkItem 50 0 32 (Ok 2)] (Begin_request 2 1) [];
  transfer_on [mkItem 60 0 128 (Ok (TRANSFER_TAG + 1)); mkItem 51 0 4 (Ok 9)]
    (Append_request 0 1 [Some (mkMetadata 1 0 0)]) [];
  transfer_on [mkItem 61 0 128 (Ok (TRANSFER_TAG + 1)); mkItem 62 0 80 (Ok 0)] (Commit_request 0) [10; 20]].
Definition stalled_world : World := Eval vm_compute in wr_world (after stalling).
Lemma collection_stalled_witness :
  ∃ e, collect identify_51 counted (λ _, true) true (λ _, true) stalled_world = Some (stalled_world, Err e).
Proof.
  apply (collection_stalled identify_51 counted (λ _, true) true (λ _, true) stalled_world [(3, 2)] 3);
    [reflexivity| |reflexivity|discriminate].
  vm_compute. do 2 right. left.
Defined.

(** ** A transfer that is ready *)

Definition ready : Worker (Ledger Z Nodes) := Eval vm_compute in after (take 3 sending).
Lemma ready_ok : worker_ok ready.
Proof.
  assert (ready = after (take 3 sending)) as -> by (vm_compute; reflexivity).
  apply after_ok. apply Forall_take, sending_ok.
Qed.
