(* ===== verification/RecordLockWait.v ===== *)
(** * Blocking record-lock requests

    Models [posix/src/record_lock_wait.rs] on top of [RecordLock]: the table
    of pending requests, the deadlock test and the service entry points that
    begin, retry and cancel a wait.  Of [PosixService] the model keeps what
    these functions touch: the sessions, the processes, the wait states, the
    lock registry, the pending requests and the policy pages' lock hints
    ([posix/src/resource_policy.rs]).

    [STATUS_ESRCH] is a constant of the protocol crate and a parameter.  A
    reply closure [FnOnce() -> bool] is a function of the service state at the
    time of the call, so that what it can observe is visible. *)

From Stdlib Require Import Sorted Permutation.
From stdpp Require Import relations.
From S2P Require Import Prelude RecordLock Reach.

Definition MAX_WAITERS : Z := 1024.
Definition MAX_WAITERS_PER_PROCESS : Z := 128.

(** ** Sorted owner table *)

Fixpoint insertZ (x : Z) (l : list Z) : list Z :=
  match l with
  | [] => [x]
  | y :: l => if x <=? y then x :: y :: l else y :: insertZ x l
  end.
(** [sort_unstable] on [u64]. *)
Fixpoint sortZ (l : list Z) : list Z :=
  match l with [] => [] | x :: l => insertZ x (sortZ l) end.

(** The in-place loop that keeps the first of equal neighbours; [acc] is
    [owners[..unique]], last element first. *)
Definition unique_step (acc : list Z) (x : Z) : list Z :=
  match acc with
  | y :: _ => if y =? x then acc else x :: acc
  | [] => [x]
  end.
Definition uniqueZ (l : list Z) : list Z := reverse (fold_left unique_step l []).

(** [owners.binary_search(&x)] on a sorted slice without duplicates. *)
Definition binary_search (owners : list Z) (x : Z) : option nat :=
  fst <$> list_find (λ y, y = x) owners.

Lemma insertZ_perm x l : insertZ x l ≡ₚ x :: l.
Proof.
  induction l as [|y l IH]; simpl; [done|].
  destruct (x <=? y); [done|]. rewrite IH. apply perm_swap.
Qed.
Lemma sortZ_perm l : sortZ l ≡ₚ l.
Proof. induction l as [|x l IH]; simpl; [done|]. by rewrite insertZ_perm, IH. Qed.
Lemma sortZ_sorted l : StronglySorted Z.le (sortZ l).
Proof.
  induction l as [|x k IH]; simpl; [constructor|].
  induction IH as [|y l Hs IH Hall]; simpl; [by repeat constructor|].
  destruct (x <=? y) eqn:E.
  - constructor; [by constructor|]. constructor; [lia|].
    rewrite Forall_forall in *. intros z Hz. specialize (Hall z Hz). lia.
  - constructor; [done|]. rewrite insertZ_perm. constructor; [lia|done].
Qed.

Lemma unique_fold l acc :
  StronglySorted Z.gt acc → StronglySorted Z.le l → (∀ a x, a ∈ acc → x ∈ l → a ≤ x) →
  let out := fold_left unique_step l acc in
  StronglySorted Z.gt out ∧ ∀ x, x ∈ out ↔ x ∈ acc ∨ x ∈ l.
Proof.
  revert acc. induction l as [|x l IH]; intros acc Ha Hl Hc; simpl; [set_solver|].
  apply StronglySorted_inv in Hl as [Hl Hx]. rewrite Forall_forall in Hx.
  destruct acc as [|y acc]; simpl.
  - destruct (IH [x]) as [H1 H2]; [by repeat constructor|done|set_solver|].
    split; [done|]. intros z. rewrite H2. set_solver.
  - destruct (y =? x) eqn:E.
    + destruct (IH (y :: acc)) as [H1 H2]; [done..|set_solver|]. split; [done|].
      intros z. rewrite H2. apply Z.eqb_eq in E as ->. set_solver.
    + destruct (IH (x :: y :: acc)) as [H1 H2]; [|done| |].
      * apply StronglySorted_inv in Ha as Ha'. destruct Ha' as [_ Hy]. rewrite Forall_forall in Hy.
        constructor; [done|]. apply Forall_forall. intros z Hz.
        pose proof (Hc y x ltac:(by left) ltac:(by left)).
        apply elem_of_cons in Hz as [->|Hz]; [lia|]. specialize (Hy z Hz). lia.
      * intros a z [->|Ha']%elem_of_cons Hz; [auto|]. apply Hc; [done|by right].
      * split; [done|]. intros z. rewrite H2. set_solver.
Qed.

Lemma uniqueZ_spec l :
  StronglySorted Z.le l → NoDup (uniqueZ l) ∧ ∀ x, x ∈ uniqueZ l ↔ x ∈ l.
Proof.
  intros Hl. destruct (unique_fold l []) as [H1 H2]; [constructor|done|set_solver|].
  unfold uniqueZ. split.
  - rewrite reverse_Permutation. clear -H1. induction H1 as [|x k Hs IH Hx]; [constructor|].
    constructor; [|done]. rewrite Forall_forall in Hx. intros Hin. specialize (Hx x Hin). lia.
  - intros x. rewrite elem_of_reverse, H2. set_solver.
Qed.

Lemma binary_search_spec owners x i :
  NoDup owners → binary_search owners x = Some i ↔ owners !! i = Some x.
Proof.
  intros Hd. unfold binary_search. split.
  - destruct (list_find _ owners) as [[j y]|] eqn:E; [|done]. intros [= <-].
    by apply list_find_Some in E as (? & -> & _).
  - intros Hi. destruct (list_find (λ y, y = x) owners) as [[j y]|] eqn:E; simpl.
    + apply list_find_Some in E as (? & -> & _). f_equal. by eapply NoDup_lookup.
    + apply list_find_None in E. rewrite Forall_forall in E.
      destruct (E x); [by eapply list_elem_of_lookup_2|done].
Qed.

Lemma binary_search_is_some owners x : x ∈ owners → ∃ i, binary_search owners x = Some i.
Proof.
  intros Hx. unfold binary_search. destruct (list_find (λ y, y = x) owners) as [[j y]|] eqn:E.
  - by exists j.
  - apply list_find_None in E. rewrite Forall_forall in E. by destruct (E x Hx).
Qed.

Section Wait.
Context {LK : LockKind} (STATUS_ESRCH : Z).

Inductive Outcome := Acquired | OutcomePending (token : Z).
Inductive Completion := Pending (token : Z) | Replied | Undelivered.

(** [struct Request]. *)
Record WaitRequest := mkWaitRequest {
  w_owner : Z;
  revision : Z;
  w_file : FileKey;
  w_kind : Kind;
  w_range : Range;
  token : Z;
}.

(** [struct Waits]. *)
Record Waits := mkWaits { w_entries : list WaitRequest; next : Z }.

Definition waits_has_owner (w : Waits) (o : Z) : bool :=
  existsb (λ e, w_owner e =? o) (w_entries w).
Definition waits_has_file (w : Waits) (f : FileKey) : bool :=
  existsb (λ e, bool_decide (w_file e = f)) (w_entries w).
Definition waits_retire_owner (w : Waits) (o : Z) : Waits :=
  mkWaits (List.filter (λ e, negb (w_owner e =? o)) (w_entries w)) (next w).

(** ** [Waits::deadlocks] *)

(** The owners that [for_each_blocker] visits for a request. *)
Definition blocking_owners (locks : list Lock) (r : WaitRequest) : list Z :=
  map owner (blockers locks (w_owner r) (w_file r) (w_kind r) (w_range r)).

Record Search := mkSearch { seen : list bool; queue : list nat; cycle : bool }.

(** The closure passed to [for_each_blocker]. *)
Definition inspect_blocker (owners : list Z) (candidate_owner : Z) (s : Search) (blocker : Z)
    : Search :=
  if blocker =? candidate_owner then mkSearch (seen s) (queue s) true
  else match binary_search owners blocker with
       | Some index =>
           let '(seen', queue') := mark (seen s) (queue s) [index] in
           mkSearch seen' queue' (cycle s)
       | None => s
       end.
Definition inspect (locks : list Lock) (owners : list Z) (candidate_owner : Z) (s : Search)
    (r : WaitRequest) : Search :=
  fold_left (inspect_blocker owners candidate_owner) (blocking_owners locks r) s.

(** The requests inspected for one dequeued owner. *)
Definition requests_of (entries : list WaitRequest) (candidate : WaitRequest) (o : Z)
    : list WaitRequest :=
  (if o =? w_owner candidate then [candidate] else []) ++
  List.filter (λ e, w_owner e =? o) entries.

(** [while head < tail]; [None] is an index out of bounds or out of fuel. *)
Fixpoint search_loop (fuel : nat) (locks : list Lock) (entries : list WaitRequest)
    (candidate : WaitRequest) (owners : list Z) (head : nat) (s : Search) : option bool :=
  match queue s !! head with
  | None => Some false
  | Some index =>
      match fuel, owners !! index with
      | S fuel, Some o =>
          let s := fold_left (inspect locks owners (w_owner candidate))
                     (requests_of entries candidate o) (mkSearch (seen s) (queue s) false) in
          if cycle s then Some true
          else search_loop fuel locks entries candidate owners (S head) s
      | _, _ => None
      end
  end.

Definition wait_owners (entries : list WaitRequest) (candidate : WaitRequest) : list Z :=
  uniqueZ (sortZ (map w_owner entries ++ [w_owner candidate])).

Definition deadlocks (w : Waits) (candidate : WaitRequest) (locks : list Lock) : option bool :=
  let owners := wait_owners (w_entries w) candidate in
  root ← binary_search owners (w_owner candidate);
  search_loop (length owners) locks (w_entries w) candidate owners 0
    (mkSearch (<[root := true]> (replicate (length owners) false)) [root] false).

Definition count_waits (o : Z) (entries : list WaitRequest) : Z :=
  zlen (List.filter (λ e, w_owner e =? o) entries).

Definition with_token (r : WaitRequest) (t : Z) : WaitRequest :=
  mkWaitRequest (w_owner r) (revision r) (w_file r) (w_kind r) (w_range r) t.

(** [Waits::enqueue]. *)
Definition enqueue (alloc : bool) (w : Waits) (request : WaitRequest) (locks : list Lock)
    : Waits * result Z Z :=
  if (zlen (w_entries w) >=? MAX_WAITERS) ||
     (count_waits (w_owner request) (w_entries w) >=? MAX_WAITERS_PER_PROCESS) ||
     (next w =? U64_MAX)
  then (w, Err (-37))
  else
    match deadlocks w request locks with
    | Some false =>
        if negb alloc then (w, Err (-37))
        else (mkWaits (w_entries w ++ [with_token request (next w)]) (next w + 1), Ok (next w))
    | _ => (w, Err (-35))
    end.

(** ** The service *)

Record WaitState := mkWaitState { exit_observed : bool; observed_image_revision : Z }.

Record LockService := mkLockService {
  sessions : gset Z;
  processes : gset Z;
  process_wait_states : gmap Z WaitState;
  record_locks : list Lock;
  record_lock_waits : Waits;
  resource_policies : list (Z * bool);
}.

Definition with_locks (s : LockService) (l : list Lock) : LockService :=
  mkLockService (sessions s) (processes s) (process_wait_states s) l
    (record_lock_waits s) (resource_policies s).
Definition with_waits (s : LockService) (w : Waits) : LockService :=
  mkLockService (sessions s) (processes s) (process_wait_states s) (record_locks s)
    w (resource_policies s).
Definition with_policies (s : LockService) (p : list (Z * bool)) : LockService :=
  mkLockService (sessions s) (processes s) (process_wait_states s) (record_locks s)
    (record_lock_waits s) p.

(** [PosixService::record_locks]: the admission test. *)
Definition admitted (s : LockService) (pid : Z) : bool :=
  bool_decide (pid ∈ sessions s) && bool_decide (pid ∈ processes s) &&
  match process_wait_states s !! pid with
  | Some st => negb (exit_observed st)
  | None => false
  end.

(** [process_wait_states[&pid].observed_image_revision], after admission. *)
Definition observed_revision (s : LockService) (pid : Z) : Z :=
  match process_wait_states s !! pid with
  | Some st => observed_image_revision st
  | None => 0
  end.

(** [publish_record_lock_hint]: the first page registered for the owner. *)
Fixpoint set_hint (o : Z) (held : bool) (pages : list (Z * bool)) : list (Z * bool) :=
  match pages with
  | [] => []
  | (id, h) :: pages => if id =? o then (id, held) :: pages else (id, h) :: set_hint o held pages
  end.
Definition publish_record_lock_hint (s : LockService) (o : Z) (held : bool) : LockService :=
  with_policies s (set_hint o held (resource_policies s)).
Definition publish_record_lock_state (s : LockService) (o : Z) : LockService :=
  publish_record_lock_hint s o (has_owner (record_locks s) o).

(** [commit_record_lock_reply]. *)
Definition commit_record_lock_reply (s : LockService) (o : Z) (prepared : list Lock)
    (reply : LockService → bool) : LockService * Completion :=
  let s := publish_record_lock_hint s o true in
  if negb (reply s) then (publish_record_lock_state s o, Undelivered)
  else
    let s := with_locks s (commit_set (record_locks s) prepared) in
    (publish_record_lock_state s o, Replied).

(** [begin_record_lock_wait_with_reply]; [alloc] are the outcomes of the two
    reservations. *)
Definition begin_record_lock_wait_with_reply (alloc : bool * bool) (s : LockService) (pid : Z)
    (f : FileKey) (k : Kind) (r : Range) (reply : LockService → bool)
    : LockService * result Z Completion :=
  if negb (admitted s pid) then (s, Err STATUS_ESRCH)
  else
    match prepare_set alloc.1 (record_locks s) pid f k r with
    | Ok prepared =>
        let '(s, c) := commit_record_lock_reply s pid prepared reply in (s, Ok c)
    | Err (WouldBlock _) =>
        let request := mkWaitRequest pid (observed_revision s pid) f k r 0 in
        let '(w, res) := enqueue alloc.2 (record_lock_waits s) request (record_locks s) in
        (with_waits s w, Pending <$> res)
    | Err e => (s, Err (lock_status e))
    end.

(** [record_lock_wait_index]. *)
Definition record_lock_wait_index (s : LockService) (pid t : Z) : result Z nat :=
  if negb (admitted s pid) then Err STATUS_ESRCH
  else
    ok_or STATUS_ESRCH
      (fst <$> list_find (λ e, w_owner e = pid ∧ revision e = observed_revision s pid ∧ token e = t)
                 (w_entries (record_lock_waits s))).

Definition remove_wait (s : LockService) (index : nat) : LockService :=
  with_waits s (mkWaits (delete index (w_entries (record_lock_waits s)))
                        (next (record_lock_waits s))).

(** [retry_record_lock_wait_with_reply]. *)
Definition retry_record_lock_wait_with_reply (alloc : bool) (s : LockService) (pid t : Z)
    (reply : LockService → bool) : LockService * result Z Completion :=
  match record_lock_wait_index s pid t with
  | Err e => (s, Err e)
  | Ok index =>
      match w_entries (record_lock_waits s) !! index with
      | None => (s, Err STATUS_ESRCH)
      | Some entry =>
          match prepare_set alloc (record_locks s) pid (w_file entry) (w_kind entry) (w_range entry) with
          | Err (WouldBlock _) => (s, Ok (Pending t))
          | Err e => (remove_wait s index, Err (lock_status e))
          | Ok prepared =>
              let '(s, c) := commit_record_lock_reply (remove_wait s index) pid prepared reply in
              (s, Ok c)
          end
      end
  end.

(** [local_outcome]: the [Undelivered] arm is unreachable for local calls. *)
Definition local_outcome (c : Completion) : option Outcome :=
  match c with
  | Pending t => Some (OutcomePending t)
  | Replied => Some Acquired
  | Undelivered => None
  end.
Definition begin_record_lock_wait (alloc : bool * bool) (s : LockService) (pid : Z)
    (f : FileKey) (k : Kind) (r : Range) : LockService * result Z (option Outcome) :=
  let '(s, res) := begin_record_lock_wait_with_reply alloc s pid f k r (λ _, true) in
  (s, local_outcome <$> res).
Definition retry_record_lock_wait (alloc : bool) (s : LockService) (pid t : Z)
    : LockService * result Z (option Outcome) :=
  let '(s, res) := retry_record_lock_wait_with_reply alloc s pid t (λ _, true) in
  (s, local_outcome <$> res).

(** [cancel_record_lock_wait]. *)
Definition cancel_record_lock_wait (s : LockService) (pid t : Z) : LockService * result Z unit :=
  match record_lock_wait_index s pid t with
  | Err e => (s, Err e)
  | Ok index => (remove_wait s index, Ok tt)
  end.

(** ** Correctness of the deadlock test *)

Section Deadlock.
Context (locks : list Lock) (entries : list WaitRequest) (candidate : WaitRequest).
#[local] Abbreviation cand := (w_owner candidate).
#[local] Abbreviation owners := (wait_owners entries candidate).

(** [waits_for o b]: a pending request of [o], or the candidate request if it
    is [o]'s, is blocked by a lock of [b]. *)
Definition waits_for (o b : Z) : Prop :=
  ∃ r, (r = candidate ∨ r ∈ entries) ∧ w_owner r = o ∧ b ∈ blocking_owners locks r.

Lemma owners_spec : NoDup owners ∧ ∀ x, x ∈ owners ↔ x = cand ∨ x ∈ (w_owner <$> entries).
Proof.
  unfold wait_owners.
  destruct (uniqueZ_spec (sortZ (map w_owner entries ++ [cand]))) as [H1 H2];
    [apply sortZ_sorted|]. split; [done|]. intros x.
  rewrite H2, (sortZ_perm (map w_owner entries ++ [cand])), elem_of_app, list_elem_of_singleton.
  change (map w_owner entries) with (w_owner <$> entries). tauto.
Qed.

Lemma requests_of_spec o r :
  r ∈ requests_of entries candidate o ↔ (r = candidate ∨ r ∈ entries) ∧ w_owner r = o.
Proof.
  unfold requests_of. rewrite elem_of_app, (list_elem_of_In (List.filter _ _)), filter_In, <- list_elem_of_In.
  destruct (o =? cand) eqn:E.
  - apply Z.eqb_eq in E as ->. rewrite list_elem_of_singleton, Z.eqb_eq. naive_solver.
  - rewrite Z.eqb_eq. split; [set_solver|]. intros [[->|?] ?]; [lia|auto].
Qed.

Definition target (b : Z) : option nat := if b =? cand then None else binary_search owners b.
Definition all_blockers (o : Z) : list Z :=
  flat_map (blocking_owners locks) (requests_of entries candidate o).

Lemma elem_of_all_blockers o b : b ∈ all_blockers o ↔ waits_for o b.
Proof.
  unfold all_blockers, waits_for. rewrite list_elem_of_In, in_flat_map.
  setoid_rewrite <- list_elem_of_In. setoid_rewrite requests_of_spec. naive_solver.
Qed.

Lemma inspect_fold bs s :
  let s' := fold_left (inspect_blocker owners cand) bs s in
  (seen s', queue s') = mark (seen s) (queue s) (omap target bs) ∧
  cycle s' = cycle s || existsb (λ b, b =? cand) bs.
Proof.
  revert s. induction bs as [|b bs IH]; intros s; simpl; [by rewrite orb_false_r|].
  destruct (IH (inspect_blocker owners cand s b)) as [H1 H2]. rewrite H1, H2.
  unfold inspect_blocker, target. destruct (b =? cand); simpl; [by rewrite orb_true_r|].
  destruct (binary_search owners b) as [i|]; simpl; [|done].
  destruct (seen s !! i) as [[]|]; done.
Qed.

Lemma inspect_requests rs s :
  let s' := fold_left (inspect locks owners cand) rs s in
  (seen s', queue s') = mark (seen s) (queue s) (omap target (flat_map (blocking_owners locks) rs)) ∧
  cycle s' = cycle s || existsb (λ b, b =? cand) (flat_map (blocking_owners locks) rs).
Proof.
  revert s. induction rs as [|r rs IH]; intros s; simpl; [by rewrite orb_false_r|].
  destruct (IH (inspect locks owners cand s r)) as [H1 H2].
  destruct (inspect_fold (blocking_owners locks r) s) as [H3 H4]. fold (inspect locks owners cand s r) in *.
  rewrite H1, H2, omap_app, mark_app, existsb_app, H4, <- H3, orb_assoc. done.
Qed.

(** The graph on table indices. *)
Definition wait_succ (i : nat) : list nat :=
  match owners !! i with Some o => omap target (all_blockers o) | None => [] end.
Definition wait_root (i : nat) : Prop := owners !! i = Some cand.

Lemma elem_of_wait_succ i j :
  j ∈ wait_succ i ↔ ∃ o b, owners !! i = Some o ∧ owners !! j = Some b ∧ b ≠ cand ∧ waits_for o b.
Proof.
  destruct owners_spec as [Hd _]. unfold wait_succ. destruct (owners !! i) as [o|]; [|set_solver].
  rewrite list_elem_of_omap. setoid_rewrite elem_of_all_blockers. unfold target. split.
  - intros (b & Hb & Ht). destruct (b =? cand) eqn:E; [done|].
    rewrite binary_search_spec in Ht by done. exists o, b. split_and!; done || lia.
  - intros (o' & b & [= <-] & Hj & Hne & Hw). exists b. split; [done|].
    replace (b =? cand) with false by lia. by apply binary_search_spec.
Qed.

Lemma wait_reachable_rtc i o :
  reachable wait_succ wait_root i → owners !! i = Some o → rtc waits_for cand o.
Proof.
  intros H. revert o. induction H as [i Hi|i j _ IH Hj]; intros o Ho.
  - unfold wait_root in Hi. rewrite Hi in Ho. by injection Ho as ->.
  - apply elem_of_wait_succ in Hj as (a & b & Ha & Hb & _ & Hw). rewrite Hb in Ho. injection Ho as ->.
    eapply rtc_r; [by apply IH|done].
Qed.

(** An owner on a path from the candidate is reachable in the table, unless
    the path already came back to the candidate. *)
Lemma rtc_wait_reachable o :
  rtc waits_for cand o → o ∈ owners →
  (∃ i, owners !! i = Some o ∧ reachable wait_succ wait_root i) ∨
  (∃ i a, owners !! i = Some a ∧ reachable wait_succ wait_root i ∧ waits_for a cand).
Proof.
  destruct owners_spec as [Hd Ho]. intros H.
  refine (rtc_ind_r (λ o, o ∈ owners → (∃ i, owners !! i = Some o ∧ _) ∨ _) cand _ _ o H);
    clear o H.
  - intros [i Hi]%list_elem_of_lookup_1. left. exists i. split; [done|]. by constructor.
  - intros x y Hx Hxy IH Hy. assert (x ∈ owners) as Hxo.
    { apply Ho. destruct Hxy as (r & [->|Hr] & <- & _); [by left|].
      right. apply list_elem_of_fmap. by exists r. }
    destruct (IH Hxo) as [(i & Hi & Hri)|?]; [|by right].
    destruct (decide (y = cand)) as [->|Hne]; [right; by exists i, x|].
    apply list_elem_of_lookup_1 in Hy as [j Hj]. left. exists j. split; [done|].
    eapply reach_step; [exact Hri|]. apply elem_of_wait_succ. by exists x, y.
Qed.

Lemma tc_last {A} (R : A → A → Prop) x y : tc R x y → ∃ z, rtc R x z ∧ R z y.
Proof.
  induction 1 as [x y H|x y z Hxy _ (a & Ha & Hay)]; [by exists x|].
  exists a. split; [by eapply rtc_l|done].
Qed.

(** Once nothing is left to process and no processed owner waits for the
    candidate, there is no cycle through it. *)
Lemma search_exhausted sn :
  search_inv wait_succ wait_root (length owners) sn [] →
  (∀ i o, owners !! i = Some o → flagged sn i → ¬ waits_for o cand) →
  ¬ tc waits_for cand cand.
Proof.
  intros Hi Hn (o & Hrtc & Hw)%tc_last.
  destruct (rtc_wait_reachable o Hrtc) as [(i & Ho & Hr)|(i & a & Ha & Hr & Hw')].
  - apply owners_spec. destruct Hw as (r & [->|Hr] & <- & _); [by left|].
    right. apply list_elem_of_fmap. by exists r.
  - apply (Hn i o); [done| |done]. by apply (search_done _ _ _ _ Hi).
  - apply (Hn i a); [done| |done]. by apply (search_done _ _ _ _ Hi).
Qed.

Lemma search_loop_ok fuel head s :
  search_inv wait_succ wait_root (length owners) (seen s) (drop head (queue s)) →
  (∀ i o, owners !! i = Some o → flagged (seen s) i →
     i ∈ drop head (queue s) ∨ ¬ waits_for o cand) →
  (unseen (seen s) + length (drop head (queue s)) ≤ fuel)%nat →
  ∃ b, search_loop fuel locks entries candidate owners head s = Some b ∧
       (b = true ↔ tc waits_for cand cand).
Proof.
  revert head s. induction fuel as [|fuel IH]; intros head s Hi Hn Hf;
    (destruct (queue s !! head) as [i|] eqn:Eh;
     [|exists false; split; [simpl; by rewrite Eh|]; split; [done|intros Htc; exfalso];
       apply lookup_ge_None in Eh; rewrite drop_ge in Hi, Hn by done;
       eapply (search_exhausted (seen s)); [done| |done];
       intros j o Hj Hfj; destruct (Hn j o Hj Hfj) as [?%elem_of_nil|?]; done]).
  { erewrite drop_S in Hf by done. simpl in Hf. lia. }
  erewrite drop_S in Hi, Hn, Hf by done. simpl in Hf.
  pose proof (si_work _ _ _ _ _ Hi i ltac:(by left)) as Hfl. pose proof Hfl as Hlt.
  apply lookup_lt_Some in Hlt. rewrite (si_length _ _ _ _ _ Hi) in Hlt.
  apply lookup_lt_is_Some in Hlt as [o Ho]. simpl. rewrite Eh, Ho.
  destruct (inspect_requests (requests_of entries candidate o) (mkSearch (seen s) (queue s) false))
    as [Hm Hc]. fold (all_blockers o) in Hm, Hc. simpl in Hm, Hc.
  set (s' := fold_left _ _ _) in *. rewrite Hc. destruct (existsb _ (all_blockers o)) eqn:Ex.
  { exists true. split; [done|]. split; [|done]. intros _.
    apply existsb_exists in Ex as (b & Hb & E%Z.eqb_eq). subst b.
    apply list_elem_of_In, elem_of_all_blockers in Hb.
    eapply tc_rtc_l; [|by apply tc_once].
    eapply wait_reachable_rtc; [by eapply (si_sound _ _ _ _ _ Hi)|done]. }
  assert (Hno : ¬ waits_for o cand).
  { intros Hw. apply elem_of_all_blockers, list_elem_of_In in Hw. apply not_true_iff_false in Ex.
    apply Ex, existsb_exists. exists cand. split; [done|lia]. }
  pose proof (search_step wait_succ wait_root (length owners) (seen s) (i :: drop (S head) (queue s))
    (drop (S head) (queue s)) i) as Hs.
  assert (wait_succ i = omap target (all_blockers o)) as Es by (unfold wait_succ; by rewrite Ho).
  rewrite Es in Hs. rewrite <- (take_drop (S head) (queue s)), mark_prefix in Hm.
  destruct (mark (seen s) (drop (S head) (queue s)) (omap target (all_blockers o))) as [sn' w'] eqn:Em.
  injection Hm as Hsn Hq.
  assert (drop (S head) (queue s') = w') as Hdrop.
  { rewrite Hq, drop_app_length'; [done|]. symmetry. apply length_take_le. by apply lookup_lt_Some in Eh. }
  destruct Hs as [H1 H2]; [|done|by intros j; rewrite elem_of_cons|].
  { intros j. rewrite <- Es. intros (a & b & _ & Hj & _)%elem_of_wait_succ.
    by eapply lookup_lt_Some. }
  apply IH; rewrite Hdrop, Hsn; [done| |lia].
  intros j p Hp Hfj. destruct (mark_pushed _ _ _ _ _ j Em) as [M1 M2].
  destruct (decide (flagged (seen s) j)) as [Hold|Hnew]; [|auto].
  destruct (Hn j p Hp Hold) as [[->|?]%elem_of_cons|?]; [|auto..]. right. congruence.
Qed.

(** The test returns, and answers whether the candidate would wait for
    itself. *)
Lemma deadlocks_spec nx :
  ∃ b, deadlocks (mkWaits entries nx) candidate locks = Some b ∧
       (b = true ↔ tc waits_for cand cand).
Proof.
  destruct owners_spec as [Hd Ho]. unfold deadlocks. simpl.
  destruct (binary_search_is_some owners cand) as [root Hr]; [apply Ho; by left|].
  rewrite Hr. simpl. rewrite binary_search_spec in Hr by done.
  pose proof (lookup_lt_Some _ _ _ Hr) as Hlt.
  set (sn := <[root := true]> (replicate (length owners) false)).
  assert (Hfl : ∀ i, flagged sn i ↔ i = root).
  { intros i. unfold flagged, sn. destruct (decide (i = root)) as [->|Hne].
    - rewrite list_lookup_insert_eq by by rewrite length_replicate. done.
    - rewrite list_lookup_insert_ne by done. split; [|done].
      intros [? _]%lookup_replicate. done. }
  apply search_loop_ok; simpl.
  - split.
    + unfold sn. by rewrite length_insert, length_replicate.
    + intros i ->%Hfl. by constructor.
    + intros i Hi. apply Hfl. unfold wait_root in Hi. by eapply NoDup_lookup.
    + intros i ->%Hfl. left. by left.
    + intros i ->%list_elem_of_singleton. by apply Hfl.
  - intros i o _ ->%Hfl. left. by left.
  - assert (unseen (replicate (length owners) false) = length owners) as Hu.
    { unfold unseen. generalize (length owners). intros n. induction n; simpl; congruence. }
    rewrite (unseen_insert _ root) in Hu by (by apply lookup_replicate_2). fold sn in Hu. lia.
Qed.
End Deadlock.

(** ** Service invariant *)

Record waits_ok (w : Waits) : Prop := mkWaitsOk {
  wo_tokens : NoDup (token <$> w_entries w);
  wo_fresh : ∀ e, e ∈ w_entries w → 0 < token e < next w;
  wo_next : 0 < next w ≤ U64_MAX;
  wo_total : zlen (w_entries w) ≤ MAX_WAITERS;
  wo_quota : ∀ o, count_waits o (w_entries w) ≤ MAX_WAITERS_PER_PROCESS;
  wo_range : ∀ e, e ∈ w_entries w → valid_range (w_range e);
}.

Record service_ok (s : LockService) : Prop := mkServiceOk {
  so_locks : registry_ok (record_locks s);
  so_waits : waits_ok (record_lock_waits s);
  so_pages : NoDup (fst <$> resource_policies s);
  so_hints : ∀ o h, (o, h) ∈ resource_policies s → h = has_owner (record_locks s) o;
}.

Lemma set_hint_fst o held pages : fst <$> set_hint o held pages = fst <$> pages.
Proof.
  induction pages as [|[i g] pages IH]; simpl; [done|].
  destruct (i =? o); csimpl; [done|by rewrite IH].
Qed.

Lemma set_hint_elem o held pages o' h :
  NoDup (fst <$> pages) → (o', h) ∈ set_hint o held pages →
  o' ≠ o ∧ (o', h) ∈ pages ∨ o' = o ∧ h = held.
Proof.
  induction pages as [|[i g] pages IH]; csimpl; [set_solver|].
  intros [Hi Hd]%NoDup_cons. destruct (i =? o) eqn:E; rewrite !elem_of_cons.
  - apply Z.eqb_eq in E as ->. intros [[= -> ->]|Hp]; [auto|]. left. split; [|auto].
    intros ->. apply Hi. apply list_elem_of_fmap. by exists (o, h).
  - apply Z.eqb_neq in E. intros [[= -> ->]|Hp]; [auto|]. naive_solver.
Qed.

Lemma set_hint_twice o a b pages : set_hint o b (set_hint o a pages) = set_hint o b pages.
Proof.
  induction pages as [|[i g] pages IH]; simpl; [done|].
  destruct (i =? o) eqn:E; simpl; rewrite E; [done|by rewrite IH].
Qed.

Lemma set_hint_same (v : Z → bool) o pages :
  (∀ o h, (o, h) ∈ pages → h = v o) → set_hint o (v o) pages = pages.
Proof.
  induction pages as [|[i g] pages IH]; simpl; intros H; [done|].
  destruct (i =? o) eqn:E.
  - apply Z.eqb_eq in E as ->. by rewrite (H o g) by by left.
  - rewrite IH; [done|]. intros a h Ha. apply H. by right.
Qed.

Lemma has_owner_holds l o :
  Forall valid l → has_owner l o = true ↔ ∃ f b k, holds l o f b k.
Proof.
  intros Hv. unfold has_owner. rewrite existsb_exists. setoid_rewrite <- list_elem_of_In. split.
  - intros (x & Hx & E). rewrite Forall_forall in Hv. destruct (Hv x Hx) as [Hr _].
    exists (file x), (start (range x)), (kind x), x. unfold in_range. split_and!; done || lia.
  - intros (f & b & k & x & Hx & <- & _). exists x. split; [done|lia].
Qed.

Lemma has_owner_frame l l' o :
  Forall valid l → Forall valid l' → (∀ f b k, holds l' o f b k ↔ holds l o f b k) →
  has_owner l' o = has_owner l o.
Proof.
  intros Hv Hv' H. apply eq_bool_prop_intro.
  rewrite !Is_true_true, !has_owner_holds by done. by setoid_rewrite H.
Qed.

(** Registering a request that passed the quotas and the deadlock test. *)
Lemma enqueue_ok alloc w r locks :
  waits_ok w → valid_range (w_range r) →
  let '(w', res) := enqueue alloc w r locks in
  waits_ok w' ∧
  match res with
  | Ok t => t = next w ∧ w_entries w' = w_entries w ++ [with_token r t] ∧ next w' = t + 1 ∧
            ¬ tc (waits_for locks (w_entries w) r) (w_owner r) (w_owner r)
  | Err e => w' = w ∧ (e = -37 ∨ e = -35 ∧ tc (waits_for locks (w_entries w) r) (w_owner r) (w_owner r))
  end.
Proof.
  intros Hw Hr. unfold enqueue. destruct (_ || _) eqn:Eq; [split; [done|]; auto|].
  destruct (deadlocks_spec locks (w_entries w) r (next w)) as (b & Hb & Hd).
  replace (mkWaits (w_entries w) (next w)) with w in Hb by by destruct w. rewrite Hb.
  destruct b; [split; [done|]; split; [done|right]; naive_solver|].
  destruct alloc; simpl; [|split; [done|]; auto].
  assert (¬ tc (waits_for locks (w_entries w) r) (w_owner r) (w_owner r)) by naive_solver.
  split; [|done]. destruct Hw as [H1 H2 H3 H4 H5 H6]. split; simpl.
  - rewrite fmap_app. apply NoDup_app. split_and!; [done| |apply NoDup_singleton].
    intros t (e & -> & He)%list_elem_of_fmap Ht. apply list_elem_of_singleton in Ht.
    specialize (H2 e He). simpl in Ht. lia.
  - intros e [He| ->%list_elem_of_singleton]%elem_of_app; simpl; [specialize (H2 e He)|]; lia.
  - lia.
  - rewrite zlen_app, zlen_cons, zlen_nil. lia.
  - intros o. unfold count_waits in *. rewrite List.filter_app, zlen_app. simpl.
    destruct (w_owner r =? o) eqn:Eo; autorewrite with mochi; specialize (H5 o);
      [apply Z.eqb_eq in Eo as <-|]; lia.
  - intros e [He| ->%list_elem_of_singleton]%elem_of_app; [auto|done].
Qed.

Lemma waits_ok_sublist w l :
  waits_ok w → l `sublist_of` w_entries w → waits_ok (mkWaits l (next w)).
Proof.
  intros [H1 H2 H3 H4 H5 H6] Hl. split; simpl; try done.
  - eapply sublist_NoDup; [done|]. by apply fmap_sublist.
  - intros e He. apply H2. by eapply elem_of_sublist.
  - apply sublist_length in Hl. unfold zlen in *. lia.
  - intros o. specialize (H5 o). unfold count_waits, zlen in *.
    enough ((length (List.filter (λ e, (w_owner e =? o)%Z) l)
            ≤ length (List.filter (λ e, (w_owner e =? o)%Z) (w_entries w)))%nat) by lia.
    clear -Hl. induction Hl; simpl; [done|case_match; simpl; lia..].
  - intros e He. apply H6. by eapply elem_of_sublist.
Qed.

Lemma waits_retire_owner_ok w o : waits_ok w → waits_ok (waits_retire_owner w o).
Proof.
  intros Hw. apply waits_ok_sublist; [done|]. induction (w_entries w) as [|x l IH]; simpl; [done|].
  destruct (negb _); by constructor.
Qed.

Lemma remove_wait_ok s i : service_ok s → service_ok (remove_wait s i).
Proof.
  intros [H1 H2 H3 H4]. split; simpl; try done. apply waits_ok_sublist; [done|].
  apply sublist_delete.
Qed.

(** The state a reply is delivered in, and the two completions. *)
Lemma prepare_set_ok alloc l o f k r :
  registry_ok l → valid_range r →
  match prepare_set alloc l o f k r with
  | Ok l' => registry_ok l' ∧
      ∀ o' f' b k', holds l' o' f' b k' ↔
        if bool_decide (o' = o ∧ f' = f ∧ start r ≤ b < end_ r) then k' = k else holds l o' f' b k'
  | Err (WouldBlock c) => conflict l o f k r = Some c
  | Err e => e = NoLocks
  end.
Proof.
  intros Hl Hr. unfold prepare_set. destruct (replacement _ _ _ _ _ _) as [l'|e] eqn:E.
  - split; [by eapply replacement_preserves|]. apply replacement_ok in E as (_ & _ & -> & _).
    intros o' f' b k'. rewrite compacted_holds by (done || apply Hl). unfold in_range.
    case_bool_decide; naive_solver.
  - unfold replacement in E. simpl in E. destruct (conflict l o f k r); [naive_solver|].
    destruct alloc; simpl in E; [|naive_solver]. destruct (_ || _); naive_solver.
Qed.

Lemma commit_reply_ok s o f k r prepared reply alloc :
  service_ok s → valid_range r → prepare_set alloc (record_locks s) o f k r = Ok prepared →
  let '(s', c) := commit_record_lock_reply s o prepared reply in
  service_ok s' ∧ record_lock_waits s' = record_lock_waits s ∧
  if reply (publish_record_lock_hint s o true)
  then c = Replied ∧ record_locks s' = prepared
  else c = Undelivered ∧ s' = s.
Proof.
  intros [H1 H2 H3 H4] Hr E. pose proof (prepare_set_ok alloc _ o f k r H1 Hr) as Hp.
  rewrite E in Hp. destruct Hp as [Hp1 Hp2]. unfold commit_record_lock_reply.
  destruct (reply _); simpl.
  - split_and!; try done. split; simpl; try done.
    + by rewrite !set_hint_fst.
    + rewrite set_hint_twice. intros o' h Hh.
      apply set_hint_elem in Hh as [[Hne Hh]|[-> ->]]; try done. rewrite (H4 o' h Hh).
      symmetry. apply has_owner_frame; [by apply H1|by apply Hp1|]. intros f' b k'. rewrite Hp2.
      rewrite bool_decide_eq_false_2 by naive_solver. done.
  - unfold publish_record_lock_state, publish_record_lock_hint, with_policies. simpl.
    rewrite set_hint_twice, (set_hint_same (has_owner (record_locks s))) by done.
    by destruct s.
Qed.

(** ** Service guarantees *)

(** C13: The deadlock test terminates within its bounded queue and answers true
    exactly when adding the candidate request closes a cycle of the waits-
    for relation (a process with a pending request blocked by a lock of the
    next). *)
Theorem deadlocks_exact w candidate locks :
  ∃ b, deadlocks w candidate locks = Some b ∧
       (b = true ↔ tc (waits_for locks (w_entries w) candidate)
                      (w_owner candidate) (w_owner candidate)).
Proof.
  destruct (deadlocks_spec locks (w_entries w) candidate (next w)) as (b & Hb & ?).
  exists b. by replace w with (mkWaits (w_entries w) (next w)) at 1 by by destruct w.
Qed.

(** For an admitted process, beginning a blocking lock request keeps the
    service invariant; it either takes the lock and replies, or leaves the
    state as it was when the reply is not delivered, or queues the request
    under a fresh token because it conflicts and closes no waits-for cycle,
    or fails without any change, with the deadlock error exactly for a
    cycle. *)
Theorem begin_wait_correct alloc s pid f k r reply :
  service_ok s → valid_range r → admitted s pid = true →
  let request := mkWaitRequest pid (observed_revision s pid) f k r 0 in
  let cycle := tc (waits_for (record_locks s) (w_entries (record_lock_waits s)) request) pid pid in
  let '(s', res) := begin_record_lock_wait_with_reply alloc s pid f k r reply in
  service_ok s' ∧
  match res with
  | Ok Replied =>
      reply (publish_record_lock_hint s pid true) = true ∧
      conflict (record_locks s) pid f k r = None ∧
      record_lock_waits s' = record_lock_waits s ∧
      ∀ o' f' b k', holds (record_locks s') o' f' b k' ↔
        if bool_decide (o' = pid ∧ f' = f ∧ start r ≤ b < end_ r)
        then k' = k else holds (record_locks s) o' f' b k'
  | Ok Undelivered => reply (publish_record_lock_hint s pid true) = false ∧ s' = s
  | Ok (Pending t) =>
      conflict (record_locks s) pid f k r ≠ None ∧ ¬ cycle ∧
      record_locks s' = record_locks s ∧ resource_policies s' = resource_policies s ∧
      t = next (record_lock_waits s) ∧
      w_entries (record_lock_waits s') = w_entries (record_lock_waits s) ++ [with_token request t]
  | Err e =>
      s' = s ∧ (e = -37 ∨ e = -35 ∧ cycle ∧ conflict (record_locks s) pid f k r ≠ None)
  end.
Proof.
  intros Hs Hr Ha request cyc. unfold begin_record_lock_wait_with_reply. rewrite Ha. simpl.
  pose proof (prepare_set_ok alloc.1 (record_locks s) pid f k r (so_locks _ Hs) Hr) as Hp.
  destruct (prepare_set alloc.1 _ _ _ _ _) as [prepared|e] eqn:E.
  - pose proof (commit_reply_ok s pid f k r prepared reply _ Hs Hr E) as Hc.
    destruct (commit_record_lock_reply _ _ _ _) as [s' c]. destruct Hc as (? & ? & Hc).
    split; [done|]. apply replacement_ok in E as (_ & Hn & _). specialize (Hn k eq_refl).
    destruct (reply _); destruct Hc as [-> Hc]; [|done]. subst. split_and!; try done. apply Hp.
  - destruct e as [| |c|]; try done; [|split; [done|]; simpl; auto].
    fold request. pose proof (enqueue_ok alloc.2 _ request (record_locks s) (so_waits _ Hs) Hr) as He.
    destruct (enqueue _ _ _ _) as [w res]. destruct He as [He1 He2].
    split; [destruct Hs; by split|]. destruct res as [t|e]; simpl.
    + destruct He2 as (? & ? & ? & ?). split_and!; try done. congruence.
    + destruct He2 as [-> He2]. split; [by destruct s|].
      destruct He2 as [?|[? ?]]; [by left|right]. split_and!; try done. congruence.
Qed.

Definition consumed (s : LockService) (t : Z) : Prop :=
  t < next (record_lock_waits s) ∧ ∀ e, e ∈ w_entries (record_lock_waits s) → token e ≠ t.

Lemma record_lock_wait_index_ok s pid t i :
  record_lock_wait_index s pid t = Ok i →
  ∃ e, w_entries (record_lock_waits s) !! i = Some e ∧ w_owner e = pid ∧ token e = t.
Proof.
  unfold record_lock_wait_index. destruct (negb _); [done|].
  destruct (list_find _ _) as [[j e]|] eqn:E; simpl; [|done]. intros [= ->].
  apply list_find_Some in E as (Hi & (? & _ & ?) & _). by exists e.
Qed.

Lemma remove_wait_consumed s pid t i :
  service_ok s → record_lock_wait_index s pid t = Ok i → consumed (remove_wait s i) t.
Proof.
  intros Hs (e & Hi & _ & <-)%record_lock_wait_index_ok.
  destruct (so_waits _ Hs) as [H1 H2 _ _ _ _]. split; simpl.
  { apply H2. by eapply list_elem_of_lookup_2. }
  intros e' He' Ht. rewrite <- (take_drop_middle _ _ _ Hi), fmap_app in H1.
  rewrite delete_take_drop in He'. csimpl in H1.
  rewrite Permutation_app_comm in H1. apply NoDup_cons in H1 as [H1 _]. apply H1.
  rewrite <- Ht. apply elem_of_app in He' as [He'|He']; apply elem_of_app;
    [right|left]; by apply list_elem_of_fmap_2.
Qed.

(** Retrying a pending request keeps the service invariant; it stays
    pending and changes nothing while the lock conflicts, and otherwise
    consumes the token for ever, with the caller's bytes locked when the
    reply was delivered and the registry and hints unchanged when it was
    not. *)
Theorem retry_wait_correct alloc s pid t reply i :
  service_ok s → record_lock_wait_index s pid t = Ok i →
  let '(s', res) := retry_record_lock_wait_with_reply alloc s pid t reply in
  service_ok s' ∧
  ∃ e, w_entries (record_lock_waits s) !! i = Some e ∧ w_owner e = pid ∧ token e = t ∧
  match res with
  | Ok (Pending t') =>
      t' = t ∧ s' = s ∧ conflict (record_locks s) pid (w_file e) (w_kind e) (w_range e) ≠ None
  | Ok Replied =>
      consumed s' t ∧ conflict (record_locks s) pid (w_file e) (w_kind e) (w_range e) = None ∧
      ∀ o' f' b k', holds (record_locks s') o' f' b k' ↔
        if bool_decide (o' = pid ∧ f' = w_file e ∧ start (w_range e) ≤ b < end_ (w_range e))
        then k' = w_kind e else holds (record_locks s) o' f' b k'
  | _ => consumed s' t ∧ record_locks s' = record_locks s ∧ resource_policies s' = resource_policies s
  end.
Proof.
  intros Hs Hi. unfold retry_record_lock_wait_with_reply. rewrite Hi.
  pose proof (remove_wait_consumed s pid t i Hs Hi) as Hc.
  pose proof (remove_wait_ok s i Hs) as Hs'.
  apply record_lock_wait_index_ok in Hi as (e & He & Ho & Ht). rewrite He.
  pose proof (wo_range _ (so_waits _ Hs) e (list_elem_of_lookup_2 _ _ _ He)) as Hr.
  pose proof (prepare_set_ok alloc _ pid (w_file e) (w_kind e) _ (so_locks _ Hs) Hr) as Hp.
  destruct (prepare_set _ _ _ _ _ _) as [prepared|err] eqn:E.
  - pose proof (commit_reply_ok _ pid _ _ _ prepared reply _ Hs' Hr E) as Hcr.
    destruct (commit_record_lock_reply _ _ _ _) as [s' c]. destruct Hcr as (? & Hw & Hcr).
    split; [done|]. exists e. split_and!; try done.
    apply replacement_ok in E as (_ & Hn & _). specialize (Hn _ eq_refl).
    unfold consumed in *. rewrite Hw. destruct (reply _), Hcr as [-> ->]; [|done]. by destruct Hp.
  - destruct err as [| |c|]; try done; split; try done; exists e; split_and!; try done; congruence.
Qed.

(** Cancelling a wait changes no lock and no published hint and keeps the
    service invariant; on success the token is consumed for ever, and on an
    error nothing changes. *)
Theorem cancel_wait_correct s pid t :
  service_ok s →
  let '(s', res) := cancel_record_lock_wait s pid t in
  service_ok s' ∧ record_locks s' = record_locks s ∧ resource_policies s' = resource_policies s ∧
  match res with Ok _ => consumed s' t | Err _ => s' = s end.
Proof.
  intros Hs. unfold cancel_record_lock_wait. destruct (record_lock_wait_index s pid t) as [i|e] eqn:E.
  - split_and!; try done; [by apply remove_wait_ok|by eapply remove_wait_consumed].
  - done.
Qed.
End Wait.

(** ** Examples *)

Section Examples.
#[local] Existing Instance two_kinds.

(** The registry of [example_locks], with a request of process 3 pending for
    bytes that have been released since. *)
Definition example_service : LockService :=
  mkLockService {[1; 2; 3]} {[1; 2; 3]}
    {[1 := mkWaitState false 0; 2 := mkWaitState false 0; 3 := mkWaitState false 4]}
    example_locks
    (mkWaits [mkWaitRequest 3 4 example_file write_kind (mkRange 10 20) 1] 2)
    [(1, true); (3, false)].

Lemma example_service_ok : service_ok example_service.
Proof.
  split; simpl.
  - apply example_ok.
  - split; simpl; try done.
    + apply NoDup_singleton.
    + by intros e ->%list_elem_of_singleton.
    + intros o. unfold count_waits, zlen. simpl. unfold MAX_WAITERS_PER_PROCESS. case_match; simpl; lia.
    + intros e ->%list_elem_of_singleton. by apply example_range.
  - by apply (bool_decide_eq_true_1 _).
  - intros o h Ho. repeat (apply elem_of_cons in Ho as [[= -> ->]|Ho]; [done|]).
    by apply elem_of_nil in Ho.
Qed.

Lemma begin_wait_correct_witness :
  let '(s', res) := begin_record_lock_wait_with_reply (-3) (true, true) example_service 1
                      example_file write_kind (mkRange 20 30) (λ _, true) in
  res = Ok (Pending 2) ∧ service_ok s' ∧ record_locks s' = example_locks.
Proof.
  pose proof (begin_wait_correct (-3) (true, true) example_service 1 example_file write_kind
    (mkRange 20 30) (λ _, true) example_service_ok ltac:(by apply example_range)
    ltac:(by vm_compute)) as H.
  destruct (begin_record_lock_wait_with_reply _ _ _ _ _ _ _ _) as [s' res] eqn:E.
  assert (res = Ok (Pending 2)) as -> by (by vm_compute in E; injection E as _ <-).
  destruct H as (H1 & _ & _ & H2 & _). by split_and!.
Defined.

Lemma retry_wait_correct_witness :
  let '(s', res) := retry_record_lock_wait_with_reply (-3) true example_service 3 1 (λ _, true) in
  res = Ok Replied ∧ service_ok s' ∧ consumed s' 1 ∧
  holds (record_locks s') 3 example_file 15 write_kind.
Proof.
  pose proof (retry_wait_correct (-3) true example_service 3 1 (λ _, true) 0 example_service_ok
    ltac:(by vm_compute)) as H.
  destruct (retry_record_lock_wait_with_reply _ _ _ _ _ _) as [s' res] eqn:E.
  assert (res = Ok Replied) as -> by (by vm_compute in E; injection E as _ <-).
  destruct H as (H1 & e & He & _ & _ & H2 & _ & H3). injection He as <-. split_and!; try done.
  by apply H3.
Defined.

Lemma cancel_wait_correct_witness :
  let '(s', res) := cancel_record_lock_wait (-3) example_service 3 1 in
  res = Ok tt ∧ service_ok s' ∧ consumed s' 1.
Proof.
  pose proof (cancel_wait_correct (-3) example_service 3 1 example_service_ok) as H.
  destruct (cancel_record_lock_wait _ _ _ _) as [s' res] eqn:E.
  assert (res = Ok tt) as -> by (by vm_compute in E; injection E as _ <-).
  destruct H as (H1 & _ & _ & H2). by split_and!.
Defined.
End Examples.
