(* ===== verification/Service.v ===== *)
(** * The state of the POSIX service and the code it calls

    [Service] is [PosixService] of [posix/src/lib.rs]: credentials, signal
    tables, the process tree, job control, prepared forks, record locks and
    timers, each as the record of the component that owns it.  The native
    processes and the filesystem are outside the repository: [ProcessBackend]
    and [FilesystemBackend] are the traits of the source, and a [World] is the
    service together with a state of each of them.  The file also models the
    admission of images ([posix/src/image_state.rs]). *)

From stdpp Require Import fin_maps sorting.
From S2P Require Import Prelude RecordLock LockExec Reach RecordLockWait TimerSchedule PosixProtocol.
From S2P Require Import ProcessTimer Credentials SignalState Signals.

(** ** Stateful code *)

Definition gets {S E A} (f : S → A) : stM S E A := λ s, (s, Ok (f s)).
Definition modify {S E} (f : S → S) : stM S E unit := λ s, (f s, Ok tt).
Definition reads {S E A} (f : S → result E A) : stM S E A := λ s, (s, f s).
(** [.ok_or(e)?] and [if !b { return Err(e) }]. *)
Definition need {S E A} (e : E) (f : S → option A) : stM S E A := λ s, (s, ok_or e (f s)).
Definition guard {S E} (b : bool) (e : E) : stM S E unit := λ s, (s, ensure b e).
(** [if let Err(e) = m { undo; return Err(e) }]. *)
Definition undoing {S E A} (undo : S → S) (m : stM S E A) : stM S E A := λ s,
  match m s with (s, Err e) => (undo s, Err e) | (s, Ok a) => (s, Ok a) end.
(** A loop that stops at the first error. *)
Fixpoint st_each {S E A} (f : A → stM S E unit) (l : list A) : stM S E unit :=
  match l with [] => mret tt | x :: l => f x;; st_each f l end.
(** A loop that counts. *)
Fixpoint st_count {S E A} (f : A → stM S E bool) (l : list A) (n : Z) : stM S E Z :=
  match l with
  | [] => mret n
  | x :: l => b ← f x; st_count f l (if (b : bool) then n + 1 else n)
  end.
(** A loop that goes on after an error, and reports the first one
    ([failure.get_or_insert(error)]). *)
Fixpoint st_all {S E A} (f : A → stM S E Z) (l : list A) (n : Z) (failure : option E) : stM S E Z := λ s,
  match l with
  | [] => (s, match failure with None => Ok n | Some e => Err e end)
  | x :: l =>
      match f x s with
      | (s, Ok k) => st_all f l (n + k) failure s
      | (s, Err e) => st_all f l n (Some (default e failure)) s
      end
  end.

(** Ordered maps and sets are read in the order of their keys. *)
Definition in_order (l : list Z) : list Z := merge_sort Z.le l.
Definition keys_in_order {A} (m : gmap Z A) : list Z := in_order (map_to_list m).*1.
Definition pair_le (a b : Z * Z) : Prop := a.1 < b.1 ∨ a.1 = b.1 ∧ a.2 ≤ b.2.
#[global] Instance pair_le_dec a b : Decision (pair_le a b).
Proof. unfold pair_le. apply _. Defined.
Definition pairs_in_order (l : list (Z * Z)) : list (Z * Z) := merge_sort pair_le l.

(** ** What is outside the repository *)

Inductive ProcessLifecycle := Running | Exited (exit_code : Z).
(** [mnu_abi::ProcessStatus], [ProcessExecutionUsage] and [ProcessMemoryUsage]. *)
Record ImageStatus := mkImage { im_process_id : Z; im_state : Z; im_reserved : Z; im_revision : Z }.
Record ExecutionUsage := mkExecution { eu_user : Z; eu_kernel : Z; eu_rate : Z; eu_reserved : Z }.
Record MemoryUsage := mkMemory { current_bytes : Z; peak_bytes : Z }.
Class ProcessBackend (B : Type) := {
  proc_status : Z → stM B Z ProcessLifecycle;
  image_status : Z → stM B Z ImageStatus;
  execution_usage : Z → stM B Z ExecutionUsage;
  memory_usage : Z → stM B Z MemoryUsage;
  suspend : Z → stM B Z unit;
  resume : Z → stM B Z unit;
  terminate : Z → Z → stM B Z unit;
  release : Z → B → B;
}.
Class FilesystemBackend (F : Type) := {
  retain_object : Z → stM F Z Z;
  release_object : Z → F → F;
}.
Record ProcessInfo := mkProcessInfo { pi_process_id : Z; pi_parent_id : Z; pi_group : Z; pi_session : Z }.
(** [protocol::WaitInfo], with the fields of its [WaitResult]. *)
Record WaitInfo := mkWaitInfo { wi_process_id : Z; wi_status : Z; wi_real_uid : Z }.
Record IntervalValue := mkInterval { iv_interval : Z; iv_remaining : Z }.
Class ServiceCodec := {
  PROCESS_STATE_RUNNING : Z; PROCESS_STATE_EXITED : Z; HANDLE_WAIT_INFINITE : Z;
  MAX_SUPPLEMENTARY_GROUPS : Z; RLIMIT_NPROC : Z; RLIM_INFINITY : Z;
  SIGNAL_XCPU : Z; SIGNAL_VTALRM : Z; SIGNAL_PROF : Z;
  decode_process_id_request : list Z → option Z;
  encode_process_id_request : Z → option (list Z);
  decode_process_group_request : list Z → option (Z * Z);
  encode_process_info : ProcessInfo → option (list Z);
  wait_info_default : WaitInfo;
  encode_interval : IntervalValue → option (list Z);
  OP_TERMINAL_ACQUIRE : Z; OP_TERMINAL_RELEASE : Z; OP_TERMINAL_GET_FOREGROUND : Z;
  OP_TERMINAL_GET_SESSION : Z; OP_TERMINAL_SET_FOREGROUND : Z;
}.

(** ** The service *)

Record ControllingTerminal := mkTerminal { ct_session : Z; foreground_process_group : Z }.
Record SessionDirectories := mkDirectories { dir_root : Z; dir_cwd : Z }.
Record ForkState := mkFork {
  f_owner : Z;
  f_image_revision : Z;
  f_session : Session;
  f_directories : option SessionDirectories;
  f_group : Z;
  f_session_id : Z;
  f_groups : list Z;
  f_limits : list (Z * ResourceLimit);
  f_signals : ProcessSignalState;
  f_child_options : Z;
}.
(** [child_notification::Deferred]. *)
Record Deferred := mkDeferred {
  def_parent : Z;
  def_revision : Z;
  def_suppress : bool;
  def_origin : Origin;
}.
(** [cpu_timer::CpuTimer]. *)
Record CpuTimer := mkCpuTimer { cpu_schedule : Schedule; cpu_previous : ExecutionUsage }.

Record Tree := mkTree {
  bootstrap_process_id : option Z;
  processes : gmap Z Z;
  parents : gmap Z Z;
  children : gmap Z (gset Z);
  launch_creators : gmap Z Z;
  tree_teardowns : gmap Z (list Z);
  orphaned_processes : gset Z;
}.
Record Jobs := mkJobs {
  process_groups : gmap Z Z;
  session_ids : gmap Z Z;
  controlling_terminals : gmap Z Z;
  terminals : gmap Z ControllingTerminal;
}.
Record Forks := mkForks { prepared_forks : list (Z * ForkState); next_fork_token : Z }.
Record Clocks := mkClocks { real_timers : gmap Z Schedule; cpu_timers : gmap (Z * Z) CpuTimer }.
(** [process_domain::Registry] and the memberships: a marker is the identifier
    of the domain that holds it. *)
Record Domains := mkDomains {
  process_domains : gmap Z (list Z);
  domain_entries : list (Z * Z);
  domain_next : Z;
}.

Section Service.
Context {LK : LockKind} {PP : PosixProtocol} {AP : AccountProtocol} {SC : SignalCodec} {VC : ServiceCodec}.

(** The record locks of the service and what depends on them. *)
Record Held := mkHeld {
  record_locks : list Lock;
  record_lock_execs : Preparations;
  record_lock_waits : Waits;
  resource_policies : list (Z * bool);
}.
Record Service := mkService {
  accounts : Accounts;
  table : SignalTable;
  tree : Tree;
  jobs : Jobs;
  forks : Forks;
  held : Held;
  clocks : Clocks;
  domains : Domains;
  directories : gmap Z SessionDirectories;
  deferred_child_notifications : list Deferred;
}.
Definition service_new : Service :=
  mkService (mkAccounts ∅ ∅ ∅ ∅) signals_new (mkTree None ∅ ∅ ∅ ∅ ∅ ∅) (mkJobs ∅ ∅ ∅ ∅) (mkForks [] 1)
    (mkHeld [] preparations_new (mkWaits [] 1) []) (mkClocks ∅ ∅) (mkDomains ∅ [] 0) ∅ [].

Definition with_accounts (s : Service) x : Service :=
  mkService x (table s) (tree s) (jobs s) (forks s) (held s) (clocks s) (domains s) (directories s)
    (deferred_child_notifications s).
Definition with_table (s : Service) x : Service :=
  mkService (accounts s) x (tree s) (jobs s) (forks s) (held s) (clocks s) (domains s) (directories s)
    (deferred_child_notifications s).
Definition with_tree (s : Service) x : Service :=
  mkService (accounts s) (table s) x (jobs s) (forks s) (held s) (clocks s) (domains s) (directories s)
    (deferred_child_notifications s).
Definition with_jobs (s : Service) x : Service :=
  mkService (accounts s) (table s) (tree s) x (forks s) (held s) (clocks s) (domains s) (directories s)
    (deferred_child_notifications s).
Definition with_forks (s : Service) x : Service :=
  mkService (accounts s) (table s) (tree s) (jobs s) x (held s) (clocks s) (domains s) (directories s)
    (deferred_child_notifications s).
Definition with_held (s : Service) x : Service :=
  mkService (accounts s) (table s) (tree s) (jobs s) (forks s) x (clocks s) (domains s) (directories s)
    (deferred_child_notifications s).
Definition with_clocks (s : Service) x : Service :=
  mkService (accounts s) (table s) (tree s) (jobs s) (forks s) (held s) x (domains s) (directories s)
    (deferred_child_notifications s).
Definition with_domains (s : Service) x : Service :=
  mkService (accounts s) (table s) (tree s) (jobs s) (forks s) (held s) (clocks s) x (directories s)
    (deferred_child_notifications s).
Definition with_directories (s : Service) x : Service :=
  mkService (accounts s) (table s) (tree s) (jobs s) (forks s) (held s) (clocks s) (domains s) x
    (deferred_child_notifications s).
Definition with_deferred (s : Service) x : Service :=
  mkService (accounts s) (table s) (tree s) (jobs s) (forks s) (held s) (clocks s) (domains s) (directories s) x.

Definition session_of (s : Service) (p : Z) : option Session := sessions (accounts s) !! p.
Definition handle_of (s : Service) (p : Z) : option Z := processes (tree s) !! p.
Definition wait_state (s : Service) (p : Z) : option ProcessWaitState := process_wait_states (table s) !! p.
Definition parent_of (s : Service) (p : Z) : option Z := parents (tree s) !! p.
Definition group_of (s : Service) (p : Z) : option Z := process_groups (jobs s) !! p.
Definition session_id (s : Service) (p : Z) : option Z := session_ids (jobs s) !! p.
Definition children_of (s : Service) (p : Z) : gset Z := default ∅ (children (tree s) !! p).
(** [is_some_and(|state| state.exit_observed)]. *)
Definition exit_seen (s : Service) (p : Z) : bool :=
  match wait_state s p with Some w => exit_observed w | None => false end.
Definition has_session (s : Service) (p : Z) : bool := bool_decide (is_Some (session_of s p)).
Definition has_process (s : Service) (p : Z) : bool := bool_decide (is_Some (handle_of s p)).
(** [registered_peer]: the credentials are read again where they are needed. *)
Definition registered_peer (s : Service) (p : Z) : bool := has_process s p && has_session s p.

Definition on_table {A} (m : stM SignalTable Z A) : stM Service Z A := λ s,
  let '(t, r) := m (table s) in (with_table s t, r).
Definition signal_process (p signal : Z) : stM Service Z unit := on_table (enqueue_signal p signal).
Definition alter_process_wait (p : Z) (f : ProcessWaitState → ProcessWaitState) (s : Service) : Service :=
  with_table s (alter_wait (table s) p f).

(** [publish_record_lock_state]. *)
Definition publish_locks (o : Z) (h : Held) : Held :=
  mkHeld (record_locks h) (record_lock_execs h) (record_lock_waits h)
    (set_hint o (RecordLock.has_owner (record_locks h) o) (resource_policies h)).
(** [record_locks.retire_owner], [publish_record_lock_state],
    [record_lock_execs.retire_owner] and [record_lock_waits.retire_owner]. *)
Definition retire_held (o : Z) (h : Held) : Held :=
  let h := publish_locks o
             (mkHeld (RecordLock.retire_owner (record_locks h) o) (record_lock_execs h) (record_lock_waits h)
                (resource_policies h)) in
  mkHeld (record_locks h) (execs_retire_owner (record_lock_execs h) o) (waits_retire_owner (record_lock_waits h) o)
    (resource_policies h).

(** ** The service with its backends *)

Context {B F : Type} {PB : ProcessBackend B} {FB : FilesystemBackend F}.

Record World := mkWorld { svc : Service; procs : B; files : F }.
Definition M (A : Type) : Type := stM World Z A.
Definition service {A} (m : stM Service Z A) : M A := λ w,
  let '(s, r) := m (svc w) in (mkWorld s (procs w) (files w), r).
Definition native {A} (m : stM B Z A) : M A := λ w,
  let '(b, r) := m (procs w) in (mkWorld (svc w) b (files w), r).
Definition stored {A} (m : stM F Z A) : M A := λ w,
  let '(f, r) := m (files w) in (mkWorld (svc w) (procs w) f, r).

(** ** Images ([image_state.rs]) *)

Definition capture_request_image (s : Service) (p : Z) : result Z (Z * Z) :=
  _ ← ok_or STATUS_ESRCH (handle_of s p);
  w ← ok_or STATUS_ESRCH (wait_state s p);
  Ok (p, observed_image_revision w).
(** What a newly observed image changes, after the last check. *)
Definition adopt_image (p revision : Z) (s : Service) : Service :=
  let s := with_accounts s
             (match session_of s p with
              | Some c => put_session (accounts s) p
                            (set_gids (set_uids c (real_uid c) (effective_uid c) (effective_uid c))
                               (real_gid c) (effective_gid c) (effective_gid c))
              | None => accounts s
              end) in
  let '(execs, locks) := commit_observed p revision (record_lock_execs (held s)) (record_locks (held s)) in
  let h := publish_locks p (mkHeld locks execs (record_lock_waits (held s)) (resource_policies (held s))) in
  let s := with_held s (mkHeld (record_locks h) (record_lock_execs h) (waits_retire_owner (record_lock_waits h) p)
                          (resource_policies h)) in
  let s := with_table s (reset_image_signals (table s) p) in
  alter_process_wait p (λ w, set_image w (fresh_image w) revision) s.
Definition refresh_process_image_state (owner : Z) (allow_exited : bool) : M unit :=
  handle ← service (need STATUS_ESRCH (λ s, handle_of s owner));
  image ← native (image_status handle);
  guard ((im_process_id image =? owner) && (im_reserved image =? 0)) STATUS_EIO;;
  (if im_state image =? PROCESS_STATE_RUNNING then mret tt
   else if im_state image =? PROCESS_STATE_EXITED then guard allow_exited STATUS_ESRCH
   else st_fail STATUS_EIO);;
  w ← service (need STATUS_ESRCH (λ s, wait_state s owner));
  if im_revision image <? observed_image_revision w then st_fail STATUS_EIO
  else if im_revision image =? observed_image_revision w then mret tt
  else
    service (
      need STATUS_ESRCH (λ s, signals (table s) !! owner);;
      need STATUS_ESRCH (λ s, signal_child_options (table s) !! owner);;
      need STATUS_ESRCH (λ s, session_of s owner);;
      modify (adopt_image owner (im_revision image))).
Definition refresh_image_state (p : Z) : M unit := refresh_process_image_state p false.
Definition validate_request_image (p : Z) (image : Z * Z) : M unit :=
  guard (image.1 =? p) STATUS_EPERM;;
  refresh_image_state p;;
  revision ← service (gets (λ s, observed_image_revision <$> wait_state s p));
  guard (bool_decide (revision = Some image.2)) STATUS_ESRCH.
End Service.
