(* ===== verification/Lifecycle.v ===== *)
(** * Exit, orphaning and reaping of processes

    Models the part of [posix/src/lib.rs] that follows native processes: the
    completion of queued resumes ([apply_process_resume]), the notification of
    parents ([posix/src/child_notification.rs]), the observation of an exit
    with the hangup of its terminal, the reparenting of its children and the
    signals to newly orphaned groups, and the removal of a process
    ([reap_observed_child]) by the reapers of orphans and of discarded
    children.  Allocation outcomes are boolean arguments. *)

From stdpp Require Import fin_maps.
From S2P Require Import Prelude RecordLock LockExec Reach RecordLockWait TimerSchedule PosixProtocol.
From S2P Require Import ProcessTimer Credentials SignalState Signals Service.

Section Lifecycle.
Context {LK : LockKind} {PP : PosixProtocol} {AP : AccountProtocol} {SC : SignalCodec} {VC : ServiceCodec}.

(** ** Process groups *)

(** The link that keeps the group of [member] under job control. *)
Definition outside_parent (s : Service) (member group : Z) : option (Z * Z) :=
  session ← session_id s member;
  parent ← parent_of s member;
  member_state ← wait_state s member;
  parent_state ← wait_state s parent;
  if negb (exit_observed member_state) && negb (exit_observed parent_state) &&
     bool_decide (session_id s parent = Some session) && negb (bool_decide (group_of s parent = Some group))
  then Some (session, group) else None.
Definition non_orphaned_groups (s : Service) : gset (Z * Z) :=
  list_to_set (omap (λ x, outside_parent s x.1 x.2) (map_to_list (process_groups (jobs s)))).
(** The members of a group of a session, and those that have not exited. *)
Definition in_group (s : Service) (session group member : Z) : bool :=
  bool_decide (group_of s member = Some group) && bool_decide (session_id s member = Some session).
Definition group_members (s : Service) (session group : Z) : list Z :=
  filter (λ m, in_group s session group m = true) (keys_in_order (process_groups (jobs s))).
Definition not_exited (s : Service) (p : Z) : bool :=
  match wait_state s p with Some w => negb (exit_observed w) | None => false end.
Definition live_members (s : Service) (session group : Z) : list Z :=
  filter (λ m, not_exited s m = true) (group_members s session group).
Definition is_stopped_process (s : Service) (p : Z) : bool :=
  match wait_state s p with Some w => is_stopped w | None => false end.
Definition hangup_group (g : Z * Z) : stM Service Z unit := λ s,
  let members := live_members s g.1 g.2 in
  if negb (existsb (is_stopped_process s) members) then (s, Ok tt)
  else (st_each (λ m, signal_process m SIGNAL_HUP) members;;
        st_each (λ m, signal_process m SIGNAL_CONT) members) s.
Definition notify_newly_orphaned_groups (connected_before : gset (Z * Z)) : stM Service Z unit := λ s,
  st_each hangup_group (pairs_in_order (elements (connected_before ∖ non_orphaned_groups s))) s.

(** ** Controlling terminals *)

Definition set_terminals (s : Service) c t : Service :=
  with_jobs s (mkJobs (process_groups (jobs s)) (session_ids (jobs s)) c t).
Definition release_session_terminal (session : Z) (s : Service) : Service :=
  match controlling_terminals (jobs s) !! session with
  | Some terminal =>
      set_terminals s (delete session (controlling_terminals (jobs s))) (delete terminal (terminals (jobs s)))
  | None => s
  end.
Definition signal_terminal_foreground_group (terminal signal : Z) : stM Service Z Z :=
  guard (negb ((signal =? 0) || (SIGNAL_MAX <? signal))) STATUS_EINVAL;;
  t ← need STATUS_ENOTTY (λ s, terminals (jobs s) !! terminal);
  targets ← gets (λ s, group_members s (ct_session t) (foreground_process_group t));
  guard (negb (bool_decide (targets = []))) STATUS_ESRCH;;
  st_each (λ p, signal_process p signal) targets;;
  mret (zlen targets).
Definition hangup_terminal (terminal : Z) : stM Service Z unit :=
  t ← need STATUS_ENOTTY (λ s, terminals (jobs s) !! terminal);
  signal_process (ct_session t) SIGNAL_HUP.
Definition hangup_exited_controlling_process (p : Z) : stM Service Z unit := λ s,
  match controlling_terminals (jobs s) !! p with
  | None => (s, Ok tt)
  | Some terminal =>
      (t ← need STATUS_ENOTTY (λ s, terminals (jobs s) !! terminal);
       (if negb (bool_decide (group_members s (ct_session t) (foreground_process_group t) = []))
        then signal_terminal_foreground_group terminal SIGNAL_HUP;; mret tt else mret tt);;
       modify (release_session_terminal p)) s
  end.

(** ** The tree *)

Definition set_links (s : Service) ps cs orphans : Service :=
  let t := tree s in
  with_tree s (mkTree (bootstrap_process_id t) (processes t) ps cs (launch_creators t) (tree_teardowns t) orphans).
Definition tree_teardown_owns (s : Service) (p : Z) : bool :=
  existsb (λ x : Z * list Z, bool_decide (p ∈ x.2)) (map_to_list (tree_teardowns (tree s))).
Definition reap_is_pinned (s : Service) (p : Z) : bool :=
  tree_teardown_owns s p || existsb (tree_teardown_owns s) (elements (children_of s p)).
Definition has_reparentable_children (s : Service) (p : Z) : bool :=
  match bootstrap_process_id (tree s) with Some reaper => negb (reaper =? p) | None => false end &&
  negb (tree_teardown_owns s p) &&
  existsb (λ c, negb (tree_teardown_owns s c)) (elements (children_of s p)).
Definition needs_parent_exit_observation (s : Service) (p : Z) : bool :=
  negb (bool_decide (bootstrap_process_id (tree s) = Some p)) && not_exited s p &&
  negb (bool_decide (children_of s p = ∅)).
(** [if let Some(siblings) = self.children.get_mut(&parent) { siblings.remove(&child) }]. *)
Definition drop_child (parent child : Z) (cs : gmap Z (gset Z)) : gmap Z (gset Z) :=
  alter (λ x, x ∖ {[child]}) parent cs.
Definition add_child (parent child : Z) (cs : gmap Z (gset Z)) : gmap Z (gset Z) :=
  <[parent := {[child]} ∪ default ∅ (cs !! parent)]> cs.
Definition prune_children (parent : Z) (cs : gmap Z (gset Z)) : gmap Z (gset Z) :=
  if bool_decide (cs !! parent = Some ∅) then delete parent cs else cs.
Definition reparent_child (reaper parent : Z) (s : Service) (c : Z) : Service :=
  let s := set_links s (<[c := reaper]> (parents (tree s)))
             (drop_child parent c (add_child reaper c (children (tree s))))
             ({[c]} ∪ orphaned_processes (tree s)) in
  alter_process_wait c (λ w, set_exit w (exit_observed w) false (discard_exit_status w)) s.
(** The children that move: those of no frozen tree. *)
Definition movable (s : Service) (p : Z) : list Z :=
  filter (λ c, tree_teardown_owns s c = false) (in_order (elements (children_of s p))).
Definition reparent_children_of_exited (parent : Z) (s : Service) : Service :=
  match bootstrap_process_id (tree s) with
  | None => s
  | Some reaper =>
      if (parent =? reaper) || negb (has_session s reaper) || tree_teardown_owns s parent then s
      else
        let s := foldl (reparent_child reaper parent) s (movable s parent) in
        set_links s (parents (tree s)) (prune_children parent (children (tree s))) (orphaned_processes (tree s))
  end.

(** ** The parent's view of a child *)

Definition notify_parent_of_child_change (c : Z) (change : ChildStatus) : stM Service Z unit := λ s,
  match parent_of s c with
  | None => (s, Ok tt)
  | Some parent =>
      if negb (bool_decide (is_Some (signals (table s) !! parent))) then (s, Ok tt)
      else if ((event change =? EVENT_STOPPED) || (event change =? EVENT_CONTINUED)) &&
              has (default 0 (signal_child_options (table s) !! parent)) SIGNAL_CHILD_OPTION_NOCLDSTOP
      then (s, Ok tt)
      else
        (session ← need STATUS_ESRCH (λ s, session_of s c);
         on_table (enqueue_signal_with_origin parent SIGNAL_CHLD
                     (mkOrigin ORIGIN_CHILD (real_uid session) c change None))) s
  end.
Definition prepare_child_resume (s : Service) (c : Z) : result Z (option Deferred) :=
  match parent_of s c with
  | None => Ok None
  | Some parent =>
      w ← ok_or STATUS_ESRCH (wait_state s parent);
      options ← ok_or STATUS_ESRCH (signal_child_options (table s) !! parent);
      session ← ok_or STATUS_ESRCH (session_of s c);
      Ok (Some (mkDeferred parent (observed_image_revision w) (has options SIGNAL_CHILD_OPTION_NOCLDSTOP)
                  (mkOrigin ORIGIN_CHILD (real_uid session) c (mkChildStatus EVENT_CONTINUED SIGNAL_CONT) None)))
  end.
Definition has_deferred_child_notifications (s : Service) : bool :=
  negb (bool_decide (deferred_child_notifications s = [])).
Definition discard_child_notifications_to (parent : Z) (s : Service) : Service :=
  with_deferred s (filter (λ e, def_parent e ≠ parent) (deferred_child_notifications s)).
(** The loop that publishes the events of one parent. *)
Fixpoint publish_deferred (fuel : nat) (parent revision completed : Z) : stM Service Z Z := λ s,
  match fuel, iter_position (λ e, def_parent e =? parent) (deferred_child_notifications s) with
  | _, None => (s, Ok completed)
  | O, Some _ => (s, Err PANIC)
  | S fuel, Some i =>
      match deferred_child_notifications s !! i with
      | None => (s, Err PANIC)
      | Some e =>
          let suppress := (def_revision e =? revision) && def_suppress e in
          ((if negb suppress then on_table (enqueue_signal_with_origin parent SIGNAL_CHLD (def_origin e))
            else mret tt);;
           modify (λ s, with_deferred s (delete i (deferred_child_notifications s)));;
           publish_deferred fuel parent revision (completed + 1)) s
      end
  end.

(** ** Timers and clocks *)

Definition retire_process_clock_targets (subject : Z) (t : SignalTable) : SignalTable :=
  let t := set_timers t (retire_process_target subject (process_timers t)) in
  set_notifications t
    (filter (λ o, match signals t !! o with Some s => negb (pending s =? 0) | None => false end ||
                  negb (pending_signal_mask (process_timers t) o =? 0) = true) (signal_notifications t)).
Definition forget_clocks (p : Z) (c : Clocks) : Clocks :=
  mkClocks (delete p (real_timers c)) (filter (λ x, x.1.1 ≠ p) (cpu_timers c)).
Definition has_cpu_timer_state (s : Service) (p : Z) : bool :=
  bool_decide (is_Some (cpu_timers (clocks s) !! (p, 1))) || bool_decide (is_Some (cpu_timers (clocks s) !! (p, 2))).
Definition drop_policies (p : Z) (h : Held) : Held :=
  mkHeld (record_locks h) (record_lock_execs h) (record_lock_waits h)
    (filter (λ x, x.1 ≠ p) (resource_policies h)).

Context {B F : Type} {PB : ProcessBackend B} {FB : FilesystemBackend F}.
#[local] Abbreviation M := (@M LK B F).
#[local] Abbreviation World := (@World LK B F).

Definition refresh_child_notifications_for_parent (parent : Z) : M Z := λ w,
  if negb (existsb (λ e, def_parent e =? parent) (deferred_child_notifications (svc w))) then (w, Ok 0)
  else
    (refresh_process_image_state parent true;;
     revision ← service (need PANIC (λ s, observed_image_revision <$> wait_state s parent));
     service (λ s, publish_deferred (length (deferred_child_notifications s)) parent revision 0 s)) w.
Definition refresh_child_notifications : M Z := λ w,
  st_all refresh_child_notifications_for_parent
    (in_order (elements (list_to_set (def_parent <$> deferred_child_notifications (svc w)) : gset Z))) 0 None w.
Definition refresh_child_notifications_for_child (c : Z) : M unit := λ w,
  match parent_of (svc w) c with
  | Some parent => (refresh_child_notifications_for_parent parent;; mret tt) w
  | None => (w, Ok tt)
  end.
Definition refresh_parent_image (c : Z) : M unit := λ w,
  match parent_of (svc w) c with
  | Some parent => refresh_process_image_state parent true w
  | None => (w, Ok tt)
  end.

Definition is_exited (l : ProcessLifecycle) : bool := match l with Exited _ => true | Running => false end.
(** After the native process has resumed; nothing can fail any more. *)
Definition confirm_resume (p : Z) (cont : bool) (notification : option Deferred) (s : Service) : Service :=
  let s := with_table s (set_resumes (table s) (process_resume_notifications (table s) ∖ {[p]})) in
  match wait_state s p with
  | None => s
  | Some ws =>
      let ws := set_resume ws false in
      let '(ws, changed) := if cont then continued ws else (ws, false) in
      let s := with_table s (put_wait (table s) p ws) in
      match changed, notification with
      | true, Some e => with_deferred s (deferred_child_notifications s ++ [e])
      | _, _ => s
      end
  end.
Definition apply_process_resume (alloc : bool) (p : Z) : M bool := λ w,
  if negb (bool_decide (p ∈ process_resume_notifications (table (svc w)))) then (w, Ok false)
  else
    (handle ← service (need STATUS_ESRCH (λ s, handle_of s p));
     ws ← service (need STATUS_ESRCH (λ s, wait_state s p));
     status ← native (proc_status handle);
     if is_exited status then
       service (modify (λ s, with_table s (cancel_unconfirmed_resume (table s) p)));; mret true
     else
       let cont := resume_continued ws in
       notification ← service (reads (λ s, if cont then prepare_child_resume s p else Ok None));
       guard (bool_decide (notification = None) || alloc) STATUS_ENOMEM;;
       native (resume handle);;
       service (modify (confirm_resume p cont notification));;
       mret true) w.

(** ** Exit *)

Definition exit_change (w : ProcessWaitState) (exit_code : Z) : ChildStatus :=
  match termination_signal w with
  | Some signal => mkChildStatus EVENT_KILLED signal
  | None => mkChildStatus EVENT_EXITED (Z.land exit_code 255)
  end.
Definition set_exit_notified (p : Z) (b : bool) (s : Service) : Service :=
  alter_process_wait p (λ w, set_exit w (exit_observed w) b (discard_exit_status w)) s.
Definition note_child_exited (c exit_code : Z) : M bool :=
  refresh_child_notifications_for_child c;;
  refresh_parent_image c;;
  w ← service (need STATUS_ESRCH (λ s, wait_state s c));
  if exit_notified w then mret false
  else
    service (modify (set_exit_notified c true);;
             undoing (set_exit_notified c false) (notify_parent_of_child_change c (exit_change w exit_code)));;
    mret true.
(** What an exit retires, and what it leaves to be done. *)
Definition retire_exited (p : Z) (s : Service) : Service :=
  let s := with_clocks s (forget_clocks p (clocks s)) in
  let s := with_table s (set_timers (table s) (ProcessTimer.retire_owner p (process_timers (table s)))) in
  let s := with_table s (retire_process_clock_targets p (table s)) in
  with_held s (drop_policies p (held s)).
(** What every observation of an exit does. *)
Definition retire_at_exit (p : Z) : M unit :=
  service (modify (λ s,
    let s := with_table s (cancel_unconfirmed_resume (table s) p) in
    with_held s (retire_held p (held s))));;
  refresh_child_notifications_for_child p;;
  refresh_parent_image p;;
  service (λ s,
    if match parent_of s p with Some parent => discards_child_status (table s) parent | None => false end
    then (need STATUS_ESRCH (λ s, wait_state s p);;
          modify (alter_process_wait p (λ w, set_exit w (exit_observed w) (exit_notified w) true))) s
    else (s, Ok tt)).
Definition mark_exited (p : Z) (s : Service) : Service :=
  reparent_children_of_exited p
    (alter_process_wait p (λ w, set_exit w true (exit_notified w) (discard_exit_status w)) s).
(** What the first one does. *)
Definition first_exit (p : Z) : stM Service Z unit :=
  connected_before ← gets non_orphaned_groups;
  modify (retire_exited p);;
  hangup_exited_controlling_process p;;
  need STATUS_ESRCH (λ s, wait_state s p);;
  modify (mark_exited p);;
  notify_newly_orphaned_groups connected_before.
Definition observe_process_exit (p : Z) : M unit :=
  retire_at_exit p;;
  w ← service (need STATUS_ESRCH (λ s, wait_state s p));
  if exit_observed w then mret tt else service (first_exit p).

(** ** Prepared forks that go *)

Definition owned_by (f : ForkState) (p : Z) : bool := f_owner f =? p.
Definition release_directories (d : option SessionDirectories) (f : F) : F :=
  match d with Some d => release_object (dir_cwd d) (release_object (dir_root d) f) | None => f end.
Definition release_fork (x : Z * ForkState) : F → F := release_directories (f_directories x.2).
(** [while index < len]: an entry that goes is replaced by the last one. *)
Fixpoint sweep {A} (gone : A → bool) (release : A → F → F) (fuel index : nat) (l : list A) (f : F) (n : Z)
    : list A * F * Z :=
  match fuel, l !! index with
  | S fuel, Some x =>
      if gone x then sweep gone release fuel index (swap_remove index l) (release x f) (n + 1)
      else sweep gone release fuel (S index) l f n
  | _, _ => (l, f, n)
  end.
Definition sweep_forks (gone : Z * ForkState → bool) (w : World) : World * Z :=
  let l := prepared_forks (forks (svc w)) in
  let '(l, f, n) := sweep gone release_fork (length l) 0 l (files w) 0 in
  (mkWorld (with_forks (svc w) (mkForks l (next_fork_token (forks (svc w))))) (procs w) f, n).
Definition cancel_owned_forks (p : Z) (w : World) : World := (sweep_forks (λ x, owned_by x.2 p) w).1.

(** ** Reaping *)

Definition forget_accounts (p : Z) (a : Accounts) : Accounts :=
  mkAccounts (delete p (sessions a)) (delete p (supplementary_groups a))
    (filter (λ x, x.1.1 ≠ p) (resource_limits a)) (delete p (cpu_notifications a)).
(** The maps of the tree that name a reaped child. *)
Definition forget_links (parent c : Z) (s : Service) : Service :=
  let t := tree s in
  with_tree s (mkTree (bootstrap_process_id t) (processes t) (delete c (parents t))
                 (prune_children parent (drop_child parent c (children t)))
                 (delete c (launch_creators t)) (tree_teardowns t) (orphaned_processes t ∖ {[c]})).
Definition forget_jobs (c : Z) (s : Service) : Service :=
  let leads := bool_decide (session_id s c = Some c) in
  let s := with_jobs s (mkJobs (delete c (process_groups (jobs s))) (delete c (session_ids (jobs s)))
                          (controlling_terminals (jobs s)) (terminals (jobs s))) in
  if leads then release_session_terminal c s else s.
Definition forget_domains (c : Z) (d : Domains) : Domains :=
  mkDomains (delete c (process_domains d)) (domain_entries d) (domain_next d).
Definition forget_child (parent c : Z) (s : Service) : Service :=
  let s := with_held s (drop_policies c (held s)) in
  let s := forget_jobs c (with_domains (forget_links parent c s) (forget_domains c (domains s))) in
  let s := with_accounts s (forget_accounts c (accounts s)) in
  let s := with_table s (forget_process c (table s)) in
  let s := discard_child_notifications_to c s in
  let s := with_clocks s (forget_clocks c (clocks s)) in
  let s := with_held s (retire_held c (held s)) in
  with_table s (retire_process_clock_targets c (table s)).
Definition reap_observed_child (parent c : Z) (w : World) : World :=
  let w := cancel_owned_forks c w in
  let s := forget_child parent c (svc w) in
  let f := release_directories (directories s !! c) (files w) in
  let b := match handle_of s c with Some handle => release handle (procs w) | None => procs w end in
  let t := tree s in
  let s := with_tree (with_directories s (delete c (directories s)))
             (mkTree (bootstrap_process_id t) (delete c (processes t)) (parents t) (children t) (launch_creators t)
                (tree_teardowns t) (orphaned_processes t)) in
  mkWorld s b f.
Definition reap_child (parent c : Z) : M unit :=
  observe_process_exit c;; modify (reap_observed_child parent c).

Definition reap_orphan (p : Z) : M bool := λ w,
  if reap_is_pinned (svc w) p then (w, Ok false)
  else
    (handle ← service (need STATUS_ESRCH (λ s, handle_of s p));
     status ← native (proc_status handle);
     if negb (is_exited status) then mret false
     else
       observe_process_exit p;;
       parent ← service (need STATUS_ESRCH (λ s, parent_of s p));
       reap_child parent p;;
       mret true) w.
Definition reap_orphans : M Z := λ w,
  st_count reap_orphan (in_order (elements (orphaned_processes (tree (svc w))))) 0 w.

Definition discarded (s : Service) (c : Z) : bool :=
  match wait_state s c with Some w => discard_exit_status w | None => false end.
Definition discard_candidates (filter_parent : option Z) (s : Service) : list (Z * Z) :=
  omap (λ c,
    parent ← parent_of s c;
    if match filter_parent with Some p => negb (p =? parent) | None => false end then None
    else if discarded s c || discards_child_status (table s) parent then Some (c, parent) else None)
    (keys_in_order (parents (tree s))).
Definition reap_discarded (x : Z * Z) : M bool :=
  let '(c, parent) := x in
  refresh_parent_image c;;
  due ← service (gets (λ s, discarded s c || discards_child_status (table s) parent));
  if negb (due : bool) then mret false
  else
    handle ← service (need STATUS_ESRCH (λ s, handle_of s c));
    status ← native (proc_status handle);
    if negb (is_exited status) then mret false
    else
      observe_process_exit c;;
      w ← service (need STATUS_ESRCH (λ s, wait_state s c));
      if negb (discard_exit_status w) then mret false
      else
        pinned ← service (gets (λ s, reap_is_pinned s c));
        if (pinned : bool) then mret false else reap_child parent c;; mret true.
Definition reap_discarded_children_for (filter_parent : option Z) : M Z := λ w,
  st_count reap_discarded (discard_candidates filter_parent (svc w)) 0 w.
Definition reap_discarded_children : M Z := reap_discarded_children_for None.

(** ** Observation of every process *)

(** Something of [p] is still to be retired or reported at its exit. *)
Definition awaits_exit (s : Service) (p : Z) (w : ProcessWaitState) : bool :=
  negb ((exit_notified w || negb (bool_decide (is_Some (parent_of s p)))) &&
        negb (has_reparentable_children s p) &&
        negb (bool_decide (is_Some (controlling_terminals (jobs s) !! p))) &&
        negb (needs_parent_exit_observation s p) &&
        negb (existsb (λ x, x.1 =? p) (resource_policies (held s))) &&
        negb (bool_decide (is_Some (real_timers (clocks s) !! p))) &&
        negb (has_cpu_timer_state s p) &&
        negb (ProcessTimer.has_owner (process_timers (table s)) p) &&
        negb (RecordLock.has_owner (record_locks (held s)) p) &&
        negb (execs_has_owner (record_lock_execs (held s)) p) &&
        negb (waits_has_owner (record_lock_waits (held s)) p) &&
        negb (observes_process (process_timers (table s)) p)).
Definition exit_candidates (s : Service) : list (Z * Z) :=
  omap (λ p, w ← wait_state s p; if awaits_exit s p w then pair p <$> handle_of s p else None)
    (keys_in_order (processes (tree s))).
Definition observe_candidate (x : Z * Z) : M Z :=
  let '(c, handle) := x in
  status ← native (proc_status handle);
  match status with
  | Running => mret 0
  | Exited exit_code =>
      observe_process_exit c;;
      has_parent ← service (gets (λ s, bool_decide (is_Some (parent_of s c))));
      if (has_parent : bool) then notified ← note_child_exited c exit_code; mret (if (notified : bool) then 1 else 0)
      else mret 0
  end.
Definition refresh_child_exit_notifications : M Z := λ w,
  let '(w, r) := refresh_child_notifications w in
  let failure := match r with Ok _ => None | Err e => Some e end in
  st_all observe_candidate (exit_candidates (svc w)) 0 failure w.
Definition child_lifecycle_handles (s : Service) : list Z :=
  omap (λ p,
    w ← wait_state s p;
    if (negb (exit_notified w) && bool_decide (is_Some (parent_of s p))) ||
       existsb (λ x, owned_by x.2 p) (prepared_forks (forks s)) ||
       existsb (λ x, x.1 =? p) (resource_policies (held s)) ||
       has_reparentable_children s p ||
       needs_parent_exit_observation s p ||
       bool_decide (is_Some (controlling_terminals (jobs s) !! p)) ||
       (negb (exit_observed w) &&
        (bool_decide (is_Some (real_timers (clocks s) !! p)) ||
         has_cpu_timer_state s p ||
         ProcessTimer.has_owner (process_timers (table s)) p ||
         RecordLock.has_owner (record_locks (held s)) p ||
         execs_has_owner (record_lock_execs (held s)) p ||
         waits_has_owner (record_lock_waits (held s)) p ||
         observes_process (process_timers (table s)) p))
    then handle_of s p else None) (keys_in_order (processes (tree s))).
End Lifecycle.
