(* ===== verification/Fork.v ===== *)
(** * Admission of processes to the POSIX service

    Models [posix/src/fork_state.rs], the admission of processes in
    [posix/src/lib.rs] ([initialize_bootstrap_process] to
    [initialize_process_environment], [bind_process], [adopt_child],
    [adopt_spawned_child], [adopt_launched_child]) and the launch domains of
    [posix/src/process_domain.rs].  A fork freezes the policy of its parent and
    later installs it on the child.  Allocation outcomes are boolean arguments;
    the comparison of native handles and the creation of a domain's object are
    functions the caller passes in the source, and arguments here. *)

From stdpp Require Import fin_maps.
From S2P Require Import Prelude RecordLock LockExec Reach RecordLockWait TimerSchedule PosixProtocol.
From S2P Require Import ProcessTimer Credentials SignalState Signals Service Lifecycle.

Definition MAX_PREPARED_FORKS : Z := 1024.
Definition MAX_PREPARED_FORKS_PER_PROCESS : Z := 64.
(** [AuthenticatedProcess] and [AttachedObject]. *)
Record Authenticated := mkAuthenticated { au_handle : Z; au_process_id : Z }.
Record Attached := mkAttached { at_handle : Z; at_rights : Z }.

Section Fork.
Context {LK : LockKind} {PP : PosixProtocol} {AP : AccountProtocol} {SC : SignalCodec} {VC : ServiceCodec}.

Definition validate_fork_child (object : Attached) (st : ImageStatus) : result Z Authenticated :=
  ensure (negb ((at_handle object =? 0) ||
                negb (at_rights object =? Z.lor HANDLE_RIGHT_WAIT HANDLE_RIGHT_SIGNAL) ||
                (im_process_id st =? 0) || negb (im_reserved st =? 0))) STATUS_EINVAL;;
  ensure (im_state st =? PROCESS_STATE_RUNNING) STATUS_ESRCH;;
  Ok (mkAuthenticated (at_handle object) (im_process_id st)).

(** ** Binding *)

Definition set_processes (s : Service) ps : Service :=
  let t := tree s in
  with_tree s (mkTree (bootstrap_process_id t) ps (parents t) (children t) (launch_creators t) (tree_teardowns t)
                 (orphaned_processes t)).
Definition put_job (s : Service) (p group session : Z) : Service :=
  with_jobs s (mkJobs (<[p := group]> (process_groups (jobs s))) (<[p := session]> (session_ids (jobs s)))
                 (controlling_terminals (jobs s)) (terminals (jobs s))).
Definition bind_process (peer : Z) (process : Authenticated) : stM Service Z bool := λ s,
  if negb (au_process_id process =? peer) then (s, Err STATUS_EINVAL)
  else if has_process s peer then (s, Ok false)
  else
    let s := set_processes s (<[peer := au_handle process]> (processes (tree s))) in
    let s := put_job s peer peer peer in
    let s := with_accounts s (put_groups (accounts s) peer []) in
    (with_table s (install_process peer signal_state_default 0 (table s)), Ok true).
Definition initialize_process_environment (process : Authenticated) (uid gid : Z) (groups : list Z)
    : stM Service Z unit :=
  let p := au_process_id process in
  b ← gets (λ s, has_process s p || has_session s p);
  guard (negb b) STATUS_EINVAL;;
  guard (negb ((p =? 0) || (uid =? U32_MAX) || (gid =? U32_MAX) || (MAX_SUPPLEMENTARY_GROUPS <? zlen groups)))
    STATUS_EINVAL;;
  bind_process p process;;
  modify (λ s, with_accounts s
                 (put_groups (put_session (accounts s) p (mkSession p uid uid uid gid gid gid 18)) p groups)).
Definition initialize_bootstrap_process (process : Authenticated) (uid gid : Z) (groups : list Z)
    : stM Service Z unit :=
  b ← gets (λ s, bool_decide (processes (tree s) = ∅) && bool_decide (sessions (accounts s) = ∅));
  guard b STATUS_EPERM;;
  initialize_process_environment process uid gid groups;;
  modify (λ s, let t := tree s in
    with_tree s (mkTree (Some (au_process_id process)) (processes t) (parents t) (children t) (launch_creators t)
                   (tree_teardowns t) (orphaned_processes t))).
Definition initialize_process (peer : Z) (process : Authenticated) (uid gid : Z) (groups : list Z)
    : stM Service Z unit :=
  b ← gets (λ s, bool_decide (bootstrap_process_id (tree s) = Some peer) &&
                 match session_of s peer with Some c => effective_uid c =? 0 | None => false end);
  guard b STATUS_EPERM;;
  initialize_process_environment process uid gid groups.

(** ** Launch domains *)

(** [marker.strong_count() != 0]: the registry still holds the domain. *)
Definition domain_alive (d : Domains) (id : Z) : bool := existsb (λ e, e.1 =? id) (domain_entries d).
Definition inherit (alloc : bool) (d : Domains) (source : option (list Z)) : result Z (list Z) :=
  match source with
  | None => Ok []
  | Some l => if alloc then Ok (filter (λ id, domain_alive d id = true) l) else Err STATUS_ENOMEM
  end.

(** ** Forks *)

Definition fork_matches_image (s : Service) (f : ForkState) : bool :=
  match wait_state s (f_owner f) with
  | Some w => observed_image_revision w =? f_image_revision f
  | None => false
  end.
Definition check_fork_process_limit (s : Service) (c : Session) : result Z unit :=
  let limit := soft (limit_of (accounts s) (process_id c, RLIMIT_NPROC)) in
  if (real_uid c =? 0) || (limit =? RLIM_INFINITY) then Ok tt
  else
    let registered :=
      filter (λ p, match session_of s p with Some o => real_uid o =? real_uid c | None => false end = true)
        (map_to_list (processes (tree s))).*1 in
    let prepared :=
      filter (λ x, (real_uid (f_session x.2) =? real_uid c) && fork_matches_image s x.2 = true)
        (prepared_forks (forks s)) in
    ensure (negb (limit <=? zlen registered + zlen prepared)) STATUS_EAGAIN.
Definition limits_of (a : Accounts) (p : Z) : list (Z * ResourceLimit) :=
  omap (λ r, pair r <$> resource_limits a !! (p, r))
    (in_order (omap (λ x, if x.1.1 =? p then Some x.1.2 else None) (map_to_list (resource_limits a)))).
Definition fork_index (s : Service) (peer token : Z) : result Z (nat * ForkState) :=
  i ← ok_or STATUS_ESRCH (iter_position (λ x, x.1 =? token) (prepared_forks (forks s)));
  x ← ok_or PANIC (prepared_forks (forks s) !! i);
  ensure (owned_by x.2 peer) STATUS_EPERM;;
  Ok (i, x.2).
Definition set_prepared (s : Service) l : Service := with_forks s (mkForks l (next_fork_token (forks s))).
(** The registration of the child, once nothing can fail. *)
Definition install_child (c handle : Z) (domains_of : list Z) (f : ForkState) (s : Service) : Service :=
  let o := f_owner f in
  let session := f_session f in
  let t := tree s in
  let s := with_tree s (mkTree (bootstrap_process_id t) (<[c := handle]> (processes t)) (<[c := o]> (parents t))
                          (add_child o c (children t)) (<[c := o]> (launch_creators t)) (tree_teardowns t)
                          (orphaned_processes t)) in
  let d := domains s in
  let s := if bool_decide (domains_of = []) then s
           else with_domains s (mkDomains (<[c := domains_of]> (process_domains d)) (domain_entries d) (domain_next d)) in
  let a := put_groups
             (put_session (accounts s) c
                (mkSession c (real_uid session) (effective_uid session) (saved_uid session) (real_gid session)
                   (effective_gid session) (saved_gid session) (umask session))) c (f_groups f) in
  let s := with_accounts s
             (set_limits a (foldl (λ m x, <[(c, x.1) := x.2]> m) (resource_limits a) (f_limits f))
                (cpu_notifications a)) in
  let s := match f_directories f with
           | Some d => with_directories s (<[c := d]> (directories s))
           | None => s
           end in
  let s := put_job s c (f_group f) (f_session_id f) in
  with_table s (install_process c (f_signals f) (f_child_options f) (table s)).
Definition commit_fork (alloc : bool) (peer token : Z) (process : Authenticated) : stM Service Z unit := λ s,
  let c := au_process_id process in
  match
    ('(i, f) ← fork_index s peer token;
     ensure (fork_matches_image s f) STATUS_ESRCH;;
     ensure (negb (tree_teardown_owns s peer)) STATUS_EAGAIN;;
     ensure (negb ((c =? 0) || (c =? peer) || negb (has_process s peer) || has_process s c || has_session s c))
       STATUS_EINVAL;;
     ensure (negb (exit_seen s peer)) STATUS_ESRCH;;
     d ← inherit alloc (domains s) (process_domains (domains s) !! peer);
     Ok (i, f, d))
  with
  | Err e => (s, Err e)
  | Ok (i, f, d) =>
      (install_child c (au_handle process) d f (set_prepared s (swap_remove i (prepared_forks (forks s)))), Ok tt)
  end.

Context {B F : Type} {PB : ProcessBackend B} {FB : FilesystemBackend F}.
#[local] Abbreviation M := (@M LK B F).
#[local] Abbreviation World := (@World LK B F).

Definition reap_invalidated_forks : M Z := λ w,
  let '(w, n) := sweep_forks (λ x, negb (fork_matches_image (svc w) x.2)) w in (w, Ok n).
(** Both directories, or neither. *)
Definition retain_directories (d : SessionDirectories) : stM F Z SessionDirectories :=
  root ← retain_object (dir_root d);
  cwd ← undoing (release_object root) (retain_object (dir_cwd d));
  mret (mkDirectories root cwd).
Definition retain_parent (d : option SessionDirectories) : M (option SessionDirectories) :=
  match d with
  | Some d => r ← stored (retain_directories d); mret (Some r)
  | None => mret None
  end.
(** The policy of the owner is frozen under [token]. *)
Definition record_fork (alloc_groups alloc_limits alloc_entry : bool) (owner revision token next : Z) : M Z :=
  session ← service (need STATUS_ESRCH (λ s, session_of s owner));
  service (reads (λ s, check_fork_process_limit s session));;
  group ← service (need STATUS_ESRCH (λ s, group_of s owner));
  sid ← service (need STATUS_ESRCH (λ s, session_id s owner));
  sg ← service (need STATUS_ESRCH (λ s, signals (table s) !! owner));
  options ← service (gets (λ s, default 0 (signal_child_options (table s) !! owner)));
  groups ← service (gets (λ s, default [] (supplementary_groups (accounts s) !! owner)));
  guard alloc_groups (-12);;
  limits ← service (gets (λ s, limits_of (accounts s) owner));
  guard (alloc_limits && alloc_entry) (-12);;
  parent ← service (gets (λ s, directories s !! owner));
  dirs ← retain_parent parent;
  service (modify (λ s, with_forks s
    (mkForks (prepared_forks (forks s) ++
              [(token, mkFork owner revision session dirs group sid groups limits (fork_child sg) options)]) next)));;
  mret token.
(** No preparation is possible for [owner] now. *)
Definition fork_refused (s : Service) (owner : Z) : bool :=
  tree_teardown_owns s owner || exit_seen s owner ||
  (MAX_PREPARED_FORKS <=? zlen (prepared_forks (forks s))) ||
  (MAX_PREPARED_FORKS_PER_PROCESS <=? zlen (filter (λ x, owned_by x.2 owner = true) (prepared_forks (forks s)))).
Definition prepare_fork (alloc_groups alloc_limits alloc_entry : bool) (owner : Z) : M Z :=
  service (need STATUS_ESRCH (λ s, handle_of s owner));;
  ws ← service (need STATUS_ESRCH (λ s, wait_state s owner));
  reap_invalidated_forks;;
  b ← service (gets (λ s, fork_refused s owner));
  guard (negb b) STATUS_EAGAIN;;
  token ← service (gets (λ s, next_fork_token (forks s)));
  next ← st_lift (ok_or STATUS_EOVERFLOW (checked_add U64_MAX token 1));
  record_fork alloc_groups alloc_limits alloc_entry owner (observed_image_revision ws) token next.
Definition cancel_fork (peer token : Z) : M unit := λ w,
  match fork_index (svc w) peer token with
  | Err e => (w, Err e)
  | Ok (i, f) =>
      (mkWorld (set_prepared (svc w) (swap_remove i (prepared_forks (forks (svc w))))) (procs w)
         (release_directories (f_directories f) (files w)), Ok tt)
  end.
(** The owners that have exited lose their preparations. *)
Fixpoint sweep_exited (fuel index : nat) (n : Z) : M Z := λ w,
  match fuel, prepared_forks (forks (svc w)) !! index with
  | S fuel, Some (token, f) =>
      (handle ← service (need STATUS_ESRCH (λ s, handle_of s (f_owner f)));
       st ← native (proc_status handle);
       if is_exited st then
         modify (λ w, mkWorld (set_prepared (svc w) (swap_remove index (prepared_forks (forks (svc w))))) (procs w)
                        (release_directories (f_directories f) (files w)));;
         sweep_exited fuel index (n + 1)
       else sweep_exited fuel (S index) n) w
  | _, _ => (w, Ok n)
  end.
Definition reap_abandoned_forks : M Z :=
  reaped ← reap_invalidated_forks;
  n ← service (gets (λ s, length (prepared_forks (forks s))));
  sweep_exited n 0 reaped.

(** ** Adoption *)

(** The outcomes of the allocations of one adoption. *)
Record Allocations := mkAllocations {
  al_groups : bool;
  al_limits : bool;
  al_entry : bool;
  al_domains : bool;
}.
Definition adopt_child (al : Allocations) (peer : Z) (process : Authenticated) : M unit :=
  token ← prepare_fork (al_groups al) (al_limits al) (al_entry al) peer;
  undoing (λ w, (cancel_fork peer token w).1) (service (commit_fork (al_domains al) peer token process)).
(** What a fresh image does not take over from its parent. *)
Definition fresh_child (creator c : Z) (s : Service) : Service :=
  let s := with_table s (reset_image_signals (table s) c) in
  let s := alter_process_wait c (λ w, set_image w true (observed_image_revision w)) s in
  let t := tree s in
  with_tree s (mkTree (bootstrap_process_id t) (processes t) (parents t) (children t)
                 (<[c := creator]> (launch_creators t)) (tree_teardowns t) (orphaned_processes t)).
Definition may_assign (s : Service) (peer : Z) (parent : Session) (uid gid : Z) (groups : list Z) : bool :=
  (effective_uid parent =? 0) ||
  ((uid =? effective_uid parent) && (gid =? effective_gid parent) &&
   forallb (λ g, match supplementary_groups (accounts s) !! peer with
                 | Some l => bool_decide (g ∈ l)
                 | None => false
                 end) groups).
Definition adopt_spawned_child (al : Allocations) (peer : Z) (process : Authenticated) (uid gid : Z)
    (groups : list Z) : M unit :=
  let c := au_process_id process in
  guard (negb ((uid =? U32_MAX) || (gid =? U32_MAX) || (MAX_SUPPLEMENTARY_GROUPS <? zlen groups))) STATUS_EINVAL;;
  parent ← service (need STATUS_ESRCH (λ s, session_of s peer));
  allowed ← service (gets (λ s, may_assign s peer parent uid gid groups));
  guard allowed STATUS_EPERM;;
  adopt_child al peer process;;
  session ← service (need PANIC (λ s, session_of s c));
  service (modify (λ s, fresh_child peer c
    (with_accounts s
       (put_groups (put_session (accounts s) c (set_gids (set_uids session uid uid uid) gid gid gid)) c groups)))).
Definition adopt_launched_child (al : Allocations) (peer : Z) (requester process : Authenticated) : M unit :=
  let c := au_process_id process in
  broker ← service (need STATUS_ESRCH (λ s, session_of s peer));
  guard (effective_uid broker =? 0) STATUS_EPERM;;
  parent ← service (need STATUS_ESRCH (λ s, session_of s (au_process_id requester)));
  adopt_child al (process_id parent) process;;
  session ← service (need PANIC (λ s, session_of s c));
  service (modify (λ s, fresh_child peer c
    (with_accounts s
       (put_session (accounts s) c
          (set_gids (set_uids session (real_uid session) (effective_uid session) (effective_uid session))
             (real_gid session) (effective_gid session) (effective_gid session)))))).
End Fork.
