(* ===== verification/Launch.v ===== *)
(** * Launched process trees and launch domains

    Models the teardown of launched trees in [posix/src/lib.rs]
    ([launched_tree_process_ids] to [abort_launched_child]) and the registry of
    launch domains of [posix/src/process_domain.rs].  Both walk the tree of
    children, with an explicit amount of fuel; the walks are shown to end. *)

From stdpp Require Import fin_maps.
From S2P Require Import Prelude RecordLock LockExec Reach RecordLockWait TimerSchedule PosixProtocol.
From S2P Require Import ProcessTimer Credentials SignalState Signals Service Lifecycle Fork.

Definition ID_BASE : Z := 2 ^ 62.
Definition MAX_DOMAINS : Z := 256.
Definition MAX_PER_OWNER : Z := 16.
(** [EBADF]. *)
Definition BAD_DOMAIN : Z := -9.

Class DomainWire := {
  MAX_ROOTS : Z;
  TOKEN_RIGHTS : Z;
  IPC_DELIVERY_NATIVE_OBJECT : Z;
  OP_RELEASE : Z;
  (** [RequestHeader::decode]: the opcode and the object *)
  decode_provider_request : list Z → option (Z * Z);
}.

Section Launch.
Context {LK : LockKind} {PP : PosixProtocol} {AP : AccountProtocol} {SC : SignalCodec} {VC : ServiceCodec}.

(** ** The tree below a process *)

Definition children_in_order (s : Service) (p : Z) : list Z := in_order (elements (children_of s p)).
(** [while index < process_ids.len()]. *)
Fixpoint extend_tree (s : Service) (fuel index : nat) (ids : list Z) : option (list Z) :=
  match ids !! index with
  | None => Some ids
  | Some p =>
      match fuel with
      | O => None
      | S fuel => extend_tree s fuel (S index) (ids ++ children_in_order s p)
      end
  end.
Definition launched_tree_process_ids (s : Service) (peer root : Z) : result Z (list Z) :=
  ensure (registered_peer s peer) STATUS_ESRCH;;
  ensure (bool_decide (launch_creators (tree s) !! root = Some peer)) STATUS_EPERM;;
  ids ← ok_or PANIC (extend_tree s (size (parents (tree s)) + 1) 0 [root]);
  Ok (reverse ids).
(** [collect::<Result<_, _>>()]. *)
Fixpoint collect_handles (s : Service) (ids : list Z) : result Z (list Z) :=
  match ids with
  | [] => Ok []
  | p :: ids => handle ← ok_or STATUS_ESRCH (handle_of s p); l ← collect_handles s ids; Ok (handle :: l)
  end.
Definition launched_tree_handles (s : Service) (peer root : Z) : result Z (list Z) :=
  ids ← launched_tree_process_ids s peer root; collect_handles s ids.
Definition set_teardowns (s : Service) x : Service :=
  let t := tree s in
  with_tree s (mkTree (bootstrap_process_id t) (processes t) (parents t) (children t) (launch_creators t) x
                 (orphaned_processes t)).

Context {B F : Type} {PB : ProcessBackend B} {FB : FilesystemBackend F}.
#[local] Abbreviation M := (@M LK B F).

Definition terminate_confirmed (handle code : Z) : M unit :=
  st ← native (proc_status handle);
  if is_exited st then mret tt
  else
    native (terminate handle code);;
    st ← native (proc_status handle);
    guard (is_exited st) STATUS_EAGAIN.
(** The first request freezes the members of the tree. *)
Definition freeze_tree (root : Z) (members : list Z) : stM Service Z unit := λ s,
  match tree_teardowns (tree s) !! root with
  | Some _ => (s, Ok tt)
  | None =>
      (guard (negb (existsb (tree_teardown_owns s) members)) STATUS_EAGAIN;;
       guard (forallb (λ p, bool_decide (is_Some (parent_of s p)) && has_process s p) members) STATUS_ESRCH;;
       modify (λ s, set_teardowns s (<[root := members]> (tree_teardowns (tree s))))) s
  end.
Definition begin_launched_tree_termination (peer root : Z) : M unit :=
  members ← service (reads (λ s, launched_tree_process_ids s peer root));
  service (freeze_tree root members);;
  handles ← service (reads (λ s, collect_handles s (default [] (tree_teardowns (tree s) !! root))));
  st_each (λ handle, terminate_confirmed handle 1) handles.
Fixpoint reclaim_plan (s : Service) (ids : list Z) : result Z (list (Z * Z * Z)) :=
  match ids with
  | [] => Ok []
  | p :: ids =>
      parent ← ok_or STATUS_ESRCH (parent_of s p);
      handle ← ok_or STATUS_ESRCH (handle_of s p);
      l ← reclaim_plan s ids;
      Ok ((p, parent, handle) :: l)
  end.
Definition reclaim_launched_tree (peer root : Z) : M unit :=
  plan ← service (reads (λ s,
    ensure (registered_peer s peer) STATUS_ESRCH;;
    ensure (has_process s root) STATUS_ESRCH;;
    launched_tree_process_ids s peer root;;
    ids ← ok_or STATUS_EAGAIN (tree_teardowns (tree s) !! root);
    reclaim_plan s ids));
  st_each (λ x, st ← native (proc_status x.2); guard (is_exited st) STATUS_EAGAIN) plan;;
  st_each (λ x, reap_child x.1.2 x.1.1) plan;;
  service (modify (λ s, set_teardowns s (delete root (tree_teardowns (tree s))))).
Definition abort_launched_child (peer c : Z) : M unit :=
  '(handle, parent) ← service (reads (λ s,
    ensure (has_process s c) STATUS_ESRCH;;
    ensure (bool_decide (launch_creators (tree s) !! c = Some peer)) STATUS_EPERM;;
    ensure (negb (reap_is_pinned s c)) STATUS_EAGAIN;;
    handle ← ok_or STATUS_ESRCH (handle_of s c);
    parent ← ok_or STATUS_ESRCH (parent_of s c);
    Ok (handle, parent)));
  terminate_confirmed handle 127;;
  reap_child parent c.

(** ** Launch domains *)

Context {DW : DomainWire} (same : Z → Z → result Z bool).

Definition authenticate (s : Service) (process : Authenticated) : result Z unit :=
  retained ← ok_or STATUS_ESRCH (handle_of s (au_process_id process));
  ensure (negb (au_process_id process =? 0)) STATUS_EPERM;;
  b ← same retained (au_handle process);
  ensure b STATUS_EPERM;;
  ensure (not_exited s (au_process_id process)) STATUS_ESRCH.
(** [while let Some(process) = pending.pop()]: the last one is taken first. *)
Fixpoint gather (s : Service) (fuel : nat) (pending : list Z) (members : gset Z) : option (result Z (gset Z)) :=
  match pending, fuel with
  | [], _ => Some (Ok members)
  | _, O => None
  | p :: pending, S fuel =>
      if bool_decide (p ∈ members) then gather s fuel pending members
      else if tree_teardown_owns s p then Some (Err STATUS_EAGAIN)
      else gather s fuel (reverse (children_in_order s p) ++ pending) ({[p]} ∪ members)
  end.
(** Enough for any walk: a process is taken once for its root and once for
    each parent it has. *)
Definition walk_fuel (s : Service) : nat := S (sum_list ((size ∘ snd) <$> map_to_list (children (tree s)))).
Definition gather_root (s : Service) (peer : Z) (members : gset Z) (root : Authenticated) : result Z (gset Z) :=
  ensure (negb (negb (au_process_id root =? peer) &&
                negb (bool_decide (launch_creators (tree s) !! au_process_id root = Some peer)))) STATUS_EPERM;;
  authenticate s root;;
  default (Err PANIC) (gather s (walk_fuel s) [au_process_id root] members).
Fixpoint gather_roots (s : Service) (peer : Z) (members : gset Z) (roots : list Authenticated) : result Z (gset Z) :=
  match roots with
  | [] => Ok members
  | r :: roots => members ← gather_root s peer members r; gather_roots s peer members roots
  end.
Definition set_memberships (s : Service) x : Service :=
  with_domains s (mkDomains x (domain_entries (domains s)) (domain_next (domains s))).
(** [entry(member).or_default()], with the domains that are gone dropped. *)
Definition reserve_membership (alloc : Z → bool) (p : Z) : stM Service Z unit :=
  modify (λ s, set_memberships s
    (<[p := filter (λ id, domain_alive (domains s) id = true) (default [] (process_domains (domains s) !! p))]>
       (process_domains (domains s))));;
  guard (alloc p) STATUS_ENOMEM.
Definition push_membership (id : Z) (s : Service) (p : Z) : Service :=
  set_memberships s (alter (λ l, l ++ [id]) p (process_domains (domains s))).
Definition publish_domain (id peer : Z) (ids : list Z) (s : Service) : Service :=
  let s := foldl (push_membership id) s ids in
  with_domains s (mkDomains (process_domains (domains s)) (domain_entries (domains s) ++ [(id, peer)])
                    (domain_next (domains s))).
Definition create_domain (alloc_entry : bool) (alloc : Z → bool) (create : Z → result Z Z) (peer : Z)
    (roots : list Authenticated) : stM Service Z (Z * Z) :=
  guard (zlen roots <=? MAX_ROOTS) STATUS_EINVAL;;
  b ← gets (λ s, registered_peer s peer);
  guard b STATUS_ESRCH;;
  full ← gets (λ s, (MAX_DOMAINS <=? zlen (domain_entries (domains s))) ||
                    (MAX_PER_OWNER <=? zlen (filter (λ e, e.2 = peer) (domain_entries (domains s)))));
  guard (negb full) STATUS_EAGAIN;;
  members ← reads (λ s, gather_roots s peer ∅ roots);
  guard alloc_entry STATUS_ENOMEM;;
  let ids := in_order (elements members) in
  st_each (reserve_membership alloc) ids;;
  next ← need STATUS_EOVERFLOW
           (λ s, option_keep (λ v, v <? ID_BASE) (checked_add U64_MAX (domain_next (domains s)) 1));
  modify (λ s, with_domains s (mkDomains (process_domains (domains s)) (domain_entries (domains s)) next));;
  object ← st_lift (create (ID_BASE + next));
  modify (publish_domain (ID_BASE + next) peer ids);;
  mret (object, TOKEN_RIGHTS).
Definition find_domain (s : Service) (id : Z) : result Z (Z * Z) :=
  ok_or BAD_DOMAIN (snd <$> list_find (λ e, e.1 = id) (domain_entries (domains s))).
Definition adopt_domain_child (al : Allocations) (alloc_inherit alloc_push : bool) (peer id : Z)
    (process : Authenticated) (uid gid : Z) (groups : list Z) : M unit :=
  memberships ← service (reads (λ s,
    e ← find_domain s id;
    ensure (e.2 =? peer) STATUS_EPERM;;
    l ← inherit alloc_inherit (domains s) (process_domains (domains s) !! peer);
    ensure alloc_push STATUS_ENOMEM;;
    Ok (if bool_decide (id ∈ l) then l else l ++ [id])));
  adopt_spawned_child al peer process uid gid groups;;
  service (modify (λ s, set_memberships s (<[au_process_id process := memberships]> (process_domains (domains s))))).
Definition domain_contains (s : Service) (peer id : Z) (process : Authenticated) : result Z bool :=
  caller ← ok_or STATUS_ESRCH (session_of s peer);
  target ← ok_or STATUS_ESRCH (session_of s (au_process_id process));
  ensure (negb (negb (effective_uid caller =? 0) && negb (effective_uid caller =? effective_uid target) &&
                negb (peer =? au_process_id process))) STATUS_EPERM;;
  authenticate s process;;
  e ← find_domain s id;
  Ok (match process_domains (domains s) !! au_process_id process with
      | Some l => existsb (λ m, domain_alive (domains s) m && (m =? id)) l
      | None => false
      end).
Definition release_native (bytes : list Z) (flags : Z) (attachments : nat) : stM Service Z unit := λ s,
  match decode_provider_request bytes with
  | None => (s, Err STATUS_EINVAL)
  | Some (opcode, object) =>
      if negb (flags =? IPC_DELIVERY_NATIVE_OBJECT) || negb (bool_decide (attachments = 0%nat)) ||
         negb (opcode =? OP_RELEASE) || (object <? ID_BASE)
      then (s, Err STATUS_EPERM)
      else
        let d := domains s in
        (match iter_position (λ e, e.1 =? object) (domain_entries d) with
         | Some i => with_domains s (mkDomains (process_domains d) (swap_remove i (domain_entries d)) (domain_next d))
         | None => s
         end, Ok tt)
  end.
End Launch.
