(* ===== verification/ChildWait.v ===== *)
(** * Waiting for children

    Models the waits of [posix/src/lib.rs] ([matching_child_ids],
    [child_wait_usage], [wait_child_observation_with_reply] and its callers):
    the selection of a child, the event that is reported, the accounting of
    the child's usage and the reaping, which happen only once the reply has
    been accepted. *)

From stdpp Require Import fin_maps.
From S2P Require Import Prelude RecordLock LockExec Reach RecordLockWait TimerSchedule PosixProtocol.
From S2P Require Import ProcessTimer Credentials SignalState Signals Service Lifecycle Launch.

(** [protocol::WaitRequest]. *)
Record ChildRequest := mkChildRequest { selector : Z; options : Z }.

Section ChildWait.
Context {LK : LockKind} {PP : PosixProtocol} {AP : AccountProtocol} {SC : SignalCodec} {VC : ServiceCodec}.

Definition selects_child (s : Service) (caller_group : Z) (r : ChildRequest) (c : Z) : bool :=
  if has (options r) WAIT_SELECT_GROUP then
    bool_decide (group_of s c = Some (if selector r =? 0 then caller_group else selector r))
  else if 0 <? selector r then c =? selector r
  else if selector r =? -1 then true
  else if selector r =? 0 then bool_decide (group_of s c = Some caller_group)
  else bool_decide (group_of s c = Some (- selector r)).
Definition matching_child_ids (s : Service) (p : Z) (r : ChildRequest) : result Z (list Z) :=
  ensure (negb (negb (wait_options_valid (options r)) || (has (options r) WAIT_SELECT_GROUP && (selector r <? 0))))
    STATUS_EINVAL;;
  caller_group ← ok_or STATUS_ESRCH (group_of s p);
  ensure (bool_decide (is_Some (children (tree s) !! p))) STATUS_ECHILD;;
  ensure (negb (selector r =? I64_MIN)) STATUS_EINVAL;;
  let candidates := filter (λ c, selects_child s caller_group r c = true) (children_in_order s p) in
  ensure (negb (bool_decide (candidates = []))) STATUS_ECHILD;;
  Ok candidates.
Definition wait_handles (s : Service) (p : Z) (r : ChildRequest) : result Z (list Z) :=
  l ← matching_child_ids s p r;
  collect_handles s
    (filter (λ c, negb (reap_is_pinned s c) &&
                  (wait_selects_exit (options r) ||
                   negb (match wait_state s c with Some w => exit_observed w || exit_notified w | None => false end))
                  = true) l).
Definition waited_child_usage (s : Service) (p : Z) : result Z WaitedChildUsage :=
  ok_or STATUS_ESRCH (waited_usage <$> wait_state s p).
Definition waited_child_cpu_usage (s : Service) (p : Z) : result Z WaitedChildCpuUsage :=
  u ← waited_child_usage s p; Ok (cpu u).
(** The status of an exited child, as [wait] encodes it. *)
Definition exit_status (w : option ProcessWaitState) (exit_code : Z) : Z :=
  match w ≫= termination_signal with
  | Some signal => Z.land signal 127
  | None => Z.shiftl (Z.land exit_code 255) 8
  end.

Context {B F : Type} {PB : ProcessBackend B} {FB : FilesystemBackend F}.
#[local] Abbreviation M := (@M LK B F).

Definition child_wait_usage (c handle : Z) : M WaitedChildUsage :=
  usage ← native (execution_usage handle);
  guard (negb ((eu_rate usage =? 0) || negb (eu_reserved usage =? 0))) STATUS_EIO;;
  memory ← native (memory_usage handle);
  guard (negb (peak_bytes memory <? current_bytes memory)) STATUS_EIO;;
  w ← service (need STATUS_ESRCH (λ s, wait_state s c));
  st_lift (usage_checked_add
             (mkUsage (mkCpuUsage (eu_user usage) (eu_kernel usage) (eu_rate usage)) (peak_bytes memory))
             (waited_usage w)).
Definition accepted (reply : bool) (info : WaitInfo) : option WaitInfo := if reply then Some info else None.
(** An exited child is reported, and reaped unless [WAIT_NOWAIT] keeps it. *)
Definition wait_exited (include_usage : bool) (reply : WaitInfo → WaitedChildUsage → bool) (p : Z) (r : ChildRequest)
    (c handle uid exit_code : Z) : M (option WaitInfo) :=
  ws ← service (gets (λ s, wait_state s c));
  let info := mkWaitInfo c (exit_status ws exit_code) uid in
  usage ← (if include_usage || negb (has (options r) WAIT_NOWAIT) then child_wait_usage c handle
           else mret usage_default);
  if has (options r) WAIT_NOWAIT then mret (accepted (reply info usage) info)
  else
    caller ← service (need STATUS_ESRCH (λ s, wait_state s p));
    total ← st_lift (usage_checked_add (waited_usage caller) usage);
    observe_process_exit c;;
    if negb (reply info usage) then mret None
    else
      modify (reap_observed_child p c);;
      service (modify (alter_process_wait p (λ w, set_usage w total)));;
      mret (Some info).
(** A child that stopped or continued is reported, once. *)
Definition wait_changed (include_usage : bool) (reply : WaitInfo → WaitedChildUsage → bool) (r : ChildRequest)
    (c handle uid status : Z) : M (option WaitInfo) :=
  usage ← (if include_usage then child_wait_usage c handle else mret usage_default);
  let info := mkWaitInfo c status uid in
  if negb (reply info usage) then mret None
  else
    service (modify (alter_process_wait c (λ w, (take_status w (options r)).1)));;
    mret (Some info).
Fixpoint wait_candidates (include_usage : bool) (reply : WaitInfo → WaitedChildUsage → bool) (p : Z)
    (r : ChildRequest) (can_change : bool) (l : list Z) : M (option WaitInfo) :=
  match l with
  | [] =>
      if negb can_change then st_fail STATUS_ECHILD
      else if has (options r) WAIT_NOHANG then mret (accepted (reply wait_info_default usage_default) wait_info_default)
      else st_fail STATUS_EAGAIN
  | c :: l =>
      pinned ← service (gets (λ s, reap_is_pinned s c));
      if (pinned : bool) then wait_candidates include_usage reply p r true l
      else
        handle ← service (need STATUS_ESRCH (λ s, handle_of s c));
        session ← service (need STATUS_ESRCH (λ s, session_of s c));
        st ← native (proc_status handle);
        match st with
        | Exited exit_code =>
            note_child_exited c exit_code;;
            if negb (wait_selects_exit (options r)) then wait_candidates include_usage reply p r can_change l
            else wait_exited include_usage reply p r c handle (real_uid session) exit_code
        | Running =>
            status ← service (gets (λ s,
              wait_state s c ≫= λ w, (take_status w (Z.lor (options r) WAIT_NOWAIT)).2));
            match status with
            | Some status => wait_changed include_usage reply r c handle (real_uid session) status
            | None => wait_candidates include_usage reply p r true l
            end
        end
  end.
Definition wait_child_observation_with_reply (p : Z) (r : ChildRequest) (include_usage : bool)
    (reply : WaitInfo → WaitedChildUsage → bool) : M (option WaitInfo) :=
  service (reads (λ s, matching_child_ids s p r));;
  reap_discarded_children_for (Some p);;
  candidates ← service (reads (λ s, matching_child_ids s p r));
  wait_candidates include_usage reply p r false candidates.
Definition wait_child_info_with_reply (p : Z) (r : ChildRequest) (reply : WaitInfo → bool) : M (option WaitInfo) :=
  wait_child_observation_with_reply p r false (λ info _, reply info).
Definition wait_child_usage_with_reply (p : Z) (r : ChildRequest) (reply : WaitInfo → WaitedChildUsage → bool)
    : M (option WaitInfo) := wait_child_observation_with_reply p r true reply.
Definition wait_child_info (p : Z) (r : ChildRequest) : M WaitInfo :=
  o ← wait_child_info_with_reply p r (λ _, true);
  st_lift (ok_or STATUS_EIO o).
Definition wait_child (p : Z) (r : ChildRequest) : M (Z * Z) :=
  info ← wait_child_info p r;
  mret (wi_process_id info, wi_status info).
End ChildWait.
