(* ===== verification/Jobs.v ===== *)
(** * Sessions, process groups and controlling terminals

    Models job control in [posix/src/lib.rs]: [set_process_group] and
    [posix/src/process_group.rs], [create_session], the controlling terminal
    ([acquire_controlling_terminal] to [handle_terminal]), [send_signal], and
    the reports of a process that stops or dies of a signal. *)

From stdpp Require Import fin_maps.
From S2P Require Import Prelude RecordLock LockExec Reach RecordLockWait TimerSchedule PosixProtocol.
From S2P Require Import ProcessTimer Credentials SignalState Signals Service Lifecycle.

(** [EACCES]. *)
Definition NEW_IMAGE : Z := -13.

Section Jobs.
Context {LK : LockKind} {PP : PosixProtocol} {AP : AccountProtocol} {SC : SignalCodec} {VC : ServiceCodec}.

(** ** Groups and sessions *)

Definition process_info_for (s : Service) (p : Z) : result Z ProcessInfo :=
  group ← ok_or STATUS_ESRCH (group_of s p);
  session ← ok_or STATUS_ESRCH (session_id s p);
  Ok (mkProcessInfo p (default 0 (parent_of s p)) group session).
Definition encode_process_info_payload (info : ProcessInfo) : result Z (list Z) :=
  ok_or STATUS_EINVAL (encode_process_info info).
Definition process_info_payload (s : Service) (caller : Z) (payload : list Z) : result Z (list Z) :=
  requested ← ok_or STATUS_EINVAL (decode_process_id_request payload);
  p ← (if requested =? 0 then Ok caller else if 0 <? requested then Ok requested else Err STATUS_EINVAL);
  session ← ok_or STATUS_ESRCH (session_id s caller);
  ensure (bool_decide (session_id s p = Some session)) STATUS_ESRCH;;
  info ← process_info_for s p;
  encode_process_info_payload info.
(** Some member of [group] belongs to [session]. *)
Definition group_in_session (s : Service) (session group : Z) : bool :=
  existsb (λ x, (x.2 =? group) && bool_decide (session_id s x.1 = Some session)) (map_to_list (process_groups (jobs s))).
Definition put_group (p group : Z) (s : Service) : Service :=
  with_jobs s (mkJobs (<[p := group]> (process_groups (jobs s))) (session_ids (jobs s)) (controlling_terminals (jobs s))
                 (terminals (jobs s))).
Definition put_session_leader (p : Z) (s : Service) : Service :=
  with_jobs s (mkJobs (<[p := p]> (process_groups (jobs s))) (<[p := p]> (session_ids (jobs s)))
                 (controlling_terminals (jobs s)) (terminals (jobs s))).
(** What is checked of the sessions, and the group the target joins. *)
Definition group_change (s : Service) (caller target requested : Z) : result Z Z :=
  session ← ok_or STATUS_ESRCH (session_id s caller);
  ensure (bool_decide (session_id s target = Some session)) STATUS_EPERM;;
  ensure (negb (bool_decide (session_id s target = Some target))) STATUS_EPERM;;
  let group := if requested =? 0 then target else requested in
  ensure ((group =? target) || group_in_session s session group) STATUS_EPERM;;
  Ok group.
Definition join_group (target group : Z) : stM Service Z unit :=
  connected_before ← gets non_orphaned_groups;
  modify (put_group target group);;
  notify_newly_orphaned_groups connected_before.
Definition create_session (p : Z) : stM Service Z ProcessInfo :=
  taken ← gets (λ s, existsb (λ x, x.2 =? p) (map_to_list (process_groups (jobs s))));
  guard (negb taken) STATUS_EPERM;;
  need STATUS_ESRCH (λ s, handle_of s p);;
  connected_before ← gets non_orphaned_groups;
  modify (put_session_leader p);;
  notify_newly_orphaned_groups connected_before;;
  reads (λ s, process_info_for s p).

(** ** Controlling terminals *)

Definition acquire_controlling_terminal (p terminal : Z) : stM Service Z unit :=
  session ← need STATUS_ESRCH (λ s, session_id s p);
  b ← gets (λ s, has_session s p && (session =? p));
  guard b STATUS_EPERM;;
  existing ← gets (λ s, controlling_terminals (jobs s) !! session);
  match existing with
  | Some t => guard (t =? terminal) STATUS_EPERM
  | None =>
      taken ← gets (λ s, bool_decide (is_Some (terminals (jobs s) !! terminal)));
      guard (negb taken) STATUS_EPERM;;
      group ← need STATUS_ESRCH (λ s, group_of s p);
      modify (λ s, set_terminals s (<[session := terminal]> (controlling_terminals (jobs s)))
                     (<[terminal := mkTerminal session group]> (terminals (jobs s))))
  end.
Definition release_controlling_terminal (p terminal : Z) : stM Service Z unit :=
  session ← need STATUS_ESRCH (λ s, session_id s p);
  b ← gets (λ s, (session =? p) && bool_decide (controlling_terminals (jobs s) !! session = Some terminal));
  guard b STATUS_ENOTTY;;
  modify (release_session_terminal session).
(** The terminal, when it controls the session of the caller. *)
Definition own_terminal (s : Service) (p terminal : Z) : result Z (Z * ControllingTerminal) :=
  session ← ok_or STATUS_ESRCH (session_id s p);
  t ← ok_or STATUS_ENOTTY (terminals (jobs s) !! terminal);
  ensure ((ct_session t =? session) && bool_decide (controlling_terminals (jobs s) !! session = Some terminal))
    STATUS_ENOTTY;;
  Ok (session, t).
Definition terminal_foreground_process_group (s : Service) (p terminal : Z) : result Z Z :=
  '(_, t) ← own_terminal s p terminal;
  Ok (foreground_process_group t).
(** What job control does with a caller outside the foreground. *)
Definition authorize_terminal_access (i : Identity) (terminal signal : Z) (reading : bool) : stM Service Z unit :=
  let exempt : stM Service Z unit := if reading then st_fail STATUS_EIO else mret tt in
  t ← need STATUS_ENOTTY (λ s, terminals (jobs s) !! terminal);
  group ← need STATUS_ESRCH (λ s, group_of s (i_process_id i));
  if group =? foreground_process_group t then mret tt
  else
    sg ← need STATUS_ESRCH (λ s, signals (table s) !! i_process_id i);
    if disposition sg signal =? SIGNAL_DISPOSITION_IGNORE then exempt
    else
      blocked ← need STATUS_ESRCH (λ s, signal_masks (table s) !! key_of i);
      if has blocked (signal_bit signal) then exempt
      else
        connected ← gets (λ s, bool_decide ((ct_session t, group) ∈ non_orphaned_groups s));
        guard connected STATUS_EIO;;
        members ← gets (λ s, live_members s (ct_session t) group);
        st_each (λ m, signal_process m signal) members;;
        st_fail STATUS_EINTR.
Definition authorize_terminal_change (i : Identity) (terminal : Z) : stM Service Z unit :=
  authorize_terminal_access i terminal SIGNAL_TTOU false.
Definition authorize_terminal_io (i : Identity) (terminal : Z) (reading stop_background_write : bool)
    : stM Service Z unit := λ s,
  if (i_process_id i =? 0) || (i_thread_id i =? 0) then (s, Err STATUS_EPERM)
  else
    match session_id s (i_process_id i) with
    | None => (s, Ok tt)
    | Some session =>
        if negb (bool_decide (controlling_terminals (jobs s) !! session = Some terminal)) then (s, Ok tt)
        else if negb reading && negb stop_background_write then (s, Ok tt)
        else authorize_terminal_access i terminal (if reading then SIGNAL_TTIN else SIGNAL_TTOU) reading s
    end.
Definition set_terminal_foreground_process_group (i : Identity) (terminal : Z) (payload : list Z)
    : stM Service Z unit :=
  let p := i_process_id i in
  group ← st_lift (ok_or STATUS_EINVAL (decode_process_id_request payload));
  guard (0 <? group) STATUS_EINVAL;;
  '(session, _) ← reads (λ s, own_terminal s p terminal);
  b ← gets (λ s, group_in_session s session group);
  guard b STATUS_EPERM;;
  authorize_terminal_change i terminal;;
  t ← need STATUS_ENOTTY (λ s, terminals (jobs s) !! terminal);
  modify (λ s, set_terminals s (controlling_terminals (jobs s))
                 (<[terminal := mkTerminal (ct_session t) group]> (terminals (jobs s)))).
(** [i64::try_from], then the encoding. *)
Definition group_payload (group : Z) : result Z (list Z) :=
  ensure (group <=? I64_MAX) STATUS_EINVAL;;
  ok_or STATUS_EINVAL (encode_process_id_request group).
Definition handle_terminal (peer : Z) (i : Identity) (opcode flags : Z) (payload : list Z) (terminal : Z)
    : stM Service Z (list Z) := λ s,
  let plain := (flags =? 0) && bool_decide (payload = []) in
  if negb (i_process_id i =? peer) || (i_process_id i =? 0) || (i_thread_id i =? 0) then (s, Err STATUS_EPERM)
  else if (opcode =? OP_TERMINAL_ACQUIRE) && plain then (acquire_controlling_terminal peer terminal;; mret []) s
  else if (opcode =? OP_TERMINAL_RELEASE) && plain then (release_controlling_terminal peer terminal;; mret []) s
  else if ((opcode =? OP_TERMINAL_GET_FOREGROUND) || (opcode =? OP_TERMINAL_GET_SESSION)) && plain then
    (s, foreground ← terminal_foreground_process_group s peer terminal;
        group ← (if opcode =? OP_TERMINAL_GET_SESSION then ok_or STATUS_ESRCH (session_id s peer) else Ok foreground);
        group_payload group)
  else if (opcode =? OP_TERMINAL_SET_FOREGROUND) && (flags =? 0)
  then (set_terminal_foreground_process_group i terminal payload;; mret []) s
  else (s, Err (if bool_decide (opcode ∈ [OP_TERMINAL_ACQUIRE; OP_TERMINAL_RELEASE; OP_TERMINAL_GET_FOREGROUND;
                                          OP_TERMINAL_GET_SESSION; OP_TERMINAL_SET_FOREGROUND])
                then STATUS_EINVAL else STATUS_ENOSYS)).

(** ** Signals from processes *)

Definition selects_target (s : Service) (caller_group selector p : Z) : bool :=
  if 0 <? selector then p =? selector
  else if selector =? 0 then bool_decide (group_of s p = Some caller_group)
  else if selector =? -1 then true
  else bool_decide (group_of s p = Some (- selector)).
(** A shell continues its jobs whatever their credentials have become. *)
Definition may_signal (s : Service) (caller_id : Z) (caller : Session) (target_id : Z) (target : Session)
    (signal : Z) : bool :=
  ((signal =? SIGNAL_CONT) &&
   match session_id s caller_id with
   | Some session => bool_decide (session_id s target_id = Some session)
   | None => false
   end) || signal_permission caller_id caller target_id target.
Definition user_origin (caller_id : Z) (caller : Session) : Origin :=
  mkOrigin ORIGIN_USER (real_uid caller) caller_id (child origin_system) (timer origin_system).
Definition send_to (caller_id : Z) (caller : Session) (signal target_id : Z) : stM Service Z bool := λ s,
  match session_of s target_id with
  | None => (s, Ok false)
  | Some target =>
      if negb (may_signal s caller_id caller target_id target signal) then (s, Ok false)
      else
        ((if negb (signal =? 0) then on_table (enqueue_signal_with_origin target_id signal (user_origin caller_id caller))
          else mret tt);; mret true) s
  end.
Definition send_signal (caller_id : Z) (payload : list Z) : stM Service Z unit :=
  '(selector, signal) ← st_lift (ok_or STATUS_EINVAL (decode_signal_send_request payload));
  caller ← need STATUS_ESRCH (λ s, session_of s caller_id);
  caller_group ← need STATUS_ESRCH (λ s, group_of s caller_id);
  guard (negb (selector =? I64_MIN)) STATUS_EINVAL;;
  targets ← gets (λ s, filter (λ p, selects_target s caller_group selector p = true)
                         (keys_in_order (sessions (accounts s))));
  guard (negb (bool_decide (targets = []))) STATUS_ESRCH;;
  permitted ← st_count (send_to caller_id caller signal) targets 0;
  guard (negb (permitted =? 0)) STATUS_EPERM.

Context {B F : Type} {PB : ProcessBackend B} {FB : FilesystemBackend F}.
#[local] Abbreviation M := (@M LK B F).

(** [image]: what the caller supplies to observe the target with. *)
Definition set_process_group (image : Z → M ImageStatus) (caller : Z) (payload : list Z) : M unit :=
  '(p, requested) ← st_lift (ok_or STATUS_EINVAL (decode_process_group_request payload));
  guard (negb ((p <? 0) || (requested <? 0))) STATUS_EINVAL;;
  let target := if p =? 0 then caller else p in
  parent ← service (gets (λ s, parent_of s target));
  guard ((target =? caller) || bool_decide (parent = Some caller)) STATUS_ESRCH;;
  (if target =? caller then mret tt
   else
     handle ← service (need STATUS_ESRCH (λ s, handle_of s target));
     st ← image handle;
     guard ((im_process_id st =? target) && (im_reserved st =? 0)) STATUS_EIO;;
     (if im_state st =? PROCESS_STATE_RUNNING then mret tt
      else st_fail (if im_state st =? PROCESS_STATE_EXITED then STATUS_ESRCH else STATUS_EIO));;
     fresh ← (if negb (im_revision st =? 0) then mret true
              else w ← service (need STATUS_ESRCH (λ s, wait_state s target)); mret (fresh_image w));
     guard (negb fresh) NEW_IMAGE);;
  group ← service (reads (λ s, group_change s caller target requested));
  service (join_group target group).
Definition observed_image (handle : Z) : M ImageStatus := native (image_status handle).
Definition unobserved_image (_ : Z) : M ImageStatus := st_fail STATUS_ENOSYS.

Definition consume (p : Z) (d : SignalDelivery) (s : Service) : Service :=
  alter_process_wait p (λ w, (consume_delivery w d).1) s.
(** The native stop, after everything that can fail, and its report. *)
Definition stop_process (alloc : bool) (p process : Z) (d : SignalDelivery) : M unit :=
  apply_process_resume alloc p;;
  refresh_child_notifications_for_child p;;
  refresh_parent_image p;;
  native (suspend process);;
  service (modify (consume p d));;
  w ← service (need STATUS_ESRCH (λ s, wait_state s p));
  service (modify (alter_process_wait p (λ w, (stopped w (d_signal d)).1)));;
  if (stopped w (d_signal d)).2 : bool
  then service (notify_parent_of_child_change p (mkChildStatus EVENT_STOPPED (d_signal d)))
  else mret tt.
Definition report_process_stopped (alloc : bool) (p : Z) (payload : list Z) : M unit :=
  d ← st_lift (ok_or STATUS_EINVAL (decode_signal_delivery payload));
  guard (bool_decide (d_signal d ∈ stop_signals)) STATUS_EINVAL;;
  process ← service (need STATUS_ESRCH (λ s, handle_of s p));
  service (need STATUS_ESRCH (λ s, session_of s p));;
  guard (negb (d_token d =? 0)) STATUS_EAGAIN;;
  w ← service (need STATUS_ESRCH (λ s, wait_state s p));
  guard (bool_decide (o_signal <$> deliveries w !! d_token d = Some (d_signal d))) STATUS_EAGAIN;;
  orphaned ← (if d_signal d =? SIGNAL_STOP then mret false
              else
                session ← service (need STATUS_ESRCH (λ s, session_id s p));
                group ← service (need STATUS_ESRCH (λ s, group_of s p));
                service (gets (λ s, negb (bool_decide ((session, group) ∈ non_orphaned_groups s)))));
  if (orphaned : bool) then service (modify (consume p d)) else stop_process alloc p process d.
Definition report_process_signaled (p : Z) (payload : list Z) : M unit :=
  d ← st_lift (ok_or STATUS_EINVAL (decode_signal_delivery payload));
  guard (negb ((d_token d =? 0) || negb (default_signal_terminates (d_signal d)))) STATUS_EINVAL;;
  process ← service (need STATUS_ESRCH (λ s, handle_of s p));
  service (need STATUS_ESRCH (λ s, session_of s p));;
  w ← service (need STATUS_ESRCH (λ s, wait_state s p));
  service (modify (consume p d));;
  guard (consume_delivery w d).2 STATUS_EAGAIN;;
  native (terminate process (128 + d_signal d));;
  need STATUS_ESRCH (λ w, wait_state (svc w) p);;
  service (modify (alter_process_wait p (λ w, set_termination w (d_signal d)))).
End Jobs.
