(* ===== verification/ServiceFrame.v ===== *)
(** * What most of the service leaves alone

    [light] relates two states of the service with the same process tree, the
    same job control, the same prepared forks and the same processes in every
    table, in which the same exits have been observed.  Image refresh, signal
    generation and the notification of parents are light; the files on the
    process tree build on this. *)

From stdpp Require Import fin_maps.
From S2P Require Import Prelude RecordLock LockExec Reach RecordLockWait TimerSchedule PosixProtocol.
From S2P Require Import ProcessTimer Credentials SignalState Signals SignalProofs SignalTheorems Service.
From S2P Require Import Lifecycle Fork Launch ChildWait Jobs.

(** ** Code that stays within a relation *)

Definition stays {S A} (R : S → S → Prop) (m : stM S Z A) : Prop := ∀ s, R s (m s).1.

Section Stays.
Context {S : Type} (R : S → S → Prop) `{HR : !PreOrder R}.

Lemma stays_ret {A} (a : A) : stays R (mret a).
Proof. intros s. simpl. reflexivity. Qed.
Lemma stays_fail {A} e : stays R (@st_fail S Z A e).
Proof. intros s. simpl. reflexivity. Qed.
Lemma stays_lift {A} (r : result Z A) : stays R (st_lift r).
Proof. intros s. simpl. reflexivity. Qed.
Lemma stays_gets {A} (f : S → A) : stays R (gets f).
Proof. intros s. simpl. reflexivity. Qed.
Lemma stays_reads {A} (f : S → result Z A) : stays R (reads f).
Proof. intros s. simpl. reflexivity. Qed.
Lemma stays_need {A} e (f : S → option A) : stays R (need e f).
Proof. intros s. simpl. reflexivity. Qed.
Lemma stays_guard b e : stays R (guard b e).
Proof. intros s. simpl. reflexivity. Qed.
Lemma stays_modify f : (∀ s, R s (f s)) → stays R (modify f).
Proof. intros Hf s. apply Hf. Qed.
Lemma stays_bind {A B} (m : stM S Z A) (k : A → stM S Z B) : stays R m → (∀ a, stays R (k a)) → stays R (m ≫= k).
Proof.
  intros Hm Hk s. unfold mbind, stM_bind. specialize (Hm s). destruct (m s) as [s1 [a|e]]; simpl in *; [|done].
  etransitivity; [exact Hm|apply Hk].
Qed.
(** The rest of the code may rely on what its state and its argument are. *)
Lemma stays_bind_dep {A B} (m : stM S Z A) (k : A → stM S Z B) :
  stays R m → (∀ s a, (m s).2 = Ok a → R (m s).1 (k a (m s).1).1) → stays R (m ≫= k).
Proof.
  intros Hm Hk s. unfold mbind, stM_bind. specialize (Hm s). specialize (Hk s). destruct (m s) as [s1 [a|e]]; simpl in *; [|done].
  etransitivity; [exact Hm|by apply Hk].
Qed.
Lemma stays_each {A} (f : A → stM S Z unit) l : (∀ x, stays R (f x)) → stays R (st_each f l).
Proof. intros Hf. induction l as [|x l IH]; [apply stays_ret|]. apply stays_bind; [done|]. by intros []. Qed.
Lemma stays_count {A} (f : A → stM S Z bool) l n : (∀ x, stays R (f x)) → stays R (st_count f l n).
Proof. intros Hf. revert n. induction l as [|x l IH]; intros n; [apply stays_ret|]. by apply stays_bind. Qed.
Lemma stays_all {A} (f : A → stM S Z Z) l n o : (∀ x, stays R (f x)) → stays R (st_all f l n o).
Proof.
  intros Hf. revert n o. induction l as [|x l IH]; intros n o s; simpl; [reflexivity|].
  specialize (Hf x s). destruct (f x s) as [s1 [k|e]]; simpl in *; (etransitivity; [exact Hf|apply IH]).
Qed.
Lemma stays_undoing {A} undo (m : stM S Z A) : stays R m → (∀ s, R s (undo s)) → stays R (undoing undo m).
Proof.
  intros Hm Hu s. unfold undoing. specialize (Hm s). destruct (m s) as [s1 [a|e]]; simpl in *; [done|].
  etransitivity; [exact Hm|apply Hu].
Qed.
End Stays.
Create HintDb light.
#[export] Hint Resolve stays_ret stays_fail stays_lift stays_gets stays_reads stays_need stays_guard : light.

(** ** Signal tables *)

(** What only the observation of an exit and an accepted wait change. *)
Definition settled (w : ProcessWaitState) : bool * WaitedChildUsage := (exit_observed w, waited_usage w).
(** The same processes, with the same exits observed and the same usage waited for. *)
Record shape (t t' : SignalTable) : Prop := mkShape {
  shape_signals : ∀ p, is_Some (signals t' !! p) ↔ is_Some (signals t !! p);
  shape_waits : ∀ p, settled <$> process_wait_states t' !! p = settled <$> process_wait_states t !! p;
}.
#[global] Instance shape_preorder : PreOrder shape.
Proof.
  split; [by intros t|]. intros t1 t2 t3 [A1 A2] [B1 B2]. split; intros p; [by rewrite B1|by rewrite B2].
Qed.
Lemma shape_same t t' : signals t' = signals t → process_wait_states t' = process_wait_states t → shape t t'.
Proof. intros E1 E2. split; intros p; by rewrite ?E1, ?E2. Qed.
Lemma shape_put_signals t p s s' : signals t !! p = Some s → shape t (put_signals t p s').
Proof.
  intros Hs. split; intros q; simpl; [|done]. rewrite lookup_insert. case_decide; [subst|done]. rewrite Hs. split; by eexists.
Qed.
Lemma shape_put_wait t t' p w w' :
  process_wait_states t !! p = Some w → settled w' = settled w → signals t' = signals t →
  process_wait_states t' = <[p := w']> (process_wait_states t) → shape t t'.
Proof.
  intros Hw E E1 E2. split; intros q; rewrite ?E1, ?E2; [done|]. rewrite lookup_insert. case_decide; [subst; by rewrite Hw; simpl; rewrite E|done].
Qed.
Lemma shape_alter_wait t p f : (∀ w, settled (f w) = settled w) → shape t (alter_wait t p f).
Proof.
  intros E. split; intros q; simpl; [done|]. rewrite lookup_alter. case_decide; [subst q|done].
  destruct (process_wait_states t !! p); simpl; by rewrite ?E.
Qed.
Section Tables.
Context {PP : PosixProtocol} {SC : SignalCodec} {SN : @SignalNumbers PP} {SL : SignalCodecLaws}.

Lemma shape_prepare p signal t : shape t (prepare_signal_generation p signal t).1.
Proof.
  unfold prepare_signal_generation. destruct (signals t !! p) as [s|] eqn:Hs; [|reflexivity].
  set (t1 := set_origins _ _). assert (shape t t1) as H1.
  { etransitivity; [by eapply (shape_put_signals t p s)|by apply shape_same]. }
  clearbody t1. destruct (signal =? SIGNAL_CONT) eqn:Ec; [|destruct (signal =? SIGNAL_KILL)];
    try (destruct (process_wait_states t1 !! p) as [w|] eqn:Hw); simpl; try done;
    rewrite ?orb_true_r, ?orb_false_r; simpl; try done;
    (etransitivity; [exact H1|]; eapply shape_put_wait; [exact Hw| |reflexivity|reflexivity]; done).
Qed.
Lemma shape_enqueue p signal origin t : shape t (enqueue_signal_with_origin p signal origin t).1.
Proof.
  unfold enqueue_signal_with_origin. pose proof (shape_prepare p signal t) as H1.
  destruct (prepare_signal_generation p signal t) as [t1 [u|e]]; simpl in *; [|done].
  destruct (signals t1 !! p) as [s|] eqn:Hs; simpl; [|done]. etransitivity; [exact H1|].
  repeat case_match; (etransitivity; [by eapply (shape_put_signals t1 p s)|by apply shape_same]).
Qed.
Lemma shape_reset p t : shape t (reset_image_signals t p).
Proof.
  unfold reset_image_signals. etransitivity; [|by apply shape_alter_wait]. split; intros q; simpl; [|done].
  rewrite lookup_alter. case_decide; [subst q|done]. destruct (signals t !! p); simpl; [split; by eexists|done].
Qed.
Lemma shape_cancel_resume p t : shape t (cancel_unconfirmed_resume t p).
Proof. etransitivity; [|by apply shape_alter_wait]. by apply shape_same. Qed.
Lemma ok_clock_targets p t : signals_ok t → signals_ok (retire_process_clock_targets p t).
Proof. intros Hok. by apply (ok_same t). Qed.

Lemma shape_discard parents parent t : shape t (discard_observed_child_status parents parent t).
Proof.
  split; intros q; simpl; [done|]. rewrite map_lookup_imap. destruct (process_wait_states t !! q); simpl; [|done].
  by destruct (_ && _).
Qed.
Lemma shape_disposition parents p flags payload t : shape t (signal_disposition_payload parents p flags payload t).1.
Proof.
  unfold signal_disposition_payload. destruct (ok_or STATUS_EINVAL (decode_signal_disposition payload) ≫= _)
    as [[[[[signal kind] opts] s] out]|e] eqn:E; [|reflexivity]. inv_result; cbv zeta;
    try match goal with H : (signal =? SIGNAL_CHLD) = _ |- _ => clear H end.
  set (t1 := if flags =? SIGNAL_DISPOSITION_SET then _ else t). assert (shape t t1) as Hsh.
  { subst t1. destruct (flags =? SIGNAL_DISPOSITION_SET); [|reflexivity].
    etransitivity; [by eapply (shape_put_signals t p s)|]. repeat case_match; by apply shape_same. }
  clearbody t1. cbn [fst].
  match goal with |- shape _ (if ?b then _ else _) => destruct b end; [|exact Hsh]. etransitivity; [exact Hsh|]. apply shape_discard.
Qed.
Lemma shape_child_options registered parents p payload t :
  shape t (set_signal_child_options registered parents p payload t).1.
Proof.
  unfold set_signal_child_options. repeat case_match; simpl; try reflexivity; try by apply shape_same.
  etransitivity; [|apply shape_discard]. by apply shape_same.
Qed.
Lemma shape_mask registered i payload t : shape t (thread_signal_mask_payload registered i payload t).1.
Proof.
  unfold thread_signal_mask_payload. destruct (ensure registered STATUS_ESRCH ≫= _) as [[[[]]]|]; [|reflexivity].
  repeat case_match; by apply shape_same.
Qed.
Lemma shape_raise uid i payload t : shape t (thread_raise_signal_payload uid i payload t).1.
Proof.
  unfold thread_raise_signal_payload. destruct (ok_or STATUS_EINVAL _ ≫= _) as [[signal blocked]|]; [|reflexivity].
  destruct (signal =? 0); [reflexivity|]. pose proof (shape_prepare (i_process_id i) signal t) as H1.
  destruct (prepare_signal_generation _ _ t) as [t1 [u|e]]; simpl in *; [|done]. etransitivity; [exact H1|].
  destruct (signals t1 !! _); [|reflexivity]. destruct (negb (disposition _ _ =? _)); [|reflexivity]. cbv zeta.
  destruct (has (thread_pending t1 (key_of i)) _); [|destruct uid]; simpl; try destruct (negb (has blocked _)); by apply shape_same.
Qed.
Lemma shape_begin i signal origin t : shape t (begin_signal_delivery i signal origin t).1.
Proof.
  unfold begin_signal_delivery. destruct (process_wait_states t !! _) as [w|] eqn:Hw; [|reflexivity].
  destruct (_ <=? _); [reflexivity|]. destruct (checked_add _ _ _); [|by apply shape_same].
  destruct (allocate_token _) as [n [k|e]]; simpl; [|by apply shape_same].
  eapply shape_put_wait; [exact Hw| |reflexivity|reflexivity]; done.
Qed.
Lemma shape_fault i payload t : shape t (thread_fault_signal_payload i payload t).1.
Proof.
  unfold thread_fault_signal_payload. destruct (ok_or STATUS_EINVAL _ ≫= _) as [[[signal blocked] s]|]; [|reflexivity].
  cbv zeta. set (o := mkOrigin _ _ _ _ _). pose proof (shape_begin i signal o t) as H1. by destruct (begin_signal_delivery _ _ _ t) as [t1 [d|e]].
Qed.
Lemma shape_dequeue i blocked t : shape t (dequeue_signal_with_mask i blocked t).1.
Proof.
  unfold dequeue_signal_with_mask. destruct (select_signal t i blocked) as [[signal own]|]; [|reflexivity].
  destruct (negb (signal =? 0)); [|reflexivity]. destruct (signal_origins t !! _) as [o|]; [|reflexivity].
  pose proof (shape_begin i signal o t) as H1. destruct (begin_signal_delivery i signal o t) as [t1 [d|e]]; simpl in *; [|done].
  etransitivity; [exact H1|]. unfold take_pending. destruct own; simpl; [by apply shape_same|].
  destruct (signals t1 !! _) as [s|] eqn:Hs; simpl; [|by apply shape_same]. (etransitivity; [by eapply (shape_put_signals t1)|]). by apply shape_same.
Qed.
Lemma shape_request registered uid peer i opcode flags payload t :
  shape t (handle_thread_signal_request registered uid peer i opcode flags payload t).1.
Proof.
  unfold handle_thread_signal_request, thread_signal_delivery_payload.
  repeat case_match; simpl; try reflexivity; auto using shape_mask, shape_raise, shape_fault, shape_dequeue.
Qed.
Lemma shape_send_thread uid peer i target rights payload t :
  shape t (send_thread_signal uid peer i target rights payload t).1.
Proof.
  unfold send_thread_signal. cbv zeta. do 3 (case_match; [reflexivity|]). set (j := mkIdentity _ _).
  pose proof (shape_raise uid j payload t) as Hj. by destruct (thread_raise_signal_payload uid j payload t) as [t1 []].
Qed.
Lemma shape_complete registered p payload t : shape t (complete_signal_delivery registered p payload t).1.
Proof.
  unfold complete_signal_delivery. destruct (ok_or STATUS_EINVAL _ ≫= _) as [[d w]|] eqn:E; [|reflexivity]. inv_result.
  unfold consume_delivery. destruct (negb (bool_decide (_ = Some (d_signal d)))); simpl; (eapply shape_put_wait; [done| |reflexivity|reflexivity]); done.
Qed.
Lemma shape_try_wait peer i requested expected reply t :
  shape t (try_wait_signal_info_with_reply peer i requested expected reply t).1.
Proof.
  unfold try_wait_signal_info_with_reply. destruct (validate_wait_delivery_epoch _ _ _ _); [|reflexivity].
  destruct (signal_masks t !! key_of i), (signals t !! i_process_id i) as [s|] eqn:Hs; try reflexivity.
  repeat case_match; try reflexivity; try by apply shape_same.
  etransitivity; [by eapply shape_put_signals|by apply shape_same].
Qed.
Lemma shape_forget_thread i t : shape t (forget_thread i t).
Proof.
  unfold forget_thread, remove_empty_signal_notification. cbv zeta.
  set (t1 := set_thread_notifications _ _). assert (shape t t1) as H1.
  { subst t1. destruct (_ && _); by apply shape_same. }
  clearbody t1. set (t2 := alter_wait t1 _ _). assert (shape t t2) as H2.
  { etransitivity; [exact H1|by apply shape_alter_wait]. }
  clearbody t2. destruct (signals t2 !! _); [|done]. destruct (_ || _); [|done].
  etransitivity; [exact H2|by apply shape_same].
Qed.
Lemma shape_retire_thread i st t : shape t (retire_signal_thread i st t).1.
Proof.
  unfold retire_signal_thread. repeat case_match; try reflexivity. apply shape_forget_thread.
Qed.

(** A table operation that keeps the tables consistent and their shape. *)
Definition calm (t t' : SignalTable) : Prop := shape t t' ∧ (signals_ok t → signals_ok t').
#[global] Instance calm_preorder : PreOrder calm.
Proof. split; [by intros t|]. intros t1 t2 t3 [A1 A2] [B1 B2]. split; [by etransitivity|auto]. Qed.
Lemma calm_enqueue p signal origin t : 1 ≤ signal ≤ SIGNAL_MAX → calm t (enqueue_signal_with_origin p signal origin t).1.
Proof. intros Hr. split; [apply shape_enqueue|]. intros Hok. by apply ok_enqueue. Qed.
Lemma calm_alter_wait t p f :
  (∀ w, settled (f w) = settled w) →
  (∀ w k o, deliveries (f w) !! k = Some o → deliveries w !! k = Some o) → calm t (alter_wait t p f).
Proof. intros H1 H2. split; [by apply shape_alter_wait|]. intros Hok. by apply ok_alter_wait. Qed.
Lemma calm_same t t' :
  signals t' = signals t → process_wait_states t' = process_wait_states t →
  thread_pending_signals t' = thread_pending_signals t → signal_origins t' = signal_origins t →
  signal_masks t' = signal_masks t → signal_child_options t' = signal_child_options t →
  next_signal_delivery_token t' = next_signal_delivery_token t → calm t t'.
Proof.
  intros E1 E2 E3 E4 E5 E6 E7. split; [by apply shape_same|]. intros Hok. apply (ok_same t); try done.
  - by rewrite E6.
  - by rewrite E2.
  - unfold deliveries_of. by rewrite E2.
Qed.
Lemma calm_reset p t : calm t (reset_image_signals t p).
Proof. split; [apply shape_reset|apply ok_reset_image]. Qed.
Lemma calm_cancel_resume p t : calm t (cancel_unconfirmed_resume t p).
Proof. split; [apply shape_cancel_resume|apply ok_cancel_resume]. Qed.
Lemma calm_clock_targets p t : calm t (retire_process_clock_targets p t).
Proof. by apply calm_same. Qed.
End Tables.

(** ** The service *)

Section Light.
Context {LK : LockKind} {PP : PosixProtocol} {AP : AccountProtocol} {SC : SignalCodec} {VC : ServiceCodec}.
Context {SN : @SignalNumbers PP} {SL : SignalCodecLaws}.

Record light (s s' : Service) : Prop := mkLight {
  light_tree : tree s' = tree s;
  light_jobs : jobs s' = jobs s;
  light_forks : forks s' = forks s;
  light_sessions : ∀ p, process_id <$> session_of s' p = process_id <$> session_of s p;
  light_table : calm (table s) (table s');
}.
#[global] Instance light_preorder : PreOrder light.
Proof.
  split; [intros s; split; try done; reflexivity|]. intros s1 s2 s3 [A1 A2 A3 A4 A5] [B1 B2 B3 B4 B5].
  split; [congruence..|intros p; by rewrite B4|by etransitivity].
Qed.
Lemma light_same s s' :
  tree s' = tree s → jobs s' = jobs s → forks s' = forks s → accounts s' = accounts s → table s' = table s → light s s'.
Proof. intros E1 E2 E3 E4 E5. split; try done; [|by rewrite E5]. intros p. unfold session_of. by rewrite E4. Qed.
Lemma light_with_table s t : calm (table s) t → light s (with_table s t).
Proof. by split. Qed.
Lemma light_alter s p f :
  (∀ w, settled (f w) = settled w) →
  (∀ w k o, deliveries (f w) !! k = Some o → deliveries w !! k = Some o) → light s (alter_process_wait p f s).
Proof. intros H1 H2. by apply light_with_table, calm_alter_wait. Qed.
Lemma light_on_table {A} (m : stM SignalTable Z A) : (∀ t, calm t (m t).1) → stays light (on_table m).
Proof.
  intros Hm s. unfold on_table. specialize (Hm (table s)). destruct (m (table s)) as [t r]. by apply light_with_table.
Qed.
Lemma light_signal p signal : 1 ≤ signal ≤ SIGNAL_MAX → stays light (signal_process p signal).
Proof. intros Hr. apply light_on_table. intros t. by apply calm_enqueue. Qed.
Lemma named_in s : s ∈ named_signals → 1 ≤ s ≤ SIGNAL_MAX.
Proof. intros Hs. by apply (proj1 (Forall_forall _ _) named_signals_range s Hs). Qed.
Lemma light_put_session s p c c' :
  session_of s p = Some c → process_id c' = process_id c → light s (with_accounts s (put_session (accounts s) p c')).
Proof.
  intros Hc E. split; try done. intros q. unfold session_of in *. simpl. rewrite lookup_insert.
  case_decide; [subst; by rewrite Hc; simpl; rewrite E|done].
Qed.
Lemma light_adopt p revision s : light s (adopt_image p revision s).
Proof.
  unfold adopt_image. set (s1 := with_accounts s _). assert (light s s1) as H1.
  { subst s1. destruct (session_of s p) as [c|] eqn:Hc; [by eapply light_put_session|by apply light_same]. }
  clearbody s1. destruct (commit_observed _ _ _ _) as [execs locks].
  etransitivity; [exact H1|]. etransitivity; [|by apply light_alter].
  etransitivity; [|apply light_with_table, calm_reset]. by apply light_same.
Qed.

(** *** Groups and notifications *)

Lemma light_hangup_group g : stays light (hangup_group g).
Proof.
  intros s. unfold hangup_group. destruct (negb _); [reflexivity|]. apply stays_bind; [apply _| |intros _];
    (apply stays_each; [apply _|]; intros p; apply light_signal, named_in; unfold named_signals; set_solver).
Qed.
Lemma light_newly_orphaned before : stays light (notify_newly_orphaned_groups before).
Proof. intros s. unfold notify_newly_orphaned_groups. apply stays_each; [apply _|]. apply light_hangup_group. Qed.
Lemma light_notify c change : stays light (notify_parent_of_child_change c change).
Proof.
  intros s. unfold notify_parent_of_child_change. repeat (case_match; try reflexivity).
  apply stays_bind; [apply _|apply stays_need, _|]. intros session. apply light_on_table. intros t.
  apply calm_enqueue, named_in. unfold named_signals. set_solver.
Qed.
Lemma light_publish fuel parent revision n : stays light (publish_deferred fuel parent revision n).
Proof.
  revert n. induction fuel as [|fuel IH]; intros n s; simpl; [by case_match|]. do 2 (case_match; [|reflexivity]).
  apply stays_bind; [apply _| |intros _].
  - case_match; [|apply stays_ret, _]. apply light_on_table. intros t. apply calm_enqueue, named_in.
    unfold named_signals. set_solver.
  - apply stays_bind; [apply _| |intros _; apply IH]. apply stays_modify. intros s'. by apply light_same.
Qed.
Lemma light_terminal_signal terminal signal : 0 ≤ signal → stays light (signal_terminal_foreground_group terminal signal).
Proof.
  intros H0 s. unfold signal_terminal_foreground_group, mbind, stM_bind, guard, need. simpl.
  destruct (negb _) eqn:E; simpl; [|reflexivity]. destruct (terminals (jobs s) !! terminal) as [t|]; simpl; [|reflexivity].
  destruct (negb (bool_decide (group_members s _ _ = []))); simpl; [|reflexivity].
  assert (stays light (st_each (λ p, signal_process p signal)
    (group_members s (ct_session t) (foreground_process_group t)))) as Hl.
  { apply stays_each; [apply _|]. intros p. apply light_signal. apply negb_true_iff, orb_false_iff in E as [E1 E2]. lia. }
  specialize (Hl s). by destruct (st_each _ _ s) as [s1 []].
Qed.
Lemma light_retire_exited p s : light s (retire_exited p s).
Proof. split; try done. simpl. etransitivity; [|apply calm_clock_targets]. by apply calm_same. Qed.
Lemma light_retire_held p s : light s (with_held s (retire_held p (held s))).
Proof. by apply light_same. Qed.

(** *** With the backends *)

Context {B F : Type} {PB : ProcessBackend B} {FB : FilesystemBackend F}.
#[local] Abbreviation M := (@M LK B F).
#[local] Abbreviation World := (@World LK B F).

Definition lightly (w w' : World) : Prop := light (svc w) (svc w').
#[global] Instance lightly_preorder : PreOrder lightly.
Proof. split; [intros w; unfold lightly; reflexivity|]. intros w1 w2 w3. unfold lightly. intros. by etransitivity. Qed.
Definition quiet {A} (m : M A) : Prop := stays lightly m.
Lemma quiet_bind {A C} (m : M A) (k : A → M C) : quiet m → (∀ a, quiet (k a)) → quiet (m ≫= k).
Proof. apply (stays_bind lightly). Qed.
Lemma quiet_service {A} (m : stM Service Z A) : stays light m → quiet (service m).
Proof. intros Hm w. unfold service, lightly. specialize (Hm (svc w)). by destruct (m (svc w)). Qed.
Lemma quiet_native {A} (m : stM B Z A) : quiet (native m).
Proof. intros w. unfold native, lightly. destruct (m (procs w)). reflexivity. Qed.
Lemma quiet_stored {A} (m : stM F Z A) : quiet (stored m).
Proof. intros w. unfold stored, lightly. destruct (m (files w)). reflexivity. Qed.
Lemma quiet_ret {A} (a : A) : quiet (mret a).
Proof. apply (stays_ret lightly). Qed.
Lemma quiet_fail {A} e : quiet (@st_fail World Z A e).
Proof. apply (stays_fail lightly). Qed.
Lemma quiet_guard b e : quiet (guard b e).
Proof. apply (stays_guard lightly). Qed.
Lemma quiet_lift {A} (r : result Z A) : quiet (st_lift r).
Proof. apply (stays_lift lightly). Qed.
Lemma quiet_need {A} e (f : World → option A) : quiet (need e f).
Proof. apply (stays_need lightly). Qed.
Lemma quiet_reading {A} (m : stM Service Z A) : (∀ s, (m s).1 = s) → quiet (service m).
Proof. intros Hm. apply quiet_service. intros s. rewrite Hm. reflexivity. Qed.
Lemma quiet_modify f : (∀ s, light s (f s)) → quiet (service (modify f)).
Proof. intros Hf. by apply quiet_service, stays_modify. Qed.
End Light.
#[export] Hint Resolve quiet_native quiet_stored quiet_ret quiet_fail quiet_guard quiet_lift quiet_need : light.
(** Follows the structure of the code. *)
Ltac quietly :=
  repeat first
    [ progress intros
    | solve [auto with light]
    | apply quiet_bind
    | apply quiet_reading; done
    | case_match ].

Section Quiet.
Context {LK : LockKind} {PP : PosixProtocol} {AP : AccountProtocol} {SC : SignalCodec} {VC : ServiceCodec}.
Context {SN : @SignalNumbers PP} {SL : SignalCodecLaws}.
Context {B F : Type} {PB : ProcessBackend B} {FB : FilesystemBackend F}.
#[local] Abbreviation M := (@M LK B F).
#[local] Abbreviation quiet := (@quiet LK PP B F _).

Lemma quiet_refresh p allow : quiet (refresh_process_image_state p allow).
Proof.
  unfold refresh_process_image_state. quietly. apply quiet_service.
  repeat (apply stays_bind; [apply _|apply stays_need, _|intros _]). apply stays_modify. apply light_adopt.
Qed.
#[local] Hint Resolve quiet_refresh : light.
Lemma quiet_validate p image : quiet (validate_request_image p image).
Proof. unfold validate_request_image, refresh_image_state. quietly. Qed.
Lemma quiet_parent_image c : quiet (refresh_parent_image c).
Proof. intros w. unfold refresh_parent_image. case_match; [apply quiet_refresh|reflexivity]. Qed.
#[local] Hint Resolve quiet_parent_image : light.
Lemma quiet_notifications_parent parent : quiet (refresh_child_notifications_for_parent parent).
Proof.
  intros w. unfold refresh_child_notifications_for_parent. case_match; [reflexivity|].
  apply quiet_bind; [apply quiet_refresh|intros _]. apply quiet_bind; [by apply quiet_reading|]. intros revision.
  apply quiet_service. intros s. apply light_publish.
Qed.
#[local] Hint Resolve quiet_notifications_parent : light.
Lemma quiet_notifications_child c : quiet (refresh_child_notifications_for_child c).
Proof.
  intros w. unfold refresh_child_notifications_for_child. case_match; [|reflexivity].
  apply quiet_bind; [apply quiet_notifications_parent|]. intros _. apply quiet_ret.
Qed.
#[local] Hint Resolve quiet_notifications_child : light.
Lemma quiet_notifications : quiet refresh_child_notifications.
Proof. intros w. unfold refresh_child_notifications. apply stays_all; [apply _|]. apply quiet_notifications_parent. Qed.
Lemma quiet_note_exited c code : quiet (note_child_exited c code).
Proof.
  unfold note_child_exited. apply quiet_bind; [apply quiet_notifications_child|intros _].
  apply quiet_bind; [apply quiet_parent_image|intros _]. quietly. apply quiet_service.
  assert (∀ b s, light s (set_exit_notified c b s)) as Hn by (intros; by apply light_alter).
  apply stays_bind; [apply _|by apply stays_modify|]. intros _. by apply stays_undoing; [apply _|apply light_notify|].
Qed.
Lemma light_resumed p cont notification s : light s (confirm_resume p cont notification s).
Proof.
  unfold confirm_resume. set (s1 := with_table s _). assert (light s s1) as H1 by (apply light_with_table; by apply calm_same).
  clearbody s1. destruct (wait_state s1 p) as [ws|] eqn:Hw; [|done]. etransitivity; [exact H1|].
  assert (∀ ws', settled ws' = settled ws → deliveries ws' = deliveries ws →
    light s1 (with_table s1 (put_wait (table s1) p ws'))) as Hp.
  { intros ws' E1 E2. apply light_with_table. split; [by eapply shape_put_wait|]. intros Hok.
    eapply ok_put_wait; [done|exact Hw|]. by rewrite E2. }
  destruct cont; [unfold continued; destruct (negb _); [|destruct notification]|]; simpl; try by apply Hp.
  etransitivity; [by apply (Hp (set_stop (set_resume ws false) false (stop_signal ws) false true))|by apply light_same].
Qed.
Lemma quiet_resume alloc p : quiet (apply_process_resume alloc p).
Proof.
  intros w. unfold apply_process_resume. case_match; [reflexivity|].  cbv zeta.
  quietly; apply quiet_modify; intros s; first [apply light_resumed|apply light_with_table, calm_cancel_resume].
Qed.
#[local] Hint Resolve quiet_resume : light.
Lemma quiet_usage c handle : quiet (child_wait_usage c handle).
Proof. unfold child_wait_usage. quietly. Qed.
#[local] Hint Resolve quiet_usage : light.
Lemma quiet_changed include reply r c handle uid st : quiet (wait_changed include reply r c handle uid st).
Proof.
  unfold wait_changed. apply quiet_bind; [case_match; [apply quiet_usage|apply quiet_ret]|]. intros usage. quietly.
  apply quiet_modify. intros s. apply light_alter; intros w; unfold take_status; by repeat case_match.
Qed.
Lemma light_consume p d s : light s (consume p d s).
Proof.
  apply light_alter; intros w; unfold consume_delivery; case_match; try done.
  intros k o Ho. cbn in Ho. by apply lookup_delete_Some in Ho as [].
Qed.
Lemma quiet_stop alloc p process d : quiet (stop_process alloc p process d).
Proof.
  unfold stop_process. apply quiet_bind; [apply quiet_resume|intros _]. apply quiet_bind; [apply quiet_notifications_child|intros _].
  apply quiet_bind; [apply quiet_parent_image|intros _]. quietly; [apply quiet_modify, light_consume| |by apply quiet_service, light_notify].
  apply quiet_modify. intros s. apply light_alter; intros w; unfold stopped; by case_match.
Qed.
#[local] Hint Resolve quiet_stop : light.
Lemma quiet_stopped alloc p payload : quiet (report_process_stopped alloc p payload).
Proof. unfold report_process_stopped. quietly. apply quiet_modify, light_consume. Qed.
Lemma quiet_signaled p payload : quiet (report_process_signaled p payload).
Proof. unfold report_process_signaled. quietly; apply quiet_modify; [apply light_consume|]. intros s. by apply light_alter. Qed.
Lemma light_send_to caller_id caller signal p : 0 ≤ signal ≤ SIGNAL_MAX → stays light (send_to caller_id caller signal p).
Proof.
  intros Hr s. unfold send_to. do 2 (case_match; [|try reflexivity]; try reflexivity).
  apply (stays_bind light); [|intros _; apply stays_ret, _]. case_match; [|apply stays_ret, _].
  apply light_on_table. intros t. apply calm_enqueue. lia.
Qed.
Lemma light_access i terminal signal reading :
  1 ≤ signal ≤ SIGNAL_MAX → stays light (authorize_terminal_access i terminal signal reading).
Proof.
  intros Hr. unfold authorize_terminal_access.
  repeat first [progress intros | apply stays_bind; [apply _| |]
    | solve [apply stays_need, _ | apply stays_gets, _ | apply stays_guard, _ | apply stays_fail, _ | apply stays_ret, _]
    | apply stays_each; [apply _|intros; by apply light_signal] | case_match].
Qed.
Lemma stop_signal_range s : s ∈ stop_signals → 1 ≤ s ≤ SIGNAL_MAX.
Proof. intros Hs. by apply named_in, stop_named. Qed.
Lemma light_terminal_io i terminal reading stop : stays light (authorize_terminal_io i terminal reading stop).
Proof.
  intros s. unfold authorize_terminal_io. repeat (case_match; try reflexivity); apply light_access, stop_signal_range;
    unfold stop_signals; set_solver.
Qed.
Lemma light_hangup_terminal terminal : stays light (hangup_terminal terminal).
Proof.
  unfold hangup_terminal. apply stays_bind; [apply _|apply stays_need, _|]. intros t. apply light_signal, named_in.
  unfold named_signals. set_solver.
Qed.
Lemma light_send caller_id payload : stays light (send_signal caller_id payload).
Proof.
  intros s. unfold send_signal, mbind at 1, stM_bind, st_lift. destruct (decode_signal_send_request payload) as [[sel signal]|] eqn:E;
    simpl; [|reflexivity]. apply decode_send_range in E.
  repeat first [progress intros | apply (stays_bind light)
    | solve [apply stays_need, _ | apply stays_gets, _ | apply stays_guard, _]
    | apply stays_count; [apply _|intros; by apply light_send_to]].
Qed.
End Quiet.
