(* ===== verification/ProcessTree.v ===== *)
(** * The process tree

    The invariant of the process tree ([Tree], a part of [PosixService]) and
    its preservation by the changes the service makes: a process is
    registered, a child is installed, the children of an exited process are
    moved to the reaper, a child is reaped, a launched tree is frozen and
    forgotten.  [launched_tree_process_ids] is shown to end and to list
    exactly the tree below its root, descendants first. *)

From stdpp Require Import fin_maps sorting.
From S2P Require Import Prelude RecordLock LockExec Reach RecordLockWait TimerSchedule PosixProtocol.
From S2P Require Import ProcessTimer Credentials SignalState Signals Service Lifecycle Fork Launch.

Definition kids (t : Tree) (p : Z) : gset Z := default ∅ (children t !! p).
(** A teardown has frozen [p]. *)
Definition owns (t : Tree) (p : Z) : Prop := ∃ r l, tree_teardowns t !! r = Some l ∧ p ∈ l.

Record tree_ok (t : Tree) (exited : Z → bool) : Prop := mkTreeOk {
  tk_bootstrap : ∀ b, bootstrap_process_id t = Some b →
    is_Some (processes t !! b) ∧ parents t !! b = None ∧ (∀ p, b ∉ kids t p) ∧ ¬ owns t b;
  tk_started : bootstrap_process_id t = None → processes t = ∅ ∧ tree_teardowns t = ∅;
  tk_parent : ∀ c p, parents t !! c = Some p →
    is_Some (processes t !! c) ∧ is_Some (processes t !! p) ∧ c ∈ kids t p;
  (** only the reaper can be left with a child that is gone *)
  tk_child : ∀ c p, c ∈ kids t p →
    parents t !! c = Some p ∨ bootstrap_process_id t = Some p ∧ processes t !! c = None;
  tk_nonempty : ∀ p, children t !! p ≠ Some ∅;
  tk_rank : ∃ rank : Z → nat, ∀ c p, parents t !! c = Some p → (rank p < rank c)%nat;
  tk_creators : ∀ c, is_Some (launch_creators t !! c) → is_Some (parents t !! c);
  tk_orphans : ∀ c, c ∈ orphaned_processes t → ∃ b, bootstrap_process_id t = Some b ∧ parents t !! c = Some b;
  (** an exited process keeps only the children of a frozen tree *)
  tk_exited : ∀ c p, parents t !! c = Some p → exited p = true → bootstrap_process_id t ≠ Some p → owns t p ∨ owns t c;
  (** a frozen tree lists the children of a process before it *)
  tk_teardown : ∀ r l, tree_teardowns t !! r = Some l → ∀ i p c, l !! i = Some p → parents t !! c = Some p →
    ∃ j, (j < i)%nat ∧ l !! j = Some c;
  tk_distinct : ∀ r l, tree_teardowns t !! r = Some l → NoDup l;
}.

#[global] Instance owns_dec t p : Decision (owns t p).
Proof.
  destruct (decide (Exists (λ x : Z * list Z, p ∈ x.2) (map_to_list (tree_teardowns t)))) as [H|H]; [left|right].
  - apply Exists_exists in H as ([r l] & Hx%elem_of_map_to_list & Hp). by exists r, l.
  - intros (r & l & Hl & Hp). apply H, Exists_exists. exists (r, l). split; [by apply elem_of_map_to_list|done].
Defined.
Lemma owns_iff {LK : LockKind} (s : Service) p : tree_teardown_owns s p = true ↔ owns (tree s) p.
Proof.
  unfold tree_teardown_owns, owns. rewrite existsb_exists. split.
  - intros ([r l] & Hin & Hp%bool_decide_eq_true). exists r, l. split; [|done].
    apply list_elem_of_In in Hin. by apply elem_of_map_to_list in Hin.
  - intros (r & l & Hl & Hp). exists (r, l). split; [|by apply bool_decide_eq_true].
    apply list_elem_of_In. by apply elem_of_map_to_list.
Qed.
Lemma owns_false {LK : LockKind} (s : Service) p : tree_teardown_owns s p = false ↔ ¬ owns (tree s) p.
Proof. rewrite <- owns_iff. by destruct (tree_teardown_owns s p). Qed.

(** An unregistered process has no children. *)
Lemma no_kids t exited p : tree_ok t exited → processes t !! p = None → ∀ c, parents t !! c ≠ Some p.
Proof. intros Hok Hp c Hc. destruct (tk_parent _ _ Hok _ _ Hc) as (_ & [? ?] & _). congruence. Qed.
Lemma tree_ok_exited t f g : tree_ok t f → (∀ p, g p = true → f p = true) → tree_ok t g.
Proof. intros [] Hg. split; eauto. Qed.

(** ** Changes of the links *)

Lemma kids_add o c cs p : default ∅ (add_child o c cs !! p) =
  if decide (p = o) then {[c]} ∪ default ∅ (cs !! o) else (default ∅ (cs !! p) : gset Z).
Proof. unfold add_child. rewrite lookup_insert. repeat case_decide; subst; done. Qed.
Lemma kids_drop o c cs p : default ∅ (drop_child o c cs !! p) =
  if decide (p = o) then default ∅ (cs !! o) ∖ {[c]} else (default ∅ (cs !! p) : gset Z).
Proof.
  unfold drop_child. destruct (decide (p = o)) as [->|Hp]; [|by rewrite lookup_alter_ne].
  rewrite lookup_alter_eq. destruct (cs !! o); simpl; set_solver.
Qed.
Lemma kids_prune o cs p : default ∅ (prune_children o cs !! p) = (default ∅ (cs !! p) : gset Z).
Proof.
  unfold prune_children. case_bool_decide as E; [|done]. rewrite lookup_delete. case_decide; [subst; by rewrite E|done].
Qed.
Lemma prune_nonempty o cs p : (∀ q, q ≠ o → cs !! q ≠ Some (∅ : gset Z)) → prune_children o cs !! p ≠ Some ∅.
Proof.
  intros Hne. unfold prune_children. case_bool_decide as E.
  - rewrite lookup_delete. case_decide; [done|]. by apply Hne.
  - destruct (decide (p = o)) as [->|]; [done|by apply Hne].
Qed.

(** *** A process is registered without a parent *)

Definition register (p handle : Z) (t : Tree) : Tree :=
  mkTree (bootstrap_process_id t) (<[p := handle]> (processes t)) (parents t) (children t) (launch_creators t)
    (tree_teardowns t) (orphaned_processes t).
Lemma register_ok t exited p handle :
  tree_ok t exited → processes t !! p = None → is_Some (bootstrap_process_id t) → (∀ q, p ∉ kids t q) →
  tree_ok (register p handle t) exited.
Proof.
  intros [H1 H2 H3 H4 H5 H6 H7 H8 H9 H10 H11] Hp [b Hb] Hk.
  assert (∀ q, is_Some (processes t !! q) → is_Some (<[p := handle]> (processes t) !! q)) as Hr.
  { intros q Hq. rewrite lookup_insert. case_decide; [by eexists|done]. }
  split; simpl; try done.
  - intros b' Hb'. destruct (H1 b' Hb') as (? & ? & ? & ?). by split_and!; [apply Hr| | |].
  - intros Hn. congruence.
  - intros c q Hc. destruct (H3 c q Hc) as (? & ? & ?). by split_and!; [apply Hr..|].
  - intros c q Hc. destruct (H4 c q Hc) as [?|[? ?]]; [by left|right]. split; [done|].
    rewrite lookup_insert_ne; [done|]. intros ->. by apply (Hk q).
Qed.
Definition with_bootstrap (b : Z) (t : Tree) : Tree :=
  mkTree (Some b) (processes t) (parents t) (children t) (launch_creators t) (tree_teardowns t) (orphaned_processes t).
Lemma bootstrap_ok t exited p handle :
  tree_ok t exited → processes t = ∅ → (∀ b, bootstrap_process_id t ≠ Some b) →
  tree_ok (with_bootstrap p (register p handle t)) exited.
Proof.
  intros Hok Hp Hb. assert (∀ q, parents t !! q = None) as Hq.
  { intros q. destruct (parents t !! q) as [r|] eqn:E; [|done]. apply (tk_parent _ _ Hok) in E as ([? E] & _).
    by rewrite Hp, lookup_empty in E. }
  assert (∀ q c, c ∉ kids t q) as Hk.
  { intros q c [Hc|[Hc _]]%(tk_child _ _ Hok); [by rewrite Hq in Hc|by apply (Hb q)]. }
  assert (tree_teardowns t = ∅) as Ht.
  { apply (tk_started _ _ Hok). destruct (bootstrap_process_id t) eqn:E; [by edestruct Hb|done]. }
  destruct Hok as [H1 H2 H3 H4 H5 H6 H7 H8 H9 H10 H11]. split; simpl; try done.
  - intros b [= <-]. split_and!; [rewrite lookup_insert_eq; by eexists|apply Hq|intros q; apply Hk|].
    intros (r & l & Hl & _). simpl in Hl. by rewrite Ht, lookup_empty in Hl.
  - intros c q Hc. by rewrite Hq in Hc.
  - intros c q Hc. by apply Hk in Hc.
  - intros c Hc. destruct (H8 c Hc) as (b & E & _). by edestruct Hb.
  - intros c q Hc. by rewrite Hq in Hc.
Qed.

(** *** A child is installed *)

Definition graft (o c handle : Z) (t : Tree) : Tree :=
  mkTree (bootstrap_process_id t) (<[c := handle]> (processes t)) (<[c := o]> (parents t)) (add_child o c (children t))
    (<[c := o]> (launch_creators t)) (tree_teardowns t) (orphaned_processes t).
Lemma graft_ok t exited o c handle :
  tree_ok t exited → is_Some (processes t !! o) → processes t !! c = None → (∀ q, c ∉ kids t q) →
  ¬ owns t o → exited o = false → tree_ok (graft o c handle t) exited.
Proof.
  intros Hok Ho Hc Hk Hown Hex. pose proof (no_kids _ _ _ Hok Hc) as Hnk.
  assert (c ≠ o) as Hco by (intros ->; rewrite Hc in Ho; by destruct Ho).
  assert (parents t !! c = None) as Hpc.
  { destruct (parents t !! c) eqn:E; [|done]. apply (tk_parent _ _ Hok) in E as ([? E] & _). congruence. }
  assert (∀ q, is_Some (processes t !! q) → is_Some (<[c := handle]> (processes t) !! q)) as Hr.
  { intros q Hq. rewrite lookup_insert. case_decide; [by eexists|done]. }
  assert (∀ x q, <[c := o]> (parents t) !! x = Some q → x = c ∧ q = o ∨ x ≠ c ∧ parents t !! x = Some q) as Hpar.
  { intros x q. rewrite lookup_insert. case_decide as E; [subst x; intros [= <-]; by left|]. right. done. }
  destruct Hok as [H1 H2 H3 H4 H5 H6 H7 H8 H9 H10 H11].
  assert (∀ q, kids (graft o c handle t) q = if decide (q = o) then {[c]} ∪ kids t o else kids t q) as Hkids.
  { intros q. apply kids_add. }
  split; try setoid_rewrite Hkids; simpl.
  - intros b Hb. destruct (H1 b Hb) as (? & ? & Hbk & ?). assert (b ≠ c) by (intros ->; rewrite Hc in *; by destruct H).
    split_and!; [by apply Hr|by rewrite lookup_insert_ne| |done]. intros q. case_decide; set_solver.
  - intros Hb. destruct (H2 Hb) as [E _]. rewrite E, lookup_empty in Ho. by destruct Ho.
  - intros x q [[-> ->]|[Hx Hq]]%Hpar.
    + rewrite lookup_insert_eq. split_and!; [by eexists|by apply Hr|]. rewrite decide_True by done. set_solver.
    + destruct (H3 _ _ Hq) as (? & ? & ?). split_and!; [by apply Hr..|]. case_decide; set_solver.
  - intros x q Hx. destruct (decide (x = c)) as [->|Hne].
    + case_decide as E; [|by apply Hk in Hx]. subst q. left. apply lookup_insert_eq.
    + assert (x ∈ kids t q) as Hx' by (case_decide; set_solver). rewrite !lookup_insert_ne by done. by apply H4.
  - intros q. unfold add_child. rewrite lookup_insert. case_decide; [|by apply H5]. intros [= E]. set_solver.
  - destruct H6 as [rank Hrank]. exists (λ x, if decide (x = c) then S (rank o) else rank x).
    intros x q [[-> ->]|[Hx Hq]]%Hpar.
    + destruct (decide (o = c)); [congruence|]. destruct (decide (c = c)); [lia|done].
    + destruct (decide (q = c)) as [->|]; [by apply Hnk in Hq|]. destruct (decide (x = c)); [done|]. by apply Hrank.
  - intros x. rewrite !lookup_insert. case_decide; [by eexists|]. apply H7.
  - intros x Hx. destruct (H8 x Hx) as (b & Hb & Hxb). exists b. split; [done|]. rewrite lookup_insert_ne; [done|].
    intros ->. congruence.
  - intros x q [[-> ->]|[Hx Hq]]%Hpar He Hb; [congruence|]. by apply H9.
  - intros r l Hl i p x Hi [[-> ->]|[Hx Hq]]%Hpar; [|by eapply H10]. exfalso. apply Hown. exists r, l.
    split; [done|]. by eapply list_elem_of_lookup_2.
  - done.
Qed.

(** *** A child is reaped *)

Definition prune (parent c : Z) (t : Tree) : Tree :=
  mkTree (bootstrap_process_id t) (delete c (processes t)) (delete c (parents t))
    (prune_children parent (drop_child parent c (children t))) (delete c (launch_creators t)) (tree_teardowns t)
    (orphaned_processes t ∖ {[c]}).
(** [prune] names the parent that the caller knows, or one the child had
    before it was moved to the reaper. *)
Definition parent_known (t : Tree) (parent c : Z) : Prop :=
  ∀ q, parents t !! c = Some q → q = parent ∨ bootstrap_process_id t = Some q.
Lemma prune_ok t exited exited' parent c :
  tree_ok t exited → bootstrap_process_id t ≠ Some c → (∀ x, parents t !! x ≠ Some c) → parent_known t parent c →
  (∀ p, p ≠ c → exited' p = exited p) → tree_ok (prune parent c t) exited'.
Proof.
  intros [H1 H2 H3 H4 H5 H6 H7 H8 H9 H10 H11] Hb Hnk Hk Hex.
  assert (∀ x q, delete c (parents t) !! x = Some q → x ≠ c ∧ q ≠ c ∧ parents t !! x = Some q) as Hpar.
  { intros x q [? Hx]%lookup_delete_Some. split_and!; [done| |done]. intros ->. by apply (Hnk x). }
  assert (∀ q, kids (prune parent c t) q = if decide (q = parent) then kids t q ∖ {[c]} else kids t q) as Hkids.
  { intros q. unfold kids. simpl. rewrite kids_prune, kids_drop. case_decide; by subst. }
  split; try setoid_rewrite Hkids; simpl.
  - intros b E. destruct (H1 b E) as (? & ? & Hbk & ?). assert (b ≠ c) by congruence.
    rewrite !lookup_delete_ne by done. split_and!; try done. intros q. case_decide; set_solver.
  - intros E. destruct (H2 E) as [-> ?]. by rewrite delete_empty.
  - intros x q (Hx & Hq & E)%Hpar. destruct (H3 x q E) as (? & ? & ?). rewrite !lookup_delete_ne by done.
    split_and!; try done. case_decide; set_solver.
  - intros x q Hx. assert (x ∈ kids t q) as Hx' by (case_decide; set_solver).
    destruct (decide (x = c)) as [->|Hne].
    + rewrite !lookup_delete_eq. right. split; [|done]. destruct (H4 _ _ Hx') as [E|[? ?]]; [|done].
      destruct (Hk q E) as [->|?]; [|done]. rewrite decide_True in Hx by done. set_solver.
    + rewrite !lookup_delete_ne by done. by apply H4.
  - intros q. apply prune_nonempty. intros r Hr. unfold drop_child. by rewrite lookup_alter_ne.
  - destruct H6 as [rank Hrank]. exists rank. intros x q (_ & _ & E)%Hpar. by apply Hrank.
  - intros x. rewrite !lookup_delete. case_decide; [by intros []|apply H7].
  - intros x [Hx Hne]%elem_of_difference. destruct (H8 x Hx) as (b & ? & ?). exists b. split; [done|].
    rewrite lookup_delete_ne; [done|set_solver].
  - intros x q (_ & Hq & E)%Hpar. rewrite Hex by done. by apply H9.
  - intros r l Hl i p x Hi (_ & _ & E)%Hpar. by eapply H10.
  - done.
Qed.

(** *** The children of an exited process are moved *)

Definition move_child (reaper parent : Z) (t : Tree) (c : Z) : Tree :=
  mkTree (bootstrap_process_id t) (processes t) (<[c := reaper]> (parents t))
    (drop_child parent c (add_child reaper c (children t))) (launch_creators t) (tree_teardowns t)
    ({[c]} ∪ orphaned_processes t).
Record moved (reaper parent : Z) (cs : list Z) (t t' : Tree) : Prop := mkMoved {
  mv_bootstrap : bootstrap_process_id t' = bootstrap_process_id t;
  mv_processes : processes t' = processes t;
  mv_creators : launch_creators t' = launch_creators t;
  mv_teardowns : tree_teardowns t' = tree_teardowns t;
  mv_parents : ∀ x, parents t' !! x = if decide (x ∈ cs) then Some reaper else parents t !! x;
  mv_kids : ∀ q x, x ∈ kids t' q ↔ (x ∈ kids t q ∧ ¬ (q = parent ∧ x ∈ cs)) ∨ q = reaper ∧ x ∈ cs;
  mv_orphans : ∀ x, x ∈ orphaned_processes t' ↔ x ∈ orphaned_processes t ∨ x ∈ cs;
  mv_nonempty : (∀ q, children t !! q ≠ Some ∅) → ∀ q, q ≠ parent → children t' !! q ≠ Some ∅;
}.
Lemma move_moved reaper parent cs t : parent ≠ reaper → moved reaper parent cs t (foldl (move_child reaper parent) t cs).
Proof.
  intros Hne. induction cs as [|c cs IH] using rev_ind.
  - split; simpl; try done; set_solver.
  - rewrite foldl_app. simpl. set (t1 := foldl _ t cs) in *. clearbody t1. destruct IH as [A1 A2 A3 A4 A5 A6 A7 A8].
    split; simpl; try done.
    + intros x. rewrite lookup_insert, A5. destruct (decide (c = x)) as [->|Hx]; [rewrite decide_True by set_solver; done|].
      destruct (decide (x ∈ cs)); [by rewrite decide_True by set_solver|by rewrite decide_False by set_solver].
    + intros q x. unfold kids. simpl. rewrite kids_drop, !kids_add, (decide_False _ _ Hne).
      fold (kids t1 parent) (kids t1 q) (kids t1 reaper). specialize (A6 q x).
      destruct (decide (q = parent)) as [->|]; [|destruct (decide (q = reaper)) as [->|]]; set_solver.
    + intros x. rewrite elem_of_union, A7. set_solver.
    + intros H q Hq. unfold drop_child. rewrite lookup_alter_ne by done. unfold add_child. rewrite lookup_insert.
      case_decide; [|by apply A8]. intros [= E]. set_solver.
Qed.
(** [reparent_children_of_exited], on the tree. *)
Definition reparented (parent : Z) (cs : list Z) (t : Tree) : Tree :=
  match bootstrap_process_id t with
  | None => t
  | Some reaper =>
      let t := foldl (move_child reaper parent) t cs in
      mkTree (bootstrap_process_id t) (processes t) (parents t) (prune_children parent (children t)) (launch_creators t)
        (tree_teardowns t) (orphaned_processes t)
  end.
Lemma reparented_moved t b parent cs :
  bootstrap_process_id t = Some b → parent ≠ b → moved b parent cs t (reparented parent cs t).
Proof.
  intros Hb Hne. unfold reparented. rewrite Hb. destruct (move_moved b parent cs t Hne) as [A1 A2 A3 A4 A5 A6 A7 A8].
  split; simpl; try done.
  - intros q x. unfold kids. simpl. rewrite kids_prune. apply A6.
  - intros H q Hq. unfold prune_children. case_bool_decide; [|by apply A8]. rewrite lookup_delete. case_decide; [done|by apply A8].
Qed.
Lemma owns_same t t' p : tree_teardowns t' = tree_teardowns t → owns t' p ↔ owns t p.
Proof. intros E. unfold owns. by rewrite E. Qed.
Lemma reparented_ok t exited exited' b parent cs :
  tree_ok t exited → bootstrap_process_id t = Some b → parent ≠ b → ¬ owns t parent →
  (∀ c, c ∈ cs ↔ c ∈ kids t parent ∧ ¬ owns t c) →
  (∀ p, exited' p = true → exited p = true ∨ p = parent) → tree_ok (reparented parent cs t) exited'.
Proof.
  intros Hok Hb Hne Hown Hcs Hex. pose proof (reparented_moved t b parent cs Hb Hne) as Hmv.
  assert (∀ q, children (reparented parent cs t) !! q ≠ Some ∅) as Hnonempty.
  { intros q. destruct (decide (q = parent)) as [->|Hq]; [|apply (mv_nonempty _ _ _ _ _ Hmv (tk_nonempty _ _ Hok)); done].
    unfold reparented. rewrite Hb. simpl. apply prune_nonempty. intros r Hr.
    apply (mv_nonempty _ _ _ _ _ (move_moved b parent cs t Hne) (tk_nonempty _ _ Hok)). done. }
  set (t' := reparented parent cs t) in *. clearbody t'. destruct Hmv as [A1 A2 A3 A4 A5 A6 A7 _].
  assert (∀ p, owns t' p ↔ owns t p) as Ho by (intros p; by apply owns_same).
  assert (∀ c, c ∈ cs → parents t !! c = Some parent) as Hcp.
  { intros c [Hc _]%Hcs. apply (tk_child _ _ Hok) in Hc as [?|[? _]]; [done|congruence]. }
  destruct (tk_bootstrap _ _ Hok b Hb) as (Hbr & Hbp & Hbk & Hbo).
  assert (∀ x q, parents t' !! x = Some q → (x ∈ cs ∧ q = b) ∨ ((x ∉ cs) ∧ parents t !! x = Some q)) as Hpar.
  { intros x q. rewrite A5. case_decide; [intros [= <-]; by left|by right]. }
  assert (b ∉ cs) as Hbc by (intros Hc; apply Hcp in Hc; congruence).
  destruct Hok as [H1 H2 H3 H4 H5 H6 H7 H8 H9 H10 H11]. split; rewrite ?A1, ?A2, ?A3, ?A4; try setoid_rewrite Ho; try done.
  - intros b' E. replace b' with b by congruence. split_and!; [done|by rewrite A5, decide_False by done| |done].
    intros p Hp%A6. destruct Hp as [[Hp _]|[_ Hp]]; [by apply (Hbk p)|done].
  - intros x q [[Hx ->]|[Hx E]]%Hpar; [|].
    + destruct (H3 x parent (Hcp x Hx)) as (? & ? & ?). split_and!; try done. apply A6. by right.
    + destruct (H3 x q E) as (? & ? & ?). split_and!; try done. apply A6. left. split; [done|]. by intros [_ ?].
  - intros x q [[Hx Hn]|[-> Hx]]%A6.
    + rewrite A5. destruct (H4 x q Hx) as [E|[? ?]]; [|by right]. destruct (decide (x ∈ cs)) as [Hc|]; [|by left].
      apply Hcp in Hc as Hc'. assert (q = parent) by congruence. by destruct Hn.
    + left. by rewrite A5, decide_True by done.
  - destruct H6 as [rank Hrank]. exists (λ x, if decide (x = b) then 0%nat else S (rank x)).
    intros x q [[Hx ->]|[Hx E]]%Hpar.
    + destruct (decide (b = b)); [|done]. destruct (decide (x = b)); [by subst|lia].
    + destruct (decide (x = b)); [subst; congruence|]. apply Hrank in E. destruct (decide (q = b)); lia.
  - intros c Hc. rewrite A5. case_decide; [by eexists|by apply H7].
  - intros c [Hc|Hc]%A7; exists b; (split; [done|]); rewrite A5; [|by rewrite decide_True].
    case_decide; [done|]. destruct (H8 c Hc) as (b' & ? & ?). congruence.
  - intros x q [[Hx ->]|[Hx E]]%Hpar He Hq; [done|]. destruct (Hex q He) as [?| ->]; [by apply H9|]. right.
    destruct (decide (owns t x)) as [?|Hn]; [done|]. exfalso. apply Hx, Hcs. split; [|done]. by apply (H3 x parent).
  - intros r l Hl i p x Hi [[Hx ->]|[Hx E]]%Hpar; [|by eapply H10]. destruct Hbo. exists r, l. split; [done|].
    by eapply list_elem_of_lookup_2.
Qed.

(** ** The tree below a process *)

Definition child_of (t : Tree) (p c : Z) : Prop := parents t !! c = Some p.
Definition descends (t : Tree) (root x : Z) : Prop := rtc (child_of t) root x.
Lemma in_order_perm l : in_order l ≡ₚ l.
Proof. apply merge_sort_Permutation. Qed.
Lemma elem_in_order x l : x ∈ in_order l ↔ x ∈ l.
Proof. by rewrite in_order_perm. Qed.

Section Walk.
Context {LK : LockKind} (s : Service) (exited : Z → bool) (root : Z).
Hypothesis Hok : tree_ok (tree s) exited.
Hypothesis Hroot : is_Some (parents (tree s) !! root).

Record walked (index : nat) (ids : list Z) : Prop := mkWalked {
  wk_root : ids !! 0%nat = Some root;
  wk_index : (index ≤ length ids)%nat;
  wk_nodup : NoDup ids;
  wk_parent : ∀ j x, (0 < j)%nat → ids !! j = Some x →
    ∃ k p, (k < index)%nat ∧ (k < j)%nat ∧ ids !! k = Some p ∧ child_of (tree s) p x;
  wk_closed : ∀ k p c, (k < index)%nat → ids !! k = Some p → child_of (tree s) p c → c ∈ ids;
}.
Lemma walked_start : walked 0 [root].
Proof.
  split; simpl; try done; try lia; [apply NoDup_singleton|]. intros [|j] x Hj; [lia|]. by destruct j.
Qed.
Lemma walked_dom index ids x : walked index ids → x ∈ ids → is_Some (parents (tree s) !! x).
Proof.
  intros Hw [j Hj]%list_elem_of_lookup_1. destruct j as [|j].
  - rewrite (wk_root _ _ Hw) in Hj. by injection Hj as <-.
  - destruct (wk_parent _ _ Hw (S j) x ltac:(lia) Hj) as (k & p & _ & _ & _ & Hc). by eexists.
Qed.
Lemma walked_length index ids : walked index ids → (length ids ≤ size (parents (tree s)))%nat.
Proof.
  intros Hw. rewrite <- (size_list_to_set (C := gset Z) ids) by apply (wk_nodup _ _ Hw).
  rewrite <- size_dom. apply subseteq_size. intros x Hx%elem_of_list_to_set. apply elem_of_dom. by eapply walked_dom.
Qed.
Lemma walked_rank index ids rank :
  walked index ids → (∀ c p, parents (tree s) !! c = Some p → (rank p < rank c)%nat) →
  ∀ x, x ∈ ids → (rank root ≤ rank x)%nat.
Proof.
  intros Hw Hrank x [j Hj]%list_elem_of_lookup_1. revert x Hj. induction (lt_wf j) as [j _ IH]. intros x Hj.
  destruct j as [|j]; [rewrite (wk_root _ _ Hw) in Hj; by injection Hj as <-|].
  destruct (wk_parent _ _ Hw (S j) x ltac:(lia) Hj) as (k & p & _ & Hk & Hp & Hc). apply Hrank in Hc.
  specialize (IH k Hk p Hp). lia.
Qed.
Lemma walked_child index ids p c :
  walked index ids → p ∈ ids → c ∈ children_in_order s p ↔ child_of (tree s) p c.
Proof.
  intros Hw Hp. unfold children_in_order. rewrite elem_in_order, elem_of_elements. split.
  - intros [?|[Hb _]]%(tk_child _ _ Hok); [done|]. destruct (tk_bootstrap _ _ Hok p Hb) as (_ & Hn & _).
    destruct (walked_dom _ _ _ Hw Hp). congruence.
  - intros (_ & _ & ?)%(tk_parent _ _ Hok). done.
Qed.
Lemma walked_not_root index ids p : walked index ids → p ∈ ids → ¬ child_of (tree s) p root.
Proof.
  intros Hw Hp Hc. destruct (tk_rank _ _ Hok) as [rank Hrank]. pose proof (walked_rank _ _ _ Hw Hrank p Hp).
  apply Hrank in Hc. lia.
Qed.
Lemma walked_step index ids p :
  walked index ids → ids !! index = Some p → walked (S index) (ids ++ children_in_order s p).
Proof.
  intros Hw Hp. assert (p ∈ ids) as Hin by (by eapply list_elem_of_lookup_2).
  assert (∀ c, c ∈ children_in_order s p ↔ child_of (tree s) p c) as Hch by (intros c; by eapply walked_child).
  pose proof (λ q, walked_not_root index ids q Hw) as Hnr. destruct Hw as [W1 W2 W3 W4 W5].
  pose proof (lookup_lt_Some _ _ _ Hp) as Hlt.
  assert (∀ k q, ids !! k = Some q → (ids ++ children_in_order s p) !! k = Some q) as Happ.
  { intros k q Hk. by apply lookup_app_l_Some. }
  split.
  - by apply Happ.
  - rewrite length_app. lia.
  - apply NoDup_app. split_and!; [done| |].
    + intros c Hc Hk. apply Hch in Hk. apply list_elem_of_lookup_1 in Hc as [j Hj].
      destruct j as [|j]; [rewrite W1 in Hj; injection Hj as <-; by apply (Hnr p)|].
      destruct (W4 (S j) c ltac:(lia) Hj) as (k & q & Hk1 & _ & Hq & Hc). assert (q = p) as ->.
      { unfold child_of in *. congruence. }
      pose proof (NoDup_lookup _ _ _ _ W3 Hq Hp). lia.
    + unfold children_in_order. rewrite in_order_perm. apply NoDup_elements.
  - intros j x Hj Hx. apply lookup_app_Some in Hx as [Hx|[Hx Hc]].
    + destruct (W4 j x Hj Hx) as (k & q & ? & ? & ? & ?). exists k, q. split_and!; [lia|done|by apply Happ|done].
    + apply list_elem_of_lookup_2 in Hc. apply Hch in Hc. exists index, p.
      split_and!; [lia|lia|by apply Happ|done].
  - intros k q c Hk Hq Hc. rewrite lookup_app_l in Hq by lia. apply elem_of_app.
    destruct (decide (k = index)) as [->|]; [|left; eapply W5; [|done..]; lia].
    right. replace q with p in * by congruence. by apply Hch.
Qed.
(** The walk ends with the whole tree. *)
Lemma extend_walked fuel index ids :
  walked index ids → (size (parents (tree s)) + 1 ≤ fuel + index)%nat →
  ∃ ids', extend_tree s fuel index ids = Some ids' ∧ walked (length ids') ids'.
Proof.
  revert index ids. induction fuel as [|fuel IH]; intros index ids Hw Hf; simpl;
    pose proof (walked_length _ _ Hw); pose proof (wk_index _ _ Hw).
  - rewrite (proj2 (lookup_ge_None ids index)) by lia. exists ids. split; [done|]. lia.
  - destruct (ids !! index) as [p|] eqn:Hp.
    + apply IH; [by apply walked_step|lia].
    + apply lookup_ge_None in Hp. exists ids. split; [done|]. by replace (length ids) with index by lia.
Qed.
Lemma walked_descends ids x : walked (length ids) ids → x ∈ ids ↔ descends (tree s) root x.
Proof.
  intros Hw. split.
  - intros [j Hj]%list_elem_of_lookup_1. revert x Hj. induction (lt_wf j) as [j _ IH]. intros x Hj.
    destruct j as [|j]; [rewrite (wk_root _ _ Hw) in Hj; injection Hj as <-; apply rtc_refl|].
    destruct (wk_parent _ _ Hw (S j) x ltac:(lia) Hj) as (k & p & _ & Hk & Hp & Hc).
    eapply rtc_r; [by eapply IH|done].
  - intros Hd. unfold descends in Hd. revert Hd. apply (rtc_ind_r (λ x, x ∈ ids)).
    + eapply list_elem_of_lookup_2, (wk_root _ _ Hw).
    + intros p c _ Hc [k Hk]%list_elem_of_lookup_1. eapply (wk_closed _ _ Hw); [|done..]. by eapply lookup_lt_Some.
Qed.
(** Descendants first. *)
Lemma walked_order ids i p c :
  walked (length ids) ids → reverse ids !! i = Some p → child_of (tree s) p c →
  ∃ j, (j < i)%nat ∧ reverse ids !! j = Some c.
Proof.
  intros Hw Hi Hc. pose proof (lookup_lt_Some _ _ _ Hi) as Hlt. rewrite length_reverse in Hlt.
  rewrite reverse_lookup in Hi by done. set (k := (length ids - S i)%nat) in *.
  assert (c ∈ ids) as [m Hm]%list_elem_of_lookup_1 by (eapply (wk_closed _ _ Hw k); [lia|done..]).
  assert ((k < m)%nat) as Hkm.
  { destruct m as [|m]; [rewrite (wk_root _ _ Hw) in Hm; injection Hm as <-; by edestruct (walked_not_root _ _ p Hw);
      [eapply list_elem_of_lookup_2|]|].
    destruct (wk_parent _ _ Hw (S m) c ltac:(lia) Hm) as (k' & q & _ & Hk' & Hq & Hc').
    assert (q = p) as -> by (unfold child_of in *; congruence).
    pose proof (NoDup_lookup _ _ _ _ (wk_nodup _ _ Hw) Hq Hi). lia. }
  pose proof (lookup_lt_Some _ _ _ Hm). exists (length ids - S m)%nat. split; [lia|].
  rewrite reverse_lookup by lia. by replace (length ids - S (length ids - S m))%nat with m by lia.
Qed.
End Walk.
(** The members of a launched tree, as [launched_tree_process_ids] returns them. *)
Record lists_tree (t : Tree) (root : Z) (l : list Z) : Prop := mkListsTree {
  lt_members : ∀ x, x ∈ l ↔ descends t root x;
  lt_nodup : NoDup l;
  lt_order : ∀ i p c, l !! i = Some p → child_of t p c → ∃ j, (j < i)%nat ∧ l !! j = Some c;
}.
Lemma tree_listed {LK : LockKind} (s : Service) exited root :
  tree_ok (tree s) exited → is_Some (parents (tree s) !! root) →
  ∃ ids, extend_tree s (size (parents (tree s)) + 1) 0 [root] = Some ids ∧ lists_tree (tree s) root (reverse ids).
Proof.
  intros Hok Hroot.
  destruct (extend_walked s exited root Hok Hroot (size (parents (tree s)) + 1) 0 [root]) as (ids & E & Hw).
  { by eapply walked_start. }
  { lia. }
  exists ids. split; [done|]. split.
  - intros x. rewrite elem_of_reverse. by eapply walked_descends.
  - rewrite reverse_Permutation. apply (wk_nodup _ _ _ _ Hw).
  - intros i p c. by eapply walked_order.
Qed.

(** ** Frozen trees *)

Definition with_teardowns (t : Tree) x : Tree :=
  mkTree (bootstrap_process_id t) (processes t) (parents t) (children t) (launch_creators t) x (orphaned_processes t).
Lemma freeze_ok t exited root l :
  tree_ok t exited → tree_teardowns t !! root = None → lists_tree t root l → (∀ p, p ∈ l → is_Some (parents t !! p)) →
  tree_ok (with_teardowns t (<[root := l]> (tree_teardowns t))) exited.
Proof.
  intros Hok Hnew Hl Hpar. set (t' := with_teardowns _ _).
  assert (∀ p, owns t p → owns t' p) as Ho.
  { intros p (r & l' & Hr & Hp). exists r, l'. split; [|done]. simpl. rewrite lookup_insert_ne; [done|congruence]. }
  destruct Hok as [H1 H2 H3 H4 H5 H6 H7 H8 H9 H10 H11]. split; simpl; try done.
  - intros b Hb. destruct (H1 b Hb) as (? & Hbp & ? & Hbo). split_and!; try done. intros (r & l' & Hr & Hp). simpl in Hr.
    rewrite lookup_insert in Hr. case_decide; [injection Hr as <-|destruct Hbo; by exists r, l'].
    apply Hpar in Hp as [? Hp]. congruence.
  - intros Hb. destruct (H2 Hb) as [Hp _]. exfalso. assert (root ∈ l) as [q Hq]%Hpar by apply (lt_members _ _ _ Hl), rtc_refl.
    apply H3 in Hq as ([? Hq] & _). by rewrite Hp, lookup_empty in Hq.
  - intros c p Hc He Hb. destruct (H9 c p Hc He Hb) as [?|?]; [left|right]; by apply Ho.
  - intros r l' Hr i p c Hi Hc. rewrite lookup_insert in Hr. case_decide; [injection Hr as <-|by eapply H10].
    by eapply (lt_order _ _ _ Hl).
  - intros r l' Hr. rewrite lookup_insert in Hr. case_decide; [injection Hr as <-; apply Hl|by eapply H11].
Qed.
Lemma forget_teardown_ok t exited root l :
  tree_ok t exited → tree_teardowns t !! root = Some l → (∀ p, p ∈ l → processes t !! p = None) →
  tree_ok (with_teardowns t (delete root (tree_teardowns t))) exited.
Proof.
  intros Hok Hl Hgone. set (t' := with_teardowns _ _).
  assert (∀ p, owns t' p → owns t p) as Ho'.
  { intros p (r & l' & Hr & Hp). exists r, l'. simpl in Hr. by apply lookup_delete_Some in Hr as [_ Hr]. }
  assert (∀ p, owns t p → is_Some (processes t !! p) → owns t' p) as Ho.
  { intros p (r & l' & Hr & Hp) [h Hh]. exists r, l'. split; [|done]. simpl. apply lookup_delete_Some. split; [|done].
    intros <-. rewrite (Hgone p) in Hh by congruence. done. }
  destruct Hok as [H1 H2 H3 H4 H5 H6 H7 H8 H9 H10 H11]. split; simpl; try done.
  - intros b Hb. destruct (H1 b Hb) as (? & ? & ? & Hbo). split_and!; try done. intros Hb'%Ho'. done.
  - intros Hb. destruct (H2 Hb) as [? ->]. by rewrite delete_empty.
  - intros c p Hc He Hb. destruct (H3 c p Hc) as (? & ? & _). destruct (H9 c p Hc He Hb); [left|right]; by apply Ho.
  - intros r l' [_ Hr]%lookup_delete_Some. by eapply H10.
  - intros r l' [_ Hr]%lookup_delete_Some. by eapply H11.
Qed.
