(* ===== verification/ServiceProofs.v ===== *)
(** * The invariant of the POSIX service

    [service_ok]: the tables of the service agree on the registered processes,
    the process tree is consistent ([tree_ok]), terminals and sessions
    correspond, and prepared forks belong to registered processes.  Every
    operation of the service is shown to keep it. *)

From stdpp Require Import fin_maps.
From S2P Require Import Prelude RecordLock LockExec Reach RecordLockWait TimerSchedule PosixProtocol.
From S2P Require Import ProcessTimer Credentials SignalState Signals SignalProofs SignalTheorems Service.
From S2P Require Import Lifecycle Fork Launch ChildWait Jobs ServiceFrame ProcessTree.

(** A controlling terminal has one session, which its leader still leads. *)
Record jobs_ok (j : Jobs) : Prop := mkJobsOk {
  jk_control : ∀ sid t, controlling_terminals j !! sid = Some t → ∃ ct, terminals j !! t = Some ct ∧ ct_session ct = sid;
  jk_terminal : ∀ t ct, terminals j !! t = Some ct → controlling_terminals j !! ct_session ct = Some t;
  jk_leader : ∀ sid t, controlling_terminals j !! sid = Some t → session_ids j !! sid = Some sid;
}.

Section Ok.
Context {LK : LockKind} {PP : PosixProtocol} {AP : AccountProtocol} {SC : SignalCodec} {VC : ServiceCodec}.
Context {SN : @SignalNumbers PP} {SL : SignalCodecLaws}.

(** Signal dispositions a new process may start with. *)
Record inheritable (s : ProcessSignalState) : Prop := mkInheritable {
  in_pending : pending s = 0;
  in_ignored : is_u64 (ignored s);
  in_caught : is_u64 (caught s);
  in_disjoint : ∀ x, in_mask (ignored s) x = true → in_mask (caught s) x = false ∧ in_mask unblockable x = false;
  in_blockable : ∀ x, in_mask (caught s) x = true → in_mask unblockable x = false;
}.
Record forks_ok (f : Forks) (ps : gmap Z Z) : Prop := mkForksOk {
  fk_tokens : NoDup (prepared_forks f).*1;
  fk_entries : ∀ token x, (token, x) ∈ prepared_forks f →
    token < next_fork_token f ∧ is_Some (ps !! f_owner x) ∧ inheritable (f_signals x);
}.
Record service_ok (s : Service) : Prop := mkServiceOk {
  ok_table : signals_ok (table s);
  ok_sessions : ∀ p, is_Some (handle_of s p) ↔ is_Some (session_of s p);
  ok_session : ∀ p c, session_of s p = Some c → process_id c = p;
  ok_signals : ∀ p, is_Some (handle_of s p) ↔ is_Some (signals (table s) !! p);
  ok_groups : ∀ p, is_Some (handle_of s p) ↔ is_Some (group_of s p);
  ok_session_ids : ∀ p, is_Some (handle_of s p) ↔ is_Some (session_id s p);
  ok_tree : tree_ok (tree s) (exit_seen s);
  ok_jobs : jobs_ok (jobs s);
  ok_forks : forks_ok (forks s) (processes (tree s));
}.
Lemma ok_waits s p : service_ok s → is_Some (handle_of s p) ↔ is_Some (wait_state s p).
Proof. intros Hok. rewrite (ok_signals _ Hok). apply (so_waits _ (ok_table _ Hok)). Qed.
Lemma service_new_ok : service_ok service_new.
Proof.
  split; try apply ok_signals_new; try (intros p; split; by intros []); try done.
  - split; simpl; try done; try (intros; by rewrite lookup_empty in *); try set_solver.
    exists (λ _, 0%nat). done.
  - split; simpl; [constructor|]. intros token x Hx. by apply not_elem_of_nil in Hx.
Qed.

(** ** Light operations *)

Lemma light_exit s s' p : light s s' → exit_seen s' p = exit_seen s p.
Proof.
  intros Hl. pose proof (shape_waits _ _ (proj1 (light_table _ _ Hl)) p) as E. unfold exit_seen, wait_state.
  unfold settled in E. destruct (process_wait_states (table s') !! p), (process_wait_states (table s) !! p); simpl in *; congruence.
Qed.
(** What a process has waited for. *)
Definition usage_of (s : Service) (p : Z) : option WaitedChildUsage := waited_usage <$> wait_state s p.
Lemma shape_usage s s' p : shape (table s) (table s') → usage_of s' p = usage_of s p.
Proof.
  intros Hs. pose proof (shape_waits _ _ Hs p) as E. unfold usage_of, wait_state, settled in *.
  destruct (process_wait_states (table s') !! p), (process_wait_states (table s) !! p); simpl in *; congruence.
Qed.
Lemma light_usage s s' p : light s s' → usage_of s' p = usage_of s p.
Proof. intros Hl. apply shape_usage, Hl. Qed.
Lemma tree_ok_ext t f g : tree_ok t f → (∀ p, g p = f p) → tree_ok t g.
Proof. intros Hok E. eapply tree_ok_exited; [done|]. intros p. by rewrite E. Qed.
Lemma light_session s s' p : light s s' → is_Some (session_of s' p) ↔ is_Some (session_of s p).
Proof. intros Hl. pose proof (light_sessions _ _ Hl p) as E. rewrite <- !(fmap_is_Some process_id), E. done. Qed.
Lemma ok_light s s' : service_ok s → light s s' → service_ok s'.
Proof.
  intros [H1 H2 H3 H4 H5 H6 H7 H8 H9] Hl. pose proof (λ p, light_exit s s' p Hl) as Hex. pose proof (λ p, light_session s s' p Hl) as Hse.
  destruct Hl as [L1 L2 L3 L4 [L5 L6]].
  split; unfold handle_of, group_of, session_id in *; rewrite ?L1, ?L2, ?L3; auto.
  - intros p. rewrite Hse. apply H2.
  - intros p c Hc. specialize (L4 p). rewrite Hc in L4. destruct (session_of s p) as [c'|] eqn:E; simplify_eq/=.
    rewrite L4. by apply H3.
  - intros p. rewrite (shape_signals _ _ L5). apply H4.
  - by apply (tree_ok_ext _ (exit_seen s)).
Qed.
Definition good (s s' : Service) : Prop := service_ok s → service_ok s'.
#[global] Instance good_preorder : PreOrder good.
Proof. split; [by intros s ?|]. intros s1 s2 s3 H1 H2 H3. by apply H2, H1. Qed.
Lemma good_light s s' : light s s' → good s s'.
Proof. intros Hl Hok. by eapply ok_light. Qed.
Lemma stays_good {A} (m : stM Service Z A) : stays light m → stays good m.
Proof. intros Hm s. apply good_light, Hm. Qed.

(** ** Job control *)

Lemma good_jobs s s' :
  tree s' = tree s → table s' = table s → accounts s' = accounts s → forks s' = forks s →
  (∀ p, is_Some (group_of s' p) ↔ is_Some (group_of s p)) → (∀ p, is_Some (session_id s' p) ↔ is_Some (session_id s p)) →
  (jobs_ok (jobs s) → service_ok s → jobs_ok (jobs s')) → good s s'.
Proof.
  intros E1 E2 E3 E4 E5 E6 E7 Hok. pose proof (E7 (ok_jobs _ Hok) Hok) as Hj.
  destruct Hok as [H1 H2 H3 H4 H5 H6 H7 H8 H9]. split; try setoid_rewrite E5; try setoid_rewrite E6;
    unfold handle_of, session_of in *; rewrite ?E1, ?E2, ?E3, ?E4; auto.
  apply (tree_ok_ext _ (exit_seen s)); [done|]. intros p. unfold exit_seen, wait_state. by rewrite E2.
Qed.
Lemma jobs_ok_release j sid t :
  jobs_ok j → controlling_terminals j !! sid = Some t →
  jobs_ok (mkJobs (process_groups j) (session_ids j) (delete sid (controlling_terminals j)) (delete t (terminals j))).
Proof.
  intros [J1 J2 J3] Ht. split; simpl.
  - intros sid' t' [Hne Ht']%lookup_delete_Some. destruct (J1 sid' t' Ht') as (ct & Hct & E). exists ct. split; [|done].
    rewrite lookup_delete_ne; [done|]. intros <-. destruct (J1 sid t Ht) as (ct' & Hct' & E'). congruence.
  - intros t' ct [Hne Hct]%lookup_delete_Some. apply lookup_delete_Some. split; [|by apply J2]. intros E.
    apply J2 in Hct. congruence.
  - intros sid' t' [_ Ht']%lookup_delete_Some. by eapply J3.
Qed.
Lemma good_release sid s : good s (release_session_terminal sid s).
Proof.
  unfold release_session_terminal. destruct (controlling_terminals (jobs s) !! sid) as [t|] eqn:E; [|by intros ?].
  apply good_jobs; try done. intros Hj _. by apply jobs_ok_release.
Qed.
Lemma good_hangup p : stays good (hangup_exited_controlling_process p).
Proof.
  intros s. unfold hangup_exited_controlling_process. destruct (controlling_terminals _ !! p) as [terminal|]; [|reflexivity].
  apply (stays_bind good); [apply stays_need, _|]. intros t. apply (stays_bind good).
  - apply stays_good. case_match; [|apply stays_ret, _]. apply (stays_bind light); [|intros _; apply stays_ret, _].
    assert (1 ≤ SIGNAL_HUP ≤ SIGNAL_MAX) by (apply named_in; unfold named_signals; set_solver).
    apply light_terminal_signal. lia.
  - intros _. apply stays_modify. intros s'. apply good_release.
Qed.
Lemma insert_dom {A} (m : gmap Z A) k v p : is_Some (m !! k) → is_Some (<[k := v]> m !! p) ↔ is_Some (m !! p).
Proof. intros Hk. rewrite lookup_insert. case_decide; [subst|done]. split; [done|by eexists]. Qed.
Lemma good_put_group p group s : is_Some (session_id s p) → good s (put_group p group s).
Proof.
  intros Hp Hok. assert (is_Some (group_of s p)) as Hg.
  { by apply (ok_groups _ Hok), (ok_session_ids _ Hok). }
  revert Hok. apply good_jobs; try done; [|by intros []]. intros q. by apply insert_dom.
Qed.
Lemma good_leader p s : is_Some (handle_of s p) → good s (put_session_leader p s).
Proof.
  intros Hp Hok. apply (ok_groups _ Hok) in Hp as Hg. apply (ok_session_ids _ Hok) in Hp as Hs. revert Hok.
  apply good_jobs; try done; [intros q; by apply insert_dom..|]. intros [J1 J2 J3] _. split; simpl; try done.
  intros sid t Ht. rewrite lookup_insert. case_decide; [by subst|by eapply J3].
Qed.
Lemma good_join target group s : is_Some (session_id s target) → good s (join_group target group s).1.
Proof.
  intros Hs. unfold join_group, gets, modify, mbind, stM_bind. simpl.
  etransitivity; [by apply good_put_group|]. apply good_light, light_newly_orphaned.
Qed.
Lemma group_change_session s caller target requested group :
  group_change s caller target requested = Ok group → is_Some (session_id s target).
Proof.
  unfold group_change. destruct (session_id s target); [by eexists|]. intros H. inv_result.
Qed.
Lemma good_create_session p : stays good (create_session p).
Proof.
  unfold create_session. apply (stays_bind good); [apply stays_gets, _|]. intros taken.
  apply (stays_bind good); [apply stays_guard, _|]. intros _.
  apply (stays_bind_dep good); [apply stays_need, _|]. intros s h Hh. simpl in *.
  destruct (handle_of s p) as [h'|] eqn:E; [|done]. etransitivity; [by apply good_leader; eexists|].
  unfold mbind, stM_bind. simpl. set (s1 := put_session_leader p s).
  pose proof (light_newly_orphaned (non_orphaned_groups s) s1) as Hl.
  destruct (notify_newly_orphaned_groups _ s1) as [s2 [[]|e]]; simpl in *; by apply good_light.
Qed.
Lemma good_acquire p terminal : stays good (acquire_controlling_terminal p terminal).
Proof.
  intros s. unfold acquire_controlling_terminal, mbind, stM_bind, need, gets, guard. simpl.
  destruct (session_id s p) as [sid|] eqn:Es; simpl; [|reflexivity].
  destruct (has_session s p && (sid =? p)) eqn:E; simpl; [|reflexivity]. apply andb_true_iff in E as [_ E%Z.eqb_eq]. subst sid.
  destruct (controlling_terminals (jobs s) !! p) as [t|] eqn:Ec; [reflexivity|].
  destruct (bool_decide _) eqn:Et; simpl; [reflexivity|]. apply bool_decide_eq_false in Et.
  destruct (group_of s p) as [g|]; simpl; [|reflexivity]. unfold modify.
  apply good_jobs; try done. intros [J1 J2 J3] _. split; simpl.
  - intros sid t. rewrite lookup_insert. case_decide as E; [intros [= <-]; eexists; by rewrite lookup_insert_eq|].
    intros Ht. destruct (J1 sid t Ht) as (ct & Hct & <-). exists ct. split; [|done]. rewrite lookup_insert_ne; [done|].
    intros ->. apply Et. by eexists.
  - intros t ct. rewrite lookup_insert. case_decide as E; [intros [= <-]; subst; by rewrite lookup_insert_eq|].
    intros Ht%J2. rewrite lookup_insert_ne; [done|]. congruence.
  - intros sid t. rewrite lookup_insert. case_decide as E; [by subst|]. by apply J3.
Qed.
Lemma good_release_terminal p terminal : stays good (release_controlling_terminal p terminal).
Proof.
  unfold release_controlling_terminal. apply (stays_bind good); [apply stays_need, _|]. intros sid.
  apply (stays_bind good); [apply stays_gets, _|]. intros b. apply (stays_bind good); [apply stays_guard, _|]. intros _.
  apply stays_modify. intros s. apply good_release.
Qed.
Lemma good_foreground terminal t group s :
  terminals (jobs s) !! terminal = Some t →
  good s (set_terminals s (controlling_terminals (jobs s))
            (<[terminal := mkTerminal (ct_session t) group]> (terminals (jobs s)))).
Proof.
  intros Ht. apply good_jobs; try done. intros [J1 J2 J3] _. split; simpl; [| |done].
  - intros sid t' (ct & Hct & E)%J1. rewrite lookup_insert. case_decide; [subst|by exists ct].
    exists (mkTerminal (ct_session t) group). split; [done|]. simpl. congruence.
  - intros t' ct. rewrite lookup_insert. case_decide; [subst|by apply J2]. intros [= <-]. simpl. by apply J2.
Qed.
Lemma good_set_foreground i terminal payload : stays good (set_terminal_foreground_process_group i terminal payload).
Proof.
  unfold set_terminal_foreground_process_group.
  apply (stays_bind good); [apply stays_lift, _|]. intros group. apply (stays_bind good); [apply stays_guard, _|]. intros _.
  apply (stays_bind good); [apply stays_reads, _|]. intros [session t0]. apply (stays_bind good); [apply stays_gets, _|]. intros b.
  apply (stays_bind good); [apply stays_guard, _|]. intros _. apply (stays_bind good).
  { apply stays_good, light_access, named_in. unfold named_signals, stop_signals. set_solver. }
  intros _. apply (stays_bind_dep good); [apply stays_need, _|]. intros s t Ht. simpl in *. apply good_foreground.
  by destruct (terminals (jobs s) !! terminal); simplify_eq/=.
Qed.
Lemma good_terminal peer i opcode flags payload terminal : stays good (handle_terminal peer i opcode flags payload terminal).
Proof.
  intros s. unfold handle_terminal. cbv zeta. repeat (case_match; try reflexivity);
    (apply (stays_bind good); [|intros _; apply stays_ret, _]).
  - apply good_acquire.
  - apply good_release_terminal.
  - apply good_set_foreground.
Qed.

(** ** Exit *)

Record relinked (s s' : Service) : Prop := mkRelinked {
  rl_jobs : jobs s' = jobs s;
  rl_forks : forks s' = forks s;
  rl_accounts : accounts s' = accounts s;
  rl_table : calm (table s) (table s');
}.
Lemma reparent_fold reaper p cs s :
  relinked s (foldl (reparent_child reaper p) s cs) ∧
  tree (foldl (reparent_child reaper p) s cs) = foldl (move_child reaper p) (tree s) cs.
Proof.
  induction cs as [|c cs [[A1 A2 A3 A4] IH]] using rev_ind; [split; [split; try done; reflexivity|done]|].
  rewrite !foldl_app. simpl. rewrite <- IH. split; [|done]. split; simpl; try done.
  etransitivity; [exact A4|]. by apply calm_alter_wait.
Qed.
Lemma reparent_links p s :
  relinked s (reparent_children_of_exited p s) ∧
  (tree (reparent_children_of_exited p s) = tree s ∧
     (bootstrap_process_id (tree s) = None ∨ bootstrap_process_id (tree s) = Some p ∨
      (∃ b, bootstrap_process_id (tree s) = Some b ∧ has_session s b = false) ∨ owns (tree s) p) ∨
   ∃ b, bootstrap_process_id (tree s) = Some b ∧ p ≠ b ∧ ¬ owns (tree s) p ∧
     tree (reparent_children_of_exited p s) = reparented p (movable s p) (tree s)).
Proof.
  unfold reparent_children_of_exited. destruct (bootstrap_process_id (tree s)) as [b|] eqn:Hb;
    [|split; [by split|]; left; split; [done|by left]].
  destruct (_ || _) eqn:E.
  - split; [by split|]. left. split; [done|]. right. apply orb_true_iff in E as [[->%Z.eqb_eq|E%negb_true_iff]%orb_true_iff|E].
    + by left.
    + right. left. by exists b.
    + right. right. by apply owns_iff.
  - apply orb_false_iff in E as [[E1%Z.eqb_neq _]%orb_false_iff E2%owns_false].
    destruct (reparent_fold b p (movable s p) s) as [[A1 A2 A3 A4] At]. split; [by split|].
    right. exists b. split_and!; try done. unfold reparented. rewrite Hb. simpl. by rewrite At.
Qed.
Lemma movable_spec s p c : c ∈ movable s p ↔ c ∈ kids (tree s) p ∧ ¬ owns (tree s) c.
Proof. unfold movable. rewrite list_elem_of_filter, elem_in_order, elem_of_elements, owns_false. unfold children_of, kids. tauto. Qed.
Definition set_exited (p : Z) (s : Service) : Service :=
  alter_process_wait p (λ w, set_exit w true (exit_notified w) (discard_exit_status w)) s.
Lemma set_exited_seen p s q : exit_seen (set_exited p s) q = true → exit_seen s q = true ∨ q = p.
Proof.
  unfold exit_seen, set_exited, alter_process_wait, wait_state. simpl. rewrite lookup_alter.
  case_decide; [by right|by left].
Qed.
Lemma set_exited_table p s : signals_ok (table s) → signals_ok (table (set_exited p s)).
Proof. intros Hok. by apply ok_alter_wait. Qed.
Lemma set_exited_waits p s q : is_Some (wait_state (set_exited p s) q) ↔ is_Some (wait_state s q).
Proof. unfold wait_state. simpl. rewrite lookup_alter. case_decide; [subst; apply fmap_is_Some|done]. Qed.

(** What the observation of an exit may do to the links of other processes. *)
Record links (p : Z) (s s' : Service) : Prop := mkLinks {
  ln_bootstrap : bootstrap_process_id (tree s') = bootstrap_process_id (tree s);
  ln_processes : processes (tree s') = processes (tree s);
  ln_teardowns : tree_teardowns (tree s') = tree_teardowns (tree s);
  ln_parents : ∀ x q, parent_of s' x = Some q →
    parent_of s x = Some q ∨ bootstrap_process_id (tree s) = Some q ∧ parent_of s x = Some p;
  ln_has : ∀ x, is_Some (parent_of s x) → is_Some (parent_of s' x);
  ln_owned : owns (tree s) p → tree s' = tree s;
  ln_usage : ∀ q, usage_of s' q = usage_of s q;
}.
Definition obs (p : Z) (s s' : Service) : Prop := service_ok s → service_ok s' ∧ links p s s'.
Lemma links_same p s s' : tree s' = tree s → (∀ q, usage_of s' q = usage_of s q) → links p s s'.
Proof. intros E. split; unfold parent_of; rewrite ?E; auto. Qed.
Lemma set_exited_usage p s q : usage_of (set_exited p s) q = usage_of s q.
Proof.
  unfold usage_of, wait_state. simpl. rewrite lookup_alter. case_decide; [subst q|done].
  by destruct (process_wait_states (table s) !! p).
Qed.
#[global] Instance obs_preorder p : PreOrder (obs p).
Proof.
  split; [intros s Hok; split; [done|by apply links_same]|]. intros s1 s2 s3 H12 H23 Hok.
  destruct (H12 Hok) as [Hok2 [A1 A2 A3 A4 A5 A6 A7]]. destruct (H23 Hok2) as [Hok3 [B1 B2 B3 B4 B5 B6 B7]].
  split; [done|]. split; try congruence; auto.
  - intros x q [Hq|[Hb Hq]]%B4; [by apply A4|]. apply A4 in Hq as [?|[? ?]]; right; (split; [congruence|done]).
  - intros Ho. rewrite B6; [by apply A6|]. by apply (owns_same (tree s1)).
Qed.
Lemma obs_light p s s' : light s s' → obs p s s'.
Proof. intros Hl Hok. split; [by eapply ok_light|]. apply links_same; [apply Hl|]. intros q. by apply light_usage. Qed.
Lemma mark_exited_links p s : service_ok s → tree_ok (tree (mark_exited p s)) (exit_seen (set_exited p s)) ∧
  links p s (mark_exited p s).
Proof.
  intros Hok. unfold mark_exited. fold (set_exited p s). set (s1 := set_exited p s).
  assert (tree s1 = tree s) as Et by done. assert (∀ q, usage_of (reparent_children_of_exited p s1) q = usage_of s q) as Hu.
  { intros q. rewrite <- (set_exited_usage p s q). apply shape_usage. apply (reparent_links p s1). }
  destruct (reparent_links p s1) as [_ [[E Hc]|(b & Hb & Hne & Ho & E)]]; rewrite E.
  - split; [|by apply links_same; rewrite ?E]. rewrite Et in *. pose proof (ok_tree _ Hok) as Ht.
    destruct Ht as [H1 H2 H3 H4 H5 H6 H7 H8 H9 H10 H11] eqn:Eh. split; try done.
    intros c q Hq He Hb. apply set_exited_seen in He as [He| ->]; [by apply H9|].
    destruct (H3 c p Hq) as (_ & Hp & _). destruct Hc as [Hc|[Hc|[(b & Hc & Hs)|Hc]]]; [|done| |by left].
    + destruct (H2 Hc) as [Hn _]. rewrite Hn, lookup_empty in Hp. by destruct Hp.
    + destruct (H1 b Hc) as [Hreg _]. apply (ok_sessions _ Hok b) in Hreg. unfold has_session in Hs.
      by apply bool_decide_eq_false in Hs.
  - pose proof (reparented_moved (tree s1) b p (movable s1 p) Hb Hne) as Hmv. split.
    + eapply (reparented_ok (tree s1) (exit_seen s)); [exact (ok_tree _ Hok)|done..|apply movable_spec|]. apply set_exited_seen.
    + split; rewrite ?E; try by destruct Hmv.
      * intros x q. unfold parent_of. rewrite E, (mv_parents _ _ _ _ _ Hmv). rewrite Et. case_decide as Hx; [|by left].
        intros [= <-]. right. split; [done|]. apply movable_spec in Hx as [Hx _].
        destruct (tk_child _ _ (ok_tree _ Hok) x p Hx) as [?|[? _]]; [done|]. congruence.
      * intros x Hx. unfold parent_of. rewrite E, (mv_parents _ _ _ _ _ Hmv). case_decide; [by eexists|done].
Qed.
Lemma obs_mark p : ∀ s, obs p s (mark_exited p s).
Proof.
  intros s Hok. destruct (mark_exited_links p s Hok) as [Ht Hl]. split; [|done].
  destruct (reparent_links p (set_exited p s)) as [[R1 R2 R3 [R4 R5]] _]. fold (mark_exited p s) in *.
  destruct Hl as [L1 L2 L3 L4 L5 L6 _]. destruct Hok as [H1 H2 H3 H4 H5 H6 H7 H8 H9].
  change (reparent_children_of_exited p (set_exited p s)) with (mark_exited p s) in *.
  split; unfold handle_of, session_of, group_of, session_id in *; rewrite ?L2, ?R1, ?R2, ?R3; try done.
  - apply R5. by apply set_exited_table.
  - intros q. rewrite (shape_signals _ _ R4). apply H4.
  - eapply tree_ok_ext; [exact Ht|]. intros q. unfold exit_seen, wait_state.
    pose proof (shape_waits _ _ R4 q) as Ew.
    destruct (process_wait_states (table (mark_exited p s)) !! q), (process_wait_states (table (set_exited p s)) !! q);
      unfold settled in *; simpl in *; congruence.
Qed.
Lemma obs_hangup p q : stays (obs p) (hangup_exited_controlling_process q).
Proof.
  intros s Hok. split; [by apply good_hangup|].
  enough (tree (hangup_exited_controlling_process q s).1 = tree s ∧
          shape (table s) (table (hangup_exited_controlling_process q s).1)) as [? ?].
  { apply links_same; [done|]. intros x. by apply shape_usage. }
  unfold hangup_exited_controlling_process. destruct (controlling_terminals _ !! q) as [terminal|]; [|done].
  assert (1 ≤ SIGNAL_HUP ≤ SIGNAL_MAX) as Hr by (apply named_in; unfold named_signals; set_solver).
  assert (0 ≤ SIGNAL_HUP) as H0 by lia. pose proof (light_terminal_signal terminal SIGNAL_HUP H0 s) as Hl.
  unfold mbind, stM_bind, need, modify. simpl. destruct (terminals (jobs s) !! terminal) as [t|]; simpl; [|done].
  assert (∀ s', tree (release_session_terminal q s') = tree s' ∧ table (release_session_terminal q s') = table s') as Ht.
  { intros s'. unfold release_session_terminal. by case_match. }
  destruct (negb _); simpl; [|by destruct (Ht s) as [-> ->]]. destruct (signal_terminal_foreground_group terminal SIGNAL_HUP s) as [s1 [n|e]];
    simpl in *; [destruct (Ht s1) as [-> ->]|]; (split; [apply Hl|apply (proj1 (light_table _ _ Hl))]).
Qed.
Lemma obs_first p : stays (obs p) (first_exit p).
Proof.
  unfold first_exit. apply (stays_bind (obs p)); [apply stays_gets, _|]. intros before.
  apply (stays_bind (obs p)); [apply stays_modify; intros s; apply obs_light, light_retire_exited|]. intros _.
  apply (stays_bind (obs p)); [apply obs_hangup|]. intros _. apply (stays_bind (obs p)); [apply stays_need, _|]. intros _.
  apply (stays_bind (obs p)); [apply stays_modify, obs_mark|]. intros _. intros s. apply obs_light, light_newly_orphaned.
Qed.

(** ** Forks that go *)

Lemma forks_ok_part f ps l :
  forks_ok f ps → (∃ d, prepared_forks f ≡ₚ d ++ l) → forks_ok (mkForks l (next_fork_token f)) ps.
Proof.
  intros [F1 F2] [d Hd]. split; simpl.
  - rewrite Hd, fmap_app in F1. by apply NoDup_app in F1 as (_ & _ & F1).
  - intros token x Hx. apply F2. rewrite Hd. apply elem_of_app. by right.
Qed.
Lemma good_forks s l :
  (∃ d, prepared_forks (forks s) ≡ₚ d ++ l) → good s (set_prepared s l).
Proof. intros Hl [H1 H2 H3 H4 H5 H6 H7 H8 H9]. split; try done. by apply forks_ok_part. Qed.
Lemma good_fork_removed s i x :
  prepared_forks (forks s) !! i = Some x → good s (set_prepared s (swap_remove i (prepared_forks (forks s)))).
Proof. intros Hx. apply good_forks. exists [x]. simpl. by rewrite swap_remove_perm. Qed.

Context {B F : Type} {PB : ProcessBackend B} {FB : FilesystemBackend F}.
#[local] Abbreviation M := (@M LK B F).
#[local] Abbreviation World := (@World LK B F).

(** The loop over a vector that is compacted on the way: what goes is what
    [gone] says, and each of it is released once. *)
Record swept {A} (gone : A → bool) (n : Z) (l l' : list A) (n' : Z) : Prop := mkSwept {
  sw_split : ∃ d, l ≡ₚ d ++ l' ∧ Forall (λ x, gone x = true) d ∧ n' = n + zlen d;
  sw_kept : Forall (λ x, gone x = false) l';
}.
Lemma sweep_spec {A} (gone : A → bool) (rel : A → F → F) fuel index l f n l' f' n' :
  sweep gone rel fuel index l f n = (l', f', n') → (length l ≤ fuel + index)%nat →
  (∀ i x, (i < index)%nat → l !! i = Some x → gone x = false) → swept gone n l l' n'.
Proof.
  revert index l f n. induction fuel as [|fuel IH]; intros index l f n; simpl.
  - intros [= <- <- <-] Hf Hk. split; [exists []; split_and!; [done|constructor|unfold zlen; simpl; lia]|].
    apply Forall_lookup. intros i x Hx. apply (Hk i); [|done]. apply lookup_lt_Some in Hx. lia.
  - destruct (l !! index) as [x|] eqn:Hx.
    + pose proof (lookup_lt_Some _ _ _ Hx) as Hlt. destruct (gone x) eqn:Eg; intros E Hf Hk.
      * pose proof (swap_remove_perm l index x Hx) as Hp. apply IH in E as [(d & Hd & Hg & ->) Hkept].
        -- split; [|done]. exists (x :: d). split_and!; [by rewrite <- Hp, Hd|by constructor|]. rewrite zlen_cons. lia.
        -- apply Permutation_length in Hp. simpl in Hp. lia.
        -- intros i y Hi. rewrite swap_remove_prefix by lia. by apply Hk.
      * apply IH in E; [done|lia|]. intros i y Hi Hy. destruct (decide (i = index)) as [->|]; [congruence|].
        apply (Hk i); [lia|done].
    + intros [= <- <- <-] Hf Hk. apply lookup_ge_None in Hx.
      split; [exists []; split_and!; [done|constructor|unfold zlen; simpl; lia]|].
      apply Forall_lookup. intros i y Hy. apply (Hk i); [|done]. apply lookup_lt_Some in Hy. lia.
Qed.
Lemma sweep_forks_spec gone (w : World) :
  ∃ l, svc (sweep_forks gone w).1 = set_prepared (svc w) l ∧ procs (sweep_forks gone w).1 = procs w ∧
    swept gone 0 (prepared_forks (forks (svc w))) l (sweep_forks gone w).2.
Proof.
  unfold sweep_forks. destruct (sweep _ _ _ _ _ _ _) as [[l f] n] eqn:E. exists l. split_and!; [done..|].
  eapply sweep_spec; [exact E|lia|]. intros i x Hi. lia.
Qed.
Lemma good_sweep gone (w : World) : good (svc w) (svc (sweep_forks gone w).1).
Proof.
  destruct (sweep_forks_spec gone w) as (l & -> & _ & [(d & Hd & _) _]). apply good_forks. by exists d.
Qed.

(** ** Reaping *)

Definition obsw (p : Z) (w w' : World) : Prop := obs p (svc w) (svc w').
#[global] Instance obsw_preorder p : PreOrder (obsw p).
Proof. split; [intros w; unfold obsw; reflexivity|]. intros w1 w2 w3. unfold obsw. intros. by etransitivity. Qed.
Lemma obsw_quiet {A} p (m : M A) : quiet m → stays (obsw p) m.
Proof. intros Hm w. apply obs_light, Hm. Qed.
Lemma obsw_service {A} p (m : stM Service Z A) : stays (obs p) m → stays (obsw p) (service m).
Proof. intros Hm w. unfold service, obsw. specialize (Hm (svc w)). by destruct (m (svc w)). Qed.
Lemma quiet_retire p : quiet (F := F) (retire_at_exit p).
Proof.
  unfold retire_at_exit. apply quiet_bind; [apply quiet_modify|intros _].
  { intros s. etransitivity; [apply light_with_table, calm_cancel_resume|]. by apply light_same. }
  apply quiet_bind; [apply quiet_notifications_child|intros _]. apply quiet_bind; [apply quiet_parent_image|intros _].
  apply quiet_service. intros s. case_match; [|reflexivity]. apply (stays_bind light); [apply stays_need, _|]. intros _.
  apply stays_modify. intros s'. by apply light_alter.
Qed.
Lemma observe_obs p : stays (obsw p) (observe_process_exit (F := F) p).
Proof.
  unfold observe_process_exit. apply (stays_bind (obsw p)); [apply obsw_quiet, quiet_retire|]. intros _.
  apply (stays_bind (obsw p)); [by apply obsw_quiet, quiet_reading|]. intros ws.
  case_match; [apply stays_ret, _|]. apply obsw_service, obs_first.
Qed.
Lemma first_exit_seen p s s' : first_exit p s = (s', Ok tt) → exit_seen s' p = true.
Proof.
  unfold first_exit, gets, modify, need, mbind, stM_bind. simpl.
  destruct (hangup_exited_controlling_process p _) as [s1 [[]|e]]; simpl; [|done].
  destruct (wait_state s1 p) as [ws|] eqn:Hw; simpl; [|done]. set (s2 := mark_exited p s1).
  pose proof (light_newly_orphaned (non_orphaned_groups s) s2) as Hl. intros E. rewrite E in Hl. simpl in Hl.
  rewrite (light_exit _ _ _ Hl). destruct (reparent_links p (set_exited p s1)) as [[_ _ _ [R4 _]] _].
  pose proof (shape_waits _ _ R4 p) as Ew. change (reparent_children_of_exited p (set_exited p s1)) with s2 in Ew.
  unfold exit_seen, wait_state in *. simpl in Ew. rewrite lookup_alter_eq, Hw in Ew. simpl in Ew.
  destruct (process_wait_states (table s2) !! p); simplify_eq/=. done.
Qed.
Lemma observe_seen p (w w' : World) : observe_process_exit p w = (w', Ok tt) → exit_seen (svc w') p = true.
Proof.
  unfold observe_process_exit, mbind, stM_bind. destruct (retire_at_exit p w) as [w1 [[]|e]]; [|done].
  unfold service, need. destruct (wait_state (svc w1) p) as [ws|] eqn:Hw; simpl; [|done].
  destruct (exit_observed ws) eqn:E.
  - intros [= <-]. simpl. unfold exit_seen. by rewrite Hw.
  - cbn [svc procs files]. destruct (first_exit p (svc w1)) as [s' r] eqn:Ef. intros E'. injection E' as <- ->. by eapply first_exit_seen.
Qed.

(** What makes it safe to remove [c] as a child of [parent]. *)
Record reapable (s : Service) (parent c : Z) : Prop := mkReapable {
  re_bootstrap : bootstrap_process_id (tree s) ≠ Some c;
  re_kids : ∀ x, parent_of s x = Some c → ¬ owns (tree s) c ∧ ¬ owns (tree s) x;
  re_parent : parent_known (tree s) parent c;
}.
Lemma reapable_links s s' p parent c : links p s s' → reapable s parent c → reapable s' parent c.
Proof.
  intros [L1 L2 L3 L4 L5 L6] [R1 R2 R3]. split.
  - by rewrite L1.
  - intros x Hx. rewrite (owns_same (tree s) _ c), (owns_same (tree s) _ x) by done. apply R2. apply L4 in Hx as [?|[? ?]]; [done|congruence].
  - intros q Hq. unfold parent_of in *. rewrite L1. destruct (L4 c q Hq) as [Hq'|[? ?]]; [by apply R3|by right].
Qed.
Lemma reapable_kids s parent c :
  service_ok s → reapable s parent c → exit_seen s c = true → ∀ x, parents (tree s) !! x ≠ Some c.
Proof.
  intros Hok [R1 R2 R3] He x Hx. destruct (R2 x Hx) as [N1 N2].
  by destruct (tk_exited _ _ (ok_tree _ Hok) x c Hx He R1).
Qed.
Lemma pinned_free s c x : reap_is_pinned s c = false → service_ok s → parent_of s x = Some c →
  ¬ owns (tree s) c ∧ ¬ owns (tree s) x.
Proof.
  unfold reap_is_pinned. intros [H1%owns_false H2]%orb_false_iff Hok Hx. split; [done|]. apply owns_false.
  destruct (tree_teardown_owns s x) eqn:E; [|done]. destruct (tk_parent _ _ (ok_tree _ Hok) x c Hx) as (_ & _ & Hk).
  enough (existsb (tree_teardown_owns s) (elements (children_of s c)) = true) by congruence.
  apply existsb_exists. exists x. split; [|done]. apply list_elem_of_In, elem_of_elements, Hk.
Qed.
Lemma jobs_ok_forget c s : jobs_ok (jobs s) → jobs_ok (jobs (forget_jobs c s)).
Proof.
  intros Hj. unfold forget_jobs. set (s1 := with_jobs s _).
  assert (session_id s c ≠ Some c → controlling_terminals (jobs s) !! c = None) as Hc.
  { intros Hn. destruct (controlling_terminals (jobs s) !! c) eqn:E; [|done]. by apply (jk_leader _ Hj) in E. }
  destruct Hj as [J1 J2 J3]. case_bool_decide as E.
  - unfold release_session_terminal. simpl. destruct (controlling_terminals (jobs s) !! c) as [t|] eqn:Et.
    + pose proof (jobs_ok_release (jobs s) c t (mkJobsOk _ J1 J2 J3) Et) as [K1 K2 K3]. split; simpl; [done|done|].
      intros sid t' Ht. simpl in *. rewrite lookup_delete_ne; [by eapply K3|]. intros ->. by rewrite lookup_delete_eq in Ht.
    + split; simpl; [done|done|]. intros sid t Ht. rewrite lookup_delete_ne; [by eapply J3|]. congruence.
  - split; simpl; [done|done|]. intros sid t Ht. rewrite lookup_delete_ne; [by eapply J3|]. intros ->.
    rewrite Hc in Ht; done.
Qed.
Lemma forget_jobs_fields c s :
  process_groups (jobs (forget_jobs c s)) = delete c (process_groups (jobs s)) ∧
  session_ids (jobs (forget_jobs c s)) = delete c (session_ids (jobs s)) ∧ tree (forget_jobs c s) = tree s ∧
  accounts (forget_jobs c s) = accounts s ∧ table (forget_jobs c s) = table s ∧ forks (forget_jobs c s) = forks s ∧
  held (forget_jobs c s) = held s.
Proof. unfold forget_jobs, release_session_terminal. by repeat case_match. Qed.
Lemma delete_dom {A C} (m : gmap Z A) (n : gmap Z C) c p :
  (is_Some (m !! p) ↔ is_Some (n !! p)) → is_Some (delete c m !! p) ↔ is_Some (delete c n !! p).
Proof. intros H. rewrite !lookup_delete. case_decide; [|done]. split; by intros []. Qed.
Lemma reap_fields parent c (w : World) :
  ∃ l, let s' := svc (reap_observed_child parent c w) in
    tree s' = prune parent c (tree (svc w)) ∧ accounts s' = forget_accounts c (accounts (svc w)) ∧
    process_groups (jobs s') = delete c (process_groups (jobs (svc w))) ∧
    session_ids (jobs s') = delete c (session_ids (jobs (svc w))) ∧
    (jobs_ok (jobs (svc w)) → jobs_ok (jobs s')) ∧
    table s' = retire_process_clock_targets c (forget_process c (table (svc w))) ∧
    forks s' = mkForks l (next_fork_token (forks (svc w))) ∧
    swept (λ x, owned_by x.2 c) 0 (prepared_forks (forks (svc w))) l (sweep_forks (λ x, owned_by x.2 c) w).2.
Proof.
  destruct (sweep_forks_spec (λ x, owned_by x.2 c) w) as (l & E & _ & Hl). exists l. cbv zeta.
  unfold reap_observed_child, cancel_owned_forks. set (w1 := (sweep_forks _ w).1) in *.
  unfold forget_child. set (s2 := with_domains _ _).
  destruct (forget_jobs_fields c s2) as (F1 & F2 & F3 & F4 & F5 & F6 & F7).
  pose proof (jobs_ok_forget c s2) as Hj. assert (jobs s2 = jobs (svc w)) as Ej by (subst s2; simpl; by rewrite E).
  simpl. rewrite F1, F2, F3, F4, F5, F6. rewrite Ej in Hj. split_and!; try done; subst s2; simpl; rewrite ?E; try done.
Qed.
Lemma reap_procs parent c (w : World) :
  procs (reap_observed_child parent c w) = match handle_of (svc w) c with Some h => release h (procs w) | None => procs w end.
Proof.
  unfold reap_observed_child, cancel_owned_forks. cbv zeta. destruct (sweep_forks_spec (λ x, owned_by x.2 c) w) as (l & E1 & E2 & _).
  set (w1 := (sweep_forks _ w).1) in *. cbn [procs]. rewrite E2, E1. clear.
  assert (handle_of (forget_child parent c (set_prepared (svc w) l)) c = handle_of (svc w) c) as ->; [|done].
  unfold forget_child, discard_child_notifications_to, handle_of. simpl. by rewrite (proj1 (proj2 (proj2 (forget_jobs_fields _ _)))).
Qed.
Lemma ok_reap parent c (w : World) :
  service_ok (svc w) → bootstrap_process_id (tree (svc w)) ≠ Some c →
  (∀ x, parents (tree (svc w)) !! x ≠ Some c) → parent_known (tree (svc w)) parent c →
  service_ok (svc (reap_observed_child parent c w)).
Proof.
  intros Hok Hb Hk Hp. destruct (reap_fields parent c w) as (l & E1 & E2 & E3 & E4 & E5 & E6 & E7 & [(d & Hd & _) Hkept]).
  set (s' := svc (reap_observed_child parent c w)) in *. clearbody s'. set (s := svc w) in *. clearbody s.
  assert (∀ p, p ≠ c → exit_seen s' p = exit_seen s p) as Hex.
  { intros p Hne. unfold exit_seen, wait_state. rewrite E6. simpl. by rewrite lookup_delete_ne. }
  destruct Hok as [H1 H2 H3 H4 H5 H6 H7 H8 H9].
  split; unfold handle_of, session_of, group_of, session_id in *; rewrite ?E1, ?E2, ?E3, ?E4; simpl.
  - rewrite E6. by apply ok_clock_targets, ok_forget.
  - intros p. by apply delete_dom.
  - intros p x [_ Hx]%lookup_delete_Some. by apply H3.
  - intros p. rewrite E6. simpl. by apply delete_dom.
  - intros p. by apply delete_dom.
  - intros p. by apply delete_dom.
  - by eapply prune_ok.
  - by apply E5.
  - rewrite E7. destruct (forks_ok_part _ _ l H9 (ex_intro _ d Hd)) as [F1 F2]. split; [done|]. simpl.
    intros token x Hx. destruct (F2 token x Hx) as (? & ? & ?). split_and!; try done.
    rewrite lookup_delete_ne; [done|]. intros Ec. rewrite Forall_forall in Hkept. specialize (Hkept _ Hx). simpl in Hkept.
    unfold owned_by in Hkept. lia.
Qed.
End Ok.
