(* ===== verification/ServiceSteps.v ===== *)
(** * Every operation keeps the invariant of the POSIX service

    Reaping, waiting, forking, launching and tearing down, built on
    [ServiceProofs]; then the operations of the service as one step relation,
    and the invariant of every reachable state. *)

From stdpp Require Import fin_maps.
From S2P Require Import Prelude RecordLock LockExec Reach RecordLockWait TimerSchedule PosixProtocol.
From S2P Require Import ProcessTimer Credentials SignalState Signals SignalProofs SignalTheorems Service.
From S2P Require Import Lifecycle Fork Launch ChildWait Jobs ServiceFrame ProcessTree ServiceProofs.

#[local] Opaque reap_observed_child.

Section Steps.
Context {LK : LockKind} {PP : PosixProtocol} {AP : AccountProtocol} {SC : SignalCodec} {VC : ServiceCodec}.
Context {SN : @SignalNumbers PP} {SL : SignalCodecLaws}.
Context {B F : Type} {PB : ProcessBackend B} {FB : FilesystemBackend F}.
#[local] Abbreviation M := (@M LK B F).
#[local] Abbreviation World := (@World LK B F).

Definition goodw (w w' : World) : Prop := good (svc w) (svc w').
#[global] Instance goodw_preorder : PreOrder goodw.
Proof. split; [intros w; unfold goodw; reflexivity|]. intros w1 w2 w3. unfold goodw. intros. by etransitivity. Qed.
Definition keeps {A} (m : M A) : Prop := stays goodw m.
Lemma keeps_bind {A C} (m : M A) (k : A → M C) : keeps m → (∀ a, keeps (k a)) → keeps (m ≫= k).
Proof. apply (stays_bind goodw). Qed.
Lemma keeps_quiet {A} (m : M A) : quiet m → keeps m.
Proof. intros Hm w. apply good_light, Hm. Qed.
Lemma keeps_service {A} (m : stM Service Z A) : stays good m → keeps (service m).
Proof. intros Hm w. unfold service, goodw. specialize (Hm (svc w)). by destruct (m (svc w)). Qed.
Lemma keeps_obs {A} p (m : M A) : stays (obsw p) m → keeps m.
Proof. intros Hm w Hok. by apply (Hm w). Qed.
Lemma keeps_ret {A} (a : A) : keeps (mret a).
Proof. apply keeps_quiet, quiet_ret. Qed.
(** After a light operation the tree is the same. *)
Lemma ok_after {A C} (m : M A) (k : A → M C) w :
  quiet m → service_ok (svc w) →
  (∀ a w1, m w = (w1, Ok a) → lightly w w1 → service_ok (svc w1) → service_ok (svc (k a w1).1)) →
  service_ok (svc ((m ≫= k) w).1).
Proof.
  intros Hm Hok Hk. unfold mbind, stM_bind. specialize (Hm w). pose proof (ok_light _ _ Hok Hm) as Hok1.
  destruct (m w) as [w1 [a|e]]; simpl in *; [by apply Hk|done].
Qed.

(** ** Reaping *)

(** Links only go away, or move to the reaper. *)
Definition narrows (s s' : Service) : Prop :=
  bootstrap_process_id (tree s') = bootstrap_process_id (tree s) ∧
  ∀ c q, parent_of s' c = Some q → parent_of s c = Some q ∨ bootstrap_process_id (tree s) = Some q.
Lemma narrows_trans s1 s2 s3 : narrows s1 s2 → narrows s2 s3 → narrows s1 s3.
Proof.
  intros [A1 A2] [B1 B2]. split; [congruence|]. intros c q [Hq|Hb]%B2; [by apply A2|right; congruence].
Qed.
Lemma narrows_light s s' : light s s' → narrows s s'.
Proof. intros Hl. unfold narrows, parent_of. rewrite (light_tree _ _ Hl). auto. Qed.
Lemma narrows_links p s s' : links p s s' → narrows s s'.
Proof. intros [L1 L2 L3 L4 L5 L6]. split; [done|]. intros c q [?|[? _]]%L4; auto. Qed.
Lemma reap_child_spec parent c (w : World) :
  service_ok (svc w) → reapable (svc w) parent c →
  service_ok (svc (reap_child parent c w).1) ∧ narrows (svc w) (svc (reap_child parent c w).1) ∧
  ((reap_child parent c w).2 = Ok tt →
     processes (tree (svc (reap_child parent c w).1)) = delete c (processes (tree (svc w))) ∧
     (owns (tree (svc w)) c → tree (svc (reap_child parent c w).1) = prune parent c (tree (svc w)))).
Proof.
  intros Hok Hr. unfold reap_child, mbind, stM_bind. pose proof (observe_obs (F := F) c w Hok) as [Hok1 Hl].
  pose proof (observe_seen c w) as Hs. destruct (observe_process_exit c w) as [w1 [[]|e]]; simpl in *.
  - specialize (Hs w1 eq_refl). pose proof (reapable_links _ _ _ _ _ Hl Hr) as Hr1.
    pose proof (reapable_kids _ _ _ Hok1 Hr1 Hs) as Hk. destruct (reap_fields parent c w1) as (l & E1 & _).
    split_and!; [by apply ok_reap; [|apply Hr1|..]; [| |apply Hr1]| |].
    + eapply narrows_trans; [by eapply narrows_links|]. split; unfold parent_of; rewrite E1; [done|]. simpl.
      intros x q [_ Hx]%lookup_delete_Some. by left.
    + intros _. rewrite E1. simpl. split; [by rewrite (ln_processes _ _ _ Hl)|]. intros Ho. by rewrite (ln_owned _ _ _ Hl Ho).
  - split_and!; [done|by eapply narrows_links|done].
Qed.
Lemma parented s c q : service_ok s → parent_of s c = Some q → bootstrap_process_id (tree s) ≠ Some c.
Proof. intros Hok Hq Hb. destruct (tk_bootstrap _ _ (ok_tree _ Hok) c Hb) as (_ & Hn & _). unfold parent_of in *. congruence. Qed.
Lemma reapable_now s parent c : service_ok s → reap_is_pinned s c = false → parent_of s c = Some parent → reapable s parent c.
Proof.
  intros Hok Hp Hc. split; [by eapply parented|intros x Hx; by eapply pinned_free|].
  intros q Hq. left. unfold parent_of in *. congruence.
Qed.
Lemma keeps_orphan p : keeps (reap_orphan p).
Proof.
  intros w Hok. unfold reap_orphan. destruct (reap_is_pinned (svc w) p) eqn:Hp; [done|].
  apply ok_after; [by apply quiet_reading|done|]. intros handle w1 _ Hl1 Hok1.
  apply ok_after; [apply quiet_native|done|]. intros st w2 _ Hl2 Hok2. case_match; [done|].
  assert (lightly w w2) as Hl by (by etransitivity). unfold lightly in Hl. pose proof (light_tree _ _ Hl) as Et.
  assert (∀ x, parent_of (svc w2) x = Some p → ¬ owns (tree (svc w2)) p ∧ ¬ owns (tree (svc w2)) x) as Hk.
  { intros x. unfold parent_of. rewrite Et. by apply pinned_free. }
  unfold mbind at 1, stM_bind at 1. pose proof (observe_obs (F := F) p w2 Hok2) as [Hok3 Hln].
  destruct (observe_process_exit p w2) as [w3 [[]|e]]; simpl in *; [|done].
  apply ok_after; [by apply quiet_reading|done|]. intros parent w4 Ep Hl4 Hok4.
  unfold service, need in Ep. destruct (parent_of (svc w3) p) as [q|] eqn:Eq; simplify_eq/=.
  set (w4 := mkWorld (svc w3) (procs w3) (files w3)). destruct (reap_child_spec parent p w4 Hok3) as [Hok5 _].
  { split; [by eapply parented| |intros q Hq; left; unfold parent_of in *; simpl in *; congruence]. simpl. intros x Hx.
    pose proof (parented _ _ _ Hok3 Eq) as Hb. destruct Hln as [L1 L2 L3 L4 L5 L6].
    rewrite (owns_same (tree (svc w2)) _ p), (owns_same (tree (svc w2)) _ x) by done. apply Hk.
    apply L4 in Hx as [?|[? ?]]; [done|congruence]. }
  unfold mbind, stM_bind. by destruct (reap_child parent p w4) as [w5 [[]|e]].
Qed.
Lemma keeps_orphans : keeps reap_orphans.
Proof. intros w. unfold reap_orphans. apply (stays_count goodw). apply keeps_orphan. Qed.

(** A candidate of [reap_discarded_children_for]: its parent may have become
    the reaper since it was selected. *)
Definition known (x : Z * Z) (s : Service) : Prop :=
  bootstrap_process_id (tree s) ≠ Some x.1 ∧ parent_known (tree s) x.2 x.1.
Lemma known_narrows x s s' : narrows s s' → known x s → known x s'.
Proof.
  intros [N1 N2] [K1 K2]. split; [by rewrite N1|]. intros q Hq. rewrite N1. destruct (N2 _ _ Hq) as [Hq'|?]; [by apply K2|by right].
Qed.
Definition stepk (x : Z * Z) (w w' : World) : Prop :=
  service_ok (svc w) → known x (svc w) → service_ok (svc w') ∧ narrows (svc w) (svc w').
#[local] Instance stepk_preorder x : PreOrder (stepk x).
Proof.
  split; [intros w Hok _; split; [done|apply narrows_light; reflexivity]|].
  intros w1 w2 w3 H12 H23 Hok Hk. destruct (H12 Hok Hk) as [Hok2 N2].
  destruct (H23 Hok2 (known_narrows _ _ _ N2 Hk)) as [Hok3 N3]. split; [done|by eapply narrows_trans].
Qed.
Lemma stepk_quiet {A} x (m : M A) : quiet m → stays (stepk x) m.
Proof. intros Hm w Hok _. split; [eapply ok_light; [done|apply Hm]|apply narrows_light, Hm]. Qed.
Lemma stepk_discarded x : stays (stepk x) (reap_discarded x).
Proof.
  destruct x as [c parent]. unfold reap_discarded.
  apply (stays_bind (stepk _)); [apply stepk_quiet, quiet_parent_image|intros _].
  apply (stays_bind (stepk _)); [by apply stepk_quiet, quiet_reading|intros due]. case_match; [apply stays_ret, _|].
  apply (stays_bind (stepk _)); [by apply stepk_quiet, quiet_reading|intros handle].
  apply (stays_bind (stepk _)); [apply stepk_quiet, quiet_native|intros st]. case_match; [apply stays_ret, _|].
  apply (stays_bind (stepk _)).
  { intros w Hok _. destruct (observe_obs (F := F) c w Hok) as [? Hl]. split; [done|by eapply narrows_links]. }
  intros _. apply (stays_bind (stepk _)); [by apply stepk_quiet, quiet_reading|intros ws]. case_match; [apply stays_ret, _|].
  apply (stays_bind_dep (stepk _)); [by apply stepk_quiet, quiet_reading|]. intros w pinned Hp. simpl in *. injection Hp as <-.
  destruct (reap_is_pinned (svc w) c) eqn:Hp; [reflexivity|]. intros Hok [K1 K2]. set (w1 := mkWorld _ _ _).
  destruct (reap_child_spec parent c w1 Hok) as (Hok2 & N2 & _); [by split; [|intros; by eapply pinned_free|]|].
  unfold mbind, stM_bind. by destruct (reap_child parent c w1) as [w2 [[]|e]].
Qed.
Lemma discarded_loop l n (w : World) :
  service_ok (svc w) → Forall (λ x, known x (svc w)) l → service_ok (svc (st_count reap_discarded l n w).1).
Proof.
  revert n w. induction l as [|x l IH]; intros n w Hok Hl; [done|]. apply Forall_cons in Hl as [Hx Hl].
  simpl. unfold mbind, stM_bind. destruct (stepk_discarded x w Hok Hx) as [Hok1 N1].
  destruct (reap_discarded x w) as [w1 [b|e]]; simpl in *; [|done]. apply IH; [done|].
  eapply Forall_impl; [exact Hl|]. intros y. by apply known_narrows.
Qed.
Lemma keeps_discarded filter_parent : keeps (reap_discarded_children_for filter_parent).
Proof.
  intros w Hok. unfold reap_discarded_children_for. apply discarded_loop; [done|]. apply Forall_forall.
  intros [c parent] Hx. unfold discard_candidates in Hx. apply list_elem_of_omap in Hx as (c' & _ & E).
  destruct (parent_of (svc w) c') as [q|] eqn:Hq; [|done]. simpl in E. repeat case_match; simplify_eq/=;
    (split; [by eapply parented|]; intros r Hr; left; unfold parent_of in *; simpl in *; congruence).
Qed.
Lemma keeps_all_exits : keeps refresh_child_exit_notifications.
Proof.
  intros w. unfold refresh_child_exit_notifications. pose proof (quiet_notifications (F := F) w) as Hn.
  destruct refresh_child_notifications as [w1 r]. simpl in Hn. etransitivity; [by apply good_light|].
  apply (stays_all goodw). intros [c handle]. unfold observe_candidate. apply keeps_bind; [apply keeps_quiet, quiet_native|].
  intros [|code]; [apply keeps_ret|]. apply keeps_bind; [apply (keeps_obs c), observe_obs|intros _].
  apply keeps_bind; [by apply keeps_quiet, quiet_reading|intros b]. case_match; [|apply keeps_ret].
  apply keeps_bind; [apply keeps_quiet, quiet_note_exited|]. intros n. apply keeps_ret.
Qed.

(** ** Waiting *)

Lemma ok_set_usage s p total : service_ok s → service_ok (alter_process_wait p (λ w, set_usage w total) s).
Proof.
  intros [H1 H2 H3 H4 H5 H6 H7 H8 H9]. split; try done; [by apply ok_alter_wait|].
  apply (tree_ok_ext _ (exit_seen s)); [done|]. intros q. unfold exit_seen, wait_state. simpl. rewrite lookup_alter.
  case_decide; [subst q; by destruct (process_wait_states (table s) !! p)|done].
Qed.
Lemma wait_exited_ok include reply p r c handle uid code (w : World) :
  service_ok (svc w) → reap_is_pinned (svc w) c = false → parent_of (svc w) c = Some p →
  service_ok (svc (wait_exited include reply p r c handle uid code w).1).
Proof.
  intros Hok Hp Hc. unfold wait_exited. apply ok_after; [by apply quiet_reading|done|]. intros ws w1 _ Hl1 Hok1.
  apply ok_after; [case_match; [apply quiet_usage|apply quiet_ret]|done|]. intros usage w2 _ Hl2 Hok2.
  case_match; [done|]. apply ok_after; [by apply quiet_reading|done|]. intros caller w3 _ Hl3 Hok3.
  apply ok_after; [apply quiet_lift|done|]. intros total w4 _ Hl4 Hok4.
  assert (lightly w w4) as Hl by (etransitivity; [exact Hl1|]; etransitivity; [exact Hl2|]; by etransitivity).
  assert (reapable (svc w4) p c) as Hr.
  { pose proof (light_tree _ _ Hl) as Et. pose proof (reapable_now _ _ _ Hok Hp Hc) as [R1 R2 R3].
    split; unfold parent_of in *; rewrite ?Et; auto. }
  unfold mbind at 1, stM_bind at 1. pose proof (observe_obs (F := F) c w4 Hok4) as [Hok5 Hln].
  pose proof (observe_seen c w4) as Hs. destruct (observe_process_exit c w4) as [w5 [[]|e]]; [|done].
  specialize (Hs w5 eq_refl). cbn [fst] in *. case_match; [done|]. pose proof (reapable_links _ _ _ _ _ Hln Hr) as Hr5.
  unfold mbind, stM_bind, modify, service. cbn [fst].
  apply (ok_set_usage (svc (reap_observed_child p c w5))), ok_reap; [done|apply Hr5|by eapply reapable_kids|apply Hr5].
Qed.
Lemma wait_candidates_ok include reply p r can l (w : World) :
  service_ok (svc w) → Forall (λ c, c ∈ kids (tree (svc w)) p) l →
  service_ok (svc (wait_candidates include reply p r can l w).1).
Proof.
  revert can w. induction l as [|c l IH]; intros can w Hok Hl; simpl; [by repeat case_match|].
  apply Forall_cons in Hl as [Hc Hl].
  assert (∀ w1, lightly w w1 → Forall (λ c, c ∈ kids (tree (svc w1)) p) l) as Hl1.
  { intros w1 H1. by rewrite (light_tree _ _ H1). }
  apply ok_after; [by apply quiet_reading|done|]. intros pinned w1 Ep H1 Hok1. unfold service, gets in Ep. injection Ep as <- <-.
  destruct (reap_is_pinned (svc w) c) eqn:Hp; [by apply IH|]. set (w1 := mkWorld _ _ _) in *.
  apply ok_after; [by apply quiet_reading|done|]. intros handle w2 Eh H2 Hok2.
  apply ok_after; [by apply quiet_reading|done|]. intros session w3 _ H3 Hok3.
  apply ok_after; [apply quiet_native|done|]. intros st w4 _ H4 Hok4.
  assert (lightly w w4) as Hl4 by (etransitivity; [exact H1|]; etransitivity; [exact H2|]; by etransitivity).
  assert (parent_of (svc w) c = Some p) as Hcp.
  { destruct (tk_child _ _ (ok_tree _ Hok) c p Hc) as [?|[_ Hn]]; [done|].
    unfold service, need, handle_of in Eh. simpl in Eh. rewrite Hn in Eh. done. }
  assert (∀ w', lightly w w' → parent_of (svc w') c = Some p ∧ reap_is_pinned (svc w') c = false) as Hst.
  { intros w' H'. unfold parent_of, reap_is_pinned, tree_teardown_owns, children_of in *.
    by rewrite (light_tree _ _ H'). }
  destruct st as [|code].
  - apply ok_after; [by apply quiet_reading|done|]. intros status w5 _ H5 Hok5. destruct status as [status|].
    + eapply ok_light; [exact Hok5|]. apply quiet_changed.
    + apply IH; [done|]. apply Hl1. by etransitivity.
  - apply ok_after; [apply quiet_note_exited|done|]. intros b w5 _ H5 Hok5.
    assert (lightly w w5) as Hl5 by (by etransitivity). destruct (Hst w5 Hl5) as [Hc5 Hp5].
    case_match; [apply IH; [done|by apply Hl1]|by apply wait_exited_ok].
Qed.
Lemma keeps_wait p r include reply : keeps (wait_child_observation_with_reply p r include reply).
Proof.
  unfold wait_child_observation_with_reply. apply keeps_bind; [by apply keeps_quiet, quiet_reading|intros _].
  apply keeps_bind; [apply keeps_discarded|intros _]. intros w Hok.
  apply ok_after; [by apply quiet_reading|done|]. intros candidates w1 E Hl Hok1. unfold service, reads in E. injection E as <- E.
  apply wait_candidates_ok; [done|]. apply Forall_forall. intros c Hc. unfold matching_child_ids in E. inv_result.
  apply list_elem_of_filter in Hc as [_ Hc]. unfold children_in_order in Hc. by rewrite elem_in_order, elem_of_elements in Hc.
Qed.

(** ** Admission *)

Definition unmentioned (s : Service) (c : Z) : Prop := ∀ q, c ∉ children_of s q.
Lemma insert_dom_both {A C} (m : gmap Z A) (n : gmap Z C) k a b p :
  (is_Some (m !! p) ↔ is_Some (n !! p)) → is_Some (<[k := a]> m !! p) ↔ is_Some (<[k := b]> n !! p).
Proof. intros H. rewrite !lookup_insert. case_decide; [|done]. split; by eexists. Qed.
(** A process that was unknown, in every table at once. *)
Lemma ok_new_process s s' p handle c sg opts group sid :
  service_ok s → handle_of s p = None →
  processes (tree s') = <[p := handle]> (processes (tree s)) → tree_ok (tree s') (exit_seen s) →
  sessions (accounts s') = <[p := c]> (sessions (accounts s)) → process_id c = p →
  table s' = install_process p sg opts (table s) → inheritable sg →
  process_groups (jobs s') = <[p := group]> (process_groups (jobs s)) →
  session_ids (jobs s') = <[p := sid]> (session_ids (jobs s)) →
  controlling_terminals (jobs s') = controlling_terminals (jobs s) → terminals (jobs s') = terminals (jobs s) →
  forks_ok (forks s') (processes (tree s')) → service_ok s'.
Proof.
  intros Hok Hp E1 Ht E2 Hc E3 [I1 I2 I3 I4 I5] E4 E5 E6 E7 Hf.
  assert (signals (table s) !! p = None) as Hs.
  { apply eq_None_not_Some. intros Hs%(ok_signals _ Hok). rewrite Hp in Hs. by destruct Hs. }
  assert (wait_state s p = None) as Hw.
  { apply eq_None_not_Some. intros Hs'%(ok_waits _ _ Hok). rewrite Hp in Hs'. by destruct Hs'. }
  assert (session_id s p = None) as Hsid.
  { apply eq_None_not_Some. intros Hs'%(ok_session_ids _ Hok). rewrite Hp in Hs'. by destruct Hs'. }
  destruct Hok as [H1 H2 H3 H4 H5 H6 H7 H8 H9].
  split; unfold handle_of, session_of, group_of, session_id in *; rewrite ?E1, ?E2, ?E3, ?E4, ?E5; simpl.
  - by apply ok_install.
  - intros q. by apply insert_dom_both.
  - intros q x. rewrite lookup_insert. case_decide; [intros [= <-]; by subst|by apply H3].
  - intros q. by apply insert_dom_both.
  - intros q. by apply insert_dom_both.
  - intros q. by apply insert_dom_both.
  - eapply tree_ok_exited; [exact Ht|]. intros q. unfold exit_seen, wait_state in *. rewrite E3. simpl.
    rewrite lookup_insert. by case_decide.
  - destruct H8 as [J1 J2 J3]. split; rewrite ?E5, ?E6, ?E7; try done. intros x t Hx. rewrite lookup_insert_ne; [by eapply J3|].
    intros <-. apply J3 in Hx. congruence.
  - by rewrite E1 in Hf.
Qed.
Lemma forks_ok_more f ps p handle : forks_ok f ps → forks_ok f (<[p := handle]> ps).
Proof.
  intros [F1 F2]. split; [done|]. intros token x Hx. destruct (F2 token x Hx) as (? & ? & ?). split_and!; try done.
  rewrite lookup_insert. case_decide; [by eexists|done].
Qed.
Lemma default_inheritable : inheritable signal_state_default.
Proof. split; try done; intros x; simpl; by rewrite in_mask_0. Qed.
Lemma environment_ok s s' p handle uid gid groups t :
  service_ok s → handle_of s p = None → tree_ok t (exit_seen s) → processes t = <[p := handle]> (processes (tree s)) →
  tree s' = t →
  s' = with_tree (with_table (with_accounts (put_job s p p p)
         (put_groups (put_session (put_groups (accounts s) p []) p (mkSession p uid uid uid gid gid gid 18)) p groups))
         (install_process p signal_state_default 0 (table s))) t → service_ok s'.
Proof.
  intros Hok Hp Ht Ep Et ->. eapply (ok_new_process s); try done; simpl.
  - by apply default_inheritable.
  - rewrite Ep. apply forks_ok_more, (ok_forks _ Hok).
Qed.
Lemma good_initialize peer process uid gid groups s :
  unmentioned s (au_process_id process) → good s (initialize_process peer process uid gid groups s).1.
Proof.
  intros Hum Hok. unfold initialize_process, initialize_process_environment, bind_process, mbind, stM_bind, gets, guard, modify.
  simpl. destruct (_ && _) eqn:Hb; simpl; [|done]. apply andb_true_iff in Hb as [Hb%bool_decide_eq_true _].
  destruct (negb (has_process _ _ || _)) eqn:E; simpl; [|done]. destruct (negb ((au_process_id process =? 0) || _ || _ || _)); simpl; [|done].
  rewrite Z.eqb_refl. simpl. apply negb_true_iff, orb_false_iff in E as [E _]. rewrite E. simpl.
  apply bool_decide_eq_false in E. rewrite <- eq_None_not_Some in E.
  set (t := register (au_process_id process) (au_handle process) (tree s)).
  eapply (environment_ok s _ (au_process_id process) (au_handle process) uid gid groups t); try done.
  apply register_ok; [apply (ok_tree _ Hok)|done|by eexists|done].
Qed.
Lemma good_bootstrap process uid gid groups : stays good (initialize_bootstrap_process process uid gid groups).
Proof.
  intros s Hok. unfold initialize_bootstrap_process, initialize_process_environment, bind_process, mbind, stM_bind, gets, guard, modify.
  simpl. destruct (_ && _) eqn:Hb; simpl; [|done]. apply andb_true_iff in Hb as [Hb%bool_decide_eq_true _].
  destruct (negb (has_process _ _ || _)) eqn:E; simpl; [|done]. destruct (negb ((au_process_id process =? 0) || _ || _ || _)); simpl; [|done].
  rewrite Z.eqb_refl. simpl. apply negb_true_iff, orb_false_iff in E as [E _]. rewrite E. simpl.
  apply bool_decide_eq_false in E. rewrite <- eq_None_not_Some in E.
  set (t := with_bootstrap (au_process_id process) (register (au_process_id process) (au_handle process) (tree s))).
  eapply (environment_ok s _ (au_process_id process) (au_handle process) uid gid groups t); try done.
  apply bootstrap_ok; [apply (ok_tree _ Hok)|done|]. intros b Hbs.
  destruct (tk_bootstrap _ _ (ok_tree _ Hok) b Hbs) as [[h Hh] _]. by rewrite Hb, lookup_empty in Hh.
Qed.

(** ** Forks *)

Lemma fork_index_spec s peer token i f :
  fork_index s peer token = Ok (i, f) → prepared_forks (forks s) !! i = Some (token, f) ∧ f_owner f = peer.
Proof.
  unfold fork_index. destruct (iter_position _ _) as [j|] eqn:E; simpl; [|done].
  destruct (prepared_forks (forks s) !! j) as [[k g]|] eqn:Ej; simpl; [|done].
  destruct (owned_by g peer) eqn:Eo; simpl; [|done]. intros [= <- <-].
  apply iter_position_Some in E as (x & Hx & Hb & _). assert (x = (k, g)) as -> by congruence. simpl in Hb.
  unfold owned_by in Eo. split; [|lia]. by replace token with k by lia.
Qed.
Lemma install_fields c handle d f s : let s' := install_child c handle d f s in
  tree s' = graft (f_owner f) c handle (tree s) ∧ table s' = install_process c (f_signals f) (f_child_options f) (table s) ∧
  (∃ x, sessions (accounts s') = <[c := x]> (sessions (accounts s)) ∧ process_id x = c) ∧
  process_groups (jobs s') = <[c := f_group f]> (process_groups (jobs s)) ∧
  session_ids (jobs s') = <[c := f_session_id f]> (session_ids (jobs s)) ∧
  controlling_terminals (jobs s') = controlling_terminals (jobs s) ∧ terminals (jobs s') = terminals (jobs s) ∧
  forks s' = forks s.
Proof.
  unfold install_child. destruct (bool_decide _), (f_directories f); simpl; split_and!; try done;
    (eexists; split; [done|]); done.
Qed.
Lemma good_commit alloc peer token process s :
  unmentioned s (au_process_id process) → good s (commit_fork alloc peer token process s).1.
Proof.
  intros Hum Hok. unfold commit_fork. set (c := au_process_id process) in *.
  destruct (fork_index s peer token ≫= _) as [[[i f] d]|e] eqn:E; [|done]. inv_result.
  apply fork_index_spec in H as [Hi Ho]. apply negb_true_iff in H1, H2, H3. rewrite !orb_false_iff in H2.
  destruct H2 as [[[[Hc0 Hcp] Hpe%negb_false_iff] Hcn] _]. apply bool_decide_eq_true in Hpe.
  apply bool_decide_eq_false in Hcn. rewrite <- eq_None_not_Some in Hcn.
  pose proof (good_fork_removed s i _ Hi Hok) as Hok0. set (s0 := set_prepared s _) in *.
  destruct (fk_entries _ _ (ok_forks _ Hok) token f) as (_ & _ & Hinh); [by eapply list_elem_of_lookup_2|].
  assert (tree_ok (graft peer c (au_handle process) (tree s0)) (exit_seen s0)) as Ht.
  { apply graft_ok; [apply (ok_tree _ Hok0)|done|done|done|by apply owns_false|done]. }
  destruct (install_fields c (au_handle process) d f s0) as (I1 & I2 & (x & I3 & I3') & I4 & I5 & I6 & I7 & I8).
  cbn [fst]. rewrite Ho in I1. eapply (ok_new_process s0 _ c (au_handle process));
    [done|done| | |exact I3|exact I3'|exact I2|exact Hinh|exact I4|exact I5|exact I6|exact I7|]; rewrite I1, ?I8; try done.
  apply forks_ok_more, (ok_forks _ Hok0).
Qed.
Lemma good_cancel peer token : keeps (cancel_fork peer token).
Proof.
  intros w. unfold cancel_fork. destruct (fork_index (svc w) peer token) as [[i f]|] eqn:E; [|reflexivity].
  apply fork_index_spec in E as [E _]. by eapply good_fork_removed.
Qed.
Lemma keeps_invalidated : keeps reap_invalidated_forks.
Proof.
  intros w. unfold reap_invalidated_forks. pose proof (good_sweep (λ x, negb (fork_matches_image (svc w) x.2)) w) as Hg.
  by destruct (sweep_forks _ w).
Qed.
Lemma keeps_exited_forks fuel index n : keeps (sweep_exited fuel index n).
Proof.
  revert index n. induction fuel as [|fuel IH]; intros index n w; simpl; [reflexivity|].
  destruct (prepared_forks (forks (svc w)) !! index) as [[token f]|] eqn:E; [|reflexivity].
  intros Hok. apply ok_after; [by apply quiet_reading|done|]. intros handle w1 E1 _ Hok1.
  apply ok_after; [apply quiet_native|done|]. intros st w2 _ Hl2 Hok2.
  assert (forks (svc w2) = forks (svc w)) as Ef.
  { rewrite (light_forks _ _ Hl2). unfold service, need in E1. by simplify_eq/=. }
  case_match; [|by apply IH]. unfold mbind, stM_bind, modify. apply IH. simpl. revert Hok2. eapply good_fork_removed. by rewrite Ef.
Qed.
Lemma keeps_abandoned : keeps reap_abandoned_forks.
Proof.
  unfold reap_abandoned_forks. apply keeps_bind; [apply keeps_invalidated|]. intros n.
  apply keeps_bind; [by apply keeps_quiet, quiet_reading|]. intros m. apply keeps_exited_forks.
Qed.
(** As [ok_after], for any property that light operations keep. *)
Lemma after {A C} (Q : World → Prop) (m : M A) (k : A → M C) w :
  quiet m → service_ok (svc w) → (∀ w1, lightly w w1 → service_ok (svc w1) → Q w1) →
  (∀ a w1, m w = (w1, Ok a) → lightly w w1 → service_ok (svc w1) → Q (k a w1).1) → Q ((m ≫= k) w).1.
Proof.
  intros Hm Hok He Hk. unfold mbind, stM_bind. specialize (Hm w). pose proof (ok_light _ _ Hok Hm) as Hok1.
  destruct (m w) as [w1 [a|e]]; simpl in *; auto.
Qed.
Lemma fork_inheritable s p sg : service_ok s → signals (table s) !! p = Some sg → inheritable (fork_child sg).
Proof.
  intros Hok Hs. pose proof (ok_table _ Hok) as Ht. destruct (so_dispositions _ Ht p) as [Hi Hc].
  pose proof (so_ignored_caught _ Ht p) as Hic. pose proof (so_caught _ Ht p) as Hcu.
  unfold ignored_of, caught_of in *. rewrite Hs in *. by split.
Qed.
Lemma ok_recorded s owner f :
  service_ok s → is_Some (handle_of s owner) → f_owner f = owner → inheritable (f_signals f) →
  service_ok (with_forks s (mkForks (prepared_forks (forks s) ++ [(next_fork_token (forks s), f)])
                              (next_fork_token (forks s) + 1))).
Proof.
  intros [H1 H2 H3 H4 H5 H6 H7 H8 [F1 F2]] Ho E Hi. split; try done. split; simpl.
  - rewrite fmap_app. apply NoDup_app. split_and!; [done| |apply NoDup_singleton].
    intros t [[t' x] [-> Hx]]%list_elem_of_fmap. simpl. intros Ht%list_elem_of_singleton. destruct (F2 _ _ Hx) as [? _]. lia.
  - intros token x [Hx|Hx%list_elem_of_singleton]%elem_of_app.
    + destruct (F2 _ _ Hx) as (? & ? & ?). split_and!; try done. lia.
    + injection Hx as -> ->. split_and!; [lia|by rewrite E|done].
Qed.

(** The state in which a preparation is recorded. *)
Record ready (T : Tree) (n : Z) (w : World) : Prop := mkReady {
  rd_ok : service_ok (svc w);
  rd_tree : tree (svc w) = T;
  rd_next : next_fork_token (forks (svc w)) = n;
}.
Lemma ready_light T n w w' : ready T n w → lightly w w' → ready T n w'.
Proof.
  intros [R1 R2 R3] Hl. split; [by eapply ok_light|by rewrite (light_tree _ _ Hl)|by rewrite (light_forks _ _ Hl)].
Qed.
(** Code that only reads and retains, then continues. *)
Lemma ready_after {A C} T n (m : M A) (k : A → M C) (Q : World → Prop) w :
  quiet m → ready T n w → (∀ w1, ready T n w1 → Q w1) →
  (∀ a w1, m w = (w1, Ok a) → ready T n w1 → Q (k a w1).1) → Q ((m ≫= k) w).1.
Proof.
  intros Hm Hr He Hk. apply after; [done|apply Hr| |].
  - intros w1 Hl _. apply He. by eapply ready_light.
  - intros a w1 E Hl _. apply Hk; [done|]. by eapply ready_light.
Qed.
Lemma quiet_parent d : quiet (B := B) (retain_parent d).
Proof. unfold retain_parent. quietly. Qed.
Lemma record_fork_ok ag alim ae owner T n revision (w : World) :
  ready T n w → is_Some (handle_of (svc w) owner) →
  service_ok (svc (record_fork ag alim ae owner revision n (n + 1) w).1) ∧
  tree (svc (record_fork ag alim ae owner revision n (n + 1) w).1) = T.
Proof.
  intros Hr Ho. set (Q := λ w' : World, service_ok (svc w') ∧ tree (svc w') = T). change (Q (record_fork ag alim ae owner revision n (n + 1) w).1).
  unfold record_fork. assert (∀ w1, ready T n w1 → Q w1) as HQ by (intros w1 [R1 R2 R3]; by split).
  apply (ready_after T n); [by apply quiet_reading|done|done|]. intros session w1 _ Hr1.
  apply (ready_after T n); [by apply quiet_reading|done|done|]. intros _ w2 _ Hr2.
  apply (ready_after T n); [by apply quiet_reading|done|done|]. intros group w3 _ Hr3.
  apply (ready_after T n); [by apply quiet_reading|done|done|]. intros sid w4 _ Hr4.
  apply (ready_after T n); [by apply quiet_reading|done|done|]. intros sg w5 Esg Hr5.
  assert (inheritable (fork_child sg)) as Hinh.
  { unfold service, need in Esg. destruct (signals (table (svc w4)) !! owner) as [x|] eqn:E; simplify_eq/=.
    eapply fork_inheritable; [apply Hr4|exact E]. }
  apply (ready_after T n); [by apply quiet_reading|done|done|]. intros opts w6 _ Hr6.
  apply (ready_after T n); [by apply quiet_reading|done|done|]. intros groups w7 _ Hr7.
  apply (ready_after T n); [apply quiet_guard|done|done|]. intros _ w8 _ Hr8.
  apply (ready_after T n); [by apply quiet_reading|done|done|]. intros limits w9 _ Hr9.
  apply (ready_after T n); [apply quiet_guard|done|done|]. intros _ w10 _ Hr10.
  apply (ready_after T n); [by apply quiet_reading|done|done|]. intros parent w11 _ Hr11.
  apply (ready_after T n); [apply quiet_parent|done|done|]. intros dirs w12 _ [R1 R2 R3].
  unfold mbind, stM_bind, service, modify, Q. simpl. split; [|done]. rewrite <- R3. eapply ok_recorded; try done.
  unfold handle_of in *. rewrite R2. by destruct Hr as [_ <- _].
Qed.
Lemma prepare_fork_ok ag alim ae owner (w : World) :
  service_ok (svc w) →
  service_ok (svc (prepare_fork ag alim ae owner w).1) ∧ tree (svc (prepare_fork ag alim ae owner w).1) = tree (svc w).
Proof.
  intros Hok. set (T := tree (svc w)). set (Q := λ w' : World, service_ok (svc w') ∧ tree (svc w') = T). change (Q (prepare_fork ag alim ae owner w).1).
  assert (∀ n w1, ready T n w1 → Q w1) as HQ by (intros n w1 [R1 R2 R3]; by split).
  assert (∀ w1, lightly w w1 → service_ok (svc w1) → Q w1) as HL.
  { intros w1 Hl H1. split; [done|apply (light_tree _ _ Hl)]. }
  unfold prepare_fork. apply after; [by apply quiet_reading|done|done|]. intros h w1 Eh Hl1 Hok1.
  assert (is_Some (handle_of (svc w) owner)) as Ho.
  { unfold service, need in Eh. by destruct (handle_of (svc w) owner); [eexists|]. }
  apply after; [by apply quiet_reading|done|intros w2 Hl2 Hok2; apply HL; [by etransitivity|done]|]. intros ws w2 _ Hl2 Hok2.
  assert (lightly w w2) as Hl by (by etransitivity). clear Hl1 Hl2 Hok1 Eh w1.
  unfold mbind at 1, stM_bind at 1. pose proof (keeps_invalidated w2 Hok2) as Hok3.
  assert (tree (svc (reap_invalidated_forks w2).1) = T) as Et.
  { unfold reap_invalidated_forks. destruct (sweep_forks_spec (λ x, negb (fork_matches_image (svc w2) x.2)) w2) as (l & E & _).
    destruct (sweep_forks _ w2) as [w3 n3]. simpl in *. rewrite E. simpl. apply (light_tree _ _ Hl). }
  destruct (reap_invalidated_forks w2) as [w3 [r|e]]; simpl in Hok3, Et; [|by split]. simpl.
  set (n := next_fork_token (forks (svc w3))). assert (ready T n w3) as Hr3 by (by split).
  apply (ready_after T n); [by apply quiet_reading|done|apply HQ|]. intros b w4 _ Hr4.
  apply (ready_after T n); [apply quiet_guard|done|apply HQ|]. intros _ w5 _ Hr5.
  apply (ready_after T n); [by apply quiet_reading|done|apply HQ|]. intros token w6 Etk Hr6.
  unfold service, gets in Etk. injection Etk as <- <-. rewrite (rd_next _ _ _ Hr5).
  set (w6 := mkWorld (svc w5) _ _) in *. apply (ready_after T n); [apply quiet_lift|done|apply HQ|]. intros next w7 En Hr7.
  unfold st_lift in En. unfold checked_add in En. destruct (_ <=? _); simplify_eq/=.
  eapply record_fork_ok; [done|]. unfold handle_of in *. rewrite (rd_tree _ _ _ Hr7). done.
Qed.

(** ** Adoption *)

Lemma commit_parent alloc peer token process s s' :
  commit_fork alloc peer token process s = (s', Ok tt) → is_Some (parent_of s' (au_process_id process)).
Proof.
  unfold commit_fork. destruct (fork_index s peer token ≫= _) as [[[i f] d]|e]; [|done]. intros [= <-].
  destruct (install_fields (au_process_id process) (au_handle process) d f
    (set_prepared s (swap_remove i (prepared_forks (forks s))))) as [E _].
  unfold parent_of. rewrite E. simpl. rewrite lookup_insert_eq. by eexists.
Qed.
Lemma adopt_child_ok al peer process (w : World) :
  service_ok (svc w) → unmentioned (svc w) (au_process_id process) →
  service_ok (svc (adopt_child al peer process w).1) ∧
  ((adopt_child al peer process w).2 = Ok tt → is_Some (parent_of (svc (adopt_child al peer process w).1) (au_process_id process))).
Proof.
  intros Hok Hum. unfold adopt_child, mbind, stM_bind.
  destruct (prepare_fork_ok (al_groups al) (al_limits al) (al_entry al) peer w Hok) as [Hok1 Et].
  destruct (prepare_fork _ _ _ peer w) as [w1 [token|e]]; simpl in *; [|done].
  assert (unmentioned (svc w1) (au_process_id process)) as Hum1.
  { intros q. unfold children_of. rewrite Et. apply Hum. }
  unfold undoing, service. pose proof (good_commit (al_domains al) peer token process _ Hum1 Hok1) as Hok2.
  pose proof (commit_parent (al_domains al) peer token process (svc w1)) as Hp.
  destruct (commit_fork _ peer token process (svc w1)) as [s2 [[]|e]]; simpl in *.
  - split; [done|]. intros _. by apply Hp.
  - split; [|done]. by apply good_cancel.
Qed.
Lemma good_creator creator c s :
  is_Some (parent_of s c) →
  good s (with_tree s (let t := tree s in
            mkTree (bootstrap_process_id t) (processes t) (parents t) (children t) (<[c := creator]> (launch_creators t))
              (tree_teardowns t) (orphaned_processes t))).
Proof.
  intros Hc [H1 H2 H3 H4 H5 H6 [T1 T2 T3 T4 T5 T6 T7 T8 T9 T10 T11] H8 H9]. split; try done. split; simpl; try done.
  intros x. rewrite lookup_insert. case_decide; [by subst|]. apply T7.
Qed.
Lemma good_fresh creator c s : is_Some (parent_of s c) → good s (fresh_child creator c s).
Proof.
  intros Hc. unfold fresh_child. set (s1 := with_table s _). set (s2 := alter_process_wait c _ s1).
  assert (light s s2) as Hl.
  { etransitivity; [apply light_with_table, calm_reset|]. by apply light_alter. }
  etransitivity; [apply good_light, Hl|]. apply good_creator. unfold parent_of. by rewrite (light_tree _ _ Hl).
Qed.
(** The end of both adoptions of fresh images. *)
Lemma fresh_ok creator c f (w : World) :
  service_ok (svc w) → is_Some (parent_of (svc w) c) → (∀ x, process_id (f x).1 = process_id x) →
  service_ok (svc ((session ← service (need PANIC (λ s, session_of s c));
    service (modify (λ s, fresh_child creator c
      (with_accounts s (let a := put_session (accounts s) c (f session).1 in
         match (f session).2 with Some groups => put_groups a c groups | None => a end))))) w).1).
Proof.
  intros Hok Hp Hf. apply ok_after; [by apply quiet_reading|done|]. intros session w1 E Hl Hok1.
  unfold service, need in E. destruct (session_of (svc w) c) as [x|] eqn:Ex; simplify_eq/=.
  assert (light (svc w) (with_accounts (svc w) (put_session (accounts (svc w)) c (f session).1))) as Hl1.
  { by eapply light_put_session. }
  destruct (f session) as [x [groups|]]; simpl in *; (apply good_fresh; [done|]); (eapply ok_light; [exact Hok1|]); [|done].
  etransitivity; [exact Hl1|]. by split.
Qed.
Lemma adopt_spawned_ok al peer process uid gid groups (w : World) :
  service_ok (svc w) → unmentioned (svc w) (au_process_id process) →
  service_ok (svc (adopt_spawned_child al peer process uid gid groups w).1).
Proof.
  intros Hok Hum. unfold adopt_spawned_child. apply ok_after; [apply quiet_guard|done|]. intros _ w1 _ Hl1 Hok1.
  apply ok_after; [by apply quiet_reading|done|]. intros parent w2 _ Hl2 Hok2.
  apply ok_after; [by apply quiet_reading|done|]. intros allowed w3 _ Hl3 Hok3.
  apply ok_after; [apply quiet_guard|done|]. intros _ w4 _ Hl4 Hok4.
  assert (lightly w w4) as Hl by (etransitivity; [exact Hl1|]; etransitivity; [exact Hl2|]; by etransitivity).
  assert (unmentioned (svc w4) (au_process_id process)) as Hum4.
  { intros q. unfold children_of. rewrite (light_tree _ _ Hl). apply Hum. }
  destruct (adopt_child_ok al peer process w4 Hok4 Hum4) as [Hok5 Hp]. unfold mbind at 1, stM_bind at 1.
  destruct (adopt_child al peer process w4) as [w5 [[]|e]]; [|done]. simpl in Hok5, Hp. specialize (Hp eq_refl).
  by apply (fresh_ok peer _ (λ x, (set_gids (set_uids x uid uid uid) gid gid gid, Some groups))).
Qed.
Lemma adopt_launched_ok al peer requester process (w : World) :
  service_ok (svc w) → unmentioned (svc w) (au_process_id process) →
  service_ok (svc (adopt_launched_child al peer requester process w).1).
Proof.
  intros Hok Hum. unfold adopt_launched_child.
  apply ok_after; [by apply quiet_reading|done|]. intros broker w1 _ Hl1 Hok1.
  apply ok_after; [apply quiet_guard|done|]. intros _ w2 _ Hl2 Hok2.
  apply ok_after; [by apply quiet_reading|done|]. intros parent w3 _ Hl3 Hok3.
  assert (lightly w w3) as Hl by (etransitivity; [exact Hl1|]; by etransitivity).
  assert (unmentioned (svc w3) (au_process_id process)) as Hum3.
  { intros q. unfold children_of. rewrite (light_tree _ _ Hl). apply Hum. }
  destruct (adopt_child_ok al (process_id parent) process w3 Hok3 Hum3) as [Hok4 Hp]. unfold mbind at 1, stM_bind at 1.
  destruct (adopt_child al (process_id parent) process w3) as [w4 [[]|e]]; [|done]. simpl in Hok4, Hp. specialize (Hp eq_refl).
  by apply (fresh_ok peer _ (λ x, (set_gids (set_uids x (real_uid x) (effective_uid x) (effective_uid x))
             (real_gid x) (effective_gid x) (effective_gid x), None))).
Qed.

(** ** Launched trees *)

Lemma launched_ids_spec s peer root l :
  service_ok s → launched_tree_process_ids s peer root = Ok l →
  lists_tree (tree s) root l ∧ is_Some (parent_of s root) ∧ launch_creators (tree s) !! root = Some peer.
Proof.
  intros Hok H. unfold launched_tree_process_ids in H. destruct (registered_peer s peer); [|done]. simpl in H.
  destruct (bool_decide _) eqn:E; [|done]. apply bool_decide_eq_true in E. simpl in H.
  assert (is_Some (parent_of s root)) as Hp by (apply (tk_creators _ _ (ok_tree _ Hok)); by eexists).
  destruct (tree_listed s _ root (ok_tree _ Hok) Hp) as (ids & Ei & Hl). rewrite Ei in H. simpl in H.
  injection H as <-. done.
Qed.
Lemma launched_total s peer root :
  service_ok s → registered_peer s peer = true → launch_creators (tree s) !! root = Some peer →
  ∃ l, launched_tree_process_ids s peer root = Ok l ∧ lists_tree (tree s) root l.
Proof.
  intros Hok Hp Hc. pose proof (ok_tree _ Hok) as Ht.
  assert (is_Some (parents (tree s) !! root)) as Hroot by (apply (tk_creators _ _ Ht); by rewrite Hc).
  destruct (tree_listed _ _ root Ht Hroot) as (ids & E & Hl). exists (reverse ids). split; [|done].
  unfold launched_tree_process_ids. rewrite Hp. simpl. rewrite bool_decide_eq_true_2 by done. simpl. by rewrite E.
Qed.
Lemma good_freeze peer root l s :
  service_ok s → launched_tree_process_ids s peer root = Ok l → service_ok (freeze_tree root l s).1.
Proof.
  intros Hok H. apply launched_ids_spec in H as (Hl & _); [|done]. unfold freeze_tree.
  destruct (tree_teardowns (tree s) !! root) eqn:E; [done|]. unfold mbind, stM_bind, guard, modify.
  destruct (negb _); simpl; [|done]. destruct (forallb _ l) eqn:Ef; simpl; [|done].
  rewrite forallb_forall in Ef. destruct Hok as [H1 H2 H3 H4 H5 H6 H7 H8 H9]. split; try done.
  apply freeze_ok; try done. intros p Hp%list_elem_of_In%Ef. apply andb_true_iff in Hp as [Hp%bool_decide_eq_true _]. done.
Qed.
Lemma quiet_each {A} (f : A → M unit) l : (∀ x, quiet (f x)) → quiet (st_each f l).
Proof. apply (stays_each lightly). Qed.
Lemma quiet_terminate handle code : quiet (F := F) (terminate_confirmed handle code).
Proof. unfold terminate_confirmed. quietly. Qed.
Lemma keeps_terminate peer root : keeps (begin_launched_tree_termination peer root).
Proof.
  intros w Hok. unfold begin_launched_tree_termination, mbind at 1, stM_bind at 1, service at 1, reads. simpl.
  destruct (launched_tree_process_ids (svc w) peer root) as [l|e] eqn:E; [|done].
  unfold mbind at 1, stM_bind at 1, service at 1. simpl. pose proof (good_freeze peer root l (svc w) Hok E) as Hok1.
  destruct (freeze_tree root l (svc w)) as [s1 [[]|e]]; simpl in *; [|done]. set (w1 := mkWorld s1 _ _).
  apply ok_after; [by apply quiet_reading|done|]. intros handles w2 _ _ Hok2. eapply ok_light; [exact Hok2|].
  apply quiet_each. intros h. apply quiet_terminate.
Qed.
Lemma abort_ok peer c : keeps (abort_launched_child peer c).
Proof.
  intros w Hok. unfold abort_launched_child. apply ok_after; [by apply quiet_reading|done|]. intros [handle parent] w1 E Hl Hok1.
  unfold service, reads in E. injection E as <- E. inv_result. apply negb_true_iff in H1.
  apply ok_after; [apply quiet_terminate|done|]. intros _ w2 _ Hl2 Hok2. apply reap_child_spec; [done|].
  pose proof (light_tree _ _ Hl2) as Et. simpl in Et.
  destruct (reapable_now (svc w) parent c) as [R1 R2 R3]; try done. split; unfold parent_of in *; rewrite ?Et; auto.
Qed.
(** The tree of [root] while it is reclaimed: what was reaped is gone, what
    remains has the parents of the plan. *)
Record reclaiming (root : Z) (gone : list Z) (plan : list (Z * Z * Z)) (s : Service) : Prop := mkReclaiming {
  rc_ok : service_ok s;
  rc_list : tree_teardowns (tree s) !! root = Some (gone ++ (fst ∘ fst <$> plan));
  rc_gone : ∀ p, p ∈ gone → handle_of s p = None;
  rc_plan : ∀ p parent h, (p, parent, h) ∈ plan →
    bootstrap_process_id (tree s) ≠ Some p ∧ parent_known (tree s) parent p;
}.
Lemma reclaiming_kids root gone p parent h plan s :
  reclaiming root gone ((p, parent, h) :: plan) s → ∀ x, parent_of s x ≠ Some p.
Proof.
  intros [R1 R2 R3 R4] x Hx. destruct (tk_teardown _ _ (ok_tree _ R1) _ _ R2 (length gone) p x) as (j & Hj & Hl).
  - rewrite lookup_app_r, Nat.sub_diag by lia. done.
  - done.
  - rewrite lookup_app_l in Hl by done. apply list_elem_of_lookup_2, R3 in Hl.
    destruct (tk_parent _ _ (ok_tree _ R1) x p Hx) as ([? ?] & _). unfold handle_of in *. congruence.
Qed.
Lemma reclaiming_reapable root gone p parent h plan s :
  reclaiming root gone ((p, parent, h) :: plan) s → reapable s parent p ∧ owns (tree s) p.
Proof.
  intros Hr. pose proof (reclaiming_kids _ _ _ _ _ _ _ Hr) as Hk. destruct Hr as [R1 R2 R3 R4].
  destruct (R4 p parent h) as [K1 K2]; [by left|]. split.
  - split; [done|intros x Hx; by apply Hk in Hx|done].
  - eexists _, _. split; [done|]. apply elem_of_app. right. by left.
Qed.
Lemma reclaiming_step root gone p parent h plan (w w' : World) :
  reclaiming root gone ((p, parent, h) :: plan) (svc w) → reap_child parent p w = (w', Ok tt) →
  reclaiming root (gone ++ [p]) plan (svc w').
Proof.
  intros Hr E. destruct (reclaiming_reapable _ _ _ _ _ _ _ Hr) as [Hre Ho]. destruct Hr as [R1 R2 R3 R4].
  destruct (reap_child_spec parent p w R1 Hre) as (Hok & [N1 N2] & Hd). rewrite E in *. simpl in *.
  destruct (Hd eq_refl) as [Hp Ht]. specialize (Ht Ho). split; [done| | |].
  - rewrite Ht. simpl. by rewrite R2, <- app_assoc.
  - intros q Hq. unfold handle_of in *. rewrite Hp. apply elem_of_app in Hq as [Hq|Hq%list_elem_of_singleton].
    + rewrite lookup_delete. case_decide; [done|by apply R3].
    + subst. apply lookup_delete_eq.
  - intros q parent' h' Hin. destruct (R4 q parent' h') as [K1 K2]; [by right|]. rewrite N1. split; [done|].
    intros r Hrr. rewrite N1. destruct (N2 q r Hrr) as [?|?]; [by apply K2|by right].
Qed.
Lemma reclaim_loop root gone plan (w : World) :
  reclaiming root gone plan (svc w) →
  service_ok (svc (st_each (λ x, reap_child x.1.2 x.1.1) plan w).1) ∧
  ((st_each (λ x, reap_child x.1.2 x.1.1) plan w).2 = Ok tt →
   reclaiming root (gone ++ (fst ∘ fst <$> plan)) [] (svc (st_each (λ x, reap_child x.1.2 x.1.1) plan w).1)).
Proof.
  revert gone w. induction plan as [|[[p parent] h] plan IH]; intros gone w Hr; simpl.
  - split; [apply Hr|]. intros _. by rewrite app_nil_r.
  - unfold mbind, stM_bind. destruct (reclaiming_reapable _ _ _ _ _ _ _ Hr) as [Hre Ho].
    destruct (reap_child_spec parent p w (rc_ok _ _ _ _ Hr) Hre) as (Hok & _). pose proof (reclaiming_step root gone p parent h plan w) as Hs.
    destruct (reap_child parent p w) as [w1 [[]|e]]; simpl in *; [|done].
    specialize (IH (gone ++ [p]) w1 (Hs w1 Hr eq_refl)). by rewrite <- app_assoc in IH.
Qed.
Lemma reclaim_plan_spec s ids plan :
  reclaim_plan s ids = Ok plan →
  (fst ∘ fst <$> plan) = ids ∧ ∀ p parent h, (p, parent, h) ∈ plan → parent_of s p = Some parent ∧ handle_of s p = Some h.
Proof.
  revert plan. induction ids as [|p ids IH]; intros plan H; simpl in H; inv_result.
  - split; [done|]. intros p parent h Hp. by apply not_elem_of_nil in Hp.
  - destruct (IH _ H1) as [E Hin]. split; [simpl; by rewrite E|]. intros q parent' h' [Hq|Hq]%elem_of_cons; [|by apply Hin].
    by injection Hq as -> -> ->.
Qed.
Lemma reclaim_start s root ids plan :
  service_ok s → tree_teardowns (tree s) !! root = Some ids → reclaim_plan s ids = Ok plan → reclaiming root [] plan s.
Proof.
  intros Hok Hl H. apply reclaim_plan_spec in H as [E Hin]. split; [done|by rewrite E| |].
  - intros p Hp. by apply not_elem_of_nil in Hp.
  - intros p parent h Hp. destruct (Hin _ _ _ Hp) as [Hq _]. split; [by eapply parented|].
    intros q Hq'. left. unfold parent_of in *. congruence.
Qed.
Lemma reclaim_end root gone s :
  reclaiming root gone [] s → service_ok (set_teardowns s (delete root (tree_teardowns (tree s)))).
Proof.
  intros [R1 R2 R3 R4]. rewrite app_nil_r in R2. destruct R1 as [H1 H2 H3 H4 H5 H6 H7 H8 H9]. split; try done.
  by eapply forget_teardown_ok.
Qed.
Lemma reclaiming_light root gone plan s s' : light s s' → reclaiming root gone plan s → reclaiming root gone plan s'.
Proof.
  intros Hl [R1 R2 R3 R4]. split; [by eapply ok_light|..]; unfold handle_of; rewrite (light_tree _ _ Hl); done.
Qed.
Lemma quiet_confirm (plan : list (Z * Z * Z)) :
  quiet (F := F) (st_each (λ x, st ← native (proc_status x.2); guard (is_exited st) STATUS_EAGAIN) plan).
Proof. apply quiet_each. intros x. quietly. Qed.
Lemma keeps_reclaim peer root : keeps (reclaim_launched_tree peer root).
Proof.
  intros w Hok. unfold reclaim_launched_tree. apply ok_after; [by apply quiet_reading|done|]. intros plan w1 E Hl1 Hok1.
  unfold service, reads in E. injection E as <- E. inv_result. set (w1 := mkWorld _ _ _).
  pose proof (reclaim_start (svc w1) root _ plan Hok1 ltac:(eassumption) ltac:(eassumption)) as Hr.
  apply ok_after; [apply quiet_confirm|done|]. intros _ w2 _ Hl2 _. apply (reclaiming_light _ _ _ _ _ Hl2) in Hr.
  destruct (reclaim_loop root [] plan w2 Hr) as [Hok3 Hend]. unfold mbind, stM_bind.
  destruct (st_each _ plan w2) as [w3 [[]|e]]; simpl in *; [|done]. by eapply reclaim_end, Hend.
Qed.

(** ** Domains and requests *)

Context {DW : DomainWire} (same : Z → Z → result Z bool).

Lemma light_push id ids s : light s (foldl (push_membership id) s ids).
Proof.
  induction ids as [|p ids IH] using rev_ind; [reflexivity|]. rewrite foldl_app. simpl.
  etransitivity; [exact IH|]. by apply light_same.
Qed.
Lemma light_publish_domain id peer ids s : light s (publish_domain id peer ids s).
Proof. unfold publish_domain. etransitivity; [apply (light_push id ids)|]. by apply light_same. Qed.
Lemma light_create ae alloc create peer roots : stays light (create_domain same ae alloc create peer roots).
Proof.
  unfold create_domain.
  repeat first
    [ progress intros
    | apply (stays_bind light)
    | solve [apply stays_need, _ | apply stays_gets, _ | apply stays_guard, _ | apply stays_ret, _ | apply stays_lift, _
            | apply stays_reads, _]
    | apply (stays_each light); intros; unfold reserve_membership
    | apply stays_modify; intros; first [apply light_publish_domain | by apply light_same] ].
Qed.
Lemma light_release_native bytes flags n : stays light (release_native bytes flags n).
Proof. intros s. unfold release_native. repeat case_match; try reflexivity. by apply light_same. Qed.
Lemma adopt_domain_ok al ai ap peer id process uid gid groups (w : World) :
  service_ok (svc w) → unmentioned (svc w) (au_process_id process) →
  service_ok (svc (adopt_domain_child al ai ap peer id process uid gid groups w).1).
Proof.
  intros Hok Hum. unfold adopt_domain_child. apply ok_after; [by apply quiet_reading|done|]. intros l w1 _ Hl Hok1.
  assert (unmentioned (svc w1) (au_process_id process)) as Hum1.
  { intros q. unfold children_of. rewrite (light_tree _ _ Hl). apply Hum. }
  pose proof (adopt_spawned_ok al peer process uid gid groups w1 Hok1 Hum1) as Hok2. unfold mbind, stM_bind.
  destruct (adopt_spawned_child al peer process uid gid groups w1) as [w2 [[]|e]]; simpl in *; [|done].
  eapply ok_light; [exact Hok2|]. by apply light_same.
Qed.
Lemma light_account p r s : light s (with_accounts s (account_request p r (accounts s)).1).
Proof.
  pose proof (request_effect p r (accounts s)) as He. set (a := (account_request p r (accounts s)).1) in *. clearbody a.
  split; try done. intros q. unfold session_of. simpl. destruct He as [|c c' Hc E _|c l _ _|m n]; simpl; try done.
  rewrite lookup_insert. case_decide; [subst|done]. rewrite Hc. simpl. by rewrite E.
Qed.
Lemma keeps_group image caller payload :
  (∀ h, quiet (image h)) → keeps (set_process_group image caller payload).
Proof.
  intros Hi. unfold set_process_group. apply keeps_bind; [apply keeps_quiet, quiet_lift|]. intros [p requested].
  apply keeps_bind; [apply keeps_quiet, quiet_guard|intros _]. cbv zeta.
  apply keeps_bind; [by apply keeps_quiet, quiet_reading|intros parent].
  apply keeps_bind; [apply keeps_quiet, quiet_guard|intros _]. apply keeps_bind; [apply keeps_quiet; quietly|]. intros _.
  intros w Hok. apply ok_after; [by apply quiet_reading|done|]. intros group w1 E Hl Hok1.
  unfold service, reads in E. injection E as <- E. apply group_change_session in E. unfold service. simpl.
  pose proof (good_join _ group (svc w) E Hok) as Hg. by destruct (join_group _ group (svc w)).
Qed.

(** A request to the signal tables. *)
Inductive table_request (s : Service) : SignalTable → Prop :=
  | req_disposition p flags payload :
      table_request s (signal_disposition_payload (parents (tree s)) p flags payload (table s)).1
  | req_child_options p payload :
      table_request s (set_signal_child_options (has_session s p) (parents (tree s)) p payload (table s)).1
  | req_thread peer i opcode flags payload :
      table_request s (handle_thread_signal_request (has_session s (i_process_id i))
        (real_uid <$> session_of s (i_process_id i)) peer i opcode flags payload (table s)).1
  | req_send_thread peer i target rights payload :
      table_request s (send_thread_signal (real_uid <$> session_of s (i_process_id i)) peer i target rights payload (table s)).1
  | req_complete p payload : table_request s (complete_signal_delivery (has_session s p) p payload (table s)).1
  | req_wait peer i requested expected reply : is_u64 requested →
      table_request s (try_wait_signal_info_with_reply peer i requested expected reply (table s)).1
  | req_acknowledge p : table_request s (acknowledge_signal_notification (table s) p)
  | req_acknowledge_thread k : table_request s (acknowledge_thread_signal_notification (table s) k)
  | req_retire i status : table_request s (retire_signal_thread i status (table s)).1.
Lemma table_request_calm s t : table_request s t → calm (table s) t.
Proof.
  intros []; split; auto using shape_disposition, shape_child_options, shape_request, shape_send_thread, shape_complete,
    shape_try_wait, shape_retire_thread, ok_disposition, ok_child_options, ok_thread_request, ok_send_thread, ok_complete,
    ok_try_wait, ok_retire_thread; try (by apply shape_same); intros Hok; by apply (ok_same (table s)).
Qed.

(** ** The service *)

(** What the service does.  A process that is adopted or initialized is not
    still named as the child of another one. *)
Inductive service_step (w : World) : World → Prop :=
  | st_outside b f : service_step w (mkWorld (svc w) b f)
  | st_bootstrap process uid gid groups :
      service_step w (service (initialize_bootstrap_process process uid gid groups) w).1
  | st_initialize peer process uid gid groups : unmentioned (svc w) (au_process_id process) →
      service_step w (service (initialize_process peer process uid gid groups) w).1
  | st_account p r : service_step w (mkWorld (with_accounts (svc w) (account_request p r (accounts (svc w))).1) (procs w) (files w))
  | st_table t : table_request (svc w) t → service_step w (mkWorld (with_table (svc w) t) (procs w) (files w))
  | st_image p image : service_step w (validate_request_image p image w).1
  | st_resume alloc p : service_step w (apply_process_resume alloc p w).1
  | st_notifications : service_step w (refresh_child_notifications w).1
  | st_exits : service_step w (refresh_child_exit_notifications w).1
  | st_orphans : service_step w (reap_orphans w).1
  | st_discarded : service_step w (reap_discarded_children w).1
  | st_prepare ag al ae owner : service_step w (prepare_fork ag al ae owner w).1
  | st_commit alloc peer token process : unmentioned (svc w) (au_process_id process) →
      service_step w (service (commit_fork alloc peer token process) w).1
  | st_cancel peer token : service_step w (cancel_fork peer token w).1
  | st_abandoned : service_step w (reap_abandoned_forks w).1
  | st_adopt al peer process : unmentioned (svc w) (au_process_id process) →
      service_step w (adopt_child al peer process w).1
  | st_spawned al peer process uid gid groups : unmentioned (svc w) (au_process_id process) →
      service_step w (adopt_spawned_child al peer process uid gid groups w).1
  | st_launched al peer requester process : unmentioned (svc w) (au_process_id process) →
      service_step w (adopt_launched_child al peer requester process w).1
  | st_domain_child al ai ap peer id process uid gid groups : unmentioned (svc w) (au_process_id process) →
      service_step w (adopt_domain_child al ai ap peer id process uid gid groups w).1
  | st_domain ae alloc create peer roots : service_step w (service (create_domain same ae alloc create peer roots) w).1
  | st_domain_release bytes flags n : service_step w (service (release_native bytes flags n) w).1
  | st_terminate_tree peer root : service_step w (begin_launched_tree_termination peer root w).1
  | st_reclaim_tree peer root : service_step w (reclaim_launched_tree peer root w).1
  | st_abort peer c : service_step w (abort_launched_child peer c w).1
  | st_wait p r include reply : service_step w (wait_child_observation_with_reply p r include reply w).1
  | st_group observed caller payload :
      service_step w (set_process_group (if observed : bool then observed_image else unobserved_image) caller payload w).1
  | st_session p : service_step w (service (create_session p) w).1
  | st_terminal peer i opcode flags payload terminal :
      service_step w (service (handle_terminal peer i opcode flags payload terminal) w).1
  | st_terminal_io i terminal reading stop : service_step w (service (authorize_terminal_io i terminal reading stop) w).1
  | st_terminal_signal terminal signal : 0 ≤ signal →
      service_step w (service (signal_terminal_foreground_group terminal signal) w).1
  | st_terminal_hangup terminal : service_step w (service (hangup_terminal terminal) w).1
  | st_send caller payload : service_step w (service (send_signal caller payload) w).1
  | st_stopped alloc p payload : service_step w (report_process_stopped alloc p payload w).1
  | st_signaled p payload : service_step w (report_process_signaled p payload w).1.
Lemma service_step_ok w w' : service_ok (svc w) → service_step w w' → service_ok (svc w').
Proof.
  intros Hok []; try done.
  - by apply keeps_service; [apply good_bootstrap|].
  - unfold service. pose proof (good_initialize peer process uid gid groups (svc w) H Hok) as Hg.
    by destruct (initialize_process peer process uid gid groups (svc w)).
  - eapply ok_light; [exact Hok|apply light_account].
  - eapply ok_light; [exact Hok|]. by apply light_with_table, table_request_calm.
  - eapply ok_light; [exact Hok|apply quiet_validate].
  - eapply ok_light; [exact Hok|apply quiet_resume].
  - eapply ok_light; [exact Hok|apply quiet_notifications].
  - by apply keeps_all_exits.
  - by apply keeps_orphans.
  - by apply keeps_discarded.
  - by apply prepare_fork_ok.
  - unfold service. pose proof (good_commit alloc peer token process (svc w) H Hok) as Hg.
    by destruct (commit_fork alloc peer token process (svc w)).
  - by apply good_cancel.
  - by apply keeps_abandoned.
  - by apply adopt_child_ok.
  - by apply adopt_spawned_ok.
  - by apply adopt_launched_ok.
  - by apply adopt_domain_ok.
  - by apply keeps_service; [apply stays_good, light_create|].
  - by apply keeps_service; [apply stays_good, light_release_native|].
  - by apply keeps_terminate.
  - by apply keeps_reclaim.
  - by apply abort_ok.
  - by apply keeps_wait.
  - apply keeps_group; [|done]. intros h. destruct observed; [apply quiet_native|apply quiet_fail].
  - by apply keeps_service; [apply good_create_session|].
  - by apply keeps_service; [apply good_terminal|].
  - by apply keeps_service; [apply stays_good, light_terminal_io|].
  - by apply keeps_service; [by apply stays_good, light_terminal_signal|].
  - by apply keeps_service; [apply stays_good, light_hangup_terminal|].
  - by apply keeps_service; [apply stays_good, light_send|].
  - eapply ok_light; [exact Hok|apply quiet_stopped].
  - eapply ok_light; [exact Hok|apply quiet_signaled].
Qed.
(** The states the service reaches from its start. *)
Definition service_reachable (w : World) : Prop :=
  ∃ b f, rtc service_step (mkWorld service_new b f) w.
Lemma service_reachable_ok w : service_reachable w → service_ok (svc w).
Proof.
  intros (b & f & Hr). assert (service_ok (svc (mkWorld service_new b f))) as Hok by apply service_new_ok.
  induction Hr as [|w1 w2 w3 Hs _ IH]; [done|]. apply IH. by eapply service_step_ok.
Qed.
End Steps.
