(* ===== verification/ServiceExample.v ===== *)
(** * A concrete POSIX service

    Instances of what the service takes from outside, and states it reaches
    with them: a native system that answers from a script, and a reaper with
    three generations of processes below it. *)

From stdpp Require Import fin_maps.
From S2P Require Import Prelude RecordLock LockExec Reach RecordLockWait TimerSchedule PosixProtocol.
From S2P Require Import ProcessTimer Credentials SignalState Signals SignalProofs SignalTheorems Service.
From S2P Require Import Lifecycle Fork Launch ChildWait Jobs ServiceFrame ProcessTree ServiceProofs.
From S2P Require Import ServiceSteps.

Definition example_service_codec : ServiceCodec := {|
  PROCESS_STATE_RUNNING := 0; PROCESS_STATE_EXITED := 1; HANDLE_WAIT_INFINITE := 2 ^ 64 - 1;
  MAX_SUPPLEMENTARY_GROUPS := 64; RLIMIT_NPROC := 6; RLIM_INFINITY := 2 ^ 64 - 1;
  SIGNAL_XCPU := 24; SIGNAL_VTALRM := 26; SIGNAL_PROF := 27;
  decode_process_id_request := λ bytes, match bytes with [p] => Some p | _ => None end;
  encode_process_id_request := λ p, Some [p];
  decode_process_group_request := λ bytes, match bytes with [p; g] => Some (p, g) | _ => None end;
  encode_process_info := λ i, Some [pi_process_id i; pi_parent_id i; pi_group i; pi_session i];
  wait_info_default := mkWaitInfo 0 0 0;
  encode_interval := λ v, Some [iv_interval v; iv_remaining v];
  OP_TERMINAL_ACQUIRE := 1; OP_TERMINAL_RELEASE := 2; OP_TERMINAL_GET_FOREGROUND := 3;
  OP_TERMINAL_GET_SESSION := 4; OP_TERMINAL_SET_FOREGROUND := 5;
|}.
Definition example_domain_wire : DomainWire := {|
  MAX_ROOTS := 16; TOKEN_RIGHTS := 3; IPC_DELIVERY_NATIVE_OBJECT := 1; OP_RELEASE := 2;
  decode_provider_request := λ bytes, match bytes with [op; id] => Some (op, id) | _ => None end;
|}.

(** The answers a process gives, in order; the last one is repeated.  Handles
    are process identifiers. *)
Record Script := mkScript { sc_status : list ProcessLifecycle; sc_image : list (result Z Z) }.
Abbreviation Native := (gmap Z Script).
Definition next_of {A} (l : list A) : option A * list A :=
  match l with [] => (None, []) | [x] => (Some x, [x]) | x :: l => (Some x, l) end.
Definition script_of (n : Native) (h : Z) : Script := default (mkScript [Running] [Ok 0]) (n !! h).
Definition native_status (h : Z) : stM Native Z ProcessLifecycle := λ n,
  let s := script_of n h in
  let '(o, l) := next_of (sc_status s) in
  (<[h := mkScript l (sc_image s)]> n, Ok (default Running o)).
Definition native_image (h : Z) : stM Native Z ImageStatus := λ n,
  let s := script_of n h in
  let '(o, l) := next_of (sc_image s) in
  let state := match head (sc_status s) with Some (Exited _) => 1 | _ => 0 end in
  (<[h := mkScript (sc_status s) l]> n, revision ← default (Ok 0) o; Ok (mkImage h state 0 revision)).
#[global] Instance example_processes : ProcessBackend Native := {|
  proc_status := native_status;
  image_status := native_image;
  execution_usage := λ _ n, (n, Ok (mkExecution 2 3 100 0));
  memory_usage := λ _ n, (n, Ok (mkMemory 10 20));
  suspend := λ _ n, (n, Ok tt);
  resume := λ _ n, (n, Ok tt);
  terminate := λ h code n, (<[h := mkScript [Exited code] (sc_image (script_of n h))]> n, Ok tt);
  release := λ h n, n;
|}.
#[global] Instance example_files : FilesystemBackend (list Z) := {|
  retain_object := λ h l, (h :: l, Ok h);
  release_object := λ h l, l;
|}.

#[global] Existing Instance two_kinds | 100.
#[global] Existing Instance linux_protocol | 100.
#[global] Existing Instance linux_signals | 100.
#[global] Existing Instance example_accounts_protocol | 100.
#[global] Existing Instance example_codec | 100.
#[global] Existing Instance example_codec_laws | 100.
#[global] Existing Instance example_service_codec | 100.
#[global] Existing Instance example_domain_wire | 100.

Definition example_same (a b : Z) : result Z bool := Ok (a =? b).
Definition ExampleWorld : Type := @World two_kinds Native (list Z).
Definition example_start : ExampleWorld := mkWorld service_new ∅ [].
Definition example_step : ExampleWorld → ExampleWorld → Prop := service_step example_same.
Definition all_granted : Allocations := mkAllocations true true true true.
Definition process_of (p : Z) : Authenticated := mkAuthenticated p p.

Lemma unmentioned_check (s : @Service two_kinds) c :
  forallb (λ x : Z * gset Z, negb (bool_decide (c ∈ x.2))) (map_to_list (children (tree s))) = true → unmentioned s c.
Proof.
  intros H q. unfold children_of. destruct (children (tree s) !! q) as [x|] eqn:E; simpl; [|set_solver].
  rewrite forallb_forall in H. specialize (H (q, x)). simpl in H. intros Hc. rewrite bool_decide_eq_true_2 in H by done.
  discriminate H. by apply list_elem_of_In, elem_of_map_to_list.
Qed.

(** Process 1 is the reaper; 2, 3 and 4 are its child, grandchild and great-grandchild. *)
Definition example_booted : ExampleWorld :=
  (service (initialize_bootstrap_process (process_of 1) 0 0 []) example_start).1.
Definition example_two : ExampleWorld := (adopt_child all_granted 1 (process_of 2) example_booted).1.
Definition example_three : ExampleWorld := (adopt_child all_granted 2 (process_of 3) example_two).1.
Definition example_family : ExampleWorld := (adopt_child all_granted 3 (process_of 4) example_three).1.
Lemma example_adopts w peer p :
  forallb (λ x : Z * gset Z, negb (bool_decide (p ∈ x.2))) (map_to_list (children (tree (svc w)))) = true →
  example_step w (adopt_child all_granted peer (process_of p) w).1.
Proof. intros H. by apply (st_adopt _ w all_granted peer (process_of p)), unmentioned_check. Qed.
Lemma example_family_steps : rtc example_step example_start example_family.
Proof.
  apply (rtc_l _ _ example_booted); [exact (st_bootstrap _ example_start (process_of 1) 0 0 [])|].
  apply (rtc_l _ _ example_two); [apply example_adopts; vm_compute; reflexivity|].
  apply (rtc_l _ _ example_three); [apply example_adopts; vm_compute; reflexivity|].
  apply rtc_once, example_adopts. vm_compute. reflexivity.
Qed.
Lemma example_family_reachable : service_reachable example_same example_family.
Proof. exists ∅, []. apply example_family_steps. Qed.
Lemma example_family_tree :
  launched_tree_process_ids (svc example_family) 1 2 = Ok [4; 3; 2].
Proof. vm_compute. reflexivity. Qed.
