(* ===== verification/ServiceRuns.v ===== *)
(** * Runs of the POSIX service

    Concrete runs, each a sequence of operations from the start of the
    service: a launched tree that is torn down, and three runs in which the
    code departs from what it means to do. *)

From stdpp Require Import fin_maps.
From S2P Require Import Prelude RecordLock LockExec Reach RecordLockWait TimerSchedule PosixProtocol.
From S2P Require Import ProcessTimer Credentials SignalState Signals SignalProofs SignalTheorems Service.
From S2P Require Import Lifecycle Fork Launch ChildWait Jobs ServiceFrame ProcessTree ServiceProofs.
From S2P Require Import ServiceSteps ServiceExample.

(** The native system changes on its own. *)
Definition outside (n : Native) (w : ExampleWorld) : ExampleWorld := mkWorld (svc w) n (files w).
(** A process of the native system, and one that has exited. *)
Definition alive : Script := mkScript [Running] [Ok 0].
Definition dead : Script := mkScript [Exited 0] [Ok 0].
Definition ignore_children (p : Z) (w : ExampleWorld) : ExampleWorld :=
  mkWorld (with_table (svc w)
    (signal_disposition_payload (parents (tree (svc w))) p SIGNAL_DISPOSITION_SET [SIGNAL_CHLD; SIGNAL_DISPOSITION_IGNORE; 0]
       (table (svc w))).1) (procs w) (files w).

(** ** A teardown *)

Definition example_frozen : ExampleWorld := (begin_launched_tree_termination 1 2 example_family).1.
Lemma example_frozen_reachable : service_reachable example_same example_frozen.
Proof.
  exists ∅, []. eapply rtc_r; [apply example_family_steps|]. apply (st_terminate_tree _ example_family 1 2).
Qed.

(** ** A teardown that fails on the way *)

(** The image of process 2 cannot be read once. *)
Definition example_faulty : ExampleWorld :=
  outside {[1 := alive; 2 := mkScript [Exited 1] [Err (-5); Ok 0]; 3 := dead; 4 := dead]} example_frozen.
Definition example_stuck : ExampleWorld := (reclaim_launched_tree 1 2 example_faulty).1.
Lemma reached_by (w w' : ExampleWorld) :
  service_reachable example_same w → example_step w w' → service_reachable example_same w'.
Proof. intros (b & f & H) Hs. exists b, f. by eapply rtc_r. Qed.
(** C37: In a reachable state with a frozen tree whose members have all exited,
    one unreadable image makes the reclamation fail after it has reaped a
    member; whatever the native system does from then on, an immediate retry
    and a new termination answer that the root does not exist, although the
    root is registered, and a rollback is refused because the root is
    pinned. *)
Theorem reclaim_stuck :
  service_reachable example_same example_faulty ∧ (reclaim_launched_tree 1 2 example_faulty).2 = Err (-5) ∧
  handle_of (svc example_stuck) 2 = Some 2 ∧
  ∀ n, (reclaim_launched_tree 1 2 (outside n example_stuck)).2 = Err STATUS_ESRCH ∧
       (begin_launched_tree_termination 1 2 (outside n example_stuck)).2 = Err STATUS_ESRCH ∧
       (abort_launched_child 1 2 (outside n example_stuck)).2 = Err STATUS_EAGAIN.
Proof.
  split_and!; [|vm_compute; reflexivity..|intros n; split_and!; vm_compute; reflexivity].
  exact (reached_by example_frozen _ example_frozen_reachable (st_outside _ example_frozen _ _)).
Qed.

(** ** A child whose parent goes first *)

(** Processes 2 and 3 discard the status of their children.  The exit of 4 is
    seen while 3 is running; 3 has exited when the discarded children are
    reaped. *)
Definition example_ignoring : ExampleWorld := ignore_children 2 (ignore_children 3 example_family).
Definition example_half : ExampleWorld :=
  outside {[1 := alive; 2 := alive; 3 := mkScript [Running; Exited 0] [Ok 0]; 4 := dead]} example_ignoring.
Definition example_exiting : ExampleWorld := (refresh_child_exit_notifications example_half).1.
Definition example_discarded : ExampleWorld := (reap_discarded_children example_exiting).1.
Lemma ignoring_step p w : example_step w (ignore_children p w).
Proof. apply (st_table _ w), req_disposition. Qed.
Lemma example_discarded_reachable : service_reachable example_same example_discarded.
Proof.
  apply (reached_by example_exiting); [|exact (st_discarded _ example_exiting)].
  apply (reached_by example_half); [|exact (st_exits _ example_half)].
  apply (reached_by example_ignoring); [|exact (st_outside _ example_ignoring _ _)].
  apply (reached_by (ignore_children 3 example_family)); [|exact (ignoring_step 2 _)].
  exact (reached_by _ _ example_family_reachable (ignoring_step 3 _)).
Qed.

(** ** A fork that keeps an old group *)

Definition grouped (p group : Z) (w : ExampleWorld) : ExampleWorld := (set_process_group observed_image p [p; group] w).1.
(** 2 prepares a fork while it is in the group of 3; the group is then left by
    both, and 3 starts a session of its own. *)
Definition example_joined : ExampleWorld := grouped 2 3 (grouped 3 0 example_family).
Definition example_prepared : ExampleWorld := (prepare_fork true true true 2 example_joined).1.
Definition example_left : ExampleWorld := grouped 3 2 (grouped 2 0 example_prepared).
Definition example_moved : ExampleWorld := (service (create_session 3) example_left).1.
Definition example_forked : ExampleWorld := (service (commit_fork true 2 4 (process_of 5)) example_moved).1.
Lemma grouped_step p group w : example_step w (grouped p group w).
Proof. apply (st_group _ w true). Qed.
Lemma commit_step peer token c w :
  forallb (λ x : Z * gset Z, negb (bool_decide (c ∈ x.2))) (map_to_list (children (tree (svc w)))) = true →
  example_step w (service (commit_fork true peer token (process_of c)) w).1.
Proof. intros H. by apply (st_commit _ w true peer token (process_of c)), unmentioned_check. Qed.
Lemma example_moved_reached : service_reachable example_same example_moved.
Proof.
  apply (reached_by example_left); [|exact (st_session _ example_left 3)].
  apply (reached_by (grouped 2 0 example_prepared)); [|exact (grouped_step 3 2 _)].
  apply (reached_by example_prepared); [|exact (grouped_step 2 0 _)].
  apply (reached_by example_joined); [|exact (st_prepare _ example_joined true true true 2)].
  apply (reached_by (grouped 3 0 example_family)); [|exact (grouped_step 2 3 _)].
  exact (reached_by _ _ example_family_reachable (grouped_step 3 0 _)).
Qed.
Lemma example_forked_reachable : service_reachable example_same example_forked.
Proof. apply (reached_by example_moved); [apply example_moved_reached|]. apply commit_step. vm_compute. reflexivity. Qed.
(** The commit places the child in the group it was prepared in, which by now
    is a group of another session. *)
Theorem fork_crosses_sessions :
  service_reachable example_same example_forked ∧ group_of (svc example_forked) 5 = group_of (svc example_forked) 3 ∧
  session_id (svc example_forked) 5 = Some 1 ∧ session_id (svc example_forked) 3 = Some 3.
Proof. split_and!; [apply example_forked_reachable|vm_compute; reflexivity..]. Qed.
