(* ===== verification/ServiceTheorems.v ===== *)
(** * What the POSIX service promises

    Theorems on the composed service, for every state it can reach: its
    invariant, the extent of launched trees and launch domains, the exactness
    of waits, and what a forked child inherits. *)

From stdpp Require Import fin_maps.
From S2P Require Import Prelude RecordLock LockExec Reach RecordLockWait TimerSchedule PosixProtocol.
From S2P Require Import ProcessTimer Credentials SignalState Signals SignalProofs SignalTheorems Service.
From S2P Require Import Lifecycle Fork Launch ChildWait Jobs ServiceFrame ProcessTree ServiceProofs.
From S2P Require Import ServiceSteps ServiceExample ServiceRuns.

#[local] Opaque reap_observed_child.

Section Theorems.
Context {LK : LockKind} {PP : PosixProtocol} {AP : AccountProtocol} {SC : SignalCodec} {VC : ServiceCodec}.
Context {SN : @SignalNumbers PP} {SL : SignalCodecLaws}.
Context {B F : Type} {PB : ProcessBackend B} {FB : FilesystemBackend F} {DW : DomainWire}.
Context (same : Z → Z → result Z bool).
#[local] Abbreviation M := (@M LK B F).
#[local] Abbreviation World := (@World LK B F).

(** ** The invariant *)

(** [p] is a parent of [q], a parent of its parent, and so on. *)
Definition ancestor (s : Service) : Z → Z → Prop := tc (child_of (tree s)).

(** ** Waiting *)

(** Nobody is removed and nobody is charged. *)
Definition untouched (s s' : Service) : Prop :=
  processes (tree s') = processes (tree s) ∧ ∀ q, usage_of s' q = usage_of s q.
#[global] Instance untouched_preorder : PreOrder untouched.
Proof. split; [done|]. intros s1 s2 s3 [A1 A2] [B1 B2]. split; [congruence|]. intros q. by rewrite B2. Qed.
Lemma untouched_light s s' : light s s' → untouched s s'.
Proof. intros Hl. split; [by rewrite (light_tree _ _ Hl)|]. intros q. by apply light_usage. Qed.
Lemma untouched_links p s s' : links p s s' → untouched s s'.
Proof. intros Hl. split; apply Hl. Qed.

(** What a wait of [p] has done when it ends in [res]: it has failed or its
    reply was refused, it has reported without taking anything, it has
    reported and marked the change of a live child, or it has reported one
    child that has exited, removed it and charged its usage once. *)
Inductive waited (p : Z) (r : ChildRequest) (reply : WaitInfo → WaitedChildUsage → bool) (w w' : World)
    : result Z (option WaitInfo) → Prop :=
  | waited_nothing res : untouched (svc w) (svc w') → (∀ info, res ≠ Ok (Some info)) → waited p r reply w w' res
  | waited_kept info usage : untouched (svc w) (svc w') → reply info usage = true →
      has (options r) WAIT_NOWAIT = true ∨ has (options r) WAIT_NOHANG = true ∧ info = wait_info_default →
      waited p r reply w w' (Ok (Some info))
  | waited_change info usage ws : untouched (svc w) (svc w') → reply info usage = true →
      wi_process_id info ∈ children_of (svc w) p →
      (take_status ws (Z.lor (options r) WAIT_NOWAIT)).2 = Some (wi_status info) →
      wait_state (svc w') (wi_process_id info) = Some (take_status ws (options r)).1 →
      waited p r reply w w' (Ok (Some info))
  | waited_exit info usage before total :
      reply info usage = true → wait_selects_exit (options r) = true → has (options r) WAIT_NOWAIT = false →
      wi_process_id info ∈ children_of (svc w) p → wi_process_id info ≠ p →
      processes (tree (svc w')) = delete (wi_process_id info) (processes (tree (svc w))) →
      usage_of (svc w) p = Some before → usage_checked_add before usage = Ok total →
      usage_of (svc w') p = Some total →
      (∀ q, q ≠ p → q ≠ wi_process_id info → usage_of (svc w') q = usage_of (svc w) q) →
      waited p r reply w w' (Ok (Some info)).
Lemma waited_after p r reply (w w1 w' : World) res :
  untouched (svc w) (svc w1) → children_of (svc w1) p = children_of (svc w) p →
  waited p r reply w1 w' res → waited p r reply w w' res.
Proof.
  intros Hu Hc H. destruct H as [res H1 H2|info usage H1 H2 H3|info usage ws H1 H2 H3 H4 H5|info usage before total H1 H2 H3 H4 H5 H6 H7 H8 H9 H10].
  - apply waited_nothing; [by etransitivity|done].
  - by apply (waited_kept _ _ _ _ _ _ usage); [etransitivity|..].
  - apply (waited_change _ _ _ _ _ _ usage ws); [by etransitivity|done|by rewrite <- Hc|done..].
  - destruct Hu as [U1 U2]. apply (waited_exit _ _ _ _ _ _ usage before total); try done; [by rewrite <- Hc|congruence|by rewrite <- U2|].
    intros q Hq1 Hq2. by rewrite H10, U2.
Qed.
(** A first part of the code that leaves everything alone. *)
Lemma waited_bind {A} p r reply (m : M A) k (w : World) :
  quiet m → (∀ a w1, m w = (w1, Ok a) → lightly w w1 → waited p r reply w1 (k a w1).1 (k a w1).2) →
  waited p r reply w ((m ≫= k) w).1 ((m ≫= k) w).2.
Proof.
  intros Hm Hk. specialize (Hm w). unfold mbind, stM_bind. destruct (m w) as [w1 [a|e]]; simpl in *.
  - eapply waited_after; [by apply untouched_light| |by apply Hk]. unfold children_of. by rewrite (light_tree _ _ Hm).
  - apply waited_nothing; [by apply untouched_light|done].
Qed.
Lemma reap_usage p c (w : World) q : q ≠ c → usage_of (svc (reap_observed_child p c w)) q = usage_of (svc w) q.
Proof.
  intros Hq. destruct (reap_fields p c w) as (l & _ & _ & _ & _ & _ & E & _). unfold usage_of, wait_state. rewrite E. simpl.
  by rewrite lookup_delete_ne.
Qed.
Lemma reap_processes p c (w : World) : processes (tree (svc (reap_observed_child p c w))) = delete c (processes (tree (svc w))).
Proof. destruct (reap_fields p c w) as (l & E & _). by rewrite E. Qed.
Lemma charged_usage s p total q :
  usage_of (alter_process_wait p (λ w, set_usage w total) s) q = if decide (q = p) then (λ _, total) <$> usage_of s p else usage_of s q.
Proof.
  unfold usage_of, wait_state. simpl. case_decide as E; [subst q|by rewrite lookup_alter_ne].
  rewrite lookup_alter_eq. by destruct (process_wait_states (table s) !! p).
Qed.
Lemma charged_tree s p f : tree (alter_process_wait p f s) = tree s.
Proof. reflexivity. Qed.
Lemma service_need {A} e (f : Service → option A) (w w' : World) a :
  service (need e f) w = (w', Ok a) → w' = w ∧ f (svc w) = Some a.
Proof. unfold service, need, ok_or. destruct w, (f _); simpl; intros; by simplify_eq. Qed.
Lemma service_gets {A} (f : Service → A) (w w' : World) a : service (gets f) w = (w', Ok a) → w' = w ∧ f (svc w) = a.
Proof. unfold service, gets. destruct w. simpl. intros. by simplify_eq. Qed.
Lemma service_reads {A} (f : Service → result Z A) (w w' : World) a :
  service (reads f) w = (w', Ok a) → w' = w ∧ f (svc w) = Ok a.
Proof. unfold service, reads. destruct w. simpl. intros. by simplify_eq. Qed.
Lemma guard_ok {S} b (e : Z) (s s' : S) a : guard b e s = (s', Ok a) → s' = s ∧ b = true.
Proof. unfold guard, ensure. destruct b; simpl; intros; by simplify_eq. Qed.
Lemma lift_ok {S A} (r : result Z A) (s s' : S) a : st_lift r s = (s', Ok a) → s' = s ∧ r = Ok a.
Proof. unfold st_lift. intros. by simplify_eq. Qed.
Lemma bind_ok {S A C} (m : stM S Z A) (k : A → stM S Z C) s s' c :
  (m ≫= k) s = (s', Ok c) → ∃ s1 a, m s = (s1, Ok a) ∧ k a s1 = (s', Ok c).
Proof. unfold mbind, stM_bind. destruct (m s) as [s1 [a|e]]; [|done]. intros. by exists s1, a. Qed.
Lemma wait_exited_outcome include reply p r c handle uid code (w : World) :
  service_ok (svc w) → parent_of (svc w) c = Some p → wait_selects_exit (options r) = true →
  let x := wait_exited include reply p r c handle uid code w in waited p r reply w x.1 x.2.
Proof.
  intros Hok Hc Hsel. cbv zeta. unfold wait_exited. apply waited_bind; [by apply quiet_reading|]. intros ws w1 _ Hl1.
  apply waited_bind; [case_match; [apply quiet_usage|apply quiet_ret]|]. intros usage w2 _ Hl2.
  destruct (has (options r) WAIT_NOWAIT) eqn:Hno.
  { simpl. destruct (reply _ usage) eqn:Hr; simpl; [|by apply waited_nothing]. by apply (waited_kept _ _ _ _ _ _ usage); [| |left]. }
  apply waited_bind; [by apply quiet_reading|]. intros caller w3 Ec Hl3. apply service_need in Ec as [<- Hp].
  apply waited_bind; [apply quiet_lift|]. intros total w4 Et Hl4. unfold st_lift in Et. injection Et as <- Hadd.
  assert (lightly w w3) as Hl by (etransitivity; [exact Hl1|]; by etransitivity). clear Hl1 Hl2 Hl3 Hl4.
  pose proof (ok_light _ _ Hok Hl) as Hok3. pose proof (observe_obs (F := F) c w3 Hok3) as [Hok4 Hln].
  assert (c ≠ p) as Hne.
  { destruct (tk_rank _ _ (ok_tree _ Hok)) as [rank Hrank]. intros ->. specialize (Hrank _ _ Hc). lia. }
  assert (c ∈ children_of (svc w3) p) as Hkid.
  { unfold children_of. rewrite (light_tree _ _ Hl). by apply (tk_parent _ _ (ok_tree _ Hok)). }
  unfold mbind, stM_bind. destruct (observe_process_exit c w3) as [w4 [[]|e]]; simpl in *.
  2:{ apply waited_nothing; [by eapply untouched_links|done]. }
  destruct (reply _ usage) eqn:Hr; simpl; [|apply waited_nothing; [by eapply untouched_links|done]].
  destruct (untouched_links _ _ _ Hln) as [U1 U2].
  apply (waited_exit _ _ _ _ _ _ usage (waited_usage caller) total); cbn [svc wi_process_id]; [exact Hr|done..| | |exact Hadd| |].
  - rewrite charged_tree, reap_processes. by rewrite U1.
  - unfold usage_of. by rewrite Hp.
  - rewrite charged_usage, decide_True by done. rewrite reap_usage by done. rewrite U2. unfold usage_of. by rewrite Hp.
  - intros q Hq1 Hq2. rewrite charged_usage, decide_False by done. rewrite reap_usage by done. apply U2.
Qed.
Lemma usage_reads c handle (w : World) : svc (child_wait_usage c handle w).1 = svc w.
Proof.
  unfold child_wait_usage, native, service, need, guard, mbind, stM_bind. destruct (execution_usage handle (procs w)) as [b [u|e]]; [|done].
  simpl. destruct (negb (_ || _)); [|done]. simpl. destruct (memory_usage handle b) as [b1 [m|e]]; [|done]. simpl.
  destruct (negb _); [|done]. simpl. by destruct (wait_state (svc w) c).
Qed.
Lemma wait_changed_outcome include reply p r c handle uid status ws (w : World) :
  c ∈ children_of (svc w) p → wait_state (svc w) c = Some ws →
  (take_status ws (Z.lor (options r) WAIT_NOWAIT)).2 = Some status →
  let x := wait_changed include reply r c handle uid status w in waited p r reply w x.1 x.2.
Proof.
  intros Hc Hws Hst. cbv zeta. unfold wait_changed. set (m := if include then _ else _).
  assert (svc (m w).1 = svc w) as Em by (subst m; destruct include; [apply usage_reads|done]).
  unfold mbind, stM_bind. destruct (m w) as [w1 [usage|e]]; simpl in *; [|apply waited_nothing; [by rewrite Em|done]].
  destruct (reply _ usage) eqn:Hr; simpl; [|apply waited_nothing; [by rewrite Em|done]].
  apply (waited_change _ _ _ _ _ _ usage ws); simpl; try done; rewrite Em.
  - apply untouched_light, light_alter; intros x; unfold take_status, settled; repeat case_match; simpl; auto.
  - unfold wait_state in *. simpl. rewrite lookup_alter_eq. by rewrite Hws.
Qed.
Lemma waited_light p r reply (w w1 w' : World) res :
  lightly w w1 → waited p r reply w1 w' res → waited p r reply w w' res.
Proof.
  intros Hl. apply waited_after; [by apply untouched_light|]. unfold children_of. by rewrite (light_tree _ _ Hl).
Qed.
Lemma wait_candidates_outcome include reply p r can l (w : World) :
  service_ok (svc w) → Forall (λ c, c ∈ children_of (svc w) p) l →
  let x := wait_candidates include reply p r can l w in waited p r reply w x.1 x.2.
Proof.
  cbv zeta. revert can w. induction l as [|c l IH]; intros can w Hok Hl; simpl.
  { destruct can; simpl; [|by apply waited_nothing]. destruct (has (options r) WAIT_NOHANG) eqn:Hn; simpl; [|by apply waited_nothing].
    destruct (reply _ _) eqn:Hr; simpl; [|by apply waited_nothing]. by eapply waited_kept; [|exact Hr|right]. }
  apply Forall_cons in Hl as [Hc Hl].
  assert (∀ w1, lightly w w1 → service_ok (svc w1) ∧ Forall (λ c, c ∈ children_of (svc w1) p) l) as Hl1.
  { intros w1 H1. split; [by eapply ok_light|]. unfold children_of. by rewrite (light_tree _ _ H1). }
  apply waited_bind; [by apply quiet_reading|]. intros [] w1 _ H1; [apply IH; by apply Hl1|].
  apply waited_bind; [by apply quiet_reading|]. intros handle w2 Eh H2. apply service_need in Eh as [-> Hh].
  apply waited_bind; [by apply quiet_reading|]. intros session w3 _ H3.
  apply waited_bind; [apply quiet_native|]. intros st w4 _ H4.
  assert (lightly w w4) as H14 by (etransitivity; [exact H1|]; by etransitivity). clear H2 H3 H4.
  assert (∀ w', lightly w w' → parent_of (svc w') c = Some p ∧ c ∈ children_of (svc w') p) as Hcp.
  { intros w' H'. unfold parent_of, children_of. rewrite (light_tree _ _ H'). split; [|done].
    destruct (tk_child _ _ (ok_tree _ Hok) c p Hc) as [?|[_ Hn]]; [done|].
    unfold handle_of in Hh. rewrite (light_tree _ _ H1), Hn in Hh. done. }
  destruct st as [|code].
  - apply waited_bind; [by apply quiet_reading|]. intros status w5 Est H5. destruct w4 as [s4 b4 f4].
    unfold service, gets in Est. injection Est as <- Est. simpl in *.
    destruct status as [status|]; [|apply IH; by apply Hl1].
    destruct (wait_state s4 c) as [ws|] eqn:Hws; [|done].
    apply (wait_changed_outcome _ _ _ _ _ _ _ _ ws); [by apply (Hcp _ H14)|done..].
  - apply waited_bind; [apply quiet_note_exited|]. intros b w5 _ H5.
    assert (lightly w w5) as Hl5 by (by etransitivity). destruct (Hcp w5 Hl5) as [Hc5 Hp5]. destruct (Hl1 w5 Hl5) as [Hok5 Hl'].
    destruct (wait_selects_exit (options r)) eqn:Hsel; simpl; [by apply wait_exited_outcome|by apply IH].
Qed.

(** ** Launched trees and launch domains *)

(** [l] holds the registered processes below [root], each once, children first. *)
Definition launched (s : Service) (root : Z) (l : list Z) : Prop :=
  lists_tree (tree s) root l ∧ ∀ p, p ∈ l → is_Some (handle_of s p).
(** C22: In a reachable state the walk of a launched tree terminates for its
    creator and lists exactly the registered processes that descend from the
    root, each once and every process after all of its children. *)
Theorem launched_tree_exact (w : World) peer root :
  service_reachable same w → registered_peer (svc w) peer = true → launch_creators (tree (svc w)) !! root = Some peer →
  ∃ l, launched_tree_process_ids (svc w) peer root = Ok l ∧ launched (svc w) root l.
Proof.
  intros Hok%service_reachable_ok Hp Hc. pose proof (ok_tree _ Hok) as Ht.
  assert (is_Some (parents (tree (svc w)) !! root)) as Hroot by (apply (tk_creators _ _ Ht); by rewrite Hc).
  destruct (launched_total _ _ _ Hok Hp Hc) as (l & E & Hl). exists l. split; [done|]. split; [done|].
  intros p Hd%(lt_members _ _ _ Hl). enough (is_Some (parents (tree (svc w)) !! p)) as [q [Hp' _]%(tk_parent _ _ Ht)] by done.
  apply rtc_inv_r in Hd as [<-|(q & _ & Hq)]; [done|by eexists].
Qed.

(** The processes a walk from [p] finds. *)
Definition below (s : Service) : Z → Z → Prop := rtc (λ p c, c ∈ children_of s p).
(** The children still to be pushed, by processes not taken yet. *)
Definition cost (l : list (Z * gset Z)) (X : gset Z) : nat := sum_list ((λ x, if decide (x.1 ∈ X) then 0 else size x.2)%nat <$> l).
Lemma cost_all l : cost l ∅ = sum_list ((size ∘ snd) <$> l).
Proof. unfold cost. apply (f_equal sum_list), list_fmap_ext. intros _ [k v] _. simpl. by rewrite decide_False by set_solver. Qed.
Lemma cost_mono l X Y : X ⊆ Y → (cost l Y ≤ cost l X)%nat.
Proof. intros H. induction l as [|[k v] l IH]; unfold cost in *; csimpl; [done|]. repeat case_decide; first [lia|set_solver]. Qed.
Lemma cost_take l X p :
  NoDup l.*1 → p ∉ X → cost l X = (cost l ({[p]} ∪ X) + size (default ∅ ((list_to_map l : gmap Z (gset Z)) !! p)))%nat.
Proof.
  intros Hnd Hp. induction l as [|[k v] l IH]; [done|]. apply NoDup_cons in Hnd as [Hk Hnd]. specialize (IH Hnd).
  unfold cost in *. csimpl. destruct (decide (k = p)) as [->|Hne].
  - rewrite lookup_insert_eq, decide_False, decide_True by set_solver. csimpl.
    rewrite not_elem_of_list_to_map_1 in IH by done. change (default ∅ None) with (∅ : gset Z) in IH. rewrite size_empty in IH. lia.
  - rewrite lookup_insert_ne by done. destruct (decide (k ∈ X)); [rewrite decide_True by set_solver|rewrite decide_False by set_solver]; lia.
Qed.
Definition walk_closed (s : Service) (pending : list Z) (X : gset Z) : Prop :=
  ∀ p c, p ∈ X → c ∈ children_of s p → c ∈ X ∨ c ∈ pending.
Lemma gather_spec s fuel pending X :
  (length pending + cost (map_to_list (children (tree s))) X ≤ fuel)%nat → walk_closed s pending X →
  (∃ Y, gather s fuel pending X = Some (Ok Y) ∧ X ⊆ Y ∧ walk_closed s [] Y ∧ (∀ p, p ∈ pending → p ∈ Y) ∧
    ∀ x, x ∈ Y → x ∈ X ∨ tree_teardown_owns s x = false ∧ ∃ p, p ∈ pending ∧ below s p x) ∨
  gather s fuel pending X = Some (Err STATUS_EAGAIN) ∧ ∃ p x, p ∈ pending ∧ below s p x ∧ tree_teardown_owns s x = true.
Proof.
  revert pending X. induction fuel as [|fuel IH]; intros [|p pending] X Hf Hcl; simpl in *; try lia;
    [left; exists X; split_and!; [done..|set_solver|by left]|left; exists X; split_and!; [done..|set_solver|by left]|].
  case_bool_decide as Hp.
  - destruct (IH pending X) as [(Y & E & HY & Hc & Hpe & Hx)|[E (q & x & Hq & Hx)]]; [lia| | |].
    + intros q c Hq Hc. destruct (Hcl q c Hq Hc) as [?|[->|?]%elem_of_cons]; auto.
    + left. exists Y. split_and!; [done..|set_solver|]. intros x [?|[? (q & ? & ?)]]%Hx; [by left|]. right. split; [done|]. exists q. set_solver.
    + right. split; [done|]. exists q, x. set_solver.
  - destruct (tree_teardown_owns s p) eqn:Ho; [right; split; [done|]; exists p, p; split_and!; [set_solver|by left|done]|].
    assert (∀ c, c ∈ reverse (children_in_order s p) ↔ c ∈ children_of s p) as Hch.
    { intros c. rewrite elem_of_reverse. unfold children_in_order. by rewrite elem_in_order, elem_of_elements. }
    destruct (IH (reverse (children_in_order s p) ++ pending) ({[p]} ∪ X)) as [(Y & E & HY & Hc & Hpe & Hx)|[E (q & x & Hq & Hx)]].
    + pose proof (cost_take (map_to_list (children (tree s))) X p (NoDup_fst_map_to_list _) Hp) as Hct.
      rewrite list_to_map_to_list in Hct. rewrite length_app, length_reverse. unfold children_in_order.
      rewrite (Permutation_length (in_order_perm _)). unfold children_of. change (length (elements ?y)) with (size y). lia.
    + intros q c [->%elem_of_singleton|Hq]%elem_of_union Hc; [right; apply elem_of_app; left; by apply Hch|].
      destruct (Hcl q c Hq Hc) as [?|[->|?]%elem_of_cons]; [left; set_solver..|right; set_solver].
    + left. exists Y. split_and!; [done|set_solver|done|set_solver|]. intros x [[->%elem_of_singleton|?]%elem_of_union|[? (q & Hq & Hb)]]%Hx;
        [right; split; [done|]; exists p; split; [set_solver|by left]|by left|]. right. split; [done|].
      apply elem_of_app in Hq as [Hq%Hch|Hq]; [exists p; split; [set_solver|by eapply rtc_l]|exists q; set_solver].
    + right. split; [done|]. destruct Hx as [Hb Hx]. apply elem_of_app in Hq as [Hq%Hch|Hq].
      * exists p, x. split_and!; [set_solver|by eapply rtc_l|done].
      * exists q, x. set_solver.
Qed.
(** Every root is the caller or was launched by it, is the process its handle
    names, and no process below a root belongs to a tree that is torn down. *)
Definition gatherable (s : Service) (peer : Z) (roots : list Authenticated) : Prop :=
  ∀ r, r ∈ roots →
    (au_process_id r = peer ∨ launch_creators (tree s) !! au_process_id r = Some peer) ∧
    authenticate same s r = Ok tt ∧ ∀ x, below s (au_process_id r) x → tree_teardown_owns s x = false.
Lemma walk_closed_below s Y p x : walk_closed s [] Y → p ∈ Y → below s p x → x ∈ Y.
Proof. intros Hc Hp Hb. induction Hb as [|p q x Hpq]; [done|]. destruct (Hc p q Hp Hpq) as [?|?%not_elem_of_nil]; auto. done. Qed.
Lemma gather_root_ok s peer X r Y :
  gather_root same s peer X r = Ok Y ↔
  (au_process_id r = peer ∨ launch_creators (tree s) !! au_process_id r = Some peer) ∧ authenticate same s r = Ok tt ∧
  gather s (walk_fuel s) [au_process_id r] X = Some (Ok Y).
Proof.
  unfold gather_root. set (p := au_process_id r). destruct (gather s (walk_fuel s) [p] X) as [[Y'|e]|]; simpl;
    destruct (Z.eqb_spec p peer), (decide (launch_creators (tree s) !! p = Some peer)) as [Hl|Hl];
    rewrite ?(bool_decide_eq_true_2 _ Hl), ?(bool_decide_eq_false_2 _ Hl); simpl;
    destruct (authenticate same s r) as [[]|]; simpl; naive_solver.
Qed.
Lemma gather_root_spec s peer X r :
  walk_closed s [] X → (∀ x, x ∈ X → tree_teardown_owns s x = false) →
  (∀ Y, gather_root same s peer X r = Ok Y →
    gatherable s peer [r] ∧ walk_closed s [] Y ∧ ∀ x, x ∈ Y ↔ x ∈ X ∨ below s (au_process_id r) x) ∧
  (gatherable s peer [r] → ∃ Y, gather_root same s peer X r = Ok Y).
Proof.
  intros Hcl Hfree. setoid_rewrite gather_root_ok. set (p := au_process_id r).
  destruct (gather_spec s (walk_fuel s) [p] X) as [(Y & E & HY & Hc & Hpe & Hx)|[E (q & x & Hq & Hb & Ho)]].
  { unfold walk_fuel. rewrite <- cost_all. simpl. pose proof (cost_mono (map_to_list (children (tree s))) ∅ X ltac:(set_solver)). lia. }
  { intros q c Hq Hqc. destruct (Hcl q c Hq Hqc) as [?|?%not_elem_of_nil]; [by left|done]. }
  - assert (∀ x, x ∈ Y ↔ x ∈ X ∨ below s p x) as Hiff.
    { intros x. split; [intros [?|[_ (q & ->%list_elem_of_singleton & ?)]]%Hx; auto|].
      intros [?|Hb]; [by apply HY|]. eapply walk_closed_below; [done| |exact Hb]. apply Hpe. set_solver. }
    rewrite E. split; [|intros Hg; destruct (Hg r) as (Hr & Ha & _); [set_solver|]; by exists Y].
    intros Y' (Hr & Ha & [= <-]). split_and!; [|done|done]. intros r' ->%list_elem_of_singleton. split_and!; [done..|].
    intros x Hb. destruct (Hx x) as [?|[? _]]; [apply Hiff; by right|auto|done].
  - rewrite E. split; [by intros Y (_ & _ & ?)|]. apply list_elem_of_singleton in Hq as ->.
    intros Hg. destruct (Hg r) as (_ & _ & Hf); [set_solver|]. specialize (Hf x Hb). congruence.
Qed.
Lemma gather_roots_spec s peer roots X :
  walk_closed s [] X → (∀ x, x ∈ X → tree_teardown_owns s x = false) →
  (∀ Y, gather_roots same s peer X roots = Ok Y →
    gatherable s peer roots ∧ ∀ x, x ∈ Y ↔ x ∈ X ∨ ∃ r, r ∈ roots ∧ below s (au_process_id r) x) ∧
  (gatherable s peer roots → ∃ Y, gather_roots same s peer X roots = Ok Y).
Proof.
  revert X. induction roots as [|r roots IH]; intros X Hcl Hfree; simpl.
  { split; [|by eexists]. intros Y [= <-]. split; [by intros r ?%not_elem_of_nil|]. set_solver. }
  destruct (gather_root_spec s peer X r Hcl Hfree) as [Hg1 Hg2].
  destruct (gather_root same s peer X r) as [X1|e]; simpl.
  - destruct (Hg1 X1 eq_refl) as (Hr & Hcl1 & Hx1). specialize (Hr r ltac:(set_solver)).
    destruct (IH X1 Hcl1) as [IH1 IH2]; [intros x [?|?]%Hx1; [auto|by apply Hr]|]. split.
    + intros Y [Hg Hx]%IH1. split; [intros r' [->|?]%elem_of_cons; [done|by apply Hg]|]. intros x. rewrite Hx, Hx1. set_solver.
    + intros Hg. apply IH2. intros r' ?. apply Hg. set_solver.
  - split; [done|]. intros Hg. destruct Hg2 as [Y ?]; [|done]. intros r' ->%list_elem_of_singleton. apply Hg. set_solver.
Qed.
(** Collecting the members of a launch domain always ends; it succeeds
    exactly when every root is the caller or was launched by it and is the
    process its handle names, and no process below a root is being torn
    down, and then the members are exactly the processes below the roots. *)
Theorem domain_members_exact s peer roots :
  (∀ members, gather_roots same s peer ∅ roots = Ok members →
    gatherable s peer roots ∧ ∀ x, x ∈ members ↔ ∃ r, r ∈ roots ∧ below s (au_process_id r) x) ∧
  (gatherable s peer roots → ∃ members, gather_roots same s peer ∅ roots = Ok members).
Proof.
  destruct (gather_roots_spec s peer roots ∅) as [H1 H2]; [by intros p c ?%not_elem_of_empty|by intros x ?%not_elem_of_empty|].
  split; [|done]. intros members [Hg Hx]%H1. split; [done|]. set_solver.
Qed.

(** ** Forks *)

(** What the preparation [f] of [owner] holds of the state it was made in. *)
Record froze (s : Service) (owner : Z) (f : ForkState) : Prop := mkFroze {
  fz_owner : f_owner f = owner;
  fz_session : session_of s owner = Some (f_session f);
  fz_group : group_of s owner = Some (f_group f);
  fz_session_id : session_id s owner = Some (f_session_id f);
  fz_signals : ∃ sg, signals (table s) !! owner = Some sg ∧ f_signals f = fork_child sg;
  fz_options : f_child_options f = default 0 (signal_child_options (table s) !! owner);
  fz_groups : f_groups f = default [] (supplementary_groups (accounts s) !! owner);
  fz_limits : f_limits f = limits_of (accounts s) owner;
}.
Lemma record_fork_froze ag alim ae owner revision token next (w w1 : World) t :
  record_fork ag alim ae owner revision token next w = (w1, Ok t) →
  t = token ∧ ∃ f, froze (svc w) owner f ∧ (token, f) ∈ prepared_forks (forks (svc w1)).
Proof.
  unfold record_fork. intros H.
  apply bind_ok in H as (x1 & session & [-> Hs]%service_need & H). apply bind_ok in H as (x2 & u & [-> _]%service_reads & H).
  apply bind_ok in H as (x3 & group & [-> Hg]%service_need & H). apply bind_ok in H as (x4 & sid & [-> Hi]%service_need & H).
  apply bind_ok in H as (x5 & sg & [-> Hsg]%service_need & H). apply bind_ok in H as (x6 & opts & [-> Ho]%service_gets & H).
  apply bind_ok in H as (x7 & groups & [-> Hgr]%service_gets & H). apply bind_ok in H as (x8 & u2 & [-> _]%guard_ok & H).
  apply bind_ok in H as (x9 & limits & [-> Hl]%service_gets & H). apply bind_ok in H as (x10 & u3 & [-> _]%guard_ok & H).
  apply bind_ok in H as (x11 & parent & [-> _]%service_gets & H). apply bind_ok in H as (x12 & dirs & _ & H).
  apply bind_ok in H as (x13 & u4 & Hm & H). unfold service, modify in Hm. unfold mret, stM_ret in H. simplify_eq/=. split; [done|].
  eexists (mkFork _ _ _ _ _ _ _ _ _ _). split; [|apply elem_of_app; right; by apply list_elem_of_singleton].
  split; simpl; try done. by eexists.
Qed.
Lemma prepare_fork_froze ag alim ae owner (w w1 : World) token :
  prepare_fork ag alim ae owner w = (w1, Ok token) →
  ∃ f, froze (svc w) owner f ∧ (token, f) ∈ prepared_forks (forks (svc w1)).
Proof.
  unfold prepare_fork. intros H.
  apply bind_ok in H as (x1 & h & [-> _]%service_need & H). apply bind_ok in H as (x2 & ws & [-> _]%service_need & H).
  apply bind_ok in H as (x3 & n & Hsw & H). apply bind_ok in H as (x4 & b & [-> _]%service_gets & H).
  apply bind_ok in H as (x5 & u & [-> _]%guard_ok & H). apply bind_ok in H as (x6 & tk & [-> Htk]%service_gets & H).
  apply bind_ok in H as (x7 & next & [-> Hn]%lift_ok & H). apply record_fork_froze in H as [-> (f & Hf & Hin)].
  exists f. split; [|done]. unfold reap_invalidated_forks in Hsw.
  destruct (sweep_forks_spec (λ x, negb (fork_matches_image (svc w) x.2)) w) as (l & E & _).
  destruct (sweep_forks _ w) as [w3 n3]. simplify_eq/=. rewrite E in Hf. by destruct Hf.
Qed.
Lemma limits_listed a p r l : resource_limits a !! (p, r) = Some l ↔ (r, l) ∈ limits_of a p.
Proof.
  unfold limits_of. rewrite list_elem_of_omap. setoid_rewrite elem_in_order. setoid_rewrite list_elem_of_omap. split.
  - intros Hl. exists r. split; [|by rewrite Hl]. exists ((p, r), l). rewrite elem_of_map_to_list. split; [done|]. simpl. by rewrite Z.eqb_refl.
  - intros (r' & _ & H). destruct (resource_limits a !! (p, r')) eqn:E; simplify_eq/=. done.
Qed.
Lemma foldl_limits (c r : Z) (l : ResourceLimit) (L : list (Z * ResourceLimit)) (m : gmap (Z * Z) ResourceLimit) :
  (∀ l', (r, l') ∈ L → l' = l) → (r, l) ∈ L ∨ m !! (c, r) = Some l →
  foldl (λ m x, <[(c, x.1) := x.2]> m) m L !! (c, r) = Some l.
Proof.
  revert m. induction L as [|[r' l'] L IH]; intros m Hu Hin; simpl; [by destruct Hin as [?%not_elem_of_nil|]|].
  apply IH; [set_solver|]. destruct (decide (r' = r)) as [->|Hne].
  - right. rewrite lookup_insert_eq. f_equal. apply Hu. set_solver.
  - rewrite lookup_insert_ne by congruence. destruct Hin as [[?|?]%elem_of_cons|?]; [congruence|by left|by right].
Qed.
Lemma commit_inv alloc peer token process s s' :
  commit_fork alloc peer token process s = (s', Ok tt) →
  ∃ i f d, prepared_forks (forks s) !! i = Some (token, f) ∧
    s' = install_child (au_process_id process) (au_handle process) d f (set_prepared s (swap_remove i (prepared_forks (forks s)))).
Proof.
  unfold commit_fork. destruct (fork_index s peer token ≫= _) as [[[i f] d]|e] eqn:E; [|done]. intros [= <-].
  destruct (fork_index s peer token) as [[i' f']|] eqn:Ei; [|done]. inv_result. apply fork_index_spec in Ei as [Hi _].
  by exists i, f, d.
Qed.
(** What [c] has in [s'] of what [owner] had in [s]. *)
Record inherits (s : Service) (owner : Z) (s' : Service) (c : Z) : Prop := mkInherits {
  ih_parent : parent_of s' c = Some owner;
  ih_session : ∃ x, session_of s owner = Some x ∧
    session_of s' c = Some (mkSession c (real_uid x) (effective_uid x) (saved_uid x) (real_gid x) (effective_gid x)
                              (saved_gid x) (umask x));
  ih_groups : supplementary_groups (accounts s') !! c = Some (default [] (supplementary_groups (accounts s) !! owner));
  ih_limits : ∀ r l, resource_limits (accounts s) !! (owner, r) = Some l → resource_limits (accounts s') !! (c, r) = Some l;
  ih_group : group_of s' c = group_of s owner;
  ih_session_id : session_id s' c = session_id s owner;
  ih_signals : ∃ sg, signals (table s) !! owner = Some sg ∧ signals (table s') !! c = Some (fork_child sg);
  ih_options : signal_child_options (table s') !! c = Some (default 0 (signal_child_options (table s) !! owner));
  ih_wait : wait_state s' c = Some wait_state_default;
}.
Lemma install_inherits s owner f c handle d s2 :
  froze s owner f → inherits s owner (install_child c handle d f s2) c.
Proof.
  intros [Z1 Z2 Z3 Z4 (sg & Z5 & Z6) Z7 Z8 Z9]. unfold install_child. set (s3 := if bool_decide (d = []) then _ else _). set (s4 := with_accounts s3 _).
  assert (parent_of s4 c = Some owner) as Hp.
  { unfold parent_of. subst s4 s3. simpl. destruct (bool_decide _); simpl; by rewrite lookup_insert_eq, Z1. }
  assert (accounts (match f_directories f with Some d => with_directories s4 (<[c := d]> (directories s4)) | None => s4 end) = accounts s4 ∧
    tree (match f_directories f with Some d => with_directories s4 (<[c := d]> (directories s4)) | None => s4 end) = tree s4) as [Ea Et]
    by (by destruct (f_directories f)).
  set (s5 := match f_directories f with Some d => _ | None => s4 end) in *. clearbody s5. split; simpl.
  - unfold parent_of in *. simpl. by rewrite Et.
  - exists (f_session f). split; [done|]. unfold session_of. simpl. rewrite Ea. subst s4. simpl. by rewrite lookup_insert_eq.
  - rewrite Ea. subst s4. simpl. rewrite lookup_insert_eq. by rewrite Z8.
  - intros r l Hr. rewrite Ea. subst s4. simpl. rewrite Z9. apply foldl_limits; [|left; by apply limits_listed].
    intros l' Hl'%limits_listed. congruence.
  - unfold group_of. simpl. by rewrite lookup_insert_eq.
  - unfold session_id. simpl. by rewrite lookup_insert_eq.
  - exists sg. split; [done|]. rewrite lookup_insert_eq. by rewrite Z6.
  - rewrite lookup_insert_eq. by rewrite Z7.
  - unfold wait_state. simpl. by rewrite lookup_insert_eq.
Qed.
Lemma token_unique f ps token i x y :
  forks_ok f ps → prepared_forks f !! i = Some (token, x) → (token, y) ∈ prepared_forks f → x = y.
Proof.
  intros [Hnd _] Hi [j Hj]%list_elem_of_lookup. assert (i = j) as ->; [|congruence].
  eapply NoDup_lookup; [exact Hnd| |]; rewrite list_lookup_fmap; [by rewrite Hi|by rewrite Hj].
Qed.
Lemma token_consumed f ps token i x p :
  forks_ok f ps → prepared_forks f !! i = Some (token, x) → p ∈ swap_remove i (prepared_forks f) → p.1 ≠ token.
Proof.
  intros [Hnd _] Hi Hp. pose proof (swap_remove_perm _ _ _ Hi) as Hperm. rewrite <- Hperm in Hnd. simpl in Hnd.
  apply NoDup_cons in Hnd as [Hn _]. intros <-. by apply Hn, list_elem_of_fmap_2.
Qed.
End Theorems.

(** ** Instances *)


(** Process 2 has exited and its parent waits. *)
Definition example_zombie : ExampleWorld := outside {[1 := alive; 2 := dead; 3 := alive; 4 := alive]} example_family.
Definition example_wait : ChildRequest := mkChildRequest (-1) WAIT_UNTRACED.
Lemma example_zombie_reachable : service_reachable example_same example_zombie.
Proof. exact (reached_by example_family _ example_family_reachable (st_outside _ example_family _ _)). Qed.
Lemma example_waited :
  (wait_child_observation_with_reply 1 example_wait true (λ _ _, true) example_zombie).2 = Ok (Some (mkWaitInfo 2 0 0)).
Proof. vm_compute. reflexivity. Qed.

Lemma launched_tree_exact_witness :
  ∃ l, launched_tree_process_ids (svc example_family) 1 2 = Ok l ∧ launched (svc example_family) 2 l.
Proof. apply (launched_tree_exact example_same); [apply example_family_reachable|vm_compute; reflexivity..]. Defined.

Lemma result_of {A C} (x : A * C) c : x.2 = c → x = (x.1, c).
Proof. intros <-. apply surjective_pairing. Qed.
Lemma example_prepares : prepare_fork true true true 2 example_joined = (example_prepared, Ok 4).
Proof. unfold example_prepared. apply result_of. vm_compute. reflexivity. Qed.
Lemma example_commits : commit_fork true 2 4 (process_of 5) (svc example_moved) = (svc example_forked, Ok tt).
Proof. apply injective_projections; vm_compute; reflexivity. Qed.
Lemma example_still_prepared : prepared_forks (forks (svc example_moved)) = prepared_forks (forks (svc example_prepared)).
Proof. vm_compute. reflexivity. Qed.
Lemma domain_members_exact_witness :
  (∀ members, gather_roots example_same (svc example_family) 1 ∅ [process_of 2] = Ok members →
    gatherable example_same (svc example_family) 1 [process_of 2] ∧
    ∀ x, x ∈ members ↔ ∃ r, r ∈ [process_of 2] ∧ below (svc example_family) (au_process_id r) x) ∧
  (gatherable example_same (svc example_family) 1 [process_of 2] →
    ∃ members, gather_roots example_same (svc example_family) 1 ∅ [process_of 2] = Ok members).
Proof. apply (domain_members_exact example_same). Defined.
