(* ===== verification/JobTheorems.v ===== *)
(** * Whom signals reach

    The signals that the service sends to several processes at once: [kill]
    ([send_signal]) reaches exactly the processes that are selected and that
    the caller may signal, and the members of a newly orphaned process group
    with a stopped member are hung up and continued
    ([notify_newly_orphaned_groups]). *)

From stdpp Require Import fin_maps sorting.
From S2P Require Import Prelude RecordLock LockExec Reach RecordLockWait TimerSchedule PosixProtocol.
From S2P Require Import ProcessTimer Credentials SignalState Signals SignalProofs SignalTheorems Service.
From S2P Require Import Lifecycle Fork Launch ChildWait Jobs ServiceFrame ProcessTree ServiceProofs.
From S2P Require Import ServiceSteps ServiceExample.

Section Signalled.
Context {LK : LockKind} {PP : PosixProtocol} {AP : AccountProtocol} {SC : SignalCodec} {VC : ServiceCodec}.
Context {SN : @SignalNumbers PP} {SL : SignalCodecLaws}.

(** [signal] generated for each process of [L], and for no other. *)
Record signalled (L : list Z) (signal : Z) (t t' : SignalTable) : Prop := mkSignalled {
  sd_ok : signals_ok t';
  sd_pend : ∀ q th x, pend t' q th x =
    if decide (q ∈ L) then
      (pend t q th x && negb (in_mask (cancelled_by signal) x)) ||
      ((th =? 0) && (x =? signal) && negb (in_mask (ignored_of t q) signal))
    else pend t q th x;
  sd_ignored : ∀ q, ignored_of t' q = ignored_of t q;
  sd_others : ∀ q, q ∉ L → signals t' !! q = signals t !! q ∧ process_wait_states t' !! q = process_wait_states t !! q;
  sd_domain : ∀ q, is_Some (signals t' !! q) ↔ is_Some (signals t !! q);
}.
Lemma signalled_nil signal t : signals_ok t → signalled [] signal t t.
Proof. by split. Qed.
Lemma signalled_cons p L signal origin t t1 t2 :
  p ∉ L → enqueued p signal origin t t1 → signalled L signal t1 t2 → signalled (p :: L) signal t t2.
Proof.
  intros Hp [E1 E2 E3 _ _ E6 E7 _] [S1 S2 S3 S4 S5]. split; try done.
  - intros q th x. rewrite S2, !E2, (proj1 (E3 q)). destruct (decide (q = p)) as [->|Hne].
    + rewrite (decide_False (P := p ∈ L)), decide_True by set_solver. by rewrite Z.eqb_refl.
    + rewrite (proj2 (Z.eqb_neq q p)) by done. simpl. rewrite andb_true_r, orb_false_r.
      destruct (decide (q ∈ L)); [rewrite decide_True by (by apply elem_of_cons; right)|rewrite decide_False by (rewrite elem_of_cons; tauto)]; done.
  - intros q. by rewrite S3, (proj1 (E3 q)).
  - intros q [Hq1 Hq2]%not_elem_of_cons. destruct (S4 q Hq2) as [-> ->]. by apply E6.
  - intros q. by rewrite S5.
Qed.

(** ** The calls that signal several processes *)

Lemma on_table_run {A} (m : stM SignalTable Z A) s t r : m (table s) = (t, r) → on_table m s = (with_table s t, r).
Proof. unfold on_table. by intros ->. Qed.
Lemma signal_each signal L s :
  signals_ok (table s) → 1 ≤ signal ≤ SIGNAL_MAX → NoDup L → (∀ p, p ∈ L → is_Some (signals (table s) !! p)) →
  ∃ t, st_each (λ p, signal_process p signal) L s = (with_table s t, Ok tt) ∧ signalled L signal (table s) t.
Proof.
  intros Hok Hr. pose proof signal_max_bits as Hm. revert s Hok. induction L as [|p L IH]; intros s Hok Hnd Hin.
  { exists (table s). split; [by destruct s|by apply signalled_nil]. }
  apply NoDup_cons in Hnd as [Hp Hnd]. destruct (enqueue_spec p signal origin_system (table s)) as (t1 & E & Hen); [done|lia|apply Hin; set_solver|].
  destruct (IH (with_table s t1)) as (t2 & E2 & Hs2); [apply Hen|done| |].
  { intros q Hq. apply (en_domain _ _ _ _ _ Hen), Hin. set_solver. }
  exists t2. split; [|by eapply signalled_cons]. simpl. unfold mbind, stM_bind, signal_process, enqueue_signal.
  by rewrite (on_table_run _ _ _ _ E).
Qed.
(** The caller may send [signal] to [q]. *)
Definition allowed (s : Service) (caller_id : Z) (caller : Session) (signal q : Z) : bool :=
  match session_of s q with Some x => may_signal s caller_id caller q x signal | None => false end.
Lemma send_to_allowed s caller_id caller signal p :
  send_to caller_id caller signal p s =
  if allowed s caller_id caller signal p then
    ((if negb (signal =? 0) then on_table (enqueue_signal_with_origin p signal (user_origin caller_id caller))
      else mret tt);; mret true) s
  else (s, Ok false).
Proof. unfold send_to, allowed. destruct (session_of s p); [|done]. by destruct (may_signal _ _ _ _ _ _). Qed.
Lemma send_each caller_id caller signal L n s :
  signals_ok (table s) → 1 ≤ signal ≤ SIGNAL_MAX → NoDup L → (∀ p, p ∈ L → is_Some (signals (table s) !! p)) →
  let reached := filter (λ q, allowed s caller_id caller signal q = true) L in
  ∃ t, st_count (send_to caller_id caller signal) L n s = (with_table s t, Ok (n + zlen reached)) ∧
    signalled reached signal (table s) t ∧ (reached = [] → t = table s).
Proof.
  intros Hok Hr. pose proof signal_max_bits as Hm. cbv zeta. revert s n Hok. induction L as [|p L IH]; intros s n Hok Hnd Hin.
  { exists (table s). split; [destruct s; simpl; by rewrite Z.add_0_r|]. split; [by apply signalled_nil|done]. }
  apply NoDup_cons in Hnd as [Hp Hnd]. simpl. unfold mbind, stM_bind. rewrite send_to_allowed.
  destruct (allowed s caller_id caller signal p) eqn:Ha; [rewrite filter_cons_True by done|rewrite filter_cons_False by congruence].
  2:{ apply IH; [done|done|]. intros q Hq. apply Hin. set_solver. }
  rewrite (proj2 (Z.eqb_neq signal 0)) by lia. simpl.
  destruct (enqueue_spec p signal (user_origin caller_id caller) (table s)) as (t1 & E & Hen); [done|lia|apply Hin; set_solver|].
  unfold mbind, stM_bind. rewrite (on_table_run _ _ _ _ E). simpl.
  destruct (IH (with_table s t1) (n + 1)) as (t2 & E2 & Hs2 & _); [apply Hen|done| |].
  { intros q Hq. apply (en_domain _ _ _ _ _ Hen), Hin. set_solver. }
  exists t2. rewrite E2. split; [|split; [|done]].
  { f_equal; f_equal; unfold zlen; simpl; change (allowed (with_table s t1)) with (allowed s); lia. }
  eapply signalled_cons; [|exact Hen|exact Hs2]. rewrite list_elem_of_filter. tauto.
Qed.
Lemma probe_each caller_id caller L n s :
  st_count (send_to caller_id caller 0) L n s = (s, Ok (n + zlen (filter (λ q, allowed s caller_id caller 0 q = true) L))).
Proof.
  revert n. induction L as [|p L IH]; intros n; simpl; [unfold zlen; simpl; by rewrite Z.add_0_r|].
  unfold mbind, stM_bind. rewrite send_to_allowed.
  destruct (allowed s caller_id caller 0 p) eqn:Ha; [rewrite filter_cons_True by done|rewrite filter_cons_False by congruence; apply IH].
  simpl. rewrite IH. do 2 f_equal. unfold zlen. simpl. lia.
Qed.
Lemma keys_elem {A} (m : gmap Z A) q : q ∈ keys_in_order m ↔ is_Some (m !! q).
Proof.
  unfold keys_in_order. rewrite elem_in_order, list_elem_of_fmap. split.
  - intros ([k v] & -> & H%elem_of_map_to_list). by eexists.
  - intros [v Hv]. exists (q, v). split; [done|by apply elem_of_map_to_list].
Qed.
Lemma keys_nodup {A} (m : gmap Z A) : NoDup (keys_in_order m).
Proof. unfold keys_in_order. rewrite in_order_perm. apply NoDup_fst_map_to_list. Qed.
Lemma length_zero {A} (l : list A) : zlen l = 0 ↔ l = [].
Proof. unfold zlen. destruct l; simpl; [done|]. split; [lia|done]. Qed.
(** [kill] selects [q]; it also reaches it. *)
Definition kill_selects (s : Service) (group selector q : Z) : Prop :=
  is_Some (session_of s q) ∧ selects_target s group selector q = true.
Definition kill_reaches (s : Service) (caller_id : Z) (caller : Session) (group selector signal q : Z) : Prop :=
  kill_selects s group selector q ∧ allowed s caller_id caller signal q = true.
Lemma kill_targets s caller_id caller signal L n :
  signals_ok (table s) → 0 ≤ signal ≤ SIGNAL_MAX → NoDup L → (∀ p, p ∈ L → is_Some (signals (table s) !! p)) →
  let reached := filter (λ q, allowed s caller_id caller signal q = true) L in
  ∃ t, st_count (send_to caller_id caller signal) L n s = (with_table s t, Ok (n + zlen reached)) ∧
    (if signal =? 0 then t = table s else signalled reached signal (table s) t) ∧ (reached = [] → t = table s).
Proof.
  intros Hok Hr Hnd Hin. cbv zeta. destruct (Z.eqb_spec signal 0) as [->|Hne].
  - exists (table s). rewrite probe_each. split_and!; [by destruct s|done..].
  - apply send_each; [done|lia|done|done].
Qed.
Lemma send_signal_spec s caller_id payload selector signal caller group :
  service_ok s → decode_signal_send_request payload = Some (selector, signal) → selector ≠ I64_MIN →
  session_of s caller_id = Some caller → group_of s caller_id = Some group →
  match send_signal caller_id payload s with
  | (s', Err e) => s' = s ∧
      (e = STATUS_ESRCH ∧ (∀ q, ¬ kill_selects s group selector q) ∨
       e = STATUS_EPERM ∧ (∃ q, kill_selects s group selector q) ∧ ∀ q, ¬ kill_reaches s caller_id caller group selector signal q)
  | (s', Ok _) => ∃ L t, s' = with_table s t ∧ L ≠ [] ∧ (∀ q, q ∈ L ↔ kill_reaches s caller_id caller group selector signal q) ∧
      if signal =? 0 then t = table s else signalled L signal (table s) t
  end.
Proof.
  intros Hok Hd Hsel Hc Hg. unfold send_signal, mbind, stM_bind, st_lift, need, guard, gets. simpl. rewrite Hd. simpl. rewrite Hc. simpl. rewrite Hg. simpl.
  rewrite (proj2 (Z.eqb_neq selector I64_MIN)) by done. simpl. set (targets := filter _ _).
  assert (∀ q, q ∈ targets ↔ kill_selects s group selector q) as Ht.
  { intros q. subst targets. rewrite list_elem_of_filter, keys_elem. unfold kill_selects, session_of. tauto. }
  assert (NoDup targets) as Hnd by apply NoDup_filter, keys_nodup. clearbody targets.
  case_bool_decide as E; simpl.
  { split; [done|]. left. split; [done|]. intros q Hq%Ht. rewrite E in Hq. by apply not_elem_of_nil in Hq. }
  destruct (kill_targets s caller_id caller signal targets 0) as (t & Er & Hsg & Hnil).
  { apply Hok. } { by eapply decode_send_range. } { done. }
  { intros p [Hp _]%Ht. by apply (ok_signals _ Hok), (ok_sessions _ Hok). }
  rewrite Er, Z.add_0_l. cbn [fst snd]. set (L := filter _ targets) in *.
  assert (∀ q, q ∈ L ↔ kill_reaches s caller_id caller group selector signal q) as HL.
  { intros q. subst L. rewrite list_elem_of_filter, Ht. unfold kill_reaches. tauto. }
  destruct (Z.eqb_spec (zlen L) 0) as [H0%length_zero|H0]; simpl.
  - rewrite (Hnil H0). split; [by destruct s|]. right. split_and!; [done| |].
    + destruct targets as [|q l]; [done|]. exists q. apply Ht. set_solver.
    + intros q Hq%HL. rewrite H0 in Hq. by apply not_elem_of_nil in Hq.
  - exists L, t. split_and!; [done| |done..]. intros EL. by apply H0, length_zero.
Qed.

(** ** Orphaned process groups *)

(** Each process of [L] hung up and continued, and no other one touched. *)
Record hung_up (L : list Z) (t t' : SignalTable) : Prop := mkHungUp {
  hu_ok : signals_ok t';
  hu_hup : ∀ q, q ∈ L → in_mask (ignored_of t q) SIGNAL_HUP = false → pend t' q 0 SIGNAL_HUP = true;
  hu_cont : ∀ q, q ∈ L → in_mask (ignored_of t q) SIGNAL_CONT = false → pend t' q 0 SIGNAL_CONT = true;
  hu_stops : ∀ q th x, q ∈ L → is_stop x = true → pend t' q th x = false;
  hu_ignored : ∀ q, ignored_of t' q = ignored_of t q;
  hu_others : ∀ q, q ∉ L → signals t' !! q = signals t !! q ∧ process_wait_states t' !! q = process_wait_states t !! q ∧
    ∀ th x, pend t' q th x = pend t q th x;
  hu_domain : ∀ q, is_Some (signals t' !! q) ↔ is_Some (signals t !! q);
}.
Lemma named_pick x : x ∈ named_signals → 1 ≤ x ≤ SIGNAL_MAX.
Proof. apply named_in. Qed.
Lemma hup_not_cont : SIGNAL_HUP ≠ SIGNAL_CONT ∧ is_stop SIGNAL_HUP = false ∧ is_stop SIGNAL_CONT = false.
Proof.
  pose proof named_signals_distinct as H. unfold named_signals, stop_signals in H. simpl in H. rewrite !NoDup_cons in H.
  destruct H as (H1 & _ & _ & _ & H2 & _). unfold is_stop, stop_signals. rewrite !bool_decide_eq_false.
  rewrite !not_elem_of_cons in *. tauto.
Qed.
Lemma hung_up_members L t t1 t2 : signalled L SIGNAL_HUP t t1 → signalled L SIGNAL_CONT t1 t2 → hung_up L t t2.
Proof.
  intros [A1 A2 A3 A4 A5] [B1 B2 B3 B4 B5]. destruct hup_not_cont as (N1 & N2 & N3).
  assert (1 ≤ SIGNAL_HUP) by (apply named_pick; unfold named_signals; set_solver).
  assert (1 ≤ SIGNAL_CONT) by (apply named_pick; unfold named_signals; set_solver).
  split; try done.
  - intros q Hq Hi. rewrite B2, A2, !decide_True by done. rewrite (in_cancelled SIGNAL_CONT), (Z.eqb_refl SIGNAL_CONT), N2, Hi by done.
    rewrite (Z.eqb_refl SIGNAL_HUP). simpl. by rewrite orb_true_r.
  - intros q Hq Hi. rewrite B2, decide_True by done. rewrite A3, Hi, (Z.eqb_refl SIGNAL_CONT). simpl. by rewrite orb_true_r.
  - intros q th x Hq Hx. rewrite B2, decide_True by done. rewrite in_cancelled, Z.eqb_refl, Hx by done. simpl.
    rewrite andb_false_r. simpl. assert (x ≠ SIGNAL_CONT) as Hne by congruence. rewrite (proj2 (Z.eqb_neq _ _) Hne). by rewrite andb_false_r.
  - intros q. by rewrite B3.
  - intros q Hq. destruct (B4 q Hq) as [-> ->]. destruct (A4 q Hq) as [-> ->]. split_and!; [done..|].
    intros th x. by rewrite B2, A2, !decide_False.
  - intros q. by rewrite B5.
Qed.
Lemma hung_up_nil t : signals_ok t → hung_up [] t t.
Proof. intros Hok. split; try done; intros; set_solver. Qed.
Lemma hung_up_app L1 L2 t t1 t2 :
  (∀ q, q ∈ L1 → q ∉ L2) → hung_up L1 t t1 → hung_up L2 t1 t2 → hung_up (L1 ++ L2) t t2.
Proof.
  intros Hd [A1 A2 A3 A4 A5 A6 A7] [B1 B2 B3 B4 B5 B6 B7]. split; try done.
  - intros q [Hq|Hq]%elem_of_app Hi; [|apply B2; [done|by rewrite A5]].
    destruct (B6 q (Hd q Hq)) as (_ & _ & ->). by apply A2.
  - intros q [Hq|Hq]%elem_of_app Hi; [|apply B3; [done|by rewrite A5]].
    destruct (B6 q (Hd q Hq)) as (_ & _ & ->). by apply A3.
  - intros q th x [Hq|Hq]%elem_of_app Hx; [|by apply B4]. destruct (B6 q (Hd q Hq)) as (_ & _ & ->). by apply A4.
  - intros q. by rewrite B5.
  - intros q [Hq1 Hq2]%not_elem_of_app. destruct (B6 q Hq2) as (-> & -> & Hb). destruct (A6 q Hq1) as (-> & -> & Ha).
    split_and!; [done..|]. intros th x. by rewrite Hb.
  - intros q. by rewrite B7.
Qed.
(** The members of a group that an orphaning signals. *)
Definition due (s : Service) (g : Z * Z) : list Z :=
  let l := live_members s g.1 g.2 in if existsb (is_stopped_process s) l then l else [].
Lemma live_elem s g q : q ∈ live_members s g.1 g.2 ↔
  not_exited s q = true ∧ session_id s q = Some g.1 ∧ group_of s q = Some g.2.
Proof.
  unfold live_members, group_members. rewrite !list_elem_of_filter, keys_elem. unfold in_group.
  rewrite andb_true_iff, !bool_decide_eq_true. unfold group_of. naive_solver.
Qed.
Lemma hangup_group_spec s g :
  service_ok s → ∃ t, hangup_group g s = (with_table s t, Ok tt) ∧ hung_up (due s g) (table s) t.
Proof.
  intros Hok. unfold hangup_group, due. set (l := live_members s g.1 g.2). destruct (existsb _ l); simpl.
  2:{ exists (table s). split; [by destruct s|]. apply hung_up_nil, Hok. }
  assert (NoDup l) as Hnd by (apply NoDup_filter, NoDup_filter, keys_nodup).
  assert (∀ p, p ∈ l → is_Some (signals (table s) !! p)) as Hin.
  { intros p (_ & _ & Hg)%live_elem. by apply (ok_signals _ Hok), (ok_groups _ Hok). }
  destruct (signal_each SIGNAL_HUP l s) as (t1 & E1 & S1); [apply Hok|apply named_pick; unfold named_signals; set_solver|done..|].
  destruct (signal_each SIGNAL_CONT l (with_table s t1)) as (t2 & E2 & S2);
    [apply S1|apply named_pick; unfold named_signals; set_solver|done|intros p Hp; by apply (sd_domain _ _ _ _ S1), Hin|].
  exists t2. unfold mbind, stM_bind. rewrite E1, E2. split; [done|by eapply hung_up_members].
Qed.
Lemma filter_same (f g : Z → bool) (l : list Z) : (∀ x, x ∈ l → f x = g x) → filter (λ x, f x = true) l = filter (λ x, g x = true) l.
Proof.
  induction l as [|x l IH]; intros H; [done|]. rewrite !filter_cons, IH by set_solver. rewrite (H x) by set_solver. done.
Qed.
Lemma existsb_same (f g : Z → bool) (l : list Z) : (∀ x, x ∈ l → f x = g x) → existsb f l = existsb g l.
Proof. induction l as [|x l IH]; intros H; simpl; [done|]. by rewrite IH, (H x) by set_solver. Qed.
Lemma bind_same {A} (f g : A → list Z) (l : list A) : (∀ x, x ∈ l → f x = g x) → l ≫= f = l ≫= g.
Proof. induction l as [|x l IH]; intros H; csimpl; [done|]. by rewrite IH, (H x) by set_solver. Qed.
Lemma due_others s t g g' :
  hung_up (due s g) (table s) t → g ≠ g' → due (with_table s t) g' = due s g'.
Proof.
  intros Hh Hne. assert (∀ q, group_of s q = Some g'.2 → session_id s q = Some g'.1 → process_wait_states t !! q = wait_state s q) as Hq.
  { intros q Hg Hs. apply (hu_others _ _ _ Hh). unfold due. destruct (existsb _ _); [|set_solver].
    intros (_ & ? & ?)%live_elem. destruct g, g'. simpl in *. congruence. }
  unfold due. assert (∀ q, q ∈ group_members s g'.1 g'.2 → wait_state (with_table s t) q = wait_state s q) as Hm.
  { intros q [Hin _]%list_elem_of_filter. unfold in_group in Hin. apply andb_true_iff in Hin as [?%bool_decide_eq_true ?%bool_decide_eq_true].
    by apply Hq. }
  assert (live_members (with_table s t) g'.1 g'.2 = live_members s g'.1 g'.2) as ->.
  { unfold live_members. change (group_members (with_table s t)) with (group_members s). apply filter_same.
    intros q Hin. unfold not_exited. by rewrite Hm. }
  rewrite (existsb_same (is_stopped_process (with_table s t)) (is_stopped_process s)); [done|].
  intros q [_ Hin]%list_elem_of_filter. unfold is_stopped_process. by rewrite Hm.
Qed.
Lemma hangup_groups_spec G s :
  service_ok s → NoDup G →
  ∃ t, st_each hangup_group G s = (with_table s t, Ok tt) ∧ hung_up (G ≫= due s) (table s) t.
Proof.
  revert s. induction G as [|g G IH]; intros s Hok Hnd.
  { exists (table s). split; [by destruct s|apply hung_up_nil, Hok]. }
  apply NoDup_cons in Hnd as [Hg Hnd]. destruct (hangup_group_spec s g Hok) as (t1 & E1 & H1).
  assert (service_ok (with_table s t1)) as Hok1.
  { eapply ok_light; [exact Hok|]. pose proof (light_hangup_group g s) as Hl. by rewrite E1 in Hl. }
  destruct (IH (with_table s t1) Hok1 Hnd) as (t2 & E2 & H2). exists t2. simpl. unfold mbind at 1, stM_bind. rewrite E1, E2.
  split; [done|]. eapply hung_up_app; [|exact H1|].
  - intros q Hq (g' & Hq' & Hg')%list_elem_of_bind. unfold due in Hq, Hq'. destruct (existsb _ _) in Hq; [|set_solver].
    destruct (existsb _ _) in Hq'; [|set_solver]. apply live_elem in Hq as (_ & ? & ?), Hq' as (_ & ? & ?).
    assert (g = g') as -> by (destruct g, g'; simpl in *; congruence). done.
  - change (hung_up (G ≫= due s) t1 t2). enough (G ≫= due (with_table s t1) = G ≫= due s) as <- by done. apply bind_same. intros g' Hg'. apply (due_others _ _ g); [done|congruence].
Qed.
(** [q] is a live member of a group that has become orphaned since [before]
    and that has a stopped member. *)
Definition newly_orphaned (s : Service) (before : gset (Z * Z)) (q : Z) : Prop :=
  ∃ g, g ∈ before ∧ (g ∉ non_orphaned_groups s) ∧ q ∈ live_members s g.1 g.2 ∧
    ∃ m, m ∈ live_members s g.1 g.2 ∧ is_stopped_process s m = true.
Lemma due_elem s before q :
  q ∈ (pairs_in_order (elements (before ∖ non_orphaned_groups s)) ≫= due s) ↔ newly_orphaned s before q.
Proof.
  rewrite list_elem_of_bind. unfold pairs_in_order. setoid_rewrite (merge_sort_Permutation pair_le).
  setoid_rewrite elem_of_elements. setoid_rewrite elem_of_difference. unfold due, newly_orphaned. split.
  - intros (g & Hq & Hg & Hn). exists g. destruct (existsb _ _) eqn:E; [|set_solver]. apply existsb_exists in E as (m & Hm%list_elem_of_In & Hst).
    split_and!; [done..|by exists m].
  - intros (g & Hg & Hn & Hq & m & Hm & Hst). exists g. split; [|done].
    rewrite (proj2 (existsb_exists _ _)); [done|]. exists m. split; [by apply list_elem_of_In|done].
Qed.

Context {B F : Type} {PB : ProcessBackend B} {FB : FilesystemBackend F} {DW : DomainWire}.
(** C18: Sending a signal by selector in a reachable state reaches exactly the
    processes that are selected and that the caller may signal (or share its
    session, for a continuation): the signal is generated for each of them
    and nothing changes for any other; with nobody selected it fails with
    ESRCH, with nobody permitted with EPERM, and then nothing changes;
    signal zero only tests. *)
Theorem kill_exact same (w : @World LK B F) caller_id payload selector signal caller group :
  service_reachable same w → decode_signal_send_request payload = Some (selector, signal) → selector ≠ I64_MIN →
  session_of (svc w) caller_id = Some caller → group_of (svc w) caller_id = Some group →
  let s := svc w in
  match send_signal caller_id payload s with
  | (s', Err e) => s' = s ∧
      (e = STATUS_ESRCH ∧ (∀ q, ¬ kill_selects s group selector q) ∨
       e = STATUS_EPERM ∧ (∃ q, kill_selects s group selector q) ∧ ∀ q, ¬ kill_reaches s caller_id caller group selector signal q)
  | (s', Ok _) => ∃ L t, s' = with_table s t ∧ L ≠ [] ∧ (∀ q, q ∈ L ↔ kill_reaches s caller_id caller group selector signal q) ∧
      if signal =? 0 then t = table s else signalled L signal (table s) t
  end.
Proof. intros Hok%service_reachable_ok Hd Hs Hc Hg. by apply send_signal_spec. Qed.
End Signalled.

(** ** Instances *)

(** Process 1 terminates every process it may. *)
Lemma kill_exact_witness :
  match send_signal 1 [-1; 15] (svc example_family) with
  | (s', Err e) => s' = svc example_family ∧
      (e = STATUS_ESRCH ∧ (∀ q, ¬ kill_selects (svc example_family) 1 (-1) q) ∨
       e = STATUS_EPERM ∧ (∃ q, kill_selects (svc example_family) 1 (-1) q) ∧
       ∀ q, ¬ kill_reaches (svc example_family) 1 (mkSession 1 0 0 0 0 0 0 18) 1 (-1) 15 q)
  | (s', Ok _) => ∃ L t, s' = with_table (svc example_family) t ∧ L ≠ [] ∧
      (∀ q, q ∈ L ↔ kill_reaches (svc example_family) 1 (mkSession 1 0 0 0 0 0 0 18) 1 (-1) 15 q) ∧
      if 15 =? 0 then t = table (svc example_family) else signalled L 15 (table (svc example_family)) t
  end.
Proof.
  apply (kill_exact example_same example_family 1 [-1; 15] (-1) 15 (mkSession 1 0 0 0 0 0 0 18) 1);
    [apply example_family_reachable|vm_compute; reflexivity|done|vm_compute; reflexivity..].
Defined.
