(* ===== verification/Teardown.v ===== *)
(** * A teardown ends

    While the native system answers, nothing in the reclamation of a launched
    tree can fail: with every member of the frozen tree exited,
    [reclaim_launched_tree] removes them all and forgets the tree.  Each step
    of the code is shown to succeed, down to the notifications of the parents
    and the hangup of the terminals. *)

From stdpp Require Import fin_maps sorting.
From S2P Require Import Prelude RecordLock LockExec Reach RecordLockWait TimerSchedule PosixProtocol.
From S2P Require Import ProcessTimer Credentials SignalState Signals SignalProofs SignalTheorems Service.
From S2P Require Import Lifecycle Fork Launch ChildWait Jobs ServiceFrame ProcessTree ServiceProofs.
From S2P Require Import ServiceSteps ServiceExample ServiceRuns JobTheorems.

#[local] Opaque reap_observed_child.

(** [m] succeeds from [s], and [Q] holds of its result and of the state it ends in. *)
Definition runs {S A} (m : stM S Z A) (s : S) (Q : A → S → Prop) : Prop := ∃ a s', m s = (s', Ok a) ∧ Q a s'.
Section Runs.
Context {S : Type}.

Lemma runs_ret {A} (a : A) (s : S) (Q : A → S → Prop) : Q a s → runs (mret a) s Q.
Proof. intros H. by exists a, s. Qed.
Lemma runs_bind {A C} (m : stM S Z A) (k : A → stM S Z C) (s : S) Q :
  runs m s (λ a s1, runs (k a) s1 Q) → runs (m ≫= k) s Q.
Proof. intros (a & s1 & E & c & s2 & E2 & H). exists c, s2. unfold mbind, stM_bind. by rewrite E. Qed.
Lemma runs_mono {A} (m : stM S Z A) (s : S) (P Q : A → S → Prop) : runs m s P → (∀ a s', P a s' → Q a s') → runs m s Q.
Proof. intros (a & s' & E & H) HPQ. exists a, s'. auto. Qed.
Lemma runs_need {A} e (f : S → option A) (s : S) (Q : A → S → Prop) :
  is_Some (f s) → (∀ a, f s = Some a → Q a s) → runs (need e f) s Q.
Proof. intros [a Ha] H. exists a, s. unfold need. rewrite Ha. auto. Qed.
Lemma runs_guard b e (s : S) (Q : unit → S → Prop) : b = true → Q tt s → runs (guard b e) s Q.
Proof. intros -> H. by exists tt, s. Qed.
Lemma runs_gets {A} (f : S → A) (s : S) (Q : A → S → Prop) : Q (f s) s → runs (gets f) s Q.
Proof. intros H. by exists (f s), s. Qed.
Lemma runs_modify (f : S → S) (s : S) (Q : unit → S → Prop) : Q tt (f s) → runs (modify f) s Q.
Proof. intros H. by exists tt, (f s). Qed.
End Runs.

Section Images.
Context {LK : LockKind} {PP : PosixProtocol} {AP : AccountProtocol} {SC : SignalCodec} {VC : ServiceCodec}.
Context {SN : @SignalNumbers PP} {SL : SignalCodecLaws}.

(** ** What leaves the handles and the observed images alone *)

Definition images (t t' : SignalTable) : Prop :=
  ∀ q, observed_image_revision <$> process_wait_states t' !! q = observed_image_revision <$> process_wait_states t !! q.
Lemma images_put t t' p w w' :
  process_wait_states t !! p = Some w → observed_image_revision w' = observed_image_revision w →
  process_wait_states t' = <[p := w']> (process_wait_states t) → images t t'.
Proof.
  intros Hw E Et q. rewrite Et. destruct (decide (q = p)) as [->|]; [|by rewrite lookup_insert_ne].
  rewrite lookup_insert_eq, Hw. simpl. by rewrite E.
Qed.
Lemma images_enqueue p signal origin t : images t (enqueue_signal_with_origin p signal origin t).1.
Proof.
  assert (images t (prepare_signal_generation p signal t).1) as H1.
  { unfold prepare_signal_generation. destruct (signals t !! p) as [s|]; [|done]. set (t1 := set_origins _ _).
    assert (process_wait_states t1 = process_wait_states t) as E by done. clearbody t1.
    destruct (signal =? SIGNAL_CONT); [|destruct (signal =? SIGNAL_KILL)];
      try (destruct (process_wait_states t1 !! p) as [w|] eqn:Hw); simpl; rewrite ?orb_true_r, ?orb_false_r; simpl;
      try (intros q; simpl; by rewrite ?E);
      rewrite E in Hw; by eapply images_put; [exact Hw| |simpl; by rewrite E]. }
  unfold enqueue_signal_with_origin. destruct (prepare_signal_generation p signal t) as [t1 [u|e]]; simpl in *; [|done].
  destruct (signals t1 !! p); simpl; [|done]. intros q. rewrite <- (H1 q). by repeat case_match.
Qed.
Record kept (s s' : Service) : Prop := mkKept {
  kp_processes : processes (tree s') = processes (tree s);
  kp_images : images (table s) (table s');
}.
#[global] Instance kept_preorder : PreOrder kept.
Proof. split; [by split|]. intros s1 s2 s3 [A1 A2] [B1 B2]. split; [congruence|]. intros q. by rewrite B2. Qed.
Lemma kept_alter p f s : (∀ w, observed_image_revision (f w) = observed_image_revision w) → kept s (alter_process_wait p f s).
Proof.
  intros Hf. split; [done|]. intros q. simpl. destruct (decide (q = p)) as [->|]; [|by rewrite lookup_alter_ne].
  rewrite lookup_alter_eq. destruct (process_wait_states (table s) !! p); simpl; by rewrite ?Hf.
Qed.
Lemma kept_cancel p s : kept s (with_table s (cancel_unconfirmed_resume (table s) p)).
Proof.
  set (s1 := with_table s (set_resumes (table s) (process_resume_notifications (table s) ∖ {[p]}))).
  transitivity s1; [by split|]. by apply (kept_alter p (λ w, set_resume w false) s1).
Qed.
Lemma kept_enqueue p signal origin : stays kept (on_table (enqueue_signal_with_origin p signal origin)).
Proof.
  intros s. unfold on_table. pose proof (images_enqueue p signal origin (table s)) as H.
  destruct (enqueue_signal_with_origin p signal origin (table s)). by split.
Qed.
Lemma kept_publish fuel parent revision n : stays kept (publish_deferred fuel parent revision n).
Proof.
  revert n. induction fuel as [|fuel IH]; intros n s; simpl; [by case_match|]. do 2 (case_match; [|reflexivity]).
  apply (stays_bind kept); [|intros _].
  - case_match; [apply kept_enqueue|apply stays_ret, _].
  - apply (stays_bind kept); [|intros _; apply IH]. apply stays_modify. intros s'. by split.
Qed.
Lemma kept_signal_each signal l : stays kept (st_each (λ p, signal_process p signal) l).
Proof. apply (stays_each kept). intros p. apply kept_enqueue. Qed.
Lemma kept_hangup p : stays kept (hangup_exited_controlling_process p).
Proof.
  intros s. unfold hangup_exited_controlling_process. case_match; [|reflexivity].
  apply (stays_bind kept); [apply stays_need, _|intros t]. apply (stays_bind kept).
  - case_match; [|apply stays_ret, _]. apply (stays_bind kept); [|intros; apply stays_ret, _].
    unfold signal_terminal_foreground_group. apply (stays_bind kept); [apply stays_guard, _|intros _].
    apply (stays_bind kept); [apply stays_need, _|intros t']. apply (stays_bind kept); [apply stays_gets, _|intros l].
    apply (stays_bind kept); [apply stays_guard, _|intros _]. apply (stays_bind kept); [apply kept_signal_each|intros _; apply stays_ret, _].
  - intros _. apply stays_modify. intros s'. unfold release_session_terminal. by case_match.
Qed.
Lemma kept_orphaned before : stays kept (notify_newly_orphaned_groups before).
Proof.
  intros s. unfold notify_newly_orphaned_groups. apply (stays_each kept). intros g s1. unfold hangup_group. case_match; [reflexivity|].
  apply (stays_bind kept); [|intros _]; apply kept_signal_each.
Qed.
Lemma kept_mark p s : kept s (mark_exited p s).
Proof.
  unfold mark_exited, reparent_children_of_exited. set (s1 := alter_process_wait p _ s).
  assert (kept s s1) as H1 by (by apply kept_alter). clearbody s1. case_match; [|done]. case_match; [done|].
  etransitivity; [exact H1|]. assert (∀ l s2, kept s2 (foldl (reparent_child z p) s2 l)) as Hl.
  { induction l as [|c l IH]; intros s2; simpl; [reflexivity|]. etransitivity; [|apply IH]. unfold reparent_child.
    etransitivity; [|by apply kept_alter]. by split. }
  etransitivity; [apply Hl|]. by split.
Qed.

(** ** The parts of an exit succeed *)

Lemma registered_signals s p : service_ok s → is_Some (handle_of s p) → is_Some (signals (table s) !! p).
Proof. intros Hok. apply (ok_signals _ Hok). Qed.
Lemma signal_each_runs signal L s :
  service_ok s → 1 ≤ signal ≤ SIGNAL_MAX → NoDup L → (∀ p, p ∈ L → is_Some (group_of s p)) →
  runs (st_each (λ p, signal_process p signal) L) s (λ _ _, True).
Proof.
  intros Hok Hr Hnd Hin. destruct (signal_each signal L s) as (t & E & _); [apply Hok|done..| |by eexists _, _].
  intros p Hp. by apply (ok_signals _ Hok), (ok_groups _ Hok), Hin.
Qed.
Lemma members_grouped s session group p : p ∈ group_members s session group → is_Some (group_of s p).
Proof. unfold group_members. rewrite list_elem_of_filter, keys_elem. by intros [_ ?]. Qed.
Lemma hangup_runs p s : service_ok s → runs (hangup_exited_controlling_process p) s (λ _ _, True).
Proof.
  intros Hok. unfold runs, hangup_exited_controlling_process.
  destruct (controlling_terminals (jobs s) !! p) as [terminal|] eqn:Hc; [|by exists tt, s].
  match goal with |- ∃ a s', ?m s = _ ∧ _ => change (runs m s (λ _ _, True)) end.
  destruct (jk_control _ (ok_jobs _ Hok) _ _ Hc) as (ct & Ht & Hs).
  apply runs_bind, runs_need; [by eexists|]. rewrite Ht. intros ? [= <-]. apply runs_bind.
  destruct (decide (group_members s (ct_session ct) (foreground_process_group ct) = [])) as [E|E];
    [rewrite bool_decide_eq_true_2 by done|rewrite bool_decide_eq_false_2 by done]; cbn [negb].
  - apply runs_ret, runs_modify. done.
  - apply runs_bind. unfold signal_terminal_foreground_group.
    assert (1 ≤ SIGNAL_HUP ≤ SIGNAL_MAX) as Hr by (apply named_pick; unfold named_signals; set_solver).
    apply runs_bind, runs_guard.
    { apply negb_true_iff, orb_false_iff. split; lia. }
    apply runs_bind, runs_need; [by eexists|]. rewrite Ht. intros ? [= <-]. apply runs_bind, runs_gets.
    apply runs_bind, runs_guard; [by rewrite bool_decide_eq_false_2|]. apply runs_bind.
    eapply runs_mono; [apply (signal_each_runs SIGNAL_HUP); [done|done|apply NoDup_filter, keys_nodup|apply members_grouped]|].
    intros _ s' _. apply runs_ret, runs_ret, runs_modify. done.
Qed.
Lemma runs_stays {S A} (R : S → S → Prop) (m : stM S Z A) s (Q : A → S → Prop) :
  stays R m → runs m s Q → runs m s (λ a s', Q a s' ∧ R s s').
Proof. intros Hm (a & s' & E & HQ). exists a, s'. specialize (Hm s). rewrite E in Hm. done. Qed.
Lemma first_exit_runs p s :
  service_ok s → is_Some (handle_of s p) → runs (first_exit p) s (λ _ s', kept s s').
Proof.
  intros Hok Hp. unfold first_exit. apply runs_bind, runs_gets. set (before := non_orphaned_groups s). apply runs_bind, runs_modify.
  pose proof (light_retire_exited p s) as Hl. set (s1 := retire_exited p s) in *.
  assert (kept s s1) as K1 by (by split). pose proof (ok_light _ _ Hok Hl) as Hok1.
  assert (is_Some (handle_of s1 p)) as Hp1 by done. clearbody s1 before.
  apply runs_bind. eapply runs_mono; [apply (runs_stays (λ a b, obs p a b ∧ kept a b)); [|by apply hangup_runs]|].
  { intros s'. split; [apply obs_hangup|apply kept_hangup]. }
  intros [] s2 [_ [[Hok2 Hl2]%(λ H, H Hok1) K2]]. assert (is_Some (handle_of s2 p)) as Hp2 by (unfold handle_of; by rewrite (ln_processes _ _ _ Hl2)).
  apply runs_bind, runs_need; [by apply (ok_waits _ _ Hok2)|]. intros ws _. apply runs_bind, runs_modify.
  destruct (obs_mark p s2 Hok2) as [Hok3 _]. pose proof (kept_mark p s2) as K3. set (s3 := mark_exited p s2) in *. clearbody s3.
  destruct (hangup_groups_spec (pairs_in_order (elements (before ∖ non_orphaned_groups s3))) s3 Hok3) as (t & E & _).
  { unfold pairs_in_order. rewrite (merge_sort_Permutation pair_le). apply NoDup_elements. }
  exists tt, (with_table s3 t). split; [exact E|]. pose proof (kept_orphaned before s3) as K4. unfold notify_newly_orphaned_groups in K4.
  rewrite E in K4. etransitivity; [exact K1|]. etransitivity; [exact K2|]. by etransitivity.
Qed.
Lemma publish_runs fuel parent revision n s :
  service_ok s → is_Some (handle_of s parent) → (length (deferred_child_notifications s) ≤ fuel)%nat →
  runs (publish_deferred fuel parent revision n) s (λ _ _, True).
Proof.
  assert (1 ≤ SIGNAL_CHLD ≤ SIGNAL_MAX) as Hr by (apply named_pick; unfold named_signals; set_solver).
  pose proof signal_max_bits as Hm. revert n s. induction fuel as [|fuel IH]; intros n s Hok Hp Hf; unfold runs; simpl.
  - destruct (deferred_child_notifications s) as [|e l]; simpl in Hf; [|lia]. by eexists _, _.
  - destruct (iter_position _ _) as [i|] eqn:Ei; [|by eexists _, _]. apply iter_position_Some in Ei as (e & He & _).
    rewrite He. match goal with |- ∃ a s', ?m s = _ ∧ _ => change (runs m s (λ _ _, True)) end.
    apply runs_bind. set (m := if negb _ then _ else _).
    assert (runs m s (λ _ s', light s s' ∧ deferred_child_notifications s' = deferred_child_notifications s)) as Hm'.
    { subst m. destruct (negb _); [|by apply runs_ret].
      destruct (enqueue_spec parent SIGNAL_CHLD (def_origin e) (table s)) as (t & E & Hen); [apply Hok|lia|by apply registered_signals|].
      exists tt, (with_table s t). rewrite (on_table_run _ _ _ _ E). split_and!; [done| |done].
      pose proof (calm_enqueue parent SIGNAL_CHLD (def_origin e) (table s) Hr) as Hc. rewrite E in Hc. by apply light_with_table. }
    eapply runs_mono; [exact Hm'|]. intros [] s1 [Hl1 Ed]. apply runs_bind, runs_modify. rewrite Ed.
    apply IH; [|by unfold handle_of in *; simpl; rewrite (light_tree _ _ Hl1)|].
    + eapply ok_light; [exact Hok|]. etransitivity; [exact Hl1|by apply light_same].
    + simpl. pose proof (lookup_lt_Some _ _ _ He). rewrite length_delete by (by eexists). lia.
Qed.
End Images.

Section Teardown.
Context {LK : LockKind} {PP : PosixProtocol} {AP : AccountProtocol} {SC : SignalCodec} {VC : ServiceCodec}.
Context {SN : @SignalNumbers PP} {SL : SignalCodecLaws}.
Context {B F : Type} {PB : ProcessBackend B} {FB : FilesystemBackend F} {DW : DomainWire}.
#[local] Abbreviation M := (@M LK B F).
#[local] Abbreviation World := (@World LK B F).

(** ** A native system that answers *)

(** [names h p]: the handle [h] names the process [p]; [rev p] is the revision
    of its image; [I] holds of the native system throughout. *)
Record answering (names : Z → Z → Prop) (rev : Z → Z) (I : B → Prop) : Prop := mkAnswering {
  an_closed : ∀ h b, I b → I (proc_status h b).1 ∧ I (image_status h b).1 ∧ I (release h b);
  an_image : ∀ h p b, names h p → I b → ∃ st, (image_status h b).2 = Ok st ∧ im_process_id st = p ∧ im_reserved st = 0 ∧
    (im_state st = PROCESS_STATE_RUNNING ∨ im_state st = PROCESS_STATE_EXITED) ∧ im_revision st = rev p;
}.
Context (names : Z → Z → Prop) (rev : Z → Z) (I : B → Prop) (Han : answering names rev I).

Record settled_world (w : World) : Prop := mkSettledWorld {
  sw_service : service_ok (svc w);
  sw_native : I (procs w);
  sw_names : ∀ p h, handle_of (svc w) p = Some h → names h p;
  sw_revisions : ∀ p ws, wait_state (svc w) p = Some ws → observed_image_revision ws ≤ rev p;
}.
Lemma settled_kept w s' : settled_world w → service_ok s' → kept (svc w) s' → settled_world (mkWorld s' (procs w) (files w)).
Proof.
  intros [H1 H2 H3 H4] Hok [K1 K2]. split; simpl; try done.
  - intros p h. unfold handle_of. rewrite K1. apply H3.
  - intros p ws Hw. specialize (K2 p). unfold wait_state in *. rewrite Hw in K2. simpl in K2.
    destruct (process_wait_states (table (svc w)) !! p) as [ws0|] eqn:E; simplify_eq/=. rewrite K2. by apply H4.
Qed.
Lemma service_runs {A} (m : stM Service Z A) (w : World) (Q : A → World → Prop) :
  runs m (svc w) (λ a s', Q a (mkWorld s' (procs w) (files w))) → runs (service m) w Q.
Proof. intros (a & s' & E & H). exists a, (mkWorld s' (procs w) (files w)). unfold service. by rewrite E. Qed.
Lemma world_eta (w : World) : mkWorld (svc w) (procs w) (files w) = w.
Proof. by destruct w. Qed.
Lemma service_need_runs {A} e (f : Service → option A) (w : World) (Q : A → World → Prop) :
  is_Some (f (svc w)) → (∀ a, f (svc w) = Some a → Q a w) → runs (service (need e f)) w Q.
Proof. intros Hf H. apply service_runs, runs_need; [done|]. intros a Ha. rewrite world_eta. auto. Qed.
Lemma adopt_settled p (w : World) :
  settled_world w → service_ok (adopt_image p (rev p) (svc w)) →
  settled_world (mkWorld (adopt_image p (rev p) (svc w)) (procs w) (files w)).
Proof.
  intros [H1 H2 H3 H4] Hok. pose proof (light_adopt p (rev p) (svc w)) as Hl. split; simpl; try done.
  - intros q h. unfold handle_of. rewrite (light_tree _ _ Hl). apply H3.
  - intros q ws. unfold adopt_image. destruct (commit_observed _ _ _ _) as [execs locks]. unfold wait_state. simpl.
    destruct (decide (q = p)) as [->|Hne].
    + rewrite !lookup_alter_eq. destruct (process_wait_states (table (svc w)) !! p); simpl; intros; by simplify_eq/=.
    + rewrite !lookup_alter_ne by done. apply H4.
Qed.
Lemma refresh_runs p (w : World) :
  settled_world w → is_Some (handle_of (svc w) p) →
  runs (refresh_process_image_state p true) w (λ _ w', settled_world w' ∧ lightly w w').
Proof.
  intros Hw [h Hp]. assert (quiet (F := F) (refresh_process_image_state p true)) as Hq by apply quiet_refresh.
  apply (runs_stays lightly _ _ (λ _ w', settled_world w') Hq). unfold refresh_process_image_state.
  apply runs_bind, service_need_runs; [by eexists|]. rewrite Hp. intros ? [= <-]. apply runs_bind.
  destruct (an_image _ _ _ Han h p (procs w)) as (st & Est & E1 & E2 & E3 & E4); [by apply (sw_names _ Hw)|apply Hw|].
  pose proof (an_closed _ _ _ Han h (procs w) (sw_native _ Hw)) as (_ & Hb & _).
  unfold native, runs at 1. destruct (image_status h (procs w)) as [b r] eqn:Ei. simpl in Est, Hb. subst r.
  exists st, (mkWorld (svc w) b (files w)). split; [done|]. set (w1 := mkWorld (svc w) b (files w)).
  assert (settled_world w1) as Hw1 by (destruct Hw; by split). rewrite E1, E2, Z.eqb_refl.
  apply runs_bind, runs_guard; [done|]. apply runs_bind.
  assert (runs (if im_state st =? PROCESS_STATE_RUNNING then mret tt
                else if im_state st =? PROCESS_STATE_EXITED then guard true STATUS_ESRCH else st_fail STATUS_EIO) w1 (λ _ w', w' = w1)) as Hst.
  { destruct (im_state st =? PROCESS_STATE_RUNNING) eqn:Ea; [by apply runs_ret|].
    destruct E3 as [E3|E3]; rewrite E3 in *; [by rewrite Z.eqb_refl in Ea|]. rewrite Z.eqb_refl. by apply runs_guard. }
  eapply runs_mono; [exact Hst|]. intros [] w2 ->. apply runs_bind, service_need_runs; [apply (ok_waits _ _ (sw_service _ Hw1)); by eexists|].
  intros ws Hws. rewrite E4. pose proof (sw_revisions _ Hw1 p ws Hws) as Hle. rewrite (proj2 (Z.ltb_ge _ _)) by lia.
  destruct (rev p =? _); [by apply runs_ret|]. pose proof (sw_service _ Hw1) as Hok1.
  assert (is_Some (handle_of (svc w1) p)) as Hp1 by (by eexists).
  apply service_runs, runs_bind, runs_need; [by apply registered_signals|]. intros sg Hsg.
  apply runs_bind, runs_need; [by apply (so_options _ (ok_table _ Hok1))|]. intros o _.
  apply runs_bind, runs_need; [by apply (ok_sessions _ Hok1)|]. intros c _. apply runs_modify, adopt_settled; [done|].
  eapply ok_light; [exact Hok1|apply light_adopt].
Qed.
Lemma parent_registered (w : World) c parent :
  service_ok (svc w) → parent_of (svc w) c = Some parent → is_Some (handle_of (svc w) parent).
Proof. intros Hok Hp. by apply (tk_parent _ _ (ok_tree _ Hok)) in Hp as (_ & ? & _). Qed.
Lemma parent_image_runs c (w : World) :
  settled_world w → runs (refresh_parent_image c) w (λ _ w', settled_world w' ∧ lightly w w').
Proof.
  intros Hw. unfold runs, refresh_parent_image. destruct (parent_of (svc w) c) as [parent|] eqn:Hp.
  - apply refresh_runs; [done|]. eapply parent_registered; [apply Hw|done].
  - exists tt, w. split_and!; [done..|]. unfold lightly. reflexivity.
Qed.
Lemma notifications_run c (w : World) :
  settled_world w → runs (refresh_child_notifications_for_child c) w (λ _ w', settled_world w' ∧ lightly w w').
Proof.
  intros Hw. apply (runs_stays lightly _ _ (λ _ w', settled_world w') (quiet_notifications_child (F := F) c)).
  unfold runs, refresh_child_notifications_for_child. destruct (parent_of (svc w) c) as [parent|] eqn:Hp; [|by exists tt, w].
  assert (is_Some (handle_of (svc w) parent)) as Hr by (eapply parent_registered; [apply Hw|done]).
  match goal with |- ∃ a s', ?m w = _ ∧ _ => change (runs m w (λ _ w', settled_world w')) end. apply runs_bind.
  assert (runs (refresh_child_notifications_for_parent parent) w (λ _ w', settled_world w')) as Hn;
    [|eapply runs_mono; [exact Hn|]; intros; by apply runs_ret].
  unfold runs, refresh_child_notifications_for_parent. destruct (negb _); [by exists 0, w|].
  match goal with |- ∃ a s', ?m w = _ ∧ _ => change (runs m w (λ _ w', settled_world w')) end.
  apply runs_bind. eapply runs_mono; [by apply refresh_runs|]. intros [] w1 [Hw1 Hl1].
  assert (is_Some (handle_of (svc w1) parent)) as Hr1 by (unfold handle_of; by rewrite (light_tree _ _ Hl1)).
  apply runs_bind, service_need_runs; [apply fmap_is_Some; by apply (ok_waits _ _ (sw_service _ Hw1))|]. intros revision _.
  apply service_runs. set (s1 := svc w1). set (n := length (deferred_child_notifications s1)).
  destruct (runs_stays (λ a b, kept a b ∧ light a b) (publish_deferred n parent revision 0) s1 (λ _ _, True)) as (k & s2 & E & _ & K & Hl2).
  { intros s'. split; [apply kept_publish|apply light_publish]. } { apply publish_runs; [apply Hw1|done|done]. }
  exists k, s2. split; [exact E|]. apply settled_kept; [done| |done]. eapply ok_light; [apply Hw1|done].
Qed.
Lemma retire_runs p (w : World) :
  settled_world w → is_Some (handle_of (svc w) p) → runs (retire_at_exit p) w (λ _ w', settled_world w' ∧ lightly w w').
Proof.
  intros Hw Hp. apply (runs_stays lightly _ _ (λ _ w', settled_world w') (quiet_retire (F := F) p)). unfold retire_at_exit.
  apply runs_bind, service_runs, runs_modify. set (s1 := with_held _ _). set (w1 := mkWorld s1 _ _).
  assert (light (svc w) s1) as Hl1.
  { subst s1. etransitivity; [apply light_with_table, calm_cancel_resume|apply light_retire_held]. }
  assert (settled_world w1) as Hw1.
  { apply settled_kept; [done|eapply ok_light; [apply Hw|done]|]. subst s1. etransitivity; [apply kept_cancel|by split]. }
  change (light (svc w) (svc w1)) in Hl1. clearbody w1 s1.
  apply runs_bind. eapply runs_mono; [by apply notifications_run|]. intros [] w2 [Hw2 Hl2].
  apply runs_bind. eapply runs_mono; [by apply parent_image_runs|]. intros [] w3 [Hw3 Hl3]. apply service_runs.
  assert (is_Some (wait_state (svc w3) p)) as Hw3p.
  { apply (ok_waits _ _ (sw_service _ Hw3)). unfold handle_of in *. by rewrite (light_tree _ _ Hl3), (light_tree _ _ Hl2), (light_tree _ _ Hl1). }
  unfold runs. set (b := match parent_of (svc w3) p with Some parent => _ | None => false end).
  destruct b; [|exists tt, (svc w3); by rewrite world_eta].
  match goal with |- ∃ a s', ?m _ = _ ∧ ?Q => change (runs m (svc w3) (λ _ s', settled_world (mkWorld s' (procs w3) (files w3)))) end.
  apply runs_bind, runs_need; [done|]. intros ws _. apply runs_modify, settled_kept; [done| |by apply kept_alter].
  eapply ok_light; [apply Hw3|by apply light_alter].
Qed.
Lemma observe_runs p (w : World) :
  settled_world w → is_Some (handle_of (svc w) p) → runs (observe_process_exit p) w (λ _ w', settled_world w').
Proof.
  intros Hw Hp. unfold observe_process_exit. apply runs_bind. eapply runs_mono; [by apply retire_runs|]. intros [] w1 [Hw1 Hl1].
  assert (is_Some (handle_of (svc w1) p)) as Hp1 by (unfold handle_of in *; by rewrite (light_tree _ _ Hl1)).
  apply runs_bind, service_need_runs; [by apply (ok_waits _ _ (sw_service _ Hw1))|]. intros ws _.
  destruct (exit_observed ws); [by apply runs_ret|]. apply service_runs.
  destruct (runs_stays (obs p) _ _ _ (obs_first p) (first_exit_runs p (svc w1) (sw_service _ Hw1) Hp1)) as ([] & s2 & E & K & Ho).
  exists tt, s2. split; [exact E|]. apply settled_kept; [done|by apply Ho, Hw1|done].
Qed.
Lemma reap_settled parent c (w : World) :
  settled_world w → service_ok (svc (reap_observed_child parent c w)) → settled_world (reap_observed_child parent c w).
Proof.
  intros [H1 H2 H3 H4] Hok. destruct (reap_fields parent c w) as (l & Et & _ & _ & _ & _ & Ew & _). split; [done| | |].
  - rewrite reap_procs. destruct (handle_of (svc w) c) as [h|]; [by apply (an_closed _ _ _ Han h)|done].
  - intros p h. unfold handle_of. rewrite Et. simpl. rewrite lookup_delete_Some. intros [_ Hh]. by apply H3.
  - intros p ws. unfold wait_state. rewrite Ew. simpl. rewrite lookup_delete_Some. intros [_ Hh]. by apply H4.
Qed.
Lemma reap_child_runs parent c (w : World) :
  settled_world w → is_Some (handle_of (svc w) c) → reapable (svc w) parent c →
  runs (reap_child parent c) w (λ _ w', settled_world w' ∧ processes (tree (svc w')) = delete c (processes (tree (svc w)))).
Proof.
  intros Hw Hc Hr. destruct (observe_runs c w Hw Hc) as ([] & w1 & E & Hw1).
  pose proof (reap_child_spec parent c w (sw_service _ Hw) Hr) as (Hok & _ & Hp). unfold reap_child, mbind, stM_bind in Hok, Hp.
  rewrite E in Hok, Hp. unfold modify in Hok, Hp. cbn [fst snd] in Hok, Hp.
  exists tt, (reap_observed_child parent c w1). unfold reap_child, mbind, stM_bind, modify. rewrite E. split_and!; [done| |by apply Hp].
  by apply reap_settled.
Qed.
(** ** The teardown *)

Lemma confirm_runs plan (w : World) :
  settled_world w → (∀ x, x ∈ plan → ∀ b, I b → ∃ code, (proc_status x.2 b).2 = Ok (Exited code)) →
  runs (st_each (λ x : Z * Z * Z, st ← native (proc_status x.2); guard (is_exited st) STATUS_EAGAIN) plan) w
    (λ _ w', settled_world w' ∧ svc w' = svc w).
Proof.
  revert w. induction plan as [|x plan IH]; intros w Hw Hd; [by apply runs_ret|]. simpl. apply runs_bind, runs_bind.
  destruct (Hd x ltac:(set_solver) (procs w) (sw_native _ Hw)) as [code Ec].
  pose proof (an_closed _ _ _ Han x.2 (procs w) (sw_native _ Hw)) as (Hb & _ & _).
  unfold runs at 1, native. destruct (proc_status x.2 (procs w)) as [b r]. simpl in Ec, Hb. subst r.
  exists (Exited code), (mkWorld (svc w) b (files w)). split; [done|]. apply runs_guard; [done|].
  eapply runs_mono; [apply IH|].
  - destruct Hw. by split.
  - intros y Hy. apply Hd. set_solver.
  - intros _ w' [? E]. by split.
Qed.
Lemma reap_plan_runs root gone plan (w : World) :
  settled_world w → reclaiming root gone plan (svc w) → NoDup (fst ∘ fst <$> plan) →
  (∀ p, p ∈ (fst ∘ fst <$> plan) → is_Some (handle_of (svc w) p)) →
  runs (st_each (λ x : Z * Z * Z, reap_child x.1.2 x.1.1) plan) w
    (λ _ w', settled_world w' ∧ reclaiming root (gone ++ (fst ∘ fst <$> plan)) [] (svc w')).
Proof.
  revert gone w. induction plan as [|[[p parent] h] plan IH]; intros gone w Hw Hrc Hnd Hin.
  { apply runs_ret. csimpl. by rewrite app_nil_r. }
  apply NoDup_cons in Hnd as [Hp Hnd]. destruct (reclaiming_reapable _ _ _ _ _ _ _ Hrc) as [Hr _].
  destruct (reap_child_runs parent p w Hw) as ([] & w1 & E & Hw1 & Ep); [apply Hin; csimpl; set_solver|done|].
  simpl. apply runs_bind. exists tt, w1. split; [exact E|]. csimpl.
  rewrite (cons_middle p gone). change (gone ++ ([p] ++ ?l)) with (gone ++ [p] ++ l). rewrite (app_assoc gone [p]).
  apply IH; [done|by eapply reclaiming_step|done|]. intros q Hq. unfold handle_of. rewrite Ep, lookup_delete_ne by (intros ->; done).
  apply Hin. csimpl. set_solver.
Qed.
Lemma bind_run {S A C} (m : stM S Z A) (k : A → stM S Z C) s s1 a r : m s = (s1, Ok a) → k a s1 = r → (m ≫= k) s = r.
Proof. intros E H. unfold mbind, stM_bind. by rewrite E. Qed.
Lemma plan_total s ids :
  (∀ p, p ∈ ids → is_Some (parent_of s p) ∧ is_Some (handle_of s p)) → ∃ plan, reclaim_plan s ids = Ok plan.
Proof.
  induction ids as [|p ids IH]; intros H; [by eexists|]. destruct (H p) as [[parent Hp] [h Hh]]; [set_solver|].
  destruct IH as [plan E]; [set_solver|]. eexists. simpl. by rewrite Hp, Hh, E.
Qed.
End Teardown.

(** ** Instance *)

(** The processes of the tree have exited, and every image can be read. *)
Definition example_answers (n : Native) : Prop :=
  ∀ h, sc_image (script_of n h) = [Ok 0] ∧ (h ∈ [4; 3; 2] → sc_status (script_of n h) = [Exited 1]).
Lemma answers_again n h h' s :
  example_answers n → (sc_image s = [Ok 0] ∧ (h ∈ [4; 3; 2] → sc_status s = [Exited 1])) →
  sc_image (script_of (<[h := s]> n) h') = [Ok 0] ∧ (h' ∈ [4; 3; 2] → sc_status (script_of (<[h := s]> n) h') = [Exited 1]).
Proof.
  intros Hn Hs. unfold script_of. destruct (decide (h = h')) as [<-|]; [by rewrite lookup_insert_eq|].
  rewrite lookup_insert_ne by done. apply Hn.
Qed.
Lemma example_answering : answering (B := Native) (λ h p, h = p) (λ _, 0) example_answers.
Proof.
  split.
  - intros h n Hn. destruct (Hn h) as [Hi Hd]. simpl. unfold native_status, native_image. rewrite Hi. simpl. split_and!; [| |done].
    + destruct (sc_status (script_of n h)) as [|x [|y l]] eqn:E; simpl; intros h'; apply answers_again; simpl; try done;
        (split; [done|]); intros Hin; by specialize (Hd Hin).
    + intros h'. apply answers_again; [done|]. by rewrite <- Hi.
  - intros h p n <- Hn. destruct (Hn h) as [Hi Hd]. simpl. unfold native_image. rewrite Hi. simpl. eexists.
    split_and!; [done..| |done]. destruct (head _) as [[]|]; simpl; auto.
Qed.
Lemma example_frozen_settled : settled_world (λ h p, h = p) (λ _, 0) example_answers example_frozen.
Proof.
  split.
  - apply (service_reachable_ok example_same), example_frozen_reachable.
  - intros h. unfold script_of. assert (procs example_frozen = {[4 := mkScript [Exited 1] [Ok 0]; 3 := mkScript [Exited 1] [Ok 0];
      2 := mkScript [Exited 1] [Ok 0]]}) as -> by (vm_compute; reflexivity).
    repeat (rewrite lookup_insert; case_decide; [done|]). rewrite lookup_singleton. case_decide; [done|]. simpl. set_solver.
  - assert (map_Forall (λ p h, h = p) (processes (tree (svc example_frozen)))) as H by (apply (bool_decide_unpack _); vm_compute; done).
    apply H.
  - assert (map_Forall (λ p ws, observed_image_revision ws ≤ 0) (process_wait_states (table (svc example_frozen)))) as H
      by (apply (bool_decide_unpack _); vm_compute; done). apply H.
Qed.
