(* ===== verification/Text.v ===== *)
(** * Byte strings

    What the services use of [str], [&[u8]] and the integer parsers of the
    Rust standard library.  A string is its sequence of bytes. *)

From Stdlib Require Export String Ascii.
From stdpp Require Export strings.
From S2P Require Import Prelude.

#[global] Open Scope Z_scope.

Abbreviation str := (list ascii).
(** A string literal. *)
Definition lit (s : string) : str := list_ascii_of_string s.
#[global] Arguments lit : simpl never.

Definition byte (c : ascii) : Z := Z.of_N (N_of_ascii c).
Definition chr (z : Z) : ascii := ascii_of_N (Z.to_N z).

Definition in_range_incl (lo hi : Z) (c : ascii) : bool := (lo <=? byte c) && (byte c <=? hi).
Definition is_ascii_graphic (c : ascii) : bool := in_range_incl 33 126 c.
Definition is_ascii_digit (c : ascii) : bool := in_range_incl 48 57 c.
Definition is_ascii_alphanumeric (c : ascii) : bool :=
  is_ascii_digit c || in_range_incl 65 90 c || in_range_incl 97 122 c.
Definition is_ascii_hexdigit (c : ascii) : bool :=
  is_ascii_digit c || in_range_incl 65 70 c || in_range_incl 97 102 c.

Definition str_eqb (a b : str) : bool := bool_decide (a = b).

(** [core::str::from_utf8]: whether the bytes are well-formed UTF-8. *)
Definition continuation (c : ascii) : bool := in_range_incl 128 191 c.
Fixpoint from_utf8 (l : str) : bool :=
  match l with
  | [] => true
  | a :: l =>
      if byte a <? 128 then from_utf8 l
      else
        match l with
        | b :: l =>
            if in_range_incl 194 223 a then continuation b && from_utf8 l
            else
              match l with
              | c :: l =>
                  if in_range_incl 224 239 a then
                    continuation c &&
                    (if byte a =? 224 then in_range_incl 160 191 b
                     else if byte a =? 237 then in_range_incl 128 159 b
                     else continuation b) && from_utf8 l
                  else
                    match l with
                    | d :: l =>
                        in_range_incl 240 244 a && continuation c && continuation d &&
                        (if byte a =? 240 then in_range_incl 144 191 b
                         else if byte a =? 244 then in_range_incl 128 143 b
                         else continuation b) && from_utf8 l
                    | [] => false
                    end
              | [] => false
              end
        | [] => false
        end
  end.

(** [str::split(c)] and [str::split_once(c)] for an ASCII separator. *)
Fixpoint split (c : ascii) (l : str) : list str :=
  match l with
  | [] => [[]]
  | x :: l =>
      if decide (x = c) then [] :: split c l
      else match split c l with
           | f :: fs => (x :: f) :: fs
           | [] => [[x]]
           end
  end.
Fixpoint split_once (c : ascii) (l : str) : option (str * str) :=
  match l with
  | [] => None
  | x :: l =>
      if decide (x = c) then Some ([], l)
      else match split_once c l with
           | Some (a, b) => Some (x :: a, b)
           | None => None
           end
  end.

(** [str::parse] for an unsigned integer type with the given maximum. *)
Definition to_digit (c : ascii) : option Z :=
  if is_ascii_digit c then Some (byte c - 48) else None.
Fixpoint parse_digits (max acc : Z) (l : str) : option Z :=
  match l with
  | [] => Some acc
  | c :: l =>
      d ← to_digit c;
      m ← checked_mul max acc 10;
      a ← checked_add max m d;
      parse_digits max a l
  end.
Definition parse_uint (max : Z) (l : str) : option Z :=
  match l with
  | [] => None
  | [c] => parse_digits max 0 [c]
  | c :: l => if decide (c = "+"%char) then parse_digits max 0 l else parse_digits max 0 (c :: l)
  end.

(** The decimal digits of a value, most significant first: a loop that fills
    a [fuel]-byte array from its end; [None] is an index below zero. *)
Fixpoint digits (fuel : nat) (v : Z) (acc : str) : option str :=
  match fuel with
  | O => None
  | S fuel =>
      let acc := chr (48 + v mod 10) :: acc in
      if v / 10 =? 0 then Some acc else digits fuel (v / 10) acc
  end.

(** ** Bytes and literals *)

Lemma byte_bounds c : 0 ≤ byte c < 256.
Proof. unfold byte. pose proof (N_ascii_bounded c). lia. Qed.
Lemma byte_chr z : 0 ≤ z < 256 → byte (chr z) = z.
Proof. intros H. unfold byte, chr. rewrite N_ascii_embedding by lia. lia. Qed.

Lemma from_utf8_ascii l : Forall (λ c, byte c < 128) l → from_utf8 l = true.
Proof. induction 1 as [|c l Hc _ IH]; [done|]. simpl. by rewrite (proj2 (Z.ltb_lt _ _) Hc). Qed.

(** ** Splitting *)

Fixpoint join (c : ascii) (fs : list str) : str :=
  match fs with
  | [] => []
  | [f] => f
  | f :: fs => f ++ c :: join c fs
  end.

Lemma split_ne c l : split c l ≠ [].
Proof. destruct l; simpl; [done|]. case_decide; [done|]. by destruct (split c l). Qed.

Lemma split_app c f l : c ∉ f → split c (f ++ c :: l) = f :: split c l.
Proof.
  induction f as [|x f IH]; simpl; intros Hc; [by rewrite decide_True|].
  rewrite decide_False by set_solver. by rewrite IH by set_solver.
Qed.
Lemma split_field c f : c ∉ f → split c f = [f].
Proof.
  induction f as [|x f IH]; simpl; intros Hc; [done|].
  rewrite decide_False by set_solver. by rewrite IH by set_solver.
Qed.

Lemma split_join c fs : fs ≠ [] → Forall (λ f, c ∉ f) fs → split c (join c fs) = fs.
Proof.
  induction fs as [|f fs IH]; [done|]. intros _ [Hf Hfs]%Forall_cons.
  destruct fs as [|g fs]; [by apply split_field|].
  change (join c (f :: g :: fs)) with (f ++ c :: join c (g :: fs)).
  rewrite split_app by done. by rewrite IH.
Qed.

Lemma join_split c l : join c (split c l) = l.
Proof.
  induction l as [|x l IH]; simpl; [done|]. pose proof (split_ne c l).
  case_decide as E; destruct (split c l) as [|f fs]; try done.
  - by rewrite <- IH, E.
  - rewrite <- IH. by destruct fs.
Qed.

Lemma split_once_app c a b : c ∉ a → split_once c (a ++ c :: b) = Some (a, b).
Proof.
  induction a as [|x a IH]; simpl; intros Hc; [by rewrite decide_True|].
  rewrite decide_False by set_solver. by rewrite IH by set_solver.
Qed.
Lemma split_once_Some c l a b : split_once c l = Some (a, b) → l = a ++ c :: b ∧ c ∉ a.
Proof.
  revert a b. induction l as [|x l IH]; simpl; [done|]. intros a b.
  case_decide; [intros [= <- <-]; subst; split; [done|set_solver]|].
  destruct (split_once c l) as [[a' b']|]; [|done]. intros [= <- <-].
  destruct (IH a' b' eq_refl) as [-> ?]. split; [done|]. set_solver.
Qed.

(** ** Decimal numbers *)

Lemma digit_chr d : 0 ≤ d < 10 → to_digit (chr (48 + d)) = Some d.
Proof.
  intros Hd. unfold to_digit, is_ascii_digit, in_range_incl. rewrite byte_chr by lia.
  rewrite !(proj2 (Z.leb_le _ _)) by lia. simpl. f_equal. lia.
Qed.

Lemma digits_spec fuel v acc :
  0 ≤ v < 10 ^ Z.of_nat fuel → (0 < fuel)%nat →
  ∃ l, digits fuel v acc = Some (l ++ acc) ∧ l ≠ [] ∧ Forall (λ c, is_ascii_digit c = true) l ∧
       (∀ max rest, v ≤ max → parse_digits max 0 (l ++ rest) = parse_digits max v rest) ∧
       (∀ n, v < 10 ^ n → 0 < n → zlen l ≤ n).
Proof.
  revert v acc. induction fuel as [|fuel IH]; intros v acc Hv Hf; [lia|]. simpl.
  pose proof (Z.mod_pos_bound v 10 ltac:(lia)) as Hm.
  pose proof (Z.div_mod v 10 ltac:(lia)) as Hdm.
  pose proof (digit_chr (v mod 10) Hm) as Hc. set (c := chr (48 + v mod 10)) in *.
  assert (Hd : is_ascii_digit c = true).
  { unfold to_digit in Hc. by destruct (is_ascii_digit c). }
  destruct (v / 10 =? 0) eqn:E.
  - exists [c]. split_and!; [done|done|by repeat constructor| |].
    + intros max rest Hmax. simpl. rewrite Hc. simpl. unfold checked_mul, checked_add.
      rewrite (proj2 (Z.leb_le _ _)) by lia. simpl.
      rewrite (proj2 (Z.leb_le _ _)) by lia. simpl. f_equal. lia.
    + intros n ? ?. autorewrite with mochi. lia.
  - assert (0 < v / 10) by (pose proof (Z.div_pos v 10); lia).
    assert (0 < fuel)%nat as Hf' by (destruct fuel; [simpl in Hv; lia|lia]).
    destruct (IH (v / 10) (c :: acc)) as (l & -> & Hl & Hds & Hp & Hlen); [|done|].
    { rewrite Nat2Z.inj_succ, Z.pow_succ_r in Hv by lia. split; [lia|].
      apply Z.div_lt_upper_bound; lia. }
    exists (l ++ [c]). rewrite <- app_assoc. split_and!.
    + done.
    + by destruct l.
    + apply Forall_app. by repeat constructor.
    + intros max rest Hmax. rewrite <- app_assoc, Hp by lia. simpl. rewrite Hc. simpl.
      unfold checked_mul, checked_add. rewrite (proj2 (Z.leb_le _ _)) by lia. simpl.
      rewrite (proj2 (Z.leb_le _ _)) by lia. simpl. f_equal. lia.
    + intros n Hn Hn0. autorewrite with mochi.
      assert (n ≠ 1) by (intros ->; lia).
      assert (zlen l ≤ n - 1); [|lia]. apply Hlen; [|lia].
      apply Z.div_lt_upper_bound; [lia|]. rewrite <- Z.pow_succ_r by lia.
      by replace (Z.succ (n - 1)) with n by lia.
Qed.

Lemma parse_digits_bound max acc l v :
  0 ≤ acc ≤ max → parse_digits max acc l = Some v →
  0 ≤ v ≤ max ∧ v < (acc + 1) * 10 ^ zlen l.
Proof.
  revert acc. induction l as [|c l IH]; intros acc Ha; simpl.
  { intros [= ->]. change (zlen []) with 0. lia. }
  unfold to_digit, is_ascii_digit, in_range_incl. destruct (_ && _) eqn:E; simpl; [|done].
  unfold checked_mul, checked_add. destruct (_ <=? max) eqn:E1; simpl; [|done].
  destruct (_ + _ <=? max) eqn:E2; simpl; [|done]. intros Hp.
  apply IH in Hp; [|lia]. pose proof (zlen_nonneg l) as Hl. rewrite zlen_cons, Z.pow_add_r by lia.
  split; [tauto|]. destruct Hp as [_ Hp].
  pose proof (Z.pow_pos_nonneg 10 (zlen l) ltac:(lia) ltac:(lia)). nia.
Qed.

Lemma parse_uint_bound max l v :
  0 ≤ max → parse_uint max l = Some v → 0 ≤ v ≤ max ∧ l ≠ [] ∧ v < 10 ^ zlen l.
Proof.
  intros Hmax. destruct l as [|c [|d l]]; [done|..]; unfold parse_uint.
  - intros H%parse_digits_bound; [|lia]. split_and!; [lia|lia|done|lia].
  - case_decide; intros Hp%parse_digits_bound; try lia; split_and!; [lia|lia|done| |lia|lia|done|lia].
    destruct Hp as [_ Hp]. rewrite (zlen_cons c). pose proof (zlen_nonneg (d :: l)).
    rewrite Z.pow_add_r by lia. nia.
Qed.

Lemma parse_uint_digits max l :
  l ≠ [] → Forall (λ c, is_ascii_digit c = true) l → parse_uint max l = parse_digits max 0 l.
Proof.
  intros Hne Hl. destruct Hl as [|c l Hc Hl]; [done|]. destruct l; [done|].
  unfold parse_uint. rewrite decide_False; [done|]. by intros ->.
Qed.
Lemma chr_byte c : chr (byte c) = c.
Proof. unfold byte, chr. by rewrite N2Z.id, ascii_N_embedding. Qed.
