(* ===== verification/MbootProtocol.v ===== *)
(** * The mBoot control protocol: messages, validation and codec

    Models [mboot-protocol/src/lib.rs] up to the buffer writer: the message
    types, [validate_message], [decode_line], [encoded_len] and
    [encode_line].  Strings are byte sequences ([Text]); lengths are
    unbounded integers ([usize] cannot overflow on lengths of objects in
    memory). *)

From S2P Require Import Prelude Text.

Definition VERSION : Z := 1.
Definition MAX_MESSAGE_LEN : Z := 512 * 1024.

Inductive Destination := Mboot | Mochios.
#[global] Instance Destination_eq_dec : EqDecision Destination.
Proof. solve_decision. Defined.

Definition destination_str (d : Destination) : str :=
  match d with Mboot => lit "@MBOOT" | Mochios => lit "@MOCHIOS" end.

Inductive MessageType := Request | Response | Event.
#[global] Instance MessageType_eq_dec : EqDecision MessageType.
Proof. solve_decision. Defined.

Definition message_type_str (t : MessageType) : str :=
  match t with Request => lit "REQ" | Response => lit "RES" | Event => lit "EVT" end.

Inductive KnownCommand :=
  | ProtocolSync
  | ProtocolHello
  | ProtocolWelcome
  | ProtocolPing
  | GuestReady
  | GuestHeartbeat
  | GuestStatus
  | GuestStopping
  | GuestShutdown
  | GuestReboot
  | GuestPanic
  | HostStatus
  | HostPoweroff
  | HostReboot
  | DeveloperBegin
  | DeveloperChunk
  | DeveloperCompile
  | DeveloperRead
  | DeveloperCancel
  | LinuxLaunch
  | LinuxStageBegin
  | LinuxStageChunk
  | LinuxStageCommit
  | LinuxStageCancel
  | LinuxPortalReset
  | LinuxPortalGrant
  | LinuxPortalMkdir
  | LinuxPortalFileBegin
  | LinuxPortalFileChunk
  | LinuxPortalFileCommit
  | LinuxPortalFileCancel
  | LinuxPortalRelease
  | LinuxPortalExportBegin
  | LinuxPortalExportEntry
  | LinuxPortalExportChunk
  | LinuxPortalExportEnd
  | LinuxBundleLaunch
  | LinuxWindows
  | LinuxWindowInfo
  | LinuxFrame
  | LinuxInput
  | LinuxConfigure
  | LinuxClose
  | WifiStatus
  | WifiScan
  | WifiSetEnabled
  | WifiConnect
  | WifiDisconnect.
#[global] Instance KnownCommand_eq_dec : EqDecision KnownCommand.
Proof. solve_decision. Defined.

(** [KnownCommand::ALL]. *)
Definition ALL : list KnownCommand :=
  [
   ProtocolSync; ProtocolHello; ProtocolWelcome; ProtocolPing; GuestReady; GuestHeartbeat;
   GuestStatus; GuestStopping; GuestShutdown; GuestReboot; GuestPanic; HostStatus;
   HostPoweroff; HostReboot; DeveloperBegin; DeveloperChunk; DeveloperCompile;
   DeveloperRead; DeveloperCancel; LinuxLaunch; LinuxStageBegin; LinuxStageChunk;
   LinuxStageCommit; LinuxStageCancel; LinuxPortalReset; LinuxPortalGrant;
   LinuxPortalMkdir; LinuxPortalFileBegin; LinuxPortalFileChunk; LinuxPortalFileCommit;
   LinuxPortalFileCancel; LinuxPortalRelease; LinuxPortalExportBegin;
   LinuxPortalExportEntry; LinuxPortalExportChunk; LinuxPortalExportEnd; LinuxBundleLaunch;
   LinuxWindows; LinuxWindowInfo; LinuxFrame; LinuxInput; LinuxConfigure; LinuxClose;
   WifiStatus; WifiScan; WifiSetEnabled; WifiConnect; WifiDisconnect].

Definition command_name (c : KnownCommand) : string :=
  match c with
  | ProtocolSync => "PROTOCOL.SYNC"
  | ProtocolHello => "PROTOCOL.HELLO"
  | ProtocolWelcome => "PROTOCOL.WELCOME"
  | ProtocolPing => "PROTOCOL.PING"
  | GuestReady => "GUEST.READY"
  | GuestHeartbeat => "GUEST.HEARTBEAT"
  | GuestStatus => "GUEST.STATUS"
  | GuestStopping => "GUEST.STOPPING"
  | GuestShutdown => "GUEST.SHUTDOWN"
  | GuestReboot => "GUEST.REBOOT"
  | GuestPanic => "GUEST.PANIC"
  | HostStatus => "HOST.STATUS"
  | HostPoweroff => "HOST.POWEROFF"
  | HostReboot => "HOST.REBOOT"
  | DeveloperBegin => "DEVELOPER.BEGIN"
  | DeveloperChunk => "DEVELOPER.CHUNK"
  | DeveloperCompile => "DEVELOPER.COMPILE"
  | DeveloperRead => "DEVELOPER.READ"
  | DeveloperCancel => "DEVELOPER.CANCEL"
  | LinuxLaunch => "LINUX.LAUNCH"
  | LinuxStageBegin => "LINUX.STAGE.BEGIN"
  | LinuxStageChunk => "LINUX.STAGE.CHUNK"
  | LinuxStageCommit => "LINUX.STAGE.COMMIT"
  | LinuxStageCancel => "LINUX.STAGE.CANCEL"
  | LinuxPortalReset => "LINUX.PORTAL.RESET"
  | LinuxPortalGrant => "LINUX.PORTAL.GRANT"
  | LinuxPortalMkdir => "LINUX.PORTAL.MKDIR"
  | LinuxPortalFileBegin => "LINUX.PORTAL.FILE.BEGIN"
  | LinuxPortalFileChunk => "LINUX.PORTAL.FILE.CHUNK"
  | LinuxPortalFileCommit => "LINUX.PORTAL.FILE.COMMIT"
  | LinuxPortalFileCancel => "LINUX.PORTAL.FILE.CANCEL"
  | LinuxPortalRelease => "LINUX.PORTAL.RELEASE"
  | LinuxPortalExportBegin => "LINUX.PORTAL.EXPORT.BEGIN"
  | LinuxPortalExportEntry => "LINUX.PORTAL.EXPORT.ENTRY"
  | LinuxPortalExportChunk => "LINUX.PORTAL.EXPORT.CHUNK"
  | LinuxPortalExportEnd => "LINUX.PORTAL.EXPORT.END"
  | LinuxBundleLaunch => "LINUX.BUNDLE.LAUNCH"
  | LinuxWindows => "LINUX.WINDOWS"
  | LinuxWindowInfo => "LINUX.WINDOW.INFO"
  | LinuxFrame => "LINUX.FRAME"
  | LinuxInput => "LINUX.INPUT"
  | LinuxConfigure => "LINUX.CONFIGURE"
  | LinuxClose => "LINUX.CLOSE"
  | WifiStatus => "WIFI.STATUS"
  | WifiScan => "WIFI.SCAN"
  | WifiSetEnabled => "WIFI.SET.ENABLED"
  | WifiConnect => "WIFI.CONNECT"
  | WifiDisconnect => "WIFI.DISCONNECT"
  end%string.
(** [KnownCommand::as_str]. *)
Definition known_str (c : KnownCommand) : str := lit (command_name c).

(** The arms of [KnownCommand::parse], in order. *)
Definition parse_arms : list (string * KnownCommand) :=
  [
   ("PROTOCOL.SYNC", ProtocolSync);
   ("PROTOCOL.HELLO", ProtocolHello);
   ("PROTOCOL.WELCOME", ProtocolWelcome);
   ("PROTOCOL.PING", ProtocolPing);
   ("GUEST.READY", GuestReady);
   ("GUEST.HEARTBEAT", GuestHeartbeat);
   ("GUEST.STATUS", GuestStatus);
   ("GUEST.STOPPING", GuestStopping);
   ("GUEST.SHUTDOWN", GuestShutdown);
   ("GUEST.REBOOT", GuestReboot);
   ("GUEST.PANIC", GuestPanic);
   ("HOST.STATUS", HostStatus);
   ("HOST.POWEROFF", HostPoweroff);
   ("HOST.REBOOT", HostReboot);
   ("DEVELOPER.BEGIN", DeveloperBegin);
   ("DEVELOPER.CHUNK", DeveloperChunk);
   ("DEVELOPER.COMPILE", DeveloperCompile);
   ("DEVELOPER.READ", DeveloperRead);
   ("DEVELOPER.CANCEL", DeveloperCancel);
   ("LINUX.LAUNCH", LinuxLaunch);
   ("LINUX.STAGE.BEGIN", LinuxStageBegin);
   ("LINUX.STAGE.CHUNK", LinuxStageChunk);
   ("LINUX.STAGE.COMMIT", LinuxStageCommit);
   ("LINUX.STAGE.CANCEL", LinuxStageCancel);
   ("LINUX.PORTAL.RESET", LinuxPortalReset);
   ("LINUX.PORTAL.GRANT", LinuxPortalGrant);
   ("LINUX.PORTAL.MKDIR", LinuxPortalMkdir);
   ("LINUX.PORTAL.FILE.BEGIN", LinuxPortalFileBegin);
   ("LINUX.PORTAL.FILE.CHUNK", LinuxPortalFileChunk);
   ("LINUX.PORTAL.FILE.COMMIT", LinuxPortalFileCommit);
   ("LINUX.PORTAL.FILE.CANCEL", LinuxPortalFileCancel);
   ("LINUX.PORTAL.RELEASE", LinuxPortalRelease);
   ("LINUX.PORTAL.EXPORT.BEGIN", LinuxPortalExportBegin);
   ("LINUX.PORTAL.EXPORT.ENTRY", LinuxPortalExportEntry);
   ("LINUX.PORTAL.EXPORT.CHUNK", LinuxPortalExportChunk);
   ("LINUX.PORTAL.EXPORT.END", LinuxPortalExportEnd);
   ("LINUX.BUNDLE.LAUNCH", LinuxBundleLaunch);
   ("LINUX.WINDOWS", LinuxWindows);
   ("LINUX.WINDOW.INFO", LinuxWindowInfo);
   ("LINUX.FRAME", LinuxFrame);
   ("LINUX.INPUT", LinuxInput);
   ("LINUX.CONFIGURE", LinuxConfigure);
   ("LINUX.CLOSE", LinuxClose);
   ("WIFI.STATUS", WifiStatus);
   ("WIFI.SCAN", WifiScan);
   ("WIFI.SET.ENABLED", WifiSetEnabled);
   ("WIFI.CONNECT", WifiConnect);
   ("WIFI.DISCONNECT", WifiDisconnect)
  ]%string.
(** A [match] of a string against literal patterns. *)
Definition match_str {A} (arms : list (string * A)) (value : str) : option A :=
  snd <$> List.find (λ arm, str_eqb (lit (fst arm)) value) arms.
Definition known_parse (value : str) : option KnownCommand := match_str parse_arms value.

Inductive Command := Known (c : KnownCommand) | UnsupportedName (name : str).
#[global] Instance Command_eq_dec : EqDecision Command.
Proof. solve_decision. Defined.

(** [Command::as_str] and [Command::known]. *)
Definition command_str (c : Command) : str :=
  match c with Known c => known_str c | UnsupportedName name => name end.
Definition command_known (c : Command) : option KnownCommand :=
  match c with Known c => Some c | UnsupportedName _ => None end.

Inductive ErrorCode :=
  | Unsupported | InvalidCommand | InvalidArgumentCode | InvalidStateCode
  | PermissionDenied | Busy | Timeout | Internal.
#[global] Instance ErrorCode_eq_dec : EqDecision ErrorCode.
Proof. solve_decision. Defined.

Definition error_code_name (e : ErrorCode) : string :=
  match e with
  | Unsupported => "unsupported"
  | InvalidCommand => "invalid_command"
  | InvalidArgumentCode => "invalid_argument"
  | InvalidStateCode => "invalid_state"
  | PermissionDenied => "permission_denied"
  | Busy => "busy"
  | Timeout => "timeout"
  | Internal => "internal"
  end%string.
(** [ErrorCode::as_str]. *)
Definition error_code_str (e : ErrorCode) : str := lit (error_code_name e).

Definition error_code_arms : list (string * ErrorCode) :=
  [("unsupported", Unsupported);
   ("invalid_command", InvalidCommand);
   ("invalid_argument", InvalidArgumentCode);
   ("invalid_state", InvalidStateCode);
   ("permission_denied", PermissionDenied);
   ("busy", Busy);
   ("timeout", Timeout);
   ("internal", Internal)]%string.
(** [ErrorCode::parse]. *)
Definition error_code_parse (value : str) : option ErrorCode := match_str error_code_arms value.

Inductive Body := BodyCommand (c : Command) | BodyOk | BodyError (e : ErrorCode).
#[global] Instance Body_eq_dec : EqDecision Body.
Proof. solve_decision. Defined.

Record Argument := mkArgument { key : str; value : str }.
#[global] Instance Argument_eq_dec : EqDecision Argument.
Proof. solve_decision. Defined.

Record Message := mkMessage {
  destination : Destination;
  version : Z;
  message_type : MessageType;
  request_id : Z;
  body : Body;
  arguments : list Argument;
}.
#[global] Instance Message_eq_dec : EqDecision Message.
Proof. solve_decision. Defined.

(** [Message::command], [Message::ok] and [Message::error]. *)
Definition message_command (d : Destination) (t : MessageType) (id : Z) (c : KnownCommand)
    (args : list Argument) : Message :=
  mkMessage d VERSION t id (BodyCommand (Known c)) args.
Definition message_ok (d : Destination) (id : Z) (args : list Argument) : Message :=
  mkMessage d VERSION Response id BodyOk args.
Definition message_error (d : Destination) (id : Z) (e : ErrorCode) (args : list Argument)
    : Message :=
  mkMessage d VERSION Response id (BodyError e) args.

Definition known_command (m : Message) : option KnownCommand :=
  match body m with BodyCommand c => command_known c | BodyOk | BodyError _ => None end.

(** [Message::argument]. *)
Definition find_argument (args : list Argument) (k : str) : option str :=
  value <$> List.find (λ a, str_eqb (key a) k) args.
Definition argument (m : Message) (k : string) : option str := find_argument (arguments m) (lit k).

Inductive DecodeError :=
  | TooLong | InvalidUtf8 | MissingLineFeed | EmbeddedLineFeed | MissingField
  | UnknownDestination | DInvalidVersion | UnknownMessageType | DInvalidRequestId
  | InvalidBody | DInvalidMessageType | DInvalidDirection | DInvalidArgument
  | DDuplicateArgument.

Inductive ValidationError :=
  | InvalidVersion | InvalidRequestId | InvalidMessageType | InvalidDirection
  | InvalidArgument | DuplicateArgument | UnsupportedCommand | InvalidState
  | TooManyPendingRequests | RequestIdInUse | RequestIdNotPending.
#[global] Instance ValidationError_eq_dec : EqDecision ValidationError.
Proof. solve_decision. Defined.

Inductive EncodeError :=
  | InvalidMessage (e : ValidationError)
  | BufferTooSmall (required : Z).

(** ** Validation *)

Definition valid_key (v : str) : bool :=
  negb (bool_decide (v = [])) &&
  forallb (λ c, is_ascii_graphic c && negb (bool_decide (c = "="%char))) v.
Definition valid_value (v : str) : bool :=
  negb (bool_decide (v = [])) &&
  forallb (λ c, is_ascii_alphanumeric c ||
                bool_decide (c ∈ ["."; "_"; ":"; "/"; "+"; "-"; ","]%char)) v.

(** The loop of [validate_arguments]; [seen] is [arguments[..index]]. *)
Fixpoint validate_arguments_from (seen args : list Argument) : result ValidationError unit :=
  match args with
  | [] => Ok tt
  | a :: args =>
      if negb (valid_key (key a)) || negb (valid_value (value a)) then Err InvalidArgument
      else if existsb (λ e, str_eqb (key e) (key a)) seen then Err DuplicateArgument
      else validate_arguments_from (seen ++ [a]) args
  end.
Definition validate_arguments (args : list Argument) : result ValidationError unit :=
  validate_arguments_from [] args.

Definition valid_hex (v : str) (minimum_bytes maximum_bytes : Z) : bool :=
  (zlen v mod 2 =? 0) &&
  ((minimum_bytes * 2 <=? zlen v) && (zlen v <=? maximum_bytes * 2)) &&
  forallb is_ascii_hexdigit v.

Definition parse_u64_argument (m : Message) (k : string) : option Z :=
  argument m k ≫= parse_uint U64_MAX.

(** [argument(k).is_some()], [parse_u64_argument(k).is_some()] and
    [matches!(argument(k), Some(..))]. *)
Definition has (m : Message) (k : string) : bool := bool_decide (is_Some (argument m k)).
Definition num (m : Message) (k : string) : bool := bool_decide (is_Some (parse_u64_argument m k)).
Definition one_of (m : Message) (k : string) (values : list string) : bool :=
  match argument m k with
  | Some v => existsb (λ w, str_eqb (lit w) v) values
  | None => false
  end.

(** The conditions of [validate_command_arguments]; every failure of one of
    them is [InvalidArgument]. *)
Definition wifi_connect_ok (m : Message) : bool :=
  let security := argument m "security" in
  let credential := argument m "credential" in
  one_of m "security" ["open"; "secured"]%string &&
  (match argument m "ssid" with Some ssid => valid_hex ssid 1 32 | None => false end) &&
  negb (bool_decide (security = Some (lit "open")) && bool_decide (is_Some credential)) &&
  negb (bool_decide (security = Some (lit "secured")) &&
        (match credential with Some v => negb (valid_hex v 1 63) | None => true end)) &&
  (zlen (arguments m) =? if bool_decide (security = Some (lit "open")) then 2 else 3).

Definition command_arguments_ok (c : KnownCommand) (m : Message) : bool :=
  match c with
  | ProtocolHello =>
      bool_decide (argument m "system" = Some (lit "mochios")) && has m "version" && has m "boot_id"
  | ProtocolWelcome =>
      bool_decide (argument m "version" = Some (lit "1")) && has m "session" && num m "heartbeat_ms"
  | GuestReady => one_of m "stage" ["firmware"; "kernel"; "userspace"; "display"; "desktop"]%string
  | GuestHeartbeat => num m "uptime_ms"
  | DeveloperBegin => num m "transaction" && num m "size"
  | DeveloperChunk => num m "transaction" && num m "offset" && has m "data"
  | DeveloperCompile | DeveloperCancel => num m "transaction"
  | DeveloperRead =>
      num m "transaction" && num m "offset" && num m "maximum" &&
      one_of m "stream" ["output"; "diagnostics"]%string
  | LinuxLaunch => has m "application" && num m "instance"
  | LinuxStageBegin => num m "instance" && has m "bundle" && num m "size" && has m "digest"
  | LinuxStageChunk => num m "instance" && num m "offset" && has m "data"
  | LinuxStageCommit | LinuxStageCancel => num m "instance"
  | LinuxPortalReset | LinuxPortalFileCommit | LinuxPortalFileCancel | LinuxPortalRelease
  | LinuxPortalExportEnd => num m "instance"
  | LinuxPortalGrant =>
      num m "instance" && num m "grant" && one_of m "access" ["read"; "write"]%string &&
      has m "path" && num m "mode"
  | LinuxPortalMkdir => num m "instance" && num m "grant" && has m "path" && num m "mode"
  | LinuxPortalFileBegin =>
      num m "instance" && num m "grant" && num m "size" && has m "path" && num m "mode"
  | LinuxPortalFileChunk => num m "instance" && num m "offset" && has m "data"
  | LinuxPortalExportBegin => num m "instance" && num m "grant"
  | LinuxPortalExportEntry => num m "instance" && num m "index"
  | LinuxPortalExportChunk =>
      num m "instance" && num m "index" && num m "offset" && num m "maximum"
  | LinuxBundleLaunch =>
      num m "instance" && has m "bundle" && has m "entry" && has m "user" && has m "writable" &&
      one_of m "network" ["none"; "client"]%string
  | LinuxWindows => num m "instance"
  | LinuxWindowInfo | LinuxClose => num m "instance" && num m "window"
  | LinuxConfigure => num m "instance" && num m "window" && (num m "width" && num m "height")
  | LinuxFrame =>
      num m "instance" && num m "window" && num m "generation" && num m "offset" && num m "maximum"
  | LinuxInput =>
      num m "instance" && num m "window" &&
      one_of m "kind" ["motion"; "button"; "key"; "scroll"; "focus"]%string &&
      num m "code" && num m "value" && num m "x" && num m "y" && num m "modifiers"
  | WifiStatus | WifiScan | WifiDisconnect => bool_decide (arguments m = [])
  | WifiSetEnabled => (zlen (arguments m) =? 1) && one_of m "enabled" ["0"; "1"]%string
  | WifiConnect => wifi_connect_ok m
  | ProtocolSync | ProtocolPing | GuestStatus | GuestStopping | GuestShutdown | GuestReboot
  | GuestPanic | HostStatus | HostPoweroff | HostReboot => true
  end.
Definition validate_command_arguments (c : KnownCommand) (m : Message)
    : result ValidationError unit :=
  ensure (command_arguments_ok c m) InvalidArgument.

Inductive AllowedDestination := AllowMboot | AllowMochios | Either.
Definition accepts (a : AllowedDestination) (d : Destination) : bool :=
  match a, d with
  | AllowMboot, Mboot | AllowMochios, Mochios | Either, _ => true
  | _, _ => false
  end.

Definition command_contract (c : KnownCommand) : AllowedDestination * MessageType :=
  match c with
  | ProtocolSync | ProtocolPing => (Either, Request)
  | ProtocolHello => (AllowMboot, Request)
  | ProtocolWelcome => (AllowMochios, Response)
  | GuestReady | GuestHeartbeat | GuestStopping | GuestPanic => (AllowMboot, Event)
  | GuestStatus | GuestShutdown | GuestReboot => (AllowMochios, Request)
  | HostStatus | HostPoweroff | HostReboot => (AllowMboot, Request)
  | DeveloperBegin | DeveloperChunk | DeveloperCompile | DeveloperRead | DeveloperCancel
  | LinuxLaunch | LinuxStageBegin | LinuxStageChunk | LinuxStageCommit | LinuxStageCancel
  | LinuxPortalReset | LinuxPortalGrant | LinuxPortalMkdir | LinuxPortalFileBegin
  | LinuxPortalFileChunk | LinuxPortalFileCommit | LinuxPortalFileCancel | LinuxPortalRelease
  | LinuxPortalExportBegin | LinuxPortalExportEntry | LinuxPortalExportChunk
  | LinuxPortalExportEnd | LinuxBundleLaunch | LinuxWindows | LinuxWindowInfo | LinuxFrame
  | LinuxInput | LinuxConfigure | LinuxClose | WifiStatus | WifiScan | WifiSetEnabled
  | WifiConnect | WifiDisconnect => (AllowMboot, Request)
  end.

Definition validate_message (m : Message) : result ValidationError unit :=
  ensure (version m =? VERSION) InvalidVersion;;
  ensure (match message_type m with
            | Event => request_id m =? 0
            | Request | Response => negb (request_id m =? 0)
            end) InvalidRequestId;;
  validate_arguments (arguments m);;
  match body m with
  | BodyError _ => ensure (negb (has m "code")) DuplicateArgument
  | _ => Ok tt
  end;;
  match body m with
  | BodyCommand (Known c) =>
      validate_command_arguments c m;;
      let '(d, t) := command_contract c in
      let streaming_stage_chunk :=
        bool_decide (c = LinuxStageChunk) && bool_decide (message_type m = Event) in
      ensure (bool_decide (t = message_type m) || streaming_stage_chunk) InvalidMessageType;;
      ensure (accepts d (destination m)) InvalidDirection
  | BodyCommand (UnsupportedName _) => Err UnsupportedCommand
  | BodyOk | BodyError _ => ensure (bool_decide (message_type m = Response)) InvalidMessageType
  end.

(** ** Decoding *)

Definition parse_destination (f : str) : result DecodeError Destination :=
  ok_or UnknownDestination (match_str [("@MBOOT", Mboot); ("@MOCHIOS", Mochios)]%string f).
Definition parse_message_type (f : str) : result DecodeError MessageType :=
  ok_or UnknownMessageType (match_str [("REQ", Request); ("RES", Response); ("EVT", Event)]%string f).
(** The [match body_text] of [decode_line]. *)
Definition parse_body (f : str) : Body :=
  if str_eqb (lit "OK") f then BodyOk
  else if str_eqb (lit "ERROR") f then BodyError Internal
  else BodyCommand (match known_parse f with Some c => Known c | None => UnsupportedName f end).

(** The loop over the argument fields. *)
Fixpoint parse_arguments (acc : list Argument) (fields : list str)
    : result DecodeError (list Argument) :=
  match fields with
  | [] => Ok acc
  | field :: fields =>
      if bool_decide (field = []) then Err DInvalidArgument
      else
        match split_once "=" field with
        | None => Err DInvalidArgument
        | Some (k, v) =>
            if negb (valid_key k) || negb (valid_value v) then Err DInvalidArgument
            else if existsb (λ a, str_eqb (key a) k) acc then Err DDuplicateArgument
            else parse_arguments (acc ++ [mkArgument k v]) fields
        end
  end.

(** The [ERROR] body takes its code out of the arguments. *)
Definition take_code (m : Message) : result DecodeError Message :=
  '(i, a) ← ok_or InvalidBody (list_find (λ a, key a = lit "code") (arguments m));
  code ← ok_or InvalidBody (error_code_parse (value a));
  Ok (mkMessage (destination m) (version m) (message_type m) (request_id m) (BodyError code)
        (delete i (arguments m))).

Definition next_field (fields : list str) : result DecodeError (str * list str) :=
  match fields with f :: fields => Ok (f, fields) | [] => Err MissingField end.

Definition decode_status (e : ValidationError) : DecodeError :=
  match e with
  | InvalidVersion => DInvalidVersion
  | InvalidRequestId => DInvalidRequestId
  | InvalidArgument => DInvalidArgument
  | InvalidDirection => DInvalidDirection
  | DuplicateArgument => DDuplicateArgument
  | InvalidMessageType => DInvalidMessageType
  | _ => InvalidBody
  end.

(** [decode_line] from [line.split(' ')] to the built message. *)
Definition decode_fields (fields : list str) : result DecodeError Message :=
  '(f, fields) ← next_field fields;
  d ← parse_destination f;
  '(f, fields) ← next_field fields;
  v ← ok_or DInvalidVersion (parse_uint U16_MAX f);
  ensure (v =? VERSION) DInvalidVersion;;
  '(f, fields) ← next_field fields;
  t ← parse_message_type f;
  '(f, fields) ← next_field fields;
  id ← ok_or DInvalidRequestId (parse_uint U64_MAX f);
  '(body_text, fields) ← next_field fields;
  ensure (negb (bool_decide (body_text = []))) MissingField;;
  args ← parse_arguments [] fields;
  let m := mkMessage d v t id (parse_body body_text) args in
  if str_eqb (lit "ERROR") body_text then take_code m else Ok m.

Definition LF : ascii := "010".
Definition CR : ascii := "013".

Definition decode_line (bytes : str) : result DecodeError Message :=
  ensure (zlen bytes <=? MAX_MESSAGE_LEN) TooLong;;
  ensure (bool_decide (last bytes = Some LF)) MissingLineFeed;;
  let content := take (length bytes - 1) bytes in
  ensure (negb (bool_decide (LF ∈ content) || bool_decide (CR ∈ content))) EmbeddedLineFeed;;
  ensure (from_utf8 content) InvalidUtf8;;
  m ← decode_fields (split " " content);
  match validate_message m with
  | Ok _ | Err UnsupportedCommand => Ok m
  | Err e => Err (decode_status e)
  end.

(** ** Encoding *)

(** [decimal_len]: [while value >= 10]; a [u64] has at most 20 digits. *)
Fixpoint decimal_len_loop (fuel : nat) (v length : Z) : Z :=
  match fuel with
  | O => length
  | S fuel => if v >=? 10 then decimal_len_loop fuel (v / 10) (length + 1) else length
  end.
Definition decimal_len (v : Z) : Z := decimal_len_loop 20 v 1.

Definition body_str (b : Body) : str :=
  match b with BodyCommand c => command_str c | BodyOk => lit "OK" | BodyError _ => lit "ERROR" end.

Definition encoded_len (m : Message) : result EncodeError Z :=
  map_err InvalidMessage (validate_message m);;
  let length :=
    zlen (destination_str (destination m)) + 1 + decimal_len (version m) + 1 +
    zlen (message_type_str (message_type m)) + 1 + decimal_len (request_id m) + 1 +
    zlen (body_str (body m)) + 1 in
  let length := fold_left (λ n a, n + (1 + zlen (key a) + 1 + zlen (value a))) (arguments m) length in
  let length :=
    match body m with
    | BodyError code => length + (1 + zlen (lit "code=") + zlen (error_code_str code))
    | _ => length
    end in
  if length >? MAX_MESSAGE_LEN then Err (InvalidMessage InvalidArgument) else Ok length.

(** [BufferWriter]: the state, and [None] where a slice index is out of
    range. *)
Record BufferWriter := mkBufferWriter { output : str; offset : nat }.

Definition copy_from_slice (w : BufferWriter) (v : str) : option BufferWriter :=
  let end_ := (offset w + length v)%nat in
  if decide (end_ ≤ length (output w))%nat
  then Some (mkBufferWriter (take (offset w) (output w) ++ v ++ drop end_ (output w)) end_)
  else None.
(** [BufferWriter::write] and [BufferWriter::write_u64]. *)
Definition write (v : str) (w : BufferWriter) : option BufferWriter := copy_from_slice w v.
Definition write_u64 (v : Z) (w : BufferWriter) : option BufferWriter :=
  ds ← digits 20 v []; copy_from_slice w ds.

Definition write_argument (a : Argument) (w : BufferWriter) : option BufferWriter :=
  w ← write (lit " ") w;
  w ← write (key a) w;
  w ← write (lit "=") w;
  write (value a) w.
Fixpoint write_arguments (args : list Argument) (w : BufferWriter) : option BufferWriter :=
  match args with
  | [] => Some w
  | a :: args => w ← write_argument a w; write_arguments args w
  end.
Definition write_body (b : Body) (w : BufferWriter) : option BufferWriter :=
  match b with
  | BodyCommand c => write (command_str c) w
  | BodyOk => write (lit "OK") w
  | BodyError code => w ← write (lit "ERROR code=") w; write (error_code_str code) w
  end.

(** The writes of [encode_line]. *)
Definition write_message (m : Message) (w : BufferWriter) : option BufferWriter :=
  w ← write (destination_str (destination m)) w;
  w ← write (lit " ") w;
  w ← write_u64 (version m) w;
  w ← write (lit " ") w;
  w ← write (message_type_str (message_type m)) w;
  w ← write (lit " ") w;
  w ← write_u64 (request_id m) w;
  w ← write (lit " ") w;
  w ← write_body (body m) w;
  w ← write_arguments (arguments m) w;
  write [LF] w.

(** [encode_line]: the buffer afterwards and the result; [None] is a panic. *)
Definition encode_line (m : Message) (out : str) : option (str * result EncodeError Z) :=
  match encoded_len m with
  | Err e => Some (out, Err e)
  | Ok required =>
      if zlen out <? required then Some (out, Err (BufferTooSmall required))
      else w ← write_message m (mkBufferWriter out 0); Some (output w, Ok required)
  end.

(** [encode_to_string]. *)
Definition encode_to_string (m : Message) : option (result EncodeError str) :=
  match encoded_len m with
  | Err e => Some (Err e)
  | Ok length =>
      '(bytes, res) ← encode_line m (replicate (Z.to_nat length) "000"%char);
      Some (res;; if from_utf8 bytes then Ok bytes else Err (InvalidMessage InvalidArgument))
  end.

(** ** Specification: the wire form of a message *)

Definition dec (v : Z) : str := default [] (digits 20 v []).
Definition argument_field (a : Argument) : str := key a ++ "="%char :: value a.
Definition body_fields (b : Body) : list str :=
  match b with
  | BodyError code => [lit "ERROR"; lit "code=" ++ error_code_str code]
  | b => [body_str b]
  end.
Definition wire_fields (m : Message) : list str :=
  [destination_str (destination m); dec (version m); message_type_str (message_type m);
   dec (request_id m)] ++ body_fields (body m) ++ (argument_field <$> arguments m).
Definition wire (m : Message) : str := join " " (wire_fields m) ++ [LF].

(** ** Literal tables *)

Lemma match_str_Some {A} (arms : list (string * A)) v x :
  match_str arms v = Some x → ∃ s, (s, x) ∈ arms ∧ v = lit s.
Proof.
  unfold match_str. destruct (List.find _ arms) as [[s y]|] eqn:E; simpl; [|done].
  intros [= <-]. apply find_some in E as [Hin E]. unfold str_eqb in E.
  case_bool_decide; [|done]. exists s. by rewrite list_elem_of_In.
Qed.

Lemma known_parse_str c : known_parse (known_str c) = Some c.
Proof. by destruct c; vm_compute. Qed.
Lemma known_parse_Some v c : known_parse v = Some c → known_str c = v.
Proof.
  intros (s & Hs & ->)%match_str_Some. unfold known_str. f_equal. revert s c Hs.
  assert (Forall (λ p, command_name p.2 = p.1) parse_arms) as H by (by repeat constructor).
  rewrite Forall_forall in H. intros s c Hs. apply (H _ Hs).
Qed.
Lemma error_code_parse_str e : error_code_parse (error_code_str e) = Some e.
Proof. by destruct e; vm_compute. Qed.
Lemma error_code_parse_Some v e : error_code_parse v = Some e → error_code_str e = v.
Proof.
  intros (s & Hs & ->)%match_str_Some. unfold error_code_str. f_equal. revert s e Hs.
  assert (Forall (λ p, error_code_name p.2 = p.1) error_code_arms) as H by (by repeat constructor).
  rewrite Forall_forall in H. intros s e Hs. apply (H _ Hs).
Qed.
Lemma parse_destination_str d : parse_destination (destination_str d) = Ok d.
Proof. by destruct d; vm_compute. Qed.
Lemma parse_destination_Ok f d : parse_destination f = Ok d → f = destination_str d.
Proof.
  unfold parse_destination. destruct (match_str _ f) eqn:E; [|done]. intros [= <-].
  apply match_str_Some in E as (s & Hs & ->). set_solver.
Qed.
Lemma parse_message_type_str t : parse_message_type (message_type_str t) = Ok t.
Proof. by destruct t; vm_compute. Qed.
Lemma parse_message_type_Ok f t : parse_message_type f = Ok t → f = message_type_str t.
Proof.
  unfold parse_message_type. destruct (match_str _ f) eqn:E; [|done]. intros [= <-].
  apply match_str_Some in E as (s & Hs & ->). set_solver.
Qed.

(** The body text of a known command, [OK] or [ERROR]. *)
Lemma parse_body_command c : parse_body (known_str c) = BodyCommand (Known c).
Proof.
  unfold parse_body. rewrite known_parse_str. by destruct c; vm_compute.
Qed.
Lemma parse_body_str f :
  body_str (parse_body f) = f ∧ (str_eqb (lit "ERROR") f = true ↔ ∃ e, parse_body f = BodyError e).
Proof.
  unfold parse_body, str_eqb. case_bool_decide as E1; [subst; split; [done|naive_solver]|].
  case_bool_decide as E2; [subst; split; [done|naive_solver]|].
  split; [|naive_solver]. simpl. destruct (known_parse f) eqn:E; simpl; [|done].
  by apply known_parse_Some.
Qed.

(** ** Numbers *)

Lemma dec_spec v :
  is_u64 v →
  digits 20 v [] = Some (dec v) ∧ dec v ≠ [] ∧ Forall (λ c, is_ascii_digit c = true) (dec v) ∧
  (∀ max, v ≤ max → parse_uint max (dec v) = Some v) ∧
  (∀ n, v < 10 ^ n → 0 < n → zlen (dec v) ≤ n).
Proof.
  intros Hv. destruct (digits_spec 20 v []) as (l & H1 & H2 & H3 & H4 & H5); [width|lia|].
  unfold dec. rewrite app_nil_r in H1. rewrite H1. simpl. split_and!; try done.
  intros max Hm. rewrite parse_uint_digits by done. specialize (H4 max [] Hm).
  by rewrite app_nil_r in H4.
Qed.

Lemma decimal_len_digits fuel v acc l :
  0 ≤ v → digits fuel v acc = Some l → decimal_len_loop fuel v (1 + zlen acc) = zlen l.
Proof.
  revert v acc. induction fuel as [|fuel IH]; intros v acc Hv; simpl; [done|].
  destruct (v / 10 =? 0) eqn:E; intros H.
  - injection H as <-. rewrite Z.geb_leb, (proj2 (Z.leb_gt _ _)); [by rewrite zlen_cons|].
    apply Z.eqb_eq, Z.div_small_iff in E; lia.
  - apply IH in H; [|apply Z.div_pos; lia]. rewrite Z.geb_leb, (proj2 (Z.leb_le _ _)).
    + by rewrite zlen_cons, (Z.add_comm 1 (zlen acc)), Z.add_assoc in H.
    + apply Z.eqb_neq in E. destruct (Z.lt_ge_cases v 10); [|done]. by rewrite Z.div_small in E by lia.
Qed.

Lemma decimal_len_dec v : is_u64 v → decimal_len v = zlen (dec v).
Proof.
  intros Hv. destruct (dec_spec v Hv) as [H _]. apply decimal_len_digits in H; [done|width].
Qed.

(** ** The writer *)

Lemma copy_app w a b :
  (w' ← copy_from_slice w a; copy_from_slice w' b) = copy_from_slice w (a ++ b).
Proof.
  unfold copy_from_slice. rewrite length_app. destruct (decide (offset w + _ ≤ _)%nat) as [H|H]; simpl.
  - rewrite (app_assoc (take _ _) a).
    assert (length (take (offset w) (output w) ++ a) = offset w + length a)%nat as Hl
      by (rewrite length_app, length_take; lia).
    rewrite length_app, Hl, length_drop, !Nat.add_assoc.
    destruct (decide (offset w + length a + length b ≤ length (output w))%nat) as [H2|H2].
    + rewrite decide_True by lia. rewrite take_app_length' by done.
      rewrite drop_app_ge, Hl, drop_drop by lia. rewrite <- !app_assoc.
      by replace (offset w + length a + (offset w + length a + length b - (offset w + length a)))%nat
        with (offset w + length a + length b)%nat by lia.
    + by rewrite decide_False by lia.
  - by rewrite decide_False by lia.
Qed.

Lemma copy_bind {A} w a b (k : BufferWriter → option A) :
  (w' ← copy_from_slice w a; w'' ← copy_from_slice w' b; k w'') =
  (w' ← copy_from_slice w (a ++ b); k w').
Proof. rewrite <- copy_app. by destruct (copy_from_slice w a). Qed.

Lemma join_flat c f fs : join c (f :: fs) = f ++ flat_map (λ g, c :: g) fs.
Proof.
  revert f. induction fs as [|g fs IH]; intros f; [by rewrite app_nil_r|].
  change (join c (f :: g :: fs)) with (f ++ c :: join c (g :: fs)). by rewrite IH.
Qed.

Lemma write_argument_copy a w :
  write_argument a w = copy_from_slice w (" "%char :: argument_field a).
Proof.
  unfold write_argument, write. rewrite !copy_bind, copy_app. by rewrite <- !app_assoc.
Qed.

Lemma write_arguments_copy {A} args w s (k : BufferWriter → option A) :
  (w ← copy_from_slice w s; w ← write_arguments args w; k w) =
  (w ← copy_from_slice w (s ++ flat_map (λ g, " "%char :: g) (argument_field <$> args)); k w).
Proof.
  revert s. induction args as [|a args IH]; intros s; csimpl; [by rewrite app_nil_r|].
  change (" "%char :: ?f ++ ?r) with ((" "%char :: f) ++ r).
  rewrite app_assoc, <- IH, <- copy_bind.
  destruct (copy_from_slice w s) as [w'|]; simpl; [|done]. rewrite write_argument_copy.
  by destruct (copy_from_slice w' _).
Qed.

Lemma write_body_copy b w :
  write_body b w = copy_from_slice w (join " " (body_fields b)).
Proof. destruct b as [c| |e]; simpl; [done|done|]. unfold write. by rewrite copy_app. Qed.

Lemma join_wire_fields m :
  join " " (wire_fields m) =
  (destination_str (destination m) ++ lit " " ++ dec (version m) ++ lit " " ++
   message_type_str (message_type m) ++ lit " " ++ dec (request_id m) ++ lit " " ++
   join " " (body_fields (body m))) ++
  flat_map (λ g, " "%char :: g) (argument_field <$> arguments m).
Proof.
  unfold wire_fields. cbn [app]. rewrite join_flat. simpl.
  destruct (body m) as [c| |e]; simpl; by rewrite <- ?app_assoc; simpl; rewrite <- ?app_assoc;
    simpl; rewrite <- ?app_assoc; simpl; rewrite <- ?app_assoc.
Qed.

Lemma write_u64_copy v w : is_u64 v → write_u64 v w = copy_from_slice w (dec v).
Proof. intros Hv. unfold write_u64. by destruct (dec_spec _ Hv) as [-> _]. Qed.

Lemma write_message_copy m w :
  is_u64 (version m) → is_u64 (request_id m) → write_message m w = copy_from_slice w (wire m).
Proof.
  intros Hv Hi. unfold write_message, wire. rewrite join_wire_fields.
  setoid_rewrite write_u64_copy; [|done..].
  setoid_rewrite write_body_copy. unfold write. rewrite !copy_bind, write_arguments_copy, copy_app.
  by rewrite <- !app_assoc.
Qed.

(** ** Encoded length *)

Lemma fold_argument_len args n :
  fold_left (λ n a, n + (1 + zlen (key a) + 1 + zlen (value a))) args n =
  n + zlen (flat_map (λ g, " "%char :: g) (argument_field <$> args)).
Proof.
  revert n. induction args as [|a args IH]; intros n; csimpl; [autorewrite with mochi; lia|].
  rewrite IH. unfold argument_field. autorewrite with mochi. lia.
Qed.

Lemma encoded_len_spec m :
  is_u64 (version m) → is_u64 (request_id m) →
  encoded_len m =
    (map_err InvalidMessage (validate_message m);;
     if zlen (wire m) >? MAX_MESSAGE_LEN then Err (InvalidMessage InvalidArgument)
     else Ok (zlen (wire m))).
Proof.
  intros Hv Hi. unfold encoded_len. destruct (validate_message m); simpl; [|done].
  assert (∀ a b, a = b →
    (if a >? MAX_MESSAGE_LEN then Err (InvalidMessage InvalidArgument) else Ok a) =
    (if b >? MAX_MESSAGE_LEN then Err (InvalidMessage InvalidArgument) else Ok b)) as Hc by by intros ?? ->.
  apply Hc. rewrite fold_argument_len, !decimal_len_dec by done. unfold wire.
  rewrite join_wire_fields. autorewrite with mochi.
  destruct (body m); simpl; autorewrite with mochi; unfold lit; simpl; autorewrite with mochi; lia.
Qed.

(** ** Arguments *)

Definition argument_ok (a : Argument) : Prop :=
  valid_key (key a) = true ∧ valid_value (value a) = true.
Definition arguments_ok (args : list Argument) : Prop :=
  Forall argument_ok args ∧ NoDup (key <$> args).

Lemma existsb_key k args : existsb (λ e, str_eqb (key e) k) args = true ↔ k ∈ key <$> args.
Proof.
  rewrite existsb_exists, list_elem_of_fmap. setoid_rewrite <- list_elem_of_In.
  unfold str_eqb. setoid_rewrite bool_decide_eq_true. naive_solver.
Qed.

Lemma arguments_ok_snoc acc a :
  arguments_ok (acc ++ [a]) ↔
  arguments_ok acc ∧ argument_ok a ∧ existsb (λ e, str_eqb (key e) (key a)) acc = false.
Proof.
  unfold arguments_ok. rewrite Forall_app, Forall_singleton, fmap_app, NoDup_app.
  rewrite <- not_true_iff_false, existsb_key. csimpl. split.
  - intros ((? & ?) & ? & Hd & _). split_and!; try done. intros Hin. apply (Hd _ Hin). by left.
  - intros ((? & ?) & ? & Hn). split_and!; try done; [|apply NoDup_singleton].
    intros k Hk ->%list_elem_of_singleton. done.
Qed.

Lemma validate_arguments_from_ok seen args :
  arguments_ok seen → validate_arguments_from seen args = Ok tt ↔ arguments_ok (seen ++ args).
Proof.
  revert seen. induction args as [|a args IH]; intros seen Hs; simpl; [by rewrite app_nil_r|].
  rewrite (app_assoc seen [a] args : seen ++ a :: args = _).
  assert (arguments_ok ((seen ++ [a]) ++ args) → arguments_ok (seen ++ [a])) as Hpre.
  { unfold arguments_ok. rewrite Forall_app, (fmap_app _ _ args), NoDup_app. tauto. }
  destruct (valid_key (key a)) eqn:Ek; simpl; [|split; [done|]; intros [_ [[Hk _] _]]%Hpre%arguments_ok_snoc; congruence].
  destruct (valid_value (value a)) eqn:Ev; simpl; [|split; [done|]; intros [_ [[_ Hk] _]]%Hpre%arguments_ok_snoc; congruence].
  destruct (existsb _ seen) eqn:Ed; [split; [done|]; intros [_ [_ Hk]]%Hpre%arguments_ok_snoc; congruence|].
  apply IH. by apply arguments_ok_snoc.
Qed.

Lemma validate_arguments_ok args : validate_arguments args = Ok tt ↔ arguments_ok args.
Proof. apply (validate_arguments_from_ok []). split; [constructor|apply NoDup_nil_2]. Qed.

Lemma valid_key_spec k :
  valid_key k = true ↔ k ≠ [] ∧ Forall (λ c, is_ascii_graphic c = true) k ∧ "="%char ∉ k.
Proof.
  unfold valid_key. rewrite andb_true_iff, negb_true_iff, bool_decide_eq_false, forallb_forall.
  setoid_rewrite <- list_elem_of_In. rewrite Forall_forall. split.
  - intros [? H]. split_and!; [done| |].
    + intros c [Hc _]%H%andb_true_iff. done.
    + intros [_ Hc]%H%andb_true_iff. done.
  - intros (? & H1 & H2). split; [done|]. intros c Hc. rewrite (H1 c Hc). simpl.
    apply negb_true_iff, bool_decide_eq_false. by intros ->.
Qed.
Lemma valid_value_spec v :
  valid_value v = true → v ≠ [] ∧ Forall (λ c, is_ascii_graphic c = true) v.
Proof.
  unfold valid_value. rewrite andb_true_iff, negb_true_iff, bool_decide_eq_false, forallb_forall.
  setoid_rewrite <- list_elem_of_In. intros [? H]. split; [done|]. apply Forall_forall.
  intros c [Hc|Hc]%H%orb_true_iff.
  - unfold is_ascii_alphanumeric, is_ascii_digit, is_ascii_graphic, in_range_incl in *. lia.
  - apply bool_decide_eq_true in Hc.
    repeat (apply elem_of_cons in Hc as [->|Hc]; [done|]). by apply elem_of_nil in Hc.
Qed.

Lemma parse_arguments_fields acc args :
  arguments_ok (acc ++ args) → parse_arguments acc (argument_field <$> args) = Ok (acc ++ args).
Proof.
  revert acc. induction args as [|a args IH]; intros acc Ha; csimpl; [by rewrite app_nil_r|].
  rewrite (app_assoc acc [a] args : acc ++ a :: args = _) in *.
  assert (arguments_ok (acc ++ [a])) as (_ & [Hk Hv] & Hd)%arguments_ok_snoc.
  { revert Ha. unfold arguments_ok. rewrite Forall_app, (fmap_app _ _ args), NoDup_app. tauto. }
  rewrite bool_decide_eq_false_2 by (unfold argument_field; by destruct (key a)).
  unfold argument_field at 1. rewrite split_once_app by (by apply valid_key_spec).
  rewrite Hk, Hv, Hd. simpl. destruct a. by apply IH.
Qed.

Lemma parse_arguments_Ok acc fields args :
  arguments_ok acc → parse_arguments acc fields = Ok args →
  ∃ new, args = acc ++ new ∧ fields = argument_field <$> new ∧ arguments_ok args.
Proof.
  revert acc. induction fields as [|f fields IH]; intros acc Ha; simpl.
  { intros [= <-]. exists []. by rewrite app_nil_r. }
  case_bool_decide; [done|]. destruct (split_once "=" f) as [[k v]|] eqn:E; [|done].
  apply split_once_Some in E as [-> _].
  destruct (valid_key k) eqn:Ek; [|done]. destruct (valid_value v) eqn:Ev; [|done]. simpl.
  destruct (existsb _ acc) eqn:Ed; [done|]. intros Hp.
  apply IH in Hp as (new & -> & -> & Hok); [|by apply arguments_ok_snoc].
  exists (mkArgument k v :: new). by rewrite <- app_assoc in *.
Qed.

(** ** Valid messages *)

(** What holds of a message that passes validation, or fails it only by
    naming an unknown command. *)
Record well_formed (m : Message) : Prop := mkWellFormed {
  wf_version : version m = VERSION;
  wf_request_id : message_type m = Event ↔ request_id m = 0;
  wf_arguments : arguments_ok (arguments m);
  wf_code : ∀ e, body m = BodyError e → argument m "code" = None;
}.

Lemma validate_message_wf m :
  validate_message m = Ok tt ∨ validate_message m = Err UnsupportedCommand → well_formed m.
Proof.
  unfold validate_message, ensure. destruct (version m =? VERSION) eqn:Ev; simpl; [|naive_solver].
  destruct (match message_type m with Event => _ | _ => _ end) eqn:Ei; simpl; [|naive_solver].
  destruct (validate_arguments (arguments m)) as [[]|e] eqn:Ea; simpl.
  2: { revert Ea. unfold validate_arguments. generalize (@nil Argument).
       induction (arguments m) as [|a args IH]; intros acc; simpl; [done|].
       case_ifs; [naive_solver..|apply IH]. }
  apply validate_arguments_ok in Ea. intros Hb. split; [lia| |done|].
  - destruct (message_type m); split; intros; done || lia.
  - intros e E. rewrite E in Hb. unfold has in Hb. simpl in Hb. destruct (decide (is_Some (argument m "code"))) as [Hc|Hc]; [|by apply eq_None_not_Some].
    rewrite (bool_decide_eq_true_2 _ Hc) in Hb. by destruct Hb.
Qed.

Lemma validate_message_body m :
  validate_message m = Ok tt → ∀ name, body m ≠ BodyCommand (UnsupportedName name).
Proof.
  unfold validate_message, ensure. intros H name E. rewrite E in H.
  destruct (version m =? VERSION); simpl in H; [|done].
  destruct (match message_type m with Event => _ | _ => _ end); simpl in H; [|done].
  by destruct (validate_arguments _).
Qed.

#[local] Abbreviation graphic := (λ c, is_ascii_graphic c = true).

Lemma graphic_lit s : forallb is_ascii_graphic (lit s) = true → Forall graphic (lit s).
Proof. intros H. apply Forall_forall. intros c Hc%list_elem_of_In. by eapply forallb_forall in H. Qed.
Lemma graphic_known c : Forall graphic (known_str c).
Proof. apply graphic_lit. by destruct c. Qed.
Lemma graphic_digits l : Forall (λ c, is_ascii_digit c = true) l → Forall graphic l.
Proof.
  intros H. eapply Forall_impl; [done|]. intros c. unfold is_ascii_digit, is_ascii_graphic, in_range_incl.
  lia.
Qed.
Lemma graphic_argument a : argument_ok a → Forall graphic (argument_field a).
Proof.
  intros [(_ & Hk & _)%valid_key_spec [_ Hv]%valid_value_spec].
  apply Forall_app. split; [done|]. by constructor.
Qed.

Lemma wire_fields_graphic m :
  validate_message m = Ok tt → is_u64 (request_id m) → Forall (Forall graphic) (wire_fields m).
Proof.
  intros Hm Hi. pose proof (validate_message_wf m (or_introl Hm)) as [Hv _ Ha _].
  pose proof (validate_message_body m Hm) as Hb. unfold wire_fields.
  constructor; [|constructor; [|constructor; [|constructor]]].
  - destruct (destination m); by apply graphic_lit.
  - rewrite Hv. apply graphic_digits. by repeat constructor.
  - destruct (message_type m); by apply graphic_lit.
  - apply graphic_digits. by apply dec_spec.
  - apply Forall_app. split.
    + destruct (body m) as [[c|name]| |e]; cbn [body_fields body_str command_str].
      * constructor; [apply graphic_known|done].
      * by destruct (Hb name).
      * repeat constructor.
      * constructor; [by apply graphic_lit|]. constructor; [|done].
        apply Forall_app. split; [by apply graphic_lit|]. destruct e; by apply graphic_lit.
    + apply Forall_fmap. eapply Forall_impl; [apply Ha|]. intros a. apply graphic_argument.
Qed.

(** Characters of a graphic string. *)
Lemma graphic_not c l : is_ascii_graphic c = false → Forall graphic l → c ∉ l.
Proof. intros Hc Hl Hin. rewrite Forall_forall in Hl. specialize (Hl c Hin). simpl in Hl. congruence. Qed.

Lemma join_chars c fs x : x ∈ join c fs → x = c ∨ ∃ f, f ∈ fs ∧ x ∈ f.
Proof.
  induction fs as [|f fs IH]; [set_solver|]. destruct fs as [|g fs]; [set_solver|].
  change (join c (f :: g :: fs)) with (f ++ c :: join c (g :: fs)). set_solver.
Qed.

Lemma graphic_join_not c fs :
  c ≠ " "%char → is_ascii_graphic c = false → Forall (Forall graphic) fs → c ∉ join " " fs.
Proof.
  intros Hs Hc Hf [->|(f & Hin & Hx)]%join_chars; [done|].
  rewrite Forall_forall in Hf. by eapply graphic_not; [| |apply Hx]; [|by apply Hf].
Qed.
Lemma graphic_join_utf8 fs : Forall (Forall graphic) fs → from_utf8 (join " " fs) = true.
Proof.
  intros Hf. apply from_utf8_ascii, Forall_forall. intros c [->|(f & Hin & Hx)]%join_chars; [done|].
  rewrite Forall_forall in Hf. specialize (Hf f Hin). rewrite Forall_forall in Hf.
  specialize (Hf c Hx). simpl in Hf. unfold is_ascii_graphic, in_range_incl in Hf. lia.
Qed.

(** ** Decoding the wire form *)

Lemma find_argument_None args k : find_argument args k = None ↔ k ∉ key <$> args.
Proof.
  unfold find_argument. rewrite fmap_None. split.
  - intros H (a & -> & Ha)%list_elem_of_fmap. eapply find_none in H; [|by apply list_elem_of_In].
    unfold str_eqb in H. by case_bool_decide.
  - intros H. destruct (List.find _ args) as [a|] eqn:E; [|done].
    apply find_some in E as [Hin E]. unfold str_eqb in E. case_bool_decide; [|done]. subst.
    destruct H. apply list_elem_of_fmap_2. by apply list_elem_of_In.
Qed.

Lemma decode_wire_fields m :
  validate_message m = Ok tt → is_u64 (request_id m) → decode_fields (wire_fields m) = Ok m.
Proof.
  intros Hm Hi. pose proof (validate_message_wf m (or_introl Hm)) as [Hv _ Ha Hc].
  pose proof (validate_message_body m Hm) as Hb.
  destruct (dec_spec _ Hi) as (_ & _ & _ & Hp & _). specialize (Hp U64_MAX ltac:(apply Hi)).
  unfold decode_fields, wire_fields. cbn [app next_field mbind result_bind].
  rewrite parse_destination_str, Hv. cbn [mbind result_bind].
  change (parse_uint U16_MAX (dec VERSION)) with (Some 1). cbn [mbind result_bind ok_or].
  rewrite parse_message_type_str, Hp. cbn [mbind result_bind ok_or].
  destruct m as [d v t id b args]. cbn in *. subst v.
  destruct b as [[c|name]| |e]; cbn [body_fields body_str command_str app next_field mbind result_bind].
  - rewrite (parse_arguments_fields []), parse_body_command by done.
    by destruct c.
  - by destruct (Hb name).
  - by rewrite (parse_arguments_fields []).
  - change (lit "code=" ++ error_code_str e)
      with (argument_field (mkArgument (lit "code") (error_code_str e))).
    rewrite <- fmap_cons, (parse_arguments_fields []).
    + by destruct e.
    + destruct Ha as [Ha1 Ha2]. split; [constructor; [by destruct e|done]|].
      csimpl. constructor; [|done]. by apply find_argument_None, (Hc e).
Qed.

Lemma decode_line_content content m :
  zlen content < MAX_MESSAGE_LEN → LF ∉ content → CR ∉ content → from_utf8 content = true →
  decode_fields (split " " content) = Ok m →
  validate_message m = Ok tt →
  decode_line (content ++ [LF]) = Ok m.
Proof.
  intros Hlen Hlf Hcr Hu Hd Hm. unfold decode_line, ensure.
  rewrite zlen_app, zlen_cons, zlen_nil, (proj2 (Z.leb_le _ _)) by lia. simpl.
  rewrite last_snoc, (bool_decide_eq_true_2 (Some LF = Some LF)) by done. simpl.
  rewrite length_app. simpl. rewrite take_app_length' by lia.
  rewrite !(bool_decide_eq_false_2 (_ ∈ content)), Hu by done. simpl. rewrite Hd. simpl. by rewrite Hm.
Qed.

Lemma decode_wire m :
  validate_message m = Ok tt → is_u64 (request_id m) → zlen (wire m) ≤ MAX_MESSAGE_LEN →
  decode_line (wire m) = Ok m.
Proof.
  intros Hm Hi Hlen. pose proof (wire_fields_graphic m Hm Hi) as Hg.
  unfold wire in *. rewrite zlen_app, zlen_cons, zlen_nil in Hlen. apply decode_line_content.
  - lia.
  - by apply graphic_join_not.
  - by apply graphic_join_not.
  - by apply graphic_join_utf8.
  - rewrite split_join; [by apply decode_wire_fields|done|]. eapply Forall_impl; [apply Hg|].
    intros f. by apply graphic_not.
  - done.
Qed.

(** ** Soundness of decoding *)

Lemma next_field_Ok fields f rest : next_field fields = Ok (f, rest) → fields = f :: rest.
Proof. destruct fields; simpl; naive_solver. Qed.

Definition spread (fs : list str) : str := flat_map (λ g, " "%char :: g) fs.
Lemma spread_app a b : spread (a ++ b) = spread a ++ spread b.
Proof. apply flat_map_app. Qed.
Lemma spread_delete args i a :
  args !! i = Some a →
  zlen (spread (argument_field <$> args)) =
  1 + zlen (argument_field a) + zlen (spread (argument_field <$> delete i args)).
Proof.
  intros Hi. rewrite delete_take_drop, fmap_app, spread_app, zlen_app.
  rewrite <- (take_drop_middle _ _ _ Hi) at 1. rewrite fmap_app, spread_app, fmap_cons, zlen_app.
  cbn [spread flat_map]. rewrite zlen_app, zlen_cons. unfold spread. lia.
Qed.

Lemma arguments_ok_delete args i : arguments_ok args → arguments_ok (delete i args).
Proof.
  intros [H1 H2]. split; [by apply Forall_delete|]. rewrite list_fmap_delete.
  eapply sublist_NoDup; [done|apply sublist_delete].
Qed.

Lemma decode_fields_inv fields m :
  decode_fields fields = Ok m →
  ∃ d fv t fi id fb args,
    fields = destination_str d :: fv :: message_type_str t :: fi :: fb :: (argument_field <$> args) ∧
    0 < zlen fv ∧ is_u64 id ∧ 0 < zlen fi ∧ id < 10 ^ zlen fi ∧ arguments_ok args ∧
    (if str_eqb (lit "ERROR") fb then take_code (mkMessage d VERSION t id (parse_body fb) args)
     else Ok (mkMessage d VERSION t id (parse_body fb) args)) = Ok m.
Proof.
  assert (∀ l : str, l ≠ [] → 0 < zlen l) as Hne by (intros [|c l]; [done|rewrite zlen_cons; pose proof (zlen_nonneg l); lia]).
  unfold decode_fields. intros H. inv_result.
  repeat match goal with
  | H : next_field _ = Ok _ |- _ => apply next_field_Ok in H
  | H : parse_destination _ = Ok _ |- _ => apply parse_destination_Ok in H
  | H : parse_message_type _ = Ok _ |- _ => apply parse_message_type_Ok in H
  | H : parse_uint _ _ = Some _ |- _ => apply parse_uint_bound in H as (? & ? & ?); [|width]
  | H : parse_arguments [] _ = Ok _ |- _ =>
      apply parse_arguments_Ok in H as (? & ? & ? & ?); [|split; [constructor|apply NoDup_nil_2]]
  | H : (_ =? VERSION) = true |- _ => apply Z.eqb_eq in H
  end; subst.
  do 7 eexists. split_and!; [done|by apply Hne|done..|by apply Hne|done|done|done].
Qed.

Lemma take_code_Ok m m' :
  take_code m = Ok m' →
  ∃ i e, arguments m !! i = Some (mkArgument (lit "code") (error_code_str e)) ∧
    m' = mkMessage (destination m) (version m) (message_type m) (request_id m) (BodyError e)
           (delete i (arguments m)).
Proof.
  unfold take_code. intros H. inv_result.
  repeat match goal with
  | H : list_find _ _ = Some _ |- _ => apply list_find_Some in H as (? & ? & _)
  | H : error_code_parse _ = Some _ |- _ => apply error_code_parse_Some in H
  | a : Argument |- _ => destruct a; simplify_eq/=
  end. do 2 eexists. split; [|done]. congruence.
Qed.

(** Decoding accepts no line shorter than the wire form of its message. *)
Lemma decode_fields_Ok fields m :
  decode_fields fields = Ok m →
  is_u64 (request_id m) ∧ zlen (join " " (wire_fields m)) ≤ zlen (join " " fields).
Proof.
  intros (d & fv & t & fi & id & fb & args & -> & Hv & Hid & Hi & Hlt & Hargs & E)%decode_fields_inv.
  destruct (dec_spec id Hid) as (_ & _ & _ & _ & Hlen). specialize (Hlen _ Hlt Hi).
  destruct (parse_body_str fb) as [Hb He].
  assert (zlen (dec VERSION) ≤ zlen fv) by (change (zlen (dec VERSION)) with 1; lia).
  destruct (str_eqb (lit "ERROR") fb) eqn:Ee.
  - apply take_code_Ok in E as (i & e & Hc & ->). split; [done|].
    unfold str_eqb in Ee. case_bool_decide; [|done]. subst fb. simpl in Hc.
    apply spread_delete in Hc. unfold wire_fields. cbn [app body_fields]. rewrite !join_flat.
    change (argument_field (mkArgument _ _)) with (lit "code=" ++ error_code_str e) in Hc.
    unfold spread in Hc. cbn [version message_type request_id arguments body destination] in *.
    cbn [body_fields flat_map]. rewrite flat_map_app. cbn [flat_map].
    rewrite ?zlen_app, ?zlen_cons in *. autorewrite with mochi. lia.
  - injection E as <-. split; [done|]. unfold wire_fields.
    cbn [version message_type request_id arguments body destination].
    assert (body_fields (parse_body fb) = [fb]) as ->.
    { destruct (parse_body fb) eqn:Ep; simpl in *; [by subst..|]. destruct He as [_ He].
      by discriminate He; eauto. }
    cbn [app]. rewrite !join_flat. cbn [flat_map]. autorewrite with mochi. lia.
Qed.

Lemma write_message_fits m out :
  is_u64 (version m) → is_u64 (request_id m) → zlen (wire m) ≤ zlen out →
  write_message m (mkBufferWriter out 0) =
  Some (mkBufferWriter (wire m ++ drop (length (wire m)) out) (length (wire m))).
Proof.
  intros Hv Hi Hl. rewrite write_message_copy by done. unfold copy_from_slice. simpl.
  rewrite decide_True; [done|]. unfold zlen in Hl. lia.
Qed.

Lemma wire_utf8 m :
  validate_message m = Ok tt → is_u64 (request_id m) → from_utf8 (wire m) = true.
Proof.
  intros Hm Hi. apply from_utf8_ascii, Forall_app. split; [|by repeat constructor].
  apply Forall_forall. intros c Hc. pose proof (wire_fields_graphic m Hm Hi) as Hg.
  apply join_chars in Hc as [->|(f & Hf & Hc)]; [done|].
  rewrite Forall_forall in Hg. specialize (Hg f Hf). rewrite Forall_forall in Hg.
  specialize (Hg c Hc). simpl in Hg. unfold is_ascii_graphic, in_range_incl in Hg. lia.
Qed.

Lemma validate_version_width m : validate_message m = Ok tt → is_u64 (version m).
Proof.
  intros Hm. destruct (validate_message_wf m (or_introl Hm)) as [-> _ _ _]. unfold VERSION. width.
Qed.

Lemma decode_line_inv bytes m :
  decode_line bytes = Ok m →
  zlen bytes ≤ MAX_MESSAGE_LEN ∧
  (validate_message m = Ok tt ∨ validate_message m = Err UnsupportedCommand) ∧
  ∃ content, bytes = content ++ [LF] ∧ decode_fields (split " " content) = Ok m.
Proof.
  unfold decode_line. intros H. inv_result.
  match goal with H : bool_decide (last _ = _) = true |- _ =>
    apply bool_decide_eq_true, last_Some in H as [content ->] end.
  rewrite length_app, take_app_length' in * by (simpl; lia).
  match goal with H : match validate_message ?x with _ => _ end = _ |- _ =>
    assert ((validate_message x = Ok tt ∨ validate_message x = Err UnsupportedCommand) ∧ x = m)
      as [Hv <-] by (destruct (validate_message x) as [[]|[]]; naive_solver) end.
  split_and!; [lia|done|]. by exists content.
Qed.

(** ** Main theorems *)

(** Encoding into a buffer terminates and writes exactly the wire form at
    the start of the buffer and leaves the rest, or reports the validation
    error, the oversized message or the exact length required and leaves the
    buffer unchanged. *)
Theorem encode_line_exact m out :
  is_u64 (version m) → is_u64 (request_id m) →
  encode_line m out =
  Some (match validate_message m with
        | Err e => (out, Err (InvalidMessage e))
        | Ok _ =>
            if zlen (wire m) >? MAX_MESSAGE_LEN then (out, Err (InvalidMessage InvalidArgument))
            else if zlen out <? zlen (wire m) then (out, Err (BufferTooSmall (zlen (wire m))))
            else (wire m ++ drop (length (wire m)) out, Ok (zlen (wire m)))
        end).
Proof.
  intros Hv Hi. unfold encode_line. rewrite encoded_len_spec by done.
  destruct (validate_message m) as [[]|e]; simpl; [|done].
  destruct (zlen (wire m) >? MAX_MESSAGE_LEN); [done|].
  destruct (zlen out <? zlen (wire m)) eqn:E; [done|].
  by rewrite write_message_fits by (done || lia).
Qed.

(** C15: Every valid message whose line fits the size limit encodes without
    error, and decoding the encoded line gives the message back. *)
Theorem encode_decode_roundtrip m :
  is_u64 (request_id m) → validate_message m = Ok tt → zlen (wire m) ≤ MAX_MESSAGE_LEN →
  ∃ bytes, encode_to_string m = Some (Ok bytes) ∧ decode_line bytes = Ok m.
Proof.
  intros Hi Hm Hlen. exists (wire m). split; [|by apply decode_wire].
  pose proof (validate_version_width m Hm) as Hv.
  assert (encoded_len m = Ok (zlen (wire m))) as He.
  { rewrite encoded_len_spec, Hm by done. simpl. rewrite Z.gtb_ltb.
    by rewrite (proj2 (Z.ltb_ge _ _) Hlen). }
  unfold encode_to_string, encode_line. rewrite He.
  set (out := replicate _ _). assert (zlen out = zlen (wire m)) as Ho.
  { unfold out, zlen. rewrite length_replicate. lia. }
  rewrite Ho, Z.ltb_irrefl, write_message_fits by (done || lia). simpl.
  unfold zlen in Ho. rewrite drop_ge, app_nil_r by lia. by rewrite wire_utf8.
Qed.

(** Every message the decoder accepts is well-formed with a 64-bit request
    identifier, its wire form is no longer than the decoded line, and,
    unless its command is unsupported, it is valid and its wire form decodes
    to it again. *)
Theorem decode_normalizes bytes m :
  decode_line bytes = Ok m →
  well_formed m ∧ is_u64 (request_id m) ∧ zlen (wire m) ≤ zlen bytes ≤ MAX_MESSAGE_LEN ∧
  (validate_message m = Err UnsupportedCommand ∨
   validate_message m = Ok tt ∧ decode_line (wire m) = Ok m).
Proof.
  intros (Hlen & Hv & content & -> & Hd)%decode_line_inv.
  apply decode_fields_Ok in Hd as [Hi Hl]. rewrite join_split in Hl.
  assert (zlen (wire m) ≤ zlen (content ++ [LF])) by (unfold wire; rewrite !zlen_app; lia).
  split_and!; [by apply validate_message_wf|done|done|done|].
  destruct Hv as [Hv|Hv]; [right|by left]. split; [done|]. apply decode_wire; [done|done|lia].
Qed.

(** ** Examples *)

Definition example_message : Message :=
  message_command Mboot Request 7 WifiSetEnabled [mkArgument (lit "enabled") (lit "1")].

Lemma example_valid : validate_message example_message = Ok tt.
Proof. by vm_compute. Qed.

Lemma encode_line_exact_witness :
  encode_line example_message (replicate 64 LF) =
    Some (wire example_message ++ drop (length (wire example_message)) (replicate 64 LF),
          Ok (zlen (wire example_message))).
Proof.
  rewrite (encode_line_exact example_message (replicate 64 LF)) by (by vm_compute).
  by rewrite example_valid.
Defined.

Lemma encode_decode_roundtrip_witness :
  ∃ bytes, encode_to_string example_message = Some (Ok bytes) ∧
           decode_line bytes = Ok example_message.
Proof.
  apply (encode_decode_roundtrip example_message);
    [by vm_compute|apply example_valid|by vm_compute].
Defined.

(** A line whose identifier has redundant leading zeros. *)
Lemma decode_normalizes_witness :
  let bytes := lit "@MBOOT 1 REQ 007 WIFI.SET.ENABLED enabled=1" ++ [LF] in
  decode_line bytes = Ok example_message ∧ zlen (wire example_message) ≤ zlen bytes ∧
  decode_line (wire example_message) = Ok example_message.
Proof.
  intros bytes. assert (decode_line bytes = Ok example_message) as E by by vm_compute.
  destruct (decode_normalizes bytes example_message E) as (_ & _ & [Hl _] & [Hv|[_ Hd]]);
    [by rewrite example_valid in Hv|by split_and!].
Defined.
