(* ===== verification/MbootConnection.v ===== *)
(** * The mBoot control protocol: connection state

    Models [ConnectionValidator] of [mboot-protocol/src/lib.rs]: the
    negotiation gate and the table of outstanding request identifiers, and
    refines it to a set of outstanding identifiers over whole histories. *)

From S2P Require Import Prelude Text MbootProtocol.

Definition MAX_PENDING_REQUESTS : Z := 32.

Record ConnectionValidator := mkConnection {
  negotiated : bool;
  pending_request_ids : list Z;
}.

Definition connection_new : ConnectionValidator := mkConnection false [].
Definition pending_count (v : ConnectionValidator) : Z := zlen (pending_request_ids v).

(** The commands allowed before negotiation, and those that negotiate. *)
Definition opening (c : option KnownCommand) : bool :=
  match c with
  | Some (ProtocolHello | ProtocolWelcome | ProtocolSync | ProtocolPing) => true
  | _ => false
  end.
Definition negotiates (c : option KnownCommand) : bool :=
  match c with Some (ProtocolHello | ProtocolWelcome) => true | _ => false end.

(** [ConnectionValidator::accept]. *)
Definition accept (v : ConnectionValidator) (m : Message)
    : ConnectionValidator * result ValidationError unit :=
  match validate_message m with
  | Err e => (v, Err e)
  | Ok _ =>
      let command := known_command m in
      if negb (negotiated v) && negb (opening command) then (v, Err InvalidState)
      else
        let finish v := (mkConnection (negotiated v || negotiates command) (pending_request_ids v),
                         Ok tt) in
        match message_type m with
        | Request =>
            if bool_decide (request_id m ∈ pending_request_ids v) then (v, Err RequestIdInUse)
            else if zlen (pending_request_ids v) >=? MAX_PENDING_REQUESTS
            then (v, Err TooManyPendingRequests)
            else finish (mkConnection (negotiated v) (pending_request_ids v ++ [request_id m]))
        | _ => finish v
        end
  end.

(** [ConnectionValidator::complete]. *)
Definition complete (v : ConnectionValidator) (id : Z)
    : ConnectionValidator * result ValidationError unit :=
  match list_find (λ p, p = id) (pending_request_ids v) with
  | None => (v, Err RequestIdNotPending)
  | Some (i, _) => (mkConnection (negotiated v) (swap_remove i (pending_request_ids v)), Ok tt)
  end.

(** ** Histories *)

(** [run v h p]: the validator is in state [v] after accepting the messages
    [h], with the requests [p] accepted and not completed since. *)
Inductive run : ConnectionValidator → list Message → gset Z → Prop :=
  | run_new : run connection_new [] ∅
  | run_accept v h p m v' :
      run v h p → accept v m = (v', Ok tt) →
      run v' (h ++ [m]) (if decide (message_type m = Request) then {[request_id m]} ∪ p else p)
  | run_refuse v h p m v' e :
      run v h p → accept v m = (v', Err e) → run v' h p
  | run_complete v h p id v' :
      run v h p → complete v id = (v', Ok tt) → run v' h (p ∖ {[id]})
  | run_unknown v h p id v' e :
      run v h p → complete v id = (v', Err e) → run v' h p.

(** The outcome of [accept] and [complete] on each branch. *)
Lemma accept_Ok v m v' :
  accept v m = (v', Ok tt) →
  validate_message m = Ok tt ∧ (negotiated v = true ∨ opening (known_command m) = true) ∧
  negotiated v' = (negotiated v || negotiates (known_command m)) ∧
  if decide (message_type m = Request)
  then (request_id m ∉ pending_request_ids v) ∧
       zlen (pending_request_ids v) < MAX_PENDING_REQUESTS ∧
       pending_request_ids v' = pending_request_ids v ++ [request_id m]
  else pending_request_ids v' = pending_request_ids v.
Proof.
  unfold accept. destruct (validate_message m) as [[]|]; [|done].
  destruct (negotiated v) eqn:En, (opening (known_command m)); simpl; try done;
    destruct (message_type m); simpl; try (intros [= <-]; simpl; rewrite ?En; by auto);
    case_bool_decide; try done; destruct (_ >=? _) eqn:El; try done;
    intros [= <-]; simpl; rewrite ?En; split_and!; auto; lia.
Qed.

Lemma accept_Err v m v' e : accept v m = (v', Err e) → v' = v.
Proof.
  unfold accept. destruct (validate_message m) as [[]|]; [|naive_solver].
  destruct (_ && _); [naive_solver|]. destruct (message_type m); try done.
  case_bool_decide; [naive_solver|]. destruct (_ >=? _); naive_solver.
Qed.

Lemma complete_spec v id v' res :
  complete v id = (v', res) →
  negotiated v' = negotiated v ∧
  match res with
  | Ok _ => pending_request_ids v ≡ₚ id :: pending_request_ids v'
  | Err e => v' = v ∧ e = RequestIdNotPending ∧ id ∉ pending_request_ids v
  end.
Proof.
  unfold complete. destruct (list_find _ _) as [[i x]|] eqn:E; intros [= <- <-].
  - apply list_find_Some in E as (Hi & -> & _). split; [done|]. simpl. by rewrite swap_remove_perm.
  - apply list_find_None in E. split_and!; try done. rewrite Forall_forall in E. intros Hin.
    by apply (E id Hin).
Qed.

Lemma connection_run_inv v h p :
  run v h p →
  NoDup (pending_request_ids v) ∧ (∀ id, id ∈ pending_request_ids v ↔ id ∈ p) ∧ (0 ∉ p) ∧
  zlen (pending_request_ids v) ≤ MAX_PENDING_REQUESTS ∧
  (negotiated v = true ↔ ∃ m, m ∈ h ∧ negotiates (known_command m) = true) ∧
  Forall (λ m, validate_message m = Ok tt) h.
Proof.
  induction 1 as [|v h p m v' _ IH E|v h p m v' e _ IH E|v h p id v' _ IH E|v h p id v' e _ IH E];
    [|destruct IH as (H1 & H2 & H3 & H4 & H5 & H6)..].
  - simpl. split_and!; [by apply NoDup_nil_2|set_solver|set_solver|done|set_solver|done].
  - apply accept_Ok in E as (Hm & _ & -> & E).
    assert (negotiated v || negotiates (known_command m) = true ↔
            ∃ m0, m0 ∈ h ++ [m] ∧ negotiates (known_command m0) = true) as Hn.
    { rewrite orb_true_iff, H5. set_solver. }
    assert (Forall (λ m0, validate_message m0 = Ok tt) (h ++ [m]))
      by (apply Forall_app; by repeat constructor).
    case_decide as Ht; [|rewrite E; by split_and!]. destruct E as (Hi & Hl & ->).
    split_and!; try done.
    + apply NoDup_app. split_and!; [done|set_solver|apply NoDup_singleton].
    + set_solver.
    + pose proof (wf_request_id _ (validate_message_wf m (or_introl Hm))) as Hz.
      intros [Hin|Hin]%elem_of_union; [|done]. apply elem_of_singleton in Hin.
      destruct Hz as [_ Hz]. rewrite Ht in Hz. by discriminate Hz.
    + rewrite zlen_app, zlen_cons, zlen_nil. lia.
  - apply accept_Err in E as ->. by split_and!.
  - apply complete_spec in E as [-> E]. rewrite E in H1. apply NoDup_cons in H1 as [H1 H1'].
    setoid_rewrite E in H2. split_and!; try done; [set_solver|set_solver|].
    unfold zlen in *. rewrite E in H4. simpl in H4. lia.
  - apply complete_spec in E as (_ & -> & _). by split_and!.
Qed.

(** C32: In every history of a connection, the table of pending request
    identifiers has no duplicates, never holds zero or more than the limit,
    and is exactly the set of requests accepted and not completed since. *)
Theorem connection_refines v h p :
  run v h p →
  NoDup (pending_request_ids v) ∧ list_to_set (pending_request_ids v) = p ∧
  pending_count v = Z.of_nat (size p) ∧ pending_count v ≤ MAX_PENDING_REQUESTS ∧ 0 ∉ p.
Proof.
  intros (H1 & H2 & H3 & H4 & _)%connection_run_inv.
  assert (list_to_set (pending_request_ids v) = p) as Hp by set_solver.
  split_and!; try done. unfold pending_count, zlen. by rewrite <- Hp, size_list_to_set.
Qed.

(** A connection accepts a message only if it is valid, and is an opening
    command or follows an accepted greeting, and a request only if its
    identifier is not outstanding. *)
Theorem negotiation_gate v h p m v' :
  run v h p → accept v m = (v', Ok tt) →
  validate_message m = Ok tt ∧
  (opening (known_command m) = true ∨
   ∃ m0, m0 ∈ h ∧ validate_message m0 = Ok tt ∧ negotiates (known_command m0) = true) ∧
  (message_type m = Request → request_id m ∉ p).
Proof.
  intros (H1 & H2 & H3 & H4 & H5 & H6)%connection_run_inv (Hm & Hn & _ & E)%accept_Ok. split_and!; [done| |].
  - destruct Hn as [Hn|Hn]; [right|by left]. apply H5 in Hn as (m0 & Hin & Hn).
    exists m0. rewrite Forall_forall in H6. split_and!; try done. by apply H6.
  - intros Ht. rewrite decide_True in E by done. rewrite <- H2. apply E.
Qed.

(** ** Examples *)

Definition example_hello : Message :=
  message_command Mboot Request 1 ProtocolHello
    [mkArgument (lit "system") (lit "mochios"); mkArgument (lit "version") (lit "1");
     mkArgument (lit "boot_id") (lit "b7")].
Definition example_connection : ConnectionValidator := mkConnection true [1].

Lemma example_run : run example_connection [example_hello] ({[1]} ∪ ∅).
Proof. apply (run_accept _ _ _ example_hello _ run_new). by vm_compute. Qed.

Lemma connection_refines_witness :
  pending_count example_connection = 1 ∧
  list_to_set (pending_request_ids example_connection) = ({[1]} ∪ ∅ : gset Z).
Proof. split; [done|]. by destruct (connection_refines _ _ _ example_run) as (_ & ? & _). Defined.

Lemma negotiation_gate_witness :
  accept example_connection example_message = (mkConnection true [1; 7], Ok tt) ∧
  accept connection_new example_message = (connection_new, Err InvalidState) ∧
  (7 ∉ ({[1]} ∪ ∅ : gset Z)).
Proof.
  assert (accept example_connection example_message = (mkConnection true [1; 7], Ok tt)) as E
    by by vm_compute.
  destruct (negotiation_gate _ _ _ _ _ example_run E) as (_ & _ & H).
  split_and!; [done|by vm_compute|by apply H].
Defined.
