(* ===== verification/Consent.v ===== *)
(** * Consent transactions

    Models [capability/src/consent.rs]: the table of consent questions, their
    stages from offer through presentation and arming to a decision, the
    deadlines and the cancellations.  [Choice] and [Choices] are types of the
    user-platform crate and a parameter ([ConsentProtocol]); [Ticket],
    [Correlation] and [Feedback] are transcribed from their uses. *)

From S2P Require Import Prelude.

Class ConsentProtocol := {
  Choice : Type;
  choice_eq_dec :: EqDecision Choice;
  Deny : Choice;
  AllowOnce : Choice;
  AllowForProcess : Choice;
  Choices : Type;
  contains : Choices → Choice → bool;
}.

Definition MAX_PENDING : nat := 32.
Definition MAX_TIMEOUT_NS : Z := 120000000000.

Record Ticket := mkTicket { ticket_id : Z; challenge : list Z }.
#[global] Instance Ticket_eq_dec : EqDecision Ticket.
Proof. solve_decision. Defined.
Record Correlation := mkCorrelation { ticket : Ticket; display : Z }.
#[global] Instance Correlation_eq_dec : EqDecision Correlation.
Proof. solve_decision. Defined.

(** [struct Instance]. *)
Record Instance_ := mkInstance {
  endpoint : Z;
  process : Z;
  thread : Z;
  revision : Z;
  digest : list Z;
}.
#[global] Instance Instance_eq_dec : EqDecision Instance_.
Proof. solve_decision. Defined.
Definition instance_valid (i : Instance_) : bool :=
  negb (endpoint i =? 0) && negb (process i =? 0) && negb (thread i =? 0).

Record Session := mkSession { session_id : Z; session_generation : Z }.
#[global] Instance Session_eq_dec : EqDecision Session.
Proof. solve_decision. Defined.
Record Presenter := mkPresenter { instance : Instance_; registration : Z }.
#[global] Instance Presenter_eq_dec : EqDecision Presenter.
Proof. solve_decision. Defined.
Record InputRoute := mkInputRoute { source : Instance_; seat : Z; route_generation : Z }.
#[global] Instance InputRoute_eq_dec : EqDecision InputRoute.
Proof. solve_decision. Defined.

Inductive Action := Launch | ProcessGrant | Operation.
#[global] Instance Action_eq_dec : EqDecision Action.
Proof. solve_decision. Defined.

Record Binding := mkBinding {
  requester : Instance_;
  session : Session;
  policy_generation : Z;
  source_digest : list Z;
  prepared_digest : list Z;
  requirements_digest : list Z;
  action : Action;
}.
#[global] Instance Binding_eq_dec : EqDecision Binding.
Proof. solve_decision. Defined.

Record Current := mkCurrent {
  cur_requester : option Instance_;
  cur_presenter : option Presenter;
  cur_input : option InputRoute;
  cur_session : option Session;
  cur_policy_generation : Z;
  foreground : bool;
}.

Inductive Transition := AllReleased | PhysicalPress | Repeat | Synthetic | Release.

Inductive Error :=
  | Invalid | Full | BusyErr | Exhausted | ClockWentBack | Unknown | WrongPeer | WrongDisplay
  | InvalidState | StaleInput | MissingPresence | UnofferedChoice | Expired | Changed.

Record Presence := mkPresence { serial : Z; released : bool; gesture : option Z }.
Inductive Stage := Offered | Presented | Armed (p : Presence).

Section Consent.
Context {CP : ConsentProtocol}.

Inductive Feedback := FPresented | FDismissed | FDecision (choice : Choice) (gesture : Z).

Record Offer := mkOffer { correlation : Correlation; deadline : Z; choices : Choices }.
Record Approval := mkApproval {
  approved_binding : Binding;
  approved_choice : Choice;
  approved_correlation : Correlation;
}.
Inductive Outcome := OutcomePending | OutcomeDenied (b : Binding) | OutcomeApproved (a : Approval).

Record Pending := mkPending {
  offer : Offer;
  binding : Binding;
  presenter : Presenter;
  input : InputRoute;
  stage : Stage;
}.
Definition with_stage (p : Pending) (s : Stage) : Pending :=
  mkPending (offer p) (binding p) (presenter p) (input p) s.

(** [Pending::matches]. *)
Definition matches (p : Pending) (c : Current) : bool :=
  bool_decide (cur_requester c = Some (requester (binding p))) &&
  bool_decide (cur_presenter c = Some (presenter p)) &&
  bool_decide (cur_input c = Some (input p)) &&
  bool_decide (cur_session c = Some (session (binding p))) &&
  (cur_policy_generation c =? policy_generation (binding p)) &&
  foreground c.

Record Controller := mkController {
  pending : list (option Pending);
  next_id : option Z;
  last_now : Z;
}.
Definition controller_new : Controller :=
  mkController (replicate MAX_PENDING None) (Some 1) 0.

Definition set_slot (s : Controller) (i : nat) (p : option Pending) : Controller :=
  mkController (<[i := p]> (pending s)) (next_id s) (last_now s).

(** [Controller::clock], also [observe_time]. *)
Definition clock (now : Z) : stM Controller Error unit := λ s,
  if now <? last_now s then (s, Err ClockWentBack)
  else (mkController (pending s) (next_id s) now, Ok tt).
Definition observe_time (now : Z) : stM Controller Error unit := clock now.

(** [self.pending.iter().flatten()]. *)
Definition live_slots (s : Controller) : list Pending := omap id (pending s).

Definition zero_challenge : list Z := replicate 32 0.

(** The rejections of [begin] that depend on the request alone. *)
Definition begin_invalid (b : Binding) (pr : Presenter) (i : InputRoute) (ch : Choices)
    (timeout : Z) (chal : list Z) : bool :=
  negb (instance_valid (requester b)) || negb (instance_valid (instance pr)) ||
  negb (instance_valid (source i)) || (process (source i) =? process (instance pr)) ||
  (registration pr =? 0) || (route_generation i =? 0) ||
  (session_id (session b) =? 0) || (session_generation (session b) =? 0) ||
  (policy_generation b =? 0) || (timeout =? 0) || (timeout >? MAX_TIMEOUT_NS) ||
  bool_decide (chal = zero_challenge) ||
  (bool_decide (action b = ProcessGrant) && contains ch AllowOnce) ||
  (bool_decide (action b ≠ ProcessGrant) && contains ch AllowForProcess).

Definition begin (b : Binding) (pr : Presenter) (i : InputRoute) (ch : Choices)
    (now timeout : Z) (chal : list Z) : stM Controller Error Offer :=
  clock now;;
  s ← st_get;
  st_lift (ensure (negb (begin_invalid b pr i ch timeout chal)) Invalid);;
  deadline ← st_lift (ok_or Exhausted (checked_add U64_MAX now timeout));
  st_lift (ensure (negb (existsb (λ p,
    (endpoint (instance (presenter p)) =? endpoint (instance pr)) ||
    bool_decide (challenge (ticket (correlation (offer p))) = chal)) (live_slots s))) BusyErr);;
  slot ← st_lift (ok_or Full (iter_position (λ p, bool_decide (¬ is_Some p)) (pending s)));
  id ← st_lift (ok_or Exhausted (next_id s));
  let o := mkOffer (mkCorrelation (mkTicket id chal) id) deadline ch in
  st_put (mkController (<[slot := Some (mkPending o b pr i Offered)]> (pending s))
            (checked_add U64_MAX id 1) (last_now s));;
  mret o.

Definition next_correlation (s : Controller) (chal : list Z) : result Error Correlation :=
  ensure (negb (bool_decide (chal = zero_challenge))) Invalid;;
  ensure (negb (existsb (λ p, bool_decide (challenge (ticket (correlation (offer p))) = chal))
                  (live_slots s))) BusyErr;;
  id ← ok_or Exhausted (next_id s);
  Ok (mkCorrelation (mkTicket id chal) id).

Definition begin_at (c : Correlation) (b : Binding) (pr : Presenter) (i : InputRoute)
    (ch : Choices) (now timeout : Z) : stM Controller Error Offer :=
  s ← st_get;
  next ← st_lift (next_correlation s (challenge (ticket c)));
  st_lift (ensure (bool_decide (next = c)) Changed);;
  begin b pr i ch now timeout (challenge (ticket c)).

(** The accumulated difference of two challenges. *)
Definition challenge_diff (a b : list Z) : Z :=
  fold_left (λ d '(x, y), Z.lor d (Z.lxor x y)) (zip a b) 0.

Definition locate (s : Controller) (c : Correlation) : result Error nat :=
  i ← ok_or Unknown (iter_position (λ slot,
        match slot with
        | Some p =>
            let t := ticket (correlation (offer p)) in
            (ticket_id t =? ticket_id (ticket c)) &&
            (challenge_diff (challenge t) (challenge (ticket c)) =? 0)
        | None => false
        end) (pending s));
  match pending s !! i with
  | Some (Some p) =>
      if display (correlation (offer p)) =? display c then Ok i else Err WrongDisplay
  | _ => Err Unknown
  end.

(** [Controller::live], for a slot that [locate] found. *)
Definition live (i : nat) (now : Z) : stM Controller Error Pending := λ s,
  match pending s !! i with
  | Some (Some p) =>
      if now >=? deadline (offer p) then (set_slot s i None, Err Expired) else (s, Ok p)
  | _ => (s, Err Unknown)
  end.

Definition put_slot (i : nat) (p : option Pending) : stM Controller Error unit := λ s,
  (set_slot s i p, Ok tt).
Definition located (c : Correlation) : stM Controller Error nat := λ s, (s, locate s c).

Definition deny (i : nat) (p : Pending) : stM Controller Error Outcome :=
  put_slot i None;; mret (OutcomeDenied (binding p)).

Definition feedback (peer : Instance_) (c : Correlation) (fb : Feedback) (cur : Current) (now : Z)
    : stM Controller Error Outcome :=
  clock now;;
  i ← located c;
  p ← live i now;
  st_lift (ensure (bool_decide (peer = instance (presenter p))) WrongPeer);;
  if negb (matches p cur) then put_slot i None;; st_fail Changed
  else
    match fb with
    | FPresented =>
        match stage p with
        | Offered => put_slot i (Some (with_stage p Presented));; mret OutcomePending
        | _ => st_fail InvalidState
        end
    | FDismissed => deny i p
    | FDecision ch g =>
        if bool_decide (ch = Deny) && (g =? 0) then deny i p
        else if bool_decide (ch = Deny) || negb (contains (choices (offer p)) ch)
        then st_fail UnofferedChoice
        else
          match stage p with
          | Armed presence =>
              if (g =? 0) || negb (bool_decide (gesture presence = Some g))
              then st_fail MissingPresence
              else
                put_slot i None;;
                mret (OutcomeApproved (mkApproval (binding p) ch (correlation (offer p))))
          | _ => st_fail MissingPresence
          end
    end.

Definition propose (peer : Instance_) (c : Correlation) (ch : Choice) (cur : Current) (now : Z)
    : stM Controller Error Outcome :=
  clock now;;
  i ← located c;
  p ← live i now;
  st_lift (ensure (bool_decide (peer = instance (presenter p))) WrongPeer);;
  if negb (matches p cur) then put_slot i None;; st_fail Changed
  else
    g ← st_lift (if bool_decide (ch = Deny) then Ok 0
                 else match stage p with
                      | Armed presence => ok_or MissingPresence (gesture presence)
                      | _ => Err MissingPresence
                      end);
    feedback peer c (FDecision ch g) cur now.

Definition arm (peer : Instance_) (c : Correlation) (route : InputRoute) (n : Z)
    (all_released : bool) (now : Z) : stM Controller Error unit :=
  clock now;;
  i ← located c;
  p ← live i now;
  st_lift (ensure (bool_decide (peer = source (input p)) && bool_decide (route = input p)) WrongPeer);;
  match stage p with
  | Presented => put_slot i (Some (with_stage p (Armed (mkPresence n all_released None))))
  | _ => st_fail InvalidState
  end.

(** The update of [Presence] in [Controller::input]. *)
Definition press (pr : Presence) (n : Z) (tr : Transition) : Presence :=
  match tr with
  | AllReleased => mkPresence n true (gesture pr)
  | PhysicalPress => mkPresence n false (if released pr then Some n else gesture pr)
  | Repeat | Synthetic | Release => mkPresence n (released pr) (gesture pr)
  end.

Definition input_event (peer : Instance_) (c : Correlation) (route : InputRoute) (n : Z)
    (tr : Transition) (now : Z) : stM Controller Error unit :=
  clock now;;
  i ← located c;
  p ← live i now;
  st_lift (ensure (bool_decide (peer = source (input p)) && bool_decide (route = input p)) WrongPeer);;
  match stage p with
  | Armed presence =>
      if n <=? serial presence then st_fail StaleInput
      else put_slot i (Some (with_stage p (Armed (press presence n tr))))
  | _ => st_fail InvalidState
  end.

Definition cancel (peer : Instance_) (c : Correlation) : stM Controller Error Binding :=
  i ← located c;
  s ← st_get;
  match pending s !! i with
  | Some (Some p) =>
      st_lift (ensure (bool_decide (peer = requester (binding p)) ||
                       bool_decide (peer = instance (presenter p)) ||
                       bool_decide (peer = source (input p))) WrongPeer);;
      put_slot i None;; mret (binding p)
  | _ => st_fail Unknown
  end.

(** The slots that a test closes, with the callbacks it makes, in order. *)
Fixpoint close_slots (stale : nat → Pending → bool) (i : nat) (slots : list (option Pending))
    : list (option Pending) * list (Ticket * Binding) :=
  match slots with
  | [] => ([], [])
  | slot :: slots =>
      let '(rest, closed) := close_slots stale (S i) slots in
      match slot with
      | Some p =>
          if stale i p then (None :: rest, (ticket (correlation (offer p)), binding p) :: closed)
          else (Some p :: rest, closed)
      | None => (None :: rest, closed)
      end
  end.
Definition close (stale : nat → Pending → bool) : stM Controller Error (list (Ticket * Binding)) := λ s,
  let '(slots, closed) := close_slots stale 0 (pending s) in
  (mkController slots (next_id s) (last_now s), Ok closed).

Definition expire (now : Z) : stM Controller Error (list (Ticket * Binding)) :=
  clock now;; close (λ _ p, now >=? deadline (offer p)).

(** [Controller::observe]; the observation may differ at every slot. *)
Definition observe (current : nat → Binding → Presenter → InputRoute → Current)
    : stM Controller Error (list (Ticket * Binding)) :=
  close (λ i p, negb (matches p (current i (binding p) (presenter p) (input p)))).

Definition len (s : Controller) : nat := length (live_slots s).
Definition next_deadline (s : Controller) : option Z :=
  match deadline ∘ offer <$> live_slots s with
  | [] => None
  | d :: ds => Some (fold_left Z.min ds d)
  end.

(** ** Histories of calls *)

Inductive Call :=
  | CTime (now : Z)
  | CBegin (b : Binding) (pr : Presenter) (i : InputRoute) (ch : Choices) (now timeout : Z)
      (chal : list Z)
  | CBeginAt (c : Correlation) (b : Binding) (pr : Presenter) (i : InputRoute) (ch : Choices)
      (now timeout : Z)
  | CFeedback (peer : Instance_) (c : Correlation) (fb : Feedback) (cur : Current) (now : Z)
  | CPropose (peer : Instance_) (c : Correlation) (ch : Choice) (cur : Current) (now : Z)
  | CArm (peer : Instance_) (c : Correlation) (route : InputRoute) (n : Z) (rel : bool) (now : Z)
  | CInput (peer : Instance_) (c : Correlation) (route : InputRoute) (n : Z) (tr : Transition)
      (now : Z)
  | CCancel (peer : Instance_) (c : Correlation)
  | CExpire (now : Z)
  | CObserve (current : nat → Binding → Presenter → InputRoute → Current).

Inductive Reply :=
  | RUnit | ROffer (o : Offer) | ROutcome (o : Outcome) | RBinding (b : Binding)
  | RClosed (l : list (Ticket * Binding)).

Definition st_map {S E A B} (f : A → B) (c : stM S E A) : stM S E B := a ← c; mret (f a).

Definition exec (c : Call) : stM Controller Error Reply :=
  match c with
  | CTime now => st_map (λ _, RUnit) (observe_time now)
  | CBegin b pr i ch now timeout chal => st_map ROffer (begin b pr i ch now timeout chal)
  | CBeginAt c b pr i ch now timeout => st_map ROffer (begin_at c b pr i ch now timeout)
  | CFeedback peer c fb cur now => st_map ROutcome (feedback peer c fb cur now)
  | CPropose peer c ch cur now => st_map ROutcome (propose peer c ch cur now)
  | CArm peer c route n rel now => st_map (λ _, RUnit) (arm peer c route n rel now)
  | CInput peer c route n tr now => st_map (λ _, RUnit) (input_event peer c route n tr now)
  | CCancel peer c => st_map RBinding (cancel peer c)
  | CExpire now => st_map RClosed (expire now)
  | CObserve current => st_map RClosed (observe current)
  end.

(** Challenges are 32-byte arrays. *)
Definition typed (c : Call) : Prop :=
  match c with
  | CBegin _ _ _ _ _ _ chal => length chal = 32%nat
  | CBeginAt c _ _ _ _ _ _ | CFeedback _ c _ _ _ | CPropose _ c _ _ _ | CArm _ c _ _ _ _
  | CInput _ c _ _ _ _ | CCancel _ c => length (challenge (ticket c)) = 32%nat
  | CTime _ | CExpire _ | CObserve _ => True
  end.

Abbreviation event := (Call * result Error Reply)%type.

(** [run s h]: the controller is in state [s] after the calls [h], newest
    first. *)
Inductive run : Controller → list event → Prop :=
  | run_new : run controller_new []
  | run_step s h c s' r : run s h → typed c → exec c s = (s', r) → run s' ((c, r) :: h).

(** ** Specification: what a decision rests on *)

Definition slot (s : Controller) (i : nat) (p : Pending) : Prop := pending s !! i = Some (Some p).
Definition pending_id (p : Pending) : Z := ticket_id (ticket (correlation (offer p))).

(** The call that opened a question. *)
Definition opens (e : event) (p : Pending) : Prop :=
  snd e = Ok (ROffer (offer p)) ∧
  ((∃ now timeout chal,
      fst e = CBegin (binding p) (presenter p) (input p) (choices (offer p)) now timeout chal) ∨
   (∃ c now timeout,
      fst e = CBeginAt c (binding p) (presenter p) (input p) (choices (offer p)) now timeout)).
(** The presenter's acknowledgement of the display. *)
Definition shows (e : event) (p : Pending) : Prop :=
  ∃ cur now, matches p cur = true ∧ now < deadline (offer p) ∧
    e = (CFeedback (instance (presenter p)) (correlation (offer p)) FPresented cur now,
         Ok (ROutcome OutcomePending)).
(** The input authority's snapshot. *)
Definition arms (e : event) (p : Pending) (n : Z) (rel : bool) : Prop :=
  ∃ now, e = (CArm (source (input p)) (correlation (offer p)) (input p) n rel now, Ok RUnit).
(** An input transition delivered by the input authority. *)
Definition enters (e : event) (p : Pending) (n : Z) (tr : Transition) : Prop :=
  ∃ now, e = (CInput (source (input p)) (correlation (offer p)) (input p) n tr now, Ok RUnit).

(** No accepted press for the question among the calls. *)
Definition no_press (l : list event) (c : Correlation) : Prop :=
  ∀ peer route n now, (CInput peer c route n PhysicalPress now, Ok RUnit) ∉ l.

(** Every key was up at some point since the snapshot [rel], and none went
    down after it. *)
Definition all_up (l : list event) (p : Pending) (rel : bool) : Prop :=
  (rel = true ∧ no_press l (correlation (offer p))) ∨
  ∃ a e b n, l = a ++ e :: b ∧ enters e p n AllReleased ∧ no_press a (correlation (offer p)).

(** A question armed by the snapshot [n0], [rel] with the calls [l] since. *)
Definition armed (h l : list event) (p : Pending) (n0 : Z) (rel : bool) : Prop :=
  ∃ e3 l2 e2 l1 e1 l0,
    h = l ++ e3 :: l2 ++ e2 :: l1 ++ e1 :: l0 ∧
    arms e3 p n0 rel ∧ shows e2 p ∧ opens e1 p.

(** A press after a full release, later than the snapshot. *)
Definition pressed (l : list event) (p : Pending) (n0 g : Z) (rel : bool) : Prop :=
  ∃ a e b, l = a ++ e :: b ∧ enters e p g PhysicalPress ∧ n0 < g ∧ all_up b p rel.

Definition evidence (h : list event) (p : Pending) : Prop :=
  match stage p with
  | Offered => ∃ l1 e1 l0, h = l1 ++ e1 :: l0 ∧ opens e1 p
  | Presented => ∃ l2 e2 l1 e1 l0, h = l2 ++ e2 :: l1 ++ e1 :: l0 ∧ shows e2 p ∧ opens e1 p
  | Armed pr =>
      ∃ l n0 rel, armed h l p n0 rel ∧ n0 ≤ serial pr ∧
        (released pr = true → all_up l p rel) ∧
        (∀ g, gesture pr = Some g → pressed l p n0 g rel)
  end.

Definition is_press (e : event) (c : Correlation) : Prop :=
  ∃ peer route n now, e = (CInput peer c route n PhysicalPress now, Ok RUnit).

Lemma no_press_cons e l c : ¬ is_press e c → no_press l c → no_press (e :: l) c.
Proof.
  intros He Hl peer route n now [E|Hin]%elem_of_cons; [|by eapply Hl].
  apply He. subst. by repeat eexists.
Qed.
Lemma no_press_nil c : no_press [] c.
Proof. intros ????. set_solver. Qed.

Lemma all_up_cons e l p rel :
  ¬ is_press e (correlation (offer p)) → all_up l p rel → all_up (e :: l) p rel.
Proof.
  intros He [[-> Hl]|(a & e' & b & n & -> & H1 & H2)].
  - left. split; [done|]. by apply no_press_cons.
  - right. exists (e :: a), e', b, n. split_and!; [done..|by apply no_press_cons].
Qed.
Lemma pressed_cons e l p n0 g rel : pressed l p n0 g rel → pressed (e :: l) p n0 g rel.
Proof. intros (a & e' & b & -> & ? & ? & ?). exists (e :: a), e', b. by split_and!. Qed.
Lemma armed_cons e h l p n0 rel : armed h l p n0 rel → armed (e :: h) (e :: l) p n0 rel.
Proof. intros (e3 & l2 & e2 & l1 & e1 & l0 & -> & H). by exists e3, l2, e2, l1, e1, l0. Qed.

(** A call that is no press for the question keeps its evidence. *)
Lemma evidence_cons e h p :
  ¬ is_press e (correlation (offer p)) → evidence h p → evidence (e :: h) p.
Proof.
  unfold evidence. intros He. destruct (stage p) as [| |pr].
  - intros (l1 & e1 & l0 & -> & H). by exists (e :: l1), e1, l0.
  - intros (l2 & e2 & l1 & e1 & l0 & -> & H). by exists (e :: l2), e2, l1, e1, l0.
  - intros (l & n0 & rel & Ha & Hn & Hr & Hg). exists (e :: l), n0, rel. split_and!.
    + by apply armed_cons.
    + done.
    + intros Hrel. by apply all_up_cons; [|apply Hr].
    + intros g Eg. by apply pressed_cons, Hg.
Qed.

(** The three transitions of a question. *)
Lemma evidence_open e h p : stage p = Offered → opens e p → evidence (e :: h) p.
Proof. unfold evidence. intros -> H. by exists [], e, h. Qed.

Lemma evidence_show e h p :
  stage p = Offered → evidence h p → shows e p → evidence (e :: h) (with_stage p Presented).
Proof.
  unfold evidence. intros -> (l1 & e1 & l0 & -> & H) Hs. simpl. by exists [], e, l1, e1, l0.
Qed.

Lemma evidence_arm e h p n rel :
  stage p = Presented → evidence h p → arms e p n rel →
  evidence (e :: h) (with_stage p (Armed (mkPresence n rel None))).
Proof.
  unfold evidence. intros -> (l2 & e2 & l1 & e1 & l0 & -> & H) He. simpl.
  exists [], n, rel. split_and!; [by exists e, l2, e2, l1, e1, l0|lia| |done].
  intros ->. left. split; [done|apply no_press_nil].
Qed.

Lemma evidence_input e h p pr n tr :
  stage p = Armed pr → evidence h p → enters e p n tr → serial pr < n →
  evidence (e :: h) (with_stage p (Armed (press pr n tr))).
Proof.
  unfold evidence. intros -> (l & n0 & rel & Ha & Hn & Hr & Hg) He Hlt. simpl.
  exists (e :: l), n0, rel.
  assert (tr ≠ PhysicalPress → ¬ is_press e (correlation (offer p))) as Hnp.
  { intros Hne (? & ? & ? & ? & E). destruct He as [now ->]. by injection E as _ _ _ ?. }
  split_and!.
  - by apply (armed_cons e h l p).
  - destruct tr; simpl; lia.
  - destruct tr; simpl; intros Hrel; try done; try (apply all_up_cons; [by apply Hnp|by apply Hr]).
    right. exists [], e, l, n. split_and!; [done|done|apply no_press_nil].
  - intros g. destruct tr; simpl; try (intros Eg; by apply pressed_cons, Hg).
    destruct (released pr); [|intros Eg; by apply pressed_cons, Hg].
    intros [= <-]. exists [], e, l. split_and!; [done|done|lia|by apply Hr].
Qed.

(** ** Resolving a correlation *)

Lemma challenge_diff_acc a b d :
  length a = length b →
  fold_left (λ d '(x, y), Z.lor d (Z.lxor x y)) (zip a b) d = 0 ↔ d = 0 ∧ a = b.
Proof.
  revert b d. induction a as [|x a IH]; intros [|y b] d Hl; simpl; try done; [naive_solver|].
  rewrite IH by (simpl in Hl; lia). rewrite Z.lor_eq_0_iff, Z.lxor_eq_0_iff. naive_solver.
Qed.
Lemma challenge_diff_0 a b : length a = length b → challenge_diff a b = 0 ↔ a = b.
Proof. intros Hl. unfold challenge_diff. rewrite challenge_diff_acc by done. tauto. Qed.

Definition challenges_ok (s : Controller) : Prop :=
  ∀ i p, slot s i p → length (challenge (ticket (correlation (offer p)))) = 32%nat.

Lemma locate_Ok s c i :
  challenges_ok s → length (challenge (ticket c)) = 32%nat → locate s c = Ok i →
  ∃ p, slot s i p ∧ correlation (offer p) = c.
Proof.
  intros Hok Hc H. unfold locate in H. inv_result.
  match goal with H : iter_position _ _ = Some _ |- _ =>
    apply iter_position_Some in H as ([p|] & Hi & Ht & _); [|done] end.
  rewrite Hi in *. destruct (display _ =? display c) eqn:Ed; simplify_eq.
  exists p. split; [done|]. apply andb_prop in Ht as [Ht1 Ht2].
  apply Z.eqb_eq in Ht1, Ht2, Ed. rewrite challenge_diff_0 in Ht2 by (by rewrite Hc, (Hok _ _ Hi)).
  destruct (correlation (offer p)) as [[] ?], c as [[] ?]; simpl in *. congruence.
Qed.

Lemma locate_unknown s c :
  (∀ i p, slot s i p → pending_id p ≠ ticket_id (ticket c)) → locate s c = Err Unknown.
Proof.
  intros H. unfold locate. destruct (iter_position _ _) as [i|] eqn:E; [|done].
  apply iter_position_Some in E as ([p|] & Hi & Ht & _); [|done].
  apply andb_prop in Ht as [Ht _]. apply Z.eqb_eq in Ht. by destruct (H i p Hi).
Qed.

(** The common prefix of [feedback], [propose], [arm] and [input]. *)
Definition resolve (c : Correlation) (now : Z) : stM Controller Error (nat * Pending) :=
  clock now;; i ← located c; p ← live i now; mret (i, p).

Lemma resolve_bind {A} c now (k : nat → Pending → stM Controller Error A) s :
  (clock now;; i ← located c; p ← live i now; k i p) s =
  match resolve c now s with
  | (s1, Ok (i, p)) => k i p s1
  | (s1, Err e) => (s1, Err e)
  end.
Proof.
  unfold resolve, mbind, stM_bind. destruct (clock now s) as [s1 [[]|e]]; [|done].
  destruct (located c s1) as [s2 [i|e]]; [|done]. by destruct (live i now s2) as [s3 [p|e]].
Qed.

(** Nothing but the clock changed; one slot was cleared. *)
Definition same (s s' : Controller) : Prop :=
  next_id s' = next_id s ∧ last_now s ≤ last_now s' ∧ pending s' = pending s.
Definition set_to (s s' : Controller) (i : nat) (x : option Pending) : Prop :=
  next_id s' = next_id s ∧ last_now s ≤ last_now s' ∧ pending s' = <[i := x]> (pending s).

Lemma consent_same_refl s : same s s.
Proof. unfold same. split_and!; done || lia. Qed.

Lemma clock_spec now s :
  clock now s = (s, Err ClockWentBack) ∨
  ∃ s', clock now s = (s', Ok tt) ∧ same s s' ∧ last_now s' = now.
Proof.
  unfold clock, same. destruct (now <? last_now s) eqn:E; [by left|]. right. eexists.
  split; [done|]. simpl. split_and!; try done. lia.
Qed.

Lemma resolve_spec c now s s1 r :
  challenges_ok s → length (challenge (ticket c)) = 32%nat → resolve c now s = (s1, r) →
  match r with
  | Ok (i, p) => same s s1 ∧ last_now s1 = now ∧ slot s i p ∧ correlation (offer p) = c ∧
                 now < deadline (offer p)
  | Err e => same s s1 ∨ ∃ i p, slot s i p ∧ set_to s s1 i None
  end.
Proof.
  intros Hok Hc H. unfold resolve, mbind, stM_bind in H.
  destruct (clock_spec now s) as [E|(s0 & E & Hs & Hnow)]; rewrite E in H.
  { injection H as <- <-. left. unfold same. split_and!; done || lia. }
  unfold located in H. destruct (locate s0 c) as [i|e] eqn:El.
  2: { injection H as <- <-. by left. }
  destruct Hs as (Hn & Ht & Hp).
  apply locate_Ok in El as (p & Hi & Hcor); [|unfold challenges_ok, slot; by rewrite Hp|done].
  unfold live, slot in *. rewrite Hi in H. rewrite Hp in Hi.
  destruct (now >=? deadline (offer p)) eqn:Ed; injection H as <- <-.
  - right. exists i, p. unfold set_to. simpl. rewrite Hp. by split_and!.
  - unfold same. split_and!; try done. lia.
Qed.

Lemma set_to_slot s s1 i x : same s s1 → set_to s (set_slot s1 i x) i x.
Proof. intros (? & ? & E). unfold set_to. simpl. rewrite E. by split_and!. Qed.

(** A failed call: no slot changed but for one that expired or was revoked. *)
Definition failed {A} (s s' : Controller) (r : result Error A) : Prop :=
  (∃ e, r = Err e) ∧ (same s s' ∨ ∃ i p, slot s i p ∧ set_to s s' i None).

(** A decision of the presenter that is not an acknowledgement. *)
Definition denies (fb : Feedback) : Prop := fb = FDismissed ∨ fb = FDecision Deny 0.

(** The effect of an accepted [feedback] on the question [p]. *)
Definition feedback_effect (s s' : Controller) (i : nat) (p : Pending) (fb : Feedback)
    (r : result Error Outcome) : Prop :=
  (fb = FPresented ∧ stage p = Offered ∧ r = Ok OutcomePending ∧
   set_to s s' i (Some (with_stage p Presented))) ∨
  (denies fb ∧ r = Ok (OutcomeDenied (binding p)) ∧ set_to s s' i None) ∨
  (∃ ch g pr, fb = FDecision ch g ∧ ch ≠ Deny ∧ contains (choices (offer p)) ch = true ∧
     stage p = Armed pr ∧ gesture pr = Some g ∧ g ≠ 0 ∧
     r = Ok (OutcomeApproved (mkApproval (binding p) ch (correlation (offer p)))) ∧
     set_to s s' i None).

Lemma feedback_spec peer c fb cur now s s' r :
  challenges_ok s → length (challenge (ticket c)) = 32%nat →
  feedback peer c fb cur now s = (s', r) →
  failed s s' r ∨
  ∃ i p, slot s i p ∧ correlation (offer p) = c ∧ peer = instance (presenter p) ∧
    matches p cur = true ∧ now < deadline (offer p) ∧ last_now s' = now ∧
    feedback_effect s s' i p fb r.
Proof.
  intros Hok Hc H. unfold feedback in H. rewrite resolve_bind in H.
  destruct (resolve c now s) as [s1 [[i p]|e]] eqn:E; apply resolve_spec in E; try done.
  2: { injection H as <- <-. left. split; [by eexists|done]. }
  destruct E as (Hs & Hnow & Hi & Hcor & Hdl). unfold mbind, stM_bind, st_lift, ensure in H.
  pose proof (set_to_slot s s1 i None Hs) as Hnone.
  case_bool_decide as Hpeer; simpl in H.
  2: { injection H as <- <-. left. split; [by eexists|by left]. }
  destruct (matches p cur) eqn:Em; simpl in H.
  2: { injection H as <- <-. left. split; [by eexists|right]. by exists i, p. }
  assert (∀ e, (s1, Err e) = (s', r) → failed s s' r) as Hfail.
  { intros e [= <- <-]. split; [by eexists|by left]. }
  destruct fb as [| |ch g].
  - destruct (stage p) eqn:Est; try (left; eapply Hfail, H).
    injection H as <- <-. right. exists i, p. split_and!; try done. left.
    split_and!; try done. by apply set_to_slot.
  - injection H as <- <-. right. exists i, p. split_and!; try done. right; left.
    split_and!; try done. by left.
  - destruct (bool_decide (ch = Deny) && (g =? 0)) eqn:Ed.
    { apply andb_prop in Ed as [Ed Eg]. apply bool_decide_eq_true in Ed. apply Z.eqb_eq in Eg. subst.
      injection H as <- <-. right. exists i, p. split_and!; try done. right; left.
      split_and!; try done. by right. }
    destruct (bool_decide (ch = Deny)) eqn:Edn; [left; eapply Hfail, H|]. simpl in H.
    destruct (contains _ ch) eqn:Ect; simpl in H; [|left; eapply Hfail, H].
    destruct (stage p) as [| |pr] eqn:Est; try (left; eapply Hfail, H).
    destruct (g =? 0) eqn:Eg; [left; eapply Hfail, H|].
    case_bool_decide as Egs; simpl in H; [|left; eapply Hfail, H].
    injection H as <- <-. right. exists i, p. split_and!; try done. right; right.
    apply bool_decide_eq_false in Edn. exists ch, g, pr. split_and!; try done. lia.
Qed.

Lemma propose_spec peer c ch cur now s s' r :
  challenges_ok s → length (challenge (ticket c)) = 32%nat →
  propose peer c ch cur now s = (s', r) →
  failed s s' r ∨ ∃ g s1, same s s1 ∧ feedback peer c (FDecision ch g) cur now s1 = (s', r).
Proof.
  intros Hok Hc H. unfold propose in H. rewrite resolve_bind in H.
  destruct (resolve c now s) as [s1 [[i p]|e]] eqn:E; apply resolve_spec in E; try done.
  2: { injection H as <- <-. left. split; [by eexists|done]. }
  destruct E as (Hs & Hnow & Hi & Hcor & Hdl). unfold mbind, stM_bind, st_lift, ensure in H.
  case_bool_decide as Hpeer; simpl in H.
  2: { injection H as <- <-. left. split; [by eexists|by left]. }
  destruct (matches p cur) eqn:Em; simpl in H.
  2: { injection H as <- <-. left. split; [by eexists|right]. exists i, p.
       split; [done|]. by apply set_to_slot. }
  destruct (if bool_decide (ch = Deny) then _ else _) as [g|e] in H.
  - right. by exists g, s1.
  - injection H as <- <-. left. split; [by eexists|by left].
Qed.

Lemma consent_arm_spec peer c route n rel now s s' r :
  challenges_ok s → length (challenge (ticket c)) = 32%nat →
  arm peer c route n rel now s = (s', r) →
  failed s s' r ∨
  ∃ i p, slot s i p ∧ correlation (offer p) = c ∧ peer = source (input p) ∧ route = input p ∧
    stage p = Presented ∧ r = Ok tt ∧
    set_to s s' i (Some (with_stage p (Armed (mkPresence n rel None)))).
Proof.
  intros Hok Hc H. unfold arm in H. rewrite resolve_bind in H.
  destruct (resolve c now s) as [s1 [[i p]|e]] eqn:E; apply resolve_spec in E; try done.
  2: { injection H as <- <-. left. split; [by eexists|done]. }
  destruct E as (Hs & Hnow & Hi & Hcor & Hdl). unfold mbind, stM_bind, st_lift, ensure in H.
  do 2 (case_bool_decide; simpl in H; [|injection H as <- <-; left; split; [by eexists|by left]]).
  destruct (stage p) eqn:Est; injection H as <- <-;
    try (left; split; [by eexists|by left]).
  right. exists i, p. split_and!; try done. by apply set_to_slot.
Qed.

Lemma input_event_spec peer c route n tr now s s' r :
  challenges_ok s → length (challenge (ticket c)) = 32%nat →
  input_event peer c route n tr now s = (s', r) →
  failed s s' r ∨
  ∃ i p pr, slot s i p ∧ correlation (offer p) = c ∧ peer = source (input p) ∧ route = input p ∧
    stage p = Armed pr ∧ serial pr < n ∧ r = Ok tt ∧
    set_to s s' i (Some (with_stage p (Armed (press pr n tr)))).
Proof.
  intros Hok Hc H. unfold input_event in H. rewrite resolve_bind in H.
  destruct (resolve c now s) as [s1 [[i p]|e]] eqn:E; apply resolve_spec in E; try done.
  2: { injection H as <- <-. left. split; [by eexists|done]. }
  destruct E as (Hs & Hnow & Hi & Hcor & Hdl). unfold mbind, stM_bind, st_lift, ensure in H.
  do 2 (case_bool_decide; simpl in H; [|injection H as <- <-; left; split; [by eexists|by left]]).
  destruct (stage p) as [| |pr] eqn:Est;
    try (injection H as <- <-; left; split; [by eexists|by left]).
  destruct (n <=? serial pr) eqn:El; injection H as <- <-;
    [left; split; [by eexists|by left]|].
  right. exists i, p, pr. split_and!; try done; [lia|by apply set_to_slot].
Qed.

Lemma live_slots_elem s p : p ∈ live_slots s ↔ ∃ i, slot s i p.
Proof.
  unfold live_slots, slot. rewrite list_elem_of_omap. setoid_rewrite list_elem_of_lookup. naive_solver.
Qed.

Lemma begin_spec b pr rt ch now timeout chal s s' r :
  begin b pr rt ch now timeout chal s = (s', r) →
  ((∃ e, r = Err e) ∧ same s s') ∨
  ∃ i n, next_id s = Some n ∧ pending s !! i = Some None ∧
    let o := mkOffer (mkCorrelation (mkTicket n chal) n) (now + timeout) ch in
    r = Ok o ∧ begin_invalid b pr rt ch timeout chal = false ∧
    (∀ j q, slot s j q → endpoint (instance (presenter q)) ≠ endpoint (instance pr) ∧
                         challenge (ticket (correlation (offer q))) ≠ chal) ∧
    next_id s' = checked_add U64_MAX n 1 ∧ last_now s ≤ now ∧ last_now s' = now ∧
    pending s' = <[i := Some (mkPending o b pr rt Offered)]> (pending s).
Proof.
  intros H. unfold begin, mbind, stM_bind in H.
  destruct (clock_spec now s) as [E|(s0 & E & Hs & Hnow)]; rewrite E in H.
  { injection H as <- <-. left. split; [by eexists|]. unfold same. split_and!; done || lia. }
  assert (∀ e, (s0, Err e) = (s', r) → (∃ e, r = Err e) ∧ same s s') as Hfail.
  { intros e [= <- <-]. by split; [eexists|]. }
  unfold st_get, st_lift, ensure, checked_add in H.
  destruct (begin_invalid _ _ _ _ _ _) eqn:Ei; [left; eapply Hfail, H|]. simpl in H.
  destruct (now + timeout <=? U64_MAX) eqn:Eo; [|left; eapply Hfail, H]. simpl in H.
  destruct (existsb _ _) eqn:Ex; [left; eapply Hfail, H|]. simpl in H.
  destruct (iter_position _ _) as [i|] eqn:Ep; [|left; eapply Hfail, H]. simpl in H.
  destruct Hs as (Hn & Ht & Hp). destruct (next_id s0) as [n|] eqn:En; [|left; eapply Hfail, H].
  injection H as <- <-. right. exists i, n.
  apply iter_position_Some in Ep as (x & Hx & Hnone & _). apply bool_decide_eq_true in Hnone.
  destruct x as [x|]; [destruct Hnone; by eexists|]. rewrite Hp in *. cbn zeta.
  split_and!; [congruence|done|done|done| |done|lia|done|done].
  intros j q Hq. rewrite <- not_true_iff_false, existsb_exists in Ex.
  assert (q ∈ live_slots s0) as Hin by (apply live_slots_elem; exists j; unfold slot; by rewrite Hp).
  apply list_elem_of_In in Hin. split; intros Hc; apply Ex; exists q; split; try done;
    apply orb_true_iff; [left; lia|right; by apply bool_decide_eq_true].
Qed.

Lemma begin_at_spec c b pr rt ch now timeout s s' r :
  begin_at c b pr rt ch now timeout s = (s', r) →
  ((∃ e, r = Err e) ∧ s' = s) ∨
  next_correlation s (challenge (ticket c)) = Ok c ∧
  begin b pr rt ch now timeout (challenge (ticket c)) s = (s', r).
Proof.
  unfold begin_at, mbind, stM_bind, st_get, st_lift, ensure.
  destruct (next_correlation _ _) as [n|e]; [|intros [= <- <-]; left; by eauto].
  case_bool_decide; [subst; auto|]. intros [= <- <-]. left. by eauto.
Qed.

Lemma cancel_spec peer c s s' r :
  challenges_ok s → length (challenge (ticket c)) = 32%nat → cancel peer c s = (s', r) →
  ((∃ e, r = Err e) ∧ s' = s) ∨
  ∃ i p, slot s i p ∧ correlation (offer p) = c ∧ r = Ok (binding p) ∧ set_to s s' i None.
Proof.
  intros Hok Hc. unfold cancel, mbind, stM_bind, located, st_get.
  destruct (locate s c) as [i|e] eqn:E; [|intros [= <- <-]; left; by eauto].
  apply locate_Ok in E as (p & Hi & Hcor); [|done..]. rewrite Hi. unfold st_lift.
  destruct (ensure _ _) as [[]|e]; intros [= <- <-]; [right|left; by eauto].
  exists i, p. by split_and!.
Qed.

Lemma close_slots_lookup stale k l i :
  (close_slots stale k l).1 !! i =
  match l !! i with
  | Some (Some p) => Some (if stale (k + i)%nat p then None else Some p)
  | x => x
  end.
Proof.
  revert k i. induction l as [|x l IH]; intros k i; simpl; [done|].
  specialize (IH (S k)). destruct (close_slots stale (S k) l) as [rest closed]. simpl in IH.
  destruct i as [|i].
  - destruct x as [p|]; simpl; [|done]. rewrite Nat.add_0_r. by destruct (stale k p).
  - rewrite Nat.add_succ_r. simpl in *. rewrite <- IH.
    destruct x as [p|]; [|done]. by destruct (stale k p).
Qed.

Lemma close_spec stale s s' r :
  close stale s = (s', r) →
  next_id s' = next_id s ∧ last_now s' = last_now s ∧ length (pending s') = length (pending s) ∧
  ∀ i p, slot s' i p ↔ slot s i p ∧ stale i p = false.
Proof.
  unfold close. pose proof (close_slots_lookup stale 0 (pending s)) as Hl.
  destruct (close_slots stale 0 (pending s)) as [slots closed]. simpl in Hl.
  intros [= <- <-]. unfold slot. simpl. split_and!; try done.
  - apply Nat.le_antisymm; apply Nat.nlt_ge; intros Hlt; apply lookup_lt_is_Some in Hlt as [x Hx].
    + specialize (Hl (length (pending s))). rewrite Hx, lookup_ge_None_2 in Hl by lia. done.
    + specialize (Hl (length slots)). rewrite Hx, lookup_ge_None_2 in Hl by lia. by destruct x.
  - intros i p. rewrite Hl. destruct (pending s !! i) as [[q|]|]; [|naive_solver..].
    simpl. destruct (stale i q) eqn:E; split.
    + done.
    + intros [[= <-] ?]. congruence.
    + by intros [= <-].
    + by intros [[= <-] ?].
Qed.

(** ** Controller invariant *)

Definition fresh_below (s : Controller) (id : Z) : Prop := ∀ n, next_id s = Some n → id < n.
Definition approval_id (a : Approval) : Z := ticket_id (ticket (approved_correlation a)).
Definition offered_id (e : event) : option Z :=
  match snd e with Ok (ROffer o) => Some (ticket_id (ticket (correlation o))) | _ => None end.
Definition approves (e : event) (a : Approval) : Prop := snd e = Ok (ROutcome (OutcomeApproved a)).

Record inv (s : Controller) (h : list event) : Prop := mkInv {
  inv_len : length (pending s) = MAX_PENDING;
  inv_chal : challenges_ok s;
  inv_evidence : ∀ i p, slot s i p → evidence h p;
  inv_id : ∀ i p, slot s i p → fresh_below s (pending_id p);
  inv_life : ∀ i p, slot s i p → deadline (offer p) ≤ last_now s + MAX_TIMEOUT_NS;
  inv_unique : ∀ i j p q, slot s i p → slot s j q → i ≠ j →
    pending_id p ≠ pending_id q ∧
    endpoint (instance (presenter p)) ≠ endpoint (instance (presenter q));
  inv_offered : ∀ id, id ∈ omap offered_id h → fresh_below s id;
  inv_nodup : NoDup (omap offered_id h);
  inv_approved : ∀ e a, e ∈ h → approves e a →
    fresh_below s (approval_id a) ∧ ∀ i p, slot s i p → pending_id p ≠ approval_id a;
}.

(** A call that opens no question and leaves every other slot's question. *)
Lemma inv_sub s s' h e :
  inv s h →
  next_id s' = next_id s → last_now s ≤ last_now s' → length (pending s') = length (pending s) →
  (∀ j q, slot s' j q → evidence (e :: h) q ∧
     ∃ q0, slot s j q0 ∧ offer q = offer q0 ∧ presenter q = presenter q0) →
  offered_id e = None →
  (∀ a, approves e a → (∃ j q, slot s j q ∧ pending_id q = approval_id a) ∧
                       ∀ j q, slot s' j q → pending_id q ≠ approval_id a) →
  inv s' (e :: h).
Proof.
  intros [H1 H2 H3 H4 H5 H6 H7 H8 H9] Hn Ht Hl Hs Ho Ha.
  assert (∀ id, fresh_below s id → fresh_below s' id) as Hf by (unfold fresh_below; by rewrite Hn).
  unfold pending_id in *. split; csimpl; rewrite ?Ho.
  - congruence.
  - intros j q Hq. destruct (Hs j q Hq) as (_ & q0 & Hq0 & -> & _). by eapply H2.
  - intros j q Hq. apply (Hs j q Hq).
  - intros j q Hq. destruct (Hs j q Hq) as (_ & q0 & Hq0 & E & _). unfold pending_id. rewrite E.
    by eapply Hf, H4.
  - intros j q Hq. destruct (Hs j q Hq) as (_ & q0 & Hq0 & -> & _). specialize (H5 _ _ Hq0). lia.
  - intros j k q r Hq Hr Hne. destruct (Hs j q Hq) as (_ & q0 & Hq0 & E1 & E2).
    destruct (Hs k r Hr) as (_ & r0 & Hr0 & E3 & E4). unfold pending_id.
    rewrite E1, E2, E3, E4. by apply (H6 j k).
  - intros id Hid. by apply Hf, H7.
  - done.
  - intros e' a [->|He]%elem_of_cons Hap.
    + destruct (Ha a Hap) as [(j & q & Hq & <-) Hd]. split; [by eapply Hf, H4|done].
    + destruct (H9 e' a He Hap) as [Hb Hd]. split; [by apply Hf|]. intros j q Hq.
      destruct (Hs j q Hq) as (_ & q0 & Hq0 & E & _). unfold pending_id. rewrite E. by eapply Hd.
Qed.

Definition not_press (e : event) : Prop := ∀ c, ¬ is_press e c.
Definition no_approval (e : event) : Prop := ∀ a, ¬ approves e a.

Lemma inv_same s s' h e :
  inv s h → same s s' → not_press e → offered_id e = None → no_approval e → inv s' (e :: h).
Proof.
  intros Hi (Hn & Ht & Hp) Hnp Ho Ha. apply (inv_sub s); try done.
  - by rewrite Hp.
  - unfold slot. rewrite Hp. intros j q Hq. split; [|by exists q].
    apply evidence_cons; [apply Hnp|by eapply inv_evidence].
  - intros a Hap. by destruct (Ha a).
Qed.

Lemma inv_clear s s' h e i p :
  inv s h → slot s i p → set_to s s' i None → not_press e → offered_id e = None →
  (∀ a, approves e a → approval_id a = pending_id p) → inv s' (e :: h).
Proof.
  intros Hi Hp (Hn & Ht & Hs) Hnp Ho Ha.
  assert (∀ j q, slot s' j q → slot s j q ∧ j ≠ i) as Hsub.
  { unfold slot in *. rewrite Hs. intros j q Hq. destruct (decide (j = i)) as [->|].
    - rewrite list_lookup_insert_eq in Hq by (by eapply lookup_lt_Some). done.
    - by rewrite list_lookup_insert_ne in Hq by done. }
  apply (inv_sub s); try done.
  - by rewrite Hs, length_insert.
  - intros j q [Hq _]%Hsub. split; [|by exists q].
    apply evidence_cons; [apply Hnp|by eapply inv_evidence].
  - intros a Hap. rewrite (Ha a Hap). split; [by exists i, p|].
    intros j q [Hq Hne]%Hsub. by apply (inv_unique _ _ Hi j i).
Qed.

Lemma inv_stage s s' h e i p st :
  inv s h → slot s i p → set_to s s' i (Some (with_stage p st)) →
  evidence (e :: h) (with_stage p st) → (∀ c, is_press e c → c = correlation (offer p)) →
  offered_id e = None → no_approval e → inv s' (e :: h).
Proof.
  intros Hi Hp (Hn & Ht & Hs) He Hpr Ho Ha. apply (inv_sub s); try done.
  - by rewrite Hs, length_insert.
  - unfold slot in *. rewrite Hs. intros j q Hq. destruct (decide (j = i)) as [->|Hne].
    + rewrite list_lookup_insert_eq in Hq by (by eapply lookup_lt_Some). injection Hq as <-.
      split; [done|]. by exists p.
    + rewrite list_lookup_insert_ne in Hq by done. split; [|by exists q].
      apply evidence_cons; [|by eapply inv_evidence]. intros E%Hpr.
      destruct (inv_unique _ _ Hi j i q p Hq Hp Hne) as [Hid _]. apply Hid.
      unfold pending_id. by rewrite E.
  - intros a Hap. by destruct (Ha a).
Qed.

Lemma inv_failed {A} s s' h e (r : result Error A) :
  inv s h → failed s s' r → not_press e → offered_id e = None → no_approval e → inv s' (e :: h).
Proof.
  intros Hi [_ [Hs|(i & p & Hp & Hs)]] Hnp Ho Ha; [by eapply inv_same|].
  eapply inv_clear; try done. intros a Hap. by destruct (Ha a).
Qed.

Lemma inv_begin s s' h e i n b pr rt ch now timeout chal :
  inv s h → length chal = 32%nat → not_press e →
  let o := mkOffer (mkCorrelation (mkTicket n chal) n) (now + timeout) ch in
  let p := mkPending o b pr rt Offered in
  snd e = Ok (ROffer o) → opens e p → next_id s = Some n → pending s !! i = Some None →
  begin_invalid b pr rt ch timeout chal = false →
  (∀ j q, slot s j q → endpoint (instance (presenter q)) ≠ endpoint (instance pr)) →
  next_id s' = checked_add U64_MAX n 1 → last_now s ≤ now → last_now s' = now →
  pending s' = <[i := Some p]> (pending s) →
  inv s' (e :: h).
Proof.
  intros [H1 H2 H3 H4 H5 H6 H7 H8 H9] Hc Hnp o p Hr Hop Hn Hi Hv Hep Hn' Ht Ht' Hs.
  assert (∀ id, id ≤ n → fresh_below s' id) as Hle.
  { intros id Hid m. rewrite Hn'. unfold checked_add.
    destruct (n + 1 <=? U64_MAX); [intros [= <-]; lia|done]. }
  assert (∀ id, fresh_below s id → id < n) as Hlt by (intros id H; by apply H).
  assert (∀ j q, slot s' j q → j = i ∧ q = p ∨ j ≠ i ∧ slot s j q) as Hsl.
  { unfold slot in *. rewrite Hs. intros j q Hq. destruct (decide (j = i)) as [->|].
    - rewrite list_lookup_insert_eq in Hq by (by eapply lookup_lt_Some). naive_solver.
    - rewrite list_lookup_insert_ne in Hq by done. by right. }
  assert (offered_id e = Some n) as Hoe by (unfold offered_id; by rewrite Hr).
  assert (timeout ≤ MAX_TIMEOUT_NS) as Hto by (unfold begin_invalid in Hv; lia).
  split; csimpl; rewrite ?Hoe.
  - by rewrite Hs, length_insert.
  - intros j q [[-> ->]|[_ Hq]]%Hsl; [done|by eapply H2].
  - intros j q [[-> ->]|[_ Hq]]%Hsl; [by apply evidence_open|].
    apply evidence_cons; [apply Hnp|by eapply H3].
  - intros j q [[-> ->]|[_ Hq]]%Hsl; apply Hle; [done|]. specialize (Hlt _ (H4 _ _ Hq)). lia.
  - intros j q [[-> ->]|[_ Hq]]%Hsl; simpl; [lia|]. specialize (H5 _ _ Hq). lia.
  - intros j k q r [[-> ->]|[_ Hq]]%Hsl [[-> ->]|[_ Hk]]%Hsl Hne; try done.
    + specialize (Hlt _ (H4 _ _ Hk)). change (pending_id p) with n. split; [lia|].
      intros E. by apply (Hep _ _ Hk).
    + specialize (Hlt _ (H4 _ _ Hq)). change (pending_id p) with n. split; [lia|]. by eapply Hep.
    + by apply (H6 j k).
  - intros id [->|Hid]%elem_of_cons; apply Hle; [done|]. specialize (Hlt _ (H7 _ Hid)). lia.
  - constructor; [|done]. intros Hin. specialize (Hlt _ (H7 _ Hin)). lia.
  - intros e' a [->|He]%elem_of_cons Hap; [unfold approves in Hap; congruence|].
    destruct (H9 _ _ He Hap) as [Hb Hd]. specialize (Hlt _ Hb). split; [apply Hle; lia|].
    intros j q [[-> ->]|[_ Hq]]%Hsl; [change (pending_id p) with n; lia|by eapply Hd].
Qed.

Lemma inv_new : inv controller_new [].
Proof.
  assert (∀ i p, ¬ slot controller_new i p) as Hn.
  { unfold slot. simpl. intros i p H. apply (lookup_replicate MAX_PENDING) in H as [? _]. done. }
  split.
  - done.
  - intros i p Hp. by destruct (Hn i p).
  - intros i p Hp. by destruct (Hn i p).
  - intros i p Hp. by destruct (Hn i p).
  - intros i p Hp. by destruct (Hn i p).
  - intros i j p q Hp. by destruct (Hn i p).
  - by intros id Hid%elem_of_nil.
  - by apply NoDup_nil_2.
  - by intros e a He%elem_of_nil.
Qed.

Lemma st_map_inv {A B} (f : A → B) (c : stM Controller Error A) s s' r :
  st_map f c s = (s', r) → ∃ r0, c s = (s', r0) ∧ r = f <$> r0.
Proof.
  unfold st_map, mbind, stM_bind. destruct (c s) as [s1 [a|e]]; intros [= <- <-]; by eexists.
Qed.

Lemma inv_exec_begin s s' h b pr rt ch now timeout chal r e :
  inv s h → length chal = 32%nat → not_press e → snd e = (ROffer <$> r) →
  (∀ o st, r = Ok o → choices o = ch → opens e (mkPending o b pr rt st)) →
  begin b pr rt ch now timeout chal s = (s', r) → inv s' (e :: h).
Proof.
  intros Hi Hc Hnp Hr Hop H. apply begin_spec in H as [[[err ->] Hs]|(i & n & Hn & Hf & H)].
  - eapply inv_same; try done; unfold offered_id, no_approval, approves; by rewrite Hr.
  - simpl in H. destruct H as (-> & Hv & Hd & Hn' & Ht & Ht' & Hp).
    eapply inv_begin; try done; [by apply Hop|]. intros j q Hq. by apply (Hd j q).
Qed.

Lemma inv_exec_feedback s s' h peer c fb cur now r e :
  inv s h → length (challenge (ticket c)) = 32%nat → not_press e → snd e = (ROutcome <$> r) →
  (fb = FPresented → r = Ok OutcomePending →
   fst e = CFeedback peer c FPresented cur now) →
  feedback peer c fb cur now s = (s', r) → inv s' (e :: h).
Proof.
  intros Hi Hc Hnp Hr Hsh H.
  assert (offered_id e = None) as Ho by (unfold offered_id; rewrite Hr; by destruct r).
  apply feedback_spec in H as [Hf|(i & p & Hp & Hcor & Hpe & Hm & Hdl & _ & H)]; [| |by apply Hi|done].
  - eapply inv_failed; try done. destruct Hf as [[err ->] _]. unfold no_approval, approves. by rewrite Hr.
  - destruct H as [(-> & Hst & -> & Hs)|[(Hd & -> & Hs)|(ch & g & pr & -> & _ & _ & _ & _ & _ & -> & Hs)]].
    + eapply inv_stage; try done.
      * apply evidence_show; [done|by eapply inv_evidence|]. exists cur, now.
        destruct e as [call rep]. simpl in *. subst. by rewrite Hsh.
      * intros c' Hc'. by destruct (Hnp c').
      * unfold no_approval, approves. by rewrite Hr.
    + eapply inv_clear; try done. unfold approves. by rewrite Hr.
    + eapply inv_clear; try done. unfold approves. rewrite Hr. intros a [= <-]. done.
Qed.

Lemma inv_clock s s1 h : inv s h → same s s1 → inv s1 h.
Proof.
  intros [H1 H2 H3 H4 H5 H6 H7 H8 H9] (Hn & Ht & Hp).
  unfold challenges_ok, fresh_below, slot in *.
  split; unfold challenges_ok, fresh_below, slot; rewrite ?Hn, ?Hp; try done.
  intros i p Hi. specialize (H5 i p Hi). lia.
Qed.

Lemma inv_exec_close s s0 s' h stale r e :
  inv s h → same s s0 → not_press e → offered_id e = None → no_approval e →
  close stale s0 = (s', r) → inv s' (e :: h).
Proof.
  intros Hi Hs Hnp Ho Ha (Hn & Ht & Hl & Hsl)%close_spec.
  apply (inv_clock _ s0) in Hi; [|done].
  apply (inv_sub s0); try done; [lia| |intros a Hap; by destruct (Ha a)].
  intros j q [Hq _]%Hsl. split; [|by exists q].
  apply evidence_cons; [apply Hnp|by eapply inv_evidence].
Qed.

Lemma inv_exec_arm s s' h peer c route n rel now r :
  inv s h → length (challenge (ticket c)) = 32%nat → arm peer c route n rel now s = (s', r) →
  inv s' ((CArm peer c route n rel now, (λ _, RUnit) <$> r) :: h).
Proof.
  intros Hi Hc H. assert (not_press (CArm peer c route n rel now, (λ _, RUnit) <$> r))
    as Hnp by (intros c' (? & ? & ? & ? & ?); done).
  apply consent_arm_spec in H as [Hf|(i & p & Hp & <- & -> & -> & Hst & -> & Hs)]; [| |by apply Hi|done].
  - eapply inv_failed; try done; destruct Hf as [[err ->] _]; done.
  - eapply inv_stage; try done; [|by intros c' []%Hnp].
    eapply evidence_arm; [done|by eapply inv_evidence|by eexists].
Qed.

Lemma inv_exec_input s s' h peer c route n tr now r :
  inv s h → length (challenge (ticket c)) = 32%nat →
  input_event peer c route n tr now s = (s', r) →
  inv s' ((CInput peer c route n tr now, (λ _, RUnit) <$> r) :: h).
Proof.
  intros Hi Hc H.
  apply input_event_spec in H as [Hf|(i & p & pr & Hp & <- & -> & -> & Hst & Hlt & -> & Hs)];
    [| |by apply Hi|done].
  - eapply inv_failed; try done; destruct Hf as [[err ->] _]; try done.
    by intros c' (? & ? & ? & ? & ?).
  - eapply inv_stage; try done.
    + eapply evidence_input; [done|by eapply inv_evidence|by eexists|done].
    + intros c' (? & ? & ? & ? & [= _ -> _ _ _ _]). done.
Qed.

Lemma inv_step s h c s' r : inv s h → typed c → exec c s = (s', r) → inv s' ((c, r) :: h).
Proof.
  intros Hi Hty H.
  destruct c as [now|b pr rt ch now timeout chal|c b pr rt ch now timeout|peer c fb cur now
    |peer c ch cur now|peer c route n rel now|peer c route n tr now|peer c|now|current];
    simpl in H, Hty; apply st_map_inv in H as (r0 & H & ->);
    [| | | | |by eapply inv_exec_arm|by eapply inv_exec_input|..];
    match goal with |- inv _ (?e :: _) =>
      assert (not_press e) as Hnp by (intros c' (? & ? & ? & ? & ?); done) end.
  - destruct (clock_spec now s) as [E|(s0 & E & Hs & _)]; unfold observe_time in H; rewrite E in H;
      injection H as <- <-; eapply inv_same; first [done|apply consent_same_refl].
  - eapply inv_exec_begin; try done. intros o st -> <-. split; [done|]. left. by repeat eexists.
  - apply begin_at_spec in H as [[[e ->] ->]|[_ H]].
    + eapply inv_same; first [done|apply consent_same_refl].
    + eapply inv_exec_begin; try done. intros o st -> <-. split; [done|]. right. by repeat eexists.
  - eapply inv_exec_feedback; try done. intros -> ->. done.
  - apply propose_spec in H as [Hf|(g & s1 & Hs & H)]; [| |by apply Hi|done].
    + eapply inv_failed; try done; destruct Hf as [[e ->] _]; done.
    + eapply (inv_exec_feedback s1 s' h peer c (FDecision ch g) cur now); [by eapply inv_clock|done..].
  - apply cancel_spec in H as [[[e ->] ->]|(i & p & Hp & _ & -> & Hs)]; [| |by apply Hi|done].
    + eapply inv_same; first [done|apply consent_same_refl].
    + by eapply inv_clear.
  - unfold expire, mbind, stM_bind in H.
    destruct (clock_spec now s) as [E|(s0 & E & Hs & _)]; rewrite E in H.
    + injection H as <- <-. eapply inv_same; first [done|apply consent_same_refl].
    + eapply inv_exec_close; try done; unfold close in H; by destruct (close_slots _ _ _); simplify_eq.
  - eapply (inv_exec_close s s); try done; unfold observe, close in H;
      by destruct (close_slots _ _ _); simplify_eq.
Qed.

Lemma consent_run_inv s h : run s h → inv s h.
Proof. induction 1; [apply inv_new|by eapply inv_step]. Qed.

Lemma NoDup_slots {A B} (f : A → B) (l : list (option A)) :
  (∀ i j x y, l !! i = Some (Some x) → l !! j = Some (Some y) → i ≠ j → f x ≠ f y) →
  NoDup (f <$> omap id l).
Proof.
  induction l as [|[x|] l IH]; csimpl; intros H.
  - by apply NoDup_nil_2.
  - constructor.
    + intros (y & Hy & (o & Ho%list_elem_of_lookup & [= ->])%list_elem_of_omap)%list_elem_of_fmap.
      destruct Ho as [j Hj]. by apply (H 0%nat (S j) x y).
    + apply IH. intros i j y z Hi Hj Hne. apply (H (S i) (S j)); [done|done|congruence].
  - apply IH. intros i j y z Hi Hj Hne. apply (H (S i) (S j)); [done|done|congruence].
Qed.

Lemma close_slots_closed stale k l :
  (close_slots (λ _, stale) k l).2 =
  (λ p, (ticket (correlation (offer p)), binding p)) <$> List.filter stale (omap id l).
Proof.
  revert k. induction l as [|x l IH]; intros k; simpl; [done|].
  specialize (IH (S k)). destruct (close_slots _ (S k) l) as [rest closed]. simpl in IH. subst.
  destruct x as [p|]; csimpl; [|done]. by destruct (stale p).
Qed.

(** ** Guarantees *)

(** A decision taken by [feedback] rests on the evidence of its slot. *)
Lemma feedback_approval s h peer c fb cur now s' a :
  inv s h → length (challenge (ticket c)) = 32%nat →
  feedback peer c fb cur now s = (s', Ok (OutcomeApproved a)) →
  ∃ p ch g n0 rel l,
    peer = instance (presenter p) ∧ c = correlation (offer p) ∧ fb = FDecision ch g ∧
    a = mkApproval (binding p) ch (correlation (offer p)) ∧
    ch ≠ Deny ∧ contains (choices (offer p)) ch = true ∧
    matches p cur = true ∧ now < deadline (offer p) ∧
    armed h l p n0 rel ∧ pressed l p n0 g rel.
Proof.
  intros Hi Hc H. apply feedback_spec in H as [Hf|(i & p & Hp & Hcor & -> & Hm & Hdl & _ & H)];
    [| |by apply Hi|done].
  { destruct Hf as [[e ?] _]. done. }
  destruct H as [(_ & _ & ? & _)|[(_ & ? & _)|(ch & g & pr & -> & Hne & Hct & Hst & Hg & _ & [= ->] & _)]];
    [done..|].
  pose proof (inv_evidence _ _ Hi i p Hp) as He. unfold evidence in He. rewrite Hst in He.
  destruct He as (l & n0 & rel & Ha & _ & _ & Hpr).
  exists p, ch, g, n0, rel, l. split_and!; try done. by apply Hpr.
Qed.

(** C5: Whenever a call of a history of the consent controller yields an
    approval, the call came from the question's own presenter with matching
    current observations before the deadline, the choice was offered and is
    not a denial, and the history contains, in order, the call that opened
    the question, the presenter's acknowledgement, the input authority's
    snapshot and a later physical press with every key up before it. *)
Theorem approval_justified s h c s' a :
  run s h → typed c → exec c s = (s', Ok (ROutcome (OutcomeApproved a))) →
  ∃ p ch cur now g n0 rel l,
    (c = CFeedback (instance (presenter p)) (correlation (offer p)) (FDecision ch g) cur now ∨
     c = CPropose (instance (presenter p)) (correlation (offer p)) ch cur now) ∧
    a = mkApproval (binding p) ch (correlation (offer p)) ∧
    ch ≠ Deny ∧ contains (choices (offer p)) ch = true ∧
    matches p cur = true ∧ now < deadline (offer p) ∧
    armed h l p n0 rel ∧ pressed l p n0 g rel.
Proof.
  intros Hi%consent_run_inv Hty H. destruct c; simpl in H, Hty; apply st_map_inv in H as ([x|e] & H & E);
    simplify_eq/=.
  - apply (feedback_approval _ h) in H as (p & ch & g & n0 & rel & l & -> & -> & -> & H); [|done..].
    exists p, ch, cur, now, g, n0, rel, l. split; [by left|done].
  - apply propose_spec in H as [Hf|(g & s1 & Hs & H)]; [| |by apply Hi|done].
    { destruct Hf as [[e ?] _]. done. }
    apply (feedback_approval _ h) in H as (p & ch' & g' & n0 & rel & l & -> & -> & [= <- <-] & H);
      [|by eapply inv_clock|done].
    exists p, ch, cur, now, g, n0, rel, l. split; [by right|done].
Qed.

(** C28: Once a history contains an approval, the approved question can no
    longer be located by any later call, and the identifier of its ticket is
    never issued again. *)
Theorem approval_single_use s h e a c :
  run s h → e ∈ h → approves e a → ticket_id (ticket c) = approval_id a →
  locate s c = Err Unknown ∧ ∀ n, next_id s = Some n → ticket_id (ticket c) ≠ n.
Proof.
  intros Hi%consent_run_inv He Ha Hid. destruct (inv_approved _ _ Hi e a He Ha) as [Hb Hs]. split.
  - apply locate_unknown. intros i p Hp. rewrite Hid. by apply (Hs i).
  - intros n Hn. specialize (Hb n Hn). lia.
Qed.

(** In every history the consent controller has at most its maximum of open
    questions, never issues a question identifier twice, has no two open
    questions with the same identifier or presenter endpoint, and every
    deadline is within the maximum timeout of its last clock reading. *)
Theorem questions_bounded s h :
  run s h →
  (len s ≤ MAX_PENDING)%nat ∧ NoDup (omap offered_id h) ∧
  NoDup (pending_id <$> live_slots s) ∧
  NoDup ((λ p, endpoint (instance (presenter p))) <$> live_slots s) ∧
  ∀ p, p ∈ live_slots s → deadline (offer p) ≤ last_now s + MAX_TIMEOUT_NS.
Proof.
  intros Hi%consent_run_inv. pose proof (inv_unique _ _ Hi) as Hu. split_and!.
  - rewrite <- (inv_len _ _ Hi). unfold len, live_slots. clear.
    induction (pending s) as [|[p|] l IH]; csimpl; lia.
  - apply Hi.
  - apply NoDup_slots. intros i j p q Hp Hq Hne. by apply (Hu i j).
  - apply NoDup_slots. intros i j p q Hp Hq Hne. by apply (Hu i j).
  - intros p [i Hp]%live_slots_elem. by eapply inv_life.
Qed.

(** Expiring at a time no earlier than the last one closes exactly the
    questions whose deadline has passed, reports each of them once in table
    order, and keeps every other question. *)
Theorem expire_exact s now :
  last_now s ≤ now →
  ∃ s' closed, expire now s = (s', Ok closed) ∧ last_now s' = now ∧
    (∀ i p, slot s' i p ↔ slot s i p ∧ now < deadline (offer p)) ∧
    closed = (λ p, (ticket (correlation (offer p)), binding p)) <$>
               List.filter (λ p, now >=? deadline (offer p)) (live_slots s).
Proof.
  intros Hle. unfold expire, mbind, stM_bind.
  destruct (clock_spec now s) as [E|(s0 & E & (Hn & Ht & Hp) & Hnow)]; rewrite E.
  { unfold clock in E. rewrite (proj2 (Z.ltb_ge _ _)) in E by done. done. }
  destruct (close _ s0) as [s' r] eqn:Ec. pose proof Ec as (_ & Ht' & _ & Hsl)%close_spec.
  unfold close in Ec. pose proof (close_slots_closed (λ p, now >=? deadline (offer p)) 0 (pending s0)) as Hc.
  destruct (close_slots _ 0 (pending s0)) as [slots closed]. simplify_eq/=.
  eexists _, _. split_and!; [done|done| |].
  - intros i p. rewrite Hsl. unfold slot. rewrite Hp. split; intros [? ?]; split; done || lia.
  - unfold live_slots. by rewrite <- Hp.
Qed.
End Consent.

(** ** Examples *)

Inductive ExampleChoice := ExDeny | ExOnce | ExProcess.
#[global] Instance ExampleChoice_eq_dec : EqDecision ExampleChoice.
Proof. solve_decision. Defined.
Definition example_protocol : ConsentProtocol := {|
  Choice := ExampleChoice; Deny := ExDeny; AllowOnce := ExOnce; AllowForProcess := ExProcess;
  Choices := list ExampleChoice; contains := λ l c, bool_decide (c ∈ l);
|}.

Section Examples.
#[local] Existing Instance example_protocol.
#[local] Abbreviation event := (Call * result Error Reply)%type.

(** A controller that executes a list of calls. *)
Fixpoint replay (s : Controller) (h : list event) (calls : list Call) : Controller * list event :=
  match calls with
  | [] => (s, h)
  | c :: calls => let '(s, r) := exec c s in replay s ((c, r) :: h) calls
  end.
Lemma replay_run s h calls :
  run s h → Forall typed calls → run (replay s h calls).1 (replay s h calls).2.
Proof.
  intros Hr Hc. revert s h Hr. induction Hc as [|c calls Hc Hcs IH]; intros s h Hr; simpl; [done|].
  destruct (exec c s) as [s' r] eqn:E. apply IH. by eapply run_step.
Qed.

Definition example_instance (n : Z) : Instance_ := mkInstance n n n 1 [].
Definition example_binding : Binding :=
  mkBinding (example_instance 1) (mkSession 1 1) 1 [] [] [] Launch.
Definition example_presenter : Presenter := mkPresenter (example_instance 2) 1.
Definition example_route : InputRoute := mkInputRoute (example_instance 3) 0 1.
Definition example_current : Current :=
  mkCurrent (Some (example_instance 1)) (Some example_presenter) (Some example_route)
    (Some (mkSession 1 1)) 1 true.
Definition example_ticket : Correlation := mkCorrelation (mkTicket 1 (replicate 32 9)) 1.
Definition example_once : Choice := ExOnce.
Definition example_choices : Choices := [ExDeny; ExOnce].

(** A question opened, shown, armed and answered by a physical press. *)
Definition example_calls : list Call :=
  [CBegin example_binding example_presenter example_route example_choices 10 1000 (replicate 32 9);
   CFeedback (example_instance 2) example_ticket FPresented example_current 20;
   CArm (example_instance 3) example_ticket example_route 5 true 30;
   CInput (example_instance 3) example_ticket example_route 6 PhysicalPress 40].
Definition example_proposal : Call :=
  CPropose (example_instance 2) example_ticket example_once example_current 50.

Definition example_armed : Controller * list event := replay controller_new [] example_calls.
Definition example_done : Controller * list event :=
  replay controller_new [] (example_calls ++ [example_proposal]).
Definition example_approval : Approval := mkApproval example_binding example_once example_ticket.

Lemma example_armed_run : run example_armed.1 example_armed.2.
Proof. apply replay_run; [apply run_new|by repeat constructor]. Qed.
Lemma example_done_run : run example_done.1 example_done.2.
Proof. apply replay_run; [apply run_new|by repeat constructor]. Qed.
Lemma example_approved :
  (exec example_proposal example_armed.1).2 = Ok (ROutcome (OutcomeApproved example_approval)).
Proof. by vm_compute. Qed.

Lemma approval_justified_witness :
  ∃ p g n0 rel l, binding p = example_binding ∧ armed example_armed.2 l p n0 rel ∧
                  pressed l p n0 g rel.
Proof.
  destruct (exec example_proposal example_armed.1) as [s' r] eqn:E.
  pose proof example_approved as Ha. rewrite E in Ha. simpl in Ha. subst r.
  destruct (approval_justified _ _ example_proposal _ _ example_armed_run eq_refl E)
    as (p & ch & cur & now & g & n0 & rel & l & _ & Ea & _ & _ & _ & _ & H1 & H2).
  exists p, g, n0, rel, l. split_and!; [|done|done]. by injection Ea.
Defined.

Lemma approval_single_use_witness :
  locate example_done.1 example_ticket = Err Unknown.
Proof.
  apply (approval_single_use _ _ (example_proposal, Ok (ROutcome (OutcomeApproved example_approval)))
    example_approval example_ticket example_done_run); [|done|done].
  apply list_elem_of_In. vm_compute. by left.
Defined.

Lemma questions_bounded_witness :
  len example_armed.1 = 1%nat ∧ (len example_armed.1 ≤ MAX_PENDING)%nat ∧
  NoDup (omap offered_id example_armed.2).
Proof.
  split; [by vm_compute|]. by destruct (questions_bounded _ _ example_armed_run) as (? & ? & _).
Defined.

Lemma expire_exact_witness :
  ∃ s', expire 2000 example_armed.1 = (s', Ok [(ticket example_ticket, example_binding)]) ∧
        ∀ i p, ¬ (slot s' i p ∧ deadline (offer p) ≤ 2000).
Proof.
  destruct (expire_exact example_armed.1 2000) as (s' & closed & E & _ & Hs & ->); [by vm_compute|].
  exists s'. split; [rewrite E; by vm_compute|]. intros i p [[_ ?]%Hs ?]. lia.
Defined.
End Examples.
