(* ===== verification/Fifo.v ===== *)
(** * FIFO channels

    Models [posix/src/fifo.rs]: the owner-side state of one FIFO inode.  The
    protocol constants [PIPE_BUF] and [OPEN_STATUS_NONBLOCK] and the
    [WaitCondition] enumeration (transcribed from its [match]) come from
    crates outside the repository; the outcome of each [try_reserve] is an
    argument. *)

From S2P Require Import Prelude.

Definition BUFFER_CAPACITY : Z := 64 * 1024.
Definition MAX_OPEN_DESCRIPTIONS : Z := 1024.

Inductive Access := Read | Write.
#[global] Instance Access_eq_dec : EqDecision Access.
Proof. solve_decision. Defined.

Inductive WaitCondition := WaitOpen | WaitRead | WaitWrite (length : Z).

Inductive Error :=
  | BadDescription | WrongAccess | OpenPending | WouldBlock | NoReaders | ResourceLimit | NoMemory.
#[global] Instance Error_eq_dec : EqDecision Error.
Proof. solve_decision. Defined.

Record Observation := mkObservation {
  obs_open_ready : bool;
  buffered_bytes : Z;
  readers : Z;
  writers : Z;
}.

Record Readiness := mkReadiness {
  open_ready : bool;
  readable : bool;
  writable : bool;
  end_of_stream : bool;
  hangup : bool;
  write_error : bool;
}.

Record Description := mkDescription {
  id : Z;
  access : Access;
  ready : bool;
  writer_seen : bool;
  flags_of : Z;
}.

Record Channel := mkChannel {
  data : list Z;
  descriptions : list Description;
  last_id : Z;
}.
Definition channel_default : Channel := mkChannel [] [] 0.

Section Fifo.
Context (PIPE_BUF OPEN_STATUS_NONBLOCK : Z).

(** [descriptions.iter().any(|entry| entry.access == access)]. *)
Definition has_access (c : Channel) (a : Access) : bool :=
  existsb (λ e, bool_decide (access e = a)) (descriptions c).
Definition has_opposite (c : Channel) (a : Access) : bool :=
  existsb (λ e, bool_decide (access e ≠ a)) (descriptions c).

Definition reserve_open (alloc : bool) (c : Channel) (a : Access) (nonblocking : bool)
    : result Error unit :=
  if bool_decide (a = Write) && nonblocking && negb (has_access c Read) then Err NoReaders
  else if (zlen (descriptions c) =? MAX_OPEN_DESCRIPTIONS) || (last_id c =? U64_MAX)
  then Err ResourceLimit
  else if alloc then Ok tt else Err NoMemory.

(** The loop over the opposite side at the end of [open]. *)
Definition rendezvous (a : Access) (e : Description) : Description :=
  if bool_decide (access e ≠ a)
  then mkDescription (id e) (access e) true
         (if bool_decide (a = Write) then true else writer_seen e) (flags_of e)
  else e.

Definition open (alloc : bool) (a : Access) (nonblocking : bool) : stM Channel Error Z := λ c,
  match reserve_open alloc c a nonblocking with
  | Err e => (c, Err e)
  | Ok _ =>
      let opposite_present := has_opposite c a in
      match checked_add U64_MAX (last_id c) 1 with
      | None => (c, Err ResourceLimit)
      | Some next =>
          let e := mkDescription next a (nonblocking || opposite_present)
                     (bool_decide (a = Read) && opposite_present)
                     (if nonblocking then OPEN_STATUS_NONBLOCK else 0) in
          (mkChannel (data c) (rendezvous a <$> (descriptions c ++ [e])) next, Ok next)
      end
  end.

Definition description (c : Channel) (i : Z) : result Error Description :=
  ok_or BadDescription (List.find (λ e, id e =? i) (descriptions c)).

Definition observe (c : Channel) (i : Z) : result Error Observation :=
  e ← description c i;
  let readers := zlen (List.filter (λ e, bool_decide (access e = Read)) (descriptions c)) in
  Ok (mkObservation (ready e) (zlen (data c)) readers (zlen (descriptions c) - readers)).

Definition status_flags (c : Channel) (i : Z) : result Error Z :=
  flags_of <$> description c i.

(** [update_status_flags]: the first description with the identifier. *)
Definition update_status_flags (i mask flags : Z) : stM Channel Error unit := λ c,
  match iter_position (λ e, id e =? i) (descriptions c) with
  | None => (c, Err BadDescription)
  | Some k =>
      let update e :=
        mkDescription (id e) (access e) (ready e) (writer_seen e)
          (Z.lor (Z.land (flags_of e) (Z.land (Z.lnot mask) U32_MAX)) (Z.land flags mask)) in
      (mkChannel (data c) (alter update k (descriptions c)) (last_id c), Ok tt)
  end.

Definition readiness (c : Channel) (i : Z) : result Error Readiness :=
  e ← description c i;
  state ← observe c i;
  let side a := bool_decide (access e = a) in
  Ok (mkReadiness (ready e)
        (ready e && side Read && negb (bool_decide (data c = [])))
        (ready e && side Write && negb (readers state =? 0) && (zlen (data c) <? BUFFER_CAPACITY))
        (ready e && side Read && (writers state =? 0))
        (ready e && side Read && writer_seen e && (writers state =? 0))
        (ready e && side Write && (readers state =? 0))).

Definition wait_ready (c : Channel) (i : Z) (w : WaitCondition) : result Error bool :=
  e ← description c i;
  match w with
  | WaitOpen => Ok (ready e)
  | WaitRead =>
      if bool_decide (access e ≠ Read) then Err WrongAccess
      else r ← readiness c i; Ok (readable r || end_of_stream r)
  | WaitWrite length =>
      if bool_decide (access e ≠ Write) then Err WrongAccess
      else
        r ← readiness c i;
        let required := if length <=? PIPE_BUF then length else 1 in
        Ok (open_ready r && (write_error r || (required <=? BUFFER_CAPACITY - zlen (data c))))
  end.

Definition require_ready (c : Channel) (i : Z) (a : Access) : result Error unit :=
  e ← description c i;
  if bool_decide (access e ≠ a) then Err WrongAccess
  else if negb (ready e) then Err OpenPending
  else Ok tt.

(** [read]: the channel and the output buffer afterwards, and the count. *)
Definition read (c : Channel) (i : Z) (output : list Z) : (Channel * list Z) * result Error nat :=
  match require_ready c i Read with
  | Err e => ((c, output), Err e)
  | Ok _ =>
      if bool_decide (output = []) then ((c, output), Ok 0%nat)
      else if bool_decide (data c = []) && has_access c Write then ((c, output), Err WouldBlock)
      else
        let count := (length output `min` length (data c))%nat in
        ((mkChannel (drop count (data c)) (descriptions c) (last_id c),
          take count (data c) ++ drop count output), Ok count)
  end.

Definition write (alloc : bool) (i : Z) (input : list Z) : stM Channel Error Z := λ c,
  match require_ready c i Write with
  | Err e => (c, Err e)
  | Ok _ =>
      if bool_decide (input = []) then (c, Ok 0)
      else if negb (has_access c Read) then (c, Err NoReaders)
      else
        let available := BUFFER_CAPACITY - zlen (data c) in
        if (available =? 0) || ((zlen input <=? PIPE_BUF) && (zlen input >? available))
        then (c, Err WouldBlock)
        else
          let count := Z.min (zlen input) available in
          if alloc
          then (mkChannel (data c ++ take (Z.to_nat count) input) (descriptions c) (last_id c), Ok count)
          else (c, Err NoMemory)
  end.

Definition close (i : Z) : stM Channel Error unit := λ c,
  match iter_position (λ e, id e =? i) (descriptions c) with
  | None => (c, Err BadDescription)
  | Some k =>
      let ds := swap_remove k (descriptions c) in
      (mkChannel (if bool_decide (ds = []) then [] else data c) ds (last_id c), Ok tt)
  end.

(** ** Channel invariant *)

Record wf (c : Channel) : Prop := mkWf {
  wf_data : zlen (data c) ≤ BUFFER_CAPACITY;
  wf_nodup : NoDup (id <$> descriptions c);
  wf_ids : ∀ e, e ∈ descriptions c → 0 < id e ≤ last_id c;
  wf_last : 0 ≤ last_id c ≤ U64_MAX;
  wf_count : zlen (descriptions c) ≤ MAX_OPEN_DESCRIPTIONS;
  wf_empty : descriptions c = [] → data c = [];
  wf_pending : ∀ e e', e ∈ descriptions c → e' ∈ descriptions c → ready e = false →
    access e' = access e;
  wf_seen : ∀ e e', e ∈ descriptions c → e' ∈ descriptions c → access e = Read →
    writer_seen e = false → access e' = Read;
}.

Lemma has_access_spec c a : has_access c a = true ↔ ∃ e, e ∈ descriptions c ∧ access e = a.
Proof.
  unfold has_access. rewrite existsb_exists. setoid_rewrite <- list_elem_of_In.
  by setoid_rewrite bool_decide_eq_true.
Qed.
Lemma has_opposite_spec c a : has_opposite c a = true ↔ ∃ e, e ∈ descriptions c ∧ access e ≠ a.
Proof.
  unfold has_opposite. rewrite existsb_exists. setoid_rewrite <- list_elem_of_In.
  by setoid_rewrite bool_decide_eq_true.
Qed.

Lemma rendezvous_id a e : id (rendezvous a e) = id e ∧ access (rendezvous a e) = access e.
Proof. unfold rendezvous. by case_bool_decide. Qed.
Lemma fmap_rendezvous_id a (ds : list Description) : id <$> (rendezvous a <$> ds) = id <$> ds.
Proof. rewrite <- list_fmap_compose. apply list_fmap_ext. intros _ e _. apply rendezvous_id. Qed.

Lemma open_wf alloc a nb c : wf c → wf (open alloc a nb c).1.
Proof.
  intros [H1 H2 H3 H4 H5 H6 H7 H8]. unfold open, reserve_open, checked_add.
  destruct (_ && _ && _); [done|]. destruct (_ || _) eqn:Eq; [done|].
  destruct alloc; [|done]. rewrite (proj2 (Z.leb_le _ _)) by lia. simpl.
  set (e := mkDescription _ _ _ _ _).
  assert ((∀ y, y ∈ descriptions c → access y = a) →
          ∀ y, y ∈ descriptions c ++ [e] → access y = a) as Hsame.
  { intros H y [Hy| ->%list_elem_of_singleton]%elem_of_app; [by apply H|done]. }
  split; simpl.
  - done.
  - rewrite fmap_rendezvous_id, fmap_app. apply NoDup_app. split_and!; [done| |apply NoDup_singleton].
    intros i (x & -> & Hx)%list_elem_of_fmap. csimpl. intros Hi%list_elem_of_singleton.
    specialize (H3 x Hx). lia.
  - intros x (y & -> & Hy)%list_elem_of_fmap. destruct (rendezvous_id a y) as [-> _].
    apply elem_of_app in Hy as [Hy| ->%list_elem_of_singleton]; simpl; [specialize (H3 y Hy)|]; lia.
  - lia.
  - unfold zlen in *. rewrite length_fmap, length_app. simpl. lia.
  - intros E%fmap_nil_inv. by destruct (descriptions c).
  - intros x x' (y & -> & Hy)%list_elem_of_fmap (y' & -> & Hy')%list_elem_of_fmap.
    destruct (rendezvous_id a y) as [_ ->], (rendezvous_id a y') as [_ ->].
    unfold rendezvous. case_bool_decide as Ha; [done|]. intros Hr.
    rewrite Ha. revert y' Hy'. apply Hsame. apply elem_of_app in Hy as [Hy| ->%list_elem_of_singleton].
    + intros y' Hy'. rewrite <- Ha. by apply (H7 y y').
    + simpl in Hr. apply orb_false_iff in Hr as [_ Hr]. intros y' Hy'.
      destruct (decide (access y' = a)); [done|]. rewrite <- not_true_iff_false, has_opposite_spec in Hr.
      destruct Hr. by exists y'.
  - intros x x' (y & -> & Hy)%list_elem_of_fmap (y' & -> & Hy')%list_elem_of_fmap.
    destruct (rendezvous_id a y) as [_ ->], (rendezvous_id a y') as [_ ->].
    unfold rendezvous. intros HR. case_bool_decide as Ha; simpl.
    + case_bool_decide; [done|]. by destruct a.
    + assert (a = Read) as -> by congruence. intros Hr.
      revert y' Hy'. apply Hsame. apply elem_of_app in Hy as [Hy| ->%list_elem_of_singleton].
      * intros y' Hy'. by apply (H8 y y').
      * simpl in Hr. intros y' Hy'. destruct (decide (access y' = Read)); [done|].
        rewrite <- not_true_iff_false, has_opposite_spec in Hr. destruct Hr. by exists y'.
Qed.

(** Changing the data of a channel with descriptions. *)
Lemma wf_set_data c d :
  wf c → zlen d ≤ BUFFER_CAPACITY → (descriptions c = [] → d = []) →
  wf (mkChannel d (descriptions c) (last_id c)).
Proof. intros [H1 H2 H3 H4 H5 H6 H7 H8] Hd He. by split. Qed.

Lemma description_Ok c i e :
  description c i = Ok e → e ∈ descriptions c ∧ id e = i.
Proof.
  unfold description. intros H%ok_or_Ok. apply find_some in H as [H1 H2]. rewrite list_elem_of_In.
  split; [done|lia].
Qed.

Lemma require_ready_Ok c i a :
  require_ready c i a = Ok tt ↔ ∃ e, description c i = Ok e ∧ access e = a ∧ ready e = true.
Proof.
  unfold require_ready. destruct (description c i) as [e|]; simpl; [|split; [done|by intros (? & ? & _)]].
  case_bool_decide; [split; [done|by intros (? & [= <-] & ? & _)]|].
  destruct (ready e) eqn:E; simpl; [split; [by eexists|done]|].
  split; [done|]. intros (? & [= <-] & _ & ?). congruence.
Qed.

(** The three outcomes of [read] and [write]. *)
Lemma read_cases c i out :
  let '((c', out'), res) := read c i out in
  match res with
  | Ok n =>
      require_ready c i Read = Ok tt ∧ n = (length out `min` length (data c))%nat ∧
      out' = take n (data c) ++ drop n out ∧
      c' = mkChannel (drop n (data c)) (descriptions c) (last_id c) ∧
      (n = 0%nat → out ≠ [] → has_access c Write = false)
  | Err e => c' = c ∧ out' = out ∧
      (e = WouldBlock → require_ready c i Read = Ok tt ∧ data c = [] ∧ has_access c Write = true ∧ out ≠ [])
  end.
Proof.
  unfold read. destruct (require_ready c i Read) as [[]|e] eqn:Er.
  2: { split_and!; try done. intros ->. unfold require_ready, description in Er.
       destruct (List.find _ _); simpl in Er; [|done]. case_bool_decide; [done|].
       destruct (ready _); done. }
  case_bool_decide as Eo; [subst; split_and!; try done; by destruct c|].
  case_bool_decide as Ed; simpl.
  - destruct (has_access c Write) eqn:Ew; by split_and!.
  - split_and!; try done. intros Hn _. destruct out, (data c); done.
Qed.

Lemma write_cases alloc i input c :
  zlen (data c) ≤ BUFFER_CAPACITY →
  let '(c', res) := write alloc i input c in
  match res with
  | Ok n =>
      require_ready c i Write = Ok tt ∧
      c' = mkChannel (data c ++ take (Z.to_nat n) input) (descriptions c) (last_id c) ∧
      n = Z.min (zlen input) (BUFFER_CAPACITY - zlen (data c)) ∧
      (zlen input ≤ PIPE_BUF → n = zlen input) ∧
      (input ≠ [] → has_access c Read = true ∧ 0 < n)
  | Err e => c' = c
  end.
Proof.
  intros Hcap. unfold write. destruct (require_ready c i Write) as [[]|e]; [|done].
  case_bool_decide as Ei.
  { subst. simpl. rewrite app_nil_r. change (zlen []) with 0.
    split_and!; try done; [by destruct c|lia]. }
  destruct (has_access c Read); simpl; [|done]. destruct (_ || _) eqn:Eb; [done|].
  destruct alloc; [|done]. assert (0 < zlen input).
  { destruct input; [done|]. rewrite zlen_cons. pose proof (zlen_nonneg input). lia. }
  split_and!; [done|done|done|intros; lia|]. intros _. split; [done|lia].
Qed.

Lemma read_wf c i out : wf c → wf (read c i out).1.1.
Proof.
  intros Hc. pose proof (read_cases c i out) as H. destruct (read c i out) as [[c' out'] [n|e]].
  - destruct H as (_ & _ & _ & -> & _). apply wf_set_data; [done| |].
    + destruct Hc. unfold zlen in *. rewrite length_drop. lia.
    + intros E. rewrite (wf_empty _ Hc E). by destruct n.
  - by destruct H as (-> & _).
Qed.

Lemma write_wf alloc i input c : wf c → wf (write alloc i input c).1.
Proof.
  intros Hc. pose proof (write_cases alloc i input c (wf_data _ Hc)) as H.
  destruct (write alloc i input c) as [c' [n|e]]; [|by subst].
  destruct H as (Hr & -> & Hn & _). apply wf_set_data; [done| |].
  - pose proof (wf_data _ Hc). rewrite zlen_app. unfold zlen in *. rewrite length_take. lia.
  - intros E. apply require_ready_Ok in Hr as (e & He & _). apply description_Ok in He as [He _].
    rewrite E in He. by apply elem_of_nil in He.
Qed.

Lemma close_cases i c :
  let '(c', res) := close i c in
  match res with
  | Ok _ => (∃ e, id e = i ∧ descriptions c ≡ₚ e :: descriptions c') ∧ last_id c' = last_id c ∧
            data c' = if bool_decide (descriptions c' = []) then [] else data c
  | Err e => c' = c
  end.
Proof.
  unfold close. destruct (iter_position _ _) as [k|] eqn:E; [|done].
  apply iter_position_Some in E as (e & He & Hi & _). split_and!; try done.
  exists e. split; [lia|]. simpl. by rewrite swap_remove_perm.
Qed.

Lemma close_wf i c : wf c → wf (close i c).1.
Proof.
  intros [H1 H2 H3 H4 H5 H6 H7 H8]. pose proof (close_cases i c) as H.
  destruct (close i c) as [c' [u|e]]; [|by subst]. destruct H as ((e & _ & Hp) & Hl & Hd). simpl.
  assert (∀ x, x ∈ descriptions c' → x ∈ descriptions c) as Hsub by (intros x; rewrite Hp; by right).
  split.
  - rewrite Hd. case_bool_decide; [done|lia].
  - rewrite Hp in H2. by apply NoDup_cons in H2 as [_ H2].
  - intros x Hx. rewrite Hl. by apply H3, Hsub.
  - by rewrite Hl.
  - unfold zlen in *. rewrite Hp in H5. simpl in H5. lia.
  - intros E. rewrite Hd. by rewrite bool_decide_eq_true_2.
  - intros x x' Hx Hx'. apply H7; by apply Hsub.
  - intros x x' Hx Hx'. apply H8; by apply Hsub.
Qed.

Lemma update_status_flags_wf i mask flags c : wf c → wf (update_status_flags i mask flags c).1.
Proof.
  intros [H1 H2 H3 H4 H5 H6 H7 H8]. unfold update_status_flags.
  destruct (iter_position _ _) as [k|] eqn:E; [|done]. simpl. set (f := λ e, mkDescription _ _ _ _ _).
  assert (∀ x, x ∈ alter f k (descriptions c) → ∃ y, y ∈ descriptions c ∧ id x = id y ∧
            access x = access y ∧ ready x = ready y ∧ writer_seen x = writer_seen y) as Hx.
  { intros x (j & Hj)%list_elem_of_lookup. rewrite list_lookup_alter in Hj. case_decide.
    - apply fmap_Some in Hj as (y & Hy & ->). exists y. split; [by eapply list_elem_of_lookup_2|done].
    - exists x. split; [by eapply list_elem_of_lookup_2|done]. }
  split; simpl; try done.
  - assert (id <$> alter f k (descriptions c) = id <$> descriptions c) as ->; [|done].
    apply list_eq. intros j. rewrite !list_lookup_fmap, list_lookup_alter.
    case_decide; [subst|done]. by destruct (descriptions c !! j).
  - intros x (y & Hy & -> & _)%Hx. by apply H3.
  - unfold zlen. by rewrite length_alter.
  - intros En. apply H6. apply nil_length_inv. by rewrite <- (length_alter f _ k), En.
  - intros x x' (y & Hy & _ & -> & -> & _)%Hx (y' & Hy' & _ & -> & _)%Hx. by apply H7.
  - intros x x' (y & Hy & _ & -> & _ & ->)%Hx (y' & Hy' & _ & -> & _)%Hx. by apply H8.
Qed.

(** ** Histories *)

(** [run c w r]: since the channel last had no description, the bytes [w]
    were accepted by [write] and the bytes [r] delivered by [read]. *)
Inductive run : Channel → list Z → list Z → Prop :=
  | run_new : run channel_default [] []
  | run_open c w r alloc a nb :
      run c w r → run (open alloc a nb c).1 w r
  | run_flags c w r i mask flags :
      run c w r → run (update_status_flags i mask flags c).1 w r
  | run_read c w r i out c' out' n :
      run c w r → read c i out = ((c', out'), Ok n) → run c' w (r ++ take n out')
  | run_write c w r alloc i input c' n :
      run c w r → write alloc i input c = (c', Ok n) → run c' (w ++ take (Z.to_nat n) input) r
  | run_close c w r i c' :
      run c w r → close i c = (c', Ok tt) → descriptions c' ≠ [] → run c' w r
  | run_last_close c w r i c' :
      run c w r → close i c = (c', Ok tt) → descriptions c' = [] → run c' [] [].

Lemma open_data alloc a nb c : data (open alloc a nb c).1 = data c.
Proof.
  unfold open. destruct (reserve_open alloc c a nb); [|done]. by destruct (checked_add _ _ _).
Qed.
Lemma update_status_flags_data i mask flags c : data (update_status_flags i mask flags c).1 = data c.
Proof. unfold update_status_flags. by destruct (iter_position _ _). Qed.

Lemma run_stream c w r : run c w r → wf c ∧ w = r ++ data c.
Proof.
  induction 1 as [|c w r alloc a nb _ [Hw ->]|c w r i mask flags _ [Hw ->]|c w r i out c' out' n _ [Hw ->] E
    |c w r alloc i input c' n _ [Hw ->] E|c w r i c' _ [Hw ->] E Hne|c w r i c' _ [Hw ->] E He].
  - split; [|done]. split; simpl; try done; try set_solver; by apply NoDup_nil_2.
  - split; [by apply open_wf|by rewrite open_data].
  - split; [by apply update_status_flags_wf|by rewrite update_status_flags_data].
  - pose proof (read_wf c i out Hw) as Hw'. pose proof (read_cases c i out) as H. rewrite E in *.
    split; [done|]. destruct H as (_ & Hn & -> & -> & _). simpl.
    rewrite take_app_length' by (rewrite length_take; lia). by rewrite <- app_assoc, take_drop.
  - pose proof (write_wf alloc i input c Hw) as Hw'.
    pose proof (write_cases alloc i input c (wf_data _ Hw)) as H. rewrite E in *.
    split; [done|]. destruct H as (_ & -> & _). simpl. by rewrite app_assoc.
  - pose proof (close_wf i c Hw) as Hw'. pose proof (close_cases i c) as H. rewrite E in *.
    split; [done|]. destruct H as (_ & _ & ->). by rewrite bool_decide_eq_false_2.
  - pose proof (close_wf i c Hw) as Hw'. rewrite E in Hw'. split; [done|]. simpl in *.
    by rewrite (wf_empty _ Hw' He).
Qed.

(** ** Guarantees *)

Lemma filter_zero {A} (p : A → bool) l : zlen (List.filter p l) = 0 ↔ existsb p l = false.
Proof.
  induction l as [|x l IH]; simpl; [done|]. destruct (p x); simpl; [|done].
  rewrite zlen_cons. pose proof (zlen_nonneg (List.filter p l)). split; [lia|done].
Qed.

Lemma observe_Ok c i e :
  description c i = Ok e →
  ∃ o, observe c i = Ok o ∧ obs_open_ready o = ready e ∧ buffered_bytes o = zlen (data c) ∧
       (readers o = 0 ↔ has_access c Read = false) ∧ (writers o = 0 ↔ has_access c Write = false).
Proof.
  intros E. unfold observe. rewrite E. eexists. split; [done|]. simpl. split_and!; try done.
  - apply filter_zero.
  - unfold has_access. rewrite <- filter_zero. clear.
    enough (zlen (List.filter (λ e, bool_decide (access e = Read)) (descriptions c)) +
            zlen (List.filter (λ e, bool_decide (access e = Write)) (descriptions c)) =
            zlen (descriptions c)) by lia.
    induction (descriptions c) as [|e l IH]; simpl; [done|].
    destruct (access e); simpl; autorewrite with mochi; lia.
Qed.

(** C27: In every history of a FIFO, the bytes accepted by writes since the last
    time no description was open are the bytes delivered by reads followed
    by the buffered bytes; the buffer and the descriptions stay within their
    bounds, identifiers are unique, and an open is pending only while the
    other side has no description. *)
Theorem fifo_stream c w r :
  run c w r →
  w = r ++ data c ∧ zlen (data c) ≤ BUFFER_CAPACITY ∧
  (descriptions c = [] → data c = []) ∧ NoDup (id <$> descriptions c) ∧
  zlen (descriptions c) ≤ MAX_OPEN_DESCRIPTIONS ∧
  ∀ i e, description c i = Ok e → ready e = false → has_opposite c (access e) = false.
Proof.
  intros [Hw ->]%run_stream. split_and!; [done|by apply Hw..|].
  intros i e [He _]%description_Ok Hr. apply not_true_is_false. rewrite has_opposite_spec.
  intros (e' & He' & Hne). apply Hne. by apply (wf_pending _ Hw e e').
Qed.

(** A write to a FIFO appends a prefix of the input to the buffer, all of
    it when the input is at most the atomic size and at least one byte when
    there is any, or fails and changes nothing. *)
Theorem write_atomic c w r alloc i input c' res :
  run c w r → write alloc i input c = (c', res) →
  match res with
  | Ok n => ∃ sent rest, input = sent ++ rest ∧ zlen sent = n ∧
      c' = mkChannel (data c ++ sent) (descriptions c) (last_id c) ∧
      (zlen input ≤ PIPE_BUF → rest = []) ∧ (input ≠ [] → sent ≠ [])
  | Err e => c' = c
  end.
Proof.
  intros [Hw _]%run_stream E. pose proof (write_cases alloc i input c (wf_data _ Hw)) as H.
  rewrite E in H. destruct res as [n|e]; [|done]. destruct H as (_ & -> & Hn & Hs & Hp).
  pose proof (wf_data _ Hw). pose proof (zlen_nonneg input).
  exists (take (Z.to_nat n) input), (drop (Z.to_nat n) input). split_and!.
  - by rewrite take_drop.
  - unfold zlen in *. rewrite length_take. lia.
  - done.
  - intros Hle%Hs. apply drop_ge. unfold zlen in Hle. lia.
  - intros Hne. destruct (Hp Hne) as [_ Hpos]. destruct input; [done|].
    by destruct (Z.to_nat n) eqn:Ez; [lia|].
Qed.

Definition blocks {A} (res : result Error A) : Prop := res = Err WouldBlock ∨ res = Err OpenPending.

Lemma blocks_Ok {A} (a : A) : ¬ blocks (Ok a).
Proof. by intros [?|?]. Qed.
Lemma blocks_Err {A} e : blocks (Err e : result Error A) ↔ e = WouldBlock ∨ e = OpenPending.
Proof. unfold blocks. split; intros [?|?]; simplify_eq; auto. Qed.

Lemma wait_read_exact c i e out :
  description c i = Ok e → access e = Read → out ≠ [] →
  ∃ b, wait_ready c i WaitRead = Ok b ∧ (b = true ↔ ¬ blocks (read c i out).2).
Proof.
  intros E Ha Hne. destruct (observe_Ok c i e E) as (o & Ho & _ & _ & _ & Hw).
  unfold wait_ready, readiness, read, require_ready. rewrite E, Ho. simpl. rewrite Ha. simpl.
  eexists. split; [done|].
  assert ((writers o =? 0) = negb (has_access c Write)) as ->.
  { destruct (has_access c Write); simpl; lia. }
  rewrite (bool_decide_eq_false_2 (out = [])) by done.
  destruct (ready e); simpl; [|rewrite blocks_Err; naive_solver].
  destruct (bool_decide (data c = [])); simpl; [|split; [intros _; apply blocks_Ok|done]].
  destruct (has_access c Write); simpl; [rewrite blocks_Err; naive_solver|].
  split; [intros _; apply blocks_Ok|done].
Qed.

Lemma wait_write_exact c i e input :
  description c i = Ok e → access e = Write → input ≠ [] →
  zlen (data c) ≤ BUFFER_CAPACITY →
  ∃ b, wait_ready c i (WaitWrite (zlen input)) = Ok b ∧
       (b = true ↔ ¬ blocks (write true i input c).2).
Proof.
  intros E Ha Hne Hcap. destruct (observe_Ok c i e E) as (o & Ho & _ & _ & Hr & _).
  unfold wait_ready, readiness, write, require_ready. rewrite E, Ho. simpl. rewrite Ha. simpl.
  eexists. split; [done|].
  assert ((readers o =? 0) = negb (has_access c Read)) as ->.
  { destruct (has_access c Read); simpl; lia. }
  assert (0 < zlen input).
  { destruct input; [done|]. rewrite zlen_cons. pose proof (zlen_nonneg input). lia. }
  rewrite (bool_decide_eq_false_2 (input = [])) by done.
  destruct (ready e); simpl; [|rewrite blocks_Err; naive_solver].
  destruct (has_access c Read); simpl; [|rewrite blocks_Err; naive_solver].
  destruct ((BUFFER_CAPACITY - zlen (data c) =? 0) || _) eqn:Eb; simpl.
  - rewrite blocks_Err. split; [|naive_solver]. destruct (zlen input <=? PIPE_BUF); lia.
  - split; [intros _; apply blocks_Ok|]. destruct (zlen input <=? PIPE_BUF); lia.
Qed.

(** The readiness that a wait polls is exact: an open is ready when it has
    met the other side, and a read or a write of a given size is reported
    ready exactly when performing it would not block. *)
Theorem wait_ready_exact c i e :
  description c i = Ok e → zlen (data c) ≤ BUFFER_CAPACITY →
  wait_ready c i WaitOpen = Ok (ready e) ∧
  (access e = Read → ∀ out, out ≠ [] →
     ∃ b, wait_ready c i WaitRead = Ok b ∧ (b = true ↔ ¬ blocks (read c i out).2)) ∧
  (access e = Write → ∀ input, input ≠ [] →
     ∃ b, wait_ready c i (WaitWrite (zlen input)) = Ok b ∧
          (b = true ↔ ¬ blocks (write true i input c).2)).
Proof.
  intros E Hcap. split_and!.
  - unfold wait_ready. by rewrite E.
  - intros Ha out. by eapply wait_read_exact.
  - intros Ha input Hne. by eapply wait_write_exact.
Qed.
End Fifo.

(** ** Examples *)

(** A reader and a writer that has sent three bytes, of which one was read. *)
Definition example_open : Channel :=
  (open 2048 true Write false (open 2048 true Read false channel_default).1).1.
Definition example_channel : Channel :=
  (read (write 4096 true 2 [10; 20; 30] example_open).1 1 [0]).1.1.

Lemma example_open_run : run 4096 2048 example_open [] [].
Proof. repeat apply run_open. apply run_new. Qed.
Lemma example_channel_run : run 4096 2048 example_channel [10; 20; 30] [10].
Proof.
  apply (run_read 4096 2048 (write 4096 true 2 [10; 20; 30] example_open).1 _ [] 1 [0] _ [10] 1%nat);
    [|by vm_compute].
  apply (run_write 4096 2048 example_open [] [] true 2 [10; 20; 30] _ 3);
    [apply example_open_run|by vm_compute].
Qed.

Lemma fifo_stream_witness : [10; 20; 30] = [10] ++ data example_channel.
Proof. by destruct (fifo_stream 4096 2048 _ _ _ example_channel_run) as [? _]. Defined.

Lemma write_atomic_witness :
  ∃ c', write 4096 true 2 [40; 50] example_channel = (c', Ok 2) ∧ data c' = [20; 30; 40; 50].
Proof.
  destruct (write 4096 true 2 [40; 50] example_channel) as [c' res] eqn:E.
  pose proof (write_atomic 4096 2048 _ _ _ _ _ _ _ _ example_channel_run E) as H.
  assert (res = Ok 2) as -> by (vm_compute in E; by injection E).
  destruct H as (sent & rest & Hs & _ & -> & Hr & _). exists (mkChannel (data example_channel ++ sent)
    (descriptions example_channel) (last_id example_channel)). split; [done|].
  rewrite (Hr ltac:(by vm_compute)), app_nil_r in Hs. by subst sent.
Defined.

Lemma wait_ready_exact_witness :
  wait_ready 4096 example_channel 1 WaitRead = Ok true ∧
  ¬ blocks (read example_channel 1 [0; 0]).2.
Proof.
  destruct (description example_channel 1) as [e|] eqn:E; [|by vm_compute in E].
  destruct (wait_ready_exact 4096 example_channel 1 e E ltac:(by vm_compute)) as (_ & H & _).
  assert (access e = Read) as Ha by (vm_compute in E; by injection E as <-).
  destruct (H Ha [0; 0] ltac:(done)) as (b & Hb & Hw). split; [by vm_compute|].
  apply Hw. vm_compute in Hb. by injection Hb.
Defined.
