(* ===== verification/Storage.v ===== *)
(** * Partition-scoped byte I/O over a sector device

    Models [filesystem/src/storage.rs].  The trait [SectorDevice] is a class
    of operations; [SectorStore] is the contract the byte-level code relies
    on: a device is an array of bytes, and a failed write is confined to the
    sectors it names.  [answers d lo hi] says that the device in state [d]
    serves every access between the byte addresses [lo] and [hi].  [MemoryDisk] implements both. *)

From S2P Require Import Prelude.

Definition SECTOR_BYTES : Z := 512.
Definition MAX_TRANSFER_BYTES : Z := 256 * 1024.

(** A buffer is mutated in place: its new contents are returned. *)
Class SectorDevice (D E : Type) := {
  read_sectors : D → Z → list Z → (D * list Z) * result E unit;
  write_sectors : D → Z → list Z → D * result E unit;
  flush_device : D → D * result E unit;
}.

Class SectorStore (D E : Type) {SD : SectorDevice D E} := {
  cell : D → Z → Z;
  read_length : ∀ d lba buf, length (read_sectors d lba buf).1.2 = length buf;
  read_keeps : ∀ d lba buf a, cell (read_sectors d lba buf).1.1 a = cell d a;
  read_fills : ∀ d lba buf k b, 0 ≤ lba →
    (read_sectors d lba buf).2 = Ok tt → (read_sectors d lba buf).1.2 !! k = Some b →
    b = cell d (SECTOR_BYTES * lba + Z.of_nat k);
  write_confined : ∀ d lba bytes a, 0 ≤ lba →
    ¬ (SECTOR_BYTES * lba ≤ a < SECTOR_BYTES * lba + zlen bytes) →
    cell (write_sectors d lba bytes).1 a = cell d a;
  write_stores : ∀ d lba bytes k b, 0 ≤ lba →
    (write_sectors d lba bytes).2 = Ok tt → bytes !! k = Some b →
    cell (write_sectors d lba bytes).1 (SECTOR_BYTES * lba + Z.of_nat k) = b;
  answers : D → Z → Z → Prop;
  answers_mono : ∀ d lo hi lo' hi', answers d lo hi → lo ≤ lo' → hi' ≤ hi → answers d lo' hi';
  answers_after_read : ∀ d lo hi lba buf,
    answers d lo hi → answers (read_sectors d lba buf).1.1 lo hi;
  answers_after_write : ∀ d lo hi lba bytes,
    answers d lo hi → answers (write_sectors d lba bytes).1 lo hi;
  answers_read : ∀ d lo hi lba buf, answers d lo hi → 0 ≤ lba →
    lo ≤ SECTOR_BYTES * lba → SECTOR_BYTES * lba + zlen buf ≤ hi →
    (read_sectors d lba buf).2 = Ok tt;
  answers_write : ∀ d lo hi lba bytes, answers d lo hi → 0 ≤ lba →
    lo ≤ SECTOR_BYTES * lba → SECTOR_BYTES * lba + zlen bytes ≤ hi →
    (write_sectors d lba bytes).2 = Ok tt;
}.

Inductive PartitionIoError (E : Type) :=
  | Device (e : E) | OutOfBounds | OffsetOverflow | Poisoned.
Arguments Device {E} e.
Arguments OutOfBounds {E}.
Arguments OffsetOverflow {E}.
Arguments Poisoned {E}.

(** [struct PartitionIo]; [poisoned] is the state of the device's mutex. *)
Record PartitionIo (D : Type) := mkPartitionIo {
  device : D;
  poisoned : bool;
  first_lba : Z;
  sector_count : Z;
}.
Arguments mkPartitionIo {D}.
Arguments device {D}.
Arguments poisoned {D}.
Arguments first_lba {D}.
Arguments sector_count {D}.

Section Storage.
Context {D E : Type} {SD : SectorDevice D E}.

Definition byte_len (io : PartitionIo D) : Z := Z.min (sector_count io * SECTOR_BYTES) U64_MAX.
Definition with_device (io : PartitionIo D) (d : D) : PartitionIo D :=
  mkPartitionIo d (poisoned io) (first_lba io) (sector_count io).

Definition check_range (io : PartitionIo D) (offset : Z) (length : nat)
    : result (PartitionIoError E) unit :=
  end_ ← ok_or OffsetOverflow (checked_add U64_MAX offset (Z.of_nat length));
  ensure (end_ <=? byte_len io) OutOfBounds.

(** The aligned loop over [destination.chunks_mut(MAX_TRANSFER_BYTES)];
    [None] is out of fuel. *)
Fixpoint read_chunks (fuel : nat) (d : D) (first first_sector index : Z) (dest : list Z)
    : option ((D * list Z) * result (PartitionIoError E) unit) :=
  let copied := Z.to_nat (index * MAX_TRANSFER_BYTES) in
  if decide (length dest ≤ copied)%nat then Some ((d, dest), Ok tt)
  else
    match fuel with
    | O => None
    | S fuel =>
        let chunk := slice copied (Z.to_nat MAX_TRANSFER_BYTES) dest in
        match checked_add U64_MAX first first_sector ≫= λ v,
              checked_add U64_MAX v (index * (MAX_TRANSFER_BYTES / SECTOR_BYTES)) with
        | None => Some ((d, dest), Err OffsetOverflow)
        | Some lba =>
            let '((d, chunk), res) := read_sectors d lba chunk in
            let dest := blit copied chunk dest in
            match res with
            | Err e => Some ((d, dest), Err (Device e))
            | Ok _ => read_chunks fuel d first first_sector (index + 1) dest
            end
        end
    end.

(** The unaligned loop, through a bounce buffer. *)
Fixpoint read_bounce (fuel : nat) (d : D) (first first_sector : Z) (offset_in_sector : nat)
    (transfer_len sector_offset copied : nat) (buffer dest : list Z)
    : option ((D * list Z) * result (PartitionIoError E) unit) :=
  if decide (transfer_len ≤ sector_offset)%nat then Some ((d, dest), Ok tt)
  else
    match fuel with
    | O => None
    | S fuel =>
        let len := ((transfer_len - sector_offset) `min` length buffer)%nat in
        match checked_add U64_MAX first first_sector ≫= λ v,
              checked_add U64_MAX v (Z.of_nat sector_offset / SECTOR_BYTES) with
        | None => Some ((d, dest), Err OffsetOverflow)
        | Some lba =>
            let '((d, filled), res) := read_sectors d lba (take len buffer) in
            let buffer := blit 0 filled buffer in
            match res with
            | Err e => Some ((d, dest), Err (Device e))
            | Ok _ =>
                let start := if decide (sector_offset = 0)%nat then offset_in_sector else 0%nat in
                let count := ((len - start) `min` (length dest - copied))%nat in
                read_bounce fuel d first first_sector offset_in_sector transfer_len
                  (sector_offset + len) (copied + count) buffer
                  (blit copied (slice start count buffer) dest)
            end
        end
    end.

Definition transfer_read (d : D) (first offset : Z) (dest : list Z)
    : option ((D * list Z) * result (PartitionIoError E) unit) :=
  let first_sector := offset / SECTOR_BYTES in
  let offset_in_sector := offset mod SECTOR_BYTES in
  if (offset_in_sector =? 0) && (zlen dest mod SECTOR_BYTES =? 0)
  then read_chunks (length dest) d first first_sector 0 dest
  else
    match checked_add U64_MAX offset_in_sector (zlen dest) ≫= λ covered,
          checked_add U64_MAX covered (SECTOR_BYTES - 1) with
    | None => Some ((d, dest), Err OffsetOverflow)
    | Some rounded =>
        let transfer_len := rounded / SECTOR_BYTES * SECTOR_BYTES in
        read_bounce (Z.to_nat transfer_len) d first first_sector (Z.to_nat offset_in_sector)
          (Z.to_nat transfer_len) 0 0
          (replicate (Z.to_nat (Z.min transfer_len MAX_TRANSFER_BYTES)) 0) dest
    end.

(** The body of the read-modify-write loop: the device, the sector buffer and
    the number of bytes consumed. *)
Definition write_step (d : D) (first current : Z) (consumed : nat) (sector source : list Z)
    : (D * list Z) * result (PartitionIoError E) nat :=
  let offset_in_sector := Z.to_nat (current mod SECTOR_BYTES) in
  let count := ((Z.to_nat SECTOR_BYTES - offset_in_sector) `min` (length source - consumed))%nat in
  match checked_add U64_MAX first (current / SECTOR_BYTES) with
  | None => ((d, sector), Err OffsetOverflow)
  | Some lba =>
      let '((d, sector), res) :=
        if bool_decide (offset_in_sector ≠ 0%nat) || bool_decide (count ≠ Z.to_nat SECTOR_BYTES)
        then read_sectors d lba sector
        else ((d, sector), Ok tt) in
      match res with
      | Err e => ((d, sector), Err (Device e))
      | Ok _ =>
          let sector := blit offset_in_sector (slice consumed count source) sector in
          let '(d, res) := write_sectors d lba sector in
          match res with
          | Err e => ((d, sector), Err (Device e))
          | Ok _ => ((d, sector), Ok count)
          end
      end
  end.

(** [while consumed < source.len()]. *)
Fixpoint write_loop (fuel : nat) (d : D) (first current : Z) (consumed : nat)
    (sector source : list Z) : option (D * result (PartitionIoError E) unit) :=
  if decide (length source ≤ consumed)%nat then Some (d, Ok tt)
  else
    match fuel with
    | O => None
    | S fuel =>
        match write_step d first current consumed sector source with
        | ((d, _), Err e) => Some (d, Err e)
        | ((d, sector), Ok count) =>
            match checked_add U64_MAX current (Z.of_nat count) with
            | None => Some (d, Err OffsetOverflow)
            | Some current => write_loop fuel d first current (consumed + count) sector source
            end
        end
    end.
Definition transfer_write (d : D) (first offset : Z) (source : list Z)
    : option (D * result (PartitionIoError E) unit) :=
  write_loop (length source) d first offset 0 (replicate (Z.to_nat SECTOR_BYTES) 0) source.

Definition read (io : PartitionIo D) (offset : Z) (dest : list Z)
    : option ((PartitionIo D * list Z) * result (PartitionIoError E) unit) :=
  match check_range io offset (length dest) with
  | Err e => Some ((io, dest), Err e)
  | Ok _ =>
      if bool_decide (dest = []) then Some ((io, dest), Ok tt)
      else if poisoned io then Some ((io, dest), Err Poisoned)
      else
        '((d, dest), res) ← transfer_read (device io) (first_lba io) offset dest;
        Some ((with_device io d, dest), res)
  end.

Definition write (io : PartitionIo D) (offset : Z) (source : list Z)
    : option (PartitionIo D * result (PartitionIoError E) unit) :=
  match check_range io offset (length source) with
  | Err e => Some (io, Err e)
  | Ok _ =>
      if bool_decide (source = []) then Some (io, Ok tt)
      else if poisoned io then Some (io, Err Poisoned)
      else
        '(d, res) ← transfer_write (device io) (first_lba io) offset source;
        Some (with_device io d, res)
  end.

Definition flush (io : PartitionIo D) : PartitionIo D * result (PartitionIoError E) unit :=
  if poisoned io then (io, Err Poisoned)
  else let '(d, res) := flush_device (device io) in (with_device io d, map_err Device res).
End Storage.

(** [MemoryDisk]: a vector of bytes; an access out of range fails. *)
Abbreviation MemoryDisk := (list Z) (only parsing).
Inductive MemoryError := ReadRange | WriteRange.
#[global] Instance memory_disk : SectorDevice MemoryDisk MemoryError := {|
  read_sectors d lba buf :=
    let start := Z.to_nat (lba * SECTOR_BYTES) in
    if decide (start + length buf ≤ length d)%nat
    then ((d, slice start (length buf) d), Ok tt) else ((d, buf), Err ReadRange);
  write_sectors d lba bytes :=
    let start := Z.to_nat (lba * SECTOR_BYTES) in
    if decide (start + length bytes ≤ length d)%nat
    then (blit start bytes d, Ok tt) else (d, Err WriteRange);
  flush_device d := (d, Ok tt);
|}.

#[global] Program Instance memory_store : SectorStore MemoryDisk MemoryError := {|
  cell d a := if a <? 0 then 0 else default 0 (d !! Z.to_nat a);
  answers d lo hi := hi ≤ zlen d;
|}.
Next Obligation.
  intros d lba buf. simpl. case_decide; simpl; [|done]. rewrite length_slice. lia.
Qed.
Next Obligation. intros d lba buf a. simpl. by case_decide. Qed.
Next Obligation.
  intros d lba buf k b Hl. simpl. case_decide; simpl; [|done]. intros _ Hk.
  rewrite lookup_slice in Hk. case_decide; [|done]. unfold SECTOR_BYTES in *.
  rewrite (proj2 (Z.ltb_ge _ _)) by lia.
  replace (Z.to_nat (512 * lba + Z.of_nat k)) with (Z.to_nat (lba * 512) + k)%nat by lia.
  by rewrite Hk.
Qed.
Next Obligation.
  intros d lba bytes a Hl Ha. simpl. case_decide; simpl; [|done].
  destruct (a <? 0) eqn:E; [done|]. rewrite lookup_blit by done. unfold zlen, SECTOR_BYTES in *.
  by rewrite decide_False by lia.
Qed.
Next Obligation.
  intros d lba bytes k b Hl. simpl. case_decide; simpl; [|done]. intros _ Hk.
  pose proof (lookup_lt_Some _ _ _ Hk). unfold SECTOR_BYTES in *.
  rewrite (proj2 (Z.ltb_ge _ _)) by lia. rewrite lookup_blit by done. rewrite decide_True by lia.
  replace (Z.to_nat (512 * lba + Z.of_nat k) - Z.to_nat (lba * 512))%nat with k by lia. by rewrite Hk.
Qed.
Next Obligation. simpl. lia. Qed.
Next Obligation. intros d lo hi lba buf. simpl. by case_decide. Qed.
Next Obligation.
  intros d lo hi lba bytes. simpl. unfold zlen. case_decide; simpl; [|done]. by rewrite length_blit.
Qed.
Next Obligation.
  intros d lo hi lba buf. simpl. unfold zlen, SECTOR_BYTES. intros. by rewrite decide_True by lia.
Qed.
Next Obligation.
  intros d lo hi lba bytes. simpl. unfold zlen, SECTOR_BYTES. intros. by rewrite decide_True by lia.
Qed.

(** ** Reading *)

Lemma MAX_TRANSFER_sectors : MAX_TRANSFER_BYTES = SECTOR_BYTES * 512.
Proof. done. Qed.
#[global] Opaque MAX_TRANSFER_BYTES.

Section Correct.
Context {D E : Type} {SD : SectorDevice D E} {SS : SectorStore D E}.

(** The first [n] bytes of [dest] are the device's bytes from [base]. *)
Definition filled (d : D) (base : Z) (dest : list Z) (n : nat) : Prop :=
  ∀ k, (k < n)%nat → dest !! k = Some (cell d (base + Z.of_nat k)).

(** [d] serves whatever [d0] serves, and [same d d0] also has its bytes. *)
Definition kept (d d0 : D) : Prop := ∀ lo hi, answers d0 lo hi → answers d lo hi.
Definition same (d d0 : D) : Prop := (∀ a, cell d a = cell d0 a) ∧ kept d d0.
Lemma same_refl d : same d d.
Proof. by split; [|intros lo hi]. Qed.

Lemma filled_blit d base dest i src :
  (i + length src ≤ length dest)%nat → filled d base dest i →
  (∀ k b, src !! k = Some b → b = cell d (base + Z.of_nat (i + k))) →
  filled d base (blit i src dest) (i + length src).
Proof.
  intros Hl Hd Hs k Hk. rewrite lookup_blit by done. case_decide as Hi; [|apply Hd; lia].
  destruct (lookup_lt_is_Some_2 src (k - i)) as [b Hb]; [lia|]. rewrite Hb. f_equal.
  rewrite (Hs _ _ Hb). do 2 f_equal. lia.
Qed.

Lemma checked_add2 a b c v :
  (checked_add U64_MAX a b ≫= λ v, checked_add U64_MAX v c) = Some v → v = a + b + c.
Proof. unfold checked_add. case_ifs; simpl; [|done]. case_ifs; naive_solver. Qed.
Lemma checked_add2_ok a b c :
  0 ≤ c → a + b + c ≤ U64_MAX →
  (checked_add U64_MAX a b ≫= λ v, checked_add U64_MAX v c) = Some (a + b + c).
Proof.
  intros Hc H. unfold checked_add. rewrite (proj2 (Z.leb_le _ _)) by lia. simpl.
  by rewrite (proj2 (Z.leb_le _ _)) by lia.
Qed.

(** What every read guarantees of the device, the buffer and the result. *)
Definition read_post (d0 : D) (base : Z) (dest : list Z) (ok : Prop)
    (out : option ((D * list Z) * result (PartitionIoError E) unit)) : Prop :=
  ∃ d' dest' res, out = Some ((d', dest'), res) ∧ length dest' = length dest ∧
    (∀ a, cell d' a = cell d0 a) ∧
    (res = Ok tt → filled d0 base dest' (length dest)) ∧ (ok → res = Ok tt).

Lemma read_post_err d d0 base dest dest' ok e :
  length dest' = length dest → same d d0 → ¬ ok →
  read_post d0 base dest ok (Some ((d, dest'), Err e)).
Proof. intros Hl [Hd _] Hok. exists d, dest', (Err e). by split_and!. Qed.

Lemma read_same d d0 lba src : same d d0 → same (read_sectors d lba src).1.1 d0.
Proof.
  intros [Hd Hk]. split; [intros a; by rewrite read_keeps|].
  intros lo hi H. by apply answers_after_read, Hk.
Qed.

(** One transfer into the buffer. *)
Lemma read_into d d0 base i lba src dest :
  same d d0 → 0 ≤ lba → SECTOR_BYTES * lba = base + Z.of_nat i →
  (i + length src ≤ length dest)%nat → filled d0 base dest i →
  let '((d', src'), res) := read_sectors d lba src in
  same d' d0 ∧ length src' = length src ∧
  (res = Ok tt → filled d0 base (blit i src' dest) (i + length src)).
Proof.
  intros Hs Hlba Hb Hl Hf. pose proof (read_length d lba src) as H1.
  pose proof (read_same d d0 lba src Hs) as H2. pose proof (read_fills d lba src) as H3.
  destruct (read_sectors d lba src) as [[d' src'] res], Hs as [Hd _]. simpl in *. split_and!.
  - done.
  - done.
  - intros Hr. rewrite <- H1. apply filled_blit; [lia|done|]. intros k b Hk.
    rewrite (H3 k b Hlba Hr Hk), Hd. f_equal. lia.
Qed.

Lemma read_chunks_ok fuel d d0 first fs index dest :
  0 ≤ first → 0 ≤ fs → 0 ≤ index → same d d0 →
  (length dest ≤ Z.to_nat (index * MAX_TRANSFER_BYTES) + fuel)%nat →
  let base := SECTOR_BYTES * (first + fs) in
  filled d0 base dest (Z.to_nat (index * MAX_TRANSFER_BYTES) `min` length dest) →
  read_post d0 base dest
    (answers d0 base (base + zlen dest) ∧ base + zlen dest ≤ SECTOR_BYTES * U64_MAX)
    (read_chunks fuel d first fs index dest).
Proof.
  intros Hf Hfs. pose proof MAX_TRANSFER_sectors as HM.
  revert d index dest. induction fuel as [|fuel IH]; intros d index dest Hi Hd Hfuel base Hfill; simpl.
  all: destruct (decide (length dest ≤ Z.to_nat (index * MAX_TRANSFER_BYTES))%nat) as [Hle|Hgt];
    [exists d, dest, (Ok tt); split_and!; try done; [apply Hd|]; intros _;
     by rewrite Nat.min_r in Hfill by lia|].
  { lia. }
  assert (MAX_TRANSFER_BYTES / SECTOR_BYTES = 512) as Hdiv by done.
  set (copied := Z.to_nat (index * MAX_TRANSFER_BYTES)) in *. set (chunk := slice _ _ _).
  assert (length chunk = (Z.to_nat MAX_TRANSFER_BYTES `min` (length dest - copied))%nat) as Hc
    by apply length_slice.
  rewrite Hdiv. unfold SECTOR_BYTES, zlen in *.
  destruct (checked_add U64_MAX first fs ≫= _) as [lba|] eqn:Elba.
  2: { apply read_post_err; try done. intros [_ Hmax]. rewrite checked_add2_ok in Elba; [done|lia..]. }
  apply checked_add2 in Elba as ->.
  pose proof (read_into d d0 base copied (first + fs + index * 512) chunk dest Hd) as Hin.
  destruct (read_sectors _ _ chunk) as [[d' chunk'] res] eqn:Er.
  destruct Hin as (Hd' & Hc' & Hok); [lia|unfold SECTOR_BYTES; lia|lia|by rewrite Nat.min_l in Hfill by lia|].
  assert (length (blit copied chunk' dest) = length dest) as Hlen by (apply length_blit; lia).
  destruct res as [[]|e].
  - specialize (IH d' (index + 1) (blit copied chunk' dest)). cbn zeta in IH.
    destruct IH as (d'' & dest'' & res & E1 & E2 & E3 & E4 & E5); [lia|done|lia| |].
    + intros k Hk. apply Hok; [done|]. lia.
    + exists d'', dest'', res. rewrite Hlen in *. by split_and!.
  - apply read_post_err; try done. intros [Hr _].
    assert ((read_sectors d (first + fs + index * 512) chunk).2 = Ok tt) as Ho.
    { apply (answers_read _ _ _ _ _ (proj2 Hd _ _ Hr)); unfold SECTOR_BYTES, zlen; lia. }
    by rewrite Er in Ho.
Qed.

(** One pass of the bounce loop: the sectors read, then the part copied. *)
Lemma bounce_copy d d0 first fs ois so copied len src buffer dest :
  let lo := SECTOR_BYTES * (first + fs) in
  let start := if decide (so = 0)%nat then ois else 0%nat in
  let count := ((len - start) `min` (length dest - copied))%nat in
  0 ≤ first → 0 ≤ fs → same d d0 → Z.of_nat so mod SECTOR_BYTES = 0 →
  (so = 0 ∨ ois ≤ so)%nat → (ois ≤ len ≤ length buffer)%nat → src = take len buffer →
  copied = (length dest `min` (so - ois))%nat → filled d0 (lo + Z.of_nat ois) dest copied →
  let '((d', src'), res) := read_sectors d (first + fs + Z.of_nat so / SECTOR_BYTES) src in
  same d' d0 ∧ length (blit 0 src' buffer) = length buffer ∧
  let piece := slice start count (blit 0 src' buffer) in
  length piece = count ∧ length (blit copied piece dest) = length dest ∧
  (res = Ok tt → filled d0 (lo + Z.of_nat ois) (blit copied piece dest) (copied + count)).
Proof.
  intros lo start count Hf Hfs Hd Hmod Hso Hlen -> Hc Hfill.
  assert (length (take len buffer) = len) as Hl by (rewrite length_take; lia).
  assert (start ≤ len)%nat as Hst by (unfold start; case_decide; lia).
  pose proof (read_length d (first + fs + Z.of_nat so / SECTOR_BYTES) (take len buffer)) as H1.
  pose proof (read_same d d0 (first + fs + Z.of_nat so / SECTOR_BYTES) (take len buffer) Hd) as H2.
  pose proof (read_fills d (first + fs + Z.of_nat so / SECTOR_BYTES) (take len buffer)) as H3.
  destruct (read_sectors _ _ _) as [[d' src'] res]. simpl in *. rewrite Hl in H1.
  assert (length (blit 0 src' buffer) = length buffer) as Hlb by (apply length_blit; lia).
  assert (length (slice start count (blit 0 src' buffer)) = count) as Hls
    by (rewrite length_slice, Hlb; lia).
  split_and!; [done|done|done|apply length_blit; lia|].
  intros Hr. rewrite <- Hls at 2. apply filled_blit; [lia|done|].
  intros k b Hk. rewrite lookup_slice in Hk. case_decide as Hlt; [|done].
  rewrite lookup_blit in Hk by lia. rewrite decide_True, Nat.sub_0_r in Hk by lia.
  assert (0 ≤ Z.of_nat so / SECTOR_BYTES) by (apply Z.div_pos; [lia|done]).
  apply H3 in Hk; [|lia|done]. rewrite Hk, (proj1 Hd). f_equal.
  pose proof (Z.div_mod (Z.of_nat so) SECTOR_BYTES ltac:(done)). unfold lo, start in *.
  case_decide; lia.
Qed.

Lemma read_bounce_ok fuel d d0 first fs ois tl so copied buffer dest :
  let lo := SECTOR_BYTES * (first + fs) in
  0 ≤ first → 0 ≤ fs → same d d0 →
  Z.of_nat tl mod SECTOR_BYTES = 0 → Z.of_nat so mod SECTOR_BYTES = 0 →
  zlen buffer mod SECTOR_BYTES = 0 → (0 < length buffer)%nat → (Z.of_nat ois < SECTOR_BYTES) →
  (so ≤ tl ≤ so + fuel)%nat → (ois + length dest ≤ tl)%nat →
  copied = (length dest `min` (so - ois))%nat → filled d0 (lo + Z.of_nat ois) dest copied →
  read_post d0 (lo + Z.of_nat ois) dest
    (answers d0 lo (lo + Z.of_nat tl) ∧ lo + Z.of_nat tl ≤ SECTOR_BYTES * U64_MAX)
    (read_bounce fuel d first fs ois tl so copied buffer dest).
Proof.
  intros lo Hf Hfs. revert d so copied buffer dest.
  induction fuel as [|fuel IH]; intros d so copied buffer dest Hd Htl Hso Hbuf Hpos Hois Hfuel Hcov Hc Hfill;
    simpl; destruct (decide (tl ≤ so)%nat) as [Hle|Hgt];
    try (exists d, dest, (Ok tt); split_and!; try done; [apply Hd|]; intros _;
         by replace copied with (length dest) in Hfill by lia); [lia|].
  set (len := ((tl - so) `min` length buffer)%nat).
  assert (Z.of_nat len mod SECTOR_BYTES = 0 ∧ (0 < len)%nat ∧ SECTOR_BYTES ≤ Z.of_nat len)
    as (Hlm & Hl0 & Hlb).
  { unfold len, zlen, SECTOR_BYTES in *. Z.to_euclidean_division_equations; lia. }
  assert (0 ≤ Z.of_nat so / SECTOR_BYTES) as Hq by (apply Z.div_pos; [lia|done]).
  assert (SECTOR_BYTES * (Z.of_nat so / SECTOR_BYTES) = Z.of_nat so) as Hqs
    by (pose proof (Z.div_mod (Z.of_nat so) SECTOR_BYTES ltac:(done)); lia).
  destruct (checked_add U64_MAX first fs ≫= _) as [lba|] eqn:Elba.
  2: { apply read_post_err; try done. intros [_ Hmax]. rewrite checked_add2_ok in Elba; [done|lia|].
       unfold lo, SECTOR_BYTES in *. lia. }
  apply checked_add2 in Elba as ->.
  assert (so = 0 ∨ ois ≤ so)%nat as Hsoois.
  { destruct (decide (so = 0)%nat); [by left|right]. unfold SECTOR_BYTES in *.
    Z.to_euclidean_division_equations; lia. }
  assert (ois ≤ len ≤ length buffer)%nat as Hlenb by (unfold len, SECTOR_BYTES in *; lia).
  pose proof (bounce_copy d d0 first fs ois so copied len (take len buffer) buffer dest) as Hb.
  specialize (Hb Hf Hfs Hd Hso Hsoois Hlenb eq_refl Hc Hfill). cbn zeta in Hb.
  destruct (read_sectors _ _ _) as [[d' src'] res] eqn:Er.
  destruct Hb as (Hd' & Hlbuf & Hpl & Hlen & Hok).
  destruct res as [[]|e].
  2: { apply read_post_err; try done. intros [Hr _].
       assert ((read_sectors d (first + fs + Z.of_nat so / SECTOR_BYTES) (take len buffer)).2 = Ok tt) as Ho.
       { apply (answers_read _ _ _ _ _ (proj2 Hd _ _ Hr)); unfold lo, zlen in *;
           rewrite ?length_take; lia. }
       by rewrite Er in Ho. }
  set (start := if decide (so = 0)%nat then ois else 0%nat) in *.
  set (count := ((len - start) `min` (length dest - copied))%nat) in *.
  set (dest' := blit copied _ dest) in *.
  destruct (IH d' (so + len)%nat (copied + count)%nat (blit 0 src' buffer) dest')
    as (d'' & dest'' & res & E1 & E2 & E3 & E4 & E5); try done.
  - unfold SECTOR_BYTES in *. Z.to_euclidean_division_equations; lia.
  - unfold zlen. by rewrite Hlbuf.
  - lia.
  - lia.
  - lia.
  - rewrite Hlen. unfold count, start. case_decide; lia.
  - by apply Hok.
  - exists d'', dest'', res. rewrite Hlen in *. by split_and!.
Qed.

Lemma read_post_impl d0 base dest (ok ok' : Prop) out :
  (ok' → ok) → read_post d0 base dest ok out → read_post d0 base dest ok' out.
Proof.
  intros Ho (d' & dest' & res & H1 & H2 & H3 & H4 & H5). exists d', dest', res.
  split_and!; auto.
Qed.

(** The device serves the partition of [n] sectors at [first]. *)
Definition partition_ok (d : D) (first n : Z) : Prop :=
  answers d (SECTOR_BYTES * first) (SECTOR_BYTES * (first + n)) ∧ first + n ≤ U64_MAX.

Lemma transfer_read_ok d first n offset dest :
  0 ≤ first → 0 ≤ offset → offset + zlen dest ≤ SECTOR_BYTES * n →
  read_post d (SECTOR_BYTES * first + offset) dest
    (partition_ok d first n ∧ zlen dest ≤ I64_MAX)
    (transfer_read d first offset dest).
Proof.
  intros Hf Ho Hn. unfold transfer_read.
  pose proof (Z.div_mod offset SECTOR_BYTES ltac:(done)) as Hdm.
  pose proof (Z.mod_pos_bound offset SECTOR_BYTES ltac:(done)) as Hmb.
  assert (0 ≤ offset / SECTOR_BYTES) as Hq by (apply Z.div_pos; [lia|done]).
  set (fs := offset / SECTOR_BYTES) in *. set (ois := offset mod SECTOR_BYTES) in *.
  destruct (_ && _) eqn:Ea.
  - apply andb_prop in Ea as [Ea1 Ea2]. apply Z.eqb_eq in Ea1, Ea2.
    replace (SECTOR_BYTES * first + offset) with (SECTOR_BYTES * (first + fs)) by lia.
    eapply read_post_impl; [|apply (read_chunks_ok _ d); first [done|apply same_refl|lia|intros k Hk; lia]].
    intros ([Hr Hm] & _). unfold SECTOR_BYTES in *. split; [|lia].
    eapply answers_mono; [exact Hr|lia|lia].
  - destruct (checked_add U64_MAX ois (zlen dest) ≫= _) as [rounded|] eqn:Er.
    2: { apply read_post_err; [done|apply same_refl|]. intros (_ & Hmax). rewrite checked_add2_ok in Er; [done..|].
         unfold SECTOR_BYTES in *. width. }
    apply checked_add2 in Er as ->. set (tl := _ / SECTOR_BYTES * SECTOR_BYTES).
    assert (Z.of_nat (Z.to_nat ois) = ois) as Hoi by lia.
    replace (SECTOR_BYTES * first + offset) with (SECTOR_BYTES * (first + fs) + Z.of_nat (Z.to_nat ois)) by lia.
    assert (tl mod SECTOR_BYTES = 0 ∧ ois + zlen dest ≤ tl ∧ SECTOR_BYTES * fs + tl ≤ SECTOR_BYTES * n ∧
            0 < tl) as (Ht1 & Ht2 & Ht3 & Ht4).
    { unfold tl, ois, fs, zlen, SECTOR_BYTES in *. Z.to_euclidean_division_equations; lia. }
    pose proof MAX_TRANSFER_sectors as HM. pose proof (zlen_nonneg dest) as Hz.
    clearbody tl. unfold SECTOR_BYTES, zlen in *.
    eapply read_post_impl; [|apply (read_bounce_ok _ d)]; unfold SECTOR_BYTES, zlen in *;
      rewrite ?length_replicate; try done; try apply same_refl; try lia;
      try (Z.to_euclidean_division_equations; lia).
    + intros ([Hr Hm] & _). split; [|lia]. unfold SECTOR_BYTES in *.
      eapply answers_mono; [exact Hr|lia|lia].
    + intros k Hk. lia.
Qed.

(** ** Writing *)

(** The device [d] is [d0] with the first [n] bytes of [source] at [base]. *)
Definition stored (d d0 : D) (base : Z) (source : list Z) (n : nat) : Prop :=
  (∀ k b, (k < n)%nat → source !! k = Some b → cell d (base + Z.of_nat k) = b) ∧
  (∀ a, ¬ (base ≤ a < base + Z.of_nat n) → cell d a = cell d0 a).

(** What a write guarantees: on success exactly the source is stored, and in
    every case nothing outside [lo, hi) changes. *)
Definition write_post (d0 : D) (base lo hi : Z) (source : list Z) (ok : Prop)
    (out : option (D * result (PartitionIoError E) unit)) : Prop :=
  ∃ d' res, out = Some (d', res) ∧
    (res = Ok tt → stored d' d0 base source (length source)) ∧
    (∀ a, ¬ (lo ≤ a < hi) → cell d' a = cell d0 a) ∧ (ok → res = Ok tt).

(** The sector as [write_loop] rewrites it: the old bytes around the piece. *)
Lemma sector_rewrite d d0 first base consumed count source (o : nat) q sector :
  0 ≤ q → 0 ≤ first → stored d d0 base source consumed →
  base + Z.of_nat consumed = SECTOR_BYTES * (first + q) + Z.of_nat o →
  (consumed + count ≤ length source)%nat → Z.of_nat (o + count) ≤ SECTOR_BYTES →
  length sector = Z.to_nat SECTOR_BYTES →
  ((o = 0%nat ∧ count = Z.to_nat SECTOR_BYTES) ∨
   ∀ k b, sector !! k = Some b → b = cell d (SECTOR_BYTES * (first + q) + Z.of_nat k)) →
  let bytes := blit o (slice consumed count source) sector in
  length bytes = Z.to_nat SECTOR_BYTES ∧
  let '(d', res) := write_sectors d (first + q) bytes in
  (res = Ok tt → stored d' d0 base source (consumed + count)) ∧
  (∀ a, ¬ (SECTOR_BYTES * (first + q) ≤ a < SECTOR_BYTES * (first + q) + SECTOR_BYTES) →
        cell d' a = cell d a).
Proof.
  intros Hq Hf [Hs1 Hs2] Hbase Hcount Ho Hlen Hold bytes.
  assert (length (slice consumed count source) = count) as Hsl by (rewrite length_slice; lia).
  assert (length bytes = Z.to_nat SECTOR_BYTES) as Hb
    by (unfold bytes; rewrite length_blit; [done|lia]).
  split; [done|]. pose proof (write_confined d (first + q) bytes) as Hw1.
  pose proof (write_stores d (first + q) bytes) as Hw2.
  destruct (write_sectors d (first + q) bytes) as [d' res]. simpl in *.
  assert (∀ a, ¬ (SECTOR_BYTES * (first + q) ≤ a < SECTOR_BYTES * (first + q) + SECTOR_BYTES) →
               cell d' a = cell d a) as Hout.
  { intros a Ha. apply Hw1; [lia|]. unfold zlen, SECTOR_BYTES in *. lia. }
  split; [|done]. intros Hr. set (S0 := SECTOR_BYTES * (first + q)) in *.
  assert (∀ a, ¬ (S0 + Z.of_nat o ≤ a < S0 + Z.of_nat (o + count)) → cell d' a = cell d a) as Hkeep.
  { intros a Ha. destruct (decide (S0 ≤ a < S0 + SECTOR_BYTES)) as [Hin|]; [|by apply Hout].
    destruct Hold as [[-> ->]|Hold]; [unfold SECTOR_BYTES in *; lia|].
    destruct (lookup_lt_is_Some_2 sector (Z.to_nat (a - S0))) as [b Hk];
      [rewrite Hlen; unfold SECTOR_BYTES in *; lia|].
    pose proof (Hold _ _ Hk) as ->. replace (S0 + Z.of_nat (Z.to_nat (a - S0))) with a in * by lia.
    replace a with (S0 + Z.of_nat (Z.to_nat (a - S0))) at 1 by lia. apply Hw2; [lia|done|].
    unfold bytes. rewrite lookup_blit by (unfold SECTOR_BYTES in *; lia). by rewrite decide_False by lia. }
  split.
  - intros k b Hk Hb'. destruct (decide (k < consumed)%nat).
    + rewrite Hkeep by lia. by apply Hs1.
    + replace (base + Z.of_nat k) with (S0 + Z.of_nat (o + (k - consumed))) by lia.
      apply Hw2; [lia|done|]. unfold bytes. rewrite lookup_blit by (unfold SECTOR_BYTES in *; lia).
      rewrite decide_True, lookup_slice, decide_True by lia. rewrite <- Hb'. f_equal. lia.
  - intros a Ha. rewrite Hkeep by lia. apply Hs2. lia.
Qed.

Lemma write_post_err d d0 base lo hi source (ok : Prop) e :
  (∀ a, ¬ (lo ≤ a < hi) → cell d a = cell d0 a) → ¬ ok →
  write_post d0 base lo hi source ok (Some (d, Err e)).
Proof. intros Hd Hok. exists d, (Err e). by split_and!. Qed.

(** The sector buffer before the piece is copied in: read unless the whole
    sector is replaced. *)
Lemma sector_load (partial : bool) d lba sector :
  0 ≤ lba → length sector = Z.to_nat SECTOR_BYTES →
  let '((d', sector'), res) :=
    if partial then read_sectors d lba sector else ((d, sector), Ok tt : result E unit) in
  same d' d ∧ length sector' = Z.to_nat SECTOR_BYTES ∧
  (res = Ok tt → partial = true →
   ∀ k b, sector' !! k = Some b → b = cell d' (SECTOR_BYTES * lba + Z.of_nat k)) ∧
  (∀ lo hi, answers d lo hi → lo ≤ SECTOR_BYTES * lba → SECTOR_BYTES * lba + SECTOR_BYTES ≤ hi →
     res = Ok tt).
Proof.
  intros Hl Hs. destruct partial; [|by split_and!; [apply same_refl|..]].
  pose proof (read_length d lba sector) as H1. pose proof (read_same d d lba sector (same_refl d)) as H2.
  pose proof (read_fills d lba sector) as H3.
  assert (∀ lo hi, answers d lo hi → lo ≤ SECTOR_BYTES * lba →
     SECTOR_BYTES * lba + SECTOR_BYTES ≤ hi → (read_sectors d lba sector).2 = Ok tt) as H4.
  { intros lo hi Hr Hlo Hhi. apply (answers_read _ lo hi); [done..|]. unfold zlen. rewrite Hs.
    unfold SECTOR_BYTES in *. lia. }
  destruct (read_sectors d lba sector) as [[d' sector'] res]. simpl in *. split_and!; try done.
  - congruence.
  - intros Hr _ k b Hk. rewrite (proj1 H2). by apply H3.
Qed.

Lemma write_step_ok d d0 first n offset consumed sector source :
  0 ≤ first → 0 ≤ offset → (consumed < length source)%nat →
  offset + zlen source ≤ SECTOR_BYTES * n → length sector = Z.to_nat SECTOR_BYTES →
  stored d d0 (SECTOR_BYTES * first + offset) source consumed → kept d d0 →
  let '((d', sector'), res) :=
    write_step d first (offset + Z.of_nat consumed) consumed sector source in
  match res with
  | Ok count => length sector' = Z.to_nat SECTOR_BYTES ∧ (0 < count)%nat ∧
      (consumed + count ≤ length source)%nat ∧
      stored d' d0 (SECTOR_BYTES * first + offset) source (consumed + count) ∧ kept d' d0
  | Err _ => ¬ partition_ok d0 first n ∧
      ∀ a, ¬ (SECTOR_BYTES * first ≤ a < SECTOR_BYTES * (first + n)) → cell d' a = cell d0 a
  end.
Proof.
  intros Hf Ho Hgt Hn Hsec Hst Hkp. unfold write_step.
  assert (∀ a, ¬ (SECTOR_BYTES * first ≤ a < SECTOR_BYTES * (first + n)) → cell d a = cell d0 a) as Hout
    by (intros a Ha; apply Hst; unfold zlen, SECTOR_BYTES in *; lia).
  remember (offset + Z.of_nat consumed) as current eqn:Hcur.
  pose proof (Z.div_mod current SECTOR_BYTES ltac:(done)) as Hdm.
  pose proof (Z.mod_pos_bound current SECTOR_BYTES ltac:(done)) as Hmb.
  set (q := current / SECTOR_BYTES) in *.
  remember (Z.to_nat (current mod SECTOR_BYTES)) as o eqn:Hoeq.
  set (count := ((Z.to_nat SECTOR_BYTES - o) `min` (length source - consumed))%nat).
  assert (0 ≤ q ∧ q < n ∧ (0 < count)%nat ∧ Z.of_nat (o + count) ≤ SECTOR_BYTES ∧
          (consumed + count ≤ length source)%nat) as (Hq & Hqn & Hc0 & Hoc & Hcs).
  { unfold count, q, zlen, SECTOR_BYTES in *. split_and!; lia. }
  unfold checked_add. destruct (first + q <=? U64_MAX) eqn:Eq.
  2: { split; [|done]. intros (_ & ?). lia. }
  match goal with |- context [if ?b then read_sectors d _ sector else _] => set (partial := b) end.
  pose proof (sector_load partial d (first + q) sector ltac:(lia) Hsec) as Hload.
  destruct (if partial then _ else _) as [[d1 sector1] [[]|e]];
    destruct Hload as ([Hd1 Hkd] & Hsec1 & Hfill & Hrok).
  2: { split; [|intros a Ha; rewrite Hd1; by apply Hout]. intros (Hr & _).
       specialize (Hrok _ _ (Hkp _ _ Hr)). unfold SECTOR_BYTES in *. by discriminate Hrok; lia. }
  assert (stored d1 d0 (SECTOR_BYTES * first + offset) source consumed) as Hst1.
  { destruct Hst as [H1 H2]. split; intros; rewrite Hd1; auto. }
  destruct (sector_rewrite d1 d0 first (SECTOR_BYTES * first + offset) consumed count source o q sector1
    Hq Hf Hst1) as [Hl Hw]; try done; [lia| |].
  { destruct partial eqn:Ep; [right; by apply Hfill|left]. unfold partial in Ep.
    apply orb_false_iff in Ep as [Ep1 Ep2]. apply bool_decide_eq_false in Ep1, Ep2.
    split; by apply dec_stable. }
  assert (partition_ok d0 first n →
    (write_sectors d1 (first + q) (blit o (slice consumed count source) sector1)).2 = Ok tt) as Hwok.
  { intros [Hpw _]. apply (answers_write _ _ _ _ _ (Hkd _ _ (Hkp _ _ Hpw)));
      unfold zlen; rewrite ?Hl; unfold SECTOR_BYTES in *; lia. }
  pose proof (λ lo hi, answers_after_write d1 lo hi (first + q)
    (blit o (slice consumed count source) sector1)) as Hkw.
  destruct (write_sectors _ _ _) as [d2 [[]|e]]; destruct Hw as [Hw1 Hw2].
  - split_and!; try done; [by apply Hw1|]. intros lo hi H. by apply Hkw, Hkd, Hkp.
  - split; [intros Hpw; by specialize (Hwok Hpw)|].
    intros a Ha. rewrite Hw2, Hd1 by (unfold SECTOR_BYTES in *; lia). by apply Hout.
Qed.

Lemma write_loop_ok fuel d d0 first n offset consumed sector source :
  0 ≤ first → 0 ≤ offset → (consumed ≤ length source ≤ consumed + fuel)%nat →
  offset + zlen source ≤ SECTOR_BYTES * n → offset + zlen source ≤ U64_MAX →
  length sector = Z.to_nat SECTOR_BYTES →
  stored d d0 (SECTOR_BYTES * first + offset) source consumed → kept d d0 →
  write_post d0 (SECTOR_BYTES * first + offset) (SECTOR_BYTES * first) (SECTOR_BYTES * (first + n))
    source (partition_ok d0 first n)
    (write_loop fuel d first (offset + Z.of_nat consumed) consumed sector source).
Proof.
  intros Hf Ho. revert d consumed sector.
  induction fuel as [|fuel IH]; intros d consumed sector Hfuel Hn Hmax Hsec Hst Hkp; simpl;
    (destruct (decide (length source ≤ consumed)%nat) as [Hle|Hgt];
     [exists d, (Ok tt); replace (length source) with consumed by lia; split_and!; try done;
      intros a Ha; apply Hst; unfold zlen, SECTOR_BYTES in *; lia|]); [lia|].
  pose proof (write_step_ok d d0 first n offset consumed sector source Hf Ho ltac:(lia) Hn Hsec Hst Hkp)
    as Hs.
  destruct (write_step _ _ _ _ _ _) as [[d1 sector1] [count|e]].
  2: { destruct Hs as [Hs1 Hs2]. by apply write_post_err. }
  destruct Hs as (Hl & Hc & Hcs & Hst' & Hkp').
  unfold checked_add. rewrite (proj2 (Z.leb_le _ _)) by (unfold zlen in *; lia).
  rewrite <- Z.add_assoc, <- Nat2Z.inj_add. apply IH; try done. lia.
Qed.

Lemma transfer_write_ok d first n offset source :
  0 ≤ first → 0 ≤ offset → offset + zlen source ≤ SECTOR_BYTES * n → offset + zlen source ≤ U64_MAX →
  write_post d (SECTOR_BYTES * first + offset) (SECTOR_BYTES * first) (SECTOR_BYTES * (first + n))
    source (partition_ok d first n) (transfer_write d first offset source).
Proof.
  intros Hf Ho Hn Hm. unfold transfer_write. rewrite <- (Z.add_0_r offset) at 2.
  apply (write_loop_ok _ d d first n offset 0); try done.
  - lia.
  - split; [lia|done].
  - by intros lo hi.
Qed.

(** ** Partition-level guarantees *)

Lemma check_range_Ok (io : PartitionIo D) offset len :
  @check_range D E io offset len = Ok tt ↔
  offset + Z.of_nat len ≤ SECTOR_BYTES * sector_count io ∧ offset + Z.of_nat len ≤ U64_MAX.
Proof.
  unfold check_range, checked_add, byte_len. destruct (_ <=? U64_MAX) eqn:E1; simpl.
  - rewrite ensure_Ok. lia.
  - split; [done|lia].
Qed.

(** A read through a partition terminates and never changes the device; a
    successful read fills the buffer with the device's bytes at the
    requested offset of the partition, within its bounds; and a read inside
    a partition that the device serves succeeds. *)
Theorem partition_read_correct (io : PartitionIo D) offset dest :
  0 ≤ first_lba io → 0 ≤ offset →
  ∃ io' dest' res, read io offset dest = Some ((io', dest'), res) ∧
    length dest' = length dest ∧ (∀ a, cell (device io') a = cell (device io) a) ∧
    (res = Ok tt →
     offset + zlen dest ≤ SECTOR_BYTES * sector_count io ∧
     ∀ k, (k < length dest)%nat →
       dest' !! k = Some (cell (device io) (SECTOR_BYTES * first_lba io + offset + Z.of_nat k))) ∧
    (offset + zlen dest ≤ SECTOR_BYTES * sector_count io → offset + zlen dest ≤ U64_MAX →
     zlen dest ≤ I64_MAX → poisoned io = false →
     partition_ok (device io) (first_lba io) (sector_count io) → res = Ok tt).
Proof.
  intros Hf Ho. unfold read. destruct (check_range io offset (length dest)) as [[]|e] eqn:Ec.
  2: { exists io, dest, (Err e). split_and!; try done. intros Hn Hm _ _ _.
       by rewrite (proj2 (check_range_Ok io offset (length dest))) in Ec. }
  apply check_range_Ok in Ec as [Hn Hm].
  case_bool_decide as Ed.
  { subst. exists io, [], (Ok tt). split_and!; try done. intros _. split; [done|]. simpl. lia. }
  destruct (poisoned io) eqn:Ep; [exists io, dest, (Err Poisoned); by split_and!|].
  destruct (transfer_read_ok (device io) (first_lba io) (sector_count io) offset dest Hf Ho)
    as (d' & dest' & res & -> & H2 & H3 & H4 & H5); [done|].
  exists (with_device io d'), dest', res. simpl. split_and!; try done.
  - intros Hr. split; [done|]. by apply H4.
  - intros. by apply H5.
Qed.

(** C25: A write through a partition never changes a byte of the device outside
    the partition, whatever the outcome; a successful write stores exactly
    the source at the requested offset and nothing else; and a write inside
    a partition that the device serves succeeds. *)
Theorem partition_write_correct (io : PartitionIo D) offset source :
  0 ≤ first_lba io → 0 ≤ offset →
  let lo := SECTOR_BYTES * first_lba io in
  let hi := SECTOR_BYTES * (first_lba io + sector_count io) in
  ∃ io' res, write io offset source = Some (io', res) ∧
    (∀ a, ¬ (lo ≤ a < hi) → cell (device io') a = cell (device io) a) ∧
    (res = Ok tt →
     (∀ k b, source !! k = Some b → cell (device io') (lo + offset + Z.of_nat k) = b) ∧
     (∀ a, ¬ (lo + offset ≤ a < lo + offset + zlen source) →
           cell (device io') a = cell (device io) a)) ∧
    (offset + zlen source ≤ SECTOR_BYTES * sector_count io → offset + zlen source ≤ U64_MAX →
     poisoned io = false → partition_ok (device io) (first_lba io) (sector_count io) → res = Ok tt).
Proof.
  intros Hf Ho lo hi. unfold write. destruct (check_range io offset (length source)) as [[]|e] eqn:Ec.
  2: { exists io, (Err e). split_and!; try done. intros Hn Hm _ _.
       by rewrite (proj2 (check_range_Ok io offset (length source))) in Ec. }
  apply check_range_Ok in Ec as [Hn Hm].
  case_bool_decide as Es; [subst; exists io, (Ok tt); by split_and!|].
  destruct (poisoned io) eqn:Ep; [exists io, (Err Poisoned); by split_and!|].
  destruct (transfer_write_ok (device io) (first_lba io) (sector_count io) offset source Hf Ho)
    as (d' & res & -> & H2 & H3 & H4); [done|done|].
  exists (with_device io d'), res. simpl. split_and!; try done.
  intros Hr. destruct (H2 Hr) as [Hs1 Hs2]. split; [|done]. intros k b Hk.
  apply Hs1; [by eapply lookup_lt_Some|done].
Qed.
End Correct.

(** ** Examples *)

(** A partition of two sectors at the end of a disk of four. *)
Definition example_disk : list Z := replicate 1024 7 ++ replicate 1024 8.
Definition example_partition : PartitionIo (list Z) := mkPartitionIo example_disk false 2 2.

Lemma example_partition_ok : partition_ok (device example_partition) 2 2.
Proof. by vm_compute. Qed.

Lemma partition_read_correct_witness :
  ∃ io' dest', read example_partition 500 (replicate 20 0) = Some ((io', dest'), Ok tt) ∧
    length dest' = 20%nat ∧ dest' !! 19%nat = Some 8.
Proof.
  destruct (partition_read_correct example_partition 500 (replicate 20 0))
    as (io' & dest' & res & E & Hl & _ & Hok & Ht); [done|done|].
  assert (res = Ok tt) as -> by (apply Ht; [by vm_compute..|apply example_partition_ok]).
  exists io', dest'. split_and!; [done|done|]. destruct (Hok eq_refl) as [_ Hd].
  rewrite (Hd 19%nat) by (simpl; lia). by vm_compute.
Defined.

Lemma partition_write_correct_witness :
  ∃ io', write example_partition 500 [1; 2; 3] = Some (io', Ok tt) ∧
    cell (device io') 1525 = 2 ∧ cell (device io') 1023 = 7.
Proof.
  destruct (partition_write_correct example_partition 500 [1; 2; 3])
    as (io' & res & E & Hout & Hok & Ht); [done|done|].
  assert (res = Ok tt) as -> by (apply Ht; [by vm_compute..|apply example_partition_ok]).
  exists io'. split_and!; [done| |].
  - by apply (proj1 (Hok eq_refl) 1%nat 2).
  - rewrite Hout by (simpl; unfold SECTOR_BYTES; lia). by vm_compute.
Defined.
