(* ===== verification/Partition.v ===== *)
(** * GPT partition discovery

    Models [filesystem/src/partition.rs] over the sector-device interface of
    [Storage]: the header and entry-array checks, selection of a partition by
    type and ordinal, and the inspected table.  Bytes are integers; a name is
    the sequence of its Unicode scalar values. *)

From Stdlib Require Import Sorted Permutation.
From S2P Require Import Prelude Storage.

Record PartitionRange := mkPartitionRange { range_first : Z; range_count : Z }.
#[global] Instance PartitionRange_eq_dec : EqDecision PartitionRange.
Proof. solve_decision. Defined.

Inductive DiscoveryError (E : Type) := DeviceError (e : E) | InvalidTable | AmbiguousType.
Arguments DeviceError {E} e.
Arguments InvalidTable {E}.
Arguments AmbiguousType {E}.

(** ** Little-endian fields and the checksum *)

Definition u32_at (bytes : list Z) (offset : nat) : Z := from_le_bytes (slice offset 4 bytes).
Definition u64_at (bytes : list Z) (offset : nat) : Z := from_le_bytes (slice offset 8 bytes).

(** One shift of the checksum register: [0u32.wrapping_sub(crc & 1)] is all
    ones or zero. *)
Definition CRC_POLYNOMIAL : Z := 3988292384.
Definition crc_shift (crc : Z) : Z :=
  Z.lxor (Z.shiftr crc 1) (Z.land CRC_POLYNOMIAL (if Z.land crc 1 =? 0 then 0 else U32_MAX)).
Definition crc_byte (crc byte : Z) : Z := Nat.iter 8 crc_shift (Z.lxor crc byte).
Definition crc32 (bytes : list Z) : Z := Z.lxor (fold_left crc_byte bytes U32_MAX) U32_MAX.

(** ["EFI PART"]. *)
Definition SIGNATURE : list Z := [69; 70; 73; 32; 80; 65; 82; 84].
Definition zero_guid : list Z := replicate 16 0.

(** The checks on the header sector common to both functions; the checksum
    field is cleared in the result. *)
Definition check_header {E} (header : list Z) : result (DiscoveryError E) (list Z) :=
  let size := u32_at header 12 in
  ensure (negb (negb (bool_decide (take 8 header = SIGNATURE)) ||
                negb (u32_at header 8 =? 65536) ||
                negb ((92 <=? size) && (size <=? SECTOR_BYTES)) ||
                negb (u32_at header 20 =? 0) || negb (u64_at header 24 =? 1))) InvalidTable;;
  let expected := u32_at header 16 in
  let header := blit 16 [0; 0; 0; 0] header in
  ensure (crc32 (take (Z.to_nat size) header) =? expected) InvalidTable;;
  Ok header.

(** [matches!(entry_size, 128 | 256 | 512)]. *)
Definition entry_size_ok (n : Z) : bool := (n =? 128) || (n =? 256) || (n =? 512).
(** [div_ceil(SECTOR_BYTES)]. *)
Definition sectors_of (n : Z) : Z := (n + SECTOR_BYTES - 1) / SECTOR_BYTES.

(** [bytes.chunks_exact(n)]. *)
Definition chunks_exact (n : nat) (bytes : list Z) : list (list Z) :=
  (λ i, slice (i * n) n bytes) <$> seq 0 (length bytes / n).

(** [sort_by_key(|x| key(x))]: a stable insertion sort. *)
Fixpoint insert_by {A} (key : A → Z) (x : A) (l : list A) : list A :=
  match l with
  | [] => [x]
  | y :: l => if key x <=? key y then x :: y :: l else y :: insert_by key x l
  end.
Definition sort_by {A} (key : A → Z) (l : list A) : list A := foldr (insert_by key) [] l.

(** [windows(2)] with a test on each pair. *)
Fixpoint windows2 {A} (p : A → A → bool) (l : list A) : bool :=
  match l with
  | a :: (b :: _) as l => p a b && windows2 p l
  | _ => true
  end.

(** [String::from_utf16_lossy]: unpaired surrogates become U+FFFD. *)
Definition REPLACEMENT : Z := 65533.
Definition high_surrogate (u : Z) : bool := (55296 <=? u) && (u <=? 56319).
Definition low_surrogate (u : Z) : bool := (56320 <=? u) && (u <=? 57343).
Fixpoint from_utf16_lossy (units : list Z) : list Z :=
  match units with
  | [] => []
  | u :: units =>
      if high_surrogate u then
        match units with
        | v :: units' =>
            if low_surrogate v
            then (65536 + (u - 55296) * 1024 + (v - 56320)) :: from_utf16_lossy units'
            else REPLACEMENT :: from_utf16_lossy units
        | [] => [REPLACEMENT]
        end
      else if low_surrogate u then REPLACEMENT :: from_utf16_lossy units
      else u :: from_utf16_lossy units
  end.

(** [take_while(|v| *v != 0)]. *)
Fixpoint take_nonzero (l : list Z) : list Z :=
  match l with
  | [] => []
  | v :: l => if v =? 0 then [] else v :: take_nonzero l
  end.
Definition entry_name (entry : list Z) : list Z :=
  from_utf16_lossy (take_nonzero (from_le_bytes <$> chunks_exact 2 (slice 56 72 entry))).

Record PartitionInfo := mkPartitionInfo {
  info_guid : list Z;
  info_range : PartitionRange;
  info_name : list Z;
}.
Record Table := mkTable {
  table_guid : list Z;
  table_sectors : Z;
  partitions : list PartitionInfo;
}.

Section Discovery.
Context {D E : Type} {SD : SectorDevice D E}.

(** Read a fresh zeroed buffer of [n] bytes. *)
Definition read_buffer (d : D) (lba n : Z) : D * result (DiscoveryError E) (list Z) :=
  let '((d, bytes), res) := read_sectors d lba (replicate (Z.to_nat n) 0) in
  (d, map_err DeviceError res;; Ok bytes).

(** One entry of the array in [find_by_type_ordinal]: nothing, a partition of
    the wanted type, or an invalid extent. *)
Definition scan_entry (partition_type : list Z) (first_usable last_usable : Z) (entry : list Z)
    : result (DiscoveryError E) (option PartitionRange) :=
  if bool_decide (take 16 entry = zero_guid) then Ok None
  else
    let first := u64_at entry 32 in
    let last := u64_at entry 40 in
    if (first <? first_usable) || (last >? last_usable) || (first >? last) then Err InvalidTable
    else if bool_decide (take 16 entry = partition_type) then
      count ← ok_or InvalidTable (checked_sub last first ≫= λ n, checked_add U64_MAX n 1);
      Ok (Some (mkPartitionRange first count))
    else Ok None.

Fixpoint scan_entries (partition_type : list Z) (first_usable last_usable : Z)
    (entries : list (list Z)) : result (DiscoveryError E) (list PartitionRange) :=
  match entries with
  | [] => Ok []
  | entry :: entries =>
      r ← scan_entry partition_type first_usable last_usable entry;
      rest ← scan_entries partition_type first_usable last_usable entries;
      Ok (option_list r ++ rest)
  end.

(** The pair check of the sorted set. *)
Fixpoint check_disjoint (l : list PartitionRange) : result (DiscoveryError E) unit :=
  match l with
  | a :: (b :: _) as l =>
      end_ ← ok_or InvalidTable (checked_add U64_MAX (range_first a) (range_count a));
      ensure (end_ <=? range_first b) InvalidTable;;
      check_disjoint l
  | _ => Ok tt
  end.

(** Selection from the scanned set. *)
Definition select (found : list PartitionRange) (expected_count ordinal : Z)
    : result (DiscoveryError E) (option PartitionRange) :=
  if bool_decide (found = []) then Ok None
  else
    ensure (zlen found =? expected_count) AmbiguousType;;
    let found := sort_by range_first found in
    check_disjoint found;;
    Ok (found !! Z.to_nat ordinal).

Definition find_by_type_ordinal (d : D) (partition_type : list Z) (expected_count ordinal : Z)
    : D * result (DiscoveryError E) (option PartitionRange) :=
  if bool_decide (partition_type = zero_guid) || (expected_count =? 0) || (expected_count >? 128) ||
     (ordinal >=? expected_count)
  then (d, Err InvalidTable)
  else
    let '(d, res) := read_buffer d 1 SECTOR_BYTES in
    match header ← res; check_header header with
    | Err e => (d, Err e)
    | Ok header =>
        let first_usable := u64_at header 40 in
        let last_usable := u64_at header 48 in
        let entries_lba := u64_at header 72 in
        let count := u32_at header 80 in
        let entry_size := u32_at header 84 in
        if (count =? 0) || (count >? 128) || negb (entry_size_ok entry_size)
        then (d, Err InvalidTable)
        else
          let length := count * entry_size in
          let sectors := sectors_of length in
          match checked_add U64_MAX entries_lba sectors with
          | None => (d, Err InvalidTable)
          | Some array_end =>
              if (entries_lba <? 2) || (array_end >? first_usable) || (first_usable >? last_usable) ||
                 (u64_at header 32 <=? last_usable)
              then (d, Err InvalidTable)
              else
                let '(d, res) := read_buffer d entries_lba (sectors * SECTOR_BYTES) in
                (d,
                 entries ← res;
                 let array := take (Z.to_nat length) entries in
                 ensure (crc32 array =? u32_at header 88) InvalidTable;;
                 found ← scan_entries partition_type first_usable last_usable
                           (chunks_exact (Z.to_nat entry_size) array);
                 select found expected_count ordinal)
          end
    end.

Definition find_by_type (d : D) (partition_type : list Z)
    : D * result (DiscoveryError E) (option PartitionRange) :=
  find_by_type_ordinal d partition_type 1 0.

(** ** [inspect] *)

(** The loop over the entries; [identities] are the unique identifiers seen. *)
Fixpoint inspect_entries (first last : Z) (identities : gset (list Z)) (entries : list (list Z))
    : result (DiscoveryError E) (list PartitionInfo) :=
  match entries with
  | [] => Ok []
  | entry :: entries =>
      if bool_decide (take 16 entry = zero_guid) then inspect_entries first last identities entries
      else
        let start := u64_at entry 32 in
        let end_ := u64_at entry 40 in
        let guid := slice 16 16 entry in
        if (start <? first) || (end_ >? last) || (start >? end_) ||
           bool_decide (guid = zero_guid) || bool_decide (guid ∈ identities)
        then Err InvalidTable
        else
          rest ← inspect_entries first last ({[guid]} ∪ identities) entries;
          Ok (mkPartitionInfo guid (mkPartitionRange start (end_ - start + 1)) (entry_name entry)
              :: rest)
  end.

Definition range_end (r : PartitionRange) : Z := range_first r + range_count r.
Definition info_first (p : PartitionInfo) : Z := range_first (info_range p).

Definition inspect (d : D) : D * result (DiscoveryError E) Table :=
  let '(d, res) := read_buffer d 1 SECTOR_BYTES in
  match header ← res; check_header header with
  | Err e => (d, Err e)
  | Ok header =>
      match checked_add U64_MAX (u64_at header 32) 1 with
      | None => (d, Err InvalidTable)
      | Some sectors =>
          let first := u64_at header 40 in
          let last := u64_at header 48 in
          let start := u64_at header 72 in
          let count := u32_at header 80 in
          let entry_size := u32_at header 84 in
          if bool_decide (checked_mul U64_MAX sectors SECTOR_BYTES = None) ||
             (count =? 0) || (count >? 128) || negb (entry_size_ok entry_size) ||
             (first >? last) || (last >=? sectors - 1) || (start <? 2)
          then (d, Err InvalidTable)
          else
            let length := count * entry_size in
            let rounded := sectors_of length * SECTOR_BYTES in
            let guid := slice 56 16 header in
            if (match checked_add U64_MAX start (rounded / SECTOR_BYTES) with
                | Some end_ => end_ >? first
                | None => true
                end) || bool_decide (guid = zero_guid)
            then (d, Err InvalidTable)
            else
              let '(d, res) := read_buffer d start rounded in
              (d,
               bytes ← res;
               let array := take (Z.to_nat length) bytes in
               ensure (crc32 array =? u32_at header 88) InvalidTable;;
               found ← inspect_entries first last ∅ (chunks_exact (Z.to_nat entry_size) array);
               let sorted := sort_by info_first found in
               ensure (windows2 (λ a b, negb (range_end (info_range a) >? info_first b)) sorted)
                 InvalidTable;;
               Ok (mkTable guid sectors sorted))
      end
  end.
End Discovery.

(** ** The checksum detects every single-byte error *)

Lemma crc_shift_spec c :
  crc_shift c = Z.lxor (Z.shiftr c 1) (if Z.odd c then CRC_POLYNOMIAL else 0).
Proof.
  unfold crc_shift. f_equal. change 1 with (Z.ones 1) at 1. rewrite Z.land_ones by lia.
  change (2 ^ 1) with 2. rewrite Zmod_odd. by destruct (Z.odd c).
Qed.

Lemma u32_testbit c n : 0 ≤ c ≤ U32_MAX → 32 ≤ n → Z.testbit c n = false.
Proof.
  intros Hc Hn. destruct (Z.eq_dec c 0) as [->|]; [apply Z.testbit_0_l|].
  apply Z.bits_above_log2; [lia|]. apply (Z.lt_le_trans _ 32); [|done].
  apply Z.log2_lt_pow2; [lia|]. unfold U32_MAX in Hc. lia.
Qed.
Lemma u32_of_bits c : 0 ≤ c → (∀ n, 32 ≤ n → Z.testbit c n = false) → 0 ≤ c ≤ U32_MAX.
Proof.
  intros Hc Hb. split; [done|]. unfold U32_MAX.
  assert (c = c mod 2 ^ 32) as ->; [|pose proof (Z.mod_pos_bound c (2 ^ 32)); lia].
  apply Z.bits_inj'. intros n Hn. destruct (Z.lt_ge_cases n 32).
  - by rewrite Z.mod_pow2_bits_low.
  - rewrite Z.mod_pow2_bits_high by lia. by apply Hb.
Qed.
Lemma lxor_u32 a b : 0 ≤ a ≤ U32_MAX → 0 ≤ b ≤ U32_MAX → 0 ≤ Z.lxor a b ≤ U32_MAX.
Proof.
  intros Ha Hb. apply u32_of_bits; [apply Z.lxor_nonneg; lia|].
  intros n Hn. by rewrite Z.lxor_spec, !u32_testbit.
Qed.

Lemma crc_shift_u32 c : 0 ≤ c ≤ U32_MAX → 0 ≤ crc_shift c ≤ U32_MAX.
Proof.
  intros Hc. rewrite crc_shift_spec. apply lxor_u32.
  - rewrite Z.shiftr_div_pow2 by lia. change (2 ^ 1) with 2. unfold U32_MAX in *.
    Z.to_euclidean_division_equations; lia.
  - by destruct (Z.odd c).
Qed.

(** The polynomial's top bit makes a shift reversible. *)
Lemma crc_shift_inj c c' :
  0 ≤ c ≤ U32_MAX → 0 ≤ c' ≤ U32_MAX → crc_shift c = crc_shift c' → c = c'.
Proof.
  rewrite !crc_shift_spec. intros Hc Hc' H.
  assert (∀ x, 0 ≤ x ≤ U32_MAX →
    Z.testbit (Z.lxor (Z.shiftr x 1) (if Z.odd x then CRC_POLYNOMIAL else 0)) 31 = Z.odd x) as Htop.
  { intros x Hx. rewrite Z.lxor_spec, Z.shiftr_spec by lia. rewrite u32_testbit by (done || lia).
    by destruct (Z.odd x). }
  assert (Z.odd c = Z.odd c') as Hodd by (rewrite <- (Htop c), <- (Htop c') by done; by rewrite H).
  rewrite Hodd in H. apply (f_equal (λ z, Z.lxor z (if Z.odd c' then CRC_POLYNOMIAL else 0))) in H.
  rewrite !Z.lxor_assoc, Z.lxor_nilpotent, !Z.lxor_0_r in H.
  rewrite <- !Z.div2_spec in H. by rewrite (Z.div2_odd c), (Z.div2_odd c'), H, Hodd.
Qed.

Lemma crc_iter_u32 n c : 0 ≤ c ≤ U32_MAX → 0 ≤ Nat.iter n crc_shift c ≤ U32_MAX.
Proof. intros Hc. induction n; [done|]. simpl. by apply crc_shift_u32. Qed.
Lemma crc_iter_inj n c c' :
  0 ≤ c ≤ U32_MAX → 0 ≤ c' ≤ U32_MAX → Nat.iter n crc_shift c = Nat.iter n crc_shift c' → c = c'.
Proof.
  intros Hc Hc'. induction n as [|n IH]; [done|]. simpl.
  intros H. apply IH, crc_shift_inj; [by apply crc_iter_u32..|done].
Qed.

Lemma u8_u32 b : is_u8 b → 0 ≤ b ≤ U32_MAX.
Proof. width. Qed.
Lemma lxor_cancel_r a b c : Z.lxor a c = Z.lxor b c → a = b.
Proof.
  intros H. apply (f_equal (λ z, Z.lxor z c)) in H.
  by rewrite !Z.lxor_assoc, Z.lxor_nilpotent, !Z.lxor_0_r in H.
Qed.
Lemma crc_byte_u32 c b : 0 ≤ c ≤ U32_MAX → is_u8 b → 0 ≤ crc_byte c b ≤ U32_MAX.
Proof. intros Hc Hb. unfold crc_byte. apply crc_iter_u32, lxor_u32; [done|by apply u8_u32]. Qed.
Lemma crc_byte_inj c c' b b' :
  0 ≤ c ≤ U32_MAX → 0 ≤ c' ≤ U32_MAX → is_u8 b → is_u8 b' →
  crc_byte c b = crc_byte c' b' → Z.lxor c b = Z.lxor c' b'.
Proof.
  intros Hc Hc' Hb Hb'. unfold crc_byte. apply crc_iter_inj; apply lxor_u32; try done; by apply u8_u32.
Qed.

(** A fold of a step that keeps an invariant and is injective in its state. *)
Lemma fold_left_keeps {A B} (f : A → B → A) (P : A → Prop) (Q : B → Prop) l c :
  (∀ c b, P c → Q b → P (f c b)) → Forall Q l → P c → P (fold_left f l c).
Proof. intros Hf Hl. revert c. induction Hl as [|b l Hb Hl IH]; intros c Hc; simpl; auto. Qed.
Lemma fold_left_inj {A B} (f : A → B → A) (P : A → Prop) (Q : B → Prop) l c c' :
  (∀ c b, P c → Q b → P (f c b)) →
  (∀ c c' b, P c → P c' → Q b → f c b = f c' b → c = c') →
  Forall Q l → P c → P c' → fold_left f l c = fold_left f l c' → c = c'.
Proof.
  intros Hf Hi Hl. revert c c'. induction Hl as [|b l Hb Hl IH]; intros c c' Hc Hc' H; simpl in H; [done|].
  apply IH in H; auto. by eapply Hi.
Qed.
Lemma fold_left_middle {A B} (f : A → B → A) l x r c :
  fold_left f (l ++ x :: r) c = fold_left f r (f (fold_left f l c) x).
Proof. by rewrite fold_left_app. Qed.

(** Two byte strings that differ in exactly one byte have different
    checksums. *)
Theorem crc32_detects l r a b :
  Forall is_u8 l → Forall is_u8 r → is_u8 a → is_u8 b →
  crc32 (l ++ a :: r) = crc32 (l ++ b :: r) → a = b.
Proof.
  intros Hl Hr Ha Hb H. unfold crc32 in H. apply lxor_cancel_r in H. rewrite !fold_left_middle in H.
  assert (0 ≤ fold_left crc_byte l U32_MAX ≤ U32_MAX) as Hc.
  { apply (fold_left_keeps crc_byte (λ c, 0 ≤ c ≤ U32_MAX) is_u8); [|done|done].
    intros. by apply crc_byte_u32. }
  generalize dependent (fold_left crc_byte l U32_MAX). intros c H Hc.
  apply (fold_left_inj crc_byte (λ c, 0 ≤ c ≤ U32_MAX) is_u8) in H; [| | |done|by apply crc_byte_u32..].
  - apply crc_byte_inj in H; [|done..]. rewrite !(Z.lxor_comm c) in H. by apply lxor_cancel_r in H.
  - intros. by apply crc_byte_u32.
  - intros x y z Hx Hy Hz E. apply crc_byte_inj in E; [|done..]. by apply lxor_cancel_r in E.
Qed.

(** ** Sorting and disjointness *)

Lemma insert_by_perm {A} (key : A → Z) x l : insert_by key x l ≡ₚ x :: l.
Proof.
  induction l as [|y l IH]; simpl; [done|]. destruct (key x <=? key y); [done|].
  rewrite IH. apply perm_swap.
Qed.
Lemma sort_by_perm {A} (key : A → Z) l : sort_by key l ≡ₚ l.
Proof. induction l as [|x l IH]; simpl; [done|]. by rewrite insert_by_perm, IH. Qed.
Lemma sort_by_sorted {A} (key : A → Z) l : StronglySorted (λ a b, key a ≤ key b) (sort_by key l).
Proof.
  induction l as [|x k IH]; simpl; [constructor|].
  induction IH as [|y l Hs IH Hall]; simpl; [by repeat constructor|].
  destruct (key x <=? key y) eqn:E.
  - constructor; [by constructor|]. constructor; [lia|].
    rewrite Forall_forall in *. intros z Hz. specialize (Hall z Hz). simpl in Hall. lia.
  - constructor; [done|]. rewrite insert_by_perm. constructor; [lia|done].
Qed.

(** Pairs of neighbours that do not overlap make the whole list disjoint. *)
Lemma windows_disjoint {A} (f : A → PartitionRange) l :
  Forall (λ x, 0 < range_count (f x)) l →
  windows2 (λ a b, negb (range_end (f a) >? range_first (f b))) l = true →
  StronglySorted (λ a b, range_end (f a) ≤ range_first (f b)) l.
Proof.
  induction l as [|a l IH]; intros Hp Hw; [constructor|].
  apply Forall_cons in Hp as [Ha Hl]. destruct l as [|b l].
  - repeat constructor.
  - change (negb (range_end (f a) >? range_first (f b)) &&
      windows2 (λ a b, negb (range_end (f a) >? range_first (f b))) (b :: l) = true) in Hw.
    apply andb_prop in Hw as [Hw1 Hw2]. specialize (IH Hl Hw2). constructor; [done|].
    apply StronglySorted_inv in IH as [_ Hall]. apply Forall_cons in Hl as [Hb _].
    constructor; [lia|]. eapply Forall_impl; [done|]. simpl. unfold range_end in *. intros c. lia.
Qed.

Section Sound.
Context {D E : Type} {SD : SectorDevice D E}.

Lemma check_disjoint_windows l :
  check_disjoint (E := E) l = Ok tt →
  windows2 (λ a b, negb (range_end a >? range_first b)) l = true.
Proof.
  induction l as [|a [|b l] IH]; [done|done|]. intros H.
  change (check_disjoint (E := E) (a :: b :: l)) with
    (end_ ← ok_or InvalidTable (checked_add U64_MAX (range_first a) (range_count a));
     ensure (end_ <=? range_first b) InvalidTable;; check_disjoint (E := E) (b :: l)) in H.
  apply result_bind_Ok in H as (e & He%ok_or_Ok & H).
  apply result_bind_Ok in H as ([] & Hn%ensure_Ok & H). unfold checked_add in He.
  destruct (range_first a + range_count a <=? U64_MAX); [|done]. injection He as <-.
  change (negb (range_end a >? range_first b) &&
    windows2 (λ a b, negb (range_end a >? range_first b)) (b :: l) = true).
  apply andb_true_iff. split; [unfold range_end; lia|by apply IH].
Qed.

(** The entry's extent, if its type is the wanted one. *)
Definition entry_range (partition_type entry : list Z) : option PartitionRange :=
  if bool_decide (take 16 entry = partition_type)
  then Some (mkPartitionRange (u64_at entry 32) (u64_at entry 40 - u64_at entry 32 + 1))
  else None.
Definition extent_ok (lo hi : Z) (entry : list Z) : Prop :=
  take 16 entry ≠ zero_guid → lo ≤ u64_at entry 32 ≤ u64_at entry 40 ∧ u64_at entry 40 ≤ hi.

Lemma scan_entry_Ok ty lo hi e r :
  ty ≠ zero_guid → scan_entry (E := E) ty lo hi e = Ok r →
  r = entry_range ty e ∧ extent_ok lo hi e.
Proof.
  intros Hty Hs. unfold scan_entry in Hs. unfold entry_range, extent_ok.
  destruct (decide (take 16 e = zero_guid)) as [Hz|Hz].
  - rewrite bool_decide_eq_true_2 in Hs by done. injection Hs as <-.
    by rewrite (bool_decide_eq_false_2 (take 16 e = ty)) by congruence.
  - rewrite bool_decide_eq_false_2 in Hs by done.
    destruct ((_ <? lo) || _ || _) eqn:Eo; [done|].
    split; [|intros _; lia]. case_bool_decide; [|by injection Hs as <-].
    unfold checked_sub, checked_add in Hs. rewrite (proj2 (Z.leb_le _ _)) in Hs by lia. simpl in Hs.
    destruct (_ <=? U64_MAX); [|done]. by injection Hs as <-.
Qed.

Lemma scan_entries_Ok ty lo hi entries found :
  ty ≠ zero_guid → scan_entries (E := E) ty lo hi entries = Ok found →
  found = omap (entry_range ty) entries ∧ Forall (extent_ok lo hi) entries.
Proof.
  intros Hty. revert found. induction entries as [|e entries IH]; intros found H; simpl in H.
  { injection H as <-. done. }
  apply result_bind_Ok in H as (r & [-> He]%scan_entry_Ok & H); [|done].
  apply result_bind_Ok in H as (rest & [-> Hf]%IH & H). injection H as <-.
  split; [|by constructor]. csimpl. by destruct (entry_range ty e).
Qed.

Lemma entry_range_bounds ty lo hi e r :
  ty ≠ zero_guid → extent_ok lo hi e → entry_range ty e = Some r →
  lo ≤ range_first r ∧ range_end r ≤ hi + 1 ∧ 0 < range_count r.
Proof.
  unfold entry_range. intros Hty He. case_bool_decide as Et; [|done]. intros [= <-].
  destruct He as [? ?]; [congruence|]. unfold range_end. simpl. lia.
Qed.

Lemma select_Some found n k r :
  0 ≤ k < n → Forall (λ r, 0 < range_count r) found →
  select (E := E) found n k = Ok (Some r) →
  ∃ sorted, sorted ≡ₚ found ∧ zlen sorted = n ∧ sorted !! Z.to_nat k = Some r ∧
    StronglySorted (λ a b, range_end a ≤ range_first b) sorted.
Proof.
  intros Hk Hp H. unfold select in H. case_bool_decide; [done|]. inv_result.
  exists (sort_by range_first found). split_and!; [apply sort_by_perm| |done|].
  - unfold zlen in *. rewrite sort_by_perm. lia.
  - apply (windows_disjoint (λ r, r)); [by rewrite sort_by_perm|].
    by apply check_disjoint_windows.
Qed.

(** The header and entry array that a discovery read and verified. *)
Definition table_length (header : list Z) : Z := u32_at header 80 * u32_at header 84.
Definition loaded (d d' : D) (header array : list Z) : Prop :=
  ∃ d1 raw bytes,
    read_buffer d 1 SECTOR_BYTES = (d1, Ok raw) ∧ check_header (E := E) raw = Ok header ∧
    read_buffer d1 (u64_at header 72) (sectors_of (table_length header) * SECTOR_BYTES) =
      (d', Ok bytes) ∧
    array = take (Z.to_nat (table_length header)) bytes ∧ crc32 array = u32_at header 88.
Definition entries_of (header array : list Z) : list (list Z) :=
  chunks_exact (Z.to_nat (u32_at header 84)) array.

(** The partition area lies between the entry array and the backup header. *)
Definition area_ok (header : list Z) : Prop :=
  2 ≤ u64_at header 72 ∧
  u64_at header 72 + sectors_of (table_length header) ≤ u64_at header 40 ≤ u64_at header 48 ∧
  u64_at header 48 < u64_at header 32.

Lemma find_inv d ty n k d' r :
  find_by_type_ordinal d ty n k = (d', Ok r) →
  ∃ header array, loaded d d' header array ∧ area_ok header ∧ ty ≠ zero_guid ∧ k < n ∧
    Forall (extent_ok (u64_at header 40) (u64_at header 48)) (entries_of header array) ∧
    select (E := E) (omap (entry_range ty) (entries_of header array)) n k = Ok r.
Proof.
  unfold find_by_type_ordinal. destruct (_ || _) eqn:Eg; [done|].
  rewrite !orb_false_iff in Eg. destruct Eg as (((Ety & _) & _) & Ek).
  apply bool_decide_eq_false in Ety.
  destruct (read_buffer d 1 SECTOR_BYTES) as [d1 [raw|e]] eqn:E1; [|done]. cbn [mbind result_bind].
  destruct (check_header raw) as [header|e] eqn:Eh; [|done].
  destruct ((u32_at header 80 =? 0) || _ || _) eqn:Ec; [done|].
  unfold checked_add. destruct (_ <=? U64_MAX) eqn:Eo; [|done].
  destruct ((u64_at header 72 <? 2) || _ || _ || _) eqn:Ea; [done|].
  destruct (read_buffer d1 _ _) as [d2 [bytes|e]] eqn:E2; [|done]. cbn [mbind result_bind].
  intros H. injection H as -> H. apply result_bind_Ok in H as ([] & Hcrc%ensure_Ok & H).
  apply result_bind_Ok in H as (found & Hf & H). apply scan_entries_Ok in Hf as [-> Hf]; [|done].
  exists header, (take (Z.to_nat (table_length header)) bytes). split_and!; try done.
  - exists d1, raw, bytes. split_and!; try done. by apply Z.eqb_eq.
  - unfold area_ok, table_length. lia.
  - lia.
Qed.

(** When a partition is selected by type and ordinal, the header and the
    entry array passed their checksums and extents, the entries of that type
    number exactly as expected, are pairwise disjoint and inside the usable
    area, and the answer is the one of that ordinal by first sector; no
    answer means that no entry has the type. *)
Theorem find_by_type_sound d ty n k d' r :
  0 ≤ k → find_by_type_ordinal d ty n k = (d', Ok r) →
  ∃ header array, loaded d d' header array ∧ area_ok header ∧
  let matching := omap (entry_range ty) (entries_of header array) in
  match r with
  | None => matching = []
  | Some r => ∃ sorted,
      sorted ≡ₚ matching ∧ zlen sorted = n ∧ sorted !! Z.to_nat k = Some r ∧
      StronglySorted (λ a b, range_end a ≤ range_first b) sorted ∧
      ∀ x, x ∈ sorted → u64_at header 40 ≤ range_first x ∧ range_end x ≤ u64_at header 48 + 1 ∧
                        0 < range_count x
  end.
Proof.
  intros Hk (header & array & Hl & Ha & Hty & Hkn & He & Hs)%find_inv.
  exists header, array. split_and!; [done..|]. set (matching := omap _ _) in *. simpl.
  assert (∀ x, x ∈ matching → u64_at header 40 ≤ range_first x ∧
            range_end x ≤ u64_at header 48 + 1 ∧ 0 < range_count x) as Hb.
  { intros x (e & Hin & Hx)%list_elem_of_omap. rewrite Forall_forall in He.
    by eapply entry_range_bounds; [|apply He|]. }
  destruct r as [r|].
  - apply select_Some in Hs as (sorted & Hp & Hn & Hr & Hsort); [|lia|].
    + exists sorted. split_and!; try done. intros x. rewrite Hp. apply Hb.
    + apply Forall_forall. intros x Hx. by apply Hb.
  - unfold select in Hs. case_bool_decide; [done|]. exfalso.
    apply result_bind_Ok in Hs as ([] & Hn%ensure_Ok & Hs).
    apply result_bind_Ok in Hs as ([] & _ & Hs). injection Hs as Hs.
    apply lookup_ge_None in Hs. rewrite sort_by_perm in Hs. unfold zlen in Hn. lia.
Qed.

(** The partition an entry describes, if it is in use. *)
Definition entry_info (entry : list Z) : option PartitionInfo :=
  if bool_decide (take 16 entry = zero_guid) then None
  else Some (mkPartitionInfo (slice 16 16 entry)
               (mkPartitionRange (u64_at entry 32) (u64_at entry 40 - u64_at entry 32 + 1))
               (entry_name entry)).
Definition info_ok (first last : Z) (p : PartitionInfo) : Prop :=
  first ≤ info_first p ∧ range_end (info_range p) ≤ last + 1 ∧ 0 < range_count (info_range p) ∧
  info_guid p ≠ zero_guid.

Lemma inspect_entries_Ok first last ids entries parts :
  inspect_entries (E := E) first last ids entries = Ok parts →
  parts = omap entry_info entries ∧ Forall (info_ok first last) parts ∧
  NoDup (info_guid <$> parts) ∧ ∀ p, p ∈ parts → info_guid p ∉ ids.
Proof.
  revert ids parts. induction entries as [|e entries IH]; intros ids parts H; simpl in H.
  { injection H as <-. split_and!; [done|done|by apply NoDup_nil_2|set_solver]. }
  csimpl. destruct (entry_info e) as [p|] eqn:Ep; unfold entry_info in Ep; case_bool_decide as Ez;
    [done| |by apply IH in H|done].
  injection Ep as <-. destruct ((_ <? first) || _ || _ || _ || _) eqn:Eo; [done|].
  rewrite !orb_false_iff in Eo. destruct Eo as ((((Eo1 & Eo2) & Eo3) & Ez') & Ei).
  apply bool_decide_eq_false in Ez', Ei.
  apply result_bind_Ok in H as (rest & H & Hr). injection Hr as <-.
  apply IH in H as (-> & Hf & Hn & Hd). split_and!; [done| | |].
  - constructor; [|done]. unfold info_ok, info_first, range_end. simpl. split_and!; try done; lia.
  - csimpl. constructor; [|done]. intros (q & Hq & Hin)%list_elem_of_fmap.
    apply (Hd q Hin). rewrite <- Hq. set_solver.
  - intros q [->|Hin]%elem_of_cons; [done|]. specialize (Hd q Hin). set_solver.
Qed.

Lemma inspect_inv d d' t :
  inspect d = (d', Ok t) →
  ∃ header array found, loaded d d' header array ∧ area_ok header ∧
    table_guid t = slice 56 16 header ∧ table_guid t ≠ zero_guid ∧
    table_sectors t = u64_at header 32 + 1 ∧ table_sectors t * SECTOR_BYTES ≤ U64_MAX ∧
    inspect_entries (E := E) (u64_at header 40) (u64_at header 48) ∅ (entries_of header array) = Ok found ∧
    partitions t = sort_by info_first found ∧
    windows2 (λ a b, negb (range_end (info_range a) >? info_first b)) (partitions t) = true.
Proof.
  unfold inspect. destruct (read_buffer d 1 SECTOR_BYTES) as [d1 [raw|e]] eqn:E1; [|done].
  cbn [mbind result_bind]. destruct (check_header raw) as [header|e] eqn:Eh; [|done].
  unfold checked_add at 1. destruct (u64_at header 32 + 1 <=? U64_MAX) eqn:Eo; [|done].
  destruct (bool_decide (checked_mul _ _ _ = None) || _ || _ || _ || _ || _ || _) eqn:Ec; [done|].
  rewrite !orb_false_iff in Ec. destruct Ec as ((((((Em & _) & _) & _) & Efl) & Els) & Est).
  apply bool_decide_eq_false in Em. unfold checked_mul in Em.
  destruct (_ * SECTOR_BYTES <=? U64_MAX) eqn:Em'; [|done].
  rewrite Z.div_mul by done. unfold checked_add.
  destruct (u64_at header 72 + _ <=? U64_MAX) eqn:Ea; [|done].
  destruct ((_ >? _) || bool_decide (slice 56 16 header = zero_guid)) eqn:Eg; [done|].
  apply orb_false_iff in Eg as [Ege Egz]. apply bool_decide_eq_false in Egz.
  destruct (read_buffer d1 _ _) as [d2 [bytes|e]] eqn:E2; [|done]. cbn [mbind result_bind].
  intros H. injection H as -> H. apply result_bind_Ok in H as ([] & Hcrc%ensure_Ok & H).
  apply result_bind_Ok in H as (found & Hf & H).
  apply result_bind_Ok in H as ([] & Hw%ensure_Ok & H). injection H as <-.
  exists header, (take (Z.to_nat (table_length header)) bytes), found. split_and!; try done.
  - exists d1, raw, bytes. split_and!; try done. by apply Z.eqb_eq.
  - unfold area_ok, table_length. lia.
  - by apply Z.leb_le.
Qed.

(** C29: When inspection of a partition table succeeds, the header and the entry
    array passed their checksums and extents, and the partitions are exactly
    the entries in use, sorted by first sector, pairwise disjoint, inside
    the usable area, with distinct nonzero identifiers. *)
Theorem inspect_sound d d' t :
  inspect d = (d', Ok t) →
  ∃ header array, loaded d d' header array ∧ area_ok header ∧
    table_sectors t = u64_at header 32 + 1 ∧ table_sectors t * SECTOR_BYTES ≤ U64_MAX ∧
    partitions t ≡ₚ omap entry_info (entries_of header array) ∧
    StronglySorted (λ a b, range_end (info_range a) ≤ info_first b) (partitions t) ∧
    Forall (info_ok (u64_at header 40) (u64_at header 48)) (partitions t) ∧
    NoDup (info_guid <$> partitions t).
Proof.
  intros (header & array & found & Hl & Ha & _ & _ & Hs & Hm & Hf & Hp & Hw)%inspect_inv.
  apply inspect_entries_Ok in Hf as (-> & Hok & Hn & _).
  assert (partitions t ≡ₚ omap entry_info (entries_of header array)) as Hperm
    by (rewrite Hp; apply sort_by_perm).
  assert (Forall (info_ok (u64_at header 40) (u64_at header 48)) (partitions t)) as Hok'
    by by rewrite Hperm.
  exists header, array. split_and!; try done.
  - apply (windows_disjoint info_range); [|done]. eapply Forall_impl; [done|]. by intros p (_ & _ & ? & _).
  - by rewrite Hperm.
Qed.

(** ** Completeness: a consistent table is accepted *)

Definition disjoint {A} (f : A → PartitionRange) (l : list A) : Prop :=
  NoDup l ∧ ∀ a b, a ∈ l → b ∈ l → a ≠ b →
    range_end (f a) ≤ range_first (f b) ∨ range_end (f b) ≤ range_first (f a).

Lemma disjoint_windows {A} (f : A → PartitionRange) l :
  Forall (λ x, 0 < range_count (f x)) l → disjoint f l →
  windows2 (λ a b, negb (range_end (f a) >? range_first (f b))) (sort_by (range_first ∘ f) l) = true.
Proof.
  intros Hp [Hn Hd]. pose proof (sort_by_sorted (range_first ∘ f) l) as Hs.
  rewrite <- (sort_by_perm (range_first ∘ f)) in Hn, Hp.
  setoid_rewrite <- (sort_by_perm (range_first ∘ f) l) in Hd.
  induction Hs as [|a k Hs IH Ha]; [done|]. destruct k as [|b k]; [done|].
  change (negb (range_end (f a) >? range_first (f b)) &&
    windows2 (λ a b, negb (range_end (f a) >? range_first (f b))) (b :: k) = true).
  apply NoDup_cons in Hn as [Hab Hn]. apply Forall_cons in Hp as [_ Hp].
  apply andb_true_iff. split.
  - apply Forall_cons in Ha as [Ha _]. apply Forall_cons in Hp as [Hb _]. simpl in Ha.
    destruct (Hd a b) as [?|?]; [by left|by right; left| | |]; unfold range_end in *; [|lia|lia].
    intros ->. apply Hab. by left.
  - apply IH; [done|done|]. intros x y Hx Hy. apply Hd; by right.
Qed.

Lemma load_steps d d' header array :
  loaded d d' header array →
  ∃ d1 raw bytes, read_buffer d 1 SECTOR_BYTES = (d1, Ok raw) ∧ check_header (E := E) raw = Ok header ∧
    read_buffer d1 (u64_at header 72)
      (sectors_of (u32_at header 80 * u32_at header 84) * SECTOR_BYTES) = (d', Ok bytes) ∧
    array = take (Z.to_nat (u32_at header 80 * u32_at header 84)) bytes ∧
    (crc32 array =? u32_at header 88) = true.
Proof.
  intros (d1 & raw & bytes & E1 & E2 & E3 & E4 & E5). exists d1, raw, bytes.
  unfold table_length in *. split_and!; [done..|by apply Z.eqb_eq].
Qed.

(** A header whose declared sizes the parser supports. *)
Definition shape_ok (header : list Z) : Prop :=
  1 ≤ u32_at header 80 ≤ 128 ∧ entry_size_ok (u32_at header 84) = true ∧
  (u64_at header 32 + 1) * SECTOR_BYTES ≤ U64_MAX.

Lemma inspect_entries_complete first last ids entries :
  let parts := omap entry_info entries in
  Forall (info_ok first last) parts → NoDup (info_guid <$> parts) →
  (∀ p, p ∈ parts → info_guid p ∉ ids) →
  inspect_entries (E := E) first last ids entries = Ok parts.
Proof.
  revert ids. induction entries as [|e entries IH]; intros ids; csimpl; [done|].
  destruct (entry_info e) as [p|] eqn:Ep; unfold entry_info in Ep; case_bool_decide as Ez;
    [done| |by apply IH|done].
  injection Ep as <-. csimpl. intros [(H1 & H2 & H3 & H4) Hf]%Forall_cons [Hi Hn]%NoDup_cons Hd.
  unfold info_first, range_end in *. simpl in *.
  rewrite (proj2 (Z.ltb_ge _ _)) by lia. rewrite !Z.gtb_ltb, !(proj2 (Z.ltb_ge _ _)) by lia.
  rewrite (bool_decide_eq_false_2 (slice 16 16 e = zero_guid)) by done.
  rewrite bool_decide_eq_false_2 by (eapply (Hd (mkPartitionInfo _ _ _)); by left). simpl.
  rewrite IH; [done|done|done|]. intros q Hq [Hg%elem_of_singleton|Hg]%elem_of_union.
  - apply Hi. rewrite <- Hg. by apply list_elem_of_fmap_2.
  - by apply (Hd q); [right|].
Qed.

(** A table whose header and entry array are intact and supported and whose
    partitions lie in the usable area, are pairwise disjoint and have
    distinct nonzero identifiers is accepted by inspection, with exactly
    those partitions in order. *)
Theorem inspect_complete d d' header array :
  loaded d d' header array → area_ok header → shape_ok header → slice 56 16 header ≠ zero_guid →
  let parts := omap entry_info (entries_of header array) in
  Forall (info_ok (u64_at header 40) (u64_at header 48)) parts → NoDup (info_guid <$> parts) →
  disjoint info_range parts →
  inspect d =
    (d', Ok (mkTable (slice 56 16 header) (u64_at header 32 + 1) (sort_by info_first parts))).
Proof.
  intros (d1 & raw & bytes & E1 & E2 & E3 & E4 & E5)%load_steps Ha Hs Hg parts Hf Hn Hd.
  destruct Ha as (Ha1 & Ha2 & Ha3), Hs as (Hs1 & Hs2 & Hs3). unfold table_length in *.
  assert (Hso : 0 ≤ sectors_of (u32_at header 80 * u32_at header 84)).
  { unfold sectors_of, entry_size_ok, SECTOR_BYTES in *. apply Z.div_pos; lia. }
  unfold inspect. rewrite E1. cbn [mbind result_bind]. rewrite E2. unfold checked_add, checked_mul.
  unfold SECTOR_BYTES in Hs3. rewrite (proj2 (Z.leb_le (u64_at header 32 + 1) _)) by lia.
  rewrite (proj2 (Z.leb_le (_ * SECTOR_BYTES) _)) by (unfold SECTOR_BYTES; lia).
  rewrite bool_decide_eq_false_2 by done. rewrite Hs2, Z.div_mul by done.
  rewrite (proj2 (Z.eqb_neq (u32_at header 80) 0)) by lia.
  rewrite (proj2 (Z.leb_le (u64_at header 72 + _) _)) by lia.
  rewrite !Z.gtb_ltb, Z.geb_leb, !(proj2 (Z.ltb_ge _ _)), (proj2 (Z.leb_gt _ _)) by lia.
  rewrite (bool_decide_eq_false_2 (slice 56 16 header = zero_guid)) by done. simpl orb. cbn iota.
  rewrite E3. cbn [mbind result_bind]. rewrite <- E4, E5. cbn [ensure mbind result_bind].
  fold (entries_of header array). rewrite inspect_entries_complete; [|done|done|set_solver].
  cbn [mbind result_bind]. fold parts. change info_first with (range_first ∘ info_range).
  rewrite (disjoint_windows info_range); [done| |done].
  eapply Forall_impl; [done|]. by intros p (_ & _ & ? & _).
Qed.
End Sound.

(** ** Examples *)

Definition pad (n : nat) (l : list Z) : list Z := l ++ replicate (n - length l) 0.

(** A disk of eight sectors whose table has four slots, two in use. *)
Definition example_type : list Z := replicate 16 1.
Definition example_entry (unique first last : Z) : list Z :=
  pad 128 (example_type ++ replicate 16 unique ++ to_le_bytes 8 first ++ to_le_bytes 8 last ++
           to_le_bytes 8 0 ++ [100; 0; 49; 0]).
Definition example_array : list Z :=
  pad 512 (example_entry 2 5 6 ++ replicate 128 0 ++ example_entry 3 3 4).
(** The header with its checksum field cleared. *)
Definition example_header : list Z :=
  pad 512 (SIGNATURE ++ to_le_bytes 4 65536 ++ to_le_bytes 4 92 ++ to_le_bytes 4 0 ++ to_le_bytes 4 0 ++
           to_le_bytes 8 1 ++ to_le_bytes 8 7 ++ to_le_bytes 8 3 ++ to_le_bytes 8 6 ++
           replicate 16 9 ++ to_le_bytes 8 2 ++ to_le_bytes 4 4 ++ to_le_bytes 4 128 ++
           to_le_bytes 4 (crc32 example_array)).
Definition example_raw : list Z :=
  blit 16 (to_le_bytes 4 (crc32 (take 92 example_header))) example_header.
Definition example_gpt : list Z :=
  pad 512 [] ++ example_raw ++ example_array ++ replicate (5 * 512) 0.

Lemma crc32_detects_witness : crc32 [1; 2; 3] ≠ crc32 [1; 7; 3].
Proof.
  intros H. enough (2 = 7) by done.
  apply (crc32_detects [1] [3] 2 7); [by repeat constructor..|done].
Defined.

Lemma find_by_type_sound_witness :
  find_by_type_ordinal example_gpt example_type 2 0 =
    (example_gpt, Ok (Some (mkPartitionRange 3 2))) ∧
  ∃ header array, loaded example_gpt example_gpt header array ∧ area_ok header.
Proof.
  assert (find_by_type_ordinal example_gpt example_type 2 0 =
    (example_gpt, Ok (Some (mkPartitionRange 3 2)))) as E by by vm_compute.
  split; [done|]. apply find_by_type_sound in E as (header & array & H1 & H2 & _); [|done].
  by exists header, array.
Defined.

Lemma inspect_sound_witness :
  ∃ t, inspect example_gpt = (example_gpt, Ok t) ∧ NoDup (info_guid <$> partitions t) ∧
       zlen (partitions t) = 2.
Proof.
  eexists. assert (inspect example_gpt = (example_gpt, Ok _)) as E by (vm_compute; reflexivity).
  split; [exact E|]. apply inspect_sound in E as (header & array & _ & _ & _ & _ & _ & _ & _ & H).
  by split.
Defined.

Lemma example_loaded : loaded example_gpt example_gpt example_header example_array.
Proof.
  exists example_gpt, example_raw, example_array. split_and!; by vm_compute.
Qed.

Lemma inspect_complete_witness :
  inspect example_gpt =
    (example_gpt, Ok (mkTable (replicate 16 9) 8
      (sort_by info_first (omap entry_info (entries_of example_header example_array))))).
Proof.
  apply (inspect_complete example_gpt example_gpt example_header example_array example_loaded).
  - by vm_compute.
  - by vm_compute.
  - by vm_compute.
  - vm_compute. by repeat constructor.
  - apply (bool_decide_eq_true_1 _). by vm_compute.
  - assert (omap entry_info (entries_of example_header example_array) =
      [mkPartitionInfo (replicate 16 2) (mkPartitionRange 5 2) [100; 49];
       mkPartitionInfo (replicate 16 3) (mkPartitionRange 3 2) [100; 49]]) as -> by by vm_compute.
    split.
    + apply (NoDup_fmap_1 info_guid). apply (bool_decide_eq_true_1 _). by vm_compute.
    + intros a b. rewrite !elem_of_cons, !elem_of_nil. intros [->|[->|[]]] [->|[->|[]]] Hne; try done;
        unfold range_end; simpl; lia.
Defined.
