(* ===== verification/StorageReservation.v ===== *)
(** * Exclusive storage reservations

    Models [filesystem/src/storage_reservation.rs]: the owner's table of disk
    reservations, their revocation, and the admission and publication
    adapters.  The wire decoder, the handle constants and the native object
    constructor belong to other crates and are parameters. *)

From stdpp Require Import relations.
From S2P Require Import Prelude.

Definition MAX_RESERVATIONS : Z := 32.

Record Disk := mkDisk {
  device : Z;
  guid : Z * Z;
  capacity : Z;
  sector_bytes : Z;
  disk_partitions : list (list Z * Z * Z);
}.
#[global] Instance Disk_eq_dec : EqDecision Disk.
Proof. solve_decision. Defined.

Record Reservation := mkReservation { disk : Z; observed : Disk; revoked : bool }.

(** [struct Reservations(HashMap<u64, Reservation>)]. *)
Definition Reservations : Type := gmap Z Reservation.

Definition is_empty (rs : Reservations) : bool := bool_decide (rs = ∅).
Definition contains (rs : Reservations) (object : Z) : bool := bool_decide (is_Some (rs !! object)).

(** The alias test of [acquire]. *)
Definition aliases (d : Z) (o : Disk) (r : Reservation) : bool :=
  (disk r =? d) || (device (observed r) =? device o) ||
  (bool_decide (guid o ≠ (0, 0)) && bool_decide (guid (observed r) = guid o)).

Definition acquire (alloc : bool) (object d : Z) (o : Disk) : stM Reservations Z unit := λ rs,
  if (object =? 0) || contains rs object then (rs, Err 22)
  else if (Z.of_nat (size rs) >=? MAX_RESERVATIONS) ||
          existsb (λ '(_, r), aliases d o r) (map_to_list rs)
  then (rs, Err 16)
  else if negb alloc then (rs, Err 12)
  else (<[object := mkReservation d o false]> rs, Ok tt).

Definition target (rs : Reservations) (object : Z) : result Z Z :=
  ok_or 116 (disk <$> option_keep (λ r, negb (revoked r)) (rs !! object)).

Definition validate (object : Z) (current : result Z Disk) : stM Reservations Z Z := λ rs,
  match rs !! object with
  | None => (rs, Err 9)
  | Some r =>
      if revoked r then (rs, Err 116)
      else
        match current with
        | Ok d =>
            if bool_decide (d = observed r) then (rs, Ok (disk r))
            else (<[object := mkReservation (disk r) (observed r) true]> rs, Err 116)
        | Err _ => (<[object := mkReservation (disk r) (observed r) true]> rs, Err 116)
        end
  end.

Definition release (object : Z) (rs : Reservations) : Reservations * bool :=
  (delete object rs, bool_decide (is_Some (rs !! object))).

Section Admission.
Context {Request : Type} (decode : list Z → option Request).
Context (IPC_DELIVERY_ENDPOINT_HANDLE RIGHTS : Z).

(** [admit]; the handles are their count and delivery flags. *)
Definition admission (bytes : list Z) (count delivery_flags : Z) (authorized : bool) : result Z Request :=
  if negb authorized then Err 13
  else if negb (count =? 0) ||
          negb ((delivery_flags =? 0) || (delivery_flags =? IPC_DELIVERY_ENDPOINT_HANDLE))
  then Err 13
  else ok_or 22 (decode bytes).

(** [publish]: the handle created, or the error and whether the unpublished
    reservation was retired. *)
Definition publish (object : Z) (create : Z → Z → result Z Z) : result Z (Z * Z) * bool :=
  match create object RIGHTS with
  | Ok handle => if negb (handle =? 0) then (Ok (handle, RIGHTS), false) else (Err 5, true)
  | Err e => (Err e, true)
  end.
End Admission.

(** ** Exclusivity *)

Record exclusive (rs : Reservations) : Prop := mkExclusive {
  ex_size : Z.of_nat (size rs) ≤ MAX_RESERVATIONS;
  ex_object : ∀ i r, rs !! i = Some r → i ≠ 0;
  ex_alias : ∀ i j r q, rs !! i = Some r → rs !! j = Some q → i ≠ j →
    disk r ≠ disk q ∧ device (observed r) ≠ device (observed q) ∧
    (guid (observed r) ≠ (0, 0) → guid (observed r) ≠ guid (observed q));
}.

Inductive step : Reservations → Reservations → Prop :=
  | step_acquire rs alloc i d o : step rs (acquire alloc i d o rs).1
  | step_validate rs i current : step rs (validate i current rs).1
  | step_release rs i : step rs (release i rs).1.

Lemma no_alias (rs : Reservations) d o :
  existsb (λ '(_, r), aliases d o r) (map_to_list rs) = false →
  ∀ i r, rs !! i = Some r → aliases d o r = false.
Proof.
  intros H i r Hi. apply not_true_is_false. intros Ha. rewrite <- not_true_iff_false, existsb_exists in H.
  apply H. exists (i, r). split; [|done]. by apply list_elem_of_In, elem_of_map_to_list.
Qed.

Lemma aliases_false d o r :
  aliases d o r = false →
  disk r ≠ d ∧ device (observed r) ≠ device o ∧ (guid o ≠ (0, 0) → guid (observed r) ≠ guid o).
Proof.
  unfold aliases. rewrite !orb_false_iff, andb_false_iff, !bool_decide_eq_false.
  intros [[H1 H2] H3]. split_and!; [lia|lia|]. by destruct H3.
Qed.

Lemma acquire_exclusive alloc i d o rs : exclusive rs → exclusive (acquire alloc i d o rs).1.
Proof.
  intros Hrs. unfold acquire. destruct ((i =? 0) || _) eqn:E1; [done|].
  destruct ((_ >=? _) || _) eqn:E2; [done|]. destruct alloc; [|done]. simpl.
  apply orb_false_iff in E1 as [E1 Ec]. unfold contains in Ec. apply bool_decide_eq_false in Ec.
  apply orb_false_iff in E2 as [E2 Ea]. pose proof (no_alias _ _ _ Ea) as Hna.
  assert (rs !! i = None) as Hi by by apply eq_None_not_Some. destruct Hrs as [H1 H2 H3]. split.
  - unfold Reservations in *. rewrite map_size_insert_None by done. lia.
  - intros j r [[-> _]|[_ Hj]]%lookup_insert_Some; [lia|by eapply H2].
  - intros j k r q [[<- <-]|[Hij Hj]]%lookup_insert_Some [[<- <-]|[Hik Hk]]%lookup_insert_Some Hne; try done.
    + specialize (Hna _ _ Hk). apply aliases_false in Hna as (? & ? & Hg). simpl. split_and!; [congruence..|].
      intros Hz E. by apply Hg.
    + specialize (Hna _ _ Hj). apply aliases_false in Hna as (? & ? & Hg). simpl. split_and!; [done..|].
      intros Hz E. apply Hg; congruence.
    + by apply (H3 j k).
Qed.

(** Revoking a reservation keeps what it reserves. *)
Lemma revoke_exclusive (rs : Reservations) i r :
  rs !! i = Some r → exclusive rs → exclusive (<[i := mkReservation (disk r) (observed r) true]> rs).
Proof.
  intros Hi [H1 H2 H3].
  assert (∀ j q, (<[i := mkReservation (disk r) (observed r) true]> rs) !! j = Some q →
          ∃ q0, rs !! j = Some q0 ∧ disk q = disk q0 ∧ observed q = observed q0) as Hl.
  { intros j q [[<- <-]|[_ Hj]]%lookup_insert_Some; [by exists r|by exists q]. }
  split.
  - unfold Reservations in *. by rewrite map_size_insert_Some by (by eexists).
  - intros j q (q0 & Hj & _)%Hl. by eapply H2.
  - intros j k q p (q0 & Hj & -> & ->)%Hl (p0 & Hk & -> & ->)%Hl. by apply (H3 j k).
Qed.

Lemma validate_exclusive i current rs : exclusive rs → exclusive (validate i current rs).1.
Proof.
  intros Hrs. unfold validate. destruct (rs !! i) as [r|] eqn:E; [|done].
  destruct (revoked r); [done|]. destruct current as [d|e]; simpl.
  - case_bool_decide; [done|]. by apply revoke_exclusive.
  - by apply revoke_exclusive.
Qed.

Lemma release_exclusive i rs : exclusive rs → exclusive (release i rs).1.
Proof.
  intros [H1 H2 H3]. simpl. split.
  - unfold Reservations in *. rewrite map_size_delete. destruct (rs !! i); simpl; lia.
  - intros j r [_ Hj]%lookup_delete_Some. by eapply H2.
  - intros j k r q [_ Hj]%lookup_delete_Some [_ Hk]%lookup_delete_Some. by apply (H3 j k).
Qed.

(** C34: In every reachable table of storage reservations, at most the maximum
    number of reservations exist, and no two of them share a disk, a device
    or a nonzero disk identifier. *)
Theorem reservations_exclusive rs : rtc step ∅ rs → exclusive rs.
Proof.
  intros H. assert (exclusive ∅) as H0 by (split; [done|set_solver|set_solver]).
  induction H as [|x y z [] _ IH]; [done|..]; apply IH.
  - by apply acquire_exclusive.
  - by apply validate_exclusive.
  - by apply release_exclusive.
Qed.

(** A step other than the release of [i] leaves a revoked [i] revoked. *)
Lemma step_revoked rs rs' i r :
  rs !! i = Some r → revoked r = true → step rs rs' →
  rs' !! i = Some r ∨ rs' = (release i rs).1.
Proof.
  intros Hi Hr Hs. inversion Hs as [rs0 alloc j d o|rs0 j current|rs0 j]; subst rs0 rs'; clear Hs.
  - left. unfold acquire, contains. destruct (decide (j = i)) as [->|Hne].
    + rewrite (bool_decide_eq_true_2 (is_Some (rs !! i))) by (by eexists). by rewrite orb_true_r.
    + destruct (_ || _); [done|]. destruct (_ || _); [done|]. destruct alloc; [|done]. simpl.
      unfold Reservations. by rewrite lookup_insert_ne.
  - left. unfold validate. destruct (decide (j = i)) as [->|Hne].
    + by rewrite Hi, Hr.
    + destruct (rs !! j) as [q|]; [|done]. destruct (revoked q); [done|].
      destruct current as [d|e]; [case_bool_decide; [done|]|]; simpl; unfold Reservations; by rewrite lookup_insert_ne.
  - destruct (decide (j = i)) as [->|Hne]; [by right|left]. simpl. unfold Reservations. by rewrite lookup_delete_ne.
Qed.

(** A revoked reservation stays revoked and refuses every use, whatever is
    observed of the disk later, until it is itself released. *)
Theorem revocation_permanent rs rs' i r :
  rs !! i = Some r → revoked r = true → rtc step rs rs' →
  (rs' !! i = Some r ∧ target rs' i = Err 116 ∧
   ∀ current, validate i current rs' = (rs', Err 116)) ∨
  ∃ mid, mid !! i = Some r ∧ rtc step rs mid ∧ rtc step (release i mid).1 rs'.
Proof.
  intros Hi Hr H. induction H as [rs|rs rs1 rs' Hs Hrest IH].
  - left. unfold target, validate. rewrite Hi. simpl. by rewrite Hr.
  - pose proof (step_revoked _ _ _ _ Hi Hr Hs) as [Hk| ->].
    + destruct (IH Hk) as [?|(mid & ? & ? & ?)]; [by left|right].
      exists mid. split_and!; [done|by eapply rtc_l|done].
    + right. by exists rs.
Qed.

(** ** Examples *)

Definition example_disk (n : Z) : Disk := mkDisk n (n, n) 4096 512 [].
(** Two disks reserved, the first observed to have changed since. *)
Definition example_reserved : Reservations :=
  (acquire true 2 20 (example_disk 2) (acquire true 1 10 (example_disk 1) ∅).1).1.
Definition example_revoked : Reservations := (validate 1 (Ok (example_disk 3)) example_reserved).1.

Lemma example_steps : rtc step ∅ example_revoked.
Proof.
  eapply rtc_l; [apply (step_acquire _ true 1 10 (example_disk 1))|].
  eapply rtc_l; [apply (step_acquire _ true 2 20 (example_disk 2))|].
  apply rtc_once, step_validate.
Qed.

Lemma reservations_exclusive_witness : size example_revoked = 2%nat ∧ exclusive example_revoked.
Proof. split; [by vm_compute|]. apply reservations_exclusive, example_steps. Defined.

Lemma revocation_permanent_witness :
  target example_revoked 1 = Err 116 ∧ (validate 1 (Ok (example_disk 1)) example_revoked).2 = Err 116.
Proof.
  destruct (revocation_permanent example_revoked example_revoked 1
    (mkReservation 10 (example_disk 1) true)) as [(_ & H1 & H2)|(mid & Hm & _)];
    [by vm_compute|done|done| |by split; vm_compute].
  split; [done|]. by rewrite H2.
Defined.
