(* ===== verification/PermissionPrompt.v ===== *)
(** * Permission prompt messages

    Models [permission-prompt-protocol/src/lib.rs]: the binary encoding of the
    requests that ask a user for network, directory or storage access.  A
    buffer is a list of byte values; a [&str] is its bytes, well-formed UTF-8
    in a request of the right type ([typed_request]). *)

From S2P Require Import Prelude Text.

Definition MAX_MESSAGE_LEN : Z := 1024.
(** [b"MPRMPT01"]. *)
Definition MAGIC : list Z := [77; 80; 82; 77; 80; 84; 48; 49].
Definition HEADER_LEN : nat := 24.

Inductive StorageAction := Use | Create | Delete.
Definition action_code (a : StorageAction) : Z :=
  match a with Use => 1 | Create => 2 | Delete => 3 end.

Inductive PromptRequest :=
  | Network (token : Z) (application : str)
  | Directory (token : Z) (application path : str) (writable : bool)
  | Storage (token : Z) (application : str) (action : StorageAction) (target : str).

Inductive ProtocolError := Invalid | BufferTooSmall.

(** [str::as_bytes], and the string of some bytes. *)
Definition as_bytes (s : str) : list Z := byte <$> s.
Definition of_bytes (l : list Z) : str := chr <$> l.

(** The tuple at the head of [encode]. *)
Record Fields := mkFields {
  kind : Z;
  detail : Z;
  token_of : Z;
  application_of : str;
  path_of : str;
}.
Definition fields (r : PromptRequest) : Fields :=
  match r with
  | Network token application => mkFields 1 0 token application []
  | Directory token application path writable =>
      mkFields 2 (if writable then 1 else 0) token application path
  | Storage token application action target => mkFields 3 (action_code action) token application target
  end.

Definition has_nul (s : str) : bool := existsb (λ c, byte c =? 0) s.

(** [PromptRequest::encode]: the output buffer afterwards and the length. *)
Definition encode (r : PromptRequest) (output : list Z) : list Z * result ProtocolError Z :=
  let f := fields r in
  if (token_of f =? 0) || bool_decide (application_of f = []) ||
     (zlen (application_of f) >? U16_MAX) || (zlen (path_of f) >? U16_MAX) ||
     has_nul (path_of f) || has_nul (application_of f)
  then (output, Err Invalid)
  else
    let length_ := Z.of_nat HEADER_LEN + zlen (application_of f) + zlen (path_of f) in
    if (length_ >? MAX_MESSAGE_LEN) || (zlen output <? length_) then (output, Err BufferTooSmall)
    else
      let output := blit 0 MAGIC output in
      let output := blit 8 [kind f] output in
      let output := blit 9 [detail f] output in
      let output := blit 10 (to_le_bytes 2 (zlen (application_of f))) output in
      let output := blit 12 (to_le_bytes 2 (zlen (path_of f))) output in
      let output := blit 14 [0; 0] output in
      let output := blit 16 (to_le_bytes 8 (token_of f)) output in
      let output := blit HEADER_LEN (as_bytes (application_of f)) output in
      let output := blit (HEADER_LEN + length (application_of f)) (as_bytes (path_of f)) output in
      (output, Ok length_).

(** The final [match] of [decode]. *)
Definition decode_body (kind detail token : Z) (application path : str)
    : result ProtocolError PromptRequest :=
  let present := negb (bool_decide (path = [])) in
  if (kind =? 1) && (detail =? 0) && negb present then Ok (Network token application)
  else if (kind =? 2) && ((0 <=? detail) && (detail <=? 1)) && present
  then Ok (Directory token application path (detail =? 1))
  else if (kind =? 3) && ((1 <=? detail) && (detail <=? 3)) && present
  then Ok (Storage token application
             (if detail =? 1 then Use else if detail =? 2 then Create else Delete) path)
  else Err Invalid.

(** [PromptRequest::decode]. *)
Definition decode (input : list Z) : result ProtocolError PromptRequest :=
  ensure (negb ((zlen input <? Z.of_nat HEADER_LEN) || negb (bool_decide (take 8 input = MAGIC)) ||
                negb (bool_decide (slice 14 2 input = [0; 0])))) Invalid;;
  let application_len := from_le_bytes (slice 10 2 input) in
  let path_len := from_le_bytes (slice 12 2 input) in
  let expected := Z.of_nat HEADER_LEN + application_len + path_len in
  ensure (negb (negb (zlen input =? expected) || (expected >? MAX_MESSAGE_LEN) ||
                (application_len =? 0))) Invalid;;
  let token := from_le_bytes (slice 16 8 input) in
  ensure (negb (token =? 0)) Invalid;;
  let application := of_bytes (slice HEADER_LEN (Z.to_nat application_len) input) in
  ensure (from_utf8 application) Invalid;;
  let path := of_bytes (drop (HEADER_LEN + Z.to_nat application_len) input) in
  ensure (from_utf8 path) Invalid;;
  decode_body (default 0 (input !! 8%nat)) (default 0 (input !! 9%nat)) token application path.

(** ** The wire form *)

(** The bytes of a request, and the requests whose fields have their types. *)
Definition prompt_header (f : Fields) : list Z :=
  MAGIC ++ [kind f; detail f] ++ to_le_bytes 2 (zlen (application_of f)) ++
  to_le_bytes 2 (zlen (path_of f)) ++ [0; 0] ++ to_le_bytes 8 (token_of f).
Definition prompt_wire (r : PromptRequest) : list Z :=
  prompt_header (fields r) ++ as_bytes (application_of (fields r)) ++ as_bytes (path_of (fields r)).
Definition typed_request (r : PromptRequest) : Prop :=
  is_u64 (token_of (fields r)) ∧ from_utf8 (application_of (fields r)) = true ∧
  from_utf8 (path_of (fields r)) = true.

(** What [encode] and [decode] each require of the fields. *)
Definition sendable (r : PromptRequest) : Prop :=
  let f := fields r in
  token_of f ≠ 0 ∧ application_of f ≠ [] ∧ has_nul (path_of f) = false ∧
  has_nul (application_of f) = false ∧
  zlen (application_of f) ≤ U16_MAX ∧ zlen (path_of f) ≤ U16_MAX.
(** A directory or storage request names its object. *)
Definition names_object (r : PromptRequest) : Prop :=
  match r with Network _ _ => True | Directory _ _ path _ | Storage _ _ _ path => path ≠ [] end.

Lemma length_as_bytes s : length (as_bytes s) = length s.
Proof. apply length_fmap. Qed.
Lemma of_as_bytes s : of_bytes (as_bytes s) = s.
Proof.
  unfold of_bytes, as_bytes. rewrite <- list_fmap_compose. rewrite <- (list_fmap_id s) at 2.
  apply list_fmap_ext. intros _ c _. apply chr_byte.
Qed.
Lemma as_of_bytes l : Forall is_u8 l → as_bytes (of_bytes l) = l.
Proof.
  intros H. unfold of_bytes, as_bytes. rewrite <- list_fmap_compose. rewrite <- (list_fmap_id l) at 2.
  apply list_fmap_ext. intros i b Hb. eapply Forall_lookup_1 in H; [|done].
  simpl. apply byte_chr. simpl. unfold is_u8, U8_MAX in H. lia.
Qed.
Lemma length_prompt_header f : length (prompt_header f) = HEADER_LEN.
Proof. unfold prompt_header. by rewrite !length_app, !length_to_le_bytes. Qed.
Lemma length_prompt_wire r :
  zlen (prompt_wire r) =
  Z.of_nat HEADER_LEN + zlen (application_of (fields r)) + zlen (path_of (fields r)).
Proof.
  unfold prompt_wire, zlen. rewrite !length_app, !length_as_bytes, length_prompt_header. lia.
Qed.

(** The writes of [encode] follow each other. *)
Lemma encode_writes f output :
  blit (HEADER_LEN + length (application_of f)) (as_bytes (path_of f))
    (blit HEADER_LEN (as_bytes (application_of f))
      (blit 16 (to_le_bytes 8 (token_of f))
        (blit 14 [0; 0]
          (blit 12 (to_le_bytes 2 (zlen (path_of f)))
            (blit 10 (to_le_bytes 2 (zlen (application_of f)))
              (blit 9 [detail f] (blit 8 [kind f] (blit 0 MAGIC output)))))))) =
  let bytes := prompt_header f ++ as_bytes (application_of f) ++ as_bytes (path_of f) in
  bytes ++ drop (length bytes) output.
Proof.
  cbv zeta. rewrite <- (app_nil_l output) at 1. rewrite (blit_app [] MAGIC) by done.
  rewrite !blit_app by (rewrite ?length_app, ?length_to_le_bytes, ?length_as_bytes; done).
  rewrite !drop_drop, !length_app. unfold prompt_header. rewrite <- !app_assoc, !length_to_le_bytes.
  by repeat f_equal.
Qed.

Lemma encode_invalid r :
  (let f := fields r in
   (token_of f =? 0) || bool_decide (application_of f = []) ||
   (zlen (application_of f) >? U16_MAX) || (zlen (path_of f) >? U16_MAX) ||
   has_nul (path_of f) || has_nul (application_of f)) = false ↔ sendable r.
Proof.
  unfold sendable. cbv zeta. rewrite !orb_false_iff, bool_decide_eq_false, Z.eqb_neq, !Z.gtb_ltb, !Z.ltb_ge.
  tauto.
Qed.

(** ** Decoding the wire form *)

Lemma decode_body_fields r :
  let f := fields r in
  decode_body (kind f) (detail f) (token_of f) (application_of f) (path_of f) = Ok r ↔ names_object r.
Proof.
  destruct r as [t a|t a p w|t a [] p]; unfold decode_body; simpl; [done|..];
    destruct (bool_decide (p = [])) eqn:E;
    first [apply bool_decide_eq_true in E|apply bool_decide_eq_false in E]; try destruct w; done.
Qed.

Lemma decode_wire_prompt r :
  typed_request r → sendable r → zlen (prompt_wire r) ≤ MAX_MESSAGE_LEN →
  decode (prompt_wire r) =
  let f := fields r in decode_body (kind f) (detail f) (token_of f) (application_of f) (path_of f).
Proof.
  intros (Ht & Ha & Hp) (Ht0 & Ha0 & _ & _ & Hal & Hpl) Hlen. rewrite length_prompt_wire in Hlen.
  pose proof (length_prompt_wire r) as Hl. set (f := fields r) in *. cbv zeta.
  pose proof (zlen_nonneg (application_of f)) as Hz1. pose proof (zlen_nonneg (path_of f)) as Hz2.
  assert (slice 10 2 (prompt_wire r) = to_le_bytes 2 (zlen (application_of f)) ∧
          slice 12 2 (prompt_wire r) = to_le_bytes 2 (zlen (path_of f)) ∧
          slice 16 8 (prompt_wire r) = to_le_bytes 8 (token_of f) ∧
          slice 14 2 (prompt_wire r) = [0; 0]) as (E1 & E2 & E3 & E4) by done.
  unfold decode. rewrite E1, E2, E3, E4, !from_to_le_bytes by (simpl; unfold is_u64 in Ht; width).
  rewrite Hl, Z.eqb_refl. rewrite (bool_decide_eq_true_2 (take 8 _ = MAGIC)) by done.
  rewrite (proj2 (Z.ltb_ge _ _)), Z.gtb_ltb, (proj2 (Z.ltb_ge _ _)) by lia.
  assert (zlen (application_of f) ≠ 0) as Hne.
  { destruct (application_of f) as [|c s]; [done|]. rewrite zlen_cons. pose proof (zlen_nonneg s). lia. }
  rewrite (proj2 (Z.eqb_neq _ _) Hne), (proj2 (Z.eqb_neq _ _) Ht0).
  cbn [orb negb ensure mbind result_bind]. rewrite bool_decide_eq_true_2 by done.
  cbn [orb negb ensure mbind result_bind].
  unfold zlen. rewrite Nat2Z.id. unfold prompt_wire. fold f.
  rewrite slice_app by (by rewrite ?length_prompt_header, ?length_as_bytes).
  rewrite app_assoc, drop_app_length'
    by (by rewrite length_app, length_prompt_header, length_as_bytes).
  by rewrite !of_as_bytes, Ha, Hp.
Qed.

Lemma decode_body_Ok k d t a p r :
  decode_body k d t a p = Ok r → fields r = mkFields k d t a p ∧ names_object r.
Proof.
  unfold decode_body. destruct (bool_decide (p = [])) eqn:E;
    [apply bool_decide_eq_true in E|apply bool_decide_eq_false in E]; simpl;
    rewrite ?andb_false_r, ?andb_true_r.
  - destruct ((k =? 1) && (d =? 0)) eqn:Ek; [|done]. intros [= <-]. subst p.
    apply andb_prop in Ek as [->%Z.eqb_eq ->%Z.eqb_eq]. done.
  - destruct ((k =? 2) && _) eqn:E2; [|destruct ((k =? 3) && _) eqn:E3; [|done]]; intros [= <-];
      (split; [|done]); simpl; [assert (k = 2) as -> by lia|assert (k = 3) as -> by lia].
    + f_equal. destruct (d =? 1) eqn:Ed; lia.
    + f_equal. destruct (d =? 1) eqn:Ed; [simpl; lia|]. destruct (d =? 2) eqn:Ed2; simpl; lia.
Qed.

Lemma le_slice i n l :
  Forall is_u8 l → (i + n ≤ length l)%nat →
  to_le_bytes n (from_le_bytes (slice i n l)) = slice i n l.
Proof.
  intros Hu Hl. assert (length (slice i n l) = n) as E by (rewrite length_slice; lia).
  rewrite <- E at 1. apply to_from_le_bytes. by apply Forall_take, Forall_drop.
Qed.
Lemma slice_two l i :
  (i + 2 ≤ length l)%nat → slice i 2 l = [default 0 (l !! i); default 0 (l !! S i)].
Proof.
  intros Hl. destruct (lookup_lt_is_Some_2 l i) as [a Ha]; [lia|].
  destruct (lookup_lt_is_Some_2 l (S i)) as [b Hb]; [lia|]. unfold slice.
  rewrite (drop_S _ _ _ Ha), (drop_S _ _ _ Hb), Ha, Hb. done.
Qed.

(** The header of an accepted input. *)
Lemma header_of_input input k d :
  Forall is_u8 input → (HEADER_LEN ≤ length input)%nat → take 8 input = MAGIC →
  slice 14 2 input = [0; 0] → k = default 0 (input !! 8%nat) → d = default 0 (input !! 9%nat) →
  take HEADER_LEN input =
  MAGIC ++ [k; d] ++ to_le_bytes 2 (from_le_bytes (slice 10 2 input)) ++
  to_le_bytes 2 (from_le_bytes (slice 12 2 input)) ++ [0; 0] ++
  to_le_bytes 8 (from_le_bytes (slice 16 8 input)).
Proof.
  intros Hu Hl Hm Hz -> ->. unfold HEADER_LEN in *.
  rewrite !le_slice by (done || lia). rewrite <- Hm, <- Hz.
  rewrite <- (slice_two input 8) by lia. unfold slice.
  change 24%nat with (8 + (2 + (2 + (2 + (2 + 8)))))%nat.
  rewrite <- !take_take_drop, !drop_drop. done.
Qed.

(** ** Guarantees *)

(** What [encode] did. *)
Definition encode_post (r : PromptRequest) (output : list Z) (out : list Z * result ProtocolError Z)
    : Prop :=
  let '(output', res) := out in
  match res with
  | Ok n => sendable r ∧ n = zlen (prompt_wire r) ∧ n ≤ MAX_MESSAGE_LEN ∧
            output' = prompt_wire r ++ drop (length (prompt_wire r)) output ∧ n ≤ zlen output
  | Err Invalid => output' = output ∧ ¬ sendable r
  | Err BufferTooSmall => output' = output ∧ sendable r ∧
      (MAX_MESSAGE_LEN < zlen (prompt_wire r) ∨ zlen output < zlen (prompt_wire r))
  end.

Lemma prompt_encode_spec r output : encode_post r output (encode r output).
Proof.
  unfold encode_post, encode. pose proof (encode_invalid r) as Hi. cbv zeta in Hi.
  destruct (_ || has_nul (application_of (fields r))).
  { split; [done|]. intros H%Hi. done. }
  rewrite length_prompt_wire. destruct (_ || _) eqn:E; [split_and!; [done|by apply Hi|lia]|].
  rewrite encode_writes. split_and!; [by apply Hi|done|lia|done|lia].
Qed.

(** Encoding a permission prompt writes exactly its wire form at the start
    of the buffer and returns its length, or reports an unsendable request
    or a buffer that is too small and leaves the buffer unchanged. *)
Theorem prompt_encode_exact r output : encode_post r output (encode r output).
Proof. apply prompt_encode_spec. Qed.

(** Decoding the bytes written by a successful encoding gives the request
    back when it names its object, and refuses it otherwise. *)
Theorem prompt_roundtrip r output output' n :
  typed_request r → encode r output = (output', Ok n) →
  decode (take (Z.to_nat n) output') = Ok r ↔ names_object r.
Proof.
  intros Hty E. pose proof (prompt_encode_spec r output) as H. rewrite E in H.
  destruct H as (Hs & -> & Hm & -> & _). unfold zlen. rewrite Nat2Z.id, take_app_length.
  rewrite decode_wire_prompt by done. apply decode_body_fields.
Qed.

(** Every request the decoder accepts is well-formed, names its object, has
    an application and a nonzero token, and its wire form is exactly the
    input, within the size limit. *)
Theorem prompt_decode_canonical input r :
  Forall is_u8 input → decode input = Ok r →
  input = prompt_wire r ∧ typed_request r ∧ names_object r ∧ token_of (fields r) ≠ 0 ∧
  application_of (fields r) ≠ [] ∧ zlen input ≤ MAX_MESSAGE_LEN.
Proof.
  intros Hu H. unfold decode in H.
  apply result_bind_Ok in H as ([] & H1%ensure_Ok & H). apply result_bind_Ok in H as ([] & H2%ensure_Ok & H).
  apply result_bind_Ok in H as ([] & H3%ensure_Ok & H). apply result_bind_Ok in H as ([] & H4%ensure_Ok & H).
  apply result_bind_Ok in H as ([] & H5%ensure_Ok & H).
  apply decode_body_Ok in H as [Hf Hn].
  rewrite !negb_orb, !negb_involutive, !andb_true_iff, !bool_decide_eq_true in H1.
  destruct H1 as ((H1 & Hm) & Hz). assert (HEADER_LEN ≤ length input)%nat as Hl by (unfold zlen in *; lia).
  rewrite !negb_orb, negb_involutive, !andb_true_iff in H2. destruct H2 as ((Hlen & Hmax) & Ha0).
  pose proof (from_le_bytes_bound (slice 10 2 input) ltac:(by apply Forall_take, Forall_drop)) as Hb1.
  pose proof (from_le_bytes_bound (slice 12 2 input) ltac:(by apply Forall_take, Forall_drop)) as Hb2.
  pose proof (from_le_bytes_bound (slice 16 8 input) ltac:(by apply Forall_take, Forall_drop)) as Hb3.
  set (al := from_le_bytes (slice 10 2 input)) in *. set (pl := from_le_bytes (slice 12 2 input)) in *.
  assert (zlen (slice HEADER_LEN (Z.to_nat al) input) = al) as Hal.
  { unfold zlen in *. rewrite length_slice. lia. }
  assert (zlen (drop (HEADER_LEN + Z.to_nat al) input) = pl) as Hpl.
  { unfold zlen in *. rewrite length_drop. lia. }
  unfold prompt_wire, typed_request, prompt_header. rewrite Hf.
  cbn [token_of application_of path_of kind detail].
  rewrite !as_of_bytes by (try apply Forall_take; by apply Forall_drop).
  assert (∀ l, zlen (of_bytes l) = zlen l) as Ho by (intros l; unfold zlen, of_bytes; by rewrite length_fmap).
  rewrite !Ho, Hal, Hpl. split_and!; try done.
  - pose proof (header_of_input input _ _ Hu Hl Hm Hz eq_refl eq_refl) as Hh.
    etrans; [symmetry; apply (take_drop HEADER_LEN)|]. rewrite Hh. rewrite <- !app_assoc.
    repeat f_equal. unfold slice. rewrite <- drop_drop. symmetry. apply take_drop.
  - unfold is_u64, U64_MAX. unfold zlen in Hb3. rewrite length_slice in Hb3.
    rewrite Nat.min_l in Hb3 by (unfold HEADER_LEN in Hl; lia). simpl in Hb3. lia.
  - lia.
  - intros E. apply (f_equal zlen) in E. rewrite Ho, Hal in E. unfold zlen in E. simpl in E. lia.
  - lia.
Qed.

(** ** Examples *)

Definition example_prompt : PromptRequest := Directory 43 (lit "Chromium.app") (lit "/home") true.
(** A request without its object is encoded, and refused by the decoder. *)
Definition example_unnamed : PromptRequest := Directory 43 (lit "Chromium.app") [] true.

Lemma prompt_roundtrip_witness :
  (∃ output, encode example_prompt (replicate 64 0) = (output, Ok 41) ∧
             decode (take 41 output) = Ok example_prompt) ∧
  (∃ output, encode example_unnamed (replicate 64 0) = (output, Ok 36) ∧
             decode (take 36 output) ≠ Ok example_unnamed).
Proof.
  split.
  - destruct (encode example_prompt (replicate 64 0)) as [output res] eqn:E. exists output.
    assert (res = Ok 41) as -> by (vm_compute in E; by injection E). split; [done|].
    apply (prompt_roundtrip example_prompt (replicate 64 0) output 41); by vm_compute.
  - destruct (encode example_unnamed (replicate 64 0)) as [output res] eqn:E. exists output.
    assert (res = Ok 36) as -> by (vm_compute in E; by injection E). split; [done|].
    intros H. by apply (prompt_roundtrip example_unnamed (replicate 64 0) output 36) in H;
      [|by vm_compute|].
Defined.

Lemma prompt_decode_canonical_witness :
  decode (prompt_wire example_prompt) = Ok example_prompt ∧ typed_request example_prompt.
Proof.
  assert (decode (prompt_wire example_prompt) = Ok example_prompt) as E by by vm_compute.
  split; [done|]. apply (prompt_decode_canonical (prompt_wire example_prompt)); [|done].
  by repeat constructor.
Defined.
