(* ===== verification/Pty.v ===== *)
(** * Pseudo-terminal line discipline

    Models the [PseudoTerminal] part of [posix/src/pty.rs] and the editing of
    [posix/src/pty/editing.rs]: the input, pending-line, output and echo
    queues of one terminal and what writing and reading on its two sides does
    to them.  The fields that the discipline works on are grouped in [Line];
    whether the two sides are open is an argument of the operations that ask.

    The termios flags, the indices of the control characters and the signal
    numbers are constants of the protocol crate ([TerminalProtocol]).  The
    control characters are an array of bytes read at those indices. *)

From S2P Require Import Prelude Text.

Class TerminalProtocol := {
  TERMINAL_IFLAG_ISTRIP : Z; TERMINAL_IFLAG_IUTF8 : Z; TERMINAL_IFLAG_INLCR : Z;
  TERMINAL_IFLAG_IGNCR : Z; TERMINAL_IFLAG_ICRNL : Z; TERMINAL_IFLAG_IXON : Z;
  TERMINAL_IFLAG_IXANY : Z;
  TERMINAL_OFLAG_OPOST : Z; TERMINAL_OFLAG_ONLCR : Z;
  TERMINAL_LFLAG_ICANON : Z; TERMINAL_LFLAG_ISIG : Z; TERMINAL_LFLAG_ECHO : Z;
  TERMINAL_LFLAG_ECHOE : Z; TERMINAL_LFLAG_ECHOK : Z; TERMINAL_LFLAG_ECHONL : Z;
  TERMINAL_LFLAG_TOSTOP : Z; TERMINAL_LFLAG_IEXTEN : Z; TERMINAL_LFLAG_NOFLSH : Z;
  TERMINAL_CFLAG_CS8 : Z; TERMINAL_CFLAG_CREAD : Z;
  TERMINAL_CC_VINTR : nat; TERMINAL_CC_VQUIT : nat; TERMINAL_CC_VSUSP : nat;
  TERMINAL_CC_VERASE : nat; TERMINAL_CC_VKILL : nat; TERMINAL_CC_VEOF : nat;
  TERMINAL_CC_VEOL : nat; TERMINAL_CC_VEOL2 : nat; TERMINAL_CC_VSTART : nat;
  TERMINAL_CC_VSTOP : nat; TERMINAL_CC_VLNEXT : nat; TERMINAL_CC_VWERASE : nat;
  TERMINAL_CC_VREPRINT : nat; TERMINAL_CC_VMIN : nat; TERMINAL_CC_VTIME : nat;
  SIGNAL_INT : Z; SIGNAL_QUIT : Z; SIGNAL_TSTP : Z; SIGNAL_WINCH : Z; SIGNAL_HUP : Z;
}.

Definition EIO : Z := 5.
Definition EACCES : Z := 13.
Definition EAGAIN : Z := 11.
Definition EBADF : Z := 9.
Definition EINVAL : Z := 22.
Definition ESPIPE : Z := 29.
Definition ENOTSUP : Z := 95.

Definition BUFFER_CAPACITY : Z := 64 * 1024.
Definition CANONICAL_LINE_CAPACITY : Z := BUFFER_CAPACITY.

(** The bytes with a meaning of their own. *)
Definition NL : Z := 10.
Definition CRB : Z := 13.
Definition BS : Z := 8.
Definition SP : Z := 32.

(** [TerminalAttributes] of the protocol crate. *)
Record TerminalAttributes := mkAttributes {
  input_flags : Z;
  output_flags : Z;
  local_flags : Z;
  control_flags : Z;
  control_characters : nat → Z;
}.

(** [flags & mask != 0]. *)
Definition flag (flags mask : Z) : bool := negb (Z.land flags mask =? 0).

Record InputRecord := mkInputRecord { remaining : Z; canonical : bool }.

Record Line := mkLine {
  input : list Z;
  input_records : list InputRecord;
  canonical_input : list Z;
  output : list Z;
  edit_echo : list Z;
  attributes : TerminalAttributes;
  output_stopped : bool;
  output_manually_stopped : bool;
  literal_next : bool;
}.

Definition set_input (l : Line) (i : list Z) (r : list InputRecord) : Line :=
  mkLine i r (canonical_input l) (output l) (edit_echo l) (attributes l) (output_stopped l)
    (output_manually_stopped l) (literal_next l).
Definition set_canonical_input (l : Line) (c : list Z) : Line :=
  mkLine (input l) (input_records l) c (output l) (edit_echo l) (attributes l) (output_stopped l)
    (output_manually_stopped l) (literal_next l).
Definition set_output (l : Line) (o e : list Z) : Line :=
  mkLine (input l) (input_records l) (canonical_input l) o e (attributes l) (output_stopped l)
    (output_manually_stopped l) (literal_next l).
Definition set_stopped (l : Line) (s m : bool) : Line :=
  mkLine (input l) (input_records l) (canonical_input l) (output l) (edit_echo l) (attributes l) s m
    (literal_next l).
Definition set_literal_next (l : Line) (b : bool) : Line :=
  mkLine (input l) (input_records l) (canonical_input l) (output l) (edit_echo l) (attributes l)
    (output_stopped l) (output_manually_stopped l) b.
Definition set_line_attributes (l : Line) (a : TerminalAttributes) : Line :=
  mkLine (input l) (input_records l) (canonical_input l) (output l) (edit_echo l) a
    (output_stopped l) (output_manually_stopped l) (literal_next l).

Section Discipline.
Context {TP : TerminalProtocol}.

Definition SUPPORTED_INPUT_FLAGS : Z :=
  Z.lor (Z.lor (Z.lor (Z.lor (Z.lor (Z.lor TERMINAL_IFLAG_ISTRIP TERMINAL_IFLAG_IUTF8)
    TERMINAL_IFLAG_INLCR) TERMINAL_IFLAG_IGNCR) TERMINAL_IFLAG_ICRNL) TERMINAL_IFLAG_IXON)
    TERMINAL_IFLAG_IXANY.
Definition SUPPORTED_OUTPUT_FLAGS : Z := Z.lor TERMINAL_OFLAG_OPOST TERMINAL_OFLAG_ONLCR.
Definition SUPPORTED_LOCAL_FLAGS : Z :=
  Z.lor (Z.lor (Z.lor (Z.lor (Z.lor (Z.lor (Z.lor (Z.lor TERMINAL_LFLAG_ICANON TERMINAL_LFLAG_ISIG)
    TERMINAL_LFLAG_ECHO) TERMINAL_LFLAG_ECHOE) TERMINAL_LFLAG_ECHOK) TERMINAL_LFLAG_ECHONL)
    TERMINAL_LFLAG_TOSTOP) TERMINAL_LFLAG_IEXTEN) TERMINAL_LFLAG_NOFLSH.
Definition terminal_attributes_supported (a : TerminalAttributes) : bool :=
  (Z.ldiff (input_flags a) SUPPORTED_INPUT_FLAGS =? 0) &&
  (Z.ldiff (output_flags a) SUPPORTED_OUTPUT_FLAGS =? 0) &&
  (Z.ldiff (local_flags a) SUPPORTED_LOCAL_FLAGS =? 0) &&
  (control_flags a =? Z.lor TERMINAL_CFLAG_CS8 TERMINAL_CFLAG_CREAD).

(** Reading the attributes. *)
Definition iflag (l : Line) (mask : Z) : bool := flag (input_flags (attributes l)) mask.
Definition oflag (l : Line) (mask : Z) : bool := flag (output_flags (attributes l)) mask.
Definition lflag (l : Line) (mask : Z) : bool := flag (local_flags (attributes l)) mask.
(** [flags & mask == mask]. *)
Definition lflags_all (l : Line) (mask : Z) : bool :=
  Z.land (local_flags (attributes l)) mask =? mask.
Definition cc (l : Line) (index : nat) : Z := control_characters (attributes l) index.
(** [cc != 0 && byte == cc]. *)
Definition is_cc (l : Line) (index : nat) (b : Z) : bool := negb (cc l index =? 0) && (b =? cc l index).
Definition icanon (l : Line) : bool := lflag l TERMINAL_LFLAG_ICANON.

(** The queues of [PseudoTerminal::new]. *)
Definition line_new (sane : TerminalAttributes) : Line := mkLine [] [] [] [] [] sane false false false.

Definition input_occupancy (l : Line) : Z := zlen (input l) + zlen (canonical_input l).
Definition has_input_capacity (l : Line) : bool :=
  bool_decide (edit_echo l = []) && (input_occupancy l <? BUFFER_CAPACITY) &&
  (zlen (input_records l) <? BUFFER_CAPACITY).
Definition canonical_data_full (l : Line) : bool :=
  zlen (canonical_input l) >=? CANONICAL_LINE_CAPACITY - 1.
Definition canonical_delimiter (l : Line) (b : Z) : bool :=
  (b =? NL) || is_cc l TERMINAL_CC_VEOL b || is_cc l TERMINAL_CC_VEOL2 b.

(** The loop of [canonical_erase_length]: [bytes] backwards from the end,
    [suffix] the bytes seen. *)
Fixpoint erase_scan (bytes suffix : list Z) : nat :=
  match bytes with
  | [] => 1
  | b :: bytes =>
      let suffix := b :: suffix in
      if negb (Z.land b 192 =? 128)
      then if from_utf8 (chr <$> suffix) then length suffix else 1%nat
      else erase_scan bytes suffix
  end.
Definition canonical_erase_length (l : Line) (end_ : nat) : nat :=
  if negb (iflag l TERMINAL_IFLAG_IUTF8) then 1
  else erase_scan (take 4 (reverse (take end_ (canonical_input l)))) [].

Definition output_bytes_for (l : Line) (b : Z) : Z :=
  if (b =? NL) && oflag l TERMINAL_OFLAG_OPOST && oflag l TERMINAL_OFLAG_ONLCR then 2 else 1.
Definition can_append_output (l : Line) (bytes : list Z) : bool :=
  if negb (bool_decide (edit_echo l = [])) then false
  else
    let required := fold_left (λ total b, Z.min U64_MAX (total + output_bytes_for l b)) bytes 0 in
    required <=? saturating_sub BUFFER_CAPACITY (zlen (output l)).
(** A byte with the carriage return it gets. *)
Definition expand (l : Line) (b : Z) : list Z :=
  if output_bytes_for l b =? 2 then [CRB; b] else [b].
Definition append_output (l : Line) (b : Z) : Line :=
  set_output l (output l ++ expand l b) (edit_echo l).
Definition append_echo (l : Line) (echo : list Z) : Line := fold_left append_output echo l.

Definition append_raw_input (l : Line) (b : Z) : Line :=
  let records :=
    match last (input_records l) with
    | Some r =>
        if negb (canonical r)
        then take (length (input_records l) - 1) (input_records l) ++
             [mkInputRecord (remaining r + 1) (canonical r)]
        else input_records l ++ [mkInputRecord 1 false]
    | None => input_records l ++ [mkInputRecord 1 false]
    end in
  set_input l (input l ++ [b]) records.

Definition commit_canonical_input (l : Line) : Line :=
  let length_ := zlen (canonical_input l) in
  set_canonical_input
    (set_input l (input l ++ canonical_input l) (input_records l ++ [mkInputRecord length_ true])) [].

Definition read_input (master_open : bool) (maximum : Z) : stM Line Z (list Z) := λ l,
  match input_records l with
  | [] =>
      let polling := negb (icanon l) && (cc l TERMINAL_CC_VMIN =? 0) && (cc l TERMINAL_CC_VTIME =? 0) in
      (l, if negb master_open || polling then Ok [] else Err EAGAIN)
  | r :: records =>
      if remaining r =? 0 then (set_input l (input l) records, Ok [])
      else
        let length_ := Z.min maximum (remaining r) in
        let left_ := remaining r - length_ in
        let records :=
          if left_ =? 0 then records else mkInputRecord left_ (canonical r) :: records in
        (set_input l (drop (Z.to_nat length_) (input l)) records,
         Ok (take (Z.to_nat length_) (input l)))
  end.

Definition transformed_input_byte (l : Line) (b : Z) : option Z :=
  let b := if iflag l TERMINAL_IFLAG_ISTRIP then Z.land b 127 else b in
  if b =? CRB then
    if iflag l TERMINAL_IFLAG_IGNCR then None
    else Some (if iflag l TERMINAL_IFLAG_ICRNL then NL else b)
  else if (b =? NL) && iflag l TERMINAL_IFLAG_INLCR then Some CRB
  else Some b.

Definition should_echo (l : Line) (b : Z) : bool :=
  if (b =? NL) && negb (lflag l TERMINAL_LFLAG_ECHO) && lflag l TERMINAL_LFLAG_ECHONL then true
  else lflag l TERMINAL_LFLAG_ECHO.
(** [if self.should_echo(byte) { &[byte] } else { b"" }]. *)
Definition echo_of (l : Line) (b : Z) : list Z := if should_echo l b then [b] else [].

Definition signal_for_input (l : Line) (b : Z) : option Z :=
  if negb (lflag l TERMINAL_LFLAG_ISIG) then None
  else if is_cc l TERMINAL_CC_VINTR b then Some SIGNAL_INT
  else if is_cc l TERMINAL_CC_VQUIT b then Some SIGNAL_QUIT
  else if is_cc l TERMINAL_CC_VSUSP b then Some SIGNAL_TSTP
  else None.

Definition flush_input (l : Line) : Line :=
  set_literal_next (set_canonical_input (set_input l [] []) []) false.
Definition flush_for_signal (l : Line) : Line :=
  if lflag l TERMINAL_LFLAG_NOFLSH then l else set_output (flush_input l) [] [].

(** ** Extended editing ([pty/editing.rs]) *)

(** [refill_edit_echo]. *)
Definition refill_edit_echo (l : Line) : Line :=
  let count := Z.to_nat (Z.min (zlen (edit_echo l)) (BUFFER_CAPACITY - zlen (output l))) in
  set_output l (output l ++ take count (edit_echo l)) (drop count (edit_echo l)).
Definition queue_edit_echo (l : Line) (bytes : list Z) : Line :=
  refill_edit_echo (set_output l (output l) (edit_echo l ++ flat_map (expand l) bytes)).

(** [u8::is_ascii_whitespace]. *)
Definition is_ascii_whitespace (b : Z) : bool :=
  (b =? 32) || (b =? 9) || (b =? 10) || (b =? 12) || (b =? 13).
(** [self.canonical_input[end - 1].is_ascii_whitespace()]. *)
Definition space_before (l : Line) (end_ : nat) : bool :=
  is_ascii_whitespace (default 0 (canonical_input l !! (end_ - 1)%nat)).

(** The two loops of the word erase: the new end and the characters erased. *)
Fixpoint skip_space (l : Line) (end_ characters : nat) : nat * nat :=
  match end_ with
  | O => (O, characters)
  | S e => if space_before l end_ then skip_space l e (S characters) else (end_, characters)
  end.
Fixpoint skip_word (fuel : nat) (l : Line) (end_ characters : nat) : option (nat * nat) :=
  if bool_decide (end_ = O) || space_before l end_ then Some (end_, characters)
  else
    match fuel with
    | O => None
    | S fuel => skip_word fuel l (end_ - canonical_erase_length l end_) (S characters)
    end.
(** Every turn erases at least one byte, so the pending length is enough fuel. *)
Definition word_start (l : Line) : option (nat * nat) :=
  let '(end_, characters) := skip_space l (length (canonical_input l)) 0 in
  skip_word end_ l end_ characters.

Definition extended_edit (l : Line) (b : Z) : option (Line * result unit bool) :=
  if negb (lflag l TERMINAL_LFLAG_IEXTEN) then Some (l, Ok false)
  else
    let erase := is_cc l TERMINAL_CC_VWERASE b in
    if negb erase && negb (is_cc l TERMINAL_CC_VREPRINT b) then Some (l, Ok false)
    else if negb (bool_decide (edit_echo l = [])) then Some (l, Err tt)
    else
      let echo := lflag l TERMINAL_LFLAG_ECHO in
      if erase then
        '(end_, characters) ← word_start l;
        let l' :=
          if negb (bool_decide (characters = O)) && echo then
            if lflag l TERMINAL_LFLAG_ECHOE
            then queue_edit_echo l (flat_map (λ _, [BS; SP; BS]) (seq 0 characters))
            else queue_edit_echo l [b]
          else l in
        Some (set_canonical_input l' (take end_ (canonical_input l')), Ok true)
      else
        Some (if echo then queue_edit_echo l ([b; NL] ++ canonical_input l) else l, Ok true).

(** ** Writing *)

(** What one byte does in the loop of [write_master]: it is consumed, with a
    signal perhaps, or the loop ends and the byte is left. *)
Inductive ByteOutcome :=
  | Consumed (l : Line) (signal : option Z)
  | Left (l : Line).

(** The quoted byte of literal-next. *)
Definition literal_byte (canonical_mode : bool) (l : Line) (source : Z) : ByteOutcome :=
  if canonical_mode && canonical_data_full l then Consumed (set_literal_next l false) None
  else
    let b := if iflag l TERMINAL_IFLAG_ISTRIP then Z.land source 127 else source in
    let echo := echo_of l b in
    if negb (has_input_capacity l) || negb (can_append_output l echo) then Left l
    else
      Consumed (set_literal_next
                  (append_echo (set_canonical_input l (canonical_input l ++ [b])) echo) false) None.

(** The flow-control characters. *)
Definition flow_byte (l : Line) (b : Z) : option Line :=
  let stop := cc l TERMINAL_CC_VSTOP in
  let start := cc l TERMINAL_CC_VSTART in
  if negb (stop =? 0) && (b =? stop) then
    Some (set_stopped l (if stop =? start then negb (output_stopped l) else true)
            (output_manually_stopped l))
  else if negb (start =? 0) && (b =? start) then
    Some (set_stopped l false (output_manually_stopped l))
  else None.

(** Literal-next, erase, kill and end-of-file in canonical mode. *)
Definition lnext_byte (l : Line) : ByteOutcome :=
  let echo := if lflag l TERMINAL_LFLAG_ECHO then [94; BS] else [] in
  if negb (has_input_capacity l) || negb (can_append_output l echo) then Left l
  else Consumed (set_literal_next (append_echo l echo) true) None.
Definition erase_byte (l : Line) (b : Z) : ByteOutcome :=
  if bool_decide (canonical_input l = []) then Consumed l None
  else
    let echo :=
      if lflags_all l (Z.lor TERMINAL_LFLAG_ECHO TERMINAL_LFLAG_ECHOE) then [BS; SP; BS]
      else echo_of l b in
    if negb (can_append_output l echo) then Left l
    else
      let remaining := (length (canonical_input l) -
                        canonical_erase_length l (length (canonical_input l)))%nat in
      Consumed (append_echo (set_canonical_input l (take remaining (canonical_input l))) echo) None.
Definition kill_byte (l : Line) (b : Z) : ByteOutcome :=
  let echo :=
    if lflags_all l (Z.lor TERMINAL_LFLAG_ECHO TERMINAL_LFLAG_ECHOK) then [NL] else echo_of l b in
  if negb (can_append_output l echo) then Left l
  else Consumed (append_echo (set_canonical_input l []) echo) None.
Definition eof_byte (l : Line) : ByteOutcome :=
  if zlen (input_records l) >=? BUFFER_CAPACITY then Left l
  else Consumed (commit_canonical_input l) None.

(** The editing characters; [Some None] is a byte that is not one. *)
Definition editing_byte (l : Line) (b : Z) : option (option ByteOutcome) :=
  '(l', res) ← extended_edit l b;
  match res with
  | Ok true => Some (Some (Consumed l' None))
  | Err _ => Some (Some (Left l'))
  | Ok false =>
      Some (if lflag l TERMINAL_LFLAG_IEXTEN && is_cc l TERMINAL_CC_VLNEXT b then Some (lnext_byte l)
            else if is_cc l TERMINAL_CC_VERASE b then Some (erase_byte l b)
            else if is_cc l TERMINAL_CC_VKILL b then Some (kill_byte l b)
            else if is_cc l TERMINAL_CC_VEOF b then Some (eof_byte l)
            else None)
  end.

(** An ordinary byte. *)
Definition data_byte (canonical_mode : bool) (l : Line) (b : Z) : ByteOutcome :=
  if canonical_mode && canonical_data_full l && negb (canonical_delimiter l b) then Consumed l None
  else if negb (has_input_capacity l) then Left l
  else
    let echo := echo_of l b in
    if negb (can_append_output l echo) then Left l
    else
      let l := if canonical_mode then set_canonical_input l (canonical_input l ++ [b])
               else append_raw_input l b in
      let l := append_echo l echo in
      Consumed (if canonical_mode && canonical_delimiter l b then commit_canonical_input l else l) None.

(** The body of the loop. *)
Definition master_byte (canonical_mode : bool) (l : Line) (source : Z) : option ByteOutcome :=
  if literal_next l then Some (literal_byte canonical_mode l source)
  else
    match transformed_input_byte l source with
    | None => Some (Consumed l None)
    | Some b =>
        let flow := iflag l TERMINAL_IFLAG_IXON in
        let stop := cc l TERMINAL_CC_VSTOP in
        let l := if flow && iflag l TERMINAL_IFLAG_IXANY && ((stop =? 0) || negb (b =? stop))
                 then set_stopped l false (output_manually_stopped l) else l in
        match signal_for_input l b with
        | Some signal => Some (Consumed (flush_for_signal l) (Some signal))
        | None =>
            match (if flow then flow_byte l b else None) with
            | Some l => Some (Consumed l None)
            | None =>
                edited ← (if canonical_mode then editing_byte l b else Some None);
                Some (match edited with
                      | Some o => o
                      | None => data_byte canonical_mode l b
                      end)
            end
        end
    end.

(** The loop: the queues, the bytes consumed and the signals raised. *)
Fixpoint master_bytes (canonical_mode : bool) (l : Line) (bytes : list Z)
    : option (Line * nat * list Z) :=
  match bytes with
  | [] => Some (l, O, [])
  | source :: bytes =>
      o ← master_byte canonical_mode l source;
      match o with
      | Left l => Some (l, O, [])
      | Consumed l signal =>
          '(l, consumed, signals) ← master_bytes canonical_mode l bytes;
          Some (l, S consumed, option_list signal ++ signals)
      end
  end.

Definition write_master (slave_open : bool) (l : Line) (bytes : list Z)
    : option (Line * result Z (nat * list Z)) :=
  if negb slave_open then Some (l, Err EIO)
  else
    '(l, consumed, signals) ← master_bytes (icanon l) l bytes;
    Some (l, if bool_decide (consumed = O) && negb (bool_decide (bytes = [])) then Err EAGAIN
             else Ok (consumed, signals)).

Fixpoint slave_bytes (l : Line) (bytes : list Z) : Line * nat :=
  match bytes with
  | [] => (l, O)
  | b :: bytes =>
      if negb (can_append_output l [b]) then (l, O)
      else let '(l, consumed) := slave_bytes (append_output l b) bytes in (l, S consumed)
  end.
Definition write_slave (master_open : bool) (l : Line) (bytes : list Z) : Line * result Z nat :=
  if negb master_open then (l, Err EIO)
  else
    let '(l, consumed) := slave_bytes l bytes in
    (l, if bool_decide (consumed = O) && negb (bool_decide (bytes = [])) then Err EAGAIN
        else Ok consumed).

(** ** The master's read and the controls, on the queues *)

(** The master branch of [PtyManager::read]. *)
Definition read_output (slave_open : bool) (maximum : Z) (l : Line) : Line * result Z (list Z) :=
  if (output_stopped l || output_manually_stopped l) && slave_open then (l, Err EAGAIN)
  else
    let length_ := Z.to_nat (Z.min maximum (zlen (output l))) in
    if negb (bool_decide (length_ = O)) then
      (refill_edit_echo (set_output l (drop length_ (output l)) (edit_echo l)),
       Ok (take length_ (output l)))
    else (l, if slave_open then Err EAGAIN else Ok []).

(** The effect of [set_attributes] on an admitted request. *)
Definition change_attributes (l : Line) (a : TerminalAttributes) : Line :=
  let was_canonical := icanon l in
  let is_canonical := flag (local_flags a) TERMINAL_LFLAG_ICANON in
  let l := set_line_attributes l a in
  let l := if negb is_canonical || negb (flag (local_flags a) TERMINAL_LFLAG_IEXTEN)
           then set_literal_next l false else l in
  let l := if negb (flag (input_flags a) TERMINAL_IFLAG_IXON)
           then set_stopped l false (output_manually_stopped l) else l in
  if was_canonical && negb is_canonical && negb (bool_decide (canonical_input l = []))
  then fold_left append_raw_input (canonical_input l) (set_canonical_input l [])
  else l.

(** [tcflow]: the manual stop, and the transmission of a flow character. *)
Definition stop_output (l : Line) : Line := set_stopped l (output_stopped l) true.
Definition start_output (l : Line) : Line := set_stopped l false false.
Definition send_flow (master_open : bool) (index : nat) : stM Line Z unit := λ l,
  let b := cc l index in
  if b =? 0 then (l, Ok tt)
  else if negb master_open then (l, Err EIO)
  else if zlen (output l) =? BUFFER_CAPACITY then (l, Err EAGAIN)
  else (set_output l (output l ++ [b]) (edit_echo l), Ok tt).
(** [drain_output], also the test of [set_attributes_when_drained]. *)
Definition drain_line (master_open : bool) : stM Line Z unit := λ l,
  if negb (bool_decide (output l = [])) && master_open then (l, Err EAGAIN)
  else (if negb master_open then set_output l [] [] else l, Ok tt).

(** ** Invariant *)

Definition total_remaining (records : list InputRecord) : Z :=
  foldr (λ r n, remaining r + n) 0 records.

Record line_ok (l : Line) : Prop := mkLineOk {
  lo_records : total_remaining (input_records l) = zlen (input l);
  lo_nonneg : Forall (λ r, 0 ≤ remaining r) (input_records l);
  lo_occupancy : input_occupancy l ≤ BUFFER_CAPACITY;
  lo_count : zlen (input_records l) ≤ BUFFER_CAPACITY;
  lo_slot : canonical_input l ≠ [] → zlen (input_records l) < BUFFER_CAPACITY;
  lo_output : zlen (output l) ≤ BUFFER_CAPACITY;
  lo_echo : edit_echo l ≠ [] → zlen (output l) = BUFFER_CAPACITY;
  lo_echo_size : zlen (edit_echo l) ≤ 3 * BUFFER_CAPACITY + 4;
  lo_literal : literal_next l = true → icanon l = true;
  lo_pending : icanon l = false → canonical_input l = [];
}.

Lemma total_remaining_app r s : total_remaining (r ++ s) = total_remaining r + total_remaining s.
Proof. unfold total_remaining. induction r as [|x r IH]; simpl; lia. Qed.

(** Echo *)

Lemma append_echo_output l echo :
  append_echo l echo = set_output l (output l ++ flat_map (expand l) echo) (edit_echo l).
Proof.
  unfold append_echo. revert l. induction echo as [|b echo IH]; intros l; simpl.
  - rewrite app_nil_r. by destruct l.
  - rewrite IH. unfold append_output, set_output. simpl. by rewrite <- app_assoc.
Qed.

Lemma zlen_expand l b : zlen (expand l b) = output_bytes_for l b.
Proof. unfold expand, output_bytes_for. by destruct (_ && _). Qed.
Lemma output_bytes_bounds l b : 1 ≤ output_bytes_for l b ≤ 2.
Proof. unfold output_bytes_for. destruct (_ && _); lia. Qed.
Lemma zlen_flat_expand l bytes :
  zlen bytes ≤ zlen (flat_map (expand l) bytes) ≤ 2 * zlen bytes.
Proof.
  induction bytes as [|b bytes IH]; simpl; [done|]. rewrite zlen_cons, zlen_app, zlen_expand.
  pose proof (output_bytes_bounds l b). lia.
Qed.

Lemma required_spec l bytes init :
  0 ≤ init ≤ U64_MAX →
  fold_left (λ total b, Z.min U64_MAX (total + output_bytes_for l b)) bytes init =
  Z.min U64_MAX (init + zlen (flat_map (expand l) bytes)).
Proof.
  revert init. induction bytes as [|b bytes IH]; intros init Hi; simpl.
  - rewrite zlen_nil. lia.
  - pose proof (output_bytes_bounds l b). rewrite IH by lia. rewrite zlen_app, zlen_expand.
    pose proof (zlen_nonneg (flat_map (expand l) bytes)). lia.
Qed.

Lemma can_append_output_true l bytes :
  zlen (output l) ≤ BUFFER_CAPACITY →
  can_append_output l bytes = true ↔
  edit_echo l = [] ∧ zlen (output l) + zlen (flat_map (expand l) bytes) ≤ BUFFER_CAPACITY.
Proof.
  intros Ho. unfold can_append_output, saturating_sub. rewrite required_spec by done.
  case_bool_decide as E; cbn [negb]; [|split; [done|by intros [? _]]].
  rewrite Z.leb_le. pose proof (zlen_nonneg (flat_map (expand l) bytes)). pose proof (zlen_nonneg (output l)).
  unfold BUFFER_CAPACITY, U64_MAX in *. split; [intros; split; [done|]|intros [_ ?]]; lia.
Qed.

Lemma ok_echo l echo : line_ok l → can_append_output l echo = true → line_ok (append_echo l echo).
Proof.
  intros [H1 H2 H3 H4 H5 H6 H7 H8 H9 H10] [He Hc]%can_append_output_true; [|done].
  rewrite append_echo_output. split; simpl; try done. rewrite zlen_app. lia.
Qed.

(** The pending line *)

Lemma ok_push l b :
  line_ok l → has_input_capacity l = true → icanon l = true →
  line_ok (set_canonical_input l (canonical_input l ++ [b])).
Proof.
  intros [H1 H2 H3 H4 H5 H6 H7 H8 H9 H10] Hc Hi. unfold has_input_capacity, input_occupancy in *.
  rewrite !andb_true_iff, bool_decide_eq_true in Hc. destruct Hc as ((He & Ho) & Hr).
  split; simpl; try done; try lia.
  - unfold input_occupancy. simpl. rewrite zlen_app, zlen_cons, zlen_nil. lia.
  - change (icanon l = false → canonical_input l ++ [b] = []). congruence.
Qed.
Lemma ok_truncate l k : line_ok l → line_ok (set_canonical_input l (take k (canonical_input l))).
Proof.
  intros [H1 H2 H3 H4 H5 H6 H7 H8 H9 H10]. unfold input_occupancy in *. split; simpl; try done.
  - unfold input_occupancy, zlen in *. simpl. rewrite length_take. lia.
  - intros Hne. apply H5. intros E. apply Hne. by rewrite E, take_nil.
  - intros Hi. by rewrite (H10 Hi), take_nil.
Qed.
Lemma ok_commit l :
  line_ok l → zlen (input_records l) < BUFFER_CAPACITY → line_ok (commit_canonical_input l).
Proof.
  intros [H1 H2 H3 H4 H5 H6 H7 H8 H9 H10] Hr. unfold input_occupancy in *. split; simpl; try done.
  - rewrite total_remaining_app, H1, zlen_app. simpl. lia.
  - apply Forall_app. split; [done|]. constructor; [apply zlen_nonneg|done].
  - unfold input_occupancy. simpl. rewrite zlen_app, zlen_nil. lia.
  - rewrite zlen_app, zlen_cons, zlen_nil. lia.
Qed.

(** Small changes *)

Lemma ok_stopped l s m : line_ok l → line_ok (set_stopped l s m).
Proof. by intros [H1 H2 H3 H4 H5 H6 H7 H8 H9 H10]. Qed.
Lemma ok_literal l b : line_ok l → (b = true → icanon l = true) → line_ok (set_literal_next l b).
Proof. by intros [H1 H2 H3 H4 H5 H6 H7 H8 H9 H10]. Qed.
Lemma ok_flush_input l : line_ok l → line_ok (flush_input l).
Proof. by intros [H1 H2 H3 H4 H5 H6 H7 H8 H9 H10]. Qed.
Lemma ok_flush_output l : line_ok l → line_ok (set_output l [] []).
Proof. by intros [H1 H2 H3 H4 H5 H6 H7 H8 H9 H10]. Qed.
Lemma ok_flush_for_signal l : line_ok l → line_ok (flush_for_signal l).
Proof.
  intros H. unfold flush_for_signal. destruct (lflag l _); [done|]. by apply ok_flush_output, ok_flush_input.
Qed.
#[local] Hint Resolve ok_echo ok_push ok_truncate ok_commit ok_stopped ok_literal ok_flush_input
  ok_flush_output ok_flush_for_signal : mochi.

(** Raw input *)

Lemma append_raw_records l b :
  total_remaining (input_records (append_raw_input l b)) = total_remaining (input_records l) + 1 ∧
  zlen (input_records (append_raw_input l b)) ≤ zlen (input_records l) + 1 ∧
  (Forall (λ r, 0 ≤ remaining r) (input_records l) →
   Forall (λ r, 0 ≤ remaining r) (input_records (append_raw_input l b))) ∧
  (∃ r, last (input_records (append_raw_input l b)) = Some r ∧ canonical r = false) ∧
  ((∃ r, last (input_records l) = Some r ∧ canonical r = false) →
   zlen (input_records (append_raw_input l b)) = zlen (input_records l)).
Proof.
  unfold append_raw_input. destruct (last (input_records l)) as [r|] eqn:E; simpl.
  - apply last_Some in E as [rs E]. destruct (canonical r) eqn:Er; simpl.
    + rewrite last_snoc, total_remaining_app, zlen_app, Forall_app. simpl.
      split_and!; [lia|done|intros; split; [done|by repeat constructor]|by eexists|].
      intros (r' & [= <-] & ?). congruence.
    + rewrite E, length_app, Nat.add_sub, take_app_length. rewrite last_snoc.
      rewrite !total_remaining_app, !zlen_app, !Forall_app. simpl.
      split_and!; [lia|rewrite !zlen_cons; lia| |by eexists|done].
      intros [H1 H2]. split; [done|]. apply Forall_cons in H2 as [H2 _]. repeat constructor. simpl. lia.
  - rewrite last_snoc, total_remaining_app, zlen_app, Forall_app. simpl.
    split_and!; [lia|done|intros; split; [done|by repeat constructor]|by eexists|by intros (? & ? & _)].
Qed.

Lemma ok_raw l b :
  line_ok l → zlen (input l) < BUFFER_CAPACITY → canonical_input l = [] →
  (zlen (input_records l) < BUFFER_CAPACITY ∨
   ∃ r, last (input_records l) = Some r ∧ canonical r = false) →
  line_ok (append_raw_input l b).
Proof.
  intros [H1 H2 H3 H4 H5 H6 H7 H8 H9 H10] Hi Hc Hr.
  destruct (append_raw_records l b) as (E1 & E2 & E3 & _ & E5).
  split; try done.
  - rewrite E1, H1. unfold append_raw_input. simpl. rewrite zlen_app, zlen_cons, zlen_nil. lia.
  - by apply E3.
  - unfold input_occupancy, append_raw_input. simpl. rewrite Hc, zlen_app, zlen_cons, !zlen_nil. lia.
  - destruct Hr as [Hr|Hr]; [lia|]. by rewrite E5.
Qed.

(** Switching to raw mode turns the pending line into raw input. *)
Lemma ok_raw_all bytes l :
  line_ok l → zlen (input l) + zlen bytes ≤ BUFFER_CAPACITY → canonical_input l = [] →
  (zlen (input_records l) < BUFFER_CAPACITY ∨
   ∃ r, last (input_records l) = Some r ∧ canonical r = false) →
  line_ok (fold_left append_raw_input bytes l).
Proof.
  revert l. induction bytes as [|b bytes IH]; intros l Hl Hi Hc Hr; simpl; [done|].
  rewrite zlen_cons in Hi. pose proof (zlen_nonneg bytes). apply IH.
  - apply ok_raw; try done. lia.
  - unfold append_raw_input. simpl. rewrite zlen_app, zlen_cons, zlen_nil. lia.
  - done.
  - right. by apply append_raw_records.
Qed.

(** Erasing *)

Lemma erase_scan_bounds bytes suffix :
  (1 ≤ erase_scan bytes suffix ≤ Nat.max 1 (length bytes + length suffix))%nat.
Proof.
  revert suffix. induction bytes as [|b bytes IH]; intros suffix;
    cbn [erase_scan length]; [lia|].
  destruct (negb _); [destruct (from_utf8 _); lia|].
  specialize (IH (b :: suffix)). cbn [length] in IH. lia.
Qed.
(** At least one byte is erased, and never more than there are. *)
Lemma canonical_erase_bounds l e :
  (0 < e)%nat → (1 ≤ canonical_erase_length l e ≤ e)%nat.
Proof.
  intros He. unfold canonical_erase_length. destruct (negb _); [lia|].
  pose proof (erase_scan_bounds (take 4 (reverse (take e (canonical_input l)))) []) as H.
  rewrite length_take, length_reverse, length_take in H. cbn [length] in H. lia.
Qed.

Lemma skip_space_spec l e n :
  let '(e', n') := skip_space l e n in
  (e' ≤ e)%nat ∧ (n' = n + (e - e'))%nat ∧ (e' = 0%nat ∨ space_before l e' = false) ∧
  ∀ k, (e' < k ≤ e)%nat → space_before l k = true.
Proof.
  revert n. induction e as [|e IH]; intros n; cbn [skip_space].
  { split_and!; [lia|lia|by left|intros k Hk; lia]. }
  destruct (space_before l (S e)) eqn:E.
  - specialize (IH (S n)). destruct (skip_space l e (S n)) as [e' n']. destruct IH as (H1 & H2 & H3 & H4).
    split_and!; [lia|lia|done|]. intros k Hk. destruct (decide (k = S e)) as [->|]; [done|]. apply H4. lia.
  - split_and!; [lia|lia|by right|intros k Hk; lia].
Qed.

Lemma skip_word_spec fuel l e n :
  (e ≤ fuel)%nat →
  ∃ e' n', skip_word fuel l e n = Some (e', n') ∧ (e' ≤ e)%nat ∧ (n ≤ n' ≤ n + (e - e'))%nat ∧
    (n' = n → e' = e) ∧ (e' = 0%nat ∨ space_before l e' = true).
Proof.
  revert e n. induction fuel as [|fuel IH]; intros e n Hf; simpl.
  - assert (e = 0%nat) as -> by lia. rewrite bool_decide_eq_true_2 by done. simpl.
    exists 0%nat, n. split_and!; first [done|lia|by left].
  - destruct (bool_decide (e = 0%nat)) eqn:E0; simpl;
      [apply bool_decide_eq_true in E0|apply bool_decide_eq_false in E0].
    { exists e, n. split_and!; first [done|lia|by left]. }
    destruct (space_before l e) eqn:Es.
    { exists e, n. split_and!; first [done|lia|by right]. }
    pose proof (canonical_erase_bounds l e ltac:(lia)).
    destruct (IH (e - canonical_erase_length l e)%nat (S n)) as (e' & n' & -> & ? & ? & ? & ?); [lia|].
    exists e', n'. split_and!; try done; lia.
Qed.

(** The word erase: a whole run of spaces and of the word before it. *)
Lemma word_start_spec l :
  ∃ e n, word_start l = Some (e, n) ∧ (e ≤ length (canonical_input l))%nat ∧
    (n ≤ length (canonical_input l) - e)%nat ∧ (n = 0%nat → e = length (canonical_input l)) ∧
    (e = 0%nat ∨ space_before l e = true).
Proof.
  unfold word_start. pose proof (skip_space_spec l (length (canonical_input l)) 0) as Hs.
  destruct (skip_space _ _ _) as [e n]. destruct Hs as (H1 & H2 & _).
  destruct (skip_word_spec e l e n) as (e' & n' & E & ? & ? & ? & ?); [lia|].
  exists e', n'. split_and!; try done; lia.
Qed.

(** Deferred echo *)

Lemma zlen_take_drop {A} k (l : list A) : zlen (take k l) + zlen (drop k l) = zlen l.
Proof. rewrite <- zlen_app. by rewrite take_drop. Qed.

Lemma ok_refill l :
  line_ok (set_output l [] []) → zlen (output l) ≤ BUFFER_CAPACITY →
  zlen (edit_echo l) ≤ 3 * BUFFER_CAPACITY + 4 → line_ok (refill_edit_echo l).
Proof.
  intros [H1 H2 H3 H4 H5 _ _ _ H9 H10] Ho He. unfold refill_edit_echo.
  set (count := Z.to_nat _). pose proof (zlen_take_drop count (edit_echo l)) as Hs.
  assert (zlen (take count (edit_echo l)) = Z.min (zlen (edit_echo l)) (BUFFER_CAPACITY - zlen (output l)))
    as Ht.
  { pose proof (zlen_nonneg (edit_echo l)). unfold zlen at 1. rewrite length_take. unfold count, zlen in *. lia. }
  split; simpl; try done.
  - rewrite zlen_app. lia.
  - rewrite zlen_app. intros Hne. assert (0 < zlen (drop count (edit_echo l))); [|lia].
    destruct (drop count (edit_echo l)) as [|x k]; [done|]. rewrite zlen_cons.
    pose proof (zlen_nonneg k). lia.
  - pose proof (zlen_nonneg (take count (edit_echo l))). lia.
Qed.

Lemma ok_queue l bytes :
  line_ok l → edit_echo l = [] → zlen (flat_map (expand l) bytes) ≤ 3 * BUFFER_CAPACITY + 4 →
  line_ok (queue_edit_echo l bytes).
Proof.
  intros Hl He Hb. unfold queue_edit_echo. apply ok_refill; simpl.
  - change (line_ok (set_output l [] [])). by apply ok_flush_output.
  - apply Hl.
  - by rewrite He.
Qed.

Lemma flat_map_const {A} (l : Line) (xs : list A) :
  zlen (flat_map (expand l) (flat_map (λ _, [BS; SP; BS]) xs)) = 3 * zlen xs.
Proof.
  induction xs as [|x xs IH]; [done|]. simpl. rewrite !zlen_cons, IH. lia.
Qed.

Lemma queue_keeps l bytes :
  canonical_input (queue_edit_echo l bytes) = canonical_input l ∧
  icanon (queue_edit_echo l bytes) = icanon l.
Proof. done. Qed.

Lemma ok_extended_edit l b :
  line_ok l → icanon l = true →
  ∃ l' res, extended_edit l b = Some (l', res) ∧ line_ok l' ∧ icanon l' = true ∧
    (res = Ok true ∨ l' = l).
Proof.
  intros Hl Hi. unfold extended_edit. destruct (negb (lflag l _)); [by exists l, (Ok false); auto|].
  destruct (negb _ && negb _); [by exists l, (Ok false); auto|].
  case_bool_decide as He; cbn [negb]; [|by exists l, (Err tt); auto].
  pose proof (lo_occupancy _ Hl) as Ho. unfold input_occupancy in Ho.
  pose proof (zlen_nonneg (input l)).
  destruct (is_cc l TERMINAL_CC_VWERASE b).
  - destruct (word_start_spec l) as (e & n & -> & _ & Hn & _). cbn [mbind option_bind].
    eexists _, (Ok true). split; [done|].
    split; [|split; [destruct (negb _ && _), (lflag l TERMINAL_LFLAG_ECHOE); done|by left]].
    apply ok_truncate. destruct (negb _ && _); [|done]. destruct (lflag l TERMINAL_LFLAG_ECHOE).
    + apply ok_queue; try done. rewrite flat_map_const. unfold zlen in *. rewrite length_seq. lia.
    + apply ok_queue; try done. pose proof (zlen_flat_expand l [b]) as Hb.
      rewrite zlen_cons, zlen_nil in Hb. unfold BUFFER_CAPACITY. lia.
  - eexists _, (Ok true). split; [done|]. destruct (lflag l TERMINAL_LFLAG_ECHO); [|by auto].
    split; [|by auto]. apply ok_queue; try done.
    pose proof (zlen_flat_expand l ([b; NL] ++ canonical_input l)) as Hb.
    rewrite zlen_app, !zlen_cons, zlen_nil in Hb. unfold BUFFER_CAPACITY in *. lia.
Qed.

(** ** One byte *)

(** What every outcome of a byte guarantees. *)
Definition byte_ok (l : Line) (o : ByteOutcome) : Prop :=
  match o with
  | Consumed l' _ => line_ok l' ∧ icanon l' = icanon l
  | Left l' => line_ok l' ∧ l' = set_stopped l (output_stopped l') (output_manually_stopped l)
  end.

Lemma set_stopped_same l : set_stopped l (output_stopped l) (output_manually_stopped l) = l.
Proof. by destruct l. Qed.
Lemma left_same l : line_ok l → byte_ok l (Left l).
Proof. split; [done|]. by rewrite set_stopped_same. Qed.
Lemma append_echo_icanon l echo : icanon (append_echo l echo) = icanon l.
Proof. by rewrite append_echo_output. Qed.
#[local] Hint Resolve left_same : mochi.

Lemma capacity_echo l echo :
  negb (has_input_capacity l) || negb (can_append_output l echo) = false →
  has_input_capacity l = true ∧ can_append_output l echo = true.
Proof. rewrite orb_false_iff, !negb_false_iff. done. Qed.

Lemma ok_literal_byte l source :
  line_ok l → literal_next l = true → byte_ok l (literal_byte (icanon l) l source).
Proof.
  intros Hl Hlit. pose proof (lo_literal _ Hl Hlit) as Hi. unfold literal_byte.
  destruct (_ && _); [split; [by apply ok_literal|done]|].
  destruct (negb _ || negb _) eqn:E; [by apply left_same|]. apply capacity_echo in E as [E1 E2].
  split; [|simpl; by rewrite append_echo_output]. apply ok_literal; [|done].
  apply ok_echo; [by apply ok_push|done].
Qed.

Lemma ok_editing l b :
  line_ok l → icanon l = true →
  ∃ o, editing_byte l b = Some o ∧ from_option (byte_ok l) True o.
Proof.
  intros Hl Hi. unfold editing_byte.
  destruct (ok_extended_edit l b Hl Hi) as (l' & res & -> & Hl' & Hi' & Hres). cbn [mbind option_bind].
  destruct res as [[]|[]].
  - eexists. split; [done|]. split; [done|congruence].
  - eexists. split; [done|]. destruct (_ && is_cc l TERMINAL_CC_VLNEXT b).
    { simpl. unfold lnext_byte. destruct (negb _ || negb _) eqn:E; [by apply left_same|].
      apply capacity_echo in E as [E1 E2]. split; [|simpl; by rewrite append_echo_output].
      apply ok_literal; [by apply ok_echo|]. by rewrite append_echo_icanon. }
    destruct (is_cc l TERMINAL_CC_VERASE b).
    { simpl. unfold erase_byte. case_bool_decide; [done|].
      destruct (can_append_output l _) eqn:E; simpl; [|by apply left_same].
      split; [|by rewrite append_echo_output]. apply ok_echo; [by apply ok_truncate|done]. }
    destruct (is_cc l TERMINAL_CC_VKILL b).
    { simpl. unfold kill_byte. destruct (can_append_output l _) eqn:E; simpl; [|by apply left_same].
      split; [|by rewrite append_echo_output]. apply ok_echo; [|done].
      by apply (ok_truncate l 0). }
    destruct (is_cc l TERMINAL_CC_VEOF b); [|done].
    simpl. unfold eof_byte. destruct (_ >=? _) eqn:E; [by apply left_same|].
    split; [|done]. apply ok_commit; [done|lia].
  - eexists. split; [done|]. destruct Hres as [?| ->]; [done|]. by apply left_same.
Qed.

Lemma ok_data l b : line_ok l → byte_ok l (data_byte (icanon l) l b).
Proof.
  intros Hl. unfold data_byte. destruct (_ && _ && _); [done|].
  destruct (has_input_capacity l) eqn:Ec; cbn [negb]; [|by apply left_same].
  destruct (can_append_output l _) eqn:E; cbn [negb]; [|by apply left_same].
  pose proof Ec as Hcap. unfold has_input_capacity, input_occupancy in Hcap.
  rewrite !andb_true_iff in Hcap. destruct Hcap as ((_ & Ho) & Hr).
  destruct (icanon l) eqn:Ei; cbn [andb].
  - assert (line_ok (append_echo (set_canonical_input l (canonical_input l ++ [b])) (echo_of l b))) as Hp
      by (apply ok_echo; [by apply ok_push|done]).
    destruct (canonical_delimiter _ _); (split; [|by rewrite append_echo_output]); [|done].
    apply ok_commit; [done|]. rewrite append_echo_output. simpl. lia.
  - pose proof (lo_pending _ Hl Ei) as Hpend. rewrite Hpend, zlen_nil in Ho.
    split; [|by rewrite append_echo_output]. apply ok_echo; [|done].
    apply ok_raw; [done|lia|done|left; lia].
Qed.

Lemma byte_ok_stopped l s m o : byte_ok (set_stopped l s m) o → m = output_manually_stopped l → byte_ok l o.
Proof. intros Ho ->. destruct o; simpl in *; [done|]. destruct Ho as [? E]. split; [done|]. by rewrite E at 1. Qed.

Lemma ok_flow l b l' : line_ok l → flow_byte l b = Some l' → line_ok l' ∧ icanon l' = icanon l.
Proof.
  intros Hl. unfold flow_byte. destruct (_ && _); [intros [= <-]; split; [by apply ok_stopped|done]|].
  destruct (_ && _); [|done]. intros [= <-]. split; [by apply ok_stopped|done].
Qed.

Lemma master_byte_ok l source :
  line_ok l → ∃ o, master_byte (icanon l) l source = Some o ∧ byte_ok l o.
Proof.
  intros Hl. unfold master_byte. destruct (literal_next l) eqn:El.
  { eexists. split; [done|]. by apply ok_literal_byte. }
  destruct (transformed_input_byte l source) as [b|]; [|by eexists].
  set (l1 := if (_ : bool) then set_stopped l _ _ else l).
  assert (line_ok l1 ∧ icanon l1 = icanon l ∧ ∀ o, byte_ok l1 o → byte_ok l o) as (Hl1 & Hi1 & Hb).
  { unfold l1. destruct (_ && _ && _); [|done]. split_and!; [by apply ok_stopped|done|].
    intros o Ho. by apply byte_ok_stopped in Ho. }
  destruct (signal_for_input l1 b) as [signal|].
  { eexists. split; [done|]. split; [by apply ok_flush_for_signal|].
    rewrite <- Hi1. unfold flush_for_signal. by destruct (lflag l1 _). }
  destruct (if iflag l TERMINAL_IFLAG_IXON then flow_byte l1 b else None) as [l2|] eqn:Ef.
  { eexists. split; [done|]. destruct (iflag l _); [|done]. apply ok_flow in Ef; [|done].
    simpl. by rewrite <- Hi1. }
  rewrite <- Hi1. destruct (icanon l1) eqn:Ei.
  - destruct (ok_editing l1 b Hl1 Ei) as (o & -> & Ho). cbn [mbind option_bind].
    eexists. split; [done|]. apply Hb. destruct o as [o|]; [done|].
    pose proof (ok_data l1 b Hl1) as Hd. by rewrite Ei in Hd.
  - cbn [mbind option_bind]. eexists. split; [done|]. apply Hb.
    pose proof (ok_data l1 b Hl1) as Hd. by rewrite Ei in Hd.
Qed.

(** ** The operations on the queues *)

Lemma master_bytes_ok l bytes :
  line_ok l →
  ∃ l' k signals, master_bytes (icanon l) l bytes = Some (l', k, signals) ∧ line_ok l' ∧
    icanon l' = icanon l ∧ (k ≤ length bytes)%nat ∧
    (k = 0%nat → bytes ≠ [] →
     l' = set_stopped l (output_stopped l') (output_manually_stopped l) ∧ signals = []).
Proof.
  revert l. induction bytes as [|b bytes IH]; intros l Hl; simpl.
  { exists l, 0%nat, []. by split_and!. }
  destruct (master_byte_ok l b Hl) as (o & -> & Ho). cbn [mbind option_bind].
  destruct o as [l1 signal|l1]; destruct Ho as [Ho1 Ho2].
  - rewrite <- Ho2. destruct (IH l1 Ho1) as (l' & k & signals & -> & H1 & H2 & H3 & _).
    cbn [mbind option_bind]. eexists l', (S k), _. split_and!; [done|done|done|lia|done].
  - exists l1, 0%nat, []. split_and!; try done; [|lia]. by rewrite Ho2.
Qed.

Lemma ok_slave_bytes l bytes :
  line_ok l → line_ok (slave_bytes l bytes).1 ∧ ((slave_bytes l bytes).2 ≤ length bytes)%nat ∧
  output (slave_bytes l bytes).1 = output l ++ flat_map (expand l) (take (slave_bytes l bytes).2 bytes) ∧
  ((slave_bytes l bytes).2 = 0%nat → (slave_bytes l bytes).1 = l).
Proof.
  revert l. induction bytes as [|b bytes IH]; intros l Hl; simpl.
  { rewrite app_nil_r. by split_and!. }
  destruct (can_append_output l [b]) eqn:E; simpl; [|rewrite app_nil_r; split_and!; try done; lia].
  destruct (IH (append_output l b)) as (H1 & H2 & H3 & _); [by apply (ok_echo l [b])|].
  destruct (slave_bytes _ bytes) as [l' k]. simpl in *. split_and!; [done|lia| |done].
  rewrite H3. by rewrite <- app_assoc.
Qed.

Lemma ok_read_input master_open maximum l :
  line_ok l → 0 < maximum → line_ok (read_input master_open maximum l).1.
Proof.
  intros [H1 H2 H3 H4 H5 H6 H7 H8 H9 H10] Hm. unfold read_input.
  destruct (input_records l) as [|r rs] eqn:Er; [split; simpl; rewrite ?Er; done|].
  apply Forall_cons in H2 as [Hr Hrs]. simpl in H1. rewrite zlen_cons in H4.
  assert (0 ≤ total_remaining rs) as Hnn.
  { clear -Hrs. unfold total_remaining. induction Hrs; simpl; lia. }
  unfold input_occupancy in *. destruct (remaining r =? 0) eqn:E0.
  - split; simpl; try done; try lia.
  - set (n := Z.min maximum (remaining r)).
    assert (zlen (drop (Z.to_nat n) (input l)) = zlen (input l) - n) as Hd.
    { unfold zlen in *. rewrite length_drop. lia. }
    split; simpl; try done; unfold input_occupancy; simpl; rewrite ?Hd; try lia;
      destruct (remaining r - n =? 0) eqn:E; rewrite ?zlen_cons; simpl; try lia; try done.
    + constructor; [simpl; lia|done].
    + intros Hc%H5. rewrite zlen_cons in Hc. lia.
Qed.

Lemma ok_read_output slave_open maximum l : line_ok l → line_ok (read_output slave_open maximum l).1.
Proof.
  intros Hl. unfold read_output. destruct (_ && _); [done|]. case_bool_decide; [done|]. simpl.
  apply ok_refill; simpl.
  - change (line_ok (set_output l [] [])). by apply ok_flush_output.
  - pose proof (lo_output _ Hl). unfold zlen in *. rewrite length_drop. lia.
  - apply Hl.
Qed.

Lemma ok_change_attributes l a : line_ok l → line_ok (change_attributes l a).
Proof.
  intros Hl. unfold change_attributes. set (l1 := set_line_attributes l a).
  set (l2 := if (_ : bool) then set_literal_next l1 false else l1).
  set (l3 := if (_ : bool) then set_stopped l2 false _ else l2).
  assert (canonical_input l3 = canonical_input l ∧ input l3 = input l ∧
          input_records l3 = input_records l ∧ output l3 = output l ∧ edit_echo l3 = edit_echo l ∧
          icanon l3 = flag (local_flags a) TERMINAL_LFLAG_ICANON ∧
          (literal_next l3 = true → icanon l3 = true)) as (E1 & E2 & E3 & E4 & E5 & E6 & E7).
  { unfold l3, l2, l1, icanon, lflag.
    destruct (flag (input_flags a) _), (flag (local_flags a) TERMINAL_LFLAG_ICANON) eqn:Ea,
      (flag (local_flags a) TERMINAL_LFLAG_IEXTEN); simpl; by rewrite ?Ea. }
  destruct Hl as [H1 H2 H3 H4 H5 H6 H7 H8 H9 H10]. unfold input_occupancy in H3.
  assert (∀ c, (c = canonical_input l ∧ (icanon l3 = false → c = [])) ∨ c = [] →
               line_ok (set_canonical_input l3 c)) as Hok.
  { intros c Hc. split; simpl; rewrite ?E2, ?E3, ?E4, ?E5; try done.
    - unfold input_occupancy. simpl. rewrite E2. destruct Hc as [[-> _]| ->]; [lia|].
      rewrite zlen_nil. pose proof (zlen_nonneg (canonical_input l)). lia.
    - by destruct Hc as [[-> _]| ->].
    - intros Hf. destruct Hc as [[_ Hc]| ->]; [by apply Hc|done]. }
  rewrite <- E6, E1. destruct (icanon l && _ && _) eqn:Ec.
  - rewrite !andb_true_iff, !negb_true_iff, bool_decide_eq_false in Ec. destruct Ec as [[_ _] Hne].
    apply ok_raw_all; simpl; rewrite ?E2, ?E3; [apply Hok; by right|lia|done|left; auto].
  - replace l3 with (set_canonical_input l3 (canonical_input l)) by (rewrite <- E1; by destruct l3).
    apply Hok. left. split; [done|]. intros Hf. rewrite Hf in Ec. simpl in Ec.
    destruct (icanon l) eqn:Ei; [|by apply H10]. simpl in Ec.
    rewrite negb_false_iff, bool_decide_eq_true in Ec. done.
Qed.

Lemma ok_send_flow master_open index l : line_ok l → line_ok (send_flow master_open index l).1.
Proof.
  intros Hl. unfold send_flow. destruct (_ =? 0); [done|]. destruct (negb _); [done|].
  destruct (_ =? BUFFER_CAPACITY) eqn:E; [done|]. apply Z.eqb_neq in E.
  destruct Hl as [H1 H2 H3 H4 H5 H6 H7 H8 H9 H10]. split; simpl; try done.
  - rewrite zlen_app, zlen_cons, zlen_nil. lia.
  - intros Hne. by specialize (H7 Hne).
Qed.
Lemma ok_drain master_open l : line_ok l → line_ok (drain_line master_open l).1.
Proof.
  intros Hl. unfold drain_line. destruct (_ && _); [done|].
  destruct (negb _); [by apply ok_flush_output|done].
Qed.

(** The states the queues of a terminal can reach. *)
Inductive line_reachable (sane : TerminalAttributes) : Line → Prop :=
  | reach_new : line_reachable sane (line_new sane)
  | reach_write_master l slave_open bytes l' res :
      line_reachable sane l → write_master slave_open l bytes = Some (l', res) →
      line_reachable sane l'
  | reach_write_slave l master_open bytes :
      line_reachable sane l → line_reachable sane (write_slave master_open l bytes).1
  | reach_read_input l master_open maximum :
      line_reachable sane l → 0 < maximum →
      line_reachable sane (read_input master_open maximum l).1
  | reach_read_output l slave_open maximum :
      line_reachable sane l → line_reachable sane (read_output slave_open maximum l).1
  | reach_attributes l a :
      line_reachable sane l → line_reachable sane (change_attributes l a)
  | reach_flush_input l : line_reachable sane l → line_reachable sane (flush_input l)
  | reach_flush_output l : line_reachable sane l → line_reachable sane (set_output l [] [])
  | reach_stop l s m : line_reachable sane l → line_reachable sane (set_stopped l s m)
  | reach_flow l master_open index :
      line_reachable sane l → line_reachable sane (send_flow master_open index l).1
  | reach_drain l master_open :
      line_reachable sane l → line_reachable sane (drain_line master_open l).1.

Lemma ok_new sane : line_ok (line_new sane).
Proof. by split. Qed.

Lemma ok_write_master slave_open l bytes l' res :
  line_ok l → write_master slave_open l bytes = Some (l', res) → line_ok l'.
Proof.
  intros Hl. unfold write_master. destruct (negb slave_open); [by intros [= <- _]|].
  destruct (master_bytes_ok l bytes Hl) as (l1 & k & signals & -> & H & _). by intros [= <- _].
Qed.
Lemma write_master_total slave_open l bytes :
  line_ok l → ∃ l' res, write_master slave_open l bytes = Some (l', res) ∧ line_ok l'.
Proof.
  intros Hl. unfold write_master. destruct (negb slave_open); [by eexists _, _|].
  destruct (master_bytes_ok l bytes Hl) as (l1 & k & signals & -> & H & _). by eexists _, _.
Qed.
Lemma ok_write_slave master_open l bytes : line_ok l → line_ok (write_slave master_open l bytes).1.
Proof.
  intros Hl. unfold write_slave. destruct (negb master_open); [done|].
  pose proof (ok_slave_bytes l bytes Hl) as (H & _). by destruct (slave_bytes l bytes).
Qed.

Lemma reachable_ok sane l : line_reachable sane l → line_ok l.
Proof.
  induction 1.
  - apply ok_new.
  - by eapply ok_write_master.
  - by apply ok_write_slave.
  - by apply ok_read_input.
  - by apply ok_read_output.
  - by apply ok_change_attributes.
  - by apply ok_flush_input.
  - by apply ok_flush_output.
  - by apply ok_stopped.
  - by apply ok_send_flow.
  - by apply ok_drain.
Qed.

(** ** What the slave reads *)

(** The committed input as the records it is delivered in. *)
Fixpoint deliver (records : list InputRecord) (bytes : list Z) : list (list Z * bool) :=
  match records with
  | [] => []
  | r :: records =>
      let n := Z.to_nat (remaining r) in
      (take n bytes, canonical r) :: deliver records (drop n bytes)
  end.
Definition lines (l : Line) : list (list Z * bool) := deliver (input_records l) (input l).

Lemma deliver_app r1 r2 b1 b2 :
  Forall (λ r, 0 ≤ remaining r) r1 → total_remaining r1 = zlen b1 →
  deliver (r1 ++ r2) (b1 ++ b2) = deliver r1 b1 ++ deliver r2 b2.
Proof.
  intros Hn. revert b1. induction Hn as [|r r1 Hr Hn IH]; intros b1 Ht; simpl in *.
  - destruct b1; [done|]. rewrite zlen_cons in Ht. pose proof (zlen_nonneg b1). lia.
  - assert (0 ≤ total_remaining r1) as H0
      by (clear -Hn; unfold total_remaining; induction Hn; simpl; lia).
    assert (Z.to_nat (remaining r) ≤ length b1)%nat as Hl by (unfold zlen in *; lia).
    rewrite take_app_le, drop_app_le by done. f_equal. apply IH.
    unfold zlen in *. rewrite length_drop. lia.
Qed.

Lemma commit_lines l l' :
  line_ok l → input l' = input l → input_records l' = input_records l →
  lines (commit_canonical_input l') = lines l ++ [(canonical_input l', true)].
Proof.
  intros Hl Ei Er. unfold lines. simpl. rewrite Ei, Er, deliver_app by apply Hl. simpl. unfold zlen.
  by rewrite Nat2Z.id, firstn_all.
Qed.

(** ** Ordinary bytes *)

(** The characters with a meaning in canonical mode, and those of flow control. *)
Definition editing_character (l : Line) (b : Z) : bool :=
  (lflag l TERMINAL_LFLAG_IEXTEN &&
   (is_cc l TERMINAL_CC_VWERASE b || is_cc l TERMINAL_CC_VREPRINT b || is_cc l TERMINAL_CC_VLNEXT b)) ||
  is_cc l TERMINAL_CC_VERASE b || is_cc l TERMINAL_CC_VKILL b || is_cc l TERMINAL_CC_VEOF b.
Definition flow_character (l : Line) (b : Z) : bool :=
  iflag l TERMINAL_IFLAG_IXON && (is_cc l TERMINAL_CC_VSTOP b || is_cc l TERMINAL_CC_VSTART b).

(** [b] has no special meaning in the present mode. *)
Definition ordinary (l : Line) (b : Z) : Prop :=
  transformed_input_byte l b = Some b ∧ signal_for_input l b = None ∧ flow_character l b = false ∧
  (icanon l = true → editing_character l b = false).

Lemma editing_none l b : editing_character l b = false → editing_byte l b = Some None.
Proof.
  unfold editing_character, editing_byte, extended_edit. rewrite !orb_false_iff.
  intros (((H1 & H2) & H3) & H4). rewrite H2, H3, H4.
  destruct (lflag l TERMINAL_LFLAG_IEXTEN); cbn [negb andb] in *; [|done].
  apply orb_false_iff in H1 as [H1 H5]. apply orb_false_iff in H1 as [-> ->].
  cbn. by rewrite H5.
Qed.
Lemma flow_none l b :
  flow_character l b = false → (if iflag l TERMINAL_IFLAG_IXON then flow_byte l b else None) = None.
Proof.
  unfold flow_character, flow_byte. destruct (iflag l _); cbn [andb]; [|done].
  rewrite orb_false_iff. unfold is_cc. by intros [-> ->].
Qed.

Lemma ordinary_master_byte l b :
  ordinary l b → literal_next l = false → iflag l TERMINAL_IFLAG_IXANY = false →
  master_byte (icanon l) l b = Some (data_byte (icanon l) l b).
Proof.
  intros (H1 & H2 & H3 & H4) Hl Hx. unfold master_byte. rewrite Hl, H1, Hx, andb_false_r. cbn [andb].
  rewrite H2, flow_none by done. destruct (icanon l); [by rewrite editing_none by auto|done].
Qed.

(** What a byte means depends on the attributes alone. *)
Lemma ordinary_mode l l' b : attributes l' = attributes l → ordinary l b → ordinary l' b.
Proof.
  intros E. unfold ordinary, transformed_input_byte, signal_for_input, flow_character, editing_character,
    iflag, icanon, lflag, is_cc, cc. by rewrite !E.
Qed.

(** A raw byte that fits is appended to the input. *)
Lemma data_byte_raw l b :
  has_input_capacity l = true → should_echo l b = false → zlen (output l) ≤ BUFFER_CAPACITY →
  data_byte false l b = Consumed (append_raw_input l b) None.
Proof.
  intros Hc He Ho. unfold data_byte, echo_of. cbn [andb]. rewrite Hc, He. cbn [negb].
  assert (can_append_output l [] = true) as ->; [|done].
  apply can_append_output_true; [done|]. unfold has_input_capacity in Hc.
  rewrite !andb_true_iff, bool_decide_eq_true in Hc. simpl. rewrite zlen_nil. split; [apply Hc|lia].
Qed.

Lemma has_input_capacity_true l :
  edit_echo l = [] → input_occupancy l < BUFFER_CAPACITY → zlen (input_records l) < BUFFER_CAPACITY →
  has_input_capacity l = true.
Proof.
  intros He Ho Hr. unfold has_input_capacity. rewrite bool_decide_eq_true_2 by done. lia.
Qed.

(** A raw line: nothing is transformed, echoed or interpreted. *)
Record raw_mode (l : Line) (bytes : list Z) : Prop := mkRawMode {
  rm_canon : icanon l = false;
  rm_any : iflag l TERMINAL_IFLAG_IXANY = false;
  rm_bytes : ∀ b, b ∈ bytes → ordinary l b ∧ should_echo l b = false;
}.

Lemma raw_bytes l bytes :
  line_ok l → edit_echo l = [] → raw_mode l bytes →
  input_occupancy l + zlen bytes ≤ BUFFER_CAPACITY →
  (zlen (input_records l) < BUFFER_CAPACITY - 1 ∨
   zlen (input_records l) < BUFFER_CAPACITY ∧
   ∃ r, last (input_records l) = Some r ∧ canonical r = false) →
  ∃ l', master_bytes false l bytes = Some (l', length bytes, []) ∧ input l' = input l ++ bytes ∧
    output l' = output l ∧ line_ok l'.
Proof.
  revert l. induction bytes as [|b bytes IH]; intros l Hl He Hm Hb Hr; simpl.
  { exists l. by rewrite app_nil_r. }
  destruct Hm as [M1 M2 M3]. rewrite zlen_cons in Hb. pose proof (zlen_nonneg bytes).
  destruct (M3 b) as [Ho Hs]; [by left|].
  assert (literal_next l = false) as Hlit.
  { destruct (literal_next l) eqn:E; [|done]. apply (lo_literal _ Hl) in E. congruence. }
  pose proof (ordinary_master_byte l b Ho Hlit M2) as E. rewrite M1 in E. rewrite E. cbn [mbind option_bind].
  rewrite data_byte_raw; [|apply has_input_capacity_true; [done|lia|lia]|done|apply Hl].
  pose proof (lo_pending _ Hl M1) as Hp.
  destruct (append_raw_records l b) as (_ & R1 & _ & R2 & R3).
  destruct (IH (append_raw_input l b)) as (l' & -> & H1 & H2 & H3).
  - apply ok_raw; [done| |done|left; lia]. unfold input_occupancy in Hb. rewrite Hp, zlen_nil in Hb. lia.
  - done.
  - split; [done|done|]. intros c Hc. destruct (M3 c) as [Hoc Hsc]; [by right|].
    split; [by eapply ordinary_mode|done].
  - unfold input_occupancy in *. simpl. rewrite zlen_app, zlen_cons, zlen_nil. lia.
  - right. split; [|done]. destruct Hr as [Hr|[Hr Hr']]; [lia|]. by rewrite R3.
  - cbn [mbind option_bind]. exists l'. split_and!; try done. rewrite H1. simpl. by rewrite <- app_assoc.
Qed.

(** A canonical line: what is typed is ordinary and no byte but the last ends it. *)
Record canonical_mode (l : Line) (bytes : list Z) : Prop := mkCanonicalMode {
  cm_canon : icanon l = true;
  cm_any : iflag l TERMINAL_IFLAG_IXANY = false;
  cm_quote : literal_next l = false;
  cm_echo : edit_echo l = [];
  cm_bytes : ∀ b, b ∈ bytes → ordinary l b ∧ canonical_delimiter l b = false;
  cm_end : ordinary l NL;
}.
(** What the bytes look like on the master's side. *)
Definition echoed (l : Line) (bytes : list Z) : list Z := flat_map (expand l) (flat_map (echo_of l) bytes).
(** There is room for the bytes and their echo. *)
Definition line_room (l : Line) (bytes : list Z) : Prop :=
  input_occupancy l + zlen bytes ≤ BUFFER_CAPACITY ∧
  zlen (input_records l) < BUFFER_CAPACITY ∧
  zlen (output l) + zlen (echoed l bytes) ≤ BUFFER_CAPACITY.

Lemma echoed_app l b1 b2 : echoed l (b1 ++ b2) = echoed l b1 ++ echoed l b2.
Proof. unfold echoed. by rewrite !flat_map_app. Qed.
Lemma echoed_mode l l' bytes : attributes l' = attributes l → echoed l' bytes = echoed l bytes.
Proof. destruct l, l'; simpl. by intros ->. Qed.

(** The pending line and the echo after [b]. *)
Definition typed (l : Line) (b : Z) : Line :=
  set_output (set_canonical_input l (canonical_input l ++ [b])) (output l ++ echoed l [b]) (edit_echo l).

Lemma data_byte_canonical l b :
  edit_echo l = [] → line_room l [b] → line_ok l →
  (canonical_delimiter l b = false → canonical_data_full l = false) →
  data_byte true l b =
    Consumed (if canonical_delimiter l b then commit_canonical_input (typed l b) else typed l b) None.
Proof.
  intros He (Ho & Hr & Hout) Hl Hf. rewrite zlen_cons, zlen_nil in Ho.
  unfold input_occupancy in Ho. pose proof (zlen_nonneg (input l)).
  unfold data_byte. cbn [andb].
  assert (has_input_capacity l = true) as ->
    by (apply has_input_capacity_true; unfold input_occupancy; first [done|lia]).
  assert (can_append_output l (echo_of l b) = true) as ->.
  { apply can_append_output_true; [apply Hl|]. split; [done|].
    unfold echoed in Hout. cbn [flat_map] in Hout. by rewrite app_nil_r in Hout. }
  cbn [negb].
  assert (append_echo (set_canonical_input l (canonical_input l ++ [b])) (echo_of l b) = typed l b) as ->.
  { rewrite append_echo_output. unfold typed, echoed. cbn [flat_map]. by rewrite app_nil_r. }
  change (canonical_delimiter (typed l b) b) with (canonical_delimiter l b).
  destruct (canonical_delimiter l b) eqn:Ed; cbn [negb andb]; [by rewrite andb_false_r|].
  by rewrite Hf.
Qed.

Lemma line_room_typed l b bytes :
  line_room l (b :: bytes) → line_room l [b] ∧ line_room (typed l b) bytes.
Proof.
  intros (H1 & H2 & H3). rewrite zlen_cons in H1. change (b :: bytes) with ([b] ++ bytes) in H3.
  rewrite echoed_app, zlen_app in H3. pose proof (zlen_nonneg bytes). pose proof (zlen_nonneg (echoed l bytes)).
  split; split_and!.
  - rewrite zlen_cons, zlen_nil. lia.
  - done.
  - lia.
  - unfold input_occupancy in *. simpl. rewrite zlen_app, zlen_cons, zlen_nil. lia.
  - done.
  - rewrite (echoed_mode l (typed l b)) by done. simpl. rewrite zlen_app. lia.
Qed.

Lemma data_room l b bytes c :
  line_room l (b :: bytes ++ [c]) → canonical_data_full l = false.
Proof.
  intros (H & _). unfold canonical_data_full, CANONICAL_LINE_CAPACITY, input_occupancy in *.
  rewrite zlen_cons, zlen_app, zlen_cons, zlen_nil in H.
  pose proof (zlen_nonneg bytes). pose proof (zlen_nonneg (input l)). lia.
Qed.

(** Typing the bytes of a line, and its end. *)
Lemma canonical_bytes l bytes :
  line_ok l → canonical_mode l bytes → line_room l (bytes ++ [NL]) →
  ∃ l', master_bytes true l (bytes ++ [NL]) = Some (l', S (length bytes), []) ∧
    lines l' = lines l ++ [(canonical_input l ++ bytes ++ [NL], true)] ∧
    canonical_input l' = [] ∧ output l' = output l ++ echoed l (bytes ++ [NL]).
Proof.
  revert l. induction bytes as [|b bytes IH]; intros l Hl Hm Hr.
  - cbn [app master_bytes length]. destruct Hm as [M1 M2 M3 M4 _ M6].
    pose proof (ordinary_master_byte l NL M6 M3 M2) as E. rewrite M1 in E. rewrite E. cbn [mbind option_bind].
    rewrite data_byte_canonical by done. assert (canonical_delimiter l NL = true) as -> by done.
    cbn. eexists. split_and!; [done|by apply (commit_lines l)|done|done].
  - cbn [app master_bytes length]. pose proof Hm as [M1 M2 M3 M4 M5 M6].
    destruct (M5 b) as [Hb Hd]; [by left|].
    pose proof (ordinary_master_byte l b Hb M3 M2) as E. rewrite M1 in E. rewrite E. cbn [mbind option_bind].
    destruct (line_room_typed l b (bytes ++ [NL]) Hr) as [Hr1 Hr2].
    pose proof (ok_data l b Hl) as Hok. rewrite M1 in Hok.
    rewrite data_byte_canonical, Hd in * by (done || intros _; by eapply data_room). destruct Hok as [Hok _].
    destruct (IH (typed l b) Hok) as (l' & -> & H1 & H2 & H3); [|done|].
    { split; try done. intros c Hc. apply M5. by right. }
    cbn [mbind option_bind]. exists l'. split_and!; [done| |done|].
    + rewrite H1. simpl. by rewrite <- (app_assoc (canonical_input l)).
    + rewrite H3, (echoed_mode l (typed l b)) by done. simpl.
      change (b :: bytes ++ [NL]) with ([b] ++ (bytes ++ [NL])).
      by rewrite (echoed_app l [b]), <- app_assoc.
Qed.

(** ** Correctness *)

(** C36: In every state the queues of a terminal can reach, the input records
    partition the committed input, every queue is within its capacity,
    deferred echo waits only on a full output queue, and no line is pending
    outside canonical mode; a write on the master side always returns,
    accepts at least one byte of a nonempty input, or fails and leaves every
    queue as it was. *)
Theorem line_invariant sane l slave_open bytes :
  line_reachable sane l →
  line_ok l ∧
  ∃ l' res, write_master slave_open l bytes = Some (l', res) ∧
    match res with
    | Ok (consumed, _) => (consumed ≤ length bytes)%nat ∧ (bytes ≠ [] → (0 < consumed)%nat)
    | Err e =>
        e = (if slave_open then EAGAIN else EIO) ∧
        l' = set_stopped l (output_stopped l') (output_manually_stopped l)
    end.
Proof.
  intros Hl%reachable_ok. split; [done|]. unfold write_master.
  destruct slave_open; cbn [negb]; [|by eexists _, _; rewrite set_stopped_same].
  destruct (master_bytes_ok l bytes Hl) as (l1 & k & signals & -> & _ & _ & H1 & H2). cbn [mbind option_bind].
  eexists l1, _. split; [done|].
  destruct k as [|k]; [|by split; [|lia]].
  destruct bytes as [|b bytes]; [done|]. cbn. split; [done|]. by apply H2.
Qed.

(** A read on the slave side returns a prefix of the first delivered
    record, as long as asked for, never bytes of a second record, and leaves
    the rest of that record and the others in order; with nothing delivered
    it waits, or completes empty when the master is closed or the terminal
    polls. *)
Theorem slave_read_exact sane l master_open maximum :
  line_reachable sane l → 0 < maximum →
  match lines l with
  | [] =>
      read_input master_open maximum l =
        (l, if negb master_open || (negb (icanon l) && (cc l TERMINAL_CC_VMIN =? 0) &&
                                    (cc l TERMINAL_CC_VTIME =? 0))
            then Ok [] else Err EAGAIN)
  | (bytes, c) :: rest =>
      let n := Z.to_nat maximum in
      ∃ l', read_input master_open maximum l = (l', Ok (take n bytes)) ∧
        lines l' = (if bool_decide (drop n bytes = []) then rest else (drop n bytes, c) :: rest) ∧
        canonical_input l' = canonical_input l ∧ output l' = output l
  end.
Proof.
  intros Hl%reachable_ok Hm. unfold lines, read_input.
  pose proof (lo_records _ Hl) as Ht. pose proof (lo_nonneg _ Hl) as Hn.
  destruct (input_records l) as [|r rs]; cbn [deliver]; [done|].
  apply Forall_cons in Hn as [Hr Hrs]. simpl in Ht.
  assert (0 ≤ total_remaining rs) as H0 by (clear -Hrs; unfold total_remaining; induction Hrs; simpl; lia).
  unfold zlen in Ht. set (n := Z.to_nat maximum). set (k := Z.to_nat (remaining r)).
  rewrite take_take, skipn_firstn_comm.
  destruct (remaining r =? 0) eqn:E0.
  - exists (set_input l (input l) rs). assert (k = 0%nat) as -> by lia.
    rewrite Nat.min_0_r. cbn [Nat.sub take drop]. by rewrite bool_decide_eq_true_2.
  - eexists. split_and!; [f_equal; f_equal; f_equal; lia| |done|done]. simpl.
    case_bool_decide as Hd.
    + apply (f_equal length) in Hd. rewrite length_take, length_drop in Hd. simpl in Hd.
      assert ((remaining r - Z.min maximum (remaining r) =? 0) = true) as -> by lia.
      by replace (Z.to_nat (Z.min maximum (remaining r))) with k by lia.
    + assert (maximum < remaining r) as Hlt.
      { apply Z.nle_gt. intros ?. apply Hd. by replace (k - n)%nat with 0%nat by lia. }
      replace (Z.min maximum (remaining r)) with maximum by lia.
      assert ((remaining r - maximum =? 0) = false) as -> by lia.
      cbn [deliver remaining canonical]. rewrite drop_drop.
      replace (Z.to_nat (remaining r - maximum)) with (k - n)%nat by lia.
      by replace (Z.to_nat maximum + (k - n))%nat with k by lia.
Qed.

(** Typing ordinary bytes and a newline in canonical mode, with room for
    them and their echo, consumes all of them, delivers exactly one further
    record holding the pending line followed by them, leaves no line
    pending, and echoes exactly their expansion. *)
Theorem canonical_line_delivered sane l bytes :
  line_reachable sane l → canonical_mode l bytes → line_room l (bytes ++ [NL]) →
  ∃ l', write_master true l (bytes ++ [NL]) = Some (l', Ok (S (length bytes), [])) ∧
    lines l' = lines l ++ [(canonical_input l ++ bytes ++ [NL], true)] ∧
    canonical_input l' = [] ∧ output l' = output l ++ echoed l (bytes ++ [NL]).
Proof.
  intros Hl%reachable_ok Hm Hr. destruct (canonical_bytes l bytes Hl Hm Hr) as (l' & E & H).
  exists l'. split; [|done]. unfold write_master. by rewrite (cm_canon _ _ Hm), E.
Qed.

(** In a mode that transforms, echoes and interprets nothing, bytes written
    on the master side that fit are appended to the input unchanged, and the
    output is untouched. *)
Theorem raw_transparent sane l bytes :
  line_reachable sane l → edit_echo l = [] → raw_mode l bytes →
  input_occupancy l + zlen bytes ≤ BUFFER_CAPACITY → zlen (input_records l) < BUFFER_CAPACITY - 1 →
  ∃ l', write_master true l bytes = Some (l', Ok (length bytes, [])) ∧
    input l' = input l ++ bytes ∧ output l' = output l.
Proof.
  intros Hl%reachable_ok He Hm Ho Hr.
  destruct (raw_bytes l bytes Hl He Hm Ho) as (l' & E & H1 & H2 & _); [by left|].
  exists l'. split; [|done]. unfold write_master. rewrite (rm_canon _ _ Hm), E. cbn. by destruct bytes.
Qed.
End Discipline.

(** ** A terminal *)

(** One bit for each flag, one index for each control character. *)
Instance example_protocol : TerminalProtocol := {|
  TERMINAL_IFLAG_ISTRIP := 1; TERMINAL_IFLAG_IUTF8 := 2; TERMINAL_IFLAG_INLCR := 4;
  TERMINAL_IFLAG_IGNCR := 8; TERMINAL_IFLAG_ICRNL := 16; TERMINAL_IFLAG_IXON := 32;
  TERMINAL_IFLAG_IXANY := 64;
  TERMINAL_OFLAG_OPOST := 1; TERMINAL_OFLAG_ONLCR := 2;
  TERMINAL_LFLAG_ICANON := 1; TERMINAL_LFLAG_ISIG := 2; TERMINAL_LFLAG_ECHO := 4;
  TERMINAL_LFLAG_ECHOE := 8; TERMINAL_LFLAG_ECHOK := 16; TERMINAL_LFLAG_ECHONL := 32;
  TERMINAL_LFLAG_TOSTOP := 64; TERMINAL_LFLAG_IEXTEN := 128; TERMINAL_LFLAG_NOFLSH := 256;
  TERMINAL_CFLAG_CS8 := 1; TERMINAL_CFLAG_CREAD := 2;
  TERMINAL_CC_VINTR := 0; TERMINAL_CC_VQUIT := 1; TERMINAL_CC_VSUSP := 2;
  TERMINAL_CC_VERASE := 3; TERMINAL_CC_VKILL := 4; TERMINAL_CC_VEOF := 5;
  TERMINAL_CC_VEOL := 6; TERMINAL_CC_VEOL2 := 7; TERMINAL_CC_VSTART := 8;
  TERMINAL_CC_VSTOP := 9; TERMINAL_CC_VLNEXT := 10; TERMINAL_CC_VWERASE := 11;
  TERMINAL_CC_VREPRINT := 12; TERMINAL_CC_VMIN := 13; TERMINAL_CC_VTIME := 14;
  SIGNAL_INT := 2; SIGNAL_QUIT := 3; SIGNAL_TSTP := 20; SIGNAL_WINCH := 28; SIGNAL_HUP := 1;
|}.
Definition example_characters : nat → Z := λ i,
  default 0 ([3; 28; 26; 127; 21; 4; 0; 0; 17; 19; 22; 23; 18; 1; 0] !! i).
Definition example_cooked : TerminalAttributes := mkAttributes 48 3 191 3 example_characters.
Definition example_raw : TerminalAttributes := mkAttributes 0 0 0 3 example_characters.
(** "hi", with its line pending. *)
Definition example_line : Line :=
  default (line_new example_cooked) (fst <$> write_master true (line_new example_cooked) [104; 105; 10; 104]).

Lemma example_line_reachable : line_reachable example_cooked example_line.
Proof.
  apply (reach_write_master _ (line_new example_cooked) true [104; 105; 10; 104] _ (Ok (4%nat, []))).
  - constructor.
  - vm_compute. reflexivity.
Qed.
Lemma example_ordinary l bytes :
  forallb (λ b, bool_decide (transformed_input_byte l b = Some b) &&
                bool_decide (signal_for_input l b = None) && negb (flow_character l b) &&
                negb (icanon l && editing_character l b)) bytes = true →
  ∀ b, b ∈ bytes → ordinary l b.
Proof.
  rewrite forallb_forall. intros H b Hb%list_elem_of_In. apply H in Hb. unfold ordinary.
  rewrite !andb_true_iff, !bool_decide_eq_true, !negb_true_iff, andb_false_iff in Hb. naive_solver congruence.
Qed.

Lemma line_invariant_witness :
  line_reachable example_cooked example_line ∧ line_ok example_line ∧
  ∃ l' res, write_master true example_line [105; 10] = Some (l', res).
Proof.
  split; [exact example_line_reachable|].
  destruct (line_invariant example_cooked example_line true [105; 10] example_line_reachable)
    as (H & l' & res & E & _).
  split; [exact H|]. by exists l', res.
Defined.

Lemma slave_read_exact_witness :
  ∃ l', read_input true 2 example_line = (l', Ok [104; 105]) ∧ lines l' = [([10], true)].
Proof.
  pose proof (slave_read_exact example_cooked example_line true 2 example_line_reachable eq_refl) as H.
  assert (lines example_line = [([104; 105; 10], true)]) as E by (vm_compute; reflexivity).
  rewrite E in H. destruct H as (l' & Hr & Hl & _). exists l'. split; [exact Hr|exact Hl].
Defined.

Lemma canonical_line_delivered_witness :
  ∃ l', write_master true example_line [105; 10] = Some (l', Ok (2%nat, [])) ∧
    lines l' = [([104; 105; 10], true); ([104; 105; 10], true)] ∧ output l' = [104; 105; 13; 10; 104; 105; 13; 10].
Proof.
  assert (lines example_line = [([104; 105; 10], true)] ∧ canonical_input example_line = [104] ∧
          output example_line = [104; 105; 13; 10; 104] ∧ echoed example_line [105; 10] = [105; 13; 10])
    as (E1 & E2 & E3 & E4) by (vm_compute; done).
  destruct (canonical_line_delivered example_cooked example_line [105] example_line_reachable)
    as (l' & E & H1 & _ & H2).
  - split; [by vm_compute|by vm_compute|by vm_compute|by vm_compute| |].
    + intros b Hb. split; [by apply (example_ordinary _ [105])|]. by apply list_elem_of_singleton in Hb as ->.
    + apply (example_ordinary _ [10]); [by vm_compute|by left].
  - split_and!; by vm_compute.
  - rewrite E1, E2 in H1. change ([105] ++ [NL]) with [105; 10] in H2. rewrite E3, E4 in H2.
    exists l'. split_and!; [exact E|exact H1|exact H2].
Defined.

Lemma raw_transparent_witness :
  ∃ l', write_master true (line_new example_raw) [3; 13; 127] = Some (l', Ok (3%nat, [])) ∧
    input l' = [3; 13; 127].
Proof.
  destruct (raw_transparent example_raw (line_new example_raw) [3; 13; 127] (reach_new _) eq_refl)
    as (l' & E & H & _).
  - split; [done|done|]. intros b Hb. split; [by apply (example_ordinary _ [3; 13; 127])|].
    unfold should_echo. by rewrite andb_false_r.
  - by vm_compute.
  - by vm_compute.
  - exists l'. split; [exact E|exact H].
Defined.
