(* ===== verification/PtyManager.v ===== *)
(** * Pseudo-terminal manager

    Models [PtyManager] of [posix/src/pty.rs] and its provider entry point
    [handle_provider_request], over the line discipline of [Pty]: the tables
    of terminals, of the provider objects open on them, of slave factories
    and of metadata references, and the queue of terminal signals.

    The codecs and codes of the wire crates are fields of [PtyProtocol].  A
    name lease is the published name; what a dropped lease sends to the
    cleanup worker ([posix/src/terminal_publication.rs]) is collected in
    [retired].  [Reference] is [posix/src/filesystem_reference.rs]; duplicating
    its native handle is the function [native_duplicate]. *)

From stdpp Require Import sorting.
From S2P Require Import Prelude Text Pty.

Definition ENOTTY : Z := 25.
Definition ENXIO : Z := 6.
Definition ERANGE : Z := 34.

(** What a request header of the provider crate carries. *)
Record RequestHeader := mkRequestHeader {
  opcode : Z;
  object_id : Z;
  basis : Z;
  request_length : Z;
}.

Class PtyProtocol := {
  pty_terminal :: TerminalProtocol;
  sane : TerminalAttributes;
  WindowSize : Type;
  window_size_eq_dec :: EqDecision WindowSize;
  window_size_default : WindowSize;
  PTY_CONTROL_SET_SLAVE_LOCK : Z; PTY_CONTROL_GET_SLAVE_LOCK : Z; PTY_CONTROL_GET_SLAVE_NAME : Z;
  PTY_CONTROL_FLOW : Z; PTY_CONTROL_GET_LIMITS : Z; PTY_CONTROL_GET_WINDOW_SIZE : Z;
  PTY_CONTROL_SET_WINDOW_SIZE : Z; PTY_CONTROL_GET_ATTRIBUTES : Z;
  PTY_CONTROL_SET_ATTRIBUTES_NOW : Z; PTY_CONTROL_SET_ATTRIBUTES_DRAIN : Z;
  PTY_CONTROL_SET_ATTRIBUTES_FLUSH : Z; PTY_CONTROL_DRAIN : Z; PTY_CONTROL_FLUSH : Z;
  PTY_QUERY_LIMITS : Z; PTY_QUERY_ATTRIBUTES : Z; PTY_QUERY_WINDOW_SIZE : Z; PTY_QUERY_READ_SETTINGS : Z;
  TERMINAL_FLUSH_INPUT : Z; TERMINAL_FLUSH_OUTPUT : Z;
  TERMINAL_ATTRIBUTES_LEN : Z; TERMINAL_WINDOW_SIZE_LEN : Z; TERMINAL_READ_SETTINGS_LEN : Z;
  LIMITS_RESPONSE_LEN : Z;
  encode_pty_name : list Z → option (list Z);
  (** The four actions that [decode_terminal_flow] admits. *)
  TERMINAL_FLOW_OUTPUT_STOP : Z; TERMINAL_FLOW_OUTPUT_START : Z;
  TERMINAL_FLOW_INPUT_STOP : Z; TERMINAL_FLOW_INPUT_START : Z;
  decode_terminal_flow : list Z → option Z;
  decode_terminal_window_size : list Z → option WindowSize;
  decode_terminal_attributes : list Z → option TerminalAttributes;
  decode_terminal_flush : list Z → option Z;
  encode_limits : Z → Z → Z → list Z;
  encode_terminal_attributes : TerminalAttributes → option (list Z);
  encode_terminal_window_size : WindowSize → option (list Z);
  encode_terminal_read_settings : bool → Z → Z → option (list Z);
  HANDLE_SIGNAL_READABLE : Z; HANDLE_SIGNAL_WRITABLE : Z; HANDLE_SIGNAL_PEER_CLOSED : Z;
  HANDLE_SIGNAL_IDLE : Z;
  HANDLE_RIGHT_TRANSFER : Z; HANDLE_RIGHT_DUPLICATE : Z; HANDLE_RIGHT_CONTROL : Z;
  OP_RELEASE : Z; OP_READ : Z; OP_WRITE : Z; OP_SEEK : Z; OP_CONTROL : Z; OP_QUERY : Z;
  OP_MEMORY_OBJECT : Z;
  decode_request : list Z → option (RequestHeader * list Z);
  (** [ResponseHeader { opcode, status, object_id, value, data_length }.encode(data, response)]. *)
  encode_response : Z → Z → Z → Z → list Z → list Z → list Z * option Z;
}.

(** [terminal_publication::Name]. *)
Record Name := mkName { component : list Z; name_device : Z; node_id : Z }.

(** ** Metadata references *)

Section Reference.
Context {PP : PtyProtocol}.

Record Reference := mkReference { backend : Z; rights : Z }.
Definition reference_new (backend rights : Z) : result Z Reference :=
  let required := Z.lor HANDLE_RIGHT_DUPLICATE HANDLE_RIGHT_TRANSFER in
  if negb (Z.land rights required =? required) ||
     negb (Z.ldiff rights (Z.lor required HANDLE_RIGHT_CONTROL) =? 0)
  then Err EACCES else Ok (mkReference backend rights).
(** [Reference::duplicate]: the rights asked of the native duplicate are held
    by the source and by the reference. *)
Definition reference_duplicate (native_duplicate : Z → Z → result Z Z) (r : Reference)
    (source_rights requested : Z) : result Z Z :=
  if (Z.land requested HANDLE_RIGHT_TRANSFER =? 0) ||
     negb (Z.ldiff requested (Z.lor HANDLE_RIGHT_TRANSFER HANDLE_RIGHT_CONTROL) =? 0) ||
     negb (Z.land requested source_rights =? requested) ||
     negb (Z.land requested (rights r) =? requested)
  then Err EACCES
  else
    handle ← native_duplicate (backend r) requested;
    if handle =? 0 then Err EIO else Ok handle.
End Reference.

(** ** State *)

Record PtyPair := mkPtyPair { master_object_id : Z; slave_object_id : Z }.
#[global] Instance PtyPair_eq_dec : EqDecision PtyPair.
Proof. solve_decision. Defined.
Inductive PtySide := Master | Slave.
#[global] Instance PtySide_eq_dec : EqDecision PtySide.
Proof. solve_decision. Defined.
Record TerminalSignal := mkTerminalSignal { terminal_id : Z; signal : Z }.
#[global] Instance TerminalSignal_eq_dec : EqDecision TerminalSignal.
Proof. solve_decision. Defined.

Section Manager.
Context {PP : PtyProtocol}.

Record PseudoTerminal := mkTerminal {
  pair : PtyPair;
  live_objects : gset Z;
  master_open : bool;
  slave_open : bool;
  slave_locked : bool;
  line : Line;
  window_size : WindowSize;
  name : option Name;
}.
Definition terminal_new (p : PtyPair) (locked : bool) : PseudoTerminal :=
  mkTerminal p {[master_object_id p; slave_object_id p]} true true locked (line_new sane)
    window_size_default None.
Definition set_line (t : PseudoTerminal) (l : Line) : PseudoTerminal :=
  mkTerminal (pair t) (live_objects t) (master_open t) (slave_open t) (slave_locked t) l (window_size t) (name t).
Definition set_opens (t : PseudoTerminal) (live : gset Z) (m s : bool) (n : option Name) : PseudoTerminal :=
  mkTerminal (pair t) live m s (slave_locked t) (line t) (window_size t) n.
Definition set_locked (t : PseudoTerminal) (b : bool) : PseudoTerminal :=
  mkTerminal (pair t) (live_objects t) (master_open t) (slave_open t) b (line t) (window_size t) (name t).
Definition set_window (t : PseudoTerminal) (w : WindowSize) : PseudoTerminal :=
  mkTerminal (pair t) (live_objects t) (master_open t) (slave_open t) (slave_locked t) (line t) w (name t).

Record PtyManager := mkManager {
  next_id : Z;
  next_object_id : Z;
  terminals : gmap Z PseudoTerminal;
  objects : gmap Z (Z * PtySide);
  slave_factories : gmap Z Z;
  metadata : gmap Z Reference;
  pending_signals : list TerminalSignal;
  (** the names sent to the cleanup worker *)
  retired : list Name;
}.
Definition manager_new : PtyManager := mkManager 1 2 ∅ ∅ ∅ ∅ [] [].
Definition set_next_ids (m : PtyManager) (i o : Z) : PtyManager :=
  mkManager i o (terminals m) (objects m) (slave_factories m) (metadata m) (pending_signals m) (retired m).
Definition set_terminals (m : PtyManager) (ts : gmap Z PseudoTerminal) : PtyManager :=
  mkManager (next_id m) (next_object_id m) ts (objects m) (slave_factories m) (metadata m)
    (pending_signals m) (retired m).
Definition set_objects (m : PtyManager) (os : gmap Z (Z * PtySide)) : PtyManager :=
  mkManager (next_id m) (next_object_id m) (terminals m) os (slave_factories m) (metadata m)
    (pending_signals m) (retired m).
Definition set_factories (m : PtyManager) (fs : gmap Z Z) : PtyManager :=
  mkManager (next_id m) (next_object_id m) (terminals m) (objects m) fs (metadata m)
    (pending_signals m) (retired m).
Definition set_metadata (m : PtyManager) (ms : gmap Z Reference) : PtyManager :=
  mkManager (next_id m) (next_object_id m) (terminals m) (objects m) (slave_factories m) ms
    (pending_signals m) (retired m).
Definition set_signals (m : PtyManager) (ss : list TerminalSignal) : PtyManager :=
  mkManager (next_id m) (next_object_id m) (terminals m) (objects m) (slave_factories m) (metadata m)
    ss (retired m).
(** Dropping a lease. *)
Definition retire_name (m : PtyManager) (n : option Name) : PtyManager :=
  mkManager (next_id m) (next_object_id m) (terminals m) (objects m) (slave_factories m) (metadata m)
    (pending_signals m) (retired m ++ option_list n).
Definition put_terminal (m : PtyManager) (id : Z) (t : PseudoTerminal) : PtyManager :=
  set_terminals m (<[id := t]> (terminals m)).

(** The service-private readiness message: who sent it, and what it names. *)
Definition SYNC_MAGIC : list Z := [80; 84; 89; 83].
Definition authorize_sync_request (request : list Z) (sender : option (Z * Z)) (service_process_id attached_count : Z)
    : result Z PtyPair :=
  if (service_process_id =? 0) ||
     negb (match sender with
           | Some (process_id, thread_id) => (process_id =? service_process_id) && negb (thread_id =? 0)
           | None => false
           end)
  then Err EACCES
  else if negb (zlen request =? 20) || negb (bool_decide (take 4 request = SYNC_MAGIC)) || negb (attached_count =? 0)
  then Err EINVAL
  else Ok (mkPtyPair (from_le_bytes (slice 4 8 request)) (from_le_bytes (slice 12 8 request))).

(** ** Identifiers *)

Definition MAX_OBJECT_ID : Z := I64_MAX.
Definition MAX_TERMINAL_ID : Z := Z.shiftr I64_MAX 1.
Definition clamp (z lo hi : Z) : Z := Z.min hi (Z.max lo z).
Definition advance (id lo hi : Z) : Z := if id =? hi then lo else id + 1.
(** The bounded search for a free identifier: the next counter and the answer. *)
Fixpoint search_id (tries : nat) (next lo hi : Z) (taken : Z → bool) : Z * option Z :=
  match tries with
  | O => (next, None)
  | S tries =>
      let id := clamp next lo hi in
      let next := advance id lo hi in
      if negb (taken id) then (next, Some id) else search_id tries next lo hi taken
  end.
Definition object_taken (m : PtyManager) (id : Z) : bool :=
  bool_decide (is_Some (objects m !! id)) || bool_decide (is_Some (slave_factories m !! id)).
Definition allocate_object_id (m : PtyManager) : PtyManager * option Z :=
  let '(next, id) := search_id (size (objects m) + size (slave_factories m) + 1) (next_object_id m)
                       2 MAX_OBJECT_ID (object_taken m) in
  (set_next_ids m (next_id m) next, id).
Definition allocate_id (m : PtyManager) : PtyManager * option Z :=
  let '(next, id) := search_id (size (terminals m) + 1) (next_id m) 1 MAX_TERMINAL_ID
                       (λ id, bool_decide (is_Some (terminals m !! id))) in
  (set_next_ids m next (next_object_id m), id).

(** ** Opening *)

Definition open_with_slave_lock (locked : bool) : stM PtyManager Z PtyPair := λ m,
  match allocate_id m with
  | (m, None) => (m, Err EAGAIN)
  | (m, Some id) =>
      match allocate_object_id m with
      | (m, None) => (m, Err EAGAIN)
      | (m, Some master) =>
          let m := set_objects m (<[master := (id, Master)]> (objects m)) in
          match allocate_object_id m with
          | (m, None) => (set_objects m (delete master (objects m)), Err EAGAIN)
          | (m, Some slave) =>
              let p := mkPtyPair master slave in
              let m := put_terminal m id (terminal_new p locked) in
              (set_objects m (<[slave := (id, Slave)]> (objects m)), Ok p)
          end
      end
  end.
Definition open : stM PtyManager Z PtyPair := open_with_slave_lock false.

Definition endpoint (m : PtyManager) (object : Z) : result Z (Z * PtySide) := ok_or EBADF (objects m !! object).
Definition get_terminal (m : PtyManager) (id : Z) : result Z PseudoTerminal := ok_or EBADF (terminals m !! id).

Definition reopen_slave (master : Z) : stM PtyManager Z Z := λ m,
  match
    ('(id, side) ← endpoint m master;
     ensure (bool_decide (side = Master)) EBADF;;
     t ← get_terminal m id;
     ensure (master_open t) EBADF;;
     ensure (negb (slave_locked t)) EIO;;
     Ok (id, t))
  with
  | Err e => (m, Err e)
  | Ok (id, _) =>
      match allocate_object_id m with
      | (m, None) => (m, Err EAGAIN)
      | (m, Some object) =>
          match get_terminal m id with
          | Err e => (m, Err e)
          | Ok t =>
              let m := put_terminal m id
                         (set_opens t ({[object]} ∪ live_objects t) (master_open t) true (name t)) in
              (set_objects m (<[object := (id, Slave)]> (objects m)), Ok object)
          end
      end
  end.

Definition create_slave_factory (master : Z) : stM PtyManager Z Z := λ m,
  match
    ('(id, side) ← endpoint m master;
     ensure (bool_decide (side = Master)) EBADF;;
     Ok id)
  with
  | Err e => (m, Err e)
  | Ok id =>
      match allocate_object_id m with
      | (m, None) => (m, Err EAGAIN)
      | (m, Some object) => (set_factories m (<[object := id]> (slave_factories m)), Ok object)
      end
  end.

(** The lease is dropped with the failed call. *)
Definition attach_slave_name (master : Z) (n : Name) : stM PtyManager Z unit := λ m,
  match
    ('(id, side) ← endpoint m master;
     ensure (bool_decide (side = Master)) EBADF;;
     t ← get_terminal m id;
     ensure (master_open t) EBADF;;
     ensure (bool_decide (name t = None)) EINVAL;;
     Ok (id, t))
  with
  | Err e => (retire_name m (Some n), Err e)
  | Ok (id, t) => (put_terminal m id (set_opens t (live_objects t) (master_open t) (slave_open t) (Some n)), Ok tt)
  end.

Definition open_slave_from_factory (factory : Z) : stM PtyManager Z Z := λ m,
  match
    (id ← ok_or EBADF (slave_factories m !! factory);
     t ← get_terminal m id;
     ensure (master_open t) EBADF;;
     Ok (master_object_id (pair t)))
  with
  | Err e => (m, Err e)
  | Ok master => reopen_slave master m
  end.
Definition open_slave_with_metadata (factory : Z) (r : Reference) : stM PtyManager Z Z := λ m,
  match open_slave_from_factory factory m with
  | (m, Err e) => (m, Err e)
  | (m, Ok object) => (set_metadata m (<[object := r]> (metadata m)), Ok object)
  end.

Definition slave_terminal_id (m : PtyManager) (object : Z) : result Z Z :=
  '(id, side) ← endpoint m object;
  ensure (bool_decide (side = Slave) && bool_decide (is_Some (terminals m !! id))) EBADF;;
  Ok id.
Definition master_terminal_id (m : PtyManager) (object : Z) : result Z Z :=
  '(id, side) ← endpoint m object;
  ensure (bool_decide (side = Master) &&
          match terminals m !! id with Some t => master_open t | None => false end) EBADF;;
  Ok id.
Definition duplicate_slave_metadata (native_duplicate : Z → Z → result Z Z) (m : PtyManager)
    (object source_rights requested : Z) : result Z Z :=
  _ ← slave_terminal_id m object;
  r ← ok_or ENOTSUP (metadata m !! object);
  reference_duplicate native_duplicate r source_rights requested.
(** The live objects in increasing order. *)
Definition signal_object_ids (m : PtyManager) (object : Z) : result Z (gset Z) :=
  '(id, _) ← endpoint m object;
  t ← get_terminal m id;
  Ok (live_objects t).
Definition object_ids (m : PtyManager) (object : Z) : result Z (Z * Z) :=
  '(id, _) ← endpoint m object;
  t ← get_terminal m id;
  Ok (master_object_id (pair t), slave_object_id (pair t)).
Definition master_name (m : PtyManager) (object : Z) : result Z Name :=
  '(id, side) ← endpoint m object;
  ensure (bool_decide (side = Master)) EINVAL;;
  t ← get_terminal m id;
  ok_or ENXIO (name t).

(** ** Data *)

(** An operation on the terminal of an object that keeps to its queues. *)
Definition on_line {A} (object : Z) (f : PtySide → PseudoTerminal → Line * result Z A)
    : stM PtyManager Z A := λ m,
  match ('(id, side) ← endpoint m object; t ← get_terminal m id; Ok (id, side, t)) with
  | Err e => (m, Err e)
  | Ok (id, side, t) => let '(l, res) := f side t in (put_terminal m id (set_line t l), res)
  end.

Definition read (object maximum : Z) : stM PtyManager Z (list Z) := λ m,
  if maximum =? 0 then (m, Ok [])
  else
    on_line object (λ side t,
      match side with
      | Slave => read_input (master_open t) maximum (line t)
      | Master => read_output (slave_open t) maximum (line t)
      end) m.

(** [None]: the fuel of the word erase ran out, which [write_total] excludes. *)
Definition write (object : Z) (bytes : list Z) (m : PtyManager) : option (PtyManager * result Z Z) :=
  match ('(id, side) ← endpoint m object; t ← get_terminal m id; Ok (id, side, t)) with
  | Err e => Some (m, Err e)
  | Ok (id, side, t) =>
      if bool_decide (bytes = []) then Some (m, Ok 0)
      else
        match side with
        | Master =>
            '(l, res) ← write_master (slave_open t) (line t) bytes;
            let m := put_terminal m id (set_line t l) in
            Some (match res with
                  | Err e => (m, Err e)
                  | Ok (written, signals) =>
                      (set_signals m (pending_signals m ++ (mkTerminalSignal id <$> signals)),
                       Ok (Z.of_nat written))
                  end)
        | Slave =>
            let '(l, res) := write_slave (master_open t) (line t) bytes in
            Some (put_terminal m id (set_line t l), Z.of_nat <$> res)
        end
  end.

Definition take_terminal_signal (m : PtyManager) : PtyManager * option TerminalSignal :=
  match pending_signals m with
  | [] => (m, None)
  | s :: ss => (set_signals m ss, Some s)
  end.
Definition seek (m : PtyManager) (object : Z) : result Z Z :=
  '(id, _) ← endpoint m object;
  _ ← get_terminal m id;
  Err ESPIPE.
Definition attributes_of (m : PtyManager) (object : Z) : result Z TerminalAttributes :=
  '(id, _) ← endpoint m object;
  t ← get_terminal m id;
  Ok (attributes (line t)).

Definition set_attributes (object : Z) (a : TerminalAttributes) : stM PtyManager Z unit := λ m,
  if negb (terminal_attributes_supported a) then (m, Err ENOTSUP)
  else on_line object (λ _ t, (change_attributes (line t) a, Ok tt)) m.
Definition set_attributes_when_drained (object : Z) (a : TerminalAttributes) (flush : bool)
    : stM PtyManager Z unit := λ m,
  if negb (terminal_attributes_supported a) then (m, Err ENOTSUP)
  else
    match on_line object (λ _ t,
            match drain_line (master_open t) (line t) with
            | (l, Err e) => (l, Err e)
            | (l, Ok _) => (if flush then flush_input l else l, Ok tt)
            end) m with
    | (m, Err e) => (m, Err e)
    | (m, Ok _) => set_attributes object a m
    end.
Definition drain_output (object : Z) : stM PtyManager Z unit :=
  on_line object (λ _ t, drain_line (master_open t) (line t)).
Definition flush_queues (object flags : Z) : stM PtyManager Z unit :=
  on_line object (λ _ t,
    let l := if flag flags TERMINAL_FLUSH_INPUT then flush_input (line t) else line t in
    (if flag flags TERMINAL_FLUSH_OUTPUT then set_output l [] [] else l, Ok tt)).

(** ** Observations *)

Definition observation (m : PtyManager) (object code : Z) (input : list Z) (capacity : Z) : result Z (list Z) :=
  if code =? PTY_QUERY_LIMITS then
    ensure (bool_decide (input = []) && (LIMITS_RESPONSE_LEN <=? capacity)) EINVAL;;
    _ ← endpoint m object;
    Ok (encode_limits CANONICAL_LINE_CAPACITY BUFFER_CAPACITY 0)
  else if code =? PTY_QUERY_ATTRIBUTES then
    ensure (bool_decide (input = []) && (TERMINAL_ATTRIBUTES_LEN <=? capacity)) EINVAL;;
    a ← attributes_of m object;
    ok_or EINVAL (encode_terminal_attributes a)
  else if code =? PTY_QUERY_WINDOW_SIZE then
    ensure (bool_decide (input = []) && (TERMINAL_WINDOW_SIZE_LEN <=? capacity)) EINVAL;;
    '(id, _) ← endpoint m object;
    t ← get_terminal m id;
    ok_or EINVAL (encode_terminal_window_size (window_size t))
  else Err ENOTSUP.
Definition query (m : PtyManager) (object code : Z) (input : list Z) (capacity : Z) : result Z (list Z) :=
  if (code =? PTY_QUERY_ATTRIBUTES) || (code =? PTY_QUERY_WINDOW_SIZE) || (code =? PTY_QUERY_LIMITS)
  then observation m object code input capacity
  else if negb (code =? PTY_QUERY_READ_SETTINGS) then Err ENOTSUP
  else
    ensure (bool_decide (input = []) && (TERMINAL_READ_SETTINGS_LEN <=? capacity)) EINVAL;;
    '(id, side) ← endpoint m object;
    t ← get_terminal m id;
    let noncanonical := bool_decide (side = Slave) && negb (icanon (line t)) in
    ok_or EIO (encode_terminal_read_settings noncanonical
                 (if noncanonical then cc (line t) TERMINAL_CC_VMIN else 0)
                 (if noncanonical then cc (line t) TERMINAL_CC_VTIME else 0)).
Definition observe_slave_factory (m : PtyManager) (factory selector capacity : Z) : result Z (list Z) :=
  id ← ok_or EBADF (slave_factories m !! factory);
  t ← get_terminal m id;
  if negb (selector =? PTY_QUERY_LIMITS) then Err ENOTSUP
  else observation m (master_object_id (pair t)) selector [] capacity.

(** The readiness of one side, and the handle signals that publish it. *)
Definition readable (side : PtySide) (t : PseudoTerminal) : bool :=
  match side with
  | Master =>
      ((negb (output_stopped (line t)) && negb (output_manually_stopped (line t))) || negb (slave_open t)) &&
      negb (bool_decide (output (line t) = []))
  | Slave => negb (bool_decide (input_records (line t) = []))
  end.
Definition writable (side : PtySide) (t : PseudoTerminal) : bool :=
  match side with
  | Master =>
      slave_open t && has_input_capacity (line t) &&
      ((Z.land (local_flags (attributes (line t))) (Z.lor TERMINAL_LFLAG_ECHO TERMINAL_LFLAG_ECHONL) =? 0) ||
       (zlen (output (line t)) <? BUFFER_CAPACITY))
  | Slave =>
      master_open t && bool_decide (edit_echo (line t) = []) && (zlen (output (line t)) <? BUFFER_CAPACITY)
  end.
Definition peer_closed (side : PtySide) (t : PseudoTerminal) : bool :=
  match side with Master => negb (slave_open t) | Slave => negb (master_open t) end.
Definition signals_of (m : PtyManager) (object : Z) : result Z Z :=
  '(id, side) ← endpoint m object;
  t ← get_terminal m id;
  let signals := 0 in
  let signals := if readable side t then Z.lor signals HANDLE_SIGNAL_READABLE else signals in
  let signals := if writable side t then Z.lor signals HANDLE_SIGNAL_WRITABLE else signals in
  let signals := if peer_closed side t then Z.lor signals HANDLE_SIGNAL_PEER_CLOSED else signals in
  Ok (if bool_decide (output (line t) = []) then Z.lor signals HANDLE_SIGNAL_IDLE else signals).
Definition job_control_access (m : PtyManager) (h : RequestHeader) : option (Z * bool * bool) :=
  match slave_terminal_id m (object_id h) with
  | Err _ => None
  | Ok id =>
      if (opcode h =? OP_CONTROL) &&
         ((basis h =? PTY_CONTROL_SET_ATTRIBUTES_NOW) || (basis h =? PTY_CONTROL_SET_ATTRIBUTES_DRAIN) ||
          (basis h =? PTY_CONTROL_SET_ATTRIBUTES_FLUSH) || (basis h =? PTY_CONTROL_DRAIN) ||
          (basis h =? PTY_CONTROL_FLUSH) || (basis h =? PTY_CONTROL_FLOW))
      then Some (id, false, true)
      else if (request_length h =? 0) || negb ((opcode h =? OP_READ) || (opcode h =? OP_WRITE)) then None
      else
        match attributes_of m (object_id h) with
        | Err _ => None
        | Ok a => Some (id, opcode h =? OP_READ, flag (local_flags a) TERMINAL_LFLAG_TOSTOP)
        end
  end.

(** ** Controls *)

Definition slave_lock_control (object code : Z) (input : list Z) (capacity : Z) : stM PtyManager Z (list Z) := λ m,
  let setting := code =? PTY_CONTROL_SET_SLAVE_LOCK in
  match
    (value ← (if setting then
                if negb (zlen input =? 4) || negb (capacity =? 0) then Err EINVAL
                else
                  let v := from_le_bytes input in
                  if v =? 0 then Ok false else if v =? 1 then Ok true else Err EINVAL
              else if negb (bool_decide (input = [])) || (capacity <? 4) then Err EINVAL else Ok false);
     '(id, side) ← endpoint m object;
     ensure (bool_decide (side = Master)) EINVAL;;
     t ← get_terminal m id;
     Ok (value, id, t))
  with
  | Err e => (m, Err e)
  | Ok (value, id, t) =>
      if setting then (put_terminal m id (set_locked t value), Ok [])
      else (m, Ok (to_le_bytes 4 (if slave_locked t then 1 else 0)))
  end.
Definition slave_name_control (m : PtyManager) (object : Z) (input : list Z) (capacity : Z) : result Z (list Z) :=
  ensure (bool_decide (input = [])) EINVAL;;
  '(id, side) ← endpoint m object;
  ensure (bool_decide (side = Master)) ENOTTY;;
  t ← get_terminal m id;
  n ← ok_or ENXIO (name t);
  bytes ← ok_or EIO (encode_pty_name (component n));
  ensure (zlen bytes <=? capacity) ERANGE;;
  Ok bytes.
Definition flow_control (object : Z) (input : list Z) (capacity : Z) : stM PtyManager Z (list Z) := λ m,
  match (ensure (capacity =? 0) EINVAL;; ok_or EINVAL (decode_terminal_flow input)) with
  | Err e => (m, Err e)
  | Ok action =>
      on_line object (λ _ t,
        if action =? TERMINAL_FLOW_OUTPUT_STOP then (stop_output (line t), Ok [])
        else if action =? TERMINAL_FLOW_OUTPUT_START then (start_output (line t), Ok [])
        else
          let index := if action =? TERMINAL_FLOW_INPUT_STOP then TERMINAL_CC_VSTOP else TERMINAL_CC_VSTART in
          let '(l, res) := send_flow (master_open t) index (line t) in
          (l, (λ _, []) <$> res)) m
  end.
Definition window_size_control (object : Z) (input : list Z) (capacity : Z) : stM PtyManager Z (list Z) := λ m,
  match
    (ensure (capacity =? 0) EINVAL;;
     size ← ok_or EINVAL (decode_terminal_window_size input);
     '(id, _) ← endpoint m object;
     t ← get_terminal m id;
     Ok (size, id, t))
  with
  | Err e => (m, Err e)
  | Ok (size, id, t) =>
      if negb (bool_decide (window_size t = size)) then
        let m := put_terminal m id (set_window t size) in
        (set_signals m (pending_signals m ++ [mkTerminalSignal id SIGNAL_WINCH]), Ok [])
      else (m, Ok [])
  end.
(** [.map(|_| Vec::new())] on a control without output. *)
Definition no_output (x : PtyManager * result Z unit) : PtyManager * result Z (list Z) :=
  (x.1, (λ _, []) <$> x.2).
Definition set_attributes_control (object code : Z) (input : list Z) (capacity : Z)
    : stM PtyManager Z (list Z) := λ m,
  match (ensure (capacity =? 0) EINVAL;; ok_or EINVAL (decode_terminal_attributes input)) with
  | Err e => (m, Err e)
  | Ok a =>
      no_output
        (if code =? PTY_CONTROL_SET_ATTRIBUTES_NOW then set_attributes object a m
         else set_attributes_when_drained object a (negb (code =? PTY_CONTROL_SET_ATTRIBUTES_DRAIN)) m)
  end.

Definition control (object code : Z) (input : list Z) (capacity : Z) : stM PtyManager Z (list Z) := λ m,
  if (code =? PTY_CONTROL_SET_SLAVE_LOCK) || (code =? PTY_CONTROL_GET_SLAVE_LOCK)
  then slave_lock_control object code input capacity m
  else if code =? PTY_CONTROL_GET_SLAVE_NAME then (m, slave_name_control m object input capacity)
  else if code =? PTY_CONTROL_FLOW then flow_control object input capacity m
  else if code =? PTY_CONTROL_GET_LIMITS then (m, observation m object PTY_QUERY_LIMITS input capacity)
  else if code =? PTY_CONTROL_GET_WINDOW_SIZE then (m, observation m object PTY_QUERY_WINDOW_SIZE input capacity)
  else if code =? PTY_CONTROL_SET_WINDOW_SIZE then window_size_control object input capacity m
  else if code =? PTY_CONTROL_GET_ATTRIBUTES then (m, observation m object PTY_QUERY_ATTRIBUTES input capacity)
  else if (code =? PTY_CONTROL_SET_ATTRIBUTES_NOW) || (code =? PTY_CONTROL_SET_ATTRIBUTES_DRAIN) ||
          (code =? PTY_CONTROL_SET_ATTRIBUTES_FLUSH)
  then set_attributes_control object code input capacity m
  else if code =? PTY_CONTROL_DRAIN then
    if negb (bool_decide (input = [])) || negb (capacity =? 0) then (m, Err EINVAL)
    else no_output (drain_output object m)
  else if code =? PTY_CONTROL_FLUSH then
    match (ensure (capacity =? 0) EINVAL;; ok_or EINVAL (decode_terminal_flush input)) with
    | Err e => (m, Err e)
    | Ok flags => no_output (flush_queues object flags m)
    end
  else (m, Err ENOTSUP).

(** ** Closing *)

Definition has_factory (m : PtyManager) (id : Z) : bool :=
  bool_decide (Exists (λ x, x.2 = id) (map_to_list (slave_factories m))).
Definition remove_terminal (m : PtyManager) (id : Z) : PtyManager :=
  retire_name (set_terminals m (delete id (terminals m))) (t ← terminals m !! id; name t).
(** A released open of one side: the terminal and what it leaves behind. *)
Definition close_side (m : PtyManager) (id : Z) (side : PtySide) (object : Z) (t : PseudoTerminal)
    : PtyManager * result Z PseudoTerminal :=
  let live := live_objects t ∖ {[object]} in
  match side with
  | Master =>
      if master_open t then
        let t' := set_opens t live false (slave_open t) None in
        (set_signals (retire_name (put_terminal m id t') (name t))
           (pending_signals m ++ [mkTerminalSignal id SIGNAL_HUP]), Ok t')
      else (put_terminal m id (set_opens t live (master_open t) (slave_open t) (name t)), Err EBADF)
  | Slave =>
      if slave_open t then
        let t' :=
          if bool_decide (size live = if master_open t then 1%nat else 0%nat)
          then set_line (set_opens t live (master_open t) false (name t)) (start_output (line t))
          else set_opens t live (master_open t) (slave_open t) (name t) in
        (put_terminal m id t', Ok t')
      else (put_terminal m id (set_opens t live (master_open t) (slave_open t) (name t)), Err EBADF)
  end.
Definition release (object : Z) : stM PtyManager Z unit := λ m,
  match slave_factories m !! object with
  | Some id =>
      let m := set_factories m (delete object (slave_factories m)) in
      (if (match terminals m !! id with Some t => negb (master_open t) && negb (slave_open t) | None => false end) &&
          negb (has_factory m id)
       then remove_terminal m id else m, Ok tt)
  | None =>
      match endpoint m object with
      | Err e => (m, Err e)
      | Ok (id, side) =>
          let m := set_metadata (set_objects m (delete object (objects m))) (delete object (metadata m)) in
          match get_terminal m id with
          | Err e => (m, Err e)
          | Ok t =>
              match close_side m id side object t with
              | (m, Err e) => (m, Err e)
              | (m, Ok t) =>
                  (if negb (master_open t) && negb (slave_open t) && negb (has_factory m id)
                   then remove_terminal m id else m, Ok tt)
              end
          end
      end
  end.

Definition terminal_le (a b : Z * PseudoTerminal) : Prop := a.1 ≤ b.1.
#[local] Instance terminal_le_dec a b : Decision (terminal_le a b).
Proof. unfold terminal_le. apply _. Defined.
(** The terminal with this pair of the least identifier. *)
Definition pair_terminal (m : PtyManager) (p : PtyPair) : option (Z * PseudoTerminal) :=
  list_find (λ x, pair x.2 = p) (merge_sort terminal_le (map_to_list (terminals m))) ≫= λ x, Some x.2.
Definition discard (p : PtyPair) (m : PtyManager) : PtyManager :=
  match pair_terminal m p with
  | None => m
  | Some (id, t) =>
      let m := set_metadata m (filter (λ x, x.1 ∉ live_objects t) (metadata m)) in
      let m := remove_terminal m id in
      let m := set_objects m (filter (λ x, x.2.1 ≠ id) (objects m)) in
      let m := set_factories m (filter (λ x, x.2 ≠ id) (slave_factories m)) in
      set_signals m (filter (λ s, terminal_id s ≠ id) (pending_signals m))
  end.

(** ** The provider entry point *)

Definition with_data (x : PtyManager * result Z (list Z)) : PtyManager * result Z (Z * list Z) :=
  (x.1, match x.2 with Ok data => Ok (zlen data, data) | Err e => Err e end).
Definition with_value (x : PtyManager * result Z Z) : PtyManager * result Z (Z * list Z) :=
  (x.1, match x.2 with Ok n => Ok (n, []) | Err e => Err e end).
Definition provider_result (m : PtyManager) (h : RequestHeader) (payload : list Z)
    : option (PtyManager * result Z (Z * list Z)) :=
  if opcode h =? OP_READ then Some (with_data (read (object_id h) (request_length h) m))
  else if opcode h =? OP_WRITE then with_value <$> write (object_id h) payload m
  else if opcode h =? OP_SEEK then Some (with_value (m, seek m (object_id h)))
  else if opcode h =? OP_CONTROL then
    Some (with_data (control (object_id h) (basis h) payload (request_length h) m))
  else if opcode h =? OP_QUERY then
    Some (with_data (m, query m (object_id h) (basis h) payload (request_length h)))
  else if opcode h =? OP_MEMORY_OBJECT then
    Some (m, match object_ids m (object_id h) with Ok _ => Ok (0, []) | Err e => Err e end)
  else Some (m, Err ENOTSUP).
Definition handle_provider_request (request response : list Z) (m : PtyManager)
    : option (PtyManager * list Z * option Z) :=
  match decode_request request with
  | None => Some (m, response, None)
  | Some (h, payload) =>
      if opcode h =? OP_RELEASE then Some ((release (object_id h) m).1, response, None)
      else
        '(m, res) ← provider_result m h payload;
        let '(status, value, data) :=
          match res with Ok (value, data) => (0, value, data) | Err errno => (- errno, 0, []) end in
        let '(response, n) := encode_response (opcode h) status (object_id h) value data response in
        Some (m, response, n)
  end.

(** ** The search for an identifier *)

Lemma search_id_Some tries next lo hi taken next' id :
  lo ≤ hi → search_id tries next lo hi taken = (next', Some id) →
  lo ≤ id ≤ hi ∧ taken id = false ∧ lo ≤ next' ≤ hi.
Proof.
  intros Hlo. revert next. induction tries as [|tries IH]; intros next; simpl; [done|].
  destruct (taken (clamp next lo hi)) eqn:E; cbn [negb]; [apply IH|]. intros [= <- <-].
  unfold advance, clamp in *. split_and!; try lia; try done; destruct (_ =? hi) eqn:Eh; lia.
Qed.

(** The [k]-th identifier tried from [c] in the cycle [lo .. hi]. *)
Definition orbit (lo hi c k : Z) : Z := lo + (c - lo + k) mod (hi - lo + 1).
Lemma orbit_0 lo hi c : lo ≤ c ≤ hi → orbit lo hi c 0 = c.
Proof. intros Hc. unfold orbit. rewrite Z.mod_small by lia. lia. Qed.
Lemma orbit_advance lo hi c k :
  lo ≤ c ≤ hi → orbit lo hi (advance c lo hi) k = orbit lo hi c (1 + k).
Proof.
  intros Hc. unfold orbit, advance. f_equal. destruct (c =? hi) eqn:E; [|f_equal; lia].
  replace (c - lo + (1 + k)) with (lo - lo + k + 1 * (hi - lo + 1)) by lia. by rewrite Z.mod_add by lia.
Qed.
Lemma search_id_None tries next lo hi taken next' :
  lo ≤ hi → search_id tries next lo hi taken = (next', None) →
  ∀ k, (k < tries)%nat → taken (orbit lo hi (clamp next lo hi) (Z.of_nat k)) = true.
Proof.
  intros Hlo. revert next. induction tries as [|tries IH]; intros next; simpl; [lia|].
  destruct (taken (clamp next lo hi)) eqn:E; cbn [negb]; [|done]. intros Hs k Hk.
  assert (lo ≤ clamp next lo hi ≤ hi) as Hc by (unfold clamp; lia). set (c := clamp next lo hi) in *.
  destruct k as [|k]; [by rewrite orbit_0|].
  replace (Z.of_nat (S k)) with (1 + Z.of_nat k) by lia. rewrite <- orbit_advance by done.
  assert (lo ≤ advance c lo hi ≤ hi) as Ha by (unfold advance; destruct (_ =? hi) eqn:Eh; lia).
  replace (advance c lo hi) with (clamp (advance c lo hi) lo hi) by (unfold clamp; lia).
  eapply IH; [done|lia].
Qed.
Lemma search_id_total tries next lo hi taken (X : gset Z) :
  lo ≤ hi → (∀ id, taken id = true → id ∈ X) → (size X < tries)%nat → Z.of_nat tries ≤ hi - lo + 1 →
  ∃ next' id, search_id tries next lo hi taken = (next', Some id).
Proof.
  intros Hlo HX Hs Ht. destruct (search_id tries next lo hi taken) as [next' [id|]] eqn:E; [by eexists _, _|].
  exfalso. set (c := clamp next lo hi).
  set (tried := (λ k, orbit lo hi c (Z.of_nat k)) <$> seq 0 tries).
  assert (NoDup tried) as Hd.
  { apply NoDup_fmap_2_strong; [|apply NoDup_seq]. intros x y Hx%elem_of_seq Hy%elem_of_seq Eo.
    unfold orbit in Eo. assert ((c - lo + Z.of_nat x) mod (hi - lo + 1) = (c - lo + Z.of_nat y) mod (hi - lo + 1)) as Em by lia.
    pose proof (Z.div_mod (c - lo + Z.of_nat x) (hi - lo + 1) ltac:(lia)) as D1.
    pose proof (Z.div_mod (c - lo + Z.of_nat y) (hi - lo + 1) ltac:(lia)) as D2. rewrite Em in D1.
    set (q1 := (c - lo + Z.of_nat x) / (hi - lo + 1)) in *. set (q2 := (c - lo + Z.of_nat y) / (hi - lo + 1)) in *.
    assert (q1 = q2) by nia. nia. }
  assert (list_to_set tried ⊆ X) as Hsub.
  { intros id. rewrite elem_of_list_to_set. unfold tried. rewrite list_elem_of_fmap.
    intros (k & -> & Hk%elem_of_seq). apply HX. eapply search_id_None; [done|done|lia]. }
  apply subseteq_size in Hsub. rewrite size_list_to_set in Hsub by done.
  unfold tried in Hsub. rewrite length_fmap, length_seq in Hsub. lia.
Qed.

(** The identifiers in use. *)
Definition used_objects (m : PtyManager) : gset Z := dom (objects m) ∪ dom (slave_factories m).
Lemma object_taken_used m id : object_taken m id = true ↔ id ∈ used_objects m.
Proof.
  unfold object_taken, used_objects. rewrite orb_true_iff, !bool_decide_eq_true, elem_of_union, !elem_of_dom.
  done.
Qed.
Lemma allocate_object_Some m m' id :
  allocate_object_id m = (m', Some id) →
  ∃ next, m' = set_next_ids m (next_id m) next ∧ 2 ≤ id ≤ MAX_OBJECT_ID ∧
    objects m !! id = None ∧ slave_factories m !! id = None.
Proof.
  unfold allocate_object_id. destruct (search_id _ _ _ _ _) as [next o] eqn:E. intros [= <- ->]. exists next.
  apply search_id_Some in E as (H1 & H2 & _); [|done]. split_and!; [done|lia|lia|..].
  all: unfold object_taken in H2; rewrite orb_false_iff, !bool_decide_eq_false in H2; destruct H2;
    by apply eq_None_not_Some.
Qed.
Lemma allocate_object_None m m' :
  allocate_object_id m = (m', None) → ∃ next, m' = set_next_ids m (next_id m) next.
Proof.
  unfold allocate_object_id. destruct (search_id _ _ _ _ _) as [next o]. intros [= <- ->]. by exists next.
Qed.
(** There are fewer objects than identifiers. *)
Definition objects_bounded (m : PtyManager) : Prop :=
  Z.of_nat (size (objects m) + size (slave_factories m)) < I64_MAX - 1.
Lemma allocate_object_total m : objects_bounded m → ∃ m' id, allocate_object_id m = (m', Some id).
Proof.
  unfold objects_bounded, allocate_object_id. intros Hb.
  destruct (search_id_total (size (objects m) + size (slave_factories m) + 1) (next_object_id m) 2 MAX_OBJECT_ID
              (object_taken m) (used_objects m)) as (next & id & ->).
  - done.
  - intros id. by rewrite object_taken_used.
  - unfold used_objects. pose proof (size_union_alt (dom (objects m)) (dom (slave_factories m))) as Hu.
    rewrite Hu, <- (size_dom (objects m)), <- (size_dom (slave_factories m)).
    pose proof (subseteq_size (dom (slave_factories m) ∖ dom (objects m)) (dom (slave_factories m)) ltac:(set_solver)). lia.
  - unfold MAX_OBJECT_ID. lia.
  - by eexists _, _.
Qed.
Lemma allocate_id_Some m m' id :
  allocate_id m = (m', Some id) →
  ∃ next, m' = set_next_ids m next (next_object_id m) ∧ 1 ≤ id ≤ MAX_TERMINAL_ID ∧ terminals m !! id = None.
Proof.
  unfold allocate_id. destruct (search_id _ _ _ _ _) as [next o] eqn:E. intros [= <- ->]. exists next.
  apply search_id_Some in E as (H1 & H2 & _); [|done]. split_and!; [done|lia|lia|].
  apply bool_decide_eq_false in H2. by apply eq_None_not_Some.
Qed.
Lemma allocate_id_None m m' :
  allocate_id m = (m', None) → ∃ next, m' = set_next_ids m next (next_object_id m).
Proof. unfold allocate_id. destruct (search_id _ _ _ _ _) as [next o]. intros [= <- ->]. by exists next. Qed.
Lemma allocate_id_total m :
  Z.of_nat (size (terminals m)) < MAX_TERMINAL_ID → ∃ m' id, allocate_id m = (m', Some id).
Proof.
  unfold allocate_id. intros Hb.
  destruct (search_id_total (size (terminals m) + 1) (next_id m) 1 MAX_TERMINAL_ID
              (λ id, bool_decide (is_Some (terminals m !! id))) (dom (terminals m))) as (next & id & ->).
  - done.
  - intros id. by rewrite bool_decide_eq_true, elem_of_dom.
  - rewrite size_dom. lia.
  - lia.
  - by eexists _, _.
Qed.

(** ** Invariant *)

(** The invariant, while the terminal [closing] may be on its way out. *)
Record manager_but (closing : option Z) (m : PtyManager) : Prop := mkManagerOk {
  (** an open object is live on its terminal, and its side is open *)
  mo_objects : ∀ o id side, objects m !! o = Some (id, side) →
    ∃ t, terminals m !! id = Some t ∧ o ∈ live_objects t ∧
      match side with
      | Master => master_open t = true ∧ o = master_object_id (pair t)
      | Slave => slave_open t = true
      end;
  mo_live : ∀ id t o, terminals m !! id = Some t → o ∈ live_objects t → ∃ side, objects m !! o = Some (id, side);
  mo_master : ∀ id t, terminals m !! id = Some t → master_open t = true →
    objects m !! master_object_id (pair t) = Some (id, Master);
  mo_slave : ∀ id t, terminals m !! id = Some t → slave_open t = true →
    ∃ o, objects m !! o = Some (id, Slave);
  mo_factories : ∀ f id, slave_factories m !! f = Some id →
    is_Some (terminals m !! id) ∧ objects m !! f = None;
  (** a terminal is kept for an open object or a factory only *)
  mo_used : ∀ id t, terminals m !! id = Some t → closing ≠ Some id →
    master_open t = true ∨ slave_open t = true ∨ ∃ f, slave_factories m !! f = Some id;
  mo_name : ∀ id t, terminals m !! id = Some t → is_Some (name t) → master_open t = true;
  mo_metadata : ∀ o, is_Some (metadata m !! o) → ∃ id, objects m !! o = Some (id, Slave);
  mo_lines : ∀ id t, terminals m !! id = Some t → line_ok (line t);
  mo_ids : ∀ o, is_Some (objects m !! o) ∨ is_Some (slave_factories m !! o) → 2 ≤ o ≤ MAX_OBJECT_ID;
  mo_terminal_ids : ∀ id, is_Some (terminals m !! id) → 1 ≤ id ≤ MAX_TERMINAL_ID;
}.
Definition manager_ok : PtyManager → Prop := manager_but None.

Lemma ok_manager_new : manager_ok manager_new.
Proof.
  split; simpl; intros; rewrite ?lookup_empty in *; try done;
    repeat match goal with
    | H : is_Some None |- _ => by destruct H
    | H : _ ∨ _ |- _ => destruct H
    end.
Qed.
Lemma ok_set_next_ids m i o : manager_ok m → manager_ok (set_next_ids m i o).
Proof. intros [H1 H2 H3 H4 H5 H6 H7 H8 H9 H10 H11]. by split. Qed.
Lemma ok_set_signals m ss : manager_ok m → manager_ok (set_signals m ss).
Proof. intros [H1 H2 H3 H4 H5 H6 H7 H8 H9 H10 H11]. by split. Qed.
Lemma ok_retire_name m n : manager_ok m → manager_ok (retire_name m n).
Proof. intros [H1 H2 H3 H4 H5 H6 H7 H8 H9 H10 H11]. by split. Qed.

(** A terminal that keeps its pair, its objects and its open sides. *)
Lemma ok_put_same m id t t' :
  manager_ok m → terminals m !! id = Some t → pair t' = pair t → live_objects t' = live_objects t →
  master_open t' = master_open t → slave_open t' = slave_open t →
  (is_Some (name t') → master_open t' = true) → line_ok (line t') → manager_ok (put_terminal m id t').
Proof.
  intros [H1 H2 H3 H4 H5 H6 H7 H8 H9 H10 H11] Ht Ep El Em Es Hn Hl.
  assert (∀ id' u, <[id := t']> (terminals m) !! id' = Some u →
    ∃ u0, terminals m !! id' = Some u0 ∧ pair u = pair u0 ∧ live_objects u = live_objects u0 ∧
      master_open u = master_open u0 ∧ slave_open u = slave_open u0 ∧
      (is_Some (name u) → master_open u = true) ∧ line_ok (line u)) as Hb.
  { intros id' u. rewrite lookup_insert. case_decide as E; [subst id'; intros [= <-]; by exists t|].
    intros Hu. exists u. split_and!; try done; eauto. }
  split; simpl.
  - intros o id' side Ho. destruct (H1 o id' side Ho) as (u & Hu & Hlu & Hside).
    rewrite lookup_insert. case_decide as E; [|by exists u]. subst id'.
    replace u with t in * by congruence. exists t'. rewrite Ep, El, Em, Es. done.
  - intros id' u o (u0 & Hu & _ & E & _)%Hb. rewrite E. by apply H2.
  - intros id' u (u0 & Hu & E1 & _ & E2 & _)%Hb. rewrite E1, E2. by apply H3.
  - intros id' u (u0 & Hu & _ & _ & _ & E & _)%Hb. rewrite E. by apply H4.
  - intros f id' Hf. destruct (H5 f id' Hf) as [Hs ?]. split; [|done].
    rewrite lookup_insert. case_decide; [by eexists|done].
  - intros id' u (u0 & Hu & _ & _ & E1 & E2 & _)%Hb. rewrite E1, E2. by apply H6.
  - intros id' u (u0 & _ & _ & _ & _ & _ & Hn' & _)%Hb. done.
  - done.
  - intros id' u (u0 & _ & _ & _ & _ & _ & _ & Hl')%Hb. done.
  - done.
  - intros id'. rewrite lookup_insert. case_decide; [|apply H11]. subst. intros _. apply H11. by eexists.
Qed.

(** *** Opening *)

(** A new object on a terminal that grows by it. *)
Lemma ok_add_slave m id t object :
  manager_ok m → terminals m !! id = Some t → objects m !! object = None → slave_factories m !! object = None →
  2 ≤ object ≤ MAX_OBJECT_ID →
  manager_ok (set_objects (put_terminal m id (set_opens t ({[object]} ∪ live_objects t) (master_open t) true (name t)))
                (<[object := (id, Slave)]> (objects m))).
Proof.
  intros Hok Ht Hn Hf Hr. pose proof Hok as [H1 H2 H3 H4 H5 H6 H7 H8 H9 H10 H11]. split; simpl.
  - intros o id' side. rewrite lookup_insert. case_decide as E.
    + intros [= <- <-]. eexists. rewrite lookup_insert_eq. split_and!; [done|set_solver|done].
    + intros Ho. destruct (H1 o id' side Ho) as (u & Hu & Hlu & Hs). rewrite lookup_insert.
      case_decide as E'; [|by exists u]. subst id'. replace u with t in * by congruence.
      eexists. split_and!; [done|set_solver|]. by destruct side.
  - intros id' u o. rewrite lookup_insert. case_decide as E.
    + subst id'. intros [= <-]. simpl. intros [Ho|Ho]%elem_of_union.
      * apply elem_of_singleton in Ho as ->. rewrite lookup_insert_eq. by eexists.
      * destruct (H2 id t o Ht Ho) as [side Hside]. exists side. rewrite lookup_insert_ne; [done|congruence].
    + intros Hu Ho. destruct (H2 id' u o Hu Ho) as [side Hside]. exists side. rewrite lookup_insert_ne; [done|congruence].
  - intros id' u. rewrite lookup_insert. case_decide as E; intros Hu Hm.
    + subst id'. injection Hu as <-. simpl in *. specialize (H3 id t Ht Hm). rewrite lookup_insert_ne; [done|congruence].
    + specialize (H3 id' u Hu Hm). rewrite lookup_insert_ne; [done|congruence].
  - intros id' u. rewrite lookup_insert. case_decide as E; intros Hu Hs.
    + subst id'. exists object. by rewrite lookup_insert_eq.
    + destruct (H4 id' u Hu Hs) as [o Ho]. exists o. rewrite lookup_insert_ne; [done|congruence].
  - intros f id' Hf'. destruct (H5 f id' Hf') as [Hs Ho]. split.
    + rewrite lookup_insert. case_decide; [by eexists|done].
    + rewrite lookup_insert_ne; [done|congruence].
  - intros id' u. rewrite lookup_insert. case_decide as E; intros Hu; [|by eapply H6].
    injection Hu as <-. simpl. by right; left.
  - intros id' u. rewrite lookup_insert. case_decide as E; intros Hu; [|by eapply H7].
    subst id'. injection Hu as <-. simpl. by apply (H7 id).
  - intros o Ho. destruct (H8 o Ho) as [id' Hid']. exists id'. rewrite lookup_insert_ne; [done|congruence].
  - intros id' u. rewrite lookup_insert. case_decide as E; intros Hu; [|by eapply H9].
    subst id'. injection Hu as <-. simpl. by eapply H9.
  - intros o. rewrite lookup_insert. case_decide as E; [by subst|]. apply H10.
  - intros id'. rewrite lookup_insert. case_decide as E; [|apply H11]. subst. intros _. apply H11. by eexists.
Qed.

(** A new terminal with its two objects. *)
Lemma ok_add_terminal m id p locked :
  manager_ok m → terminals m !! id = None → 1 ≤ id ≤ MAX_TERMINAL_ID →
  objects m !! master_object_id p = None → objects m !! slave_object_id p = None →
  slave_factories m !! master_object_id p = None → slave_factories m !! slave_object_id p = None →
  2 ≤ master_object_id p ≤ MAX_OBJECT_ID → 2 ≤ slave_object_id p ≤ MAX_OBJECT_ID →
  master_object_id p ≠ slave_object_id p →
  manager_ok (set_objects (put_terminal m id (terminal_new p locked))
                (<[slave_object_id p := (id, Slave)]> (<[master_object_id p := (id, Master)]> (objects m)))).
Proof.
  intros [H1 H2 H3 H4 H5 H6 H7 H8 H9 H10 H11] Ht Hid Hm Hs Hfm Hfs Hrm Hrs Hne.
  assert (∀ o x, objects m !! o = Some x →
    <[slave_object_id p := (id, Slave)]> (<[master_object_id p := (id, Master)]> (objects m)) !! o = Some x) as Hk.
  { intros o x Ho. rewrite !lookup_insert_ne; [done|congruence..]. }
  assert (∀ o id' side, objects m !! o = Some (id', side) → id' ≠ id) as Hnew.
  { intros o id' side Ho ->. destruct (H1 _ _ _ Ho) as (u & Hu & _). congruence. }
  split; simpl.
  - intros o id' side Ho. rewrite !lookup_insert in Ho. repeat case_decide; subst.
    + injection Ho as <- <-. eexists. rewrite lookup_insert_eq. split_and!; [done|set_solver|done].
    + injection Ho as <- <-. eexists. rewrite lookup_insert_eq. split_and!; [done|set_solver|done|done].
    + destruct (H1 o id' side Ho) as (u & Hu & Hlu & Hside). exists u.
      split; [|done]. rewrite lookup_insert_ne; [done|]. intros <-. by eapply Hnew.
  - intros id' u o. rewrite lookup_insert. case_decide as E.
    + subst id'. intros [= <-]. simpl. intros [Ho|Ho]%elem_of_union; apply elem_of_singleton in Ho as ->.
      * exists Master. rewrite lookup_insert_ne by done. by rewrite lookup_insert_eq.
      * exists Slave. by rewrite lookup_insert_eq.
    + intros Hu Ho. destruct (H2 id' u o Hu Ho) as [side Hside]. exists side. by apply Hk.
  - intros id' u. rewrite lookup_insert. case_decide as E; intros Hu Hmo.
    + subst id'. injection Hu as <-. simpl. rewrite lookup_insert_ne by done. by rewrite lookup_insert_eq.
    + apply Hk. by eapply H3.
  - intros id' u. rewrite lookup_insert. case_decide as E; intros Hu Hso.
    + subst id'. exists (slave_object_id p). by rewrite lookup_insert_eq.
    + destruct (H4 id' u Hu Hso) as [o Ho]. exists o. by apply Hk.
  - intros f id' Hf. destruct (H5 f id' Hf) as [Hs' Ho]. split.
    + rewrite lookup_insert. case_decide; [by eexists|done].
    + rewrite !lookup_insert_ne by congruence. done.
  - intros id' u. rewrite lookup_insert. case_decide as E; intros Hu; [|by eapply H6].
    injection Hu as <-. by left.
  - intros id' u. rewrite lookup_insert. case_decide as E; intros Hu; [|by eapply H7]. by injection Hu as <-.
  - intros o Ho. destruct (H8 o Ho) as [id' Hid']. exists id'. by apply Hk.
  - intros id' u. rewrite lookup_insert. case_decide as E; intros Hu; [|by eapply H9].
    injection Hu as <-. apply ok_new.
  - intros o. rewrite !lookup_insert. repeat case_decide; subst; try done. apply H10.
  - intros id'. rewrite lookup_insert. case_decide as E; [by subst|apply H11].
Qed.

Lemma ok_open locked m : manager_ok m → manager_ok (open_with_slave_lock locked m).1.
Proof.
  intros Hok. unfold open_with_slave_lock.
  destruct (allocate_id m) as [m1 [id|]] eqn:E1;
    [apply allocate_id_Some in E1 as (n1 & -> & Hid & Ht)
    |apply allocate_id_None in E1 as [n1 ->]; by apply ok_set_next_ids].
  destruct (allocate_object_id _) as [m2 [master|]] eqn:E2;
    [apply allocate_object_Some in E2 as (n2 & -> & Hrm & Hm & Hfm)
    |apply allocate_object_None in E2 as [n2 ->]; simpl; by do 2 apply ok_set_next_ids].
  destruct (allocate_object_id (set_objects _ _)) as [m3 [slave|]] eqn:E3; simpl in *.
  - apply allocate_object_Some in E3 as (n3 & -> & Hrs & Hs & Hfs). simpl in *.
    assert (slave ≠ master) as Hne by (intros ->; by rewrite lookup_insert_eq in Hs).
    rewrite lookup_insert_ne in Hs by done.
    apply (ok_add_terminal (set_next_ids m n1 n3) id (mkPtyPair master slave) locked); try done.
    by apply ok_set_next_ids.
  - apply allocate_object_None in E3 as [n3 ->]. simpl. rewrite delete_insert_id by done.
    change (manager_ok (set_next_ids m n1 n3)). by apply ok_set_next_ids.
Qed.
Lemma ok_reopen master m : manager_ok m → manager_ok (reopen_slave master m).1.
Proof.
  intros Hok. unfold reopen_slave. destruct (_ ≫= _) as [[id t0]|e] eqn:E; [|done].
  destruct (allocate_object_id m) as [m1 [o|]] eqn:E1;
    [apply allocate_object_Some in E1 as (n1 & -> & Hr & Ho & Hf)
    |apply allocate_object_None in E1 as [n1 ->]; by apply ok_set_next_ids].
  unfold get_terminal. simpl. destruct (terminals m !! id) as [t|] eqn:Et; simpl; [|by apply ok_set_next_ids].
  by apply (ok_add_slave (set_next_ids m (next_id m) n1)); [apply ok_set_next_ids|..].
Qed.
Lemma ok_factory master m : manager_ok m → manager_ok (create_slave_factory master m).1.
Proof.
  intros Hok. unfold create_slave_factory, endpoint.
  destruct (objects m !! master) as [[id side]|] eqn:Em; simpl; [|done].
  destruct (ensure _ _) as [[]|]; simpl; [|done].
  destruct (allocate_object_id m) as [m1 [o|]] eqn:E1;
    [apply allocate_object_Some in E1 as (n1 & -> & Hr & Ho & Hf)
    |apply allocate_object_None in E1 as [n1 ->]; by apply ok_set_next_ids].
  simpl. destruct Hok as [H1 H2 H3 H4 H5 H6 H7 H8 H9 H10 H11]. split; simpl; try done.
  - intros f id'. rewrite lookup_insert. case_decide as E; [|apply H5]. subst. intros [= <-].
    destruct (H1 _ _ _ Em) as (t & Ht & _). split; [by eexists|done].
  - intros id' t Ht Hc. destruct (H6 id' t Ht Hc) as [?|[?|[f Hf']]]; [by left|by right; left|right; right].
    exists f. rewrite lookup_insert_ne; [done|congruence].
  - intros f. rewrite lookup_insert. case_decide as E; [by subst|]. apply H10.
Qed.
Lemma ok_attach master n m : manager_ok m → manager_ok (attach_slave_name master n m).1.
Proof.
  intros Hok. unfold attach_slave_name. destruct (_ ≫= _) as [[id t]|e] eqn:E; [|by apply ok_retire_name].
  unfold endpoint, get_terminal in E. inv_result. eapply ok_put_same; try done.
  simpl. by eapply mo_lines.
Qed.
Lemma ok_from_factory factory m : manager_ok m → manager_ok (open_slave_from_factory factory m).1.
Proof. intros Hok. unfold open_slave_from_factory. destruct (_ ≫= _); [by apply ok_reopen|done]. Qed.
Lemma from_factory_fresh factory m m' o :
  open_slave_from_factory factory m = (m', Ok o) →
  ∃ id, objects m' !! o = Some (id, Slave) ∧ metadata m' = metadata m.
Proof.
  unfold open_slave_from_factory, reopen_slave. repeat case_match; intros; simplify_eq/=; eexists;
    rewrite lookup_insert_eq; split; [done|].
  match goal with H : allocate_object_id _ = _ |- _ => apply allocate_object_Some in H as (? & -> & _) end. done.
Qed.
Lemma ok_with_metadata factory r m : manager_ok m → manager_ok (open_slave_with_metadata factory r m).1.
Proof.
  intros Hok%(ok_from_factory factory). unfold open_slave_with_metadata.
  destruct (open_slave_from_factory factory m) as [m' [o|e]] eqn:E; [|done]. simpl in *.
  apply from_factory_fresh in E as (id & Ho & _).
  destruct Hok as [H1 H2 H3 H4 H5 H6 H7 H8 H9 H10 H11]. split; simpl; try done.
  intros o'. rewrite lookup_insert. case_decide; [subst; by exists id|apply H8].
Qed.

(** *** Requests on an open object *)

(** A terminal that keeps its pair, its objects, its open sides and its name. *)
Definition same_shape (t t' : PseudoTerminal) : Prop :=
  pair t' = pair t ∧ live_objects t' = live_objects t ∧ master_open t' = master_open t ∧
  slave_open t' = slave_open t ∧ name t' = name t.
(** What a request on [object] may change: the queues and settings of the
    terminal it is open on, and the signals of that terminal. *)
Record served (object : Z) (m m' : PtyManager) : Prop := mkServed {
  sv_ids : next_id m' = next_id m ∧ next_object_id m' = next_object_id m;
  sv_objects : objects m' = objects m;
  sv_factories : slave_factories m' = slave_factories m;
  sv_metadata : metadata m' = metadata m;
  sv_retired : retired m' = retired m;
  sv_other : ∀ id, fst <$> objects m !! object ≠ Some id → terminals m' !! id = terminals m !! id;
  sv_shape : ∀ id, option_Forall2 same_shape (terminals m !! id) (terminals m' !! id);
  sv_signals : ∃ ss, pending_signals m' = pending_signals m ++ ss ∧
    Forall (λ s, fst <$> objects m !! object = Some (terminal_id s)) ss;
}.
Lemma same_shape_refl t : same_shape t t.
Proof. by unfold same_shape. Qed.
Lemma served_refl object m : served object m m.
Proof.
  split; try done.
  - intros id. destruct (terminals m !! id); constructor. apply same_shape_refl.
  - exists []. by rewrite app_nil_r.
Qed.
Lemma served_trans object m1 m2 m3 : served object m1 m2 → served object m2 m3 → served object m1 m3.
Proof.
  intros [[A1 A2] B1 C1 D1 E1 F1 G1 (s1 & H1 & K1)] [[A3 A4] B2 C2 D2 E2 F2 G2 (s2 & H2 & K2)].
  rewrite B1 in *. split; try congruence; try (split; congruence).
  - intros id Hid. rewrite F2, F1; done.
  - intros id. specialize (G1 id). specialize (G2 id). unfold same_shape in *.
    destruct G1; inversion G2; subst; constructor; naive_solver congruence.
  - exists (s1 ++ s2). rewrite H2, H1, app_assoc. split; [done|]. by apply Forall_app.
Qed.
Lemma served_put object id side m t t' :
  objects m !! object = Some (id, side) → terminals m !! id = Some t → same_shape t t' →
  served object m (put_terminal m id t').
Proof.
  intros Ho Ht Hs. split; try done; simpl.
  - intros id' Hid. rewrite lookup_insert_ne; [done|]. intros ->. by rewrite Ho in Hid.
  - intros id'. rewrite lookup_insert. case_decide; [subst; rewrite Ht; by constructor|].
    destruct (terminals m !! id'); constructor. apply same_shape_refl.
  - exists []. by rewrite app_nil_r.
Qed.
Lemma served_signals object id side m ss :
  objects m !! object = Some (id, side) → Forall (λ s, terminal_id s = id) ss →
  served object m (set_signals m (pending_signals m ++ ss)).
Proof.
  intros Ho Hss. split; try done; simpl.
  - intros id'. destruct (terminals m !! id'); constructor. apply same_shape_refl.
  - exists ss. split; [done|]. rewrite Ho. eapply Forall_impl; [exact Hss|]. by intros s <-.
Qed.
(** The invariant follows from that of the queues. *)
Lemma served_ok object m m' :
  manager_ok m → served object m m' → (∀ id t, terminals m' !! id = Some t → line_ok (line t)) → manager_ok m'.
Proof.
  intros [H1 H2 H3 H4 H5 H6 H7 H8 H9 H10 H11] [_ B C D _ _ G _] Hl.
  assert (∀ id u, terminals m' !! id = Some u → ∃ t, terminals m !! id = Some t ∧ same_shape t u) as Hb.
  { intros id u Hu. specialize (G id). rewrite Hu in G. inversion G; subst. by eexists. }
  assert (∀ id t, terminals m !! id = Some t → ∃ u, terminals m' !! id = Some u ∧ same_shape t u) as Hf.
  { intros id u Hu. specialize (G id). rewrite Hu in G. inversion G; subst. by eexists. }
  unfold same_shape in *. split; rewrite ?B, ?C, ?D; try done.
  - intros o id side Ho. destruct (H1 o id side Ho) as (t & (u & Hu & E1 & E2 & E3 & E4 & _)%Hf & Hlt & Hs).
    exists u. by rewrite E1, E2, E3, E4.
  - intros id u o (t & Ht & _ & E & _)%Hb. rewrite E. by apply H2.
  - intros id u (t & Ht & E1 & _ & E2 & _)%Hb. rewrite E1, E2. by apply H3.
  - intros id u (t & Ht & _ & _ & _ & E & _)%Hb. rewrite E. by apply H4.
  - intros f id Hfid. destruct (H5 f id Hfid) as [[t Ht] ?]. split; [|done].
    destruct (Hf _ _ Ht) as (u & Hu & _). by exists u.
  - intros id u (t & Ht & _ & _ & E1 & E2 & _)%Hb. rewrite E1, E2. by apply H6.
  - intros id u (t & Ht & _ & _ & E1 & _ & E2)%Hb. rewrite E1, E2. by eapply H7.
  - intros id [u (t & Ht & _)%Hb]. apply H11. by exists t.
Qed.

(** A served request that keeps the invariant. *)
Definition serves (object : Z) (m m' : PtyManager) : Prop := served object m m' ∧ manager_ok m'.
Lemma serves_refl object m : manager_ok m → serves object m m.
Proof. split; [apply served_refl|done]. Qed.
Lemma serves_put object id side m t t' :
  manager_ok m → objects m !! object = Some (id, side) → terminals m !! id = Some t → same_shape t t' →
  line_ok (line t') → serves object m (put_terminal m id t').
Proof.
  intros Hok Ho Ht Hs Hl. assert (served object m (put_terminal m id t')) as Hsv by by eapply served_put.
  split; [done|]. eapply served_ok; [done..|]. intros id' u. simpl. rewrite lookup_insert.
  case_decide; [by intros [= <-]|by eapply mo_lines].
Qed.
Lemma serves_signals object id side m m' ss :
  serves object m m' → objects m !! object = Some (id, side) → Forall (λ s, terminal_id s = id) ss →
  serves object m (set_signals m' (pending_signals m' ++ ss)).
Proof.
  intros [Hs Hok] Ho Hss. split; [|by apply ok_set_signals]. eapply served_trans; [done|].
  eapply served_signals; [|done]. by rewrite (sv_objects _ _ _ Hs).
Qed.
Lemma serves_trans object m1 m2 m3 : serves object m1 m2 → serves object m2 m3 → serves object m1 m3.
Proof. intros [H1 _] [H2 H3]. split; [by eapply served_trans|done]. Qed.

Lemma serves_on_line {A} object (f : PtySide → PseudoTerminal → Line * result Z A) m :
  manager_ok m → (∀ side t, line_ok (line t) → line_ok (f side t).1) →
  serves object m (on_line object f m).1.
Proof.
  intros Hok Hf. unfold on_line. destruct (_ ≫= _) as [[[id side] t]|e] eqn:E; [|by apply serves_refl].
  unfold endpoint, get_terminal in E. inv_result. destruct (f side t) as [l res] eqn:Ef. simpl.
  eapply serves_put; [done..|]. simpl. replace l with (f side t).1 by by rewrite Ef.
  apply Hf. by eapply mo_lines.
Qed.
Lemma serves_read object maximum m : manager_ok m → 0 ≤ maximum → serves object m (read object maximum m).1.
Proof.
  intros Hok Hm. unfold read. destruct (maximum =? 0) eqn:E; [by apply serves_refl|]. apply Z.eqb_neq in E.
  apply serves_on_line; [done|]. intros [] t Ht; [by apply ok_read_output|apply ok_read_input; [done|lia]].
Qed.
Lemma serves_write object bytes m :
  manager_ok m → ∃ m' res, write object bytes m = Some (m', res) ∧ serves object m m'.
Proof.
  intros Hok. unfold write. destruct (_ ≫= _) as [[[id side] t]|e] eqn:E;
    [|eexists _, _; split; [done|by apply serves_refl]].
  unfold endpoint, get_terminal in E. inv_result.
  case_bool_decide; [eexists _, _; split; [done|by apply serves_refl]|].
  pose proof (mo_lines _ _ Hok _ _ ltac:(eassumption)) as Hl. destruct side.
  - destruct (write_master_total (slave_open t) (line t) bytes Hl) as (l & res & -> & Hl').
    assert (serves object m (put_terminal m id (set_line t l))) as Hs by by eapply serves_put.
    simpl. destruct res as [[k ss]|e]; eexists _, _; (split; [done|]); [|done].
    refine (serves_signals object id Master m (put_terminal m id (set_line t l)) _ Hs _ _); [done|].
    apply Forall_fmap, Forall_true. done.
  - destruct (write_slave (master_open t) (line t) bytes) as [l res] eqn:Ew.
    eexists _, _; split; [done|]. eapply serves_put; [done..|]. simpl.
    replace l with (write_slave (master_open t) (line t) bytes).1 by by rewrite Ew. by apply ok_write_slave.
Qed.

Lemma serves_set_attributes object a m : manager_ok m → serves object m (set_attributes object a m).1.
Proof.
  intros Hok. unfold set_attributes. destruct (negb _); [by apply serves_refl|].
  apply serves_on_line; [done|]. intros _ t Ht. by apply ok_change_attributes.
Qed.
Lemma serves_set_attributes_when_drained object a flush m :
  manager_ok m → serves object m (set_attributes_when_drained object a flush m).1.
Proof.
  intros Hok. unfold set_attributes_when_drained. destruct (negb _); [by apply serves_refl|].
  match goal with |- context [on_line object ?f m] => pose proof (serves_on_line object f m Hok) as Hs end.
  destruct (on_line _ _ _) as [m' [[]|e]]; simpl in *.
  1: eapply serves_trans; [|apply serves_set_attributes].
  all: try apply Hs; intros _ t Ht; pose proof (ok_drain (master_open t) _ Ht) as Hd;
    destruct (drain_line _ _) as [l [[]|?]], flush; simpl in *; try done; by apply ok_flush_input.
Qed.
Lemma serves_flush_queues object flags m : manager_ok m → serves object m (flush_queues object flags m).1.
Proof.
  intros Hok. apply serves_on_line; [done|]. intros _ t Ht. cbn [fst].
  destruct (flag flags TERMINAL_FLUSH_INPUT), (flag flags TERMINAL_FLUSH_OUTPUT); auto using ok_flush_input, ok_flush_output.
Qed.
Lemma serves_flow object input capacity m : manager_ok m → serves object m (flow_control object input capacity m).1.
Proof.
  intros Hok. unfold flow_control. destruct (_ ≫= _); [|by apply serves_refl].
  apply serves_on_line; [done|]. intros _ t Ht.
  destruct (_ =? TERMINAL_FLOW_OUTPUT_STOP); [by apply ok_stopped|].
  destruct (_ =? TERMINAL_FLOW_OUTPUT_START); [by apply ok_stopped|].
  match goal with |- context [send_flow ?o ?i ?l] =>
    pose proof (ok_send_flow o i l Ht); by destruct (send_flow o i l) end.
Qed.
Lemma serves_control object code input capacity m :
  manager_ok m → serves object m (control object code input capacity m).1.
Proof.
  intros Hok. pose proof (serves_refl object m Hok) as Hr. unfold control, no_output.
  destruct (_ || _).
  { unfold slave_lock_control. destruct (_ ≫= _) as [[[value id] t]|e] eqn:E; [|done].
    destruct (code =? PTY_CONTROL_SET_SLAVE_LOCK); [|done].
    apply result_bind_Ok in E as (? & _ & E). unfold endpoint, get_terminal in E. inv_result.
    eapply serves_put; [done..|]. simpl. by eapply mo_lines. }
  destruct (_ =? _); [done|]. destruct (_ =? _); [by apply serves_flow|].
  destruct (_ =? _); [done|]. destruct (_ =? _); [done|].
  destruct (_ =? _).
  { unfold window_size_control. destruct (_ ≫= _) as [[[w id] t]|e] eqn:E; [|done].
    unfold endpoint, get_terminal in E. inv_result. destruct (negb _); [|done].
    assert (serves object m (put_terminal m id (set_window t w))) as Hs
      by (eapply serves_put; [done..|]; simpl; by eapply mo_lines).
    eapply (serves_signals object id _ m (put_terminal m id (set_window t w))); [done..|]. by repeat constructor. }
  destruct (_ =? _); [done|]. destruct (_ || _).
  { unfold set_attributes_control, no_output. destruct (_ ≫= _); [|done]. simpl.
    destruct (_ =? _); [by apply serves_set_attributes|by apply serves_set_attributes_when_drained]. }
  destruct (_ =? _).
  { destruct (_ || _); [done|]. apply serves_on_line; [done|]. intros _ t Ht. by apply ok_drain. }
  destruct (_ =? _); [|done]. destruct (_ ≫= _); [by apply serves_flush_queues|done].
Qed.
Lemma serves_provider m h payload :
  manager_ok m → 0 ≤ request_length h →
  ∃ m' res, provider_result m h payload = Some (m', res) ∧ serves (object_id h) m m'.
Proof.
  intros Hok Hn. pose proof (serves_refl (object_id h) m Hok) as Hr. unfold provider_result, with_data, with_value.
  destruct (_ =? _); [eexists _, _; split; [done|]; by apply serves_read|].
  destruct (_ =? _).
  { destruct (serves_write (object_id h) payload m Hok) as (m' & res & -> & ?). by eexists _, _. }
  destruct (_ =? _); [by eexists _, _|].
  destruct (_ =? _); [eexists _, _; split; [done|]; by apply serves_control|].
  repeat destruct (_ =? _); by eexists _, _.
Qed.

(** *** Closing *)

Lemma has_factory_true m id : has_factory m id = true ↔ ∃ f, slave_factories m !! f = Some id.
Proof.
  unfold has_factory. rewrite bool_decide_eq_true, Exists_exists. split.
  - intros ([f id'] & Hf%elem_of_map_to_list & E). simpl in *. subst. by exists f.
  - intros [f Hf]. exists (f, id). split; [by apply elem_of_map_to_list|done].
Qed.
(** Dropping a terminal that is open on neither side and has no factory. *)
Lemma ok_remove m id t :
  manager_but (Some id) m → terminals m !! id = Some t → master_open t = false → slave_open t = false →
  has_factory m id = false → manager_ok (remove_terminal m id).
Proof.
  intros [H1 H2 H3 H4 H5 H6 H7 H8 H9 H10 H11] Ht Hm Hs Hf. split; simpl; try done.
  - intros o id' side Ho. destruct (H1 o id' side Ho) as (u & Hu & Hlu & Hside). exists u. split; [|done].
    rewrite lookup_delete_ne; [done|]. intros <-. replace u with t in * by congruence. destruct side; naive_solver congruence.
  - intros id' u o [_ Hu]%lookup_delete_Some. by apply H2.
  - intros id' u [_ Hu]%lookup_delete_Some. by apply H3.
  - intros id' u [_ Hu]%lookup_delete_Some. by apply H4.
  - intros f id' Hf'. destruct (H5 f id' Hf') as [Hu Ho]. split; [|done]. rewrite lookup_delete_ne; [done|].
    intros <-. enough (has_factory m id = true) by congruence. apply has_factory_true. by exists f.
  - intros id' u [Hne Hu]%lookup_delete_Some _. apply H6; [done|congruence].
  - intros id' u [_ Hu]%lookup_delete_Some. by eapply H7.
  - intros id' u [_ Hu]%lookup_delete_Some. by eapply H9.
  - intros id' [u [_ Hu]%lookup_delete_Some]. apply H11. by exists u.
Qed.
Lemma ok_keep m id t :
  manager_but (Some id) m → terminals m !! id = Some t →
  master_open t = true ∨ slave_open t = true ∨ has_factory m id = true → manager_ok m.
Proof.
  intros [H1 H2 H3 H4 H5 H6 H7 H8 H9 H10 H11] Ht Hu. split; try done.
  intros id' u Hu' _. destruct (decide (id' = id)) as [->|Hne]; [|apply H6; [done|congruence]].
  replace u with t by congruence. by rewrite has_factory_true in Hu.
Qed.
Lemma ok_sweep m id t :
  manager_but (Some id) m → terminals m !! id = Some t →
  manager_ok (if negb (master_open t) && negb (slave_open t) && negb (has_factory m id)
              then remove_terminal m id else m).
Proof.
  intros Hb Ht. destruct (master_open t) eqn:Em; cbn [negb andb]; [by eapply ok_keep; eauto|].
  destruct (slave_open t) eqn:Es; cbn [negb andb]; [by eapply ok_keep; eauto|].
  destruct (has_factory m id) eqn:Ef; cbn [negb]; [by eapply ok_keep; eauto|by eapply ok_remove].
Qed.

(** The slave side stays open while another slave object is. *)
Lemma slaves_left m object id t :
  manager_ok m → objects m !! object = Some (id, Slave) → terminals m !! id = Some t →
  size (live_objects t ∖ {[object]}) = (if master_open t then 1 else 0)%nat ↔
  ¬ ∃ o, o ≠ object ∧ objects m !! o = Some (id, Slave).
Proof.
  intros Hok Ho Ht.
  assert (∀ o, o ∈ live_objects t ↔ ∃ side, objects m !! o = Some (id, side)) as Hlive.
  { intros o. split; [by eapply mo_live|]. intros [side Hside].
    destruct (mo_objects _ _ Hok _ _ _ Hside) as (u & Hu & Hl & _). by replace t with u by congruence. }
  assert (∀ o, objects m !! o = Some (id, Master) ↔ master_open t = true ∧ o = master_object_id (pair t)) as Hmaster.
  { intros o. split.
    - intros Hm. destruct (mo_objects _ _ Hok _ _ _ Hm) as (u & Hu & _ & Hs). by replace t with u by congruence.
    - intros [Hm ->]. by eapply mo_master. }
  assert (object ≠ master_object_id (pair t) ∨ master_open t = false) as Hne.
  { destruct (master_open t) eqn:E; [left; intros ->|by right].
    assert (objects m !! master_object_id (pair t) = Some (id, Master)) by by apply Hmaster. congruence. }
  split.
  - intros Hs (o & Hno & Hso). assert (o ∈ live_objects t) by (apply Hlive; by eexists).
    destruct (master_open t) eqn:E.
    + assert (objects m !! master_object_id (pair t) = Some (id, Master)) as Hm by by apply Hmaster.
      assert (o ≠ master_object_id (pair t)) by congruence.
      assert (master_object_id (pair t) ∈ live_objects t) by (apply Hlive; by eexists).
      assert ({[o; master_object_id (pair t)]} ⊆ live_objects t ∖ {[object]}) as Hsub%subseteq_size
        by (destruct Hne; [set_solver|done]).
      rewrite size_union, !size_singleton in Hsub by set_solver. lia.
    + apply size_empty_inv in Hs. set_solver.
  - intros Hno. replace (live_objects t ∖ {[object]})
      with (if master_open t then {[master_object_id (pair t)]} else ∅ : gset Z).
    { destruct (master_open t); [apply size_singleton|apply size_empty]. }
    apply set_eq. intros o. rewrite elem_of_difference, Hlive, elem_of_singleton. destruct (master_open t) eqn:E.
    + rewrite elem_of_singleton. split; [intros ->; split; [exists Master; by apply Hmaster|naive_solver]|].
      intros [[[] Hside] Hoo]; [by apply Hmaster in Hside as [_ ?]|exfalso; eauto].
    + split; [set_solver|]. intros [[[] Hside] Hoo]; [by apply Hmaster in Hside as [? _]|exfalso; eauto].
Qed.

(** Forgetting one object of a terminal, which becomes [t']. *)
Lemma but_drop_object m object id side t t' :
  manager_ok m → objects m !! object = Some (id, side) → slave_factories m !! object = None →
  terminals m !! id = Some t → pair t' = pair t → live_objects t' = live_objects t ∖ {[object]} →
  master_open t' = (if side is Master then false else master_open t) →
  match side with
  | Master => slave_open t' = slave_open t
  | Slave => slave_open t' = true ↔ ∃ o, o ≠ object ∧ objects m !! o = Some (id, Slave)
  end →
  (is_Some (name t') → master_open t' = true) → line_ok (line t') →
  manager_but (Some id)
    (put_terminal (set_metadata (set_objects m (delete object (objects m))) (delete object (metadata m))) id t').
Proof.
  intros Hok Ho Hf Ht Ep El Em Es Hn Hl. pose proof Hok as [H1 H2 H3 H4 H5 H6 H7 H8 H9 H10 H11].
  split; simpl.
  - intros o id' side' [Hne Ho']%lookup_delete_Some. destruct (H1 o id' side' Ho') as (u & Hu & Hlu & Hs).
    rewrite lookup_insert. case_decide; [|by exists u]. subst id'. replace u with t in * by congruence.
    exists t'. split; [done|]. rewrite El, Ep. split; [set_solver|].
    destruct (H1 _ _ _ Ho) as (u' & Hu' & _ & Hs'). replace u' with t in * by congruence.
    destruct side', side; naive_solver congruence.
  - intros id' u o. rewrite lookup_insert. case_decide.
    + subst id'. intros [= <-]. rewrite El. intros [Hlo Hno%not_elem_of_singleton]%elem_of_difference.
      rewrite lookup_delete_ne by done. by eapply H2.
    + intros Hu Hlo. destruct (H2 id' u o Hu Hlo) as [side' Hside]. exists side'.
      rewrite lookup_delete_ne; [done|congruence].
  - intros id' u. rewrite lookup_insert. case_decide.
    + subst id'. intros [= <-] Hm. rewrite Ep. rewrite Em in Hm. destruct side; [done|].
      rewrite lookup_delete_ne; [by apply H3|]. specialize (H3 _ _ Ht Hm). congruence.
    + intros Hu Hm. specialize (H3 _ _ Hu Hm). rewrite lookup_delete_ne; [done|congruence].
  - intros id' u. rewrite lookup_insert. case_decide.
    + subst id'. intros [= <-] Hs. destruct side.
      * rewrite Es in Hs. destruct (H4 _ _ Ht Hs) as [o Hso]. exists o. rewrite lookup_delete_ne; [done|congruence].
      * apply Es in Hs as (o & Hne & Hso). exists o. by rewrite lookup_delete_ne.
    + intros Hu Hs. destruct (H4 _ _ Hu Hs) as [o Hso]. exists o. rewrite lookup_delete_ne; [done|congruence].
  - intros f id' Hf'. destruct (H5 f id' Hf') as [Hu Hfo]. split.
    + rewrite lookup_insert. case_decide; [by eexists|done].
    + apply lookup_delete_None. by right.
  - intros id' u. rewrite lookup_insert. case_decide; [congruence|]. intros Hu _. by apply H6.
  - intros id' u. rewrite lookup_insert. case_decide; [by intros [= <-]|]. by apply H7.
  - intros o [r [Hne Hr]%lookup_delete_Some]. destruct (H8 o) as [id' Hid']; [by eexists|].
    exists id'. by rewrite lookup_delete_ne.
  - intros id' u. rewrite lookup_insert. case_decide; [by intros [= <-]|]. by apply H9.
  - intros o Hu. apply H10. destruct Hu as [[x [_ Hx]%lookup_delete_Some]|Hu]; [left; by eexists|by right].
  - intros id'. rewrite lookup_insert. case_decide; [|apply H11]. subst. intros _. apply H11. by eexists.
Qed.
Lemma but_ok m id : manager_ok m → manager_but (Some id) m.
Proof. intros [H1 H2 H3 H4 H5 H6 H7 H8 H9 H10 H11]. split; try done. intros id' t Ht _. by apply H6. Qed.
Lemma but_retire_signals c m n ss : manager_but c m → manager_but c (set_signals (retire_name m n) ss).
Proof. intros [H1 H2 H3 H4 H5 H6 H7 H8 H9 H10 H11]. by split. Qed.

(** Closing a side of an open object never fails. *)
Lemma close_side_ok m id side object t :
  manager_ok m → objects m !! object = Some (id, side) → slave_factories m !! object = None →
  terminals m !! id = Some t →
  ∃ m' t', close_side (set_metadata (set_objects m (delete object (objects m))) (delete object (metadata m)))
             id side object t = (m', Ok t') ∧ terminals m' !! id = Some t' ∧ manager_but (Some id) m'.
Proof.
  intros Hok Ho Hf Ht. destruct (mo_objects _ _ Hok _ _ _ Ho) as (u & Hu & _ & Hs).
  replace u with t in * by congruence. clear u Hu. pose proof (mo_lines _ _ Hok _ _ Ht) as Hl. unfold close_side.
  destruct side; [destruct Hs as [Hs Eo]|]; rewrite Hs; eexists _, _; (split; [done|]); simpl;
    rewrite lookup_insert_eq; (split; [done|]).
  - refine (but_retire_signals _ (put_terminal _ id _) _ _ _).
    eapply (but_drop_object m object id Master t); try done. simpl. by intros [? ?].
  - pose proof (slaves_left m object id t Hok Ho Ht) as Hleft.
    assert (¬ (¬ ∃ o, o ≠ object ∧ objects m !! o = Some (id, Slave)) →
      ∃ o, o ≠ object ∧ objects m !! o = Some (id, Slave)) as Hdec.
    { intros Hnn. destruct (decide (Exists (λ x, x.1 ≠ object ∧ x.2 = (id, Slave)) (map_to_list (objects m)))) as [He|He].
      - apply Exists_exists in He as ([o x] & Hx%elem_of_map_to_list & Hne & E). simpl in *. subst. by exists o.
      - exfalso. apply Hnn. intros (o & Hne & Hx). apply He, Exists_exists. exists (o, (id, Slave)).
        split; [by apply elem_of_map_to_list|done]. }
    case_bool_decide as Hsz; eapply (but_drop_object m object id Slave t); try done; simpl.
    + split; [done|]. apply Hleft in Hsz. done.
    + by eapply mo_name.
    + by apply ok_stopped.
    + split; [|done]. intros _. apply Hdec. by rewrite <- Hleft.
    + by eapply mo_name.
Qed.
Lemma ok_release object m : manager_ok m → manager_ok (release object m).1.
Proof.
  intros Hok. unfold release. destruct (slave_factories m !! object) as [id|] eqn:Ef.
  - destruct (mo_factories _ _ Hok _ _ Ef) as [[t Ht] _]. cbn [fst].
    assert (manager_but (Some id) (set_factories m (delete object (slave_factories m)))) as Hb.
    { destruct Hok as [H1 H2 H3 H4 H5 H6 H7 H8 H9 H10 H11]. split; simpl; try done.
      - intros f id' [_ Hf]%lookup_delete_Some. by apply H5.
      - intros id' u Hu Hne. destruct (H6 id' u Hu) as [?|[?|[f Hf]]]; [done|by left|by right; left|].
        right; right. exists f. rewrite lookup_delete_ne; [done|congruence].
      - intros o Ho. apply H10. destruct Ho as [?|[x [_ Hx]%lookup_delete_Some]]; [by left|right; by eexists]. }
    change (terminals (set_factories _ _)) with (terminals m). rewrite Ht. by apply ok_sweep.
  - unfold endpoint. destruct (objects m !! object) as [[id side]|] eqn:Eo; simpl; [|done].
    destruct (mo_objects _ _ Hok _ _ _ Eo) as (t & Ht & _). unfold get_terminal. simpl. rewrite Ht. simpl.
    destruct (close_side_ok m id side object t Hok Eo Ef Ht) as (m' & t' & -> & Ht' & Hb). simpl. by apply ok_sweep.
Qed.
Lemma pair_terminal_Some m p id t : pair_terminal m p = Some (id, t) → terminals m !! id = Some t ∧ pair t = p.
Proof.
  unfold pair_terminal. intros ([i [id' t']] & Hx & E)%bind_Some. simpl in E. injection E as -> ->.
  apply list_find_Some in Hx as (Hl & Hp & _). split; [|done].
  apply list_elem_of_lookup_2 in Hl. rewrite merge_sort_Permutation in Hl. by apply elem_of_map_to_list.
Qed.
Lemma ok_discard p m : manager_ok m → manager_ok (discard p m).
Proof.
  intros Hok. unfold discard. destruct (pair_terminal m p) as [[id t]|] eqn:E; [|done].
  apply pair_terminal_Some in E as [Ht _]. destruct Hok as [H1 H2 H3 H4 H5 H6 H7 H8 H9 H10 H11]. split; simpl.
  - intros o id' side [Ho Hne]%map_lookup_filter_Some. simpl in Hne.
    destruct (H1 o id' side Ho) as (u & Hu & Hs). exists u. rewrite lookup_delete_ne; done.
  - intros id' u o [Hne Hu]%lookup_delete_Some Hl. destruct (H2 id' u o Hu Hl) as [side Hs]. exists side.
    apply map_lookup_filter_Some. by split.
  - intros id' u [Hne Hu]%lookup_delete_Some Hm. apply map_lookup_filter_Some. split; [by apply H3|done].
  - intros id' u [Hne Hu]%lookup_delete_Some Hs. destruct (H4 id' u Hu Hs) as [o Ho]. exists o.
    apply map_lookup_filter_Some. by split.
  - intros f id' [Hf Hne]%map_lookup_filter_Some. simpl in Hne. destruct (H5 f id' Hf) as [Hs Ho].
    rewrite lookup_delete_ne by done. split; [done|]. apply map_lookup_filter_None. by left.
  - intros id' u [Hne Hu]%lookup_delete_Some Hc. destruct (H6 id' u Hu Hc) as [?|[?|[f Hf]]]; [by left|by right; left|].
    right; right. exists f. apply map_lookup_filter_Some. by split.
  - intros id' u [Hne Hu]%lookup_delete_Some. by eapply H7.
  - intros o [r [Hr Hl]%map_lookup_filter_Some]. simpl in Hl. destruct (H8 o) as [id' Ho]; [by eexists|]. exists id'.
    apply map_lookup_filter_Some. split; [done|]. simpl. intros ->.
    destruct (H1 _ _ _ Ho) as (u & Hu & Hlu & _). by replace t with u in Hl by congruence.
  - intros id' u [Hne Hu]%lookup_delete_Some. by eapply H9.
  - intros o Ho. apply H10.
    destruct Ho as [[x [Hx _]%map_lookup_filter_Some]|[x [Hx _]%map_lookup_filter_Some]]; [left|right]; by eexists.
  - intros id' [u [Hne Hu]%lookup_delete_Some]. apply H11. by eexists.
Qed.

(** *** Reachable managers *)

(** The calls of the service: what opens and closes terminals, and the
    provider requests. *)
Inductive manager_reachable : PtyManager → Prop :=
  | mr_new : manager_reachable manager_new
  | mr_open m locked : manager_reachable m → manager_reachable (open_with_slave_lock locked m).1
  | mr_reopen m master : manager_reachable m → manager_reachable (reopen_slave master m).1
  | mr_factory m master : manager_reachable m → manager_reachable (create_slave_factory master m).1
  | mr_attach m master n : manager_reachable m → manager_reachable (attach_slave_name master n m).1
  | mr_open_factory m factory : manager_reachable m → manager_reachable (open_slave_from_factory factory m).1
  | mr_open_metadata m factory r : manager_reachable m → manager_reachable (open_slave_with_metadata factory r m).1
  | mr_signal m : manager_reachable m → manager_reachable (take_terminal_signal m).1
  | mr_release m object : manager_reachable m → manager_reachable (release object m).1
  | mr_discard m p : manager_reachable m → manager_reachable (discard p m)
  | mr_request m m' h payload res :
      manager_reachable m → 0 ≤ request_length h → provider_result m h payload = Some (m', res) →
      manager_reachable m'.

Lemma ok_reachable m : manager_reachable m → manager_ok m.
Proof.
  induction 1.
  - apply ok_manager_new.
  - by apply ok_open.
  - by apply ok_reopen.
  - by apply ok_factory.
  - by apply ok_attach.
  - by apply ok_from_factory.
  - by apply ok_with_metadata.
  - unfold take_terminal_signal. destruct (pending_signals m); [done|by apply ok_set_signals].
  - by apply ok_release.
  - by apply ok_discard.
  - destruct (serves_provider m h payload) as (m1 & r1 & E & Hs); [done..|]. destruct Hs. congruence.
Qed.

(** ** What the terminals promise *)

(** A terminal exists exactly while an object or a factory refers to it. *)
Lemma terminal_None m id :
  manager_ok m →
  terminals m !! id = None ↔
  (∀ o, fst <$> objects m !! o ≠ Some id) ∧ ∀ f, slave_factories m !! f ≠ Some id.
Proof.
  intros Hok. split.
  - intros Hn. split.
    + intros o ([id' side] & Ho & E)%fmap_Some. simpl in E. subst.
      destruct (mo_objects _ _ Hok _ _ _ Ho) as (t & Ht & _). congruence.
    + intros f Hf. destruct (mo_factories _ _ Hok _ _ Hf) as [[t Ht] _]. congruence.
  - intros [Ho Hf]. destruct (terminals m !! id) as [t|] eqn:Ht; [exfalso|done].
    destruct (mo_used _ _ Hok _ _ Ht) as [Hm|[Hs|[f Hf']]]; [done|..].
    + apply (Ho (master_object_id (pair t))). by rewrite (mo_master _ _ Hok _ _ Ht Hm).
    + destruct (mo_slave _ _ Hok _ _ Ht Hs) as [o Hso]. apply (Ho o). by rewrite Hso.
    + by eapply Hf.
Qed.
Lemma sweep_result m id t :
  manager_but (Some id) m → terminals m !! id = Some t →
  let m' := if negb (master_open t) && negb (slave_open t) && negb (has_factory m id)
            then remove_terminal m id else m in
  objects m' = objects m ∧ slave_factories m' = slave_factories m ∧ retired m' = retired m ∧
  ∀ id', id' ≠ id → terminals m' !! id' = terminals m !! id'.
Proof.
  intros Hb Ht. destruct (master_open t) eqn:Em; cbn [negb andb]; [done|].
  destruct (negb (slave_open t) && _); [|done]. split_and!; [done|done| |].
  - unfold remove_terminal. simpl. rewrite Ht. simpl.
    destruct (name t) as [n|] eqn:En; [|apply app_nil_r].
    pose proof (mo_name _ _ Hb _ _ Ht ltac:(by eexists)). congruence.
  - intros id' Hne. simpl. by rewrite lookup_delete_ne.
Qed.
Lemma close_side_result m id side object t m' t' :
  close_side m id side object t = (m', Ok t') →
  objects m' = objects m ∧ slave_factories m' = slave_factories m ∧
  retired m' = retired m ++ (if side is Master then option_list (name t) else []) ∧
  ∀ id', id' ≠ id → terminals m' !! id' = terminals m !! id'.
Proof.
  unfold close_side. intros E. destruct side; destruct (_ : bool); simplify_eq/=;
    rewrite ?app_nil_r; split_and!; try done; intros id' Hne; by rewrite lookup_insert_ne.
Qed.

(** C23: In every reachable state of the terminal manager, open objects, their
    terminals, factories and metadata references agree, queues are within
    bounds, and a terminal exists exactly while something refers to it;
    releasing an open object succeeds, forgets that object alone, withdraws
    the published name exactly when it is the master, and removes the
    terminal exactly when nothing refers to it any more. *)
Theorem manager_invariant m :
  manager_reachable m → manager_ok m ∧
  ∀ o id side t, objects m !! o = Some (id, side) → terminals m !! id = Some t →
    let m' := (release o m).1 in
    (release o m).2 = Ok tt ∧ objects m' = delete o (objects m) ∧
    retired m' = retired m ++ (if side is Master then option_list (name t) else []) ∧
    (∀ id', id' ≠ id → terminals m' !! id' = terminals m !! id') ∧
    (terminals m' !! id = None ↔
       (∀ o', o' ≠ o → fst <$> objects m !! o' ≠ Some id) ∧ ∀ f, slave_factories m !! f ≠ Some id).
Proof.
  intros Hok%ok_reachable. split; [done|]. intros o id side t Ho Ht.
  assert (slave_factories m !! o = None) as Hf.
  { destruct (slave_factories m !! o) as [id'|] eqn:E; [|done]. apply (mo_factories _ _ Hok) in E as [_ E]. congruence. }
  pose proof (ok_release o m Hok) as Hok'. pose proof (terminal_None _ id Hok') as Hn.
  destruct (close_side_ok m id side o t Hok Ho Hf Ht) as (m1 & t1 & E & Ht1 & Hb).
  revert Hok' Hn. unfold release, endpoint, get_terminal. rewrite Hf, Ho. cbn -[remove_terminal close_side].
  rewrite Ht. cbn -[remove_terminal close_side]. rewrite E. cbn -[remove_terminal].
  apply close_side_result in E as (E1 & E2 & E3 & E4). simpl in *.
  pose proof (sweep_result m1 id t1 Hb Ht1) as (S1 & S2 & S3 & S4). cbv zeta in *.
  rewrite S1, S2, S3, E1, E2, E3. intros _ ->. split_and!; try done.
  - intros id' Hne. rewrite S4, E4; done.
  - split; intros [H1 H2]; (split; [|done]); intros o'; [intros Hne|];
      specialize (H1 o'); revert H1; rewrite lookup_delete; case_decide; naive_solver.
Qed.

(** While identifiers are not exhausted, the bounded searches of opening a
    terminal always find them: the open succeeds with two fresh distinct
    objects on a fresh terminal and leaves everything else as it was. *)
Theorem open_succeeds m locked :
  manager_reachable m → Z.of_nat (size (terminals m)) < MAX_TERMINAL_ID →
  Z.of_nat (size (objects m) + size (slave_factories m)) < I64_MAX - 2 →
  ∃ m' p id, open_with_slave_lock locked m = (m', Ok p) ∧ manager_ok m' ∧
    terminals m !! id = None ∧ terminals m' = <[id := terminal_new p locked]> (terminals m) ∧
    objects m' = <[slave_object_id p := (id, Slave)]> (<[master_object_id p := (id, Master)]> (objects m)) ∧
    master_object_id p ≠ slave_object_id p ∧
    (∀ o, o = master_object_id p ∨ o = slave_object_id p →
      objects m !! o = None ∧ slave_factories m !! o = None ∧ metadata m !! o = None) ∧
    slave_factories m' = slave_factories m ∧ metadata m' = metadata m.
Proof.
  intros Hok%ok_reachable Ht Ho. pose proof (ok_open locked m Hok) as Hok'. revert Hok'.
  unfold open_with_slave_lock.
  destruct (allocate_id_total m Ht) as (m1 & id & E1). rewrite E1.
  apply allocate_id_Some in E1 as (n1 & -> & Hid & Hn).
  destruct (allocate_object_total (set_next_ids m n1 (next_object_id m))) as (m2 & master & E2);
    [unfold objects_bounded; simpl; lia|]. rewrite E2.
  apply allocate_object_Some in E2 as (n2 & -> & Hrm & Hm & Hfm). simpl in Hm, Hfm.
  match goal with |- context [allocate_object_id ?x] =>
    destruct (allocate_object_total x) as (m3 & slave & E3) end.
  { unfold objects_bounded. simpl. rewrite map_size_insert_None by done. lia. }
  rewrite E3. apply allocate_object_Some in E3 as (n3 & -> & Hrs & Hs & Hfs). simpl in Hs, Hfs.
  apply lookup_insert_None in Hs as [Hs Hne]. intros Hok'. eexists _, (mkPtyPair master slave), id. simpl.
  split_and!; try done. intros o Hoo.
  assert (objects m !! o = None ∧ slave_factories m !! o = None) as [H1 H2] by by destruct Hoo; subst.
  split_and!; [done|done|]. apply eq_None_not_Some. intros [? HH]%(mo_metadata _ _ Hok). congruence.
Qed.

Lemma served_unknown object m m' : served object m m' → objects m !! object = None → m' = m.
Proof.
  intros [[A1 A2] B C D E F _ (ss & G & H)] Ho. rewrite Ho in *.
  assert (terminals m' = terminals m) by (apply map_eq; intros id; by apply F).
  assert (ss = []) as -> by (destruct ss; [done|by apply Forall_cons in H as [? _]]). rewrite app_nil_r in G.
  destruct m, m'; simpl in *; by subst.
Qed.

(** *** Readiness *)

(** The bits that report readiness tell it from the other signals. *)
Definition handle_signals : list Z :=
  [HANDLE_SIGNAL_READABLE; HANDLE_SIGNAL_WRITABLE; HANDLE_SIGNAL_PEER_CLOSED; HANDLE_SIGNAL_IDLE].
Definition signals_distinct : Prop :=
  ∀ i j a b, handle_signals !! i = Some a → handle_signals !! j = Some b →
    (Z.land a b =? 0) = negb (bool_decide (i = j)).
Lemma flag_lor a b x : flag (Z.lor a b) x = flag a x || flag b x.
Proof.
  unfold flag. rewrite Z.land_lor_distr_l. apply eq_true_iff_eq.
  rewrite orb_true_iff, !negb_true_iff, !Z.eqb_neq. rewrite Z.lor_eq_0_iff. lia.
Qed.
Lemma signals_flags m object id side t s :
  signals_distinct → objects m !! object = Some (id, side) → terminals m !! id = Some t → signals_of m object = Ok s →
  flag s HANDLE_SIGNAL_READABLE = readable side t ∧ flag s HANDLE_SIGNAL_WRITABLE = writable side t ∧
  flag s HANDLE_SIGNAL_PEER_CLOSED = peer_closed side t.
Proof.
  intros Hd Ho Ht. unfold signals_of, endpoint, get_terminal. rewrite Ho. simpl. rewrite Ht. simpl. intros [= <-].
  assert (∀ i j a b, handle_signals !! i = Some a → handle_signals !! j = Some b → flag a b = bool_decide (i = j)) as Hf.
  { intros i j a b Ha Hb. unfold flag. by rewrite (Hd i j a b Ha Hb), negb_involutive. }
  assert (∀ x, flag 0 x = false) as H0 by done.
  clear Hd.
  pose proof (Hf 0%nat 0%nat _ _ eq_refl eq_refl) as G00. pose proof (Hf 0%nat 1%nat _ _ eq_refl eq_refl) as G01. pose proof (Hf 0%nat 2%nat _ _ eq_refl eq_refl) as G02.
  pose proof (Hf 1%nat 0%nat _ _ eq_refl eq_refl) as G10. pose proof (Hf 1%nat 1%nat _ _ eq_refl eq_refl) as G11. pose proof (Hf 1%nat 2%nat _ _ eq_refl eq_refl) as G12.
  pose proof (Hf 2%nat 0%nat _ _ eq_refl eq_refl) as G20. pose proof (Hf 2%nat 1%nat _ _ eq_refl eq_refl) as G21. pose proof (Hf 2%nat 2%nat _ _ eq_refl eq_refl) as G22.
  pose proof (Hf 3%nat 0%nat _ _ eq_refl eq_refl) as G30. pose proof (Hf 3%nat 1%nat _ _ eq_refl eq_refl) as G31. pose proof (Hf 3%nat 2%nat _ _ eq_refl eq_refl) as G32.
  simpl in *. clear Hf.
  destruct (readable side t), (writable side t), (peer_closed side t), (bool_decide (output (line t) = []));
    rewrite ?flag_lor, ?H0, ?G00, ?G01, ?G02, ?G10, ?G11, ?G12, ?G20, ?G21, ?G22, ?G30, ?G31, ?G32; done.
Qed.
(** A non-canonical read that asks for nothing and waits for nothing. *)
Definition polling (side : PtySide) (l : Line) : bool :=
  bool_decide (side = Slave) && negb (icanon l) && (cc l TERMINAL_CC_VMIN =? 0) && (cc l TERMINAL_CC_VTIME =? 0).
Lemma slave_bytes_first l b bytes : can_append_output l [b] = true → (0 < (slave_bytes l (b :: bytes)).2)%nat.
Proof. intros E. simpl. rewrite E. simpl. destruct (slave_bytes _ bytes). simpl. lia. Qed.
Lemma slave_bytes_full l b bytes : can_append_output l [b] = false → slave_bytes l (b :: bytes) = (l, O).
Proof. intros E. simpl. by rewrite E. Qed.
Lemma slave_writable t b :
  line_ok (line t) → output_bytes_for (line t) b = 1 ∨ writable Slave t = false →
  writable Slave t = master_open t && can_append_output (line t) [b].
Proof.
  intros Hl Hb. pose proof (output_bytes_bounds (line t) b) as Hbb. apply eq_true_iff_eq. unfold writable in *.
  rewrite !andb_true_iff, bool_decide_eq_true, Z.ltb_lt, can_append_output_true by apply (lo_output _ Hl).
  simpl. rewrite app_nil_r, zlen_expand. split.
  - intros [[H1 H2] H3]. split_and!; [done|done|]. destruct Hb as [?|Hb]; [lia|].
    rewrite H1, bool_decide_eq_true_2 in Hb by done. simpl in Hb. lia.
  - intros (H1 & H2 & H3). split_and!; [done|done|lia].
Qed.
Lemma read_unfold object maximum m id side t :
  objects m !! object = Some (id, side) → terminals m !! id = Some t → 0 < maximum →
  (read object maximum m).2 =
  match side with
  | Slave => (read_input (master_open t) maximum (line t)).2
  | Master => (read_output (slave_open t) maximum (line t)).2
  end.
Proof.
  intros Ho Ht Hm. unfold read. replace (maximum =? 0) with false by lia.
  unfold on_line, endpoint, get_terminal. rewrite Ho. simpl. rewrite Ht. simpl.
  destruct side; [by destruct (read_output _ _ _)|by destruct (read_input _ _ _)].
Qed.

(** The readiness reported for a terminal object is exact: a read succeeds
    when it is readable and otherwise would block, or is empty when the peer
    is closed or the mode polls; a slave write fails when it is not writable
    and accepts at least one byte that needs one byte of room when it is. *)
Theorem readiness_exact m object id side t s maximum :
  signals_distinct → manager_reachable m → objects m !! object = Some (id, side) → terminals m !! id = Some t →
  signals_of m object = Ok s → 0 < maximum →
  (if flag s HANDLE_SIGNAL_READABLE
   then ∃ bytes, (read object maximum m).2 = Ok bytes ∧ (side = Master → bytes ≠ [])
   else (read object maximum m).2 =
          if flag s HANDLE_SIGNAL_PEER_CLOSED || polling side (line t) then Ok [] else Err EAGAIN) ∧
  (side = Slave → ∀ b bytes,
     if flag s HANDLE_SIGNAL_WRITABLE
     then output_bytes_for (line t) b = 1 → ∃ m' n, write object (b :: bytes) m = Some (m', Ok n) ∧ 0 < n
     else ∃ m', write object (b :: bytes) m =
            Some (m', Err (if flag s HANDLE_SIGNAL_PEER_CLOSED then EIO else EAGAIN))).
Proof.
  intros Hd Hok%ok_reachable Ho Ht Hs Hm. destruct (signals_flags _ _ _ _ _ _ Hd Ho Ht Hs) as (-> & -> & ->).
  pose proof (mo_lines _ _ Hok _ _ Ht) as Hl. rewrite (read_unfold object maximum m id side t) by done. split.
  - unfold readable, polling, peer_closed. destruct side; simpl.
    + unfold read_output. assert (output (line t) ≠ [] → (Z.to_nat (Z.min maximum (zlen (output (line t)))) ≠ 0)%nat) as Hn.
      { destruct (output (line t)); [done|]. unfold zlen. simpl. lia. }
      case_bool_decide as Eo; [rewrite Eo|];
        destruct (output_stopped (line t)), (output_manually_stopped (line t)), (slave_open t); simpl;
        rewrite ?Z.min_r by (unfold zlen; simpl; lia); try done;
        rewrite bool_decide_eq_false_2 by auto; eexists; (split; [done|]);
        intros _ E%(f_equal length); revert E; rewrite length_take; simpl; specialize (Hn Eo); unfold zlen in *; lia.
    + unfold read_input. destruct (input_records (line t)) as [|r rs]; simpl; [by destruct (master_open t)|].
      destruct (_ =? 0); by eexists.
  - intros -> b bytes. unfold write, endpoint, get_terminal.
    destruct (writable Slave t) eqn:Ew; rewrite Ho; simpl; rewrite Ht; simpl; unfold write_slave.
    + intros Hb. rewrite (slave_writable t b Hl) in Ew by by left. apply andb_true_iff in Ew as [-> Hc]. cbn [negb].
      pose proof (slave_bytes_first _ _ bytes Hc). destruct (slave_bytes _ _) as [l k]. simpl in *.
      destruct k; [lia|]. eexists _, _. split; [done|lia].
    + pose proof (slave_writable t b Hl (or_intror Ew)) as E. rewrite Ew in E.
      destruct (master_open t); cbn [andb negb] in *; [|by eexists]. rewrite slave_bytes_full by done. by eexists.
Qed.
End Manager.

(** ** A manager *)

(** One code for each operation, the payload as the encoding of its data. *)
Instance example_pty : PtyProtocol := {|
  pty_terminal := example_protocol;
  sane := example_cooked;
  WindowSize := Z;
  window_size_default := 0;
  PTY_CONTROL_SET_SLAVE_LOCK := 1; PTY_CONTROL_GET_SLAVE_LOCK := 2; PTY_CONTROL_GET_SLAVE_NAME := 3;
  PTY_CONTROL_FLOW := 4; PTY_CONTROL_GET_LIMITS := 5; PTY_CONTROL_GET_WINDOW_SIZE := 6;
  PTY_CONTROL_SET_WINDOW_SIZE := 7; PTY_CONTROL_GET_ATTRIBUTES := 8;
  PTY_CONTROL_SET_ATTRIBUTES_NOW := 9; PTY_CONTROL_SET_ATTRIBUTES_DRAIN := 10;
  PTY_CONTROL_SET_ATTRIBUTES_FLUSH := 11; PTY_CONTROL_DRAIN := 12; PTY_CONTROL_FLUSH := 13;
  PTY_QUERY_LIMITS := 1; PTY_QUERY_ATTRIBUTES := 2; PTY_QUERY_WINDOW_SIZE := 3; PTY_QUERY_READ_SETTINGS := 4;
  TERMINAL_FLUSH_INPUT := 1; TERMINAL_FLUSH_OUTPUT := 2;
  TERMINAL_ATTRIBUTES_LEN := 4; TERMINAL_WINDOW_SIZE_LEN := 1; TERMINAL_READ_SETTINGS_LEN := 3;
  LIMITS_RESPONSE_LEN := 3;
  encode_pty_name := Some;
  TERMINAL_FLOW_OUTPUT_STOP := 0; TERMINAL_FLOW_OUTPUT_START := 1;
  TERMINAL_FLOW_INPUT_STOP := 2; TERMINAL_FLOW_INPUT_START := 3;
  decode_terminal_flow := λ bytes, match bytes with [a] => if a <? 4 then Some a else None | _ => None end;
  decode_terminal_window_size := λ bytes, match bytes with [w] => Some w | _ => None end;
  decode_terminal_attributes := λ bytes,
    match bytes with [i; o; l; c] => Some (mkAttributes i o l c example_characters) | _ => None end;
  decode_terminal_flush := λ bytes, match bytes with [f] => Some f | _ => None end;
  encode_limits := λ a b c, [a; b; c];
  encode_terminal_attributes := λ a, Some [input_flags a; output_flags a; local_flags a; control_flags a];
  encode_terminal_window_size := λ w, Some [w];
  encode_terminal_read_settings := λ n vmin vtime, Some [if n then 1 else 0; vmin; vtime];
  HANDLE_SIGNAL_READABLE := 1; HANDLE_SIGNAL_WRITABLE := 2; HANDLE_SIGNAL_PEER_CLOSED := 4;
  HANDLE_SIGNAL_IDLE := 8;
  HANDLE_RIGHT_TRANSFER := 1; HANDLE_RIGHT_DUPLICATE := 2; HANDLE_RIGHT_CONTROL := 4;
  OP_RELEASE := 0; OP_READ := 1; OP_WRITE := 2; OP_SEEK := 3; OP_CONTROL := 4; OP_QUERY := 5;
  OP_MEMORY_OBJECT := 6;
  decode_request := λ bytes,
    match bytes with o :: i :: b :: n :: payload => Some (mkRequestHeader o i b n, payload) | _ => None end;
  encode_response := λ o s i v data response, (o :: s :: i :: v :: data, Some (4 + zlen data));
|}.
(** Two terminals, "hi" written on the first one's slave side. *)
Definition example_opened : PtyManager := (open (open manager_new).1).1.
Definition example_manager : PtyManager :=
  default example_opened (fst <$> provider_result example_opened (mkRequestHeader 2 3 0 0) [104; 105]).
Lemma example_manager_reachable : manager_reachable example_manager.
Proof.
  eapply (mr_request example_opened example_manager (mkRequestHeader 2 3 0 0) [104; 105] (Ok (2, []))).
  - apply mr_open, mr_open, mr_new.
  - done.
  - vm_compute. reflexivity.
Qed.
Definition terminal_summary (t : PseudoTerminal) : list Z * option Name * bool * bool :=
  (output (line t), name t, master_open t, slave_open t).
Lemma example_computed :
  terminal_summary <$> terminals example_manager !! 1 = Some ([104; 105], None, true, true) ∧
  objects example_manager !! 2 = Some (1, Master) ∧ objects example_manager !! 3 = Some (1, Slave) ∧
  signals_of example_manager 2 = Ok 3 ∧
  size (terminals example_manager) = 2%nat ∧
  (size (objects example_manager) + size (slave_factories example_manager))%nat = 4%nat.
Proof. split_and!; vm_compute; reflexivity. Qed.
Lemma example_first : ∃ t, terminals example_manager !! 1 = Some t.
Proof. destruct example_computed as ((t & Ht & _)%fmap_Some & _). exists t. exact Ht. Qed.

Lemma manager_invariant_witness :
  (release 2 example_manager).2 = Ok tt ∧ terminals (release 2 example_manager).1 !! 1 ≠ None ∧
  terminals (release 2 example_manager).1 !! 2 = terminals example_manager !! 2.
Proof.
  destruct example_first as [t Ht]. destruct example_computed as (_ & H2 & H3 & _).
  destruct (manager_invariant example_manager example_manager_reachable) as [_ H].
  destruct (H 2 1 Master t H2 Ht) as (R1 & _ & _ & R2 & R3).
  split_and!; [exact R1| |apply R2; lia].
  intros Hn. apply R3 in Hn as [Hn _]. apply (Hn 3); [lia|]. rewrite H3. reflexivity.
Defined.

Lemma open_succeeds_witness :
  ∃ m' p id, open_with_slave_lock true example_manager = (m', Ok p) ∧ terminals example_manager !! id = None ∧
    objects m' !! master_object_id p = Some (id, Master).
Proof.
  destruct example_computed as (_ & _ & _ & _ & S1 & S2).
  destruct (open_succeeds example_manager true example_manager_reachable) as (m' & p & id & E & _ & H1 & _ & H2 & H3 & _).
  - rewrite S1. reflexivity.
  - rewrite S2. reflexivity.
  - exists m', p, id. split_and!; [exact E|exact H1|].
    rewrite H2, lookup_insert_ne by (intros ?; apply H3; congruence). apply lookup_insert_eq.
Defined.


Lemma example_signals : signals_distinct.
Proof.
  intros i j a b Ha Hb. unfold handle_signals in *.
  do 4 (destruct i as [|i]; [do 4 (destruct j as [|j]; [by simplify_eq/=|]); done|]). done.
Qed.
Lemma readiness_exact_witness :
  ∃ bytes, (read 2 1 example_manager).2 = Ok bytes ∧ bytes ≠ [].
Proof.
  destruct example_first as [t Ht]. destruct example_computed as (_ & H2 & _ & Hs & _).
  destruct (readiness_exact example_manager 2 1 Master t 3 1 example_signals example_manager_reachable H2 Ht Hs
              ltac:(lia)) as [(bytes & R1 & R2) _].
  exists bytes. split; [exact R1|apply R2; reflexivity].
Defined.
